(* ===== verification/_CoqProject ===== *)
-Q . S2P
Overview.v
Prelude.v
Str.v
Io.v
SeekSequence.v
PatchParser.v
PatchParserFacts.v
Paths.v
PatchApply.v
PatchApplyFacts.v
TokenData.v
AuthStorage.v
AccountRegistry.v
AccountRegistryFacts.v
AuthManager.v
AuthManagerFacts.v
AuthRecovery.v
SamplingLoop.v
AuthWitness.v
ExecPolicy.v
ExecPolicyFacts.v
Amend.v
Shell.v
ShellFacts.v
CommandSafety.v
Permissions.v
PermissionsFacts.v
ExecApproval.v
ExecApprovalFacts.v
Truncate.v
TruncateFacts.v
History.v
HistoryFacts.v
HeadTailBuffer.v
StreamParser.v
StreamParserFacts.v
StreamChunking.v
Utf8Stream.v
NetAddr.v
NetPolicy.v
NetRuntime.v
NetPolicyFacts.v
NetRuntimeFacts.v
Rollout.v
RolloutFacts.v
RolloutTurns.v
LegacyPolicy.v
LegacyPolicyFacts.v
LegacyCheck.v
AgentPath.v
AgentRegistry.v
AgentSpawn.v
AgentSpawnFacts.v
AgentControl.v
AgentPromises.v
Compaction.v
CompactionFacts.v
CompactionPromises.v
HookOutput.v
Hooks.v
HookEvents.v
HookDiscovery.v
HookRuntime.v
HookFacts.v
HookPromises.v
NetworkApproval.v
NetworkApprovalFacts.v
PermissionProfiles.v
PermissionProfilesFacts.v
Orchestrator.v
ExecOutput.v
Runtimes.v
OrchestratorFacts.v
TextArea.v
TextAreaFacts.v
TextAreaPromises.v
PasteBurst.v
PasteBurstPromises.v
TranscriptStream.v
TranscriptPromises.v
