(* ===== verification/Overview.v ===== *)
(** * Super Codex: a verification development

    The repository is a coding agent.  A thread holds a conversation with a
    model; the model asks for commands to be run, files to be patched and
    sub-agents to be spawned; policies decide what may run, in which sandbox, and
    who is asked; credentials of several accounts are kept and rotated.  The
    program is the Rust workspace [src/codex-rs].  This library models the parts
    of it that decide something, each as executable Rocq definitions that follow
    the code function by function, and proves what makes each part correct.

    ** How code is modelled

    A Rust function is a Rocq function with the same name and the same branches;
    a loop is a structural recursion, or a recursion with fuel.  [Result<A, E>] is
    [result E A] of [Prelude.v], which has a third outcome, [Crash]: a panic
    (slice out of range, failed [expect]) or fuel that ran out.  Fuel is always
    computed from the input by the definition that uses it, and every theorem
    about a result shows that [Crash] is not one, so that enough fuel is part of
    what is proved.  A string is the list of its Unicode scalar values ([Str.v]),
    bytes are numbers below 256; machine integers are [Z] or [N] with wrap-around
    or saturation written out where the code can reach it.  A hash map is a
    [gmap], or a list when the order is kept; where its iteration order could
    matter it is a parameter.  Code with effects passes its state on explicitly
    ([Io.v]); code that shares state between tasks is a step relation or a run
    against a world that says what the others do in between.

    Whatever is not in the repository is a parameter: serde_json, base64,
    tree-sitter, Starlark, shlex, regular expressions, globs, URLs, the keyring,
    HTTP.  What the code relies on there is a type class or a section hypothesis
    that states the documented behaviour ([LawfulFileSystem],
    [LawfulAuthSerde], [LawfulRegistrySerde], [LawfulReaders], the append-only
    handle of [RulesFs], [LawfulRuntime], ...), and a concrete instance on which the witnesses of
    the theorems are evaluated ([PatchApplyFacts.v], [AuthWitness.v], and the example modules
    at the end of other files).

    ** The parts

    - Patches ([apply-patch/src]).  [SeekSequence.v] locates old lines,
      [PatchParser.v] parses a patch, [PatchApply.v] applies its hunks to a file
      system; [Paths.v] resolves paths ([utils/absolute-path]).  Theorems
      ([PatchParserFacts.v], [PatchApplyFacts.v]): the parser returns on every
      text and inverts printing; replacements are the left-to-right splice; a
      patch refines the sequence of its hunks, and a failing one leaves the
      effects of the hunks before it.
    - Credentials ([login/src]).  [TokenData.v] (the record), [AuthStorage.v] (the
      stores), [AccountRegistry.v] (saved accounts), [AuthManager.v] (loading,
      reloading, refresh, logout, switch, rotation), [SamplingLoop.v] (the retry
      loop of [core/src/session/turn.rs] that rotates accounts).  Theorems: the
      registry implements a finite map; nothing the manager does adds or loses a
      saved account; switching away and back restores the credentials; recovery
      and sampling are bounded.
    - Which commands run.  [ExecPolicy.v] and [Amend.v] ([execpolicy/src]: rules,
      evaluation, amendments), [LegacyPolicy.v] ([execpolicy-legacy/src]),
      [Shell.v] and [CommandSafety.v] ([shell-command/src]), [Permissions.v]
      ([protocol/src/permissions.rs]), [ExecApproval.v]
      ([core/src/exec_policy.rs]), which puts them together: a command is taken
      apart by [Shell.v], judged by the rules of [ExecPolicy.v] or, where there
      are none, by [CommandSafety.v], and the approval policy and the permissions
      decide who is asked and whether a sandbox is used.  Theorems: the strictest
      rule decides; the sandbox is bypassed exactly for explicit rules; the forms of
      a forced [rm] that are recognised are guarded; the most specific permission decides and writable
      roots are sound; a command that the legacy policy clears is well typed and
      reads only what it may.
    - The conversation.  [History.v] ([core/src/context_manager]), [Rollout.v]
      ([core/src/session/rollout_reconstruction.rs],
      [thread_rollout_truncation.rs]), [Compaction.v] ([core/src/compact.rs],
      [compact_remote.rs] and what they use of the session), [Truncate.v] and
      [HeadTailBuffer.v] (output kept within budgets).  Theorems: prompts pair
      every call with its output; rebuilding a history equals replaying its
      rollout; a compaction ends, asks with well-formed prompts, and replaces the
      history in the session and in the rollout alike ([CompactionFacts.v] has
      the rounds of requests as a relation, [CompactionPromises.v] the theorems);
      truncation keeps both ends within the budget.
    - Hooks ([hooks/src], [core/src/hook_runtime.rs]).  [HookDiscovery.v] finds the
      handlers of the configuration, [HookOutput.v] reads what a process printed,
      [Hooks.v] selects handlers and runs their processes at the same time,
      [HookEvents.v] says what the results mean for each event, [HookRuntime.v]
      puts hooks around tools, input and the end of a turn.  A schedule says in
      which order the processes end; a computation that waits for one that has
      not ended has no value.  Theorems ([HookPromises.v]): a tool does
      not run exactly when a selected handler denies it, whatever the order; the first denial of a permission wins; every run that
      is shown as started is shown as completed; input that waits is not lost; the
      handlers found can be run and have different ids.
    - Streamed text ([utils/stream-parser/src]).  [StreamParser.v] and
      [Utf8Stream.v].  Theorems ([StreamChunking.v]): the output does not depend on
      how the stream is cut, for characters and for bytes.
    - The network proxy ([network-proxy/src]).  [NetAddr.v], [NetPolicy.v],
      [NetRuntime.v], whose module [NetSources] has where the states of the proxy
      come from: the configurations that [core/src/config/network_proxy_spec.rs] and
      [core/src/network_proxy_loader.rs] build, validate and reload.  Theorems
      ([NetRuntimeFacts.v]): from a proxy that one of these started, managed limits
      hold under every interleaving of blocks, allowances, reloads and replaced
      states; managed denials are enforced; requests that pass go to public hosts.
      [NetworkApproval.v] ([core/src/tools/network_approval.rs]) is the service
      that the proxy asks about hosts on no list, with its requests as tasks that
      take steps in any order.  Theorems ([NetworkApprovalFacts.v]): a
      request is let through only when the host was answered for; one request at a
      time asks about a host; every request ends, unless the one that asks is
      dropped, which blocks the others for good.
    - Running tools.  [PermissionProfiles.v] ([sandboxing/src/policy_transforms.rs],
      the profiles of [protocol/src/models.rs]) has the permissions that a command
      asks for on top of its sandbox; [Orchestrator.v]
      ([core/src/tools/orchestrator.rs], the traits of [sandboxing.rs]) runs a tool:
      approval, choice of the sandbox, attempt, retry; the traits are a class
      [ToolRuntime], against which its theorems are proved, and [Runtimes.v] has
      its instances: shell commands, unified execution, and patches, which are
      applied by [PatchApply.v].  [ExecOutput.v] ([core/src/exec.rs]) says what the
      end of a process means.  Theorems ([PermissionProfilesFacts.v],
      [OrchestratorFacts.v]): a grant
      is cut down to what was requested, grants add up, and survive being written
      down; a run follows the protocol of approvals whatever the user, the
      reviewer and the hooks do ([permitted] of [OrchestratorFacts.v]); under the
      policy that never asks nobody is asked but the guardian, and that one only when
      every action is to be reviewed; approvals for the session are
      remembered for their keys only; no registration with the network approvals
      outlives its call.
    - The text area of the terminal interface ([tui/src/bottom_pane/textarea.rs],
      [wrap_ranges] of [tui/src/wrapping.rs]).  [TextArea.v] has its state and every
      operation and key, with positions in bytes.  Theorems ([TextAreaFacts.v],
      [TextAreaPromises.v]): no sequence of keys and calls makes it panic; a key
      edits elements whole; what was killed can be yanked back; the cursor's line is
      drawn.  [PasteBurst.v] ([tui/src/bottom_pane/paste_burst.rs], the keys and
      pastes of [chat_composer.rs], pasted paths of [clipboard_paste.rs]) tells pastes from typing by the clock: a burst
      holds characters back, and the composer moves them into the text.  Theorems
      ([PasteBurstPromises.v]): typed text of less than a large paste arrives whole
      and in order, unless an [Enter] overtakes a held character or a piece of it is
      the path of an image; every burst ends; the window for [Enter]
      ends with it.
    - Streaming into the transcript ([tui/src/streaming],
      [tui/src/markdown_stream.rs], the handlers of [chatwidget.rs]).
      [TranscriptStream.v] renders a message as its lines become complete, queues the
      lines, and shows them tick by tick.  Theorems ([TranscriptPromises.v]): for
      every renderer, a message is shown in order under one header as the lines that
      its deltas commit and its end adds, which is the rendered message unless the
      renderer takes back complete lines of it; waiting lines are shown; the policy of ticks
      changes gear with hysteresis.
    - Sub-agents ([core/src/agent], [protocol/src/agent_path.rs]).  [AgentPath.v],
      [AgentRegistry.v], [AgentSpawn.v] (the tasks, as a step relation at the grain
      of atomics and locks), [AgentControl.v].  Theorems ([AgentPromises.v]): the
      count is that of the live agents, the spawns in progress and the agents that a
      resume of the same thread replaced, of which there are none when no thread in use
      is resumed, and it keeps the limit; a spawn is all or nothing; names resolve to their agents; the
      descendants that are shut down are found exactly.

    A file [XFacts.v] proves what its model [X.v] promises; further theorems are
    in the files named above.  [Prelude.v] has the result monad, the automation
    and the shared lemmas on lists; components depend on one another only where
    their code does.

    ** Fuel

    The walks over syntax trees take the size of the tree; the patch parser the
    number of lines; resolution of suffixes and string searches the length of the
    string; the descendants of a thread the number of its threads; update loops of
    the network proxy the number of changes by other tasks plus one; a compaction
    the number of items times the number of retries, as every round removes an
    item or is a retry.  The theorems on each state that this is enough.

    ** What is not modelled

    Rendering and event plumbing of the terminal interface outside of its text
    area, the keys its composer edits with and the streaming of messages (the
    Markdown renderer is a parameter), the app server's
    protocol dispatch, HTTP, SOCKS and TLS of the network proxy, command-line
    parsing, telemetry, and the databases of [state/src] are input, output and
    generated types around the parts above.  The Windows variants of path and
    sandbox code are left out, as the models are of the Unix build (the keys and
    paste bursts of the composer are modelled for both).  The single
    model request of the sampling loop, the creation of threads, and processes
    started by the code (PowerShell's parser) are parameters, as are the answers
    of the model to a compaction and the initial context it puts back.  Of the
    authentication manager, revocation requests and agent identities are left
    out.  Of tools, what a sandboxed process does is a parameter, and with it
    the rewriting of its command line (shell snapshots, the zsh fork, the
    platform's sandbox command); a run is modelled without cancellation, and
    while it asks a person nothing else changes the network approvals.  Of hooks,
    times, the text of discovery warnings, the JSON that processes read, and the
    notification after an agent are left out; of a turn, what is modelled is its
    sampling loop, when it compacts, how it takes its input and
    what its stop hooks make it do. *)
