(* ===== verification/Prelude.v ===== *)
(** * Prelude

    The result monad of code that can fail, the automation of the development,
    and the lemmas on lists, options and integers that its files share. *)
From stdpp Require Export base list gmap strings sorting.
From Stdlib Require Export NArith ZArith Lia.


(** ** Results of code that can fail *)

(** Rust's [Result<A, E>], error type first so that it is a monad in [A], with
    a third outcome for code that never returns a value: [Crash] is a panic
    (an index out of bounds, a failed [expect]) or a loop that used up the fuel
    the model gives it.  Theorems show where [Crash] cannot occur. *)
Inductive result (E A : Type) : Type :=
| Ok (a : A)
| Err (e : E)
| Crash.
Arguments Ok {E A} a.
Arguments Err {E A} e.
Arguments Crash {E A}.

#[export] Instance result_ret E : MRet (result E) := λ A a, Ok a.
#[export] Instance result_bind E : MBind (result E) := λ A B f m,
  match m with Ok a => f a | Err e => Err e | Crash => Crash end.
#[export] Instance result_fmap E : FMap (result E) := λ A B f m,
  match m with Ok a => Ok (f a) | Err e => Err e | Crash => Crash end.

(** [Result::map_err]. *)
Definition map_err {E F A} (f : E → F) (m : result E A) : result F A :=
  match m with Ok a => Ok a | Err e => Err (f e) | Crash => Crash end.

(** [Option::ok_or]. *)
Definition ok_or {E A} (e : E) (o : option A) : result E A :=
  match o with Some a => Ok a | None => Err e end.

Definition is_ok {E A} (m : result E A) : bool :=
  match m with Ok _ => true | _ => false end.

(** A computation that panics when its value is missing. *)
Definition expect {E A} (o : option A) : result E A :=
  match o with Some a => Ok a | None => Crash end.

(** [&l[n..]], which panics when [n] is past the end. *)
Definition slice_from {E A} (l : list A) (n : nat) : result E (list A) :=
  if n <=? length l then Ok (drop n l) else Crash.

#[export] Instance result_eq_dec {E A} `{EqDecision E, EqDecision A} : EqDecision (result E A).
Proof. solve_decision. Defined.

Lemma result_bind_Ok {E A B} (m : result E A) (f : A → result E B) b :
  m ≫= f = Ok b ↔ ∃ a, m = Ok a ∧ f a = Ok b.
Proof. destruct m; naive_solver. Qed.

Lemma result_bind_Err {E A B} (m : result E A) (f : A → result E B) e :
  m ≫= f = Err e ↔ m = Err e ∨ ∃ a, m = Ok a ∧ f a = Err e.
Proof. destruct m; naive_solver. Qed.

Lemma result_bind_Crash {E A B} (m : result E A) (f : A → result E B) :
  m ≫= f = Crash ↔ m = Crash ∨ ∃ a, m = Ok a ∧ f a = Crash.
Proof. destruct m; naive_solver. Qed.

Lemma slice_from_Ok {E A} (l : list A) n :
  n ≤ length l → slice_from (E:=E) l n = Ok (drop n l).
Proof. intros H. unfold slice_from. by rewrite (proj2 (Nat.leb_le _ _) H). Qed.

(** ** Automation *)

(** Turns boolean tests in hypotheses and goal into propositions. *)
Ltac bool_to_prop :=
  repeat match goal with
  | H : andb _ _ = true |- _ => apply andb_true_iff in H as [??]
  | H : orb _ _ = false |- _ => apply orb_false_iff in H as [??]
  | H : negb _ = true |- _ => apply negb_true_iff in H
  | H : negb _ = false |- _ => apply negb_false_iff in H
  | H : bool_decide _ = true |- _ => apply bool_decide_eq_true in H
  | H : bool_decide _ = false |- _ => apply bool_decide_eq_false in H
  | H : Nat.eqb _ _ = true |- _ => apply Nat.eqb_eq in H
  | H : Nat.eqb _ _ = false |- _ => apply Nat.eqb_neq in H
  | H : Nat.leb _ _ = true |- _ => apply Nat.leb_le in H
  | H : Nat.leb _ _ = false |- _ => apply Nat.leb_gt in H
  | H : Nat.ltb _ _ = true |- _ => apply Nat.ltb_lt in H
  | H : Nat.ltb _ _ = false |- _ => apply Nat.ltb_ge in H
  end.

(** Splits every match and conditional of the goal, keeping the equations. *)
Ltac split_cases := repeat (case_match; simplify_eq/=; try done).

(** Takes apart a successful sequence of fallible steps. *)
Ltac inv_result :=
  repeat match goal with
  | H : _ ≫= _ = Ok _ |- _ => apply result_bind_Ok in H as (?&?&?)
  | H : Ok _ = Ok _ |- _ => injection H as H
  | H : Err _ = Ok _ |- _ => discriminate H
  | H : Ok _ = Err _ |- _ => discriminate H
  | H : Err _ = Err _ |- _ => injection H as H
  end; simplify_eq/=.

(** ** Generic list lemmas *)

(** The position of the first index in [[from, from+n)] that satisfies [p]:
    the shape of every [for i in a..b { if p(i) { return Some(i) } }] loop. *)
Fixpoint find_index_from (p : nat → bool) (from n : nat) : option nat :=
  match n with
  | 0 => None
  | S n' => if p from then Some from else find_index_from p (S from) n'
  end.

Lemma find_index_from_Some p from n i :
  find_index_from p from n = Some i ↔
  from ≤ i < from + n ∧ p i = true ∧ ∀ j, from ≤ j < i → p j = false.
Proof.
  revert from. induction n as [|n IH]; intros from; simpl.
  - split; [done|lia].
  - destruct (p from) eqn:Hp; [split|rewrite IH; split].
    + intros [= <-]. split_and!; [lia..|done|lia].
    + intros (?&?&Hmin). destruct (decide (i = from)) as [->|]; [done|].
      rewrite (Hmin from) in Hp; [done|lia].
    + intros (?&?&Hmin). split_and!; [lia..|done|]. intros j ?.
      destruct (decide (j = from)) as [->|]; [done|]. apply Hmin. lia.
    + intros (?&Hi&Hmin). split_and!; [|lia|done|intros; apply Hmin; lia].
      destruct (decide (i = from)) as [->|]; [congruence|lia].
Qed.

Lemma find_index_from_None p from n :
  find_index_from p from n = None ↔ ∀ j, from ≤ j < from + n → p j = false.
Proof.
  revert from. induction n as [|n IH]; intros from; simpl; [split; [lia|done]|].
  destruct (p from) eqn:Hp.
  - split; [done|]. intros H. rewrite H in Hp; [done|lia].
  - rewrite IH. split; intros H j Hj; [|apply H; lia].
    destruct (decide (j = from)) as [->|]; [done|]. apply H. lia.
Qed.

(** Rust's [Iterator::max] over a total preorder given by a rank. *)
Lemma last_cons_is_Some {A} (x : A) l : is_Some (last (x :: l)).
Proof. revert x. induction l as [|y l IH]; intros x; simpl; [done|apply IH]. Qed.

(** All but the last element: [&v[..v.len() - 1]]. *)
Definition but_last {A} (l : list A) : list A := take (length l - 1) l.

Lemma but_last_snoc {A} (l : list A) x : but_last (l ++ [x]) = l.
Proof.
  unfold but_last. rewrite length_app; simpl.
  by rewrite Nat.add_sub, take_app_length.
Qed.

Lemma but_last_length {A} (l : list A) : length (but_last l) = length l - 1.
Proof. unfold but_last. rewrite length_take. lia. Qed.

Lemma last_snoc_inv {A} (l : list A) x : last l = Some x → l = but_last l ++ [x].
Proof.
  destruct l as [|l y] using rev_ind; [done|].
  rewrite last_snoc, but_last_snoc. by intros [= ->].
Qed.

Lemma filter_all {A} (P : A → Prop) `{∀ x, Decision (P x)} (l : list A) :
  (∀ x, x ∈ l → P x) → filter P l = l.
Proof.
  induction l as [|x l IH]; intros Hall; [done|]. rewrite filter_cons_True by (apply Hall; by left).
  by rewrite IH by (intros; apply Hall; by right).
Qed.

(** Membership under the boolean quantifiers used by executable code. *)
Lemma forallb_Forall {A} (f : A → bool) l : forallb f l = true ↔ Forall (λ x, f x = true) l.
Proof. induction l; simpl; [done|]. rewrite andb_true_iff, Forall_cons. naive_solver. Qed.

Create HintDb codex discriminated.
#[export] Hint Resolve last_cons_is_Some : codex.
Create Rewrite HintDb codex.
#[export] Hint Rewrite @but_last_snoc @but_last_length @last_snoc @length_app : codex.
