(* ===== verification/Str.v ===== *)
(** * Rust strings

    A Rust [str] is modelled as the list of its Unicode scalar values, each a
    number.  This file gives the functions of the Rust standard library on
    [str] and [char] that the modelled code calls ([trim], [lines], [split],
    [join], [strip_prefix], [find], ...), executable, with the lemmas the
    components share.  Nothing here is code of the repository. *)
From S2P Require Import Prelude.

Abbreviation char := N (only parsing).
Abbreviation str := (list N) (only parsing).

(** ASCII literals. *)
Definition lit (s : string) : str := Stdlib.Strings.Ascii.N_of_ascii <$> String.list_ascii_of_string s.

Definition NL : char := 10%N.
Definition CR : char := 13%N.
Definition SPACE : char := 32%N.
Definition DQUOTE : char := 34%N.
Definition SQUOTE : char := 39%N.

(** [char::is_whitespace]: the Unicode property White_Space. *)
Definition is_whitespace (c : char) : bool :=
  (((9 <=? c) && (c <=? 13)) || (c =? 32) || (c =? 133) || (c =? 160) || (c =? 5760)
   || ((8192 <=? c) && (c <=? 8202)) || (c =? 8232) || (c =? 8233) || (c =? 8239)
   || (c =? 8287) || (c =? 12288))%N.

Definition is_ascii_digit (c : char) : bool := ((48 <=? c) && (c <=? 57))%N.

(** [char::to_ascii_lowercase] and [str::to_ascii_lowercase]. *)
Definition char_to_ascii_lowercase (c : char) : char :=
  if ((65 <=? c) && (c <=? 90))%N then (c + 32)%N else c.
Definition to_ascii_lowercase (s : str) : str := char_to_ascii_lowercase <$> s.

(** [char::len_utf8] and [str::len]. *)
Definition len_utf8 (c : char) : nat :=
  if (c <? 128)%N then 1 else if (c <? 2048)%N then 2 else if (c <? 65536)%N then 3 else 4.
Fixpoint byte_len (s : str) : nat :=
  match s with [] => 0 | c :: s' => len_utf8 c + byte_len s' end.

(** ** Trimming *)

Fixpoint trim_start_matches (p : char → bool) (s : str) : str :=
  match s with
  | [] => []
  | c :: s' => if p c then trim_start_matches p s' else s
  end.
Definition trim_end_matches (p : char → bool) (s : str) : str :=
  reverse (trim_start_matches p (reverse s)).

Definition trim_start : str → str := trim_start_matches is_whitespace.
Definition trim_end : str → str := trim_end_matches is_whitespace.
Definition trim (s : str) : str := trim_end (trim_start s).

(** ** Prefixes, suffixes and searching *)

Fixpoint strip_prefix (p s : str) : option str :=
  match p, s with
  | [], _ => Some s
  | a :: p', b :: s' => if (a =? b)%N then strip_prefix p' s' else None
  | _ :: _, [] => None
  end.

Definition starts_with (s p : str) : bool :=
  match strip_prefix p s with Some _ => true | None => false end.

Definition strip_suffix (p s : str) : option str :=
  reverse <$> strip_prefix (reverse p) (reverse s).

Definition ends_with (s p : str) : bool :=
  match strip_suffix p s with Some _ => true | None => false end.

(** [str::find] with a string needle, as a position counted in scalar values. *)
Fixpoint find (s needle : str) : option nat :=
  if starts_with s needle then Some 0
  else match s with [] => None | _ :: s' => S <$> find s' needle end.

Definition contains (s needle : str) : bool :=
  match find s needle with Some _ => true | None => false end.

Definition contains_char (s : str) (c : char) : bool := existsb (N.eqb c) s.

(** ** Splitting and joining *)

(** [str::split(char)]: never empty. *)
Fixpoint split_on (c : char) (s : str) : list str :=
  match s with
  | [] => [[]]
  | d :: s' =>
      if (d =? c)%N then [] :: split_on c s'
      else match split_on c s' with
           | piece :: rest => (d :: piece) :: rest
           | [] => [[d]]
           end
  end.

Fixpoint split_once (c : char) (s : str) : option (str * str) :=
  match s with
  | [] => None
  | d :: s' =>
      if (d =? c)%N then Some ([], s')
      else match split_once c s' with Some (a, b) => Some (d :: a, b) | None => None end
  end.

Definition rsplit_once (c : char) (s : str) : option (str * str) :=
  match split_once c (reverse s) with
  | Some (b, a) => Some (reverse a, reverse b)
  | None => None
  end.

Fixpoint join (sep : str) (ls : list str) : str :=
  match ls with
  | [] => []
  | [l] => l
  | l :: ls' => l ++ sep ++ join sep ls'
  end.

(** [str::lines]: pieces end at a line feed, with an optional carriage return
    before it; the last piece needs no line ending and is dropped if empty. *)
Definition strip_cr (l : str) : str := default l (strip_suffix [CR] l).
Definition lines (s : str) : list str :=
  let pieces := split_on NL s in
  (strip_cr <$> but_last pieces) ++
  match last pieces with Some [] | None => [] | Some l => [l] end.

(** ** Order *)

(** The order of [Ord] on vectors, given one on their elements; strings are
    ordered by their bytes, which is by their characters. *)
Fixpoint lex_le {A} (le : A → A → bool) (a b : list A) : bool :=
  match a, b with
  | [], _ => true
  | _ :: _, [] => false
  | x :: a, y :: b => if le x y then if le y x then lex_le le a b else true else false
  end.
Definition str_le : str → str → bool := lex_le N.leb.

(** [Vec::sort] on strings. *)
Fixpoint insert_str (x : str) (l : list str) : list str :=
  match l with
  | [] => [x]
  | y :: l' => if str_le x y then x :: l else y :: insert_str x l'
  end.
Definition sort_strs : list str → list str := foldr insert_str [].

(** ** Lemmas: trimming *)

Lemma trim_start_matches_id p c s : p c = false → trim_start_matches p (c :: s) = c :: s.
Proof. intros H. simpl. by rewrite H. Qed.

Lemma trim_start_matches_idemp p s :
  trim_start_matches p (trim_start_matches p s) = trim_start_matches p s.
Proof. induction s as [|c s IH]; simpl; [done|]. destruct (p c) eqn:E; simpl; by rewrite ?E. Qed.

Lemma trim_end_matches_id p s c : p c = false → trim_end_matches p (s ++ [c]) = s ++ [c].
Proof.
  intros H. unfold trim_end_matches. rewrite reverse_snoc; simpl. rewrite H.
  by rewrite reverse_cons, reverse_involutive.
Qed.

Lemma trim_end_last s c : last s = Some c → is_whitespace c = false → trim_end s = s.
Proof. intros ->%last_snoc_inv ?. by apply trim_end_matches_id. Qed.

Lemma trim_id s c d :
  head s = Some c → is_whitespace c = false →
  last s = Some d → is_whitespace d = false → trim s = s.
Proof.
  intros Hh Hc Hl Hd. destruct s as [|c' s]; simplify_eq/=.
  unfold trim, trim_start. rewrite trim_start_matches_id by done.
  by eapply trim_end_last.
Qed.

Lemma trim_start_matches_snoc p s c :
  p c = true → trim_start_matches p (s ++ [c]) =
    match trim_start_matches p s with [] => [] | l => l ++ [c] end.
Proof.
  intros Hc. induction s as [|d s IH]; simpl; [by rewrite Hc|].
  destruct (p d); [done|reflexivity].
Qed.

Lemma trim_start_matches_app_r (p : char → bool) (s t : str) :
  Forall (λ c, p c = true) t →
  ∃ t', Forall (λ c, p c = true) t' ∧
  trim_start_matches p (s ++ t) = trim_start_matches p s ++ t'.
Proof.
  intros Ht. induction s as [|d s IH]; simpl.
  - exists []. split; [done|]. induction Ht as [|c t Hc _ IH]; simpl; [done|]. by rewrite Hc.
  - destruct (p d); [done|]. by exists t.
Qed.

Lemma trim_end_matches_nil p : trim_end_matches p [] = [].
Proof. done. Qed.

(** What trimming the end cuts off: a suffix of trimmed characters. *)
Lemma trim_end_matches_suffix p s :
  ∃ t, s = trim_end_matches p s ++ t ∧ Forall (λ c, p c = true) t.
Proof.
  unfold trim_end_matches. assert (∀ r, ∃ t, r = t ++ trim_start_matches p r ∧
    Forall (λ c, p c = true) t) as H.
  { induction r as [|c r (t&Hr&Ht)]; simpl; [by exists []|].
    destruct (p c) eqn:E; [|by exists []]. exists (c :: t). simpl. by rewrite <-Hr; auto. }
  destruct (H (reverse s)) as (t&Hs&Ht). exists (reverse t). split.
  - by rewrite <-reverse_app, <-Hs, reverse_involutive.
  - by apply Forall_reverse.
Qed.

Lemma trim_end_matches_app p s t :
  Forall (λ c, p c = true) t → trim_end_matches p (s ++ t) = trim_end_matches p s.
Proof.
  intros Ht. unfold trim_end_matches. rewrite reverse_app. f_equal.
  apply Forall_reverse in Ht. induction Ht as [|c r Hc _ IH]; simpl; [done|]. by rewrite Hc.
Qed.

(** Trimming both sides does not see trailing white space. *)
Lemma trim_trim_end s : trim (trim_end s) = trim s.
Proof.
  destruct (trim_end_matches_suffix is_whitespace s) as (t&Hs&Ht).
  unfold trim. fold trim_end in Hs. rewrite Hs at 2. unfold trim_start.
  destruct (trim_start_matches_app_r is_whitespace (trim_end s) t Ht) as (t'&Ht'&->).
  symmetry. by apply trim_end_matches_app.
Qed.

Lemma trim_start_matches_app_last p s c :
  p c = false → ∃ x, trim_start_matches p (s ++ [c]) = x ++ [c].
Proof.
  intros Hc. induction s as [|d s IH]; simpl; [exists []; by rewrite Hc|].
  destruct (p d); [done|by exists (d :: s)].
Qed.

Lemma trim_end_nonempty c s : is_whitespace c = false → trim_end (c :: s) ≠ [].
Proof.
  intros Hc H. unfold trim_end, trim_end_matches in H. apply (f_equal reverse) in H.
  rewrite reverse_involutive, reverse_cons, reverse_nil in H.
  destruct (trim_start_matches_app_last is_whitespace (reverse s) c Hc) as (x&Hx).
  rewrite Hx in H. by destruct x.
Qed.

Lemma trim_nonempty c s : is_whitespace c = false → trim (c :: s) ≠ [].
Proof.
  intros Hc. unfold trim, trim_start. rewrite trim_start_matches_id by done.
  by apply trim_end_nonempty.
Qed.

(** ** Lemmas: prefixes *)

Lemma strip_prefix_Some p s r : strip_prefix p s = Some r ↔ s = p ++ r.
Proof.
  revert s. induction p as [|a p IH]; intros [|b s]; simpl; try naive_solver.
  destruct (N.eqb_spec a b) as [->|]; [rewrite IH|]; naive_solver.
Qed.

Lemma strip_prefix_app p r : strip_prefix p (p ++ r) = Some r.
Proof. by apply strip_prefix_Some. Qed.

Lemma starts_with_spec s p : starts_with s p = true ↔ p `prefix_of` s.
Proof.
  unfold starts_with, prefix. destruct (strip_prefix p s) eqn:E.
  - apply strip_prefix_Some in E. naive_solver.
  - split; [done|]. intros [k ->]. by rewrite strip_prefix_app in E.
Qed.

Lemma strip_suffix_Some p s r : strip_suffix p s = Some r ↔ s = r ++ p.
Proof.
  unfold strip_suffix. rewrite fmap_Some. split.
  - intros (x&Hx%strip_prefix_Some&->).
    by rewrite <-(reverse_involutive s), Hx, reverse_app, reverse_involutive.
  - intros ->. exists (reverse r). rewrite reverse_app, strip_prefix_app.
    by rewrite reverse_involutive.
Qed.

Lemma ends_with_spec s p : ends_with s p = true ↔ p `suffix_of` s.
Proof.
  unfold ends_with, suffix. destruct (strip_suffix p s) eqn:E.
  - apply strip_suffix_Some in E. naive_solver.
  - split; [done|]. intros [k Hk].
    assert (strip_suffix p s = Some k) by by apply strip_suffix_Some. congruence.
Qed.

Lemma strip_cr_id l : last l ≠ Some CR → strip_cr l = l.
Proof.
  intros H. unfold strip_cr. destruct (strip_suffix [CR] l) eqn:E; [|done].
  apply strip_suffix_Some in E as ->. by rewrite last_snoc in H.
Qed.

(** ** Lemmas: splitting and joining *)

Lemma split_on_cons c s : ∃ p ps, split_on c s = p :: ps.
Proof.
  induction s as [|d s (p&ps&IH)]; simpl; [eauto|].
  destruct (d =? c)%N; rewrite ?IH; eauto.
Qed.

Lemma split_on_app_sep c l s :
  c ∉ l → split_on c (l ++ c :: s) = l :: split_on c s.
Proof.
  induction l as [|d l IH]; intros H; simpl; [by rewrite N.eqb_refl|].
  apply not_elem_of_cons in H as [Hd Hl]. rewrite IH by done.
  destruct (N.eqb_spec d c); [congruence|done].
Qed.

Lemma split_on_no_sep c l : c ∉ l → split_on c l = [l].
Proof.
  induction l as [|d l IH]; intros H; simpl; [done|].
  apply not_elem_of_cons in H as [Hd Hl]. rewrite IH by done.
  destruct (N.eqb_spec d c); [congruence|done].
Qed.

(** Splitting undoes joining. *)
Lemma split_on_join c ls :
  ls ≠ [] → Forall (λ l, c ∉ l) ls → split_on c (join [c] ls) = ls.
Proof.
  intros Hne Hls. destruct Hls as [|l ls Hl Hls]; [done|]. clear Hne.
  revert l Hl. induction Hls as [|l' ls Hl' Hls IH]; intros l Hl.
  - by apply split_on_no_sep.
  - change (split_on c (l ++ c :: join [c] (l' :: ls)) = l :: l' :: ls).
    rewrite split_on_app_sep by done. f_equal. by apply IH.
Qed.

Lemma join_cons sep l ls : ls ≠ [] → join sep (l :: ls) = l ++ sep ++ join sep ls.
Proof. by destruct ls. Qed.

Lemma join_snoc sep ls l : ls ≠ [] → join sep (ls ++ [l]) = join sep ls ++ sep ++ l.
Proof.
  induction ls as [|l' ls IH]; intros Hne; [done|]. destruct ls as [|l'' ls]; [done|].
  change ((l' :: l'' :: ls) ++ [l]) with (l' :: ((l'' :: ls) ++ [l])).
  rewrite join_cons by (by destruct ls). rewrite IH by done.
  rewrite (join_cons _ l') by done. by rewrite <-!(assoc_L (++)).
Qed.

Lemma join_app_sep sep l l' : l ≠ [] → l' ≠ [] → join sep (l ++ l') = join sep l ++ sep ++ join sep l'.
Proof.
  intros Hl Hl'. induction l as [|x l IH]; [done|]. destruct l as [|y l].
  - simpl. by destruct l'.
  - change ((x :: y :: l) ++ l') with (x :: ((y :: l) ++ l')). rewrite !(join_cons sep x) by (by destruct l'). rewrite IH by done.
    by rewrite <-!(assoc_L app).
Qed.

Lemma split_on_app_any c l s : split_on c (l ++ c :: s) = split_on c l ++ split_on c s.
Proof.
  induction l as [|d l IH]; simpl; [by rewrite N.eqb_refl|]. destruct (d =? c)%N; [by rewrite IH|].
  rewrite IH. destruct (split_on_cons c l) as (x&xs&->). done.
Qed.

(** Joining undoes splitting. *)
Lemma join_split_on c s : join [c] (split_on c s) = s.
Proof.
  induction s as [|d s IH]; [done|]. simpl.
  destruct (split_on_cons c s) as (p&ps&E).
  destruct (N.eqb_spec d c) as [->|Hd].
  - rewrite E in *. simpl. f_equal. exact IH.
  - rewrite E in *. destruct ps; simpl in *; by rewrite <-IH.
Qed.

Lemma split_on_no_sep_pieces c s : Forall (λ l, c ∉ l) (split_on c s).
Proof.
  induction s as [|d s IH]; simpl; [repeat constructor; apply not_elem_of_nil|].
  destruct (split_on_cons c s) as (p&ps&E). rewrite E in *.
  apply Forall_cons in IH as [Hp Hps].
  destruct (N.eqb_spec d c); repeat constructor; auto; [apply not_elem_of_nil|].
  apply not_elem_of_cons; auto.
Qed.

(** A line is what [lines] can return unchanged. *)
Definition is_line (l : str) : Prop := (NL ∉ l) ∧ last l ≠ Some CR.

Lemma lines_join ls l :
  Forall is_line ls → NL ∉ l → l ≠ [] → lines (join [NL] (ls ++ [l])) = ls ++ [l].
Proof.
  intros Hls Hl Hne. unfold lines. rewrite split_on_join.
  - rewrite but_last_snoc, last_snoc. destruct l as [|c l]; [done|]. f_equal.
    induction Hls as [|x ls [_ Hx] _ IH]; [done|].
    rewrite fmap_cons, IH, strip_cr_id by done. done.
  - by destruct ls.
  - apply Forall_app; split; [|by repeat constructor].
    eapply Forall_impl; [exact Hls|]. by intros ? [??].
Qed.

#[export] Hint Resolve strip_prefix_app : codex.
#[export] Hint Rewrite strip_prefix_app join_split_on : codex.
