(* ===== verification/Io.v ===== *)
(** * Input and output errors, and code with effects

    [std::io::Error], the decimal printing of [format!], and the state and
    error monad in which the components with effects are written. *)
From S2P Require Import Prelude Str.

Inductive ErrorKind : Type :=
| NotFound | AlreadyExists | InvalidInput | InvalidData | PermissionDenied | Other.

#[export] Instance ErrorKind_eq_dec : EqDecision ErrorKind.
Proof. solve_decision. Defined.

(** [std::io::Error]: its kind and its text. *)
Record io_error : Type := { kind : ErrorKind; message : str }.

#[export] Instance io_error_eq_dec : EqDecision io_error.
Proof. solve_decision. Defined.

(** The decimal digits of a number, as [format!] prints a [usize]. *)
Fixpoint digits (fuel : nat) (n : nat) (acc : str) : str :=
  match fuel with
  | 0 => acc
  | S fuel =>
      let acc := N.of_nat (48 + n mod 10) :: acc in
      if n / 10 =? 0 then acc else digits fuel (n / 10) acc
  end.
Definition show_nat (n : nat) : str := digits (S n) n [].

(** Code over a file system: state passing with an error. *)
Definition io (FS E A : Type) : Type := FS → FS * result E A.
#[export] Instance io_ret FS E : MRet (io FS E) := λ A a fs, (fs, Ok a).
#[export] Instance io_bind FS E : MBind (io FS E) := λ A B f m fs,
  match m fs with
  | (fs', Ok a) => f a fs'
  | (fs', Err e) => (fs', Err e)
  | (fs', Crash) => (fs', Crash)
  end.

(** A file system call whose error is mapped by [f]. *)
Definition call {FS E A} (f : io_error → E) (op : FS → FS * (io_error + A)) : io FS E A :=
  λ fs, match op fs with
        | (fs', inr a) => (fs', Ok a)
        | (fs', inl e) => (fs', Err (f e))
        end.
Definition query {FS A} (op : FS → io_error + A) : FS → FS * (io_error + A) := λ fs, (fs, op fs).
Definition pure_result {FS E A} (r : result E A) : io FS E A := λ fs, (fs, r).
Definition throw {FS E A} (e : E) : io FS E A := λ fs, (fs, Err e).


(** Running effectful code one step at a time. *)
Lemma io_bind_Ok {FS E A B} (m : io FS E A) (f : A → io FS E B) fs fs' b :
  (m ≫= f) fs = (fs', Ok b) ↔ ∃ fs1 a, m fs = (fs1, Ok a) ∧ f a fs1 = (fs', Ok b).
Proof.
  unfold mbind, io_bind. destruct (m fs) as [fs1 [a|e|]] eqn:Hm; naive_solver.
Qed.

Lemma call_Ok {FS E A} (f : io_error → E) (op : FS → FS * (io_error + A)) fs fs' a :
  call f op fs = (fs', Ok a) ↔ op fs = (fs', inr a).
Proof. unfold call. destruct (op fs) as [fs1 [e|b]]; naive_solver. Qed.

Lemma io_step {FS E A B} (m : io FS E A) (f : A → io FS E B) fs fs1 a :
  m fs = (fs1, Ok a) → (m ≫= f) fs = f a fs1.
Proof. unfold mbind, io_bind. by intros ->. Qed.

Lemma io_step_Err {FS E A B} (m : io FS E A) (f : A → io FS E B) fs fs1 e :
  m fs = (fs1, Err e) → (m ≫= f) fs = (fs1, Err e).
Proof. unfold mbind, io_bind. by intros ->. Qed.

(** Looking at the outcome of code that may fail. *)
Definition try {FS E A} (m : io FS E A) : io FS E (E + A) := λ w,
  match m w with
  | (w, Ok a) => (w, Ok (inr a))
  | (w, Err e) => (w, Ok (inl e))
  | (w, Crash) => (w, Crash)
  end.

Lemma try_Ok {FS E A} (m : io FS E A) fs fs1 a :
  m fs = (fs1, Ok a) → try m fs = (fs1, Ok (inr a)).
Proof. unfold try. by intros ->. Qed.

Lemma try_Err {FS E A} (m : io FS E A) fs fs1 e :
  m fs = (fs1, Err e) → try m fs = (fs1, Ok (inl e)).
Proof. unfold try. by intros ->. Qed.

Ltac run_io := unfold mbind, io_bind, mret, io_ret, throw in *; simpl in *.

(** ** Decimal digits *)

Definition dec_value (s : str) : nat := foldl (λ v c, v * 10 + (N.to_nat c - 48)) 0 s.

Lemma digits_spec fuel n acc :
  n < fuel → ∃ ds, digits fuel n acc = ds ++ acc ∧ Forall (λ c, is_ascii_digit c = true) ds ∧ dec_value ds = n.
Proof.
  revert n acc. induction fuel as [|fuel IH]; intros n acc Hn; [lia|]. cbn [digits].
  set (c := N.of_nat (48 + n mod 10)).
  pose proof (Nat.mod_upper_bound n 10 ltac:(lia)) as Hm. pose proof (Nat.div_mod_eq n 10) as Hdm.
  assert (Hc : is_ascii_digit c = true ∧ N.to_nat c - 48 = n mod 10).
  { unfold is_ascii_digit. subst c. split; [|lia]. apply andb_true_iff. split; apply N.leb_le; lia. }
  destruct Hc as [Hc Hcv]. generalize dependent c. intros c Hc Hcv. destruct (Nat.eqb_spec (n / 10) 0) as [H0|H0].
  - exists [c]. split_and!; [done|by constructor|].
    change (dec_value [c]) with (0 * 10 + (N.to_nat c - 48)). lia.
  - destruct (IH (n / 10) (c :: acc)) as (ds&->&Hds&Hv); [lia|]. exists (ds ++ [c]). split_and!.
    + by rewrite <-(assoc_L app).
    + apply Forall_app. split; [done|by constructor].
    + unfold dec_value in *. rewrite foldl_app, Hv. change (n / 10 * 10 + (N.to_nat c - 48) = n). lia.
Qed.

Lemma show_nat_spec n : Forall (λ c, is_ascii_digit c = true) (show_nat n) ∧ dec_value (show_nat n) = n.
Proof. unfold show_nat. destruct (digits_spec (S n) n [] ltac:(lia)) as (ds&->&Hd&Hv). by rewrite app_nil_r. Qed.
