(* ===== verification/SeekSequence.v ===== *)
(** * Locating a block of lines in a file

    Models [apply-patch/src/seek_sequence.rs]: the four passes of decreasing
    strictness that find where the old lines of a patch chunk occur.  The
    theorems say exactly when a position is returned, which one, and when the
    search fails. *)
From S2P Require Import Prelude Str.

Module SeekSequence.

(** The character table of [normalise]. *)
Definition normalise_char (c : char) : char :=
  (if ((8208 <=? c) && (c <=? 8213)) || (c =? 8722) then 45
   else if (8216 <=? c) && (c <=? 8219) then 39
   else if (8220 <=? c) && (c <=? 8223) then 34
   else if (c =? 160) || ((8194 <=? c) && (c <=? 8202)) || (c =? 8239)
           || (c =? 8287) || (c =? 12288) then 32
   else c)%N.

Definition normalise (s : str) : str := normalise_char <$> trim s.

(** One position of one pass: every pattern line equals, under [norm], the
    file line at the same offset.  [None] would be an index panic. *)
Fixpoint matches_at (norm : str → str) (lines pattern : list str) (i : nat) : bool :=
  match pattern with
  | [] => true
  | pat :: pattern' =>
      match lines !! i with
      | Some l => bool_decide (norm l = norm pat) && matches_at norm lines pattern' (S i)
      | None => false
      end
  end.

(** [for i in search_start..=lines.len().saturating_sub(pattern.len())]. *)
Definition pass (norm : str → str) (lines pattern : list str) (search_start : nat) : option nat :=
  find_index_from (matches_at norm lines pattern) search_start
    (S (length lines - length pattern) - search_start).

Definition or_else {A} (o : option A) (k : option A) : option A :=
  match o with Some x => Some x | None => k end.

Definition seek_sequence (lines pattern : list str) (start : nat) (eof : bool) : option nat :=
  match pattern with
  | [] => Some start
  | _ :: _ =>
      if length lines <? length pattern then None
      else
        let search_start :=
          if eof && (length pattern <=? length lines)
          then length lines - length pattern else start in
        or_else (pass id lines pattern search_start)
        (or_else (pass trim_end lines pattern search_start)
        (or_else (pass trim lines pattern search_start)
                 (pass normalise lines pattern search_start)))
  end.

(** ** The passes are ordered by strictness *)

Lemma matches_at_weaken (f g : str → str) ls p i :
  (∀ a b, f a = f b → g a = g b) →
  matches_at f ls p i = true → matches_at g ls p i = true.
Proof.
  intros Hfg. revert i. induction p as [|pat p IH]; intros i; simpl; [done|].
  destruct (ls !! i) as [l|]; [|done]. rewrite !andb_true_iff, !bool_decide_eq_true.
  intros [Hl Hp]. split; eauto.
Qed.

Lemma trim_end_trim a b : trim_end a = trim_end b → trim a = trim b.
Proof. intros H. by rewrite <-trim_trim_end, H, trim_trim_end. Qed.

Lemma trim_normalise a b : trim a = trim b → normalise a = normalise b.
Proof. unfold normalise. by intros ->. Qed.

(** The passes, from the strictest to the most lenient. *)
Definition passes : list (str → str) := [id; trim_end; trim; normalise].

Lemma passes_weaken k norm ls p i :
  passes !! k = Some norm → matches_at norm ls p i = true →
  matches_at normalise ls p i = true.
Proof.
  intros Hk. apply matches_at_weaken. intros a b H.
  destruct k as [|[|[|[|k]]]]; simplify_eq/=; auto using trim_normalise, trim_end_trim.
Qed.

Lemma matches_at_spec norm ls p i :
  matches_at norm ls p i = true ↔ norm <$> take (length p) (drop i ls) = norm <$> p.
Proof.
  revert i. induction p as [|pat p IH]; intros i; [done|].
  cbn [matches_at length]. destruct (ls !! i) as [l|] eqn:Hl.
  - rewrite (drop_S _ _ _ Hl), firstn_cons, !fmap_cons.
    rewrite andb_true_iff, bool_decide_eq_true, IH.
    split; [intros [-> ->]|intros [= -> ->]]; done.
  - rewrite drop_ge by by apply lookup_ge_None. done.
Qed.

(** A match lies inside the file. *)
Lemma matches_at_bound norm ls p i :
  matches_at norm ls p i = true → p ≠ [] → i + length p ≤ length ls.
Proof.
  revert i. induction p as [|pat p IH]; intros i Hm Hp; [done|]. simpl in *.
  destruct (ls !! i) as [l|] eqn:Hl; [|done]. apply lookup_lt_Some in Hl.
  apply andb_true_iff in Hm as [_ Hm]. destruct p as [|q p]; simpl in *; [lia|].
  apply IH in Hm; [simpl in *; lia|done].
Qed.

Definition search_from (lines pattern : list str) (start : nat) (eof : bool) : nat :=
  if eof then length lines - length pattern else start.

(** The positions a search may return. *)
Definition in_range (lines pattern : list str) (from i : nat) : Prop :=
  from ≤ i ∧ i + length pattern ≤ length lines.

Lemma pass_Some norm ls p from i :
  length p ≤ length ls →
  pass norm ls p from = Some i ↔
  in_range ls p from i ∧ matches_at norm ls p i = true ∧
  ∀ j, in_range ls p from j → j < i → matches_at norm ls p j = false.
Proof.
  intros Hlen. unfold pass, in_range. rewrite find_index_from_Some.
  split; intros (?&?&Hj); split_and!; try done; try lia; intros; apply Hj; lia.
Qed.

Lemma pass_None norm ls p from :
  length p ≤ length ls →
  pass norm ls p from = None ↔ ∀ j, in_range ls p from j → matches_at norm ls p j = false.
Proof.
  intros Hlen. unfold pass, in_range. rewrite find_index_from_None.
  split; intros H j ?; apply H; lia.
Qed.

(** [i] is the position the search must return: the first position, in the
    strictest pass that has one. *)
Definition best_match (ls p : list str) (from i : nat) : Prop :=
  ∃ k norm, passes !! k = Some norm ∧ in_range ls p from i ∧
    matches_at norm ls p i = true ∧
    (∀ j, in_range ls p from j → j < i → matches_at norm ls p j = false) ∧
    (∀ k' norm' j, k' < k → passes !! k' = Some norm' → in_range ls p from j →
       matches_at norm' ls p j = false).

Lemma seek_sequence_unfold ls p start eof :
  p ≠ [] → length p ≤ length ls →
  seek_sequence ls p start eof =
    let from := search_from ls p start eof in
    or_else (pass id ls p from) (or_else (pass trim_end ls p from)
      (or_else (pass trim ls p from) (pass normalise ls p from))).
Proof.
  intros Hp Hlen. unfold seek_sequence, search_from. destruct p as [|x p]; [done|].
  rewrite (proj2 (Nat.ltb_ge _ _)) by done. rewrite (proj2 (Nat.leb_le _ _) Hlen).
  by rewrite andb_true_r.
Qed.

(** [k]-th pass failed: used to discharge the strictness clause of [best_match]. *)
Ltac pass_fails :=
  repeat match goal with
  | H : pass _ _ _ _ = None |- _ => rewrite pass_None in H by done
  | H : pass _ _ _ _ = Some _ |- _ => rewrite pass_Some in H by done
  end.

(** A position returned for a non-empty pattern lies in the searched
    range, matches in some pass, is the first match of that pass, and no
    stricter pass has any match in the range. *)
Theorem seek_sequence_best ls p start eof i :
  p ≠ [] →
  seek_sequence ls p start eof = Some i →
  best_match ls p (search_from ls p start eof) i.
Proof.
  intros Hp Hs. destruct (decide (length p ≤ length ls)) as [Hlen|Hlen]; last first.
  { unfold seek_sequence in Hs. destruct p; [done|].
    by rewrite (proj2 (Nat.ltb_lt _ _)) in Hs by lia. }
  rewrite seek_sequence_unfold in Hs by done. cbv zeta in Hs.
  set (from := search_from ls p start eof) in *. unfold or_else in Hs.
  destruct (pass id ls p from) eqn:P0; [exists 0|
  destruct (pass trim_end ls p from) eqn:P1; [exists 1|
  destruct (pass trim ls p from) eqn:P2; [exists 2|exists 3]]];
  simplify_eq; pass_fails; eexists; (split; [reflexivity|]); destruct_and!; split_and!; try done;
  intros k' norm' j Hk' Hn Hj;
  (destruct k' as [|[|[|k']]]; simpl in Hn; simplify_eq/=; eauto; lia).
Qed.

Lemma seek_sequence_best_witness :
  best_match (lit <$> ["x"; " b "; "b"]%string) [lit "b"] 0 2.
Proof.
  apply (seek_sequence_best _ _ 0 false); [discriminate|vm_compute; reflexivity].
Defined.

(** The search fails exactly when the pattern is non-empty and no
    position of the searched range matches even after trimming and Unicode
    normalisation; with eof the range is the end of the file only. *)
Theorem seek_sequence_complete ls p start eof :
  seek_sequence ls p start eof = None ↔
  p ≠ [] ∧ ∀ i, in_range ls p (search_from ls p start eof) i →
                 matches_at normalise ls p i = false.
Proof.
  destruct (decide (p = [])) as [->|Hp]; [simpl; naive_solver|].
  destruct (decide (length p ≤ length ls)) as [Hlen|Hlen]; last first.
  { split; [intros _; split; [done|]; intros i [_ ?]; lia|intros _].
    unfold seek_sequence. destruct p; [done|]. by rewrite (proj2 (Nat.ltb_lt _ _)) by lia. }
  rewrite seek_sequence_unfold by done. cbv zeta.
  set (from := search_from ls p start eof). split.
  - intros Hs. split; [done|]. unfold or_else in Hs. repeat case_match; try done.
    by rewrite pass_None in Hs by done.
  - intros [_ Hn]. assert (∀ k norm, passes !! k = Some norm → pass norm ls p from = None) as H.
    { intros k norm Hk. apply pass_None; [done|]. intros j Hj.
      destruct (matches_at norm ls p j) eqn:E; [|done].
      apply (passes_weaken k) in E; [|done]. by rewrite Hn in E. }
    rewrite (H 0), (H 1), (H 2), (H 3) by done. done.
Qed.

(** Where a found position lies: the facts the patch application relies on. *)
Lemma seek_sequence_bound ls p start eof i :
  seek_sequence ls p start eof = Some i → start ≤ length ls →
  i + length p ≤ length ls ∧ (eof = false → start ≤ i).
Proof.
  intros Hs Hst. destruct (decide (p = [])) as [->|Hp].
  - simpl in *. simplify_eq. lia.
  - apply seek_sequence_best in Hs as (k&norm&_&[Hf Hl]&_); [|done].
    split; [done|]. intros ->. done.
Qed.

End SeekSequence.
