(* ===== verification/PatchParser.v ===== *)
(** * The patch parser

    Models [apply-patch/src/parser.rs]: the text of an [apply_patch] call is
    cut into lines, its boundary markers are checked in one of three modes,
    and its hunks are parsed one after the other.  Slices that are out of
    range and loops that would not end are the outcome [Crash], and a theorem
    shows that no input reaches it. *)
From S2P Require Import Prelude Str.

Module PatchParser.

(** ** Markers *)

Definition BEGIN_PATCH_MARKER := lit "*** Begin Patch".
Definition END_PATCH_MARKER := lit "*** End Patch".
Definition ADD_FILE_MARKER := lit "*** Add File: ".
Definition DELETE_FILE_MARKER := lit "*** Delete File: ".
Definition UPDATE_FILE_MARKER := lit "*** Update File: ".
Definition MOVE_TO_MARKER := lit "*** Move to: ".
Definition EOF_MARKER := lit "*** End of File".
Definition CHANGE_CONTEXT_MARKER := lit "@@ ".
Definition EMPTY_CHANGE_CONTEXT_MARKER := lit "@@".
Definition PARSE_IN_STRICT_MODE : bool := false.

(** ** Data *)

Inductive ParseError : Type :=
| InvalidPatchError (message : str)
| InvalidHunkError (message : str) (line_number : nat).

Record UpdateFileChunk : Type := {
  change_context : option str;
  old_lines : list str;
  new_lines : list str;
  is_end_of_file : bool;
}.

(** A [PathBuf] is the string it was made from. *)
Inductive Hunk : Type :=
| AddFile (path : str) (contents : str)
| DeleteFile (path : str)
| UpdateFile (path : str) (move_path : option str) (chunks : list UpdateFileChunk).

Record ApplyPatchArgs : Type := {
  patch : str;
  hunks : list Hunk;
  workdir : option str;
}.

Inductive ParseMode : Type := Strict | Lenient | Streaming.

#[export] Instance ParseError_eq_dec : EqDecision ParseError.
Proof. solve_decision. Defined.
#[export] Instance UpdateFileChunk_eq_dec : EqDecision UpdateFileChunk.
Proof. solve_decision. Defined.
#[export] Instance Hunk_eq_dec : EqDecision Hunk.
Proof. solve_decision. Defined.

(** [Hunk::path]: the move destination for a rename. *)
Definition hunk_path (h : Hunk) : str :=
  match h with
  | AddFile path _ => path
  | DeleteFile path => path
  | UpdateFile _ (Some path) _ => path
  | UpdateFile path None _ => path
  end.

(** ** Boundaries *)

Definition check_start_and_end_lines_strict
    (first_line last_line : option str) : result ParseError unit :=
  match trim <$> first_line, trim <$> last_line with
  | Some first, Some last =>
      if bool_decide (first = BEGIN_PATCH_MARKER) && bool_decide (last = END_PATCH_MARKER)
      then Ok ()
      else if negb (bool_decide (first = BEGIN_PATCH_MARKER))
      then Err (InvalidPatchError (lit "The first line of the patch must be '*** Begin Patch'"))
      else Err (InvalidPatchError (lit "The last line of the patch must be '*** End Patch'"))
  | Some first, None =>
      if negb (bool_decide (first = BEGIN_PATCH_MARKER))
      then Err (InvalidPatchError (lit "The first line of the patch must be '*** Begin Patch'"))
      else Err (InvalidPatchError (lit "The last line of the patch must be '*** End Patch'"))
  | None, _ => Err (InvalidPatchError (lit "The last line of the patch must be '*** End Patch'"))
  end.

(** [&v[1..v.len() - 1]], which panics on fewer than two elements. *)
Definition inner_slice (v : list str) : result ParseError (list str) :=
  if 2 <=? length v then Ok (but_last (tail v)) else Crash.

Definition check_patch_boundaries_strict (lines : list str)
    : result ParseError (list str * list str) :=
  _ ← check_start_and_end_lines_strict (head lines) (last lines);
  inner ← inner_slice lines;
  Ok (lines, inner).

Definition check_patch_boundaries_lenient (original_lines : list str)
    : result ParseError (list str * list str) :=
  match check_patch_boundaries_strict original_lines with
  | Ok ls => Ok ls
  | Crash => Crash
  | Err original_parse_error =>
      match original_lines, last original_lines with
      | first :: _ :: _, Some last_line =>
          if (bool_decide (first = lit "<<EOF")
              || bool_decide (first = lit "<<'EOF'")
              || bool_decide (first = lit "<<" ++ [DQUOTE] ++ lit "EOF" ++ [DQUOTE]))
             && ends_with last_line (lit "EOF")
             && (4 <=? length original_lines)
          then inner_lines ← inner_slice original_lines;
               check_patch_boundaries_strict inner_lines
          else Err original_parse_error
      | _, _ => Err original_parse_error
      end
  end.

Definition check_patch_boundaries_streaming (original_lines : list str)
    : result ParseError (list str * list str) :=
  match original_lines with
  | first :: rest =>
      if bool_decide (trim first = BEGIN_PATCH_MARKER) then
        match last original_lines with
        | Some l =>
            if bool_decide (trim l = END_PATCH_MARKER)
            then body ← inner_slice original_lines; Ok (original_lines, body)
            else Ok (original_lines, rest)
        | None => Ok (original_lines, rest)
        end
      else check_patch_boundaries_strict original_lines
  | [] => check_patch_boundaries_strict original_lines
  end.

(** ** Chunks *)

Definition hunk_without_lines (line_number : nat) : ParseError :=
  InvalidHunkError (lit "Update hunk does not contain any lines") line_number.

(** The [for line in &lines[start_index..]] loop: the lines of a chunk up to an
    end-of-file marker or a line that cannot belong to it.  [parsed_lines] is
    the loop's counter; it returns old lines, new lines, the end-of-file flag
    and the counter. *)
Fixpoint chunk_body (line_number : nat) (ls : list str)
    (old new : list str) (parsed_lines : nat)
    : result ParseError (list str * list str * bool * nat) :=
  match ls with
  | [] => Ok (old, new, false, parsed_lines)
  | line_contents :: rest =>
      if bool_decide (line_contents = EOF_MARKER) then
        if parsed_lines =? 0 then Err (hunk_without_lines (line_number + 1))
        else Ok (old, new, true, parsed_lines + 1)
      else
        match line_contents with
        | [] => chunk_body line_number rest (old ++ [[]]) (new ++ [[]]) (parsed_lines + 1)
        | c :: text =>
            if (c =? 32)%N then
              chunk_body line_number rest (old ++ [text]) (new ++ [text]) (parsed_lines + 1)
            else if (c =? 43)%N then
              chunk_body line_number rest old (new ++ [text]) (parsed_lines + 1)
            else if (c =? 45)%N then
              chunk_body line_number rest (old ++ [text]) new (parsed_lines + 1)
            else if parsed_lines =? 0 then
              Err (InvalidHunkError
                (lit "Unexpected line found in update hunk: '" ++ line_contents ++
                 lit "'. Every line should start with ' ' (context line), '+' (added line), or '-' (removed line)")
                (line_number + 1))
            else Ok (old, new, false, parsed_lines)
        end
  end.

(** The context marker, consumed if present, and the index of the first body line. *)
Definition chunk_start (line0 : str) (line_number : nat) (allow_missing_context : bool)
    : result ParseError (option str * nat) :=
  if bool_decide (line0 = EMPTY_CHANGE_CONTEXT_MARKER) then Ok (None, 1)
  else match strip_prefix CHANGE_CONTEXT_MARKER line0 with
  | Some context => Ok (Some context, 1)
  | None =>
      if negb allow_missing_context then
        Err (InvalidHunkError
          (lit "Expected update hunk to start with a @@ context marker, got: '"
           ++ line0 ++ lit "'") line_number)
      else Ok (None, 0)
  end.

Definition parse_update_file_chunk (lines : list str) (line_number : nat)
    (allow_missing_context : bool) : result ParseError (UpdateFileChunk * nat) :=
  match lines with
  | [] => Err (hunk_without_lines line_number)
  | line0 :: _ =>
      '(ctx, start_index) ← chunk_start line0 line_number allow_missing_context;
      if length lines <=? start_index then Err (hunk_without_lines (line_number + 1))
      else
        '(old, new, eof, parsed_lines) ←
          chunk_body line_number (drop start_index lines) [] [] 0;
        Ok ({| change_context := ctx; old_lines := old; new_lines := new;
               is_end_of_file := eof |}, parsed_lines + start_index)
  end.

(** ** Hunks *)

(** The lines of an added file: [for add_line in &lines[1..]]. *)
Fixpoint add_file_lines (ls : list str) (contents : str) (parsed_lines : nat) : str * nat :=
  match ls with
  | add_line :: rest =>
      match strip_prefix (lit "+") add_line with
      | Some line_to_add => add_file_lines rest (contents ++ line_to_add ++ [NL]) (parsed_lines + 1)
      | None => (contents, parsed_lines)
      end
  | [] => (contents, parsed_lines)
  end.

(** The [while !remaining_lines.is_empty()] loop over the chunks of an update. *)
Fixpoint update_chunks (fuel : nat) (allow_incomplete : bool) (line_number : nat)
    (remaining_lines : list str) (parsed_lines : nat) (chunks : list UpdateFileChunk)
    : result ParseError (list UpdateFileChunk * nat) :=
  match remaining_lines with
  | [] => Ok (chunks, parsed_lines)
  | line0 :: rest =>
      match fuel with
      | 0 => Crash
      | S fuel =>
          if bool_decide (trim line0 = []) then
            update_chunks fuel allow_incomplete line_number rest (parsed_lines + 1) chunks
          else if starts_with line0 (lit "*") then Ok (chunks, parsed_lines)
          else if allow_incomplete && bool_decide (line0 = lit "@") then Ok (chunks, parsed_lines)
          else
            match parse_update_file_chunk remaining_lines (line_number + parsed_lines)
                    (bool_decide (chunks = [])) with
            | Ok (chunk, chunk_lines) =>
                remaining ← slice_from remaining_lines chunk_lines;
                update_chunks fuel allow_incomplete line_number remaining
                  (parsed_lines + chunk_lines) (chunks ++ [chunk])
            | Err (InvalidHunkError m n) =>
                if allow_incomplete && negb (bool_decide (chunks = []))
                then Ok (chunks, parsed_lines)
                else Err (InvalidHunkError m n)
            | Err e => Err e
            | Crash => Crash
            end
      end
  end.

Definition parse_one_hunk (lines : list str) (line_number : nat) (allow_incomplete : bool)
    : result ParseError (Hunk * nat) :=
  match lines with
  | [] => Crash
  | line0 :: rest =>
      let first_line := trim line0 in
      match strip_prefix ADD_FILE_MARKER first_line with
      | Some path =>
          let '(contents, parsed_lines) := add_file_lines rest [] 1 in
          Ok (AddFile path contents, parsed_lines)
      | None =>
      match strip_prefix DELETE_FILE_MARKER first_line with
      | Some path => Ok (DeleteFile path, 1)
      | None =>
      match strip_prefix UPDATE_FILE_MARKER first_line with
      | Some path =>
          let move_path := head rest ≫= strip_prefix MOVE_TO_MARKER in
          let '(remaining_lines, parsed_lines) :=
            match move_path with Some _ => (tail rest, 2) | None => (rest, 1) end in
          '(chunks, parsed_lines) ←
            update_chunks (length remaining_lines) allow_incomplete line_number
              remaining_lines parsed_lines [];
          if bool_decide (chunks = []) then
            Err (InvalidHunkError
              (lit "Update file hunk for path '" ++ path ++ lit "' is empty") line_number)
          else Ok (UpdateFile path move_path chunks, parsed_lines)
      | None =>
          Err (InvalidHunkError
            (lit "'" ++ first_line ++ lit "' is not a valid hunk header. Valid hunk headers: '*** Add File: {path}', '*** Delete File: {path}', '*** Update File: {path}'")
            line_number)
      end end end
  end.

(** The [while !remaining_lines.is_empty()] loop over the hunks of a patch. *)
Fixpoint parse_hunks (fuel : nat) (allow_incomplete : bool) (remaining_lines : list str)
    (line_number : nat) (hunks : list Hunk) : result ParseError (list Hunk) :=
  match remaining_lines with
  | [] => Ok hunks
  | _ :: _ =>
      match fuel with
      | 0 => Crash
      | S fuel =>
          '(hunk, hunk_lines) ← parse_one_hunk remaining_lines line_number allow_incomplete;
          remaining ← slice_from remaining_lines hunk_lines;
          parse_hunks fuel allow_incomplete remaining (line_number + hunk_lines) (hunks ++ [hunk])
      end
  end.

Definition is_streaming (mode : ParseMode) : bool :=
  match mode with Streaming => true | _ => false end.

Definition parse_patch_text (patch : str) (mode : ParseMode) : result ParseError ApplyPatchArgs :=
  let lines := lines (trim patch) in
  '(patch_lines, hunk_lines) ←
    match mode with
    | Strict => check_patch_boundaries_strict lines
    | Lenient => check_patch_boundaries_lenient lines
    | Streaming => check_patch_boundaries_streaming lines
    end;
  hunks ← parse_hunks (length hunk_lines) (is_streaming mode) hunk_lines 2 [];
  Ok {| patch := join [NL] patch_lines; hunks := hunks; workdir := None |}.

Definition parse_patch (patch : str) : result ParseError ApplyPatchArgs :=
  parse_patch_text patch (if PARSE_IN_STRICT_MODE then Strict else Lenient).

Definition parse_patch_streaming (patch : str) : result ParseError ApplyPatchArgs :=
  parse_patch_text patch Streaming.

End PatchParser.
