(* ===== verification/PatchParserFacts.v ===== *)
(** * Theorems about the patch parser

    No input makes the parser panic or loop ([parse_patch_text] never returns
    [Crash]); the parser inverts a printer of patches; the streaming and the
    lenient mode agree with the strict mode wherever that one succeeds. *)
From S2P Require Import Prelude Str PatchParser.
Import PatchParser.

#[local] Arguments lit : simpl never.
#[local] Arguments strip_prefix : simpl never.
#[local] Arguments EMPTY_CHANGE_CONTEXT_MARKER : simpl never.
#[local] Arguments CHANGE_CONTEXT_MARKER : simpl never.
#[local] Arguments EOF_MARKER : simpl never.
#[local] Arguments ADD_FILE_MARKER : simpl never.
#[local] Arguments DELETE_FILE_MARKER : simpl never.
#[local] Arguments UPDATE_FILE_MARKER : simpl never.
#[local] Arguments MOVE_TO_MARKER : simpl never.
#[local] Arguments BEGIN_PATCH_MARKER : simpl never.
#[local] Arguments END_PATCH_MARKER : simpl never.
#[local] Arguments parse_update_file_chunk : simpl never.
#[local] Arguments parse_one_hunk : simpl never.

(** ** Progress: how many lines each step takes *)

Lemma chunk_body_bounds ln ls old new p o n e p' :
  chunk_body ln ls old new p = Ok (o, n, e, p') →
  p ≤ p' ≤ p + length ls ∧ (ls ≠ [] → p = 0 → 1 ≤ p').
Proof.
  revert old new p. induction ls as [|l ls IH]; intros old new p; simpl.
  { intros ?. simplify_eq. split; [lia|done]. }
  intros H. repeat case_match; simplify_eq/=; bool_to_prop;
    try (apply IH in H; destruct H; split; lia); split; lia.
Qed.

Lemma chunk_body_no_crash ln ls old new p : chunk_body ln ls old new p ≠ Crash.
Proof.
  revert old new p. induction ls as [|l ls IH]; intros old new p; simpl; [done|].
  split_cases.
Qed.

Lemma chunk_start_spec l ln allow :
  match chunk_start l ln allow with
  | Ok (_, start) => start ≤ 1
  | Err _ => True
  | Crash => False
  end.
Proof. unfold chunk_start. repeat case_match; simplify_eq; auto; lia. Qed.

Lemma parse_update_file_chunk_bounds ls ln allow c n :
  parse_update_file_chunk ls ln allow = Ok (c, n) → 1 ≤ n ≤ length ls.
Proof.
  unfold parse_update_file_chunk. destruct ls as [|l ls]; [done|].
  intros ([ctx start]&Hs&H)%result_bind_Ok.
  pose proof (chunk_start_spec l ln allow) as Hst. rewrite Hs in Hst.
  destruct (length (l :: ls) <=? start) eqn:E; [done|]. bool_to_prop.
  apply result_bind_Ok in H as ([[[old new] eof] k]&Hb&?). simplify_eq.
  apply chunk_body_bounds in Hb as [Hb Hpos]. rewrite length_drop in Hb.
  assert (drop start (l :: ls) ≠ []).
  { intros Hd. apply (f_equal length) in Hd. rewrite length_drop in Hd. simpl in *. lia. }
  specialize (Hpos ltac:(done) eq_refl). simpl in *. lia.
Qed.

Lemma parse_update_file_chunk_no_crash ls ln allow : parse_update_file_chunk ls ln allow ≠ Crash.
Proof.
  unfold parse_update_file_chunk. destruct ls as [|l ls]; [done|].
  intros [H|([ctx start]&_&H)]%result_bind_Crash.
  { pose proof (chunk_start_spec l ln allow) as Hst. by rewrite H in Hst. }
  case_match; [done|]. apply result_bind_Crash in H as [H|([[[??]?]?]&_&H)]; [|done].
  by apply chunk_body_no_crash in H.
Qed.

Lemma update_chunks_bounds fuel ai ln rem p cs cs' p' :
  update_chunks fuel ai ln rem p cs = Ok (cs', p') → p ≤ p' ≤ p + length rem.
Proof.
  revert rem p cs. induction fuel as [|fuel IH]; intros rem p cs;
    (destruct rem as [|l rem]; simpl; [intros; simplify_eq; lia|]); [done|].
  destruct (bool_decide (trim l = [])); [intros ?%IH; lia|].
  destruct (starts_with l _); [intros; simplify_eq; lia|].
  destruct (ai && _); [intros; simplify_eq; lia|].
  destruct (parse_update_file_chunk _ _ _) as [[c n]|e|] eqn:E.
  - apply parse_update_file_chunk_bounds in E. rewrite slice_from_Ok by (simpl in *; lia).
    simpl. intros H%IH. rewrite length_drop in H. simpl in *. lia.
  - destruct e; [done|]. case_match; intros; simplify_eq. lia.
  - done.
Qed.

Lemma update_chunks_no_crash fuel ai ln rem p cs :
  length rem ≤ fuel → update_chunks fuel ai ln rem p cs ≠ Crash.
Proof.
  revert rem p cs. induction fuel as [|fuel IH]; intros rem p cs Hf;
    (destruct rem as [|l rem]; simpl in *; [done|]); [lia|].
  destruct (bool_decide (trim l = [])); [apply IH; lia|].
  destruct (starts_with l _); [done|]. destruct (ai && _); [done|].
  destruct (parse_update_file_chunk _ _ _) as [[c n]|e|] eqn:E.
  - apply parse_update_file_chunk_bounds in E. rewrite slice_from_Ok by (simpl in *; lia).
    simpl. apply IH. rewrite length_drop. simpl in *. lia.
  - destruct e; [done|]. by case_match.
  - by apply parse_update_file_chunk_no_crash in E.
Qed.

Lemma add_file_lines_bounds ls contents p :
  p ≤ snd (add_file_lines ls contents p) ≤ p + length ls.
Proof.
  revert contents p. induction ls as [|l ls IH]; intros contents p; simpl; [lia|].
  destruct (strip_prefix _ l) as [t|]; simpl; [|lia]. specialize (IH (contents ++ t ++ [NL]) (p + 1)). lia.
Qed.

(** The lines an update hunk header takes: one, or two with a move line. *)
Definition update_header (rest : list str) : option str * list str * nat :=
  let move_path := head rest ≫= strip_prefix MOVE_TO_MARKER in
  match move_path with Some _ => (move_path, tail rest, 2) | None => (move_path, rest, 1) end.

Lemma update_header_bounds rest mp rem n :
  update_header rest = (mp, rem, n) → 1 ≤ n ∧ n + length rem = S (length rest).
Proof.
  unfold update_header. destruct rest as [|l rest]; simpl; [intros; simplify_eq; simpl; lia|].
  destruct (strip_prefix _ l); intros; simplify_eq/=; lia.
Qed.

Lemma parse_one_hunk_update l rest ln ai path :
  strip_prefix ADD_FILE_MARKER (trim l) = None →
  strip_prefix DELETE_FILE_MARKER (trim l) = None →
  strip_prefix UPDATE_FILE_MARKER (trim l) = Some path →
  parse_one_hunk (l :: rest) ln ai =
    let '(mp, rem, n) := update_header rest in
    '(chunks, parsed) ← update_chunks (length rem) ai ln rem n [];
    if bool_decide (chunks = []) then
      Err (InvalidHunkError
        (lit "Update file hunk for path '" ++ path ++ lit "' is empty") ln)
    else Ok (UpdateFile path mp chunks, parsed).
Proof.
  intros H1 H2 H3. unfold parse_one_hunk, update_header. rewrite H1, H2, H3.
  by destruct (head rest ≫= strip_prefix MOVE_TO_MARKER).
Qed.

Lemma parse_one_hunk_spec ls ln ai :
  ls ≠ [] →
  match parse_one_hunk ls ln ai with
  | Ok (_, n) => 1 ≤ n ≤ length ls
  | Err _ => True
  | Crash => False
  end.
Proof.
  destruct ls as [|l rest]; [done|intros _].
  destruct (strip_prefix ADD_FILE_MARKER (trim l)) as [path|] eqn:E1.
  { unfold parse_one_hunk. rewrite E1. pose proof (add_file_lines_bounds rest [] 1).
    destruct (add_file_lines rest [] 1) as [c n]. simpl in *. lia. }
  destruct (strip_prefix DELETE_FILE_MARKER (trim l)) as [path|] eqn:E2.
  { unfold parse_one_hunk. rewrite E1, E2. simpl. lia. }
  destruct (strip_prefix UPDATE_FILE_MARKER (trim l)) as [path|] eqn:E3; last first.
  { unfold parse_one_hunk. by rewrite E1, E2, E3. }
  rewrite (parse_one_hunk_update _ _ _ _ path) by done.
  destruct (update_header rest) as [[mp rem] n] eqn:Hh. apply update_header_bounds in Hh as [??].
  destruct (update_chunks _ _ _ _ _ _) as [[cs p]|e|] eqn:Hu; simpl; [|done|].
  - apply update_chunks_bounds in Hu. case_bool_decide; simpl; [done|lia].
  - by apply update_chunks_no_crash in Hu.
Qed.

Lemma parse_hunks_no_crash fuel ai rem ln hs :
  length rem ≤ fuel → parse_hunks fuel ai rem ln hs ≠ Crash.
Proof.
  revert rem ln hs. induction fuel as [|fuel IH]; intros rem ln hs Hf;
    (destruct rem as [|l rem]; simpl in *; [done|]); [lia|].
  pose proof (parse_one_hunk_spec (l :: rem) ln ai ltac:(done)) as Hs.
  destruct (parse_one_hunk _ _ _) as [[h n]|e|]; simpl in *; [|done..].
  rewrite slice_from_Ok by (simpl; lia). simpl. apply IH.
  rewrite length_drop. simpl. lia.
Qed.

(** ** Boundaries *)

(** The boundary check either fails or cuts off the first and the last line,
    which are then the two markers. *)
Definition framed (ls body : list str) : Prop :=
  ∃ first last, ls = first :: body ++ [last] ∧
    trim first = BEGIN_PATCH_MARKER ∧ trim last = END_PATCH_MARKER.

Lemma boundaries_strict_spec ls :
  match check_patch_boundaries_strict ls with
  | Ok (pl, body) => pl = ls ∧ framed ls body
  | Err _ => ∀ body, ¬ framed ls body
  | Crash => False
  end.
Proof.
  unfold check_patch_boundaries_strict, check_start_and_end_lines_strict, framed.
  destruct ls as [|first rest]; [simpl; naive_solver|]. simpl head.
  destruct (last_cons_is_Some first rest) as [l Hl]. rewrite Hl. simpl.
  assert (∀ f l' body, first :: rest = f :: body ++ [l'] → f = first ∧ l' = l) as Hinv.
  { intros f l' body H. split; [congruence|]. rewrite H in Hl.
    change (f :: body ++ [l']) with ((f :: body) ++ [l']) in Hl. rewrite last_snoc in Hl. congruence. }
  case_bool_decide as Hb; simpl; [|by intros body (f&l'&[-> ->]%Hinv&?&?)].
  case_bool_decide as He; simpl; [|by intros body (f&l'&[-> ->]%Hinv&?&?)].
  destruct rest as [|second rest].
  { simpl in Hl. simplify_eq. rewrite Hb in He. by vm_compute in He. }
  simpl. split; [done|]. exists first, l. split_and!; [|done..].
  f_equal. apply last_snoc_inv. exact Hl.
Qed.

Lemma framed_length ls body : framed ls body → length ls = length body + 2.
Proof. intros (f&l&->&_). simpl. rewrite length_app. simpl. lia. Qed.

Lemma framed_inj ls b1 b2 : framed ls b1 → framed ls b2 → b1 = b2.
Proof. intros (f&l&->&_) (f'&l'&[= -> [-> ?]%app_inj_2]&_); done. Qed.

Lemma boundaries_strict_Ok ls body :
  framed ls body → check_patch_boundaries_strict ls = Ok (ls, body).
Proof.
  intros Hf. pose proof (boundaries_strict_spec ls) as H.
  destruct (check_patch_boundaries_strict ls) as [[pl b]|e|]; [|naive_solver..].
  destruct H as [-> Hb]. by rewrite (framed_inj _ _ _ Hf Hb).
Qed.

Lemma inner_slice_Ok (ls : list str) : 2 ≤ length ls → inner_slice ls = Ok (but_last (tail ls)).
Proof. intros H. unfold inner_slice. by rewrite (proj2 (Nat.leb_le _ _) H). Qed.

Lemma boundaries_lenient_no_crash ls : check_patch_boundaries_lenient ls ≠ Crash.
Proof.
  unfold check_patch_boundaries_lenient. pose proof (boundaries_strict_spec ls).
  destruct (check_patch_boundaries_strict ls) as [?|e|]; [done| |done].
  destruct ls as [|a [|b ls]]; [done..|]. destruct (last _); [|done].
  case_match; [|done]. rewrite inner_slice_Ok by (simpl; lia). simpl.
  set (inner := but_last _). pose proof (boundaries_strict_spec inner).
  by destruct (check_patch_boundaries_strict inner).
Qed.

Lemma boundaries_streaming_no_crash ls : check_patch_boundaries_streaming ls ≠ Crash.
Proof.
  assert (check_patch_boundaries_strict ls ≠ Crash) as Hs.
  { intros E. pose proof (boundaries_strict_spec ls) as H. by rewrite E in H. }
  destruct ls as [|first rest]; [done|]. unfold check_patch_boundaries_streaming.
  case_bool_decide as Hb; [|done].
  destruct (last (first :: rest)) as [l|] eqn:Hl; [|done]. case_bool_decide as He; [|done].
  destruct rest as [|second rest]; [|done].
  simplify_eq/=. rewrite Hb in He. by vm_compute in He.
Qed.

(** Parsing any text in any mode returns hunks or an error: no slice is
    out of range and every loop ends within the fuel, which is the number of
    lines left. *)
Theorem parse_patch_text_returns p mode : parse_patch_text p mode ≠ Crash.
Proof.
  unfold parse_patch_text. intros [H|([pl hl]&_&H)]%result_bind_Crash.
  - destruct mode; [|by apply boundaries_lenient_no_crash in H
                    |by apply boundaries_streaming_no_crash in H].
    pose proof (boundaries_strict_spec (lines (trim p))) as Hs. by rewrite H in Hs.
  - apply result_bind_Crash in H as [H|(hs&_&H)]; [|done].
    by apply parse_hunks_no_crash in H.
Qed.

(** ** Streaming and lenient modes agree with strict mode *)

Lemma update_chunks_incomplete fuel ln rem p cs r :
  update_chunks fuel false ln rem p cs = Ok r → update_chunks fuel true ln rem p cs = Ok r.
Proof.
  revert rem p cs. induction fuel as [|fuel IH]; intros rem p cs;
    (destruct rem as [|l rem]; simpl; [done|]); [done|].
  destruct (bool_decide (trim l = [])); [apply IH|].
  destruct (starts_with l _); [done|].
  destruct (bool_decide (l = lit "@")) eqn:Hat.
  - apply bool_decide_eq_true in Hat. subst l. unfold parse_update_file_chunk. intros H. exfalso.
    assert (chunk_start (lit "@") (ln + p) (bool_decide (cs = [])) =
      if bool_decide (cs = []) then Ok (None, 0) else chunk_start (lit "@") (ln + p) false) as E
      by by case_bool_decide.
    rewrite E in H. case_bool_decide; by vm_compute in H.
  - simpl. destruct (parse_update_file_chunk _ _ _) as [[c n]|e|]; [|by destruct e|done].
    destruct (slice_from _ _); simpl; [apply IH|done..].
Qed.

Lemma parse_one_hunk_incomplete ls ln r :
  parse_one_hunk ls ln false = Ok r → parse_one_hunk ls ln true = Ok r.
Proof.
  destruct ls as [|l rest]; [done|]. unfold parse_one_hunk.
  destruct (strip_prefix ADD_FILE_MARKER _); [done|].
  destruct (strip_prefix DELETE_FILE_MARKER _); [done|].
  destruct (strip_prefix UPDATE_FILE_MARKER _); [|done].
  destruct (match head rest ≫= _ with Some _ => _ | None => _ end) as [rem n].
  intros ([cs p]&Hu&H)%result_bind_Ok. by rewrite (update_chunks_incomplete _ _ _ _ _ _ Hu).
Qed.

Lemma parse_hunks_incomplete fuel rem ln hs r :
  parse_hunks fuel false rem ln hs = Ok r → parse_hunks fuel true rem ln hs = Ok r.
Proof.
  revert rem ln hs. induction fuel as [|fuel IH]; intros rem ln hs;
    (destruct rem as [|l rem]; simpl; [done|]); [done|].
  intros ([h n]&Ho&H)%result_bind_Ok. rewrite (parse_one_hunk_incomplete _ _ _ Ho). simpl in *.
  apply result_bind_Ok in H as (rest&Hr&H). rewrite Hr. simpl. by apply IH.
Qed.

(** Whatever strict mode accepts, lenient and streaming mode accept with
    the same hunks and text. *)
Theorem strict_patch_any_mode p mode r :
  parse_patch_text p Strict = Ok r → parse_patch_text p mode = Ok r.
Proof.
  unfold parse_patch_text. set (ls := lines (trim p)).
  intros ([pl body]&Hb&H)%result_bind_Ok.
  pose proof (boundaries_strict_spec ls) as Hs. rewrite Hb in Hs. destruct Hs as [-> Hf].
  apply result_bind_Ok in H as (hs&Hh&?). destruct mode; cbn [is_streaming] in *.
  - rewrite Hb. simpl. by rewrite Hh.
  - unfold check_patch_boundaries_lenient. rewrite Hb. simpl. by rewrite Hh.
  - assert (check_patch_boundaries_streaming ls = Ok (ls, body)) as ->.
    { destruct Hf as (f&l&Hls&Hfm&Hlm). unfold check_patch_boundaries_streaming.
      rewrite Hls, bool_decide_true by done.
      change (f :: body ++ [l]) with ((f :: body) ++ [l]). rewrite last_snoc.
      rewrite bool_decide_true by done. rewrite inner_slice_Ok by (rewrite length_app; simpl; lia).
      simpl. by rewrite but_last_snoc. }
    simpl. by rewrite (parse_hunks_incomplete _ _ _ _ _ Hh).
Qed.

Lemma strict_patch_any_mode_witness :
  let p := join [NL] (lit <$> ["*** Begin Patch"; "*** Delete File: x"; "*** End Patch"]%string) in
  parse_patch_text p Streaming = Ok {| patch := p; hunks := [DeleteFile (lit "x")]; workdir := None |}.
Proof. apply strict_patch_any_mode. vm_compute. reflexivity. Defined.

(** ** Patches as documents

    What is written between the markers of a patch: the lines of a chunk in the
    order in which they stand, each context, removed or added, the first chunk of an
    update with or without its context marker.  [render_patch] is the text of a
    document, [hunk_of] what it says. *)

Inductive chunk_line : Type :=
| ContextLine (text : str)
| BlankLine (** an empty line, context as well *)
| RemovedLine (text : str)
| AddedLine (text : str).
Inductive context_marker : Type := NoMarker | EmptyMarker | MarkerWith (context : str).
Record doc_chunk : Type := { marker : context_marker; chunk_lines : list chunk_line; anchored : bool }.
Inductive doc_hunk : Type :=
| DocAdd (path : str) (added : list str)
| DocDelete (path : str)
| DocUpdate (path : str) (move_path : option str) (chunks : list doc_chunk).

(** The contents of an added file: lines, each ended by a line feed. *)
Definition contents_of (ls : list str) : str := ls ≫= (λ l, l ++ [NL]).

Definition old_text (l : chunk_line) : option str :=
  match l with ContextLine t | RemovedLine t => Some t | BlankLine => Some [] | AddedLine _ => None end.
Definition new_text (l : chunk_line) : option str :=
  match l with ContextLine t | AddedLine t => Some t | BlankLine => Some [] | RemovedLine _ => None end.
Definition marker_context (m : context_marker) : option str :=
  match m with MarkerWith ctx => Some ctx | NoMarker | EmptyMarker => None end.
Definition chunk_of (c : doc_chunk) : UpdateFileChunk := {|
  change_context := marker_context (marker c); old_lines := omap old_text (chunk_lines c);
  new_lines := omap new_text (chunk_lines c); is_end_of_file := anchored c |}.
Definition hunk_of (h : doc_hunk) : Hunk :=
  match h with
  | DocAdd path added => AddFile path (contents_of added)
  | DocDelete path => DeleteFile path
  | DocUpdate path move_path chunks => UpdateFile path move_path (chunk_of <$> chunks)
  end.

Definition render_line (l : chunk_line) : str :=
  match l with ContextLine t => 32%N :: t | BlankLine => [] | RemovedLine t => 45%N :: t | AddedLine t => 43%N :: t end.
Definition render_marker (m : context_marker) : list str :=
  match m with
  | NoMarker => []
  | EmptyMarker => [EMPTY_CHANGE_CONTEXT_MARKER]
  | MarkerWith ctx => [CHANGE_CONTEXT_MARKER ++ ctx]
  end.
Definition render_chunk (c : doc_chunk) : list str :=
  render_marker (marker c) ++ (render_line <$> chunk_lines c) ++ (if anchored c then [EOF_MARKER] else []).
Definition render_chunks (cs : list doc_chunk) : list str := cs ≫= render_chunk.

Definition render_hunk (h : doc_hunk) : list str :=
  match h with
  | DocAdd path added => (ADD_FILE_MARKER ++ path) :: ((43%N ::.) <$> added)
  | DocDelete path => [DELETE_FILE_MARKER ++ path]
  | DocUpdate path move_path chunks =>
      (UPDATE_FILE_MARKER ++ path)
      :: (match move_path with Some m => [MOVE_TO_MARKER ++ m] | None => [] end)
      ++ render_chunks chunks
  end.

Definition render_body (hs : list doc_hunk) : list str := hs ≫= render_hunk.

Definition render_patch (hs : list doc_hunk) : str :=
  join [NL] (BEGIN_PATCH_MARKER :: render_body hs ++ [END_PATCH_MARKER]).

(** *** Well-formed documents *)

Definition wf_path (p : str) : Prop :=
  (NL ∉ p) ∧ ∃ c, last p = Some c ∧ is_whitespace c = false.

(** A chunk has lines; one without a marker does not start with a blank one. *)
Record wf_chunk (c : doc_chunk) : Prop := {
  wf_context : ∀ ctx, marker c = MarkerWith ctx → is_line ctx;
  wf_lines : Forall (λ l, is_line (render_line l)) (chunk_lines c);
  wf_nonempty : chunk_lines c ≠ [];
  wf_unmarked : marker c = NoMarker → ∀ l, head (chunk_lines c) = Some l → trim (render_line l) ≠ [];
}.

Definition wf_hunk (h : doc_hunk) : Prop :=
  match h with
  | DocAdd path added => wf_path path ∧ Forall is_line added
  | DocDelete path => wf_path path
  | DocUpdate path move_path chunks =>
      wf_path path ∧ (∀ m, move_path = Some m → is_line m) ∧
      chunks ≠ [] ∧ Forall wf_chunk chunks ∧ Forall (λ c, marker c ≠ NoMarker) (tail chunks)
  end.

(** *** Lines that end a chunk, or a hunk *)

Definition ends_hunk (rest : list str) : Prop :=
  match rest with
  | [] => True
  | l :: _ => l ≠ EOF_MARKER ∧ ∃ t, l = 42%N :: t
  end.

Definition ends_chunk (rest : list str) : Prop :=
  ends_hunk rest ∨ ∃ t rest', rest = (64%N :: t) :: rest'.

Lemma chunk_body_lines ln ls rest o n p :
  chunk_body ln ((render_line <$> ls) ++ rest) o n p =
  chunk_body ln rest (o ++ omap old_text ls) (n ++ omap new_text ls) (p + length ls).
Proof.
  revert o n p. induction ls as [|l ls IH]; intros o n p; [by rewrite !app_nil_r, Nat.add_0_r|].
  rewrite fmap_cons. destruct l; cbn [chunk_body app render_line]; rewrite bool_decide_false by done; simpl N.eqb; cbv iota;
    rewrite IH, <-?(assoc_L (++)), <-Nat.add_assoc; done.
Qed.

Lemma chunk_body_stop ln rest o n p :
  ends_chunk rest → 1 ≤ p → chunk_body ln rest o n p = Ok (o, n, false, p).
Proof.
  intros Hend Hp. destruct rest as [|l rest]; [done|].
  assert (l ≠ EOF_MARKER ∧ ∃ c t, l = c :: t ∧ (c = 42 ∨ c = 64)%N) as (Hl&c&t&->&Hc).
  { destruct Hend as [(?&t&->)|(t&r&[= -> ->])]; [|split; [done|]]; naive_solver. }
  simpl. rewrite bool_decide_false by done.
  destruct Hc as [-> | ->]; simpl; by destruct p; [lia|].
Qed.

(** The first line of a chunk, as the loop over chunks sees it. *)
Lemma render_chunk_cons c :
  wf_chunk c →
  ∃ l r, render_chunk c = l :: r ∧ trim l ≠ [] ∧ starts_with l (lit "*") = false
    ∧ strip_prefix MOVE_TO_MARKER l = None ∧ (marker c ≠ NoMarker → ∃ t, l = 64%N :: t).
Proof.
  intros [_ _ Hne Hun]. unfold render_chunk. destruct (marker c) as [| |ctx] eqn:Hm; simpl.
  2,3: do 2 eexists; split_and!; [done|by apply trim_nonempty|done|done|intros _; by eexists].
  destruct (chunk_lines c) as [|l ls]; [done|]. specialize (Hun eq_refl l eq_refl). simpl.
  do 2 eexists. split_and!; [done|done| | |done]; by destruct l.
Qed.

(** Where its lines start. *)
Lemma chunk_start_rendered c allow :
  wf_chunk c → (marker c = NoMarker → allow = true) →
  ∃ line rest, render_chunk c = line :: rest ∧ ∀ ln,
    chunk_start line ln allow = Ok (marker_context (marker c), length (render_marker (marker c))).
Proof.
  intros [_ _ Hne _] Hallow. unfold render_chunk, chunk_start. destruct (marker c) as [| |ctx]; cbn [render_marker marker_context app length].
  - rewrite Hallow by done. destruct (chunk_lines c) as [|l ls]; [done|]. do 2 eexists. split; [done|]. intros ln.
    rewrite bool_decide_false by by destruct l. by destruct l.
  - by do 2 eexists.
  - do 2 eexists. split; [done|]. intros ln. by rewrite bool_decide_false, strip_prefix_app by done.
Qed.

Lemma parse_rendered_chunk c rest ln allow :
  wf_chunk c → (marker c = NoMarker → allow = true) → ends_chunk rest →
  parse_update_file_chunk (render_chunk c ++ rest) ln allow = Ok (chunk_of c, length (render_chunk c)).
Proof.
  intros Hwf Hallow Hend. destruct (chunk_start_rendered c allow Hwf Hallow) as (line&more&Hr&Hs).
  pose proof (wf_nonempty c Hwf) as Hne.
  assert (1 ≤ length (chunk_lines c)) as Hlen by (destruct (chunk_lines c); [done|simpl; lia]).
  unfold parse_update_file_chunk. rewrite Hr at 1. cbn [app]. rewrite Hs. cbn [mbind result_bind].
  unfold render_chunk in *. rewrite (proj2 (Nat.leb_gt _ _)) by (rewrite !length_app, !length_fmap; lia).
  rewrite <-!(assoc_L (++)), drop_app_length, chunk_body_lines. cbn [app].
  unfold chunk_of. destruct (anchored c); cbn [app chunk_body].
  - rewrite bool_decide_true by done. destruct (length (chunk_lines c)) eqn:E; [lia|]. simpl.
    rewrite !length_app, !length_fmap, E. simpl. do 2 f_equal. lia.
  - rewrite chunk_body_stop by (done || lia). simpl.
    rewrite !length_app, !length_fmap. simpl. do 2 f_equal. lia.
Qed.

Lemma ends_hunk_stops fuel ai ln rest p cs :
  ends_hunk rest → length rest ≤ fuel → update_chunks fuel ai ln rest p cs = Ok (cs, p).
Proof.
  destruct rest as [|l rest]; [by destruct fuel|]. intros [_ (t&->)] Hf.
  destruct fuel as [|fuel]; [simpl in *; lia|]. simpl.
  rewrite bool_decide_false by by apply trim_nonempty. done.
Qed.

Lemma update_rendered_chunks fuel ln cs rest p acc :
  Forall wf_chunk cs → Forall (λ c, marker c ≠ NoMarker) (if bool_decide (acc = []) then tail cs else cs) →
  ends_hunk rest → length (render_chunks cs ++ rest) ≤ fuel →
  update_chunks fuel false ln (render_chunks cs ++ rest) p acc =
    Ok (acc ++ (chunk_of <$> cs), p + length (render_chunks cs)).
Proof.
  intros Hcs Hmarked Hend. revert fuel p acc Hmarked.
  induction Hcs as [|c cs Hc Hcs IH]; intros fuel p acc Hmarked Hf.
  { simpl in *. rewrite ends_hunk_stops by done. by rewrite app_nil_r, Nat.add_0_r. }
  change (render_chunks (c :: cs)) with (render_chunk c ++ render_chunks cs) in *.
  rewrite <-(assoc_L (++)) in *.
  assert (Forall (λ c, marker c ≠ NoMarker) cs ∧ (marker c = NoMarker → bool_decide (acc = []) = true)) as [Htl Hhd].
  { case_bool_decide; [done|]. apply Forall_cons in Hmarked as [??]. done. }
  assert (ends_chunk (render_chunks cs ++ rest)) as Hec.
  { destruct Hcs as [|c' cs Hc' _]; [by left|right]. apply Forall_cons in Htl as [Hm' _].
    change (render_chunks (c' :: cs)) with (render_chunk c' ++ render_chunks cs).
    destruct (render_chunk_cons c' Hc') as (l&r&->&_&_&_&Hl). destruct (Hl Hm') as [t ->]. by do 2 eexists. }
  destruct (render_chunk_cons c Hc) as (l&r&Hr&Ht&Hstar&_).
  destruct fuel as [|fuel]; [rewrite Hr in Hf; simpl in Hf; lia|].
  pose proof (parse_rendered_chunk c _ (ln + p) (bool_decide (acc = [])) Hc Hhd Hec) as Hp.
  rewrite length_app in Hf. rewrite Hr in *. cbn [app update_chunks] in *.
  rewrite bool_decide_false, Hstar by done. cbn [andb].
  rewrite Hp, slice_from_Ok by (simpl; rewrite length_app; lia).
  cbn [mbind result_bind].
  replace (drop _ _) with (render_chunks cs ++ rest).
  2: { rewrite app_comm_cons. by rewrite drop_app_length. }
  rewrite IH; [|by rewrite bool_decide_false by by destruct acc|simpl in Hf; lia].
  rewrite <-(assoc_L (++)). do 2 f_equal. simpl. rewrite ?length_app. simpl. lia.
Qed.

(** *** Hunks *)

Lemma header_line m path :
  wf_path path → (∃ m', m = 42%N :: m') → trim (m ++ path) = m ++ path.
Proof.
  intros [_ (c&Hc&Hw)] (m'&->). eapply trim_id; [done|done| |done].
  apply last_Some in Hc as [p' ->]. by rewrite app_assoc, last_snoc.
Qed.

Lemma add_rendered_lines ls rest contents p :
  match rest with [] => True | l :: _ => strip_prefix (lit "+") l = None end →
  add_file_lines (((43%N ::.) <$> ls) ++ rest) contents p =
    (contents ++ contents_of ls, p + length ls).
Proof.
  intros Hrest. revert contents p. induction ls as [|l ls IH]; intros contents p.
  - simpl. rewrite app_nil_r, Nat.add_0_r. destruct rest as [|r rest]; [done|]. simpl. by rewrite Hrest.
  - rewrite fmap_cons. cbn [app add_file_lines].
    change (strip_prefix (lit "+") (43%N :: l)) with (Some l). cbv iota.
    rewrite IH. unfold contents_of. rewrite bind_cons, <-!(assoc_L (++)). f_equal. simpl. lia.
Qed.

Lemma ends_hunk_not_added rest :
  ends_hunk rest → match rest with [] => True | l :: _ => strip_prefix (lit "+") l = None end.
Proof. destruct rest; [done|]. by intros [_ (t&->)]. Qed.

Lemma update_header_rendered (m : option str) cs rest :
  cs ≠ [] → Forall wf_chunk cs →
  update_header ((match m with Some m => [MOVE_TO_MARKER ++ m] | None => [] end)
                 ++ render_chunks cs ++ rest) =
    (m, render_chunks cs ++ rest, match m with Some _ => 2 | None => 1 end).
Proof.
  intros Hne Hcs. unfold update_header. destruct m as [m|].
  - cbn [app head mbind option_bind tail]. by rewrite strip_prefix_app.
  - destruct Hcs as [|c cs Hc _]; [done|].
    change (render_chunks (c :: cs)) with (render_chunk c ++ render_chunks cs).
    destruct (render_chunk_cons c Hc) as (l&r&->&_&_&Hl&_). simpl. by rewrite Hl.
Qed.

Lemma parse_rendered_hunk h rest ln :
  wf_hunk h → ends_hunk rest →
  parse_one_hunk (render_hunk h ++ rest) ln false = Ok (hunk_of h, length (render_hunk h)).
Proof.
  intros Hwf Hend. destruct h as [path added|path|path m cs]; simpl in Hwf.
  - destruct Hwf as [Hp Hls]. unfold parse_one_hunk, render_hunk. rewrite <-app_comm_cons.
    rewrite header_line, strip_prefix_app by (done || by eexists).
    rewrite add_rendered_lines by by apply ends_hunk_not_added.
    simpl. by rewrite length_fmap.
  - unfold parse_one_hunk, render_hunk. cbn [app]. rewrite header_line by (done || by eexists).
    by rewrite strip_prefix_app.
  - destruct Hwf as (Hp&Hm&Hne&Hcs&Hmarked). unfold render_hunk. rewrite <-app_comm_cons, <-(assoc_L (++)).
    rewrite (parse_one_hunk_update _ _ _ _ path);
      [|rewrite header_line by (done || by eexists); first [done|apply strip_prefix_app]..].
    rewrite update_header_rendered, update_rendered_chunks by done. simpl.
    rewrite bool_decide_false by by destruct cs. do 2 f_equal.
    rewrite length_app. destruct m; simpl; lia.
Qed.

Lemma render_hunk_cons h : ∃ t r, render_hunk h = (42%N :: t) :: r ∧ 42%N :: t ≠ EOF_MARKER.
Proof. destruct h; do 2 eexists; (split; [done|]); done. Qed.

Lemma render_body_ends hs : ends_hunk (render_body hs).
Proof.
  destruct hs as [|h hs]; [done|]. unfold render_body. rewrite bind_cons.
  destruct (render_hunk_cons h) as (t&r&->&?). simpl. split; [done|by eexists].
Qed.

Lemma parse_rendered_hunks fuel hs ln acc :
  Forall wf_hunk hs → length (render_body hs) ≤ fuel →
  parse_hunks fuel false (render_body hs) ln acc = Ok (acc ++ (hunk_of <$> hs)).
Proof.
  intros Hhs. revert fuel ln acc. induction Hhs as [|h hs Hh Hhs IH]; intros fuel ln acc Hf.
  { destruct fuel; simpl; by rewrite app_nil_r. }
  unfold render_body in *. rewrite bind_cons in *. fold (render_body hs) in *.
  destruct (render_hunk_cons h) as (t&r&Hr&_).
  pose proof (parse_rendered_hunk h (render_body hs) ln Hh (render_body_ends hs)) as Hp.
  rewrite length_app in Hf. rewrite Hr in *.
  destruct fuel as [|fuel]; [simpl in Hf; lia|]. cbn [app parse_hunks] in *. rewrite Hp.
  cbn [mbind result_bind]. rewrite slice_from_Ok by (simpl; rewrite length_app; lia).
  cbn [mbind result_bind].
  replace (drop _ _) with (render_body hs) by (rewrite app_comm_cons; by rewrite drop_app_length).
  rewrite IH by (simpl in Hf; lia). by rewrite <-(assoc_L (++)).
Qed.

(** *** Whole patches *)

Lemma is_line_app p s : NL ∉ p → is_line s → last p ≠ Some CR → is_line (p ++ s).
Proof.
  intros Hp [Hn Hl] Hcr. split; [by apply not_elem_of_app|].
  destruct s as [|c s] using rev_ind; [by rewrite app_nil_r|].
  clear IHs. rewrite app_assoc, last_snoc. by rewrite last_snoc in Hl.
Qed.

Lemma wf_path_line p : wf_path p → is_line p.
Proof. intros [Hn (c&Hl&Hw)]. split; [done|]. rewrite Hl. intros [= ->]. by vm_compute in Hw. Qed.

(** A literal is a line: decided by computation. *)
Ltac line_literal :=
  lazymatch goal with
  | |- NL ∉ _ => apply (bool_decide_unpack _); vm_compute; exact I
  | |- last _ ≠ Some CR => vm_compute; congruence
  end.

Lemma prefixed_lines c ls :
  c ≠ NL → c ≠ CR → Forall is_line ls → Forall is_line ((c ::.) <$> ls).
Proof.
  intros Hn Hc Hls. apply Forall_fmap. eapply Forall_impl; [exact Hls|]. intros l Hl.
  apply (is_line_app [c]); [set_solver|done|simpl; congruence].
Qed.

Lemma render_chunk_lines c : wf_chunk c → Forall is_line (render_chunk c).
Proof.
  intros [Hctx Hls _ _]. unfold render_chunk. rewrite !Forall_app. split_and!.
  - destruct (marker c) as [| |ctx]; repeat constructor; try line_literal;
      apply is_line_app; first [line_literal|by apply Hctx].
  - by apply Forall_fmap.
  - destruct (anchored c); repeat constructor; line_literal.
Qed.

Lemma render_hunk_lines h : wf_hunk h → Forall is_line (render_hunk h).
Proof.
  destruct h as [path added|path|path m cs]; simpl wf_hunk; unfold render_hunk.
  - intros [Hp Hls]. constructor.
    + apply is_line_app; [line_literal|by apply wf_path_line|line_literal].
    + by apply prefixed_lines.
  - intros Hp. repeat constructor; apply is_line_app; try line_literal; by apply wf_path_line.
  - intros (Hp&Hm&_&Hcs&_). constructor; [|apply Forall_app; split].
    + apply is_line_app; [line_literal|by apply wf_path_line|line_literal].
    + destruct m as [m|]; [|constructor]. constructor; [|constructor].
      apply is_line_app; [line_literal|by apply Hm|line_literal].
    + unfold render_chunks. apply Forall_bind. eapply Forall_impl; [exact Hcs|].
      apply render_chunk_lines.
Qed.

Lemma render_patch_lines hs :
  Forall wf_hunk hs →
  lines (trim (render_patch hs)) = BEGIN_PATCH_MARKER :: render_body hs ++ [END_PATCH_MARKER].
Proof.
  intros Hhs. unfold render_patch. rewrite app_comm_cons.
  assert (Forall is_line (BEGIN_PATCH_MARKER :: render_body hs)) as Hl.
  { constructor; [split; line_literal|]. unfold render_body. apply Forall_bind.
    eapply Forall_impl; [exact Hhs|]. apply render_hunk_lines. }
  rewrite (trim_id _ 42%N 104%N); [| |done| |done].
  - apply lines_join; [done|line_literal|done].
  - rewrite join_snoc by done. destruct (render_body hs); done.
  - rewrite join_snoc, app_assoc by done. change END_PATCH_MARKER with (lit "*** End Patc" ++ [104%N]).
    by rewrite app_assoc, last_snoc.
Qed.

(** C35. Parsing the text of any well-formed patch (added files, deletions,
    updates with moves, whose chunks have context, blank, removed and added
    lines in any order, with or without a context marker on the first,
    anchored at the end of the file or not) gives exactly the hunks it
    denotes: old lines are the context and removed lines, new lines the
    context and added ones, in order; and the text unchanged. *)
Theorem parse_render_patch ds :
  Forall wf_hunk ds →
  parse_patch (render_patch ds) =
    Ok {| patch := render_patch ds; hunks := hunk_of <$> ds; workdir := None |}.
Proof.
  intros Hds. unfold parse_patch, PARSE_IN_STRICT_MODE. apply strict_patch_any_mode.
  unfold parse_patch_text. rewrite render_patch_lines by done.
  rewrite (boundaries_strict_Ok _ (render_body ds)).
  - cbn [mbind result_bind is_streaming]. by rewrite parse_rendered_hunks.
  - do 2 eexists. split; [done|]. split; by vm_compute.
Qed.

Definition sample_patch : list doc_hunk :=
  [DocAdd (lit "src/a.txt") [lit "one"; lit "two"];
   DocDelete (lit "old name.txt");
   DocUpdate (lit "src/b.rs") (Some (lit "src/c.rs"))
     [{| marker := NoMarker;
         chunk_lines := [ContextLine (lit "a"); RemovedLine (lit "x"); BlankLine; AddedLine (lit "y"); ContextLine (lit "b")];
         anchored := false |};
      {| marker := MarkerWith (lit "fn main()"); chunk_lines := [AddedLine (lit "z"); ContextLine []]; anchored := false |};
      {| marker := EmptyMarker; chunk_lines := [AddedLine (lit "end")]; anchored := true |}]].

Lemma parse_render_patch_witness :
  parse_patch (render_patch sample_patch) =
    Ok {| patch := render_patch sample_patch; workdir := None; hunks :=
      [AddFile (lit "src/a.txt") (lit "one" ++ [NL] ++ lit "two" ++ [NL]);
       DeleteFile (lit "old name.txt");
       UpdateFile (lit "src/b.rs") (Some (lit "src/c.rs"))
         [{| change_context := None; old_lines := [lit "a"; lit "x"; []; lit "b"]; new_lines := [lit "a"; []; lit "y"; lit "b"];
             is_end_of_file := false |};
          {| change_context := Some (lit "fn main()"); old_lines := [[]]; new_lines := [lit "z"; []]; is_end_of_file := false |};
          {| change_context := None; old_lines := []; new_lines := [lit "end"]; is_end_of_file := true |}]] |}.
Proof.
  apply (parse_render_patch sample_patch). unfold sample_patch, wf_hunk, wf_path.
  repeat match goal with
  | |- Forall _ _ => constructor
  | |- _ ∧ _ => split
  | |- is_line _ => split
  | |- wf_chunk _ => split
  | |- NL ∉ _ => apply (bool_decide_unpack _); vm_compute; exact I
  | |- last _ ≠ Some CR => vm_compute; congruence
  | |- ∃ c, last _ = Some c ∧ _ => eexists; vm_compute; split; reflexivity
  | |- ∀ _, Some _ = Some _ → _ => let H := fresh in intros ? H; injection H as <-
  | |- ∀ _, marker _ = MarkerWith _ → _ =>
      let H := fresh in intros ? H; simpl in H; first [discriminate H|injection H as <-]
  | |- marker _ = NoMarker → _ => let H := fresh in intros H; simpl in H; first [discriminate H|clear H]
  | |- ∀ l, head _ = Some l → _ => let H := fresh in intros ? H; simpl in H; injection H as <-; by vm_compute
  | |- _ ≠ _ => discriminate
  | |- Forall _ _ => simpl
  end.
Defined.
