(* ===== verification/Paths.v ===== *)
(** * Absolute paths

    Models [utils/absolute-path/src/absolutize.rs] and the constructors of
    [AbsolutePathBuf] in [utils/absolute-path/src/lib.rs] on Unix.  A [PathBuf]
    is its string; [std::path::Components] is the split at ['/'] without empty
    and ["."] pieces.  The home directory is a parameter, since it is read from
    the environment. *)
From S2P Require Import Prelude Str.

Module Paths.

Definition SLASH : char := 47%N.
Definition DOTDOT : str := lit "..".
Definition DOT : str := lit ".".

(** ** What the code uses of [std::path] *)

Definition is_absolute (p : str) : bool := bool_decide (head p = Some SLASH).

(** The [Normal] and [ParentDir] components, in order. *)
Definition components (p : str) : list str :=
  filter (λ c, c ≠ [] ∧ c ≠ DOT) (split_on SLASH p).

(** [Path::join]. *)
Definition path_join (base p : str) : str :=
  if is_absolute p then p
  else if bool_decide (base = []) then p
  else if bool_decide (last base = Some SLASH) then base ++ p
  else base ++ [SLASH] ++ p.

(** The string of a path given by its root and its components. *)
Definition path_of (root : bool) (cs : list str) : str :=
  (if root then [SLASH] else []) ++ join [SLASH] cs.

(** ** The modelled code *)

(** One iteration of the loop of [normalize_path] over the components after
    the root; the normalized path is kept as its list of components. *)
Definition normalize_step (normalized : list str) (component : str) : list str :=
  if bool_decide (component = DOTDOT) then but_last normalized
  else normalized ++ [component].

Definition normalize_path (p : str) : str :=
  let normalized := path_of (is_absolute p) (foldl normalize_step [] (components p)) in
  if bool_decide (normalized = []) then DOT else normalized.

Definition path_with_base (path base_path : str) : str :=
  if is_absolute path then path else path_join base_path path.

Definition absolutize_from (path base_path : str) : str :=
  normalize_path (path_with_base path base_path).

Definition maybe_expand_home_directory (home_dir : option str) (path : str) : str :=
  match home_dir, strip_prefix (lit "~") path with
  | Some home, Some rest =>
      if bool_decide (rest = []) then home
      else match strip_prefix (lit "/") rest with
      | Some rest => path_join home (trim_start_matches (N.eqb SLASH) rest)
      | None => path
      end
  | _, _ => path
  end.

Definition resolve_path_against_base (home_dir : option str) (path base_path : str) : str :=
  absolutize_from (maybe_expand_home_directory home_dir path) base_path.

(** [AbsolutePathBuf::join]. *)
Definition abs_join (home_dir : option str) (base path : str) : str :=
  resolve_path_against_base home_dir path base.

(** All of [std::path::Components]. *)
Definition std_components (p : str) : list str :=
  (if is_absolute p then [[SLASH]]
   else if bool_decide (head (split_on SLASH p) = Some DOT) then [DOT] else []) ++ components p.

(** [Path::starts_with]. *)
Definition path_starts_with (p base : str) : bool :=
  bool_decide (std_components base `prefix_of` std_components p).

(** [AbsolutePathBuf::parent]: [None] for the root. *)
Definition parent (p : str) : option str :=
  match components p with
  | [] => None
  | cs => Some (path_of (is_absolute p) (but_last cs))
  end.

(** ** Normalized paths *)

(** A component that [normalize_path] can leave in its result. *)
Definition plain (c : str) : Prop := (SLASH ∉ c) ∧ c ≠ [] ∧ c ≠ DOT ∧ c ≠ DOTDOT.

Definition normal_abs (p : str) : Prop := ∃ cs, p = path_of true cs ∧ Forall plain cs.

Lemma normalize_steps_plain cs acc :
  Forall plain acc → Forall (λ c, (SLASH ∉ c) ∧ c ≠ [] ∧ c ≠ DOT) cs →
  Forall plain (foldl normalize_step acc cs).
Proof.
  intros Hacc Hcs. revert acc Hacc. induction Hcs as [|c cs (?&?&?) Hcs IH]; intros acc Hacc; [done|].
  simpl. apply IH. unfold normalize_step. case_bool_decide.
  - unfold but_last. by apply Forall_take.
  - apply Forall_app. split; [done|]. by repeat constructor.
Qed.

Lemma components_no_dot p : Forall (λ c, (SLASH ∉ c) ∧ c ≠ [] ∧ c ≠ DOT) (components p).
Proof.
  unfold components. apply Forall_forall. intros c [[? ?] Hc]%list_elem_of_filter.
  pose proof (split_on_no_sep_pieces SLASH p) as Hp. rewrite Forall_forall in Hp. eauto.
Qed.

Lemma normalize_path_normal p : is_absolute p = true → normal_abs (normalize_path p).
Proof.
  intros Ha. exists (foldl normalize_step [] (components p)). split.
  - unfold normalize_path. rewrite Ha. by rewrite bool_decide_false by done.
  - apply normalize_steps_plain; [done|apply components_no_dot].
Qed.

Lemma is_absolute_path_of cs : is_absolute (path_of true cs) = true.
Proof. done. Qed.

Lemma components_path_of cs : Forall plain cs → components (path_of true cs) = cs.
Proof.
  intros Hcs. unfold components, path_of. simpl app.
  assert (split_on SLASH (SLASH :: join [SLASH] cs) = [] :: split_on SLASH (join [SLASH] cs)) as -> by done.
  rewrite filter_cons_False by naive_solver.
  destruct Hcs as [|c cs Hc Hcs]; [done|].
  rewrite split_on_join; [|done|].
  - assert (Forall plain (c :: cs)) as Hp by by constructor.
    clear -Hp. induction Hp as [|d ds (?&?&?&?) _ IH]; [done|].
    by rewrite filter_cons_True, IH by done.
  - constructor; [by destruct Hc|]. eapply Forall_impl; [exact Hcs|]. by intros ? [??].
Qed.

Lemma normalize_steps_id cs acc : Forall plain cs → foldl normalize_step acc cs = acc ++ cs.
Proof.
  intros Hcs. revert acc. induction Hcs as [|c cs (?&?&?&?) _ IH]; intros acc; simpl.
  - by rewrite app_nil_r.
  - rewrite IH. unfold normalize_step. rewrite bool_decide_false by done.
    by rewrite <-(assoc_L (++)).
Qed.

Lemma normalize_normal p : normal_abs p → normalize_path p = p.
Proof.
  intros (cs&->&Hcs). unfold normalize_path. rewrite is_absolute_path_of, components_path_of by done.
  rewrite normalize_steps_id by done. simpl app. by rewrite bool_decide_false by done.
Qed.

Lemma path_with_base_absolute path base :
  is_absolute base = true → is_absolute (path_with_base path base) = true.
Proof.
  intros Hb. unfold path_with_base. destruct (is_absolute path) eqn:Hp; [done|].
  unfold path_join. rewrite Hp. destruct base as [|c base]; [done|].
  rewrite bool_decide_false by done. by case_bool_decide.
Qed.

(** Resolving a path against an absolute base gives an absolute path
    without empty, '.' or '..' components, and resolving it again changes
    nothing. *)
Theorem resolve_path_normal home path base :
  is_absolute base = true →
  let p := resolve_path_against_base home path base in
  normal_abs p ∧ resolve_path_against_base home p base = p.
Proof.
  intros Hb p. assert (normal_abs p) as Hn.
  { apply normalize_path_normal, path_with_base_absolute, Hb. }
  split; [done|]. destruct Hn as (cs&Hp&Hcs). rewrite Hp.
  unfold resolve_path_against_base, maybe_expand_home_directory.
  change (strip_prefix (lit "~") (path_of true cs)) with (@None str).
  assert ((match home with Some _ | None => path_of true cs end) = path_of true cs) as E
    by by destruct home.
  transitivity (absolutize_from (path_of true cs) base); [by destruct home|].
  unfold absolutize_from, path_with_base. rewrite is_absolute_path_of.
  apply normalize_normal. by exists cs.
Qed.

Lemma resolve_path_normal_witness :
  let p := resolve_path_against_base (Some (lit "/home/u")) (lit "~/x/../y") (lit "/w") in
  normal_abs p ∧ resolve_path_against_base (Some (lit "/home/u")) p (lit "/w") = p.
Proof. apply resolve_path_normal. reflexivity. Defined.

End Paths.
