(* ===== verification/PatchApply.v ===== *)
(** * Applying a patch

    Models the non-test code of [apply-patch/src/lib.rs].  The pure part turns
    the chunks of an update into replacements and applies them to the lines of
    a file; the effectful part runs the hunks of a patch against a file system,
    which is the interface [ExecutorFileSystem] of
    [exec-server/src/file_system.rs], here a type class over a state type.  The
    sandbox argument is passed on unchanged by all of this code and is part of
    the instance.  Writing to stdout and stderr is returning the text. *)
From S2P Require Import Prelude Str Io SeekSequence PatchParser Paths.
Import PatchParser Paths.

Module PatchApply.

(** ** Errors *)

Inductive ApplyPatchError : Type :=
| ApplyParseError (e : ParseError)
| IoError (context : str) (source : io_error)
| ComputeReplacements (m : str)
| ImplicitInvocation.

#[export] Instance ApplyPatchError_eq_dec : EqDecision ApplyPatchError.
Proof. solve_decision. Defined.

(** The [anyhow::Error]s the code builds: a message, an [io::Error] with a
    context, or an [ApplyPatchError]. *)
Inductive any_error : Type :=
| AnyMessage (m : str)
| AnyIo (context : str) (source : io_error)
| AnyApply (e : ApplyPatchError).

(** The [Display] implementations. *)
Definition ParseError_to_string (e : ParseError) : str :=
  match e with
  | InvalidPatchError m => lit "invalid patch: " ++ m
  | InvalidHunkError m n => lit "invalid hunk at line " ++ show_nat n ++ lit ", " ++ m
  end.

Definition ApplyPatchError_to_string (e : ApplyPatchError) : str :=
  match e with
  | ApplyParseError e => ParseError_to_string e
  | IoError context source => context ++ lit ": " ++ message source
  | ComputeReplacements m => m
  | ImplicitInvocation =>
      lit "patch detected without explicit call to apply_patch. Rerun as ["
      ++ [DQUOTE] ++ lit "apply_patch" ++ [DQUOTE] ++ lit ", "
      ++ [DQUOTE] ++ lit "<patch>" ++ [DQUOTE] ++ lit "]"
  end.

Definition any_error_to_string (e : any_error) : str :=
  match e with
  | AnyMessage m => m
  | AnyIo context _ => context
  | AnyApply e => ApplyPatchError_to_string e
  end.

(** ** Replacements *)

Abbreviation replacement := (nat * nat * list str)%type (only parsing).

Definition last_is_empty (ls : list str) : bool := bool_decide (last ls = Some []).

Definition pop_if_last_empty (ls : list str) : list str :=
  if last_is_empty ls then but_last ls else ls.

(** The lines of a chunk are looked up; if that fails and the pattern ends with
    an empty line, once more without it.  Returns the position, the pattern
    that matched and the lines that replace it. *)
Definition locate_chunk (original_lines : list str) (chunk : UpdateFileChunk) (line_index : nat)
    : option (nat * list str * list str) :=
  let pattern := old_lines chunk in
  let new_slice := new_lines chunk in
  match SeekSequence.seek_sequence original_lines pattern line_index (is_end_of_file chunk) with
  | Some start_idx => Some (start_idx, pattern, new_slice)
  | None =>
      if last_is_empty pattern then
        let pattern := but_last pattern in
        let new_slice := pop_if_last_empty new_slice in
        match SeekSequence.seek_sequence original_lines pattern line_index (is_end_of_file chunk) with
        | Some start_idx => Some (start_idx, pattern, new_slice)
        | None => None
        end
      else None
  end.

(** The [for chunk in chunks] loop. *)
Fixpoint replacements_loop (original_lines : list str) (path : str)
    (chunks : list UpdateFileChunk) (replacements : list replacement) (line_index : nat)
    : result ApplyPatchError (list replacement) :=
  match chunks with
  | [] => Ok replacements
  | chunk :: chunks =>
      line_index ←
        match change_context chunk with
        | Some ctx_line =>
            match SeekSequence.seek_sequence original_lines [ctx_line] line_index false with
            | Some idx => Ok (idx + 1)
            | None => Err (ComputeReplacements
                (lit "Failed to find context '" ++ ctx_line ++ lit "' in " ++ path))
            end
        | None => Ok line_index
        end;
      if bool_decide (old_lines chunk = []) then
        let insertion_idx :=
          if last_is_empty original_lines then length original_lines - 1
          else length original_lines in
        replacements_loop original_lines path chunks
          (replacements ++ [(insertion_idx, 0, new_lines chunk)]) line_index
      else
        match locate_chunk original_lines chunk line_index with
        | Some (start_idx, pattern, new_slice) =>
            replacements_loop original_lines path chunks
              (replacements ++ [(start_idx, length pattern, new_slice)])
              (start_idx + length pattern)
        | None => Err (ComputeReplacements
            (lit "Failed to find expected lines in " ++ path ++ lit ":" ++ [NL]
             ++ join [NL] (old_lines chunk)))
        end
  end.

(** The stable [sort_by] on the start index. *)
Fixpoint insert_by_start (r : replacement) (rs : list replacement) : list replacement :=
  match rs with
  | [] => [r]
  | r' :: rs' => if r.1.1 <=? r'.1.1 then r :: rs else r' :: insert_by_start r rs'
  end.
Definition sort_by_start (rs : list replacement) : list replacement :=
  foldr insert_by_start [] rs.

Definition compute_replacements (original_lines : list str) (path : str)
    (chunks : list UpdateFileChunk) : result ApplyPatchError (list replacement) :=
  replacements ← replacements_loop original_lines path chunks [] 0;
  Ok (sort_by_start replacements).

(** [lines.remove(start_idx)], guarded by [start_idx < lines.len()], [old_len] times. *)
Fixpoint remove_at (lines : list str) (start_idx old_len : nat) : list str :=
  match old_len with
  | 0 => lines
  | S old_len =>
      remove_at (if start_idx <? length lines then delete start_idx lines else lines)
        start_idx old_len
  end.

(** [lines.insert(start_idx + offset, new_line)] for each new line in order;
    [Vec::insert] panics past the end. *)
Fixpoint insert_at (lines : list str) (idx : nat) (new_segment : list str)
    : result ApplyPatchError (list str) :=
  match new_segment with
  | [] => Ok lines
  | new_line :: new_segment =>
      if idx <=? length lines
      then insert_at (take idx lines ++ new_line :: drop idx lines) (S idx) new_segment
      else Crash
  end.

Definition apply_one (lines : list str) (r : replacement) : result ApplyPatchError (list str) :=
  let '(start_idx, old_len, new_segment) := r in
  insert_at (remove_at lines start_idx old_len) start_idx new_segment.

Definition apply_replacements (lines : list str) (replacements : list replacement)
    : result ApplyPatchError (list str) :=
  foldl (λ acc r, lines ← acc; apply_one lines r) (Ok lines) (reverse replacements).

(** The part of [derive_new_contents_from_chunks] after the file has been read. *)
Definition derive_contents (original_contents path : str) (chunks : list UpdateFileChunk)
    : result ApplyPatchError str :=
  let original_lines := pop_if_last_empty (split_on NL original_contents) in
  replacements ← compute_replacements original_lines path chunks;
  new_lines ← apply_replacements original_lines replacements;
  let new_lines := if last_is_empty new_lines then new_lines else new_lines ++ [[]] in
  Ok (join [NL] new_lines).

(** ** The file system *)

(** [ExecutorFileSystem]: the operations the patch code calls.  [inl] is an
    error; a failing operation may still have changed the state. *)
Class ExecutorFileSystem (FS : Type) : Type := {
  read_file_text : FS → str → io_error + str;
  write_file : FS → str → str → FS * (io_error + unit);
  create_directory : FS → str → bool → FS * (io_error + unit);
  get_metadata_is_directory : FS → str → io_error + bool;
  remove_file : FS → str → FS * (io_error + unit);
}.

Record AffectedPaths : Type := {
  added : list str;
  modified : list str;
  deleted : list str;
}.

Section WithFs.
Context {FS : Type} `{ExecutorFileSystem FS}.
(** The user's home directory, for paths that start with ["~"]. *)
Variable home_dir : option str.
(** [similar::TextDiff]'s unified diff of two texts with a context radius. *)
Variable unified_diff : str → str → nat → str.

Definition write_file_with_missing_parent_retry (path_abs contents : str) : io FS any_error unit :=
  λ fs, match write_file fs path_abs contents with
  | (fs, inr _) => (fs, Ok ())
  | (fs, inl err) =>
      if bool_decide (kind err = NotFound) then
        (_ ← match parent path_abs with
             | Some parent_abs =>
                 call (AnyIo (lit "Failed to create parent directories for " ++ path_abs))
                   (λ fs, create_directory fs parent_abs true)
             | None => mret ()
             end;
         call (AnyIo (lit "Failed to write file " ++ path_abs))
           (λ fs, write_file fs path_abs contents)) fs
      else (fs, Err (AnyIo (lit "Failed to write file " ++ path_abs) err))
  end.

(** Deleting the file of a hunk: a directory is refused. *)
Definition delete_hunk_file (context path_abs : str) : io FS any_error unit :=
  is_directory ← call (AnyIo context) (query (λ fs, get_metadata_is_directory fs path_abs));
  if (is_directory : bool)
  then throw (AnyIo context {| kind := InvalidInput; message := lit "path is a directory" |})
  else call (AnyIo context) (λ fs, remove_file fs path_abs).

Definition derive_new_contents_from_chunks (path_abs : str) (chunks : list UpdateFileChunk)
    : io FS ApplyPatchError (str * str) :=
  original_contents ←
    call (IoError (lit "Failed to read file to update " ++ path_abs))
      (query (λ fs, read_file_text fs path_abs));
  new_contents ← pure_result (derive_contents original_contents path_abs chunks);
  mret (original_contents, new_contents).

Definition as_any {A} (m : io FS ApplyPatchError A) : io FS any_error A :=
  λ fs, let '(fs', r) := m fs in (fs', map_err AnyApply r).

Definition hunk_source (h : Hunk) : str :=
  match h with
  | UpdateFile path _ _ => path
  | _ => hunk_path h
  end.

(** [Hunk::resolve_path]. *)
Definition resolve_path (cwd : str) (h : Hunk) : str :=
  resolve_path_against_base home_dir (hunk_source h) cwd.

Definition apply_hunk (cwd : str) (hunk : Hunk) (affected : AffectedPaths)
    : io FS any_error AffectedPaths :=
  let affected_path := hunk_path hunk in
  let path_abs := resolve_path cwd hunk in
  match hunk with
  | AddFile _ contents =>
      _ ← write_file_with_missing_parent_retry path_abs contents;
      mret {| added := added affected ++ [affected_path];
              modified := modified affected; deleted := deleted affected |}
  | DeleteFile _ =>
      _ ← delete_hunk_file (lit "Failed to delete file " ++ path_abs) path_abs;
      mret {| added := added affected; modified := modified affected;
              deleted := deleted affected ++ [affected_path] |}
  | UpdateFile _ move_path chunks =>
      '(_, new_contents) ← as_any (derive_new_contents_from_chunks path_abs chunks);
      _ ← match move_path with
          | Some dest =>
              let dest_abs := resolve_path_against_base home_dir dest cwd in
              _ ← write_file_with_missing_parent_retry dest_abs new_contents;
              delete_hunk_file (lit "Failed to remove original " ++ path_abs) path_abs
          | None =>
              call (AnyIo (lit "Failed to write file " ++ path_abs))
                (λ fs, write_file fs path_abs new_contents)
          end;
      mret {| added := added affected; modified := modified affected ++ [affected_path];
              deleted := deleted affected |}
  end.

Fixpoint apply_hunks_loop (cwd : str) (hunks : list Hunk) (affected : AffectedPaths)
    : io FS any_error AffectedPaths :=
  match hunks with
  | [] => mret affected
  | hunk :: hunks =>
      affected ← apply_hunk cwd hunk affected;
      apply_hunks_loop cwd hunks affected
  end.

Definition apply_hunks_to_files (hunks : list Hunk) (cwd : str) : io FS any_error AffectedPaths :=
  match hunks with
  | [] => throw (AnyMessage (lit "No files were modified."))
  | _ :: _ => apply_hunks_loop cwd hunks {| added := []; modified := []; deleted := [] |}
  end.

(** [print_summary]: the text written to stdout. *)
Definition print_summary (affected : AffectedPaths) : str :=
  lit "Success. Updated the following files:" ++ [NL]
  ++ (added affected ≫= λ p, lit "A " ++ p ++ [NL])
  ++ (modified affected ≫= λ p, lit "M " ++ p ++ [NL])
  ++ (deleted affected ≫= λ p, lit "D " ++ p ++ [NL]).

(** The result of a run: the file system, stdout, stderr and the outcome. *)
Record outcome : Type := {
  final_fs : FS;
  stdout : str;
  stderr : str;
  status : result ApplyPatchError unit;
}.

Definition apply_hunks (hunks : list Hunk) (cwd : str) (fs : FS) : outcome :=
  match apply_hunks_to_files hunks cwd fs with
  | (fs, Ok affected) =>
      {| final_fs := fs; stdout := print_summary affected; stderr := []; status := Ok () |}
  | (fs, Err err) =>
      let msg := any_error_to_string err in
      {| final_fs := fs; stdout := []; stderr := msg ++ [NL];
         status := Err
           match err with
           | AnyIo _ io => IoError (lit "I/O error") io
           | _ => IoError msg {| kind := Other; message := msg |}
           end |}
  | (fs, Crash) => {| final_fs := fs; stdout := []; stderr := []; status := Crash |}
  end.

Definition apply_patch (patch_text cwd : str) (fs : FS) : outcome :=
  match parse_patch patch_text with
  | Ok source => apply_hunks (hunks source) cwd fs
  | Err e =>
      {| final_fs := fs; stdout := [];
         stderr :=
           match e with
           | InvalidPatchError m => lit "Invalid patch: " ++ m
           | InvalidHunkError m n =>
               lit "Invalid patch hunk on line " ++ show_nat n ++ lit ": " ++ m
           end ++ [NL];
         status := Err (ApplyParseError e) |}
  | Crash => {| final_fs := fs; stdout := []; stderr := []; status := Crash |}
  end.

Definition unified_diff_from_chunks_with_context (path_abs : str) (chunks : list UpdateFileChunk)
    (context : nat) : io FS ApplyPatchError (str * str) :=
  '(original_contents, new_contents) ← derive_new_contents_from_chunks path_abs chunks;
  mret (unified_diff original_contents new_contents context, new_contents).

Definition unified_diff_from_chunks (path_abs : str) (chunks : list UpdateFileChunk)
    : io FS ApplyPatchError (str * str) :=
  unified_diff_from_chunks_with_context path_abs chunks 1.
End WithFs.

End PatchApply.
