(* ===== verification/PatchApplyFacts.v ===== *)
(** * Theorems about applying a patch

    The replacement machinery never panics; when the replacements of a patch do
    not overlap it is the left-to-right splice one expects, and the code
    guarantees that for chunks without end-of-file anchors.  Against any lawful
    file system a successful run has exactly the effects of its hunks, in
    order. *)
From S2P Require Import Prelude Str Io SeekSequence PatchParser Paths PatchApply.
Import PatchParser Paths PatchApply.

#[local] Arguments apply_one : simpl never.
#[local] Arguments locate_chunk : simpl never.
#[local] Arguments last_is_empty : simpl never.

(** ** One replacement *)

Lemma remove_at_spec ls s n : remove_at ls s n = take s ls ++ drop (s + n) ls.
Proof.
  revert ls. induction n as [|n IH]; intros ls; simpl.
  { by rewrite Nat.add_0_r, take_drop. }
  rewrite IH. destruct (s <? length ls) eqn:E; bool_to_prop.
  - rewrite delete_take_drop, take_app_le, take_take, Nat.min_id by (rewrite length_take; lia).
    f_equal. rewrite drop_app_ge, length_take by (rewrite length_take; lia).
    rewrite drop_drop. f_equal. lia.
  - rewrite !drop_ge by lia. done.
Qed.

Lemma insert_at_spec ls i seg :
  i ≤ length ls → insert_at ls i seg = Ok (take i ls ++ seg ++ drop i ls).
Proof.
  revert ls i. induction seg as [|x seg IH]; intros ls i Hi; simpl.
  { by rewrite take_drop. }
  rewrite (proj2 (Nat.leb_le _ _) Hi).
  rewrite IH by (rewrite length_app, length_take; simpl; rewrite length_drop; lia).
  assert (length (take i ls) = i) as Hl by (rewrite length_take; lia).
  f_equal. rewrite take_app, drop_app, Hl, (take_ge (take i ls)), (drop_ge (take i ls)) by lia.
  replace (S i - i) with 1 by lia. simpl. by rewrite take_0, drop_0, <-(assoc_L (++)).
Qed.

Lemma apply_one_spec ls s n seg :
  s ≤ length ls → apply_one ls (s, n, seg) = Ok (take s ls ++ seg ++ drop (s + n) ls).
Proof.
  intros Hs. unfold apply_one. rewrite remove_at_spec.
  assert (length (take s ls) = s) as Hl by (rewrite length_take; lia).
  rewrite insert_at_spec by (rewrite length_app; lia). f_equal.
  rewrite take_app_le, take_take, Nat.min_id by lia.
  by rewrite drop_app_ge, Hl, Nat.sub_diag, drop_0 by lia.
Qed.

Lemma apply_replacements_cons ls r rs :
  apply_replacements ls (r :: rs) = (l ← apply_replacements ls rs; apply_one l r).
Proof. unfold apply_replacements. by rewrite reverse_cons, foldl_app. Qed.

(** ** Sorted replacements never panic *)

(** The starts are ascending from [pos] and inside a file of [len] lines. *)
Fixpoint ascending (pos len : nat) (rs : list replacement) : Prop :=
  match rs with
  | [] => pos ≤ len
  | (s, _, _) :: rs => pos ≤ s ∧ ascending s len rs
  end.

Lemma ascending_weaken p pos len rs : p ≤ pos → ascending pos len rs → ascending p len rs.
Proof. destruct rs as [|[[s n] seg] rs]; simpl; [lia|]. intros ? [? ?]. split; [lia|done]. Qed.

Lemma ascending_bound pos len rs : ascending pos len rs → pos ≤ len.
Proof.
  revert pos. induction rs as [|[[s n] seg] rs IH]; intros pos; simpl; [done|].
  intros [? Ha%IH]. lia.
Qed.

Lemma apply_replacements_ascending pos ls rs :
  ascending pos (length ls) rs →
  ∃ out, apply_replacements ls rs = Ok out ∧ pos ≤ length out.
Proof.
  revert pos. induction rs as [|[[s n] seg] rs IH]; intros pos Ha.
  { by exists ls. }
  destruct Ha as [Hp Ha]. destruct (IH _ Ha) as (out&Ho&Hl).
  rewrite apply_replacements_cons, Ho. simpl. rewrite apply_one_spec by done.
  eexists. split; [done|]. rewrite length_app, length_take. lia.
Qed.

Lemma insert_ascending pos len r rs :
  pos ≤ r.1.1 ≤ len → ascending pos len rs → ascending pos len (insert_by_start r rs).
Proof.
  revert pos. induction rs as [|[[s n] seg] rs IH]; intros pos Hr Ha;
    destruct r as [[s' n'] seg']; simpl in *; [lia|].
  destruct (s' <=? s) eqn:E; bool_to_prop; simpl.
  - split_and!; [lia|lia|by destruct Ha].
  - split; [lia|]. apply IH; [simpl; lia|by destruct Ha].
Qed.

Lemma sort_ascending len rs :
  Forall (λ r, r.1.1 ≤ len) rs → ascending 0 len (sort_by_start rs).
Proof. induction 1; simpl; [lia|]. apply insert_ascending; [lia|done]. Qed.

(** ** Where the replacements of a patch lie *)

Lemma locate_chunk_bound ls c i s p seg :
  locate_chunk ls c i = Some (s, p, seg) → i ≤ length ls →
  s + length p ≤ length ls ∧ (is_end_of_file c = false → i ≤ s).
Proof.
  intros H Hi. unfold locate_chunk in H.
  repeat case_match; simplify_eq; eapply SeekSequence.seek_sequence_bound; eauto.
Qed.

Lemma context_index ls (c : UpdateFileChunk) path i j :
  match change_context c with
  | Some ctx =>
      match SeekSequence.seek_sequence ls [ctx] i false with
      | Some idx => Ok (idx + 1)
      | None => Err (ComputeReplacements
          (lit "Failed to find context '" ++ ctx ++ lit "' in " ++ path))
      end
  | None => Ok i
  end = Ok j → i ≤ length ls → i ≤ j ≤ length ls.
Proof.
  destruct (change_context c) as [ctx|]; [|naive_solver].
  destruct (SeekSequence.seek_sequence _ _ _ _) as [idx|] eqn:E; [|done].
  intros ? Hi; simplify_eq. apply SeekSequence.seek_sequence_bound in E as [? ?]; [|done].
  simpl in *. naive_solver lia.
Qed.

(** The replacements, in the order of the chunks, seen from line [pos]: each
    is an insertion at the end or lies after everything before it. *)
Fixpoint laid_out (pos len : nat) (rs : list replacement) : Prop :=
  match rs with
  | [] => pos ≤ len
  | (s, n, _) :: rs =>
      (s = len ∧ n = 0 ∧ laid_out pos len rs) ∨
      (pos ≤ s ∧ s + n ≤ len ∧ laid_out (s + n) len rs)
  end.

(** Chunks whose replacements cannot overlap. *)
Definition anchored (ls : list str) (c : UpdateFileChunk) : Prop :=
  is_end_of_file c = false ∧ (old_lines c = [] → last_is_empty ls = false).

Lemma replacements_loop_spec ls path cs acc i r :
  replacements_loop ls path cs acc i = Ok r → i ≤ length ls →
  ∃ rs, r = acc ++ rs ∧ Forall (λ r, r.1.1 ≤ length ls) rs ∧
    (Forall (anchored ls) cs → laid_out i (length ls) rs).
Proof.
  revert acc i. induction cs as [|c cs IH]; intros acc i; simpl.
  { intros ? Hi. simplify_eq. exists []. by rewrite app_nil_r. }
  intros (j&Hj&H)%result_bind_Ok Hi. apply context_index in Hj as [Hij Hj]; [|done].
  case_bool_decide as Hold.
  - apply IH in H as (rs&->&Hb&Hlay); [|done].
    rewrite <-(assoc_L (++)). eexists. split; [done|]. split.
    + constructor; [|done]. simpl. case_match; lia.
    + intros [[_ Ha] Hcs]%Forall_cons. simpl. rewrite Ha by done. left.
      split_and!; [done..|]. specialize (Hlay Hcs).
      clear -Hlay Hij. revert i j Hij Hlay.
      induction rs as [|[[s n] seg] rs IH]; intros i j Hij; simpl; [lia|].
      intros [(?&?&?)|(?&?&?)]; [left|right]; split_and!; eauto; lia.
  - destruct (locate_chunk ls c j) as [[[s p] seg]|] eqn:Hloc; [|done].
    apply locate_chunk_bound in Hloc as [Hsp Hs]; [|done].
    apply IH in H as (rs&->&Hb&Hlay); [|lia].
    rewrite <-(assoc_L (++)). eexists. split; [done|]. split.
    + constructor; [simpl; lia|done].
    + intros [[Heof _] Hcs]%Forall_cons. simpl. right. specialize (Hs Heof).
      split_and!; [lia|lia|by apply Hlay].
Qed.

Lemma locate_chunk_total ls path cs acc i : replacements_loop ls path cs acc i ≠ Crash.
Proof.
  revert acc i. induction cs as [|c cs IH]; intros acc i; simpl; [done|].
  intros [H|(j&_&H)]%result_bind_Crash; [by repeat case_match|].
  repeat case_match; simplify_eq; by apply IH in H.
Qed.

(** Computing and applying the replacements of any chunks to any file
    never panics: every Vec::insert is within bounds, also when replacements
    overlap. *)
Theorem derive_contents_returns contents path cs : derive_contents contents path cs ≠ Crash.
Proof.
  unfold derive_contents, compute_replacements. set (ls := pop_if_last_empty _).
  destruct (replacements_loop ls path cs [] 0) as [rs|e|] eqn:Hr; simpl; [|done|].
  - apply replacements_loop_spec in Hr as (rs'&->&Hb&_); [|lia].
    destruct (apply_replacements_ascending 0 ls (sort_by_start rs')) as (out&Ho&_);
      [by apply sort_ascending|]. simpl. by rewrite Ho.
  - by apply locate_chunk_total in Hr.
Qed.

(** ** Disjoint replacements are a splice *)

(** The reference: replacements in order of their starts, none overlapping, and
    the lines between them kept; [ls] are the lines from [pos] on. *)
Fixpoint splice (pos : nat) (rs : list replacement) (ls : list str) : list str :=
  match rs with
  | [] => ls
  | (s, n, seg) :: rs => take (s - pos) ls ++ seg ++ splice (s + n) rs (drop (s + n - pos) ls)
  end.

Fixpoint disjoint_from (pos len : nat) (rs : list replacement) : Prop :=
  match rs with
  | [] => pos ≤ len
  | (s, n, _) :: rs => pos ≤ s ∧ disjoint_from (s + n) len rs
  end.

Lemma disjoint_bound pos len rs : disjoint_from pos len rs → pos ≤ len.
Proof.
  revert pos. induction rs as [|[[s n] seg] rs IH]; intros pos; simpl; [done|].
  intros [? Ha%IH]. lia.
Qed.

Lemma apply_replacements_splice pos ls rs :
  disjoint_from pos (length ls) rs →
  apply_replacements ls rs = Ok (take pos ls ++ splice pos rs (drop pos ls)).
Proof.
  revert pos. induction rs as [|[[s n] seg] rs IH]; intros pos Hd.
  { simpl. by rewrite take_drop. }
  destruct Hd as [Hp Hd]. pose proof (disjoint_bound _ _ _ Hd).
  rewrite apply_replacements_cons, (IH _ Hd). cbn [mbind result_bind].
  assert (length (take (s + n) ls) = s + n) as Hl by (rewrite length_take; lia).
  rewrite apply_one_spec by (rewrite length_app; lia).
  rewrite take_app_le, take_take, drop_app_ge, Hl, Nat.sub_diag, drop_0 by lia.
  replace (s `min` (s + n)) with s by lia. simpl. f_equal.
  rewrite (assoc_L (++) (take pos ls)). f_equal.
  - rewrite take_take_drop. f_equal. lia.
  - f_equal. rewrite drop_drop. do 2 f_equal. lia.
Qed.

Lemma insert_end_disjoint pos len seg rs :
  disjoint_from pos len rs → disjoint_from pos len (insert_by_start (len, 0, seg) rs).
Proof.
  revert pos. induction rs as [|[[s n] seg'] rs IH]; intros pos; simpl; [lia|].
  intros [? Hd]. pose proof (disjoint_bound _ _ _ Hd).
  destruct (len <=? s) eqn:E; bool_to_prop; simpl.
  - split_and!; [lia|lia|done].
  - split; [done|by apply IH].
Qed.

Lemma insert_first_disjoint pos len s n seg rs :
  pos ≤ s → s + n ≤ len → disjoint_from (s + n) len rs →
  insert_by_start (s, n, seg) rs = (s, n, seg) :: rs.
Proof.
  intros Hp Hl Hd. destruct rs as [|[[s' n'] seg'] rs]; [done|]. simpl.
  destruct Hd as [? _]. by rewrite (proj2 (Nat.leb_le _ _)) by lia.
Qed.

Lemma laid_out_sorted pos len rs : laid_out pos len rs → disjoint_from pos len (sort_by_start rs).
Proof.
  revert pos. induction rs as [|[[s n] seg] rs IH]; intros pos; simpl; [done|].
  intros [(->&->&Hl)|(Hp&Hb&Hl)].
  - by apply insert_end_disjoint, IH.
  - rewrite (insert_first_disjoint pos len) by auto. simpl. auto.
Qed.

(** A text file is read as lines and written back with a final line feed. *)
Definition file_lines (contents : str) : list str := pop_if_last_empty (split_on NL contents).
Definition file_text (ls : list str) : str :=
  join [NL] (if last_is_empty ls then ls else ls ++ [[]]).

Lemma derive_contents_splice_aux contents path cs rs :
  let ls := file_lines contents in
  Forall (anchored ls) cs →
  compute_replacements ls path cs = Ok rs →
  disjoint_from 0 (length ls) rs ∧
  derive_contents contents path cs = Ok (file_text (splice 0 rs ls)).
Proof.
  intros ls Hcs Hr. pose proof Hr as (rs'&Hl&?)%result_bind_Ok. simplify_eq.
  apply replacements_loop_spec in Hl as (rs&->&_&Hlay); [|lia].
  assert (disjoint_from 0 (length ls) (sort_by_start rs)) as Hd by by apply laid_out_sorted, Hlay.
  split; [done|]. unfold derive_contents. fold (file_lines contents). fold ls. rewrite Hr.
  cbn [mbind result_bind]. by rewrite (apply_replacements_splice 0) by done.
Qed.

(** For chunks without end-of-file anchors (and no pure insertion into a
    file that ends with a blank line) the reverse in-place removals and
    insertions of apply_replacements equal the left-to-right splice of the
    computed replacements, which are sorted and never overlap; errors are
    passed on. *)
Theorem derive_contents_splice contents path cs :
  let ls := file_lines contents in
  Forall (anchored ls) cs →
  match compute_replacements ls path cs with
  | Ok rs => disjoint_from 0 (length ls) rs ∧
             derive_contents contents path cs = Ok (file_text (splice 0 rs ls))
  | Err e => derive_contents contents path cs = Err e
  | Crash => False
  end.
Proof.
  intros ls Hcs. destruct (compute_replacements ls path cs) as [rs|e|] eqn:Hr.
  - by apply derive_contents_splice_aux.
  - unfold derive_contents. fold (file_lines contents). fold ls. by rewrite Hr.
  - apply result_bind_Crash in Hr as [Hr|(?&_&?)]; [|done]. by apply locate_chunk_total in Hr.
Qed.

Lemma derive_contents_splice_witness :
  let contents := lit "a" ++ [NL] ++ lit "b" ++ [NL] ++ lit "c" ++ [NL] in
  let cs := [{| change_context := Some (lit "a"); old_lines := [lit "b"]; new_lines := [lit "x"];
                is_end_of_file := false |};
             {| change_context := None; old_lines := []; new_lines := [lit "d"];
                is_end_of_file := false |}] in
  match compute_replacements (file_lines contents) (lit "f") cs with
  | Ok rs => disjoint_from 0 3 rs ∧
             derive_contents contents (lit "f") cs = Ok (file_text (splice 0 rs (file_lines contents)))
  | Err e => derive_contents contents (lit "f") cs = Err e
  | Crash => False
  end.
Proof.
  intros contents cs. apply (derive_contents_splice contents (lit "f") cs).
  repeat constructor; intros _; vm_compute; reflexivity.
Defined.

(** ** Updating one block of lines *)

Lemma split_contents ls :
  Forall (λ l, NL ∉ l) ls → split_on NL (ls ≫= (λ l, l ++ [NL])) = ls ++ [[]].
Proof.
  induction 1 as [|l ls Hl _ IH]; [done|]. rewrite bind_cons, <-(assoc_L (++)).
  simpl. by rewrite split_on_app_sep, IH.
Qed.

(** The text of a file whose lines are [ls], each ended by a line feed. *)
Definition text_of_lines (ls : list str) : str := ls ≫= (λ l, l ++ [NL]).

Lemma file_lines_text ls : Forall (λ l, NL ∉ l) ls → file_lines (text_of_lines ls) = ls.
Proof.
  intros Hls. unfold file_lines, pop_if_last_empty, text_of_lines. rewrite split_contents by done.
  unfold last_is_empty. rewrite last_snoc, bool_decide_true by done. apply but_last_snoc.
Qed.

Lemma text_of_lines_join ls : text_of_lines ls = join [NL] (ls ++ [[]]).
Proof.
  induction ls as [|l ls IH]; [done|]. unfold text_of_lines in *. rewrite bind_cons, IH.
  rewrite <-(assoc_L (++)). simpl app. rewrite join_cons by (by destruct ls). done.
Qed.

Lemma file_text_lines ls : last_is_empty ls = false → file_text ls = text_of_lines ls.
Proof. intros H. unfold file_text. by rewrite H, text_of_lines_join. Qed.

(** One chunk whose old lines first occur after [pre]. *)
Definition update_chunk (old new : list str) : UpdateFileChunk :=
  {| change_context := None; old_lines := old; new_lines := new; is_end_of_file := false |}.

Definition first_occurrence (pre old post : list str) : Prop :=
  old ≠ [] ∧ Forall (λ l, NL ∉ l) (pre ++ old ++ post) ∧
  ∀ j, j < length pre → take (length old) (drop j (pre ++ old ++ post)) ≠ old.

Lemma single_chunk_lines pre old new post path :
  first_occurrence pre old post →
  derive_contents (text_of_lines (pre ++ old ++ post)) path [update_chunk old new]
  = Ok (file_text (pre ++ new ++ post)).
Proof.
  intros (Hold&Hnl&Hfirst). set (ls := pre ++ old ++ post) in *.
  assert (length ls = length pre + (length old + length post)) as Hlen
    by (unfold ls; by rewrite !length_app).
  assert (SeekSequence.seek_sequence ls old 0 false = Some (length pre)) as Hseek.
  { rewrite SeekSequence.seek_sequence_unfold by (done || lia).
    cbv zeta. unfold SeekSequence.search_from.
    assert (SeekSequence.pass id ls old 0 = Some (length pre)) as ->; [|done].
    apply SeekSequence.pass_Some; [lia|].
    unfold SeekSequence.in_range. split_and!; [lia|lia| |].
    - apply SeekSequence.matches_at_spec. unfold ls. by rewrite drop_app_length, take_app_length.
    - intros j _ Hj. apply not_true_is_false. rewrite SeekSequence.matches_at_spec.
      rewrite !list_fmap_id. by apply Hfirst. }
  assert (compute_replacements (file_lines (text_of_lines ls)) path [update_chunk old new] =
    Ok [(length pre, length old, new)]) as Hc.
  { rewrite file_lines_text by done. unfold compute_replacements. simpl.
    rewrite bool_decide_false by done. unfold locate_chunk. simpl. by rewrite Hseek. }
  apply derive_contents_splice_aux in Hc as [_ ->]; [|by repeat constructor].
  rewrite file_lines_text by done. cbn [splice]. rewrite Nat.sub_0_r. simpl.
  rewrite Nat.sub_0_r. unfold ls. rewrite take_app_length, (assoc_L (++) pre old post).
  by rewrite <-length_app, drop_app_length.
Qed.

(** A chunk whose old lines first occur after the lines pre turns a file
    with lines pre, old, post into the file with lines pre, new, post, unless
    the result would end with a blank line. *)
Theorem single_chunk_update pre old new post path :
  first_occurrence pre old post →
  last (pre ++ new ++ post) ≠ Some [] →
  derive_contents (text_of_lines (pre ++ old ++ post)) path [update_chunk old new]
  = Ok (text_of_lines (pre ++ new ++ post)).
Proof.
  intros Hf Hlast. rewrite single_chunk_lines by done. f_equal. apply file_text_lines.
  unfold last_is_empty. by rewrite bool_decide_false.
Qed.

(** When the file ends with a blank line that the chunk does not touch,
    the updated file has lost that blank line. *)
Theorem trailing_blank_line_dropped pre old new post path :
  first_occurrence pre old (post ++ [[]]) →
  derive_contents (text_of_lines (pre ++ old ++ post ++ [[]])) path [update_chunk old new]
  = Ok (text_of_lines (pre ++ new ++ post)).
Proof.
  intros Hf. rewrite single_chunk_lines by done. f_equal. unfold file_text, last_is_empty.
  rewrite !(assoc_L (++)), last_snoc, bool_decide_true by done. by rewrite text_of_lines_join.
Qed.

Lemma sample_occurrence : first_occurrence [lit "a"; lit "b"] [lit "c"] [lit "d"; []].
Proof.
  split_and!; [done|apply (bool_decide_unpack _); vm_compute; exact I|].
  intros j Hj. do 2 (destruct j as [|j]; [vm_compute; congruence|]). simpl in Hj. lia.
Qed.

Lemma sample_occurrence' : first_occurrence [lit "a"; lit "b"] [lit "c"] [lit "d"].
Proof.
  split_and!; [done|apply (bool_decide_unpack _); vm_compute; exact I|].
  intros j Hj. do 2 (destruct j as [|j]; [vm_compute; congruence|]). simpl in Hj. lia.
Qed.

Lemma single_chunk_update_witness :
  derive_contents (text_of_lines ([lit "a"; lit "b"] ++ [lit "c"] ++ [lit "d"])) (lit "f")
    [update_chunk [lit "c"] [lit "x"; lit "y"]]
  = Ok (text_of_lines ([lit "a"; lit "b"] ++ [lit "x"; lit "y"] ++ [lit "d"])).
Proof. apply single_chunk_update; [apply sample_occurrence'|vm_compute; congruence]. Defined.

Lemma trailing_blank_line_dropped_witness :
  derive_contents (text_of_lines ([lit "a"; lit "b"] ++ [lit "c"] ++ [lit "d"; []])) (lit "f")
    [update_chunk [lit "c"] [lit "x"; lit "y"]]
  = Ok (text_of_lines ([lit "a"; lit "b"] ++ [lit "x"; lit "y"] ++ [lit "d"])).
Proof. apply (trailing_blank_line_dropped _ _ _ [lit "d"]), sample_occurrence. Defined.

(** ** Behaviours of the replacement code that lose lines *)

Definition plain_chunk (old new : list string) : UpdateFileChunk :=
  {| change_context := None; old_lines := lit <$> old; new_lines := lit <$> new;
     is_end_of_file := false |}.

(** A pure insertion into a file that ends with a blank line is lost when a
    later chunk replaces the end of the file: the replacements overlap. *)
Example insertion_lost :
  derive_contents (text_of_lines (lit <$> ["a"; EmptyString]%string)) (lit "f")
    [plain_chunk [] ["x"]; plain_chunk ["a"; EmptyString] ["b"; EmptyString]]
  = Ok (text_of_lines (lit <$> ["b"; EmptyString]%string)).
Proof. vm_compute. reflexivity. Qed.

(** ** Effects on the file system *)

(** The texts of the files of a state. *)
Definition view {FS} `{ExecutorFileSystem FS} (fs : FS) (p : str) : option str :=
  match read_file_text fs p with inr c => Some c | inl _ => None end.

(** What the patch code expects of a file system: a successful write is read
    back, a successful removal leaves no file, and nothing else changes.  A
    write that fails because its directory is missing changes nothing, and
    creating directories changes no file. *)
Class LawfulFileSystem (FS : Type) `{ExecutorFileSystem FS} : Prop := {
  write_ok fs p c fs' : write_file fs p c = (fs', inr ()) →
    ∀ q, view fs' q = if decide (q = p) then Some c else view fs q;
  write_missing fs p c fs' e : write_file fs p c = (fs', inl e) → kind e = NotFound →
    ∀ q, view fs' q = view fs q;
  mkdir_ok fs p r fs' : create_directory fs p r = (fs', inr ()) → ∀ q, view fs' q = view fs q;
  remove_ok fs p fs' : remove_file fs p = (fs', inr ()) →
    ∀ q, view fs' q = if decide (q = p) then None else view fs q;
}.

Definition files : Type := str → option str.
Definition upd (p : str) (v : option str) (f : files) : files :=
  λ q, if decide (q = p) then v else f q.

#[export] Instance files_equiv : Equiv files := pointwise_relation str (=).
#[export] Instance files_equivalence : Equivalence (≡@{files}).
Proof. unfold equiv, files_equiv. apply _. Qed.
#[export] Instance upd_proper p v : Proper ((≡) ==> (≡)) (upd p v).
Proof. intros f g Hfg q. unfold upd. case_decide; [done|apply Hfg]. Qed.

Section Refinement.
Context {FS : Type} `{LawfulFileSystem FS}.
Variable home_dir : option str.

Abbreviation resolve := (resolve_path_against_base home_dir).

(** The abstract effect of one hunk, as a relation on the files. *)
Inductive hunk_effect (cwd : str) : Hunk → files → files → Prop :=
| effect_add path contents f f' :
    f' ≡ upd (resolve path cwd) (Some contents) f →
    hunk_effect cwd (AddFile path contents) f f'
| effect_delete path f f' :
    f' ≡ upd (resolve path cwd) None f →
    hunk_effect cwd (DeleteFile path) f f'
| effect_update path chunks f f' old new :
    f (resolve path cwd) = Some old →
    derive_contents old (resolve path cwd) chunks = Ok new →
    f' ≡ upd (resolve path cwd) (Some new) f →
    hunk_effect cwd (UpdateFile path None chunks) f f'
| effect_move path dest chunks f f' old new :
    f (resolve path cwd) = Some old →
    derive_contents old (resolve path cwd) chunks = Ok new →
    f' ≡ upd (resolve path cwd) None (upd (resolve dest cwd) (Some new) f) →
    hunk_effect cwd (UpdateFile path (Some dest) chunks) f f'.

Inductive hunks_effect (cwd : str) : list Hunk → files → files → Prop :=
| effects_nil f f' : f' ≡ f → hunks_effect cwd [] f f'
| effects_cons h hs f g f' :
    hunk_effect cwd h f g → hunks_effect cwd hs g f' → hunks_effect cwd (h :: hs) f f'.

(** What the summary must list. *)
Definition is_add (h : Hunk) : Prop := match h with AddFile _ _ => True | _ => False end.
Definition is_update (h : Hunk) : Prop := match h with UpdateFile _ _ _ => True | _ => False end.
Definition is_delete (h : Hunk) : Prop := match h with DeleteFile _ => True | _ => False end.
#[local] Instance is_add_dec h : Decision (is_add h).
Proof. destruct h; apply _. Defined.
#[local] Instance is_update_dec h : Decision (is_update h).
Proof. destruct h; apply _. Defined.
#[local] Instance is_delete_dec h : Decision (is_delete h).
Proof. destruct h; apply _. Defined.

Definition summary_of (hs : list Hunk) (a : AffectedPaths) : Prop :=
  added a = hunk_path <$> filter is_add hs ∧
  modified a = hunk_path <$> filter is_update hs ∧
  deleted a = hunk_path <$> filter is_delete hs.

Lemma write_retry_ok p c fs fs' u :
  write_file_with_missing_parent_retry p c fs = (fs', Ok u) →
  view fs' ≡ upd p (Some c) (view fs).
Proof.
  unfold write_file_with_missing_parent_retry.
  destruct (write_file fs p c) as [fs1 [e|[]]] eqn:Hw; [case_bool_decide as Hk; [|done]|].
  - intros (fs2&[]&Hd&Hc)%io_bind_Ok. apply call_Ok in Hc. destruct u.
    intros q. rewrite (write_ok _ _ _ _ Hc). unfold upd. case_decide; [done|].
    transitivity (view fs1 q); [|by eapply write_missing].
    destruct (parent p) as [d|]; [|by inversion Hd]. apply call_Ok in Hd. by eapply mkdir_ok.
  - intros ?. simplify_eq. intros q. by rewrite (write_ok _ _ _ _ Hw).
Qed.

Lemma delete_hunk_file_ok ctx p fs fs' u :
  delete_hunk_file ctx p fs = (fs', Ok u) → view fs' ≡ upd p None (view fs).
Proof.
  unfold delete_hunk_file. intros (fs1&[]&Hm&Hd)%io_bind_Ok; [done|].
  apply call_Ok in Hm. unfold query in Hm. apply call_Ok in Hd. simplify_eq. destruct u.
  intros q. by rewrite (remove_ok _ _ _ Hd).
Qed.

Lemma derive_new_contents_ok p cs fs fs' old new :
  as_any (derive_new_contents_from_chunks p cs) fs = (fs', Ok (old, new)) →
  fs' = fs ∧ view fs p = Some old ∧ derive_contents old p cs = Ok new.
Proof.
  unfold as_any. destruct (derive_new_contents_from_chunks p cs fs) as [fs1 r] eqn:Hd.
  destruct r as [[o n]|e|]; intros ?; simplify_eq/=.
  apply io_bind_Ok in Hd as (fs2&o&Hr&Hd). apply call_Ok in Hr. unfold query in Hr.
  apply io_bind_Ok in Hd as (fs3&n&Hp&Hd). unfold pure_result in Hp.
  inversion Hd; subst. injection Hp as <- ->. injection Hr as <- Hr.
  unfold view. by rewrite Hr.
Qed.

Lemma apply_hunk_effect cwd h a fs fs' a' :
  apply_hunk home_dir cwd h a fs = (fs', Ok a') →
  hunk_effect cwd h (view fs) (view fs') ∧
  added a' = added a ++ (hunk_path <$> filter is_add [h]) ∧
  modified a' = modified a ++ (hunk_path <$> filter is_update [h]) ∧
  deleted a' = deleted a ++ (hunk_path <$> filter is_delete [h]).
Proof.
  destruct h as [path contents|path|path mv cs]; unfold apply_hunk.
  - intros (fs1&u&Hw&Hr)%io_bind_Ok. inversion Hr; subst.
    rewrite ?app_nil_r. split; [|done]. constructor. by eapply write_retry_ok.
  - intros (fs1&u&Hw&Hr)%io_bind_Ok. inversion Hr; subst.
    rewrite ?app_nil_r. split; [|done]. constructor. by eapply delete_hunk_file_ok.
  - intros (fs1&[old new]&Hd&Hr)%io_bind_Ok.
    apply derive_new_contents_ok in Hd as (->&Hold&Hnew).
    apply io_bind_Ok in Hr as (fs2&u&Hw&Hr). inversion Hr; subst.
    rewrite ?app_nil_r. split; [|by destruct mv].
    destruct mv as [dest|].
    + apply io_bind_Ok in Hw as (fs3&[]&Hw&Hd). apply delete_hunk_file_ok in Hd.
      econstructor; [done..|]. rewrite Hd. by rewrite (write_retry_ok _ _ _ _ _ Hw).
    + apply call_Ok in Hw. destruct u. econstructor; [done..|].
      intros q. by rewrite (write_ok _ _ _ _ Hw).
Qed.

Lemma apply_hunks_loop_effect cwd hs a fs fs' a' :
  apply_hunks_loop home_dir cwd hs a fs = (fs', Ok a') →
  hunks_effect cwd hs (view fs) (view fs') ∧
  added a' = added a ++ (hunk_path <$> filter is_add hs) ∧
  modified a' = modified a ++ (hunk_path <$> filter is_update hs) ∧
  deleted a' = deleted a ++ (hunk_path <$> filter is_delete hs).
Proof.
  revert a fs. induction hs as [|h hs IH]; intros a fs; simpl apply_hunks_loop.
  - intros Hr. inversion Hr; subst. rewrite !app_nil_r. split; [by constructor|done].
  - intros (fs1&a1&Hh&Hr)%io_bind_Ok.
    apply apply_hunk_effect in Hh as (He&Ha1&Hm1&Hd1).
    apply IH in Hr as (Hes&Ha&Hm&Hd). split; [by econstructor|].
    rewrite Ha, Hm, Hd, Ha1, Hm1, Hd1, <-!(assoc_L (++)), <-!fmap_app, <-!filter_app. done.
Qed.

(** C39. Against any lawful file system a successful apply_hunks_to_files has
    exactly the effects of its hunks, in order (add, delete, update in place,
    update and move), changes no other file, and reports precisely those paths
    as added, modified and deleted. *)
Theorem apply_hunks_refines hs cwd fs fs' a :
  apply_hunks_to_files home_dir hs cwd fs = (fs', Ok a) →
  hs ≠ [] ∧ hunks_effect cwd hs (view fs) (view fs') ∧ summary_of hs a.
Proof.
  destruct hs as [|h hs]; [done|]. intros Hr%apply_hunks_loop_effect.
  split; [done|]. destruct Hr as (?&?&?&?). done.
Qed.

(** A run that fails has applied exactly the hunks before the failing one
    and stops there: the failure is not rolled back. *)
Theorem apply_hunks_failure cwd hs fs fs' e :
  apply_hunks_to_files home_dir hs cwd fs = (fs', Err e) →
  hs = [] ∧ fs' = fs ∨
  ∃ before h after fs1 a, hs = before ++ h :: after ∧
    hunks_effect cwd before (view fs) (view fs1) ∧
    apply_hunk home_dir cwd h a fs1 = (fs', Err e).
Proof.
  destruct hs as [|h hs]; [unfold apply_hunks_to_files, throw; intros; simplify_eq; by left|].
  intros Hr. right. unfold apply_hunks_to_files in Hr.
  revert Hr. generalize {| added := []; modified := []; deleted := [] |} as a.
  revert h fs. induction hs as [|h' hs IH]; intros h fs a; simpl apply_hunks_loop;
    unfold mbind, io_bind; destruct (apply_hunk home_dir cwd h a fs) as [fs1 [a1|e'|]] eqn:Hh;
    intros Hr; simplify_eq.
  - exists [], h, [], fs, a. split_and!; [done|by constructor|done].
  - apply IH in Hr as (bef&h2&aft&fs2&a2&Heq&He&Ha).
    exists (h :: bef), h2, aft, fs2, a2. split_and!; [by rewrite Heq| |done].
    econstructor; [|done]. by apply apply_hunk_effect in Hh as [? _].
  - exists [], h, (h' :: hs), fs, a. split_and!; [done|by constructor|done].
Qed.

(** An update whose move destination resolves to its own path succeeds
    and leaves no file at that path: the new contents are written and then
    removed. *)
Theorem move_to_itself_deletes cwd path dest cs fs fs' a :
  resolve dest cwd = resolve path cwd →
  apply_hunks_to_files home_dir [UpdateFile path (Some dest) cs] cwd fs = (fs', Ok a) →
  view fs' (resolve path cwd) = None.
Proof.
  intros Hsame Hr%apply_hunks_loop_effect. destruct Hr as (He&_).
  inversion He as [|? ? ? g ? Hh Hn]; subst. inversion Hn as [? ? Heq|]; subst.
  inversion Hh; subst.
  rewrite Heq. match goal with Hg : g ≡ _ |- _ => rewrite (Hg _) end.
  unfold upd. by rewrite decide_True.
Qed.
End Refinement.

(** ** An in-memory file system

    A concrete instance of the file system interface of [PatchApply]: a map
    from normalized absolute paths to files and directories.  It satisfies the
    laws of [PatchApplyFacts.LawfulFileSystem], so the theorems about patches
    hold of it, and the witnesses run on it. *)
Import Paths PatchApply.

Inductive node : Type := File (contents : str) | Dir.

Abbreviation memfs := (gmap str node).

Definition not_found : io_error := {| kind := NotFound; message := lit "No such file or directory" |}.
Definition is_a_directory : io_error := {| kind := Other; message := lit "Is a directory" |}.
Definition not_a_directory : io_error := {| kind := Other; message := lit "Not a directory" |}.

Definition mem_read (fs : memfs) (p : str) : io_error + str :=
  match fs !! p with
  | Some (File c) => inr c
  | Some Dir => inl is_a_directory
  | None => inl not_found
  end.

Definition parent_is_dir (fs : memfs) (p : str) : bool :=
  match parent p with
  | None => false
  | Some d => bool_decide (parent d = None) || match fs !! d with Some Dir => true | _ => false end
  end.

Definition mem_write (fs : memfs) (p c : str) : memfs * (io_error + unit) :=
  if negb (parent_is_dir fs p) then (fs, inl not_found)
  else match fs !! p with
       | Some Dir => (fs, inl is_a_directory)
       | _ => (<[p := File c]> fs, inr ())
       end.

(** The directories from the root to [p], shortest first, without the root. *)
Definition ancestors (p : str) : list str :=
  (λ k, path_of true (take k (components p))) <$> seq 1 (length (components p)).

Fixpoint mem_mkdirs (fs : memfs) (ds : list str) : memfs * (io_error + unit) :=
  match ds with
  | [] => (fs, inr ())
  | d :: ds =>
      match fs !! d with
      | Some (File _) => (fs, inl not_a_directory)
      | Some Dir => mem_mkdirs fs ds
      | None => mem_mkdirs (<[d := Dir]> fs) ds
      end
  end.

Definition mem_mkdir (fs : memfs) (p : str) (recursive : bool) : memfs * (io_error + unit) :=
  mem_mkdirs fs (if recursive then ancestors p else [p]).

Definition mem_is_directory (fs : memfs) (p : str) : io_error + bool :=
  match fs !! p with
  | Some Dir => inr true
  | Some (File _) => inr false
  | None => inl not_found
  end.

Definition mem_remove (fs : memfs) (p : str) : memfs * (io_error + unit) :=
  match fs !! p with
  | Some (File _) => (delete p fs, inr ())
  | Some Dir => (fs, inl is_a_directory)
  | None => (fs, inl not_found)
  end.

#[export] Instance memfs_ops : ExecutorFileSystem memfs := {
  read_file_text := mem_read;
  write_file := mem_write;
  create_directory := mem_mkdir;
  get_metadata_is_directory := mem_is_directory;
  remove_file := mem_remove;
}.

Lemma view_mem (fs : memfs) p :
  view fs p = match fs !! p with Some (File c) => Some c | _ => None end.
Proof. unfold view. simpl. unfold mem_read. by destruct (fs !! p) as [[c|]|]. Qed.

Lemma mem_mkdirs_view ds fs fs' :
  mem_mkdirs fs ds = (fs', inr ()) → ∀ q, view fs' q = view fs q.
Proof.
  revert fs. induction ds as [|d ds IH]; intros fs; simpl; [by intros [= ->]|].
  destruct (fs !! d) as [[c|]|] eqn:Hd; [done|apply IH|].
  intros H q. rewrite (IH _ H). rewrite !view_mem, lookup_insert.
  case_decide; subst; by rewrite ?Hd.
Qed.

#[export] Instance memfs_lawful : LawfulFileSystem memfs.
Proof.
  split.
  - intros fs p c fs' Hw q. simpl in Hw. unfold mem_write in Hw.
    destruct (negb _); [done|]. destruct (fs !! p) as [[c'|]|]; simplify_eq;
      rewrite !view_mem, lookup_insert; by repeat case_decide; simplify_eq.
  - intros fs p c fs' e Hw _ q. simpl in Hw. unfold mem_write in Hw.
    destruct (negb _); [by simplify_eq|]. by destruct (fs !! p) as [[c'|]|]; simplify_eq.
  - intros fs p r fs' Hm q. simpl in Hm. unfold mem_mkdir in Hm.
    by rewrite (mem_mkdirs_view _ _ _ Hm).
  - intros fs p fs' Hr q. simpl in Hr. unfold mem_remove in Hr.
    destruct (fs !! p) as [[c'|]|]; simplify_eq;
      rewrite !view_mem, lookup_delete; by repeat case_decide; simplify_eq.
Qed.

(** ** Runs of the patch code on this file system *)
Import PatchParser.

Definition sample_fs : memfs :=
  list_to_map [(lit "/w", Dir); (lit "/w/f", File (lit "a" ++ [NL] ++ lit "b" ++ [NL]));
               (lit "/w/g", File (lit "z" ++ [NL]))].

Definition sample_patch : list Hunk :=
  [AddFile (lit "d/new") (lit "n" ++ [NL]); DeleteFile (lit "g");
   UpdateFile (lit "f") (Some (lit "moved")) [update_chunk [lit "a"] [lit "x"]]].

Definition sample_failing : list Hunk := [DeleteFile (lit "g"); DeleteFile (lit "g")].

(** The run of [hs] in [/w], with its state and outcome named. *)
Definition run (hs : list Hunk) : memfs * result any_error AffectedPaths :=
  apply_hunks_to_files None hs (lit "/w") sample_fs.

Lemma run_outcome hs r : snd (run hs) = r → run hs = (fst (run hs), r).
Proof. intros <-. apply surjective_pairing. Qed.

Lemma apply_hunks_refines_witness :
  ∃ a, sample_patch ≠ [] ∧
    hunks_effect None (lit "/w") sample_patch (view sample_fs) (view (fst (run sample_patch))) ∧
    summary_of sample_patch a.
Proof.
  assert (∃ a, snd (run sample_patch) = Ok a) as [a Ha] by (eexists; vm_compute; reflexivity).
  exists a. exact (apply_hunks_refines None sample_patch (lit "/w") sample_fs _ a (run_outcome _ _ Ha)).
Defined.

Lemma apply_hunks_failure_witness :
  ∃ e, sample_failing = [] ∧ fst (run sample_failing) = sample_fs ∨
   ∃ before h after fs1 a, sample_failing = before ++ h :: after ∧
     hunks_effect None (lit "/w") before (view sample_fs) (view fs1) ∧
     apply_hunk None (lit "/w") h a fs1 = (fst (run sample_failing), Err e).
Proof.
  assert (∃ e, snd (run sample_failing) = Err e) as [e He] by (eexists; vm_compute; reflexivity).
  exists e. exact (apply_hunks_failure None (lit "/w") sample_failing sample_fs _ e (run_outcome _ _ He)).
Defined.

Definition self_move : list Hunk :=
  [UpdateFile (lit "f") (Some (lit "./f")) [update_chunk [lit "a"] [lit "x"]]].

Lemma move_to_itself_deletes_witness : view (fst (run self_move)) (lit "/w/f") = None.
Proof.
  assert (∃ a, snd (run self_move) = Ok a) as [a Ha] by (eexists; vm_compute; reflexivity).
  exact (move_to_itself_deletes None (lit "/w") (lit "f") (lit "./f") _ sample_fs _ a
    eq_refl (run_outcome _ _ Ha)).
Defined.
