(* ===== verification/TokenData.v ===== *)
(** * Tokens and the credentials record

    Models [login/src/token_data.rs], the plan types of [protocol/src/auth.rs]
    and the record [AuthDotJson] of [login/src/auth/storage.rs] with its
    methods.  Base64 and serde_json are not part of the repository: decoding
    the payload of a token into the claims the code declares is the class
    [JwtCodec]. *)
From S2P Require Import Prelude Str Io.

Module TokenData.

(** ** Plans *)

Inductive KnownPlan : Type :=
| Free | Go | Plus | Pro | ProLite | Team | SelfServeBusinessUsageBased | Business
| EnterpriseCbpUsageBased | Enterprise | Edu.

#[export] Instance KnownPlan_eq_dec : EqDecision KnownPlan.
Proof. solve_decision. Defined.

Inductive PlanType : Type := Known (k : KnownPlan) | Unknown (s : str).

#[export] Instance PlanType_eq_dec : EqDecision PlanType.
Proof. solve_decision. Defined.

Definition display_name (k : KnownPlan) : str :=
  match k with
  | Free => lit "Free" | Go => lit "Go" | Plus => lit "Plus" | Pro => lit "Pro"
  | ProLite => lit "Pro Lite" | Team => lit "Team"
  | SelfServeBusinessUsageBased => lit "Self Serve Business Usage Based"
  | Business => lit "Business" | EnterpriseCbpUsageBased => lit "Enterprise CBP Usage Based"
  | Enterprise => lit "Enterprise" | Edu => lit "Edu"
  end.

Definition raw_value (k : KnownPlan) : str :=
  match k with
  | Free => lit "free" | Go => lit "go" | Plus => lit "plus" | Pro => lit "pro"
  | ProLite => lit "prolite" | Team => lit "team"
  | SelfServeBusinessUsageBased => lit "self_serve_business_usage_based"
  | Business => lit "business" | EnterpriseCbpUsageBased => lit "enterprise_cbp_usage_based"
  | Enterprise => lit "enterprise" | Edu => lit "edu"
  end.

Definition plan_is_workspace_account (k : KnownPlan) : bool :=
  match k with
  | Team | SelfServeBusinessUsageBased | Business | EnterpriseCbpUsageBased | Enterprise | Edu => true
  | Free | Go | Plus | Pro | ProLite => false
  end.

(** [PlanType::from_raw_value]: a [match] on the lower-cased text. *)
Definition from_raw_value (raw : str) : PlanType :=
  let lower := to_ascii_lowercase raw in
  let eq_to s := bool_decide (lower = s) in
  if eq_to (lit "free") then Known Free
  else if eq_to (lit "go") then Known Go
  else if eq_to (lit "plus") then Known Plus
  else if eq_to (lit "pro") then Known Pro
  else if eq_to (lit "prolite") then Known ProLite
  else if eq_to (lit "team") then Known Team
  else if eq_to (lit "self_serve_business_usage_based") then Known SelfServeBusinessUsageBased
  else if eq_to (lit "business") then Known Business
  else if eq_to (lit "enterprise_cbp_usage_based") then Known EnterpriseCbpUsageBased
  else if eq_to (lit "enterprise") || eq_to (lit "hc") then Known Enterprise
  else if eq_to (lit "education") || eq_to (lit "edu") then Known Edu
  else Unknown raw.

(** ** Tokens *)

Record IdTokenInfo : Type := {
  email : option str;
  chatgpt_plan_type : option PlanType;
  chatgpt_user_id : option str;
  chatgpt_account_id : option str;
  chatgpt_account_is_fedramp : bool;
  raw_jwt : str;
}.

#[export] Instance IdTokenInfo_eq_dec : EqDecision IdTokenInfo.
Proof. solve_decision. Defined.

Definition get_chatgpt_plan_type (i : IdTokenInfo) : option str :=
  (λ t, match t with Known plan => display_name plan | Unknown s => s end) <$> chatgpt_plan_type i.

Definition get_chatgpt_plan_type_raw (i : IdTokenInfo) : option str :=
  (λ t, match t with Known plan => raw_value plan | Unknown s => s end) <$> chatgpt_plan_type i.

Definition is_workspace_account (i : IdTokenInfo) : bool :=
  match chatgpt_plan_type i with
  | Some (Known plan) => plan_is_workspace_account plan
  | _ => false
  end.

Record TokenData : Type := {
  id_token : IdTokenInfo;
  access_token : str;
  refresh_token : str;
  account_id : option str;
}.

#[export] Instance TokenData_eq_dec : EqDecision TokenData.
Proof. solve_decision. Defined.

(** [#[derive(Default)]]. *)
Definition IdTokenInfo_default : IdTokenInfo :=
  {| email := None; chatgpt_plan_type := None; chatgpt_user_id := None;
     chatgpt_account_id := None; chatgpt_account_is_fedramp := false; raw_jwt := [] |}.
Definition TokenData_default : TokenData :=
  {| id_token := IdTokenInfo_default; access_token := []; refresh_token := []; account_id := None |}.

(** ** Claims of a token *)

Record AuthClaims : Type := {
  claim_plan_type : option PlanType;
  claim_chatgpt_user_id : option str;
  claim_user_id : option str;
  claim_account_id : option str;
  claim_is_fedramp : bool;
}.

Record IdClaims : Type := {
  claim_email : option str;
  claim_profile_email : option (option str);
  claim_auth : option AuthClaims;
}.

(** The base64url decoding of a payload followed by serde_json's parsing into
    the claims, with the text of the error; and chrono's [from_timestamp]. *)
Class JwtCodec : Type := {
  decode_id_claims : str → str + IdClaims;
  decode_exp_claim : str → str + option Z;
  from_timestamp : Z → option Z;
}.

Inductive IdTokenInfoError : Type := InvalidFormat | DecodeError (m : str).

#[export] Instance IdTokenInfoError_eq_dec : EqDecision IdTokenInfoError.
Proof. solve_decision. Defined.

Definition IdTokenInfoError_to_string (e : IdTokenInfoError) : str :=
  match e with InvalidFormat => lit "invalid ID token format" | DecodeError m => m end.

Definition DOT : N := 46.

Definition decode_jwt_payload {T} (decode : str → str + T) (jwt : str) : result IdTokenInfoError T :=
  match split_on DOT jwt with
  | header_b64 :: payload_b64 :: sig_b64 :: _ =>
      if bool_decide (header_b64 ≠ []) && bool_decide (payload_b64 ≠ []) && bool_decide (sig_b64 ≠ [])
      then match decode payload_b64 with inr claims => Ok claims | inl m => Err (DecodeError m) end
      else Err InvalidFormat
  | _ => Err InvalidFormat
  end.

Section WithCodec.
Context `{JwtCodec}.

Definition parse_jwt_expiration (jwt : str) : result IdTokenInfoError (option Z) :=
  exp ← decode_jwt_payload decode_exp_claim jwt;
  Ok (exp ≫= from_timestamp).

Definition parse_chatgpt_jwt_claims (jwt : str) : result IdTokenInfoError IdTokenInfo :=
  claims ← decode_jwt_payload decode_id_claims jwt;
  let email :=
    match claim_email claims with
    | Some email => Some email
    | None => claim_profile_email claims ≫= λ profile_email, profile_email
    end in
  match claim_auth claims with
  | Some auth =>
      Ok {| email := email;
            raw_jwt := jwt;
            chatgpt_plan_type := claim_plan_type auth;
            chatgpt_user_id :=
              match claim_chatgpt_user_id auth with Some u => Some u | None => claim_user_id auth end;
            chatgpt_account_id := claim_account_id auth;
            chatgpt_account_is_fedramp := claim_is_fedramp auth |}
  | None =>
      Ok {| email := email; raw_jwt := jwt; chatgpt_plan_type := None; chatgpt_user_id := None;
            chatgpt_account_id := None; chatgpt_account_is_fedramp := false |}
  end.
End WithCodec.

(** ** [AuthDotJson] *)

Inductive AuthMode : Type := ApiKey | Chatgpt | ChatgptAuthTokens | AgentIdentity.

#[export] Instance AuthMode_eq_dec : EqDecision AuthMode.
Proof. solve_decision. Defined.

Inductive AuthCredentialsStoreMode : Type := File | Keyring | Auto | Ephemeral.

#[export] Instance AuthCredentialsStoreMode_eq_dec : EqDecision AuthCredentialsStoreMode.
Proof. solve_decision. Defined.

(** The plan of an agent identity record is not looked at by this code; it is
    kept as its serialized name. *)
Record AgentIdentityAuthRecord : Type := {
  agent_runtime_id : str;
  agent_private_key : str;
  agent_account_id : str;
  agent_chatgpt_user_id : str;
  agent_email : str;
  agent_plan_type : str;
  agent_is_fedramp : bool;
}.

#[export] Instance AgentIdentityAuthRecord_eq_dec : EqDecision AgentIdentityAuthRecord.
Proof. solve_decision. Defined.

(** Times are nanoseconds since the epoch. *)
Record AuthDotJson : Type := {
  auth_mode : option AuthMode;
  openai_api_key : option str;
  tokens : option TokenData;
  last_refresh : option Z;
  agent_identity : option AgentIdentityAuthRecord;
}.

#[export] Instance AuthDotJson_eq_dec : EqDecision AuthDotJson.
Proof. solve_decision. Defined.

Definition resolved_mode (a : AuthDotJson) : AuthMode :=
  match auth_mode a with
  | Some mode => mode
  | None => match openai_api_key a with Some _ => ApiKey | None => Chatgpt end
  end.

Definition storage_mode (a : AuthDotJson) (auth_credentials_store_mode : AuthCredentialsStoreMode)
    : AuthCredentialsStoreMode :=
  if bool_decide (resolved_mode a = ChatgptAuthTokens) then Ephemeral
  else auth_credentials_store_mode.

(** ** Facts *)

(** A plan is read back from its raw name. *)
Lemma from_raw_value_raw_value k : from_raw_value (raw_value k) = Known k.
Proof. by destruct k. Qed.

(** The serialized form of an id token is its JWT: it is read back exactly when
    the claims were parsed from that JWT. *)
Definition id_token_consistent `{JwtCodec} (t : TokenData) : Prop :=
  parse_chatgpt_jwt_claims (raw_jwt (id_token t)) = Ok (id_token t).

Lemma parse_chatgpt_jwt_claims_raw `{JwtCodec} jwt i :
  parse_chatgpt_jwt_claims jwt = Ok i → raw_jwt i = jwt.
Proof.
  unfold parse_chatgpt_jwt_claims. intros H0. inv_result. by case_match; simplify_eq/=.
Qed.
End TokenData.
