(* ===== verification/AuthStorage.v ===== *)
(** * Where credentials are kept

    Models [login/src/auth/storage.rs]: the file, keyring, automatic and
    in-memory backends, over the part of the machine they use, the record
    [World].  [std::fs] is modelled with faults: any path may refuse to be read,
    written, created or removed, and a write that fails may leave the file
    truncated.  Outside the repository are serde_json's texts for the two files
    ([AuthSerde]), the hash that names a home directory in the keyring
    ([store_key]) and the operating system's keyring. *)
From S2P Require Import Prelude Str Io TokenData.
Import TokenData.

Module AuthStorage.

(** ** The machine *)

(** What refuses to work, and how. *)
Record Faults : Type := {
  read_fault : str → option io_error;
  (** the error, and what is left of the file *)
  write_fault : str → option (io_error * option str);
  parent_fault : str → option io_error;
  remove_fault : str → option io_error;
  keyring_fault : option str;
}.

Record World : Type := {
  files : gmap str str;
  keyring : gmap (str * str) str;
  ephemeral : gmap str AuthDotJson;
  codex_api_key_env : option str;
  now : Z;
  faults : Faults;
}.

Definition set_files (f : gmap str str) (w : World) : World :=
  {| files := f; keyring := keyring w; ephemeral := ephemeral w;
     codex_api_key_env := codex_api_key_env w; now := now w; faults := faults w |}.
Definition set_keyring (k : gmap (str * str) str) (w : World) : World :=
  {| files := files w; keyring := k; ephemeral := ephemeral w;
     codex_api_key_env := codex_api_key_env w; now := now w; faults := faults w |}.
Definition set_ephemeral (e : gmap str AuthDotJson) (w : World) : World :=
  {| files := files w; keyring := keyring w; ephemeral := e;
     codex_api_key_env := codex_api_key_env w; now := now w; faults := faults w |}.

Abbreviation M := (io World io_error).

Definition not_found : io_error :=
  {| kind := NotFound; message := lit "No such file or directory (os error 2)" |}.
Definition other (m : str) : io_error := {| kind := Other; message := m |}.

(** [Utc::now()]. *)
Definition get_now : M Z := λ w, (w, Ok (now w)).

(** [std::fs::read_to_string]. *)
Definition read_to_string (path : str) : M str := λ w,
  (w, match read_fault (faults w) path with
      | Some e => Err e
      | None => match files w !! path with Some c => Ok c | None => Err not_found end
      end).

(** [create_dir_all] of the parent, then [OpenOptions] with truncate, write and
    create, [write_all] and [flush]. *)
Definition write_truncated (path contents : str) : M unit := λ w,
  match parent_fault (faults w) path with
  | Some e => (w, Err e)
  | None =>
      match write_fault (faults w) path with
      | Some (e, rest) => (set_files (partial_alter (λ _, rest) path (files w)) w, Err e)
      | None => (set_files (<[path := contents]> (files w)) w, Ok ())
      end
  end.

(** [std::fs::remove_file]. *)
Definition remove_file (path : str) : M unit := λ w,
  match remove_fault (faults w) path with
  | Some e => (w, Err e)
  | None =>
      match files w !! path with
      | Some _ => (set_files (delete path (files w)) w, Ok ())
      | None => (w, Err not_found)
      end
  end.

(** [Path::join] of a relative name. *)
Definition path_join (base name : str) : str :=
  match last base with
  | None => name
  | Some c => if bool_decide (c = 47%N) then base ++ name else base ++ lit "/" ++ name
  end.

(** ** The keyring *)

(** [DefaultKeyringStore] of [keyring-store/src/lib.rs]; errors are their text. *)
Definition keyring_load (service account : str) : M (str + option str) := λ w,
  (w, Ok match keyring_fault (faults w) with
         | Some m => inl m
         | None => inr (keyring w !! (service, account))
         end).
Definition keyring_save (service account value : str) : M (str + unit) := λ w,
  match keyring_fault (faults w) with
  | Some m => (w, Ok (inl m))
  | None => (set_keyring (<[(service, account) := value]> (keyring w)) w, Ok (inr ()))
  end.
Definition keyring_delete (service account : str) : M (str + bool) := λ w,
  match keyring_fault (faults w) with
  | Some m => (w, Ok (inl m))
  | None =>
      (set_keyring (delete (service, account) (keyring w)) w,
       Ok (inr (bool_decide (is_Some (keyring w !! (service, account))))))
  end.

Definition KEYRING_SERVICE : str := lit "Codex Auth".

(** ** Backends *)

(** serde_json's text for [AuthDotJson]; a text that does not parse gives the
    [io::Error] it is converted to. *)
Class AuthSerde : Type := {
  auth_to_json : AuthDotJson → str;
  auth_from_json : str → io_error + AuthDotJson;
  store_key : str → str;
}.

(** The trait [AuthStorageBackend] as a value: [Arc<dyn AuthStorageBackend>]. *)
Record AuthStorageBackend : Type := {
  load : M (option AuthDotJson);
  save : AuthDotJson → M unit;
  delete_auth : M bool;
}.

Definition get_auth_file (codex_home : str) : str := path_join codex_home (lit "auth.json").

Definition delete_file_if_exists (codex_home : str) : M bool :=
  r ← try (remove_file (get_auth_file codex_home));
  match r with
  | inr _ => mret true
  | inl err => if bool_decide (kind err = NotFound) then mret false else throw err
  end.

Section WithSerde.
Context `{AuthSerde}.

Definition of_sum {A} (r : io_error + A) : M A :=
  match r with inr a => mret a | inl e => throw e end.

Definition try_read_auth_json (auth_file : str) : M AuthDotJson :=
  contents ← read_to_string auth_file;
  of_sum (auth_from_json contents).

Definition FileAuthStorage (codex_home : str) : AuthStorageBackend := {|
  load :=
    r ← try (try_read_auth_json (get_auth_file codex_home));
    match r with
    | inr auth => mret (Some auth)
    | inl err => if bool_decide (kind err = NotFound) then mret None else throw err
    end;
  save := λ auth_dot_json,
    write_truncated (get_auth_file codex_home) (auth_to_json auth_dot_json);
  delete_auth := delete_file_if_exists codex_home;
|}.

Definition compute_store_key (codex_home : str) : str := store_key codex_home.

Definition load_from_keyring (key : str) : M (option AuthDotJson) :=
  r ← keyring_load KEYRING_SERVICE key;
  match r with
  | inr (Some serialized) =>
      match auth_from_json serialized with
      | inr auth => mret (Some auth)
      | inl err => throw (other (lit "failed to deserialize CLI auth from keyring: " ++ message err))
      end
  | inr None => mret None
  | inl m => throw (other (lit "failed to load CLI auth from keyring: " ++ m))
  end.

Definition save_to_keyring (key value : str) : M unit :=
  r ← keyring_save KEYRING_SERVICE key value;
  match r with
  | inr _ => mret ()
  | inl m => throw (other (lit "failed to write OAuth tokens to keyring: " ++ m))
  end.

Definition KeyringAuthStorage (codex_home : str) : AuthStorageBackend := {|
  load := load_from_keyring (compute_store_key codex_home);
  save := λ auth,
    _ ← save_to_keyring (compute_store_key codex_home) (auth_to_json auth);
    _ ← try (delete_file_if_exists codex_home);
    mret ();
  delete_auth :=
    r ← keyring_delete KEYRING_SERVICE (compute_store_key codex_home);
    match r with
    | inl m => throw (other (lit "failed to delete auth from keyring: " ++ m))
    | inr keyring_removed =>
        file_removed ← delete_file_if_exists codex_home;
        mret (keyring_removed || file_removed)
    end;
|}.

Definition AutoAuthStorage (codex_home : str) : AuthStorageBackend := {|
  load :=
    r ← try (load (KeyringAuthStorage codex_home));
    match r with
    | inr (Some auth) => mret (Some auth)
    | inr None => load (FileAuthStorage codex_home)
    | inl _ => load (FileAuthStorage codex_home)
    end;
  save := λ auth,
    r ← try (save (KeyringAuthStorage codex_home) auth);
    match r with
    | inr _ => mret ()
    | inl _ => save (FileAuthStorage codex_home) auth
    end;
  delete_auth := delete_auth (KeyringAuthStorage codex_home);
|}.

Definition EphemeralAuthStorage (codex_home : str) : AuthStorageBackend := {|
  load := λ w, (w, Ok (ephemeral w !! compute_store_key codex_home));
  save := λ auth w,
    (set_ephemeral (<[compute_store_key codex_home := auth]> (ephemeral w)) w, Ok ());
  delete_auth := λ w,
    (set_ephemeral (delete (compute_store_key codex_home) (ephemeral w)) w,
     Ok (bool_decide (is_Some (ephemeral w !! compute_store_key codex_home))));
|}.

Definition create_auth_storage (codex_home : str) (mode : AuthCredentialsStoreMode)
    : AuthStorageBackend :=
  match mode with
  | File => FileAuthStorage codex_home
  | Keyring => KeyringAuthStorage codex_home
  | Auto => AutoAuthStorage codex_home
  | Ephemeral => EphemeralAuthStorage codex_home
  end.

End WithSerde.

(** ** Facts *)

(** No file refuses to be read, written or removed. *)
Definition files_work (w : World) : Prop :=
  ∀ p, read_fault (faults w) p = None ∧ write_fault (faults w) p = None
       ∧ parent_fault (faults w) p = None ∧ remove_fault (faults w) p = None.

(** Nothing refuses to work. *)
Definition no_faults (w : World) : Prop := files_work w ∧ keyring_fault (faults w) = None.

(** The id token is one that was parsed from its JWT, which is what is stored. *)
Definition auth_consistent `{JwtCodec} (a : AuthDotJson) : Prop :=
  ∀ t, tokens a = Some t → id_token_consistent t.

(** serde's derived reader and writer agree; it reports bad texts as invalid
    data, not as missing files. *)
Class LawfulAuthSerde `{JwtCodec, AuthSerde} : Prop := {
  auth_from_to a : auth_consistent a → auth_from_json (auth_to_json a) = inr a;
  auth_from_json_kind t e : auth_from_json t = inl e → kind e ≠ NotFound;
}.

Section Facts.
Context `{LawfulAuthSerde}.

Lemma file_save_load codex_home w a :
  files_work w → auth_consistent a →
  ∃ w', save (FileAuthStorage codex_home) a w = (w', Ok ())
        ∧ load (FileAuthStorage codex_home) w' = (w', Ok (Some a))
        ∧ keyring w' = keyring w ∧ ephemeral w' = ephemeral w ∧ faults w' = faults w
        ∧ files w' = <[get_auth_file codex_home := auth_to_json a]> (files w).
Proof.
  intros Hw Ha. destruct (Hw (get_auth_file codex_home)) as (Hr&Hwr&Hp&_).
  simpl. unfold write_truncated. rewrite Hp, Hwr.
  eexists; split; [done|]. split; [|by simpl].
  run_io. unfold try, try_read_auth_json. run_io. unfold read_to_string. simpl.
  rewrite Hr, lookup_insert_eq. simpl. by rewrite auth_from_to.
Qed.

(** Removing the fallback file changes only the files. *)
Lemma delete_file_if_exists_files codex_home w w' r :
  delete_file_if_exists codex_home w = (w', r) →
  keyring w' = keyring w ∧ ephemeral w' = ephemeral w ∧ faults w' = faults w.
Proof.
  unfold delete_file_if_exists, try, remove_file. run_io. intros. split_cases.
Qed.

Lemma delete_file_if_exists_returns codex_home w :
  files_work w →
  ∃ b, delete_file_if_exists codex_home w
       = (set_files (delete (get_auth_file codex_home) (files w)) w, Ok b).
Proof.
  intros Hw. destruct (Hw (get_auth_file codex_home)) as (_&_&_&Hd).
  unfold delete_file_if_exists, try, remove_file. run_io. rewrite Hd.
  destruct (files w !! _) eqn:Hf; simpl; eexists; [done|].
  f_equal. destruct w; unfold set_files; simpl in *. by rewrite delete_id.
Qed.

Lemma keyring_save_load codex_home w a :
  files_work w → keyring_fault (faults w) = None → auth_consistent a →
  ∃ w', save (KeyringAuthStorage codex_home) a w = (w', Ok ())
        ∧ load (KeyringAuthStorage codex_home) w' = (w', Ok (Some a)).
Proof.
  intros Hw Hk Ha. simpl. unfold save_to_keyring, keyring_save. run_io. rewrite Hk. simpl.
  unfold try at 1.
  destruct (delete_file_if_exists_returns codex_home
    (set_keyring (<[(KEYRING_SERVICE, compute_store_key codex_home) := auth_to_json a]> (keyring w)) w))
    as [b Hb]; [done|].
  rewrite Hb. simpl. eexists; split; [done|].
  unfold load_from_keyring, keyring_load. run_io. rewrite Hk. simpl.
  rewrite lookup_insert_eq. by rewrite auth_from_to.
Qed.

(** The keyring backend when the keyring is out of order. *)
Lemma keyring_down codex_home w m a :
  keyring_fault (faults w) = Some m →
  load (KeyringAuthStorage codex_home) w
    = (w, Err (other (lit "failed to load CLI auth from keyring: " ++ m)))
  ∧ save (KeyringAuthStorage codex_home) a w
    = (w, Err (other (lit "failed to write OAuth tokens to keyring: " ++ m)))
  ∧ delete_auth (KeyringAuthStorage codex_home) w
    = (w, Err (other (lit "failed to delete auth from keyring: " ++ m))).
Proof.
  intros Hk. simpl. unfold load_from_keyring, save_to_keyring, keyring_load, keyring_save, keyring_delete.
  run_io. rewrite Hk. by simpl.
Qed.

Lemma auto_load_keyring_down codex_home w m :
  keyring_fault (faults w) = Some m →
  load (AutoAuthStorage codex_home) w = load (FileAuthStorage codex_home) w.
Proof.
  intros Hk. destruct (keyring_down codex_home w m {| auth_mode := None; openai_api_key := None; tokens := None; last_refresh := None; agent_identity := None |}) as (Hl&_&_); [done|].
  unfold AutoAuthStorage. cbn [load]. by erewrite io_step by (by apply try_Err).
Qed.

(** What a store saves it loads again, in every mode; the automatic store
    also when the keyring is out of order. *)
Theorem save_then_load codex_home mode w a :
  files_work w → (mode = Keyring → keyring_fault (faults w) = None) → auth_consistent a →
  ∃ w', save (create_auth_storage codex_home mode) a w = (w', Ok ())
        ∧ load (create_auth_storage codex_home mode) w' = (w', Ok (Some a)).
Proof.
  intros Hw Hmode Ha. destruct mode; unfold create_auth_storage.
  - destruct (file_save_load codex_home w a) as (w'&?&?&_); eauto.
  - destruct (keyring_save_load codex_home w a) as (w'&?&?); eauto.
  - destruct (keyring_fault (faults w)) as [m|] eqn:Hk.
    + destruct (file_save_load codex_home w a) as (w'&Hs&Hl&Hkr&_&Hf&_); [done..|].
      exists w'. destruct (keyring_down codex_home w m a) as (_&Hsk&_); [done|]. split.
      * unfold AutoAuthStorage. cbn [save]. by erewrite io_step by (by apply try_Err).
      * rewrite (auto_load_keyring_down _ _ m); [done|congruence].
    + destruct (keyring_save_load codex_home w a) as (w'&Hs&Hl); [done..|].
      exists w'. unfold AutoAuthStorage. cbn [save load].
      split; erewrite io_step by (by apply try_Ok); done.
  - eexists; split; [done|]. simpl. by rewrite lookup_insert_eq.
Qed.

(** When the keyring is out of order the automatic store, which had
    fallen back to the file, refuses to delete: the credentials stay on disk
    and are still loaded. *)
Theorem auto_delete_keyring_down codex_home w m a :
  keyring_fault (faults w) = Some m →
  load (FileAuthStorage codex_home) w = (w, Ok (Some a)) →
  delete_auth (create_auth_storage codex_home Auto) w
  = (w, Err (other (lit "failed to delete auth from keyring: " ++ m)))
  ∧ load (create_auth_storage codex_home Auto) w = (w, Ok (Some a)).
Proof.
  intros Hk Hl. destruct (keyring_down codex_home w m a) as (_&_&Hd); [done|].
  split; [exact Hd|]. unfold create_auth_storage. by rewrite (auto_load_keyring_down _ _ m).
Qed.
End Facts.
End AuthStorage.
