(* ===== verification/AccountRegistry.v ===== *)
(** * The registry of saved ChatGPT accounts

    Models [login/src/auth/account_registry.rs]: the file [accounts.json] next
    to [auth.json], with the operations that add, refresh, list, remove, switch
    to and rotate between saved accounts.  Outside the repository are
    serde_json's text for the file and Unicode lower-casing
    ([RegistrySerde]). *)
From S2P Require Import Prelude Str Io TokenData AuthStorage.
Import TokenData AuthStorage.

Module AccountRegistry.

Definition ACCOUNTS_FILE_NAME : str := lit "accounts.json".
Definition ACCOUNTS_FILE_VERSION : N := 1.

Record SavedChatgptAccount : Type := {
  id : str;
  label : str;
  saved_account_id : option str;
  saved_email : option str;
  added_at : Z;
  auth : AuthDotJson;
}.

#[export] Instance SavedChatgptAccount_eq_dec : EqDecision SavedChatgptAccount.
Proof. solve_decision. Defined.

Record SavedChatgptAccountsFile : Type := {
  version : N;
  accounts : list SavedChatgptAccount;
}.

Definition SavedChatgptAccountsFile_default : SavedChatgptAccountsFile :=
  {| version := ACCOUNTS_FILE_VERSION; accounts := [] |}.

(** serde_json's text for the registry file, and [str::to_lowercase]. *)
Class RegistrySerde : Type := {
  accounts_to_json : SavedChatgptAccountsFile → str;
  accounts_from_json : str → str + SavedChatgptAccountsFile;
  to_lowercase : str → str;
}.

Definition accounts_file (codex_home : str) : str := path_join codex_home ACCOUNTS_FILE_NAME.

Section WithSerde.
Context `{AuthSerde, RegistrySerde}.

Definition load_accounts_file (codex_home : str) : M SavedChatgptAccountsFile :=
  let path := accounts_file codex_home in
  contents ← try (read_to_string path);
  match contents with
  | inl err =>
      if bool_decide (kind err = NotFound) then mret SavedChatgptAccountsFile_default else throw err
  | inr contents =>
      match accounts_from_json contents with
      | inl err => throw (other (lit "failed to parse " ++ path ++ lit " as JSON: " ++ err))
      | inr parsed =>
          if (version parsed =? 0)%N
          then mret {| version := ACCOUNTS_FILE_VERSION; accounts := accounts parsed |}
          else mret parsed
      end
  end.

Definition save_accounts_file (codex_home : str) (file : SavedChatgptAccountsFile) : M unit :=
  write_truncated (accounts_file codex_home) (accounts_to_json file).

Definition account_metadata (a : AuthDotJson) : option str * option str :=
  let account_id :=
    match tokens a ≫= account_id with
    | Some i => Some i
    | None => t ← tokens a; chatgpt_account_id (id_token t)
    end in
  let email := t ← tokens a; email (id_token t) in
  (account_id, email).

Definition account_label (a : AuthDotJson) : str :=
  match account_metadata a with
  | (Some account_id, Some email) => email ++ lit " (" ++ account_id ++ lit ")"
  | (None, Some email) => email
  | (Some account_id, None) => lit "workspace " ++ account_id
  | (None, None) => lit "ChatGPT account"
  end.

Definition account_registry_id_for_auth (a : AuthDotJson) : option str :=
  t ← tokens a;
  match (match account_id t with Some i => Some i | None => chatgpt_account_id (id_token t) end) with
  | Some i => Some (lit "account:" ++ i)
  | None =>
      match chatgpt_user_id (id_token t) with
      | Some user_id => Some (lit "user:" ++ user_id)
      | None => (λ e, lit "email:" ++ to_lowercase e) <$> email (id_token t)
      end
  end.

Definition list_saved_chatgpt_accounts (codex_home : str) : M (list SavedChatgptAccount) :=
  file ← load_accounts_file codex_home;
  mret (accounts file).

(** [iter_mut().find(|e| e.id == id)] and an assignment through it. *)
Fixpoint update_first (key : str) (f : SavedChatgptAccount → SavedChatgptAccount)
    (l : list SavedChatgptAccount) : list SavedChatgptAccount :=
  match l with
  | [] => []
  | e :: l => if bool_decide (id e = key) then f e :: l else e :: update_first key f l
  end.

Definition find_id (key : str) (l : list SavedChatgptAccount) : option SavedChatgptAccount :=
  List.find (λ e, bool_decide (id e = key)) l.

Definition upsert_saved_chatgpt_account (codex_home : str) (a : AuthDotJson)
    : M SavedChatgptAccount :=
  if bool_decide (resolved_mode a = ApiKey)
  then throw (other (lit "cannot store API key auth in ChatGPT accounts registry"))
  else
    match account_registry_id_for_auth a with
    | None => throw (other (lit "could not infer a stable account id from current auth tokens"))
    | Some key =>
        file ← load_accounts_file codex_home;
        now ← get_now;
        let '(account_id, email) := account_metadata a in
        let entry := {| id := key; label := account_label a; saved_account_id := account_id;
                        saved_email := email; added_at := now; auth := a |} in
        let '(entry, accounts) :=
          match find_id key (accounts file) with
          | Some existing =>
              let entry := {| id := key; label := account_label a; saved_account_id := account_id;
                              saved_email := email; added_at := added_at existing; auth := a |} in
              (entry, update_first key (λ _, entry) (accounts file))
          | None => (entry, accounts file ++ [entry])
          end in
        _ ← save_accounts_file codex_home {| version := version file; accounts := accounts |};
        mret entry
    end.

Definition update_saved_chatgpt_account_if_exists (codex_home : str) (a : AuthDotJson) : M bool :=
  if bool_decide (resolved_mode a = ApiKey) then mret false
  else
    match account_registry_id_for_auth a with
    | None => mret false
    | Some key =>
        file ← load_accounts_file codex_home;
        match find_id key (accounts file) with
        | None => mret false
        | Some _ =>
            let '(account_id, email) := account_metadata a in
            let refresh existing :=
              {| id := id existing; label := account_label a; saved_account_id := account_id;
                 saved_email := email; added_at := added_at existing; auth := a |} in
            _ ← save_accounts_file codex_home
                  {| version := version file; accounts := update_first key refresh (accounts file) |};
            mret true
        end
    end.

(** [save_auth] and [load_auth_dot_json] of [manager.rs]. *)
Definition save_auth (codex_home : str) (a : AuthDotJson) (mode : AuthCredentialsStoreMode) : M unit :=
  save (create_auth_storage codex_home mode) a.
Definition load_auth_dot_json (codex_home : str) (mode : AuthCredentialsStoreMode)
    : M (option AuthDotJson) :=
  load (create_auth_storage codex_home mode).

Definition upsert_active_chatgpt_account (codex_home : str) (mode : AuthCredentialsStoreMode)
    : M (option SavedChatgptAccount) :=
  a ← load_auth_dot_json codex_home mode;
  match a with
  | None => mret None
  | Some a =>
      if bool_decide (resolved_mode a = ApiKey) then mret None
      else entry ← upsert_saved_chatgpt_account codex_home a; mret (Some entry)
  end.

Definition current_saved_chatgpt_account_id (codex_home : str) (mode : AuthCredentialsStoreMode)
    : M (option str) :=
  a ← load_auth_dot_json codex_home mode;
  match a with
  | None => mret None
  | Some a => mret (account_registry_id_for_auth a)
  end.

Definition remove_saved_chatgpt_account (codex_home : str) (account_id : str) : M bool :=
  file ← load_accounts_file codex_home;
  let previous_len := length (accounts file) in
  let accounts := filter (λ e, id e ≠ account_id) (accounts file) in
  if length accounts =? previous_len then mret false
  else
    _ ← save_accounts_file codex_home {| version := version file; accounts := accounts |};
    mret true.

Definition switch_active_chatgpt_account (codex_home : str) (mode : AuthCredentialsStoreMode)
    (account_id : str) : M SavedChatgptAccount :=
  file ← load_accounts_file codex_home;
  match find_id account_id (accounts file) with
  | None =>
      throw {| kind := NotFound; message := lit "saved account not found: " ++ account_id |}
  | Some entry =>
      _ ← save_auth codex_home (auth entry) mode;
      mret entry
  end.

(** Whether rotation may pick an entry. *)
Definition eligible (exhausted : gset str) (current_id : option str) (e : SavedChatgptAccount) : bool :=
  if bool_decide (id e ∈ exhausted) then false
  else match current_id with
       | Some current_id => bool_decide (id e ≠ current_id)
       | None => true
       end.

Definition rotate_to_next_saved_chatgpt_account (codex_home : str)
    (mode : AuthCredentialsStoreMode) (exhausted_account_ids : gset str)
    : M (option SavedChatgptAccount) :=
  file ← load_accounts_file codex_home;
  if bool_decide (accounts file = []) then mret None
  else
    current_id ← current_saved_chatgpt_account_id codex_home mode;
    match List.find (eligible exhausted_account_ids current_id) (accounts file) with
    | Some entry =>
        _ ← save_auth codex_home (auth entry) mode;
        mret (Some entry)
    | None => mret None
    end.
End WithSerde.
End AccountRegistry.
