(* ===== verification/AccountRegistryFacts.v ===== *)
(** * The account registry implements a map

    The entries of [accounts.json], read as a finite map from registry ids, are
    changed by the operations of [AccountRegistry] exactly as a map would be;
    ids stay unique and every entry stays derived from its credentials. *)
From S2P Require Import Prelude Str Io TokenData AuthStorage AccountRegistry.
Import TokenData AuthStorage AccountRegistry.

(** serde's derived reader and writer of the registry file agree on entries
    whose id tokens were parsed from their JWTs. *)
Class LawfulRegistrySerde `{JwtCodec, RegistrySerde} : Prop := {
  accounts_from_to f :
    Forall (λ e, auth_consistent (auth e)) (accounts f) →
    accounts_from_json (accounts_to_json f) = inr f;
}.

(** ** Lists of entries *)

Definition view (l : list SavedChatgptAccount) : gmap str SavedChatgptAccount :=
  list_to_map ((λ e, (id e, e)) <$> l).

Lemma view_cons e l : view (e :: l) = <[id e := e]> (view l).
Proof. done. Qed.

Lemma find_id_cons key e l :
  find_id key (e :: l) = if bool_decide (id e = key) then Some e else find_id key l.
Proof. done. Qed.

Lemma find_id_view key l : find_id key l = view l !! key.
Proof.
  unfold find_id, view. induction l as [|e l IH]; simpl; [done|].
  case_bool_decide as Hk; [by subst; rewrite lookup_insert_eq|].
  by rewrite lookup_insert_ne.
Qed.

Lemma find_id_Some key l e : find_id key l = Some e → e ∈ l ∧ id e = key.
Proof.
  unfold find_id. intros Hf. apply find_some in Hf as [Hin Hk].
  split; [by apply list_elem_of_In|by bool_to_prop].
Qed.

Lemma find_id_elem key l : key ∈ id <$> l ↔ is_Some (find_id key l).
Proof.
  split.
  - rewrite list_elem_of_fmap. intros (e&->&He). unfold find_id.
    destruct (List.find _ l) eqn:Hf; [done|].
    eapply find_none in Hf; [|by apply list_elem_of_In]. by bool_to_prop.
  - intros [e He]. apply find_id_Some in He as [? <-]. by apply list_elem_of_fmap_2.
Qed.

Lemma view_app_fresh l e : id e ∉ id <$> l → view (l ++ [e]) = <[id e := e]> (view l).
Proof.
  intros He. unfold view. rewrite fmap_app, list_to_map_app. simpl.
  apply map_eq. intros k. rewrite lookup_union.
  destruct (decide (k = id e)) as [->|].
  - rewrite !lookup_insert_eq. rewrite not_elem_of_list_to_map_1; [done|].
    by rewrite <-list_fmap_compose.
  - rewrite !lookup_insert_ne, lookup_empty by done. by destruct (list_to_map _ !! k).
Qed.

Lemma update_first_ids key f l :
  (∀ e, id e = key → id (f e) = key) → id <$> update_first key f l = id <$> l.
Proof.
  intros Hf. induction l as [|e l IH]; simpl; [done|].
  case_bool_decide as Hk; simpl; [by rewrite Hf, Hk|by f_equal].
Qed.

Lemma view_update_first key f l e :
  (∀ e, id e = key → id (f e) = key) → find_id key l = Some e →
  view (update_first key f l) = <[key := f e]> (view l).
Proof.
  intros Hf. induction l as [|e' l IH]; [done|]. rewrite find_id_cons. cbn [update_first].
  case_bool_decide as Hk; rewrite !view_cons.
  - intros [= ->]. rewrite Hf by done. subst key. by rewrite insert_insert_eq.
  - intros He. rewrite IH by done. by rewrite insert_insert_ne.
Qed.

Lemma update_first_Forall (P : SavedChatgptAccount → Prop) key f l :
  Forall P l → (∀ e, P e → id e = key → P (f e)) → Forall P (update_first key f l).
Proof.
  intros HP Hf. induction HP as [|e l He HP IH]; simpl; [done|].
  case_bool_decide; constructor; auto.
Qed.

Lemma view_remove key l : view (filter (λ e, id e ≠ key) l) = delete key (view l).
Proof.
  induction l as [|e l IH]; [done|].
  rewrite filter_cons, view_cons. case_decide as Hk; rewrite ?view_cons.
  - rewrite IH. by rewrite delete_insert_ne.
  - subst key. rewrite IH. by rewrite delete_insert_eq.
Qed.

Lemma NoDup_ids_filter key l :
  NoDup (id <$> l) → NoDup (id <$> filter (λ e, id e ≠ key) l).
Proof.
  induction l as [|e l IH]; [done|]. rewrite fmap_cons, NoDup_cons. intros [He Hl].
  rewrite filter_cons. case_decide; [|auto].
  rewrite fmap_cons, NoDup_cons. split; [|auto].
  intros Hin. apply He. apply list_elem_of_fmap in Hin as (x&Hx&Hin).
  apply list_elem_of_filter in Hin as [_ Hin]. rewrite Hx. by apply list_elem_of_fmap_2.
Qed.

Lemma filter_same_length key l :
  length (filter (λ e, id e ≠ key) l) = length l ↔ find_id key l = None.
Proof.
  induction l as [|e l IH]; [done|]. rewrite filter_cons, find_id_cons.
  pose proof (length_filter (λ e, id e ≠ key) l).
  case_bool_decide as Hk; case_decide as Hk'; simpl; try congruence.
  - split; [lia|done].
  - rewrite <-IH. split; lia.
Qed.

(** ** The registry on disk *)

Section Facts.
Context `{LawfulRegistrySerde, AuthSerde}.
Variable codex_home : str.

(** The entries the file holds; [None] for a file that does not parse. *)
Definition registry (w : World) : option (list SavedChatgptAccount) :=
  match files w !! accounts_file codex_home with
  | None => Some []
  | Some text =>
      match accounts_from_json text with inr f => Some (accounts f) | inl _ => None end
  end.

(** An entry is determined by its credentials and the time it was added. *)
Definition entry_of (key : str) (a : AuthDotJson) (added : Z) : SavedChatgptAccount :=
  {| id := key; label := account_label a; saved_account_id := (account_metadata a).1;
     saved_email := (account_metadata a).2; added_at := added; auth := a |}.

(** The id under which credentials are saved, if they can be. *)
Definition registry_key (a : AuthDotJson) : option str :=
  if bool_decide (resolved_mode a = ApiKey) then None else account_registry_id_for_auth a.

Definition wf_entry (e : SavedChatgptAccount) : Prop :=
  e = entry_of (id e) (auth e) (added_at e) ∧ registry_key (auth e) = Some (id e)
  ∧ auth_consistent (auth e).

Definition wf_registry (l : list SavedChatgptAccount) : Prop :=
  NoDup (id <$> l) ∧ Forall wf_entry l.

Lemma load_accounts_file_spec w l :
  files_work w → registry w = Some l →
  ∃ f, load_accounts_file codex_home w = (w, Ok f) ∧ accounts f = l.
Proof.
  intros Hw. destruct (Hw (accounts_file codex_home)) as (Hr&_).
  unfold registry, load_accounts_file, try, read_to_string. run_io. rewrite Hr.
  destruct (files w !! _) as [text|]; simpl; [|intros [= <-]; by eexists].
  destruct (accounts_from_json text) as [|f]; simpl; intros; simplify_eq.
  destruct (version f =? 0)%N; by eexists.
Qed.

Lemma save_accounts_file_spec w f :
  files_work w → Forall wf_entry (accounts f) →
  ∃ w', save_accounts_file codex_home f w = (w', Ok ()) ∧ registry w' = Some (accounts f)
        ∧ w' = set_files (<[accounts_file codex_home := accounts_to_json f]> (files w)) w.
Proof.
  intros Hw Hf. destruct (Hw (accounts_file codex_home)) as (_&Hwr&Hp&_).
  unfold save_accounts_file, write_truncated. rewrite Hwr, Hp. eexists; split; [done|].
  split; [|done]. unfold registry. simpl. rewrite lookup_insert_eq.
  rewrite accounts_from_to; [done|]. eapply Forall_impl; [done|]. by intros e (_&_&?).
Qed.

Lemma wf_entry_of key a added :
  registry_key a = Some key → auth_consistent a → wf_entry (entry_of key a added).
Proof. by intros. Qed.

(** ** The map it implements *)

Inductive reg_op : Type :=
| Upsert (a : AuthDotJson)
| Refresh (a : AuthDotJson)
| Remove (key : str).

Inductive reg_reply : Type :=
| Saved (e : SavedChatgptAccount)
| Changed (b : bool)
| Refused.

Definition op_consistent (op : reg_op) : Prop :=
  match op with Upsert a | Refresh a => auth_consistent a | Remove _ => True end.

(** The code, with errors as a reply. *)
Definition run_op (op : reg_op) : M reg_reply :=
  match op with
  | Upsert a =>
      r ← try (upsert_saved_chatgpt_account codex_home a);
      mret match r with inr e => Saved e | inl _ => Refused end
  | Refresh a => b ← update_saved_chatgpt_account_if_exists codex_home a; mret (Changed b)
  | Remove key => b ← remove_saved_chatgpt_account codex_home key; mret (Changed b)
  end.

(** The specification. *)
Definition spec_op (time : Z) (op : reg_op) (m : gmap str SavedChatgptAccount)
    : gmap str SavedChatgptAccount * reg_reply :=
  match op with
  | Upsert a =>
      match registry_key a with
      | Some key =>
          let e := entry_of key a (from_option added_at time (m !! key)) in
          (<[key := e]> m, Saved e)
      | None => (m, Refused)
      end
  | Refresh a =>
      match registry_key a with
      | Some key =>
          (alter (λ e, entry_of key a (added_at e)) key m,
           Changed (bool_decide (is_Some (m !! key))))
      | None => (m, Changed false)
      end
  | Remove key => (delete key m, Changed (bool_decide (is_Some (m !! key))))
  end.

Fixpoint run_ops (ops : list reg_op) : M (list reg_reply) :=
  match ops with
  | [] => mret []
  | op :: ops => r ← run_op op; rs ← run_ops ops; mret (r :: rs)
  end.

Fixpoint spec_ops (time : Z) (ops : list reg_op) (m : gmap str SavedChatgptAccount)
    : gmap str SavedChatgptAccount * list reg_reply :=
  match ops with
  | [] => (m, [])
  | op :: ops =>
      let '(m, r) := spec_op time op m in
      let '(m, rs) := spec_ops time ops m in
      (m, r :: rs)
  end.

(** Two machines that differ at most in the registry file. *)
Definition same_but_registry (w w' : World) : Prop :=
  keyring w' = keyring w ∧ ephemeral w' = ephemeral w
  ∧ codex_api_key_env w' = codex_api_key_env w ∧ now w' = now w ∧ faults w' = faults w
  ∧ ∀ p, p ≠ accounts_file codex_home → files w' !! p = files w !! p.

Lemma same_but_registry_refl w : same_but_registry w w.
Proof. by split_and!. Qed.

Lemma same_but_registry_trans w1 w2 w3 :
  same_but_registry w1 w2 → same_but_registry w2 w3 → same_but_registry w1 w3.
Proof.
  intros (?&?&?&?&?&Hf1) (?&?&?&?&?&Hf2). split_and!; [congruence..|].
  intros p Hp. by rewrite Hf2, Hf1.
Qed.

Lemma files_work_same w w' : same_but_registry w w' → files_work w → files_work w'.
Proof. intros (_&_&_&_&Hf&_) Hw. unfold files_work. by rewrite Hf. Qed.

Lemma save_registry w v l :
  files_work w → wf_registry l →
  ∃ w', save_accounts_file codex_home {| version := v; accounts := l |} w = (w', Ok ())
        ∧ registry w' = Some l ∧ same_but_registry w w'.
Proof.
  intros Hw [_ Hl].
  destruct (save_accounts_file_spec w {| version := v; accounts := l |}) as (w'&Hs&Hr&->); [done..|].
  eexists; split; [exact Hs|]. split; [done|]. split_and!; try done.
  intros p Hp. simpl. by rewrite lookup_insert_ne.
Qed.

(** Replacing or adding the entry of a key keeps the registry well formed. *)
Lemma wf_update key f l e :
  wf_registry l → find_id key l = Some e →
  (∀ e, wf_entry e → id e = key → wf_entry (f e) ∧ id (f e) = key) →
  (∀ e, id e = key → id (f e) = key) →
  wf_registry (update_first key f l).
Proof.
  intros [Hn Hl] He Hf Hid. split.
  - by rewrite update_first_ids.
  - apply update_first_Forall; [done|]. intros e' ??. by apply Hf.
Qed.

Lemma wf_app_fresh l e : wf_registry l → wf_entry e → find_id (id e) l = None → wf_registry (l ++ [e]).
Proof.
  intros [Hn Hl] He Hf. split.
  - rewrite fmap_app. apply NoDup_app. split; [done|]. split; [|apply NoDup_singleton].
    intros k Hk ->%list_elem_of_singleton. apply find_id_elem in Hk as [? Hk]. congruence.
  - by apply Forall_app_2; [|apply Forall_singleton].
Qed.

Lemma wf_remove key l : wf_registry l → wf_registry (filter (λ e, id e ≠ key) l).
Proof.
  intros [Hn Hl]. split; [by apply NoDup_ids_filter|].
  apply Forall_forall. intros e [_ He]%list_elem_of_filter. by eapply Forall_forall in Hl.
Qed.

Lemma upsert_spec a w l :
  files_work w → registry w = Some l → wf_registry l → auth_consistent a →
  ∃ w' l', registry w' = Some l' ∧ wf_registry l' ∧ same_but_registry w w' ∧
  match registry_key a with
  | Some key =>
      let e := entry_of key a (from_option added_at (now w) (view l !! key)) in
      upsert_saved_chatgpt_account codex_home a w = (w', Ok e)
      ∧ view l' = <[key := e]> (view l)
      ∧ id <$> l' = if bool_decide (key ∈ id <$> l) then id <$> l else (id <$> l) ++ [key]
  | None => w' = w ∧ l' = l ∧ ∃ err, upsert_saved_chatgpt_account codex_home a w = (w, Err err)
  end.
Proof.
  intros Hw Hr Hl Ha. unfold upsert_saved_chatgpt_account, registry_key.
  case_bool_decide as Hmode.
  { exists w, l. split_and!; eauto using same_but_registry_refl. }
  destruct (account_registry_id_for_auth a) as [key|] eqn:Hkey.
  2: { exists w, l. split_and!; eauto using same_but_registry_refl. }
  assert (registry_key a = Some key) as Hreg by (unfold registry_key; by rewrite bool_decide_eq_false_2).
  destruct (load_accounts_file_spec w l Hw Hr) as (f&Hload&Hf).
  rewrite <-find_id_view.
  set (e := entry_of key a (from_option added_at (now w) (find_id key l))).
  assert (∃ l', wf_registry l' ∧ view l' = <[key := e]> (view l)
    ∧ id <$> l' = (if bool_decide (key ∈ id <$> l) then id <$> l else (id <$> l) ++ [key])
    ∧ l' = match find_id key l with Some _ => update_first key (λ _, e) l | None => l ++ [e] end)
    as (l'&Hwf'&Hview&Hids&Hl').
  { assert (wf_entry e) as He by by apply wf_entry_of.
    destruct (find_id key l) as [old|] eqn:Hfind; eexists; split_and!; [..|done| | | |done].
    - by eapply wf_update.
    - by erewrite view_update_first.
    - rewrite bool_decide_eq_true_2 by (apply find_id_elem; by rewrite Hfind).
      by apply update_first_ids.
    - by apply wf_app_fresh.
    - rewrite view_app_fresh; [done|]. intros [? ?]%find_id_elem. simpl in *. congruence.
    - rewrite bool_decide_eq_false_2; [by rewrite fmap_app|].
      intros [? ?]%find_id_elem. congruence. }
  destruct (save_registry w (version f) l' Hw Hwf') as (w'&Hsave&Hr'&Hsame).
  exists w', l'. split_and!; [done..| |done|done].
  erewrite io_step by exact Hload. erewrite io_step by done.
  destruct (account_metadata a) as [ai em] eqn:Hmeta. rewrite Hf.
  subst e. unfold entry_of in *. rewrite Hmeta in *. simpl in *.
  destruct (find_id key l) as [old|]; simpl in *; rewrite <-Hl'; by erewrite io_step by exact Hsave.
Qed.
Lemma refresh_spec a w l :
  files_work w → registry w = Some l → wf_registry l → auth_consistent a →
  ∃ w' l', registry w' = Some l' ∧ wf_registry l' ∧ same_but_registry w w' ∧
  match registry_key a with
  | Some key =>
      update_saved_chatgpt_account_if_exists codex_home a w
        = (w', Ok (bool_decide (is_Some (view l !! key))))
      ∧ view l' = alter (λ e, entry_of key a (added_at e)) key (view l)
      ∧ id <$> l' = id <$> l
  | None => w' = w ∧ l' = l ∧ update_saved_chatgpt_account_if_exists codex_home a w = (w, Ok false)
  end.
Proof.
  intros Hw Hr Hl Ha. unfold update_saved_chatgpt_account_if_exists, registry_key.
  case_bool_decide as Hmode.
  { exists w, l. split_and!; eauto using same_but_registry_refl. }
  destruct (account_registry_id_for_auth a) as [key|] eqn:Hkey.
  2: { exists w, l. split_and!; eauto using same_but_registry_refl. }
  assert (registry_key a = Some key) as Hreg by (unfold registry_key; by rewrite bool_decide_eq_false_2).
  destruct (load_accounts_file_spec w l Hw Hr) as (f&Hload&Hf).
  rewrite <-find_id_view. erewrite !io_step by exact Hload. rewrite Hf.
  destruct (find_id key l) as [old|] eqn:Hfind.
  2: { exists w, l. split_and!; eauto using same_but_registry_refl.
       rewrite alter_id; [done|]. intros x Hx. rewrite <-find_id_view in Hx. congruence. }
  destruct (account_metadata a) as [ai em] eqn:Hmeta.
  set (refresh existing := {| id := id existing; label := account_label a; saved_account_id := ai;
    saved_email := em; added_at := added_at existing; auth := a |}).
  assert (∀ e, id e = key → refresh e = entry_of key a (added_at e)) as Hrefresh.
  { intros e <-. unfold refresh, entry_of. by rewrite Hmeta. }
  assert (wf_registry (update_first key refresh l)) as Hwf'.
  { eapply wf_update; [done..| |done]. intros e He Hk. split; [|done].
    rewrite Hrefresh by done. by apply wf_entry_of. }
  destruct (save_registry w (version f) _ Hw Hwf') as (w'&Hsave&Hr'&Hsame).
  exists w', (update_first key refresh l). split_and!; [done..| | |].
  - by erewrite io_step by exact Hsave.
  - erewrite view_update_first by done. apply find_id_Some in Hfind as Hold. destruct Hold as [_ Hold].
    rewrite Hrefresh by done. rewrite find_id_view in Hfind.
    apply map_eq. intros k. destruct (decide (k = key)) as [->|].
    + by rewrite lookup_insert_eq, lookup_alter_eq, Hfind.
    + by rewrite lookup_insert_ne, lookup_alter_ne.
  - by apply update_first_ids.
Qed.

Lemma remove_spec key w l :
  files_work w → registry w = Some l → wf_registry l →
  ∃ w' l', remove_saved_chatgpt_account codex_home key w
             = (w', Ok (bool_decide (is_Some (view l !! key))))
  ∧ registry w' = Some l' ∧ wf_registry l' ∧ same_but_registry w w'
  ∧ l' = filter (λ e, id e ≠ key) l.
Proof.
  intros Hw Hr Hl. destruct (load_accounts_file_spec w l Hw Hr) as (f&Hload&Hf).
  unfold remove_saved_chatgpt_account. erewrite io_step by exact Hload. rewrite Hf.
  rewrite <-find_id_view. case_match eqn:Hlen; bool_to_prop.
  - exists w, l. apply filter_same_length in Hlen as Hnone.
    rewrite Hnone. split_and!; try done.
    clear -Hlen. induction l as [|e l IH]; [done|]. rewrite filter_cons in *.
    pose proof (length_filter (λ e, id e ≠ key) l).
    case_decide; simpl in *; [f_equal; apply IH; lia|lia].
  - destruct (save_registry w (version f) (filter (λ e, id e ≠ key) l)) as (w'&Hsave&Hr'&Hsame);
      [done|by apply wf_remove|].
    exists w', (filter (λ e, id e ≠ key) l). erewrite io_step by exact Hsave.
    split_and!; try done; [|by apply wf_remove].
    rewrite bool_decide_eq_true_2; [done|].
    destruct (find_id key l) eqn:Hfind; [done|]. by apply filter_same_length in Hfind.
Qed.

Lemma run_op_spec op w l :
  files_work w → registry w = Some l → wf_registry l → op_consistent op →
  ∃ w' l' r, run_op op w = (w', Ok r) ∧ registry w' = Some l' ∧ wf_registry l'
    ∧ same_but_registry w w' ∧ spec_op (now w) op (view l) = (view l', r).
Proof.
  intros Hw Hr Hl Hop. destruct op as [a|a|key]; simpl in *.
  - destruct (upsert_spec a w l) as (w'&l'&?&?&?&Hspec); [done..|].
    destruct (registry_key a) as [key|].
    + destruct Hspec as (Hu&Hv&_). exists w', l'. eexists. split_and!; [|done..|by rewrite Hv].
      by erewrite io_step by (by apply try_Ok).
    + destruct Hspec as (->&->&err&Hu). exists w, l. eexists. split_and!; [|done..].
      by erewrite io_step by (by apply try_Err).
  - destruct (refresh_spec a w l) as (w'&l'&?&?&?&Hspec); [done..|].
    destruct (registry_key a) as [key|].
    + destruct Hspec as (Hu&Hv&_). exists w', l'. eexists. split_and!; [|done..|by rewrite Hv].
      by erewrite io_step by exact Hu.
    + destruct Hspec as (->&->&Hu). exists w, l. eexists. split_and!; [|done..].
      by erewrite io_step by exact Hu.
  - destruct (remove_spec key w l) as (w'&l'&Hu&?&?&?&->); [done..|].
    eexists w', _, _. split_and!; [by erewrite io_step by exact Hu|done..|].
    by rewrite view_remove.
Qed.

(** C37. Any sequence of adding, refreshing and removing saved accounts on
    disk is the same sequence on a finite map from registry ids, with the same
    replies: ids stay unique, every entry stays derived from its credentials,
    adding keeps the original date, refreshing never inserts, and nothing else
    on the machine changes. *)
Theorem registry_refines_map ops w l :
  files_work w → registry w = Some l → wf_registry l → Forall op_consistent ops →
  ∃ w' l' rs, run_ops ops w = (w', Ok rs) ∧ registry w' = Some l' ∧ wf_registry l'
    ∧ same_but_registry w w' ∧ spec_ops (now w) ops (view l) = (view l', rs).
Proof.
  intros Hw Hr Hl Hops. revert w l Hw Hr Hl.
  induction Hops as [|op ops Hop _ IH]; intros w l Hw Hr Hl; simpl.
  { exists w, l, []. by split_and!; try apply same_but_registry_refl. }
  destruct (run_op_spec op w l) as (w1&l1&r&Hrun&Hr1&Hl1&Hsame&Hspec); [done..|].
  assert (now w1 = now w) as Hnow by apply Hsame.
  destruct (IH w1 l1) as (w2&l2&rs&Hruns&?&?&?&Hspecs);
    [by eapply files_work_same|done..|].
  rewrite Hnow in Hspecs. rewrite Hspec, Hspecs.
  exists w2, l2, (r :: rs). split_and!; try done; [|by eapply same_but_registry_trans].
  erewrite io_step by exact Hrun. by erewrite io_step by exact Hruns.
Qed.
End Facts.
