(* ===== verification/AuthManager.v ===== *)
(** * The authentication manager

    Models [login/src/auth/manager.rs]: the credentials in use ([CodexAuth]),
    loading them by precedence, the cached snapshot of [AuthManager] with its
    reloads, token refresh against the authority or an external provider,
    logout, the switch and the rotation between saved accounts, and the state
    machine [UnauthorizedRecovery].  The refresh lock is never closed, and every
    operation that takes it is one step of the model.  The HTTP client, serde_json
    and the external provider are parameters: they answer the [n]-th request. *)
From S2P Require Import Prelude Str Io TokenData AuthStorage AccountRegistry.
Import TokenData AuthStorage AccountRegistry.

Module AuthManager.

(** ** Errors and messages *)

Definition REFRESH_TOKEN_EXPIRED_MESSAGE : str := lit "Your access token could not be refreshed because your refresh token has expired. Please log out and sign in again.".
Definition REFRESH_TOKEN_REUSED_MESSAGE : str := lit "Your access token could not be refreshed because your refresh token was already used. Please log out and sign in again.".
Definition REFRESH_TOKEN_INVALIDATED_MESSAGE : str := lit "Your access token could not be refreshed because your refresh token was revoked. Please log out and sign in again.".
Definition REFRESH_TOKEN_UNKNOWN_MESSAGE : str := lit "Your access token could not be refreshed. Please log out and sign in again.".
Definition REFRESH_TOKEN_ACCOUNT_MISMATCH_MESSAGE : str := lit "Your access token could not be refreshed because you have since logged out or signed in to another account. Please sign in again.".

Inductive RefreshTokenFailedReason : Type := Expired | Exhausted | Revoked | OtherReason.

#[export] Instance RefreshTokenFailedReason_eq_dec : EqDecision RefreshTokenFailedReason.
Proof. solve_decision. Defined.

Record RefreshTokenFailedError : Type := { reason : RefreshTokenFailedReason; failed_message : str }.

#[export] Instance RefreshTokenFailedError_eq_dec : EqDecision RefreshTokenFailedError.
Proof. solve_decision. Defined.

Inductive RefreshTokenError : Type :=
| Permanent (e : RefreshTokenFailedError)
| Transient (e : io_error).

#[export] Instance RefreshTokenError_eq_dec : EqDecision RefreshTokenError.
Proof. solve_decision. Defined.

Definition failed_reason (e : RefreshTokenError) : option RefreshTokenFailedReason :=
  match e with Permanent e => Some (reason e) | Transient _ => None end.

(** ** Credentials in use *)

(** The [Mutex] inside the ChatGPT variants is written when it is created and
    never again, so the record it holds is kept directly.  The backend of a
    managed login is named by its home directory and mode. *)
Inductive CodexAuth : Type :=
| AuthApiKey (api_key : str)
| AuthChatgpt (auth_dot_json : AuthDotJson) (storage : str * AuthCredentialsStoreMode)
| AuthChatgptAuthTokens (auth_dot_json : AuthDotJson)
| AuthAgentIdentity (record : AgentIdentityAuthRecord).

#[export] Instance CodexAuth_eq_dec : EqDecision CodexAuth.
Proof. solve_decision. Defined.

Definition from_auth_dot_json (codex_home : str) (auth_dot_json : AuthDotJson)
    (auth_credentials_store_mode : AuthCredentialsStoreMode) : result io_error CodexAuth :=
  let storage_mode := storage_mode auth_dot_json auth_credentials_store_mode in
  match resolved_mode auth_dot_json with
  | ApiKey =>
      match openai_api_key auth_dot_json with
      | None => Err (other (lit "API key auth is missing a key."))
      | Some api_key => Ok (AuthApiKey api_key)
      end
  | AgentIdentity =>
      match agent_identity auth_dot_json with
      | None => Err (other (lit "agent identity auth is missing an agent identity record."))
      | Some record => Ok (AuthAgentIdentity record)
      end
  | Chatgpt => Ok (AuthChatgpt auth_dot_json (codex_home, storage_mode))
  | ChatgptAuthTokens => Ok (AuthChatgptAuthTokens auth_dot_json)
  end.

(** [CodexAuth::auth_mode] and [CodexAuth::api_auth_mode]. *)
Definition codex_auth_mode (a : CodexAuth) : AuthMode :=
  match a with
  | AuthApiKey _ => ApiKey
  | AuthChatgpt _ _ | AuthChatgptAuthTokens _ => Chatgpt
  | AuthAgentIdentity _ => AgentIdentity
  end.
Definition api_auth_mode (a : CodexAuth) : AuthMode :=
  match a with
  | AuthApiKey _ => ApiKey
  | AuthChatgpt _ _ => Chatgpt
  | AuthChatgptAuthTokens _ => ChatgptAuthTokens
  | AuthAgentIdentity _ => AgentIdentity
  end.

(** [impl PartialEq for CodexAuth]. *)
Definition codex_auth_eq (a b : CodexAuth) : bool := bool_decide (api_auth_mode a = api_auth_mode b).

Definition is_api_key_auth (a : CodexAuth) : bool := bool_decide (codex_auth_mode a = ApiKey).
Definition is_chatgpt_auth (a : CodexAuth) : bool :=
  match a with AuthChatgpt _ _ | AuthChatgptAuthTokens _ => true | _ => false end.
Definition is_external_chatgpt_tokens (a : CodexAuth) : bool :=
  match a with AuthChatgptAuthTokens _ => true | _ => false end.

Definition api_key (a : CodexAuth) : option str :=
  match a with AuthApiKey api_key => Some api_key | _ => None end.

Definition get_current_auth_json (a : CodexAuth) : option AuthDotJson :=
  match a with
  | AuthChatgpt auth_dot_json _ | AuthChatgptAuthTokens auth_dot_json => Some auth_dot_json
  | AuthApiKey _ | AuthAgentIdentity _ => None
  end.
Definition get_current_token_data (a : CodexAuth) : option TokenData :=
  get_current_auth_json a ≫= tokens.

Definition get_token_data (a : CodexAuth) : result io_error TokenData :=
  let unavailable := Err (other (lit "Token data is not available.")) in
  match get_current_auth_json a with
  | Some auth_dot_json =>
      match tokens auth_dot_json, last_refresh auth_dot_json with
      | Some tokens, Some _ => Ok tokens
      | _, _ => unavailable
      end
  | None => unavailable
  end.

Definition get_token (a : CodexAuth) : result io_error str :=
  match a with
  | AuthApiKey api_key => Ok api_key
  | AuthChatgpt _ _ | AuthChatgptAuthTokens _ => t ← get_token_data a; Ok (access_token t)
  | AuthAgentIdentity _ => Err (other (lit "agent identity auth does not expose a bearer token"))
  end.

Definition get_account_id (a : CodexAuth) : option str :=
  match a with
  | AuthAgentIdentity record => Some (agent_account_id record)
  | _ => get_current_token_data a ≫= account_id
  end.
Definition get_account_email (a : CodexAuth) : option str :=
  match a with
  | AuthAgentIdentity record => Some (agent_email record)
  | _ => t ← get_current_token_data a; email (id_token t)
  end.
Definition get_chatgpt_user_id (a : CodexAuth) : option str :=
  match a with
  | AuthAgentIdentity record => Some (agent_chatgpt_user_id record)
  | _ => t ← get_current_token_data a; chatgpt_user_id (id_token t)
  end.

(** ** Loading *)

Definition read_codex_api_key_from_env : M (option str) := λ w,
  (w, Ok (value ← codex_api_key_env w;
          let value := trim value in
          if bool_decide (value = []) then None else Some value)).

Section Loading.
Context `{AuthSerde}.

Definition logout (codex_home : str) (mode : AuthCredentialsStoreMode) : M bool :=
  delete_auth (create_auth_storage codex_home mode).

Definition login_with_api_key (codex_home key : str) (mode : AuthCredentialsStoreMode) : M unit :=
  save_auth codex_home
    {| auth_mode := Some ApiKey; openai_api_key := Some key; tokens := None;
       last_refresh := None; agent_identity := None |} mode.

Definition logout_all_stores (codex_home : str) (mode : AuthCredentialsStoreMode) : M bool :=
  if bool_decide (mode = Ephemeral) then logout codex_home Ephemeral
  else
    removed_ephemeral ← logout codex_home Ephemeral;
    removed_managed ← logout codex_home mode;
    mret (removed_ephemeral || removed_managed).

Definition logout_with_message (codex_home message' : str) (mode : AuthCredentialsStoreMode) : M unit :=
  removal_result ← try (logout_all_stores codex_home mode);
  throw (other match removal_result with
               | inr _ => message'
               | inl err => message' ++ lit ". Failed to remove auth.json: " ++ message err
               end).

Definition load_auth (codex_home : str) (enable_codex_api_key_env : bool)
    (auth_credentials_store_mode : AuthCredentialsStoreMode) : M (option CodexAuth) :=
  env_key ← (if enable_codex_api_key_env then read_codex_api_key_from_env else mret None);
  match env_key with
  | Some api_key => mret (Some (AuthApiKey api_key))
  | None =>
      stored ← load (create_auth_storage codex_home Ephemeral);
      match stored with
      | Some auth_dot_json =>
          a ← pure_result (from_auth_dot_json codex_home auth_dot_json Ephemeral);
          mret (Some a)
      | None =>
          if bool_decide (auth_credentials_store_mode = Ephemeral) then mret None
          else
            stored ← load (create_auth_storage codex_home auth_credentials_store_mode);
            match stored with
            | None => mret None
            | Some auth_dot_json =>
                a ← pure_result
                      (from_auth_dot_json codex_home auth_dot_json auth_credentials_store_mode);
                mret (Some a)
            end
      end
  end.

Inductive ForcedLoginMethod : Type := ForceApi | ForceChatgpt.

Record AuthConfig : Type := {
  config_codex_home : str;
  config_store_mode : AuthCredentialsStoreMode;
  forced_login_method : option ForcedLoginMethod;
  config_forced_workspace_id : option str;
}.

Definition method_violation (required_method : ForcedLoginMethod) (mode : AuthMode) : option str :=
  match required_method, mode with
  | ForceApi, ApiKey => None
  | ForceChatgpt, (Chatgpt | ChatgptAuthTokens | AgentIdentity) => None
  | ForceApi, (Chatgpt | ChatgptAuthTokens | AgentIdentity) =>
      Some (lit "API key login is required, but ChatGPT is currently being used. Logging out.")
  | ForceChatgpt, ApiKey =>
      Some (lit "ChatGPT login is required, but an API key is currently being used. Logging out.")
  end.

(** The workspace of the credentials, or the message with which they are
    logged out, or no check at all for an API key. *)
Definition workspace_of (a : CodexAuth) : option (str + option str) :=
  match a with
  | AuthApiKey _ => None
  | AuthAgentIdentity _ => Some (inr (get_account_id a))
  | AuthChatgpt _ _ | AuthChatgptAuthTokens _ =>
      match get_token_data a with
      | Ok data => Some (inr (chatgpt_account_id (id_token data)))
      | Err err =>
          Some (inl (lit "Failed to load ChatGPT credentials while enforcing workspace restrictions: "
                     ++ message err ++ lit ". Logging out."))
      | Crash => None
      end
  end.

Definition enforce_login_restrictions (config : AuthConfig) : M unit :=
  let logout_with message' :=
    logout_with_message (config_codex_home config) message' (config_store_mode config) in
  loaded ← load_auth (config_codex_home config) true (config_store_mode config);
  match loaded with
  | None => mret ()
  | Some a =>
      match (m ← forced_login_method config; method_violation m (codex_auth_mode a)) with
      | Some message' => logout_with message'
      | None =>
          match config_forced_workspace_id config, workspace_of a with
          | None, _ | _, None => mret ()
          | Some _, Some (inl message') => logout_with message'
          | Some expected, Some (inr actual) =>
              if bool_decide (actual = Some expected) then mret ()
              else
                logout_with
                  match actual with
                  | Some actual =>
                      lit "Login is restricted to workspace " ++ expected
                      ++ lit ", but current credentials belong to " ++ actual ++ lit ". Logging out."
                  | None =>
                      lit "Login is restricted to workspace " ++ expected
                      ++ lit ", but current credentials lack a workspace identifier. Logging out."
                  end
          end
      end
  end.
End Loading.

(** ** The outside world of a refresh *)

Record ExternalAuthChatgptMetadata : Type := {
  metadata_account_id : str;
  metadata_plan_type : option str;
}.

Record ExternalAuthTokens : Type := {
  external_access_token : str;
  chatgpt_metadata : option ExternalAuthChatgptMetadata;
}.

(** The trait [ExternalAuth] as a value; [refresh] answers the [n]-th request,
    given the account id the manager had before. *)
Record ExternalAuth : Type := {
  external_auth_mode : AuthMode;
  refresh : nat → option str → io_error + ExternalAuthTokens;
}.

Record RefreshResponse : Type := {
  new_id_token : option str;
  new_access_token : option str;
  new_refresh_token : option str;
}.

Inductive HttpOutcome : Type :=
| SendFailed (m : str)
| Response (status : N) (body : str).

(** [serde_json::Value]. *)
#[warnings="-register-all"]
Inductive Value : Type :=
| JNull
| JBool (b : bool)
| JNumber (text : str)
| JString (s : str)
| JArray (l : list Value)
| JObject (fields : list (str * Value)).

(** The HTTP client, serde_json's readers, and the [Debug] printing of a text,
    which depends on Unicode tables. *)
Class Network : Type := {
  post_refresh : nat → str → HttpOutcome;
  refresh_response_from_json : str → str + RefreshResponse;
  value_from_json : str → option Value;
  status_to_string : N → str;
  debug_str : str → str;
}.

Definition object_get (key : str) (v : Value) : option Value :=
  match v with
  | JObject fields => snd <$> List.find (λ kv, bool_decide (kv.1 = key)) fields
  | _ => None
  end.
Definition as_str (v : Value) : option str := match v with JString s => Some s | _ => None end.

Definition is_object (v : Value) : bool := match v with JObject _ => true | _ => false end.

Section Manager.
Context `{JwtCodec, AuthSerde, RegistrySerde, Network}.

Definition extract_refresh_token_error_code (body : str) : option str :=
  if bool_decide (trim body = []) then None
  else
    v ← value_from_json body;
    if negb (is_object v) then None
    else
      let fallback := object_get (lit "code") v ≫= as_str in
      match object_get (lit "error") v with
      | Some (JObject fields) =>
          match object_get (lit "code") (JObject fields) ≫= as_str with
          | Some code => Some code
          | None => fallback
          end
      | Some (JString code) => Some code
      | _ => fallback
      end.

Definition classify_refresh_token_failure (body : str) : RefreshTokenFailedError :=
  let normalized_code := to_ascii_lowercase <$> extract_refresh_token_error_code body in
  let reason :=
    if bool_decide (normalized_code = Some (lit "refresh_token_expired")) then Expired
    else if bool_decide (normalized_code = Some (lit "refresh_token_reused")) then Exhausted
    else if bool_decide (normalized_code = Some (lit "refresh_token_invalidated")) then Revoked
    else OtherReason in
  {| reason := reason;
     failed_message :=
       match reason with
       | Expired => REFRESH_TOKEN_EXPIRED_MESSAGE
       | Exhausted => REFRESH_TOKEN_REUSED_MESSAGE
       | Revoked => REFRESH_TOKEN_INVALIDATED_MESSAGE
       | OtherReason => REFRESH_TOKEN_UNKNOWN_MESSAGE
       end |}.

Definition try_parse_error_message (text : str) : str :=
  let json := default JNull (value_from_json text) in
  match (e ← object_get (lit "error") json; m ← object_get (lit "message") e; as_str m) with
  | Some message_str => message_str
  | None => if bool_decide (text = []) then lit "Unknown error" else text
  end.

(** [AuthDotJson::from_external_tokens]. *)
Definition from_external_tokens (external : ExternalAuthTokens) : M AuthDotJson :=
  match chatgpt_metadata external with
  | None => throw (other (lit "external auth tokens are missing ChatGPT metadata"))
  | Some metadata =>
      token_info ← pure_result (map_err (λ e, other (IdTokenInfoError_to_string e))
        (parse_chatgpt_jwt_claims (external_access_token external)));
      now ← get_now;
      mret {| auth_mode := Some ChatgptAuthTokens;
              openai_api_key := None;
              tokens := Some
                {| id_token :=
                     {| email := email token_info;
                        chatgpt_plan_type :=
                          match metadata_plan_type metadata with
                          | Some plan => Some (from_raw_value plan)
                          | None =>
                              match chatgpt_plan_type token_info with
                              | Some plan => Some plan
                              | None => Some (Unknown (lit "unknown"))
                              end
                          end;
                        chatgpt_user_id := chatgpt_user_id token_info;
                        chatgpt_account_id := Some (metadata_account_id metadata);
                        chatgpt_account_is_fedramp := chatgpt_account_is_fedramp token_info;
                        raw_jwt := raw_jwt token_info |};
                   access_token := external_access_token external;
                   refresh_token := [];
                   account_id := Some (metadata_account_id metadata) |};
              last_refresh := Some now;
              agent_identity := None |}
  end.

Definition persist_tokens (storage : AuthStorageBackend) (id_token' access_token' refresh_token' : option str)
    : M AuthDotJson :=
  loaded ← load storage;
  match loaded with
  | None => throw (other (lit "Token data is not available."))
  | Some auth_dot_json =>
      let tokens := default TokenData_default (tokens auth_dot_json) in
      new_id ← match id_token' with
               | Some jwt => pure_result (map_err (λ e, other (IdTokenInfoError_to_string e))
                               (parse_chatgpt_jwt_claims jwt))
               | None => mret (id_token tokens)
               end;
      now ← get_now;
      let auth_dot_json :=
        {| auth_mode := auth_mode auth_dot_json;
           openai_api_key := openai_api_key auth_dot_json;
           tokens := Some
             {| id_token := new_id;
                access_token := default (access_token tokens) access_token';
                refresh_token := default (refresh_token tokens) refresh_token';
                account_id := account_id tokens |};
           last_refresh := Some now;
           agent_identity := agent_identity auth_dot_json |} in
      _ ← save storage auth_dot_json;
      mret auth_dot_json
  end.

(** ** The manager *)

(** [AuthManager] with the machine it runs on and the number of requests sent. *)
Record Mgr : Type := {
  world : World;
  cached : option CodexAuth;
  permanent_refresh_failure : option (CodexAuth * RefreshTokenFailedError);
  forced_chatgpt_workspace_id : option str;
  external_auth : option ExternalAuth;
  requests : nat;
}.

Definition set_world (w : World) (s : Mgr) : Mgr :=
  {| world := w; cached := cached s; permanent_refresh_failure := permanent_refresh_failure s;
     forced_chatgpt_workspace_id := forced_chatgpt_workspace_id s;
     external_auth := external_auth s; requests := requests s |}.
Definition set_inner (c : option CodexAuth) (f : option (CodexAuth * RefreshTokenFailedError))
    (s : Mgr) : Mgr :=
  {| world := world s; cached := c; permanent_refresh_failure := f;
     forced_chatgpt_workspace_id := forced_chatgpt_workspace_id s;
     external_auth := external_auth s; requests := requests s |}.
Definition sent (s : Mgr) : Mgr :=
  {| world := world s; cached := cached s; permanent_refresh_failure := permanent_refresh_failure s;
     forced_chatgpt_workspace_id := forced_chatgpt_workspace_id s;
     external_auth := external_auth s; requests := S (requests s) |}.

(** Storage code run by the manager, its error mapped by [f]. *)
Definition lift {E A} (f : io_error → E) (m : M A) : io Mgr E A := λ s,
  let '(w, r) := m (world s) in (set_world w s, map_err f r).

Definition gets {E A} (f : Mgr → A) : io Mgr E A := λ s, (s, Ok (f s)).

(** The configuration of the manager, fixed when it is created. *)
Variable codex_home : str.
Variable enable_codex_api_key_env : bool.
Variable auth_credentials_store_mode : AuthCredentialsStoreMode.

Definition auths_equal_for_refresh (a b : option CodexAuth) : bool :=
  match a, b with
  | None, None => true
  | Some a, Some b =>
      match api_auth_mode a, api_auth_mode b with
      | ApiKey, ApiKey => bool_decide (api_key a = api_key b)
      | Chatgpt, Chatgpt | ChatgptAuthTokens, ChatgptAuthTokens =>
          bool_decide (get_current_auth_json a = get_current_auth_json b)
      | AgentIdentity, AgentIdentity =>
          match a, b with
          | AuthAgentIdentity a, AuthAgentIdentity b => bool_decide (a = b)
          | _, _ => false
          end
      | _, _ => false
      end
  | _, _ => false
  end.

Definition auths_equal (a b : option CodexAuth) : bool :=
  match a, b with
  | None, None => true
  | Some a, Some b => codex_auth_eq a b
  | _, _ => false
  end.

Definition set_cached_auth (new_auth : option CodexAuth) (s : Mgr) : Mgr * bool :=
  let previous := cached s in
  let changed := negb (auths_equal previous new_auth) in
  let auth_changed_for_refresh := negb (auths_equal_for_refresh previous new_auth) in
  let failure := if auth_changed_for_refresh then None else permanent_refresh_failure s in
  (set_inner new_auth failure s, changed).

(** [load_auth(..).ok().flatten()]. *)
Definition load_auth_from_storage (s : Mgr) : Mgr * option CodexAuth :=
  let '(w, r) := load_auth codex_home enable_codex_api_key_env auth_credentials_store_mode (world s) in
  (set_world w s, match r with Ok a => a | _ => None end).

Definition new (w : World) : Mgr :=
  let '(w, r) := load_auth codex_home enable_codex_api_key_env auth_credentials_store_mode w in
  {| world := w; cached := match r with Ok a => a | _ => None end;
     permanent_refresh_failure := None; forced_chatgpt_workspace_id := None;
     external_auth := None; requests := 0 |}.

Definition reload (s : Mgr) : Mgr * bool :=
  let '(s, new_auth) := load_auth_from_storage s in
  set_cached_auth new_auth s.

Definition reload_ {E} : io Mgr E unit := λ s, ((reload s).1, Ok ()).

Inductive ReloadOutcome : Type := ReloadedChanged | ReloadedNoChange | Skipped.

#[export] Instance ReloadOutcome_eq_dec : EqDecision ReloadOutcome.
Proof. solve_decision. Defined.

Definition reload_if_account_id_matches (expected_account_id : option str) (s : Mgr)
    : Mgr * ReloadOutcome :=
  match expected_account_id with
  | None => (s, Skipped)
  | Some expected_account_id =>
      let '(s, new_auth) := load_auth_from_storage s in
      let new_account_id := new_auth ≫= get_account_id in
      if bool_decide (new_account_id ≠ Some expected_account_id) then (s, Skipped)
      else
        let auth_changed := negb (auths_equal_for_refresh (cached s) new_auth) in
        let '(s, _) := set_cached_auth new_auth s in
        (s, if auth_changed then ReloadedChanged else ReloadedNoChange)
  end.

Definition refresh_failure_for_auth (a : CodexAuth) (s : Mgr) : option RefreshTokenFailedError :=
  failure ← permanent_refresh_failure s;
  if auths_equal_for_refresh (Some a) (Some failure.1) then Some failure.2 else None.

Definition record_permanent_refresh_failure_if_unchanged (attempted_auth : CodexAuth)
    (error : RefreshTokenFailedError) (s : Mgr) : Mgr :=
  if auths_equal_for_refresh (Some attempted_auth) (cached s)
  then set_inner (cached s) (Some (attempted_auth, error)) s
  else s.

Definition has_external_auth (s : Mgr) : bool := bool_decide (is_Some (external_auth_mode <$> external_auth s)).
Definition has_external_api_key_auth (s : Mgr) : bool :=
  bool_decide ((external_auth_mode <$> external_auth s) = Some ApiKey).

(** [mirror_active_auth_into_registry]: a failure is only logged. *)
Definition mirror_active_auth_into_registry {E} : io Mgr E unit := λ s,
  match cached s ≫= get_current_auth_json with
  | None => (s, Ok ())
  | Some auth_json =>
      if bool_decide (resolved_mode auth_json = ApiKey) then (s, Ok ())
      else
        let '(w, _) := update_saved_chatgpt_account_if_exists codex_home auth_json (world s) in
        (set_world w s, Ok ())
  end.

Definition refresh_external_auth : io Mgr RefreshTokenError unit :=
  external_auth' ← gets external_auth;
  match external_auth' with
  | None => throw (Transient (other (lit "external auth is not configured")))
  | Some ext =>
      forced_id ← gets forced_chatgpt_workspace_id;
      previous_account_id ← gets (λ s, cached s ≫= get_account_id);
      n ← gets requests;
      _ ← (λ s, (sent s, Ok ()));
      match refresh ext n previous_account_id with
      | inl err => throw (Transient err)
      | inr refreshed =>
          if bool_decide (external_auth_mode ext = ApiKey) then mret ()
          else
            match chatgpt_metadata refreshed with
            | None =>
                throw (Transient (other (lit "external auth refresh did not return ChatGPT metadata")))
            | Some metadata =>
                if match forced_id with
                   | Some expected => bool_decide (metadata_account_id metadata ≠ expected)
                   | None => false
                   end
                then throw (Transient (other (lit "external auth refresh returned workspace "
                    ++ debug_str (metadata_account_id metadata) ++ lit ", expected "
                    ++ debug_str (default [] forced_id))))
                else
                  auth_dot_json ← lift Transient (from_external_tokens refreshed);
                  _ ← lift Transient (save_auth codex_home auth_dot_json Ephemeral);
                  _ ← reload_;
                  mirror_active_auth_into_registry
            end
      end
  end.

Definition request_chatgpt_token_refresh (refresh_token : str) : io Mgr RefreshTokenError RefreshResponse :=
  n ← gets requests;
  _ ← (λ s, (sent s, Ok ()));
  match post_refresh n refresh_token with
  | SendFailed m => throw (Transient (other m))
  | Response status body =>
      if (200 <=? status)%N && (status <? 300)%N then
        match refresh_response_from_json body with
        | inr refresh_response => mret refresh_response
        | inl m => throw (Transient (other m))
        end
      else if (status =? 401)%N then throw (Permanent (classify_refresh_token_failure body))
      else
        throw (Transient (other (lit "Failed to refresh token: " ++ status_to_string status ++ lit ": "
                                 ++ try_parse_error_message body)))
  end.

Definition refresh_and_persist_chatgpt_token (storage : str * AuthCredentialsStoreMode)
    (refresh_token : str) : io Mgr RefreshTokenError unit :=
  refresh_response ← request_chatgpt_token_refresh refresh_token;
  _ ← lift Transient (persist_tokens (create_auth_storage storage.1 storage.2)
        (new_id_token refresh_response) (new_access_token refresh_response)
        (new_refresh_token refresh_response));
  _ ← reload_;
  mirror_active_auth_into_registry.

Definition refresh_token_from_authority_impl : io Mgr RefreshTokenError unit := λ s,
  match cached s with
  | None => (s, Ok ())
  | Some a =>
      match refresh_failure_for_auth a s with
      | Some error => (s, Err (Permanent error))
      | None =>
          let '(s, result) :=
            match a with
            | AuthChatgptAuthTokens _ => refresh_external_auth s
            | AuthChatgpt auth_dot_json storage =>
                match tokens auth_dot_json with
                | None => (s, Err (Transient (other (lit "Token data is not available."))))
                | Some token_data => refresh_and_persist_chatgpt_token storage (refresh_token token_data) s
                end
            | AuthApiKey _ | AuthAgentIdentity _ => (s, Ok ())
            end in
          match result with
          | Err (Permanent error) =>
              (record_permanent_refresh_failure_if_unchanged a error s, Err (Permanent error))
          | _ => (s, result)
          end
      end
  end.

(** [refresh_token_from_authority] is the same under the refresh lock. *)
Definition refresh_token_from_authority : io Mgr RefreshTokenError unit :=
  refresh_token_from_authority_impl.

Definition account_mismatch : RefreshTokenError :=
  Permanent {| reason := OtherReason; failed_message := REFRESH_TOKEN_ACCOUNT_MISMATCH_MESSAGE |}.

(** [AuthManager::refresh_token]. *)
Definition refresh_token_guarded : io Mgr RefreshTokenError unit := λ s,
  let auth_before_reload := cached s in
  if from_option is_api_key_auth false auth_before_reload then (s, Ok ())
  else
    let expected_account_id := auth_before_reload ≫= get_account_id in
    match reload_if_account_id_matches expected_account_id s with
    | (s, ReloadedChanged) => (s, Ok ())
    | (s, ReloadedNoChange) => refresh_token_from_authority_impl s
    | (s, Skipped) => (s, Err account_mismatch)
    end.

(** [AuthManager::logout]; it reloads only when the stores could be cleared. *)
Definition logout_manager : io Mgr io_error bool :=
  removed ← lift (λ e, e) (logout_all_stores codex_home auth_credentials_store_mode);
  _ ← reload_;
  mret removed.

(** The switch and the rotation of [AuthManager]; the home and mode are those
    of the caller's configuration. *)
Definition switch_to_saved_chatgpt_account (home : str) (mode : AuthCredentialsStoreMode)
    (account_id : str) : io Mgr io_error SavedChatgptAccount :=
  _ ← mirror_active_auth_into_registry;
  selected ← lift (λ e, e) (switch_active_chatgpt_account home mode account_id);
  _ ← reload_;
  mret selected.

Definition rotate_to_next (home : str) (mode : AuthCredentialsStoreMode)
    (exhausted_account_ids : gset str) : io Mgr io_error (option SavedChatgptAccount) :=
  _ ← mirror_active_auth_into_registry;
  next ← lift (λ e, e) (rotate_to_next_saved_chatgpt_account home mode exhausted_account_ids);
  _ ← match next with Some _ => reload_ | None => mret () end;
  mret next.

Definition TOKEN_REFRESH_INTERVAL : Z := 8.
(** [chrono::Duration::days]. *)
Definition days (n : Z) : Z := n * 24 * 60 * 60 * 1000000000.

Definition is_stale_for_proactive_refresh (time : Z) (a : CodexAuth) : bool :=
  match a with
  | AuthChatgpt auth_dot_json _ =>
      match (t ← tokens auth_dot_json;
             match parse_jwt_expiration (access_token t) with Ok e => e | _ => None end) with
      | Some expires_at => (expires_at <=? time)%Z
      | None =>
          match last_refresh auth_dot_json with
          | None => false
          | Some last_refresh => (last_refresh <? time - days TOKEN_REFRESH_INTERVAL)%Z
          end
      end
  | _ => false
  end.

(** ** Recovery from a refused request *)

Inductive UnauthorizedRecoveryStep : Type := Reload | RefreshToken | ExternalRefresh | Done.
Inductive UnauthorizedRecoveryMode : Type := Managed | External.

#[export] Instance UnauthorizedRecoveryStep_eq_dec : EqDecision UnauthorizedRecoveryStep.
Proof. solve_decision. Defined.
#[export] Instance UnauthorizedRecoveryMode_eq_dec : EqDecision UnauthorizedRecoveryMode.
Proof. solve_decision. Defined.

Record UnauthorizedRecovery : Type := {
  step : UnauthorizedRecoveryStep;
  expected_account_id : option str;
  mode : UnauthorizedRecoveryMode;
}.

Definition set_step (st : UnauthorizedRecoveryStep) (u : UnauthorizedRecovery) : UnauthorizedRecovery :=
  {| step := st; expected_account_id := expected_account_id u; mode := mode u |}.

Definition unauthorized_recovery (s : Mgr) : UnauthorizedRecovery :=
  let mode :=
    if has_external_api_key_auth s || from_option is_external_chatgpt_tokens false (cached s)
    then External else Managed in
  {| step := match mode with Managed => Reload | External => ExternalRefresh end;
     expected_account_id := cached s ≫= get_account_id;
     mode := mode |}.

Definition is_done (st : UnauthorizedRecoveryStep) : bool := bool_decide (st = Done).

Definition has_next (u : UnauthorizedRecovery) (s : Mgr) : bool :=
  if has_external_api_key_auth s then negb (is_done (step u))
  else if negb (from_option is_chatgpt_auth false (cached s)) then false
  else if bool_decide (mode u = External) && negb (has_external_auth s) then false
  else negb (is_done (step u)).

Definition unavailable_reason (u : UnauthorizedRecovery) (s : Mgr) : str :=
  if has_external_api_key_auth s
  then if is_done (step u) then lit "recovery_exhausted" else lit "ready"
  else if negb (from_option is_chatgpt_auth false (cached s)) then lit "not_chatgpt_auth"
  else if bool_decide (mode u = External) && negb (has_external_auth s) then lit "no_external_auth"
  else if is_done (step u) then lit "recovery_exhausted"
  else lit "ready".

(** [next]: the manager, the recovery and the outcome, whose value is
    [auth_state_changed]. *)
Definition next (u : UnauthorizedRecovery) (s : Mgr)
    : Mgr * UnauthorizedRecovery * result RefreshTokenError (option bool) :=
  if negb (has_next u s) then
    (s, u, Err (Permanent {| reason := OtherReason;
                             failed_message := lit "No more recovery steps available." |}))
  else
    match step u with
    | Reload =>
        match reload_if_account_id_matches (expected_account_id u) s with
        | (s, ReloadedChanged) => (s, set_step RefreshToken u, Ok (Some true))
        | (s, ReloadedNoChange) => (s, set_step RefreshToken u, Ok (Some false))
        | (s, Skipped) => (s, set_step Done u, Err account_mismatch)
        end
    | RefreshToken =>
        match refresh_token_from_authority s with
        | (s, Ok _) => (s, set_step Done u, Ok (Some true))
        | (s, Err e) => (s, u, Err e)
        | (s, Crash) => (s, u, Crash)
        end
    | ExternalRefresh =>
        match refresh_external_auth s with
        | (s, Ok _) => (s, set_step Done u, Ok (Some true))
        | (s, Err e) => (s, u, Err e)
        | (s, Crash) => (s, u, Crash)
        end
    | Done => (s, u, Ok None)
    end.
End Manager.
End AuthManager.
