(* ===== verification/AuthManagerFacts.v ===== *)
(** * What the authentication manager guarantees

    Loading and reloading, the switch and the rotation between saved accounts,
    logout, cached refresh failures, the recovery state machine, and the
    invariant that no operation of the manager adds or removes a saved
    account. *)
From S2P Require Import Prelude Str Io TokenData AuthStorage AccountRegistry AccountRegistryFacts AuthManager.
Import TokenData AuthStorage AccountRegistry AuthManager.

(** What serde's derived readers produce: id tokens parsed from their JWTs. *)
Class LawfulReaders `{JwtCodec, AuthSerde, RegistrySerde} : Prop := {
  auth_from_consistent t a : auth_from_json t = inr a → auth_consistent a;
  accounts_from_consistent t f :
    accounts_from_json t = inr f → Forall (λ e, auth_consistent (auth e)) (accounts f);
}.

Lemma path_join_inj base n1 n2 : path_join base n1 = path_join base n2 → n1 = n2.
Proof.
  unfold path_join. destruct (last base); [|done].
  case_bool_decide; intros Heq; repeat apply app_inv_head in Heq; done.
Qed.

Lemma auth_file_ne codex_home : get_auth_file codex_home ≠ accounts_file codex_home.
Proof. unfold get_auth_file, accounts_file. by intros ?%path_join_inj. Qed.

Section Loading.
Context `{AuthSerde}.
Implicit Types (w : World) (codex_home : str).

Lemma file_load_spec codex_home w :
  load (FileAuthStorage codex_home) w
  = (w, match read_fault (faults w) (get_auth_file codex_home) with
        | Some e => if bool_decide (kind e = NotFound) then Ok None else Err e
        | None =>
            match files w !! get_auth_file codex_home with
            | None => Ok None
            | Some t =>
                match auth_from_json t with
                | inr a => Ok (Some a)
                | inl e => if bool_decide (kind e = NotFound) then Ok None else Err e
                end
            end
        end).
Proof.
  simpl. unfold try, try_read_auth_json, read_to_string. run_io.
  destruct (read_fault _ _); simpl; [by case_bool_decide|].
  destruct (files w !! _) as [t|]; simpl; [|done].
  destruct (auth_from_json t); simpl; by try case_bool_decide.
Qed.

Lemma keyring_load_spec codex_home w :
  ∃ r, load (KeyringAuthStorage codex_home) w = (w, r) ∧ r ≠ Crash.
Proof.
  simpl. unfold load_from_keyring, keyring_load. run_io.
  destruct (keyring_fault (faults w)); simpl; [by eexists|].
  destruct (keyring w !! _) as [t|]; simpl; [|by eexists].
  by destruct (auth_from_json t); eexists.
Qed.

(** Code that only reads, and reads the same from two machines. *)
Definition reads {A} (m : M A) (w w' : World) : Prop :=
  ∃ r, m w = (w, r) ∧ m w' = (w', r) ∧ r ≠ Crash.

Lemma reads_ret {A} (a : A) w w' : reads (mret a) w w'.
Proof. by eexists. Qed.

Lemma reads_throw {A} e w w' : reads (throw e : M A) w w'.
Proof. by eexists. Qed.

Lemma reads_bind {A B} (m : M A) (f : A → M B) w w' :
  reads m w w' → (∀ a, reads (f a) w w') → reads (m ≫= f) w w'.
Proof.
  intros (r&H1&H2&Hr) Hf. unfold reads, mbind, io_bind. rewrite H1, H2.
  destruct r as [a|e|]; [apply Hf|by eexists|done].
Qed.

Lemma reads_try {A} (m : M A) w w' : reads m w w' → reads (try m) w w'.
Proof.
  intros (r&H1&H2&Hr). unfold reads, try. rewrite H1, H2.
  destruct r; [by eexists|by eexists|done].
Qed.

Lemma reads_pure {A} (r : result io_error A) w w' : r ≠ Crash → reads (pure_result r) w w'.
Proof. by eexists. Qed.

(** Loading only reads, and what it reads does not include the registry. *)
Lemma load_reads mode codex_home w w' :
  same_but_registry codex_home w w' → reads (load (create_auth_storage codex_home mode)) w w'.
Proof.
  intros (Hk&He&_&_&Hf&Hfiles).
  assert (reads (load (FileAuthStorage codex_home)) w w') as Hfile.
  { unfold reads. rewrite !file_load_spec, Hf, Hfiles by apply auth_file_ne.
    eexists; split_and!; [done..|]. repeat case_match; done. }
  assert (reads (load (KeyringAuthStorage codex_home)) w w') as Hkeyring.
  { destruct (keyring_load_spec codex_home w) as (r&Hr&?). exists r. split_and!; [done| |done].
    simpl in *. unfold load_from_keyring, keyring_load in *. run_io.
    rewrite Hf, Hk. repeat case_match; simplify_eq/=; done. }
  destruct mode; [done|done| |].
  - unfold create_auth_storage, AutoAuthStorage. cbn [load].
    apply reads_bind; [by apply reads_try|]. intros [|[a|]]; [done|apply reads_ret|done].
  - eexists. simpl. rewrite He. split_and!; done.
Qed.

Lemma load_auth_reads home env mode w w' :
  same_but_registry home w w' → reads (load_auth home env mode) w w'.
Proof.
  intros Hsame. pose proof Hsame as (_&_&Henv&_).
  assert (∀ a m, reads (pure_result (from_auth_dot_json home a m)) w w') as Hpure.
  { intros a m. apply reads_pure. unfold from_auth_dot_json. repeat case_match; done. }
  unfold load_auth. apply reads_bind.
  { destruct env; [|apply reads_ret]. unfold reads, read_codex_api_key_from_env.
    rewrite Henv. by eexists. }
  intros [k|]; [apply reads_ret|].
  apply reads_bind; [by apply load_reads|]. intros [a|].
  { apply reads_bind; [apply Hpure|]. intros; apply reads_ret. }
  case_bool_decide; [apply reads_ret|].
  apply reads_bind; [by apply load_reads|]. intros [a|]; [|apply reads_ret].
  apply reads_bind; [apply Hpure|]. intros; apply reads_ret.
Qed.
End Loading.

(** ** The machine under the manager *)

Section Manager.
Context `{LawfulAuthSerde, !RegistrySerde, !LawfulRegistrySerde, !LawfulReaders, !Network}.
Variable home : str.
Variable env : bool.
Variable mode : AuthCredentialsStoreMode.
Implicit Types (w : World) (s : Mgr) (a : AuthDotJson).

(** The login is managed: nothing is stored in memory. *)
Definition ephemeral_empty w : Prop := ephemeral w !! compute_store_key home = None.

(** What storing credentials leaves alone. *)
Definition keeps_registry w w' : Prop :=
  files w' !! accounts_file home = files w !! accounts_file home
  ∧ faults w' = faults w ∧ now w' = now w
  ∧ (ephemeral_empty w → ephemeral_empty w').

Lemma keeps_registry_refl w : keeps_registry w w.
Proof. by split_and!. Qed.

Lemma keeps_registry_trans w1 w2 w3 :
  keeps_registry w1 w2 → keeps_registry w2 w3 → keeps_registry w1 w3.
Proof. intros (?&?&?&?) (?&?&?&?). split_and!; [congruence..|auto]. Qed.

Lemma keeps_registry_registry w w' : keeps_registry w w' → registry home w' = registry home w.
Proof. intros (Hf&_). unfold registry. by rewrite Hf. Qed.

Lemma keeps_registry_files_work w w' : keeps_registry w w' → files_work w → files_work w'.
Proof. intros (_&Hf&_) Hw. unfold files_work. by rewrite Hf. Qed.

Lemma file_save_keeps a w :
  ∃ w' r, save (FileAuthStorage home) a w = (w', r) ∧ keeps_registry w w'.
Proof.
  simpl. unfold write_truncated. repeat case_match; eexists _, _; split; try done;
    split_and!; try done; simpl.
  - rewrite lookup_partial_alter_ne; [done|apply auth_file_ne].
  - rewrite lookup_insert_ne; [done|apply auth_file_ne].
Qed.

Lemma delete_file_keeps w :
  ∃ w' r, delete_file_if_exists home w = (w', r) ∧ keeps_registry w w' ∧ r ≠ Crash.
Proof.
  unfold delete_file_if_exists, try, remove_file. run_io.
  destruct (remove_fault _ _); simpl; [|destruct (files w !! _); simpl].
  - case_bool_decide; eexists _, _; split_and!; done.
  - eexists _, _; split_and!; try done. split_and!; try done. simpl. rewrite lookup_delete_ne; [done|apply auth_file_ne].
  - eexists _, _; split_and!; done.
Qed.

Lemma keyring_save_keeps a w :
  ∃ w' r, save (KeyringAuthStorage home) a w = (w', r) ∧ keeps_registry w w' ∧ r ≠ Crash.
Proof.
  simpl. unfold save_to_keyring, keyring_save. run_io.
  destruct (keyring_fault _); simpl; [by eexists _, _|].
  set (w1 := set_keyring _ w). destruct (delete_file_keeps w1) as (w2&r&Hd&Hk&?).
  unfold try. rewrite Hd. destruct r; simpl; [by eexists _, _..|done].
Qed.

Lemma save_keeps m a w :
  m ≠ Ephemeral → ∃ w' r, save (create_auth_storage home m) a w = (w', r) ∧ keeps_registry w w'.
Proof.
  intros Hm. destruct m; unfold create_auth_storage; [..|done].
  - apply file_save_keeps.
  - destruct (keyring_save_keeps a w) as (w'&r&?&?&?). by eexists _, _.
  - unfold AutoAuthStorage. cbn [save]. destruct (keyring_save_keeps a w) as (w'&r&Hr&?&?).
    destruct r as [[]|e|]; [..|done].
    + erewrite io_step by (by apply try_Ok). by eexists _, _.
    + erewrite io_step by (by apply try_Err).
      destruct (file_save_keeps a w') as (w2&r2&->&?). eexists _, _; split; [done|].
      by eapply keeps_registry_trans.
Qed.

Lemma delete_keeps m w :
  ∃ w' r, delete_auth (create_auth_storage home m) w = (w', r) ∧ keeps_registry w w'.
Proof.
  assert (∃ w' r, delete_auth (KeyringAuthStorage home) w = (w', r) ∧ keeps_registry w w') as Hk.
  { simpl. unfold keyring_delete. run_io. destruct (keyring_fault _); simpl; [by eexists _, _|].
    set (w1 := set_keyring _ w). destruct (delete_file_keeps w1) as (w2&r&Hd&?&?).
    rewrite Hd. destruct r; [by eexists _, _..|done]. }
  destruct m; unfold create_auth_storage; [|done|done|].
  - destruct (delete_file_keeps w) as (w'&r&?&?&?). by eexists _, _.
  - eexists _, _; split; [done|]. split_and!; try done. intros He. unfold ephemeral_empty. simpl.
    by rewrite lookup_delete_eq.
Qed.

(** Whatever is loaded was parsed from its JWT. *)
Lemma load_consistent m w w' a :
  ephemeral_empty w → load (create_auth_storage home m) w = (w', Ok (Some a)) →
  auth_consistent a.
Proof.
  intros He. assert (load (FileAuthStorage home) w = (w', Ok (Some a)) → auth_consistent a) as Hfile.
  { rewrite file_load_spec. intros Hl. repeat (case_match; simplify_eq).
    by eapply auth_from_consistent. }
  assert (load (KeyringAuthStorage home) w = (w', Ok (Some a)) → auth_consistent a) as Hkey.
  { simpl. unfold load_from_keyring, keyring_load. run_io. intros Hl.
    repeat (case_match; simplify_eq/=). by eapply auth_from_consistent. }
  destruct m; unfold create_auth_storage; [done|done| |].
  - unfold AutoAuthStorage. cbn [load]. intros (w1&r&Htry&Hl)%io_bind_Ok.
    destruct (load_reads Keyring home w w) as (rk&Hrk&_&_); [apply same_but_registry_refl|].
    change (load (KeyringAuthStorage home) w = (w, rk)) in Hrk.
    unfold try in Htry. rewrite Hrk in Htry. destruct rk as [[x|]|e|]; simplify_eq/=; [|by auto..].
    apply Hkey. by unfold mret, io_ret in Hl; simplify_eq.
  - simpl. unfold ephemeral_empty in He. rewrite He. intros [=].
Qed.

Definition auth_ok (c : option CodexAuth) : Prop :=
  (∀ a, c ≫= get_current_auth_json = Some a → auth_consistent a)
  ∧ (∀ a st, c = Some (AuthChatgpt a st) → st = (home, mode)).

Lemma from_auth_dot_json_ok a c :
  auth_consistent a → from_auth_dot_json home a mode = Ok c → auth_ok (Some c).
Proof.
  unfold from_auth_dot_json, storage_mode. intros Ha Hc. repeat (case_match; simplify_eq/=);
    split; intros; simplify_eq/=; try done.
Qed.

Lemma load_auth_ok w w' c :
  ephemeral_empty w → load_auth home env mode w = (w', Ok c) → auth_ok c.
Proof.
  intros He. unfold load_auth. intros (w1&k&Hk&Hl)%io_bind_Ok.
  assert (w1 = w) as ->.
  { destruct env; unfold read_codex_api_key_from_env in Hk; run_io; by simplify_eq. }
  destruct k as [k|]; [unfold mret, io_ret in Hl; simplify_eq; by split|].
  apply io_bind_Ok in Hl as (w2&st&Hst&Hl). simpl in Hst. unfold ephemeral_empty in He.
  rewrite He in Hst. simplify_eq.
  case_bool_decide; [unfold mret, io_ret in Hl; simplify_eq; by split|].
  apply io_bind_Ok in Hl as (w3&st&Hst&Hl).
  destruct (load_reads mode home w2 w2) as (r'&Hr'&_); [apply same_but_registry_refl|].
  rewrite Hr' in Hst. simplify_eq. destruct st as [a|];
    [|unfold mret, io_ret in Hl; simplify_eq; by split].
  apply io_bind_Ok in Hl as (w4&x&Hx&Hl). unfold pure_result in Hx. injection Hx as <- Hx.
  unfold mret, io_ret in Hl. simplify_eq.
  eapply from_auth_dot_json_ok; [|done]. by eapply load_consistent.
Qed.

(** ** The invariant *)

(** A managed login whose registry parses and holds exactly these ids. *)
Definition mgr_ok (ids : list str) s : Prop :=
  files_work (world s) ∧ ephemeral_empty (world s) ∧ auth_ok (cached s)
  ∧ external_auth s = None
  ∧ ∃ l, registry home (world s) = Some l ∧ wf_registry l ∧ id <$> l = ids.

Definition preserves {E A} (ids : list str) (m : io Mgr E A) : Prop :=
  ∀ s, mgr_ok ids s → mgr_ok ids (m s).1.

Lemma preserves_bind {E A B} ids (m : io Mgr E A) (f : A → io Mgr E B) :
  preserves ids m → (∀ x, preserves ids (f x)) → preserves ids (m ≫= f).
Proof.
  intros Hm Hf s Hs. specialize (Hm s Hs). unfold mbind, io_bind.
  destruct (m s) as [s1 [x|e|]]; [by apply Hf|done..].
Qed.

Lemma preserves_result {E A} ids (r : result E A) : preserves ids (λ s, (s, r)).
Proof. by intros s Hs. Qed.

Lemma preserves_gets {E A} ids (f : Mgr → A) : preserves ids (gets (E:=E) f).
Proof. by intros s Hs. Qed.

Lemma mgr_ok_set_world ids w s :
  keeps_registry (world s) w → mgr_ok ids s → mgr_ok ids (set_world w s).
Proof.
  intros Hk (?&?&?&?&l&?&?&?). split_and!; try done; simpl.
  - by eapply keeps_registry_files_work.
  - by apply Hk.
  - exists l. by rewrite (keeps_registry_registry _ _ Hk).
Qed.

Lemma mgr_ok_set_inner ids c f s : auth_ok c → mgr_ok ids s → mgr_ok ids (set_inner c f s).
Proof. by intros Hc (?&?&?&?&?). Qed.

Lemma preserves_lift {E A} ids (f : io_error → E) (m : M A) :
  (∀ w w' r, ephemeral_empty w → m w = (w', r) → keeps_registry w w') → preserves ids (lift f m).
Proof.
  intros Hm s Hs. unfold lift. destruct (m (world s)) as [w r] eqn:Hw. simpl.
  apply mgr_ok_set_world; [|done]. eapply Hm; [apply Hs|done].
Qed.

Lemma load_from_storage_spec s :
  ephemeral_empty (world s) →
  ∃ c, load_auth_from_storage home env mode s = (s, c) ∧ auth_ok c.
Proof.
  intros He. unfold load_auth_from_storage.
  destruct (load_auth_reads home env mode (world s) (world s)) as (r&Hr&_&_);
    [apply same_but_registry_refl|].
  rewrite Hr. eexists; split; [f_equal; by destruct s|].
  destruct r as [c|e|]; [by eapply load_auth_ok|by split..].
Qed.

Lemma reload_preserves ids s : mgr_ok ids s → mgr_ok ids (reload home env mode s).1.
Proof.
  intros Hs. unfold reload. destruct (load_from_storage_spec s) as (c&Hc&Hok); [apply Hs|].
  rewrite Hc. simpl. by apply mgr_ok_set_inner.
Qed.

Lemma reload_if_preserves ids expected s :
  mgr_ok ids s → mgr_ok ids (reload_if_account_id_matches home env mode expected s).1.
Proof.
  intros Hs. unfold reload_if_account_id_matches. destruct expected as [i|]; [|done].
  destruct (load_from_storage_spec s) as (c&Hc&Hok); [apply Hs|]. rewrite Hc. simpl.
  case_bool_decide; [done|]. simpl. by apply mgr_ok_set_inner.
Qed.

(** The mirror refreshes the entry of the cached account and no other. *)
Lemma mirror_spec {E} s l :
  files_work (world s) → registry home (world s) = Some l → wf_registry l →
  auth_ok (cached s) →
  ∃ w l', mirror_active_auth_into_registry (E:=E) home s = (set_world w s, Ok ())
    ∧ registry home w = Some l' ∧ wf_registry l' ∧ same_but_registry home (world s) w
    ∧ id <$> l' = id <$> l
    ∧ view l' = match (a ← cached s ≫= get_current_auth_json; key ← registry_key a; Some (a, key)) with
                | Some (a, key) => alter (λ e, entry_of key a (added_at e)) key (view l)
                | None => view l
                end.
Proof.
  intros Hw Hr Hl Hc. unfold mirror_active_auth_into_registry.
  assert (set_world (world s) s = s) as Hs by by destruct s.
  destruct (cached s ≫= get_current_auth_json) as [a|] eqn:Ha; simpl.
  2: { exists (world s), l. rewrite Hs. split_and!; eauto using same_but_registry_refl. }
  destruct (refresh_spec home a (world s) l) as (w&l'&?&?&?&Hspec); [done..|by apply Hc|].
  unfold registry_key in *. case_bool_decide.
  { exists (world s), l. rewrite Hs. split_and!; eauto using same_but_registry_refl. }
  destruct (account_registry_id_for_auth a) as [key|]; simpl.
  - destruct Hspec as (->&Hv&Hid). by exists w, l'.
  - destruct Hspec as (->&->&->). exists (world s), l. by rewrite Hs.
Qed.

Lemma mirror_preserves {E} ids : preserves ids (mirror_active_auth_into_registry (E:=E) home).
Proof.
  intros s Hs. pose proof Hs as (Hw&He&Hc&Hx&l&Hr&Hl&Hid).
  destruct (mirror_spec (E:=E) s l) as (w&l'&->&?&?&Hsame&?&_); [done..|].
  split_and!; try done; simpl.
  - by eapply files_work_same.
  - destruct Hsame as (_&Heph&_). unfold ephemeral_empty. simpl. by rewrite Heph.
  - exists l'. by split_and!; [..|congruence].
Qed.

(** ** Every operation keeps the saved accounts *)

Hypothesis managed : mode ≠ Ephemeral.

Lemma persist_tokens_keeps i ac rf w w' r :
  ephemeral_empty w → persist_tokens (create_auth_storage home mode) i ac rf w = (w', r) →
  keeps_registry w w'.
Proof.
  intros He. unfold persist_tokens, mbind at 1, io_bind at 1.
  destruct (load_reads mode home w w) as (rl&Hrl&_&_); [apply same_but_registry_refl|].
  rewrite Hrl. destruct rl as [[a|]|e|]; [|intros [= <- _]; apply keeps_registry_refl..].
  unfold mbind at 1, io_bind at 1.
  assert (∀ jwt : option str, ∃ r : result io_error IdTokenInfo,
    match i with
    | Some jwt => pure_result (map_err (λ e, other (IdTokenInfoError_to_string e)) (parse_chatgpt_jwt_claims jwt))
    | None => mret (id_token (default TokenData_default (tokens a)))
    end w = (w, r)) as Hid by (intros; destruct i; by eexists).
  destruct (Hid None) as [[t|e|] Hr]; rewrite Hr; [|intros [= <- _]; apply keeps_registry_refl..].
  erewrite io_step by done.
  match goal with |- context [save _ ?a ≫= _] => destruct (save_keeps mode a w) as (w1&rs&Hs&?); [done|] end.
  unfold mbind, io_bind. rewrite Hs. destruct rs; intros [= <- _]; done.
Qed.

Lemma refresh_and_persist_preserves ids rt :
  preserves ids (refresh_and_persist_chatgpt_token home env mode (home, mode) rt).
Proof.
  unfold refresh_and_persist_chatgpt_token. apply preserves_bind.
  - unfold request_chatgpt_token_refresh. apply preserves_bind; [apply preserves_gets|].
    intros n. apply preserves_bind; [by intros s (?&?&?&?&?)|]. intros _.
    repeat case_match; apply preserves_result.
  - intros r. apply preserves_bind.
    { apply preserves_lift. intros w w' x ?. by apply persist_tokens_keeps. }
    intros _. apply preserves_bind; [intros s Hs; by apply reload_preserves|].
    intros _. apply mirror_preserves.
Qed.

Lemma refresh_external_preserves ids : preserves ids (refresh_external_auth home env mode).
Proof.
  intros s Hs. unfold refresh_external_auth, mbind at 1, io_bind at 1, gets at 1.
  pose proof Hs as (_&_&_&Hx&_). by rewrite Hx.
Qed.

Lemma refresh_impl_preserves ids : preserves ids (refresh_token_from_authority_impl home env mode).
Proof.
  intros s Hs. unfold refresh_token_from_authority_impl.
  destruct (cached s) as [a|] eqn:Hc; [|done]. destruct (refresh_failure_for_auth a s); [done|].
  assert (∀ (s1 : Mgr) (r : result RefreshTokenError unit), mgr_ok ids s1 →
    mgr_ok ids (match r with
      | Err (Permanent error) =>
          (record_permanent_refresh_failure_if_unchanged a error s1, Err (Permanent error))
      | _ => (s1, r) end).1) as Hrecord.
  { intros s1 r Hs1. destruct r as [|[e|]|]; try done. simpl.
    unfold record_permanent_refresh_failure_if_unchanged. case_match; [|done].
    apply mgr_ok_set_inner; [apply Hs1|done]. }
  destruct a as [k|a st|a|rec]; [done| | |done].
  - destruct (tokens a); [|done].
    assert (st = (home, mode)) as -> by (by eapply Hs; rewrite Hc).
    pose proof (refresh_and_persist_preserves ids (refresh_token t) s Hs) as Hp.
    destruct (refresh_and_persist_chatgpt_token _ _ _ _ _ s) as [s1 r]. exact (Hrecord s1 r Hp).
  - pose proof (refresh_external_preserves ids s Hs) as Hp.
    destruct (refresh_external_auth _ _ _ s) as [s1 r]. exact (Hrecord s1 r Hp).
Qed.

Lemma refresh_guarded_preserves ids : preserves ids (refresh_token_guarded home env mode).
Proof.
  intros s Hs. unfold refresh_token_guarded. case_match; [done|].
  pose proof (reload_if_preserves ids (cached s ≫= get_account_id) s Hs) as Hp.
  destruct (reload_if_account_id_matches _ _ _ _ s) as [s1 [| |]]; try done.
  by apply refresh_impl_preserves.
Qed.

Lemma save_auth_keeps m a w w' r :
  m ≠ Ephemeral → save_auth home a m w = (w', r) → keeps_registry w w'.
Proof.
  intros Hm. unfold save_auth. destruct (save_keeps m a w) as (w1&r1&->&?); [done|].
  by intros [= <- <-].
Qed.

Lemma load_accounts_reads w w' r : load_accounts_file home w = (w', r) → w' = w.
Proof.
  unfold load_accounts_file, try, read_to_string. run_io. intros Hl.
  repeat (case_match; simplify_eq/=; try done).
Qed.

Lemma current_id_reads m w w' r : current_saved_chatgpt_account_id home m w = (w', r) → w' = w.
Proof.
  unfold current_saved_chatgpt_account_id, load_auth_dot_json, mbind, io_bind.
  destruct (load_reads m home w w) as (rl&Hrl&_&_); [apply same_but_registry_refl|].
  rewrite Hrl. by destruct rl as [[a|]|e|]; intros [= <- _].
Qed.

Lemma switch_active_keeps m key w w' r :
  m ≠ Ephemeral → switch_active_chatgpt_account home m key w = (w', r) → keeps_registry w w'.
Proof.
  intros Hm. unfold switch_active_chatgpt_account, mbind, io_bind.
  destruct (load_accounts_file home w) as [w1 rl] eqn:Hl. apply load_accounts_reads in Hl as ->.
  destruct rl as [f|e|]; [|intros [= <- _]; apply keeps_registry_refl..].
  destruct (find_id key (accounts f)) as [e|]; [|intros [= <- _]; apply keeps_registry_refl].
  destruct (save_auth home (auth e) m w) as [w1 rs] eqn:Hs. apply save_auth_keeps in Hs; [|done].
  destruct rs; by intros [= <- _].
Qed.

Lemma rotate_keeps m exhausted w w' r :
  m ≠ Ephemeral → rotate_to_next_saved_chatgpt_account home m exhausted w = (w', r) →
  keeps_registry w w'.
Proof.
  intros Hm. unfold rotate_to_next_saved_chatgpt_account, mbind, io_bind.
  destruct (load_accounts_file home w) as [w1 rl] eqn:Hl. apply load_accounts_reads in Hl as ->.
  destruct rl as [f|e|]; [|intros [= <- _]; apply keeps_registry_refl..].
  case_bool_decide; [intros [= <- _]; apply keeps_registry_refl|].
  destruct (current_saved_chatgpt_account_id home m w) as [w1 rc] eqn:Hc.
  apply current_id_reads in Hc as ->.
  destruct rc as [cur|e|]; [|intros [= <- _]; apply keeps_registry_refl..].
  destruct (List.find _ _) as [e|]; [|intros [= <- _]; apply keeps_registry_refl].
  destruct (save_auth home (auth e) m w) as [w1 rs] eqn:Hs. apply save_auth_keeps in Hs; [|done].
  destruct rs; by intros [= <- _].
Qed.

Lemma logout_keeps w w' r : logout_all_stores home mode w = (w', r) → keeps_registry w w'.
Proof.
  unfold logout_all_stores, logout. rewrite bool_decide_eq_false_2 by done. unfold mbind, io_bind.
  destruct (delete_keeps Ephemeral w) as (w1&r1&->&Hk1).
  destruct r1; [|by intros [= <- _]..].
  destruct (delete_keeps mode w1) as (w2&r2&->&Hk2).
  destruct r2; intros [= <- _]; by eapply keeps_registry_trans.
Qed.

(** What can happen to a manager: its own operations, under the lock one at a
    time, and other processes that change anything but the registry and the
    faults of the machine. *)
Inductive mgr_step : Mgr → Mgr → Prop :=
| step_reload s : mgr_step s (reload home env mode s).1
| step_refresh s : mgr_step s (refresh_token_guarded home env mode s).1
| step_authority s : mgr_step s (refresh_token_from_authority home env mode s).1
| step_recovery u s : mgr_step s (next home env mode u s).1.1
| step_switch m key s : m ≠ Ephemeral →
    mgr_step s (switch_to_saved_chatgpt_account home env mode home m key s).1
| step_rotate m exhausted s : m ≠ Ephemeral →
    mgr_step s (rotate_to_next home env mode home m exhausted s).1
| step_logout s : mgr_step s (logout_manager home env mode s).1
| step_others w s : keeps_registry (world s) w → mgr_step s (set_world w s).

Lemma mgr_step_preserves ids s s' : mgr_step s s' → mgr_ok ids s → mgr_ok ids s'.
Proof.
  intros Hstep Hs. destruct Hstep.
  - by apply reload_preserves.
  - by apply refresh_guarded_preserves.
  - by apply refresh_impl_preserves.
  - unfold next. case_match; [done|]. destruct (step u); simpl.
    + pose proof (reload_if_preserves ids (expected_account_id u) s Hs) as Hp.
      by destruct (reload_if_account_id_matches _ _ _ _ s) as [s1 [| |]].
    + pose proof (refresh_impl_preserves ids s Hs) as Hp. unfold refresh_token_from_authority.
      by destruct (refresh_token_from_authority_impl _ _ _ s) as [s1 [|[]|]].
    + pose proof (refresh_external_preserves ids s Hs) as Hp.
      by destruct (refresh_external_auth _ _ _ s) as [s1 [|[]|]].
    + done.
  - revert Hs. apply preserves_bind; [apply mirror_preserves|]. intros _.
    apply preserves_bind; [apply preserves_lift; intros ????; by apply switch_active_keeps|].
    intros e. apply preserves_bind; [intros ??; by apply reload_preserves|].
    intros _. apply preserves_result.
  - revert Hs. apply preserves_bind; [apply mirror_preserves|]. intros _.
    apply preserves_bind; [apply preserves_lift; intros ????; by apply rotate_keeps|].
    intros e. apply preserves_bind; [destruct e; [intros ??; by apply reload_preserves|apply preserves_result]|].
    intros _. apply preserves_result.
  - revert Hs. apply preserves_bind; [apply preserves_lift; intros ????; by apply logout_keeps|].
    intros e. apply preserves_bind; [intros ??; by apply reload_preserves|].
    intros _. apply preserves_result.
  - by apply mgr_ok_set_world.
Qed.

(** C38. For a managed login no sequence of reloads, refreshes, recoveries,
    switches, rotations and logouts, interleaved with other processes that
    leave the registry file alone, adds, removes or reorders a saved account:
    a removed account is never mirrored back. *)
Theorem saved_accounts_stay ids s s' :
  mgr_ok ids s → rtc mgr_step s s' →
  ∃ l, registry home (world s') = Some l ∧ wf_registry l ∧ id <$> l = ids.
Proof.
  intros Hs Hrtc. cut (mgr_ok ids s'); [by intros (_&_&_&_&?)|].
  induction Hrtc as [|s1 s2 s3 Hstep _ IH]; [done|]. apply IH. by eapply mgr_step_preserves.
Qed.

(** ** Switching and rotating *)

(** What a manager caches for stored credentials. *)
Definition loaded a : option CodexAuth :=
  match from_auth_dot_json home a mode with Ok c => Some c | _ => None end.

(** A managed login on a working machine, with these saved accounts. *)
Definition ready s (l : list SavedChatgptAccount) : Prop :=
  files_work (world s) ∧ (mode = Keyring → keyring_fault (faults (world s)) = None)
  ∧ ephemeral_empty (world s) ∧ registry home (world s) = Some l ∧ wf_registry l
  ∧ auth_ok (cached s).

(** The registry after the active account has been mirrored. *)
Definition mirrored s (l : list SavedChatgptAccount) : gmap str SavedChatgptAccount :=
  match (a ← cached s ≫= get_current_auth_json; key ← registry_key a; Some (a, key)) with
  | Some (a, key) => alter (λ e, entry_of key a (added_at e)) key (view l)
  | None => view l
  end.

Lemma loaded_ok a : auth_consistent a → auth_ok (loaded a).
Proof.
  intros Ha. unfold loaded. destruct (from_auth_dot_json home a mode) eqn:Hf; [|by split..].
  by eapply from_auth_dot_json_ok.
Qed.

(** Storing credentials and reloading makes them the cached ones. *)
Lemma save_reload s w l a :
  env = false → ready s l → keeps_registry (world s) w → auth_consistent a →
  load (create_auth_storage home mode) w = (w, Ok (Some a)) →
  ready (reload home env mode (set_world w s)).1 l
  ∧ cached (reload home env mode (set_world w s)).1 = loaded a
  ∧ world (reload home env mode (set_world w s)).1 = w.
Proof.
  intros -> (Hw&Hk&He&Hr&Hl&Hc) Hkeep Ha Hload.
  assert (load_auth home false mode w
    = (w, match from_auth_dot_json home a mode with Ok c => Ok (Some c) | Err e => Err e | Crash => Crash end)) as Hauth.
  { unfold load_auth. erewrite io_step by done.
    assert (ephemeral_empty w) as He' by by apply Hkeep.
    assert (load (create_auth_storage home Ephemeral) w = (w, Ok None)) as Heph.
    { simpl. unfold ephemeral_empty in He'. by rewrite He'. }
    cbv beta iota. erewrite io_step by exact Heph. cbv beta iota. rewrite bool_decide_eq_false_2 by done.
    erewrite io_step by exact Hload. unfold pure_result. run_io. by destruct (from_auth_dot_json _ _ _). }
  unfold reload, load_auth_from_storage. simpl. rewrite Hauth. simpl.
  assert (match match from_auth_dot_json home a mode with Ok c => Ok (Some c) | Err e => Err e | Crash => Crash end
    with Ok c => c | _ => None end = loaded a) as Heq.
  { unfold loaded. by destruct (from_auth_dot_json home a mode). }
  rewrite Heq. split; [|done]. split_and!; simpl.
  - by eapply keeps_registry_files_work.
  - destruct Hkeep as (_&->&_). done.
  - by apply Hkeep.
  - by rewrite (keeps_registry_registry _ _ Hkeep).
  - done.
  - by apply loaded_ok.
Qed.

(** The mirror at the start of a switch or rotation. *)
Lemma mirror_ready {E} s l :
  ready s l →
  ∃ w l', mirror_active_auth_into_registry (E:=E) home s = (set_world w s, Ok ())
    ∧ ready (set_world w s) l' ∧ view l' = mirrored s l ∧ id <$> l' = id <$> l
    ∧ same_but_registry home (world s) w.
Proof.
  intros (Hw&Hk&He&Hr&Hl&Hc).
  destruct (mirror_spec (E:=E) s l) as (w&l'&Hm&Hr'&Hl'&Hsame&Hid&Hv); [done..|].
  exists w, l'. split; [done|]. split; [|by split_and!]. split_and!; try done; simpl.
  - by eapply files_work_same.
  - destruct Hsame as (_&_&_&_&->&_). done.
  - destruct Hsame as (_&Heph&_). unfold ephemeral_empty. by rewrite Heph.
Qed.

Lemma entry_consistent l e : wf_registry l → e ∈ l → auth_consistent (auth e).
Proof. intros [_ Hl] He. eapply Forall_forall in Hl; [|done]. apply Hl. Qed.

Lemma load_accounts_ready s l :
  ready s l → ∃ f, load_accounts_file home (world s) = (world s, Ok f) ∧ accounts f = l.
Proof. intros (Hw&_&_&Hr&_). by apply load_accounts_file_spec. Qed.

Lemma save_auth_ready s l a :
  ready s l → auth_consistent a →
  ∃ w, save_auth home a mode (world s) = (w, Ok ()) ∧ keeps_registry (world s) w
       ∧ load (create_auth_storage home mode) w = (w, Ok (Some a)).
Proof.
  intros (Hw&Hk&_) Ha. destruct (save_then_load home mode (world s) a) as (w&Hs&Hl); [done..|].
  exists w. split_and!; [done| |done]. by eapply save_auth_keeps.
Qed.

Lemma switch_spec s l key :
  env = false → ready s l → is_Some (view l !! key) →
  ∃ s' l' e, switch_to_saved_chatgpt_account home env mode home mode key s = (s', Ok e)
    ∧ ready s' l' ∧ view l' = mirrored s l ∧ id <$> l' = id <$> l
    ∧ view l' !! key = Some e ∧ cached s' = loaded (auth e).
Proof.
  intros Henv Hs Hkey. destruct (mirror_ready (E:=io_error) s l Hs) as (w&l'&Hm&Hready&Hv&Hid&_).
  assert (is_Some (find_id key l')) as [e He].
  { apply find_id_elem. rewrite Hid. apply find_id_elem. by rewrite find_id_view. }
  apply find_id_Some in He as Hin. destruct Hin as [Hin _].
  destruct (load_accounts_ready _ _ Hready) as (f&Hf&Hacc).
  assert (auth_consistent (auth e)) as Hcons by (eapply entry_consistent; [apply Hready|done]).
  destruct (save_auth_ready _ _ (auth e) Hready Hcons) as (w2&Hsave&Hkeep&Hload).
  destruct (save_reload _ w2 l' (auth e) Henv Hready Hkeep Hcons Hload) as (Hr2&Hc2&Hw2).
  eexists _, l', e. split_and!; [|exact Hr2|done|done|by rewrite <-find_id_view|exact Hc2].
  unfold switch_to_saved_chatgpt_account. erewrite io_step by exact Hm.
  assert (switch_active_chatgpt_account home mode key (world (set_world w s)) = (w2, Ok e)) as Hsw.
  { unfold switch_active_chatgpt_account. erewrite io_step by exact Hf. rewrite Hacc, He.
    by erewrite io_step by exact Hsave. }
  erewrite io_step by (unfold lift; rewrite Hsw; simpl; reflexivity). done.
Qed.

(** Rotation picks the first saved account whose id is neither exhausted
    nor the stored one, stores and caches its credentials; it returns nothing
    only when every saved account is exhausted or current, and then leaves the
    cache alone. *)
Theorem rotate_picks_next s l ex stored :
  env = false → ready s l →
  load (create_auth_storage home mode) (world s) = (world s, Ok stored) →
  let current := stored ≫= account_registry_id_for_auth in
  ∃ s' l', rotate_to_next home env mode home mode ex s
           = (s', Ok (List.find (eligible ex current) l'))
    ∧ ready s' l' ∧ id <$> l' = id <$> l ∧ view l' = mirrored s l
    ∧ match List.find (eligible ex current) l' with
      | Some e =>
          cached s' = loaded (auth e)
          ∧ load (create_auth_storage home mode) (world s') = (world s', Ok (Some (auth e)))
          ∧ id e ∉ ex ∧ current ≠ Some (id e)
      | None => cached s' = cached s ∧ ∀ key, key ∈ id <$> l → key ∈ ex ∨ current = Some key
      end.
Proof.
  intros Henv Hs Hstored current. destruct (mirror_ready (E:=io_error) s l Hs) as (w&l'&Hm&Hready&Hv&Hid&Hsame).
  destruct (load_accounts_ready _ _ Hready) as (f&Hf&Hacc).
  assert (current_saved_chatgpt_account_id home mode w = (w, Ok current)) as Hcur.
  { unfold current_saved_chatgpt_account_id, load_auth_dot_json.
    destruct (load_reads mode home (world s) w Hsame) as (r&Hr1&Hr2&_).
    rewrite Hstored in Hr1. injection Hr1 as <-. erewrite io_step by exact Hr2.
    by destruct stored. }
  assert (rotate_to_next_saved_chatgpt_account home mode ex w
    = match List.find (eligible ex current) l' with
      | None => (w, Ok None)
      | Some e => match save_auth home (auth e) mode w with
                  | (w2, Ok _) => (w2, Ok (Some e)) | (w2, Err x) => (w2, Err x) | (w2, Crash) => (w2, Crash) end
      end) as Hrot.
  { unfold rotate_to_next_saved_chatgpt_account. simpl in Hf. erewrite io_step by exact Hf. rewrite Hacc.
    case_bool_decide as Hnil; [by rewrite Hnil|]. erewrite io_step by exact Hcur.
    destruct (List.find _ _); [|done]. unfold mbind, io_bind. by destruct (save_auth _ _ _ _) as [? []]. }
  destruct (List.find (eligible ex current) l') as [e|] eqn:Hfind.
  - pose proof Hfind as [Hin Helig]%find_some. apply list_elem_of_In in Hin.
    assert (auth_consistent (auth e)) as Hcons by (eapply entry_consistent; [apply Hready|done]).
    destruct (save_auth_ready _ _ (auth e) Hready Hcons) as (w2&Hsave&Hkeep&Hload). simpl in Hsave.
    destruct (save_reload _ w2 l' (auth e) Henv Hready Hkeep Hcons Hload) as (Hr2&Hc2&Hw2).
    rewrite Hsave in Hrot.
    eexists _, l'. rewrite Hfind. split_and!; [|exact Hr2|done|done|..].
    + unfold rotate_to_next. erewrite io_step by exact Hm.
      erewrite io_step by (unfold lift; simpl; rewrite Hrot; simpl; reflexivity). done.
    + exact Hc2.
    + rewrite Hw2. exact Hload.
    + unfold eligible in Helig. by case_bool_decide.
    + unfold eligible in Helig. case_bool_decide; [done|]. intros Heq. rewrite Heq in Helig. by bool_to_prop.
  - exists (set_world w s), l'. rewrite Hfind. split_and!; [|done..|].
    + unfold rotate_to_next. erewrite io_step by exact Hm.
      erewrite io_step by (unfold lift; simpl; rewrite Hrot; simpl; reflexivity). done.
    + intros key Hkey. rewrite <-Hid in Hkey. apply list_elem_of_fmap in Hkey as (e&->&He).
      eapply find_none in Hfind; [|by apply list_elem_of_In]. unfold eligible in Hfind.
      case_bool_decide; [by left|right]. destruct current as [c|]; [|done].
      bool_to_prop. f_equal. symmetry. by apply dec_stable.
Qed.

(** Switching to another saved account and back again restores exactly
    the credentials that were cached before, however old the registry's copy
    of them was. *)
Theorem switch_back_restores s l a st key other :
  env = false → ready s l → cached s = Some (AuthChatgpt a st) → resolved_mode a = Chatgpt →
  registry_key a = Some key → other ≠ key →
  is_Some (view l !! key) → is_Some (view l !! other) →
  ∃ s1 s2 e1 e2,
    switch_to_saved_chatgpt_account home env mode home mode other s = (s1, Ok e1)
    ∧ switch_to_saved_chatgpt_account home env mode home mode key s1 = (s2, Ok e2)
    ∧ id e1 = other ∧ id e2 = key ∧ auth e2 = a ∧ cached s2 = Some (AuthChatgpt a (home, mode)).
Proof.
  intros Henv Hs Hc Hm Hkey Hne [old Hold] Hother.
  destruct (switch_spec s l other Henv Hs Hother) as (s1&l1&e1&Hrun1&Hr1&Hv1&Hid1&He1&Hc1).
  assert (view l1 !! key = Some (entry_of key a (added_at old))) as Hk1.
  { rewrite Hv1. unfold mirrored. rewrite Hc. simpl. rewrite Hkey. simpl.
    by rewrite lookup_alter_eq, Hold. }
  destruct (switch_spec s1 l1 key Henv Hr1) as (s2&l2&e2&Hrun2&Hr2&Hv2&Hid2&He2&Hc2); [by rewrite Hk1|].
  assert (∀ l k e, view l !! k = Some e → id e = k) as Hview.
  { intros l0 k e. rewrite <-find_id_view. by intros [_ ?]%find_id_Some. }
  assert (wf_entry e1) as Hwf1.
  { rewrite <-find_id_view in He1. apply find_id_Some in He1 as [Hin _].
    destruct Hr1 as (_&_&_&_&[_ Hall]&_). by eapply Forall_forall in Hall. }
  assert (view l2 !! key = view l1 !! key) as Hsame.
  { rewrite Hv2. unfold mirrored. destruct (cached s1 ≫= get_current_auth_json) as [b|] eqn:Hb; [|done]. simpl.
    assert (b = auth e1) as ->.
    { rewrite Hc1 in Hb. unfold loaded, from_auth_dot_json in Hb. by repeat (case_match; simplify_eq/=). }
    destruct Hwf1 as (_&->&_). simpl. rewrite lookup_alter_ne; [done|]. by rewrite (Hview l1 other e1). }
  rewrite Hsame, Hk1 in He2. injection He2 as <-.
  exists s1, s2, e1, (entry_of key a (added_at old)). split_and!; try done; [by eapply Hview|].
  rewrite Hc2. unfold loaded, from_auth_dot_json, storage_mode. simpl. by rewrite Hm.
Qed.
End Manager.
