(* ===== verification/AuthRecovery.v ===== *)
(** * Refresh failures, recovery, logout and login restrictions

    The parts of the authentication manager that decide when a client may go
    on: the latch on permanent refresh failures, the bound on recovery steps,
    what a logout leaves behind, and the login restrictions; and what a refresh
    does to the record of another account. *)
From S2P Require Import Prelude Str Io TokenData AuthStorage AccountRegistry AccountRegistryFacts AuthManager AuthManagerFacts.
Import TokenData AuthStorage AccountRegistry AuthManager.

Section Recovery.
Context `{!JwtCodec, !AuthSerde, !RegistrySerde, !Network}.
Variable home : str.
Variable env : bool.
Variable mode : AuthCredentialsStoreMode.
Implicit Types (w : World) (s : Mgr) (a : AuthDotJson).

Abbreviation refresh_authority := (refresh_token_from_authority home env mode).

(** ** Permanent failures are latched *)

Lemma auths_equal_for_refresh_refl c : auths_equal_for_refresh c c = true.
Proof. destruct c as [[]|]; simpl; by rewrite ?bool_decide_eq_true_2. Qed.

(** Code whose errors, if any, are transient. *)
Definition transient {A} (m : io Mgr RefreshTokenError A) : Prop :=
  ∀ s s' e, m s ≠ (s', Err (Permanent e)).

Lemma transient_bind {A B} (m : io Mgr RefreshTokenError A) (f : A → io Mgr RefreshTokenError B) :
  transient m → (∀ x, transient (f x)) → transient (m ≫= f).
Proof.
  intros Hm Hf s s' e. unfold mbind, io_bind. specialize (Hm s).
  destruct (m s) as [s1 [x|x|]]; [apply Hf| |done]. intros [= -> ->]. by eapply Hm.
Qed.

Lemma transient_lift {A} (m : M A) : transient (lift Transient m).
Proof. intros s s' e. unfold lift. by destruct (m (world s)) as [w []]. Qed.

Lemma transient_reload : transient (reload_ home env mode).
Proof. by intros s s' e. Qed.

Lemma transient_mirror : transient (mirror_active_auth_into_registry home).
Proof.
  intros s s' e. unfold mirror_active_auth_into_registry.
  destruct (cached s ≫= get_current_auth_json); [|done]. case_bool_decide; [done|].
  by destruct (update_saved_chatgpt_account_if_exists _ _ _).
Qed.

Lemma refresh_external_not_permanent : transient (refresh_external_auth home env mode).
Proof.
  unfold refresh_external_auth. apply transient_bind; [done|]. intros [ext|]; [|done].
  do 4 (apply transient_bind; [done|]; intros ?).
  destruct (refresh ext _ _); [done|]. case_bool_decide; [done|].
  destruct (chatgpt_metadata _); [|done]. case_match; [done|].
  repeat (apply transient_bind; [first [apply transient_lift|apply transient_reload]|]; intros ?).
  apply transient_mirror.
Qed.

Lemma request_permanent s s' rt e :
  request_chatgpt_token_refresh rt s = (s', Err (Permanent e)) → s' = sent s.
Proof.
  unfold request_chatgpt_token_refresh, gets. run_io.
  intros Hr. repeat (case_match; simplify_eq/=; try done).
Qed.

Lemma refresh_persist_permanent st rt s s' e :
  refresh_and_persist_chatgpt_token home env mode st rt s = (s', Err (Permanent e)) → s' = sent s.
Proof.
  unfold refresh_and_persist_chatgpt_token, mbind at 1, io_bind at 1.
  destruct (request_chatgpt_token_refresh rt s) as [s1 [r|x|]] eqn:Hreq;
    [|by intros [= <- ->]; eapply request_permanent|done].
  intros Hr. exfalso. revert Hr. apply transient_bind; [apply transient_lift|]. intros ?.
  apply transient_bind; [apply transient_reload|]. intros _. apply transient_mirror.
Qed.

(** A permanent failure of a refresh is recorded for the credentials still cached. *)
Lemma refresh_permanent_state s s' e :
  refresh_authority s = (s', Err (Permanent e)) →
  ∃ c, cached s' = Some c ∧ refresh_failure_for_auth c s' = Some e.
Proof.
  unfold refresh_token_from_authority, refresh_token_from_authority_impl.
  destruct (cached s) as [c|] eqn:Hc; [|done].
  destruct (refresh_failure_for_auth c s) as [e'|] eqn:Hf; [by intros [= <- ->]; exists c|].
  assert (∀ s1, cached s1 = Some c →
    record_permanent_refresh_failure_if_unchanged c e s1 = s' →
    ∃ c, cached s' = Some c ∧ refresh_failure_for_auth c s' = Some e) as Hrec.
  { intros s1 Hs1 <-. unfold record_permanent_refresh_failure_if_unchanged.
    rewrite Hs1, auths_equal_for_refresh_refl. exists c. split; [done|].
    unfold refresh_failure_for_auth. pose proof (auths_equal_for_refresh_refl (Some c)) as Hrefl.
    cbn [permanent_refresh_failure set_inner mbind option_bind fst snd]. by rewrite Hrefl. }
  destruct c as [k|a st|a|r]; [done| | |done].
  - destruct (tokens a) as [t|]; [|done].
    destruct (refresh_and_persist_chatgpt_token home env mode st (refresh_token t) s)
      as [s1 [?|[x|]|]] eqn:Hr; intros [= Hs' ?]; simplify_eq.
    apply refresh_persist_permanent in Hr as ->. by apply (Hrec (sent s)).
  - destruct (refresh_external_auth home env mode s) as [s1 [?|[x|]|]] eqn:Hr; intros [= ??]; simplify_eq.
    by apply refresh_external_not_permanent in Hr.
Qed.

(** After a refresh failed permanently, refreshing again fails with the
    same error without a request or any change, until different credentials
    are cached. *)
Theorem permanent_failure_latched s s' e :
  refresh_authority s = (s', Err (Permanent e)) →
  refresh_authority s' = (s', Err (Permanent e))
  ∧ ∀ b, auths_equal_for_refresh (cached s') b = false →
         permanent_refresh_failure (set_cached_auth b s').1 = None.
Proof.
  intros Hr. apply refresh_permanent_state in Hr as (c&Hc&Hf). split.
  - unfold refresh_token_from_authority, refresh_token_from_authority_impl. by rewrite Hc, Hf.
  - intros b Hb. unfold set_cached_auth. cbn [fst permanent_refresh_failure set_inner]. by rewrite Hb.
Qed.

(** ** Recovery is bounded *)

(** How many more steps can succeed. *)
Definition steps_left (st : UnauthorizedRecoveryStep) : nat :=
  match st with Reload => 2 | RefreshToken | ExternalRefresh => 1 | Done => 0 end.

(** Calls of [next] with whatever state the manager is in by then. *)
Fixpoint run_next (u : UnauthorizedRecovery) (states : list Mgr) : list bool :=
  match states with
  | [] => []
  | s :: states =>
      let '(_, u, r) := next home env mode u s in
      is_ok r :: run_next u states
  end.

Lemma next_step u s s' u' r :
  next home env mode u s = (s', u', r) →
  (if is_ok r then S (steps_left (step u')) else steps_left (step u')) ≤ steps_left (step u).
Proof.
  unfold next. intros Hn. destruct (has_next u s) eqn:Hnext; [simpl in Hn|by simplify_eq/=].
  assert (step u ≠ Done) as Hd.
  { intros Hd. unfold has_next in Hnext. rewrite Hd in Hnext. simpl in Hnext.
    repeat (case_match; simplify_eq/=). }
  destruct (step u) eqn:Hst; repeat (case_match; simplify_eq/=); rewrite ?Hst; simpl; lia.
Qed.

(** However the manager changes between calls, a recovery succeeds at
    most twice when it starts with a reload and at most once otherwise. *)
Theorem recovery_bounded u states :
  length (filter (λ b, b = true) (run_next u states)) ≤ steps_left (step u).
Proof.
  revert u. induction states as [|s states IH]; intros u; simpl; [lia|].
  destruct (next home env mode u s) as [[s' u'] r] eqn:Hn. apply next_step in Hn.
  specialize (IH u'). rewrite filter_cons. case_decide as Hr; simpl.
  - rewrite Hr in Hn. lia.
  - destruct (is_ok r); [done|lia].
Qed.
End Recovery.

(** ** Logout and login restrictions *)

Section Logout.
Context `{LawfulAuthSerde, !RegistrySerde, !Network}.
Variable home : str.
Variable mode : AuthCredentialsStoreMode.
Implicit Types (w : World) (s : Mgr) (a : AuthDotJson).

(** Every place where credentials of this mode can be is empty. *)
Definition cleared (m : AuthCredentialsStoreMode) w : Prop :=
  match m with
  | File => files w !! get_auth_file home = None
  | Keyring | Auto =>
      keyring w !! (KEYRING_SERVICE, compute_store_key home) = None
      ∧ files w !! get_auth_file home = None
  | Ephemeral => ephemeral w !! compute_store_key home = None
  end.

Lemma delete_clears m w :
  no_faults w →
  ∃ w' b, delete_auth (create_auth_storage home m) w = (w', Ok b) ∧ cleared m w' ∧ no_faults w'
    ∧ (m ≠ Ephemeral → ephemeral w' = ephemeral w).
Proof.
  intros [Hw Hk].
  assert (∃ w' b, delete_auth (KeyringAuthStorage home) w = (w', Ok b)
    ∧ keyring w' !! (KEYRING_SERVICE, compute_store_key home) = None
    ∧ files w' !! get_auth_file home = None ∧ no_faults w' ∧ ephemeral w' = ephemeral w) as Hkey.
  { simpl. unfold keyring_delete. run_io. rewrite Hk. simpl.
    destruct (delete_file_if_exists_returns home
      (set_keyring (delete (KEYRING_SERVICE, compute_store_key home) (keyring w)) w)) as [b Hb]; [done|].
    rewrite Hb. eexists _, _. split; [done|]. simpl. by rewrite !lookup_delete_eq. }
  destruct m; unfold create_auth_storage.
  - destruct (delete_file_if_exists_returns home w) as [b Hb]; [done|]. eexists _, _.
    split; [exact Hb|]. simpl. by rewrite lookup_delete_eq.
  - destruct Hkey as (w'&b&?&?&?&?&?). by exists w', b.
  - destruct Hkey as (w'&b&?&?&?&?&?). by exists w', b.
  - eexists _, _. split; [done|]. simpl. by rewrite lookup_delete_eq.
Qed.

Lemma cleared_load m w :
  no_faults w → cleared m w → load (create_auth_storage home m) w = (w, Ok None).
Proof.
  intros [Hw Hk] Hc. destruct (Hw (get_auth_file home)) as (Hr&_).
  assert (files w !! get_auth_file home = None → load (FileAuthStorage home) w = (w, Ok None)) as Hfile.
  { intros Hf. by rewrite file_load_spec, Hr, Hf. }
  assert (keyring w !! (KEYRING_SERVICE, compute_store_key home) = None →
    load (KeyringAuthStorage home) w = (w, Ok None)) as Hkey.
  { intros Hf. simpl. unfold load_from_keyring, keyring_load. run_io. rewrite Hk. simpl. by rewrite Hf. }
  destruct m; unfold create_auth_storage; simpl in Hc.
  - auto.
  - apply Hkey, Hc.
  - unfold AutoAuthStorage. cbn [load]. destruct Hc as [Hc1 Hc2].
    erewrite io_step by (by apply try_Ok, Hkey). auto.
  - simpl. by rewrite Hc.
Qed.

Lemma logout_all_clears w :
  no_faults w →
  ∃ w' b, logout_all_stores home mode w = (w', Ok b) ∧ cleared Ephemeral w' ∧ cleared mode w'
          ∧ no_faults w'.
Proof.
  intros Hw. unfold logout_all_stores, logout. case_bool_decide as Hm.
  - subst mode. destruct (delete_clears Ephemeral w Hw) as (w'&b&?&?&?&_). by exists w', b.
  - destruct (delete_clears Ephemeral w Hw) as (w1&b1&Hd1&Hc1&Hw1&_).
    destruct (delete_clears mode w1 Hw1) as (w2&b2&Hd2&Hc2&Hw2&He).
    erewrite io_step by exact Hd1. erewrite io_step by exact Hd2.
    eexists _, _. split; [done|]. split_and!; try done; [|apply Hw2..].
    simpl in *. by rewrite He.
Qed.

Lemma cleared_load_auth w :
  no_faults w → cleared Ephemeral w → cleared mode w → load_auth home false mode w = (w, Ok None).
Proof.
  intros Hw He Hc. unfold load_auth. erewrite io_step by done. cbv beta iota.
  erewrite io_step by (by apply cleared_load). cbv beta iota.
  case_bool_decide; [done|]. by erewrite io_step by (by apply cleared_load).
Qed.

(** On a working machine a logout empties every store, the cache, and
    nothing is loaded afterwards. *)
Theorem logout_forgets s :
  no_faults (world s) →
  ∃ s' b, logout_manager home false mode s = (s', Ok b) ∧ cached s' = None
          ∧ load_auth home false mode (world s') = (world s', Ok None).
Proof.
  intros Hw. destruct (logout_all_clears _ Hw) as (w'&b&Hl&He&Hc&Hw').
  pose proof (cleared_load_auth w' Hw' He Hc) as Hload.
  unfold logout_manager. erewrite io_step by (unfold lift; rewrite Hl; simpl; reflexivity).
  unfold reload_, reload, load_auth_from_storage. run_io. rewrite Hload.
  eexists _, _. by split_and!.
Qed.

(** ** The restrictions *)

(** The workspace the credentials belong to. *)
Definition belongs_to (workspace : str) (c : CodexAuth) : Prop :=
  match c with
  | AuthApiKey _ => True
  | AuthAgentIdentity r => agent_account_id r = workspace
  | AuthChatgpt a _ | AuthChatgptAuthTokens a =>
      ∃ t, tokens a = Some t ∧ is_Some (last_refresh a)
           ∧ chatgpt_account_id (id_token t) = Some workspace
  end.

Definition allowed (config : AuthConfig) (c : CodexAuth) : Prop :=
  match forced_login_method config with
  | Some ForceApi => codex_auth_mode c = ApiKey
  | Some ForceChatgpt => codex_auth_mode c ≠ ApiKey
  | None => True
  end
  ∧ ∀ workspace, config_forced_workspace_id config = Some workspace → belongs_to workspace c.

Lemma method_violation_allowed forced c :
  (m ← forced; method_violation m (codex_auth_mode c)) = None ↔
  match forced with
  | Some ForceApi => codex_auth_mode c = ApiKey
  | Some ForceChatgpt => codex_auth_mode c ≠ ApiKey
  | None => True
  end.
Proof. by destruct forced as [[]|], c. Qed.

Lemma workspace_of_belongs workspace c :
  match workspace_of c with
  | None => True
  | Some (inl _) => False
  | Some (inr actual) => actual = Some workspace
  end ↔ belongs_to workspace c.
Proof.
  destruct c as [k|a st|a|r]; simpl; [done| | |split; [by intros [=]|by intros ->]].
  all: unfold get_token_data; simpl; destruct (tokens a) as [t|], (last_refresh a) as [x|]; simpl;
    [split; [by exists t|by intros (?&[= <-]&_&?)]|split; [done|by intros (?&?&[]%is_Some_None&?)]
    |split; [done|by intros (?&?&?)]..].
Qed.

(** Enforcing login restrictions succeeds and changes nothing for
    credentials of the required kind and workspace, and for any others fails
    and leaves no stored credentials. *)
Theorem enforce_login_restrictions_sound w loaded_auth :
  let config m ws := {| config_codex_home := home; config_store_mode := mode;
                        forced_login_method := m; config_forced_workspace_id := ws |} in
  no_faults w → load_auth home true mode w = (w, Ok loaded_auth) →
  ∀ m ws w' r, enforce_login_restrictions (config m ws) w = (w', r) →
  match loaded_auth with
  | None => r = Ok () ∧ w' = w
  | Some c =>
      (allowed (config m ws) c → r = Ok () ∧ w' = w)
      ∧ (¬ allowed (config m ws) c →
         (∃ e, r = Err e) ∧ load_auth home false mode w' = (w', Ok None))
  end.
Proof.
  intros config Hw Hload m ws w' r. unfold enforce_login_restrictions.
  erewrite io_step by exact Hload. destruct loaded_auth as [c|]; [|by intros [= <- <-]].
  assert (∀ msg, logout_with_message home msg mode w = (w', r) →
    (∃ e, r = Err e) ∧ load_auth home false mode w' = (w', Ok None)) as Hlogout.
  { intros msg. destruct (logout_all_clears w Hw) as (w1&b&Hl&He&Hc&Hw1).
    unfold logout_with_message. erewrite io_step by (by apply try_Ok). intros [= <- <-].
    split; [by eexists|by apply cleared_load_auth]. }
  unfold allowed. simpl. pose proof (method_violation_allowed m c) as Hm. intros Hrun.
  cbn [forced_login_method config_forced_workspace_id config] in Hrun.
  destruct (m ≫= _) as [msg|].
  { split; [intros [Hok _]; by apply Hm in Hok|intros _; by eapply Hlogout]. }
  destruct Hm as [Hm _]. specialize (Hm eq_refl).
  destruct ws as [ws|]; [|injection Hrun as <- <-; split; [done|intros []; by split]].
  pose proof (workspace_of_belongs ws c) as Hws.
  destruct (workspace_of c) as [[msg|actual]|].
  - split; [|intros _; by eapply Hlogout]. intros [_ Hb]. exfalso. apply Hws. by apply Hb.
  - case_bool_decide as Heq.
    + injection Hrun as <- <-. split; [done|]. intros []. split; [done|]. by intros ? [= <-]; apply Hws.
    + split; [|intros _; by eapply Hlogout]. intros [_ Hb]. specialize (Hb ws eq_refl). by apply Hws in Hb.
  - injection Hrun as <- <-. split; [done|]. intros []. split; [done|]. by intros ? [= <-]; apply Hws.
Qed.
End Logout.

(** ** A refresh after another process has signed in *)

Section Mixing.
Context `{LawfulAuthSerde, !RegistrySerde, !Network}.
Variable home : str.
Implicit Types (w : World) (s : Mgr) (a b : AuthDotJson).

(** The mirror leaves [auth.json] and the cache alone. *)
Lemma mirror_cached {E} s :
  ∃ w, mirror_active_auth_into_registry (E:=E) home s = (set_world w s, Ok ()).
Proof.
  unfold mirror_active_auth_into_registry.
  assert (set_world (world s) s = s) as Hs by by destruct s.
  destruct (cached s ≫= get_current_auth_json); [|by exists (world s); rewrite Hs].
  case_bool_decide; [by exists (world s); rewrite Hs|].
  destruct (update_saved_chatgpt_account_if_exists _ _ _) as [w' ?]. by exists w'.
Qed.

Lemma file_load_auth w a :
  ephemeral w !! compute_store_key home = None →
  load (FileAuthStorage home) w = (w, Ok (Some a)) → resolved_mode a = Chatgpt →
  load_auth home false File w = (w, Ok (Some (AuthChatgpt a (home, File)))).
Proof.
  intros He Hl Hm. unfold load_auth. erewrite io_step by done. cbv beta iota.
  assert (load (create_auth_storage home Ephemeral) w = (w, Ok None)) as Heph by (simpl; by rewrite He).
  erewrite io_step by exact Heph. cbv beta iota. rewrite bool_decide_eq_false_2 by done.
  erewrite io_step by exact Hl. unfold pure_result, from_auth_dot_json, storage_mode. run_io.
  by rewrite Hm.
Qed.

(** The unguarded refresh used by the recovery writes the tokens
    refreshed for the cached account into whatever record is stored by then:
    after another process has signed in as b, the new access token ends up
    under b's account id. *)
Theorem refresh_mixes_accounts s a ta b tb body r t :
  files_work (world s) → ephemeral (world s) !! compute_store_key home = None →
  permanent_refresh_failure s = None →
  cached s = Some (AuthChatgpt a (home, File)) → tokens a = Some ta →
  load (FileAuthStorage home) (world s) = (world s, Ok (Some b)) →
  resolved_mode b = Chatgpt → tokens b = Some tb → auth_consistent b →
  post_refresh (requests s) (refresh_token ta) = Response 200 body →
  refresh_response_from_json body = inr r → new_id_token r = None → new_access_token r = Some t →
  ∃ s' b', refresh_token_from_authority home false File s = (s', Ok ())
    ∧ cached s' = Some (AuthChatgpt b' (home, File))
    ∧ account_id <$> tokens b' = Some (account_id tb)
    ∧ access_token <$> tokens b' = Some t.
Proof.
  intros Hw He Hpf Hc Hta Hl Hm Htb Hb Hpost Hr Hid Hac.
  set (b' := {| auth_mode := auth_mode b; openai_api_key := openai_api_key b;
    tokens := Some {| id_token := id_token tb; access_token := t;
      refresh_token := default (refresh_token tb) (new_refresh_token r); account_id := account_id tb |};
    last_refresh := Some (now (world s)); agent_identity := agent_identity b |}).
  assert (auth_consistent b') as Hb'.
  { intros x [= <-]. unfold id_token_consistent. simpl. by apply (Hb tb). }
  destruct (file_save_load home (world s) b' Hw Hb') as (w'&Hs&Hl'&_&He'&_).
  assert (persist_tokens (FileAuthStorage home) None (Some t) (new_refresh_token r) (world s)
    = (w', Ok b')) as Hpersist.
  { unfold persist_tokens. erewrite io_step by exact Hl. cbv beta iota. rewrite Htb.
    erewrite io_step by done. erewrite io_step by done. by erewrite io_step by exact Hs. }
  assert (refresh_and_persist_chatgpt_token home false File (home, File) (refresh_token ta) s
    = mirror_active_auth_into_registry home (reload home false File (set_world w' (sent s))).1) as Hrun.
  { assert (request_chatgpt_token_refresh (refresh_token ta) s = (sent s, Ok r)) as Hreq.
    { unfold request_chatgpt_token_refresh, gets. run_io. rewrite Hpost. simpl. by rewrite Hr. }
    unfold refresh_and_persist_chatgpt_token. erewrite io_step by exact Hreq.
    erewrite io_step by (unfold lift; rewrite Hid, Hac; simpl create_auth_storage; simpl world;
      rewrite Hpersist; reflexivity).
    by erewrite io_step by done. }
  assert (load_auth home false File w' = (w', Ok (Some (AuthChatgpt b' (home, File))))) as Hload.
  { apply file_load_auth; [by rewrite He'|done|done]. }
  destruct (mirror_cached (E:=RefreshTokenError) (reload home false File (set_world w' (sent s))).1) as [w2 Hmir].
  rewrite Hmir in Hrun. eexists _, b'. split_and!.
  - unfold refresh_token_from_authority, refresh_token_from_authority_impl, refresh_failure_for_auth.
    rewrite Hc, Hpf. simpl. rewrite Hta, Hrun. done.
  - simpl. unfold reload, load_auth_from_storage. simpl. by rewrite Hload.
  - done.
  - done.
Qed.
End Mixing.
