(* ===== verification/SamplingLoop.v ===== *)
(** * The sampling loop of a turn

    Models [run_sampling_request] of [core/src/session/turn.rs]: one request
    after another until one succeeds, with retries, the fallback from
    WebSockets to HTTPS, and the rotation between saved accounts when a usage
    limit is hit.  The outcome of the [n]-th request
    ([try_run_sampling_request], which may itself refresh the credentials) is a
    parameter, as are the texts of errors. *)
From S2P Require Import Prelude Str Io TokenData AuthStorage AccountRegistry AccountRegistryFacts AuthManager AuthManagerFacts.
Import TokenData AuthStorage AccountRegistry AuthManager.

Module SamplingLoop.

(** [CodexErr] of [protocol/src/error.rs]; payloads that this code does not look
    at are left out. *)
Inductive CodexErr : Type :=
| TurnAborted | Stream (m : str) (requested_delay : option Z) | ContextWindowExceeded
| ThreadNotFound | AgentLimitReached | SessionConfiguredNotFirstEvent | Timeout | Spawn
| Interrupted | UnexpectedStatus | InvalidRequest (m : str) | InvalidImageRequest
| UsageLimitReached (has_rate_limits : bool) | ServerOverloaded | CyberPolicy
| ResponseStreamFailed | ConnectionFailed | QuotaExceeded | UsageNotIncluded
| InternalServerError | RetryLimit | InternalAgentDied | Sandbox
| LandlockSandboxExecutableNotProvided | UnsupportedOperation (m : str)
| RefreshTokenFailed (e : RefreshTokenFailedError) | Fatal (m : str) | IoErr | JsonErr
| LandlockRuleset | LandlockPathFd | TokioJoin | EnvVar.

#[export] Instance CodexErr_eq_dec : EqDecision CodexErr.
Proof. solve_decision. Defined.

Definition is_retryable (e : CodexErr) : bool :=
  match e with
  | TurnAborted | Interrupted | EnvVar | Fatal _ | UsageNotIncluded | QuotaExceeded
  | InvalidImageRequest | InvalidRequest _ | RefreshTokenFailed _ | UnsupportedOperation _
  | Sandbox | LandlockSandboxExecutableNotProvided | RetryLimit | ContextWindowExceeded
  | ThreadNotFound | AgentLimitReached | Spawn | SessionConfiguredNotFirstEvent
  | UsageLimitReached _ | ServerOverloaded | CyberPolicy => false
  | Stream _ _ | Timeout | UnexpectedStatus | ResponseStreamFailed | ConnectionFailed
  | InternalServerError | InternalAgentDied | IoErr | JsonErr | TokioJoin => true
  | LandlockRuleset | LandlockPathFd => false
  end.

Definition is_usage_limit (e : CodexErr) : bool :=
  match e with UsageLimitReached _ => true | _ => false end.

(** What the loop tells the user and the clock. *)
Inductive event : Type :=
| TotalTokensFull
| RateLimitsUpdated
| Warning (m : str)
| StreamError (m : str)
| Slept (attempt : nat) (requested : option Z).

Record Loop : Type := {
  mgr : Mgr;
  retries : nat;
  exhausted_usage_limit_account_ids : gset str;
  websockets : bool;
  attempts : nat;
  events : list event;
}.

Section Sampling.
Context `{JwtCodec, AuthSerde, RegistrySerde, Network}.
Context {Output : Type}.
(** The manager's configuration and the session's, which has its own copy of
    the home directory and the store mode. *)
Variables (home : str) (env : bool) (mode : AuthCredentialsStoreMode).
Variables (session_home : str) (session_mode : AuthCredentialsStoreMode).
Variables (stream_max_retries : nat) (debug_assertions : bool).
Variable err_to_string : CodexErr → str.
Variable try_run_sampling_request : nat → Mgr → Mgr * (CodexErr + Output).

Definition emit (es : list event) (l : Loop) : Loop :=
  {| mgr := mgr l; retries := retries l;
     exhausted_usage_limit_account_ids := exhausted_usage_limit_account_ids l;
     websockets := websockets l; attempts := attempts l; events := events l ++ es |}.
Definition set_mgr (s : Mgr) (l : Loop) : Loop :=
  {| mgr := s; retries := retries l;
     exhausted_usage_limit_account_ids := exhausted_usage_limit_account_ids l;
     websockets := websockets l; attempts := attempts l; events := events l |}.
Definition set_retries (n : nat) (l : Loop) : Loop :=
  {| mgr := mgr l; retries := n;
     exhausted_usage_limit_account_ids := exhausted_usage_limit_account_ids l;
     websockets := websockets l; attempts := attempts l; events := events l |}.
Definition set_exhausted (ids : gset str) (l : Loop) : Loop :=
  {| mgr := mgr l; retries := retries l; exhausted_usage_limit_account_ids := ids;
     websockets := websockets l; attempts := attempts l; events := events l |}.
Definition use_http (l : Loop) : Loop :=
  {| mgr := mgr l; retries := retries l;
     exhausted_usage_limit_account_ids := exhausted_usage_limit_account_ids l;
     websockets := false; attempts := attempts l; events := events l |}.
Definition attempted (l : Loop) : Loop :=
  {| mgr := mgr l; retries := retries l;
     exhausted_usage_limit_account_ids := exhausted_usage_limit_account_ids l;
     websockets := websockets l; attempts := S (attempts l); events := events l |}.

(** A turn of the loop ends with a result or goes on. *)
Inductive turn : Type :=
| Return (l : Loop) (r : CodexErr + Output)
| Continue (l : Loop).

(** The arm for [UsageLimitReached]. *)
Definition on_usage_limit (has_rate_limits : bool) (l : Loop) : turn :=
  let l := if has_rate_limits then emit [RateLimitsUpdated] l else l in
  let surface l := Return l (inl (UsageLimitReached has_rate_limits)) in
  let active := cached (mgr l) in
  if from_option is_chatgpt_auth false active then
    let l :=
      match active ≫= get_account_id with
      | Some hit_id => set_exhausted ({[hit_id]} ∪ exhausted_usage_limit_account_ids l) l
      | None => l
      end in
    match rotate_to_next home env mode session_home session_mode
            (exhausted_usage_limit_account_ids l) (mgr l) with
    | (s, Ok (Some next)) =>
        Continue (set_retries 0 (emit
          [Warning (lit "Usage limit hit on this account; switched to " ++ label next
                    ++ lit " and retrying.")] (set_mgr s l)))
    | (s, _) => surface (set_mgr s l)
    end
  else surface l.

(** What happens after any other error. *)
Definition on_error (err : CodexErr) (l : Loop) : turn :=
  if negb (is_retryable err) then Return l (inl err)
  else
    let max_retries := stream_max_retries in
    if max_retries <=? retries l then
      (* [try_switch_fallback_transport] *)
      if websockets l then
        Continue (set_retries 0 (emit
          [Warning (lit "Falling back from WebSockets to HTTPS transport. " ++ err_to_string err)]
          (use_http l)))
      else Return l (inl err)
    else
      let retries := S (retries l) in
      let requested := match err with Stream _ d => d | _ => None end in
      let report_error := (1 <? retries) || debug_assertions || negb (websockets l) in
      Continue (emit
        ((if report_error
          then [StreamError (lit "Reconnecting... " ++ show_nat retries ++ lit "/" ++ show_nat max_retries)]
          else []) ++ [Slept retries requested])
        (set_retries retries l)).

Definition loop_body (l : Loop) : turn :=
  let '(s, outcome) := try_run_sampling_request (attempts l) (mgr l) in
  let l := attempted (set_mgr s l) in
  match outcome with
  | inr output => Return l (inr output)
  | inl ContextWindowExceeded => Return (emit [TotalTokensFull] l) (inl ContextWindowExceeded)
  | inl (UsageLimitReached has_rate_limits) => on_usage_limit has_rate_limits l
  | inl err => on_error err l
  end.

(** [loop], for at most [fuel] turns. *)
Fixpoint run_loop (fuel : nat) (l : Loop) : option (Loop * (CodexErr + Output)) :=
  match fuel with
  | 0 => None
  | S fuel =>
      match loop_body l with
      | Return l r => Some (l, r)
      | Continue l => run_loop fuel l
      end
  end.

Definition run_sampling_request (fuel : nat) (s : Mgr) (websockets_enabled : bool)
    : option (Loop * (CodexErr + Output)) :=
  run_loop fuel
    {| mgr := s; retries := 0; exhausted_usage_limit_account_ids := ∅;
       websockets := websockets_enabled; attempts := 0; events := [] |}.

(** ** Without usage limits the loop ends *)

Definition turns_left (l : Loop) : nat :=
  (if websockets l then S stream_max_retries else 0) + (stream_max_retries - retries l).

Lemma on_error_turn err l :
  retries l ≤ stream_max_retries →
  match on_error err l with
  | Return _ _ => True
  | Continue l' => turns_left l' < turns_left l ∧ retries l' ≤ stream_max_retries
  end.
Proof.
  intros Hl. unfold on_error, turns_left. destruct (is_retryable err); [cbn [negb]|done].
  destruct (stream_max_retries <=? retries l) eqn:Hm; bool_to_prop.
  - destruct (websockets l) eqn:Hws; [|done].
    cbn [websockets retries set_retries emit use_http]. lia.
  - cbn [websockets retries set_retries emit]. destruct (websockets l); lia.
Qed.

Lemma run_loop_returns fuel l :
  (∀ n s e, (try_run_sampling_request n s).2 = inl e → is_usage_limit e = false) →
  retries l ≤ stream_max_retries → turns_left l < fuel → is_Some (run_loop fuel l).
Proof.
  intros Hnl. revert l. induction fuel as [|fuel IH]; intros l Hl Hf; [lia|]. simpl.
  unfold loop_body. specialize (Hnl (attempts l) (mgr l)).
  destruct (try_run_sampling_request (attempts l) (mgr l)) as [s [err|out]]; [|done].
  specialize (Hnl err eq_refl). pose proof (on_error_turn err (attempted (set_mgr s l)) Hl) as Hstep.
  assert (∀ l', turns_left l' < turns_left (attempted (set_mgr s l)) ∧ retries l' ≤ stream_max_retries →
    is_Some (run_loop fuel l')) as Hgo.
  { intros l' [Hlt Hr]. apply IH; [done|]. unfold turns_left in *.
    cbn [websockets retries attempted set_mgr] in *. lia. }
  destruct err; try done; destruct (on_error _ _); eauto.
Qed.

(** When no request hits a usage limit the loop returns within twice one
    more than the retry budget of requests, whatever the requests answer. *)
Theorem sampling_ends_without_usage_limits s ws :
  (∀ n s e, (try_run_sampling_request n s).2 = inl e → is_usage_limit e = false) →
  is_Some (run_sampling_request (2 * S stream_max_retries) s ws).
Proof.
  intros Hnl. apply run_loop_returns; [done|simpl; lia|].
  unfold turns_left. simpl. destruct ws; lia.
Qed.
End Sampling.

(** ** With usage limits it may not *)

Section Bounce.
Context `{LawfulAuthSerde, !RegistrySerde, !LawfulRegistrySerde, !LawfulReaders, !Network}.
Context {Output : Type}.
Variables (home : str) (mode : AuthCredentialsStoreMode).
Variables (stream_max_retries : nat) (debug_assertions : bool) (err_to_string : CodexErr → str).
Variable try_run_sampling_request : nat → Mgr → Mgr * (CodexErr + Output).
Hypothesis managed : mode ≠ Ephemeral.

Abbreviation body := (loop_body home false mode home mode stream_max_retries debug_assertions
  err_to_string try_run_sampling_request).

(** Credentials of a workspace, whose bare id is no registry id. *)
Definition workspace_login (ids : list str) (a : AuthDotJson) : Prop :=
  resolved_mode a = Chatgpt ∧ ∃ raw, tokens a ≫= account_id = Some raw ∧ raw ∉ ids.

(** One of the saved accounts is active, and no registry id counts as exhausted. *)
Definition bouncing (ids : list str) (l : Loop) : Prop :=
  ∃ accounts e, ready home mode (mgr l) accounts ∧ id <$> accounts = ids ∧ e ∈ accounts
    ∧ Forall (λ e, workspace_login ids (auth e)) accounts
    ∧ cached (mgr l) = Some (AuthChatgpt (auth e) (home, mode))
    ∧ load (create_auth_storage home mode) (world (mgr l)) = (world (mgr l), Ok (Some (auth e)))
    ∧ ∀ key, key ∈ ids → key ∉ exhausted_usage_limit_account_ids l.

Lemma view_elem accounts e : NoDup (id <$> accounts) → e ∈ accounts ↔ view accounts !! id e = Some e.
Proof.
  intros Hn. unfold view. rewrite <-elem_of_list_to_map by by rewrite <-list_fmap_compose.
  rewrite list_elem_of_fmap. split; [by exists e|by intros (?&[= _ ->]&?)].
Qed.

(** Mirroring only writes the cached credentials. *)
Lemma mirrored_auth s l l' e a :
  NoDup (id <$> l) → NoDup (id <$> l') → view l' = mirrored s l →
  cached s ≫= get_current_auth_json = Some a → e ∈ l' →
  auth e = a ∨ ∃ e0, e0 ∈ l ∧ auth e0 = auth e.
Proof.
  intros Hn Hn' Hv Ha He. apply view_elem in He; [|done]. rewrite Hv in He.
  unfold mirrored in He. rewrite Ha in He. simpl in He.
  assert (∀ e0 key, view l !! key = Some e0 → e0 ∈ l) as Hin.
  { intros e0 key. rewrite <-find_id_view. by intros [? _]%find_id_Some. }
  destruct (registry_key a) as [key|]; simpl in He; [|by right; exists e; eauto].
  destruct (decide (key = id e)) as [Hk|Hk].
  - subst key. rewrite lookup_alter_eq in He. apply fmap_Some in He as (e0&_&He). left. by rewrite He.
  - rewrite lookup_alter_ne in He by done. by right; exists e; eauto.
Qed.

Lemma workspace_loaded ids a :
  workspace_login ids a → loaded home mode a = Some (AuthChatgpt a (home, mode)).
Proof. intros [Hm _]. unfold loaded, from_auth_dot_json, storage_mode. by rewrite Hm. Qed.

Lemma bouncing_rotates ids hrl l :
  (∃ k1 k2, k1 ∈ ids ∧ k2 ∈ ids ∧ k1 ≠ k2) → bouncing ids l →
  ∃ l', on_usage_limit (Output:=Output) home false mode home mode hrl l = Continue l' ∧ bouncing ids l'.
Proof.
  intros (k1&k2&Hk1&Hk2&Hne) (accounts&e&Hready&Hids&He&Hall&Hc&Hload&Hex).
  assert (∃ raw, get_account_id (AuthChatgpt (auth e) (home, mode)) = Some raw ∧ raw ∉ ids) as (raw&Hraw&Hfresh).
  { eapply Forall_forall in Hall as [_ Hraw]; [exact Hraw|done]. }
  unfold on_usage_limit. set (l0 := if hrl then emit [RateLimitsUpdated] l else l).
  assert (mgr l0 = mgr l ∧ exhausted_usage_limit_account_ids l0 = exhausted_usage_limit_account_ids l)
    as [Hm0 He0] by (unfold l0; by destruct hrl).
  rewrite Hm0, Hc. cbn [from_option is_chatgpt_auth]. cbn [mbind option_bind]. rewrite Hraw.
  cbn [exhausted_usage_limit_account_ids mgr set_exhausted]. rewrite Hm0, He0.
  set (ex := {[raw]} ∪ exhausted_usage_limit_account_ids l).
  assert (∀ key, key ∈ ids → key ∉ ex) as Hex' by (unfold ex; set_solver).
  destruct (rotate_picks_next home false mode managed (mgr l) accounts ex (Some (auth e)))
    as (s'&accounts'&Hrun&Hready'&Hids'&Hview&Hfind); [done..|].
  rewrite Hrun. clear Hrun.
  destruct (List.find _ accounts') as [e'|] eqn:Hf.
  - destruct Hfind as (Hc'&Hload'&_). apply find_some in Hf as [Hin%list_elem_of_In _].
    assert (Forall (λ e, workspace_login ids (auth e)) accounts') as Hall'.
    { apply Forall_forall. intros x Hx.
      pose proof (mirrored_auth (mgr l) accounts accounts' x (auth e)) as Hmir.
      destruct Hmir as [->|(x0&Hx0&<-)]; [apply Hready|apply Hready'|done|by rewrite Hc|done|..];
        (eapply Forall_forall in Hall; [exact Hall|done]). }
    eexists; split; [done|]. exists accounts', e'.
    split_and!; try done; [by rewrite Hids', Hids|].
    cbn [mgr set_retries emit set_mgr]. rewrite Hc'. eapply workspace_loaded.
    by eapply Forall_forall in Hall'.
  - destruct Hfind as [_ Hnone]. rewrite Hids in Hnone.
    destruct (Hnone k1 Hk1) as [?|Hc1]; [by apply Hex' in Hk1|].
    destruct (Hnone k2 Hk2) as [?|Hc2]; [by apply Hex' in Hk2|]. congruence.
Qed.

(** C36. With two or more saved workspace accounts that all hit their usage
    limit, the sampling loop never returns: the exhausted set records bare
    account ids, rotation compares registry ids, so the loop switches between
    the accounts for ever. *)
Theorem usage_limit_bounces ids hrl l :
  (∀ n s, try_run_sampling_request n s = (s, inl (UsageLimitReached hrl))) →
  (∃ k1 k2, k1 ∈ ids ∧ k2 ∈ ids ∧ k1 ≠ k2) → bouncing ids l →
  ∀ fuel, run_loop home false mode home mode stream_max_retries debug_assertions err_to_string
            try_run_sampling_request fuel l = None.
Proof.
  intros Hlimit Htwo Hl fuel. revert l Hl. induction fuel as [|fuel IH]; intros l Hl; [done|].
  cbn [run_loop]. unfold loop_body. rewrite Hlimit.
  destruct (bouncing_rotates ids hrl (attempted (set_mgr (mgr l) l)) Htwo) as (l'&->&Hl'); [|by apply IH].
  destruct Hl as (accounts&e&?&?&?&?&?&?&?). by exists accounts, e.
Qed.
End Bounce.
End SamplingLoop.
