(* ===== verification/AuthWitness.v ===== *)
(** * A concrete machine for the authentication components

    Text formats that satisfy the laws assumed of serde_json and of the token
    decoder, a network that refuses refreshes, and a home directory with two
    saved accounts: the theorems about accounts and credentials hold of it. *)
From S2P Require Import Prelude Str Io TokenData AuthStorage AccountRegistry AccountRegistryFacts AuthManager AuthManagerFacts AuthRecovery SamplingLoop.
Import TokenData AuthStorage AccountRegistry AuthManager SamplingLoop.

(** ** Formats *)

(** The payload of a token names the account. *)
#[export] Instance sample_jwt : JwtCodec := {
  decode_id_claims p := inr {| claim_email := Some p; claim_profile_email := None;
    claim_auth := Some {| claim_plan_type := None; claim_chatgpt_user_id := None; claim_user_id := None;
                          claim_account_id := Some p; claim_is_fedramp := false |} |};
  decode_exp_claim _ := inr None;
  from_timestamp z := Some z;
}.

Definition mode_code (m : AuthMode) : N :=
  match m with ApiKey => 0 | Chatgpt => 1 | ChatgptAuthTokens => 2 | AgentIdentity => 3 end.
Definition mode_decode (n : N) : AuthMode :=
  match n with 0%N => ApiKey | 1%N => Chatgpt | 2%N => ChatgptAuthTokens | _ => AgentIdentity end.

(** The fields that are written: an id token is written as its JWT. *)
Definition wire : Type :=
  option N * option str * option (str * str * str * option str) * option Z
  * option (str * str * str * str * str * str * bool).

Definition to_wire (a : AuthDotJson) : wire :=
  (mode_code <$> auth_mode a, openai_api_key a,
   (λ t, (raw_jwt (id_token t), access_token t, refresh_token t, account_id t)) <$> tokens a,
   last_refresh a,
   (λ r, (agent_runtime_id r, agent_private_key r, agent_account_id r, agent_chatgpt_user_id r,
          agent_email r, agent_plan_type r, agent_is_fedramp r)) <$> agent_identity a).

Definition tokens_of_wire (t : option (str * str * str * option str)) : option (option TokenData) :=
  match t with
  | None => Some None
  | Some (jwt, ac, rt, i) =>
      match parse_chatgpt_jwt_claims jwt with
      | Ok id => Some (Some {| id_token := id; access_token := ac; refresh_token := rt; account_id := i |})
      | _ => None
      end
  end.

Definition of_wire (x : wire) : option AuthDotJson :=
  let '(m, k, t, lr, r) := x in
  t ← tokens_of_wire t;
  Some {| auth_mode := mode_decode <$> m; openai_api_key := k; tokens := t; last_refresh := lr;
          agent_identity := (λ '(a, b, c, d, e, f, g),
            {| agent_runtime_id := a; agent_private_key := b; agent_account_id := c;
               agent_chatgpt_user_id := d; agent_email := e; agent_plan_type := f;
               agent_is_fedramp := g |}) <$> r |}.

Lemma of_to_wire a : auth_consistent a → of_wire (to_wire a) = Some a.
Proof.
  intros Ha. unfold of_wire, to_wire. destruct a as [m k t lr r]; simpl in *.
  assert (mode_decode <$> (mode_code <$> m) = m) as -> by (by destruct m as [[]|]).
  destruct t as [t|]; simpl.
  - specialize (Ha t eq_refl). unfold id_token_consistent in Ha. rewrite Ha. simpl.
    destruct t; simpl. by destruct r as [[]|].
  - by destruct r as [[]|].
Qed.

Lemma of_wire_consistent x a : of_wire x = Some a → auth_consistent a.
Proof.
  unfold of_wire. destruct x as [[[[m k] t] lr] r]. unfold tokens_of_wire.
  intros Hx t' Ht'. destruct t as [[[[jwt ac] rt] i]|]; simpl in Hx; simplify_eq/=; try done.
  destruct (parse_chatgpt_jwt_claims jwt) as [id| |] eqn:Hp; simplify_eq/=.
  unfold id_token_consistent. simpl. by rewrite (parse_chatgpt_jwt_claims_raw _ _ Hp).
Qed.

Definition text_of {A} `{Countable A} (a : A) : str := [Npos (encode a)].
Definition of_text {A} `{Countable A} (t : str) : option A :=
  match t with [Npos p] => decode p | _ => None end.

Definition bad_text : io_error := {| kind := InvalidData; message := lit "expected value" |}.

#[export] Instance sample_auth_serde : AuthSerde := {
  auth_to_json a := text_of (to_wire a);
  auth_from_json t := match of_text t ≫= of_wire with Some a => inr a | None => inl bad_text end;
  store_key home := home;
}.

#[export] Instance sample_auth_lawful : LawfulAuthSerde.
Proof.
  split.
  - intros a Ha. cbn [auth_to_json auth_from_json sample_auth_serde]. unfold of_text, text_of.
    rewrite decode_encode. cbn [mbind option_bind]. by rewrite of_to_wire.
  - intros t e. cbn [auth_from_json sample_auth_serde]. case_match; [done|]. by intros [= <-].
Qed.

Definition entry_wire : Type := str * str * option str * option str * Z * wire.
Definition to_entry (e : SavedChatgptAccount) : entry_wire :=
  (id e, label e, saved_account_id e, saved_email e, added_at e, to_wire (auth e)).
Definition of_entry (x : entry_wire) : option SavedChatgptAccount :=
  let '(i, l, a, e, t, x) := x in
  auth ← of_wire x;
  Some {| id := i; label := l; saved_account_id := a; saved_email := e; added_at := t; auth := auth |}.

#[export] Instance sample_registry_serde : RegistrySerde := {
  accounts_to_json f := text_of (version f, to_entry <$> accounts f);
  accounts_from_json t :=
    match of_text t with
    | Some (v, l) =>
        match mapM of_entry l with
        | Some l => inr {| version := v; accounts := l |}
        | None => inl (lit "expected value")
        end
    | None => inl (lit "expected value")
    end;
  to_lowercase := to_ascii_lowercase;
}.

#[export] Instance sample_registry_lawful : LawfulRegistrySerde.
Proof.
  split. intros [v l] Hf. cbn [accounts_to_json accounts_from_json sample_registry_serde accounts version] in *.
  unfold of_text, text_of. rewrite decode_encode.
  assert (mapM of_entry (to_entry <$> l) = Some l) as ->; [|done].
  apply mapM_Some. apply Forall2_fmap_l, Forall_Forall2_diag.
  eapply Forall_impl; [exact Hf|]. intros [i l0 a e t au] He. unfold of_entry, to_entry.
  unfold compose. cbn [id label saved_account_id saved_email added_at auth] in *. by rewrite of_to_wire.
Qed.

#[export] Instance sample_readers : LawfulReaders.
Proof.
  split.
  - intros t a. cbn [auth_from_json sample_auth_serde]. destruct (of_text t ≫= of_wire) as [a'|] eqn:Ht; [|done]. intros [= ->].
    destruct (of_text t) as [x|]; [|done]. by eapply of_wire_consistent.
  - intros t f. cbn [accounts_from_json sample_registry_serde]. destruct (of_text t) as [[v l]|]; [|done].
    destruct (mapM of_entry l) as [l'|] eqn:Hl; [|done]. intros [= <-]. simpl.
    apply mapM_Some in Hl. induction Hl as [|x e l l' Hx _ IH]; constructor; [|done].
    destruct x as [[[[[? ?] ?] ?] ?] x]. unfold of_entry in Hx.
    destruct (of_wire x) as [a|] eqn:Ha; simplify_eq/=. by eapply of_wire_consistent.
Qed.

(** ** A home directory with two accounts *)

(** The first refresh succeeds, every later one is refused. *)
#[export] Instance sample_network : Network := {
  post_refresh n _ := if n =? 0 then Response 200 [] else Response 401 (lit "{}");
  refresh_response_from_json _ :=
    inr {| new_id_token := None; new_access_token := Some (lit "fresh"); new_refresh_token := None |};
  value_from_json _ := None;
  status_to_string _ := [];
  debug_str s := s;
}.

Definition sample_home : str := lit "/h".
Definition sample_jwt_of (name : str) : str := lit "h." ++ name ++ lit ".s".
Definition sample_tokens (name : str) : TokenData := {|
  id_token := {| email := Some name; chatgpt_plan_type := None; chatgpt_user_id := None;
                 chatgpt_account_id := Some name; chatgpt_account_is_fedramp := false;
                 raw_jwt := sample_jwt_of name |};
  access_token := lit "t"; refresh_token := lit "r"; account_id := Some name |}.
Definition sample_login (name : str) : AuthDotJson := {|
  auth_mode := Some Chatgpt; openai_api_key := None; tokens := Some (sample_tokens name);
  last_refresh := Some 0%Z; agent_identity := None |}.
Definition sample_entry (name : str) : SavedChatgptAccount :=
  entry_of (lit "account:" ++ name) (sample_login name) 0.

Definition name_a : str := lit "a".
Definition name_b : str := lit "b".
Definition key_a : str := lit "account:a".
Definition key_b : str := lit "account:b".
Definition sample_accounts : list SavedChatgptAccount := [sample_entry name_a; sample_entry name_b].

Definition no_fault : Faults := {|
  read_fault _ := None; write_fault _ := None; parent_fault _ := None; remove_fault _ := None;
  keyring_fault := None |}.

(** The credentials of [name] are stored. *)
Definition sample_world (name : str) : World := {|
  files := <[get_auth_file sample_home := auth_to_json (sample_login name)]>
    (<[accounts_file sample_home :=
       accounts_to_json {| version := 1; accounts := sample_accounts |}]> ∅);
  keyring := ∅; ephemeral := ∅; codex_api_key_env := None; now := 5; faults := no_fault |}.

(** A manager that runs as [a] while the credentials of [name] are stored. *)
Definition sample_mgr (name : str) : Mgr := {|
  world := sample_world name;
  cached := Some (AuthChatgpt (sample_login name_a) (sample_home, File));
  permanent_refresh_failure := None; forced_chatgpt_workspace_id := None;
  external_auth := None; requests := 0 |}.

Lemma sample_login_consistent name :
  split_on DOT (sample_jwt_of name) = [lit "h"; name; lit "s"] → name ≠ [] →
  auth_consistent (sample_login name).
Proof.
  intros Hs Hn t [= <-]. unfold id_token_consistent. cbn [id_token raw_jwt sample_tokens].
  unfold parse_chatgpt_jwt_claims, decode_jwt_payload. rewrite Hs.
  rewrite (bool_decide_eq_true_2 (name ≠ [])) by done. done.
Qed.

Lemma sample_a_consistent : auth_consistent (sample_login name_a).
Proof. by apply sample_login_consistent. Qed.
Lemma sample_b_consistent : auth_consistent (sample_login name_b).
Proof. by apply sample_login_consistent. Qed.

Lemma sample_files_work name : files_work (sample_world name).
Proof. by intros p. Qed.

Lemma sample_registry name : registry sample_home (sample_world name) = Some sample_accounts.
Proof.
  unfold registry, sample_world. cbn [files]. rewrite lookup_insert_ne by done.
  rewrite lookup_insert_eq. rewrite accounts_from_to; [done|].
  repeat constructor; [apply sample_a_consistent|apply sample_b_consistent].
Qed.

Lemma sample_wf : wf_registry sample_accounts.
Proof.
  split; [by apply (bool_decide_unpack (NoDup (id <$> sample_accounts)))|].
  repeat constructor; [apply sample_a_consistent|apply sample_b_consistent].
Qed.

Lemma sample_load_a :
  load (FileAuthStorage sample_home) (sample_world name_a)
  = (sample_world name_a, Ok (Some (sample_login name_a))).
Proof.
  rewrite file_load_spec. unfold sample_world at 3. cbn [files]. rewrite lookup_insert_eq.
  rewrite auth_from_to by apply sample_a_consistent. done.
Qed.

Lemma sample_load_b :
  load (FileAuthStorage sample_home) (sample_world name_b)
  = (sample_world name_b, Ok (Some (sample_login name_b))).
Proof.
  rewrite file_load_spec. unfold sample_world at 3. cbn [files]. rewrite lookup_insert_eq.
  rewrite auth_from_to by apply sample_b_consistent. done.
Qed.

Lemma sample_auth_ok name : auth_ok sample_home File (cached (sample_mgr name)).
Proof. split; [|by intros ?? [=]]. intros a [= <-]. apply sample_a_consistent. Qed.

Lemma sample_ready name : ready sample_home File (sample_mgr name) sample_accounts.
Proof.
  split_and!; [apply sample_files_work|done|done|apply sample_registry|apply sample_wf..|].
  apply sample_auth_ok.
Qed.

Lemma sample_ok : mgr_ok sample_home File [key_a; key_b] (sample_mgr name_a).
Proof.
  split_and!; [apply sample_files_work|done|apply sample_auth_ok..|done|].
  exists sample_accounts. split; [apply sample_registry|]. by split; [apply sample_wf|].
Qed.

(** ** The theorems on this machine *)

Lemma save_then_load_witness :
  ∃ w', save (create_auth_storage sample_home Auto) (sample_login name_a) (sample_world name_b) = (w', Ok ())
        ∧ load (create_auth_storage sample_home Auto) w' = (w', Ok (Some (sample_login name_a))).
Proof.
  apply (save_then_load sample_home Auto (sample_world name_b) (sample_login name_a));
    [by intros p|done|apply sample_a_consistent].
Defined.

Definition keyring_down_world : World := {|
  files := files (sample_world name_a); keyring := ∅; ephemeral := ∅; codex_api_key_env := None;
  now := 5;
  faults := {| read_fault _ := None; write_fault _ := None; parent_fault _ := None;
               remove_fault _ := None; keyring_fault := Some (lit "locked") |} |}.

Lemma auto_delete_keyring_down_witness :
  delete_auth (create_auth_storage sample_home Auto) keyring_down_world
  = (keyring_down_world, Err (other (lit "failed to delete auth from keyring: " ++ lit "locked")))
  ∧ load (create_auth_storage sample_home Auto) keyring_down_world
    = (keyring_down_world, Ok (Some (sample_login name_a))).
Proof.
  apply (auto_delete_keyring_down sample_home keyring_down_world (lit "locked") (sample_login name_a));
    [done|].
  rewrite file_load_spec. unfold keyring_down_world at 3. cbn [files sample_world].
  rewrite lookup_insert_eq. rewrite auth_from_to by apply sample_a_consistent. done.
Defined.

Definition sample_ops : list reg_op := [Remove key_a; Refresh (sample_login name_a); Upsert (sample_login name_a)].

Lemma registry_refines_map_witness :
  ∃ w' l' rs, run_ops sample_home sample_ops (sample_world name_a) = (w', Ok rs)
    ∧ registry sample_home w' = Some l' ∧ wf_registry l'
    ∧ same_but_registry sample_home (sample_world name_a) w'
    ∧ spec_ops 5 sample_ops (view sample_accounts) = (view l', rs).
Proof.
  apply (registry_refines_map sample_home sample_ops (sample_world name_a) sample_accounts);
    [by intros p|apply sample_registry|apply sample_wf|].
  repeat constructor; apply sample_a_consistent.
Defined.

Lemma saved_accounts_stay_witness :
  let s1 := (switch_to_saved_chatgpt_account sample_home false File sample_home File key_b
               (sample_mgr name_a)).1 in
  let s2 := (refresh_token_guarded sample_home false File s1).1 in
  ∃ l, registry sample_home (world s2) = Some l ∧ wf_registry l ∧ id <$> l = [key_a; key_b].
Proof.
  intros s1 s2. apply (saved_accounts_stay sample_home false File ltac:(done) [key_a; key_b] (sample_mgr name_a) s2).
  - apply sample_ok.
  - eapply rtc_l; [by apply (step_switch sample_home false File File key_b)|].
    apply rtc_once. apply step_refresh.
Defined.

Lemma rotate_picks_next_witness :
  let current := Some (sample_login name_a) ≫= account_registry_id_for_auth in
  ∃ s' l', rotate_to_next sample_home false File sample_home File ∅ (sample_mgr name_a)
           = (s', Ok (List.find (eligible ∅ current) l'))
    ∧ ready sample_home File s' l' ∧ id <$> l' = id <$> sample_accounts
    ∧ view l' = mirrored (sample_mgr name_a) sample_accounts
    ∧ match List.find (eligible ∅ current) l' with
      | Some e =>
          cached s' = loaded sample_home File (auth e)
          ∧ load (create_auth_storage sample_home File) (world s') = (world s', Ok (Some (auth e)))
          ∧ id e ∉ (∅ : gset str) ∧ current ≠ Some (id e)
      | None => cached s' = cached (sample_mgr name_a)
          ∧ ∀ key, key ∈ id <$> sample_accounts → key ∈ (∅ : gset str) ∨ current = Some key
      end.
Proof.
  apply (rotate_picks_next sample_home false File ltac:(done) (sample_mgr name_a) sample_accounts ∅
    (Some (sample_login name_a))); [done|apply sample_ready|apply sample_load_a].
Defined.

Lemma switch_back_restores_witness :
  ∃ s1 s2 e1 e2,
    switch_to_saved_chatgpt_account sample_home false File sample_home File key_b (sample_mgr name_a) = (s1, Ok e1)
    ∧ switch_to_saved_chatgpt_account sample_home false File sample_home File key_a s1 = (s2, Ok e2)
    ∧ id e1 = key_b ∧ id e2 = key_a ∧ auth e2 = sample_login name_a
    ∧ cached s2 = Some (AuthChatgpt (sample_login name_a) (sample_home, File)).
Proof.
  apply (switch_back_restores sample_home false File ltac:(done) (sample_mgr name_a) sample_accounts
    (sample_login name_a) (sample_home, File) key_a key_b);
    [done|apply sample_ready|done|done|done|done|by eexists|by eexists].
Defined.

(** The second refresh is refused, and from then on none is sent. *)
Definition refused_mgr : Mgr := {|
  world := sample_world name_a; cached := cached (sample_mgr name_a);
  permanent_refresh_failure := None; forced_chatgpt_workspace_id := None;
  external_auth := None; requests := 1 |}.
Definition refused : RefreshTokenFailedError :=
  {| reason := OtherReason; failed_message := REFRESH_TOKEN_UNKNOWN_MESSAGE |}.

Lemma permanent_failure_latched_witness :
  let s' := (refresh_token_from_authority sample_home false File refused_mgr).1 in
  refresh_token_from_authority sample_home false File s' = (s', Err (Permanent refused))
  ∧ ∀ b, auths_equal_for_refresh (cached s') b = false →
         permanent_refresh_failure (set_cached_auth b s').1 = None.
Proof.
  intros s'. apply (permanent_failure_latched sample_home false File refused_mgr s' refused). done.
Defined.

Lemma logout_forgets_witness :
  ∃ s' b, logout_manager sample_home false File (sample_mgr name_a) = (s', Ok b) ∧ cached s' = None
          ∧ load_auth sample_home false File (world s') = (world s', Ok None).
Proof. apply (logout_forgets sample_home File (sample_mgr name_a)). by split; [intros p|]. Defined.

Lemma sample_load_auth :
  load_auth sample_home true File (sample_world name_a)
  = (sample_world name_a, Ok (Some (AuthChatgpt (sample_login name_a) (sample_home, File)))).
Proof.
  assert (read_codex_api_key_from_env (sample_world name_a) = (sample_world name_a, Ok None)) as Henv by done.
  assert (load (create_auth_storage sample_home Ephemeral) (sample_world name_a)
    = (sample_world name_a, Ok None)) as Heph by done.
  unfold load_auth. cbv beta iota. erewrite io_step by exact Henv. cbv beta iota.
  erewrite io_step by exact Heph. cbv beta iota. rewrite bool_decide_eq_false_2 by done. by erewrite io_step by exact sample_load_a.
Qed.

Lemma enforce_login_restrictions_sound_witness :
  ∃ w' r,
    enforce_login_restrictions {| config_codex_home := sample_home; config_store_mode := File;
      forced_login_method := Some ForceChatgpt; config_forced_workspace_id := Some name_b |}
      (sample_world name_a) = (w', r)
    ∧ (∃ e, r = Err e) ∧ load_auth sample_home false File w' = (w', Ok None).
Proof.
  destruct (enforce_login_restrictions {| config_codex_home := sample_home; config_store_mode := File;
    forced_login_method := Some ForceChatgpt; config_forced_workspace_id := Some name_b |}
    (sample_world name_a)) as [w' r] eqn:Hrun.
  exists w', r. split; [done|].
  pose proof (enforce_login_restrictions_sound sample_home File (sample_world name_a)
    (Some (AuthChatgpt (sample_login name_a) (sample_home, File))) ltac:(by split; [intros p|])
    sample_load_auth (Some ForceChatgpt) (Some name_b) w' r Hrun) as [_ Hno].
  apply Hno. intros [_ Hws]. destruct (Hws name_b eq_refl) as (t&[= <-]&_&[=]).
Defined.

Lemma refresh_mixes_accounts_witness :
  ∃ s' b', refresh_token_from_authority sample_home false File (sample_mgr name_b) = (s', Ok ())
    ∧ cached s' = Some (AuthChatgpt b' (sample_home, File))
    ∧ account_id <$> tokens b' = Some (Some name_b)
    ∧ access_token <$> tokens b' = Some (lit "fresh").
Proof.
  eapply (refresh_mixes_accounts sample_home (sample_mgr name_b) (sample_login name_a)
    (sample_tokens name_a) (sample_login name_b) (sample_tokens name_b) []);
    [by intros p|done|done|done|done|apply sample_load_b|done|done|apply sample_b_consistent
    |done|done|done|done].
Defined.

Lemma sampling_ends_without_usage_limits_witness :
  is_Some (run_sampling_request (Output:=nat) sample_home false File sample_home File 3 false (λ _, [])
    (λ n s, (s, if n =? 5 then inr 7 else inl (Stream [] None))) 8 (sample_mgr name_a) true).
Proof.
  apply (sampling_ends_without_usage_limits (Output:=nat) sample_home false File sample_home File 3 false (λ _, [])
    (λ n s, (s, if n =? 5 then inr 7 else inl (Stream [] None)))).
  intros n s e. simpl. destruct (n =? 5); [done|]. by intros [= <-].
Defined.

Lemma usage_limit_bounces_witness :
  run_sampling_request (Output:=unit) sample_home false File sample_home File 3 false (λ _, [])
    (λ n s, (s, inl (UsageLimitReached false))) 1000 (sample_mgr name_a) true = None.
Proof.
  apply (usage_limit_bounces (Output:=unit) sample_home File 3 false (λ _, [])
    (λ n s, (s, inl (UsageLimitReached false))) ltac:(done) [key_a; key_b] false); [done| |].
  - exists key_a, key_b. split_and!; [by left|by right; left|done].
  - exists sample_accounts, (sample_entry name_a).
    split_and!; [apply sample_ready|done|by left| |done|apply sample_load_a|set_solver].
    repeat constructor; [exists name_a|exists name_b]; (split; [done|]);
      by apply (bool_decide_unpack (_ ∉ [key_a; key_b])).
Defined.
