(* ===== verification/ExecPolicy.v ===== *)
(** * The execution policy

    Models [execpolicy/src]: decisions, prefix rules, network rules and host
    executables ([decision.rs], [rule.rs], [executable_name.rs]), the policy and
    its evaluation ([policy.rs]), the builder behind the Starlark functions of a
    rules file ([parser.rs]).  [PrefixRule] is the only implementation of the trait [Rule],
    so a rule is a [PrefixRule]; a [MultiMap] is a finite map to non-empty
    lists.  Starlark, shlex and the [Debug] texts of errors are parameters. *)
From S2P Require Import Prelude Str Io Paths.
Import Paths.

Module ExecPolicy.

(** ** Decisions and errors *)

Inductive Decision : Type := Allow | Prompt | Forbidden.

#[export] Instance Decision_eq_dec : EqDecision Decision.
Proof. solve_decision. Defined.

(** The derived order. *)
Definition rank (d : Decision) : nat :=
  match d with Allow => 0 | Prompt => 1 | Forbidden => 2 end.

Record TextPosition : Type := { line : nat; column : nat }.
Record TextRange : Type := { range_start : TextPosition; range_end : TextPosition }.
Record ErrorLocation : Type := { location_path : str; range : TextRange }.

#[export] Instance TextPosition_eq_dec : EqDecision TextPosition.
Proof. solve_decision. Defined.
#[export] Instance TextRange_eq_dec : EqDecision TextRange.
Proof. solve_decision. Defined.
#[export] Instance ErrorLocation_eq_dec : EqDecision ErrorLocation.
Proof. solve_decision. Defined.

(** The errors of the crate; those of Starlark itself are raised before the
    modelled code runs. *)
Inductive Error : Type :=
| InvalidDecision (s : str)
| InvalidPattern (s : str)
| InvalidExample (s : str)
| InvalidRule (s : str)
| ExampleDidNotMatch (rules : list str) (examples : list str) (location : option ErrorLocation)
| ExampleDidMatch (rule example : str) (location : option ErrorLocation).

#[export] Instance Error_eq_dec : EqDecision Error.
Proof. solve_decision. Defined.

Abbreviation R := (result Error).

Definition parse_decision (raw : str) : R Decision :=
  if bool_decide (raw = lit "allow") then Ok Allow
  else if bool_decide (raw = lit "prompt") then Ok Prompt
  else if bool_decide (raw = lit "forbidden") then Ok Forbidden
  else Err (InvalidDecision raw).

(** ** Rules *)

Inductive PatternToken : Type :=
| Single (s : str)
| Alts (l : list str).

#[export] Instance PatternToken_eq_dec : EqDecision PatternToken.
Proof. solve_decision. Defined.

Definition token_matches (p : PatternToken) (token : str) : bool :=
  match p with
  | Single expected => bool_decide (expected = token)
  | Alts alternatives => existsb (λ alt, bool_decide (alt = token)) alternatives
  end.

Definition alternatives (p : PatternToken) : list str :=
  match p with Single expected => [expected] | Alts alternatives => alternatives end.

Record PrefixPattern : Type := { first : str; rest : list PatternToken }.

#[export] Instance PrefixPattern_eq_dec : EqDecision PrefixPattern.
Proof. solve_decision. Defined.

(** The tokens of [cmd] that the pattern covers. *)
Definition matches_prefix (p : PrefixPattern) (cmd : list str) : option (list str) :=
  let pattern_length := length (rest p) + 1 in
  match cmd with
  | [] => None
  | cmd0 :: args =>
      if (length cmd <? pattern_length) || bool_decide (cmd0 ≠ first p) then None
      else if forallb (λ '(t, c), token_matches t c) (zip (rest p) (take (length (rest p)) args))
      then Some (take pattern_length cmd)
      else None
  end.

Inductive RuleMatch : Type :=
| PrefixRuleMatch (matched_prefix : list str) (decision : Decision)
    (resolved_program : option str) (justification : option str)
| HeuristicsRuleMatch (command : list str) (decision : Decision).

#[export] Instance RuleMatch_eq_dec : EqDecision RuleMatch.
Proof. solve_decision. Defined.

Definition match_decision (m : RuleMatch) : Decision :=
  match m with PrefixRuleMatch _ d _ _ | HeuristicsRuleMatch _ d => d end.

Definition with_resolved_program (program : str) (m : RuleMatch) : RuleMatch :=
  match m with
  | PrefixRuleMatch matched_prefix decision _ justification =>
      PrefixRuleMatch matched_prefix decision (Some program) justification
  | other => other
  end.

Record PrefixRule : Type := {
  pattern : PrefixPattern;
  decision : Decision;
  justification : option str;
}.

#[export] Instance PrefixRule_eq_dec : EqDecision PrefixRule.
Proof. solve_decision. Defined.

(** [impl Rule for PrefixRule]. *)
Definition program (r : PrefixRule) : str := first (pattern r).
Definition rule_matches (r : PrefixRule) (cmd : list str) : option RuleMatch :=
  (λ matched_prefix, PrefixRuleMatch matched_prefix (decision r) None (justification r))
  <$> matches_prefix (pattern r) cmd.

Inductive NetworkRuleProtocol : Type := Http | Https | Socks5Tcp | Socks5Udp.

#[export] Instance NetworkRuleProtocol_eq_dec : EqDecision NetworkRuleProtocol.
Proof. solve_decision. Defined.

Definition parse_protocol (raw : str) : R NetworkRuleProtocol :=
  let eq_to s := bool_decide (raw = s) in
  if eq_to (lit "http") then Ok Http
  else if eq_to (lit "https") || eq_to (lit "https_connect") || eq_to (lit "http-connect") then Ok Https
  else if eq_to (lit "socks5_tcp") then Ok Socks5Tcp
  else if eq_to (lit "socks5_udp") then Ok Socks5Udp
  else Err (InvalidRule
    (lit "network_rule protocol must be one of http, https, socks5_tcp, socks5_udp (got " ++ raw ++ lit ")")).

Definition as_policy_string (p : NetworkRuleProtocol) : str :=
  match p with
  | Http => lit "http" | Https => lit "https"
  | Socks5Tcp => lit "socks5_tcp" | Socks5Udp => lit "socks5_udp"
  end.

Record NetworkRule : Type := {
  host : str;
  protocol : NetworkRuleProtocol;
  network_decision : Decision;
  network_justification : option str;
}.

#[export] Instance NetworkRule_eq_dec : EqDecision NetworkRule.
Proof. solve_decision. Defined.

Definition all_digits (s : str) : bool := forallb is_ascii_digit s.

(** Removes the brackets or the port of a host. *)
Definition strip_port (raw host : str) : R str :=
  match strip_prefix (lit "[") host with
  | Some stripped =>
      match split_once 93 stripped with
      | None => Err (InvalidRule (lit "network_rule host has an invalid bracketed IPv6 literal"))
      | Some (inside, rest) =>
          let port_ok :=
            match strip_prefix (lit ":") rest with
            | Some port => bool_decide (port ≠ []) && all_digits port
            | None => false
            end in
          if bool_decide (rest ≠ []) && negb port_ok
          then Err (InvalidRule (lit "network_rule host contains an unsupported suffix: " ++ raw))
          else Ok inside
      end
  | None =>
      if length (filter (λ c, c = 58%N) host) =? 1 then
        match rsplit_once 58 host with
        | Some (candidate, port) =>
            if bool_decide (candidate ≠ []) && bool_decide (port ≠ []) && all_digits port
            then Ok candidate else Ok host
        | None => Ok host
        end
      else Ok host
  end.

Definition normalize_network_rule_host (raw : str) : R str :=
  let host := trim raw in
  if bool_decide (host = []) then Err (InvalidRule (lit "network_rule host cannot be empty"))
  else if contains host (lit "://") || contains_char host 47 || contains_char host 63 || contains_char host 35
  then Err (InvalidRule (lit "network_rule host must be a hostname or IP literal (without scheme or path)"))
  else
    host ← strip_port raw host;
    let normalized := to_ascii_lowercase (trim (trim_end_matches (N.eqb 46) host)) in
    if bool_decide (normalized = []) then Err (InvalidRule (lit "network_rule host cannot be empty"))
    else if contains_char normalized 42
    then Err (InvalidRule (lit "network_rule host must be a specific host; wildcards are not allowed"))
    else if existsb is_whitespace normalized
    then Err (InvalidRule (lit "network_rule host cannot contain whitespace"))
    else Ok normalized.

(** ** The policy *)

Record MatchOptions : Type := { resolve_host_executables : bool }.
Definition MatchOptions_default : MatchOptions := {| resolve_host_executables := false |}.

Record Policy : Type := {
  rules_by_program : gmap str (list PrefixRule);
  network_rules : list NetworkRule;
  host_executables_by_name : gmap str (list str);
}.

Definition from_parts r n h : Policy :=
  {| rules_by_program := r; network_rules := n; host_executables_by_name := h |}.
Definition empty : Policy := from_parts ∅ [] ∅.

(** [MultiMap::insert] and [MultiMap::get_vec]. *)
Definition mm_insert (k : str) (r : PrefixRule) (m : gmap str (list PrefixRule))
    : gmap str (list PrefixRule) :=
  <[k := default [] (m !! k) ++ [r]]> m.

Definition add_prefix_rule (prefix : list str) (d : Decision) (p : Policy) : R Policy :=
  match prefix with
  | [] => Err (InvalidPattern (lit "prefix cannot be empty"))
  | first_token :: rest =>
      let rule := {| pattern := {| first := first_token; rest := Single <$> rest |};
                     decision := d; justification := None |} in
      Ok (from_parts (mm_insert first_token rule (rules_by_program p)) (network_rules p)
            (host_executables_by_name p))
  end.

Definition justification_is_blank (j : option str) : bool :=
  match j with Some raw => bool_decide (trim raw = []) | None => false end.

Definition add_network_rule (raw_host : str) (proto : NetworkRuleProtocol) (d : Decision)
    (j : option str) (p : Policy) : R Policy :=
  host ← normalize_network_rule_host raw_host;
  if justification_is_blank j then Err (InvalidRule (lit "justification cannot be empty"))
  else
    Ok (from_parts (rules_by_program p)
          (network_rules p ++ [{| host := host; protocol := proto; network_decision := d;
                                  network_justification := j |}])
          (host_executables_by_name p)).

Definition set_host_executable_paths (name : str) (paths : list str) (p : Policy) : Policy :=
  from_parts (rules_by_program p) (network_rules p) (<[name := paths]> (host_executables_by_name p)).

Definition merge_overlay (p overlay : Policy) : Policy :=
  let combined_rules :=
    foldl (λ acc '(prog, rules), foldl (λ acc r, mm_insert prog r acc) acc rules)
      (rules_by_program p) (map_to_list (rules_by_program overlay)) in
  from_parts combined_rules (network_rules p ++ network_rules overlay)
    (host_executables_by_name overlay ∪ host_executables_by_name p).

Definition upsert_domain (entries : list str) (h : str) : list str :=
  filter (λ entry, entry ≠ h) entries ++ [h].

Definition compile_network_rule (acc : list str * list str) (rule : NetworkRule) : list str * list str :=
  let '(allowed, denied) := acc in
  match network_decision rule with
  | Allow => (upsert_domain allowed (host rule), filter (λ entry, entry ≠ host rule) denied)
  | Forbidden => (filter (λ entry, entry ≠ host rule) allowed, upsert_domain denied (host rule))
  | Prompt => (allowed, denied)
  end.

Definition compiled_network_domains (p : Policy) : list str * list str :=
  foldl compile_network_rule ([], []) (network_rules p).

(** ** Evaluation *)

Definition executable_lookup_key (raw : str) : str := raw.

(** [Path::file_name]. *)
Definition file_name (path : str) : option str :=
  match last (components path) with
  | Some c => if bool_decide (c = DOTDOT) then None else Some c
  | None => None
  end.

Definition executable_path_lookup_key (path : str) : option str :=
  executable_lookup_key <$> file_name path.

(** [AbsolutePathBuf::from_absolute_path], given the home and the current
    directory; [None] when there is no current directory. *)
Definition from_absolute_path (home_dir current_dir : option str) (path : str) : option str :=
  let expanded := maybe_expand_home_directory home_dir path in
  if is_absolute expanded then Some (normalize_path expanded)
  else (λ cwd, absolutize_from expanded cwd) <$> current_dir.

Definition match_exact_rules (p : Policy) (cmd : list str) : option (list RuleMatch) :=
  first ← head cmd;
  Some (omap (λ rule, rule_matches rule cmd) (default [] (rules_by_program p !! first))).

Section Evaluation.
Variables home_dir current_dir : option str.

Definition match_host_executable_rules (p : Policy) (cmd : list str) : list RuleMatch :=
  match cmd with
  | [] => []
  | first :: args =>
      match from_absolute_path home_dir current_dir first with
      | None => []
      | Some program =>
          match executable_path_lookup_key program with
          | None => []
          | Some basename =>
              match rules_by_program p !! basename with
              | None => []
              | Some rules =>
                  if match host_executables_by_name p !! basename with
                     | Some paths => negb (existsb (λ path, bool_decide (path = program)) paths)
                     | None => false
                     end
                  then []
                  else with_resolved_program program
                       <$> omap (λ rule, rule_matches rule (basename :: args)) rules
              end
          end
      end
  end.

(** [filter(|m| !m.is_empty())]. *)
Definition non_empty (o : option (list RuleMatch)) : option (list RuleMatch) :=
  match o with Some (m :: ms) => Some (m :: ms) | _ => None end.

Definition matches_for_command_with_options (p : Policy) (cmd : list str)
    (heuristics_fallback : option (list str → Decision)) (options : MatchOptions) : list RuleMatch :=
  let matched_rules :=
    match non_empty (match_exact_rules p cmd) with
    | Some matched_rules => matched_rules
    | None =>
        default [] (non_empty (if resolve_host_executables options
                               then Some (match_host_executable_rules p cmd) else None))
    end in
  match matched_rules, heuristics_fallback with
  | [], Some heuristics_fallback => [HeuristicsRuleMatch cmd (heuristics_fallback cmd)]
  | _, _ => matched_rules
  end.

Record Evaluation : Type := {
  eval_decision : Decision;
  matched_rules : list RuleMatch;
}.

Definition is_match (e : Evaluation) : bool :=
  existsb (λ m, match m with HeuristicsRuleMatch _ _ => false | _ => true end) (matched_rules e).

(** [Iterator::max]: the last of the greatest. *)
Fixpoint max_decision (l : list Decision) : option Decision :=
  match l with
  | [] => None
  | d :: l =>
      Some match max_decision l with
           | Some e => if rank e <? rank d then d else e
           | None => d
           end
  end.

(** [Evaluation::from_matches]: panics when nothing matched. *)
Definition from_matches (matched_rules : list RuleMatch) : R Evaluation :=
  decision ← expect (max_decision (match_decision <$> matched_rules));
  Ok {| eval_decision := decision; matched_rules := matched_rules |}.

Definition check_with_options (p : Policy) (cmd : list str) (heuristics_fallback : list str → Decision)
    (options : MatchOptions) : R Evaluation :=
  from_matches (matches_for_command_with_options p cmd (Some heuristics_fallback) options).

Definition check (p : Policy) (cmd : list str) (heuristics_fallback : list str → Decision) : R Evaluation :=
  check_with_options p cmd heuristics_fallback MatchOptions_default.

Definition check_multiple_with_options (p : Policy) (commands : list (list str))
    (heuristics_fallback : list str → Decision) (options : MatchOptions) : R Evaluation :=
  from_matches
    (commands ≫= λ command,
      matches_for_command_with_options p command (Some heuristics_fallback) options).

Definition check_multiple (p : Policy) (commands : list (list str))
    (heuristics_fallback : list str → Decision) : R Evaluation :=
  check_multiple_with_options p commands heuristics_fallback MatchOptions_default.
End Evaluation.

(** ** Allowed prefixes *)

Definition render_pattern_token (token : PatternToken) : str :=
  match token with
  | Single value => value
  | Alts alternatives => lit "[" ++ join (lit "|") alternatives ++ lit "]"
  end.

Definition prefix_le : list str → list str → bool := lex_le str_le.

(** [Vec::sort] and [Vec::dedup]. *)
Fixpoint insert_sorted (x : list str) (l : list (list str)) : list (list str) :=
  match l with
  | [] => [x]
  | y :: l' => if prefix_le x y then x :: l else y :: insert_sorted x l'
  end.
Definition sort_prefixes (l : list (list str)) : list (list str) := foldr insert_sorted [] l.
Fixpoint dedup (l : list (list str)) : list (list str) :=
  match l with
  | x :: (y :: _) as l' => if bool_decide (x = y) then dedup l' else x :: dedup l'
  | l => l
  end.

Definition rule_prefix (r : PrefixRule) : list str :=
  first (pattern r) :: (render_pattern_token <$> rest (pattern r)).

Definition get_allowed_prefixes (p : Policy) : list (list str) :=
  dedup (sort_prefixes
    (map_to_list (rules_by_program p) ≫= λ '(_, rules),
      rule_prefix <$> filter (λ r, decision r = Allow) rules)).

(** ** Rules files *)

(** A Starlark value, as far as the functions of a rules file look into it. *)
#[warnings="-register-all"]
Inductive Value : Type :=
| VStr (s : str)
| VList (l : list Value)
| VOther (type_name : str).

Definition get_type (v : Value) : str :=
  match v with VStr _ => lit "string" | VList _ => lit "list" | VOther t => t end.
Definition unpack_str (v : Value) : option str := match v with VStr s => Some s | _ => None end.

(** [collect::<Result<_>>()]: stops at the first error. *)
Fixpoint collect {A B} (f : A → R B) (l : list A) : R (list B) :=
  match l with
  | [] => Ok []
  | x :: l => y ← f x; ys ← collect f l; Ok (y :: ys)
  end.

Definition parse_pattern_token (value : Value) : R PatternToken :=
  match value with
  | VStr s => Ok (Single s)
  | VList l =>
      tokens ← collect (λ value, ok_or
        (InvalidPattern (lit "pattern alternative must be a string (got " ++ get_type value ++ lit ")"))
        (unpack_str value)) l;
      match tokens with
      | [] => Err (InvalidPattern (lit "pattern alternatives cannot be empty"))
      | [single] => Ok (Single single)
      | _ => Ok (Alts tokens)
      end
  | VOther t =>
      Err (InvalidPattern (lit "pattern element must be a string or list of strings (got " ++ t ++ lit ")"))
  end.

Definition parse_pattern (pattern : list Value) : R (list PatternToken) :=
  tokens ← collect parse_pattern_token pattern;
  match tokens with
  | [] => Err (InvalidPattern (lit "pattern cannot be empty"))
  | _ => Ok tokens
  end.

Record PendingExampleValidation : Type := {
  pending_rules : list PrefixRule;
  pending_matches : list (list str);
  pending_not_matches : list (list str);
  pending_location : option ErrorLocation;
}.

Record PolicyBuilder : Type := {
  b_rules_by_program : gmap str (list PrefixRule);
  b_network_rules : list NetworkRule;
  b_host_executables : gmap str (list str);
  pending_example_validations : list PendingExampleValidation;
}.

Definition builder_new : PolicyBuilder :=
  {| b_rules_by_program := ∅; b_network_rules := []; b_host_executables := ∅;
     pending_example_validations := [] |}.

Definition add_rule (b : PolicyBuilder) (r : PrefixRule) : PolicyBuilder :=
  {| b_rules_by_program := mm_insert (program r) r (b_rules_by_program b);
     b_network_rules := b_network_rules b; b_host_executables := b_host_executables b;
     pending_example_validations := pending_example_validations b |}.

Definition build (b : PolicyBuilder) : Policy :=
  from_parts (b_rules_by_program b) (b_network_rules b) (b_host_executables b).

Definition with_location (e : Error) (location : ErrorLocation) : Error :=
  match e with
  | ExampleDidNotMatch rules examples None => ExampleDidNotMatch rules examples (Some location)
  | ExampleDidMatch rule example None => ExampleDidMatch rule example (Some location)
  | other => other
  end.

Definition attach_validation_location (location : option ErrorLocation) (e : Error) : Error :=
  match location with Some l => with_location e l | None => e end.

Definition parse_network_rule_decision (raw : str) : R Decision :=
  if bool_decide (raw = lit "deny") then Ok Forbidden else parse_decision raw.

(** The components of a path, with a leading root or current directory. *)
Definition component_count (path : str) : nat :=
  (if is_absolute path || bool_decide (head (split_on SLASH path) = Some Paths.DOT) then 1 else 0)
  + length (components path).

Definition validate_host_executable_name (name : str) : R unit :=
  if bool_decide (name = []) then Err (InvalidRule (lit "host_executable name cannot be empty"))
  else if negb (component_count name =? 1) || bool_decide (file_name name ≠ Some name)
  then Err (InvalidRule (lit "host_executable name must be a bare executable name (got " ++ name ++ lit ")"))
  else Ok ().

(** The calls a rules file can make; the location is that of the call. *)
Inductive BuiltinCall : Type :=
| CallPrefixRule (pattern : list Value) (decision : option str)
    (match_examples not_match_examples : option (list Value)) (justification : option str)
    (location : option ErrorLocation)
| CallNetworkRule (host protocol decision : str) (justification : option str)
| CallHostExecutable (name : str) (paths : list Value).

Section Builder.
Variables home_dir current_dir : option str.
Variable shlex_split : str → option (list str).
Variable shlex_try_join : list str → option str.
(** The [Debug] texts put into errors. *)
Variable debug_rule : PrefixRule → str.
Variable debug_match : RuleMatch → str.

Definition parse_example (value : Value) : R (list str) :=
  match value with
  | VStr raw =>
      tokens ← ok_or (InvalidExample (lit "example string has invalid shell syntax")) (shlex_split raw);
      match tokens with
      | [] => Err (InvalidExample (lit "example cannot be an empty string"))
      | _ => Ok tokens
      end
  | VList l =>
      tokens ← collect (λ value, ok_or
        (InvalidExample (lit "example tokens must be strings (got " ++ get_type value ++ lit ")"))
        (unpack_str value)) l;
      match tokens with
      | [] => Err (InvalidExample (lit "example cannot be an empty list"))
      | _ => Ok tokens
      end
  | VOther t =>
      Err (InvalidExample (lit "example must be a string or list of strings (got " ++ t ++ lit ")"))
  end.

Definition parse_examples (examples : option (list Value)) : R (list (list str)) :=
  match examples with Some l => collect parse_example l | None => Ok [] end.

Definition render_example (example : list str) : str :=
  default (lit "unable to render example") (shlex_try_join example).

Definition example_matches (p : Policy) (example : list str) : list RuleMatch :=
  matches_for_command_with_options home_dir current_dir p example None
    {| resolve_host_executables := true |}.

Definition validate_match_examples (p : Policy) (rules : list PrefixRule)
    (matches : list (list str)) : R unit :=
  let unmatched_examples := filter (λ example, example_matches p example = []) matches in
  match unmatched_examples with
  | [] => Ok ()
  | _ => Err (ExampleDidNotMatch (debug_rule <$> rules) (render_example <$> unmatched_examples) None)
  end.

Fixpoint validate_not_match_examples (p : Policy) (not_matches : list (list str)) : R unit :=
  match not_matches with
  | [] => Ok ()
  | example :: not_matches =>
      match example_matches p example with
      | [] => validate_not_match_examples p not_matches
      | rule :: _ => Err (ExampleDidMatch (debug_match rule) (render_example example) None)
      end
  end.

(** The policy an example is checked against: the rules of its own call. *)
Definition validation_policy (hosts : gmap str (list str)) (rules : list PrefixRule) : Policy :=
  from_parts (foldl (λ m r, mm_insert (program r) r m) ∅ rules) [] hosts.

Fixpoint validate_pending (hosts : gmap str (list str)) (pending : list PendingExampleValidation) : R unit :=
  match pending with
  | [] => Ok ()
  | validation :: pending =>
      let policy := validation_policy hosts (pending_rules validation) in
      let located := map_err (attach_validation_location (pending_location validation)) in
      _ ← located (validate_not_match_examples policy (pending_not_matches validation));
      _ ← located (validate_match_examples policy (pending_rules validation) (pending_matches validation));
      validate_pending hosts pending
  end.

Definition validate_pending_examples_from (b : PolicyBuilder) (start : nat) : R unit :=
  validate_pending (b_host_executables b) (drop start (pending_example_validations b)).

Definition parse_literal_absolute_path (raw : str) : R str :=
  if negb (is_absolute raw)
  then Err (InvalidRule (lit "host_executable paths must be absolute (got " ++ raw ++ lit ")"))
  else ok_or (InvalidRule (lit "invalid absolute path `" ++ raw ++ lit "`"))
         (from_absolute_path home_dir current_dir raw).

(** One path of [host_executable]. *)
Definition add_host_path (name : str) (parsed_paths : list str) (value : Value) : R (list str) :=
  raw ← ok_or (InvalidRule (lit "host_executable paths must be strings (got " ++ get_type value ++ lit ")"))
          (unpack_str value);
  path ← parse_literal_absolute_path raw;
  if bool_decide (executable_path_lookup_key path ≠ Some (executable_lookup_key name))
  then Err (InvalidRule (lit "host_executable path `" ++ raw ++ lit "` must have basename `" ++ name ++ lit "`"))
  else Ok (if existsb (λ existing, bool_decide (existing = path)) parsed_paths
           then parsed_paths else parsed_paths ++ [path]).

Definition run_builtin (b : PolicyBuilder) (call : BuiltinCall) : R PolicyBuilder :=
  match call with
  | CallPrefixRule pattern decision match_examples not_match_examples justification location =>
      decision ← match decision with Some raw => parse_decision raw | None => Ok Allow end;
      if justification_is_blank justification
      then Err (InvalidRule (lit "justification cannot be empty"))
      else
        pattern_tokens ← parse_pattern pattern;
        matches ← parse_examples match_examples;
        not_matches ← parse_examples not_match_examples;
        match pattern_tokens with
        | [] => Err (InvalidPattern (lit "pattern cannot be empty"))
        | first_token :: remaining_tokens =>
            let rules := (λ head, {| pattern := {| first := head; rest := remaining_tokens |};
                                     decision := decision; justification := justification |})
                         <$> alternatives first_token in
            let b := {| b_rules_by_program := b_rules_by_program b;
                        b_network_rules := b_network_rules b;
                        b_host_executables := b_host_executables b;
                        pending_example_validations := pending_example_validations b ++
                          [{| pending_rules := rules; pending_matches := matches;
                              pending_not_matches := not_matches; pending_location := location |}] |} in
            Ok (foldl add_rule b rules)
        end
  | CallNetworkRule host protocol decision justification =>
      protocol ← parse_protocol protocol;
      decision ← parse_network_rule_decision decision;
      if justification_is_blank justification
      then Err (InvalidRule (lit "justification cannot be empty"))
      else
        host ← normalize_network_rule_host host;
        Ok {| b_rules_by_program := b_rules_by_program b;
              b_network_rules := b_network_rules b ++
                [{| host := host; protocol := protocol; network_decision := decision;
                    network_justification := justification |}];
              b_host_executables := b_host_executables b;
              pending_example_validations := pending_example_validations b |}
  | CallHostExecutable name paths =>
      _ ← validate_host_executable_name name;
      parsed_paths ← foldl (λ acc value, parsed ← acc; add_host_path name parsed value) (Ok []) paths;
      Ok {| b_rules_by_program := b_rules_by_program b;
            b_network_rules := b_network_rules b;
            b_host_executables := <[executable_lookup_key name := parsed_paths]> (b_host_executables b);
            pending_example_validations := pending_example_validations b |}
  end.

(** [PolicyParser::parse], after Starlark has turned the file into calls.  A
    builder whose file failed is not used again. *)
Definition parse (b : PolicyBuilder) (calls : list BuiltinCall) : R PolicyBuilder :=
  let pending_validation_count := length (pending_example_validations b) in
  b ← foldl (λ acc call, b ← acc; run_builtin b call) (Ok b) calls;
  _ ← validate_pending_examples_from b pending_validation_count;
  Ok b.
End Builder.
End ExecPolicy.
