(* ===== verification/ExecPolicyFacts.v ===== *)
(** * What the execution policy guarantees

    The strictest matching rule decides; a forbidden prefix stays forbidden
    under overlays; network domains follow the last rule for a host; the
    examples of a rules file hold of the policy built from it. *)
From S2P Require Import Prelude Str Io Paths ExecPolicy.
Import Paths ExecPolicy.

(** ** The strictest decision *)

Lemma max_decision_None l : max_decision l = None ↔ l = [].
Proof. by destruct l. Qed.

Lemma max_decision_Some l d :
  max_decision l = Some d → d ∈ l ∧ ∀ e, e ∈ l → rank e ≤ rank d.
Proof.
  revert d. induction l as [|x l IH]; intros d; [done|]. cbn [max_decision]. intros [= Hd].
  destruct (max_decision l) as [e|] eqn:He.
  - destruct (IH e eq_refl) as [Hin Hmax]. destruct (rank e <? rank x) eqn:Hlt; bool_to_prop; subst d.
    + split; [by left|]. intros y [->|Hy]%elem_of_cons; [lia|]. specialize (Hmax y Hy). lia.
    + split; [by right|]. intros y [->|Hy]%elem_of_cons; [lia|]. by apply Hmax.
  - apply max_decision_None in He as ->. subst d. split; [by left|].
    intros y [->|[]%elem_of_nil]%elem_of_cons. lia.
Qed.

Section Facts.
Variables home_dir current_dir : option str.

Abbreviation matches := (matches_for_command_with_options home_dir current_dir).
Abbreviation check_all := (check_multiple_with_options home_dir current_dir).

(** The match cannot be empty when there is a fallback. *)
Lemma matches_fallback_nonempty p cmd h o : matches p cmd (Some h) o ≠ [].
Proof. unfold matches_for_command_with_options. by destruct (match non_empty _ with Some _ => _ | None => _ end). Qed.

Lemma from_matches_spec ms :
  ms ≠ [] →
  ∃ e, from_matches ms = Ok e ∧ matched_rules e = ms ∧ eval_decision e ∈ match_decision <$> ms
    ∧ ∀ m, m ∈ ms → rank (match_decision m) ≤ rank (eval_decision e).
Proof.
  intros Hms. unfold from_matches. destruct (max_decision (match_decision <$> ms)) as [d|] eqn:Hd.
  - apply max_decision_Some in Hd as [Hin Hmax]. eexists; split; [done|]. simpl.
    split_and!; [done..|]. intros m Hm. apply Hmax. by apply list_elem_of_fmap_2.
  - apply max_decision_None in Hd. by apply fmap_nil_inv in Hd.
Qed.

Lemma check_multiple_spec p commands h o :
  check_all p [] h o = Crash ∧
  (commands ≠ [] →
   ∃ e, check_all p commands h o = Ok e
     ∧ (∀ m, m ∈ matched_rules e ↔ ∃ cmd, cmd ∈ commands ∧ m ∈ matches p cmd (Some h) o)
     ∧ (∀ cmd, cmd ∈ commands → matches p cmd (Some h) o ≠ [])
     ∧ (∃ m, m ∈ matched_rules e ∧ match_decision m = eval_decision e)
     ∧ ∀ m, m ∈ matched_rules e → rank (match_decision m) ≤ rank (eval_decision e)).
Proof.
  split; [done|]. intros Hne. unfold check_multiple_with_options.
  destruct (from_matches_spec (commands ≫= λ cmd, matches p cmd (Some h) o)) as (e&He&Hms&Hd&Hmax).
  { destruct commands as [|cmd commands]; [done|]. cbn.
    intros [Hnil _]%app_nil. by apply matches_fallback_nonempty in Hnil. }
  exists e. split_and!; [done| | | |].
  - intros m. rewrite Hms, list_elem_of_bind. naive_solver.
  - intros. apply matches_fallback_nonempty.
  - apply list_elem_of_fmap in Hd as (m&->&Hm). exists m. by rewrite Hms.
  - intros m. rewrite Hms. apply Hmax.
Qed.

(** C40. Evaluating commands against a policy reports exactly the matches of
    every command, each command having at least one, and its decision is that
    of a reported match and the strictest of all; evaluating no command
    panics. *)
Theorem check_multiple_strictest p commands h o :
  check_all p [] h o = Crash ∧
  (commands ≠ [] →
   ∃ e, check_all p commands h o = Ok e
     ∧ (∀ m, m ∈ matched_rules e ↔ ∃ cmd, cmd ∈ commands ∧ m ∈ matches p cmd (Some h) o)
     ∧ (∀ cmd, cmd ∈ commands → matches p cmd (Some h) o ≠ [])
     ∧ (∃ m, m ∈ matched_rules e ∧ match_decision m = eval_decision e)
     ∧ ∀ m, m ∈ matched_rules e → rank (match_decision m) ≤ rank (eval_decision e)).
Proof. exact (check_multiple_spec p commands h o). Qed.

(** ** Forbidden prefixes *)

Lemma singles_match rest args :
  forallb (λ '(t, c), token_matches t c) (zip (Single <$> rest) (take (length rest) (rest ++ args))) = true.
Proof. induction rest as [|x rest IH]; [done|]. simpl. by rewrite bool_decide_eq_true_2. Qed.

Lemma singles_prefix prefix first' rest' cmd :
  prefix = first' :: rest' → prefix `prefix_of` cmd →
  matches_prefix {| first := first'; rest := Single <$> rest' |} cmd = Some prefix.
Proof.
  intros -> [args ->]. unfold matches_prefix. cbn [first rest app].
  rewrite length_fmap, bool_decide_eq_false_2 by naive_solver.
  assert (length (first' :: rest' ++ args) <? length rest' + 1 = false) as ->.
  { apply Nat.ltb_ge. simpl. rewrite length_app. lia. }
  rewrite singles_match. cbn [orb]. f_equal. rewrite Nat.add_comm. cbn [take Nat.add].
  by rewrite take_app_length.
Qed.

Lemma mm_insert_elem k r m k' r' :
  r' ∈ default [] (mm_insert k r m !! k') ↔ r' ∈ default [] (m !! k') ∨ (k = k' ∧ r' = r).
Proof.
  unfold mm_insert. destruct (decide (k = k')) as [->|].
  - rewrite lookup_insert_eq. simpl. rewrite elem_of_app, list_elem_of_singleton. naive_solver.
  - rewrite lookup_insert_ne by done. naive_solver.
Qed.

Lemma mm_insert_all_elem k rs m k' r' :
  r' ∈ default [] (foldl (λ acc r, mm_insert k r acc) m rs !! k') ↔
  r' ∈ default [] (m !! k') ∨ (k = k' ∧ r' ∈ rs).
Proof.
  revert m. induction rs as [|r rs IH]; intros m; simpl; [set_solver|].
  rewrite IH, mm_insert_elem, elem_of_cons. naive_solver.
Qed.

(** An overlay keeps every rule and adds its own. *)
Lemma merge_overlay_elem p overlay k r :
  r ∈ default [] (rules_by_program (merge_overlay p overlay) !! k) ↔
  r ∈ default [] (rules_by_program p !! k) ∨ r ∈ default [] (rules_by_program overlay !! k).
Proof.
  unfold merge_overlay. cbn [rules_by_program from_parts].
  assert (∀ l m, r ∈ default [] (foldl (λ acc '(prog, rules), foldl (λ acc r, mm_insert prog r acc) acc rules) m l !! k)
    ↔ r ∈ default [] (m !! k) ∨ ∃ rules, (k, rules) ∈ l ∧ r ∈ rules) as Hfold.
  { induction l as [|[k' rs] l IH]; intros m; simpl.
    - split; [by left|]. by intros [?|(?&[]%elem_of_nil&_)].
    - rewrite IH, mm_insert_all_elem. setoid_rewrite elem_of_cons. naive_solver. }
  rewrite Hfold. f_equiv. split.
  - intros (rules&Hin%elem_of_map_to_list&Hr). by rewrite Hin.
  - destruct (rules_by_program overlay !! k) as [rules|] eqn:Hk; simpl; [|by intros []%elem_of_nil].
    intros Hr. exists rules. by rewrite elem_of_map_to_list.
Qed.

(** Rules that match exactly are all reported. *)
Lemma exact_match_reported p cmd k r m h o :
  head cmd = Some k → r ∈ default [] (rules_by_program p !! k) → rule_matches r cmd = Some m →
  m ∈ matches p cmd h o.
Proof.
  intros Hk Hr Hm. unfold matches_for_command_with_options, match_exact_rules. rewrite Hk. simpl.
  assert (m ∈ omap (λ rule, rule_matches rule cmd) (default [] (rules_by_program p !! k))) as Hin.
  { apply list_elem_of_omap. by exists r. }
  destruct (omap _ _) as [|m' ms]; [by apply elem_of_nil in Hin|]. simpl. by destruct h.
Qed.

(** Once a prefix is added as forbidden, any batch with a command that
    starts with it is forbidden, whatever overlay is merged over the policy
    and whatever the fallback says. *)
Theorem forbidden_prefix_sticks prefix p p' overlay commands cmd h o :
  add_prefix_rule prefix Forbidden p = Ok p' → cmd ∈ commands → prefix `prefix_of` cmd →
  ∃ e, check_all (merge_overlay p' overlay) commands h o = Ok e ∧ eval_decision e = Forbidden.
Proof.
  intros Hadd Hcmd Hpre. destruct prefix as [|first' rest']; [done|]. injection Hadd as <-.
  destruct (check_multiple_spec
    (merge_overlay (from_parts (mm_insert first'
       {| pattern := {| first := first'; rest := Single <$> rest' |}; decision := Forbidden; justification := None |}
       (rules_by_program p)) (network_rules p) (host_executables_by_name p)) overlay) commands h o)
    as [_ (e&He&Hmatched&_&_&Hmax)]; [by intros ->; apply elem_of_nil in Hcmd|].
  exists e. split; [exact He|].
  specialize (Hmax (PrefixRuleMatch (first' :: rest') Forbidden None None)).
  assert (rank Forbidden ≤ rank (eval_decision e)) as Hrank.
  { apply Hmax, Hmatched. exists cmd. split; [done|].
    eapply exact_match_reported; [|apply merge_overlay_elem; left; apply mm_insert_elem; by right|].
    - by destruct Hpre as [? ->].
    - unfold rule_matches. cbn [pattern]. by rewrite (singles_prefix (first' :: rest')). }
  by destruct (eval_decision e); simpl in Hrank; [lia|lia|].
Qed.
End Facts.

(** ** Network domains *)

(** The decision of the last rule for a host, prompts aside. *)
Definition last_decision (h : str) (rules : list NetworkRule) : option Decision :=
  last (omap (λ r, if bool_decide (host r = h ∧ network_decision r ≠ Prompt)
                   then Some (network_decision r) else None) rules).

Lemma last_decision_snoc h rules r :
  last_decision h (rules ++ [r]) =
  if bool_decide (host r = h ∧ network_decision r ≠ Prompt) then Some (network_decision r)
  else last_decision h rules.
Proof.
  unfold last_decision. rewrite omap_app. simpl. case_bool_decide; simpl;
    [by rewrite last_snoc|by rewrite app_nil_r].
Qed.

Lemma elem_of_upsert x h l : x ∈ upsert_domain l h ↔ x = h ∨ x ∈ l.
Proof.
  unfold upsert_domain. rewrite elem_of_app, list_elem_of_filter, list_elem_of_singleton.
  destruct (decide (x = h)); naive_solver.
Qed.

Lemma elem_of_without (x h : str) (l : list str) : x ∈ filter (λ entry, entry ≠ h) l ↔ x ≠ h ∧ x ∈ l.
Proof. by rewrite list_elem_of_filter. Qed.

Lemma upsert_NoDup h l : NoDup l → NoDup (upsert_domain l h).
Proof.
  intros Hl. unfold upsert_domain. apply NoDup_app. split_and!.
  - by apply NoDup_filter.
  - intros x [? _]%list_elem_of_filter ->%list_elem_of_singleton. done.
  - apply NoDup_singleton.
Qed.

(** A host is in the allowed (denied) domains exactly when the last rule
    for it that is not a prompt allows (forbids) it; the lists have no
    duplicates. *)
Theorem compiled_domains_last_rule p h :
  (h ∈ (compiled_network_domains p).1 ↔ last_decision h (network_rules p) = Some Allow)
  ∧ (h ∈ (compiled_network_domains p).2 ↔ last_decision h (network_rules p) = Some Forbidden)
  ∧ NoDup (compiled_network_domains p).1 ∧ NoDup (compiled_network_domains p).2.
Proof.
  unfold compiled_network_domains. induction (network_rules p) as [|r rules IH] using rev_ind.
  { simpl. unfold last_decision. simpl. split_and!; [set_solver..|apply NoDup_nil_2|apply NoDup_nil_2]. }
  rewrite foldl_app, last_decision_snoc. simpl.
  destruct (foldl compile_network_rule ([], []) rules) as [allowed denied].
  simpl in IH. destruct IH as (Ha&Hd&Hna&Hnd). unfold compile_network_rule.
  destruct (network_decision r) eqn:Hr; simpl.
  - rewrite elem_of_upsert, elem_of_without. split_and!;
      [..|by apply upsert_NoDup|by apply NoDup_filter]; case_bool_decide; naive_solver.
  - rewrite bool_decide_eq_false_2 by naive_solver. done.
  - rewrite elem_of_upsert, elem_of_without. split_and!;
      [..|by apply NoDup_filter|by apply upsert_NoDup]; case_bool_decide; naive_solver.
Qed.

(** ** Examples of a rules file *)

Section Parse.
Variables home_dir current_dir : option str.
Variable shlex_split : str → option (list str).
Variable shlex_try_join : list str → option str.
Variable debug_rule : PrefixRule → str.
Variable debug_match : RuleMatch → str.

Abbreviation run := (run_builtin home_dir current_dir shlex_split).
Abbreviation examples := (example_matches home_dir current_dir).

(** The rules of every recorded call are in the builder. *)
Definition rules_recorded (b : PolicyBuilder) : Prop :=
  ∀ v r, v ∈ pending_example_validations b → r ∈ pending_rules v →
    r ∈ default [] (b_rules_by_program b !! program r).

Lemma rules_recorded_new : rules_recorded builder_new.
Proof. by intros v r []%elem_of_nil. Qed.

Lemma add_rules_elem rs b k r :
  r ∈ default [] (b_rules_by_program (foldl add_rule b rs) !! k) ↔
  r ∈ default [] (b_rules_by_program b !! k) ∨ (program r = k ∧ r ∈ rs).
Proof.
  revert b. induction rs as [|r' rs IH]; intros b; simpl; [set_solver|].
  rewrite IH. simpl. rewrite mm_insert_elem, elem_of_cons. naive_solver.
Qed.

Lemma add_rules_rest rs b :
  pending_example_validations (foldl add_rule b rs) = pending_example_validations b
  ∧ b_host_executables (foldl add_rule b rs) = b_host_executables b.
Proof. revert b. induction rs as [|r rs IH]; intros b; simpl; [done|]. by destruct (IH (add_rule b r)) as [-> ->]. Qed.

(** A call only extends what is pending, and keeps the rules recorded. *)
Lemma run_builtin_recorded b call b' :
  run b call = Ok b' → rules_recorded b →
  rules_recorded b' ∧ ∃ new, pending_example_validations b' = pending_example_validations b ++ new.
Proof.
  intros Hrun Hb. destruct call; simpl in Hrun.
  - apply result_bind_Ok in Hrun as (d&_&Hrun). case_match; [done|]. inv_result.
    case_match; [done|]. inv_result.
    match goal with |- rules_recorded (foldl add_rule ?b1 ?rs) ∧ _ =>
      pose proof (add_rules_rest rs b1) as [Hp _]; set (b1' := b1) in *; set (rs' := rs) in * end.
    rewrite Hp. split; [|by eexists]. intros v r Hv Hr. rewrite Hp in Hv. apply add_rules_elem.
    simpl in Hv. apply elem_of_app in Hv as [Hv| ->%list_elem_of_singleton]; [left; by eapply Hb|].
    right. by split.
  - inv_result. case_match; [done|]. inv_result. split; [done|]. exists []. by rewrite app_nil_r.
  - inv_result. split; [done|]. exists []. by rewrite app_nil_r.
Qed.

Lemma run_all_recorded calls b b' :
  foldl (λ acc call, b ← acc; run b call) (Ok b) calls = Ok b' → rules_recorded b →
  rules_recorded b' ∧ ∃ new, pending_example_validations b' = pending_example_validations b ++ new.
Proof.
  intros Hf Hb. revert b' Hf. induction calls as [|call calls IH] using rev_ind; intros b' Hf.
  { injection Hf as <-. split; [done|]. exists []. by rewrite app_nil_r. }
  rewrite foldl_app in Hf. simpl in Hf. apply result_bind_Ok in Hf as (b1&Hf&Hrun).
  destruct (IH b1 Hf) as (Hb1&new&Hnew). destruct (run_builtin_recorded _ _ _ Hrun Hb1) as (Hb'&new'&Hnew').
  split; [done|]. exists (new ++ new'). by rewrite Hnew', Hnew, app_assoc.
Qed.

Lemma map_err_Ok {E F A} (f : E → F) (m : result E A) a : map_err f m = Ok a ↔ m = Ok a.
Proof. destruct m; simpl; naive_solver. Qed.

Lemma validate_not_match_Ok p l u ex :
  validate_not_match_examples home_dir current_dir shlex_try_join debug_match p l = Ok u → ex ∈ l → examples p ex = [].
Proof.
  induction l as [|x l IH]; simpl; [by intros _ []%elem_of_nil|].
  destruct (examples p x) eqn:Hx; [|done]. intros Hl [->|Hex]%elem_of_cons; auto.
Qed.

Lemma validate_match_Ok p rules l u ex :
  validate_match_examples home_dir current_dir shlex_try_join debug_rule p rules l = Ok u → ex ∈ l → examples p ex ≠ [].
Proof.
  unfold validate_match_examples. destruct (filter _ l) eqn:Hf; [|done]. intros _ Hex Hnil.
  assert (ex ∈ filter (λ example, examples p example = []) l) as Hin by by apply list_elem_of_filter.
  rewrite Hf in Hin. by apply elem_of_nil in Hin.
Qed.

Lemma validate_pending_Ok hosts pending u v ex :
  validate_pending home_dir current_dir shlex_try_join debug_rule debug_match hosts pending = Ok u → v ∈ pending →
  (ex ∈ pending_matches v → examples (validation_policy hosts (pending_rules v)) ex ≠ [])
  ∧ (ex ∈ pending_not_matches v → examples (validation_policy hosts (pending_rules v)) ex = []).
Proof.
  induction pending as [|x pending IH]; cbn [validate_pending]; [by intros _ []%elem_of_nil|].
  intros Hv Hin. inv_result. rename select (validate_pending _ _ _ _ _ _ _ = _) into Hrest.
  repeat match goal with H : map_err _ _ = Ok _ |- _ => apply map_err_Ok in H end.
  apply elem_of_cons in Hin as [->|Hin]; [|by apply IH].
  split; intros; [by eapply validate_match_Ok|by eapply validate_not_match_Ok].
Qed.

(** A policy with more rules and the same host executables matches no less. *)
Lemma examples_mono p q ex :
  (∀ k r, r ∈ default [] (rules_by_program p !! k) → r ∈ default [] (rules_by_program q !! k)) →
  host_executables_by_name p = host_executables_by_name q →
  examples p ex ≠ [] → examples q ex ≠ [].
Proof.
  intros Hrules Hhosts. unfold example_matches, matches_for_command_with_options.
  assert (∀ l l' (f : PrefixRule → option RuleMatch), (∀ r, r ∈ l → r ∈ l') → omap f l ≠ [] → omap f l' ≠ []) as Homap.
  { intros l l' f Hl Hne Hnil. destruct (omap f l) as [|m ms] eqn:Hm; [done|].
    assert (m ∈ omap f l) as Hin by (rewrite Hm; by left).
    apply list_elem_of_omap in Hin as (r&Hr&Hfr).
    assert (m ∈ omap f l') as Hin' by (apply list_elem_of_omap; exists r; auto).
    rewrite Hnil in Hin'. by apply elem_of_nil in Hin'. }
  assert (∀ ms, non_empty (Some ms) = None ↔ ms = []) as Hne by by intros [].
  destruct ex as [|first args]; [intros Hx; by exfalso; apply Hx|].
  unfold match_exact_rules. cbn [head mbind option_bind].
  destruct (non_empty (Some (omap _ (default [] (rules_by_program q !! first))))) as [qm|] eqn:Hq.
  { intros _. destruct (omap _ _) in Hq; [done|]. by injection Hq as <-. }
  apply Hne in Hq.
  destruct (non_empty (Some (omap _ (default [] (rules_by_program p !! first))))) as [pm|] eqn:Hpe.
  { exfalso. eapply Homap; [apply (Hrules first)| |exact Hq]. by intros Hnil; rewrite Hnil in Hpe. }
  cbn [resolve_host_executables]. unfold match_host_executable_rules. rewrite <-Hhosts.
  destruct (from_absolute_path _ _ first) as [prog|]; [|done].
  destruct (executable_path_lookup_key prog) as [basename|]; [|done].
  specialize (Hrules basename). destruct (rules_by_program p !! basename) as [rp|]; [|done].
  destruct (match host_executables_by_name p !! basename with Some _ => _ | None => _ end);
    [by destruct (rules_by_program q !! basename)|].
  intros Hpm. assert (omap (λ rule, rule_matches rule (basename :: args)) rp ≠ []) as Hrp.
  { intros Hnil. by rewrite Hnil in Hpm. }
  destruct (rules_by_program q !! basename) as [rq|].
  - simpl in Hrules. specialize (Homap rp rq _ Hrules Hrp). by destruct (omap _ rq).
  - simpl in Hrules. specialize (Homap rp [] _ Hrules Hrp). done.
Qed.

(** When a rules file parses, every 'match' example of each of its calls
    is matched by the policy that is built, and no 'not_match' example is
    matched by the rules of its own call. *)
Theorem match_examples_hold b calls b' v ex :
  rules_recorded b → parse home_dir current_dir shlex_split shlex_try_join debug_rule debug_match b calls = Ok b' →
  v ∈ drop (length (pending_example_validations b)) (pending_example_validations b') →
  rules_recorded b'
  ∧ (ex ∈ pending_matches v → examples (build b') ex ≠ [])
  ∧ (ex ∈ pending_not_matches v →
     examples (validation_policy (b_host_executables b') (pending_rules v)) ex = []).
Proof.
  intros Hb Hparse Hv. unfold parse in Hparse.
  apply result_bind_Ok in Hparse as (b1&Hrun&Hval). apply result_bind_Ok in Hval as (u&Hval&[= ->]).
  destruct (run_all_recorded _ _ _ Hrun Hb) as (Hb'&_). split; [done|].
  destruct (validate_pending_Ok _ _ _ _ ex Hval Hv) as [Hm Hn]. split; [|done].
  intros Hex. eapply examples_mono; [| |by apply Hm]; [|done].
  intros k r Hr. unfold validation_policy in Hr. cbn [rules_by_program from_parts build] in *.
  assert (∀ rs m, r ∈ default [] (foldl (λ m r, mm_insert (program r) r m) m rs !! k) →
    r ∈ default [] (m !! k) ∨ (program r = k ∧ r ∈ rs)) as Hfold.
  { clear. induction rs as [|r' rs IH]; intros m; simpl; [by left|].
    intros [Hr|[? ?]]%IH; [|right; by split; [|right]].
    apply mm_insert_elem in Hr as [?|[<- ->]]; [by left|right; by split; [|left]]. }
  apply Hfold in Hr as [Hr|[<- Hr]]; [by apply elem_of_nil in Hr|].
  eapply Hb'; [|done]. rewrite <-(take_drop (length (pending_example_validations b)) (pending_example_validations b')).
  apply elem_of_app. by right.
Qed.
End Parse.

(** ** Concrete runs *)

Abbreviation words s := (split_on SPACE (lit s)).
Definition all_allowed (cmd : list str) : ExecPolicy.Decision := Allow.

(** A policy with [git status] allowed and [git push] prompted for. *)
Definition sample_policy : Policy :=
  match (p ← add_prefix_rule (words "git status") Allow ExecPolicy.empty;
         add_prefix_rule (words "git push") Prompt p) with
  | Ok p => p | _ => ExecPolicy.empty
  end.

Lemma check_multiple_strictest_witness :
  ∃ e, check_multiple_with_options None None sample_policy [words "git status"; words "git push -f"]
         all_allowed MatchOptions_default = Ok e
    ∧ (∃ m, m ∈ matched_rules e ∧ match_decision m = eval_decision e)
    ∧ eval_decision e = Prompt.
Proof.
  destruct (check_multiple_strictest None None sample_policy [words "git status"; words "git push -f"]
    all_allowed MatchOptions_default) as [_ Hok].
  destruct Hok as (e&He&_&_&Hm&_); [done|]. exists e. split_and!; [done..|].
  revert He. vm_compute. by intros [= <-].
Defined.

Lemma forbidden_prefix_sticks_witness :
  ∃ e, check_multiple_with_options None None
         (merge_overlay (match add_prefix_rule (words "rm -rf") Forbidden sample_policy with
                         | Ok p => p | _ => ExecPolicy.empty end) sample_policy)
         [words "git status"; words "rm -rf /"] all_allowed MatchOptions_default = Ok e
    ∧ eval_decision e = Forbidden.
Proof.
  apply (forbidden_prefix_sticks None None (words "rm -rf") sample_policy _ sample_policy
    [words "git status"; words "rm -rf /"] (words "rm -rf /")).
  - reflexivity.
  - right. by left.
  - by exists [lit "/"].
Defined.

(** A rules file with one call that has an example and a counterexample. *)
Definition sample_call : BuiltinCall :=
  CallPrefixRule [VStr (lit "git"); VList [VStr (lit "status"); VStr (lit "log")]] None
    (Some [VStr (lit "git log -1")]) (Some [VStr (lit "git push")]) None None.
Definition sample_parse : result Error PolicyBuilder :=
  parse None None (λ s, Some (split_on SPACE s)) (λ l, Some (join [SPACE] l)) (λ _, []) (λ _, [])
    builder_new [sample_call].

Lemma match_examples_hold_witness :
  ∃ b v, sample_parse = Ok b ∧ v ∈ pending_example_validations b
    ∧ words "git log -1" ∈ pending_matches v
    ∧ example_matches None None (build b) (words "git log -1") ≠ [].
Proof.
  destruct sample_parse as [b|e|] eqn:Hb; [|exfalso; revert Hb; by vm_compute..].
  destruct (pending_example_validations b) as [|v vs] eqn:Hv; [exfalso; revert Hb Hv; vm_compute; by intros [= <-]|].
  assert (words "git log -1" ∈ pending_matches v) as Hin.
  { revert Hb Hv. vm_compute. intros [= <-] [= <- _]. by left. }
  exists b, v. split_and!; [done|rewrite Hv; by left|done|].
  apply (match_examples_hold None None _ _ _ _ builder_new [sample_call] b v (words "git log -1")
    rules_recorded_new Hb); [|done].
  rewrite Hv. by left.
Defined.
