(* ===== verification/Amend.v ===== *)
(** * Appending rules to a rules file

    Models [execpolicy/src/amend.rs] over the file operations it calls, the
    class [RulesFs] (one open file, which is [append_locked_line]'s), with the
    laws of an append-only handle.  serde_json's text for a string is a
    parameter.  A successful append leaves exactly what the pure function
    [append_line] says, which adds a line at most once. *)
From S2P Require Import Prelude Str Io Paths ExecPolicy.
Import Paths ExecPolicy.

Module Amend.

Inductive AmendError : Type :=
| EmptyPrefix
| InvalidNetworkRule (m : str)
| MissingParent (path : str)
| CreatePolicyDir (dir : str) (source : io_error)
| OpenPolicyFile (path : str) (source : io_error)
| WritePolicyFile (path : str) (source : io_error)
| LockPolicyFile (path : str) (source : io_error)
| SeekPolicyFile (path : str) (source : io_error)
| ReadPolicyFile (path : str) (source : io_error).

#[export] Instance AmendError_eq_dec : EqDecision AmendError.
Proof. solve_decision. Defined.

(** ** The file operations *)

Class RulesFs (FS : Type) : Type := {
  create_dir : str → FS → FS * (io_error + unit);
  (** [OpenOptions::new().create(true).read(true).append(true).open(path)] *)
  open_append : str → FS → FS * (io_error + unit);
  lock : str → FS → FS * (io_error + unit);
  seek_start : str → FS → FS * (io_error + unit);
  read_to_string : str → FS → FS * (io_error + str);
  write_all : str → str → FS → FS * (io_error + unit);
  (** the contents of a file, if it exists *)
  contents_of : FS → str → option str;
}.

(** What the operations do to contents when they succeed. *)
Class LawfulRulesFs FS `{RulesFs FS} : Prop := {
  create_dir_law d fs fs' u p :
    create_dir d fs = (fs', inr u) → contents_of fs' p = contents_of fs p;
  create_dir_exists d fs fs' e p :
    create_dir d fs = (fs', inl e) → kind e = AlreadyExists → contents_of fs' p = contents_of fs p;
  open_append_law p fs fs' u :
    open_append p fs = (fs', inr u) → contents_of fs' p = Some (default [] (contents_of fs p));
  lock_law p fs fs' u : lock p fs = (fs', inr u) → contents_of fs' p = contents_of fs p;
  seek_start_law p fs fs' u : seek_start p fs = (fs', inr u) → contents_of fs' p = contents_of fs p;
  read_to_string_law p fs fs' c :
    read_to_string p fs = (fs', inr c) → contents_of fs' p = contents_of fs p ∧ contents_of fs p = Some c;
  write_all_law p s fs fs' u c :
    contents_of fs p = Some c → write_all p s fs = (fs', inr u) → contents_of fs' p = Some (c ++ s);
}.

Section Append.
Context {FS} `{RulesFs FS}.

Abbreviation M := (io FS AmendError).

Definition append_locked_line (policy_path line : str) : M unit :=
  _ ← call (OpenPolicyFile policy_path) (open_append policy_path);
  _ ← call (LockPolicyFile policy_path) (lock policy_path);
  _ ← call (SeekPolicyFile policy_path) (seek_start policy_path);
  contents ← call (ReadPolicyFile policy_path) (read_to_string policy_path);
  if existsb (λ existing, bool_decide (existing = line)) (lines contents) then mret ()
  else
    _ ← (if bool_decide (contents ≠ []) && bool_decide (last contents ≠ Some NL)
         then call (WritePolicyFile policy_path) (write_all policy_path [NL]) else mret ());
    call (WritePolicyFile policy_path) (write_all policy_path (line ++ [NL])).

Definition append_rule_line (policy_path rule : str) : M unit :=
  match parent policy_path with
  | None => throw (MissingParent policy_path)
  | Some dir => λ fs,
      match create_dir dir fs with
      | (fs, inr _) => append_locked_line policy_path rule fs
      | (fs, inl source) =>
          if bool_decide (kind source = AlreadyExists) then append_locked_line policy_path rule fs
          else (fs, Err (CreatePolicyDir dir source))
      end
  end.

(** serde_json's text for a string, and the [Debug] text of a list of them. *)
Variable to_json : str → str.
Variable debug_strings : list str → str.

Definition prefix_rule_line (prefix : list str) : str :=
  lit "prefix_rule(pattern=[" ++ join (lit ", ") (to_json <$> prefix) ++ lit "], decision="
  ++ [DQUOTE] ++ lit "allow" ++ [DQUOTE] ++ lit ")".

Definition blocking_append_allow_prefix_rule (policy_path : str) (prefix : list str) : M unit :=
  if bool_decide (prefix = []) then throw EmptyPrefix
  else append_rule_line policy_path (prefix_rule_line prefix).

(** The [Display] of [Error]. *)
Definition error_to_string (e : Error) : str :=
  match e with
  | InvalidDecision s => lit "invalid decision: " ++ s
  | InvalidPattern s => lit "invalid pattern element: " ++ s
  | InvalidExample s => lit "invalid example: " ++ s
  | InvalidRule s => lit "invalid rule: " ++ s
  | ExampleDidNotMatch rules examples _ =>
      lit "expected every example to match at least one rule. rules: " ++ debug_strings rules
      ++ lit "; unmatched examples: " ++ debug_strings examples
  | ExampleDidMatch rule example _ =>
      lit "expected example to not match rule `" ++ rule ++ lit "`: " ++ example
  end.

Definition network_rule_line (host : str) (proto : NetworkRuleProtocol) (d : Decision)
    (j : option str) : str :=
  let decision := match d with Allow => lit "allow" | Prompt => lit "prompt" | Forbidden => lit "deny" end in
  let args :=
    [lit "host=" ++ to_json host; lit "protocol=" ++ to_json (as_policy_string proto);
     lit "decision=" ++ to_json decision]
    ++ match j with Some j => [lit "justification=" ++ to_json j] | None => [] end in
  lit "network_rule(" ++ join (lit ", ") args ++ lit ")".

Definition blocking_append_network_rule (policy_path raw_host : str) (proto : NetworkRuleProtocol)
    (d : Decision) (j : option str) : M unit :=
  host ← pure_result (map_err (λ e, InvalidNetworkRule (error_to_string e))
                        (normalize_network_rule_host raw_host));
  if justification_is_blank j
  then throw (InvalidNetworkRule (lit "justification cannot be empty"))
  else append_rule_line policy_path (network_rule_line host proto d j).
End Append.

(** ** What an append leaves in the file *)

Definition append_line (contents line : str) : str :=
  if existsb (λ existing, bool_decide (existing = line)) (lines contents) then contents
  else contents
    ++ (if bool_decide (contents ≠ []) && bool_decide (last contents ≠ Some NL) then [NL] else [])
    ++ line ++ [NL].

Lemma split_on_app c s t : split_on c (s ++ c :: t) = split_on c s ++ split_on c t.
Proof.
  induction s as [|x s IH]; simpl; [by rewrite N.eqb_refl|].
  rewrite IH. destruct (x =? c)%N; [done|]. by destruct (split_on_cons c s) as (p&ps&->).
Qed.

Lemma lines_snoc_NL s : lines (s ++ [NL]) = strip_cr <$> split_on NL s.
Proof.
  unfold lines. rewrite (split_on_app NL s []). cbn [split_on].
  by rewrite but_last_snoc, last_snoc, app_nil_r.
Qed.

Lemma lines_append_line s l : is_line l → lines ((s ++ [NL]) ++ l ++ [NL]) = lines (s ++ [NL]) ++ [l].
Proof.
  intros [Hl Hcr]. rewrite app_assoc, !lines_snoc_NL, <-app_assoc. cbn [app].
  rewrite split_on_app, fmap_app, (split_on_no_sep NL l) by done. simpl. by rewrite strip_cr_id.
Qed.

Lemma append_line_spec contents line :
  is_line line →
  line ∈ lines (append_line contents line)
  ∧ contents `prefix_of` append_line contents line
  ∧ append_line (append_line contents line) line = append_line contents line.
Proof.
  intros Hline. assert (line ∈ lines (append_line contents line)) as Hin.
  { unfold append_line. destruct (existsb _ (lines contents)) eqn:Hex.
    - apply existsb_exists in Hex as (x&Hx%list_elem_of_In&Heq). by bool_to_prop; subst.
    - destruct Hline as [Hl Hcr]. destruct contents as [|c contents _] using rev_ind.
      { simpl. rewrite lines_snoc_NL, split_on_no_sep by done. simpl. rewrite strip_cr_id by done. by left. }
      rewrite bool_decide_eq_true_2 by (by destruct contents). rewrite last_snoc. cbn [andb].
      case_bool_decide as Hlast.
      + rewrite app_assoc, lines_append_line by by split. apply elem_of_app. right. by left.
      + assert (c = NL) as -> by (apply dec_stable; naive_solver).
        cbn [app]. rewrite lines_append_line by by split. apply elem_of_app. right. by left. }
  split_and!; [done| |].
  - unfold append_line. case_match; [done|]. by eexists.
  - unfold append_line at 1. replace (existsb _ (lines (append_line contents line))) with true; [done|].
    symmetry. apply existsb_exists. exists line. split; [by apply list_elem_of_In|by apply bool_decide_eq_true_2].
Qed.

Section Lawful.
Context {FS} `{LawfulRulesFs FS}.

Lemma append_locked_line_view path line fs fs' u :
  append_locked_line path line fs = (fs', Ok u) →
  contents_of fs' path = Some (append_line (default [] (contents_of fs path)) line).
Proof.
  unfold append_locked_line, append_line. intros (fs1&?&Ho%call_Ok&Hr)%io_bind_Ok.
  apply io_bind_Ok in Hr as (fs2&?&Hl%call_Ok&Hr). apply io_bind_Ok in Hr as (fs3&?&Hs%call_Ok&Hr).
  apply io_bind_Ok in Hr as (fs4&c&Hc%call_Ok&Hr).
  apply open_append_law in Ho. apply (lock_law path) in Hl. apply (seek_start_law path) in Hs.
  apply read_to_string_law in Hc as [Hc4 Hc]. rewrite Hs, Hl, Ho in Hc. injection Hc as <-.
  assert (contents_of fs4 path = Some (default [] (contents_of fs path))) as H4 by congruence.
  destruct (existsb _ _); [by injection Hr as <- _|].
  apply io_bind_Ok in Hr as (fs5&?&Hnl&Hw%call_Ok). case_match.
  - apply call_Ok, (write_all_law _ _ _ _ _ _ H4) in Hnl.
    apply (write_all_law _ _ _ _ _ _ Hnl) in Hw. by rewrite Hw, <-app_assoc.
  - injection Hnl as <- _. exact (write_all_law _ _ _ _ _ _ H4 Hw).
Qed.

Lemma append_rule_line_view path line fs fs' u :
  append_rule_line path line fs = (fs', Ok u) →
  contents_of fs' path = Some (append_line (default [] (contents_of fs path)) line).
Proof.
  unfold append_rule_line. destruct (parent path) as [dir|]; [|done].
  destruct (create_dir dir fs) as [fs1 [e|v]] eqn:Hd.
  - case_bool_decide; [|done]. intros Hr%append_locked_line_view.
    by rewrite Hr, (create_dir_exists _ _ _ _ path Hd).
  - intros Hr%append_locked_line_view. by rewrite Hr, (create_dir_law _ _ _ _ path Hd).
Qed.

(** Over any lawful file, an append of an allow rule that succeeds leaves
    the old contents as a prefix and the rule as a line of its own, and a
    second append changes nothing. *)
Theorem append_rule_adds_line path prefix to_json fs fs' u :
  blocking_append_allow_prefix_rule to_json path prefix fs = (fs', Ok u) →
  is_line (prefix_rule_line to_json prefix) →
  let before := default [] (contents_of fs path) in
  ∃ after, contents_of fs' path = Some after
    ∧ prefix_rule_line to_json prefix ∈ lines after
    ∧ before `prefix_of` after
    ∧ (∀ fs'' u', blocking_append_allow_prefix_rule to_json path prefix fs' = (fs'', Ok u') →
       contents_of fs'' path = Some after).
Proof.
  unfold blocking_append_allow_prefix_rule. case_bool_decide; [done|].
  intros Hr%append_rule_line_view Hline. simpl.
  destruct (append_line_spec (default [] (contents_of fs path)) _ Hline) as (Hin&Hpre&Honce).
  eexists; split_and!; [exact Hr|done..|]. intros fs'' u' Hr'%append_rule_line_view.
  rewrite Hr', Hr. cbn [from_option id]. by rewrite Honce.
Qed.
End Lawful.

(** ** A file system of texts *)

Definition already_exists : io_error := {| kind := AlreadyExists; message := lit "File exists" |}.
Definition missing : io_error := {| kind := NotFound; message := lit "No such file" |}.

#[export] Instance text_fs : RulesFs (gmap str str) := {
  create_dir _ fs := (fs, inl already_exists);
  open_append p fs := (<[p := default [] (fs !! p)]> fs, inr ());
  lock _ fs := (fs, inr ());
  seek_start _ fs := (fs, inr ());
  read_to_string p fs := (fs, match fs !! p with Some c => inr c | None => inl missing end);
  write_all p s fs := (<[p := default [] (fs !! p) ++ s]> fs, inr ());
  contents_of fs p := fs !! p;
}.

#[export] Instance text_fs_lawful : LawfulRulesFs (gmap str str).
Proof.
  split; simpl; intros; simplify_eq; try done.
  - by rewrite lookup_insert_eq.
  - by destruct (fs' !! p); simplify_eq.
  - rewrite lookup_insert_eq. by match goal with E : _ !! _ = Some _ |- _ => rewrite E end.
Qed.

Definition quote (s : str) : str := [DQUOTE] ++ s ++ [DQUOTE].
Definition sample_rules : gmap str str := {[ lit "/c/rules/default.rules" := lit "# mine" ]}.
Definition sample_append : gmap str str * result AmendError unit :=
  blocking_append_allow_prefix_rule quote (lit "/c/rules/default.rules") [lit "git"; lit "status"] sample_rules.

Lemma append_rule_adds_line_witness :
  ∃ after, fst sample_append !! lit "/c/rules/default.rules" = Some after
    ∧ prefix_rule_line quote [lit "git"; lit "status"] ∈ lines after
    ∧ lit "# mine" `prefix_of` after.
Proof.
  assert (sample_append = (fst sample_append, Ok ())) as Hrun by (vm_compute; reflexivity).
  assert (is_line (prefix_rule_line quote [lit "git"; lit "status"])) as Hline
    by (split; apply (bool_decide_unpack _); vm_compute; exact I).
  destruct (append_rule_adds_line _ _ _ _ _ _ Hrun Hline) as (after&Ha&Hin&Hpre&_).
  exists after. split_and!; [exact Ha|exact Hin|].
  revert Hpre. unfold sample_rules. simpl contents_of. rewrite lookup_singleton_eq. exact id.
Defined.
End Amend.
