(* ===== verification/Shell.v ===== *)
(** * Shell scripts

    Models [shell-command/src/bash.rs] and [shell-command/src/shell_detect.rs]:
    taking apart [bash -lc "..."] invocations.  tree-sitter and its bash grammar
    are a parameter, the function from a script to its syntax tree; a [node] has
    what the code asks of a tree-sitter node. *)
From S2P Require Import Prelude Str Paths ExecPolicy.
Import Paths.

Module Shell.

(** ** Shells *)

Inductive ShellType : Type := Zsh | Bash | PowerShell | Sh | Cmd.

#[export] Instance ShellType_eq_dec : EqDecision ShellType.
Proof. solve_decision. Defined.

(** [Path::file_stem]: the file name without what follows its last dot, unless
    that is its first character. *)
Definition file_stem (path : str) : option str :=
  name ← ExecPolicy.file_name path;
  Some match rsplit_once 46 name with
       | Some (before, _) => if bool_decide (before = []) then name else before
       | None => name
       end.

(** Equality of a path with a one component path. *)
Definition path_is_component (path name : str) : bool :=
  negb (is_absolute path) && bool_decide (head (split_on SLASH path) ≠ Some DOT)
  && bool_decide (components path = [name]).

(** The recursion goes from a path to its stem, which is shorter. *)
Fixpoint detect_shell_type_loop (fuel : nat) (shell_path : str) : option ShellType :=
  let named s := bool_decide (shell_path = lit s) in
  if named "zsh" then Some Zsh
  else if named "sh" then Some Sh
  else if named "cmd" then Some Cmd
  else if named "bash" then Some Bash
  else if named "pwsh" || named "powershell" then Some PowerShell
  else
    match fuel, file_stem shell_path with
    | S fuel, Some shell_name =>
        if negb (path_is_component shell_path shell_name)
        then detect_shell_type_loop fuel shell_name else None
    | _, _ => None
    end.
Definition detect_shell_type (shell_path : str) : option ShellType :=
  detect_shell_type_loop (length shell_path) shell_path.

Definition extract_bash_command (command : list str) : option (str * str) :=
  match command with
  | [shell; flag; script] =>
      if negb (bool_decide (flag = lit "-lc") || bool_decide (flag = lit "-c"))
         || negb match detect_shell_type shell with Some (Zsh | Bash | Sh) => true | _ => false end
      then None else Some (shell, script)
  | _ => None
  end.

(** ** Syntax trees *)

(** A node: its kind, whether it is named, its first byte, its text, and its
    children. *)
#[warnings="-register-all"]
Inductive node : Type :=
| Node (node_kind : str) (is_named : bool) (start_byte : nat) (text : str) (children : list node).

Definition node_kind (n : node) : str := let 'Node k _ _ _ _ := n in k.
Definition is_named (n : node) : bool := let 'Node _ b _ _ _ := n in b.
Definition start_byte (n : node) : nat := let 'Node _ _ b _ _ := n in b.
Definition text (n : node) : str := let 'Node _ _ _ t _ := n in t.
Definition children (n : node) : list node := let 'Node _ _ _ _ l := n in l.
Definition named_children (n : node) : list node := filter is_named (children n).

Definition kind_is (n : node) (s : string) : bool := bool_decide (node_kind n = lit s).
Definition kind_in (n : node) (l : list string) : bool := existsb (kind_is n) l.

(** What tree-sitter returns for a script. *)
Record Tree : Type := { root_node : node; has_error : bool }.

Fixpoint size (n : node) : nat :=
  let 'Node _ _ _ _ l := n in S (sum_list_with size l).

(** [while let Some(node) = stack.pop() { visit; push the next nodes }], where
    [visit] may leave the function ([None]).  The head of the list is the top of
    the stack. *)
Section Walk.
Context {A : Type}.
Variable next : node → list node.
Variable visit : node → A → option A.

Fixpoint walk (fuel : nat) (stack : list node) (acc : A) : result unit (option A) :=
  match stack with
  | [] => Ok (Some acc)
  | n :: stack =>
      match fuel with
      | 0 => Crash
      | S fuel =>
          match visit n acc with
          | None => Ok None
          | Some acc => walk fuel (reverse (next n) ++ stack) acc
          end
      end
  end.
End Walk.

(** What a finished walk leaves; with the size of the tree as its fuel every
    walk finishes. *)
Definition finished {A} (r : result unit (option A)) : option A :=
  match r with Ok o => o | Err _ | Crash => None end.

(** A stable sort by the first byte. *)
Fixpoint insert_by_start (n : node) (l : list node) : list node :=
  match l with
  | [] => [n]
  | m :: l' => if start_byte n <=? start_byte m then n :: l else m :: insert_by_start n l'
  end.
Definition sort_by_start (l : list node) : list node := foldr insert_by_start [] l.

(** ** Plain commands *)

Definition ALLOWED_KINDS : list string :=
  ["program"; "list"; "pipeline"; "command"; "command_name"; "word"; "string";
   "string_content"; "raw_string"; "number"; "concatenation"]%string.
(** The two quotes are written as characters below. *)
Definition ALLOWED_PUNCT_TOKENS : list str :=
  [lit "&&"; lit "||"; lit ";"; lit "|"; [DQUOTE]; [SQUOTE]].

(** Whether a node may occur in a script of plain commands. *)
Definition allowed_node (n : node) : bool :=
  let kind := node_kind n in
  let allowed_punct := bool_decide (kind ∈ ALLOWED_PUNCT_TOKENS) in
  if is_named n then kind_in n ALLOWED_KINDS
  else if existsb (contains_char (lit "&;|")) kind && negb allowed_punct then false
  else allowed_punct || bool_decide (trim kind = []).

Definition parse_double_quoted_string (n : node) : option str :=
  if negb (kind_is n "string") then None
  else if negb (forallb (λ part, kind_is part "string_content") (named_children n)) then None
  else stripped ← strip_prefix [DQUOTE] (text n); strip_suffix [DQUOTE] stripped.

Definition parse_raw_string (n : node) : option str :=
  if negb (kind_is n "raw_string") then None
  else stripped ← strip_prefix [SQUOTE] (text n); strip_suffix [SQUOTE] stripped.

(** A word, number or quoted string. *)
Definition parse_part (part : node) : option str :=
  if kind_is part "word" || kind_is part "number" then Some (text part)
  else if kind_is part "string" then parse_double_quoted_string part
  else if kind_is part "raw_string" then parse_raw_string part
  else None.

Definition parse_concatenation (child : node) : option str :=
  concatenated ← foldl (λ acc part, acc ← acc; s ← parse_part part; Some (acc ++ s))
                   (Some []) (named_children child);
  if bool_decide (concatenated = []) then None else Some concatenated.

Definition parse_argument (child : node) : option str :=
  if kind_is child "command_name" then
    word_node ← head (named_children child);
    if negb (kind_is word_node "word") then None else Some (text word_node)
  else if kind_is child "concatenation" then parse_concatenation child
  else parse_part child.

Definition parse_plain_command_from_node (cmd : node) : option (list str) :=
  if negb (kind_is cmd "command") then None
  else foldl (λ words child, words ← words; word ← parse_argument child; Some (words ++ [word]))
         (Some []) (named_children cmd).

Definition visit_word_only (n : node) (command_nodes : list node) : option (list node) :=
  if negb (allowed_node n) then None
  else Some (if is_named n && kind_is n "command" then command_nodes ++ [n] else command_nodes).

Fixpoint parse_all (nodes : list node) : option (list (list str)) :=
  match nodes with
  | [] => Some []
  | n :: nodes => words ← parse_plain_command_from_node n; rest ← parse_all nodes; Some (words :: rest)
  end.

Definition try_parse_word_only_commands_sequence (tree : Tree) : option (list (list str)) :=
  if has_error tree then None
  else
    command_nodes ← finished (walk children visit_word_only (size (root_node tree)) [root_node tree] []);
    parse_all (sort_by_start command_nodes).

(** ** Commands with a here document *)

Definition has_named_descendant_kind (n : node) (kind : string) : bool :=
  bool_decide
    (finished (walk named_children (λ n _, if kind_is n kind then None else Some ()) (size n) [n] ()) = None).

Definition visit_command (n : node) (single_command : option node) : option (option node) :=
  if kind_is n "command" then
    match single_command with Some _ => None | None => Some (Some n) end
  else Some single_command.

Definition find_single_command_node (root : node) : option node :=
  default None (finished (walk named_children visit_command (size root) [root] None)).

Definition is_literal_word_or_number (n : node) : bool :=
  (kind_is n "word" || kind_is n "number") && bool_decide (length (named_children n) = 0).

Definition is_allowed_heredoc_attachment_kind (n : node) : bool :=
  kind_in n ["heredoc_body"; "simple_heredoc_body"; "heredoc_redirect"; "herestring_redirect";
             "file_redirect"; "redirected_statement"].

Definition heredoc_argument (words : list str) (child : node) : option (list str) :=
  if kind_is child "command_name" then
    word_node ← head (named_children child);
    if negb (is_literal_word_or_number word_node) then None else Some (words ++ [text word_node])
  else if kind_is child "word" || kind_is child "number" then
    if negb (is_literal_word_or_number child) then None else Some (words ++ [text child])
  else if kind_is child "variable_assignment" || kind_is child "comment" then Some words
  else if is_allowed_heredoc_attachment_kind child then Some words
  else None.

Definition parse_heredoc_command_words (cmd : node) : option (list str) :=
  if negb (kind_is cmd "command") then None
  else
    words ← foldl (λ words child, words ← words; heredoc_argument words child) (Some []) (named_children cmd);
    if bool_decide (words = []) then None else Some words.

(** ** Scripts *)

Section Scripts.
(** tree-sitter with its bash grammar. *)
Variable try_parse_shell : str → option Tree.

Definition parse_shell_lc_plain_commands (command : list str) : option (list (list str)) :=
  '(_, script) ← extract_bash_command command;
  tree ← try_parse_shell script;
  try_parse_word_only_commands_sequence tree.

Definition parse_shell_lc_single_command_prefix (command : list str) : option (list str) :=
  '(_, script) ← extract_bash_command command;
  tree ← try_parse_shell script;
  let root := root_node tree in
  if has_error tree then None
  else if negb (has_named_descendant_kind root "heredoc_redirect") then None
  else
    command_node ← find_single_command_node root;
    parse_heredoc_command_words command_node.
End Scripts.
End Shell.
