(* ===== verification/ShellFacts.v ===== *)
(** * What the parser of plain commands accepts

    The stack walks visit every node and end within their fuel, the size of
    the tree; a script is accepted exactly when its whole tree is allowed and
    its commands are plain, and then every command is reported, in order. *)
From S2P Require Import Prelude Str Paths Shell.
Import Shell.

(** ** Walking a tree *)

Inductive descendant (next : node → list node) (root : node) : node → Prop :=
| descendant_refl : descendant next root root
| descendant_step n c : descendant next root n → c ∈ next n → descendant next root c.

Lemma descendant_trans next root c n :
  c ∈ next root → descendant next c n → descendant next root n.
Proof.
  intros Hc Hd. induction Hd as [|d e _ IH He].
  - exact (descendant_step next root root c (descendant_refl next root) Hc).
  - exact (descendant_step next root d e IH He).
Qed.

Lemma descendant_inv next root n :
  descendant next root n → n = root ∨ ∃ c, c ∈ next root ∧ descendant next c n.
Proof.
  induction 1 as [|d e _ [->|(c&Hc&Hd)] He]; [by left| |].
  - right. exists e. split; [done|]. exact (descendant_refl next e).
  - right. exists c. split; [done|exact (descendant_step next c d e Hd He)].
Qed.

(** The next nodes are smaller. *)
Definition shrinks (next : node → list node) : Prop :=
  ∀ n, sum_list_with size (next n) < size n.

Lemma size_children n : size n = S (sum_list_with size (children n)).
Proof. by destruct n. Qed.

Lemma children_shrinks : shrinks children.
Proof. intros n. rewrite size_children. lia. Qed.

Lemma sum_filter {A} (f : A → nat) (P : A → Prop) `{∀ x, Decision (P x)} l :
  sum_list_with f (filter P l) ≤ sum_list_with f l.
Proof. induction l as [|x l IH]; [done|]. rewrite filter_cons. case_decide; simpl; lia. Qed.

Lemma named_children_shrinks : shrinks named_children.
Proof. intros n. rewrite size_children. unfold named_children. pose proof (sum_filter size is_named (children n)). lia. Qed.

Lemma sum_reverse {A} (f : A → nat) l : sum_list_with f (reverse l) = sum_list_with f l.
Proof.
  induction l as [|x l IH]; [done|]. rewrite reverse_cons, sum_list_with_app, IH. simpl. lia.
Qed.

Section Visits.
Variable next : node → list node.

(** The nodes a walk of a stack visits, in order. *)
Inductive visits : list node → list node → Prop :=
| visits_nil : visits [] []
| visits_cons n stack l : visits (reverse (next n) ++ stack) l → visits (n :: stack) (n :: l).

Lemma visits_elem stack l n :
  visits stack l → n ∈ l ↔ ∃ m, m ∈ stack ∧ descendant next m n.
Proof.
  intros Hv. revert n. induction Hv as [|m stack l Hv IH]; intros n; [set_solver|].
  rewrite elem_of_cons, IH. split.
  - intros [->|(c&Hc&Hd)]; [exists m; split; [by left|exact (descendant_refl next m)]|].
    rewrite elem_of_app, elem_of_reverse in Hc. destruct Hc as [Hc|Hc]; [|exists c; split; [by right|done]].
    exists m. split; [by left|]. exact (descendant_trans _ _ _ _ Hc Hd).
  - intros (c&[->|Hc]%elem_of_cons&Hd); [|right; exists c; set_solver].
    apply descendant_inv in Hd as [->|(c&Hc&Hd)]; [by left|].
    right. exists c. split; [|done]. apply elem_of_app. left. by apply elem_of_reverse.
Qed.

End Visits.

Lemma visits_ex next stack : shrinks next → ∃ l, visits next stack l.
Proof.
  intros Hnext. remember (sum_list_with size stack) as k eqn:Hk. revert stack Hk.
  induction (lt_wf k) as [k _ IH]. intros [|n stack] ->; [by eexists; constructor|].
  edestruct (IH (sum_list_with size (reverse (next n) ++ stack))) as [l Hl]; [|done|by eexists; constructor].
  rewrite sum_list_with_app, sum_reverse. simpl. specialize (Hnext n). lia.
Qed.

Section Walk.
Context {A : Type} (next : node → list node) (visit : node → A → option A).
Hypothesis Hnext : shrinks next.

(** The fold a walk computes: it stops at the first [None]. *)
Fixpoint fold_visit (l : list node) (acc : A) : option A :=
  match l with [] => Some acc | n :: l => visit n acc ≫= fold_visit l end.

Lemma walk_fold fuel stack l acc :
  visits next stack l → sum_list_with size stack ≤ fuel →
  walk next visit fuel stack acc = Ok (fold_visit l acc).
Proof.
  intros Hv. revert fuel acc. induction Hv as [|n stack l Hv IH]; intros fuel acc Hfuel; [by destruct fuel|].
  specialize (Hnext n). simpl in Hfuel. destruct fuel as [|fuel]; [lia|]. simpl.
  destruct (visit n acc) as [acc'|]; [|done]. simpl. apply IH.
  rewrite sum_list_with_app, sum_reverse. lia.
Qed.
End Walk.

(** ** Sorting by position *)

Lemma elem_of_insert_by_start m n l : m ∈ insert_by_start n l ↔ m = n ∨ m ∈ l.
Proof. induction l as [|x l IH]; simpl; [set_solver|]. case_match; set_solver. Qed.

Lemma elem_of_sort_by_start m l : m ∈ sort_by_start l ↔ m ∈ l.
Proof. induction l as [|x l IH]; simpl; [done|]. rewrite elem_of_insert_by_start, elem_of_cons. naive_solver. Qed.

Definition start_le (m n : node) : Prop := start_byte m ≤ start_byte n.

Lemma insert_by_start_sorted n l : Sorted start_le l → Sorted start_le (insert_by_start n l).
Proof.
  induction 1 as [|m l Hl IH Hm]; simpl; [by repeat constructor|].
  case_match; bool_to_prop; [by repeat constructor|]. constructor; [done|].
  destruct Hm as [|x l]; simpl; [constructor; unfold start_le; lia|].
  case_match; constructor; unfold start_le in *; lia.
Qed.

Lemma sort_by_start_sorted l : Sorted start_le (sort_by_start l).
Proof. induction l; simpl; [constructor|by apply insert_by_start_sorted]. Qed.

(** ** Plain commands *)

Definition is_command (n : node) : bool := is_named n && kind_is n "command".

Lemma fold_word_only l acc :
  fold_visit visit_word_only l acc =
  if forallb allowed_node l then Some (acc ++ filter is_command l) else None.
Proof.
  revert acc. induction l as [|n l IH]; intros acc; [by rewrite app_nil_r|].
  cbn [fold_visit forallb]. unfold visit_word_only. fold (is_command n). rewrite filter_cons.
  destruct (allowed_node n); [|done]. cbn [negb mbind option_bind andb]. rewrite IH.
  destruct (is_command n); [|done]. simpl. by rewrite <-app_assoc.
Qed.

Lemma parse_all_Some nodes cmds :
  parse_all nodes = Some cmds ↔ Forall2 (λ n words, parse_plain_command_from_node n = Some words) nodes cmds.
Proof.
  revert cmds. induction nodes as [|n nodes IH]; intros cmds; simpl.
  - split; [intros [= <-]; constructor|by inversion 1].
  - split.
    + destruct (parse_plain_command_from_node n) eqn:Hn; [|done]. simpl.
      destruct (parse_all nodes) eqn:Ha; [|done]. intros [= <-]. constructor; [done|by apply IH].
    + inversion 1 as [|? words ? rest Hn Hr]; subst. rewrite Hn. simpl. apply IH in Hr as ->. done.
Qed.

Lemma parse_all_None nodes :
  parse_all nodes = None ↔ ∃ n, n ∈ nodes ∧ parse_plain_command_from_node n = None.
Proof.
  induction nodes as [|n nodes IH]; simpl; [split; [done|by intros (?&[]%elem_of_nil&_)]|].
  setoid_rewrite elem_of_cons. destruct (parse_plain_command_from_node n) eqn:Hn; simpl; [|naive_solver].
  destruct (parse_all nodes); simpl; [|naive_solver].
  split; [done|]. intros (m&[->|Hm]&Hp); [congruence|]. discriminate (proj2 IH (ex_intro _ m (conj Hm Hp))).
Qed.

Abbreviation in_tree := (descendant children).

(** The walk of a tree ends within its fuel. *)
Lemma walk_finishes {A} next (visit : node → A → option A) root acc :
  shrinks next → ∃ l, visits next [root] l ∧ walk next visit (size root) [root] acc = Ok (fold_visit visit l acc).
Proof.
  intros Hnext. destruct (visits_ex next [root] Hnext) as [l Hl]. exists l. split; [done|].
  apply walk_fold; [done..|]. simpl. lia.
Qed.

(** C33. The stack walk over a script's tree finishes, accepts exactly the
    trees without errors all of whose nodes are allowed and all of whose
    commands parse, and then returns the commands in source order. *)
Theorem word_only_accepts_exactly tree :
  let root := root_node tree in
  let r := try_parse_word_only_commands_sequence tree in
  walk children visit_word_only (size root) [root] [] ≠ Crash
  ∧ (r = None ↔ has_error tree = true
     ∨ (∃ n, in_tree root n ∧ allowed_node n = false)
     ∨ (∃ n, in_tree root n ∧ is_command n = true ∧ parse_plain_command_from_node n = None))
  ∧ ∀ cmds, r = Some cmds →
    ∃ nodes, Sorted start_le nodes
      ∧ (∀ n, n ∈ nodes ↔ in_tree root n ∧ is_command n = true)
      ∧ Forall2 (λ n words, parse_plain_command_from_node n = Some words) nodes cmds.
Proof.
  intros root r. destruct (walk_finishes children visit_word_only root [] children_shrinks) as (l&Hl&Hwalk).
  split; [by rewrite Hwalk|]. unfold r, try_parse_word_only_commands_sequence. fold root. rewrite Hwalk.
  rewrite fold_word_only. destruct (has_error tree) eqn:Herr; [split; [naive_solver|done]|].
  assert (∀ n, n ∈ l ↔ in_tree root n) as Hin.
  { intros n. rewrite (visits_elem children _ _ n Hl). set_solver. }
  destruct (forallb allowed_node l) eqn:Hall; simpl.
  - rewrite forallb_Forall, Forall_forall in Hall. split.
    + rewrite parse_all_None. setoid_rewrite elem_of_sort_by_start. setoid_rewrite list_elem_of_filter. split.
      * intros (n&[Hc%Is_true_true Hn%Hin]&Hp). right. right. eauto.
      * intros [?|[(n&Hn%Hin&Hf)|(n&Hn%Hin&Hc&Hp)]]; [done|by rewrite Hall in Hf|].
        exists n. split; [|done]. split; [by apply Is_true_true|done].
    + intros cmds Hcmds%parse_all_Some. eexists. split_and!; [apply sort_by_start_sorted| |exact Hcmds].
      intros n. rewrite elem_of_sort_by_start, list_elem_of_filter, Hin, Is_true_true. naive_solver.
  - split; [|done]. split; [|done]. intros _. right. left.
    apply not_true_iff_false in Hall. rewrite forallb_Forall in Hall.
    apply not_Forall_Exists in Hall; [|solve_decision]. apply Exists_exists in Hall as (n&Hn%Hin&Hf).
    exists n. split; [done|]. by apply not_true_iff_false.
Qed.

(** ** The tree of [ls -1 && pwd] *)

Definition leaf (kind : string) (named : bool) (start : nat) (s : string) : node :=
  Node (lit kind) named start (lit s) [].
Definition word_command (start : nat) (name : string) (args : list node) : node :=
  Node (lit "command") true start (lit name)
    (Node (lit "command_name") true start (lit name) [leaf "word" true start name] :: args).
Definition sample_tree : Tree := {|
  root_node := Node (lit "program") true 0 (lit "ls -1 && pwd")
    [Node (lit "list") true 0 (lit "ls -1 && pwd")
       [word_command 0 "ls" [leaf "number" true 3 "-1"]; leaf "&&" false 6 "&&"; word_command 9 "pwd" []]];
  has_error := false |}.

Lemma word_only_accepts_exactly_witness :
  ∃ nodes, Sorted start_le nodes
    ∧ (∀ n, n ∈ nodes ↔ in_tree (root_node sample_tree) n ∧ is_command n = true)
    ∧ Forall2 (λ n words, parse_plain_command_from_node n = Some words) nodes
        [[lit "ls"; lit "-1"]; [lit "pwd"]].
Proof.
  destruct (word_only_accepts_exactly sample_tree) as (_&_&Hsome).
  apply Hsome. by vm_compute.
Defined.
