(* ===== verification/CommandSafety.v ===== *)
(** * Commands that need no approval

    Models [shell-command/src/command_safety]: [is_dangerous_command.rs],
    [is_safe_command.rs] (built for Linux) and [windows_safe_commands.rs], which
    the safety check calls on every platform.  PowerShell's own parser, a process
    started from the executable the command names, is a parameter. *)
From S2P Require Import Prelude Str Paths ExecPolicy Shell.
Import Paths Shell.

Module CommandSafety.

(** [matches!(arg, "a" | "b" | ...)] and the like. *)
Definition one_of (s : str) (l : list string) : bool := existsb (λ x, bool_decide (s = lit x)) l.
Definition starts_with_one_of (s : str) (l : list string) : bool := existsb (λ x, starts_with s (lit x)) l.

(** ** Git options and dangerous commands *)

Definition is_git_global_option_with_value (arg : str) : bool :=
  one_of arg ["-C"; "-c"; "--config-env"; "--exec-path"; "--git-dir"; "--namespace"; "--super-prefix";
              "--work-tree"].

Definition inline_value_prefixes : list string :=
  ["--config-env="; "--exec-path="; "--git-dir="; "--namespace="; "--super-prefix="; "--work-tree="].

Definition is_git_global_option_with_inline_value (arg : str) : bool :=
  starts_with_one_of arg inline_value_prefixes
  || ((starts_with arg (lit "-C") || starts_with arg (lit "-c")) && (2 <? byte_len arg)).

Definition git_global_option_requires_prompt (arg : str) : bool :=
  one_of arg ["-c"; "--config-env"; "--exec-path"; "--git-dir"; "--namespace"; "--super-prefix"; "--work-tree"]
  || (starts_with arg (lit "-c") && (2 <? byte_len arg))
  || starts_with_one_of arg inline_value_prefixes.

Definition executable_name_lookup_key (raw : str) : option str := ExecPolicy.file_name raw.

(** The loop of [find_git_subcommand] over the arguments from [idx] on. *)
Fixpoint find_subcommand_loop (subcommands : list string) (skip_next : bool) (idx : nat)
    (args : list str) : option (nat * str) :=
  match args with
  | [] => None
  | arg :: args =>
      let continue skip := find_subcommand_loop subcommands skip (S idx) args in
      if skip_next then continue false
      else if is_git_global_option_with_inline_value arg then continue false
      else if is_git_global_option_with_value arg then continue true
      else if bool_decide (arg = lit "--") || starts_with arg (lit "-") then continue false
      else if one_of arg subcommands then Some (idx, arg)
      else None
  end.

Definition find_git_subcommand (command : list str) (subcommands : list string) : option (nat * str) :=
  cmd0 ← head command;
  if bool_decide (executable_name_lookup_key cmd0 ≠ Some (lit "git")) then None
  else find_subcommand_loop subcommands false 1 (drop 1 command).

Fixpoint is_dangerous_to_call_with_exec (command : list str) : bool :=
  match command with
  | [] => false
  | cmd0 :: args =>
      if bool_decide (cmd0 = lit "rm") then
        match args with arg :: _ => one_of arg ["-f"; "-rf"] | [] => false end
      else if bool_decide (cmd0 = lit "sudo") then is_dangerous_to_call_with_exec args
      else false
  end.

(** ** Safe commands *)

Definition safe_programs : list string :=
  ["cat"; "cd"; "cut"; "echo"; "expr"; "false"; "grep"; "head"; "id"; "ls"; "nl"; "paste"; "pwd"; "rev";
   "seq"; "stat"; "tail"; "tr"; "true"; "uname"; "uniq"; "wc"; "which"; "whoami"].

Definition unsafe_base64_option (arg : str) : bool :=
  one_of arg ["-o"; "--output"] || starts_with arg (lit "--output=")
  || (starts_with arg (lit "-o") && bool_decide (arg ≠ lit "-o")).

Definition UNSAFE_FIND_OPTIONS : list string :=
  ["-exec"; "-execdir"; "-ok"; "-okdir"; "-delete"; "-fls"; "-fprint"; "-fprint0"; "-fprintf"].

Definition UNSAFE_RIPGREP_OPTIONS_WITH_ARGS : list string := ["--pre"; "--hostname-bin"].
Definition UNSAFE_RIPGREP_OPTIONS_WITHOUT_ARGS : list string := ["--search-zip"; "-z"].
Definition unsafe_ripgrep_option (arg : str) : bool :=
  one_of arg UNSAFE_RIPGREP_OPTIONS_WITHOUT_ARGS
  || existsb (λ opt, bool_decide (arg = lit opt) || starts_with arg (lit opt ++ lit "="))
       UNSAFE_RIPGREP_OPTIONS_WITH_ARGS.

Definition read_only_branch_flag (arg : str) : bool :=
  one_of arg ["--list"; "-l"; "--show-current"; "-a"; "--all"; "-r"; "--remotes"; "-v"; "-vv"; "--verbose"]
  || starts_with arg (lit "--format=").

Fixpoint branch_args_loop (saw_read_only_flag : bool) (args : list str) : bool :=
  match args with
  | [] => saw_read_only_flag
  | arg :: args => if read_only_branch_flag arg then branch_args_loop true args else false
  end.
Definition git_branch_is_read_only (branch_args : list str) : bool :=
  match branch_args with [] => true | _ => branch_args_loop false branch_args end.

Definition git_has_unsafe_global_option (command : list str) : bool :=
  existsb git_global_option_requires_prompt (drop 1 command).

Definition unsafe_git_flag (arg : str) : bool :=
  one_of arg ["--output"; "--ext-diff"; "--textconv"; "--exec"; "--paginate"]
  || starts_with arg (lit "--output=") || starts_with arg (lit "--exec=").
Definition git_subcommand_args_are_read_only (args : list str) : bool := negb (existsb unsafe_git_flag args).

Definition is_number (s : str) : bool := bool_decide (s ≠ []) && forallb is_ascii_digit s.
Definition is_valid_sed_n_arg (arg : option str) : bool :=
  match arg with
  | None => false
  | Some s =>
      match strip_suffix (lit "p") s with
      | None => false
      | Some core =>
          match split_on 44 core with
          | [num] => is_number num
          | [a; b] => is_number a && is_number b
          | _ => false
          end
      end
  end.

Definition git_command_is_safe (command : list str) : bool :=
  if git_has_unsafe_global_option command then false
  else match find_git_subcommand command ["status"; "log"; "diff"; "show"; "branch"] with
       | None => false
       | Some (subcommand_idx, subcommand) =>
           let subcommand_args := drop (subcommand_idx + 1) command in
           if one_of subcommand ["status"; "log"; "diff"; "show"]
           then git_subcommand_args_are_read_only subcommand_args
           else if one_of subcommand ["branch"]
           then git_subcommand_args_are_read_only subcommand_args && git_branch_is_read_only subcommand_args
           else false
       end.

Definition is_safe_to_call_with_exec (command : list str) : bool :=
  match command with
  | [] => false
  | cmd0 :: args =>
      match executable_name_lookup_key cmd0 with
      | None => false
      | Some cmd =>
          if one_of cmd ["numfmt"; "tac"] then true
          else if one_of cmd safe_programs then true
          else if one_of cmd ["base64"] then negb (existsb unsafe_base64_option args)
          else if one_of cmd ["find"] then negb (existsb (λ arg, one_of arg UNSAFE_FIND_OPTIONS) command)
          else if one_of cmd ["rg"] then negb (existsb unsafe_ripgrep_option command)
          else if one_of cmd ["git"] then git_command_is_safe command
          else if one_of cmd ["sed"] then
            (length command <=? 4) && bool_decide (command !! 1 = Some (lit "-n"))
            && is_valid_sed_n_arg (command !! 2)
          else false
      end
  end.

(** ** PowerShell invocations *)

Definition is_powershell_executable (exe : str) : bool :=
  one_of (to_ascii_lowercase (default exe (ExecPolicy.file_name exe)))
    ["powershell"; "powershell.exe"; "pwsh"; "pwsh.exe"].

(** [str::trim_matches] of the parentheses, and the rest of a word's reading. *)
Definition is_paren (c : char) : bool := ((c =? 40) || (c =? 41))%N.
Definition bare_word (w : str) : str :=
  to_ascii_lowercase (trim_start_matches (N.eqb 45)
    (trim_end_matches is_paren (trim_start_matches is_paren w))).

(** [str::replace] of a quote by two. *)
Definition double_quotes (s : str) : str :=
  s ≫= λ c, if (c =? SQUOTE)%N then [SQUOTE; SQUOTE] else [c].
Definition quote_argument (arg : str) : str :=
  if bool_decide (arg = []) then [SQUOTE; SQUOTE]
  else if forallb (λ c, negb (is_whitespace c)) arg then arg
  else [SQUOTE] ++ double_quotes arg ++ [SQUOTE].
Definition join_arguments_as_script (args : list str) : str :=
  match args with
  | [] => []
  | first :: rest => join [SPACE] (first :: (quote_argument <$> rest))
  end.

(** The script of [parse_powershell_invocation], from the arguments left. *)
Fixpoint powershell_script (args : list str) : option str :=
  match args with
  | [] => None
  | arg :: args' =>
      let lower := to_ascii_lowercase arg in
      if one_of lower ["-command"; "/command"; "-c"] then
        match args' with [script] => Some script | _ => None end
      else if starts_with_one_of lower ["-command:"; "/command:"] then
        match args' with [] => snd <$> split_once 58 arg | _ => None end
      else if one_of lower ["-nologo"; "-noprofile"; "-noninteractive"; "-mta"; "-sta"] then
        powershell_script args'
      else if one_of lower ["-encodedcommand"; "-ec"; "-file"; "/file"; "-windowstyle"; "-executionpolicy";
                            "-workingdirectory"] then None
      else if starts_with lower (lit "-") then None
      else Some (join_arguments_as_script args)
  end.

Definition side_effecting_cmdlets : list string :=
  ["set-content"; "add-content"; "out-file"; "new-item"; "remove-item"; "move-item"; "copy-item";
   "rename-item"; "start-process"; "stop-process"].
Definition read_only_cmdlets : list string :=
  ["echo"; "write-output"; "write-host"; "dir"; "ls"; "get-childitem"; "gci"; "cat"; "type"; "gc";
   "get-content"; "select-string"; "sls"; "findstr"; "measure-object"; "measure"; "get-location"; "gl"; "pwd";
   "test-path"; "tp"; "resolve-path"; "rvpa"; "select-object"; "select"; "get-item"].

Definition is_safe_ripgrep (words : list str) : bool :=
  negb (existsb (λ arg, unsafe_ripgrep_option (to_ascii_lowercase arg)) (drop 1 words)).

Fixpoint safe_git_loop (args : list str) : bool :=
  match args with
  | [] => false
  | arg :: args =>
      let arg_lc := to_ascii_lowercase arg in
      if starts_with arg (lit "-") then
        if git_global_option_requires_prompt arg_lc || bool_decide (arg_lc = lit "--config")
           || starts_with arg_lc (lit "--config=")
        then false else safe_git_loop args
      else one_of arg_lc ["status"; "log"; "show"; "diff"; "cat-file"]
  end.
Definition is_safe_git_command (words : list str) : bool := safe_git_loop (drop 1 words).

Definition is_safe_powershell_command (words : list str) : bool :=
  match words with
  | [] => false
  | word0 :: _ =>
      if existsb (λ w, one_of (bare_word w) side_effecting_cmdlets) words then false
      else
        let command := bare_word word0 in
        if one_of command read_only_cmdlets then true
        else if one_of command ["git"] then is_safe_git_command words
        else if one_of command ["rg"] then is_safe_ripgrep words
        else false
  end.

Section Safety.
Variable try_parse_shell : str → option Tree.
(** [parse_with_powershell_ast]: starts the executable and asks it to parse the
    script; [None] unless it answers with commands. *)
Variable parse_with_powershell_ast : str → str → option (list (list str)).

(** The executable a safety check starts, and the script it passes to it. *)
Definition parse_powershell_invocation (command : list str) : option (str * str) :=
  match command with
  | [] => None
  | exe :: rest =>
      if is_powershell_executable exe then (λ script, (exe, script)) <$> powershell_script rest else None
  end.

Definition is_safe_command_windows (command : list str) : bool :=
  match ('(exe, script) ← parse_powershell_invocation command; parse_with_powershell_ast exe script) with
  | Some commands => forallb is_safe_powershell_command commands
  | None => false
  end.

Definition command_might_be_dangerous (command : list str) : bool :=
  is_dangerous_to_call_with_exec command
  || match parse_shell_lc_plain_commands try_parse_shell command with
     | Some all_commands => existsb is_dangerous_to_call_with_exec all_commands
     | None => false
     end.

Definition is_known_safe_command (command : list str) : bool :=
  let command := (λ s, if bool_decide (s = lit "zsh") then lit "bash" else s) <$> command in
  is_safe_command_windows command
  || is_safe_to_call_with_exec command
  || match parse_shell_lc_plain_commands try_parse_shell command with
     | Some all_commands => bool_decide (all_commands ≠ []) && forallb is_safe_to_call_with_exec all_commands
     | None => false
     end.
End Safety.
End CommandSafety.

(** ** What a safe command can be

    A git command that needs no approval has no option that redirects its
    configuration, a read-only subcommand as its first word, and no argument
    that writes or runs something. *)
Import Paths Shell CommandSafety.

Lemma one_of_spec s l : one_of s l = true ↔ ∃ x, x ∈ l ∧ s = lit x.
Proof.
  unfold one_of. rewrite existsb_exists. setoid_rewrite bool_decide_eq_true.
  setoid_rewrite list_elem_of_In. done.
Qed.

Lemma existsb_false {A} (f : A → bool) l : existsb f l = false ↔ ∀ x, x ∈ l → f x = false.
Proof.
  induction l as [|y l IH]; simpl; [split; [by intros _ x []%elem_of_nil|done]|].
  rewrite orb_false_iff, IH. setoid_rewrite elem_of_cons. naive_solver.
Qed.

(** The word at position [j] of [args] is an option, or the value of one. *)
Definition option_or_value (skip_next : bool) (args : list str) (j : nat) : Prop :=
  ∃ a, args !! j = Some a ∧
    (starts_with a (lit "-") = true
     ∨ match j with
       | 0 => skip_next = true
       | S k => ∃ o, args !! k = Some o ∧ is_git_global_option_with_value o = true
       end).

Lemma starts_with_dash s p : starts_with s (lit ("-" ++ p)%string) = true → starts_with s (lit "-") = true.
Proof.
  rewrite !starts_with_spec. intros [k ->]. exists (lit p ++ k). unfold lit. simpl. done.
Qed.

Lemma option_with_value_dash a : is_git_global_option_with_value a = true → starts_with a (lit "-") = true.
Proof.
  intros (x&Hx&->)%one_of_spec. revert x Hx.
  refine (proj1 (Forall_forall _ _) _). repeat constructor.
Qed.

Lemma inline_value_dash a : is_git_global_option_with_inline_value a = true → starts_with a (lit "-") = true.
Proof.
  unfold is_git_global_option_with_inline_value. intros [H|[H _]%andb_true_iff]%orb_true_iff.
  - apply existsb_exists in H as (x&Hx%list_elem_of_In&Hs). revert x Hx Hs.
    refine (proj1 (Forall_forall _ _) _). repeat constructor; apply (starts_with_dash a).
  - apply orb_true_iff in H as [H|H]; [by apply (starts_with_dash a "C")|by apply (starts_with_dash a "c")].
Qed.

(** What the scan for a subcommand skips. *)
Lemma find_subcommand_loop_spec subs skip_next idx args i sub :
  find_subcommand_loop subs skip_next idx args = Some (i, sub) →
  idx ≤ i ∧ args !! (i - idx) = Some sub ∧ one_of sub subs = true
  ∧ ∀ j, j < i - idx → option_or_value skip_next args j.
Proof.
  revert skip_next idx. induction args as [|arg args IH]; intros skip_next idx; [done|].
  cbn [find_subcommand_loop]. intros Hfind.
  assert (∀ skip, (skip = true → is_git_global_option_with_value arg = true) →
    (starts_with arg (lit "-") = true ∨ skip_next = true) →
    find_subcommand_loop subs skip (S idx) args = Some (i, sub) →
    idx ≤ i ∧ (arg :: args) !! (i - idx) = Some sub ∧ one_of sub subs = true
    ∧ ∀ j, j < i - idx → option_or_value skip_next (arg :: args) j) as Hskip.
  { intros skip Hskip Harg (Hle&Hsub&Hone&Hbefore)%IH.
    replace (i - idx) with (S (i - S idx)) by lia. split_and!; [lia|done..|].
    intros [|j] Hj; [by exists arg|]. destruct (Hbefore j) as (a&Ha&Hor); [lia|].
    exists a. split; [done|]. destruct Hor as [?|Hprev]; [by left|right].
    destruct j as [|k]; [exists arg; auto|done]. }
  destruct skip_next; [by apply (Hskip false); [|right|]|].
  destruct (is_git_global_option_with_inline_value arg) eqn:Hinline.
  { apply (Hskip false); [done|left; by apply inline_value_dash|done]. }
  destruct (is_git_global_option_with_value arg) eqn:Hvalue.
  { apply (Hskip true); [done|left; by apply option_with_value_dash|done]. }
  destruct (bool_decide (arg = lit "--") || starts_with arg (lit "-")) eqn:Hdash.
  { apply (Hskip false); [done| |done]. left. apply orb_true_iff in Hdash as [->%bool_decide_eq_true|?]; done. }
  destruct (one_of arg subs) eqn:Hone; [|done]. injection Hfind as <- <-.
  rewrite Nat.sub_diag. split_and!; [done..|]. intros j Hj. lia.
Qed.

Lemma branch_args_loop_spec saw args :
  branch_args_loop saw args = true → ∀ a, a ∈ args → read_only_branch_flag a = true.
Proof.
  revert saw. induction args as [|arg args IH]; intros saw; simpl; [by intros _ a []%elem_of_nil|].
  destruct (read_only_branch_flag arg) eqn:Harg; [|done]. intros Hl a [->|Ha]%elem_of_cons; eauto.
Qed.

Lemma is_safe_git command cmd0 args :
  command = cmd0 :: args → executable_name_lookup_key cmd0 = Some (lit "git") →
  is_safe_to_call_with_exec command = git_command_is_safe command.
Proof. intros -> Hk. unfold is_safe_to_call_with_exec. by rewrite Hk. Qed.

(** A git command counted safe names a read-only subcommand as its first
    argument that is not an option, has no configuration-redirecting option
    anywhere and no writing or executing flag after the subcommand; a branch
    command has only listing flags. *)
Theorem safe_git_is_read_only cmd0 args :
  executable_name_lookup_key cmd0 = Some (lit "git") →
  is_safe_to_call_with_exec (cmd0 :: args) = true →
  (∀ a, a ∈ args → git_global_option_requires_prompt a = false)
  ∧ ∃ i sub, args !! i = Some sub
    ∧ (sub = lit "status" ∨ sub = lit "log" ∨ sub = lit "diff" ∨ sub = lit "show" ∨ sub = lit "branch")
    ∧ (∀ j, j < i → option_or_value false args j)
    ∧ (∀ a, a ∈ drop (S i) args → unsafe_git_flag a = false)
    ∧ (sub = lit "branch" → ∀ a, a ∈ drop (S i) args → read_only_branch_flag a = true).
Proof.
  intros Hgit. rewrite (is_safe_git _ cmd0 args eq_refl Hgit). unfold git_command_is_safe.
  destruct (git_has_unsafe_global_option (cmd0 :: args)) eqn:Hglobal; [done|]. intros Hsafe.
  split; [exact (proj1 (existsb_false _ args) Hglobal)|].
  unfold find_git_subcommand in Hsafe. cbn [head mbind option_bind] in Hsafe.
  rewrite bool_decide_eq_false_2 in Hsafe by naive_solver.
  replace (drop 1 (cmd0 :: args)) with args in Hsafe by done.
  destruct (find_subcommand_loop _ _ _ args) as [[idx sub]|] eqn:Hfind; [|done].
  apply find_subcommand_loop_spec in Hfind as (Hle&Hsub&Hone&Hbefore).
  exists (idx - 1), sub. replace (drop (S (idx - 1)) args) with (drop (idx + 1) (cmd0 :: args)).
  2: { replace (idx + 1) with (S (S (idx - 1))) by lia. done. }
  assert (Hro : ∀ l, git_subcommand_args_are_read_only l = true → ∀ a, a ∈ l → unsafe_git_flag a = false).
  { intros l Hl. apply existsb_false. by apply negb_true_iff in Hl. }
  split_and!; [done| |done|..].
  - apply one_of_spec in Hone as (x&Hx&->). set_solver.
  - apply Hro. by repeat case_match; bool_to_prop.
  - intros ->. simpl in Hsafe. apply andb_true_iff in Hsafe as [_ Hb].
    unfold git_branch_is_read_only in Hb. case_match; [by intros a []%elem_of_nil|].
    exact (branch_args_loop_spec false _ Hb).
Qed.

Abbreviation words s := (split_on SPACE (lit s)).

Lemma safe_git_is_read_only_witness :
  (∀ a, a ∈ words "-C /repo branch --list -v" → git_global_option_requires_prompt a = false)
  ∧ ∃ i sub, words "-C /repo branch --list -v" !! i = Some sub
    ∧ (∀ j, j < i → option_or_value false (words "-C /repo branch --list -v") j).
Proof.
  destruct (safe_git_is_read_only (lit "/usr/bin/git") (words "-C /repo branch --list -v"))
    as (Hg&i&sub&Hsub&_&Hb&_); [by vm_compute..|]. split; [exact Hg|]. by exists i, sub.
Defined.

(** The flag [--paginate] is only looked for after the subcommand, where git
    does not take it. *)
Lemma paginate_before_subcommand :
  is_safe_to_call_with_exec (words "git --paginate log") = true
  ∧ is_safe_to_call_with_exec (words "git log --paginate") = false.
Proof. by vm_compute. Qed.

(** Through PowerShell the arguments after the subcommand are not looked at. *)
Lemma powershell_git_writes_file :
  is_safe_powershell_command (words "git diff --output=/tmp/f") = true
  ∧ is_safe_to_call_with_exec (words "git diff --output=/tmp/f") = false.
Proof. by vm_compute. Qed.

(** The executable that is started to judge a command is the command's own. *)
Lemma powershell_check_starts_command script :
  parse_powershell_invocation [lit "./pwsh"; lit "-c"; script] = Some (lit "./pwsh", script).
Proof. done. Qed.
