(* ===== verification/Permissions.v ===== *)
(** * Sandbox permissions

    Models [protocol/src/permissions.rs] and the sandbox policies of [protocol/src/protocol.rs] they convert from and
    to, on Unix.  The compiler of globs is a parameter.  What the code asks of the machine is the record [Machine]; an
    [AbsolutePathBuf] is its normalized string, so that equality of strings is
    equality of paths. *)
From S2P Require Import Prelude Str Io Paths ExecPolicy.
Import Paths.

Module Permissions.

(** ** Data *)

Inductive NetworkSandboxPolicy : Type := NetworkRestricted | NetworkEnabled.
Inductive NetworkAccess : Type := AccessRestricted | AccessEnabled.
(** [FileSystemAccessMode::None] is [NoAccess]. *)
Inductive FileSystemAccessMode : Type := Read | Write | NoAccess.

Inductive FileSystemSpecialPath : Type :=
| Root | Minimal | CurrentWorkingDirectory
| ProjectRoots (subpath : option str)
| Tmpdir | SlashTmp
| Unknown (path : str) (subpath : option str).

Inductive FileSystemPath : Type :=
| PathEntry (path : str)
| GlobPattern (pattern : str)
| Special (value : FileSystemSpecialPath).

Record FileSystemSandboxEntry : Type := { entry_path : FileSystemPath; entry_access : FileSystemAccessMode }.
Inductive FileSystemSandboxKind : Type := Restricted | Unrestricted | ExternalSandbox.
Record FileSystemSandboxPolicy : Type := {
  kind : FileSystemSandboxKind;
  glob_scan_max_depth : option nat;
  entries : list FileSystemSandboxEntry;
}.

Inductive ReadOnlyAccess : Type :=
| RestrictedReads (include_platform_defaults : bool) (readable_roots : list str)
| FullAccess.

Inductive SandboxPolicy : Type :=
| DangerFullAccess
| ReadOnly (access : ReadOnlyAccess) (network_access : bool)
| ExternalSandboxPolicy (network_access : NetworkAccess)
| WorkspaceWrite (writable_roots : list str) (read_only_access : ReadOnlyAccess)
    (network_access exclude_tmpdir_env_var exclude_slash_tmp : bool).

Record WritableRoot : Type := { root : str; read_only_subpaths : list str }.
Record ResolvedFileSystemEntry : Type := { resolved_path : str; resolved_access : FileSystemAccessMode }.

#[export] Instance NetworkSandboxPolicy_eq_dec : EqDecision NetworkSandboxPolicy.
Proof. solve_decision. Defined.
#[export] Instance NetworkAccess_eq_dec : EqDecision NetworkAccess.
Proof. solve_decision. Defined.
#[export] Instance FileSystemAccessMode_eq_dec : EqDecision FileSystemAccessMode.
Proof. solve_decision. Defined.
#[export] Instance FileSystemSpecialPath_eq_dec : EqDecision FileSystemSpecialPath.
Proof. solve_decision. Defined.
#[export] Instance FileSystemPath_eq_dec : EqDecision FileSystemPath.
Proof. solve_decision. Defined.
#[export] Instance FileSystemSandboxEntry_eq_dec : EqDecision FileSystemSandboxEntry.
Proof. solve_decision. Defined.
#[export] Instance FileSystemSandboxKind_eq_dec : EqDecision FileSystemSandboxKind.
Proof. solve_decision. Defined.
#[export] Instance ReadOnlyAccess_eq_dec : EqDecision ReadOnlyAccess.
Proof. solve_decision. Defined.
#[export] Instance SandboxPolicy_eq_dec : EqDecision SandboxPolicy.
Proof. solve_decision. Defined.
#[export] Instance WritableRoot_eq_dec : EqDecision WritableRoot.
Proof. solve_decision. Defined.

(** The derived order: when two equally specific entries conflict, no access
    beats write, and write beats read. *)
Definition access_rank (a : FileSystemAccessMode) : nat :=
  match a with Read => 0 | Write => 1 | NoAccess => 2 end.

Definition is_enabled (n : NetworkSandboxPolicy) : bool := bool_decide (n = NetworkEnabled).
Definition can_read (a : FileSystemAccessMode) : bool := bool_decide (a ≠ NoAccess).
Definition can_write (a : FileSystemAccessMode) : bool := bool_decide (a = Write).

(** ** Paths *)

(** [Path::strip_prefix]. *)
Definition path_strip_prefix (p base : str) : option str :=
  if path_starts_with p base
  then Some (join [SLASH] (drop (length (std_components base)) (std_components p))) else None.

(** [Path::ancestors] of an absolute path, the path itself first. *)
Definition ancestors (p : str) : list str :=
  (λ k, path_of true (take k (components p))) <$> reverse (seq 0 (S (length (components p)))).

(** The parts of the machine the code looks at. *)
Record Machine : Type := {
  home_dir : option str;
  current_dir : option str;
  tmpdir_var : option str;
  is_dir : str → bool;
  is_file : str → bool;
  exists_ : str → bool;
  read_to_string : str → option str;
  (** [symlink_metadata]: whether the path is a symbolic link *)
  symlink_metadata : str → option bool;
  (** [dunce::canonicalize] *)
  canonicalize : str → option str;
}.

(** ** Constructors and simple questions *)

Definition entry p a : FileSystemSandboxEntry := {| entry_path := p; entry_access := a |}.
Definition restricted (es : list FileSystemSandboxEntry) : FileSystemSandboxPolicy :=
  {| kind := Restricted; glob_scan_max_depth := None; entries := es |}.
Definition unrestricted : FileSystemSandboxPolicy :=
  {| kind := Unrestricted; glob_scan_max_depth := None; entries := [] |}.
Definition external_sandbox : FileSystemSandboxPolicy :=
  {| kind := ExternalSandbox; glob_scan_max_depth := None; entries := [] |}.
Definition FileSystemSandboxPolicy_default : FileSystemSandboxPolicy := restricted [entry (Special Root) Read].
Definition set_entries (es : list FileSystemSandboxEntry) (p : FileSystemSandboxPolicy) : FileSystemSandboxPolicy :=
  {| kind := kind p; glob_scan_max_depth := glob_scan_max_depth p; entries := es |}.

Definition is_restricted (p : FileSystemSandboxPolicy) : bool := bool_decide (kind p = Restricted).

Definition has_root_access (p : FileSystemSandboxPolicy) (predicate : FileSystemAccessMode → bool) : bool :=
  is_restricted p
  && existsb (λ e, bool_decide (entry_path e = Special Root) && predicate (entry_access e)) (entries p).

Definition has_denied_read_restrictions (p : FileSystemSandboxPolicy) : bool :=
  is_restricted p && existsb (λ e, bool_decide (entry_access e = NoAccess)) (entries p).

Definition special_paths_share_target (l r : FileSystemSpecialPath) : bool :=
  match l, r with
  | Root, Root | Minimal, Minimal | CurrentWorkingDirectory, CurrentWorkingDirectory
  | Tmpdir, Tmpdir | SlashTmp, SlashTmp => true
  | CurrentWorkingDirectory, ProjectRoots None | ProjectRoots None, CurrentWorkingDirectory => true
  | ProjectRoots l1, ProjectRoots r1 => bool_decide (l1 = r1)
  | Unknown l1 lsub, Unknown r1 rsub =>
      bool_decide (l1 = r1) && bool_decide (lsub = rsub)
  | _, _ => false
  end.

Definition special_path_matches_absolute_path (value : FileSystemSpecialPath) (path : str) : bool :=
  match value with
  | Root => bool_decide (parent path = None)
  | SlashTmp => bool_decide (path = lit "/tmp")
  | _ => false
  end.

Definition file_system_paths_share_target (l r : FileSystemPath) : bool :=
  match l, r with
  | PathEntry l1, PathEntry r1 => bool_decide (l1 = r1)
  | Special l1, Special r1 => special_paths_share_target l1 r1
  | PathEntry path, Special value | Special value, PathEntry path =>
      special_path_matches_absolute_path value path
  | GlobPattern l1, GlobPattern r1 => bool_decide (l1 = r1)
  | GlobPattern _, _ | _, GlobPattern _ => false
  end.

Definition has_same_target_write_override (p : FileSystemSandboxPolicy) (e : FileSystemSandboxEntry) : bool :=
  existsb (λ candidate, can_write (entry_access candidate)
             && (access_rank (entry_access e) <? access_rank (entry_access candidate))
             && file_system_paths_share_target (entry_path candidate) (entry_path e)) (entries p).

Definition narrows_writes (p : FileSystemSandboxPolicy) (e : FileSystemSandboxEntry) : bool :=
  if can_write (entry_access e) then false
  else match entry_path e with
       | PathEntry _ => negb (has_same_target_write_override p e)
       | GlobPattern _ => true
       | Special Root => bool_decide (entry_access e = NoAccess)
       | Special Minimal | Special (Unknown _ _) => false
       | Special _ => negb (has_same_target_write_override p e)
       end.
Definition has_write_narrowing_entries (p : FileSystemSandboxPolicy) : bool :=
  is_restricted p && existsb (narrows_writes p) (entries p).

Definition has_full_disk_read_access (p : FileSystemSandboxPolicy) : bool :=
  match kind p with
  | Unrestricted | ExternalSandbox => true
  | Restricted => has_root_access p can_read && negb (has_denied_read_restrictions p)
  end.

Definition has_full_disk_write_access (p : FileSystemSandboxPolicy) : bool :=
  match kind p with
  | Unrestricted | ExternalSandbox => true
  | Restricted => has_root_access p can_write && negb (has_write_narrowing_entries p)
  end.

Definition include_platform_defaults (p : FileSystemSandboxPolicy) : bool :=
  negb (has_full_disk_read_access p) && is_restricted p
  && existsb (λ e, bool_decide (entry_path e = Special Minimal) && can_read (entry_access e)) (entries p).

(** ** Resolution against a working directory *)

Section Machine.
Variable m : Machine.

Definition from_absolute_path (p : str) : option str :=
  ExecPolicy.from_absolute_path (home_dir m) (current_dir m) p.
Definition resolve_against (p base : str) : str := resolve_path_against_base (home_dir m) p base.

(** The last ancestor of an absolute path is the root. *)
Definition absolute_root_path_for_cwd (cwd : str) : str := [SLASH].

Definition resolve_file_system_special_path (value : FileSystemSpecialPath) (cwd : option str) : option str :=
  match value with
  | Root | Minimal | Unknown _ _ => None
  | CurrentWorkingDirectory => cwd
  | ProjectRoots subpath =>
      cwd ← cwd;
      Some match subpath with Some subpath => resolve_against subpath cwd | None => cwd end
  | Tmpdir =>
      tmpdir ← tmpdir_var m;
      if bool_decide (tmpdir = []) then None else from_absolute_path tmpdir
  | SlashTmp =>
      slash_tmp ← from_absolute_path (lit "/tmp");
      if negb (is_dir m slash_tmp) then None else Some slash_tmp
  end.

Definition resolve_file_system_path (p : FileSystemPath) (cwd : option str) : option str :=
  match p with
  | PathEntry path => Some path
  | GlobPattern _ => None
  | Special value => resolve_file_system_special_path value cwd
  end.

Definition resolve_entry_path (p : FileSystemPath) (cwd : option str) : option str :=
  match p with
  | Special Root => absolute_root_path_for_cwd <$> cwd
  | _ => resolve_file_system_path p cwd
  end.

Definition resolve_candidate_path (path cwd : str) : option str :=
  if is_absolute path then from_absolute_path path else Some (resolve_against path cwd).

Definition resolved_entries_with_cwd (p : FileSystemSandboxPolicy) (cwd : str) : list ResolvedFileSystemEntry :=
  let cwd_absolute := from_absolute_path cwd in
  omap (λ e, (λ path, {| resolved_path := path; resolved_access := entry_access e |})
             <$> resolve_entry_path (entry_path e) cwd_absolute) (entries p).

(** The precedence [(specificity, access)], compared lexicographically. *)
Definition resolved_entry_precedence (e : ResolvedFileSystemEntry) : nat * nat :=
  (length (std_components (resolved_path e)), access_rank (resolved_access e)).
Definition precedence_le (a b : nat * nat) : bool :=
  (a.1 <? b.1) || ((a.1 =? b.1) && (a.2 <=? b.2)).

(** [Iterator::max_by_key]: the last of the greatest. *)
Fixpoint max_by_precedence (l : list ResolvedFileSystemEntry) : option ResolvedFileSystemEntry :=
  match l with
  | [] => None
  | e :: l =>
      Some match max_by_precedence l with
           | Some e' =>
               if precedence_le (resolved_entry_precedence e) (resolved_entry_precedence e') then e' else e
           | None => e
           end
  end.

Definition resolve_access_with_cwd (p : FileSystemSandboxPolicy) (path cwd : str) : FileSystemAccessMode :=
  match kind p with
  | Unrestricted | ExternalSandbox => Write
  | Restricted =>
      match resolve_candidate_path path cwd with
      | None => NoAccess
      | Some path =>
          default NoAccess (resolved_access <$> max_by_precedence
            (filter (λ e, path_starts_with path (resolved_path e)) (resolved_entries_with_cwd p cwd)))
      end
  end.

Definition can_read_path_with_cwd p path cwd : bool := can_read (resolve_access_with_cwd p path cwd).
Definition can_write_path_with_cwd p path cwd : bool := can_write (resolve_access_with_cwd p path cwd).

Definition with_additional_readable_roots (p : FileSystemSandboxPolicy) (cwd : str) (additional : list str)
    : FileSystemSandboxPolicy :=
  if has_full_disk_read_access p then p
  else foldl (λ p path, if can_read_path_with_cwd p path cwd then p
                        else set_entries (entries p ++ [entry (PathEntry path) Read]) p) p additional.

Definition with_additional_writable_roots (p : FileSystemSandboxPolicy) (cwd : str) (additional : list str)
    : FileSystemSandboxPolicy :=
  foldl (λ p path, if can_write_path_with_cwd p path cwd then p
                   else set_entries (entries p ++ [entry (PathEntry path) Write]) p) p additional.

(** ** Symbolic links *)

Definition should_preserve_logical_path (logical : str) : bool :=
  existsb (λ ancestor,
    match symlink_metadata m ancestor with
    | None => false
    | Some is_symlink => is_symlink && bool_decide (is_Some (parent ancestor ≫= parent))
    end) (ancestors logical).

Definition canonicalize_preserving_symlinks (path : str) : option str :=
  logical ← from_absolute_path path;
  Some match canonicalize m path with
       | Some canonical =>
           if should_preserve_logical_path logical && bool_decide (canonical ≠ logical) then logical
           else canonical
       | None => logical
       end.

Definition normalize_ancestor (raw_path ancestor : str) : option str :=
  _ ← symlink_metadata m ancestor;
  normalized_ancestor ← canonicalize_preserving_symlinks ancestor;
  suffix ← path_strip_prefix raw_path ancestor;
  from_absolute_path (path_join normalized_ancestor suffix).

Definition normalize_effective_absolute_path (path : str) : str :=
  default path (head (omap (normalize_ancestor path) (ancestors path))).

Fixpoint dedup_loop (normalize : bool) (seen : list str) (paths : list str) : list str :=
  match paths with
  | [] => []
  | path :: paths =>
      let dedup_path := if normalize then normalize_effective_absolute_path path else path in
      if bool_decide (dedup_path ∈ seen) then dedup_loop normalize seen paths
      else dedup_path :: dedup_loop normalize (dedup_path :: seen) paths
  end.
Definition dedup_absolute_paths (paths : list str) (normalize : bool) : list str := dedup_loop normalize [] paths.

(** ** Protected subpaths *)

Definition join_path (p : str) (name : string) : str := abs_join (home_dir m) p (lit name).

Definition is_git_pointer_file (path : str) : bool :=
  is_file m path && bool_decide (ExecPolicy.file_name path = Some (lit ".git")).

Definition resolve_gitdir_from_file (dot_git : str) : option str :=
  contents ← read_to_string m dot_git;
  '(_, gitdir_raw) ← split_once 58 (trim contents);
  let gitdir_raw := trim gitdir_raw in
  if bool_decide (gitdir_raw = []) then None
  else
    base ← parent dot_git;
    let gitdir_path := resolve_against gitdir_raw base in
    if negb (exists_ m gitdir_path) then None else Some gitdir_path.

Definition default_read_only_subpaths_for_writable_root (writable_root : str) (protect_missing_dot_codex : bool)
    : list str :=
  let top_level_git := join_path writable_root ".git" in
  let top_level_git_is_file := is_file m top_level_git in
  let git :=
    if is_dir m top_level_git || top_level_git_is_file then
      (if top_level_git_is_file && is_git_pointer_file top_level_git
       then match resolve_gitdir_from_file top_level_git with Some gitdir => [gitdir] | None => [] end
       else []) ++ [top_level_git]
    else [] in
  let top_level_agents := join_path writable_root ".agents" in
  let agents := if is_dir m top_level_agents then [top_level_agents] else [] in
  let top_level_codex := join_path writable_root ".codex" in
  let codex := if protect_missing_dot_codex || is_dir m top_level_codex then [top_level_codex] else [] in
  dedup_absolute_paths (git ++ agents ++ codex) false.

(** ** Roots *)

Definition get_readable_roots_with_cwd (p : FileSystemSandboxPolicy) (cwd : str) : list str :=
  if has_full_disk_read_access p then []
  else dedup_absolute_paths
         (resolved_path <$> filter (λ e, can_read (resolved_access e) && can_read_path_with_cwd p (resolved_path e) cwd)
                              (resolved_entries_with_cwd p cwd)) true.

Definition has_explicit_resolved_path_entry (es : list ResolvedFileSystemEntry) (path : str) : bool :=
  existsb (λ e, bool_decide (resolved_path e = path)) es.

(** The literal path of a carveout under the root, if it has one. *)
Definition raw_carveout_path (root : str) (raw_writable_roots : list str) (e : ResolvedFileSystemEntry)
    : option str :=
  if bool_decide (is_Some (parent root)) then
    if bool_decide (resolved_path e = root) then None
    else if path_starts_with (resolved_path e) root then Some (resolved_path e)
    else head (omap (λ raw_root,
      suffix ← path_strip_prefix (resolved_path e) raw_root;
      if bool_decide (suffix = []) then None else Some (abs_join (home_dir m) root suffix)) raw_writable_roots)
  else None.

Definition carveout (root : str) (raw_writable_roots : list str) (e : ResolvedFileSystemEntry) : option str :=
  let effective_path := normalize_effective_absolute_path (resolved_path e) in
  match raw_carveout_path root raw_writable_roots e with
  | Some raw_carveout_path => Some raw_carveout_path
  | None =>
      if bool_decide (effective_path = root) || negb (path_starts_with effective_path root) then None
      else Some effective_path
  end.

Definition writable_root_of (p : FileSystemSandboxPolicy) (cwd : str)
    (resolved_entries : list ResolvedFileSystemEntry) (writable_entries : list str) (r : str) : WritableRoot :=
  let raw_writable_roots := filter (λ path, normalize_effective_absolute_path path = r) writable_entries in
  let protect_missing_dot_codex :=
    match from_absolute_path cwd with
    | Some cwd => bool_decide (normalize_effective_absolute_path cwd = r)
    | None => false
    end in
  let defaults :=
    filter (λ path, negb (has_explicit_resolved_path_entry resolved_entries path))
      (default_read_only_subpaths_for_writable_root r protect_missing_dot_codex) in
  let carveouts :=
    omap (carveout r raw_writable_roots)
      (filter (λ e, negb (can_write (resolved_access e)) && negb (can_write_path_with_cwd p (resolved_path e) cwd))
         resolved_entries) in
  {| root := r; read_only_subpaths := dedup_absolute_paths (defaults ++ carveouts) false |}.

Definition writable_entries_of (p : FileSystemSandboxPolicy) (cwd : str) : list str :=
  resolved_path <$> filter (λ e, can_write (resolved_access e) && can_write_path_with_cwd p (resolved_path e) cwd)
                      (resolved_entries_with_cwd p cwd).

Definition get_writable_roots_with_cwd (p : FileSystemSandboxPolicy) (cwd : str) : list WritableRoot :=
  if has_full_disk_write_access p then []
  else
    let writable_entries := writable_entries_of p cwd in
    writable_root_of p cwd (resolved_entries_with_cwd p cwd) writable_entries
    <$> dedup_absolute_paths writable_entries true.

Definition get_unreadable_roots_with_cwd (p : FileSystemSandboxPolicy) (cwd : str) : list str :=
  if negb (is_restricted p) then []
  else
    let root := absolute_root_path_for_cwd <$> from_absolute_path cwd in
    dedup_absolute_paths
      (resolved_path <$> filter (λ e,
         bool_decide (resolved_access e = NoAccess) && negb (can_read_path_with_cwd p (resolved_path e) cwd)
         && bool_decide (root ≠ Some (resolved_path e))) (resolved_entries_with_cwd p cwd)) true.

(** [Vec::dedup] on strings. *)
Fixpoint dedup_strs (l : list str) : list str :=
  match l with
  | x :: (y :: _) as l' => if bool_decide (x = y) then dedup_strs l' else x :: dedup_strs l'
  | l => l
  end.

Definition get_unreadable_globs_with_cwd (p : FileSystemSandboxPolicy) (cwd : str) : list str :=
  if negb (is_restricted p) then []
  else
    dedup_strs (sort_strs
      (omap (λ e, match entry_path e with GlobPattern pattern => Some (resolve_against pattern cwd) | _ => None end)
         (filter (λ e, entry_access e = NoAccess) (entries p)))).

(** [WritableRoot::is_path_writable]. *)
Definition is_path_writable (r : WritableRoot) (path : str) : bool :=
  path_starts_with path (root r) && negb (existsb (path_starts_with path) (read_only_subpaths r)).

(** ** Legacy sandbox policies *)

Definition access_enabled (n : NetworkAccess) : bool := bool_decide (n = AccessEnabled).
Definition has_full_network_access (s : SandboxPolicy) : bool :=
  match s with
  | DangerFullAccess => true
  | ExternalSandboxPolicy network_access => access_enabled network_access
  | ReadOnly _ network_access | WorkspaceWrite _ _ network_access _ _ => network_access
  end.
Definition network_policy_of (s : SandboxPolicy) : NetworkSandboxPolicy :=
  if has_full_network_access s then NetworkEnabled else NetworkRestricted.

(** [SandboxPolicy::get_writable_roots_with_cwd]. *)
Definition legacy_writable_roots_with_cwd (s : SandboxPolicy) (cwd : str) : list WritableRoot :=
  match s with
  | WorkspaceWrite writable_roots _ _ exclude_tmpdir_env_var exclude_slash_tmp =>
      let cwd_root := from_absolute_path cwd in
      let roots :=
        writable_roots ++ option_list cwd_root
        ++ (if exclude_slash_tmp then [] else
              match from_absolute_path (lit "/tmp") with
              | Some slash_tmp => if is_dir m slash_tmp then [slash_tmp] else []
              | None => []
              end)
        ++ (if exclude_tmpdir_env_var then [] else
              match tmpdir_var m with
              | Some tmpdir =>
                  if bool_decide (tmpdir = []) then [] else option_list (from_absolute_path tmpdir)
              | None => []
              end) in
      (λ writable_root, {|
        root := writable_root;
        read_only_subpaths := default_read_only_subpaths_for_writable_root writable_root
                                (bool_decide (cwd_root = Some writable_root)) |}) <$> roots
  | _ => []
  end.

(** [From<&SandboxPolicy> for FileSystemSandboxPolicy]. *)
Definition read_entries (access : ReadOnlyAccess) : list FileSystemSandboxEntry :=
  match access with
  | FullAccess => [entry (Special Root) Read]
  | RestrictedReads include_platform_defaults readable_roots =>
      (if include_platform_defaults then [entry (Special Minimal) Read] else [])
      ++ ((λ path, entry (PathEntry path) Read) <$> readable_roots)
  end.
Definition from_sandbox_policy (s : SandboxPolicy) : FileSystemSandboxPolicy :=
  match s with
  | DangerFullAccess => unrestricted
  | ExternalSandboxPolicy _ => external_sandbox
  | ReadOnly access _ =>
      restricted (match access with
                  | FullAccess => []
                  | RestrictedReads _ _ => [entry (Special CurrentWorkingDirectory) Read]
                  end ++ read_entries access)
  | WorkspaceWrite writable_roots read_only_access _ exclude_tmpdir_env_var exclude_slash_tmp =>
      restricted (read_entries read_only_access
        ++ [entry (Special CurrentWorkingDirectory) Write]
        ++ (if exclude_slash_tmp then [] else [entry (Special SlashTmp) Write])
        ++ (if exclude_tmpdir_env_var then [] else [entry (Special Tmpdir) Write])
        ++ ((λ path, entry (PathEntry path) Write) <$> writable_roots))
  end.

Definition append_path_entry_if_missing (es : list FileSystemSandboxEntry) (path : str) (access : FileSystemAccessMode)
    : list FileSystemSandboxEntry :=
  if existsb (λ e, bool_decide (entry_access e = access) && bool_decide (entry_path e = PathEntry path)) es
  then es else es ++ [entry (PathEntry path) access].

Definition append_default_read_only_path_if_no_explicit_rule (es : list FileSystemSandboxEntry) (path : str)
    : list FileSystemSandboxEntry :=
  if existsb (λ e, bool_decide (entry_path e = PathEntry path)) es then es
  else append_path_entry_if_missing es path Read.

(** Reads below a writable root are redundant. *)
Definition kept_by_legacy_roots (legacy_writable_roots : list WritableRoot) (e : FileSystemSandboxEntry) : bool :=
  if bool_decide (entry_access e ≠ Read) then true
  else match entry_path e with
       | PathEntry path => negb (existsb (λ r, is_path_writable r path) legacy_writable_roots)
       | _ => true
       end.

Definition from_legacy_sandbox_policy (s : SandboxPolicy) (cwd : str) : FileSystemSandboxPolicy :=
  let file_system_policy := from_sandbox_policy s in
  match s with
  | WorkspaceWrite writable_roots _ _ _ _ =>
      let legacy_writable_roots := legacy_writable_roots_with_cwd s cwd in
      let kept := filter (kept_by_legacy_roots legacy_writable_roots) (entries file_system_policy) in
      let protect es root missing :=
        foldl append_default_read_only_path_if_no_explicit_rule es
          (default_read_only_subpaths_for_writable_root root missing) in
      let es := match from_absolute_path cwd with
                | Some cwd_root => protect kept cwd_root true
                | None => kept
                end in
      set_entries (foldl (λ es root, protect es root false) es writable_roots) file_system_policy
  | _ => file_system_policy
  end.

Definition from_legacy_sandbox_policy_preserving_deny_entries (s : SandboxPolicy) (cwd : str)
    (existing : FileSystemSandboxPolicy) : FileSystemSandboxPolicy :=
  let rebuilt := from_legacy_sandbox_policy s cwd in
  if negb (is_restricted rebuilt) then rebuilt
  else
    {| kind := kind rebuilt;
       glob_scan_max_depth := glob_scan_max_depth existing;
       entries := foldl (λ es deny_entry,
         if existsb (λ e, bool_decide (e = deny_entry)) es then es else es ++ [deny_entry])
         (entries rebuilt) (filter (λ e, entry_access e = NoAccess) (entries existing)) |}.

(** The variables of [to_legacy_sandbox_policy]'s loop over the entries. *)
Record LegacyScan : Type := {
  scan_platform_defaults : bool;
  workspace_root_writable : bool;
  scan_writable_roots : list str;
  scan_readable_roots : list str;
  tmpdir_writable : bool;
  slash_tmp_writable : bool;
  unbridgeable_root_write : bool;
}.
Definition scan_start : LegacyScan := Build_LegacyScan false false [] [] false false false.

Definition push_readable (path : str) (s : LegacyScan) : LegacyScan :=
  let 'Build_LegacyScan d w wr rr t st u := s in Build_LegacyScan d w wr (rr ++ [path]) t st u.
Definition push_writable (path : str) (s : LegacyScan) : LegacyScan :=
  let 'Build_LegacyScan d w wr rr t st u := s in Build_LegacyScan d w (wr ++ [path]) rr t st u.
Definition set_workspace_writable (s : LegacyScan) : LegacyScan :=
  let 'Build_LegacyScan d _ wr rr t st u := s in Build_LegacyScan d true wr rr t st u.
Definition set_platform_defaults (s : LegacyScan) : LegacyScan :=
  let 'Build_LegacyScan _ w wr rr t st u := s in Build_LegacyScan true w wr rr t st u.
Definition set_tmpdir_writable (s : LegacyScan) : LegacyScan :=
  let 'Build_LegacyScan d w wr rr _ st u := s in Build_LegacyScan d w wr rr true st u.
Definition set_slash_tmp_writable (s : LegacyScan) : LegacyScan :=
  let 'Build_LegacyScan d w wr rr t _ u := s in Build_LegacyScan d w wr rr t true u.
Definition set_unbridgeable (s : LegacyScan) : LegacyScan :=
  let 'Build_LegacyScan d w wr rr t st _ := s in Build_LegacyScan d w wr rr t st true.

(** A read grant on a special path, pushed when the path resolves. *)
Definition scan_special_read (cwd_absolute : option str) (value : FileSystemSpecialPath)
    (access : FileSystemAccessMode) (s : LegacyScan) : LegacyScan :=
  if can_read access then
    match resolve_file_system_special_path value cwd_absolute with
    | Some path => push_readable path s
    | None => s
    end
  else s.

Definition scan_entry (p : FileSystemSandboxPolicy) (cwd_absolute : option str) (s : LegacyScan)
    (e : FileSystemSandboxEntry) : LegacyScan :=
  let access := entry_access e in
  match entry_path e with
  | GlobPattern _ => s
  | PathEntry path =>
      if can_write access then
        if bool_decide (cwd_absolute = Some path) then set_workspace_writable s else push_writable path s
      else if can_read access then push_readable path s
      else s
  | Special Root =>
      match access with
      | NoAccess => s
      | Read =>
          if has_full_disk_read_access p then s
          else match cwd_absolute with
               | Some cwd => push_readable (absolute_root_path_for_cwd cwd) s
               | None => s
               end
      | Write => set_unbridgeable s
      end
  | Special Minimal => if can_read access then set_platform_defaults s else s
  | Special CurrentWorkingDirectory =>
      if can_write access then set_workspace_writable s
      else scan_special_read cwd_absolute CurrentWorkingDirectory access s
  | Special (ProjectRoots subpath) =>
      if bool_decide (subpath = None) && can_write access then set_workspace_writable s
      else match resolve_file_system_special_path (ProjectRoots subpath) cwd_absolute with
           | Some path =>
               if can_write access then push_writable path s
               else if can_read access then push_readable path s else s
           | None => s
           end
  | Special Tmpdir =>
      if can_write access then set_tmpdir_writable s else scan_special_read cwd_absolute Tmpdir access s
  | Special SlashTmp =>
      if can_write access then set_slash_tmp_writable s else scan_special_read cwd_absolute SlashTmp access s
  | Special (Unknown _ _) => s
  end.

Definition unsupported_writes : io_error :=
  {| Io.kind := InvalidInput;
     message := lit "permissions profile requests filesystem writes outside the workspace root, which is not supported until the runtime enforces FileSystemSandboxPolicy directly" |}.

Definition full_write_policy (network_policy : NetworkSandboxPolicy) : SandboxPolicy :=
  if is_enabled network_policy then DangerFullAccess else ExternalSandboxPolicy AccessRestricted.

Definition is_nil {A} (l : list A) : bool := match l with [] => true | _ => false end.

Definition to_legacy_sandbox_policy (p : FileSystemSandboxPolicy) (network_policy : NetworkSandboxPolicy)
    (cwd : str) : result io_error SandboxPolicy :=
  match kind p with
  | ExternalSandbox =>
      Ok (ExternalSandboxPolicy (if is_enabled network_policy then AccessEnabled else AccessRestricted))
  | Unrestricted => Ok (full_write_policy network_policy)
  | Restricted =>
      let s := foldl (scan_entry p (from_absolute_path cwd)) scan_start (entries p) in
      if has_full_disk_write_access p then Ok (full_write_policy network_policy)
      else
        let read_only_access :=
          if has_full_disk_read_access p then FullAccess
          else RestrictedReads (scan_platform_defaults s) (dedup_absolute_paths (scan_readable_roots s) false) in
        if workspace_root_writable s then
          Ok (WorkspaceWrite (dedup_absolute_paths (scan_writable_roots s) false) read_only_access
                (is_enabled network_policy) (negb (tmpdir_writable s)) (negb (slash_tmp_writable s)))
        else if unbridgeable_root_write s || negb (is_nil (scan_writable_roots s))
                || tmpdir_writable s || slash_tmp_writable s
        then Err unsupported_writes
        else Ok (ReadOnly read_only_access (is_enabled network_policy))
  end.

(** ** The need for direct enforcement *)

Record FileSystemSemanticSignature : Type := {
  sig_full_read : bool;
  sig_full_write : bool;
  sig_platform_defaults : bool;
  sig_readable_roots : list str;
  sig_writable_roots : list WritableRoot;
  sig_unreadable_roots : list str;
  sig_unreadable_globs : list str;
}.

#[export] Instance FileSystemSemanticSignature_eq_dec : EqDecision FileSystemSemanticSignature.
Proof. solve_decision. Defined.

Definition semantic_signature (p : FileSystemSandboxPolicy) (cwd : str) : FileSystemSemanticSignature := {|
  sig_full_read := has_full_disk_read_access p;
  sig_full_write := has_full_disk_write_access p;
  sig_platform_defaults := include_platform_defaults p;
  sig_readable_roots := get_readable_roots_with_cwd p cwd;
  sig_writable_roots := get_writable_roots_with_cwd p cwd;
  sig_unreadable_roots := get_unreadable_roots_with_cwd p cwd;
  sig_unreadable_globs := get_unreadable_globs_with_cwd p cwd |}.

Definition needs_direct_runtime_enforcement (p : FileSystemSandboxPolicy) (network_policy : NetworkSandboxPolicy)
    (cwd : str) : bool :=
  if negb (is_restricted p) then false
  else match to_legacy_sandbox_policy p network_policy cwd with
       | Ok legacy_policy =>
           bool_decide (semantic_signature p cwd ≠ semantic_signature (from_legacy_sandbox_policy legacy_policy cwd) cwd)
       | _ => true
       end.

(** ** Denied reads *)

(** [normalized_and_canonical_candidates]. *)
Definition push_unique (candidates : list str) (candidate : str) : list str :=
  if existsb (λ existing, bool_decide (existing = candidate)) candidates then candidates
  else candidates ++ [candidate].
Definition normalized_and_canonical_candidates (path : str) : list str :=
  let candidates := push_unique [] (default path (from_absolute_path path)) in
  match (canonical ← canonicalize m path; from_absolute_path canonical) with
  | Some canonical_absolute => push_unique candidates canonical_absolute
  | None => candidates
  end.

(** globset: [None] for a pattern that does not compile. *)
Variable build_glob_matcher : str → option (str → bool).

Record ReadDenyMatcher : Type := {
  denied_candidates : list (list str);
  deny_read_matchers : list (str → bool);
  invalid_pattern : bool;
}.

Definition ReadDenyMatcher_new (p : FileSystemSandboxPolicy) (cwd : str) : option ReadDenyMatcher :=
  if negb (has_denied_read_restrictions p) then None
  else
    let globs := get_unreadable_globs_with_cwd p cwd in
    Some {| denied_candidates := normalized_and_canonical_candidates <$> get_unreadable_roots_with_cwd p cwd;
            deny_read_matchers := omap build_glob_matcher globs;
            invalid_pattern := existsb (λ pattern, match build_glob_matcher pattern with Some _ => false | None => true end) globs |}.

Definition is_read_denied (matcher : ReadDenyMatcher) (path : str) : bool :=
  if invalid_pattern matcher then true
  else
    let path_candidates := normalized_and_canonical_candidates path in
    existsb (λ denied, existsb (λ candidate, existsb (λ denied_candidate,
        bool_decide (candidate = denied_candidate) || path_starts_with candidate denied_candidate) denied)
      path_candidates) (denied_candidates matcher)
    || existsb (λ is_match, existsb is_match path_candidates) (deny_read_matchers matcher).
End Machine.
End Permissions.
