(* ===== verification/PermissionsFacts.v ===== *)
(** * What sandbox permissions promise

    The most specific entry decides, whatever the order of the entries; full
    disk access is what it says; a path below a writable root is writable under
    the policy; legacy policies survive the conversion. *)
From S2P Require Import Prelude Str Io Paths ExecPolicy Permissions.
Import Paths Permissions.

(** ** Precedence *)

Lemma precedence_le_spec a b : precedence_le a b = true ↔ a.1 < b.1 ∨ (a.1 = b.1 ∧ a.2 ≤ b.2).
Proof.
  unfold precedence_le.
  by rewrite orb_true_iff, andb_true_iff, Nat.ltb_lt, Nat.eqb_eq, Nat.leb_le.
Qed.

Lemma precedence_le_false a b : precedence_le a b = false → precedence_le b a = true.
Proof.
  intros H. apply precedence_le_spec. apply not_true_iff_false in H. rewrite precedence_le_spec in H. lia.
Qed.

Lemma precedence_le_trans a b c :
  precedence_le a b = true → precedence_le b c = true → precedence_le a c = true.
Proof. rewrite !precedence_le_spec. lia. Qed.

Lemma max_by_precedence_None l : max_by_precedence l = None ↔ l = [].
Proof. by destruct l. Qed.

(** [e] is a greatest element of [l]. *)
Definition greatest (l : list ResolvedFileSystemEntry) (e : ResolvedFileSystemEntry) : Prop :=
  e ∈ l ∧ ∀ e', e' ∈ l → precedence_le (resolved_entry_precedence e') (resolved_entry_precedence e) = true.

Lemma max_by_precedence_greatest l e : max_by_precedence l = Some e → greatest l e.
Proof.
  revert e. induction l as [|x l IH]; intros e; [done|]. cbn [max_by_precedence]. intros [= Hm].
  assert (precedence_le (resolved_entry_precedence x) (resolved_entry_precedence x) = true) as Hrefl
    by (apply precedence_le_spec; lia).
  destruct (max_by_precedence l) as [e'|] eqn:He'.
  - destruct (IH e' eq_refl) as [Hin Hmax].
    destruct (precedence_le _ (resolved_entry_precedence e')) eqn:Hle; subst e.
    + split; [by right|]. intros y [->|Hy]%elem_of_cons; auto.
    + apply precedence_le_false in Hle. split; [by left|].
      intros y [->|Hy]%elem_of_cons; [done|]. by eapply precedence_le_trans; [apply Hmax|].
  - apply max_by_precedence_None in He' as ->. subst e. split; [by left|].
    by intros y [->|[]%elem_of_nil]%elem_of_cons.
Qed.

Lemma access_rank_inj a b : access_rank a = access_rank b → a = b.
Proof. by destruct a, b. Qed.

(** Greatest elements have the same access. *)
Lemma greatest_access l e e' : greatest l e → greatest l e' → resolved_access e = resolved_access e'.
Proof.
  intros [Hin Hmax] [Hin' Hmax']. apply access_rank_inj.
  specialize (Hmax e' Hin'). specialize (Hmax' e Hin). rewrite !precedence_le_spec in *.
  unfold resolved_entry_precedence in *. simpl in *. lia.
Qed.

(** ** The deciding entry *)

Section Machine.
Variable m : Machine.

(** The entries that cover a resolved path. *)
Definition covering (p : FileSystemSandboxPolicy) (cwd t : str) : list ResolvedFileSystemEntry :=
  filter (λ e, path_starts_with t (resolved_path e)) (resolved_entries_with_cwd m p cwd).
Definition decides (p : FileSystemSandboxPolicy) (cwd t : str) : ResolvedFileSystemEntry → Prop :=
  greatest (covering p cwd t).

Lemma elem_of_covering p cwd t e :
  e ∈ covering p cwd t ↔ e ∈ resolved_entries_with_cwd m p cwd ∧ path_starts_with t (resolved_path e) = true.
Proof. unfold covering. rewrite list_elem_of_filter, Is_true_true. naive_solver. Qed.

Lemma resolve_access_decides p path cwd t e :
  kind p = Restricted → resolve_candidate_path m path cwd = Some t → decides p cwd t e →
  resolve_access_with_cwd m p path cwd = resolved_access e.
Proof.
  intros Hk Ht He. unfold resolve_access_with_cwd. rewrite Hk, Ht. fold (covering p cwd t).
  destruct (max_by_precedence (covering p cwd t)) as [e'|] eqn:Hmax; simpl.
  - apply max_by_precedence_greatest in Hmax. by eapply greatest_access.
  - apply max_by_precedence_None in Hmax. destruct He as [Hin _]. rewrite Hmax in Hin. by apply elem_of_nil in Hin.
Qed.

Lemma decides_ex p cwd t e : e ∈ covering p cwd t → ∃ d, decides p cwd t d.
Proof.
  intros Hin. destruct (max_by_precedence (covering p cwd t)) as [d|] eqn:Hmax.
  - exists d. by apply max_by_precedence_greatest.
  - apply max_by_precedence_None in Hmax. rewrite Hmax in Hin. by apply elem_of_nil in Hin.
Qed.

Lemma resolve_access_uncovered p path cwd t :
  kind p = Restricted → resolve_candidate_path m path cwd = Some t → covering p cwd t = [] →
  resolve_access_with_cwd m p path cwd = NoAccess.
Proof. intros Hk Ht Hnil. unfold resolve_access_with_cwd. rewrite Hk, Ht. fold (covering p cwd t). by rewrite Hnil. Qed.

Lemma covering_decided p cwd t : covering p cwd t ≠ [] → ∃ e, decides p cwd t e.
Proof.
  intros Hne. destruct (covering p cwd t) as [|e l] eqn:Hc; [done|].
  apply (decides_ex p cwd t e). rewrite Hc. by left.
Qed.

(** C31. Access to a path under a restricted policy is that of the most
    specific entries covering it, no access winning over write and write over
    read among equally specific ones; with no covering entry there is no
    access. *)
Theorem most_specific_entry_decides p path cwd t :
  kind p = Restricted → resolve_candidate_path m path cwd = Some t →
  (covering p cwd t = [] → resolve_access_with_cwd m p path cwd = NoAccess)
  ∧ (covering p cwd t ≠ [] → ∃ e, decides p cwd t e)
  ∧ ∀ e, decides p cwd t e →
    resolve_access_with_cwd m p path cwd = resolved_access e
    ∧ ∀ e', e' ∈ covering p cwd t →
        length (std_components (resolved_path e')) ≤ length (std_components (resolved_path e))
        ∧ (resolved_path e' = resolved_path e →
           (resolved_access e' = NoAccess → resolved_access e = NoAccess)
           ∧ (resolved_access e' = Write → resolved_access e ≠ Read)).
Proof.
  intros Hk Ht. split_and!; [by eapply resolve_access_uncovered|apply covering_decided|].
  intros e He. split; [by eapply resolve_access_decides|]. intros e' He'.
  destruct He as [_ Hmax]. specialize (Hmax e' He'). apply precedence_le_spec in Hmax.
  unfold resolved_entry_precedence in Hmax. simpl in Hmax. split; [lia|]. intros Heq. rewrite Heq in Hmax.
  by destruct (resolved_access e), (resolved_access e'); simpl in Hmax; split; intros; try done; lia.
Qed.

(** ** The order of the entries *)

Definition policy_equiv (p q : FileSystemSandboxPolicy) : Prop := kind p = kind q ∧ entries p ≡ₚ entries q.

#[export] Instance policy_equiv_equivalence : Equivalence policy_equiv.
Proof.
  split.
  - by intros p.
  - intros p q [??]. by split.
  - intros p q r [??] [??]. split; [congruence|by etrans].
Qed.

#[export] Instance resolve_access_proper :
  Proper (policy_equiv ==> eq ==> eq ==> eq) (resolve_access_with_cwd m).
Proof.
  intros p q [Hk Hes] path ? <- cwd ? <-.
  destruct (decide (kind p = Restricted)) as [Hr|Hr];
    [|unfold resolve_access_with_cwd; rewrite <-Hk; by destruct (kind p)].
  destruct (resolve_candidate_path m path cwd) as [t|] eqn:Ht;
    [|unfold resolve_access_with_cwd; by rewrite <-Hk, Hr, Ht].
  assert (covering p cwd t ≡ₚ covering q cwd t) as Hc.
  { unfold covering, resolved_entries_with_cwd. by rewrite Hes. }
  destruct (decide (covering p cwd t = [])) as [Hnil|Hnil].
  - rewrite (resolve_access_uncovered p path cwd t Hr Ht Hnil). rewrite Hnil in Hc. apply Permutation_nil in Hc.
    symmetry. apply (resolve_access_uncovered q path cwd t); congruence.
  - destruct (covering_decided p cwd t Hnil) as [e He]. rewrite (resolve_access_decides p path cwd t e Hr Ht He).
    symmetry. apply (resolve_access_decides q path cwd t); [congruence|done|].
    destruct He as [Hin Hmax]. split; [by rewrite <-Hc|]. intros e' He'. apply Hmax. by rewrite Hc.
Qed.

(** ** Resolved paths *)

(** The machine's working directory is absolute, and so are the paths of the
    policy, as the type of its paths says. *)
Definition well_formed_machine : Prop := ∀ c, current_dir m = Some c → is_absolute c = true.
Definition well_formed_policy (p : FileSystemSandboxPolicy) : Prop :=
  ∀ e q, e ∈ entries p → entry_path e = PathEntry q → normal_abs q.

Hypothesis Hmachine : well_formed_machine.

Lemma from_absolute_path_normal p q : from_absolute_path m p = Some q → normal_abs q.
Proof.
  unfold from_absolute_path, ExecPolicy.from_absolute_path.
  destruct (is_absolute (maybe_expand_home_directory (home_dir m) p)) eqn:Ha.
  - intros [= <-]. by apply normalize_path_normal.
  - intros (c&Hc&->)%fmap_Some. apply normalize_path_normal, path_with_base_absolute. by apply Hmachine.
Qed.

Lemma is_absolute_normal p : normal_abs p → is_absolute p = true.
Proof. by intros (cs&->&_). Qed.

Lemma maybe_expand_absolute home p : is_absolute p = true → maybe_expand_home_directory home p = p.
Proof.
  intros Ha. apply bool_decide_eq_true in Ha. destruct p as [|c p]; [done|]. injection Ha as ->.
  by destruct home.
Qed.

Lemma from_absolute_path_id p : normal_abs p → from_absolute_path m p = Some p.
Proof.
  intros Hp. pose proof (is_absolute_normal p Hp) as Ha.
  unfold from_absolute_path, ExecPolicy.from_absolute_path.
  by rewrite maybe_expand_absolute, Ha, normalize_normal.
Qed.

Lemma resolve_against_normal p base : normal_abs base → normal_abs (resolve_against m p base).
Proof.
  intros Hb. apply normalize_path_normal, path_with_base_absolute. by apply is_absolute_normal.
Qed.

Lemma resolve_candidate_normal p cwd : normal_abs p → resolve_candidate_path m p cwd = Some p.
Proof.
  intros Hp. unfold resolve_candidate_path. by rewrite is_absolute_normal, from_absolute_path_id.
Qed.

Lemma normal_root : normal_abs [SLASH].
Proof. by exists []. Qed.

Lemma resolve_entry_path_normal fp c q :
  normal_abs c → (∀ q, fp = PathEntry q → normal_abs q) →
  resolve_entry_path m fp (Some c) = Some q → normal_abs q.
Proof.
  intros Hc Hfp. destruct fp as [q'|g|v]; simpl; [intros [= <-]; by apply Hfp|done|].
  destruct v as [| | |sub| | |u sub]; simpl; try done.
  - intros [= <-]. exact normal_root.
  - by intros [= <-].
  - intros [= <-]. destruct sub; [by apply resolve_against_normal|done].
  - destruct (tmpdir_var m) as [t|]; [|done]. simpl. case_bool_decide; [done|]. apply from_absolute_path_normal.
  - destruct (from_absolute_path m (lit "/tmp")) as [t|] eqn:Ht; [|done]. simpl.
    destruct (is_dir m t); [|done]. intros [= <-]. by eapply from_absolute_path_normal.
Qed.

(** An entry of the policy behind a resolved entry. *)
Lemma elem_of_resolved p cwd c e :
  from_absolute_path m cwd = Some c →
  e ∈ resolved_entries_with_cwd m p cwd ↔
  ∃ x, x ∈ entries p ∧ resolve_entry_path m (entry_path x) (Some c) = Some (resolved_path e)
     ∧ entry_access x = resolved_access e.
Proof.
  intros Hc. unfold resolved_entries_with_cwd. rewrite Hc, list_elem_of_omap. split.
  - intros (x&Hx&(q&Hq&->)%fmap_Some). by exists x.
  - intros (x&Hx&Hq&Ha). exists x. split; [done|]. rewrite Hq, Ha. by destruct e.
Qed.

Lemma resolved_normal p cwd c e :
  from_absolute_path m cwd = Some c → well_formed_policy p →
  e ∈ resolved_entries_with_cwd m p cwd → normal_abs (resolved_path e).
Proof.
  intros Hc Hp (x&Hx&Hq&_)%(elem_of_resolved p cwd c e Hc).
  eapply resolve_entry_path_normal; [by eapply from_absolute_path_normal| |exact Hq].
  intros q Heq. by apply (Hp x).
Qed.

(** Prefixes of paths are prefixes of their components. *)
Lemma std_components_path_of cs : Forall plain cs → std_components (path_of true cs) = [SLASH] :: cs.
Proof. intros Hcs. unfold std_components. by rewrite is_absolute_path_of, components_path_of. Qed.

Lemma path_starts_with_trans a b c :
  path_starts_with a b = true → path_starts_with b c = true → path_starts_with a c = true.
Proof. unfold path_starts_with. rewrite !bool_decide_eq_true. intros. by etrans. Qed.

Lemma path_starts_with_refl a : path_starts_with a a = true.
Proof. by apply bool_decide_eq_true. Qed.

Lemma path_starts_with_root a : normal_abs a → path_starts_with a [SLASH] = true.
Proof.
  intros (cs&->&Hcs). apply bool_decide_eq_true. rewrite std_components_path_of by done.
  exists cs. done.
Qed.

Lemma normal_components_inj a b : normal_abs a → normal_abs b → std_components a = std_components b → a = b.
Proof. intros (cs&->&Hcs) (ds&->&Hds). rewrite !std_components_path_of by done. by intros [= ->]. Qed.

(** Two paths above the same path are ordered by their lengths. *)
Lemma path_starts_with_order a b t :
  path_starts_with t a = true → path_starts_with t b = true →
  length (std_components a) ≤ length (std_components b) → path_starts_with b a = true.
Proof.
  unfold path_starts_with. rewrite !bool_decide_eq_true. intros Ha Hb Hlen.
  destruct (prefix_weak_total _ _ _ Ha Hb) as [?|Hba]; [done|].
  by rewrite (prefix_length_eq _ _ Hba Hlen).
Qed.

(** ** Full disk access *)

Lemma can_write_spec a : can_write a = true ↔ a = Write.
Proof. apply bool_decide_eq_true. Qed.

Lemma has_root_access_resolved p pred cwd c :
  from_absolute_path m cwd = Some c → has_root_access p pred = true →
  ∃ e, e ∈ resolved_entries_with_cwd m p cwd ∧ resolved_path e = [SLASH] ∧ pred (resolved_access e) = true.
Proof.
  intros Hc (_&(x&Hx%list_elem_of_In&[Hroot%bool_decide_eq_true Hpred]%andb_true_iff)%existsb_exists)%andb_true_iff.
  exists {| resolved_path := [SLASH]; resolved_access := entry_access x |}. split_and!; [|done..].
  rewrite (elem_of_resolved p cwd c _ Hc). exists x. by rewrite Hroot.
Qed.

(** Two entries with the same target resolve to the same path. *)
Lemma same_target_resolved x y c q :
  is_dir m (lit "/tmp") = true → (∀ q, entry_path x = PathEntry q → normal_abs q) →
  (∀ q, entry_path y = PathEntry q → normal_abs q) →
  entry_path x ≠ Special Root →
  file_system_paths_share_target (entry_path y) (entry_path x) = true →
  resolve_entry_path m (entry_path x) (Some c) = Some q →
  resolve_entry_path m (entry_path y) (Some c) = Some q.
Proof.
  intros Htmp Hx Hy Hroot Hshare Hq.
  assert (from_absolute_path m (lit "/tmp") = Some (lit "/tmp")) as Htmpdir.
  { apply from_absolute_path_id. exists [lit "tmp"]. split; [done|]. repeat constructor; [|done..].
    apply (bool_decide_unpack _). by vm_compute. }
  destruct (entry_path y) as [qy|gy|vy], (entry_path x) as [qx|gx|vx]; simpl in Hshare; try done.
  - apply bool_decide_eq_true in Hshare as ->. done.
  - destruct vx; try done. apply bool_decide_eq_true in Hshare as ->.
    simpl in Hq. rewrite Htmpdir in Hq. simpl in Hq. by rewrite Htmp in Hq.
  - injection Hq as <-. destruct vy; try done; apply bool_decide_eq_true in Hshare.
    + simpl. f_equal. destruct (Hx qx eq_refl) as (cs&->&Hcs). unfold parent in Hshare.
      rewrite components_path_of in Hshare by done. by destruct cs.
    + subst qx. simpl. rewrite Htmpdir. simpl. by rewrite Htmp.
  - destruct vy as [| | |[]| | |], vx as [| | |[]| | |]; try done; simpl in Hshare;
      by apply bool_decide_eq_true in Hshare as [= ->].
Qed.

(** An entry that narrows nothing and is not a write is shadowed by a write. *)
Lemma harmless_entry_shadowed p x c q :
  is_dir m (lit "/tmp") = true → well_formed_policy p → has_root_access p can_write = true → x ∈ entries p →
  narrows_writes p x = false → entry_access x ≠ Write →
  resolve_entry_path m (entry_path x) (Some c) = Some q →
  entry_access x = Read ∧
  ∃ y, y ∈ entries p ∧ entry_access y = Write ∧ resolve_entry_path m (entry_path y) (Some c) = Some q.
Proof.
  intros Htmp Hp Hroot Hx Hnarrow Hnw Hq.
  assert (has_same_target_write_override p x = true → entry_path x ≠ Special Root →
    entry_access x = Read ∧
    ∃ y, y ∈ entries p ∧ entry_access y = Write ∧ resolve_entry_path m (entry_path y) (Some c) = Some q) as Hover.
  { intros Ho Hnr. apply existsb_exists in Ho as (y&Hy%list_elem_of_In&Ho). bool_to_prop.
    rename select (can_write _ = true) into Hw. apply can_write_spec in Hw. rewrite Hw in *.
    split; [by destruct (entry_access x); simpl in *; try lia|]. exists y. split_and!; [done..|].
    eapply same_target_resolved; [done|intros ?; by apply (Hp x)|intros ?; by apply (Hp y)|done..]. }
  unfold narrows_writes in Hnarrow. assert (can_write (entry_access x) = false) as Hcw by by apply bool_decide_eq_false.
  rewrite Hcw in Hnarrow. destruct (entry_path x) as [qx|gx|vx] eqn:Hpath; [|done|].
  - apply negb_false_iff in Hnarrow. by apply Hover.
  - destruct vx; try done; try (apply negb_false_iff in Hnarrow; by apply Hover).
    apply bool_decide_eq_false in Hnarrow. split; [by destruct (entry_access x)|].
    apply andb_true_iff in Hroot as [_ Hroot].
    apply existsb_exists in Hroot as (y&Hy%list_elem_of_In&[Hr%bool_decide_eq_true Hw%can_write_spec]%andb_true_iff).
    exists y. by rewrite Hr.
Qed.

(** A policy that reports full disk read (write) access resolves every
    path to readable (writable), for writes provided that /tmp is a directory. *)
Theorem full_disk_access_sound p path cwd c t :
  well_formed_policy p → from_absolute_path m cwd = Some c →
  resolve_candidate_path m path cwd = Some t → normal_abs t →
  (has_full_disk_read_access p = true → can_read_path_with_cwd m p path cwd = true)
  ∧ (has_full_disk_write_access p = true → is_dir m (lit "/tmp") = true →
     can_write_path_with_cwd m p path cwd = true).
Proof.
  intros Hp Hc Ht Hnorm. unfold can_read_path_with_cwd, can_write_path_with_cwd.
  unfold has_full_disk_read_access, has_full_disk_write_access.
  destruct (kind p) eqn:Hk; [|by unfold resolve_access_with_cwd; rewrite Hk..].
  assert (∀ pred, has_root_access p pred = true → ∃ d, decides p cwd t d) as Hdec.
  { intros pred (e&He&Hroot&_)%(has_root_access_resolved p pred cwd c Hc). eapply decides_ex.
    apply elem_of_covering. split; [exact He|]. rewrite Hroot. by apply path_starts_with_root. }
  split.
  - intros [Hroot Hdeny]%andb_true_iff. destruct (Hdec _ Hroot) as [d Hd].
    rewrite (resolve_access_decides p path cwd t d Hk Ht Hd). apply bool_decide_eq_true. intros Hno.
    apply negb_true_iff, not_true_iff_false in Hdeny. apply Hdeny.
    destruct Hd as [[Hd _]%elem_of_covering _]. apply (elem_of_resolved p cwd c d Hc) in Hd as (x&Hx&_&Ha).
    unfold has_denied_read_restrictions, is_restricted. rewrite Hk. apply existsb_exists. exists x.
    split; [by apply list_elem_of_In|]. apply bool_decide_eq_true. congruence.
  - intros [Hroot Hnarrow]%andb_true_iff Htmp. destruct (Hdec _ Hroot) as [d Hd].
    rewrite (resolve_access_decides p path cwd t d Hk Ht Hd). apply can_write_spec.
    destruct (decide (resolved_access d = Write)) as [|Hnw]; [done|]. exfalso.
    destruct Hd as [[Hd Hcov]%elem_of_covering Hmax].
    apply (elem_of_resolved p cwd c d Hc) in Hd as (x&Hx&Hq&Ha).
    assert (narrows_writes p x = false) as Hharmless.
    { unfold has_write_narrowing_entries, is_restricted in Hnarrow. rewrite Hk in Hnarrow. simpl in Hnarrow.
      destruct (narrows_writes p x) eqn:Hn; [|done]. exfalso. apply negb_true_iff, not_true_iff_false in Hnarrow.
      apply Hnarrow, existsb_exists. exists x. split; [by apply list_elem_of_In|done]. }
    destruct (harmless_entry_shadowed p x c (resolved_path d)) as (Hread&y&Hy&Hw&Hqy); [done..|congruence|done|].
    specialize (Hmax {| resolved_path := resolved_path d; resolved_access := Write |}).
    assert (precedence_le (resolved_entry_precedence {| resolved_path := resolved_path d; resolved_access := Write |})
      (resolved_entry_precedence d) = true) as Hle.
    { apply Hmax, elem_of_covering. split; [|done]. apply (elem_of_resolved p cwd c _ Hc). by exists y. }
    apply precedence_le_spec in Hle. unfold resolved_entry_precedence in Hle. simpl in Hle.
    rewrite <-Ha, Hread in Hle. simpl in Hle. lia.
Qed.

(** ** Writable roots *)

Lemma elem_of_dedup_loop normalize seen paths q :
  q ∈ dedup_loop m normalize seen paths →
  ∃ path, path ∈ paths ∧ q = if normalize then normalize_effective_absolute_path m path else path.
Proof.
  revert seen. induction paths as [|path paths IH]; intros seen; simpl; [by intros []%elem_of_nil|].
  case_bool_decide as Hseen.
  - intros (p&Hp&->)%IH. exists p. split; [by right|done].
  - intros [->|(p&Hp&->)%IH]%elem_of_cons; [exists path|exists p]; (split; [|done]); [by left|by right].
Qed.

Lemma elem_of_dedup_id paths seen q : q ∈ paths → q ∉ seen → q ∈ dedup_loop m false seen paths.
Proof.
  revert seen. induction paths as [|path paths IH]; intros seen; simpl; [by intros []%elem_of_nil|].
  intros Hq Hseen. case_bool_decide as Hin.
  - apply elem_of_cons in Hq as [->|Hq]; [done|]. by apply IH.
  - destruct (decide (q = path)) as [->|Hne]; [by left|]. right. apply IH; [|set_solver].
    by apply elem_of_cons in Hq as [|].
Qed.

(** Where no symbolic link changes a path. *)
Definition no_symlinks : Prop := ∀ path, normal_abs path → normalize_effective_absolute_path m path = path.

Lemma plain_last_not_slash cs : Forall plain cs → cs ≠ [] → last (join [SLASH] cs) ≠ Some SLASH.
Proof.
  intros Hcs Hne. destruct cs as [|c cs _] using rev_ind; [done|].
  apply Forall_app in Hcs as [_ Hc]. apply Forall_singleton in Hc as (Hslash&Hnil&_).
  destruct c as [|x c _] using rev_ind; [done|].
  assert (∃ s, join [SLASH] (cs ++ [c ++ [x]]) = s ++ [x]) as [s ->].
  { destruct cs as [|d cs]; [by exists c|]. rewrite join_app_sep by done.
    exists (join [SLASH] (d :: cs) ++ [SLASH] ++ c). by rewrite <-!(assoc_L (++)). }
  rewrite last_snoc. intros [= ->]. apply Hslash. set_solver.
Qed.

Lemma join_not_absolute cs : Forall plain cs → is_absolute (join [SLASH] cs) = false.
Proof.
  intros Hcs. apply bool_decide_eq_false. destruct Hcs as [|c cs (Hslash&Hnil&_) _]; [done|].
  destruct c as [|x c]; [done|]. destruct cs; simpl; intros [= ->]; apply Hslash; by left.
Qed.

Lemma components_trailing_slash p : components (p ++ [SLASH]) = components p.
Proof.
  unfold components. assert (split_on SLASH (p ++ [SLASH]) = split_on SLASH p ++ [[]]) as ->.
  { induction p as [|x p IH]; [done|]. simpl. rewrite IH. destruct (split_on_cons SLASH p) as (q&qs&->).
    by destruct (x =? SLASH)%N. }
  rewrite filter_app. simpl. by rewrite app_nil_r.
Qed.

(** Joining the components below a path gives them back. *)
Lemma normalize_path_join as_ ds :
  Forall plain as_ → Forall plain ds →
  normalize_path (path_join (path_of true as_) (join [SLASH] ds)) = path_of true (as_ ++ ds).
Proof.
  intros Has Hds. unfold path_join. rewrite join_not_absolute, bool_decide_eq_false_2 by done.
  destruct as_ as [|a as_].
  { apply normalize_normal. by exists ds. }
  rewrite bool_decide_eq_false_2.
  2: { pose proof (plain_last_not_slash (a :: as_) Has ltac:(done)) as Hl.
    change (path_of true (a :: as_)) with (SLASH :: join [SLASH] (a :: as_)).
    destruct (join [SLASH] (a :: as_)) as [|x s] eqn:Hj; [|exact Hl].
    exfalso. apply Forall_cons in Has as [(_&Hnil&_) _]. destruct a; [done|]. by destruct as_. }
  destruct ds as [|d ds].
  - rewrite !app_nil_r. unfold normalize_path. rewrite components_trailing_slash.
    change (is_absolute (path_of true (a :: as_) ++ [SLASH])) with true.
    rewrite components_path_of by done. rewrite normalize_steps_id by done. simpl app. by rewrite bool_decide_false by done.
  - rewrite <-(normalize_normal (path_of true ((a :: as_) ++ d :: ds))) by (exists ((a :: as_) ++ d :: ds); split; [done|by apply Forall_app]).
    f_equal. unfold path_of. rewrite join_app_sep by done. by rewrite !(assoc_L (++)).
Qed.

Lemma strip_prefix_take cs k :
  Forall plain cs → path_strip_prefix (path_of true cs) (path_of true (take k cs)) = Some (join [SLASH] (drop k cs)).
Proof.
  intros Hcs. unfold path_strip_prefix, path_starts_with.
  rewrite !std_components_path_of by (try apply Forall_take; done).
  rewrite bool_decide_eq_true_2 by (apply prefix_cons; exists (drop k cs); by rewrite take_drop).
  f_equal. f_equal. cbn [length drop app]. rewrite length_take.
  destruct (decide (k ≤ length cs)); [by rewrite Nat.min_l|].
  rewrite Nat.min_r, !drop_ge by lia. done.
Qed.

Lemma no_symlinks_intro : (∀ p q, canonicalize m p = Some q → q = p) → no_symlinks.
Proof.
  intros Hcanon path (cs&->&Hcs). unfold normalize_effective_absolute_path.
  destruct (head _) as [q|] eqn:Hhead; [|done]. simpl. apply head_Some_elem_of in Hhead.
  apply list_elem_of_omap in Hhead as (a&Ha&Hq). unfold ancestors in Ha.
  rewrite components_path_of in Ha by done. apply list_elem_of_fmap in Ha as (k&->&_).
  assert (normal_abs (path_of true (take k cs))) as Hna by (eexists; split; [done|by apply Forall_take]).
  unfold normalize_ancestor in Hq. destruct (symlink_metadata m _); [|done]. simpl in Hq.
  unfold canonicalize_preserving_symlinks in Hq. rewrite (from_absolute_path_id _ Hna) in Hq. simpl in Hq.
  replace (match canonicalize m (path_of true (take k cs)) with
           | Some canonical => _ | None => _ end) with (path_of true (take k cs)) in Hq.
  2: { destruct (canonicalize m _) as [z|] eqn:Hz; [|done]. apply Hcanon in Hz as ->. by case_match. }
  rewrite strip_prefix_take in Hq by done. simpl in Hq. unfold from_absolute_path, ExecPolicy.from_absolute_path in Hq.
  assert (is_absolute (path_join (path_of true (take k cs)) (join [SLASH] (drop k cs))) = true) as Habs.
  { unfold path_join. rewrite join_not_absolute by by apply Forall_drop. rewrite bool_decide_eq_false_2 by done.
    by case_bool_decide. }
  rewrite maybe_expand_absolute, Habs in Hq by done. injection Hq as <-.
  rewrite normalize_path_join by (by apply Forall_take || by apply Forall_drop). by rewrite take_drop.
Qed.

(** An entry that decides a path decides its own path. *)
Lemma decides_own_path p cwd t e : decides p cwd t e → decides p cwd (resolved_path e) e.
Proof.
  intros [[He Hcov]%elem_of_covering Hmax]. split.
  - apply elem_of_covering. split; [done|apply path_starts_with_refl].
  - intros e' [He' Hcov']%elem_of_covering. apply Hmax, elem_of_covering. split; [done|].
    by eapply path_starts_with_trans.
Qed.

(** A deciding entry that is not a write, below a root, is carved out of it. *)
Lemma carveout_of_deciding p cwd c r raw t e :
  no_symlinks → from_absolute_path m cwd = Some c → well_formed_policy p → kind p = Restricted →
  decides p cwd t e → resolved_access e ≠ Write → resolved_path e ≠ r →
  path_starts_with (resolved_path e) r = true →
  resolved_path e ∈ omap (carveout m r raw)
    (filter (λ e, negb (can_write (resolved_access e)) && negb (can_write_path_with_cwd m p (resolved_path e) cwd))
       (resolved_entries_with_cwd m p cwd)).
Proof.
  intros Hlinks Hc Hp Hk He Hnw Hne Hbelow. pose proof He as [[Hin _]%elem_of_covering _].
  assert (normal_abs (resolved_path e)) as Hnorm by by eapply resolved_normal.
  apply list_elem_of_omap. exists e. split.
  - apply list_elem_of_filter. split; [|done]. apply Is_true_true, andb_true_iff.
    assert (can_write (resolved_access e) = false) as Hcw by by apply bool_decide_eq_false.
    unfold can_write_path_with_cwd.
    rewrite (resolve_access_decides p _ cwd (resolved_path e) e Hk (resolve_candidate_normal _ cwd Hnorm)
      (decides_own_path p cwd t e He)). by rewrite Hcw.
  - unfold carveout, raw_carveout_path. rewrite (Hlinks _ Hnorm).
    rewrite (bool_decide_eq_false_2 (resolved_path e = r)) by done. rewrite Hbelow.
    by case_bool_decide.
Qed.

(** C32. On a machine without symbolic links, a path writable under a root
    that a restricted policy reports, outside the read-only subpaths of that
    root, is one the policy itself resolves to write access. *)
Theorem writable_roots_sound p path cwd c r :
  no_symlinks → well_formed_policy p → from_absolute_path m cwd = Some c → normal_abs path →
  r ∈ get_writable_roots_with_cwd m p cwd → is_path_writable r path = true →
  can_write_path_with_cwd m p path cwd = true.
Proof.
  intros Hlinks Hp Hc Hpath Hr [Hunder Hsub]%andb_true_iff.
  unfold get_writable_roots_with_cwd in Hr. destruct (has_full_disk_write_access p) eqn:Hfull;
    [by apply elem_of_nil in Hr|].
  assert (kind p = Restricted) as Hk.
  { unfold has_full_disk_write_access in Hfull. by destruct (kind p). }
  apply list_elem_of_fmap in Hr as (R&->&HR). unfold dedup_absolute_paths in HR.
  apply elem_of_dedup_loop in HR as (R'&HR'&->). cbn [root writable_root_of] in Hunder.
  unfold writable_entries_of in HR'. apply list_elem_of_fmap in HR' as (er&->&[Hw Her]%list_elem_of_filter).
  apply Is_true_true, andb_true_iff in Hw as [Hw HwR].
  assert (normal_abs (resolved_path er)) as HnR by by eapply resolved_normal.
  rewrite (Hlinks _ HnR) in Hsub, Hunder.
  assert (er ∈ covering p cwd path) as Hcov by by apply elem_of_covering.
  destruct (decides_ex p cwd path er Hcov) as [e He]. unfold can_write_path_with_cwd.
  rewrite (resolve_access_decides p path cwd path e Hk (resolve_candidate_normal _ cwd Hpath) He).
  apply can_write_spec. destruct (decide (resolved_access e = Write)) as [|Hnw]; [done|]. exfalso.
  pose proof He as [[Hin Hcove]%elem_of_covering Hmax].
  specialize (Hmax er Hcov). apply precedence_le_spec in Hmax. unfold resolved_entry_precedence in Hmax. simpl in Hmax.
  assert (path_starts_with (resolved_path e) (resolved_path er) = true) as Hbelow.
  { eapply path_starts_with_order; [exact Hunder|exact Hcove|lia]. }
  destruct (decide (resolved_path e = resolved_path er)) as [Heq|Hne].
  - unfold can_write_path_with_cwd in HwR. rewrite <-Heq in HwR.
    assert (normal_abs (resolved_path e)) as Hnorm by by rewrite Heq.
    rewrite (resolve_access_decides p _ cwd (resolved_path e) e Hk (resolve_candidate_normal _ cwd Hnorm)
      (decides_own_path p cwd path e He)) in HwR. by apply can_write_spec in HwR.
  - apply negb_true_iff, not_true_iff_false in Hsub. apply Hsub, existsb_exists.
    exists (resolved_path e). split; [|done]. apply list_elem_of_In. cbn [read_only_subpaths writable_root_of].
    apply elem_of_dedup_id; [|by intros []%elem_of_nil]. apply elem_of_app. right.
    by eapply carveout_of_deciding.
Qed.

(** ** Legacy policies *)

(** What converting a legacy policy and back adds: a policy with restricted
    reads lists the working directory among them. *)
Definition with_cwd_reads (c : str) (s : SandboxPolicy) : SandboxPolicy :=
  match s with
  | ReadOnly (RestrictedReads d roots) net => ReadOnly (RestrictedReads d (c :: roots)) net
  | s => s
  end.

(** The roots are listed once, and the working directory is implicit. *)
Definition plain_roots (c : str) (s : SandboxPolicy) : Prop :=
  match s with
  | ReadOnly (RestrictedReads _ roots) _ => NoDup (c :: roots)
  | WorkspaceWrite writable access _ _ _ =>
      NoDup writable ∧ c ∉ writable ∧
      match access with RestrictedReads _ roots => NoDup roots | FullAccess => True end
  | _ => True
  end.

Lemma dedup_loop_NoDup seen l :
  NoDup l → (∀ x, x ∈ l → x ∉ seen) → dedup_loop m false seen l = l.
Proof.
  intros Hl. revert seen. induction Hl as [|x l Hx Hl IH]; intros seen Hseen; simpl; [done|].
  rewrite bool_decide_eq_false_2 by (apply Hseen; by left). f_equal. apply IH.
  intros y Hy [->|Hys]%elem_of_cons; [done|]. by eapply Hseen; [right|].
Qed.

Lemma dedup_NoDup l : NoDup l → dedup_absolute_paths m l false = l.
Proof. intros Hl. apply dedup_loop_NoDup; [done|]. intros x _ []%elem_of_nil. Qed.

Lemma scan_reads p c s l :
  foldl (scan_entry m p (Some c)) s ((λ path, entry (PathEntry path) Read) <$> l)
  = foldl (λ s path, push_readable path s) s l.
Proof. revert s. induction l as [|x l IH]; intros s; [done|]. simpl. apply IH. Qed.

Lemma scan_writes p c s l :
  c ∉ l → foldl (scan_entry m p (Some c)) s ((λ path, entry (PathEntry path) Write) <$> l)
  = foldl (λ s path, push_writable path s) s l.
Proof.
  revert s. induction l as [|x l IH]; intros s Hc; [done|]. apply not_elem_of_cons in Hc as [Hx Hc].
  cbn [fmap list_fmap foldl]. unfold scan_entry at 2. simpl.
  rewrite bool_decide_eq_false_2 by congruence. by apply IH.
Qed.

Lemma push_all_readable l d w wr rr t st u :
  foldl (λ s path, push_readable path s) (Build_LegacyScan d w wr rr t st u) l
  = Build_LegacyScan d w wr (rr ++ l) t st u.
Proof.
  revert rr. induction l as [|x l IH]; intros rr; simpl; [by rewrite app_nil_r|].
  by rewrite IH, <-app_assoc.
Qed.

Lemma push_all_writable l d w wr rr t st u :
  foldl (λ s path, push_writable path s) (Build_LegacyScan d w wr rr t st u) l
  = Build_LegacyScan d w (wr ++ l) rr t st u.
Proof.
  revert wr. induction l as [|x l IH]; intros wr; simpl; [by rewrite app_nil_r|].
  by rewrite IH, <-app_assoc.
Qed.

Lemma root_access_app es fs pred :
  has_root_access (restricted (es ++ fs)) pred
  = has_root_access (restricted es) pred || has_root_access (restricted fs) pred.
Proof. unfold has_root_access. simpl. by rewrite existsb_app. Qed.

Lemma root_access_paths l a pred : has_root_access (restricted ((λ path, entry (PathEntry path) a) <$> l)) pred = false.
Proof. unfold has_root_access. simpl. by induction l. Qed.

Lemma denied_app es fs :
  has_denied_read_restrictions (restricted (es ++ fs))
  = has_denied_read_restrictions (restricted es) || has_denied_read_restrictions (restricted fs).
Proof. unfold has_denied_read_restrictions. simpl. by rewrite existsb_app. Qed.

Lemma denied_paths l a : a ≠ NoAccess →
  has_denied_read_restrictions (restricted ((λ path, entry (PathEntry path) a) <$> l)) = false.
Proof.
  intros Ha. unfold has_denied_read_restrictions. simpl. induction l; simpl; [done|].
  by rewrite bool_decide_eq_false_2.
Qed.

Lemma read_entries_root access : has_root_access (restricted (read_entries access)) can_read
  = match access with FullAccess => true | RestrictedReads _ _ => false end.
Proof.
  destruct access as [d roots|]; cbn [read_entries]; [|done]. rewrite root_access_app, root_access_paths. by destruct d.
Qed.

Lemma read_entries_no_write access : has_root_access (restricted (read_entries access)) can_write = false.
Proof.
  destruct access as [d roots|]; cbn [read_entries]; [|done]. rewrite root_access_app, root_access_paths. by destruct d.
Qed.

Lemma read_entries_denied access : has_denied_read_restrictions (restricted (read_entries access)) = false.
Proof.
  destruct access as [d roots|]; cbn [read_entries]; [|done]. rewrite denied_app, denied_paths by done. by destruct d.
Qed.

(** What the entries of legacy reads add to the scan. *)
Lemma scan_read_entries p c access w wr rr t st u :
  has_full_disk_read_access p = match access with FullAccess => true | RestrictedReads _ _ => false end →
  foldl (scan_entry m p (Some c)) (Build_LegacyScan false w wr rr t st u) (read_entries access)
  = match access with
    | FullAccess => Build_LegacyScan false w wr rr t st u
    | RestrictedReads d roots => Build_LegacyScan d w wr (rr ++ roots) t st u
    end.
Proof.
  intros Hfull. destruct access as [d roots|]; cbn [read_entries];
    [|cbn [foldl]; unfold scan_entry; cbn [entry entry_path entry_access]; by rewrite Hfull].
  rewrite foldl_app, scan_reads. destruct d; cbn [foldl]; [exact (push_all_readable roots true w wr rr t st u)|apply push_all_readable].
Qed.

Lemma full_write_restricted es : has_full_disk_write_access (restricted es)
  = has_root_access (restricted es) can_write && negb (has_write_narrowing_entries (restricted es)).
Proof. done. Qed.
Lemma full_read_restricted es : has_full_disk_read_access (restricted es)
  = has_root_access (restricted es) can_read && negb (has_denied_read_restrictions (restricted es)).
Proof. done. Qed.

Lemma workspace_full_access wr access net ext exs :
  let p := from_sandbox_policy (WorkspaceWrite wr access net ext exs) in
  has_full_disk_write_access p = false
  ∧ has_full_disk_read_access p = match access with FullAccess => true | RestrictedReads _ _ => false end.
Proof.
  intros p. unfold p. cbn [from_sandbox_policy]. rewrite full_write_restricted, full_read_restricted.
  rewrite !root_access_app, !denied_app, read_entries_no_write, read_entries_root, read_entries_denied,
    !root_access_paths, denied_paths by done.
  by destruct access, exs, ext.
Qed.

Lemma read_only_full_access access net :
  let p := from_sandbox_policy (ReadOnly access net) in
  has_full_disk_write_access p = false
  ∧ has_full_disk_read_access p = match access with FullAccess => true | RestrictedReads _ _ => false end.
Proof.
  intros p. unfold p. cbn [from_sandbox_policy]. rewrite full_write_restricted, full_read_restricted.
  rewrite !root_access_app, !denied_app, read_entries_no_write, read_entries_root, read_entries_denied.
  by destruct access.
Qed.

Lemma is_enabled_network s : is_enabled (network_policy_of s) = has_full_network_access s.
Proof. unfold network_policy_of. by destruct (has_full_network_access s). Qed.

(** A legacy sandbox policy whose roots are listed once converts to a
    file system policy and a network policy that convert back to it; only a
    restricted read-only policy comes back with the working directory made
    explicit among its readable roots. *)
Theorem legacy_policy_roundtrip s cwd c :
  from_absolute_path m cwd = Some c → plain_roots c s →
  to_legacy_sandbox_policy m (from_sandbox_policy s) (network_policy_of s) cwd = Ok (with_cwd_reads c s).
Proof.
  intros Hc Hroots. unfold to_legacy_sandbox_policy, full_write_policy. rewrite is_enabled_network, Hc.
  destruct s as [|access net|net|wr access net ext exs]; [done| |by destruct net|].
  - destruct (read_only_full_access access net) as [-> Hread]. rewrite Hread.
    set (p := from_sandbox_policy (ReadOnly access net)) in *.
    assert (foldl (scan_entry m p (Some c)) scan_start (entries p) =
      match access with
      | FullAccess => scan_start
      | RestrictedReads d roots => Build_LegacyScan d false [] (c :: roots) false false false
      end) as ->.
    { unfold p at 2. cbn [from_sandbox_policy restricted entries]. rewrite foldl_app.
      destruct access as [d roots|]; [|exact (scan_read_entries p c FullAccess _ _ _ _ _ _ Hread)].
      exact (scan_read_entries p c (RestrictedReads d roots) false [] [c] false false false Hread). }
    destruct access as [d roots|]; [|done]. simpl. by rewrite dedup_NoDup.
  - destruct (workspace_full_access wr access net ext exs) as [-> Hread]. rewrite Hread.
    destruct Hroots as (Hwr&Hcwr&Hrr). set (p := from_sandbox_policy (WorkspaceWrite wr access net ext exs)) in *.
    assert (foldl (scan_entry m p (Some c)) scan_start (entries p) =
      match access with
      | FullAccess => Build_LegacyScan false true wr [] (negb ext) (negb exs) false
      | RestrictedReads d roots => Build_LegacyScan d true wr roots (negb ext) (negb exs) false
      end) as ->.
    { unfold p at 2. cbn [from_sandbox_policy restricted entries]. rewrite !foldl_app.
      unfold scan_start at 1. rewrite (scan_read_entries p c access) by done.
      destruct access as [d roots|], exs, ext; cbn [foldl]; rewrite scan_writes by done; apply push_all_writable. }
    destruct access as [d roots|]; simpl; rewrite !negb_involutive, (dedup_NoDup wr) by done; [|done].
    by rewrite (dedup_NoDup roots).
Qed.
End Machine.

(** ** A machine *)

Definition sample_machine : Machine := {|
  home_dir := Some (lit "/home/u"); current_dir := Some (lit "/w"); tmpdir_var := None;
  is_dir := λ p, bool_decide (p = lit "/tmp" ∨ p = lit "/w" ∨ p = lit "/tmp/r/.git");
  is_file := λ _, false; exists_ := λ _, true; read_to_string := λ _, None;
  symlink_metadata := λ _, Some false; canonicalize := λ p, Some p |}.

Lemma sample_well_formed : well_formed_machine sample_machine.
Proof. by intros c [= <-]. Qed.

Lemma sample_no_symlinks : no_symlinks sample_machine.
Proof. apply no_symlinks_intro; [exact sample_well_formed|]. by intros p q [= ->]. Qed.

Lemma normal_abs_of p cs : p = path_of true cs → forallb (λ c, bool_decide (plain c)) cs = true → normal_abs p.
Proof.
  intros -> Hcs. exists cs. split; [done|]. apply forallb_Forall in Hcs.
  eapply Forall_impl; [exact Hcs|]. intros c. apply bool_decide_eq_true.
Qed.

(** The working directory is writable but for [/w/secret], the disk readable. *)
Definition sample_policy : FileSystemSandboxPolicy :=
  restricted [entry (Special Root) Read; entry (Special CurrentWorkingDirectory) Write;
              entry (PathEntry (lit "/w/secret")) NoAccess].

Lemma sample_policy_well_formed : well_formed_policy sample_policy.
Proof.
  intros e q He Hq. simpl in He. rewrite !elem_of_cons in He. destruct He as [->|[->|[->|[]%elem_of_nil]]]; try done.
  injection Hq as <-. by apply (normal_abs_of _ [lit "w"; lit "secret"]).
Qed.

Lemma most_specific_entry_decides_witness :
  ∃ e, decides sample_machine sample_policy (lit "/w") (lit "/w/secret/k") e
    ∧ resolve_access_with_cwd sample_machine sample_policy (lit "secret/k") (lit "/w") = resolved_access e.
Proof.
  destruct (most_specific_entry_decides sample_machine sample_policy (lit "secret/k") (lit "/w") (lit "/w/secret/k"))
    as (_&Hex&Hdec); [reflexivity|by vm_compute|].
  destruct Hex as [e He]; [by vm_compute|]. exists e. split; [exact He|]. exact (proj1 (Hdec e He)).
Defined.

Definition full_policy : FileSystemSandboxPolicy :=
  restricted [entry (Special Root) Write; entry (PathEntry (lit "/w")) Read; entry (Special SlashTmp) Write;
              entry (PathEntry (lit "/w")) Write; entry (PathEntry (lit "/tmp")) Read].

Lemma full_disk_access_sound_witness :
  can_write_path_with_cwd sample_machine full_policy (lit "/w/f") (lit "/w") = true.
Proof.
  assert (well_formed_policy full_policy) as Hp.
  { intros e q He Hq. simpl in He. rewrite !elem_of_cons in He.
    destruct He as [->|[->|[->|[->|[->|[]%elem_of_nil]]]]]; try done; injection Hq as <-.
    - by apply (normal_abs_of _ [lit "w"]).
    - by apply (normal_abs_of _ [lit "w"]).
    - by apply (normal_abs_of _ [lit "tmp"]). }
  apply (full_disk_access_sound sample_machine full_policy (lit "/w/f") (lit "/w") (lit "/w") (lit "/w/f")
    Hp); try by vm_compute.
  by apply (normal_abs_of _ [lit "w"; lit "f"]).
Defined.

Lemma writable_roots_sound_witness :
  ∃ r, r ∈ get_writable_roots_with_cwd sample_machine sample_policy (lit "/w")
    ∧ can_write_path_with_cwd sample_machine sample_policy (lit "/w/f") (lit "/w") = true.
Proof.
  destruct (get_writable_roots_with_cwd sample_machine sample_policy (lit "/w")) as [|r l] eqn:Hr;
    [exfalso; revert Hr; by vm_compute|].
  exists r. split; [by left|].
  apply (writable_roots_sound sample_machine sample_well_formed sample_policy (lit "/w/f") (lit "/w") (lit "/w") r
    sample_no_symlinks sample_policy_well_formed); [by vm_compute|by apply (normal_abs_of _ [lit "w"; lit "f"])| |].
  - rewrite Hr. by left.
  - revert Hr. vm_compute. by intros [= <- _].
Defined.

Lemma legacy_policy_roundtrip_witness :
  let s := WorkspaceWrite [lit "/a"; lit "/b"] (RestrictedReads true [lit "/r"]) true false true in
  to_legacy_sandbox_policy sample_machine (from_sandbox_policy s) (network_policy_of s) (lit "/w") = Ok s.
Proof.
  apply (legacy_policy_roundtrip sample_machine
    (WorkspaceWrite [lit "/a"; lit "/b"] (RestrictedReads true [lit "/r"]) true false true) (lit "/w") (lit "/w"));
    [by vm_compute|].
  split_and!; apply (bool_decide_unpack _); by vm_compute.
Defined.

(** The override of [/tmp] by its special path is assumed even when [/tmp] is
    not a directory and the special path resolves to nothing. *)
Definition no_tmp_machine : Machine := {|
  home_dir := None; current_dir := Some (lit "/w"); tmpdir_var := None; is_dir := λ _, false;
  is_file := λ _, false; exists_ := λ _, true; read_to_string := λ _, None;
  symlink_metadata := λ _, Some false; canonicalize := λ p, Some p |}.

Lemma full_write_without_tmp :
  has_full_disk_write_access full_policy = true
  ∧ can_write_path_with_cwd no_tmp_machine full_policy (lit "/tmp/f") (lit "/w") = false.
Proof. by vm_compute. Qed.

(** A protected directory of a writable root is writable through another root:
    below [/tmp], the working directory's [.git] is not protected. *)
Definition workspace_in_tmp : SandboxPolicy := WorkspaceWrite [] FullAccess false false false.

Lemma protected_path_writable_through_tmp :
  let roots := legacy_writable_roots_with_cwd sample_machine workspace_in_tmp (lit "/tmp/r") in
  existsb (λ r, bool_decide (lit "/tmp/r/.git" ∈ read_only_subpaths r)) roots = true
  ∧ existsb (λ r, is_path_writable r (lit "/tmp/r/.git/hooks/pre-commit")) roots = true.
Proof. by vm_compute. Qed.

(** The directory a [.git] file points to need not be below the root. *)
Definition worktree_machine : Machine := {|
  home_dir := None; current_dir := Some (lit "/w"); tmpdir_var := None; is_dir := λ _, false;
  is_file := λ p, bool_decide (p = lit "/w/.git"); exists_ := λ _, true;
  read_to_string := λ _, Some (lit "gitdir: /repo/.git/worktrees/w");
  symlink_metadata := λ _, Some false; canonicalize := λ p, Some p |}.

Lemma read_only_subpath_outside_root :
  default_read_only_subpaths_for_writable_root worktree_machine (lit "/w") false
  = [lit "/repo/.git/worktrees/w"; lit "/w/.git"].
Proof. by vm_compute. Qed.
