(* ===== verification/ExecApproval.v ===== *)
(** * Approval of commands

    Models [core/src/exec_policy.rs]: what happens to a command the model asks
    to run, given the execution policy, the approval policy and the sandbox, and
    the amendment of the policy by a user's answer.  The default requirement of
    [core/src/tools/sandboxing.rs] is here too.  The semaphore makes updates run
    one at a time, so an update is one sequential program over the rules file and
    the policy in memory.  tree-sitter, PowerShell's parser and shlex are
    parameters. *)
From S2P Require Import Prelude Str Io Paths ExecPolicy Amend Shell CommandSafety Permissions.
Import Paths ExecPolicy.
Import (hints) Permissions.

Module ExecApproval.
Import Permissions (SandboxPolicy, FileSystemSandboxPolicy, FileSystemSandboxKind).

(** ** Approval policies *)

Record GranularApprovalConfig : Type := {
  sandbox_approval : bool;
  rules : bool;
  skill_approval : bool;
  request_permissions : bool;
  mcp_elicitations : bool;
}.

Inductive AskForApproval : Type :=
| UnlessTrusted | OnFailure | OnRequest
| Granular (granular_config : GranularApprovalConfig)
| Never.

Inductive SandboxPermissions : Type := UseDefault | RequireEscalated | WithAdditionalPermissions.
Definition requests_sandbox_override (p : SandboxPermissions) : bool :=
  match p with UseDefault => false | _ => true end.

(** An [ExecPolicyAmendment] is its command. *)
Abbreviation ExecPolicyAmendment := (list str).

Inductive ExecApprovalRequirement : Type :=
| Skip (bypass_sandbox : bool) (proposed_execpolicy_amendment : option ExecPolicyAmendment)
| NeedsApproval (reason : option str) (proposed_execpolicy_amendment : option ExecPolicyAmendment)
| ForbiddenRequirement (reason : str).

Definition PROMPT_CONFLICT_REASON : str :=
  lit "approval required by policy, but AskForApproval is set to Never".
Definition REJECT_SANDBOX_APPROVAL_REASON : str :=
  lit "approval required by policy, but AskForApproval::Granular.sandbox_approval is false".
Definition REJECT_RULES_APPROVAL_REASON : str :=
  lit "approval required by policy rule, but AskForApproval::Granular.rules is false".

Definition prompt_is_rejected_by_policy (approval_policy : AskForApproval) (prompt_is_rule : bool) : option str :=
  match approval_policy with
  | Never => Some PROMPT_CONFLICT_REASON
  | OnFailure | OnRequest | UnlessTrusted => None
  | Granular granular_config =>
      if prompt_is_rule then
        if negb (rules granular_config) then Some REJECT_RULES_APPROVAL_REASON else None
      else if negb (sandbox_approval granular_config) then Some REJECT_SANDBOX_APPROVAL_REASON
      else None
  end.

(** [default_exec_approval_requirement] of [sandboxing.rs]. *)
Definition default_exec_approval_requirement (policy : AskForApproval) (fs : FileSystemSandboxPolicy)
    : ExecApprovalRequirement :=
  let needs_approval :=
    match policy with
    | Never | OnFailure => false
    | OnRequest | Granular _ => bool_decide (Permissions.kind fs = Permissions.Restricted)
    | UnlessTrusted => true
    end in
  match policy with
  | Granular granular_config =>
      if needs_approval && negb (sandbox_approval granular_config)
      then ForbiddenRequirement (lit "approval policy disallowed sandbox approval prompt")
      else if needs_approval then NeedsApproval None None else Skip false None
  | _ => if needs_approval then NeedsApproval None None else Skip false None
  end.

Inductive SandboxOverride : Type := NoOverride | BypassSandboxFirstAttempt.
Definition sandbox_override_for_first_attempt (sandbox_permissions : SandboxPermissions)
    (requirement : ExecApprovalRequirement) : SandboxOverride :=
  match sandbox_permissions, requirement with
  | RequireEscalated, _ | _, Skip true _ => BypassSandboxFirstAttempt
  | _, _ => NoOverride
  end.

Definition is_policy_match (m : RuleMatch) : bool :=
  match m with PrefixRuleMatch _ _ _ _ => true | HeuristicsRuleMatch _ _ => false end.
Definition is_rule_with (d : Decision) (m : RuleMatch) : bool :=
  is_policy_match m && bool_decide (match_decision m = d).

(** ** Amendments *)

Definition BANNED_PREFIX_SUGGESTIONS : list (list string) :=
  [["python3"]; ["python3"; "-"]; ["python3"; "-c"]; ["python"]; ["python"; "-"]; ["python"; "-c"];
   ["py"]; ["py"; "-3"]; ["pythonw"]; ["pyw"]; ["pypy"]; ["pypy3"]; ["git"]; ["bash"]; ["bash"; "-lc"];
   ["sh"]; ["sh"; "-c"]; ["sh"; "-lc"]; ["zsh"]; ["zsh"; "-lc"]; ["/bin/zsh"]; ["/bin/zsh"; "-lc"];
   ["/bin/bash"]; ["/bin/bash"; "-lc"]; ["pwsh"]; ["pwsh"; "-Command"]; ["pwsh"; "-c"]; ["powershell"];
   ["powershell"; "-Command"]; ["powershell"; "-c"]; ["powershell.exe"]; ["powershell.exe"; "-Command"];
   ["powershell.exe"; "-c"]; ["env"]; ["sudo"]; ["node"]; ["node"; "-e"]; ["perl"]; ["perl"; "-e"];
   ["ruby"]; ["ruby"; "-e"]; ["php"]; ["php"; "-r"]; ["lua"]; ["lua"; "-e"]; ["osascript"]]%string.

Definition heuristics_command (d : Decision) (m : RuleMatch) : option ExecPolicyAmendment :=
  match m with
  | HeuristicsRuleMatch command decision => if bool_decide (decision = d) then Some command else None
  | PrefixRuleMatch _ _ _ _ => None
  end.

Definition try_derive_execpolicy_amendment_for_prompt_rules (matched_rules : list RuleMatch)
    : option ExecPolicyAmendment :=
  if existsb (is_rule_with Prompt) matched_rules then None
  else head (omap (heuristics_command Prompt) matched_rules).

Definition try_derive_execpolicy_amendment_for_allow_rules (matched_rules : list RuleMatch)
    : option ExecPolicyAmendment :=
  if existsb is_policy_match matched_rules then None
  else head (omap (heuristics_command Allow) matched_rules).

Section Approval.
Variables home_dir current_dir : option str.
Variable try_parse_shell : str → option Shell.Tree.
Variable parse_with_powershell_ast : str → str → option (list (list str)).
Variable shlex_try_join : list str → option str.

Abbreviation matches := (matches_for_command_with_options home_dir current_dir).

Definition prefix_rule_would_approve_all_commands (exec_policy : Policy) (prefix_rule : list str)
    (commands : list (list str)) (exec_policy_fallback : list str → Decision) (match_options : MatchOptions)
    : result Error bool :=
  match add_prefix_rule prefix_rule Allow exec_policy with
  | Ok policy_with_prefix_rule =>
      foldl (λ acc command,
        all_allowed ← acc;
        if negb all_allowed then Ok false
        else
          e ← check_with_options home_dir current_dir policy_with_prefix_rule command exec_policy_fallback match_options;
          Ok (bool_decide (eval_decision e = Allow))) (Ok true) commands
  | _ => Ok false
  end.

Definition derive_requested_execpolicy_amendment_from_prefix_rule (prefix_rule : option (list str))
    (matched_rules : list RuleMatch) (exec_policy : Policy) (commands : list (list str))
    (exec_policy_fallback : list str → Decision) (match_options : MatchOptions)
    : result Error (option ExecPolicyAmendment) :=
  match prefix_rule with
  | None => Ok None
  | Some prefix_rule =>
      if bool_decide (prefix_rule = []) then Ok None
      else if existsb (λ banned, bool_decide (prefix_rule = lit <$> banned)) BANNED_PREFIX_SUGGESTIONS then Ok None
      else if existsb is_policy_match matched_rules then Ok None
      else
        approves ← prefix_rule_would_approve_all_commands exec_policy prefix_rule commands
                     exec_policy_fallback match_options;
        Ok (if (approves : bool) then Some prefix_rule else None)
  end.

(** ** Reasons *)

Definition render_shlex_command (args : list str) : str := default (join [SPACE] args) (shlex_try_join args).

(** [max_by_key] on the length of the matched prefix: the last of the longest. *)
Fixpoint longest_prefix (l : list (list str * option str)) : option (list str * option str) :=
  match l with
  | [] => None
  | x :: l =>
      Some match longest_prefix l with
           | Some y => if length x.1 <=? length y.1 then y else x
           | None => x
           end
  end.

Definition prefix_rules_with (d : Decision) (matched_rules : list RuleMatch) : list (list str * option str) :=
  omap (λ m, match m with
             | PrefixRuleMatch matched_prefix decision _ justification =>
                 if bool_decide (decision = d) then Some (matched_prefix, justification) else None
             | HeuristicsRuleMatch _ _ => None
             end) matched_rules.

Definition derive_prompt_reason (command_args : list str) (e : Evaluation) : option str :=
  let command := render_shlex_command command_args in
  match longest_prefix (prefix_rules_with Prompt (matched_rules e)) with
  | Some (_, Some justification) => Some (lit "`" ++ command ++ lit "` requires approval: " ++ justification)
  | Some (_, None) => Some (lit "`" ++ command ++ lit "` requires approval by policy")
  | None => None
  end.

Definition derive_forbidden_reason (command_args : list str) (e : Evaluation) : str :=
  let command := render_shlex_command command_args in
  match longest_prefix (prefix_rules_with Forbidden (matched_rules e)) with
  | Some (_, Some justification) => lit "`" ++ command ++ lit "` rejected: " ++ justification
  | Some (matched_prefix, None) =>
      lit "`" ++ command ++ lit "` rejected: policy forbids commands starting with `"
      ++ render_shlex_command matched_prefix ++ lit "`"
  | None => lit "`" ++ command ++ lit "` rejected: blocked by policy"
  end.

(** ** The decision *)

Definition commands_for_exec_policy (command : list str) : list (list str) * bool :=
  let single_command :=
    match Shell.parse_shell_lc_single_command_prefix try_parse_shell command with
    | Some single_command => ([single_command], true)
    | None => ([command], false)
    end in
  match Shell.parse_shell_lc_plain_commands try_parse_shell command with
  | Some (c :: commands) => (c :: commands, false)
  | _ => single_command
  end.

Definition render_decision_for_unmatched_command (approval_policy : AskForApproval) (sandbox_policy : SandboxPolicy)
    (file_system_sandbox_policy : FileSystemSandboxPolicy) (command : list str)
    (sandbox_permissions : SandboxPermissions) (used_complex_parsing : bool) : Decision :=
  if CommandSafety.is_known_safe_command try_parse_shell parse_with_powershell_ast command
     && negb used_complex_parsing
  then Allow
  else if CommandSafety.command_might_be_dangerous try_parse_shell command then
    match approval_policy with
    | Never =>
        match sandbox_policy with
        | Permissions.DangerFullAccess | Permissions.ExternalSandboxPolicy _ => Allow
        | _ => Forbidden
        end
    | OnFailure | OnRequest | UnlessTrusted | Granular _ => Prompt
    end
  else
    match approval_policy with
    | Never | OnFailure => Allow
    | UnlessTrusted => Prompt
    | OnRequest | Granular _ =>
        match Permissions.kind file_system_sandbox_policy with
        | Permissions.Unrestricted | Permissions.ExternalSandbox => Allow
        | Permissions.Restricted => if requests_sandbox_override sandbox_permissions then Prompt else Allow
        end
    end.

Record ExecApprovalRequest : Type := {
  command : list str;
  approval_policy : AskForApproval;
  sandbox_policy : SandboxPolicy;
  file_system_sandbox_policy : FileSystemSandboxPolicy;
  sandbox_permissions : SandboxPermissions;
  prefix_rule : option (list str);
}.

Definition match_options : MatchOptions := {| resolve_host_executables := true |}.

(** The closure [exec_policy_fallback]. *)
Definition fallback (req : ExecApprovalRequest) : list str → Decision := λ cmd,
  render_decision_for_unmatched_command (approval_policy req) (sandbox_policy req)
    (file_system_sandbox_policy req) cmd (sandbox_permissions req) (commands_for_exec_policy (command req)).2.

Definition explicitly_allowed (exec_policy : Policy) (cmd : list str) : bool :=
  existsb (is_rule_with Allow) (matches exec_policy cmd None match_options).

Definition create_exec_approval_requirement_for_command (exec_policy : Policy) (req : ExecApprovalRequest)
    : result Error ExecApprovalRequirement :=
  let '(commands, used_complex_parsing) := commands_for_exec_policy (command req) in
  let auto_amendment_allowed := negb used_complex_parsing in
  evaluation ← check_multiple_with_options home_dir current_dir exec_policy commands (fallback req) match_options;
  requested_amendment ← derive_requested_execpolicy_amendment_from_prefix_rule (prefix_rule req)
    (matched_rules evaluation) exec_policy commands (fallback req) match_options;
  Ok match eval_decision evaluation with
     | Forbidden => ForbiddenRequirement (derive_forbidden_reason (command req) evaluation)
     | Prompt =>
         let prompt_is_rule := existsb (is_rule_with Prompt) (matched_rules evaluation) in
         match prompt_is_rejected_by_policy (approval_policy req) prompt_is_rule with
         | Some reason => ForbiddenRequirement reason
         | None =>
             NeedsApproval (derive_prompt_reason (command req) evaluation)
               match requested_amendment with
               | Some a => Some a
               | None =>
                   if auto_amendment_allowed
                   then try_derive_execpolicy_amendment_for_prompt_rules (matched_rules evaluation) else None
               end
         end
     | Allow =>
         Skip (forallb (explicitly_allowed exec_policy) commands)
           (if auto_amendment_allowed
            then try_derive_execpolicy_amendment_for_allow_rules (matched_rules evaluation) else None)
     end.

(** ** Amending the policy *)

Inductive ExecPolicyUpdateError : Type :=
| AppendRule (path : str) (source : Amend.AmendError)
| AddRule (source : Error).

Section Update.
Context {FS : Type} `{Amend.RulesFs FS}.
Variable to_json : str → str.
Variable debug_strings : list str → str.

(** The rules file and the policy in memory. *)
Record ManagerState : Type := { files : FS; policy : Policy }.
Abbreviation M := (io ManagerState ExecPolicyUpdateError).

Definition default_policy_path (codex_home : str) : str :=
  path_join (path_join codex_home (lit "rules")) (lit "default.rules").

Definition on_files {A} (f : Amend.AmendError → ExecPolicyUpdateError) (op : io FS Amend.AmendError A) : M A := λ s,
  let '(fs, r) := op (files s) in ({| files := fs; policy := policy s |}, map_err f r).
Definition current : M Policy := λ s, (s, Ok (policy s)).
Definition store (p : Policy) : M unit := λ s, ({| files := files s; policy := p |}, Ok ()).

Definition append_amendment_and_update (codex_home : str) (amendment : ExecPolicyAmendment) : M unit :=
  let policy_path := default_policy_path codex_home in
  _ ← on_files (AppendRule policy_path) (Amend.blocking_append_allow_prefix_rule to_json policy_path amendment);
  current_policy ← current;
  existing_evaluation ← pure_result (map_err AddRule
    (check_multiple_with_options home_dir current_dir current_policy [amendment] (λ _, Forbidden) match_options));
  if bool_decide (eval_decision existing_evaluation = Allow)
     && existsb (is_rule_with Allow) (matched_rules existing_evaluation)
  then mret ()
  else
    updated_policy ← pure_result (map_err AddRule (add_prefix_rule amendment Allow current_policy));
    store updated_policy.

Definition append_network_rule_and_update (codex_home host : str) (protocol : NetworkRuleProtocol)
    (decision : Decision) (justification : option str) : M unit :=
  let policy_path := default_policy_path codex_home in
  _ ← on_files (AppendRule policy_path)
        (Amend.blocking_append_network_rule to_json debug_strings policy_path host protocol decision justification);
  current_policy ← current;
  updated_policy ← pure_result (map_err AddRule (add_network_rule host protocol decision justification current_policy));
  store updated_policy.
End Update.
End Approval.
End ExecApproval.
