(* ===== verification/ExecApprovalFacts.v ===== *)
(** * What the approval of commands promises

    The sandbox is bypassed exactly for commands allowed by explicit rules;
    nobody is asked under a policy that never asks; dangerous commands do not
    run unasked; accepting a proposed prefix approves the request it was
    proposed for. *)
From S2P Require Import Prelude Str Io Paths ExecPolicy ExecPolicyFacts Amend Shell CommandSafety Permissions ExecApproval.
Import Paths ExecPolicy Shell CommandSafety ExecApproval.

Section Facts.
Variables home_dir current_dir : option str.
Variable try_parse_shell : str → option Shell.Tree.
Variable parse_with_powershell_ast : str → str → option (list (list str)).
Variable shlex_try_join : list str → option str.

Abbreviation matches := (matches_for_command_with_options home_dir current_dir).
Abbreviation check_all := (check_multiple_with_options home_dir current_dir).
Abbreviation fallback := (ExecApproval.fallback try_parse_shell parse_with_powershell_ast).
Abbreviation requirement := (create_exec_approval_requirement_for_command home_dir current_dir try_parse_shell
  parse_with_powershell_ast shlex_try_join).
Abbreviation segments req := (commands_for_exec_policy try_parse_shell (command req)).1.

(** ** The shape of a decision *)

Lemma commands_nonempty cmd : (commands_for_exec_policy try_parse_shell cmd).1 ≠ [].
Proof. unfold commands_for_exec_policy. repeat case_match; done. Qed.

Lemma check_with_options_Ok p cmd h o :
  ∃ e, check_with_options home_dir current_dir p cmd h o = Ok e
    ∧ matched_rules e = matches p cmd (Some h) o
    ∧ (eval_decision e = Allow ↔ ∀ m, m ∈ matches p cmd (Some h) o → match_decision m = Allow).
Proof.
  unfold check_with_options.
  destruct (from_matches_spec (matches p cmd (Some h) o)) as (e&He&Hm&Hd&Hmax); [apply matches_fallback_nonempty|].
  exists e. split_and!; [done..|]. split.
  - intros Ha m Hin. specialize (Hmax m Hin). rewrite Ha in Hmax. by destruct (match_decision m); simpl in Hmax; lia || done.
  - intros Hall. apply list_elem_of_fmap in Hd as (m&->&Hin). by apply Hall.
Qed.

(** Everything the commands of a request match. *)
Lemma evaluation_Ok p req :
  ∃ e, check_all p (segments req) (fallback req) match_options = Ok e
    ∧ (∀ m, m ∈ matched_rules e ↔ ∃ cmd, cmd ∈ segments req ∧ m ∈ matches p cmd (Some (fallback req)) match_options)
    ∧ (∃ m, m ∈ matched_rules e ∧ match_decision m = eval_decision e)
    ∧ ∀ m, m ∈ matched_rules e → rank (match_decision m) ≤ rank (eval_decision e).
Proof.
  destruct (check_multiple_spec home_dir current_dir p (segments req) (fallback req) match_options)
    as [_ (e&He&Hm&_&Hd&Hmax)]; [apply commands_nonempty|]. by exists e.
Qed.

Lemma would_approve_Ok p prefix commands h o :
  ∃ b, prefix_rule_would_approve_all_commands home_dir current_dir p prefix commands h o = Ok b
    ∧ (b = true → ∃ p', add_prefix_rule prefix Allow p = Ok p' ∧
         ∀ cmd m, cmd ∈ commands → m ∈ matches p' cmd (Some h) o → match_decision m = Allow).
Proof.
  unfold prefix_rule_would_approve_all_commands.
  destruct (add_prefix_rule prefix Allow p) as [p'|e|] eqn:Hadd; [|by exists false..].
  induction commands as [|cmd commands IH] using rev_ind.
  { exists true. split; [done|]. intros _. exists p'. split; [done|]. by intros cmd m []%elem_of_nil. }
  rewrite foldl_app. destruct IH as ([]&->&Hall); simpl; [|by exists false].
  destruct (check_with_options_Ok p' cmd h o) as (e&->&_&Ha). eexists; split; [done|].
  intros Hd%bool_decide_eq_true. exists p'. split; [done|]. destruct (Hall eq_refl) as (p''&[= <-]&Hrest).
  intros cmd' m [Hc| ->%list_elem_of_singleton]%elem_of_app Hm; [by eapply Hrest|]. by apply Ha.
Qed.

Lemma requested_Ok prefix ms p commands h o :
  ∃ a, derive_requested_execpolicy_amendment_from_prefix_rule home_dir current_dir prefix ms p commands h o = Ok a.
Proof.
  unfold derive_requested_execpolicy_amendment_from_prefix_rule. destruct prefix as [prefix|]; [|eauto].
  repeat case_match; eauto. destruct (would_approve_Ok p prefix commands h o) as (b&->&_). simpl. eauto.
Qed.

(** No prefix is proposed next to a matching rule. *)
Lemma requested_none prefix ms p commands h o :
  existsb is_policy_match ms = true →
  derive_requested_execpolicy_amendment_from_prefix_rule home_dir current_dir prefix ms p commands h o = Ok None.
Proof.
  intros Hms. unfold derive_requested_execpolicy_amendment_from_prefix_rule. rewrite Hms. by repeat case_match.
Qed.

(** The requirement, by the decision of the evaluation. *)
Lemma requirement_cases p req :
  ∃ e r, requirement p req = Ok r ∧ check_all p (segments req) (fallback req) match_options = Ok e ∧
  match eval_decision e with
  | Forbidden => ∃ reason, r = ForbiddenRequirement reason
  | Prompt =>
      match prompt_is_rejected_by_policy (approval_policy req) (existsb (is_rule_with Prompt) (matched_rules e)) with
      | Some reason => r = ForbiddenRequirement reason
      | None => ∃ reason a, r = NeedsApproval reason a
      end
  | Allow => ∃ a, r = Skip (forallb (explicitly_allowed home_dir current_dir p) (segments req)) a
  end.
Proof.
  unfold create_exec_approval_requirement_for_command.
  destruct (evaluation_Ok p req) as (e&He&_). destruct (commands_for_exec_policy _ (command req)) as [commands complex] eqn:Hc.
  simpl in He |- *. rewrite He. cbn [mbind result_bind].
  destruct (requested_Ok (prefix_rule req) (matched_rules e) p commands (fallback req) match_options) as [a ->].
  exists e. cbn [mbind result_bind]. eexists. split; [done|]. split; [done|].
  destruct (eval_decision e); [by eexists| |by eexists]. destruct (prompt_is_rejected_by_policy _ _); [done|by eexists _, _].
Qed.

(** Under a policy that never asks, no command needs approval. *)
Lemma requirement_never p req r :
  requirement p req = Ok r → approval_policy req = Never → ∀ reason a, r ≠ NeedsApproval reason a.
Proof.
  intros Hr Hnever reason a ->. destruct (requirement_cases p req) as (e&r&Hr'&_&Hcase). rewrite Hr in Hr'. injection Hr' as <-.
  destruct (eval_decision e); [by destruct Hcase| |by destruct Hcase]. by rewrite Hnever in Hcase.
Qed.

(** ** Bypassing the sandbox *)

Lemma matches_with_fallback p cmd h o :
  matches p cmd (Some h) o =
  match matches p cmd None o with [] => [HeuristicsRuleMatch cmd (h cmd)] | ms => ms end.
Proof.
  unfold matches_for_command_with_options. by destruct (match non_empty _ with Some _ => _ | None => _ end).
Qed.

Lemma match_kept p cmd h o m : m ∈ matches p cmd None o → m ∈ matches p cmd (Some h) o.
Proof.
  rewrite matches_with_fallback. destruct (matches p cmd None o); [by intros []%elem_of_nil|done].
Qed.

Lemma policy_match_kept p cmd h o m :
  m ∈ matches p cmd (Some h) o → is_policy_match m = true → m ∈ matches p cmd None o.
Proof.
  rewrite matches_with_fallback. destruct (matches p cmd None o); [|done].
  by intros ->%list_elem_of_singleton.
Qed.

Lemma match_back p cmd h o m m' :
  m' ∈ matches p cmd None o → m ∈ matches p cmd (Some h) o → m ∈ matches p cmd None o.
Proof.
  rewrite matches_with_fallback. destruct (matches p cmd None o); [by intros []%elem_of_nil|done].
Qed.

Lemma explicitly_allowed_spec p cmd :
  explicitly_allowed home_dir current_dir p cmd = true ↔
  ∃ m, m ∈ matches p cmd None match_options ∧ is_policy_match m = true ∧ match_decision m = Allow.
Proof.
  unfold explicitly_allowed, is_rule_with. rewrite existsb_exists. setoid_rewrite andb_true_iff.
  setoid_rewrite bool_decide_eq_true. setoid_rewrite list_elem_of_In. done.
Qed.

(** An evaluation allows exactly when every match does. *)
Lemma allow_spec p req e :
  check_all p (segments req) (fallback req) match_options = Ok e →
  eval_decision e = Allow ↔
  ∀ cmd m, cmd ∈ segments req → m ∈ matches p cmd (Some (fallback req)) match_options → match_decision m = Allow.
Proof.
  intros He. destruct (evaluation_Ok p req) as (e'&He'&Hm&(m0&Hin0&Hd0)&Hmax).
  rewrite He in He'. injection He' as <-. split.
  - intros Ha cmd m Hc Hin. specialize (Hmax m (proj2 (Hm m) (ex_intro _ cmd (conj Hc Hin)))). rewrite Ha in Hmax.
    by destruct (match_decision m); simpl in Hmax; lia || done.
  - intros Hall. rewrite <-Hd0. apply Hm in Hin0 as (cmd&Hc&Hin). by eapply Hall.
Qed.

(** A request skips approval and the sandbox exactly when each of its
    parsed commands is matched by an explicit allow rule and by no rule that
    prompts or forbids. *)
Theorem bypass_sandbox_iff_explicit p req :
  (∃ a, requirement p req = Ok (Skip true a)) ↔
  ∀ cmd, cmd ∈ segments req →
    (∃ m, m ∈ matches p cmd None match_options ∧ is_policy_match m = true ∧ match_decision m = Allow)
    ∧ ∀ m, m ∈ matches p cmd None match_options → match_decision m = Allow.
Proof.
  destruct (requirement_cases p req) as (e&r&Hr&He&Hcase). pose proof (allow_spec p req e He) as Hallow. split.
  - intros [a Ha] cmd Hcmd. rewrite Hr in Ha. injection Ha as ->.
    assert (eval_decision e = Allow) as Hd.
    { destruct (eval_decision e); [done| |by destruct Hcase].
      destruct (prompt_is_rejected_by_policy _ _); [done|by destruct Hcase as (?&?&?)]. }
    rewrite Hd in Hcase. destruct Hcase as (a'&[= Hall _]). symmetry in Hall. rewrite forallb_Forall, Forall_forall in Hall.
    split; [by apply explicitly_allowed_spec, Hall|]. intros m Hm. eapply (proj1 Hallow Hd cmd); [done|].
    by apply match_kept.
  - intros Hall. assert (eval_decision e = Allow) as Hd.
    { apply Hallow. intros cmd m Hcmd Hm. destruct (Hall cmd Hcmd) as [(m'&Hm'&_) Hmd]. apply Hmd.
      by eapply match_back. }
    rewrite Hd in Hcase. destruct Hcase as [a ->]. exists a. rewrite Hr. do 2 f_equal.
    apply forallb_Forall, Forall_forall. intros cmd Hcmd. by apply explicitly_allowed_spec, Hall.
Qed.

(** A single command with one rule, which allows it. *)
Lemma single_explicit_allow p req cmd c m :
  commands_for_exec_policy try_parse_shell (command req) = ([cmd], c) →
  (∀ h, matches p cmd h match_options = [m]) → is_policy_match m = true → match_decision m = Allow →
  requirement p req = Ok (Skip true None).
Proof.
  intros Hc Hm Hp Hd. unfold create_exec_approval_requirement_for_command. rewrite Hc.
  unfold check_multiple_with_options. cbn [mbind list_bind]. rewrite Hm. cbn [app].
  unfold from_matches. cbn [fmap list_fmap max_decision]. cbn [expect].
  cbn [mbind result_bind matched_rules eval_decision]. rewrite requested_none by (simpl; by rewrite Hp).
  rewrite Hd. cbn [mbind result_bind forallb andb].
  unfold explicitly_allowed. rewrite Hm. simpl. unfold is_rule_with.
  rewrite Hp, Hd. unfold try_derive_execpolicy_amendment_for_allow_rules. simpl. rewrite Hp. by destruct c.
Qed.

(** ** Who is asked *)

(** Whenever the user is asked about a command, the approval policy lets
    that kind of prompt through: it is not Never, and a granular policy
    permits rule prompts or sandbox prompts accordingly. *)
Theorem asking_respects_approval_policy p req :
  ∃ r, requirement p req = Ok r
  ∧ ∀ reason a, r = NeedsApproval reason a →
    let prompted_by_rule := ∃ cmd m, cmd ∈ segments req ∧ m ∈ matches p cmd None match_options
                              ∧ is_policy_match m = true ∧ match_decision m = Prompt in
    approval_policy req ≠ Never
    ∧ ∀ g, approval_policy req = Granular g →
      (prompted_by_rule → rules g = true) ∧ (¬ prompted_by_rule → sandbox_approval g = true).
Proof.
  destruct (requirement_cases p req) as (e&r&Hr&He&Hcase). exists r. split; [done|].
  intros reason a -> prompted. destruct (eval_decision e); [by destruct Hcase| |by destruct Hcase].
  destruct (prompt_is_rejected_by_policy _ _) eqn:Hrej; [done|].
  assert (existsb (is_rule_with Prompt) (matched_rules e) = true ↔ prompted) as Hprompted.
  { destruct (evaluation_Ok p req) as (e'&He'&Hm&_). rewrite He in He'. injection He' as <-.
    unfold prompted. rewrite existsb_exists. split.
    - intros (m&Hin%list_elem_of_In%Hm&[Hp Hd%bool_decide_eq_true]%andb_true_iff). destruct Hin as (cmd&Hc&Hin).
      exists cmd, m. split_and!; [done| |done..]. by eapply policy_match_kept.
    - intros (cmd&m&Hc&Hin&Hp&Hd). exists m. split.
      + apply list_elem_of_In, Hm. exists cmd. split; [done|]. by apply match_kept.
      + unfold is_rule_with. rewrite Hp, Hd. done. }
  split; [by intros Hnever; rewrite Hnever in Hrej|].
  intros g Hg. rewrite Hg in Hrej. simpl in Hrej. rewrite <-Hprompted.
  destruct (existsb _ (matched_rules e)), (rules g), (sandbox_approval g); split; intros H; done || by destruct H.
Qed.

(** ** Dangerous commands *)

(** What is recognised as a forced [rm]: after any number of [sudo]s, the word [rm]
    and [-f] or [-rf] as its first argument. *)
Definition forced_rm (cmd : list str) : Prop :=
  ∃ n flag args, cmd = replicate n (lit "sudo") ++ lit "rm" :: flag :: args ∧ (flag = lit "-f" ∨ flag = lit "-rf").
Lemma forced_rm_spec cmd : is_dangerous_to_call_with_exec cmd = true ↔ forced_rm cmd.
Proof.
  split.
  - induction cmd as [|cmd0 args IH]; [done|]. cbn [is_dangerous_to_call_with_exec]. case_bool_decide as Hrm; [subst|case_bool_decide as Hsudo; [subst|done]].
    + destruct args as [|flag args]; [done|]. intros [f [Hf Hflag%bool_decide_eq_true]]%existsb_exists. exists 0, flag, args. split; [done|].
      destruct Hf as [<-|[<-|[]]]; [by left|by right].
    + intros (n&flag&args'&->&Hflag)%IH. by exists (S n), flag, args'.
  - intros (n&flag&args&->&Hflag). induction n as [|n IH]; [by destruct Hflag as [->| ->]|]. exact IH.
Qed.

Lemma dangerous_head cmd :
  is_dangerous_to_call_with_exec cmd = true → ∃ args, cmd = lit "rm" :: args ∨ cmd = lit "sudo" :: args.
Proof.
  destruct cmd as [|cmd0 args]; [done|]. cbn [is_dangerous_to_call_with_exec]. exists args.
  case_bool_decide; subst; [by left|]. case_bool_decide; subst; [by right|done].
Qed.

Lemma extract_not_shell shell args :
  detect_shell_type shell = None → extract_bash_command (shell :: args) = None.
Proof.
  intros Hs. destruct args as [|flag [|script []]]; try done. unfold extract_bash_command. rewrite Hs.
  by rewrite orb_true_r.
Qed.

Lemma not_safe_head cmd0 args :
  (cmd0 = lit "rm" ∨ cmd0 = lit "sudo") →
  is_known_safe_command try_parse_shell parse_with_powershell_ast (cmd0 :: args) = false.
Proof.
  intros Hc. unfold is_known_safe_command. cbn [fmap list_fmap].
  replace (if bool_decide (cmd0 = lit "zsh") then lit "bash" else cmd0) with cmd0 by by destruct Hc as [-> | ->].
  set (args' := (λ s, if bool_decide (s = lit "zsh") then lit "bash" else s) <$> args).
  assert (detect_shell_type cmd0 = None) as Hshell by (destruct Hc as [-> | ->]; by vm_compute).
  unfold parse_shell_lc_plain_commands. rewrite extract_not_shell by done. simpl.
  rewrite orb_false_r. apply orb_false_iff. split.
  - unfold is_safe_command_windows, parse_powershell_invocation.
    replace (is_powershell_executable cmd0) with false by (destruct Hc as [-> | ->]; by vm_compute). done.
  - unfold is_safe_to_call_with_exec.
    assert (executable_name_lookup_key cmd0 = Some cmd0) as -> by (destruct Hc as [-> | ->]; by vm_compute).
    by destruct Hc as [-> | ->].
Qed.

(** The sandbox is off and nobody may be asked. *)
Definition unguarded (req : ExecApprovalRequest) : Prop :=
  approval_policy req = Never ∧
  (sandbox_policy req = Permissions.DangerFullAccess ∨ ∃ n, sandbox_policy req = Permissions.ExternalSandboxPolicy n).

Lemma dangerous_not_allowed req cmd :
  is_dangerous_to_call_with_exec cmd = true → ¬ unguarded req → fallback req cmd ≠ Allow.
Proof.
  intros Hd Hg. unfold ExecApproval.fallback, render_decision_for_unmatched_command.
  destruct (dangerous_head cmd Hd) as [args Hcmd].
  assert (is_known_safe_command try_parse_shell parse_with_powershell_ast cmd = false) as ->.
  { destruct Hcmd as [-> | ->]; apply not_safe_head; auto. }
  unfold command_might_be_dangerous. rewrite Hd. simpl. unfold unguarded in Hg.
  destruct (approval_policy req); try done. destruct (sandbox_policy req); try done; exfalso; apply Hg; eauto.
Qed.

(** C27. A request one of whose parsed commands is, after any number of sudo
    words, literally rm with -f or -rf as its first argument (the only forms
    that the code recognises as a forced rm) and is matched by no rule of the
    policy, is never skipped: it needs approval or is forbidden, unless
    approval is Never and there is no sandbox to keep; under Never with a
    sandbox it is forbidden. *)
Theorem dangerous_commands_guarded p req cmd :
  cmd ∈ segments req → forced_rm cmd → matches p cmd None match_options = [] → ¬ unguarded req →
  ∃ r, requirement p req = Ok r ∧ (∀ bypass a, r ≠ Skip bypass a)
  ∧ (approval_policy req = Never → ∃ reason, r = ForbiddenRequirement reason).
Proof.
  intros Hcmd Hd%forced_rm_spec Hnone Hg. destruct (requirement_cases p req) as (e&r&Hr&He&Hcase).
  assert (eval_decision e ≠ Allow) as Ha.
  { intros Ha. apply (dangerous_not_allowed req cmd Hd Hg).
    apply (proj1 (allow_spec p req e He) Ha cmd (HeuristicsRuleMatch cmd (fallback req cmd)) Hcmd).
    rewrite matches_with_fallback, Hnone. by left. }
  exists r. split; [done|].
  destruct (eval_decision e); [done| |destruct Hcase as [reason ->]; by eauto].
  destruct (prompt_is_rejected_by_policy _ _) eqn:Hrej; [subst r; by eauto|].
  destruct Hcase as (reason&a&->). split; [done|]. intros Hnever. by rewrite Hnever in Hrej.
Qed.

(** ** Accepting a proposed prefix *)

Context {FS : Type} `{Amend.RulesFs FS}.
Variable to_json : str → str.

Abbreviation update := (append_amendment_and_update home_dir current_dir (FS:=FS) to_json).

(** An update that is not already in the policy adds the rule to it. *)
Lemma update_policy home amendment s s' u :
  update home amendment s = (s', Ok u) →
  policy s' = policy s ∧ explicitly_allowed home_dir current_dir (policy s) amendment = true
  ∨ add_prefix_rule amendment Allow (policy s) = Ok (policy s').
Proof.
  unfold append_amendment_and_update. intros (s1&?&Hf&Hu)%io_bind_Ok.
  assert (policy s1 = policy s) as Hp1.
  { unfold on_files in Hf. destruct (Amend.blocking_append_allow_prefix_rule _ _ _ _). by injection Hf as <- _. }
  apply io_bind_Ok in Hu as (s2&p&[= <- <-]&Hu). apply io_bind_Ok in Hu as (s2&e&He&Hu).
  unfold pure_result in He. injection He as <- He. rewrite Hp1 in *.
  destruct (check_multiple_with_options _ _ _ [amendment] _ _) as [e'| |] eqn:Hcheck; [|done..]. injection He as <-.
  destruct (_ && _) eqn:Hal.
  - left. injection Hu as <- _. split; [done|]. apply andb_true_iff in Hal as [_ Hal].
    apply existsb_exists in Hal as (m&Hm%list_elem_of_In&Hrule).
    destruct (check_multiple_spec home_dir current_dir (policy s) [amendment] (λ _, Forbidden) match_options)
      as [_ (e&He&Hms&_)]; [done|].
    rewrite Hcheck in He. injection He as <-. apply Hms in Hm as (cmd&->%list_elem_of_singleton&Hm).
    apply existsb_exists. exists m. split; [|done]. apply list_elem_of_In.
    eapply policy_match_kept; [exact Hm|]. by apply andb_true_iff in Hrule as [? _].
  - right. apply io_bind_Ok in Hu as (s3&p'&Hadd&[= <- _]). unfold pure_result in Hadd. injection Hadd as <- Hadd.
    simpl. by destruct (add_prefix_rule _ _ _); [injection Hadd as ->|..].
Qed.

(** When a prefix that would approve all commands of a request and is not
    yet allowed is accepted and written to the rules file, the same request
    under the updated policy needs no approval. *)
Theorem accepted_prefix_approves_request home amendment req s s' u :
  prefix_rule_would_approve_all_commands home_dir current_dir (policy s) amendment (segments req)
    (fallback req) match_options = Ok true →
  explicitly_allowed home_dir current_dir (policy s) amendment = false →
  update home amendment s = (s', Ok u) →
  ∃ bypass a, requirement (policy s') req = Ok (Skip bypass a).
Proof.
  intros Happrove Hnew Hu. destruct (update_policy home amendment s s' u Hu) as [[_ Hold]|Hadd]; [congruence|].
  destruct (would_approve_Ok (policy s) amendment (segments req) (fallback req) match_options) as (b&Hb&Hall).
  rewrite Happrove in Hb. injection Hb as <-. destruct (Hall eq_refl) as (p'&Hp'&Hd).
  rewrite Hadd in Hp'. injection Hp' as <-.
  destruct (requirement_cases (policy s') req) as (e&r&Hr&He&Hcase).
  assert (eval_decision e = Allow) as Ha by (apply (allow_spec _ req e He); eauto).
  rewrite Ha in Hcase. destruct Hcase as [a ->]. eauto.
Qed.
End Facts.

(** ** Requests *)

Definition no_shell : str → option Tree := λ _, None.
Definition no_powershell : str → str → option (list (list str)) := λ _ _, None.
Definition no_join : list str → option str := λ _, None.

Definition request (cmd : list str) (p : AskForApproval) (prefix : option (list str)) : ExecApprovalRequest := {|
  command := cmd; approval_policy := p;
  sandbox_policy := Permissions.WorkspaceWrite [] Permissions.FullAccess false false false;
  file_system_sandbox_policy := Permissions.restricted [];
  sandbox_permissions := UseDefault; prefix_rule := prefix |}.

Definition policy_with (prefix : list str) (d : Decision) : Policy :=
  match add_prefix_rule prefix d ExecPolicy.empty with Ok p => p | _ => ExecPolicy.empty end.

Lemma matches_empty cmd o : matches_for_command_with_options None None ExecPolicy.empty cmd None o = [].
Proof.
  unfold matches_for_command_with_options, match_exact_rules, match_host_executable_rules.
  destruct cmd as [|c cmd]; [by destruct o as [[]]|]. cbn [head mbind option_bind ExecPolicy.empty from_parts rules_by_program].
  rewrite lookup_empty. simpl. destruct o as [[]]; [|done]. simpl.
  destruct (from_absolute_path None None c) as [prog|]; [|done].
  destruct (executable_path_lookup_key prog) as [b|]; [|done]. by rewrite lookup_empty.
Qed.

Lemma asking_respects_approval_policy_witness :
  sandbox_approval {| sandbox_approval := true; rules := false; skill_approval := false;
                      request_permissions := false; mcp_elicitations := false |} = true.
Proof.
  set (g := {| sandbox_approval := true; rules := false; skill_approval := false;
               request_permissions := false; mcp_elicitations := false |}).
  destruct (asking_respects_approval_policy None None no_shell no_powershell no_join ExecPolicy.empty
    (request (CommandSafety.words "rm -rf x") (Granular g) None)) as (r&Hr&Hasked).
  destruct r as [b a|reason a|reason]; [exfalso; revert Hr; by vm_compute| |exfalso; revert Hr; by vm_compute].
  destruct (Hasked reason a eq_refl) as [_ Hg]. apply (Hg g eq_refl).
  intros (cmd&m&_&Hm&_). rewrite matches_empty in Hm. by apply elem_of_nil in Hm.
Defined.

Lemma dangerous_commands_guarded_witness :
  ∃ r, create_exec_approval_requirement_for_command None None no_shell no_powershell no_join ExecPolicy.empty
         (request (CommandSafety.words "sudo rm -rf /") Never None) = Ok r ∧ (∀ bypass a, r ≠ Skip bypass a) ∧ ∃ reason, r = ForbiddenRequirement reason.
Proof.
  destruct (dangerous_commands_guarded None None no_shell no_powershell no_join ExecPolicy.empty
    (request (CommandSafety.words "sudo rm -rf /") Never None) (CommandSafety.words "sudo rm -rf /")) as (r&Hr&Hskip&Hnever).
  - by left.
  - exists 1, (lit "-rf"), [lit "/"]. split; [reflexivity|by right].
  - reflexivity.
  - intros [_ [?|[n ?]]]; discriminate.
  - exists r. split_and!; [exact Hr|exact Hskip|exact (Hnever eq_refl)].
Defined.

(** Other ways to write it are not recognised, and run without a question. *)
Example other_forced_rms_skipped : Forall (λ cmd,
    ∃ bypass a, create_exec_approval_requirement_for_command None None no_shell no_powershell no_join ExecPolicy.empty
      (request (CommandSafety.words cmd) Never None) = Ok (Skip bypass a))
  ["rm -fr /"; "rm -r -f /"; "/bin/rm -rf /"; "sudo -n rm -rf /"]%string.
Proof. repeat constructor; do 2 eexists; vm_compute; reflexivity. Qed.

(** A request that needs approval under a policy that trusts nothing, and
    proposes its prefix. *)
Definition asking : ExecApprovalRequest :=
  request (CommandSafety.words "cargo build --release") UnlessTrusted (Some (CommandSafety.words "cargo build")).
#[local] Existing Instance Amend.text_fs.
Definition asked_state : ManagerState (FS:=gmap str str) := {| files := ∅; policy := ExecPolicy.empty |}.
Definition accepted : ManagerState (FS:=gmap str str) * result ExecPolicyUpdateError unit :=
  append_amendment_and_update None None Amend.quote (lit "/c") (CommandSafety.words "cargo build") asked_state.

Lemma accepted_prefix_approves_request_witness :
  ∃ bypass a, create_exec_approval_requirement_for_command None None no_shell no_powershell no_join
    (policy (fst accepted)) asking = Ok (Skip bypass a).
Proof.
  assert (accepted = (fst accepted, Ok ())) as Hrun by (vm_compute; reflexivity).
  apply (accepted_prefix_approves_request None None no_shell no_powershell no_join Amend.quote (lit "/c")
    (CommandSafety.words "cargo build") asking asked_state (fst accepted) ()); [by vm_compute..|exact Hrun].
Defined.

(** A rule for a program name also matches a file of that name below the
    working directory, and runs it outside the sandbox without asking. *)
Lemma workspace_program_bypasses_sandbox shell powershell join req :
  command req = [lit "./git"; lit "status"] →
  create_exec_approval_requirement_for_command None (Some (lit "/w")) shell powershell join
    (policy_with [lit "git"; lit "status"] Allow) req = Ok (Skip true None).
Proof.
  intros Hreq. eapply single_explicit_allow.
  - rewrite Hreq. reflexivity.
  - intros h. by destruct h; vm_compute.
  - reflexivity.
  - reflexivity.
Qed.
