(* ===== verification/Truncate.v ===== *)
(** * Truncating output

    Models [utils/string/src/truncate.rs], [utils/output-truncation/src/lib.rs]
    and the [TruncationPolicy] of [protocol/src/protocol.rs].  Sizes are 64-bit
    integers, with their saturation written out; a slice that would not lie on
    a character boundary is a [Crash].  Strings are shorter than [usize::MAX]
    bytes, as Rust's are. *)
From S2P Require Import Prelude Str.
From Stdlib Require Import SpecFloat.

Module Truncate.
#[local] Open Scope Z_scope.

(** ** Sizes *)

Definition usize_max : Z := 2 ^ 64 - 1.
Definition saturating_add (a b : Z) : Z := Z.min (a + b) usize_max.
Definition saturating_sub (a b : Z) : Z := Z.max (a - b) 0.
Definition saturating_mul (a b : Z) : Z := Z.min (a * b) usize_max.

(** [str::len] and [chars().count()]. *)
Definition blen (s : str) : Z := Z.of_nat (byte_len s).
Definition char_count (s : str) : Z := Z.of_nat (length s).

Definition APPROX_BYTES_PER_TOKEN : Z := 4.
Definition approx_token_count (text : str) : Z :=
  saturating_add (blen text) (saturating_sub APPROX_BYTES_PER_TOKEN 1) / APPROX_BYTES_PER_TOKEN.
Definition approx_bytes_for_tokens (tokens : Z) : Z := saturating_mul tokens APPROX_BYTES_PER_TOKEN.
Definition approx_tokens_from_byte_count (bytes : Z) : Z :=
  saturating_add bytes (saturating_sub APPROX_BYTES_PER_TOKEN 1) / APPROX_BYTES_PER_TOKEN.

(** The decimal digits of an unsigned number, which has at most as many of them
    as it has bits. *)
Fixpoint decimal (fuel : nat) (n : N) (acc : str) : str :=
  match fuel with
  | O => acc
  | S fuel =>
      let acc := (48 + n mod 10)%N :: acc in
      if (n / 10 =? 0)%N then acc else decimal fuel (n / 10)%N acc
  end.
Definition show_size (n : Z) : str := decimal (S (N.size_nat (Z.to_N n))) (Z.to_N n) [].

(** ** Splitting *)

(** [s.split_at(n)], which panics off a character boundary. *)
Fixpoint split_at_byte (n : Z) (s : str) : option (str * str) :=
  if n =? 0 then Some ([], s)
  else
    match s with
    | [] => None
    | c :: s =>
        let w := Z.of_nat (len_utf8 c) in
        if w <=? n then '(before, after) ← split_at_byte (n - w) s; Some (c :: before, after) else None
    end.

(** The variables of [split_string]'s loop; [suffix_start] is [None] until a
    character is in the tail. *)
Record SplitState : Type := { prefix_end : Z; suffix_start : option Z; removed_chars : Z }.

Definition split_step (beginning_bytes tail_start_target idx : Z) (c : char) (st : SplitState) : SplitState :=
  let char_end := idx + Z.of_nat (len_utf8 c) in
  if char_end <=? beginning_bytes then
    {| prefix_end := char_end; suffix_start := suffix_start st; removed_chars := removed_chars st |}
  else if tail_start_target <=? idx then
    {| prefix_end := prefix_end st;
       suffix_start := Some (default idx (suffix_start st)); removed_chars := removed_chars st |}
  else
    {| prefix_end := prefix_end st; suffix_start := suffix_start st;
       removed_chars := saturating_add (removed_chars st) 1 |}.

Fixpoint split_loop (beginning_bytes tail_start_target idx : Z) (s : str) (st : SplitState) : SplitState :=
  match s with
  | [] => st
  | c :: s =>
      split_loop beginning_bytes tail_start_target (idx + Z.of_nat (len_utf8 c)) s
        (split_step beginning_bytes tail_start_target idx c st)
  end.

Definition split_string (s : str) (beginning_bytes end_bytes : Z) : result Empty_set (Z * str * str) :=
  if bool_decide (s = []) then Ok (0, [], [])
  else
    let len := blen s in
    let st := split_loop beginning_bytes (saturating_sub len end_bytes) 0 s
                {| prefix_end := 0; suffix_start := None; removed_chars := 0 |} in
    let suffix_start := Z.max (default len (suffix_start st)) (prefix_end st) in
    '(before, _) ← expect (split_at_byte (prefix_end st) s);
    '(_, after) ← expect (split_at_byte suffix_start s);
    Ok (removed_chars st, before, after).

Definition split_budget (budget : Z) : Z * Z := let left := budget / 2 in (left, budget - left).

Definition ELLIPSIS : char := 8230%N.
Definition format_truncation_marker (use_tokens : bool) (removed_count : Z) : str :=
  [ELLIPSIS] ++ show_size removed_count
  ++ (if use_tokens then lit " tokens truncated" else lit " chars truncated") ++ [ELLIPSIS].

Definition removed_units (use_tokens : bool) (removed_bytes removed_chars : Z) : Z :=
  if use_tokens then approx_tokens_from_byte_count removed_bytes else removed_chars.

Definition assemble_truncated_output (prefix suffix marker : str) : str := prefix ++ marker ++ suffix.

Definition truncate_with_byte_estimate (s : str) (max_bytes : Z) (use_tokens : bool) : result Empty_set str :=
  if bool_decide (s = []) then Ok []
  else
    let total_chars := char_count s in
    if max_bytes =? 0 then
      Ok (format_truncation_marker use_tokens (removed_units use_tokens (blen s) total_chars))
    else if blen s <=? max_bytes then Ok s
    else
      let '(left_budget, right_budget) := split_budget max_bytes in
      '(removed_chars, before, after) ← split_string s left_budget right_budget;
      Ok (assemble_truncated_output before after
            (format_truncation_marker use_tokens
               (removed_units use_tokens (saturating_sub (blen s) max_bytes) removed_chars))).

Definition truncate_middle_chars (s : str) (max_bytes : Z) : result Empty_set str :=
  truncate_with_byte_estimate s max_bytes false.

Definition truncate_middle_with_token_budget (s : str) (max_tokens : Z) : result Empty_set (str * option Z) :=
  if bool_decide (s = []) then Ok ([], None)
  else if (0 <? max_tokens) && (blen s <=? approx_bytes_for_tokens max_tokens) then Ok (s, None)
  else
    truncated ← truncate_with_byte_estimate s (approx_bytes_for_tokens max_tokens) true;
    Ok (if bool_decide (truncated = s) then (truncated, None) else (truncated, Some (approx_token_count s))).

(** ** Policies *)

Inductive TruncationPolicy : Type := Bytes (bytes : Z) | Tokens (tokens : Z).

Definition token_budget (p : TruncationPolicy) : Z :=
  match p with Bytes bytes => approx_tokens_from_byte_count bytes | Tokens tokens => tokens end.
Definition byte_budget (p : TruncationPolicy) : Z :=
  match p with Bytes bytes => bytes | Tokens tokens => approx_bytes_for_tokens tokens end.

(** [(n as f64 * multiplier).ceil() as usize], in double precision. *)
Definition f64_of_usize (n : Z) : spec_float := binary_normalize 53 1024 n 0 false.
Definition ceil_to_usize (f : spec_float) : Z :=
  match f with
  | S754_finite false m e =>
      Z.min (if 0 <=? e then Z.pos m * 2 ^ e else - (- Z.pos m / 2 ^ (- e))) usize_max
  | S754_infinity false => usize_max
  | _ => 0
  end.
Definition scale (n : Z) (multiplier : spec_float) : Z :=
  ceil_to_usize (SFmul 53 1024 (f64_of_usize n) multiplier).
Definition policy_mul (p : TruncationPolicy) (multiplier : spec_float) : TruncationPolicy :=
  match p with Bytes bytes => Bytes (scale bytes multiplier) | Tokens tokens => Tokens (scale tokens multiplier) end.
(** The double nearest to 1.2. *)
Definition f64_1_2 : spec_float := S754_finite false 5404319552844595 (-52).

Definition truncate_text (content : str) (policy : TruncationPolicy) : result Empty_set str :=
  match policy with
  | Bytes bytes => truncate_middle_chars content bytes
  | Tokens tokens => fst <$> truncate_middle_with_token_budget content tokens
  end.

Definition formatted_truncate_text (content : str) (policy : TruncationPolicy) : result Empty_set str :=
  if blen content <=? byte_budget policy then Ok content
  else
    let total_lines := Z.of_nat (length (lines content)) in
    result ← truncate_text content policy;
    Ok (lit "Total output lines: " ++ show_size total_lines ++ [NL; NL] ++ result).

(** ** Output items *)

Inductive ImageDetail : Type := Auto | Low | High | Original.
#[export] Instance ImageDetail_eq_dec : EqDecision ImageDetail.
Proof. solve_decision. Defined.

(** [FunctionCallOutputContentItem]. *)
Inductive OutputItem : Type :=
| OutputInputText (text : str)
| OutputInputImage (image_url : str) (detail : option ImageDetail).
#[export] Instance OutputItem_eq_dec : EqDecision OutputItem.
Proof. solve_decision. Defined.

Definition item_text (i : OutputItem) : option str :=
  match i with OutputInputText text => Some text | OutputInputImage _ _ => None end.
Definition is_image (i : OutputItem) : bool := match i with OutputInputText _ => false | _ => true end.

(** The joined text starts afresh as long as it is empty. *)
Definition combine_texts (texts : list str) : str :=
  foldl (λ combined text, (if bool_decide (combined = []) then [] else combined ++ [NL]) ++ text) [] texts.

Definition formatted_truncate_text_content_items_with_policy (items : list OutputItem) (policy : TruncationPolicy)
    : result Empty_set (list OutputItem * option Z) :=
  let text_segments := omap item_text items in
  if bool_decide (text_segments = []) then Ok (items, None)
  else
    let combined := combine_texts text_segments in
    if blen combined <=? byte_budget policy then Ok (items, None)
    else
      text ← formatted_truncate_text combined policy;
      Ok (OutputInputText text :: filter is_image items, Some (approx_token_count combined)).

(** The loop of [truncate_function_output_items_with_policy]: its output, the
    budget left and the number of omitted text items. *)
Definition item_cost (policy : TruncationPolicy) (text : str) : Z :=
  match policy with Bytes _ => blen text | Tokens _ => approx_token_count text end.
Definition with_budget (policy : TruncationPolicy) (budget : Z) : TruncationPolicy :=
  match policy with Bytes _ => Bytes budget | Tokens _ => Tokens budget end.

Fixpoint truncate_items (policy : TruncationPolicy) (remaining_budget omitted_text_items : Z)
    (items : list OutputItem) : result Empty_set (list OutputItem * Z) :=
  match items with
  | [] => Ok ([], omitted_text_items)
  | OutputInputImage image_url detail :: items =>
      '(out, omitted) ← truncate_items policy remaining_budget omitted_text_items items;
      Ok (OutputInputImage image_url detail :: out, omitted)
  | OutputInputText text :: items =>
      if remaining_budget =? 0 then truncate_items policy 0 (omitted_text_items + 1) items
      else
        let cost := item_cost policy text in
        if cost <=? remaining_budget then
          '(out, omitted) ← truncate_items policy (saturating_sub remaining_budget cost) omitted_text_items items;
          Ok (OutputInputText text :: out, omitted)
        else
          snippet ← truncate_text text (with_budget policy remaining_budget);
          if bool_decide (snippet = []) then truncate_items policy 0 (omitted_text_items + 1) items
          else
            '(out, omitted) ← truncate_items policy 0 omitted_text_items items;
            Ok (OutputInputText snippet :: out, omitted)
  end.

Definition truncate_function_output_items_with_policy (items : list OutputItem) (policy : TruncationPolicy)
    : result Empty_set (list OutputItem) :=
  let budget := match policy with Bytes _ => byte_budget policy | Tokens _ => token_budget policy end in
  '(out, omitted_text_items) ← truncate_items policy budget 0 items;
  Ok (out ++ if 0 <? omitted_text_items
             then [OutputInputText (lit "[omitted " ++ show_size omitted_text_items ++ lit " text items ...]")]
             else []).

(** [approx_tokens_from_byte_count_i64]. *)
Definition i64_max : Z := 2 ^ 63 - 1.
Definition approx_tokens_from_byte_count_i64 (bytes : Z) : Z :=
  if bytes <=? 0 then 0 else Z.min (approx_tokens_from_byte_count bytes) i64_max.
End Truncate.
