(* ===== verification/TruncateFacts.v ===== *)
(** * Truncating output: theorems

    What truncation keeps, and how large its output can be. *)
From S2P Require Import Prelude Str Truncate.
Import Truncate.
#[local] Open Scope Z_scope.

(** ** Byte lengths *)

Lemma len_utf8_range c : 1 ≤ Z.of_nat (len_utf8 c) ≤ 4.
Proof. unfold len_utf8. repeat case_match; lia. Qed.

Lemma blen_nil : blen [] = 0.
Proof. done. Qed.

Lemma blen_cons c s : blen (c :: s) = Z.of_nat (len_utf8 c) + blen s.
Proof. unfold blen. simpl. lia. Qed.

Lemma blen_app s t : blen (s ++ t) = blen s + blen t.
Proof. induction s as [|c s IH]; [done|]. rewrite <-app_comm_cons, !blen_cons, IH. lia. Qed.

Lemma blen_nonneg s : 0 ≤ blen s.
Proof. unfold blen. lia. Qed.

Lemma char_count_le_blen s : char_count s ≤ blen s.
Proof.
  unfold char_count. induction s as [|c s IH]; [done|]. rewrite blen_cons. simpl length.
  pose proof (len_utf8_range c). lia.
Qed.

Lemma split_at_byte_app l r : split_at_byte (blen l) (l ++ r) = Some (l, r).
Proof.
  induction l as [|c l IH]; [by destruct r|]. simpl. rewrite blen_cons.
  pose proof (len_utf8_range c). pose proof (blen_nonneg l).
  rewrite (proj2 (Z.eqb_neq _ 0)) by lia. rewrite (proj2 (Z.leb_le _ _)) by lia.
  replace (_ + blen l - _) with (blen l) by lia. by rewrite IH.
Qed.

(** ** The three phases of the split *)

Definition mk_state p f n : SplitState := {| prefix_end := p; suffix_start := f; removed_chars := n |}.

(** No character from [idx] on ends within the first [b] bytes. *)
Definition past_prefix (b idx : Z) (s : str) : Prop :=
  match s with [] => True | c :: _ => b < idx + Z.of_nat (len_utf8 c) end.

Lemma past_prefix_next b idx c s : past_prefix b idx (c :: s) → past_prefix b (idx + Z.of_nat (len_utf8 c)) s.
Proof. destruct s as [|d s]; simpl; [done|]. pose proof (len_utf8_range d). lia. Qed.

Lemma split_tail b t idx s p f n :
  t ≤ idx → past_prefix b idx s →
  split_loop b t idx s (mk_state p f n) = mk_state p (match s with [] => f | _ => Some (default idx f) end) n.
Proof.
  revert idx f. induction s as [|c s IH]; intros idx f Ht Hp; [done|]. cbn [split_loop]. unfold split_step at 1.
  pose proof (len_utf8_range c). rewrite (proj2 (Z.leb_gt _ b)) by exact Hp. rewrite (proj2 (Z.leb_le t idx)) by done.
  cbn [prefix_end suffix_start removed_chars mk_state].
  rewrite (IH _ (Some (default idx f))); [by destruct s|lia|by apply past_prefix_next].
Qed.

Lemma split_middle b t idx s p n :
  past_prefix b idx s → n + char_count s ≤ usize_max →
  ∃ mid r, s = mid ++ r
    ∧ split_loop b t idx s (mk_state p None n)
      = mk_state p (match r with [] => None | _ => Some (idx + blen mid) end) (n + char_count mid)
    ∧ (∀ m c, mid = m ++ [c] → idx + blen m < t)
    ∧ (r ≠ [] → t ≤ idx + blen mid).
Proof.
  revert idx n. induction s as [|c s IH]; intros idx n Hp Hn.
  { exists [], []. rewrite Z.add_0_r. split_and!; [done|done| |done]. intros m c Hm. by destruct m. }
  destruct (Z.le_gt_cases t idx) as [Ht|Ht].
  { exists [], (c :: s). rewrite split_tail by done. rewrite blen_nil, !Z.add_0_r.
    split_and!; [done|done| |done]. intros m d Hm. by destruct m. }
  unfold char_count in *. simpl length in Hn.
  destruct (IH (idx + Z.of_nat (len_utf8 c)) (n + 1)) as (mid&r&->&Hloop&Hlast&Hr); [by apply past_prefix_next|lia|].
  exists (c :: mid), r. split; [done|]. cbn [split_loop]. unfold split_step at 1.
  rewrite (proj2 (Z.leb_gt _ b)) by exact Hp. rewrite (proj2 (Z.leb_gt t idx)) by done.
  cbn [prefix_end suffix_start removed_chars mk_state].
  replace (saturating_add n 1) with (n + 1) by (unfold saturating_add; lia).
  unfold mk_state in *. rewrite Hloop, blen_cons. simpl length. split_and!.
  - f_equal; [|lia]. destruct r; [done|]. f_equal. lia.
  - intros [|d m] e Hm; simpl in Hm; [by injection Hm as -> ->; rewrite blen_nil; lia|].
    injection Hm as -> Hm. rewrite blen_cons. specialize (Hlast m e Hm). lia.
  - intros Hne. specialize (Hr Hne). lia.
Qed.

(** The parts of a split: both ends fit their budgets and are as long as they
    can be. *)
Definition split_parts (s : str) (b e : Z) (l mid r : str) : Prop :=
  s = l ++ mid ++ r
  ∧ blen l ≤ b ∧ blen r ≤ e
  ∧ (∀ c m, mid ++ r = c :: m → b < blen l + Z.of_nat (len_utf8 c))
  ∧ (∀ m c, mid = m ++ [c] → e < Z.of_nat (len_utf8 c) + blen r).

Lemma split_prefix b t idx s p n :
  n + char_count s ≤ usize_max → p = idx → idx ≤ Z.max b 0 →
  ∃ l mid r, s = l ++ mid ++ r
    ∧ split_loop b t idx s (mk_state p None n)
      = mk_state (idx + blen l) (match r with [] => None | _ => Some (idx + blen l + blen mid) end) (n + char_count mid)
    ∧ idx + blen l ≤ Z.max b 0
    ∧ past_prefix b (idx + blen l) (mid ++ r)
    ∧ (∀ m c, mid = m ++ [c] → idx + blen l + blen m < t)
    ∧ (r ≠ [] → t ≤ idx + blen l + blen mid).
Proof.
  intros Hn ->. revert idx Hn. induction s as [|c s IH]; intros idx Hn Hidx.
  { exists [], [], []. rewrite blen_nil, !Z.add_0_r. split_and!; try done. intros m c Hm. by destruct m. }
  destruct (Z.le_gt_cases (idx + Z.of_nat (len_utf8 c)) b) as [Hb|Hb].
  - pose proof (len_utf8_range c). unfold char_count in Hn. simpl length in Hn.
    destruct (IH (idx + Z.of_nat (len_utf8 c))) as (l&mid&r&->&Hloop&Hl&Hp&Hm&Hr); [unfold char_count; lia..|].
    exists (c :: l), mid, r. rewrite blen_cons. split; [done|]. cbn [split_loop]. unfold split_step at 1.
    rewrite (proj2 (Z.leb_le _ b)) by done. cbn [suffix_start removed_chars mk_state]. unfold mk_state in *.
    rewrite Hloop. rewrite !Z.add_assoc. split_and!; done.
  - destruct (split_middle b t idx (c :: s) idx n) as (mid&r&Hs&Hloop&Hm&Hr); [done|done|].
    exists [], mid, r. rewrite blen_nil, !Z.add_0_r. rewrite <-Hs. split_and!; try done.
Qed.

Lemma split_string_spec s b e :
  0 ≤ b → 0 ≤ e → blen s ≤ usize_max →
  ∃ l mid r, split_parts s b e l mid r ∧ split_string s b e = Ok (char_count mid, l, r).
Proof.
  intros Hb He Hs. unfold split_string. case_bool_decide as Hnil.
  { subst. exists [], [], []. split; [|done].
    split_and!; rewrite ?blen_nil; try done. intros m c Hm. by destruct m. }
  pose proof (char_count_le_blen s).
  destruct (split_prefix b (saturating_sub (blen s) e) 0 s 0 0) as (l&mid&r&Hdec&Hloop&Hl&Hp&Hm&Hr);
    [lia|done|lia|]. unfold mk_state in Hloop. rewrite Hloop. cbn [prefix_end suffix_start removed_chars].
  rewrite !Z.add_0_l in *. subst s. rewrite !blen_app in *. unfold saturating_sub in *.
  pose proof (blen_nonneg l). pose proof (blen_nonneg mid). pose proof (blen_nonneg r).
  assert (Z.max (default (blen l + (blen mid + blen r)) match r with [] => None | _ => Some (blen l + blen mid) end)
            (blen l) = blen (l ++ mid)) as ->.
  { rewrite blen_app. destruct r; simpl; rewrite ?blen_nil; lia. }
  rewrite split_at_byte_app. cbn [expect mbind result_bind].
  rewrite (app_assoc l mid r), split_at_byte_app. cbn [expect mbind result_bind].
  exists l, mid, r. split; [|done]. split_and!.
  - by rewrite <-app_assoc.
  - lia.
  - destruct r; [rewrite blen_nil; lia|]. specialize (Hr ltac:(done)). lia.
  - intros c m Hc. rewrite Hc in Hp. exact Hp.
  - intros m c ->. specialize (Hm m c eq_refl). pose proof (blen_nonneg m). rewrite blen_app, blen_cons, blen_nil in *. lia.
Qed.

(** ** The marker *)

(** Each digit takes a factor of ten off the number. *)
Lemma decimal_log fuel n acc k :
  (n < 10 ^ N.of_nat (S k))%N → blen (decimal fuel n acc) ≤ Z.of_nat (S k) + blen acc.
Proof.
  revert n acc k. induction fuel as [|fuel IH]; intros n acc k Hn; [simpl; lia|]. cbn [decimal].
  assert (Hd : len_utf8 (48 + n mod 10) = 1%nat).
  { pose proof (N.mod_lt n 10). unfold len_utf8. rewrite (proj2 (N.ltb_lt _ 128)); [done|lia]. }
  destruct (n / 10 =? 0)%N eqn:Hz; [rewrite blen_cons, Hd; lia|]. apply N.eqb_neq in Hz.
  destruct k as [|k].
  - exfalso. apply Hz, N.div_small. by rewrite N.pow_1_r in Hn.
  - etrans; [apply (IH _ _ k)|rewrite blen_cons, Hd; lia].
    apply N.Div0.div_lt_upper_bound. rewrite <-N.pow_succ_r'. by rewrite <-Nat2N.inj_succ.
Qed.

Lemma show_size_length n : n ≤ usize_max → blen (show_size n) ≤ 20.
Proof.
  intros Hn. unfold show_size. etrans; [apply (decimal_log _ _ _ 19)|by rewrite blen_nil].
  apply N.le_lt_trans with (Z.to_N usize_max); [unfold usize_max in *; lia|by vm_compute].
Qed.

Definition marker_bound : Z := 43.

Lemma marker_length use_tokens n : n ≤ usize_max → blen (format_truncation_marker use_tokens n) ≤ marker_bound.
Proof.
  intros Hn. unfold format_truncation_marker, marker_bound. rewrite !blen_app. pose proof (show_size_length n Hn).
  destruct use_tokens; simpl; unfold blen in *; simpl; lia.
Qed.

Lemma tokens_of_bytes_range b : 0 ≤ b ≤ usize_max → 0 ≤ approx_tokens_from_byte_count b ≤ usize_max.
Proof.
  intros Hb. unfold approx_tokens_from_byte_count, saturating_add, APPROX_BYTES_PER_TOKEN, usize_max in *.
  change (saturating_sub 4 1) with 3. split; [apply Z.div_pos; lia|].
  apply Z.div_le_upper_bound; lia.
Qed.

(** ** Truncated text *)

Definition is_tokens (p : TruncationPolicy) : bool := match p with Bytes _ => false | Tokens _ => true end.
Definition valid_policy (p : TruncationPolicy) : Prop :=
  match p with Bytes n | Tokens n => 0 ≤ n ≤ usize_max end.

(** A truncated text: the ends around a marker that counts what is gone. *)
Definition truncated_to (s : str) (budget : Z) (use_tokens : bool) (out : str) : Prop :=
  ∃ l mid r, split_parts s (budget / 2) (budget - budget / 2) l mid r ∧ mid ≠ []
    ∧ out = l ++ format_truncation_marker use_tokens
                   (if use_tokens then approx_tokens_from_byte_count (blen s - budget) else char_count mid) ++ r.

Lemma byte_budget_range p : valid_policy p → 0 ≤ byte_budget p ≤ usize_max.
Proof.
  destruct p; simpl; [done|]. unfold approx_bytes_for_tokens, saturating_mul, APPROX_BYTES_PER_TOKEN. lia.
Qed.

Lemma truncate_estimate s b use_tokens :
  s ≠ [] → 0 ≤ b → blen s ≤ usize_max → b < blen s →
  ∃ out, truncate_with_byte_estimate s b use_tokens = Ok out ∧ truncated_to s b use_tokens out.
Proof.
  intros Hs Hb Hmax Hlt. unfold truncate_with_byte_estimate. rewrite bool_decide_eq_false_2 by done.
  destruct (b =? 0) eqn:Hz.
  { apply Z.eqb_eq in Hz as ->. eexists. split; [done|]. exists [], s, []. unfold removed_units, truncated_to.
    rewrite app_nil_r. change (0 / 2) with 0.
    split; [|split; [done|by rewrite Z.sub_0_r]]. unfold split_parts. rewrite !app_nil_r, !blen_nil. split_and!; try done.
    - intros c m ->. pose proof (len_utf8_range c). simpl. lia.
    - intros m c ->. pose proof (len_utf8_range c). simpl. lia. }
  apply Z.eqb_neq in Hz. rewrite (proj2 (Z.leb_gt _ _)) by done. unfold split_budget.
  assert (0 ≤ b / 2 ≤ b) by (split; [apply Z.div_pos|apply Z.div_le_upper_bound]; lia).
  destruct (split_string_spec s (b / 2) (b - b / 2)) as (l&mid&r&Hparts&->); [lia..|].
  eexists. split; [done|]. exists l, mid, r. split; [done|]. split.
  - intros ->. destruct Hparts as (->&Hl&Hr&_). rewrite !blen_app, blen_nil in Hlt. lia.
  - unfold assemble_truncated_output, removed_units, saturating_sub.
    by rewrite Z.max_l by lia.
Qed.

Lemma truncated_bound s b use_tokens out :
  0 ≤ b → blen s ≤ usize_max → truncated_to s b use_tokens out → blen out ≤ b + marker_bound.
Proof.
  intros Hb Hmax (l&mid&r&(Hs&Hl&Hr&_)&_&->). rewrite !blen_app.
  pose proof (blen_nonneg l). pose proof (blen_nonneg r). pose proof (blen_nonneg mid).
  assert (blen s = blen l + (blen mid + blen r)) by (rewrite Hs, !blen_app; lia).
  etrans; [apply Z.add_le_mono_l, Z.add_le_mono_r, marker_length|lia].
  pose proof (char_count_le_blen mid). destruct use_tokens; [|lia].
  unfold approx_tokens_from_byte_count, saturating_add, usize_max, APPROX_BYTES_PER_TOKEN in *.
  apply Z.div_le_upper_bound; lia.
Qed.

Lemma truncate_text_spec s p :
  valid_policy p → blen s ≤ usize_max →
  ∃ out, truncate_text s p = Ok out
    ∧ blen out ≤ byte_budget p + marker_bound
    ∧ (s = [] ∨ blen s ≤ byte_budget p → out = s)
    ∧ (s ≠ [] → byte_budget p < blen s → truncated_to s (byte_budget p) (is_tokens p) out).
Proof.
  intros Hp Hs. pose proof (byte_budget_range p Hp) as Hbudget. pose proof (blen_nonneg s).
  assert (Hpos : ∀ c t, s = c :: t → 1 ≤ blen s).
  { intros c t ->. rewrite blen_cons. pose proof (len_utf8_range c). pose proof (blen_nonneg t). lia. }
  destruct s as [|c t]; [exists []; split_and!; [by destruct p|rewrite blen_nil; unfold marker_bound; lia|done..]|].
  set (s := c :: t) in *. specialize (Hpos c t eq_refl).
  destruct (Z.le_gt_cases (blen s) (byte_budget p)) as [Hle|Hgt].
  - exists s. split_and!; [|unfold marker_bound; lia|done|lia]. destruct p as [n|n]; simpl in *.
    + unfold truncate_middle_chars, truncate_with_byte_estimate. rewrite bool_decide_eq_false_2 by done.
      rewrite (proj2 (Z.eqb_neq _ _)) by lia. by rewrite (proj2 (Z.leb_le _ _)) by done.
    + unfold truncate_middle_with_token_budget. rewrite bool_decide_eq_false_2 by done.
      rewrite (proj2 (Z.leb_le (blen s) _)) by done. rewrite (proj2 (Z.ltb_lt 0 n)); [done|].
      unfold approx_bytes_for_tokens, saturating_mul, APPROX_BYTES_PER_TOKEN in Hle. lia.
  - destruct (truncate_estimate s (byte_budget p) (is_tokens p)) as (out&Hout&Htr); [done|lia..|].
    exists out. split_and!; [|by eapply truncated_bound; [lia|..]|intros [?|?]; [done|lia]|done].
    destruct p as [n|n]; simpl in *; [done|].
    unfold truncate_middle_with_token_budget. rewrite bool_decide_eq_false_2 by done.
    rewrite (proj2 (Z.leb_gt (blen s) _)) by done. rewrite andb_false_r, Hout. simpl. by case_bool_decide.
Qed.

(** C26. Truncating a text never panics. A text within a positive budget is
    kept; any other non-empty one keeps the longest prefix and suffix that fit
    the two halves of the byte budget, around a marker with the number of
    characters (or the estimate of the tokens) removed. The result exceeds the
    budget by at most the marker. *)
Theorem truncate_text_keeps_ends s p :
  valid_policy p → blen s ≤ usize_max →
  ∃ out, truncate_text s p = Ok out
    ∧ blen out ≤ byte_budget p + marker_bound
    ∧ (s = [] ∨ blen s ≤ byte_budget p → out = s)
    ∧ (s ≠ [] → byte_budget p < blen s → truncated_to s (byte_budget p) (is_tokens p) out).
Proof. exact (truncate_text_spec s p). Qed.

Lemma truncate_text_keeps_ends_witness :
  truncate_text (lit "0123456789") (Bytes 5) = Ok (lit "01" ++ format_truncation_marker false 5 ++ lit "789")
  ∧ truncated_to (lit "0123456789") 5 false (lit "01" ++ format_truncation_marker false 5 ++ lit "789").
Proof.
  assert (truncate_text (lit "0123456789") (Bytes 5) = Ok (lit "01" ++ format_truncation_marker false 5 ++ lit "789"))
    as Hrun by (vm_compute; reflexivity).
  split; [exact Hrun|].
  destruct (truncate_text_keeps_ends (lit "0123456789") (Bytes 5)) as (out&Hout&_&_&Htr); [done|done|].
  rewrite Hrun in Hout. injection Hout as <-. by apply Htr.
Defined.

(** ** Output items *)

Definition text_bytes (i : OutputItem) : Z := match item_text i with Some t => blen t | None => 0 end.
Definition texts_bytes (items : list OutputItem) : Z := foldr (λ i n, text_bytes i + n) 0 items.
Lemma texts_bytes_app l l' : texts_bytes (l ++ l') = texts_bytes l + texts_bytes l'.
Proof. induction l as [|i l IH]; simpl; [done|]. lia. Qed.

(** Rust's strings and vectors have at most [isize::MAX] bytes or elements. *)
Definition valid_items (items : list OutputItem) : Prop :=
  Forall (λ i, text_bytes i ≤ i64_max) items ∧ Z.of_nat (length items) ≤ i64_max.

(** The bytes a unit of the budget stands for. *)
Definition unit_bytes (p : TruncationPolicy) : Z := if is_tokens p then APPROX_BYTES_PER_TOKEN else 1.
Definition budget (p : TruncationPolicy) : Z := match p with Bytes n | Tokens n => n end.

Lemma item_cost_bytes p t : blen t ≤ i64_max → blen t ≤ unit_bytes p * item_cost p t ∧ 0 ≤ item_cost p t.
Proof.
  intros Ht. pose proof (blen_nonneg t). destruct p as [n|n]; cbn [item_cost is_tokens unit_bytes].
  { unfold unit_bytes. simpl is_tokens. cbv iota. lia. }
  unfold unit_bytes, approx_token_count, saturating_add, APPROX_BYTES_PER_TOKEN, usize_max, i64_max in *.
  change (saturating_sub 4 1) with 3. cbn [is_tokens]. rewrite Z.min_l by lia.
  pose proof (Z.div_mod (blen t + 3) 4). pose proof (Z.mod_pos_bound (blen t + 3) 4). lia.
Qed.

Lemma with_budget_bytes p b : 0 ≤ b → byte_budget (with_budget p b) ≤ unit_bytes p * b.
Proof.
  intros Hb. destruct p; unfold unit_bytes; cbn [is_tokens with_budget byte_budget]; [lia|].
  unfold approx_bytes_for_tokens, saturating_mul, APPROX_BYTES_PER_TOKEN. lia.
Qed.

Lemma truncate_items_spec p b o items :
  0 ≤ b ≤ usize_max → Forall (λ i, text_bytes i ≤ i64_max) items →
  ∃ out o', truncate_items p b o items = Ok (out, o')
    ∧ filter is_image out = filter is_image items
    ∧ texts_bytes out ≤ unit_bytes p * b + (if b =? 0 then 0 else marker_bound)
    ∧ o' ≤ o + Z.of_nat (length items).
Proof.
  assert (0 < unit_bytes p) as Hunit by by destruct p.
  intros Hb Hall. revert b o Hb. induction Hall as [|i items Hi Hall IH]; intros b o Hb; cbn [truncate_items].
  { exists [], o. split_and!; [done|done| |simpl; lia]. unfold marker_bound. simpl. case_match; lia. }
  assert (Hzero : ∀ o, ∃ out o', truncate_items p 0 o items = Ok (out, o')
    ∧ filter is_image out = filter is_image items ∧ texts_bytes out ≤ 0 ∧ o' ≤ o + Z.of_nat (length items)).
  { intros o1. destruct (IH 0 o1) as (out&o'&?&?&Hout&?); [unfold usize_max; lia|]. exists out, o'.
    split_and!; try done. simpl in Hout. lia. }
  destruct i as [text|url detail].
  - destruct (b =? 0) eqn:Hz.
    { apply Z.eqb_eq in Hz as ->. destruct (Hzero (o + 1)) as (out&o'&->&Him&Hout&Ho). exists out, o'.
      split_and!; [done|done|lia|simpl length; lia]. }
    apply Z.eqb_neq in Hz. destruct (item_cost_bytes p text Hi) as [Hcost Hcost0].
    destruct (item_cost p text <=? b) eqn:Hfit.
    + apply Z.leb_le in Hfit. unfold saturating_sub. rewrite Z.max_l by lia.
      destruct (IH (b - item_cost p text) o) as (out&o'&->&Him&Hout&Ho); [lia|].
      exists (OutputInputText text :: out), o'. split_and!; [done|done| |simpl length; lia].
      cbn [texts_bytes foldr text_bytes item_text]. fold (texts_bytes out).
      rewrite Z.mul_sub_distr_l in Hout. unfold marker_bound in *. destruct (_ =? 0); lia.
    + destruct (truncate_text_spec text (with_budget p b)) as (snippet&->&Hsn&_); [by destruct p|etrans; [exact Hi|done]|].
      cbn [mbind result_bind]. pose proof (with_budget_bytes p b). case_bool_decide as Hnil.
      * destruct (Hzero (o + 1)) as (out&o'&->&Him&Hout&Ho). exists out, o'.
        split_and!; [done|done|unfold marker_bound; lia|simpl length; lia].
      * destruct (Hzero o) as (out&o'&->&Him&Hout&Ho). exists (OutputInputText snippet :: out), o'.
        split_and!; [done|done| |simpl length; lia].
        cbn [texts_bytes foldr text_bytes item_text]. fold (texts_bytes out). lia.
  - destruct (IH b o Hb) as (out&o'&->&Him&Hout&Ho). exists (OutputInputImage url detail :: out), o'.
    split_and!; [done|by rewrite !filter_cons, Him|exact Hout|simpl length; lia].
Qed.

(** The largest note about omitted items. *)
Definition note_bound : Z := 48.

(** Truncating the items of a tool output never panics, keeps every image in
    order, and leaves at most the budget's bytes of text, plus a marker and a
    note. *)
Lemma output_items_bounded items p :
  valid_policy p → valid_items items →
  ∃ out, truncate_function_output_items_with_policy items p = Ok out
    ∧ filter is_image out = filter is_image items
    ∧ texts_bytes out ≤ unit_bytes p * budget p + marker_bound + note_bound.
Proof.
  intros Hp [Hitems Hlen]. unfold truncate_function_output_items_with_policy.
  replace (match p with Bytes _ => byte_budget p | Tokens _ => token_budget p end) with (budget p) by by destruct p.
  destruct (truncate_items_spec p (budget p) 0 items) as (out&o&->&Him&Hout&Ho); [by destruct p|done|].
  cbn [mbind result_bind]. eexists. split; [done|]. rewrite filter_app, texts_bytes_app. split.
  - rewrite Him. destruct (0 <? o); apply app_nil_r.
  - assert (texts_bytes out ≤ unit_bytes p * budget p + marker_bound) by (unfold marker_bound in *; destruct (_ =? 0); lia).
    destruct (0 <? o); [|unfold note_bound; simpl; lia]. cbn [texts_bytes foldr text_bytes item_text]. rewrite !blen_app.
    pose proof (show_size_length o ltac:(unfold usize_max, i64_max in *; lia)).
    change (blen (lit "[omitted ")) with 9. change (blen (lit " text items ...]")) with 16. unfold note_bound. lia.
Qed.
