(* ===== verification/History.v ===== *)
(** * The conversation history

    Models [core/src/context_manager/history.rs] and [normalize.rs], the items
    they handle ([ResponseItem] of [protocol/src/models.rs], [TokenUsageInfo] of
    [protocol/src/protocol.rs]) and the recognition of injected context
    ([core/src/event_mapping.rs], [core/src/context]).  The fields the code only
    carries along are of an arbitrary type.  serde_json, quick_xml, base64 and
    the image crate are parameters; the cache of image estimates is left out, as
    it holds the values it would compute again. *)
From S2P Require Import Prelude Str Truncate.
Import Truncate.

Module History.

(** ** Items *)

Inductive ContentItem : Type :=
| InputText (text : str)
| InputImage (image_url : str) (detail : option ImageDetail)
| OutputText (text : str).

Inductive FunctionCallOutputBody : Type :=
| Text (content : str)
| ContentItems (items : list OutputItem).
Record FunctionCallOutputPayload : Type := { body : FunctionCallOutputBody; success : option bool }.

Definition from_text (content : str) : FunctionCallOutputPayload := {| body := Text content; success := None |}.

Record TokenUsage : Type := {
  input_tokens : Z;
  cached_input_tokens : Z;
  output_tokens : Z;
  reasoning_output_tokens : Z;
  total_tokens : Z;
}.
Record TokenUsageInfo : Type := {
  total_token_usage : TokenUsage;
  last_token_usage : TokenUsage;
  model_context_window : option Z;
}.
Definition TokenUsage_default : TokenUsage := Build_TokenUsage 0 0 0 0 0.

Section History.
(** The fields carried along, a tool description, a turn context. *)
Context {P Value TurnContextItem : Type}.

Inductive ResponseItem : Type :=
| Message (role : str) (content : list ContentItem) (rest : P)
| Reasoning (encrypted_content : option str) (rest : P)
| LocalShellCall (call_id : option str) (rest : P)
| FunctionCall (call_id : str) (rest : P)
| ToolSearchCall (call_id : option str) (rest : P)
| FunctionCallOutput (call_id : str) (output : FunctionCallOutputPayload)
| CustomToolCall (call_id : str) (rest : P)
| CustomToolCallOutput (call_id : str) (name : option str) (output : FunctionCallOutputPayload)
| ToolSearchOutput (call_id : option str) (status execution : str) (tools : list Value)
| WebSearchCall (rest : P)
| ImageGenerationCall (result : str) (rest : P)
| GhostSnapshot (rest : P)
| Compaction (encrypted_content : str)
| OtherItem.

Record ContextManager : Type := {
  items : list ResponseItem;
  history_version : Z;
  token_info : option TokenUsageInfo;
  reference_context_item : option TurnContextItem;
}.

Definition with_items (l : list ResponseItem) (h : ContextManager) : ContextManager := {|
  items := l; history_version := history_version h; token_info := token_info h;
  reference_context_item := reference_context_item h |}.
Definition bump_version (h : ContextManager) : ContextManager := {|
  items := items h; history_version := saturating_add (history_version h) 1; token_info := token_info h;
  reference_context_item := reference_context_item h |}.
Definition set_token_info (info : option TokenUsageInfo) (h : ContextManager) : ContextManager := {|
  items := items h; history_version := history_version h; token_info := info;
  reference_context_item := reference_context_item h |}.
Definition set_reference_context_item (item : option TurnContextItem) (h : ContextManager) : ContextManager := {|
  items := items h; history_version := history_version h; token_info := token_info h;
  reference_context_item := item |}.
Definition replace (l : list ResponseItem) (h : ContextManager) : ContextManager := bump_version (with_items l h).
Definition new : ContextManager := {|
  items := []; history_version := 0; token_info := None; reference_context_item := None |}.

(** Debug builds panic where release builds log an error or wrap around. *)
Variable debug_assertions : bool.
Definition error_or_panic : result Empty_set unit := if debug_assertions then Crash else Ok ().

(** ** Calls and their outputs *)

Definition is_output_of (id : str) (i : ResponseItem) : bool :=
  match i with FunctionCallOutput existing _ => bool_decide (existing = id) | _ => false end.
Definition is_custom_output_of (id : str) (i : ResponseItem) : bool :=
  match i with CustomToolCallOutput existing _ _ => bool_decide (existing = id) | _ => false end.
Definition is_search_output_of (id : str) (i : ResponseItem) : bool :=
  match i with ToolSearchOutput (Some existing) _ _ _ => bool_decide (existing = id) | _ => false end.
Definition is_call (id : str) (i : ResponseItem) : bool :=
  match i with FunctionCall existing _ => bool_decide (existing = id) | _ => false end.
Definition is_shell_call (id : str) (i : ResponseItem) : bool :=
  match i with LocalShellCall (Some existing) _ => bool_decide (existing = id) | _ => false end.
Definition is_custom_call (id : str) (i : ResponseItem) : bool :=
  match i with CustomToolCall existing _ => bool_decide (existing = id) | _ => false end.
Definition is_search_call (id : str) (i : ResponseItem) : bool :=
  match i with ToolSearchCall (Some existing) _ => bool_decide (existing = id) | _ => false end.

Definition aborted : FunctionCallOutputPayload := from_text (lit "aborted").

(** The synthetic output of a call that has none. *)
Definition missing_output (all : list ResponseItem) (item : ResponseItem) : result Empty_set (option ResponseItem) :=
  match item with
  | FunctionCall call_id _ =>
      Ok (if existsb (is_output_of call_id) all then None else Some (FunctionCallOutput call_id aborted))
  | ToolSearchCall (Some call_id) _ =>
      Ok (if existsb (is_search_output_of call_id) all then None
          else Some (ToolSearchOutput (Some call_id) (lit "completed") (lit "client") []))
  | CustomToolCall call_id _ =>
      if existsb (is_custom_output_of call_id) all then Ok None
      else _ ← error_or_panic; Ok (Some (CustomToolCallOutput call_id None aborted))
  | LocalShellCall (Some call_id) _ =>
      if existsb (is_output_of call_id) all then Ok None
      else _ ← error_or_panic; Ok (Some (FunctionCallOutput call_id aborted))
  | _ => Ok None
  end.

Fixpoint collect_missing (all : list ResponseItem) (idx : nat) (rest : list ResponseItem)
    : result Empty_set (list (nat * ResponseItem)) :=
  match rest with
  | [] => Ok []
  | item :: rest =>
      o ← missing_output all item;
      l ← collect_missing all (S idx) rest;
      Ok (match o with Some output_item => (idx, output_item) :: l | None => l end)
  end.

(** [Vec::insert], which panics past the end. *)
Definition vec_insert (idx : nat) (x : ResponseItem) (l : list ResponseItem) : result Empty_set (list ResponseItem) :=
  if idx <=? length l then Ok (take idx l ++ x :: drop idx l) else Crash.

Fixpoint insert_all (missing_outputs : list (nat * ResponseItem)) (l : list ResponseItem)
    : result Empty_set (list ResponseItem) :=
  match missing_outputs with
  | [] => Ok l
  | (idx, output_item) :: missing_outputs => l ← vec_insert (idx + 1) output_item l; insert_all missing_outputs l
  end.

Definition ensure_call_outputs_present (l : list ResponseItem) : result Empty_set (list ResponseItem) :=
  missing_outputs_to_insert ← collect_missing l 0 l;
  insert_all (reverse missing_outputs_to_insert) l.

(** The sets of ids of [remove_orphan_outputs]. *)
Definition function_call_ids (l : list ResponseItem) : list str :=
  omap (λ i, match i with FunctionCall call_id _ => Some call_id | _ => None end) l.
Definition tool_search_call_ids (l : list ResponseItem) : list str :=
  omap (λ i, match i with ToolSearchCall call_id _ => call_id | _ => None end) l.
Definition local_shell_call_ids (l : list ResponseItem) : list str :=
  omap (λ i, match i with LocalShellCall call_id _ => call_id | _ => None end) l.
Definition custom_tool_call_ids (l : list ResponseItem) : list str :=
  omap (λ i, match i with CustomToolCall call_id _ => Some call_id | _ => None end) l.

Definition keep_matched (has_match : bool) : result Empty_set bool :=
  if has_match then Ok true else _ ← error_or_panic; Ok false.

Definition retain_output (all : list ResponseItem) (item : ResponseItem) : result Empty_set bool :=
  match item with
  | FunctionCallOutput call_id _ =>
      keep_matched (bool_decide (call_id ∈ function_call_ids all) || bool_decide (call_id ∈ local_shell_call_ids all))
  | CustomToolCallOutput call_id _ _ => keep_matched (bool_decide (call_id ∈ custom_tool_call_ids all))
  | ToolSearchOutput call_id _ execution _ =>
      if bool_decide (execution = lit "server") then Ok true
      else match call_id with
           | Some call_id => keep_matched (bool_decide (call_id ∈ tool_search_call_ids all))
           | None => Ok true
           end
  | _ => Ok true
  end.

Fixpoint retain (all l : list ResponseItem) : result Empty_set (list ResponseItem) :=
  match l with
  | [] => Ok []
  | item :: l =>
      keep ← retain_output all item;
      l ← retain all l;
      Ok (if (keep : bool) then item :: l else l)
  end.
Definition remove_orphan_outputs (l : list ResponseItem) : result Empty_set (list ResponseItem) := retain l l.

Fixpoint remove_first_matching (predicate : ResponseItem → bool) (l : list ResponseItem) : list ResponseItem :=
  match l with
  | [] => []
  | item :: l => if predicate item then l else item :: remove_first_matching predicate l
  end.

Definition remove_corresponding_for (item : ResponseItem) (l : list ResponseItem) : list ResponseItem :=
  match item with
  | FunctionCall call_id _ => remove_first_matching (is_output_of call_id) l
  | FunctionCallOutput call_id _ =>
      if existsb (is_call call_id) l then remove_first_matching (is_call call_id) l
      else remove_first_matching (is_shell_call call_id) l
  | ToolSearchCall (Some call_id) _ => remove_first_matching (is_search_output_of call_id) l
  | ToolSearchOutput (Some call_id) _ _ _ => remove_first_matching (is_search_call call_id) l
  | CustomToolCall call_id _ => remove_first_matching (is_custom_output_of call_id) l
  | CustomToolCallOutput call_id _ _ => remove_first_matching (is_custom_call call_id) l
  | LocalShellCall (Some call_id) _ => remove_first_matching (is_output_of call_id) l
  | _ => l
  end.

Definition remove_first_item (h : ContextManager) : ContextManager :=
  match items h with
  | [] => h
  | removed :: rest => with_items (remove_corresponding_for removed rest) h
  end.

Definition remove_last_item (h : ContextManager) : ContextManager * bool :=
  match last (items h) with
  | Some removed => (bump_version (with_items (remove_corresponding_for removed (but_last (items h))) h), true)
  | None => (h, false)
  end.

(** ** Images *)

Definition IMAGE_CONTENT_OMITTED_PLACEHOLDER : str :=
  lit "image content omitted because you do not support image input".

Definition strip_content (c : ContentItem) : ContentItem :=
  match c with InputImage _ _ => InputText IMAGE_CONTENT_OMITTED_PLACEHOLDER | c => c end.
Definition replace_image (placeholder : str) (c : OutputItem) : OutputItem :=
  match c with OutputInputImage _ _ => OutputInputText placeholder | c => c end.
Definition strip_output (output : FunctionCallOutputPayload) : FunctionCallOutputPayload :=
  match body output with
  | Text _ => output
  | ContentItems l =>
      {| body := ContentItems (replace_image IMAGE_CONTENT_OMITTED_PLACEHOLDER <$> l); success := success output |}
  end.
Definition strip_item (i : ResponseItem) : ResponseItem :=
  match i with
  | Message role content rest => Message role (strip_content <$> content) rest
  | FunctionCallOutput call_id output => FunctionCallOutput call_id (strip_output output)
  | CustomToolCallOutput call_id name output => CustomToolCallOutput call_id name (strip_output output)
  | ImageGenerationCall _ rest => ImageGenerationCall [] rest
  | i => i
  end.

(** Whether the model's input modalities contain images. *)
Definition strip_images_when_unsupported (supports_images : bool) (l : list ResponseItem) : list ResponseItem :=
  if supports_images then l else strip_item <$> l.

(** ** Normalization *)

Definition normalize_history (supports_images : bool) (l : list ResponseItem) : result Empty_set (list ResponseItem) :=
  l ← ensure_call_outputs_present l;
  l ← remove_orphan_outputs l;
  Ok (strip_images_when_unsupported supports_images l).

Definition is_ghost (i : ResponseItem) : bool := match i with GhostSnapshot _ => true | _ => false end.
Definition for_prompt (supports_images : bool) (h : ContextManager) : result Empty_set (list ResponseItem) :=
  l ← normalize_history supports_images (items h);
  Ok (filter (λ i, negb (is_ghost i)) l).

(** ** Recording *)

Definition is_api_message (message : ResponseItem) : bool :=
  match message with
  | Message role _ _ => bool_decide (role ≠ lit "system")
  | GhostSnapshot _ | OtherItem => false
  | _ => true
  end.

Definition truncate_function_output_payload (output : FunctionCallOutputPayload) (policy : TruncationPolicy)
    : result Empty_set FunctionCallOutputPayload :=
  body ← match body output with
         | Text content => Text <$> truncate_text content policy
         | ContentItems l => ContentItems <$> truncate_function_output_items_with_policy l policy
         end;
  Ok {| body := body; success := success output |}.

Definition process_item (item : ResponseItem) (policy : TruncationPolicy) : result Empty_set ResponseItem :=
  let policy_with_serialization_budget := policy_mul policy f64_1_2 in
  match item with
  | FunctionCallOutput call_id output =>
      FunctionCallOutput call_id <$> truncate_function_output_payload output policy_with_serialization_budget
  | CustomToolCallOutput call_id name output =>
      CustomToolCallOutput call_id name <$> truncate_function_output_payload output policy_with_serialization_budget
  | item => Ok item
  end.

Fixpoint record_items (l : list ResponseItem) (policy : TruncationPolicy) (h : ContextManager)
    : result Empty_set ContextManager :=
  match l with
  | [] => Ok h
  | item :: l =>
      if negb (is_api_message item) && negb (is_ghost item) then record_items l policy h
      else
        processed ← process_item item policy;
        record_items l policy (with_items (items h ++ [processed]) h)
  end.

(** ** Token usage *)

(** [i64] addition and subtraction: a debug build panics on overflow, a release
    build wraps around. *)
Definition i64_min : Z := - 2 ^ 63.
Definition i64_wrap (z : Z) : Z := ((z + 2 ^ 63) mod 2 ^ 64 - 2 ^ 63)%Z.
Definition i64_checked (z : Z) : result Empty_set Z :=
  if ((i64_min <=? z) && (z <=? i64_max))%Z then Ok z else if debug_assertions then Crash else Ok (i64_wrap z).
Definition i64_saturating_add (a b : Z) : Z := Z.max i64_min (Z.min (a + b) i64_max).
Definition i64_saturating_sub (a b : Z) : Z := Z.max i64_min (Z.min (a - b) i64_max).

Definition add_assign (a b : TokenUsage) : result Empty_set TokenUsage :=
  i ← i64_checked (input_tokens a + input_tokens b);
  c ← i64_checked (cached_input_tokens a + cached_input_tokens b);
  o ← i64_checked (output_tokens a + output_tokens b);
  r ← i64_checked (reasoning_output_tokens a + reasoning_output_tokens b);
  t ← i64_checked (total_tokens a + total_tokens b);
  Ok (Build_TokenUsage i c o r t).

Definition append_last_usage (usage : TokenUsage) (info : TokenUsageInfo) : result Empty_set TokenUsageInfo :=
  total ← add_assign (total_token_usage info) usage;
  Ok {| total_token_usage := total; last_token_usage := usage; model_context_window := model_context_window info |}.

Definition new_or_append (info : option TokenUsageInfo) (last : option TokenUsage) (window : option Z)
    : result Empty_set (option TokenUsageInfo) :=
  match info, last with
  | None, None => Ok None
  | _, _ =>
      let info := default {| total_token_usage := TokenUsage_default; last_token_usage := TokenUsage_default;
                             model_context_window := window |} info in
      info ← match last with Some last => append_last_usage last info | None => Ok info end;
      Ok (Some match window with
               | Some w => {| total_token_usage := total_token_usage info; last_token_usage := last_token_usage info;
                              model_context_window := Some w |}
               | None => info
               end)
  end.

Definition update_token_info (usage : TokenUsage) (window : option Z) (h : ContextManager)
    : result Empty_set ContextManager :=
  info ← new_or_append (token_info h) (Some usage) window;
  Ok (set_token_info info h).

Definition fill_to_context_window (context_window : Z) (info : TokenUsageInfo) : result Empty_set TokenUsageInfo :=
  d ← i64_checked (context_window - total_tokens (total_token_usage info));
  Ok {| total_token_usage := Build_TokenUsage 0 0 0 0 context_window;
        last_token_usage := Build_TokenUsage 0 0 0 0 (Z.max d 0);
        model_context_window := Some context_window |}.
Definition full_context_window (context_window : Z) : result Empty_set TokenUsageInfo :=
  fill_to_context_window context_window
    {| total_token_usage := TokenUsage_default; last_token_usage := TokenUsage_default;
       model_context_window := Some context_window |}.
Definition set_token_usage_full (context_window : Z) (h : ContextManager) : result Empty_set ContextManager :=
  info ← match token_info h with
         | Some info => fill_to_context_window context_window info
         | None => full_context_window context_window
         end;
  Ok (set_token_info (Some info) h).

(** ** Estimates *)

(** serde_json on an item, when it succeeds; base64 and the image decoder on
    the payload of a data URL: the size of the image. *)
Variable to_json : ResponseItem → option str.
Variable image_dimensions : str → option (Z * Z).

Definition to_i64 (n : Z) : Z := Z.min n i64_max.
Definition estimate_reasoning_length (encoded_len : Z) : Z :=
  saturating_sub (saturating_mul encoded_len 3 / 4) 650.

(** [s.get(..p.len())] compared without case, for an ASCII [p]. *)
Definition starts_with_ignore_case (s p : str) : bool :=
  bool_decide (to_ascii_lowercase (take (length p) s) = to_ascii_lowercase p).
Definition ends_with_ignore_case (s p : str) : bool :=
  bool_decide (to_ascii_lowercase (drop (length s - length p) s) = to_ascii_lowercase p).
Definition eq_ignore_ascii_case (a b : str) : bool := bool_decide (to_ascii_lowercase a = to_ascii_lowercase b).

Definition parse_base64_image_data_url (url : str) : option str :=
  if negb (starts_with_ignore_case url (lit "data:")) then None
  else
    '(metadata, payload) ← split_once 44 url;
    let metadata_without_scheme := drop 5 metadata in
    match split_on 59 metadata_without_scheme with
    | mime_type :: metadata_parts =>
        if negb (starts_with_ignore_case mime_type (lit "image/")) then None
        else if negb (existsb (λ part, eq_ignore_ascii_case part (lit "base64")) metadata_parts) then None
        else Some payload
    | [] => None
    end.

Definition RESIZED_IMAGE_BYTES_ESTIMATE : Z := 7373.
Definition ORIGINAL_IMAGE_PATCH_SIZE : Z := 32.

Definition estimate_original_image_bytes (image_url : str) : option Z :=
  payload ← parse_base64_image_data_url image_url;
  '(width, height) ← image_dimensions payload;
  let patches n := (i64_saturating_add n (ORIGINAL_IMAGE_PATCH_SIZE - 1) / ORIGINAL_IMAGE_PATCH_SIZE)%Z in
  let patch_count := Z.min (patches width * patches height) i64_max in
  Some (to_i64 (approx_bytes_for_tokens patch_count)).

Definition accumulate (image_url : str) (detail : option ImageDetail) (acc : Z * Z) : Z * Z :=
  match parse_base64_image_data_url image_url with
  | Some payload =>
      (i64_saturating_add acc.1 (to_i64 (blen payload)),
       i64_saturating_add acc.2
         match detail with
         | Some Original => default RESIZED_IMAGE_BYTES_ESTIMATE (estimate_original_image_bytes image_url)
         | _ => RESIZED_IMAGE_BYTES_ESTIMATE
         end)
  | None => acc
  end.

Definition image_data_url_estimate_adjustment (item : ResponseItem) : Z * Z :=
  match item with
  | Message _ content _ =>
      foldl (λ acc c, match c with InputImage url detail => accumulate url detail acc | _ => acc end) (0, 0)%Z content
  | FunctionCallOutput _ output | CustomToolCallOutput _ _ output =>
      match body output with
      | ContentItems l =>
          foldl (λ acc c, match c with OutputInputImage url detail => accumulate url detail acc | _ => acc end)
            (0, 0)%Z l
      | Text _ => (0, 0)%Z
      end
  | _ => (0, 0)%Z
  end.

Definition estimate_response_item_model_visible_bytes (item : ResponseItem) : Z :=
  match item with
  | GhostSnapshot _ => 0
  | Reasoning (Some content) _ | Compaction content => to_i64 (estimate_reasoning_length (blen content))
  | item =>
      let raw := match to_json item with Some serialized => to_i64 (blen serialized) | None => 0%Z end in
      let '(payload_bytes, replacement_bytes) := image_data_url_estimate_adjustment item in
      if ((payload_bytes =? 0) || (replacement_bytes =? 0))%Z then raw
      else i64_saturating_add (i64_saturating_sub raw payload_bytes) replacement_bytes
  end.

Definition estimate_item_token_count (item : ResponseItem) : Z :=
  approx_tokens_from_byte_count_i64 (estimate_response_item_model_visible_bytes item).

Definition saturating_sum (f : ResponseItem → Z) (l : list ResponseItem) : Z :=
  foldl (λ acc i, i64_saturating_add acc (f i)) 0%Z l.

Definition estimate_token_count_with_base_instructions (base_instructions : str) (h : ContextManager) : Z :=
  i64_saturating_add (to_i64 (approx_token_count base_instructions)) (saturating_sum estimate_item_token_count (items h)).

Definition is_model_generated_item (item : ResponseItem) : bool :=
  match item with
  | Message role _ _ => bool_decide (role = lit "assistant")
  | FunctionCallOutput _ _ | ToolSearchOutput _ _ _ _ | CustomToolCallOutput _ _ _
  | GhostSnapshot _ | OtherItem => false
  | _ => true
  end.

Definition is_codex_generated_item (item : ResponseItem) : bool :=
  match item with
  | FunctionCallOutput _ _ | ToolSearchOutput _ _ _ _ | CustomToolCallOutput _ _ _ => true
  | Message role _ _ => bool_decide (role = lit "developer")
  | _ => false
  end.

(** [Iterator::rposition]. *)
Fixpoint rposition (p : ResponseItem → bool) (l : list ResponseItem) : option nat :=
  match l with
  | [] => None
  | i :: l => match rposition p l with Some n => Some (S n) | None => if p i then Some 0 else None end
  end.

Definition items_after_last_model_generated_item (h : ContextManager) : list ResponseItem :=
  drop (match rposition is_model_generated_item (items h) with Some index => S index | None => length (items h) end)
    (items h).

(** ** Turn boundaries *)

(** quick_xml on a hook prompt: its text and the id of its run. *)
Variable from_xml_str : str → option (str * str).
(** serde_json on an inter-agent communication. *)
Variable is_inter_agent_json : str → bool.

Definition parse_hook_prompt_fragment (text : str) : option (str * str) :=
  '(text, hook_run_id) ← from_xml_str (trim text);
  if bool_decide (trim hook_run_id = []) then None else Some (text, hook_run_id).

(** [ContextualUserFragment::matches_text] for the given markers. *)
Definition matches_text (markers : string * string) (text : str) : bool :=
  let start_marker := lit markers.1 in
  let end_marker := lit markers.2 in
  if bool_decide (start_marker = []) || bool_decide (end_marker = []) then false
  else
    let trimmed := trim_start text in
    starts_with_ignore_case trimmed start_marker && ends_with_ignore_case (trim_end trimmed) end_marker.

Definition CONTEXTUAL_USER_FRAGMENTS : list (string * string) :=
  [("# AGENTS.md instructions for ", "</INSTRUCTIONS>"); ("<environment_context>", "</environment_context>");
   ("<skill>", "</skill>"); ("<user_shell_command>", "</user_shell_command>");
   ("<turn_aborted>", "</turn_aborted>"); ("<subagent_notification>", "</subagent_notification>")]%string.

Definition is_standard_contextual_user_text (text : str) : bool :=
  existsb (λ fragment, matches_text fragment text) CONTEXTUAL_USER_FRAGMENTS.

Definition is_contextual_user_fragment (c : ContentItem) : bool :=
  match c with
  | InputText text =>
      match parse_hook_prompt_fragment text with Some _ => true | None => is_standard_contextual_user_text text end
  | _ => false
  end.
Definition is_contextual_user_message_content (message : list ContentItem) : bool :=
  existsb is_contextual_user_fragment message.

Definition CONTEXTUAL_DEVELOPER_PREFIXES : list string :=
  ["<permissions instructions>"; "<model_switch>"; "<collaboration_mode>"; "<realtime_conversation>";
   "<personality_spec>"]%string.
Definition is_contextual_dev_fragment (c : ContentItem) : bool :=
  match c with
  | InputText text =>
      existsb (λ prefix, starts_with_ignore_case (trim_start text) (lit prefix)) CONTEXTUAL_DEVELOPER_PREFIXES
  | _ => false
  end.
Definition is_contextual_dev_message_content (message : list ContentItem) : bool :=
  existsb is_contextual_dev_fragment message.
Definition has_non_contextual_dev_message_content (message : list ContentItem) : bool :=
  existsb (λ c, negb (is_contextual_dev_fragment c)) message.

Definition is_inter_agent_instruction_content (content : list ContentItem) : bool :=
  match content with
  | [InputText text] | [OutputText text] => is_inter_agent_json text
  | _ => false
  end.

Definition is_user_turn_boundary (item : ResponseItem) : bool :=
  match item with
  | Message role content _ =>
      (bool_decide (role = lit "user") && negb (is_contextual_user_message_content content))
      || (bool_decide (role = lit "assistant") && is_inter_agent_instruction_content content)
  | _ => false
  end.

Fixpoint positions_from (idx : nat) (l : list ResponseItem) : list nat :=
  match l with
  | [] => []
  | i :: l => (if is_user_turn_boundary i then [idx] else []) ++ positions_from (S idx) l
  end.
Definition user_message_positions (l : list ResponseItem) : list nat := positions_from 0 l.

(** ** Rollback *)

(** The loop of [trim_pre_turn_context_updates]; [cut_idx] goes down to
    [first_instruction_turn_idx] at most.  The flag says whether the reference
    context is cleared. *)
Fixpoint trim_context (snapshot : list ResponseItem) (first_instruction_turn_idx cut_idx : nat) (clear : bool)
    : result Empty_set (nat * bool) :=
  match cut_idx with
  | 0 => Ok (0, clear)
  | S cut =>
      if first_instruction_turn_idx <? cut_idx then
        item ← expect (snapshot !! cut);
        match item with
        | Message role content _ =>
            if bool_decide (role = lit "developer") && is_contextual_dev_message_content content then
              trim_context snapshot first_instruction_turn_idx cut
                (clear || has_non_contextual_dev_message_content content)
            else if bool_decide (role = lit "user") && is_contextual_user_message_content content then
              trim_context snapshot first_instruction_turn_idx cut clear
            else Ok (cut_idx, clear)
        | _ => Ok (cut_idx, clear)
        end
      else Ok (cut_idx, clear)
  end.

Definition trim_pre_turn_context_updates (snapshot : list ResponseItem) (first_instruction_turn_idx cut_idx : nat)
    (h : ContextManager) : result Empty_set (ContextManager * nat) :=
  '(cut_idx, clear) ← trim_context snapshot first_instruction_turn_idx cut_idx false;
  Ok (if (clear : bool) then set_reference_context_item None h else h, cut_idx).

Definition drop_last_n_user_turns (num_turns : nat) (h : ContextManager) : result Empty_set ContextManager :=
  if num_turns =? 0 then Ok h
  else
    let snapshot := items h in
    match user_message_positions snapshot with
    | [] => Ok (replace snapshot h)
    | (first_instruction_turn_idx :: _) as user_positions =>
        cut_idx ← (if length user_positions <=? num_turns then Ok first_instruction_turn_idx
                   else expect (user_positions !! (length user_positions - num_turns)));
        '(h, cut_idx) ← trim_pre_turn_context_updates snapshot first_instruction_turn_idx cut_idx h;
        if cut_idx <=? length snapshot then Ok (replace (take cut_idx snapshot) h) else Crash
    end.

(** ** The last turn's images and the total usage *)

Definition has_image (l : list OutputItem) : bool := existsb is_image l.

Definition replace_last_turn_images (placeholder : str) (h : ContextManager) : ContextManager * bool :=
  match rposition (λ i, match i with FunctionCallOutput _ _ => true | _ => is_user_turn_boundary i end) (items h) with
  | None => (h, false)
  | Some index =>
      match items h !! index with
      | Some (FunctionCallOutput call_id output) =>
          match body output with
          | Text _ => (h, false)
          | ContentItems l =>
              let item := FunctionCallOutput call_id
                {| body := ContentItems (replace_image placeholder <$> l); success := success output |} in
              let h' := with_items (<[index := item]> (items h)) h in
              if has_image l then (bump_version h', true) else (h', false)
          end
      | _ => (h, false)
      end
  end.

Definition is_encrypted_reasoning (i : ResponseItem) : bool :=
  match i with Reasoning (Some _) _ => true | _ => false end.

Definition get_non_last_reasoning_items_tokens (h : ContextManager) : Z :=
  match rposition is_user_turn_boundary (items h) with
  | None => 0
  | Some last_user_index =>
      saturating_sum estimate_item_token_count (filter is_encrypted_reasoning (take last_user_index (items h)))
  end.

Definition get_total_token_usage (server_reasoning_included : bool) (h : ContextManager) : Z :=
  let last_tokens := match token_info h with Some info => total_tokens (last_token_usage info) | None => 0%Z end in
  let after := saturating_sum estimate_item_token_count (items_after_last_model_generated_item h) in
  if server_reasoning_included then i64_saturating_add last_tokens after
  else i64_saturating_add (i64_saturating_add last_tokens (get_non_last_reasoning_items_tokens h)) after.
End History.
End History.
