(* ===== verification/HistoryFacts.v ===== *)
(** * The conversation history: theorems

    Normalization pairs calls with outputs, removal keeps the pairs, and a
    rollback drops whole turns. *)
From S2P Require Import Prelude Str Truncate TruncateFacts History.
Import Truncate History.

Section Facts.
Context {P Value T : Type}.
Abbreviation RI := (@ResponseItem P Value).

(** ** Keys *)

(** Calls and outputs are matched by kind and id; function and local shell
    calls share their outputs. *)
Inductive call_kind : Type := FunctionKind | SearchKind | CustomKind.
#[export] Instance call_kind_eq_dec : EqDecision call_kind.
Proof. solve_decision. Defined.

Definition call_key (i : RI) : option (call_kind * str) :=
  match i with
  | FunctionCall id _ | LocalShellCall (Some id) _ => Some (FunctionKind, id)
  | ToolSearchCall (Some id) _ => Some (SearchKind, id)
  | CustomToolCall id _ => Some (CustomKind, id)
  | _ => None
  end.
Definition output_key (i : RI) : option (call_kind * str) :=
  match i with
  | FunctionCallOutput id _ => Some (FunctionKind, id)
  | ToolSearchOutput (Some id) _ _ _ => Some (SearchKind, id)
  | CustomToolCallOutput id _ _ => Some (CustomKind, id)
  | _ => None
  end.
(** The outputs that may stand alone are those of searches run by the server. *)
Definition bound_key (i : RI) : option (call_kind * str) :=
  match i with
  | ToolSearchOutput _ _ execution _ => if bool_decide (execution = lit "server") then None else output_key i
  | _ => output_key i
  end.

Definition has_call (l : list RI) k : bool := bool_decide (k ∈ omap call_key l).
Definition has_output (l : list RI) k : bool := bool_decide (k ∈ omap output_key l).

(** Every call has an output and every bound output a call. *)
Definition paired (l : list RI) : Prop :=
  (∀ k, k ∈ omap call_key l → k ∈ omap output_key l) ∧ (∀ k, k ∈ omap bound_key l → k ∈ omap call_key l).

Definition synthetic (k : call_kind * str) : RI :=
  match k with
  | (FunctionKind, id) => FunctionCallOutput id aborted
  | (SearchKind, id) => ToolSearchOutput (Some id) (lit "completed") (lit "client") []
  | (CustomKind, id) => CustomToolCallOutput id None aborted
  end.

Definition fill (all : list RI) (i : RI) : list RI :=
  i :: match call_key i with Some k => if has_output all k then [] else [synthetic k] | None => [] end.
Definition orphan (all : list RI) (i : RI) : bool :=
  match bound_key i with Some k => negb (has_call all k) | None => false end.

(** What normalization does to the items, images apart. *)
Definition completed (l : list RI) : list RI := filter (λ i, negb (orphan l i)) (l ≫= fill l).

Lemma existsb_key {K} `{EqDecision K} (f : RI → bool) (g : RI → option K) k l :
  (∀ i, f i = bool_decide (g i = Some k)) → existsb f l = bool_decide (k ∈ omap g l).
Proof.
  intros Hf. apply eq_true_iff_eq. rewrite existsb_exists, bool_decide_eq_true, list_elem_of_omap.
  split; intros (i&Hi&Hk); exists i; rewrite list_elem_of_In in *; rewrite Hf, bool_decide_eq_true in *; auto.
Qed.

Lemma is_output_of_key l id : existsb (is_output_of id) l = has_output l (FunctionKind, id).
Proof. apply existsb_key. intros []; simpl; repeat case_match; repeat case_bool_decide; naive_solver. Qed.
Lemma is_search_output_of_key l id : existsb (is_search_output_of id) l = has_output l (SearchKind, id).
Proof. apply existsb_key. intros []; simpl; repeat case_match; repeat case_bool_decide; naive_solver. Qed.
Lemma is_custom_output_of_key l id : existsb (is_custom_output_of id) l = has_output l (CustomKind, id).
Proof. apply existsb_key. intros []; simpl; repeat case_match; repeat case_bool_decide; naive_solver. Qed.

(** Calls and outputs whose absence a debug build panics on. *)
Definition noisy_call (all : list RI) (i : RI) : bool :=
  match i with
  | LocalShellCall (Some id) _ => negb (has_output all (FunctionKind, id))
  | CustomToolCall id _ => negb (has_output all (CustomKind, id))
  | _ => false
  end.

Lemma missing_output_spec dbg all i :
  missing_output dbg all i =
    if dbg && noisy_call all i then Crash
    else Ok (k ← call_key i; if has_output all k then None else Some (synthetic k)).
Proof.
  destruct i as [| |[id|]|id|[id|]| |id| | | | | | |]; simpl; rewrite ?andb_false_r; try done;
    rewrite ?is_output_of_key, ?is_search_output_of_key, ?is_custom_output_of_key;
    destruct (has_output _ _), dbg; done.
Qed.

Lemma vec_insert_app (pre : list RI) i rest x :
  vec_insert (length pre + 1) x (pre ++ i :: rest) = Ok (pre ++ i :: x :: rest).
Proof.
  unfold vec_insert. rewrite (proj2 (Nat.leb_le _ _)) by (rewrite length_app; simpl; lia).
  rewrite take_app_add, drop_app_add. simpl. by rewrite drop_0, <-app_assoc.
Qed.

Lemma insert_all_app (ms ms' : list (nat * RI)) l :
  insert_all (ms ++ ms') l = insert_all ms l ≫= insert_all ms'.
Proof.
  revert l. induction ms as [|[idx x] ms IH]; intros l; [done|]. simpl.
  destruct (vec_insert _ _ _); simpl; [apply IH|done..].
Qed.

Lemma ensure_loop dbg all pre rest :
  (∃ ms, collect_missing dbg all (length pre) rest = Ok ms
    ∧ insert_all (reverse ms) (pre ++ rest) = Ok (pre ++ (rest ≫= fill all))
    ∧ (dbg = true → ∀ i, i ∈ rest → noisy_call all i = false))
  ∨ (collect_missing dbg all (length pre) rest = Crash ∧ dbg = true ∧ ∃ i, i ∈ rest ∧ noisy_call all i = true).
Proof.
  revert pre. induction rest as [|i rest IH]; intros pre; simpl.
  { left. exists []. split_and!; [done..|]. by intros _ i []%elem_of_nil. }
  rewrite missing_output_spec. destruct (dbg && noisy_call all i) eqn:Hn.
  { right. apply andb_true_iff in Hn as [-> Hn]. split_and!; [done..|]. exists i. split; [by left|done]. }
  cbn [mbind result_bind]. specialize (IH (pre ++ [i])). rewrite length_app, Nat.add_1_r in IH.
  destruct IH as [(ms&->&Hins&Hq)|(->&->&j&Hj&Hnj)].
  2: { right. split_and!; [done..|]. exists j. split; [by right|done]. }
  left. cbn [mbind result_bind]. eexists. split; [done|]. split.
  - rewrite <-app_assoc in Hins. simpl in Hins. unfold fill at 1. destruct (call_key i) as [k|]; simpl.
    + destruct (has_output all k); simpl; [by rewrite Hins, <-app_assoc|].
      rewrite reverse_cons, insert_all_app, Hins. cbn [mbind result_bind insert_all]. rewrite <-app_assoc. simpl.
      by rewrite vec_insert_app.
    + by rewrite Hins, <-app_assoc.
  - intros -> j [->|Hj]%elem_of_cons; [by destruct (noisy_call all i)|auto].
Qed.

Lemma retain_output_spec dbg all i :
  retain_output dbg all i = if dbg && orphan all i then Crash else Ok (negb (orphan all i)).
Proof.
  assert (Hf : ∀ id, bool_decide (id ∈ function_call_ids all) || bool_decide (id ∈ local_shell_call_ids all)
                     = has_call all (FunctionKind, id)).
  { intros id. unfold has_call, function_call_ids, local_shell_call_ids. apply eq_true_iff_eq.
    rewrite orb_true_iff, !bool_decide_eq_true, !list_elem_of_omap. split.
    - intros [(j&Hj&Hk)|(j&Hj&Hk)]; exists j; destruct j; simplify_eq/=; auto.
    - intros (j&Hj&Hk). destruct j as [| |[]| |[]| | | | | | | | |]; simplify_eq/=; [right|left]; eexists; eauto. }
  assert (Hc : ∀ id, bool_decide (id ∈ custom_tool_call_ids all) = has_call all (CustomKind, id)).
  { intros id. unfold has_call, custom_tool_call_ids. apply bool_decide_ext. rewrite !list_elem_of_omap.
    split; intros (j&Hj&Hk); exists j; destruct j as [| |[]| |[]| | | | | | | | |]; simplify_eq/=; auto. }
  assert (Hs : ∀ id, bool_decide (id ∈ tool_search_call_ids all) = has_call all (SearchKind, id)).
  { intros id. unfold has_call, tool_search_call_ids. apply bool_decide_ext. rewrite !list_elem_of_omap.
    split; intros (j&Hj&Hk); exists j; destruct j as [| |[]| |[]| | | | | | | | |]; simplify_eq/=; auto. }
  unfold orphan. destruct i as [| | | | |id out| |id name out|[id|] st ex tools| | | | |]; simpl;
    rewrite ?Hf, ?Hc, ?Hs, ?andb_false_r; try done; try case_bool_decide; simpl; rewrite ?andb_false_r;
    try done; destruct (has_call _ _), dbg; done.
Qed.

Lemma retain_spec dbg all l :
  (retain dbg all l = Ok (filter (λ i, negb (orphan all i)) l) ∧ (dbg = true → ∀ i, i ∈ l → orphan all i = false))
  ∨ (retain dbg all l = Crash ∧ dbg = true ∧ ∃ i, i ∈ l ∧ orphan all i = true).
Proof.
  induction l as [|i l IH]; simpl; [left; split; [done|]; by intros _ i []%elem_of_nil|].
  rewrite retain_output_spec. destruct (dbg && orphan all i) eqn:Ho.
  { right. apply andb_true_iff in Ho as [-> Ho]. split_and!; [done..|]. exists i. split; [by left|done]. }
  cbn [mbind result_bind]. destruct IH as [[-> Hq]|(->&->&j&Hj&Hoj)].
  2: { right. split_and!; [done..|]. exists j. split; [by right|done]. }
  left. cbn [mbind result_bind]. split.
  - rewrite filter_cons. by destruct (orphan all i).
  - intros -> j [->|Hj]%elem_of_cons; [by destruct (orphan all i)|auto].
Qed.

(** ** Normalization *)

Lemma synthetic_keys k : call_key (synthetic k) = None ∧ output_key (synthetic k) = Some k ∧ bound_key (synthetic k) = Some k.
Proof. by destruct k as [[] id]. Qed.

Lemma call_output_exclusive i : is_Some (call_key i) → output_key i = None.
Proof. destruct i as [| |[]| |[]| | | |[]| | | | |]; simpl; try done; by intros []. Qed.

Lemma bound_output i k : bound_key i = Some k → output_key i = Some k.
Proof. destruct i as [| | | | | | | |[]| | | | |]; simpl; try done; by case_bool_decide. Qed.

Lemma elem_of_fill all i j : j ∈ fill all i ↔ j = i ∨ ∃ k, call_key i = Some k ∧ has_output all k = false ∧ j = synthetic k.
Proof.
  unfold fill. rewrite elem_of_cons. destruct (call_key i) as [k|]; [|set_solver].
  destruct (has_output all k) eqn:Hk; [rewrite elem_of_nil|rewrite list_elem_of_singleton]; naive_solver congruence.
Qed.

Lemma filled_calls (all l : list RI) : omap call_key (l ≫= fill all) = omap call_key l.
Proof.
  induction l as [|i l IH]; [done|]. cbn [mbind list_bind]. rewrite omap_app. simpl. rewrite IH.
  destruct (call_key i) as [k|]; [|done]. destruct (has_output all k); [done|]. simpl.
  by rewrite (proj1 (synthetic_keys k)).
Qed.

Lemma orphan_call all i : is_Some (call_key i) → orphan all i = false.
Proof.
  intros Hi. unfold orphan. destruct (bound_key i) eqn:Hb; [|done]. apply bound_output in Hb.
  by rewrite call_output_exclusive in Hb.
Qed.

Lemma kept_calls (all l : list RI) : omap call_key (filter (λ i, negb (orphan all i)) l) = omap call_key l.
Proof.
  induction l as [|i l IH]; [done|]. rewrite filter_cons. case_decide as Hd; cbn [omap list_omap]; rewrite <-IH; [done|].
  rewrite Is_true_true, negb_true_iff, Bool.not_false_iff_true in Hd.
  destruct (call_key i) as [k|] eqn:Hk; [|done]. rewrite orphan_call in Hd; [done|by rewrite Hk].
Qed.

Lemma completed_calls l : omap call_key (completed l) = omap call_key l.
Proof. unfold completed. by rewrite kept_calls, filled_calls. Qed.

Lemma elem_of_completed l j :
  j ∈ completed l ↔ orphan l j = false ∧ (j ∈ l ∨ ∃ i k, i ∈ l ∧ call_key i = Some k ∧ has_output l k = false ∧ j = synthetic k).
Proof.
  unfold completed. rewrite list_elem_of_filter, list_elem_of_bind. setoid_rewrite elem_of_fill.
  rewrite Is_true_true, negb_true_iff. naive_solver.
Qed.

Lemma has_call_spec l k : has_call l k = true ↔ k ∈ omap call_key l.
Proof. apply bool_decide_eq_true. Qed.

Lemma completed_paired l : paired (completed l).
Proof.
  split; intros k.
  - rewrite completed_calls. intros Hk. apply list_elem_of_omap. destruct (has_output l k) eqn:Ho.
    + apply bool_decide_eq_true, list_elem_of_omap in Ho as (o&Hin&Hko). exists o. split; [|done].
      apply elem_of_completed. split; [|by left]. unfold orphan. destruct (bound_key o) as [k'|] eqn:Hb; [|done].
      apply bound_output in Hb. rewrite Hko in Hb. injection Hb as <-. apply negb_false_iff. by apply has_call_spec.
    + exists (synthetic k). split; [|apply synthetic_keys].
      pose proof Hk as (i&Hi&Hki)%list_elem_of_omap. apply elem_of_completed. split; [|by right; exists i, k].
      unfold orphan. rewrite (proj2 (proj2 (synthetic_keys k))). apply negb_false_iff. by apply has_call_spec.
  - rewrite completed_calls. intros (o&[Ho _]%elem_of_completed&Hb)%list_elem_of_omap. unfold orphan in Ho.
    rewrite Hb in Ho. by apply has_call_spec, negb_false_iff.
Qed.

Lemma paired_completed l : paired l → completed l = l.
Proof.
  intros [Hc Ho]. unfold completed.
  assert (Hfill : ∀ rest, (∀ i, i ∈ rest → i ∈ l) → rest ≫= fill l = rest).
  { induction rest as [|i rest IH]; intros Hsub; [done|]. cbn [mbind list_bind].
    rewrite IH by (intros; apply Hsub; by right). unfold fill. destruct (call_key i) as [k|] eqn:Hk; [|done].
    assert (has_output l k = true) as ->; [|done]. apply bool_decide_eq_true, Hc, list_elem_of_omap.
    exists i. split; [apply Hsub; by left|done]. }
  rewrite Hfill by done. apply filter_all. intros i Hi. apply Is_true_true, negb_true_iff.
  unfold orphan. destruct (bound_key i) as [k|] eqn:Hb; [|done]. apply negb_false_iff, has_call_spec, Ho.
  apply list_elem_of_omap. eauto.
Qed.

Lemma strip_keys i :
  call_key (strip_item i) = call_key i ∧ output_key (strip_item i) = output_key i ∧ bound_key (strip_item i) = bound_key i.
Proof. by destruct i. Qed.

Lemma omap_strip {K} (g : RI → option K) (l : list RI) : (∀ i, g (strip_item i) = g i) → omap g (strip_item <$> l) = omap g l.
Proof. intros Hg. induction l as [|i l IH]; [done|]. rewrite fmap_cons. cbn [omap list_omap]. by rewrite Hg, IH. Qed.

Lemma strip_paired (l : list RI) : paired (strip_item <$> l) ↔ paired l.
Proof. unfold paired. by rewrite !(omap_strip _ l) by (intros; apply strip_keys). Qed.

Definition content_free (c : ContentItem) : bool := match c with InputImage _ _ => false | _ => true end.
Definition payload_free (o : FunctionCallOutputPayload) : bool :=
  match body o with Text _ => true | ContentItems l => negb (has_image l) end.
Definition image_free (i : RI) : bool :=
  match i with
  | Message _ content _ => forallb content_free content
  | FunctionCallOutput _ o | CustomToolCallOutput _ _ o => payload_free o
  | ImageGenerationCall r _ => bool_decide (r = [])
  | _ => true
  end.

Lemma strip_output_free o : payload_free (strip_output o) = true.
Proof.
  unfold strip_output, payload_free. destruct (body o) as [|l] eqn:Hb; [by rewrite Hb|]. simpl.
  clear Hb. induction l as [|[] l IH]; [done|exact IH..].
Qed.

Lemma strip_free i : image_free (strip_item i) = true.
Proof.
  destruct i as [role content rest| | | | | | | | | | | | |]; simpl; try done; try apply strip_output_free.
  induction content as [|[] content IH]; [done|exact IH..].
Qed.

Lemma strip_idemp (i : RI) : strip_item (strip_item i) = strip_item i.
Proof.
  assert (∀ o, strip_output (strip_output o) = strip_output o) as Ho.
  { intros o. unfold strip_output. destruct (body o) as [|l] eqn:Hb; [by rewrite Hb|]. simpl. do 2 f_equal.
    rewrite <-list_fmap_compose. apply list_fmap_ext. by intros ? []. }
  destruct i; simpl; rewrite ?Ho; try done. f_equal. rewrite <-list_fmap_compose. apply list_fmap_ext. by intros ? [].
Qed.

(** The normalized items, images included. *)
Definition normalized (supports_images : bool) (l : list RI) : list RI :=
  strip_images_when_unsupported supports_images (completed l).

Lemma normalize_outcome dbg sup l :
  (normalize_history dbg sup l = Ok (normalized sup l)
    ∧ (dbg = true → ∀ i, i ∈ l → noisy_call l i = false ∧ orphan l i = false))
  ∨ (normalize_history dbg sup l = Crash ∧ dbg = true ∧ ∃ i, i ∈ l ∧ (noisy_call l i = true ∨ orphan l i = true)).
Proof.
  unfold normalize_history, ensure_call_outputs_present.
  destruct (ensure_loop dbg l [] l) as [(ms&Hms&Hins&Hq)|(Hms&->&i&Hi&Hn)]; simpl in Hms; rewrite Hms.
  2: { right. split_and!; [done..|]. eauto. }
  simpl in Hins |- *. rewrite Hins. cbn [mbind result_bind]. unfold remove_orphan_outputs.
  assert (Horph : ∀ j, orphan (l ≫= fill l) j = orphan l j).
  { intros j. unfold orphan, has_call. destruct (bound_key j); [|done]. by rewrite filled_calls. }
  destruct (retain_spec dbg (l ≫= fill l) (l ≫= fill l)) as [[Hr Hq']|(Hr&->&j&Hj&Hoj)]; unfold mbind in Hr |- *; rewrite Hr.
  - left. cbn [result_bind]. split.
    + unfold normalized, completed. do 2 f_equal. apply list_filter_iff. intros j. by rewrite Horph.
    + intros Hd i Hi. split; [by apply Hq|]. rewrite <-Horph. apply Hq'; [done|].
      apply list_elem_of_bind. exists i. split; [|done]. by apply elem_of_fill; left.
  - right. split_and!; [done..|]. rewrite Horph in Hoj.
    apply list_elem_of_bind in Hj as (i&[->|(k&Hk&_&->)]%elem_of_fill&Hi); [by eauto|].
    exfalso. unfold orphan in Hoj. rewrite (proj2 (proj2 (synthetic_keys k))) in Hoj. apply negb_true_iff in Hoj.
    rewrite (proj2 (has_call_spec l k)) in Hoj; [done|]. apply list_elem_of_omap. eauto.
Qed.

(** C24. In a release build normalizing a history for a prompt always
    succeeds: the result pairs every call with an output and every output with
    its call, consists of the old items in their order with an 'aborted'
    output right after each call that had none, has no images when the model
    takes none, and is a fixed point of normalizing. *)
Theorem normalize_pairs sup l :
  ∃ l', normalize_history false sup l = Ok l'
    ∧ l' = normalized sup l
    ∧ paired l'
    ∧ (sup = false → Forall (λ i, image_free i = true) l')
    ∧ normalize_history false sup l' = Ok l'.
Proof.
  assert (Hp : paired (normalized sup l)) by (unfold normalized; destruct sup; [|apply strip_paired]; apply completed_paired).
  exists (normalized sup l). split_and!; [|done|done| |].
  - destruct (normalize_outcome false sup l) as [[? _]|(_&?&_)]; done.
  - intros ->. apply Forall_forall. intros i (j&->&_)%list_elem_of_fmap. apply strip_free.
  - destruct (normalize_outcome false sup (normalized sup l)) as [[-> _]|(_&?&_)]; [|done].
    unfold normalized at 1. rewrite paired_completed by done. unfold normalized. destruct sup; [done|].
    simpl. rewrite <-list_fmap_compose. f_equal. apply list_fmap_ext. intros ? i _. apply strip_idemp.
Qed.

(** A debug build panics exactly on a shell or custom call without an output
    and on an output without its call; otherwise it does the same. *)
Lemma normalize_debug sup l :
  (normalize_history true sup l = Crash ↔ ∃ i, i ∈ l ∧ (noisy_call l i = true ∨ orphan l i = true))
  ∧ (normalize_history true sup l ≠ Crash → normalize_history true sup l = normalize_history false sup l).
Proof.
  destruct (normalize_outcome false sup l) as [[Hf _]|(_&?&_)]; [|done].
  destruct (normalize_outcome true sup l) as [[Ht Hq]|(Ht&_&Hi)]; rewrite Ht, Hf.
  - split; [|done]. split; [done|]. intros (i&Hi&Hn). destruct (Hq eq_refl i Hi). naive_solver congruence.
  - split; [|done]. naive_solver.
Qed.

(** ** Removing items with their counterparts *)

(** Each call has one output and each output one call. *)
Definition well_paired (l : list RI) : Prop := NoDup (omap call_key l) ∧ NoDup (omap output_key l) ∧ paired l.

#[local] Instance well_paired_proper : Proper ((≡ₚ) ==> iff) well_paired.
Proof. intros l l' Hl. unfold well_paired, paired. by setoid_rewrite Hl. Qed.

Definition remove_key (g : RI → option (call_kind * str)) k (l : list RI) : list RI :=
  remove_first_matching (λ i, bool_decide (g i = Some k)) l.

Lemma remove_first_ext (f f' : RI → bool) l :
  (∀ i, i ∈ l → f i = f' i) → remove_first_matching f l = remove_first_matching f' l.
Proof.
  induction l as [|i l IH]; intros Hf; [done|]. simpl. rewrite (Hf i) by by left.
  by rewrite IH by (intros; apply Hf; by right).
Qed.

(** Removing the item of a key: the keys of that kind lose it, the other
    kind's stay. *)
Lemma remove_key_keys (g g' : RI → option (call_kind * str)) k (l : list RI) :
  (∀ i, is_Some (g i) → g' i = None) → NoDup (omap g l) →
  omap g' (remove_key g k l) = omap g' l
  ∧ NoDup (omap g (remove_key g k l))
  ∧ ∀ k', k' ∈ omap g (remove_key g k l) ↔ k' ∈ omap g l ∧ k' ≠ k.
Proof.
  intros Hex. induction l as [|i l IH]; intros Hnd; [cbn; set_solver|].
  unfold remove_key in *. cbn [remove_first_matching omap list_omap] in *. case_bool_decide as Hg.
  - rewrite Hg in *. rewrite (Hex i) by (rewrite Hg; eauto). apply NoDup_cons in Hnd as [Hk Hnd].
    split_and!; [done|done|]. intros k'. rewrite elem_of_cons. naive_solver.
  - destruct (g i) as [ki|] eqn:Hi.
    + rewrite (Hex i) by (rewrite Hi; eauto). apply NoDup_cons in Hnd as [Hki Hnd].
      destruct (IH Hnd) as (Hg'&Hnd'&Hmem). cbn [omap list_omap]. rewrite (Hex i), Hi by (rewrite Hi; eauto).
      split_and!; [done|apply NoDup_cons; split; [|done]; rewrite Hmem; naive_solver|].
      intros k'. rewrite !elem_of_cons, Hmem. naive_solver congruence.
    + destruct (IH Hnd) as (Hg'&Hnd'&Hmem). cbn [omap list_omap]. rewrite Hi, Hg'. done.
Qed.

Lemma output_call_exclusive (i : RI) : is_Some (output_key i) → call_key i = None.
Proof. intros [k Hk]. destruct (call_key i) eqn:Hc; [|done]. by rewrite call_output_exclusive in Hk by (rewrite Hc; eauto). Qed.

Lemma bound_subset (l : list RI) k : k ∈ omap bound_key l → k ∈ omap output_key l.
Proof. intros (i&Hi&Hb)%list_elem_of_omap. apply list_elem_of_omap. exists i. split; [done|by apply bound_output]. Qed.

Lemma remove_first_subset f (l : list RI) i : i ∈ remove_first_matching f l → i ∈ l.
Proof.
  induction l as [|j l IH]; [done|]. simpl. destruct (f j); [by right|]. rewrite !elem_of_cons. naive_solver.
Qed.

Lemma remove_key_bound g k (l : list RI) k' : k' ∈ omap bound_key (remove_key g k l) → k' ∈ omap bound_key l.
Proof. rewrite !list_elem_of_omap. intros (i&Hi%remove_first_subset&Hb). eauto. Qed.

Lemma remove_corresponding_key (item : RI) l :
  NoDup (omap call_key l) →
  remove_corresponding_for item l =
    match call_key item, output_key item with
    | Some k, _ => remove_key output_key k l
    | None, Some k => remove_key call_key k l
    | None, None => l
    end.
Proof.
  intros Hnd. unfold remove_key.
  destruct item as [| |[id|]|id|[id|]|id|id|id|[id|]| | | | |]; simpl; try done; try (apply remove_first_ext;
    intros i _; destruct i as [| |[]| |[]| | | |[]| | | | |]; simpl; repeat case_bool_decide; naive_solver).
  destruct (existsb (is_call id) l) eqn:Hex.
  - clear -Hnd Hex. induction l as [|i l IH]; [done|]. simpl in *. destruct (is_call id i) eqn:Hi.
    { destruct i; try done. simpl in *. apply bool_decide_eq_true in Hi as ->. by rewrite bool_decide_eq_true_2. }
    rewrite bool_decide_eq_false_2; [|intros Hk; rewrite Hk in Hnd; apply NoDup_cons in Hnd as [Hin _]; apply Hin].
    + rewrite IH; [done| |done]. destruct (call_key i); [by apply NoDup_cons in Hnd as [_ ?]|done].
    + apply existsb_exists in Hex as (j&Hj%list_elem_of_In&Hjc). apply list_elem_of_omap. exists j. split; [done|].
      destruct j; try done. simpl in *. by apply bool_decide_eq_true in Hjc as ->.
  - apply remove_first_ext. intros i Hi.
    assert (is_call id i = false) as Hc.
    { destruct (is_call id i) eqn:Hc; [|done]. rewrite <-Hex. symmetry. apply existsb_exists. exists i.
      by rewrite <-list_elem_of_In. }
    destruct i as [| |[]| |[]| | | |[]| | | | |]; simpl in *; repeat case_bool_decide; naive_solver.
Qed.

Lemma remove_corresponding_paired (item : RI) l : well_paired (item :: l) → well_paired (remove_corresponding_for item l).
Proof.
  intros (Hc&Ho&Hco&Hoc). cbn [omap list_omap] in *.
  assert (NoDup (omap call_key l)) as Hcl by (destruct (call_key item); [by apply NoDup_cons in Hc as [_ ?]|done]).
  assert (NoDup (omap output_key l)) as Hol by (destruct (output_key item); [by apply NoDup_cons in Ho as [_ ?]|done]).
  rewrite remove_corresponding_key by done. destruct (call_key item) as [k|] eqn:Hk; [|destruct (output_key item) as [k|] eqn:Hko].
  - rewrite call_output_exclusive in * by (rewrite Hk; eauto).
    destruct (remove_key_keys output_key call_key k l output_call_exclusive Hol) as (Hcalls&Hnd&Hmem).
    apply NoDup_cons in Hc as [Hkl _]. split_and!; [by rewrite Hcalls|done|split].
    + intros k'. rewrite Hcalls, Hmem. intros Hk'. split; [apply Hco; by right|]. by intros ->.
    + intros k' Hb. pose proof (bound_subset _ _ Hb) as Hb'. apply Hmem in Hb' as [_ Hne]. apply remove_key_bound in Hb.
      rewrite Hcalls.
      assert (k' ∈ omap call_key (item :: l)) as Hin.
      { cbn [omap list_omap]. rewrite Hk. apply Hoc. by destruct (bound_key item); [right|]. }
      cbn [omap list_omap] in Hin. rewrite Hk in Hin. by apply elem_of_cons in Hin as [->|?].
  - destruct (remove_key_keys call_key output_key k l call_output_exclusive Hcl) as (Houts&Hnd&Hmem).
    apply NoDup_cons in Ho as [Hkl _]. split_and!; [done|by rewrite Houts|split].
    + intros k'. rewrite Houts, Hmem. intros [Hk' Hne]. by apply Hco, elem_of_cons in Hk' as [->|?].
    + intros k' Hb%remove_key_bound. rewrite Hmem. split.
      * apply Hoc. by destruct (bound_key item); [right|].
      * intros ->. by apply Hkl, bound_subset.
  - split_and!; [done..|split; [exact Hco|]]. intros k' Hb. apply Hoc.
    destruct (bound_key item) as [kb|] eqn:Hb'; [by right|done].
Qed.

(** Removing the oldest or the newest item together with its counterpart
    keeps a history paired in which each call has one output and each output
    one call; removing the newest reports whether there was one. *)
Theorem removal_keeps_pairs (h : @ContextManager P Value T) :
  well_paired (items h) →
  well_paired (items (remove_first_item h)) ∧ well_paired (items (remove_last_item h).1)
  ∧ ((remove_last_item h).2 = true ↔ items h ≠ []).
Proof.
  intros Hp. unfold remove_first_item, remove_last_item. split.
  - destruct (items h) as [|i l] eqn:Hi; [by rewrite Hi|]. by apply remove_corresponding_paired.
  - destruct (last (items h)) as [i|] eqn:Hl.
    + pose proof (last_snoc_inv _ _ Hl) as Hi. split; [|split; [|done]; intros _ Hn; by rewrite Hn in Hl].
      apply remove_corresponding_paired. eapply well_paired_proper; [|exact Hp]. rewrite Hi at 2.
      by rewrite <-Permutation_cons_append.
    + apply last_None in Hl. rewrite Hl in *. split; [simpl; by rewrite Hl|done].
Qed.

(** ** Rollback *)

Section Rollback.
Variable from_xml_str : str → option (str * str).
Variable is_inter_agent_json : str → bool.
Abbreviation boundary := (is_user_turn_boundary from_xml_str is_inter_agent_json).
Abbreviation rollback := (drop_last_n_user_turns from_xml_str is_inter_agent_json).

Definition turns (l : list RI) : nat := length (filter boundary l).

(** The injected context a rollback trims: contextual developer and user
    messages; some developer messages carry other text too. *)
Definition contextual (i : RI) : bool :=
  match i with
  | Message role content _ =>
      (bool_decide (role = lit "developer") && is_contextual_dev_message_content content)
      || (bool_decide (role = lit "user") && is_contextual_user_message_content from_xml_str content)
  | _ => false
  end.
Definition mixed (i : RI) : bool :=
  match i with
  | Message role content _ =>
      bool_decide (role = lit "developer") && is_contextual_dev_message_content content
      && has_non_contextual_dev_message_content content
  | _ => false
  end.

Lemma contextual_not_boundary i : contextual i = true → boundary i = false.
Proof.
  destruct i as [role content rest| | | | | | | | | | | | |]; simpl; try done.
  destruct (decide (role = lit "developer")) as [->|]; [done|].
  destruct (decide (role = lit "user")) as [->|]; rewrite ?bool_decide_eq_false_2 by done; [|done].
  simpl. by intros ->.
Qed.

Lemma turns_app l l' : turns (l ++ l') = turns l + turns l'.
Proof. unfold turns. by rewrite filter_app, length_app. Qed.

Lemma turns_contextual l : Forall (λ i, contextual i = true) l → turns l = 0.
Proof.
  unfold turns. induction 1 as [|i l Hi Hl IH]; [done|].
  rewrite filter_cons_False; [done|]. rewrite contextual_not_boundary by done. by intros [].
Qed.

(** The positions are those of the boundaries, in order. *)
Lemma positions_length idx l : length (positions_from from_xml_str is_inter_agent_json idx l) = turns l.
Proof.
  unfold turns. revert idx. induction l as [|i l IH]; intros idx; [done|]. cbn [positions_from]. rewrite length_app, IH.
  rewrite filter_cons. destruct (boundary i); done.
Qed.

Lemma positions_lookup idx l j pos :
  positions_from from_xml_str is_inter_agent_json idx l !! j = Some pos →
  ∃ pre i post, l = pre ++ i :: post ∧ pos = idx + length pre ∧ boundary i = true ∧ turns pre = j.
Proof.
  revert idx j. induction l as [|i l IH]; intros idx j; [done|]. cbn [positions_from]. destruct (boundary i) eqn:Hb.
  - destruct j as [|j]; [intros [= <-]; exists [], i, l; split_and!; [done|simpl; lia|done|done]|].
    intros (pre&i'&post&->&->&Hb'&<-)%IH. exists (i :: pre), i', post. split_and!; [done|simpl; lia|done|].
    unfold turns. rewrite filter_cons_True; [done|by rewrite Hb].
  - intros (pre&i'&post&->&->&Hb'&<-)%IH. exists (i :: pre), i', post. split_and!; [done|simpl; lia|done|].
    unfold turns. rewrite filter_cons_False; [done|rewrite Hb; by intros []].
Qed.

(** The trimming loop goes back over contextual items only, not past the first
    turn. *)
Lemma trim_context_spec (pre post : list RI) first clear :
  first ≤ length pre →
  ∃ kept ctx, pre = kept ++ ctx ∧ first ≤ length kept ∧ Forall (λ i, contextual i = true) ctx
    ∧ trim_context from_xml_str (pre ++ post) first (length pre) clear = Ok (length kept, clear || existsb mixed ctx).
Proof.
  revert post clear. induction pre as [|i pre IH] using rev_ind; intros post clear Hfirst.
  { exists [], []. split_and!; [done..|]. by rewrite orb_false_r. }
  rewrite length_app, Nat.add_1_r in *. cbn [trim_context]. destruct (first <? S (length pre)) eqn:Hlt.
  2: { exists (pre ++ [i]), []. rewrite app_nil_r, orb_false_r, length_app, Nat.add_1_r. split_and!; done. }
  apply Nat.ltb_lt in Hlt. rewrite <-app_assoc. simpl. rewrite list_lookup_middle by done.
  cbn [expect mbind result_bind].
  assert (Hstop : ∀ c, ∃ kept ctx, pre ++ [i] = kept ++ ctx ∧ first ≤ length kept ∧ Forall (λ i, contextual i = true) ctx
    ∧ Ok (E:=Empty_set) (S (length pre), c) = Ok (length kept, c || existsb mixed ctx)).
  { intros c. exists (pre ++ [i]), []. rewrite app_nil_r, orb_false_r, length_app, Nat.add_1_r. split_and!; done. }
  assert (Hgo : ∀ c, contextual i = true → ∃ kept ctx, pre ++ [i] = kept ++ ctx ∧ first ≤ length kept
    ∧ Forall (λ i, contextual i = true) ctx
    ∧ trim_context from_xml_str (pre ++ i :: post) first (length pre) (c || mixed i) = Ok (length kept, c || existsb mixed ctx)).
  { intros c Hi. destruct (IH (i :: post) (c || mixed i)) as (kept&ctx&->&Hk&Hctx&->); [lia|].
    exists kept, (ctx ++ [i]). rewrite <-app_assoc. split_and!; [done|done|by apply Forall_app; auto|].
    rewrite existsb_app. simpl. do 2 f_equal. destruct c, (mixed i), (existsb mixed ctx); done. }
  destruct i as [role content rest| | | | | | | | | | | | |]; try apply Hstop. simpl in Hgo.
  destruct (bool_decide (role = lit "developer") && is_contextual_dev_message_content content) eqn:Hdev.
  { exact (Hgo clear eq_refl). }
  destruct (bool_decide (role = lit "user") && _) eqn:Huser; [|apply Hstop].
  specialize (Hgo clear eq_refl). by rewrite orb_false_r in Hgo.
Qed.

(** The tentative cut is at the boundary after all but [n] turns. *)
Lemma rollback_cut n l first ps :
  n ≠ 0 → positions_from from_xml_str is_inter_agent_json 0 l = first :: ps →
  ∃ before b after pre i post,
    l = before ++ b :: after ∧ first = length before ∧ boundary b = true ∧ turns before = 0
    ∧ (if length (first :: ps) <=? n then Ok first
       else expect ((first :: ps) !! (length (first :: ps) - n))) = Ok (E:=Empty_set) (length pre)
    ∧ l = pre ++ i :: post ∧ boundary i = true ∧ turns pre = turns l - n ∧ length before ≤ length pre.
Proof.
  intros Hn Hps. pose proof (positions_length 0 l) as Hlen. pose proof (positions_lookup 0 l) as Hpos.
  rewrite Hps in *. destruct (Hpos 0 first eq_refl) as (before&b&after&Hl&->&Hb&Hbefore). simpl plus in *.
  exists before, b, after. rewrite Hlen. destruct (turns l <=? n) eqn:Hle; bool_to_prop.
  { exists before, b, after. split_and!; try done. lia. }
  assert (turns l - n < length (length before :: ps)) as Hlt by (rewrite Hlen; simpl in Hlen; lia).
  destruct (lookup_lt_is_Some_2 _ _ Hlt) as [cut Hcut]. rewrite Hcut.
  destruct (Hpos _ _ Hcut) as (pre&i&post&Hi&->&Hbi&Ht). exists pre, i, post. split_and!; try done.
  destruct (decide (length before ≤ length pre)) as [|Hgt]; [done|]. exfalso.
  assert (turns pre ≤ turns before); [|lia].
  rewrite Hl in Hi. apply app_eq_inv in Hi as [(k&->&_)|(k&->&_)]; rewrite length_app in Hgt; [rewrite turns_app|]; lia.
Qed.

(** Rolling back n turns never panics and leaves a prefix of the history
    with n turns fewer: what goes is those turns and the injected context just
    before them; the items before the first turn stay, the reference context
    is cleared exactly when a developer message among that context carried
    other text too, and the version counts the change. *)
Theorem rollback_drops_turns n (h : @ContextManager P Value T) :
  ∃ h' ctx dropped, rollback n h = Ok h'
    ∧ items h = items h' ++ ctx ++ dropped
    ∧ turns (items h') = turns (items h) - n
    ∧ Forall (λ i, contextual i = true) ctx
    ∧ (∀ i rest, dropped = i :: rest → boundary i = true)
    ∧ (∀ pre i post, items h = pre ++ i :: post → turns pre = 0 → boundary i = true → pre `prefix_of` items h')
    ∧ reference_context_item h' = (if existsb mixed ctx then None else reference_context_item h)
    ∧ token_info h' = token_info h
    ∧ history_version h' = (if n =? 0 then history_version h else saturating_add (history_version h) 1).
Proof.
  unfold drop_last_n_user_turns. destruct (n =? 0) eqn:Hn.
  { apply Nat.eqb_eq in Hn as ->. exists h, [], []. rewrite app_nil_r, Nat.sub_0_r. split_and!; try done.
    intros pre i post -> _ _. by apply prefix_app_r. }
  apply Nat.eqb_neq in Hn. unfold user_message_positions.
  pose proof (positions_length 0 (items h)) as Hlen.
  destruct (positions_from _ _ 0 (items h)) as [|first ps] eqn:Hps.
  { exists (replace (items h) h), [], []. simpl in *. rewrite app_nil_r, <-Hlen. split_and!; try done.
    intros pre i post -> _ _. by apply prefix_app_r. }
  destruct (rollback_cut n (items h) first ps Hn Hps)
    as (before&b&after&pre&i&post&Hitems&Hf&Hb&Hbefore&->&Hcut&Hi&Hturns&Hle).
  cbn [mbind result_bind]. unfold trim_pre_turn_context_updates. rewrite Hf.
  destruct (trim_context_spec pre (i :: post) (length before) false Hle) as (kept&ctx&->&Hkept&Hctx&Htrim).
  rewrite Hcut, Htrim. cbn [mbind result_bind orb].
  rewrite (proj2 (Nat.leb_le _ _)) by (rewrite !length_app; lia).
  rewrite <-app_assoc, take_app_length. eexists _, ctx, (i :: post). split; [done|].
  rewrite turns_app, (turns_contextual ctx) in Hturns by done.
  split_and!; try done; try by destruct (existsb mixed ctx).
  - simpl. rewrite (app_assoc kept), <-Hcut, <-Hturns. lia.
  - by intros ? ? [= <- _].
  - intros p q r Hpqr Hp Hq. simpl.
    assert (p `prefix_of` before) as Hpb.
    { assert (before ++ b :: after = p ++ q :: r) as Heq by (rewrite <-Hitems, Hcut, <-app_assoc; exact Hpqr).
      apply app_eq_inv in Heq as [(k&->&_)|(k&->&Hk)]; [by exists k|].
      destruct k as [|x k]; [by rewrite app_nil_r|]. injection Hk as <- _. exfalso.
      rewrite turns_app in Hp. unfold turns in Hp at 2. rewrite filter_cons_True in Hp by by rewrite Hb.
      simpl in Hp. lia. }
    etrans; [exact Hpb|]. rewrite Hcut, <-app_assoc in Hitems. apply app_eq_inv in Hitems as [(k&->&_)|(k&->&_)]; [by exists k|].
    rewrite length_app in Hkept. destruct k; [by rewrite app_nil_r|simpl in Hkept; lia].
Qed.
End Rollback.
End Facts.

(** ** A history *)

Definition sample_history : @ContextManager unit unit unit := {|
  items := [Message (lit "user") [InputText (lit "hi")] tt; FunctionCall (lit "a") tt; CustomToolCall (lit "b") tt;
            CustomToolCallOutput (lit "b") None (from_text (lit "ok")); FunctionCallOutput (lit "a") (from_text (lit "done"))];
  history_version := 0; token_info := None; reference_context_item := None |}.

Lemma removal_keeps_pairs_witness :
  well_paired (items (remove_last_item sample_history).1)
  ∧ length (items (remove_last_item sample_history).1) = 3.
Proof.
  split; [|reflexivity].
  apply (removal_keeps_pairs sample_history). split_and!.
  - apply (bool_decide_unpack _). vm_compute. exact I.
  - apply (bool_decide_unpack _). vm_compute. exact I.
  - split; intros k; cbv -[elem_of lit]; rewrite !elem_of_cons; naive_solver.
Defined.
