(* ===== verification/HeadTailBuffer.v ===== *)
(** * Capped command output

    Models [core/src/unified_exec/head_tail_buffer.rs], the buffer that keeps the
    beginning and the end of a command's output.  A byte is a number below 256;
    only lengths matter here. *)
From S2P Require Import Prelude.

Module HeadTailBuffer.

Abbreviation bytes := (list N).

(** [usize] arithmetic that saturates. *)
Definition usize_max : N := 2 ^ 64 - 1.
Definition saturating_add (a b : N) : N := N.min (a + b) usize_max.
Definition len (l : bytes) : N := N.of_nat (length l).

Record HeadTailBuffer : Type := {
  max_bytes : N;
  head_budget : N;
  tail_budget : N;
  head : list bytes;
  tail : list bytes;
  head_bytes : N;
  tail_bytes : N;
  omitted_bytes : N;
}.

Definition UNIFIED_EXEC_OUTPUT_MAX_BYTES : N := 1024 * 1024.

Definition new (max : N) : HeadTailBuffer := {|
  max_bytes := max; head_budget := max / 2; tail_budget := max - max / 2;
  head := []; tail := []; head_bytes := 0; tail_bytes := 0; omitted_bytes := 0 |}.

Definition set_head (l : list bytes) (n : N) (b : HeadTailBuffer) : HeadTailBuffer := {|
  max_bytes := max_bytes b; head_budget := head_budget b; tail_budget := tail_budget b;
  head := l; tail := tail b; head_bytes := n; tail_bytes := tail_bytes b; omitted_bytes := omitted_bytes b |}.
Definition set_tail (l : list bytes) (n omitted : N) (b : HeadTailBuffer) : HeadTailBuffer := {|
  max_bytes := max_bytes b; head_budget := head_budget b; tail_budget := tail_budget b;
  head := head b; tail := l; head_bytes := head_bytes b; tail_bytes := n; omitted_bytes := omitted |}.
Definition omit (n : N) (b : HeadTailBuffer) : HeadTailBuffer :=
  set_tail (tail b) (tail_bytes b) (saturating_add (omitted_bytes b) n) b.

Definition retained_bytes (b : HeadTailBuffer) : N := saturating_add (head_bytes b) (tail_bytes b).

(** The loop of [trim_tail_to_budget] over the chunks of the tail, with the
    number of bytes to drop; saturating subtraction is that of [N]. *)
Fixpoint trim_loop (excess : N) (chunks : list bytes) (tail_bytes omitted : N) : list bytes * N * N :=
  if (excess =? 0)%N then (chunks, tail_bytes, omitted)
  else
    match chunks with
    | [] => ([], tail_bytes, omitted)
    | front :: rest =>
        if (len front <=? excess)%N then
          trim_loop (excess - len front) rest (tail_bytes - len front)%N (saturating_add omitted (len front))
        else (drop (N.to_nat excess) front :: rest, (tail_bytes - excess)%N, saturating_add omitted excess)
    end.
Definition trim_tail_to_budget (b : HeadTailBuffer) : HeadTailBuffer :=
  let '(chunks, n, omitted) :=
    trim_loop (tail_bytes b - tail_budget b) (tail b) (tail_bytes b) (omitted_bytes b) in
  set_tail chunks n omitted b.

Definition push_to_tail (chunk : bytes) (b : HeadTailBuffer) : HeadTailBuffer :=
  if (tail_budget b =? 0)%N then omit (len chunk) b
  else if (tail_budget b <=? len chunk)%N then
    let kept := drop (N.to_nat (len chunk - tail_budget b)) chunk in
    let dropped := (len chunk - len kept)%N in
    set_tail [kept] (len kept) (saturating_add (saturating_add (omitted_bytes b) (tail_bytes b)) dropped) b
  else
    trim_tail_to_budget
      (set_tail (tail b ++ [chunk]) (saturating_add (tail_bytes b) (len chunk)) (omitted_bytes b) b).

Definition push_chunk (chunk : bytes) (b : HeadTailBuffer) : HeadTailBuffer :=
  if (max_bytes b =? 0)%N then omit (len chunk) b
  else if (head_bytes b <? head_budget b)%N then
    let remaining_head := (head_budget b - head_bytes b)%N in
    if (len chunk <=? remaining_head)%N then
      set_head (head b ++ [chunk]) (saturating_add (head_bytes b) (len chunk)) b
    else
      let head_part := take (N.to_nat remaining_head) chunk in
      let tail_part := drop (N.to_nat remaining_head) chunk in
      push_to_tail tail_part
        (if bool_decide (head_part = []) then b
         else set_head (head b ++ [head_part]) (saturating_add (head_bytes b) (len head_part)) b)
  else push_to_tail chunk b.

Definition snapshot_chunks (b : HeadTailBuffer) : list bytes := head b ++ tail b.
Definition to_bytes (b : HeadTailBuffer) : bytes := mjoin (head b) ++ mjoin (tail b).
Definition drain_chunks (b : HeadTailBuffer) : list bytes * HeadTailBuffer :=
  (head b ++ tail b, set_head [] 0 (set_tail [] 0 0 b)).

(** ** Specification *)

(** The last [n] elements. *)
Definition last_bytes (n : nat) (l : bytes) : bytes := drop (length l - n) l.

(** A buffer of the given capacity that has been fed the bytes [l]: its head is
    their first half budget, its tail the end of what follows. *)
Definition represents (l : bytes) (b : HeadTailBuffer) : Prop :=
  head_budget b = (max_bytes b / 2)%N ∧ tail_budget b = (max_bytes b - max_bytes b / 2)%N
  ∧ mjoin (head b) = take (N.to_nat (head_budget b)) l
  ∧ mjoin (tail b) = last_bytes (N.to_nat (tail_budget b)) (drop (N.to_nat (head_budget b)) l)
  ∧ head_bytes b = len (mjoin (head b)) ∧ tail_bytes b = len (mjoin (tail b))
  ∧ omitted_bytes b = N.min (len l - len (to_bytes b)) usize_max
  ∧ (max_bytes b ≤ usize_max)%N.

Lemma len_app l l' : len (l ++ l') = (len l + len l')%N.
Proof. unfold len. rewrite length_app. lia. Qed.

Lemma last_bytes_app_r n l l' : n ≤ length l' → last_bytes n (l ++ l') = last_bytes n l'.
Proof.
  intros Hn. unfold last_bytes. rewrite length_app. replace (_ - n) with (length l + (length l' - n)) by lia.
  by rewrite drop_app_add.
Qed.

Lemma last_bytes_all n l : length l ≤ n → last_bytes n l = l.
Proof. intros Hn. unfold last_bytes. replace (_ - n) with 0 by lia. done. Qed.

Lemma last_bytes_app n l l' : last_bytes n (l ++ l') = last_bytes n (last_bytes n l ++ l').
Proof.
  unfold last_bytes. rewrite !length_app, length_drop, !drop_app, drop_drop, length_drop. f_equal; f_equal; lia.
Qed.

Lemma last_bytes_length n l : length (last_bytes n l) = min n (length l).
Proof. unfold last_bytes. rewrite length_drop. lia. Qed.

Lemma saturating_add_min a b : saturating_add (N.min a usize_max) b = N.min (a + b) usize_max.
Proof. unfold saturating_add. lia. Qed.

(** The loop drops exactly the excess, oldest bytes first. *)
Lemma trim_loop_spec excess chunks n omitted :
  (excess ≤ len (mjoin chunks))%N → n = len (mjoin chunks) → (omitted ≤ usize_max)%N →
  ∃ chunks', trim_loop excess chunks n omitted = (chunks', (n - excess)%N, saturating_add omitted excess)
    ∧ mjoin chunks' = drop (N.to_nat excess) (mjoin chunks).
Proof.
  revert excess n omitted. induction chunks as [|front rest IH]; intros excess n omitted Hle Hn Ho; simpl.
  - unfold len in Hle. simpl in Hle. exists []. rewrite drop_nil. assert (excess = 0%N) as -> by lia. simpl.
    split; [|done]. f_equal; [f_equal; lia|]. unfold saturating_add. lia.
  - simpl in Hle, Hn. rewrite len_app in Hle, Hn. destruct (excess =? 0)%N eqn:Hz.
    { apply N.eqb_eq in Hz as ->. exists (front :: rest). split; [|done]. f_equal; [f_equal; lia|].
      unfold saturating_add. lia. }
    destruct (len front <=? excess)%N eqn:Hf.
    + apply N.leb_le in Hf. destruct (IH (excess - len front)%N (n - len front)%N (saturating_add omitted (len front)))
        as (chunks'&->&Hj); [lia|lia|unfold saturating_add; lia|].
      exists chunks'. split; [f_equal; [f_equal; lia|unfold saturating_add; lia]|].
      rewrite Hj. rewrite drop_app_ge by (unfold len in Hf; lia). f_equal. unfold len. lia.
    + apply N.leb_gt in Hf. eexists. split; [done|]. simpl. rewrite drop_app_le by (unfold len in Hf; lia). done.
Qed.

(** What [push_to_tail] does to a buffer whose head is full. *)
Lemma push_to_tail_spec l chunk b :
  represents l b → (max_bytes b ≠ 0)%N → N.to_nat (head_budget b) ≤ length l → represents (l ++ chunk) (push_to_tail chunk b).
Proof.
  intros (Hh&Ht&Hhead&Htail&Hhb&Htb&Hom&Hmax) Hne Hfull. unfold push_to_tail.
  assert (tail_budget b ≠ 0%N) as Hbudget by (rewrite Ht; pose proof (N.div_lt (max_bytes b) 2); lia).
  rewrite (proj2 (N.eqb_neq _ _)) by done.
  assert (Hhead' : mjoin (head b) = take (N.to_nat (head_budget b)) (l ++ chunk)) by (by rewrite take_app_le by done).
  assert (Hrest : drop (N.to_nat (head_budget b)) (l ++ chunk) = drop (N.to_nat (head_budget b)) l ++ chunk)
    by (by rewrite drop_app_le by done).
  assert (Hlen : len (to_bytes b) = (len (mjoin (head b)) + len (mjoin (tail b)))%N) by apply len_app.
  assert (Hretained : (len (to_bytes b) ≤ len l)%N).
  { rewrite Hlen, Hhead, Htail. unfold len. rewrite length_take, last_bytes_length, length_drop. lia. }
  destruct (tail_budget b <=? len chunk)%N eqn:Hbig.
  - apply N.leb_le in Hbig. unfold represents. cbn [set_tail max_bytes head_budget tail_budget head tail head_bytes tail_bytes omitted_bytes].
    set (kept := drop _ chunk). assert (Hkept : kept = last_bytes (N.to_nat (tail_budget b)) chunk).
    { unfold kept, last_bytes. f_equal. unfold len. lia. }
    assert (Hlk : len kept = tail_budget b) by (rewrite Hkept; unfold len; rewrite last_bytes_length; unfold len in Hbig; lia).
    assert (Hj : mjoin [kept] = kept) by apply app_nil_r.
    assert (Hto : len (mjoin (head b) ++ mjoin [kept]) = (len (mjoin (head b)) + tail_budget b)%N) by by rewrite len_app, Hj, Hlk.
    split_and!; try done; try by rewrite Hj.
    + rewrite Hj, Hkept, Hrest. symmetry. apply last_bytes_app_r. unfold len in Hbig. lia.
    + unfold to_bytes. cbn [head tail set_tail]. rewrite Hto, Hom, !saturating_add_min, Hlk, len_app, Htb. f_equal. lia.
  - apply N.leb_gt in Hbig. unfold trim_tail_to_budget. cbn [set_tail tail tail_bytes tail_budget omitted_bytes].
    assert (Hjoin : mjoin (tail b ++ [chunk]) = mjoin (tail b) ++ chunk) by (rewrite join_app; simpl; by rewrite app_nil_r).
    assert (Htl : (len (mjoin (tail b)) ≤ tail_budget b)%N) by (rewrite Htail; unfold len; rewrite last_bytes_length; lia).
    assert (Hsum : saturating_add (tail_bytes b) (len chunk) = len (mjoin (tail b ++ [chunk]))).
    { rewrite Hjoin, len_app, Htb. unfold saturating_add, usize_max in *.
      pose proof (N.Div0.div_mod (max_bytes b) 2). pose proof (N.mod_lt (max_bytes b) 2 ltac:(done)). lia. }
    rewrite Hsum.
    destruct (trim_loop_spec (len (mjoin (tail b ++ [chunk])) - tail_budget b) (tail b ++ [chunk])
      (len (mjoin (tail b ++ [chunk]))) (omitted_bytes b)) as (chunks'&->&Hj); [lia|done|rewrite Hom; lia|].
    assert (Htail' : mjoin chunks' = last_bytes (N.to_nat (tail_budget b)) (mjoin (tail b) ++ chunk)).
    { rewrite Hj, Hjoin. unfold last_bytes, len. f_equal. lia. }
    unfold represents. cbn [set_tail max_bytes head_budget tail_budget head tail head_bytes tail_bytes omitted_bytes].
    assert (Hlt : len (mjoin chunks') = N.min (tail_budget b) (len (mjoin (tail b ++ [chunk])))).
    { rewrite Htail', Hjoin. unfold len. rewrite last_bytes_length. lia. }
    split_and!; try done.
    + rewrite Htail', Hrest, Htail. symmetry. apply last_bytes_app.
    + rewrite Hlt. lia.
    + unfold to_bytes. cbn [head tail set_tail]. rewrite (len_app (mjoin (head b))), Hlt, Hom, saturating_add_min, (len_app l).
      rewrite Hjoin, len_app. f_equal. lia.
Qed.

Lemma push_chunk_spec l chunk b : represents l b → represents (l ++ chunk) (push_chunk chunk b).
Proof.
  intros Hb. pose proof Hb as (Hh&Ht&Hhead&Htail&Hhb&Htb&Hom&Hmax). unfold push_chunk.
  destruct (max_bytes b =? 0)%N eqn:Hz.
  { apply N.eqb_eq in Hz. rewrite Hz in Hh, Ht. simpl in Hh, Ht. rewrite Hh in *. rewrite Ht in *.
    change (N.to_nat 0) with 0 in *. rewrite take_0 in *. rewrite drop_0 in *.
    assert (Hnil : mjoin (tail b) = []) by (rewrite Htail; unfold last_bytes; rewrite drop_ge; [done|lia]).
    unfold represents, omit, to_bytes. cbn [set_tail max_bytes head_budget tail_budget head tail head_bytes tail_bytes omitted_bytes].
    rewrite Hz, Hh, Ht, Hhead, Hnil. split_and!; try done; try by rewrite ?Hhb, ?Htb, ?Hhead, ?Hnil.
    - unfold last_bytes. rewrite drop_0, drop_ge; [done|lia].
    - rewrite Hom. unfold to_bytes. rewrite Hhead, Hnil, saturating_add_min, (len_app l).
      change (len ([] ++ [])) with 0%N. f_equal. lia. }
  apply N.eqb_neq in Hz.
  destruct (head_bytes b <? head_budget b)%N eqn:Hroom.
  2: { apply N.ltb_ge in Hroom. apply push_to_tail_spec; [done..|].
       rewrite Hhb, Hhead in Hroom. unfold len in Hroom. rewrite length_take in Hroom. lia. }
  apply N.ltb_lt in Hroom.
  assert (Hshort : (len l < head_budget b)%N).
  { rewrite Hhb, Hhead in Hroom. unfold len in *. rewrite length_take in Hroom. lia. }
  assert (Hheadl : mjoin (head b) = l) by (rewrite Hhead; apply take_ge; unfold len in Hshort; lia).
  assert (Hnil : mjoin (tail b) = []).
  { rewrite Htail, drop_ge; [done|unfold len in Hshort; lia]. }
  assert (Hadd : ∀ part, (len part ≤ head_budget b - len l)%N →
    represents (l ++ part) (set_head (head b ++ [part]) (saturating_add (head_bytes b) (len part)) b)).
  { intros part Hpart. unfold represents, to_bytes.
    cbn [set_head max_bytes head_budget tail_budget head tail head_bytes tail_bytes omitted_bytes].
    assert (Hj : mjoin (head b ++ [part]) = l ++ part) by (rewrite join_app, Hheadl; simpl; by rewrite app_nil_r).
    rewrite Hj, Hnil, app_nil_r. split_and!; try done.
    - symmetry. apply take_ge. rewrite length_app. unfold len in *. lia.
    - rewrite drop_ge; [done|]. rewrite length_app. unfold len in *. lia.
    - rewrite Hhb, Hheadl, len_app. unfold saturating_add. pose proof (N.Div0.div_le_upper_bound (max_bytes b) 2 (max_bytes b)). lia.
    - by rewrite Htb, Hnil.
    - rewrite Hom. unfold to_bytes. rewrite Hheadl, Hnil, app_nil_r. f_equal. lia. }
  rewrite Hhb, Hheadl. destruct (len chunk <=? _)%N eqn:Hfit.
  { apply N.leb_le in Hfit. rewrite Hhb, Hheadl in Hadd. by apply Hadd. }
  apply N.leb_gt in Hfit. remember (N.to_nat (head_budget b - len l)) as n eqn:Hneq.
  assert (Hn : n < length chunk ∧ 0 < n) by (unfold len in *; lia).
  assert (take n chunk ≠ []) as Hne by (destruct chunk, n; [simpl in Hn; lia..|done]).
  rewrite bool_decide_eq_false_2 by done. rewrite <-(take_drop n chunk) at 1. rewrite app_assoc.
  rewrite Hhb, Hheadl in Hadd. apply push_to_tail_spec.
  - apply Hadd. unfold len at 1. rewrite length_take. lia.
  - done.
  - cbn [set_head head_budget]. rewrite length_app, length_take. unfold len in *. lia.
Qed.

Lemma new_represents max : (max ≤ usize_max)%N → represents [] (new max).
Proof.
  intros Hmax. unfold represents, new, to_bytes. simpl. rewrite take_nil, drop_nil. split_and!; try done.
Qed.

(** Pushing chunks of output, one after the other. *)
Definition push_all (chunks : list bytes) (b : HeadTailBuffer) : HeadTailBuffer :=
  foldl (λ b chunk, push_chunk chunk b) b chunks.

Lemma push_all_spec l chunks b : represents l b → represents (l ++ mjoin chunks) (push_all chunks b).
Proof.
  revert l b. induction chunks as [|chunk chunks IH]; intros l b Hb; simpl; [by rewrite app_nil_r|].
  rewrite app_assoc. by apply IH, push_chunk_spec.
Qed.

(** However its output is cut into chunks, a buffer keeps the first half
    of its capacity and the last bytes of the rest, never more than its
    capacity, and counts what it left out; draining leaves it new. *)
Theorem buffer_keeps_ends max chunks :
  (max ≤ usize_max)%N →
  let l := mjoin chunks in
  let b := push_all chunks (new max) in
  to_bytes b = take (N.to_nat (max / 2)) l ++ last_bytes (N.to_nat (max - max / 2)) (drop (N.to_nat (max / 2)) l)
  ∧ mjoin (snapshot_chunks b) = to_bytes b
  ∧ len (to_bytes b) = N.min max (len l)
  ∧ retained_bytes b = len (to_bytes b)
  ∧ omitted_bytes b = N.min (len l - max) usize_max
  ∧ drain_chunks b = (snapshot_chunks b, new max).
Proof.
  intros Hmax l b.
  assert (max_bytes b = max) as Hcap.
  { unfold b. generalize (new max) (eq_refl : max_bytes (new max) = max). clear.
    induction chunks as [|c chunks IH]; intros b0 Hb0; [done|]. apply IH. rewrite <-Hb0.
    unfold push_chunk, push_to_tail, trim_tail_to_budget, omit, set_head, set_tail.
    repeat (case_match; simpl); done. }
  destruct (push_all_spec [] chunks (new max) (new_represents max Hmax)) as (Hh&Ht&Hhead&Htail&Hhb&Htb&Hom&_).
  fold b in Hh, Ht, Hhead, Htail, Hhb, Htb, Hom. simpl in Hhead, Htail, Hom. fold l in Hhead, Htail, Hom.
  rewrite Hcap in *. rewrite Hh, Ht in *.
  assert (Hto : to_bytes b = take (N.to_nat (max / 2)) l ++ last_bytes (N.to_nat (max - max / 2)) (drop (N.to_nat (max / 2)) l))
    by (unfold to_bytes; by rewrite Hhead, Htail).
  assert (Hle : (max / 2 ≤ max)%N) by (apply N.Div0.div_le_upper_bound; lia).
  assert (Hlen : len (to_bytes b) = N.min max (len l)).
  { rewrite Hto. unfold len. rewrite length_app, length_take, last_bytes_length, length_drop. lia. }
  split_and!; [exact Hto|apply join_app|exact Hlen| | |].
  - unfold retained_bytes, saturating_add. rewrite Hhb, Htb, <-len_app. fold (to_bytes b). rewrite Hlen. lia.
  - rewrite Hom, Hlen. f_equal. lia.
  - unfold drain_chunks, snapshot_chunks, set_head, set_tail, new. simpl. by rewrite Hcap, Hh, Ht.
Qed.

Lemma buffer_keeps_ends_witness :
  let b := push_all [[1; 2; 3]; []; [4; 5; 6; 7]; [8]]%N (new 5) in
  to_bytes b = [1; 2; 6; 7; 8]%N ∧ omitted_bytes b = 3%N.
Proof.
  destruct (buffer_keeps_ends 5 [[1; 2; 3]; []; [4; 5; 6; 7]; [8]]%N) as (Hto&_&_&_&Hom&_); [by vm_compute|].
  split; [exact Hto|exact Hom].
Defined.
End HeadTailBuffer.
