(* ===== verification/StreamParser.v ===== *)
(** * Parsing streamed text

    Models the crate [utils/stream-parser]: the parser trait, the parsers of
    hidden inline tags (citations) and of tag lines (proposed plans), the
    assistant text parser that chains them, and the adapter from bytes.  Text is
    a list of characters, so that the byte positions of the code, which all lie
    on character boundaries, are character positions. *)
From S2P Require Import Prelude Str.

Module StreamParser.

(** ** The parser trait *)

Record StreamTextChunk (E : Type) : Type := { visible_text : str; extracted : list E }.
Arguments visible_text {E} _.
Arguments extracted {E} _.
Arguments Build_StreamTextChunk {E} _ _.

Definition chunk_default {E} : StreamTextChunk E := Build_StreamTextChunk [] [].
Definition chunk_is_empty {E} (c : StreamTextChunk E) : bool :=
  bool_decide (visible_text c = []) && match extracted c with [] => true | _ => false end.
(** The outputs of successive calls, put together. *)
Definition chunk_app {E} (a b : StreamTextChunk E) : StreamTextChunk E :=
  Build_StreamTextChunk (visible_text a ++ visible_text b) (extracted a ++ extracted b).

Class StreamTextParser (P E : Type) : Type := {
  push_str : str → P → result Empty_set (P * StreamTextChunk E);
  finish : P → result Empty_set (P * StreamTextChunk E);
}.

(** ** Hidden inline tags *)

Section Inline.
Context {T : Type}.

Record InlineTagSpec : Type := { spec_tag : T; open : str; close : str }.
Record ExtractedInlineTag : Type := { tag : T; content : str }.
Record ActiveTag : Type := { active_tag : T; active_close : str; active_content : str }.
Record InlineHiddenTagParser : Type := { specs : list InlineTagSpec; pending : str; active : option ActiveTag }.

Definition inline_new (specs : list InlineTagSpec) : result Empty_set InlineHiddenTagParser :=
  if bool_decide (length specs = 0) then Crash
  else if existsb (λ spec, bool_decide (open spec = []) || bool_decide (close spec = [])) specs then Crash
  else Ok {| specs := specs; pending := []; active := None |}.

(** [longest_suffix_prefix_len]: the loop tries [k] and what is below it. *)
Fixpoint suffix_prefix_loop (s needle : str) (k : nat) : nat :=
  match k with
  | 0 => 0
  | S k' => if ends_with s (take k needle) then k else suffix_prefix_loop s needle k'
  end.
Definition longest_suffix_prefix_len (s needle : str) : nat :=
  suffix_prefix_loop s needle (min (length s) (length needle - 1)).

(** The comparison of [find_next_open]: the earliest position, then the longest
    tag, then the first of the specs. *)
Definition opens_before (a b : nat * nat * nat) : bool :=
  let '(pos_a, len_a, idx_a) := a in
  let '(pos_b, len_b, idx_b) := b in
  (pos_a <? pos_b) || ((pos_a =? pos_b) && ((len_b <? len_a) || ((len_a =? len_b) && (idx_a <=? idx_b)))).

(** [Iterator::min_by]: the first of the least. *)
Fixpoint min_open (l : list (nat * nat * nat)) : option (nat * nat * nat) :=
  match l with
  | [] => None
  | a :: l => Some match min_open l with Some b => if opens_before a b then a else b | None => a end
  end.

Definition open_candidate (pending : str) (idx : nat) (spec : InlineTagSpec) : option (nat * nat * nat) :=
  (λ pos, (pos, byte_len (open spec), idx)) <$> find pending (open spec).
Definition find_next_open (specs : list InlineTagSpec) (pending : str) : option (nat * nat) :=
  '(pos, _, idx) ← min_open (omap id (imap (open_candidate pending) specs)); Some (pos, idx).

Definition max_open_prefix_suffix_len (specs : list InlineTagSpec) (pending : str) : nat :=
  max_list ((λ spec, longest_suffix_prefix_len pending (open spec)) <$> specs).

Definition set_state (pending : str) (active : option ActiveTag) (p : InlineHiddenTagParser) : InlineHiddenTagParser :=
  {| specs := specs p; pending := pending; active := active |}.

(** The loop of [push_str].  A round that goes on removes a tag from the
    pending text, so that its length bounds the rounds. *)
Fixpoint push_loop (fuel : nat) (p : InlineHiddenTagParser) (out : StreamTextChunk ExtractedInlineTag)
    : result Empty_set (InlineHiddenTagParser * StreamTextChunk ExtractedInlineTag) :=
  match fuel with
  | 0 => Crash
  | S fuel =>
      match active p with
      | Some a =>
          match find (pending p) (active_close a) with
          | Some close_idx =>
              push_loop fuel
                (set_state (drop (close_idx + length (active_close a)) (pending p)) None p)
                (chunk_app out (Build_StreamTextChunk []
                   [{| tag := active_tag a; content := active_content a ++ take close_idx (pending p) |}]))
          | None =>
              let keep := longest_suffix_prefix_len (pending p) (active_close a) in
              let n := length (pending p) - keep in
              Ok (set_state (drop n (pending p))
                    (Some {| active_tag := active_tag a; active_close := active_close a;
                             active_content := active_content a ++ take n (pending p) |}) p, out)
          end
      | None =>
          match find_next_open (specs p) (pending p) with
          | Some (open_idx, spec_idx) =>
              spec ← expect (specs p !! spec_idx);
              push_loop fuel
                (set_state (drop (open_idx + length (open spec)) (pending p))
                   (Some {| active_tag := spec_tag spec; active_close := close spec; active_content := [] |}) p)
                (chunk_app out (Build_StreamTextChunk (take open_idx (pending p)) []))
          | None =>
              let keep := max_open_prefix_suffix_len (specs p) (pending p) in
              let n := length (pending p) - keep in
              Ok (set_state (drop n (pending p)) None p,
                  chunk_app out (Build_StreamTextChunk (take n (pending p)) []))
          end
      end
  end.

Definition inline_push_str (chunk : str) (p : InlineHiddenTagParser)
    : result Empty_set (InlineHiddenTagParser * StreamTextChunk ExtractedInlineTag) :=
  let pending := pending p ++ chunk in
  push_loop (S (length pending)) (set_state pending (active p) p) chunk_default.

Definition inline_finish (p : InlineHiddenTagParser)
    : result Empty_set (InlineHiddenTagParser * StreamTextChunk ExtractedInlineTag) :=
  Ok match active p with
     | Some a =>
         (set_state [] None p,
          Build_StreamTextChunk [] [{| tag := active_tag a; content := active_content a ++ pending p |}])
     | None => (set_state [] None p, Build_StreamTextChunk (pending p) [])
     end.

#[export] Instance inline_parser : StreamTextParser InlineHiddenTagParser ExtractedInlineTag := {
  push_str := inline_push_str; finish := inline_finish }.
End Inline.
Arguments InlineTagSpec : clear implicits.
Arguments ExtractedInlineTag : clear implicits.
Arguments ActiveTag : clear implicits.
Arguments InlineHiddenTagParser : clear implicits.

(** ** Citations *)

Definition CITATION_OPEN : str := lit "<oai-mem-citation>".
Definition CITATION_CLOSE : str := lit "</oai-mem-citation>".

Record CitationStreamParser : Type := { citation_inner : InlineHiddenTagParser unit }.

Definition citation_spec : InlineTagSpec unit := {| spec_tag := (); open := CITATION_OPEN; close := CITATION_CLOSE |}.
Definition citation_new : result Empty_set CitationStreamParser :=
  p ← inline_new [citation_spec]; Ok {| citation_inner := p |}.

Definition citation_chunk (r : InlineHiddenTagParser unit * StreamTextChunk (ExtractedInlineTag unit))
    : CitationStreamParser * StreamTextChunk str :=
  ({| citation_inner := r.1 |}, Build_StreamTextChunk (visible_text r.2) (content <$> extracted r.2)).

#[export] Instance citation_parser : StreamTextParser CitationStreamParser str := {
  push_str chunk p := citation_chunk <$> inline_push_str chunk (citation_inner p);
  finish p := citation_chunk <$> inline_finish (citation_inner p) }.

Definition strip_citations (text : str) : result Empty_set (str * list str) :=
  parser ← citation_new;
  '(parser, out) ← push_str text parser;
  '(_, tail) ← finish parser;
  let out := chunk_app out tail in
  Ok (visible_text out, extracted out).

(** ** Tag lines *)

Section TagLines.
Context {T : Type} `{EqDecision T}.

Record TagSpec : Type := { line_open : str; line_close : str; line_tag : T }.
Inductive TaggedLineSegment : Type :=
| Normal (text : str)
| TagStart (t : T)
| TagDelta (t : T) (text : str)
| TagEnd (t : T).

Record TaggedLineParser : Type := {
  line_specs : list TagSpec;
  line_active : option T;
  detect_tag : bool;
  line_buffer : str;
}.

Definition line_new (specs : list TagSpec) : TaggedLineParser := {|
  line_specs := specs; line_active := None; detect_tag := true; line_buffer := [] |}.
Definition set_line (active : option T) (detect : bool) (buffer : str) (p : TaggedLineParser) : TaggedLineParser := {|
  line_specs := line_specs p; line_active := active; detect_tag := detect; line_buffer := buffer |}.

Definition push_segment (segment : TaggedLineSegment) (segments : list TaggedLineSegment) : list TaggedLineSegment :=
  match segment with
  | Normal [] | TagDelta _ [] => segments
  | Normal delta =>
      match last segments with
      | Some (Normal existing) => but_last segments ++ [Normal (existing ++ delta)]
      | _ => segments ++ [Normal delta]
      end
  | TagDelta tag delta =>
      match last segments with
      | Some (TagDelta existing_tag existing) =>
          if decide (existing_tag = tag) then but_last segments ++ [TagDelta tag (existing ++ delta)]
          else segments ++ [TagDelta tag delta]
      | _ => segments ++ [TagDelta tag delta]
      end
  | segment => segments ++ [segment]
  end.

Definition push_text (active : option T) (text : str) (segments : list TaggedLineSegment) : list TaggedLineSegment :=
  push_segment match active with Some tag => TagDelta tag text | None => Normal text end segments.

Definition is_tag_prefix (specs : list TagSpec) (slug : str) : bool :=
  let slug := trim_end slug in
  existsb (λ spec, starts_with (line_open spec) slug || starts_with (line_close spec) slug) specs.
Definition match_open (specs : list TagSpec) (slug : str) : option T :=
  line_tag <$> head (filter (λ spec, line_open spec = slug) specs).
Definition match_close (specs : list TagSpec) (slug : str) : option T :=
  line_tag <$> head (filter (λ spec, line_close spec = slug) specs).

(** What a complete line does to the active tag, and the segment it makes. *)
Definition line_slug (line : str) : str := trim_end (trim_start (default line (strip_suffix [NL] line))).
Definition line_effect (specs : list TagSpec) (active : option T) (line : str)
    : option T * (list TaggedLineSegment → list TaggedLineSegment) :=
  let slug := line_slug line in
  match match_open specs slug, active with
  | Some tag, None => (Some tag, push_segment (TagStart tag))
  | _, _ =>
      match match_close specs slug with
      | Some tag =>
          if decide (active = Some tag) then (None, push_segment (TagEnd tag)) else (active, push_text active line)
      | None => (active, push_text active line)
      end
  end.

Definition finish_line (p : TaggedLineParser) (segments : list TaggedLineSegment)
    : TaggedLineParser * list TaggedLineSegment :=
  let '(active, emit) := line_effect (line_specs p) (line_active p) (line_buffer p) in
  (set_line active true [] p, emit segments).

(** One character of [parse]'s loop: the parser, the text of the run not yet
    pushed, and the segments. *)
Definition parse_char (st : TaggedLineParser * str * list TaggedLineSegment) (ch : char)
    : TaggedLineParser * str * list TaggedLineSegment :=
  let '(p, run, segments) := st in
  if detect_tag p then
    let segments := if bool_decide (run = []) then segments else push_text (line_active p) run segments in
    let buffer := line_buffer p ++ [ch] in
    let p := set_line (line_active p) true buffer p in
    if (ch =? NL)%N then let '(p, segments) := finish_line p segments in (p, [], segments)
    else
      let slug := trim_start buffer in
      if bool_decide (slug = []) || is_tag_prefix (line_specs p) slug then (p, [], segments)
      else (set_line (line_active p) false [] p, [], push_text (line_active p) buffer segments)
  else
    let run := run ++ [ch] in
    if (ch =? NL)%N
    then (set_line (line_active p) true (line_buffer p) p, [], push_text (line_active p) run segments)
    else (p, run, segments).

Definition line_parse (delta : str) (p : TaggedLineParser) : TaggedLineParser * list TaggedLineSegment :=
  let '(p, run, segments) := foldl parse_char (p, [], []) delta in
  (p, if bool_decide (run = []) then segments else push_text (line_active p) run segments).

Definition line_finish (p : TaggedLineParser) : TaggedLineParser * list TaggedLineSegment :=
  let '(p, segments) :=
    if bool_decide (line_buffer p = []) then (p, [])
    else
      let '(active, emit) := line_effect (line_specs p) (line_active p) (line_buffer p) in
      (set_line active (detect_tag p) [] p, emit []) in
  (set_line None true (line_buffer p) p,
   match line_active p with Some tag => push_segment (TagEnd tag) segments | None => segments end).
End TagLines.
Arguments TagSpec : clear implicits.
Arguments TaggedLineSegment : clear implicits.
Arguments TaggedLineParser : clear implicits.

(** ** Proposed plans *)

Definition OPEN_TAG : str := lit "<proposed_plan>".
Definition CLOSE_TAG : str := lit "</proposed_plan>".

Inductive ProposedPlanSegment : Type :=
| PlanNormal (text : str) | ProposedPlanStart | ProposedPlanDelta (text : str) | ProposedPlanEnd.

Record ProposedPlanParser : Type := { plan_parser : TaggedLineParser unit }.
Definition plan_new : ProposedPlanParser :=
  {| plan_parser := line_new [{| line_open := OPEN_TAG; line_close := CLOSE_TAG; line_tag := () |}] |}.

Definition map_segment (s : TaggedLineSegment unit) : ProposedPlanSegment :=
  match s with
  | Normal text => PlanNormal text
  | TagStart _ => ProposedPlanStart
  | TagDelta _ text => ProposedPlanDelta text
  | TagEnd _ => ProposedPlanEnd
  end.
Definition normal_text (s : ProposedPlanSegment) : str := match s with PlanNormal text => text | _ => [] end.
Definition map_segments (segments : list (TaggedLineSegment unit)) : StreamTextChunk ProposedPlanSegment :=
  let mapped := map_segment <$> segments in
  Build_StreamTextChunk (mapped ≫= normal_text) mapped.

Definition plan_chunk (r : TaggedLineParser unit * list (TaggedLineSegment unit))
    : ProposedPlanParser * StreamTextChunk ProposedPlanSegment :=
  ({| plan_parser := r.1 |}, map_segments r.2).

#[export] Instance plan_stream_parser : StreamTextParser ProposedPlanParser ProposedPlanSegment := {
  push_str chunk p := Ok (plan_chunk (line_parse chunk (plan_parser p)));
  finish p := Ok (plan_chunk (line_finish (plan_parser p))) }.

Definition strip_proposed_plan_blocks (text : str) : result Empty_set str :=
  '(p, out) ← push_str text plan_new;
  '(_, tail) ← finish p;
  Ok (visible_text out ++ visible_text tail).

(** The fold of [extract_proposed_plan_text]. *)
Definition extract_step (st : bool * str) (s : ProposedPlanSegment) : bool * str :=
  match s with
  | ProposedPlanStart => (true, [])
  | ProposedPlanDelta delta => (st.1, st.2 ++ delta)
  | ProposedPlanEnd | PlanNormal _ => st
  end.
Definition extract_proposed_plan_text (text : str) : result Empty_set (option str) :=
  '(p, out) ← push_str text plan_new;
  '(_, tail) ← finish p;
  let '(saw_plan_block, plan_text) := foldl extract_step (false, []) (extracted out ++ extracted tail) in
  Ok (if saw_plan_block then Some plan_text else None).

(** ** Assistant text *)

Record AssistantTextChunk : Type := {
  assistant_visible_text : str;
  citations : list str;
  plan_segments : list ProposedPlanSegment;
}.
Record AssistantTextStreamParser : Type := {
  plan_mode : bool;
  citations_parser : CitationStreamParser;
  plan : ProposedPlanParser;
}.

Definition assistant_new (plan_mode : bool) : result Empty_set AssistantTextStreamParser :=
  c ← citation_new; Ok {| plan_mode := plan_mode; citations_parser := c; plan := plan_new |}.

Definition parse_visible_text (visible : str) (p : AssistantTextStreamParser)
    : result Empty_set (ProposedPlanParser * StreamTextChunk ProposedPlanSegment) :=
  if negb (plan_mode p) then Ok (plan p, Build_StreamTextChunk visible []) else push_str visible (plan p).

Definition assistant_push_str (chunk : str) (p : AssistantTextStreamParser)
    : result Empty_set (AssistantTextStreamParser * AssistantTextChunk) :=
  '(c, citation_chunk) ← push_str chunk (citations_parser p);
  '(pl, out) ← parse_visible_text (visible_text citation_chunk) p;
  Ok ({| plan_mode := plan_mode p; citations_parser := c; plan := pl |},
      {| assistant_visible_text := visible_text out; citations := extracted citation_chunk;
         plan_segments := extracted out |}).

Definition assistant_finish (p : AssistantTextStreamParser)
    : result Empty_set (AssistantTextStreamParser * AssistantTextChunk) :=
  '(c, citation_chunk) ← finish (citations_parser p);
  '(pl, out) ← parse_visible_text (visible_text citation_chunk) p;
  '(pl, out) ← (if plan_mode p then '(pl, tail) ← finish pl; Ok (pl, chunk_app out tail) else Ok (pl, out));
  Ok ({| plan_mode := plan_mode p; citations_parser := c; plan := pl |},
      {| assistant_visible_text := visible_text out; citations := extracted citation_chunk;
         plan_segments := extracted out |}).
End StreamParser.
