(* ===== verification/StreamParserFacts.v ===== *)
(** * Parsing streamed text: theorems

    Output does not depend on how a stream is cut into chunks. *)
From S2P Require Import Prelude Str StreamParser.
Import StreamParser.

(** ** Occurrences *)

Definition occurs (n s : str) (i : nat) : Prop := ∃ a b, s = a ++ n ++ b ∧ length a = i.

Lemma occurs_app_l n s v i : occurs n s i → occurs n (s ++ v) i.
Proof. intros (a&b&->&<-). exists a, (b ++ v). by rewrite <-!app_assoc. Qed.

Lemma occurs_app_r n u s i : occurs n s i → occurs n (u ++ s) (length u + i).
Proof. intros (a&b&->&<-). exists (u ++ a), b. by rewrite length_app, <-app_assoc. Qed.

Lemma occurs_bound n s i : occurs n s i → i + length n ≤ length s.
Proof. intros (a&b&->&<-). rewrite !length_app. lia. Qed.

Lemma occurs_lookup n s i : occurs n s i ↔ i + length n ≤ length s ∧ ∀ j, j < length n → s !! (i + j) = n !! j.
Proof.
  split.
  - intros Ho. split; [by apply occurs_bound|]. destruct Ho as (a&b&->&<-). intros j Hj.
    rewrite lookup_app_r by lia. replace (length a + j - length a) with j by lia. by rewrite lookup_app_l.
  - intros [Hb Hj]. exists (take i s), (drop (i + length n) s). split; [|rewrite length_take; lia].
    rewrite <-(take_drop i s) at 1. f_equal. rewrite <-(take_drop (length n) (drop i s)). rewrite drop_drop. f_equal.
    apply list_eq_same_length with (length n); [done|rewrite length_take, length_drop; lia|].
    intros j x y Hlt Hx Hy. rewrite lookup_take_lt, lookup_drop, Hj in Hx by done. congruence.
Qed.

Lemma occurs_within n u v i : i + length n ≤ length u → occurs n (u ++ v) i → occurs n u i.
Proof.
  rewrite !occurs_lookup. intros Hb [_ Hj]. split; [done|]. intros j Hlt. rewrite <-Hj by done.
  by rewrite lookup_app_l by lia.
Qed.

Lemma occurs_drop n u v i : occurs n (u ++ v) (length u + i) → occurs n v i.
Proof.
  rewrite !occurs_lookup, length_app. intros [Hb Hj]. split; [lia|]. intros j Hlt. rewrite <-Hj by done.
  rewrite lookup_app_r by lia. f_equal. lia.
Qed.

Lemma find_Some s n i : find s n = Some i ↔ occurs n s i ∧ ∀ j, occurs n s j → i ≤ j.
Proof.
  revert i. induction s as [|c s IH]; intros i; simpl.
  - destruct (starts_with [] n) eqn:Hs.
    + apply starts_with_spec in Hs as [b Hb]. symmetry in Hb. apply app_nil in Hb as [-> ->].
      split; [intros [= <-]; split; [by exists [], []|lia]|].
      intros [(a&b&Hab&<-) _]. symmetry in Hab. by apply app_nil in Hab as [-> _].
    + split; [done|]. intros [(a&b&Hab&<-) _]. symmetry in Hab. apply app_nil in Hab as [-> [-> ->]%app_nil]. done.
  - destruct (starts_with (c :: s) n) eqn:Hs.
    + apply starts_with_spec in Hs as [b Hb]. split.
      * intros [= <-]. split; [by exists [], b|lia].
      * intros [_ Hmin]. f_equal. specialize (Hmin 0 (ex_intro _ [] (ex_intro _ b (conj Hb eq_refl)))). lia.
    + assert (Hzero : ¬ occurs n (c :: s) 0).
      { intros ([]&b&Hb&?); [|done]. simpl in Hb. rewrite (proj2 (starts_with_spec _ _)) in Hs; [done|]. by exists b. }
      assert (Hshift : ∀ j, occurs n (c :: s) (S j) ↔ occurs n s j).
      { intros j. split; [apply (occurs_drop n [c] s j)|apply (occurs_app_r n [c] s j)]. }
      split.
      * intros (j&[Ho Hmin]%IH&->)%fmap_Some. split; [by apply Hshift|].
        intros [|k] Hk; [done|]. apply Hshift, Hmin in Hk. lia.
      * destruct i as [|i]; [by intros [? _]|]. intros [Ho Hmin]. rewrite (proj2 (IH i)); [done|].
        split; [by apply Hshift|]. intros j Hj%Hshift%Hmin. lia.
Qed.

Lemma find_None s n : find s n = None ↔ ∀ i, ¬ occurs n s i.
Proof.
  split.
  - induction s as [|c s IH]; simpl; destruct (starts_with _ n) eqn:Hs; try done; intros Hf i Ho.
    + destruct Ho as (a&b&Hab&<-). symmetry in Hab. apply app_nil in Hab as [-> [-> ->]%app_nil]. done.
    + destruct (find s n) eqn:Hfs; [done|]. destruct i as [|i].
      * destruct Ho as ([]&b&Hb&?); [|done]. simpl in Hb. rewrite (proj2 (starts_with_spec _ _)) in Hs; [done|]. by exists b.
      * by apply (IH eq_refl i), (occurs_drop n [c] s i).
  - intros Hno. destruct (find s n) as [i|] eqn:Hf; [|done]. apply find_Some in Hf as [Ho _]. by apply Hno in Ho.
Qed.

(** A first occurrence stays the first when text follows. *)
Lemma find_app_Some u v n i : n ≠ [] → find u n = Some i → find (u ++ v) n = Some i.
Proof.
  intros Hn [Ho Hmin]%find_Some. apply find_Some. split; [by apply occurs_app_l|].
  intros j Hj. destruct (decide (i ≤ j)) as [|Hlt]; [done|]. apply Hmin. eapply occurs_within; [|exact Hj].
  apply occurs_bound in Ho. lia.
Qed.

(** ** Partial tags at the end *)

(** The last [k] characters of [s] are the first of the tag, and not all of
    it. *)
Definition partial (n s : str) (k : nat) : Prop := k < length n ∧ take k n `suffix_of` s.

Lemma partial_zero n s : n ≠ [] → partial n s 0.
Proof. intros Hn. split; [destruct n; [done|simpl; lia]|]. rewrite take_0. by exists s; rewrite app_nil_r. Qed.

Lemma partial_bound n s k : partial n s k → k ≤ length s.
Proof. intros [Hk [a ->]]. rewrite length_app, length_take. lia. Qed.

Lemma suffix_prefix_loop_spec s n k :
  n ≠ [] → k < length n →
  partial n s (suffix_prefix_loop s n k) ∧ ∀ j, partial n s j → j ≤ k → j ≤ suffix_prefix_loop s n k.
Proof.
  intros Hn. induction k as [|k IH]; intros Hk; simpl; [split; [by apply partial_zero|intros; lia]|].
  destruct (ends_with s (take (S k) n)) eqn:He.
  - apply ends_with_spec in He. split; [by split|lia].
  - destruct (IH ltac:(lia)) as [Hp Hmax]. split; [done|]. intros j Hj Hle.
    destruct (decide (j = S k)) as [->|]; [|apply Hmax; [done|lia]].
    destruct Hj as [_ Hj]. apply ends_with_spec in Hj. congruence.
Qed.

Lemma longest_partial s n : n ≠ [] →
  partial n s (longest_suffix_prefix_len s n) ∧ ∀ j, partial n s j → j ≤ longest_suffix_prefix_len s n.
Proof.
  intros Hn. unfold longest_suffix_prefix_len. assert (0 < length n) by (destruct n; [done|simpl; lia]).
  destruct (suffix_prefix_loop_spec s n (min (length s) (length n - 1)) Hn) as [Hp Hmax]; [lia|].
  split; [done|]. intros j Hj. apply Hmax; [done|]. pose proof (partial_bound _ _ _ Hj). destruct Hj. lia.
Qed.

Lemma longest_unique s n k : n ≠ [] →
  partial n s k → (∀ j, partial n s j → j ≤ k) → longest_suffix_prefix_len s n = k.
Proof. intros Hn Hk Hmax. destruct (longest_partial s n Hn) as [Hp Hm]. apply Hmax in Hp. apply Hm in Hk. lia. Qed.

(** An occurrence that begins in [u] and is not within it begins in a partial
    tag at the end of [u]. *)
Lemma straddling n u v i : ¬ occurs n u i → occurs n (u ++ v) i → i ≤ length u → partial n u (length u - i).
Proof.
  intros Hno Ho Hi. assert (length u < i + length n) as Hlong.
  { destruct (decide (i + length n ≤ length u)) as [Hb|]; [|lia]. by apply (occurs_within n u v i Hb) in Ho. }
  destruct Ho as (a&b&Heq&<-). split; [lia|].
  apply app_eq_inv in Heq as [(k&->&Hk)|(k&->&Hk)].
  - rewrite length_app in *. replace (length a + length k - length a) with (length k) by lia.
    exists a. f_equal. apply (f_equal (take (length k))) in Hk.
    rewrite take_app_le, take_app_length in Hk by lia. done.
  - rewrite length_app in Hi. assert (k = []) as -> by (destruct k; [done|simpl in Hi; lia]).
    rewrite app_nil_r, Nat.sub_diag, take_0. exists u. by rewrite app_nil_r.
Qed.

Section Shift.
(** A text without the tag, of which at least the longest partial tag is kept. *)
Variables (n u : str) (keep : nat).
Hypothesis Hn : n ≠ [].
Hypothesis Hnone : find u n = None.
Hypothesis Hkeep : longest_suffix_prefix_len u n ≤ keep.
Hypothesis Hlen : keep ≤ length u.

Let gone := length u - keep.
Let kept := drop gone u.

Lemma occurs_kept v i : occurs n (u ++ v) i → gone ≤ i ∧ occurs n (kept ++ v) (i - gone).
Proof.
  intros Ho. assert (gone ≤ i) as Hge.
  { destruct (decide (i ≤ length u)) as [Hi|]; [|unfold gone; lia].
    pose proof (straddling n u v i (proj1 (find_None u n) Hnone i) Ho Hi) as Hp.
    apply (longest_partial u n Hn) in Hp. unfold gone. lia. }
  split; [done|]. apply (occurs_drop n (take gone u) (kept ++ v)).
  rewrite app_assoc. unfold kept. rewrite take_drop, length_take.
  replace (min gone (length u) + (i - gone)) with i by (unfold gone in *; lia). done.
Qed.

Lemma occurs_unkept v i : occurs n (kept ++ v) i → occurs n (u ++ v) (gone + i).
Proof.
  intros Ho. pose proof (occurs_app_r n (take gone u) _ i Ho) as H. unfold kept in H.
  rewrite app_assoc, take_drop, length_take in H. replace (min gone (length u)) with gone in H by (unfold gone; lia). done.
Qed.

Lemma find_kept v : find (u ++ v) n = (λ i, gone + i) <$> find (kept ++ v) n.
Proof.
  destruct (find (kept ++ v) n) as [i|] eqn:Hf; simpl.
  - apply find_Some in Hf as [Ho Hmin]. apply find_Some. split; [by apply occurs_unkept|].
    intros j [Hge Hj%Hmin]%occurs_kept. lia.
  - apply find_None. intros i [_ Ho]%occurs_kept. by apply (proj1 (find_None _ _) Hf) in Ho.
Qed.

Lemma partial_kept v k : partial n (u ++ v) k ↔ partial n (kept ++ v) k.
Proof.
  split; intros Hp; pose proof Hp as [Hk Hs].
  - split; [done|]. destruct Hs as [a Ha]. destruct (decide (gone ≤ length a)) as [Hge|Hlt].
    + exists (drop gone a). unfold kept. rewrite <-(drop_app_le a) by done. rewrite <-Ha.
      by rewrite drop_app_le by (unfold gone; lia).
    + exfalso. apply app_eq_inv in Ha as [(x&->&Hx)|(x&->&Hx)].
      * assert (partial n (a ++ x) (length x)) as Hpx.
        { split; [apply (f_equal length) in Hx; rewrite length_app, length_take in Hx; lia|].
          assert (length x ≤ k) by (apply (f_equal length) in Hx; rewrite length_app, length_take in Hx; lia).
          exists a. f_equal. apply (f_equal (take (length x))) in Hx.
          by rewrite take_app_length, take_take, Nat.min_l in Hx by done. }
        apply (longest_partial _ n Hn) in Hpx. unfold gone in Hlt. rewrite length_app in *. lia.
      * rewrite length_app in Hlt. unfold gone in Hlt. lia.
  - split; [done|]. destruct Hs as [a Ha]. exists (take gone u ++ a). unfold kept in Ha.
    rewrite <-app_assoc, <-Ha, app_assoc, take_drop. done.
Qed.

Lemma longest_kept v : longest_suffix_prefix_len (u ++ v) n = longest_suffix_prefix_len (kept ++ v) n.
Proof.
  destruct (longest_partial (kept ++ v) n Hn) as [Hp Hmax]. apply longest_unique; [done|by apply partial_kept|].
  intros j Hj%partial_kept. by apply Hmax.
Qed.
End Shift.

(** ** Chunks of output *)

Lemma chunk_app_nil_r {E} (c : StreamTextChunk E) : chunk_app c chunk_default = c.
Proof. destruct c. unfold chunk_app. simpl. by rewrite !app_nil_r. Qed.
Lemma chunk_app_assoc {E} (a b c : StreamTextChunk E) : chunk_app a (chunk_app b c) = chunk_app (chunk_app a b) c.
Proof. unfold chunk_app. simpl. by rewrite !app_assoc. Qed.
Lemma chunk_app_cancel {E} (a b : StreamTextChunk E) : chunk_app a b = a → b = chunk_default.
Proof.
  destruct a as [v e], b as [v' e']. unfold chunk_app, chunk_default. simpl. intros [= Hv He]. f_equal.
  - apply (app_inv_head v). by rewrite app_nil_r.
  - apply (app_inv_head e). by rewrite app_nil_r.
Qed.

(** ** The inline parser, round by round *)

Section Inline.
Context {T : Type}.
Implicit Types p : InlineHiddenTagParser T.

(** Tags that are not empty and do not occur in each other. *)
Definition separated (l : list (InlineTagSpec T)) : Prop :=
  (∀ s, s ∈ l → open s ≠ [] ∧ close s ≠ [])
  ∧ ∀ s s' i, s ∈ l → s' ∈ l → occurs (open s) (open s') i → s = s'.
Definition well_formed p : Prop :=
  separated (specs p) ∧ match active p with Some a => active_close a ≠ [] | None => True end.

Definition opened (spec : InlineTagSpec T) : ActiveTag T :=
  {| active_tag := spec_tag spec; active_close := close spec; active_content := [] |}.

(** One round of the loop: the parser, the output, and whether it goes on. *)
Definition round p : InlineHiddenTagParser T * StreamTextChunk (ExtractedInlineTag T) * bool :=
  match active p with
  | Some a =>
      match find (pending p) (active_close a) with
      | Some i =>
          (set_state (drop (i + length (active_close a)) (pending p)) None p,
           Build_StreamTextChunk [] [{| tag := active_tag a; content := active_content a ++ take i (pending p) |}], true)
      | None =>
          let n := length (pending p) - longest_suffix_prefix_len (pending p) (active_close a) in
          (set_state (drop n (pending p))
             (Some {| active_tag := active_tag a; active_close := active_close a;
                      active_content := active_content a ++ take n (pending p) |}) p, chunk_default, false)
      end
  | None =>
      match find_next_open (specs p) (pending p) with
      | Some (i, idx) =>
          match specs p !! idx with
          | Some spec =>
              (set_state (drop (i + length (open spec)) (pending p)) (Some (opened spec)) p,
               Build_StreamTextChunk (take i (pending p)) [], true)
          | None => (p, chunk_default, false)
          end
      | None =>
          let n := length (pending p) - max_open_prefix_suffix_len (specs p) (pending p) in
          (set_state (drop n (pending p)) None p, Build_StreamTextChunk (take n (pending p)) [], false)
      end
  end.

(** *** The next opening tag *)

Lemma opens_before_total a b : opens_before a b = false → opens_before b a = true.
Proof. destruct a as [[]], b as [[]]. simpl. rewrite !orb_true_iff, !orb_false_iff, !andb_true_iff, !andb_false_iff,
  !orb_true_iff, !andb_true_iff, !orb_false_iff, !andb_false_iff, !Nat.ltb_lt, !Nat.ltb_ge, !Nat.eqb_eq, !Nat.eqb_neq, !Nat.leb_le, !Nat.leb_gt. lia. Qed.
Lemma opens_before_trans a b c : opens_before a b = true → opens_before b c = true → opens_before a c = true.
Proof. destruct a as [[]], b as [[]], c as [[]]. simpl. rewrite !orb_true_iff, !andb_true_iff, !orb_true_iff, !andb_true_iff,
  !Nat.ltb_lt, !Nat.eqb_eq, !Nat.leb_le. lia. Qed.
Lemma opens_before_antisym a b : opens_before a b = true → opens_before b a = true → a = b.
Proof. destruct a as [[]], b as [[]]. simpl. rewrite !orb_true_iff, !andb_true_iff, !orb_true_iff, !andb_true_iff,
  !Nat.ltb_lt, !Nat.eqb_eq, !Nat.leb_le. intros ??. repeat f_equal; lia. Qed.

Lemma opens_before_refl a : opens_before a a = true.
Proof. destruct (opens_before a a) eqn:Ha; [done|]. by rewrite (opens_before_total a a Ha) in Ha. Qed.

Lemma min_open_spec l a : min_open l = Some a ↔ a ∈ l ∧ ∀ b, b ∈ l → opens_before a b = true.
Proof.
  assert (Hsound : ∀ l a, min_open l = Some a → a ∈ l ∧ ∀ b, b ∈ l → opens_before a b = true).
  { clear. induction l as [|x l IH]; intros a; [done|]. simpl. destruct (min_open l) as [m|] eqn:Hm.
    - destruct (IH m eq_refl) as [Hin Hle]. destruct (opens_before x m) eqn:Hx; intros [= <-].
      + split; [by left|]. intros b [->|Hb]%elem_of_cons; [|by eapply opens_before_trans, Hle].
        apply opens_before_refl.
      + split; [by right|]. intros b [->|Hb]%elem_of_cons; [by apply opens_before_total|by apply Hle].
    - intros [= <-]. assert (l = []) as -> by (destruct l; [done|]; simpl in Hm; by case_match).
      split; [by left|]. intros b ->%list_elem_of_singleton.
      apply opens_before_refl. }
  split; [apply Hsound|]. intros [Hin Hle]. destruct (min_open l) as [m|] eqn:Hm.
  - apply Hsound in Hm as [Hmin Hml]. f_equal. by apply opens_before_antisym; [apply Hml|apply Hle].
  - destruct l; [by apply elem_of_nil in Hin|]. simpl in Hm. by case_match.
Qed.

Lemma elem_of_candidates l s a :
  a ∈ omap id (imap (open_candidate s) l) ↔
  ∃ idx (spec : InlineTagSpec T) i, l !! idx = Some spec ∧ find s (open spec) = Some i ∧ a = (i, byte_len (open spec), idx).
Proof.
  rewrite list_elem_of_omap. split.
  - intros (o&Ho&Hid). apply list_elem_of_lookup in Ho as [idx Hidx].
    rewrite list_lookup_imap in Hidx. apply fmap_Some in Hidx as (spec&Hspec&->). simpl in Hid. unfold open_candidate in Hid.
    apply fmap_Some in Hid as (i&Hf&->). eauto 6.
  - intros (idx&spec&i&Hl&Hf&->). exists (open_candidate s idx spec). split.
    + apply list_elem_of_lookup. exists idx. by rewrite list_lookup_imap, Hl.
    + unfold open_candidate. by rewrite Hf.
Qed.

Lemma find_next_open_Some l s i idx :
  find_next_open l s = Some (i, idx) ↔
  ∃ spec : InlineTagSpec T, l !! idx = Some spec ∧ find s (open spec) = Some i
    ∧ ∀ idx' spec' i', l !! idx' = Some spec' → find s (open spec') = Some i' →
        opens_before (i, byte_len (open spec), idx) (i', byte_len (open spec'), idx') = true.
Proof.
  unfold find_next_open. split.
  - destruct (min_open _) as [[[j n] k]|] eqn:Hm; [|done]. intros [= -> ->].
    apply min_open_spec in Hm as [Hin Hle]. apply elem_of_candidates in Hin as (?&spec&?&Hl&Hf&[= <- -> <-]).
    exists spec. split_and!; [done..|]. intros idx' spec' i' Hl' Hf'. apply Hle, elem_of_candidates. eauto 6.
  - intros (spec&Hl&Hf&Hmin). rewrite (proj2 (min_open_spec _ (i, byte_len (open spec), idx))); [done|].
    split; [apply elem_of_candidates; eauto 6|].
    intros b (idx'&spec'&i'&Hl'&Hf'&->)%elem_of_candidates. by apply Hmin.
Qed.

Lemma find_next_open_None (l : list (InlineTagSpec T)) s :
  find_next_open l s = None ↔ ∀ spec, spec ∈ l → find s (open spec) = None.
Proof.
  unfold find_next_open. split.
  - destruct (min_open _) as [[[]]|] eqn:Hm; [done|]. intros _ spec Hspec.
    destruct (find s (open spec)) as [i|] eqn:Hf; [|done]. exfalso.
    apply list_elem_of_lookup in Hspec as [idx Hidx].
    assert (∃ x, x ∈ omap id (imap (open_candidate s) l)) as [x Hx] by (eexists; apply elem_of_candidates; eauto 6).
    destruct (omap id _); [by apply elem_of_nil in Hx|]. simpl in Hm. by case_match.
  - intros Hnone. destruct (min_open _) as [a|] eqn:Hm; [|done]. apply min_open_spec in Hm as [Hin _].
    apply elem_of_candidates in Hin as (idx&spec&i&Hl&Hf&_). by rewrite Hnone in Hf by by eapply list_elem_of_lookup_2.
Qed.

(** A tag found stays the next one when text follows. *)
Lemma find_next_open_app l u v i idx :
  separated l → find_next_open l u = Some (i, idx) → find_next_open l (u ++ v) = Some (i, idx).
Proof.
  intros [Hne Hsep] (spec&Hl&Hf&Hmin)%find_next_open_Some. apply find_next_open_Some. exists spec.
  assert (Hin : ∀ k s, l !! k = Some s → s ∈ l) by (intros; by eapply list_elem_of_lookup_2).
  split_and!; [done|by apply find_app_Some; [apply Hne; eauto|]|]. intros idx' spec' i' Hl' Hf'.
  destruct (find u (open spec')) as [j|] eqn:Hu.
  { rewrite (find_app_Some u v (open spec') j) in Hf' by (done || apply Hne; eauto). injection Hf' as <-. by eapply Hmin. }
  destruct (decide (i < i')) as [Hlt|Hge].
  { simpl. by rewrite (proj2 (Nat.ltb_lt i i')). }
  exfalso. apply find_Some in Hf as [Ho _], Hf' as [Ho' _].
  assert (i' + length (open spec') > length u) as Hlong.
  { destruct (decide (i' + length (open spec') ≤ length u)) as [Hb|]; [|lia].
    apply (occurs_within _ u v i' Hb) in Ho'. by apply (proj1 (find_None _ _) Hu) in Ho'. }
  assert (spec = spec') as <-.
  { apply (Hsep spec spec' (i - i')); [by eapply Hin..|].
    pose proof (occurs_bound _ _ _ Ho). apply occurs_lookup. split; [lia|]. intros j Hj.
    apply (occurs_app_l _ u v) in Ho. rewrite occurs_lookup in Ho, Ho'. destruct Ho as [_ Ho], Ho' as [_ Ho'].
    rewrite <-Ho', <-Ho by lia. f_equal. lia. }
  apply (proj1 (find_None _ _) Hu) in Ho. done.
Qed.

Lemma max_list_ge (l : list nat) n : n ∈ l → n ≤ max_list l.
Proof. induction l as [|m l IH]; [by intros ?%elem_of_nil|]. intros [->|?%IH]%elem_of_cons; simpl; lia. Qed.
Lemma max_list_le (l : list nat) m : (∀ n, n ∈ l → n ≤ m) → max_list l ≤ m.
Proof. induction l as [|n l IH]; intros Hl; simpl; [lia|]. pose proof (Hl n ltac:(by left)). pose proof (IH (λ k Hk, Hl k (list_elem_of_further _ _ _ Hk))). lia. Qed.

(** With no tag in [u], the text before the longest partial tag has no part in
    what is found later. *)
Lemma find_next_open_kept l u v :
  separated l → find_next_open l u = None →
  let gone := length u - max_open_prefix_suffix_len l u in
  find_next_open l (u ++ v) = prod_map (λ i, gone + i) id <$> find_next_open l (drop gone u ++ v)
  ∧ max_open_prefix_suffix_len l (u ++ v) = max_open_prefix_suffix_len l (drop gone u ++ v)
  ∧ max_open_prefix_suffix_len l u ≤ length u.
Proof.
  intros [Hne _] Hnone gone. set (keep := max_open_prefix_suffix_len l u) in *.
  assert (Hle : keep ≤ length u).
  { apply max_list_le. intros k (spec&->&Hspec)%list_elem_of_fmap.
    apply (partial_bound (open spec)), longest_partial. by apply Hne. }
  assert (Hk : ∀ spec, spec ∈ l → find u (open spec) = None ∧ longest_suffix_prefix_len u (open spec) ≤ keep).
  { intros spec Hspec. split; [by apply (proj1 (find_next_open_None l u) Hnone)|].
    apply max_list_ge, list_elem_of_fmap. eauto. }
  assert (Hfind : ∀ spec, spec ∈ l → find (u ++ v) (open spec) = (λ i, gone + i) <$> find (drop gone u ++ v) (open spec)).
  { intros spec Hspec. destruct (Hk spec Hspec). apply find_kept; try done. by apply Hne. }
  split_and!; [| |done].
  - destruct (find_next_open l (drop gone u ++ v)) as [[i idx]|] eqn:Hf; simpl.
    + apply find_next_open_Some in Hf as (spec&Hl&Hf&Hmin). apply find_next_open_Some. exists spec.
      pose proof (list_elem_of_lookup_2 _ _ _ Hl). rewrite Hfind, Hf by done. split_and!; [done..|].
      intros idx' spec' i' Hl' Hf'. rewrite Hfind in Hf' by by eapply list_elem_of_lookup_2.
      apply fmap_Some in Hf' as (k&Hk'&->). specialize (Hmin idx' spec' k Hl' Hk').
      simpl in Hmin |- *. rewrite !orb_true_iff, !andb_true_iff, !orb_true_iff, !andb_true_iff,
        !Nat.ltb_lt, !Nat.eqb_eq, !Nat.leb_le in *. lia.
    + apply find_next_open_None. intros spec Hspec. rewrite Hfind by done.
      by rewrite (proj1 (find_next_open_None _ _) Hf).
  - unfold max_open_prefix_suffix_len at 1 2. f_equal. apply list_fmap_ext. intros i spec Hl.
    apply list_elem_of_lookup_2 in Hl. destruct (Hk spec Hl). apply longest_kept; try done. by apply Hne.
Qed.

(** *** Rounds *)

Definition with_pending (s : str) p : InlineHiddenTagParser T := set_state s (active p) p.

Lemma with_pending_id p : with_pending (pending p) p = p.
Proof. by destruct p. Qed.

Lemma round_well_formed p q c b : well_formed p → round p = (q, c, b) → well_formed q ∧ specs q = specs p.
Proof.
  intros [Hs Ha]. unfold round. destruct (active p) as [a|] eqn:Hact.
  - destruct (find _ _); intros [= <- <- <-]; by split; [split|].
  - destruct (find_next_open _ _) as [[i idx]|]; [|intros [= <- <- <-]; by split; [split|]].
    destruct (specs p !! idx) as [spec|] eqn:Hl; intros [= <- <- <-];
      [|unfold well_formed; by rewrite Hact].
    split; [split|]; [done| |done]. simpl. apply (proj1 Hs spec), list_elem_of_lookup. eauto.
Qed.

Lemma round_shrinks p q c : well_formed p → round p = (q, c, true) → length (pending q) < length (pending p).
Proof.
  intros [[Hne _] Ha]. unfold round. destruct (active p) as [a|].
  - destruct (find _ _) as [i|] eqn:Hf; [|done]. intros [= <- _]. apply find_Some in Hf as [Ho%occurs_bound _].
    simpl. rewrite length_drop. destruct (active_close a); [done|]. simpl in *. lia.
  - destruct (find_next_open _ _) as [[i idx]|] eqn:Hf; [|done].
    apply find_next_open_Some in Hf as (spec&Hl&Hf&_). rewrite Hl. intros [= <- _].
    apply find_Some in Hf as [Ho%occurs_bound _]. simpl. rewrite length_drop.
    destruct (Hne spec (list_elem_of_lookup_2 _ _ _ Hl)) as [Hopen _]. destruct (open spec); [done|]. simpl in *. lia.
Qed.

Lemma push_loop_round fuel p out :
  push_loop (S fuel) p out =
    let '(q, c, b) := round p in if (b : bool) then push_loop fuel q (chunk_app out c) else Ok (q, chunk_app out c).
Proof.
  cbn [push_loop]. unfold round. destruct (active p) as [a|].
  - destruct (find _ _); [done|]. cbn [fst snd]. by rewrite chunk_app_nil_r.
  - destruct (find_next_open _ _) as [[i idx]|] eqn:Hf; [|done].
    apply find_next_open_Some in Hf as (spec&Hl&_). by rewrite Hl.
Qed.

(** A round that goes on does the same when text follows. *)
Lemma round_more p q c v :
  well_formed p → round p = (q, c, true) →
  round (with_pending (pending p ++ v) p) = (with_pending (pending q ++ v) q, c, true).
Proof.
  intros [Hs Ha]. unfold round, with_pending. cbn [active pending specs set_state]. destruct (active p) as [a|].
  - destruct (find (pending p) _) as [i|] eqn:Hf; [|done]. intros [= <- <-].
    rewrite (find_app_Some _ v _ i) by done. apply find_Some in Hf as [Ho%occurs_bound _]. cbn [active pending specs set_state].
    rewrite drop_app_le, take_app_le by lia. done.
  - destruct (find_next_open (specs p) (pending p)) as [[i idx]|] eqn:Hf; [|done].
    rewrite (find_next_open_app _ _ v i idx) by done. apply find_next_open_Some in Hf as (spec&->&Hf&_). intros [= <- <-].
    apply find_Some in Hf as [Ho%occurs_bound _]. cbn [active pending specs set_state].
    rewrite drop_app_le, take_app_le by lia. done.
Qed.

Lemma drop_kept (u v : str) n i : n ≤ length u → drop (n + i) (u ++ v) = drop i (drop n u ++ v).
Proof. intros Hn. rewrite <-drop_drop. by rewrite drop_app_le. Qed.
Lemma take_kept (u v : str) n i : n ≤ length u → take (n + i) (u ++ v) = take n u ++ take i (drop n u ++ v).
Proof.
  intros Hn. rewrite <-(take_drop n u) at 1. rewrite <-app_assoc.
  rewrite <-(length_take_le u n Hn) at 1. apply take_app_add.
Qed.

Lemma length_kept (u v : str) n k :
  n ≤ length u → k ≤ length (drop n u ++ v) → length (u ++ v) - k = n + (length (drop n u ++ v) - k).
Proof. rewrite !length_app, length_drop. lia. Qed.

Lemma max_open_bound l s : separated l → max_open_prefix_suffix_len l s ≤ length s.
Proof.
  intros [Hne _]. apply max_list_le. intros k (spec&->&Hspec)%list_elem_of_fmap.
  apply (partial_bound (open spec)), longest_partial. by apply Hne.
Qed.

(** After a round that stops, following text is read as if it had been there at
    once. *)
Lemma round_stopped p q c v :
  well_formed p → round p = (q, c, false) →
  let '(r, d, b) := round (with_pending (pending q ++ v) q) in
  round (with_pending (pending p ++ v) p) = (r, chunk_app c d, b).
Proof.
  intros [Hs Ha]. unfold round at 1. destruct (active p) as [a|] eqn:Hact.
  - destruct (find (pending p) _) as [i|] eqn:Hf; [done|]. intros [= <- <-].
    pose proof (partial_bound _ _ _ (proj1 (longest_partial (pending p) _ Ha))) as Hk.
    set (keep := longest_suffix_prefix_len (pending p) (active_close a)) in *.
    set (n := length (pending p) - keep). assert (Hn : n ≤ length (pending p)) by (unfold n; lia).
    unfold round, with_pending. cbn [active pending specs set_state active_close active_tag active_content]. rewrite Hact.
    rewrite (find_kept (active_close a) (pending p) keep Ha Hf (le_n _) Hk v).
    rewrite (longest_kept (active_close a) (pending p) keep Ha Hf (le_n _) Hk v).
    fold n. destruct (find (drop n (pending p) ++ v) (active_close a)) as [i|]; cbn [fmap option_fmap option_map].
    + rewrite <-Nat.add_assoc, drop_kept, take_kept, app_assoc by done. done.
    + pose proof (partial_bound _ _ _ (proj1 (longest_partial (drop n (pending p) ++ v) _ Ha))) as Hk'.
      rewrite (length_kept (pending p) v n), drop_kept, take_kept, app_assoc by done. done.
  - destruct (find_next_open (specs p) (pending p)) as [[i idx]|] eqn:Hf.
    { apply find_next_open_Some in Hf as (spec&->&_). done. }
    intros [= <- <-]. destruct (find_next_open_kept (specs p) (pending p) v Hs Hf) as (Hfind&Hmax&Hk).
    set (n := length (pending p) - max_open_prefix_suffix_len (specs p) (pending p)) in *.
    assert (Hn : n ≤ length (pending p)) by (unfold n; lia).
    unfold round, with_pending. cbn [active pending specs set_state]. rewrite Hact, Hfind, Hmax.
    destruct (find_next_open (specs p) (drop n (pending p) ++ v)) as [[i idx]|] eqn:Hf';
      cbn [fmap option_fmap option_map prod_map fst snd id].
    + apply find_next_open_Some in Hf' as (spec&->&_).
      rewrite <-Nat.add_assoc, drop_kept, take_kept by done. done.
    + pose proof (max_open_bound (specs p) (drop n (pending p) ++ v) Hs).
      rewrite (length_kept (pending p) v n), drop_kept, take_kept by done. done.
Qed.

(** *** All rounds *)

Lemma push_loop_Ok fuel p :
  well_formed p → length (pending p) < fuel →
  ∃ q c, well_formed q ∧ specs q = specs p ∧
    ∀ fuel' out', fuel ≤ fuel' → push_loop fuel' p out' = Ok (q, chunk_app out' c).
Proof.
  revert p. induction fuel as [|fuel IH]; intros p Hp Hlen; [lia|]. destruct (round p) as [[q c] b] eqn:Hr.
  destruct (round_well_formed _ _ _ _ Hp Hr) as [Hq Hspecs]. destruct b.
  - pose proof (round_shrinks _ _ _ Hp Hr). destruct (IH q Hq ltac:(lia)) as (r&d&Hwf&Hsp&Hrun).
    exists r, (chunk_app c d). split_and!; [done|congruence|]. intros [|fuel'] out' Hle; [lia|].
    rewrite push_loop_round, Hr, Hrun by lia. by rewrite chunk_app_assoc.
  - exists q, c. split_and!; [done..|]. intros [|fuel'] out' Hle; [lia|]. by rewrite push_loop_round, Hr.
Qed.

(** Text that follows can be appended before the loop or after it. *)
Lemma push_loop_app fuel p out q o v f1 f2 :
  well_formed p → push_loop fuel p out = Ok (q, o) →
  length (pending p ++ v) < f1 → length (pending q ++ v) < f2 →
  push_loop f1 (with_pending (pending p ++ v) p) out = push_loop f2 (with_pending (pending q ++ v) q) o.
Proof.
  revert p out f1. induction fuel as [|fuel IH]; intros p out f1 Hp; [done|]. rewrite push_loop_round.
  destruct (round p) as [[r c] b] eqn:Hr. destruct (round_well_formed _ _ _ _ Hp Hr) as [Hq Hspecs].
  intros Hrun Hf1 Hf2. destruct f1 as [|f1]; [lia|]. rewrite push_loop_round. destruct b.
  - rewrite (round_more _ _ _ v Hp Hr). pose proof (round_shrinks _ _ _ Hp Hr). rewrite !length_app in *.
    apply IH; rewrite ?length_app; try done; lia.
  - injection Hrun as -> <-. pose proof (round_stopped _ _ _ v Hp Hr) as Hstop.
    destruct f2 as [|f2]; [lia|]. rewrite push_loop_round.
    destruct (round (with_pending (pending q ++ v) q)) as [[r d] b] eqn:Hr'. rewrite Hstop.
    rewrite chunk_app_assoc. destruct b; [|done].
    assert (Hp' : well_formed (with_pending (pending p ++ v) p)) by by destruct Hp.
    assert (Hq' : well_formed (with_pending (pending q ++ v) q)) by by destruct Hq.
    pose proof (round_shrinks _ _ _ Hp' Hstop) as H1. pose proof (round_shrinks _ _ _ Hq' Hr') as H2. simpl in H1, H2.
    destruct (push_loop_Ok (S (length (pending r))) r) as (x&y&_&_&Hxy);
      [by eapply (round_well_formed _ _ _ _ Hq' Hr')|lia|]. by rewrite !Hxy by lia.
Qed.

Lemma inline_push_total chunk p :
  well_formed p → ∃ q c, inline_push_str chunk p = Ok (q, c) ∧ well_formed q ∧ specs q = specs p.
Proof.
  intros Hp. destruct (push_loop_Ok (S (length (pending p ++ chunk))) (with_pending (pending p ++ chunk) p))
    as (q&c&Hq&Hs&Hrun); [by destruct Hp|simpl; lia|].
  exists q, (chunk_app chunk_default c). split_and!; [|done|done]. by apply Hrun.
Qed.

Lemma inline_push_app a b p q c r d :
  well_formed p → inline_push_str a p = Ok (q, c) → inline_push_str b q = Ok (r, d) →
  inline_push_str (a ++ b) p = Ok (r, chunk_app c d).
Proof.
  intros Hp Ha Hb. destruct (inline_push_total a p Hp) as (q'&c'&Ha'&Hq&_).
  rewrite Ha in Ha'. injection Ha' as <- <-. unfold inline_push_str in *. fold (with_pending (pending p ++ a) p) in Ha.
  assert (Hp' : well_formed (with_pending (pending p ++ a) p)) by by destruct Hp.
  pose proof (push_loop_app _ _ _ _ _ b (S (length (pending p ++ a ++ b))) (S (length (pending q ++ b))) Hp' Ha) as Happ.
  simpl in Happ. rewrite <-app_assoc in Happ. unfold with_pending in Happ. simpl in Happ.
  transitivity (push_loop (S (length (pending q ++ b))) (with_pending (pending q ++ b) q) c).
  { apply Happ; lia. }
  assert (Hq' : well_formed (with_pending (pending q ++ b) q)) by by destruct Hq.
  destruct (push_loop_Ok _ (with_pending (pending q ++ b) q) Hq' (Nat.lt_succ_diag_r _)) as (x&y&_&_&Hxy).
  fold (with_pending (pending q ++ b) q) in Hb. simpl in Hxy. rewrite Hxy in Hb |- * by lia.
  injection Hb as <- <-. done.
Qed.

Lemma inline_push_nil p : well_formed p → pending p = [] → active p = None → inline_push_str [] p = Ok (p, chunk_default).
Proof.
  intros [[Hne _] _] Hpend Hact. unfold inline_push_str. rewrite Hpend, Hact. simpl.
  destruct (find_next_open (specs p) []) as [[i idx]|] eqn:Hf.
  - exfalso. apply find_next_open_Some in Hf as (spec&Hl%list_elem_of_lookup_2&[Ho%occurs_bound _]%find_Some&_).
    destruct (Hne spec Hl) as [Hopen _]. destruct (open spec); [done|]. simpl in Ho. lia.
  - unfold set_state. rewrite <-Hpend at 2. rewrite <-Hact. by destruct p.
Qed.

Lemma inline_new_well_formed l p : separated l → inline_new l = Ok p → well_formed p ∧ pending p = [] ∧ active p = None.
Proof. intros Hl. unfold inline_new. repeat case_match; [done..|]. by intros [= <-]. Qed.
End Inline.

(** ** Merging segments *)

Section Segments.
Context {T : Type} `{EqDecision T}.
Implicit Types (x y z : list (TaggedLineSegment T)) (s : TaggedLineSegment T).

Definition merge_into x y : list (TaggedLineSegment T) := foldl (λ l s, push_segment s l) x y.
Definition segment_text s : str := match s with Normal text => text | _ => [] end.

Lemma merge_into_snoc x y s : merge_into x (y ++ [s]) = push_segment s (merge_into x y).
Proof. unfold merge_into. by rewrite foldl_app. Qed.

(** What a push does, by the last segment. *)
Lemma push_segment_cases s y :
  (∀ l, push_segment s l = l)
  ∨ push_segment s y = y ++ [s]
  ∨ ∃ y' e m, y = y' ++ [e] ∧ push_segment s y = y' ++ [m] ∧ ∀ l, push_segment m l = push_segment s (push_segment e l).
Proof.
  destruct s as [d|t|t d|t]; simpl; [|by eauto| |by eauto].
  - destruct d as [|ch d]; [by eauto|]. destruct (last y) as [[e| | |]|] eqn:Hl; try by eauto.
    apply last_Some in Hl as [y' ->]. right. right. exists y', (Normal e), (Normal (e ++ ch :: d)).
    rewrite but_last_snoc. split_and!; [done..|]. intros l. destruct e as [|c e]; [done|]. simpl.
    destruct (last l) as [[e'| | |]|] eqn:Hl; simpl; rewrite last_snoc, but_last_snoc; simpl; try done.
    by rewrite <-app_assoc.
  - destruct d as [|ch d]; [by eauto|]. destruct (last y) as [[| |t' e|]|] eqn:Hl; try by eauto.
    destruct (decide (t' = t)) as [->|]; [|by eauto].
    apply last_Some in Hl as [y' ->]. right. right. exists y', (TagDelta t e), (TagDelta t (e ++ ch :: d)).
    rewrite but_last_snoc. split_and!; [done..|]. intros l. destruct e as [|c e]; [done|]. simpl.
    destruct (last l) as [[| |t' e'|]|] eqn:Hl; simpl; try (rewrite last_snoc, but_last_snoc; simpl; by rewrite decide_True).
    destruct (decide (t' = t)) as [->|]; rewrite last_snoc, but_last_snoc; simpl; rewrite decide_True by done; [|done].
    by rewrite <-app_assoc.
Qed.

Lemma push_merge s x y : push_segment s (merge_into x y) = merge_into x (push_segment s y).
Proof.
  destruct (push_segment_cases s y) as [H|[H|(y'&e&m&->&H&Hm)]]; rewrite ?H.
  - done.
  - by rewrite merge_into_snoc.
  - by rewrite !merge_into_snoc, Hm.
Qed.

Lemma merge_into_assoc x y z : merge_into x (merge_into y z) = merge_into (merge_into x y) z.
Proof.
  induction z as [|s z IH] using rev_ind; [done|]. by rewrite !merge_into_snoc, <-push_merge, IH.
Qed.

(** The segments with neighbours merged. *)
Definition merged x : list (TaggedLineSegment T) := merge_into [] x.

Lemma merged_app x y : merged (x ++ y) = merge_into (merged x) (merged y).
Proof. unfold merged. rewrite merge_into_assoc. unfold merge_into. by rewrite foldl_app. Qed.
Lemma merged_merge_into x y : merged (merge_into x y) = merged (x ++ y).
Proof. rewrite merged_app. unfold merged. by rewrite !merge_into_assoc. Qed.

Lemma push_segment_text s y : push_segment s y ≫= segment_text = (y ≫= segment_text) ++ segment_text s.
Proof.
  destruct (push_segment_cases s y) as [H|[H|(y'&e&m&->&H&Hm)]]; rewrite ?H.
  - destruct s as [[|]| |? [|]|]; simpl; rewrite ?app_nil_r; try done; by specialize (H []).
  - rewrite bind_app. simpl. by rewrite app_nil_r.
  - rewrite !bind_app. simpl. rewrite !app_nil_r, <-app_assoc. f_equal. specialize (Hm []).
    destruct m as [[|]| |? [|]|], e as [[|]| |? [|]|], s as [[|]| |? [|]|]; simpl in Hm; repeat case_match; simplify_eq/=;
      rewrite ?app_nil_r; done.
Qed.

Lemma merge_into_text x y : merge_into x y ≫= segment_text = (x ≫= segment_text) ++ (y ≫= segment_text).
Proof.
  induction y as [|s y IH] using rev_ind; [by simpl; rewrite app_nil_r|].
  rewrite merge_into_snoc, push_segment_text, IH, bind_app. simpl. by rewrite app_nil_r, <-app_assoc.
Qed.

Lemma push_text_app a (u v : str) x : push_text a (u ++ v) x = push_text (T:=T) a v (push_text a u x).
Proof.
  unfold push_text. destruct a as [t|].
  - destruct u as [|c u]; [done|]. destruct v as [|c' v]; [by rewrite app_nil_r|]. simpl.
    destruct (last x) as [[| |t' e|]|] eqn:Hl; simpl;
      try (rewrite last_snoc, but_last_snoc; simpl; by rewrite decide_True).
    destruct (decide (t' = t)) as [->|]; rewrite last_snoc, but_last_snoc; simpl; rewrite decide_True by done; [|done].
    by rewrite <-app_assoc.
  - destruct u as [|c u]; [done|]. destruct v as [|c' v]; [by rewrite app_nil_r|]. simpl.
    destruct (last x) as [[e| | |]|] eqn:Hl; simpl; rewrite last_snoc, but_last_snoc; simpl; try done.
    by rewrite <-app_assoc.
Qed.

(** *** The lines parser *)

(** The segments when the run read so far is pushed. *)
Definition flush (st : TaggedLineParser T * str * list (TaggedLineSegment T)) : list (TaggedLineSegment T) :=
  let '(p, run, segments) := st in push_text (line_active p) run segments.

Lemma push_text_nil a x : push_text (T:=T) a [] x = x.
Proof. by destruct a. Qed.
Lemma push_run a (run : str) x : (if bool_decide (run = []) then x else push_text (T:=T) a run x) = push_text a run x.
Proof. destruct run; [by rewrite push_text_nil|done]. Qed.

Lemma line_parse_flush delta (p : TaggedLineParser T) :
  line_parse delta p = let st := foldl parse_char (p, [], []) delta in (st.1.1, flush st).
Proof. unfold line_parse. destruct (foldl _ _ _) as [[q run] segments]. simpl. by rewrite push_run. Qed.

(** A run may be pushed before the next character or after it. *)
Lemma parse_char_flushed (p : TaggedLineParser T) run x ch :
  let st := parse_char (p, run, x) ch in
  let st' := parse_char (p, [], flush (p, run, x)) ch in
  st.1.1 = st'.1.1 ∧ flush st = flush st'.
Proof.
  unfold parse_char. destruct (detect_tag p).
  - rewrite push_run. simpl. done.
  - simpl. destruct (ch =? NL)%N; simpl; split; try done; by rewrite push_text_app, ?push_text_nil.
Qed.

Lemma parse_chars_flushed delta (p : TaggedLineParser T) run x run' x' :
  flush (p, run, x) = flush (p, run', x') →
  let st := foldl parse_char (p, run, x) delta in
  let st' := foldl parse_char (p, run', x') delta in
  st.1.1 = st'.1.1 ∧ flush st = flush st'.
Proof.
  revert p run x run' x'. induction delta as [|ch delta IH]; intros p run x run' x' Hf; [done|].
  destruct (parse_char_flushed p run x ch) as [H1 H2], (parse_char_flushed p run' x' ch) as [H1' H2'].
  rewrite Hf in H1, H2. rewrite <-H1' in H1. rewrite <-H2' in H2. cbn [foldl].
  destruct (parse_char (p, run, x) ch) as [[q r] y], (parse_char (p, run', x') ch) as [[q' r'] y'].
  simpl in H1. subst q'. by apply IH.
Qed.

(** The segments made before have no influence. *)
Lemma line_effect_merge specs a line x y :
  (line_effect specs a line).2 (merge_into x y) = merge_into x ((line_effect (T:=T) specs a line).2 y).
Proof. unfold line_effect, push_text. repeat case_match; cbn [snd]; apply push_merge. Qed.

Lemma push_text_merge a (text : str) x y : push_text a text (merge_into x y) = merge_into x (push_text a text y).
Proof. apply push_merge. Qed.

Lemma parse_char_merge (p : TaggedLineParser T) run x y ch :
  parse_char (p, run, merge_into x y) ch = let st := parse_char (p, run, y) ch in (st.1, merge_into x st.2).
Proof.
  unfold parse_char, finish_line. destruct (detect_tag p); [|by case_match; rewrite ?push_text_merge].
  rewrite !push_run, push_text_merge. cbn [line_specs line_active line_buffer set_line]. destruct (ch =? NL)%N.
  - pose proof (line_effect_merge (line_specs p) (line_active p) (line_buffer p ++ [ch]) x
      (push_text (line_active p) run y)) as He.
    destruct (line_effect _ _ _) as [a emit]. cbn [snd] in He. by rewrite He.
  - case_match; [done|]. by rewrite push_text_merge.
Qed.

Lemma parse_chars_merge delta (p : TaggedLineParser T) run x y :
  foldl parse_char (p, run, merge_into x y) delta =
    let st := foldl parse_char (p, run, y) delta in (st.1, merge_into x st.2).
Proof.
  revert p run y. induction delta as [|ch delta IH]; intros p run y; [done|]. cbn [foldl]. rewrite parse_char_merge.
  destruct (parse_char (p, run, y) ch) as [[q r] z]. apply IH.
Qed.

Lemma line_parse_app a b (p : TaggedLineParser T) :
  line_parse (a ++ b) p =
    let '(q, x) := line_parse a p in let '(r, y) := line_parse b q in (r, merge_into x y).
Proof.
  rewrite (line_parse_flush (a ++ b)), foldl_app, (line_parse_flush a).
  destruct (foldl parse_char (p, [], []) a) as [[q run] x]. simpl. rewrite (line_parse_flush b). simpl.
  destruct (parse_chars_flushed b q run x [] (merge_into (flush (q, run, x)) [])) as [H1 H2];
    [by simpl; rewrite push_text_nil|].
  rewrite H1, H2, parse_chars_merge. destruct (foldl parse_char (q, [], []) b) as [[r run'] y]. cbn [fst snd flush].
  by rewrite push_text_merge.
Qed.
End Segments.
