(* ===== verification/StreamChunking.v ===== *)
(** * Cutting a stream into chunks

    What a parser of a stream puts out does not depend on where the stream is
    cut: an interface that states it for any parser, and the parsers that meet
    it. *)
From S2P Require Import Prelude Str StreamParser StreamParserFacts.
Import StreamParser.

(** ** The interface *)

(** A parser of a stream: what it makes of two chunks one after the other is
    what it makes of the two at once, up to [same]. *)
Class Incremental {P C : Type} (push : str → P → result Empty_set (P * C)) (app : C → C → C) : Type := {
  parser_ok : P → Prop;
  same : C → C → Prop;
  same_equivalence :: Equivalence same;
  same_app :: Proper (same ==> same ==> same) app;
  app_assoc' : ∀ a b c, app a (app b c) = app (app a b) c;
  push_total : ∀ s p, parser_ok p → ∃ q c, push s p = Ok (q, c) ∧ parser_ok q;
  push_app : ∀ a b p q c r d, parser_ok p → push a p = Ok (q, c) → push b q = Ok (r, d) →
    ∃ e, push (a ++ b) p = Ok (r, e) ∧ same e (app c d);
}.
Arguments parser_ok {P C} push {app _} _.
Arguments same {P C} push {app _} _ _.

Section Feed.
Context {P C : Type} (push : str → P → result Empty_set (P * C)) (app : C → C → C) `{!Incremental push app}.

(** The chunks one after the other, their outputs put together. *)
Fixpoint feed (zero : C) (chunks : list str) (p : P) : result Empty_set (P * C) :=
  match chunks with
  | [] => Ok (p, zero)
  | chunk :: chunks => '(q, c) ← push chunk p; feed (app zero c) chunks q
  end.

Lemma feed_push chunks s p q c w z :
  parser_ok push p → push s p = Ok (q, c) → same push w (app z c) →
  ∃ r d e, feed w chunks q = Ok (r, d) ∧ push (s ++ concat chunks) p = Ok (r, e) ∧ same push d (app z e).
Proof.
  revert s q c w. induction chunks as [|chunk chunks IH]; intros s q c w Hp Hs Hw; simpl.
  - rewrite app_nil_r. by exists q, w, c.
  - destruct (push_total s p Hp) as (?&?&Hs'&Hq). rewrite Hs in Hs'. injection Hs' as <- <-.
    destruct (push_total chunk q Hq) as (r&d&Hchunk&Hr). rewrite Hchunk. simpl.
    destruct (push_app s chunk p q c r d Hp Hs Hchunk) as (e&He&Hsame).
    rewrite (assoc_L (++)). apply (IH (s ++ chunk) r e); [done..|]. rewrite Hw, Hsame, app_assoc'. reflexivity.
Qed.

(** From a parser that nothing is pending in, feeding the chunks is pushing
    their concatenation. *)
Lemma feed_concat chunks p zero :
  parser_ok push p → push [] p = Ok (p, zero) → same push (app zero zero) zero →
  ∃ r d e, feed zero chunks p = Ok (r, d) ∧ push (concat chunks) p = Ok (r, e) ∧ same push d (app zero e).
Proof. intros Hp Hnil Hzero. eapply (feed_push chunks [] p p zero zero zero Hp Hnil). by symmetry. Qed.
End Feed.

(** ** The parsers that meet it *)

#[export] Program Instance inline_incremental {T} : Incremental (inline_push_str (T:=T)) chunk_app := {
  parser_ok := well_formed; same := eq }.
Next Obligation. intros T. apply chunk_app_assoc. Qed.
Next Obligation. intros T s p Hp. destruct (inline_push_total s p Hp) as (q&c&?&?&_). eauto. Qed.
Next Obligation. intros. eexists. split; [by eapply inline_push_app|done]. Qed.

#[export] Program Instance citation_incremental : Incremental (push_str (P:=CitationStreamParser)) chunk_app := {
  parser_ok p := well_formed (citation_inner p); same := eq }.
Next Obligation. apply chunk_app_assoc. Qed.
Next Obligation.
  intros s p Hp. destruct (inline_push_total s _ Hp) as (q&c&Hpush&?&_). simpl. rewrite Hpush. eauto.
Qed.
Next Obligation.
  intros a b p q c r d Hp Ha Hb. simpl in *.
  destruct (inline_push_str a _) as [[q' c']| |] eqn:Ha'; simplify_eq/=.
  destruct (inline_push_str b _) as [[r' d']| |] eqn:Hb'; simplify_eq/=.
  rewrite (inline_push_app _ _ _ _ _ _ _ Hp Ha' Hb'). eexists. split; [done|].
  unfold chunk_app. simpl. by rewrite fmap_app.
Qed.

Definition unmap_segment (s : ProposedPlanSegment) : TaggedLineSegment unit :=
  match s with
  | PlanNormal text => Normal text
  | ProposedPlanStart => TagStart ()
  | ProposedPlanDelta text => TagDelta () text
  | ProposedPlanEnd => TagEnd ()
  end.
(** The segments of a plan with the pieces of a text put together. *)
Definition merged_plan (l : list ProposedPlanSegment) : list (TaggedLineSegment unit) := merged (unmap_segment <$> l).

Definition same_plan (a b : StreamTextChunk ProposedPlanSegment) : Prop :=
  visible_text a = visible_text b ∧ merged_plan (extracted a) = merged_plan (extracted b).

#[export] Instance same_plan_equivalence : Equivalence same_plan.
Proof.
  split; [by split|by intros ?? []|]. intros ??? [] []. split; by etransitivity.
Qed.
#[export] Instance same_plan_app : Proper (same_plan ==> same_plan ==> same_plan) chunk_app.
Proof.
  intros a a' [Hv He] b b' [Hv' He']. unfold same_plan, merged_plan, chunk_app in *. simpl.
  rewrite !fmap_app, !merged_app. by rewrite Hv, He, Hv', He'.
Qed.

Lemma unmap_map (l : list (TaggedLineSegment unit)) : unmap_segment <$> (map_segment <$> l) = l.
Proof.
  rewrite <-list_fmap_compose. rewrite <-(list_fmap_id l) at 2. apply list_fmap_ext. by intros _ [|[]|[]|[]] _.
Qed.
Lemma map_segments_text l : visible_text (map_segments l) = l ≫= segment_text.
Proof.
  unfold map_segments. cbn [visible_text].
  induction l as [|[] l IH]; csimpl; by rewrite ?IH.
Qed.

#[export] Program Instance plan_incremental : Incremental (push_str (P:=ProposedPlanParser)) chunk_app := {
  parser_ok _ := True; same := same_plan }.
Next Obligation. apply chunk_app_assoc. Qed.
Next Obligation. simpl. eauto. Qed.
Next Obligation.
  intros a b p q c r d _ Ha Hb. simpl in *. rewrite line_parse_app.
  destruct (line_parse a _) as [q' x]. injection Ha as <- <-. simpl in Hb.
  destruct (line_parse b _) as [r' y]. injection Hb as <- <-. eexists. split; [done|]. split.
  - unfold plan_chunk. cbn [snd chunk_app visible_text]. rewrite !map_segments_text. apply merge_into_text.
  - unfold merged_plan, plan_chunk. simpl. rewrite fmap_app, !unmap_map. apply merged_merge_into.
Qed.

(** ** The assistant's text *)

Definition assistant_default : AssistantTextChunk :=
  {| assistant_visible_text := []; citations := []; plan_segments := [] |}.
Definition assistant_app (a b : AssistantTextChunk) : AssistantTextChunk := {|
  assistant_visible_text := assistant_visible_text a ++ assistant_visible_text b;
  citations := citations a ++ citations b;
  plan_segments := plan_segments a ++ plan_segments b |}.

Definition same_assistant (a b : AssistantTextChunk) : Prop :=
  assistant_visible_text a = assistant_visible_text b ∧ citations a = citations b
  ∧ merged_plan (plan_segments a) = merged_plan (plan_segments b).

#[export] Instance same_assistant_equivalence : Equivalence same_assistant.
Proof.
  split; [done|intros ?? (?&?&?); by split_and!|]. intros ??? (?&?&?) (?&?&?). split_and!; by etransitivity.
Qed.

#[export] Program Instance assistant_incremental : Incremental assistant_push_str assistant_app := {
  parser_ok p := well_formed (citation_inner (citations_parser p)); same := same_assistant }.
Next Obligation.
  intros a a' (H1&H2&H3) b b' (H1'&H2'&H3'). unfold same_assistant, merged_plan in *. simpl.
  rewrite !fmap_app, !merged_app. by rewrite H1, H2, H3, H1', H2', H3'.
Qed.
Next Obligation. intros [] [] []. unfold assistant_app. simpl. by rewrite !app_assoc. Qed.
Next Obligation.
  intros s p Hp. unfold assistant_push_str, parse_visible_text.
  destruct (push_total (Incremental:=citation_incremental) s (citations_parser p) Hp) as (q&c&->&Hq). simpl.
  destruct (plan_mode p); simpl; eauto.
Qed.
Next Obligation.
  intros a b p q c r d Hp. unfold assistant_push_str, parse_visible_text.
  destruct (push_str a (citations_parser p)) as [[cq cc]| |] eqn:Ha; [|done..]. cbn [mbind result_bind].
  destruct (plan_mode p) eqn:Hmode; cbn [negb].
  - destruct (push_str (visible_text cc) (plan p)) as [[pq pc]| |] eqn:Hpa; [|done..]. intros [= <- <-].
    cbn [citations_parser plan plan_mode negb].
    destruct (push_str b cq) as [[cr cd]| |] eqn:Hb; [|done..]. cbn [mbind result_bind].
    destruct (push_str (visible_text cd) pq) as [[pr pd]| |] eqn:Hpb; [|done..]. intros [= <- <-].
    destruct (push_app (Incremental:=citation_incremental) a b (citations_parser p) cq cc cr cd Hp Ha Hb) as (ce&->&->). cbn [mbind result_bind visible_text chunk_app].
    destruct (push_app (Incremental:=plan_incremental) _ _ (plan p) pq pc pr pd I Hpa Hpb) as (pe&->&[Hv He]). eexists. split; [done|]. by split_and!.
  - intros [= <- <-]. cbn [citations_parser plan plan_mode negb].
    destruct (push_str b cq) as [[cr cd]| |] eqn:Hb; [|done..]. intros [= <- <-].
    destruct (push_app (Incremental:=citation_incremental) a b (citations_parser p) cq cc cr cd Hp Ha Hb) as (ce&->&->). eexists. split; [done|]. by split_and!.
Qed.

(** What a caller of the parser has when the chunks have come and the stream has
    ended. *)
Definition assistant_text (plan_mode : bool) (chunks : list str) : result Empty_set AssistantTextChunk :=
  p ← assistant_new plan_mode;
  '(p, out) ← feed assistant_push_str assistant_app assistant_default chunks p;
  '(_, tail) ← assistant_finish p;
  Ok (assistant_app out tail).

Lemma citation_separated : separated [citation_spec].
Proof.
  split; [by intros s ->%list_elem_of_singleton|].
  by intros s s' i ->%list_elem_of_singleton ->%list_elem_of_singleton.
Qed.

Lemma assistant_text_lemma plan_mode chunks :
  ∃ c c', assistant_text plan_mode chunks = Ok c ∧ assistant_text plan_mode [concat chunks] = Ok c'
    ∧ same_assistant c c'.
Proof.
  unfold assistant_text. destruct (assistant_new plan_mode) as [p| |] eqn:Hp; [|by destruct plan_mode..]. simpl.
  assert (Hok : parser_ok assistant_push_str p).
  { unfold assistant_new, citation_new in Hp. simpl in Hp. injection Hp as <-. split; [apply citation_separated|done]. }
  assert (Hnil : assistant_push_str [] p = Ok (p, assistant_default)).
  { injection Hp as <-. by destruct plan_mode. }
  destruct (feed_concat assistant_push_str assistant_app chunks p assistant_default Hok Hnil) as (r&d&e&->&->&Hsame);
    [reflexivity|]. simpl.
  destruct (assistant_finish r) as [[r' t]| |] eqn:Hf; simpl.
  - eexists _, _. split; [done|]. split; [done|].
    apply (same_app (Incremental:=assistant_incremental)); [exact Hsame|reflexivity].
  - by destruct e0.
  - exfalso. unfold assistant_finish, parse_visible_text in Hf. simpl in Hf.
    destruct r as [[] [[? ? []]] ?]; done.
Qed.

(** C19. However a message is cut into chunks, the text shown and the
    citations of the streaming parser are those of the whole message at once,
    and the plan segments are too up to where a text is cut; the parser never
    panics. *)
Theorem assistant_text_any_chunks plan_mode chunks :
  ∃ c c', assistant_text plan_mode chunks = Ok c ∧ assistant_text plan_mode [concat chunks] = Ok c'
    ∧ same_assistant c c'.
Proof. exact (assistant_text_lemma plan_mode chunks). Qed.

(** ** Citations in a text *)

Definition citation_start (text : str) : InlineHiddenTagParser unit :=
  {| specs := [citation_spec]; pending := text; active := None |}.
Lemma citation_start_ok text : well_formed (citation_start text).
Proof. split; [apply citation_separated|done]. Qed.

(** The result of [strip_citations], from where its loop stopped. *)
Definition strip_result (q : InlineHiddenTagParser unit) (c : StreamTextChunk (ExtractedInlineTag unit))
    : result Empty_set (str * list str) :=
  '(_, t) ← inline_finish q;
  let out := chunk_app c t in
  Ok (visible_text out, content <$> extracted out).

Lemma strip_citations_run text q c :
  (∀ fuel out, length text < fuel → push_loop fuel (citation_start text) out = Ok (q, chunk_app out c)) →
  strip_citations text = strip_result q c.
Proof.
  intros Hrun. unfold strip_citations.
  change citation_new with (Ok (E:=Empty_set) {| citation_inner := citation_start [] |}).
  cbn [mbind result_bind push_str citation_parser citation_inner].
  change (inline_push_str text (citation_start []))
    with (push_loop (S (length text)) (citation_start text) chunk_default).
  rewrite Hrun by lia. destruct c as [v e], q as [sp pend [a|]]; unfold strip_result; simpl; by rewrite fmap_app.
Qed.

Lemma citation_find_next text :
  find_next_open [citation_spec] text = (λ i, (i, 0)) <$> find text CITATION_OPEN.
Proof.
  unfold find_next_open, open_candidate. cbn [imap citation_spec open].
  by destruct (find text CITATION_OPEN).
Qed.

Lemma citation_run text : ∃ q c, ∀ fuel out, length text < fuel →
  push_loop fuel (citation_start text) out = Ok (q, chunk_app out c).
Proof.
  destruct (push_loop_Ok (S (length text)) (citation_start text) (citation_start_ok text)) as (q&c&_&_&H); [simpl; lia|].
  exists q, c. intros fuel out Hf. by apply H.
Qed.

Lemma strip_citations_total text : ∃ r, strip_citations text = Ok r.
Proof.
  destruct (citation_run text) as (q&c&Hrun). rewrite (strip_citations_run _ _ _ Hrun).
  unfold strip_result. destruct q as [sp pend [a|]]; simpl; eauto.
Qed.

Lemma strip_citations_none text : find text CITATION_OPEN = None → strip_citations text = Ok (text, []).
Proof.
  intros Hf. pose proof (citation_find_next text) as Hn. rewrite Hf in Hn.
  set (n := length text - max_open_prefix_suffix_len [citation_spec] text).
  rewrite (strip_citations_run text (citation_start (drop n text)) (Build_StreamTextChunk (take n text) [])).
  - unfold strip_result, chunk_app. simpl. by rewrite take_drop.
  - intros [|fuel] out Hfuel; [lia|]. rewrite push_loop_round. unfold round. simpl. rewrite Hn. done.
Qed.

Lemma strip_citations_unclosed text i :
  find text CITATION_OPEN = Some i → find (drop (i + length CITATION_OPEN) text) CITATION_CLOSE = None →
  strip_citations text = Ok (take i text, [drop (i + length CITATION_OPEN) text]).
Proof.
  intros Hf Hc. pose proof (citation_find_next text) as Hn. rewrite Hf in Hn.
  destruct (citation_run text) as (q&c&Hrun). rewrite (strip_citations_run _ _ _ Hrun).
  specialize (Hrun (S (S (length text))) chunk_default ltac:(lia)).
  rewrite push_loop_round in Hrun. unfold round in Hrun. cbn [active citation_start pending specs] in Hrun.
  rewrite Hn in Hrun. cbn [fmap option_fmap option_map lookup list_lookup] in Hrun.
  rewrite push_loop_round in Hrun. unfold round in Hrun.
  cbn [active set_state opened active_close active_tag active_content pending specs citation_spec open close] in Hrun.
  rewrite Hc in Hrun. injection Hrun as <- Hv He.
  unfold strip_result. simpl. rewrite <-Hv, <-He. simpl. by rewrite !app_nil_r, take_drop.
Qed.

Lemma strip_citations_closed text i j :
  find text CITATION_OPEN = Some i →
  find (drop (i + length CITATION_OPEN) text) CITATION_CLOSE = Some j →
  strip_citations text =
    '(visible, cites) ← strip_citations (drop (j + length CITATION_CLOSE) (drop (i + length CITATION_OPEN) text));
    Ok (take i text ++ visible, take j (drop (i + length CITATION_OPEN) text) :: cites).
Proof.
  intros Hf Hc. pose proof (citation_find_next text) as Hn. rewrite Hf in Hn.
  set (rest := drop (j + _) _). destruct (citation_run rest) as (q&c&Hrun).
  rewrite (strip_citations_run _ _ _ Hrun).
  set (content := take j (drop (i + length CITATION_OPEN) text)).
  rewrite (strip_citations_run text q (chunk_app (Build_StreamTextChunk (take i text) [{| tag := (); content := content |}]) c)).
  - unfold strip_result. destruct q as [sp pend [a|]]; simpl; by rewrite ?app_assoc.
  - assert (Hlen : length rest + 2 ≤ length text).
    { apply find_Some in Hf as [Hf%occurs_bound _]. unfold rest. rewrite !length_drop. simpl in Hf |- *. lia. }
    intros [|[|fuel]] out Hfuel; [lia..|]. rewrite push_loop_round. unfold round.
    cbn [active citation_start pending specs]. rewrite Hn. cbn [fmap option_fmap option_map lookup list_lookup].
    rewrite push_loop_round. unfold round.
    cbn [active set_state opened active_close active_tag active_content pending specs citation_spec open close].
    rewrite Hc. unfold set_state. cbn [specs]. fold rest content. fold (citation_start rest). rewrite Hrun by lia.
    f_equal. f_equal. rewrite <-!(chunk_app_assoc out). f_equal. unfold chunk_app. simpl. by rewrite app_nil_r.
Qed.

(** Stripping citations shows the text outside the citation tags and
    collects what is inside them, from the first opening tag to the next
    closing one or to the end, and goes on after it. *)
Theorem strip_citations_spec text :
  strip_citations text =
    match find text CITATION_OPEN with
    | None => Ok (text, [])
    | Some i =>
        let inside := drop (i + length CITATION_OPEN) text in
        match find inside CITATION_CLOSE with
        | None => Ok (take i text, [inside])
        | Some j =>
            '(visible, cites) ← strip_citations (drop (j + length CITATION_CLOSE) inside);
            Ok (take i text ++ visible, take j inside :: cites)
        end
    end.
Proof.
  destruct (find text CITATION_OPEN) as [i|] eqn:Hf; [|by apply strip_citations_none].
  cbn zeta. destruct (find (drop _ _) CITATION_CLOSE) as [j|] eqn:Hc;
    [by apply strip_citations_closed|by apply strip_citations_unclosed].
Qed.
