(* ===== verification/Utf8Stream.v ===== *)
(** * Streams of bytes

    Models [utils/stream-parser/src/utf8_stream.rs]: the adapter that reads a
    stream of bytes as UTF-8 for a parser of text, keeping a character that is
    cut by the end of a chunk until the rest of it comes. *)
From S2P Require Import Prelude Str StreamParser StreamParserFacts StreamChunking.
Import StreamParser.

Module Utf8.

(** ** UTF-8, as [std::str::from_utf8] reads it *)

(** How the reading of a character ends: with the character and its width, with
    the end of the bytes within it, or with bytes that are no character and
    their number. *)
Inductive decoded : Type := Char (c : char) (width : nat) | Cut | Bad (error_len : nat).

Definition in_range (lo hi b : N) : bool := (lo <=? b)%N && (b <=? hi)%N.
Definition is_cont (b : N) : bool := in_range 128 191 b.

(** The second byte of a character of three bytes, and of four. *)
Definition second_of_3 (b0 b1 : N) : bool :=
  ((b0 =? 224)%N && in_range 160 191 b1) || (in_range 225 236 b0 && is_cont b1)
  || ((b0 =? 237)%N && in_range 128 159 b1) || (in_range 238 239 b0 && is_cont b1).
Definition second_of_4 (b0 b1 : N) : bool :=
  ((b0 =? 240)%N && in_range 144 191 b1) || (in_range 241 243 b0 && is_cont b1)
  || ((b0 =? 244)%N && in_range 128 143 b1).

Definition decode_char (bytes : list N) : decoded :=
  match bytes with
  | [] => Cut
  | b0 :: bytes =>
      if (b0 <? 128)%N then Char b0 1
      else if in_range 194 223 b0 then
        match bytes with
        | [] => Cut
        | b1 :: _ => if is_cont b1 then Char ((b0 - 192) * 64 + (b1 - 128))%N 2 else Bad 1
        end
      else if in_range 224 239 b0 then
        match bytes with
        | [] => Cut
        | b1 :: bytes =>
            if second_of_3 b0 b1 then
              match bytes with
              | [] => Cut
              | b2 :: _ =>
                  if is_cont b2 then Char ((b0 - 224) * 4096 + (b1 - 128) * 64 + (b2 - 128))%N 3 else Bad 2
              end
            else Bad 1
        end
      else if in_range 240 244 b0 then
        match bytes with
        | [] => Cut
        | b1 :: bytes =>
            if second_of_4 b0 b1 then
              match bytes with
              | [] => Cut
              | b2 :: bytes =>
                  if is_cont b2 then
                    match bytes with
                    | [] => Cut
                    | b3 :: _ =>
                        if is_cont b3
                        then Char ((b0 - 240) * 262144 + (b1 - 128) * 4096 + (b2 - 128) * 64 + (b3 - 128))%N 4
                        else Bad 3
                    end
                  else Bad 2
              end
            else Bad 1
        end
      else Bad 1
  end.

(** The text read, the number of its bytes ([valid_up_to]), and the error, with
    its [error_len] when it has one. *)
Record utf8_read : Type := { text : str; valid_up_to : nat; error : option (option nat) }.

Definition read_cons (c : char) (w : nat) (r : utf8_read) : utf8_read :=
  {| text := c :: text r; valid_up_to := w + valid_up_to r; error := error r |}.

(** A character has at least one byte, so that the length of the bytes bounds
    the characters. *)
Fixpoint read_chars (fuel : nat) (bytes : list N) : utf8_read :=
  match fuel with
  | 0 => {| text := []; valid_up_to := 0; error := None |}
  | S fuel =>
      match decode_char bytes with
      | Char c w => read_cons c w (read_chars fuel (drop w bytes))
      | Cut => {| text := []; valid_up_to := 0; error := if bool_decide (bytes = []) then None else Some None |}
      | Bad n => {| text := []; valid_up_to := 0; error := Some (Some n) |}
      end
  end.
Definition from_utf8 (bytes : list N) : utf8_read := read_chars (S (length bytes)) bytes.

(** ** The adapter *)

Inductive Utf8StreamParserError : Type :=
| InvalidUtf8 (valid_up_to error_len : nat)
| IncompleteUtf8AtEof.

Section Adapter.
Context {P E : Type} `{!StreamTextParser P E}.

Record Utf8StreamParser : Type := { inner : P; pending_utf8 : list N }.

Definition utf8_new (inner : P) : Utf8StreamParser := {| inner := inner; pending_utf8 := [] |}.

(** The parser after the call, for the errors too, and what the call returns. *)
Definition outcome : Type := Utf8StreamParser * (StreamTextChunk E + Utf8StreamParserError).

Definition push_inner (text : str) (rest : list N) (p : Utf8StreamParser) : result Empty_set outcome :=
  '(q, out) ← push_str text (inner p); Ok ({| inner := q; pending_utf8 := rest |}, inl out).

Definition push_bytes (chunk : list N) (p : Utf8StreamParser) : result Empty_set outcome :=
  let old_len := length (pending_utf8 p) in
  let pending := pending_utf8 p ++ chunk in
  let rolled_back := {| inner := inner p; pending_utf8 := take old_len pending |} in
  let r := from_utf8 pending in
  match error r with
  | None => push_inner (text r) [] p
  | Some (Some error_len) => Ok (rolled_back, inr (InvalidUtf8 (valid_up_to r) error_len))
  | Some None =>
      if valid_up_to r =? 0 then Ok ({| inner := inner p; pending_utf8 := pending |}, inl chunk_default)
      else
        let prefix := from_utf8 (take (valid_up_to r) pending) in
        match error prefix with
        | None => push_inner (text prefix) (drop (valid_up_to r) pending) p
        | Some error_len =>
            Ok (rolled_back, inr (InvalidUtf8 (valid_up_to prefix) (default 0 error_len)))
        end
  end.

Definition utf8_finish (p : Utf8StreamParser) : result Empty_set outcome :=
  let r := from_utf8 (pending_utf8 p) in
  match pending_utf8 p, error r with
  | _ :: _, Some (Some error_len) => Ok (p, inr (InvalidUtf8 (valid_up_to r) error_len))
  | _ :: _, Some None => Ok (p, inr IncompleteUtf8AtEof)
  | pending, _ =>
      '(p, out) ← match pending with
                  | [] => Ok (p, chunk_default)
                  | _ :: _ =>
                      '(q, out) ← push_str (text r) (inner p);
                      Ok ({| inner := q; pending_utf8 := [] |}, out)
                  end;
      '(q, tail) ← finish (inner p);
      Ok ({| inner := q; pending_utf8 := pending_utf8 p |}, inl (chunk_app out tail))
  end.

Definition into_inner (p : Utf8StreamParser) : P + Utf8StreamParserError :=
  match pending_utf8 p with
  | [] => inl (inner p)
  | _ :: _ =>
      let r := from_utf8 (pending_utf8 p) in
      match error r with
      | None => inl (inner p)
      | Some (Some error_len) => inr (InvalidUtf8 (valid_up_to r) error_len)
      | Some None => inr IncompleteUtf8AtEof
      end
  end.
Definition into_inner_lossy (p : Utf8StreamParser) : P := inner p.
End Adapter.
Arguments Utf8StreamParser : clear implicits.
Arguments outcome : clear implicits.
Arguments utf8_new {P} _.

(** [char::encode_utf8]. *)
Definition encode_char (c : char) : list N :=
  (if c <? 128 then [c]
   else if c <? 2048 then [192 + c / 64; 128 + c mod 64]
   else if c <? 65536 then [224 + c / 4096; 128 + c / 64 mod 64; 128 + c mod 64]
   else [240 + c / 262144; 128 + c / 4096 mod 64; 128 + c / 64 mod 64; 128 + c mod 64])%N.
Definition encode_utf8 (s : str) : list N := s ≫= encode_char.

(** ** Reading *)

Lemma decode_char_app a b :
  match decode_char a with
  | Char c w => decode_char (a ++ b) = Char c w ∧ decode_char (take w a) = Char c w ∧ 1 ≤ w ≤ length a
  | Bad n => decode_char (a ++ b) = Bad n
  | Cut => True
  end.
Proof.
  destruct a as [|b0 [|b1 [|b2 [|b3 a]]]]; [done|..]; cbn [app decode_char];
    repeat match goal with |- context [if ?b then _ else _] => destruct b eqn:? end; try done;
    cbn [take decode_char]; repeat match goal with H : ?b = _ |- context [?b] => rewrite H end;
    (split_and!; [done..|simpl; lia|simpl; lia]).
Qed.

Lemma read_chars_fuel fuel bytes : length bytes < fuel → read_chars fuel bytes = from_utf8 bytes.
Proof.
  assert (H : ∀ n f1 f2 l, length l < n → length l < f1 → length l < f2 → read_chars f1 l = read_chars f2 l).
  { intros n. induction n as [|n IH]; intros [|f1] [|f2] l ???; try lia. cbn [read_chars].
    pose proof (decode_char_app l []) as Hd. destruct (decode_char l) as [c w| |]; [|done..].
    destruct Hd as (_&_&?). f_equal. apply IH; rewrite length_drop; lia. }
  intros Hf. apply (H (S (length bytes))); lia.
Qed.

Lemma from_utf8_step bytes :
  from_utf8 bytes =
    match decode_char bytes with
    | Char c w => read_cons c w (from_utf8 (drop w bytes))
    | Cut => {| text := []; valid_up_to := 0; error := if bool_decide (bytes = []) then None else Some None |}
    | Bad n => {| text := []; valid_up_to := 0; error := Some (Some n) |}
    end.
Proof.
  unfold from_utf8 at 1. cbn [read_chars]. pose proof (decode_char_app bytes []) as Hd.
  destruct (decode_char bytes) as [c w| |]; [|done..]. destruct Hd as (_&_&?).
  by rewrite read_chars_fuel by (rewrite length_drop; lia).
Qed.

Definition read_app (r r' : utf8_read) : utf8_read := {|
  text := text r ++ text r'; valid_up_to := valid_up_to r + valid_up_to r'; error := error r' |}.

(** What is read of some bytes is read of them when others follow. *)
Lemma from_utf8_prefix a b :
  let r := from_utf8 a in
  valid_up_to r ≤ length a ∧
  from_utf8 (take (valid_up_to r) a) = {| text := text r; valid_up_to := valid_up_to r; error := None |} ∧
  (error r = None → valid_up_to r = length a) ∧
  (∀ n, error r = Some (Some n) → from_utf8 (a ++ b) = r) ∧
  (error r = None ∨ error r = Some None →
   from_utf8 (a ++ b) = read_app r (from_utf8 (drop (valid_up_to r) a ++ b))).
Proof.
  assert (H : ∀ n a, length a < n →
    let r := from_utf8 a in
    valid_up_to r ≤ length a ∧
    from_utf8 (take (valid_up_to r) a) = {| text := text r; valid_up_to := valid_up_to r; error := None |} ∧
    (error r = None → valid_up_to r = length a) ∧
    (∀ n, error r = Some (Some n) → from_utf8 (a ++ b) = r) ∧
    (error r = None ∨ error r = Some None →
     from_utf8 (a ++ b) = read_app r (from_utf8 (drop (valid_up_to r) a ++ b)))); [|eauto].
  intros n. induction n as [|n IH]; intros l Hl; [lia|]. rewrite (from_utf8_step l).
  pose proof (decode_char_app l b) as Hd. destruct (decode_char l) as [c w| |k] eqn:Hdec; cbn [valid_up_to text error read_cons].
  - destruct Hd as (Happ&Htake&?&?). destruct (IH (drop w l)) as (H1&H2&H3&H4&H5); [rewrite length_drop; lia|].
    set (r := from_utf8 (drop w l)) in *. rewrite length_drop in *.
    assert (Hrest : from_utf8 (l ++ b) = read_cons c w (from_utf8 (drop w l ++ b))).
    { rewrite from_utf8_step, Happ. by rewrite drop_app_le. }
    split_and!; [lia| |by intros ?%H3; lia|intros k Hk; by rewrite Hrest, (H4 k)|].
    + rewrite from_utf8_step, <-take_take_drop. pose proof (decode_char_app (take w l) (take (valid_up_to r) (drop w l))) as Hw.
      rewrite Htake in Hw. destruct Hw as (->&_&_). rewrite drop_app_length' by (rewrite length_take; lia).
      by rewrite H2.
    + intros He. rewrite Hrest, H5, <-drop_drop by done. unfold read_app, read_cons. simpl. f_equal. lia.
  - split_and!; [lia|done|by case_bool_decide; subst|by case_bool_decide|]. intros _. by destruct (from_utf8 _).
  - split_and!; [lia|done|done| |by intros []]. intros k' [= <-]. by rewrite from_utf8_step, Hd.
Qed.

(** *** Characters *)

(** The values of Rust's [char]. *)
Definition is_scalar (c : char) : bool := ((c <? 55296) || ((57344 <=? c) && (c <=? 1114111)))%N.

(** A number by its digits to the base 64. *)
Lemma digits c :
  ∃ z a b m, (c = z * 262144 + a * 4096 + b * 64 + m ∧ a < 64 ∧ b < 64 ∧ m < 64
    ∧ c mod 64 = m ∧ c / 64 mod 64 = b ∧ c / 4096 mod 64 = a ∧ c / 64 = z * 4096 + a * 64 + b
    ∧ c / 4096 = z * 64 + a ∧ c / 262144 = z)%N.
Proof.
  exists (c / 262144)%N, (c / 4096 mod 64)%N, (c / 64 mod 64)%N, (c mod 64)%N. zify. Z.to_euclidean_division_equations. lia.
Qed.

(** Decides the comparisons in the goal, one by one. *)
Ltac compare_numbers :=
  repeat (match goal with
  | |- context [(?x <? ?y)%N] => destruct (N.ltb_spec x y)
  | |- context [(?x <=? ?y)%N] => destruct (N.leb_spec x y)
  | |- context [(?x =? ?y)%N] => destruct (N.eqb_spec x y)
  end; try (exfalso; lia); cbn [andb orb]).

Lemma decode_encode_char (c : N) rest :
  is_scalar c = true → decode_char (encode_char c ++ rest) = Char c (len_utf8 c) ∧ length (encode_char c) = len_utf8 c.
Proof.
  unfold is_scalar, encode_char, len_utf8. intros Hc.
  rewrite orb_true_iff, andb_true_iff, N.ltb_lt, !N.leb_le in Hc.
  destruct (digits c) as (z&a&b&m&Hdig&?&?&?&->&->&->&->&->&->).
  repeat match goal with |- context [(c <? ?b)%N] => destruct (N.ltb_spec c b) end; (split; [|done]);
    cbn [app decode_char]; unfold second_of_3, second_of_4, is_cont, in_range; compare_numbers; f_equal; lia.
Qed.

Lemma from_utf8_encode s :
  Forall (λ c, is_scalar c = true) s →
  from_utf8 (encode_utf8 s) = {| text := s; valid_up_to := byte_len s; error := None |}.
Proof.
  induction 1 as [|c s Hc Hs IH]; [done|]. unfold encode_utf8. cbn [mbind list_bind]. fold (encode_utf8 s).
  destruct (decode_encode_char c (encode_utf8 s) Hc) as [Hd Hlen].
  rewrite from_utf8_step, Hd, <-Hlen, drop_app_length, IH, Hlen. done.
Qed.

(** ** The adapter is transparent *)

Section Transparent.
Context {P E : Type} `{!StreamTextParser P E} `{!Incremental (push_str (P:=P)) chunk_app}.

(** The chunks one after the other, up to the first error. *)
Fixpoint feed_bytes (out : StreamTextChunk E) (chunks : list (list N)) (p : Utf8StreamParser P)
    : result Empty_set (outcome P E) :=
  match chunks with
  | [] => Ok (p, inl out)
  | chunk :: chunks =>
      '(q, o) ← push_bytes chunk p;
      match o with
      | inl c => feed_bytes (chunk_app out c) chunks q
      | inr e => Ok (q, inr e)
      end
  end.

(** A parser, and its output, after bytes without an error: the text read of
    them was pushed, and the character that is cut is pending. *)
Definition after (p : P) (bytes : list N) (q : Utf8StreamParser P) (out : StreamTextChunk E) : Prop :=
  let r := from_utf8 bytes in
  (error r = None ∨ error r = Some None) ∧ pending_utf8 q = drop (valid_up_to r) bytes ∧
  ∃ c, push_str (text r) p = Ok (inner q, c) ∧ same push_str out c.

Lemma valid_zero bytes : valid_up_to (from_utf8 bytes) = 0 → text (from_utf8 bytes) = [].
Proof.
  rewrite from_utf8_step. pose proof (decode_char_app bytes []) as Hd. destruct (decode_char bytes); [|done..].
  simpl. lia.
Qed.

Lemma push_inner_after p bytes q out text' rest chunk :
  parser_ok push_str p → after p bytes q out →
  text (from_utf8 (bytes ++ chunk)) = text (from_utf8 bytes) ++ text' →
  error (from_utf8 (bytes ++ chunk)) = None ∨ error (from_utf8 (bytes ++ chunk)) = Some None →
  rest = drop (valid_up_to (from_utf8 (bytes ++ chunk))) (bytes ++ chunk) →
  ∃ q' c, push_inner text' rest q = Ok (q', inl c) ∧ after p (bytes ++ chunk) q' (chunk_app out c).
Proof.
  intros Hp (_&_&c&Hc&Hout) Htext Herr ->.
  destruct (push_total (text (from_utf8 bytes)) p Hp) as (?&?&Hc'&Hq). rewrite Hc in Hc'. injection Hc' as <- <-.
  destruct (push_total text' (inner q) Hq) as (r&d&Hd&_).
  destruct (push_app _ _ _ _ _ _ _ Hp Hc Hd) as (e&He&Hsame).
  unfold push_inner. rewrite Hd. eexists _, d. split; [done|]. split_and!; [done..|]. exists e.
  rewrite Htext. split; [done|]. rewrite Hsame, Hout. reflexivity.
Qed.

Lemma push_bytes_after p bytes q out chunk :
  parser_ok push_str p → after p bytes q out →
  match error (from_utf8 (bytes ++ chunk)) with
  | Some (Some n) => ∃ v, push_bytes chunk q = Ok (q, inr (InvalidUtf8 v n))
  | _ => ∃ q' c, push_bytes chunk q = Ok (q', inl c) ∧ after p (bytes ++ chunk) q' (chunk_app out c)
  end.
Proof.
  intros Hp Hafter. pose proof Hafter as (Herr&Hpend&c&Hc&Hout).
  destruct (from_utf8_prefix bytes chunk) as (Hv&_&_&_&Happ). specialize (Happ Herr). rewrite <-Hpend in Happ.
  set (r := from_utf8 bytes) in *. set (s := from_utf8 (pending_utf8 q ++ chunk)) in *.
  destruct (from_utf8_prefix (pending_utf8 q ++ chunk) []) as (Hv'&Hprefix&Hfull&_). fold s in Hv', Hprefix, Hfull.
  assert (Hdrop : drop (valid_up_to (from_utf8 (bytes ++ chunk))) (bytes ++ chunk)
    = drop (valid_up_to s) (pending_utf8 q ++ chunk)).
  { rewrite Happ, Hpend. simpl. by rewrite <-drop_drop, drop_app_le. }
  assert (Htext : text (from_utf8 (bytes ++ chunk)) = text r ++ text s) by by rewrite Happ.
  assert (Herr' : error (from_utf8 (bytes ++ chunk)) = error s) by by rewrite Happ.
  rewrite Herr'. unfold push_bytes. fold s. destruct (error s) as [[n|]|] eqn:Hs.
  - exists (valid_up_to s). rewrite take_app_length. by destruct q.
  - destruct (Nat.eqb_spec (valid_up_to s) 0) as [Hz|Hnz].
    + eexists _, _. split; [done|]. split_and!; [by rewrite Herr'; right|by rewrite Hdrop, Hz|].
      exists c. pose proof (valid_zero _ Hz) as Ht. fold s in Ht. rewrite Htext, Ht, app_nil_r. split; [done|].
      by rewrite chunk_app_nil_r.
    + rewrite Hprefix. cbn [error text]. by apply (push_inner_after p bytes q out); rewrite ?Herr'; auto.
  - apply (push_inner_after p bytes q out); rewrite ?Herr'; auto.
    rewrite Hdrop, Hfull by done. by rewrite drop_ge.
Qed.

Lemma feed_bytes_after p chunks bytes q out :
  parser_ok push_str p → after p bytes q out →
  match error (from_utf8 (bytes ++ concat chunks)) with
  | Some (Some n) => ∃ q' v, feed_bytes out chunks q = Ok (q', inr (InvalidUtf8 v n))
  | _ => ∃ q' out', feed_bytes out chunks q = Ok (q', inl out') ∧ after p (bytes ++ concat chunks) q' out'
  end.
Proof.
  intros Hp. revert bytes q out. induction chunks as [|chunk chunks IH]; intros bytes q out Hafter; simpl.
  - rewrite app_nil_r. pose proof Hafter as ([->| ->]&_); eauto.
  - pose proof (push_bytes_after p bytes q out chunk Hp Hafter) as Hpush.
    rewrite (assoc_L (++)). destruct (from_utf8_prefix (bytes ++ chunk) (concat chunks)) as (_&_&_&Hbad&_).
    destruct (error (from_utf8 (bytes ++ chunk))) as [[n|]|] eqn:He.
    + destruct Hpush as [v ->]. rewrite (Hbad n), He by done. simpl. eauto.
    + destruct Hpush as (q'&c&->&Hafter'). by apply IH.
    + destruct Hpush as (q'&c&->&Hafter'). by apply IH.
Qed.

Lemma bytes_transparent_lemma p chunks :
  parser_ok push_str p → push_str [] p = Ok (p, chunk_default) →
  let r := from_utf8 (concat chunks) in
  match error r with
  | None =>
      ∃ q out c, feed_bytes chunk_default chunks (utf8_new p) = Ok (q, inl out) ∧ into_inner q = inl (inner q)
        ∧ push_str (text r) p = Ok (inner q, c) ∧ same push_str out c
  | Some None =>
      ∃ q out, feed_bytes chunk_default chunks (utf8_new p) = Ok (q, inl out)
        ∧ utf8_finish q = Ok (q, inr IncompleteUtf8AtEof)
  | Some (Some n) => ∃ q v, feed_bytes chunk_default chunks (utf8_new p) = Ok (q, inr (InvalidUtf8 v n))
  end.
Proof.
  intros Hp Hnil. assert (Hafter : after p [] (utf8_new p) chunk_default).
  { split_and!; [by left|done|]. exists chunk_default. split; [done|reflexivity]. }
  pose proof (feed_bytes_after p chunks [] _ _ Hp Hafter) as Hfeed. rewrite app_nil_l in Hfeed. cbn zeta.
  destruct (from_utf8_prefix (concat chunks) []) as (_&_&Hfull&_&Happ). rewrite app_nil_r in Happ.
  destruct (error (from_utf8 (concat chunks))) as [[n|]|] eqn:He; [done| |].
  - destruct Hfeed as (q&out&Hfeed&_&Hpend&_). exists q, out. split; [done|]. unfold utf8_finish.
    specialize (Happ (or_intror eq_refl)). rewrite app_nil_r, <-Hpend in Happ.
    apply (f_equal error) in Happ. rewrite He in Happ. simpl in Happ. rewrite <-Happ.
    destruct (pending_utf8 q); [|done]. done.
  - destruct Hfeed as (q&out&Hfeed&_&Hpend&c&Hc&Hsame). exists q, out, c. split_and!; [done| |done|done].
    unfold into_inner. rewrite Hpend, drop_ge; [done|]. by rewrite Hfull.
Qed.
End Transparent.

(** C23. Feeding the UTF-8 adapter bytes in any chunks pushes into the parser
    behind it exactly the text of all the bytes and keeps nothing; bytes that
    end within a character make the end of the stream an error, and malformed
    bytes make a chunk one. *)
Theorem bytes_transparent {P E} `{!StreamTextParser P E} `{!Incremental (push_str (P:=P)) chunk_app} p chunks
    (Hp : parser_ok push_str p) (Hnil : push_str [] p = Ok (p, chunk_default)) :
  let r := from_utf8 (concat chunks) in
  match error r with
  | None =>
      ∃ q out c, feed_bytes chunk_default chunks (utf8_new p) = Ok (q, inl out) ∧ into_inner q = inl (inner q)
        ∧ push_str (text r) p = Ok (inner q, c) ∧ same push_str out c
  | Some None =>
      ∃ q out, feed_bytes chunk_default chunks (utf8_new p) = Ok (q, inl out)
        ∧ utf8_finish q = Ok (q, inr IncompleteUtf8AtEof)
  | Some (Some n) => ∃ q v, feed_bytes chunk_default chunks (utf8_new p) = Ok (q, inr (InvalidUtf8 v n))
  end.
Proof. exact (bytes_transparent_lemma p chunks Hp Hnil). Qed.

(** The citations parser, with a character cut between two chunks. *)
Lemma bytes_transparent_witness :
  ∃ q out c,
    feed_bytes chunk_default [[65; 195]; [169; 60]]%N (utf8_new {| citation_inner := citation_start [] |}) = Ok (q, inl out)
    ∧ into_inner q = inl (inner q)
    ∧ push_str [65; 233; 60]%N {| citation_inner := citation_start [] |} = Ok (inner q, c) ∧ out = c.
Proof.
  exact (bytes_transparent {| citation_inner := citation_start [] |} [[65; 195]; [169; 60]]%N
    (citation_start_ok []) eq_refl).
Defined.

(** A text written as UTF-8 and read is that text. *)
Theorem utf8_roundtrip s (Hs : Forall (λ c, is_scalar c = true) s) :
  from_utf8 (encode_utf8 s) = {| text := s; valid_up_to := byte_len s; error := None |}.
Proof. exact (from_utf8_encode s Hs). Qed.
Lemma utf8_roundtrip_witness :
  from_utf8 (encode_utf8 [65; 233; 20013; 128512]%N) =
    {| text := [65; 233; 20013; 128512]%N; valid_up_to := 10; error := None |}.
Proof. apply (utf8_roundtrip [65; 233; 20013; 128512]%N). repeat constructor. Defined.

(** A chunk that is refused leaves the parser as it was. *)
Lemma push_bytes_rolls_back {P E} `{!StreamTextParser P E} chunk (p q : Utf8StreamParser P) e :
  push_bytes chunk p = Ok (q, inr e) → q = p.
Proof.
  unfold push_bytes, push_inner. rewrite take_app_length.
  repeat case_match; try (intros [= <- _]; by destruct p); try done; destruct (push_str _ _) as [[]| |]; done.
Qed.
End Utf8.
