(* ===== verification/NetAddr.v ===== *)
(** * Network addresses

    The part of [std::net] that the network proxy relies on (reading addresses
    and classifying them), and the proxy's own classification of addresses that
    are not public, of [network-proxy/src/policy.rs]. *)
From S2P Require Import Prelude Str.

Module NetAddr.

(** ** [std::net] *)

(** An [Ipv4Addr] by its bits, an [Ipv6Addr] by its eight segments. *)
Inductive IpAddr : Type := V4 (ip : N) | V6 (segments : list N).

(** A parser takes from the front of its input, or takes nothing. *)
Definition parser (A : Type) : Type := str → option (A * str).

Definition read_given_char (c : char) : parser unit := λ s,
  match s with d :: s => if (c =? d)%N then Some ((), s) else None | [] => None end.

(** [read_separator]: the separator, except before the first. *)
Definition read_separator {A} (sep : char) (index : nat) (inner : parser A) : parser A := λ s,
  match index with
  | 0 => inner s
  | S _ => '(_, s) ← read_given_char sep s; inner s
  end.

Definition to_digit (radix : N) (c : char) : option N :=
  let d := (if is_ascii_digit c then Some (c - 48)
            else if (97 <=? c) && (c <=? 102) then Some (c - 87)
            else if (65 <=? c) && (c <=? 70) then Some (c - 55) else None)%N in
  d ← d; if (d <? radix)%N then Some d else None.

(** The digits at the front; [None] when there are more than [max_digits]. *)
Fixpoint read_digits (radix : N) (max_digits : nat) (s : str) (value : N) (count : nat) : option (N * nat * str) :=
  match s with
  | c :: s' =>
      match to_digit radix c with
      | Some d =>
          match max_digits with
          | 0 => None
          | S max_digits => read_digits radix max_digits s' (value * radix + d)%N (S count)
          end
      | None => Some (value, count, s)
      end
  | [] => Some (value, count, [])
  end.

(** [read_number] of an unsigned number up to [limit]. *)
Definition read_number (radix : N) (max_digits : nat) (allow_zero_prefix : bool) (limit : N) : parser N := λ s,
  '(value, count, rest) ← read_digits radix max_digits s 0%N 0;
  if count =? 0 then None
  else if negb allow_zero_prefix && bool_decide (head s = Some 48%N) && (1 <? count) then None
  else if (value <=? limit)%N then Some (value, rest) else None.

Definition DOT : char := 46%N.
Definition COLON : char := 58%N.

Definition read_octet (index : nat) : parser N := read_separator DOT index (read_number 10 3 false 255).
Definition ipv4 (a b c d : N) : N := (a * 16777216 + b * 65536 + c * 256 + d)%N.
Definition read_ipv4_addr : parser N := λ s,
  '(a, s) ← read_octet 0 s; '(b, s) ← read_octet 1 s; '(c, s) ← read_octet 2 s; '(d, s) ← read_octet 3 s;
  Some (ipv4 a b c d, s).

(** [read_groups] into [limit] places, [i] of them taken: the groups, whether
    they ended with an IPv4 address, and the rest. *)
Fixpoint read_groups (limit i : nat) (groups : list N) (s : str) : list N * bool * str :=
  match limit with
  | 0 => (groups, false, s)
  | S left_over =>
      match (if 0 <? left_over then read_separator COLON i read_ipv4_addr s else None) with
      | Some (v4, s) => (groups ++ [v4 / 65536; v4 mod 65536]%N, true, s)
      | None =>
          match read_separator COLON i (read_number 16 4 true 65535) s with
          | Some (g, s) => read_groups left_over (S i) (groups ++ [g]) s
          | None => (groups, false, s)
          end
      end
  end.

Definition read_ipv6_addr : parser (list N) := λ s,
  let '(head, head_ipv4, s) := read_groups 8 0 [] s in
  if length head =? 8 then Some (head, s)
  else if head_ipv4 then None
  else
    '(_, s) ← read_given_char COLON s;
    '(_, s) ← read_given_char COLON s;
    let '(tail, _, s) := read_groups (8 - (length head + 1)) 0 [] s in
    Some (head ++ replicate (8 - length head - length tail) 0%N ++ tail, s).

(** [str::parse::<IpAddr>]. *)
Definition parse_ip (s : str) : option IpAddr :=
  '(ip, rest) ← match read_ipv4_addr s with
                | Some (v4, rest) => Some (V4 v4, rest)
                | None => '(v6, rest) ← read_ipv6_addr s; Some (V6 v6, rest)
                end;
  match rest with [] => Some ip | _ :: _ => None end.

(** [str::parse::<u16>], with its optional sign. *)
Definition parse_u16 (s : str) : option N :=
  let s := match s with 43%N :: (_ :: _) as t => tail s | _ => s end in
  '(value, count, rest) ← read_digits 10 (length s) s 0%N 0;
  if (count =? 0) || negb (bool_decide (rest = [])) || (65535 <? value)%N then None else Some value.

(** *** Classes of addresses *)

Definition octet (k : nat) (ip : N) : N := (ip / 256 ^ N.of_nat (3 - k) mod 256)%N.

Definition v4_is_loopback (ip : N) : bool := (octet 0 ip =? 127)%N.
Definition v4_is_private (ip : N) : bool :=
  ((octet 0 ip =? 10) || ((octet 0 ip =? 172) && (16 <=? octet 1 ip) && (octet 1 ip <=? 31))
   || ((octet 0 ip =? 192) && (octet 1 ip =? 168)))%N.
Definition v4_is_link_local (ip : N) : bool := ((octet 0 ip =? 169) && (octet 1 ip =? 254))%N.
Definition v4_is_unspecified (ip : N) : bool := (ip =? 0)%N.
Definition v4_is_multicast (ip : N) : bool := ((224 <=? octet 0 ip) && (octet 0 ip <=? 239))%N.
Definition v4_is_broadcast (ip : N) : bool := (ip =? 4294967295)%N.

Definition v6_is_loopback (ip : list N) : bool := bool_decide (ip = [0; 0; 0; 0; 0; 0; 0; 1]%N).
Definition v6_is_unspecified (ip : list N) : bool := bool_decide (ip = [0; 0; 0; 0; 0; 0; 0; 0]%N).
(** The first segment under a mask. *)
Definition v6_first_masked (mask value : N) (ip : list N) : bool :=
  match ip with s :: _ => (N.land s mask =? value)%N | [] => false end.
Definition v6_is_multicast : list N → bool := v6_first_masked 65280 65280.
Definition v6_is_unique_local : list N → bool := v6_first_masked 65024 64512.
Definition v6_is_unicast_link_local : list N → bool := v6_first_masked 65472 65152.
(** [Ipv6Addr::to_ipv4]: the compatible and the mapped addresses. *)
Definition to_ipv4 (ip : list N) : option N :=
  match ip with
  | [0; 0; 0; 0; 0; m; ab; cd]%N =>
      if ((m =? 0) || (m =? 65535))%N then Some (ab * 65536 + cd)%N else None
  | _ => None
  end.

Definition is_loopback (ip : IpAddr) : bool :=
  match ip with V4 ip => v4_is_loopback ip | V6 ip => v6_is_loopback ip end.

(** ** The proxy's classification *)

Definition u32_max : N := 4294967295.
Definition ipv4_in_cidr (ip base prefix : N) : bool :=
  let mask := (if (prefix =? 0)%N then 0%N else N.land (N.shiftl u32_max (32 - prefix)) u32_max) in
  (N.land ip mask =? N.land base mask)%N.

Definition is_non_public_ipv4 (ip : N) : bool :=
  v4_is_loopback ip || v4_is_private ip || v4_is_link_local ip || v4_is_unspecified ip || v4_is_multicast ip
  || v4_is_broadcast ip
  || ipv4_in_cidr ip (ipv4 0 0 0 0) 8
  || ipv4_in_cidr ip (ipv4 100 64 0 0) 10
  || ipv4_in_cidr ip (ipv4 192 0 0 0) 24
  || ipv4_in_cidr ip (ipv4 192 0 2 0) 24
  || ipv4_in_cidr ip (ipv4 198 18 0 0) 15
  || ipv4_in_cidr ip (ipv4 198 51 100 0) 24
  || ipv4_in_cidr ip (ipv4 203 0 113 0) 24
  || ipv4_in_cidr ip (ipv4 240 0 0 0) 4.

Definition is_non_public_ipv6 (ip : list N) : bool :=
  match to_ipv4 ip with
  | Some v4 => is_non_public_ipv4 v4 || v6_is_loopback ip
  | None =>
      v6_is_loopback ip || v6_is_unspecified ip || v6_is_multicast ip || v6_is_unique_local ip
      || v6_is_unicast_link_local ip
  end.

Definition is_non_public_ip (ip : IpAddr) : bool :=
  match ip with V4 ip => is_non_public_ipv4 ip | V6 ip => is_non_public_ipv6 ip end.

Example parse_v4 : parse_ip (lit "169.254.0.1") = Some (V4 (ipv4 169 254 0 1)).
Proof. vm_compute. reflexivity. Qed.
Example parse_mapped : parse_ip (lit "::ffff:10.0.0.1") = Some (V6 [0; 0; 0; 0; 0; 65535; 2560; 1]%N).
Proof. vm_compute. reflexivity. Qed.
Example parse_short : parse_ip (lit "fe80::1:2") = Some (V6 [65152; 0; 0; 0; 0; 0; 1; 2]%N).
Proof. vm_compute. reflexivity. Qed.
Example parse_zero_prefix : parse_ip (lit "127.0.0.01") = None.
Proof. vm_compute. reflexivity. Qed.
Example parse_port : (parse_u16 (lit "+80"), parse_u16 (lit "65536"), parse_u16 (lit "+")) = (Some 80%N, None, None).
Proof. vm_compute. reflexivity. Qed.

(** ** The ranges *)

Definition within (lo hi ip : N) : bool := (lo <=? ip)%N && (ip <=? hi)%N.

(** The IPv4 addresses that are not public, as ranges. *)
Definition NON_PUBLIC_RANGES : list (N * N) := [
  (ipv4 0 0 0 0, ipv4 0 255 255 255);
  (ipv4 10 0 0 0, ipv4 10 255 255 255);
  (ipv4 100 64 0 0, ipv4 100 127 255 255);
  (ipv4 127 0 0 0, ipv4 127 255 255 255);
  (ipv4 169 254 0 0, ipv4 169 254 255 255);
  (ipv4 172 16 0 0, ipv4 172 31 255 255);
  (ipv4 192 0 0 0, ipv4 192 0 0 255);
  (ipv4 192 0 2 0, ipv4 192 0 2 255);
  (ipv4 192 168 0 0, ipv4 192 168 255 255);
  (ipv4 198 18 0 0, ipv4 198 19 255 255);
  (ipv4 198 51 100 0, ipv4 198 51 100 255);
  (ipv4 203 0 113 0, ipv4 203 0 113 255);
  (ipv4 224 0 0 0, ipv4 255 255 255 255)].

Lemma land_mask a k : (a < 2 ^ 32)%N → (k <= 32)%N →
  N.land a (N.land (N.shiftl u32_max k) u32_max) = (a / 2 ^ k * 2 ^ k)%N.
Proof.
  intros Ha Hk. rewrite <-N.shiftr_div_pow2, <-N.shiftl_mul_pow2. apply N.bits_inj. intros i.
  change u32_max with (N.ones 32). rewrite !N.land_spec.
  destruct (N.lt_ge_cases i k) as [Hi|Hi].
  - rewrite !N.shiftl_spec_low by done. by rewrite !andb_false_r.
  - rewrite !N.shiftl_spec_high' by done. rewrite N.shiftr_spec'. replace (i - k + k)%N with i by lia.
    destruct (N.lt_ge_cases i 32) as [Hi'|Hi'].
    + rewrite !N.ones_spec_low by lia. by rewrite !andb_true_r.
    + rewrite (N.ones_spec_high 32 i) by lia. rewrite !andb_false_r.
      symmetry. rewrite <-(N.mod_small a (2 ^ 32)) by done. by apply N.mod_pow2_bits_high.
Qed.

(** A block of addresses is a range. *)
Lemma ipv4_in_cidr_range ip base prefix :
  (ip < 2 ^ 32)%N → (base < 2 ^ 32)%N → (prefix <= 32)%N →
  ipv4_in_cidr ip base prefix = (ip / 2 ^ (32 - prefix) =? base / 2 ^ (32 - prefix))%N.
Proof.
  intros Hip Hbase Hp. unfold ipv4_in_cidr. destruct (N.eqb_spec prefix 0) as [->|Hz].
  - rewrite !N.land_0_r. rewrite !N.div_small by done. done.
  - rewrite !land_mask by (done || lia). apply eq_true_iff_eq. rewrite !N.eqb_eq. split; [|by intros ->].
    apply N.mul_cancel_r. by apply N.pow_nonzero.
Qed.

Lemma div_range ip q k : (k ≠ 0)%N → (ip / k =? q)%N = within (q * k) (q * k + (k - 1)) ip.
Proof.
  intros Hk. unfold within. apply eq_true_iff_eq. rewrite andb_true_iff, N.eqb_eq, !N.leb_le.
  split.
  - intros <-. pose proof (N.div_mod ip k Hk) as Hd. pose proof (N.mod_lt ip k Hk) as Hm.
    revert Hd Hm. generalize (ip / k)%N (ip mod k)%N. intros d m. rewrite (N.mul_comm k d). generalize (d * k)%N. lia.
  - intros [].
  symmetry. apply (N.div_unique ip k q (ip - q * k)); lia.
Qed.

Lemma octet_0 ip : (ip < 2 ^ 32)%N → octet 0 ip = (ip / 16777216)%N.
Proof.
  intros Hip. unfold octet. change (256 ^ N.of_nat (3 - 0))%N with 16777216%N. apply N.mod_small.
  apply N.Div0.div_lt_upper_bound. exact Hip.
Qed.

Lemma octet_1 ip : octet 1 ip = (ip / 65536 - ip / 16777216 * 256)%N.
Proof.
  unfold octet. change (256 ^ N.of_nat (3 - 1))%N with 65536%N.
  pose proof (N.div_mod' (ip / 65536) 256) as Hm. rewrite N.Div0.div_div in Hm.
  change (65536 * 256)%N with 16777216%N in Hm.
  revert Hm. generalize (ip / 65536)%N (ip / 16777216)%N (ip / 65536 mod 256)%N. lia.
Qed.

Lemma within_spec lo hi ip : within lo hi ip = true ↔ (lo <= ip <= hi)%N.
Proof. unfold within. by rewrite andb_true_iff, !N.leb_le. Qed.

(** The classes of [std::net] as ranges. *)
Lemma v4_classes ip : (ip < 2 ^ 32)%N →
  v4_is_loopback ip = within (ipv4 127 0 0 0) (ipv4 127 255 255 255) ip
  ∧ v4_is_private ip = within (ipv4 10 0 0 0) (ipv4 10 255 255 255) ip
      || within (ipv4 172 16 0 0) (ipv4 172 31 255 255) ip || within (ipv4 192 168 0 0) (ipv4 192 168 255 255) ip
  ∧ v4_is_link_local ip = within (ipv4 169 254 0 0) (ipv4 169 254 255 255) ip
  ∧ v4_is_multicast ip = within (ipv4 224 0 0 0) (ipv4 239 255 255 255) ip.
Proof.
  intros Hip. unfold v4_is_loopback, v4_is_private, v4_is_link_local, v4_is_multicast.
  rewrite octet_0, octet_1 by done. unfold ipv4.
  assert (Ha : (ip / 16777216 * 16777216 <= ip < ip / 16777216 * 16777216 + 16777216)%N)
    by (zify; Z.to_euclidean_division_equations; lia).
  assert (Hb : (ip / 65536 * 65536 <= ip < ip / 65536 * 65536 + 65536)%N)
    by (zify; Z.to_euclidean_division_equations; lia).
  revert Ha Hb. generalize (ip / 16777216)%N (ip / 65536)%N. intros a b Ha Hb.
  split_and!.
  - apply eq_true_iff_eq. rewrite within_spec, N.eqb_eq. lia.
  - f_equal; [f_equal|].
    + apply eq_true_iff_eq. rewrite within_spec, N.eqb_eq. lia.
    + apply eq_true_iff_eq. rewrite within_spec, !andb_true_iff, N.eqb_eq, !N.leb_le. lia.
    + apply eq_true_iff_eq. rewrite within_spec, andb_true_iff, !N.eqb_eq. lia.
  - apply eq_true_iff_eq. rewrite within_spec, andb_true_iff, !N.eqb_eq. lia.
  - apply eq_true_iff_eq. rewrite within_spec, andb_true_iff, !N.leb_le. lia.
Qed.

Lemma is_non_public_ipv4_ranges ip :
  (ip < 2 ^ 32)%N → is_non_public_ipv4 ip = existsb (λ r, within r.1 r.2 ip) NON_PUBLIC_RANGES.
Proof.
  intros Hip. unfold is_non_public_ipv4. rewrite !ipv4_in_cidr_range by done.
  destruct (v4_classes ip Hip) as (->&->&->&->). rewrite !div_range by done.
  unfold v4_is_unspecified, v4_is_broadcast. cbn [existsb NON_PUBLIC_RANGES fst snd].
  apply eq_true_iff_eq. repeat first [rewrite orb_true_iff | rewrite within_spec]. rewrite !N.eqb_eq.
  repeat match goal with |- context [(?x <= ip)%N] => progress (let v := eval vm_compute in x in change x with v) end.
  repeat match goal with |- context [(ip <= ?x)%N] => progress (let v := eval vm_compute in x in change x with v) end.
  change (2 ^ 32)%N with 4294967296%N in Hip. split; intros H; repeat destruct H as [H|H]; lia.
Qed.
End NetAddr.
