(* ===== verification/NetPolicy.v ===== *)
(** * The network proxy's policy

    Models [network-proxy/src/policy.rs] (hosts and domain patterns),
    [network-proxy/src/config.rs] (settings, addresses to listen on) and
    [network-proxy/src/state.rs] (the limits of a managed configuration and
    compiling a configuration).  Matching a host against a glob is the crate
    globset's and parsing a host or a URL the crate url's: parameters. *)
From S2P Require Import Prelude Str Io Paths NetAddr.
Import NetAddr Paths.

Module NetPolicy.

(** ** Hosts *)

Definition PERCENT : char := 37%N.
Definition LBRACKET : char := 91%N.
Definition RBRACKET : char := 93%N.
Definition STAR : char := 42%N.
Definition QUESTION : char := 63%N.
Definition is_dot (c : char) : bool := (c =? NetAddr.DOT)%N.

Definition normalize_dns_host (host : str) : str := trim_end_matches is_dot (to_ascii_lowercase host).

Definition count_char (c : char) (s : str) : nat := length (filter (λ d, d = c) s).

Definition normalize_host (host : str) : str :=
  let host := trim host in
  match (if starts_with host [LBRACKET] then find host [RBRACKET] else None) with
  | Some end_ => normalize_dns_host (take (end_ - 1) (drop 1 host))
  | None =>
      if count_char COLON host =? 1 then normalize_dns_host (default [] (head (split_on COLON host)))
      else normalize_dns_host host
  end.

(** [Host::parse]. *)
Definition host_parse (input : str) : option str :=
  let normalized := normalize_host input in if bool_decide (normalized = []) then None else Some normalized.

(** The host without the scope of an IPv6 address. *)
Definition no_scope (host : str) : str := match split_once PERCENT host with Some (ip, _) => ip | None => host end.

Definition is_loopback_host (host : str) : bool :=
  let host := no_scope host in
  if bool_decide (host = lit "localhost") then true
  else match parse_ip host with Some ip => is_loopback ip | None => false end.

(** ** Domain patterns *)

Definition normalize_pattern (pattern : str) : str :=
  let pattern := trim pattern in
  if bool_decide (pattern = lit "*") then lit "*"
  else
    let '(prefix, remainder) :=
      match strip_prefix (lit "**.") pattern with
      | Some domain => (lit "**.", domain)
      | None => match strip_prefix (lit "*.") pattern with
                | Some domain => (lit "*.", domain)
                | None => ([], pattern)
                end
      end in
    let remainder := normalize_host remainder in
    if bool_decide (prefix = []) then remainder else prefix ++ remainder.

Inductive DomainPattern : Type :=
| ApexAndSubdomains (domain : str)
| SubdomainsOnly (domain : str)
| Exact (domain : str).

Definition parse_domain (domain : str) (build : str → DomainPattern) : DomainPattern :=
  let domain := trim domain in if bool_decide (domain = []) then Exact [] else build domain.

(** [DomainPattern::parse]. *)
Definition pattern_parse (input : str) : DomainPattern :=
  let input := trim input in
  if bool_decide (input = []) then Exact []
  else match strip_prefix (lit "**.") input with
       | Some domain => parse_domain domain ApexAndSubdomains
       | None =>
           match strip_prefix (lit "*.") input with
           | Some domain => parse_domain domain SubdomainsOnly
           | None => Exact input
           end
       end.

Definition expand_domain_pattern (pattern : str) : list str :=
  match pattern_parse pattern with
  | Exact domain => [domain]
  | SubdomainsOnly domain => [lit "?*." ++ domain]
  | ApexAndSubdomains domain => [domain; lit "?*." ++ domain]
  end.

Definition is_global_wildcard_domain_pattern (pattern : str) : bool :=
  existsb (λ candidate, bool_decide (candidate = lit "*")) (expand_domain_pattern (normalize_pattern pattern)).

Definition normalize_domain (domain : str) : str := to_ascii_lowercase (trim_end_matches is_dot domain).
Definition domain_eq (l r : str) : bool := bool_decide (normalize_domain l = normalize_domain r).
Definition is_subdomain_or_equal (child parent : str) : bool :=
  let child := normalize_domain child in
  let parent := normalize_domain parent in
  if bool_decide (child = parent) then true else ends_with child (NetAddr.DOT :: parent).
Definition is_strict_subdomain (child parent : str) : bool :=
  let child := normalize_domain child in
  let parent := normalize_domain parent in
  negb (bool_decide (child = parent)) && ends_with child (NetAddr.DOT :: parent).

(** [DomainPattern::allows]. *)
Definition allows (self candidate : DomainPattern) : bool :=
  match self, candidate with
  | Exact domain, Exact candidate => domain_eq candidate domain
  | Exact _, _ => false
  | SubdomainsOnly domain, Exact candidate => is_strict_subdomain candidate domain
  | SubdomainsOnly domain, SubdomainsOnly candidate => is_subdomain_or_equal candidate domain
  | SubdomainsOnly domain, ApexAndSubdomains candidate => is_strict_subdomain candidate domain
  | ApexAndSubdomains domain, (Exact candidate | SubdomainsOnly candidate | ApexAndSubdomains candidate) =>
      is_subdomain_or_equal candidate domain
  end.

(** ** Settings *)

Inductive NetworkDomainPermission : Type := PermNone | PermAllow | PermDeny.
#[export] Instance NetworkDomainPermission_eq_dec : EqDecision NetworkDomainPermission.
Proof. solve_decision. Defined.
(** The derived order: [None < Allow < Deny]. *)
Definition permission_rank (p : NetworkDomainPermission) : nat :=
  match p with PermNone => 0 | PermAllow => 1 | PermDeny => 2 end.
Definition permission_max (a b : NetworkDomainPermission) : NetworkDomainPermission :=
  if permission_rank a <? permission_rank b then b else a.

Record NetworkDomainPermissionEntry : Type := { pattern : str; permission : NetworkDomainPermission }.

(** The map of [effective_entries] by pattern, and the order of the first
    mentions. *)
Definition effective_step (st : list str * gmap str NetworkDomainPermission) (entry : NetworkDomainPermissionEntry)
    : list str * gmap str NetworkDomainPermission :=
  let '(order, permissions) := st in
  match permissions !! pattern entry with
  | None => (order ++ [pattern entry], <[pattern entry := permission entry]> permissions)
  | Some p => (order, <[pattern entry := permission_max p (permission entry)]> permissions)
  end.
Definition effective_entries (entries : list NetworkDomainPermissionEntry) : list NetworkDomainPermissionEntry :=
  let '(order, permissions) := foldl effective_step ([], ∅) entries in
  omap (λ pat, (λ p, {| pattern := pat; permission := p |}) <$> permissions !! pat) order.

Inductive NetworkUnixSocketPermission : Type := SocketAllow | SocketNone.
#[export] Instance NetworkUnixSocketPermission_eq_dec : EqDecision NetworkUnixSocketPermission.
Proof. solve_decision. Defined.

Inductive NetworkMode : Type := Limited | Full.
#[export] Instance NetworkMode_eq_dec : EqDecision NetworkMode.
Proof. solve_decision. Defined.

(** The map of unix sockets, sorted by path, is a list of its entries. *)
Record NetworkProxySettings : Type := {
  enabled : bool;
  proxy_url : str;
  enable_socks5 : bool;
  socks_url : str;
  enable_socks5_udp : bool;
  allow_upstream_proxy : bool;
  dangerously_allow_non_loopback_proxy : bool;
  dangerously_allow_all_unix_sockets : bool;
  mode : NetworkMode;
  domains : option (list NetworkDomainPermissionEntry);
  unix_sockets : option (list (str * NetworkUnixSocketPermission));
  allow_local_binding : bool;
  mitm : bool;
}.
#[export] Instance NetworkDomainPermissionEntry_eq_dec : EqDecision NetworkDomainPermissionEntry.
Proof. solve_decision. Defined.
#[export] Instance NetworkProxySettings_eq_dec : EqDecision NetworkProxySettings.
Proof. solve_decision. Defined.

Definition settings_default : NetworkProxySettings := {|
  enabled := false; proxy_url := lit "http://127.0.0.1:3128"; enable_socks5 := true;
  socks_url := lit "http://127.0.0.1:8081"; enable_socks5_udp := true; allow_upstream_proxy := true;
  dangerously_allow_non_loopback_proxy := false; dangerously_allow_all_unix_sockets := false; mode := Full;
  domains := None; unix_sockets := None; allow_local_binding := false; mitm := false |}.

Definition with_domains (d : option (list NetworkDomainPermissionEntry)) (s : NetworkProxySettings)
    : NetworkProxySettings := {|
  enabled := enabled s; proxy_url := proxy_url s; enable_socks5 := enable_socks5 s; socks_url := socks_url s;
  enable_socks5_udp := enable_socks5_udp s; allow_upstream_proxy := allow_upstream_proxy s;
  dangerously_allow_non_loopback_proxy := dangerously_allow_non_loopback_proxy s;
  dangerously_allow_all_unix_sockets := dangerously_allow_all_unix_sockets s; mode := mode s;
  domains := d; unix_sockets := unix_sockets s; allow_local_binding := allow_local_binding s; mitm := mitm s |}.
Definition with_unix_sockets (u : option (list (str * NetworkUnixSocketPermission))) (s : NetworkProxySettings)
    : NetworkProxySettings := {|
  enabled := enabled s; proxy_url := proxy_url s; enable_socks5 := enable_socks5 s; socks_url := socks_url s;
  enable_socks5_udp := enable_socks5_udp s; allow_upstream_proxy := allow_upstream_proxy s;
  dangerously_allow_non_loopback_proxy := dangerously_allow_non_loopback_proxy s;
  dangerously_allow_all_unix_sockets := dangerously_allow_all_unix_sockets s; mode := mode s;
  domains := domains s; unix_sockets := u; allow_local_binding := allow_local_binding s; mitm := mitm s |}.
Definition with_mode (m : NetworkMode) (s : NetworkProxySettings) : NetworkProxySettings := {|
  enabled := enabled s; proxy_url := proxy_url s; enable_socks5 := enable_socks5 s; socks_url := socks_url s;
  enable_socks5_udp := enable_socks5_udp s; allow_upstream_proxy := allow_upstream_proxy s;
  dangerously_allow_non_loopback_proxy := dangerously_allow_non_loopback_proxy s;
  dangerously_allow_all_unix_sockets := dangerously_allow_all_unix_sockets s; mode := m;
  domains := domains s; unix_sockets := unix_sockets s; allow_local_binding := allow_local_binding s; mitm := mitm s |}.

Definition nonempty {A} (l : list A) : option (list A) := match l with [] => None | _ => Some l end.

Definition domain_entries (p : NetworkDomainPermission) (s : NetworkProxySettings) : option (list str) :=
  entries ← domains s;
  nonempty (pattern <$> filter (λ e, permission e = p) (effective_entries entries)).
Definition allowed_domains : NetworkProxySettings → option (list str) := domain_entries PermAllow.
Definition denied_domains : NetworkProxySettings → option (list str) := domain_entries PermDeny.

Definition allow_unix_sockets (s : NetworkProxySettings) : list str :=
  fst <$> filter (λ e, e.2 = SocketAllow) (default [] (unix_sockets s)).

Definition upsert_domain_permission (host : str) (p : NetworkDomainPermission) (normalize : str → str)
    (s : NetworkProxySettings) : NetworkProxySettings :=
  let normalized_host := normalize host in
  let entries := filter (λ e, normalize (pattern e) ≠ normalized_host) (default [] (domains s)) in
  with_domains (nonempty (entries ++ [{| pattern := host; permission := p |}])) s.

Definition set_domain_entry (p : NetworkDomainPermission) (l : list NetworkDomainPermissionEntry) (entry : str)
    : list NetworkDomainPermissionEntry :=
  if bool_decide ({| pattern := entry; permission := p |} ∈ l) then l else l ++ [{| pattern := entry; permission := p |}].
Definition set_domain_entries (entries : list str) (p : NetworkDomainPermission) (s : NetworkProxySettings)
    : NetworkProxySettings :=
  with_domains
    (nonempty (foldl (set_domain_entry p) (filter (λ e, permission e ≠ p) (default [] (domains s))) entries)) s.
Definition set_allowed_domains (l : list str) : NetworkProxySettings → NetworkProxySettings :=
  set_domain_entries l PermAllow.
Definition set_denied_domains (l : list str) : NetworkProxySettings → NetworkProxySettings :=
  set_domain_entries l PermDeny.

(** [BTreeMap::insert]. *)
Fixpoint socket_insert (k : str) (p : NetworkUnixSocketPermission) (l : list (str * NetworkUnixSocketPermission))
    : list (str * NetworkUnixSocketPermission) :=
  match l with
  | [] => [(k, p)]
  | (k', p') :: l' =>
      if bool_decide (k = k') then (k, p) :: l'
      else if str_le k k' then (k, p) :: l else (k', p') :: socket_insert k p l'
  end.
Definition set_unix_socket_entries (entries : list str) (p : NetworkUnixSocketPermission) (s : NetworkProxySettings)
    : NetworkProxySettings :=
  with_unix_sockets
    (nonempty (foldl (λ l entry, socket_insert entry p l) (filter (λ e, e.2 ≠ p) (default [] (unix_sockets s))) entries)) s.
Definition set_allow_unix_sockets (l : list str) : NetworkProxySettings → NetworkProxySettings :=
  set_unix_socket_entries l SocketAllow.

Definition allows_method (m : NetworkMode) (method : str) : bool :=
  match m with
  | Full => true
  | Limited => bool_decide (method ∈ [lit "GET"; lit "HEAD"; lit "OPTIONS"])
  end.

(** ** Addresses to listen on *)

Record SocketAddr : Type := { addr_ip : IpAddr; addr_port : N }.
Definition localhost (port : N) : SocketAddr := {| addr_ip := V4 (ipv4 127 0 0 1); addr_port := port |}.

Definition clamp_non_loopback (addr : SocketAddr) (allow_non_loopback : bool) : SocketAddr :=
  if is_loopback (addr_ip addr) then addr
  else if allow_non_loopback then addr
  else localhost (addr_port addr).

Definition clamp_bind_addrs (http_addr socks_addr : SocketAddr) (cfg : NetworkProxySettings) : SocketAddr * SocketAddr :=
  let http_addr := clamp_non_loopback http_addr (dangerously_allow_non_loopback_proxy cfg) in
  let socks_addr := clamp_non_loopback socks_addr (dangerously_allow_non_loopback_proxy cfg) in
  if bool_decide (allow_unix_sockets cfg = []) && negb (dangerously_allow_all_unix_sockets cfg)
  then (http_addr, socks_addr)
  else (localhost (addr_port http_addr), localhost (addr_port socks_addr)).

(** ** Errors *)

(** The values an error message shows, with those of a hash set in no order. *)
Inductive shown : Type := Txt (s : str) | DebugMode (m : NetworkMode) | DebugList (l : list str) | DebugSet (l : gset str).
Inductive NetworkProxyConstraintError : Type := InvalidValue (field_name : string) (candidate allowed : shown).

Inductive net_error : Type :=
| HostEmpty
| GlobalWildcard
| InvalidGlob (candidate : str)
| GlobSetError
| InvalidSocketPath (index : nat)
| MissingHost (input : str)
| InvalidProxyUrl (url : str) (e : net_error)
| InvalidSocksUrl (url : str) (e : net_error)
| MitmError
| Constraint (e : NetworkProxyConstraintError)
| CannotUpdate (field : string)
| MissingPermissions
| UndefinedProfile (name : str)
| ReloadError.

Section External.
(** [globset]: whether a glob and a set of globs can be compiled, and whether a
    glob matches a host without regard to case.  [url]: parsing a host, as it is
    shown again, and a URL, with its host and its port.  [MitmState::new], which
    reads certificates. *)
Context (glob_ok : str → bool) (globset_ok : list str → bool) (glob_match : str → str → bool).
Context (url_host_parse : str → option str) (url_parse : str → option (option str * option N)).
Context {MitmState : Type} (mitm_new : bool → option MitmState).

(** *** Proxy addresses *)

Record SocketAddressParts : Type := { parts_host : str; parts_port : N }.

Definition SCHEME_SEPARATOR : str := lit "://".
Definition strip_scheme (input : str) : str :=
  match find input SCHEME_SEPARATOR with Some i => drop (i + length SCHEME_SEPARATOR) input | None => input end.

Definition parse_host_port_fallback (input : str) (default_port : N) : result net_error SocketAddressParts :=
  let host_port := default [] (head (split_on SLASH (strip_scheme input))) in
  let host_port := match rsplit_once 64%N host_port with Some (_, rest) => rest | None => host_port end in
  match (if starts_with host_port [LBRACKET] then find host_port [RBRACKET] else None) with
  | Some end_ =>
      let host := take (end_ - 1) (drop 1 host_port) in
      let port := default default_port (rest ← strip_prefix [COLON] (drop (end_ + 1) host_port); parse_u16 rest) in
      if bool_decide (host = []) then Err (MissingHost input) else Ok {| parts_host := host; parts_port := port |}
  | None =>
      match (if count_char COLON host_port =? 1 then rsplit_once COLON host_port else None) with
      | Some (host, port) =>
          if bool_decide (host = []) then Err (MissingHost input)
          else Ok {| parts_host := host; parts_port := default default_port (parse_u16 port) |}
      | None =>
          if bool_decide (host_port = []) then Err (MissingHost input)
          else Ok {| parts_host := host_port; parts_port := default_port |}
      end
  end.

Definition is_bracket (c : char) : bool := (c =? LBRACKET)%N || (c =? RBRACKET)%N.
Definition trim_brackets (s : str) : str := trim_end_matches is_bracket (trim_start_matches is_bracket s).

Definition parse_host_port (url : str) (default_port : N) : result net_error SocketAddressParts :=
  let trimmed := trim url in
  if bool_decide (trimmed = []) then Err (MissingHost url)
  else if match parse_ip trimmed with Some (V6 _) => negb (starts_with trimmed [LBRACKET]) | _ => false end
  then Ok {| parts_host := trimmed; parts_port := default_port |}
  else
    let candidate := if contains trimmed SCHEME_SEPARATOR then trimmed else lit "http://" ++ trimmed in
    match url_parse candidate with
    | Some (Some host, port) =>
        let host := trim_brackets host in
        if bool_decide (host = []) then Err (MissingHost url)
        else Ok {| parts_host := host; parts_port := default default_port port |}
    | _ => parse_host_port_fallback trimmed default_port
    end.

Definition format_host_and_port (host : str) (port : N) : str :=
  if contains_char host COLON then lit "[" ++ host ++ lit "]:" ++ show_nat (N.to_nat port)
  else host ++ lit ":" ++ show_nat (N.to_nat port).
Definition host_and_port_from_network_addr (value : str) (default_port : N) : str :=
  let trimmed := trim value in
  if bool_decide (trimmed = []) then lit "<missing>"
  else match parse_host_port trimmed default_port with
       | Ok parts => format_host_and_port (parts_host parts) (parts_port parts)
       | _ => format_host_and_port trimmed default_port
       end.

Definition resolve_addr (url : str) (default_port : N) : result net_error SocketAddr :=
  parts ← parse_host_port url default_port;
  let host := if bool_decide (to_ascii_lowercase (parts_host parts) = lit "localhost") then lit "127.0.0.1"
              else parts_host parts in
  Ok match parse_ip host with
     | Some ip => {| addr_ip := ip; addr_port := parts_port parts |}
     | None => localhost (parts_port parts)
     end.

(** [ValidatedUnixSocketPath::parse] on Unix, where the paths that begin with a
    slash are the absolute ones: the normalized path. *)
Definition validated_socket_path (socket_path : str) : option str :=
  if is_absolute socket_path then Some (normalize_path socket_path) else None.

Fixpoint validate_socket_paths (index : nat) (l : list str) : result net_error unit :=
  match l with
  | [] => Ok ()
  | socket_path :: l =>
      match validated_socket_path socket_path with
      | Some _ => validate_socket_paths (S index) l
      | None => Err (InvalidSocketPath index)
      end
  end.
Definition validate_unix_socket_allowlist_paths (cfg : NetworkProxySettings) : result net_error unit :=
  validate_socket_paths 0 (allow_unix_sockets cfg).

(** [resolve_runtime]: the addresses of the HTTP and the SOCKS proxy. *)
Definition resolve_runtime (cfg : NetworkProxySettings) : result net_error (SocketAddr * SocketAddr) :=
  _ ← validate_unix_socket_allowlist_paths cfg;
  http_addr ← map_err (InvalidProxyUrl (proxy_url cfg)) (resolve_addr (proxy_url cfg) 3128);
  socks_addr ← map_err (InvalidSocksUrl (socks_url cfg)) (resolve_addr (socks_url cfg) 8081);
  Ok (clamp_bind_addrs http_addr socks_addr cfg).

(** ** Compiling patterns *)

(** A compiled set is the list of its globs. *)
Definition globset : Type := list str.
Definition set_is_match (set : globset) (host : str) : bool := existsb (λ g, glob_match g host) set.

Fixpoint add_candidates (candidates : list str) (builder : globset) : result net_error globset :=
  match candidates with
  | [] => Ok builder
  | candidate :: candidates =>
      if bool_decide (candidate ∈ builder) then add_candidates candidates builder
      else if glob_ok candidate then add_candidates candidates (builder ++ [candidate])
      else Err (InvalidGlob candidate)
  end.
Fixpoint compile_patterns (reject_global : bool) (patterns : list str) (builder : globset) : result net_error globset :=
  match patterns with
  | [] => Ok builder
  | pattern :: patterns =>
      if reject_global && is_global_wildcard_domain_pattern pattern then Err GlobalWildcard
      else
        builder ← add_candidates (expand_domain_pattern (normalize_pattern pattern)) builder;
        compile_patterns reject_global patterns builder
  end.
Definition compile_globset_with_policy (patterns : list str) (reject_global : bool) : result net_error globset :=
  set ← compile_patterns reject_global patterns [];
  if globset_ok set then Ok set else Err GlobSetError.
Definition compile_allowlist_globset (patterns : list str) : result net_error globset :=
  compile_globset_with_policy patterns false.
Definition compile_denylist_globset (patterns : list str) : result net_error globset :=
  compile_globset_with_policy patterns true.

(** ** Managed limits *)

Record NetworkProxyConstraints : Type := {
  max_enabled : option bool;
  max_mode : option NetworkMode;
  max_upstream_proxy : option bool;
  max_non_loopback_proxy : option bool;
  max_all_unix_sockets : option bool;
  managed_allowed_domains : option (list str);
  allowlist_expansion_enabled : option bool;
  managed_denied_domains : option (list str);
  denylist_expansion_enabled : option bool;
  managed_unix_sockets : option (list str);
  max_local_binding : option bool;
}.

Definition parse_domain_for_constraints (domain : str) : str :=
  let domain := trim_end_matches is_dot (trim domain) in
  if bool_decide (domain = []) then []
  else
    let host := if starts_with domain [LBRACKET] && ends_with domain [RBRACKET]
                then take (length domain - 1 - 1) (drop 1 domain) else domain in
    if contains_char host STAR || contains_char host QUESTION || contains_char host PERCENT then domain
    else default [] (url_host_parse host).

(** [DomainPattern::parse_for_constraints]. *)
Definition parse_for_constraints (input : str) : DomainPattern :=
  let input := trim input in
  if bool_decide (input = []) then Exact []
  else match strip_prefix (lit "**.") input with
       | Some domain => ApexAndSubdomains (parse_domain_for_constraints domain)
       | None =>
           match strip_prefix (lit "*.") input with
           | Some domain => SubdomainsOnly (parse_domain_for_constraints domain)
           | None => Exact (parse_domain_for_constraints input)
           end
       end.

Definition network_mode_rank (m : NetworkMode) : nat := match m with Limited => 0 | Full => 1 end.

Definition check := result NetworkProxyConstraintError unit.
Definition ensure (ok : bool) (field : string) (candidate allowed : shown) : check :=
  if ok then Ok () else Err (InvalidValue field candidate allowed).
Definition disabled_by_managed : shown := Txt (lit "false (disabled by managed config)").
Definition true_ : shown := Txt (lit "true").
(** A switch that may only be on when it is not forbidden. *)
Definition check_switch (field : string) (candidate allowed : bool) : check :=
  ensure (negb (candidate && negb allowed)) field true_ disabled_by_managed.

Definition validate_non_global_wildcard_domain_patterns (field : string) (patterns : list str) : check :=
  match head (filter (λ p, is_global_wildcard_domain_pattern p = true) patterns) with
  | Some pattern =>
      Err (InvalidValue field (Txt (trim pattern))
        (Txt (lit "exact hosts or scoped wildcards like *.example.com or **.example.com")))
  | None => Ok ()
  end.

Definition lower_set (l : list str) : gset str := list_to_set (to_ascii_lowercase <$> l).

Definition check_allowed_domains (config_allowed : list str) (denied_overrides : gset str) (c : NetworkProxyConstraints)
    (managed : list str) : check :=
  _ ← validate_non_global_wildcard_domain_patterns "network.allowed_domains" managed;
  match allowlist_expansion_enabled c with
  | Some true =>
      let missing := (lower_set managed ∖ lower_set config_allowed) ∖ denied_overrides in
      ensure (bool_decide (missing = ∅)) "network.allowed_domains"
        (Txt (lit "missing managed allowed_domains entries")) (DebugSet missing)
  | Some false =>
      ensure (bool_decide (lower_set config_allowed = lower_set managed ∖ denied_overrides)) "network.allowed_domains"
        (DebugList config_allowed) (Txt (lit "must match managed allowed_domains"))
  | None =>
      let managed_patterns := parse_for_constraints <$> managed in
      let invalid :=
        filter (λ entry, existsb (λ m, allows m (parse_for_constraints entry)) managed_patterns = false) config_allowed in
      ensure (bool_decide (invalid = [])) "network.allowed_domains"
        (DebugList invalid) (Txt (lit "subset of managed allowed_domains"))
  end.

Definition check_denied_domains (config_denied : list str) (c : NetworkProxyConstraints) (managed : list str) : check :=
  _ ← validate_non_global_wildcard_domain_patterns "network.denied_domains" managed;
  match denylist_expansion_enabled c with
  | Some false =>
      ensure (bool_decide (lower_set config_denied = lower_set managed)) "network.denied_domains"
        (DebugList config_denied) (Txt (lit "must match managed denied_domains"))
  | Some true | None =>
      let missing := lower_set managed ∖ lower_set config_denied in
      ensure (bool_decide (missing = ∅)) "network.denied_domains"
        (Txt (lit "missing managed denied_domains entries")) (DebugSet missing)
  end.

Definition check_unix_sockets (config_sockets managed : list str) : check :=
  let invalid := filter (λ entry, to_ascii_lowercase entry ∉ lower_set managed) config_sockets in
  ensure (bool_decide (invalid = [])) "network.allow_unix_sockets"
    (DebugList invalid) (Txt (lit "subset of managed allow_unix_sockets")).

(** A check made only when the limit is there. *)
Definition when {A} (o : option A) (f : A → check) : check := match o with Some a => f a | None => Ok () end.

Definition validate_policy_against_constraints (config : NetworkProxySettings) (c : NetworkProxyConstraints) : check :=
  let config_allowed_domains := default [] (allowed_domains config) in
  let config_denied_domains := default [] (denied_domains config) in
  _ ← validate_non_global_wildcard_domain_patterns "network.denied_domains" config_denied_domains;
  _ ← when (max_enabled c) (check_switch "network.enabled" (enabled config));
  _ ← when (max_mode c) (λ m, ensure (network_mode_rank (mode config) <=? network_mode_rank m) "network.mode"
        (DebugMode (mode config)) (DebugMode m));
  _ ← check_switch "network.allow_upstream_proxy" (allow_upstream_proxy config) (default true (max_upstream_proxy c));
  _ ← check_switch "network.dangerously_allow_non_loopback_proxy" (dangerously_allow_non_loopback_proxy config)
        (default true (max_non_loopback_proxy c));
  _ ← check_switch "network.dangerously_allow_all_unix_sockets" (dangerously_allow_all_unix_sockets config)
        (default (bool_decide (managed_unix_sockets c = None)) (max_all_unix_sockets c));
  _ ← when (max_local_binding c) (check_switch "network.allow_local_binding" (allow_local_binding config));
  _ ← when (managed_allowed_domains c)
        (check_allowed_domains config_allowed_domains (lower_set config_denied_domains) c);
  _ ← when (managed_denied_domains c) (check_denied_domains config_denied_domains c);
  when (managed_unix_sockets c) (check_unix_sockets (allow_unix_sockets config)).

(** ** The compiled state *)

Record ConfigState (Blocked : Type) : Type := {
  config : NetworkProxySettings;
  allow_set : globset;
  deny_set : globset;
  mitm_state : option MitmState;
  constraints : NetworkProxyConstraints;
  blocked : list Blocked;
  blocked_total : N;
}.

Definition build_config_state {Blocked} (config : NetworkProxySettings) (constraints : NetworkProxyConstraints)
    : result net_error (ConfigState Blocked) :=
  _ ← validate_unix_socket_allowlist_paths config;
  let allowed_domains := default [] (allowed_domains config) in
  let denied_domains := default [] (denied_domains config) in
  _ ← map_err Constraint (validate_non_global_wildcard_domain_patterns "network.denied_domains" denied_domains);
  deny_set ← compile_denylist_globset denied_domains;
  allow_set ← compile_allowlist_globset allowed_domains;
  mitm ← (if mitm config then Some <$> ok_or MitmError (mitm_new (allow_upstream_proxy config)) else Ok None);
  Ok {| config := config; allow_set := allow_set; deny_set := deny_set; mitm_state := mitm;
        constraints := constraints; blocked := []; blocked_total := 0 |}.
End External.
Arguments ConfigState : clear implicits.
Arguments config {MitmState Blocked} _.
Arguments allow_set {MitmState Blocked} _.
Arguments deny_set {MitmState Blocked} _.
Arguments mitm_state {MitmState Blocked} _.
Arguments constraints {MitmState Blocked} _.
Arguments blocked {MitmState Blocked} _.
Arguments blocked_total {MitmState Blocked} _.
Arguments Build_ConfigState {MitmState Blocked} _ _ _ _ _ _ _.

#[export] Instance NetworkProxyConstraints_eq_dec : EqDecision NetworkProxyConstraints.
Proof. solve_decision. Defined.
End NetPolicy.
