(* ===== verification/NetRuntime.v ===== *)
(** * The network proxy's live policy

    Models [network-proxy/src/runtime.rs] (the state that requests are checked
    against, and its changes at run time), the decision about a host of
    [network-proxy/src/network_policy.rs], and, in [NetSources], where policies come
    from: [core/src/config/network_proxy_spec.rs], [core/src/network_proxy_loader.rs],
    the network tables of [config/src/permissions_toml.rs] and
    [NetworkProxy::replace_config_state] of [network-proxy/src/proxy.rs].

    The state is shared by tasks behind a lock that is never held while a task
    waits.  An operation is run against a world that says what the other tasks
    do to the state before each of its turns at the lock, and what the reloader
    answers each time it is asked. *)
From S2P Require Import Prelude Str Io Paths ExecPolicy Permissions NetAddr NetPolicy.
Import NetAddr NetPolicy.

Module NetRuntime.

Inductive HostBlockReason : Type := Denied | NotAllowed | NotAllowedLocal.
Inductive HostBlockDecision : Type := Allowed | Blocked (reason : HostBlockReason).

Definition reason_str (r : HostBlockReason) : str :=
  match r with
  | Denied => lit "denied"
  | NotAllowed => lit "not_allowed"
  | NotAllowedLocal => lit "not_allowed_local"
  end.

Record BlockedRequest : Type := {
  request_host : str;
  reason : str;
  client : option str;
  method : option str;
  request_mode : option NetworkMode;
  protocol : str;
  decision : option str;
  source : option str;
  port : option N;
  timestamp : Z;
}.

Definition MAX_BLOCKED_EVENTS : nat := 200.

Section Runtime.
Context (glob_ok : str → bool) (globset_ok : list str → bool) (glob_match : str → str → bool).
Context (url_host_parse : str → option str).
Context {MitmState : Type} (mitm_new : bool → option MitmState).
(** [tokio::net::lookup_host] under its time limit: the addresses, or [None]
    when it fails or takes too long. *)
Context (lookup_host : str → N → option (list IpAddr)).
(** [std::fs::canonicalize], and whether the system is macOS. *)
Context (canonicalize : str → option str) (unix_socket_permissions_supported : bool).

Abbreviation state := (ConfigState MitmState BlockedRequest).
Abbreviation validate := (validate_policy_against_constraints url_host_parse).
Abbreviation build := (build_config_state glob_ok globset_ok mitm_new).

(** ** Deciding about a host *)

Definition is_explicit_local_allowlisted (allowed_domains : list str) (host : str) : bool :=
  existsb (λ pattern,
    let pattern := trim pattern in
    if bool_decide (pattern = lit "*") || starts_with pattern (lit "*.") || starts_with pattern (lit "**.") then false
    else if contains_char pattern STAR || contains_char pattern QUESTION then false
    else bool_decide (normalize_host pattern = host)) allowed_domains.

Definition host_resolves_to_non_public_ip (host : str) (port : N) : bool :=
  match parse_ip host with
  | Some ip => is_non_public_ip ip
  | None => match lookup_host host port with None => true | Some addrs => existsb is_non_public_ip addrs end
  end.

Definition local_literal (host : str) : bool :=
  if is_loopback_host host then true
  else match parse_ip (no_scope host) with Some ip => is_non_public_ip ip | None => false end.

(** [host_blocked], once the state is read. *)
Definition decide_host (st : state) (host : str) (port : N) : HostBlockDecision :=
  let allowed := allowed_domains (config st) in
  let allowed_list := default [] allowed in
  if set_is_match glob_match (deny_set st) host then Blocked Denied
  else
    let is_allowlisted := set_is_match glob_match (allow_set st) host in
    let by_allowlist := if bool_decide (allowed = None) || negb is_allowlisted then Blocked NotAllowed else Allowed in
    if negb (allow_local_binding (config st)) then
      if local_literal host then
        if negb (is_explicit_local_allowlisted allowed_list host) then Blocked NotAllowedLocal else by_allowlist
      else if host_resolves_to_non_public_ip host port then Blocked NotAllowedLocal else by_allowlist
    else by_allowlist.

(** ** The world of an operation *)

Record world : Type := {
  st : state;
  others : list (state → state);
  reloads : list (result net_error (option state));
}.

Definition proc (A : Type) : Type := io world net_error A.

(** A turn at the lock: the other tasks first. *)
Definition with_lock {A} (f : state → state * A) : proc A := λ w,
  let s := match others w with e :: _ => e (st w) | [] => st w end in
  let '(s, a) := f s in
  ({| st := s; others := tail (others w); reloads := reloads w |}, Ok a).
Definition read_lock {A} (f : state → A) : proc A := with_lock (λ s, (s, f s)).

Definition maybe_reload : proc (option state) := λ w,
  ({| st := st w; others := others w; reloads := tail (reloads w) |},
   match reloads w with r :: _ => r | [] => Ok None end).

Definition with_blocked (b : list BlockedRequest) (total : N) (s : state) : state :=
  Build_ConfigState (config s) (allow_set s) (deny_set s) (mitm_state s) (constraints s) b total.
Definition with_config (c : NetworkProxySettings) (s : state) : state :=
  Build_ConfigState c (allow_set s) (deny_set s) (mitm_state s) (constraints s) (blocked s) (blocked_total s).

Definition reload_if_needed : proc unit :=
  new ← maybe_reload;
  match new with
  | None => mret ()
  | Some new =>
      '(blocked, total) ← read_lock (λ s, (blocked s, blocked_total s));
      with_lock (λ _, (with_blocked blocked total new, ()))
  end.

(** [force_reload], with the answer of [reload_now]; only the buffer is kept. *)
Definition force_reload (answer : result net_error state) : proc unit :=
  _ ← read_lock config;
  match answer with
  | Ok new => with_lock (λ s, (with_blocked (blocked s) (blocked_total new) new, ()))
  | Err e => throw e
  | Crash => λ w, (w, Crash)
  end.

Definition replace_config_state (new : state) : proc unit :=
  _ ← reload_if_needed;
  with_lock (λ s, (with_blocked (blocked s) (blocked_total s) new, ())).

Definition host_blocked (host : str) (port : N) : proc HostBlockDecision :=
  _ ← reload_if_needed;
  match host_parse host with
  | None => mret (Blocked NotAllowed)
  | Some host => s ← read_lock id; mret (decide_host s host port)
  end.

(** ** Blocked requests *)

(** Drops the oldest entries while there are too many. *)
Fixpoint pop_front_while (fuel : nat) (l : list BlockedRequest) : list BlockedRequest :=
  match fuel with
  | 0 => l
  | S fuel => if MAX_BLOCKED_EVENTS <? length l then pop_front_while fuel (tail l) else l
  end.
Definition u64_max : N := 2 ^ 64 - 1.
Definition push_blocked (entry : BlockedRequest) (s : state) : state :=
  let l := blocked s ++ [entry] in
  with_blocked (pop_front_while (length l) l) (N.min (blocked_total s + 1) u64_max) s.

Definition record_blocked (entry : BlockedRequest) : proc unit :=
  _ ← reload_if_needed;
  with_lock (λ s, (push_blocked entry s, ())).
Definition blocked_snapshot : proc (list BlockedRequest) := _ ← reload_if_needed; read_lock blocked.
Definition drain_blocked : proc (list BlockedRequest) :=
  _ ← reload_if_needed;
  with_lock (λ s, (with_blocked [] (blocked_total s) s, blocked s)).

(** ** Unix sockets and methods *)

Fixpoint socket_listed (allowed : list str) (requested_abs : str) (requested_canonical : option str) : bool :=
  match allowed with
  | [] => false
  | entry :: allowed =>
      match validated_socket_path entry with
      | None => socket_listed allowed requested_abs requested_canonical
      | Some allowed_path =>
          if bool_decide (allowed_path = requested_abs) then true
          else match requested_canonical with
               | Some canonical =>
                   if bool_decide (canonicalize allowed_path = Some canonical) then true
                   else socket_listed allowed requested_abs requested_canonical
               | None => socket_listed allowed requested_abs requested_canonical
               end
      end
  end.
Definition is_unix_socket_allowed (path : str) : proc bool :=
  _ ← reload_if_needed;
  if negb unix_socket_permissions_supported then mret false
  else if negb (Paths.is_absolute path) then mret false
  else
    cfg ← read_lock config;
    mret (if dangerously_allow_all_unix_sockets cfg then true
          else let requested_abs := Paths.normalize_path path in
               socket_listed (allow_unix_sockets cfg) requested_abs (canonicalize requested_abs)).

Definition method_allowed (method : str) : proc bool :=
  _ ← reload_if_needed; read_lock (λ s, allows_method (mode (config s)) method).

Definition current_cfg : proc NetworkProxySettings := _ ← reload_if_needed; read_lock config.
Definition current_patterns : proc (list str * list str) :=
  _ ← reload_if_needed;
  read_lock (λ s, (default [] (allowed_domains (config s)), default [] (denied_domains (config s)))).
Definition is_enabled : proc bool := _ ← reload_if_needed; read_lock (λ s, enabled (config s)).
Definition upstream_proxy_allowed : proc bool := _ ← reload_if_needed; read_lock (λ s, allow_upstream_proxy (config s)).
Definition network_mode : proc NetworkMode := _ ← reload_if_needed; read_lock (λ s, mode (config s)).
Definition current_mitm_state : proc (option MitmState) := _ ← reload_if_needed; read_lock mitm_state.

(** ** Changing the policy *)

(** [set_network_mode]: tries again when the limits changed meanwhile. *)
Fixpoint set_network_mode (fuel : nat) (m : NetworkMode) : proc unit :=
  match fuel with
  | 0 => λ w, (w, Crash)
  | S fuel =>
      _ ← reload_if_needed;
      '(candidate, limits) ← read_lock (λ s, (with_mode m (config s), constraints s));
      _ ← pure_result (map_err Constraint (validate candidate limits));
      stored ← with_lock (λ s,
        if decide (constraints s = limits) then (with_config (with_mode m (config s)) s, true) else (s, false));
      if (stored : bool) then mret () else set_network_mode fuel m
  end.

Inductive DomainListKind : Type := ListAllow | ListDeny.
Definition list_permission (k : DomainListKind) : NetworkDomainPermission :=
  match k with ListAllow => PermAllow | ListDeny => PermDeny end.
Definition list_entries (k : DomainListKind) (s : NetworkProxySettings) : list str :=
  default [] match k with ListAllow => allowed_domains s | ListDeny => denied_domains s end.
Definition opposite_entries (k : DomainListKind) (s : NetworkProxySettings) : list str :=
  default [] match k with ListAllow => denied_domains s | ListDeny => allowed_domains s end.

Definition already_listed (k : DomainListKind) (host : str) (s : NetworkProxySettings) : bool :=
  existsb (λ e, bool_decide (normalize_host e = host)) (list_entries k s)
  && negb (existsb (λ e, bool_decide (normalize_host e = host)) (opposite_entries k s)).

Fixpoint update_loop (fuel : nat) (host : str) (target : DomainListKind) : proc unit :=
  match fuel with
  | 0 => λ w, (w, Crash)
  | S fuel =>
      _ ← reload_if_needed;
      prev ← read_lock id;
      if already_listed target host (config prev) then mret ()
      else
        let candidate := upsert_domain_permission host (list_permission target) normalize_host (config prev) in
        _ ← pure_result (map_err Constraint (validate candidate (constraints prev)));
        new ← pure_result (build candidate (constraints prev));
        stored ← with_lock (λ s,
          if decide (constraints s = constraints prev ∧ config s = config prev)
          then (with_blocked (blocked prev) (blocked_total prev) new, true) else (s, false));
        if (stored : bool) then mret () else update_loop fuel host target
  end.
Definition update_domain_list (fuel : nat) (host : str) (target : DomainListKind) : proc unit :=
  match host_parse host with None => throw HostEmpty | Some host => update_loop fuel host target end.
Definition add_allowed_domain (fuel : nat) (host : str) : proc unit := update_domain_list fuel host ListAllow.
Definition add_denied_domain (fuel : nat) (host : str) : proc unit := update_domain_list fuel host ListDeny.

(** ** The decision about a request *)

Inductive NetworkDecisionSource : Type := BaselinePolicy | ModeGuard | ProxyState | Decider.
Inductive NetworkPolicyDecision : Type := Deny | Ask.
Inductive NetworkDecision : Type :=
| Allow
| DenyRequest (reason : str) (source : NetworkDecisionSource) (decision : NetworkPolicyDecision).

Inductive NetworkProtocol : Type := Http | HttpsConnect | Socks5Tcp | Socks5Udp.
Record NetworkPolicyRequest : Type := {
  req_protocol : NetworkProtocol;
  req_host : str;
  req_port : N;
  client_addr : option str;
  req_method : option str;
  command : option str;
  exec_policy_hint : option str;
}.

Definition deny_with_source (reason : str) (source : NetworkDecisionSource) : NetworkDecision :=
  DenyRequest (if bool_decide (reason = []) then lit "policy_denied" else reason) source Deny.
Definition ask_with_source (reason : str) (source : NetworkDecisionSource) : NetworkDecision :=
  DenyRequest (if bool_decide (reason = []) then lit "policy_denied" else reason) source Ask.

Definition map_decider_decision (d : NetworkDecision) : NetworkDecision :=
  match d with Allow => Allow | DenyRequest reason _ decision => DenyRequest reason Decider decision end.

(** What the audit event of a decision says. *)
Record audit_event : Type := {
  event_decision : option NetworkPolicyDecision;
  event_source : NetworkDecisionSource;
  event_reason : str;
  policy_override : bool;
}.

(** [evaluate_host_policy], with the answer of the decider to a request. *)
Definition evaluate_host_policy (decider : option (NetworkPolicyRequest → NetworkDecision))
    (request : NetworkPolicyRequest) : proc (NetworkDecision * audit_event) :=
  host_decision ← host_blocked (req_host request) (req_port request);
  let '(decision, policy_override) :=
    match host_decision with
    | Allowed => (Allow, false)
    | Blocked NotAllowed =>
        match decider with
        | Some decide =>
            let d := map_decider_decision (decide request) in
            (d, match d with Allow => true | _ => false end)
        | None => (deny_with_source (reason_str NotAllowed) BaselinePolicy, false)
        end
    | Blocked reason => (deny_with_source (reason_str reason) BaselinePolicy, false)
    end in
  let event :=
    match decision with
    | Allow => {| event_decision := None;
                  event_source := if (policy_override : bool) then Decider else BaselinePolicy;
                  event_reason := if policy_override then reason_str NotAllowed else lit "allow";
                  policy_override := policy_override |}
    | DenyRequest reason source decision =>
        {| event_decision := Some decision; event_source := source; event_reason := reason;
           policy_override := policy_override |}
    end in
  mret (decision, event).
End Runtime.
End NetRuntime.

(** ** Where policies come from *)

Module NetSources.
Import NetRuntime.

(** Maps sorted by key ([BTreeMap]) are lists of their entries.  The requirements
    ([config/src/config_requirements.rs]) have types of their own with the same
    constructors and methods; the permission of a socket is that of the proxy. *)
Inductive NetworkDomainPermissionToml : Type := TomlAllow | TomlDeny.
#[export] Instance NetworkDomainPermissionToml_eq_dec : EqDecision NetworkDomainPermissionToml.
Proof. solve_decision. Defined.
Definition NetworkDomainPermissionsToml : Type := list (str * NetworkDomainPermissionToml).
Definition NetworkUnixSocketPermissionsToml : Type := list (str * NetworkUnixSocketPermission).

Definition toml_domains_with (p : NetworkDomainPermissionToml) (d : NetworkDomainPermissionsToml) : option (list str) :=
  nonempty (fst <$> filter (λ e, e.2 = p) d).
Definition toml_allowed_domains : NetworkDomainPermissionsToml → option (list str) := toml_domains_with TomlAllow.
Definition toml_denied_domains : NetworkDomainPermissionsToml → option (list str) := toml_domains_with TomlDeny.
Definition toml_allow_unix_sockets (u : NetworkUnixSocketPermissionsToml) : list str := fst <$> filter (λ e, e.2 = SocketAllow) u.

(** *** Network tables of the configuration *)

Record NetworkToml : Type := {
  toml_enabled : option bool;
  toml_proxy_url : option str;
  toml_enable_socks5 : option bool;
  toml_socks_url : option str;
  toml_enable_socks5_udp : option bool;
  toml_allow_upstream_proxy : option bool;
  toml_non_loopback_proxy : option bool;
  toml_all_unix_sockets : option bool;
  toml_mode : option NetworkMode;
  toml_domains : option NetworkDomainPermissionsToml;
  toml_unix_sockets : option NetworkUnixSocketPermissionsToml;
  toml_allow_local_binding : option bool;
}.

Definition proxy_permission (p : NetworkDomainPermissionToml) : NetworkDomainPermission :=
  match p with TomlAllow => PermAllow | TomlDeny => PermDeny end.
Definition overlay_network_domain_permissions (d : NetworkDomainPermissionsToml) (config : NetworkProxySettings)
    : NetworkProxySettings :=
  foldl (λ config e, upsert_domain_permission e.1 (proxy_permission e.2) normalize_host config) config d.
Definition overlay_unix_sockets (u : NetworkUnixSocketPermissionsToml) (config : NetworkProxySettings)
    : option (list (str * NetworkUnixSocketPermission)) :=
  nonempty (foldl (λ l e, socket_insert e.1 e.2 l) (default [] (unix_sockets config)) u).

Definition apply_to_network_proxy_config (self : NetworkToml) (config : NetworkProxySettings) : NetworkProxySettings := {|
  enabled := default (enabled config) (toml_enabled self);
  proxy_url := default (proxy_url config) (toml_proxy_url self);
  enable_socks5 := default (enable_socks5 config) (toml_enable_socks5 self);
  socks_url := default (socks_url config) (toml_socks_url self);
  enable_socks5_udp := default (enable_socks5_udp config) (toml_enable_socks5_udp self);
  allow_upstream_proxy := default (allow_upstream_proxy config) (toml_allow_upstream_proxy self);
  dangerously_allow_non_loopback_proxy := default (dangerously_allow_non_loopback_proxy config) (toml_non_loopback_proxy self);
  dangerously_allow_all_unix_sockets := default (dangerously_allow_all_unix_sockets config) (toml_all_unix_sockets self);
  mode := default (mode config) (toml_mode self);
  domains := match toml_domains self with
             | Some d => domains (overlay_network_domain_permissions d config)
             | None => domains config
             end;
  unix_sockets := match toml_unix_sockets self with
                  | Some u => overlay_unix_sockets u config
                  | None => unix_sockets config
                  end;
  allow_local_binding := default (allow_local_binding config) (toml_allow_local_binding self);
  mitm := mitm config |}.

Definition NetworkProxyConstraints_default : NetworkProxyConstraints := {|
  max_enabled := None; max_mode := None; max_upstream_proxy := None; max_non_loopback_proxy := None;
  max_all_unix_sockets := None; managed_allowed_domains := None; allowlist_expansion_enabled := None;
  managed_denied_domains := None; denylist_expansion_enabled := None; managed_unix_sockets := None;
  max_local_binding := None |}.

(** *** Rules of the execution policy *)

(** The hosts in order, without those that were seen before. *)
Fixpoint first_occurrences (incoming : gset str) (hosts : list str) : list str :=
  match hosts with
  | [] => []
  | host :: hosts =>
      if bool_decide (host ∈ incoming) then first_occurrences incoming hosts
      else host :: first_occurrences ({[host]} ∪ incoming) hosts
  end.
Definition upsert_all (p : NetworkDomainPermission) (hosts : list str) (config : NetworkProxySettings) : NetworkProxySettings :=
  foldl (λ config host, upsert_domain_permission host p normalize_host config) config hosts.
(** In [network_proxy_spec.rs] each host once, in [network_proxy_loader.rs] as they come. *)
Definition spec_apply_exec_policy_network_rules (exec_policy : ExecPolicy.Policy) (config : NetworkProxySettings)
    : NetworkProxySettings :=
  let '(allowed, denied) := ExecPolicy.compiled_network_domains exec_policy in
  upsert_all PermDeny (first_occurrences ∅ denied) (upsert_all PermAllow (first_occurrences ∅ allowed) config).
Definition apply_exec_policy_network_rules (exec_policy : ExecPolicy.Policy) (config : NetworkProxySettings)
    : NetworkProxySettings :=
  let '(allowed, denied) := ExecPolicy.compiled_network_domains exec_policy in
  upsert_all PermDeny denied (upsert_all PermAllow allowed config).

(** *** Managed requirements *)

(** [NetworkConstraints] of the requirements. *)
Record NetworkConstraints : Type := {
  required_enabled : option bool;
  required_http_port : option nat;
  required_socks_port : option nat;
  required_upstream_proxy : option bool;
  required_non_loopback_proxy : option bool;
  required_all_unix_sockets : option bool;
  required_domains : option NetworkDomainPermissionsToml;
  required_allowed_domains_only : option bool;
  required_unix_sockets : option NetworkUnixSocketPermissionsToml;
  required_local_binding : option bool;
}.

Definition managed_allowed_domains_only (requirements : NetworkConstraints) : bool :=
  default false (required_allowed_domains_only requirements).
Definition denylist_expansion (sandbox_policy : Permissions.SandboxPolicy) : bool :=
  match sandbox_policy with Permissions.ReadOnly _ _ | Permissions.WorkspaceWrite _ _ _ _ _ => true | _ => false end.
Definition allowlist_expansion (sandbox_policy : Permissions.SandboxPolicy) (hard_deny_allowlist_misses : bool) : bool :=
  denylist_expansion sandbox_policy && negb hard_deny_allowlist_misses.
Definition merge_domain_lists (managed user_entries : list str) : list str :=
  foldl (λ managed entry,
    if existsb (λ m, bool_decide (to_ascii_lowercase m = to_ascii_lowercase entry)) managed then managed else managed ++ [entry])
    managed user_entries.

Definition loopback_url (port : nat) : str := lit "http://127.0.0.1:" ++ show_nat port.
(** What a requirement sets, of the settings that are not lists. *)
Definition with_required (r : NetworkConstraints) (config : NetworkProxySettings) : NetworkProxySettings := {|
  enabled := default (enabled config) (required_enabled r);
  proxy_url := match required_http_port r with Some port => loopback_url port | None => proxy_url config end;
  enable_socks5 := enable_socks5 config;
  socks_url := match required_socks_port r with Some port => loopback_url port | None => socks_url config end;
  enable_socks5_udp := enable_socks5_udp config;
  allow_upstream_proxy := default (allow_upstream_proxy config) (required_upstream_proxy r);
  dangerously_allow_non_loopback_proxy := default (dangerously_allow_non_loopback_proxy config) (required_non_loopback_proxy r);
  dangerously_allow_all_unix_sockets := default (dangerously_allow_all_unix_sockets config) (required_all_unix_sockets r);
  mode := mode config; domains := domains config; unix_sockets := unix_sockets config;
  allow_local_binding := default (allow_local_binding config) (required_local_binding r);
  mitm := mitm config |}.

Definition apply_requirements (config : NetworkProxySettings) (requirements : NetworkConstraints)
    (sandbox_policy : Permissions.SandboxPolicy) (hard_deny_allowlist_misses : bool)
    : NetworkProxySettings * NetworkProxyConstraints :=
  let allowlist_expansion_enabled := allowlist_expansion sandbox_policy hard_deny_allowlist_misses in
  let denylist_expansion_enabled := denylist_expansion sandbox_policy in
  let config := with_required requirements config in
  let listed_allowed := required_domains requirements ≫= toml_allowed_domains in
  let managed_allowed := if hard_deny_allowlist_misses then Some (default [] listed_allowed) else listed_allowed in
  let config :=
    match managed_allowed with
    | Some managed =>
        set_allowed_domains
          (if allowlist_expansion_enabled then merge_domain_lists managed (default [] (allowed_domains config)) else managed) config
    | None => config
    end in
  let managed_denied := required_domains requirements ≫= toml_denied_domains in
  let config :=
    match managed_denied with
    | Some managed =>
        set_denied_domains
          (if denylist_expansion_enabled then merge_domain_lists managed (default [] (denied_domains config)) else managed) config
    | None => config
    end in
  let managed_sockets := toml_allow_unix_sockets <$> required_unix_sockets requirements in
  let config := match managed_sockets with Some sockets => set_allow_unix_sockets sockets config | None => config end in
  (config,
   {| max_enabled := required_enabled requirements;
      max_mode := None;
      max_upstream_proxy := required_upstream_proxy requirements;
      max_non_loopback_proxy := required_non_loopback_proxy requirements;
      max_all_unix_sockets := required_all_unix_sockets requirements;
      NetPolicy.managed_allowed_domains := managed_allowed;
      NetPolicy.allowlist_expansion_enabled := (λ _, allowlist_expansion_enabled) <$> managed_allowed;
      NetPolicy.managed_denied_domains := managed_denied;
      NetPolicy.denylist_expansion_enabled := (λ _, denylist_expansion_enabled) <$> managed_denied;
      managed_unix_sockets := managed_sockets;
      max_local_binding := required_local_binding requirements |}).

(** *** Configuration layers *)

Inductive ConfigLayerSource : Type :=
| Mdm (domain key : str)
| System (file : str)
| User (file : str)
| Project (dot_codex_folder : str)
| SessionFlags
| LegacyManagedConfigTomlFromFile (file : str)
| LegacyManagedConfigTomlFromMdm.
Definition is_user_controlled_layer (layer : ConfigLayerSource) : bool :=
  match layer with User _ | Project _ | SessionFlags => true | _ => false end.

(** The tables of a layer, of its profiles the network table. *)
Record NetworkTablesToml : Type := { default_permissions : option str; permissions : option (gmap str (option NetworkToml)) }.
(** [tables] is what the layer's TOML is deserialized to, [None] when that fails. *)
Record ConfigLayerEntry : Type := { layer_name : ConfigLayerSource; layer_disabled : bool; tables : option NetworkTablesToml }.
(** [get_layers] from the lowest precedence, without the disabled ones. *)
Definition enabled_layers (layers : list ConfigLayerEntry) : list ConfigLayerEntry :=
  filter (λ l, layer_disabled l = false) layers.

Definition network_tables_from_toml (layer : ConfigLayerEntry) : result net_error NetworkTablesToml :=
  ok_or ReloadError (tables layer).
Definition selected_network_from_tables (parsed : NetworkTablesToml) : result net_error (option NetworkToml) :=
  match default_permissions parsed with
  | None => Ok None
  | Some profile =>
      permissions ← ok_or MissingPermissions (permissions parsed);
      ok_or (UndefinedProfile profile) (permissions !! profile)
  end.
Definition config_step (config : NetworkProxySettings) (layer : ConfigLayerEntry) : result net_error NetworkProxySettings :=
  parsed ← network_tables_from_toml layer;
  network ← selected_network_from_tables parsed;
  Ok match network with Some network => apply_to_network_proxy_config network config | None => config end.
Definition config_from_layers (layers : list ConfigLayerEntry) (exec_policy : ExecPolicy.Policy)
    : result net_error NetworkProxySettings :=
  config ← foldl (λ acc layer, config ← acc; config_step config layer) (Ok settings_default) (enabled_layers layers);
  Ok (apply_exec_policy_network_rules exec_policy config).

Definition or_else {A} (a b : option A) : option A := match a with Some _ => a | None => b end.
Definition with_lists (lists : option (list str) * option (list str)) (d : NetworkDomainPermissionsToml)
    : option (list str) * option (list str) :=
  let config := match lists.1 with Some l => set_allowed_domains l settings_default | None => settings_default end in
  let config := match lists.2 with Some l => set_denied_domains l config | None => config end in
  let config := overlay_network_domain_permissions d config in
  (allowed_domains config, denied_domains config).
Definition apply_network_constraints (network : NetworkToml) (c : NetworkProxyConstraints) : NetworkProxyConstraints :=
  let lists := (NetPolicy.managed_allowed_domains c, NetPolicy.managed_denied_domains c) in
  let lists := match toml_domains network with Some d => with_lists lists d | None => lists end in
  {| max_enabled := or_else (toml_enabled network) (max_enabled c);
     max_mode := or_else (toml_mode network) (max_mode c);
     max_upstream_proxy := or_else (toml_allow_upstream_proxy network) (max_upstream_proxy c);
     max_non_loopback_proxy := or_else (toml_non_loopback_proxy network) (max_non_loopback_proxy c);
     max_all_unix_sockets := or_else (toml_all_unix_sockets network) (max_all_unix_sockets c);
     NetPolicy.managed_allowed_domains := lists.1;
     NetPolicy.allowlist_expansion_enabled := NetPolicy.allowlist_expansion_enabled c;
     NetPolicy.managed_denied_domains := lists.2;
     NetPolicy.denylist_expansion_enabled := NetPolicy.denylist_expansion_enabled c;
     managed_unix_sockets := or_else (toml_allow_unix_sockets <$> toml_unix_sockets network) (managed_unix_sockets c);
     max_local_binding := or_else (toml_allow_local_binding network) (max_local_binding c) |}.
Definition constraints_step (c : NetworkProxyConstraints) (layer : ConfigLayerEntry) : result net_error NetworkProxyConstraints :=
  if is_user_controlled_layer (layer_name layer) then Ok c
  else
    parsed ← network_tables_from_toml layer;
    network ← selected_network_from_tables parsed;
    Ok match network with Some network => apply_network_constraints network c | None => c end.
Definition network_constraints_from_trusted_layers (layers : list ConfigLayerEntry) : result net_error NetworkProxyConstraints :=
  foldl (λ acc layer, c ← acc; constraints_step c layer) (Ok NetworkProxyConstraints_default) (enabled_layers layers).

(** *** When files changed *)

Definition CONFIG_TOML_FILE : str := lit "config.toml".
Definition layer_file (source : ConfigLayerSource) : option str :=
  match source with
  | System file | User file | LegacyManagedConfigTomlFromFile file => Some file
  | Project dot_codex_folder => Some (Paths.path_join dot_codex_folder CONFIG_TOML_FILE)
  | Mdm _ _ | SessionFlags | LegacyManagedConfigTomlFromMdm => None
  end.
Record LayerMtime : Type := { mtime_path : str; mtime : option Z }.
(** [mtime_of] is the time of a file's last change, when it can be read. *)
Definition collect_layer_mtimes (mtime_of : str → option Z) (layers : list ConfigLayerEntry) : list LayerMtime :=
  (λ path, {| mtime_path := path; mtime := mtime_of path |}) <$> omap (λ l, layer_file (layer_name l)) (enabled_layers layers).
Definition needs_reload (mtime_of : str → option Z) (layer_mtimes : list LayerMtime) : bool :=
  existsb (λ layer,
    match mtime_of (mtime_path layer), mtime layer with
    | Some new_mtime, Some old_mtime => (old_mtime <? new_mtime)%Z
    | Some _, None | None, Some _ => true
    | None, None => false
    end) layer_mtimes.

(** *** Specifications and loaded policies *)

Section Sources.
Context (glob_ok : str → bool) (globset_ok : list str → bool).
Context (url_host_parse : str → option str).
Context {MitmState : Type} (mitm_new : bool → option MitmState).
Abbreviation state := (ConfigState MitmState BlockedRequest).
Abbreviation validate := (validate_policy_against_constraints url_host_parse).
Abbreviation build := (build_config_state glob_ok globset_ok mitm_new).

Record NetworkProxySpec : Type := {
  base_config : NetworkProxySettings;
  requirements : option NetworkConstraints;
  spec_config : NetworkProxySettings;
  spec_constraints : NetworkProxyConstraints;
  hard_deny_allowlist_misses : bool;
}.
Definition from_config_and_constraints (config : NetworkProxySettings) (requirements : option NetworkConstraints)
    (sandbox_policy : Permissions.SandboxPolicy) : result net_error NetworkProxySpec :=
  let hard_deny := match requirements with Some r => managed_allowed_domains_only r | None => false end in
  let '(effective, constraints) :=
    match requirements with
    | Some r => apply_requirements config r sandbox_policy hard_deny
    | None => (config, NetworkProxyConstraints_default)
    end in
  _ ← map_err Constraint (validate effective constraints);
  Ok {| base_config := config; requirements := requirements; spec_config := effective; spec_constraints := constraints;
        hard_deny_allowlist_misses := hard_deny |}.
Definition recompute_for_sandbox_policy (self : NetworkProxySpec) (sandbox_policy : Permissions.SandboxPolicy)
    : result net_error NetworkProxySpec :=
  from_config_and_constraints (base_config self) (requirements self) sandbox_policy.
Definition with_exec_policy_network_rules (self : NetworkProxySpec) (exec_policy : ExecPolicy.Policy)
    : result net_error NetworkProxySpec :=
  let config := spec_apply_exec_policy_network_rules exec_policy (spec_config self) in
  _ ← map_err Constraint (validate config (spec_constraints self));
  Ok {| base_config := base_config self; requirements := requirements self; spec_config := config;
        spec_constraints := spec_constraints self; hard_deny_allowlist_misses := hard_deny_allowlist_misses self |}.
Definition build_config_state_for_spec (self : NetworkProxySpec) : result net_error state :=
  build (spec_config self) (spec_constraints self).

(** What the configuration is loaded from: the layers, the rules of the execution
    policy (the empty one when they do not parse), and when files changed. *)
Record Disk : Type := {
  disk_layers : result net_error (list ConfigLayerEntry);
  disk_exec_policy : result net_error ExecPolicy.Policy;
  disk_mtime : str → option Z;
}.
Definition enforce_trusted_constraints (layers : list ConfigLayerEntry) (config : NetworkProxySettings)
    : result net_error NetworkProxyConstraints :=
  constraints ← network_constraints_from_trusted_layers layers;
  _ ← map_err Constraint (validate config constraints);
  Ok constraints.
Definition build_config_state_with_mtimes (disk : Disk) : result net_error (state * list LayerMtime) :=
  layers ← disk_layers disk;
  exec_policy ← disk_exec_policy disk;
  config ← config_from_layers layers exec_policy;
  constraints ← enforce_trusted_constraints layers config;
  new ← build config constraints;
  Ok (new, collect_layer_mtimes (disk_mtime disk) layers).

(** The reloaders, and their answers to [maybe_reload] and [reload_now]. *)
Inductive ConfigReloader : Type :=
| StaticNetworkProxyReloader (state : ConfigState MitmState BlockedRequest)
| MtimeConfigReloader (layer_mtimes : list LayerMtime).
Definition maybe_reload (self : ConfigReloader) (disk : Disk) : ConfigReloader * result net_error (option state) :=
  match self with
  | StaticNetworkProxyReloader _ => (self, Ok None)
  | MtimeConfigReloader layer_mtimes =>
      if negb (needs_reload (disk_mtime disk) layer_mtimes) then (self, Ok None)
      else match build_config_state_with_mtimes disk with
           | Ok (new, layer_mtimes) => (MtimeConfigReloader layer_mtimes, Ok (Some new))
           | Err e => (self, Err e)
           | Crash => (self, Crash)
           end
  end.
Definition reload_now (self : ConfigReloader) (disk : Disk) : ConfigReloader * result net_error state :=
  match self with
  | StaticNetworkProxyReloader s => (self, Ok s)
  | MtimeConfigReloader _ =>
      match build_config_state_with_mtimes disk with
      | Ok (new, layer_mtimes) => (MtimeConfigReloader layer_mtimes, Ok new)
      | Err e => (self, Err e)
      | Crash => (self, Crash)
      end
  end.

(** The settings that a running proxy keeps of its policy. *)
Record NetworkProxyRuntimeSettings : Type := {
  runtime_allow_local_binding : bool;
  runtime_allow_unix_sockets : list str;
  runtime_all_unix_sockets : bool;
}.
Definition runtime_settings_from_config (config : NetworkProxySettings) : NetworkProxyRuntimeSettings := {|
  runtime_allow_local_binding := allow_local_binding config; runtime_allow_unix_sockets := allow_unix_sockets config;
  runtime_all_unix_sockets := dangerously_allow_all_unix_sockets config |}.

(** The first setting that a running proxy cannot change. *)
Definition fixed_setting (new current : NetworkProxySettings) : option string :=
  if negb (Bool.eqb (enabled new) (enabled current)) then Some "network.enabled"%string
  else if negb (bool_decide (proxy_url new = proxy_url current)) then Some "network.proxy_url"%string
  else if negb (bool_decide (socks_url new = socks_url current)) then Some "network.socks_url"%string
  else if negb (Bool.eqb (enable_socks5 new) (enable_socks5 current)) then Some "network.enable_socks5"%string
  else if negb (Bool.eqb (enable_socks5_udp new) (enable_socks5_udp current)) then Some "network.enable_socks5_udp"%string
  else None.
(** [NetworkProxy::replace_config_state]: the settings the proxy has from then on. *)
Definition proxy_replace_config_state (new : state) : proc (MitmState:=MitmState) NetworkProxyRuntimeSettings :=
  current ← current_cfg;
  match fixed_setting (config new) current with
  | Some field => throw (CannotUpdate field)
  | None => _ ← replace_config_state new; mret (runtime_settings_from_config (config new))
  end.
Definition apply_to_started_proxy (self : NetworkProxySpec) : proc (MitmState:=MitmState) NetworkProxyRuntimeSettings :=
  new ← pure_result (build_config_state_for_spec self);
  proxy_replace_config_state new.

(** A specification, by the calls that make it. *)
Inductive SpecSource : Type :=
| FromConfig (config : NetworkProxySettings) (requirements : option NetworkConstraints) (sandbox_policy : Permissions.SandboxPolicy)
| Recomputed (source : SpecSource) (sandbox_policy : Permissions.SandboxPolicy)
| WithRules (source : SpecSource) (exec_policy : ExecPolicy.Policy).
Fixpoint make_spec (source : SpecSource) : result net_error NetworkProxySpec :=
  match source with
  | FromConfig config requirements sandbox_policy => from_config_and_constraints config requirements sandbox_policy
  | Recomputed source sandbox_policy => spec ← make_spec source; recompute_for_sandbox_policy spec sandbox_policy
  | WithRules source exec_policy => spec ← make_spec source; with_exec_policy_network_rules spec exec_policy
  end.

(** A policy as it is when its proxy starts, with its reloader: that of a
    specification ([build_state_with_audit_metadata]) or that of the configuration
    layers ([build_network_proxy_state_and_reloader]). *)
Definition start_from_spec (source : SpecSource) : result net_error (state * ConfigReloader) :=
  spec ← make_spec source;
  s ← build_config_state_for_spec spec;
  Ok (s, StaticNetworkProxyReloader s).
Definition start_from_layers (disk : Disk) : result net_error (state * ConfigReloader) :=
  '(s, layer_mtimes) ← build_config_state_with_mtimes disk;
  Ok (s, MtimeConfigReloader layer_mtimes).
End Sources.
End NetSources.
