(* ===== verification/NetPolicyFacts.v ===== *)
(** * The network proxy's policy: theorems

    What domain patterns allow, what the limits of a managed configuration
    guarantee, and where the proxy listens. *)
From S2P Require Import Prelude Str Paths NetAddr NetPolicy.
Import NetAddr NetPolicy.

(** ** Domains *)

Lemma map_trim_start (f : char → char) (p : char → bool) s :
  (∀ c, p (f c) = p c) → trim_start_matches p (f <$> s) = f <$> trim_start_matches p s.
Proof. intros Hp. induction s as [|c s IH]; [done|]. csimpl. rewrite Hp. by destruct (p c). Qed.
Lemma map_trim_end (f : char → char) (p : char → bool) s :
  (∀ c, p (f c) = p c) → trim_end_matches p (f <$> s) = f <$> trim_end_matches p s.
Proof. intros Hp. unfold trim_end_matches. by rewrite <-fmap_reverse, map_trim_start, fmap_reverse. Qed.

(** Lowering a letter keeps it out of any class without letters. *)
Lemma lower_cases c : char_to_ascii_lowercase c = c ∨ (65 <= c <= 90)%N ∧ char_to_ascii_lowercase c = (c + 32)%N.
Proof.
  unfold char_to_ascii_lowercase. destruct (N.leb_spec 65 c), (N.leb_spec c 90); simpl; auto.
Qed.
Lemma lower_eqb c d : (d < 65 ∨ 122 < d ∨ 90 < d < 97)%N → (char_to_ascii_lowercase c =? d)%N = (c =? d)%N.
Proof.
  intros Hd. destruct (lower_cases c) as [->|[Hc ->]]; [done|].
  destruct (N.eqb_spec (c + 32) d), (N.eqb_spec c d); lia || done.
Qed.
Lemma lower_is_dot c : is_dot (char_to_ascii_lowercase c) = is_dot c.
Proof. apply lower_eqb. unfold DOT. lia. Qed.
Lemma lower_idemp (s : str) : to_ascii_lowercase (to_ascii_lowercase s) = to_ascii_lowercase s.
Proof.
  unfold to_ascii_lowercase. rewrite <-list_fmap_compose. apply list_fmap_ext. intros _ c _. simpl.
  destruct (lower_cases c) as [H|[Hc H]]; rewrite H; [by rewrite H|]. unfold char_to_ascii_lowercase.
  destruct (N.leb_spec 65 (c + 32)), (N.leb_spec (c + 32) 90); simpl; lia || done.
Qed.

Lemma normalize_domain_idemp d : normalize_domain (normalize_domain d) = normalize_domain d.
Proof.
  unfold normalize_domain at 1. unfold normalize_domain at 1.
  unfold to_ascii_lowercase at 2. rewrite map_trim_end by apply lower_is_dot.
  fold (to_ascii_lowercase (trim_end_matches is_dot (trim_end_matches is_dot d))). rewrite lower_idemp.
  unfold normalize_domain. f_equal. unfold trim_end_matches. by rewrite reverse_involutive, trim_start_matches_idemp.
Qed.

(** What the domain tests say of normal domains. *)
Definition below (child parent : str) : Prop := (NetAddr.DOT :: parent) `suffix_of` child.

Lemma is_subdomain_or_equal_spec c p :
  is_subdomain_or_equal c p = true ↔
  normalize_domain c = normalize_domain p ∨ below (normalize_domain c) (normalize_domain p).
Proof.
  unfold is_subdomain_or_equal, below. cbn zeta. rewrite <-ends_with_spec. case_bool_decide; naive_solver.
Qed.
Lemma is_strict_subdomain_spec c p :
  is_strict_subdomain c p = true ↔ below (normalize_domain c) (normalize_domain p).
Proof.
  unfold is_strict_subdomain, below. cbn zeta. rewrite andb_true_iff, negb_true_iff, bool_decide_eq_false, ends_with_spec.
  split; [by intros []|]. intros Hb. split; [|done]. intros Heq. rewrite Heq in Hb.
  apply suffix_length in Hb. simpl in Hb. lia.
Qed.
Lemma below_trans a b c : below a b → below b c → below a c.
Proof. intros [x ->] [y ->]. exists (x ++ NetAddr.DOT :: y). by rewrite <-app_assoc. Qed.
Lemma domain_eq_spec a b : domain_eq a b = true ↔ normalize_domain a = normalize_domain b.
Proof. unfold domain_eq. by rewrite bool_decide_eq_true. Qed.

(** The hosts of a pattern. *)
Definition covers (p : DomainPattern) (host : str) : Prop := allows p (Exact host) = true.

Lemma allows_sound m c : allows m c = true → ∀ host, covers c host → covers m host.
Proof.
  unfold covers. destruct m as [m|m|m], c as [c|c|c]; simpl; try done; intros Ha host;
    rewrite ?is_subdomain_or_equal_spec, ?is_strict_subdomain_spec, ?domain_eq_spec in *;
    intuition (eauto using below_trans || congruence).
Qed.

Definition domain_of (p : DomainPattern) : str :=
  match p with ApexAndSubdomains d | SubdomainsOnly d | Exact d => d end.

Lemma normalize_prefixed (x : char) d :
  is_dot x = false → char_to_ascii_lowercase x = x → normalize_domain d ≠ [] →
  normalize_domain (x :: NetAddr.DOT :: d) = x :: NetAddr.DOT :: normalize_domain d.
Proof.
  intros Hx Hl Hd. unfold normalize_domain in *.
  assert (trim_end_matches is_dot d ≠ []) as Ht by (intros H; by rewrite H in Hd).
  assert (trim_end_matches is_dot (x :: NetAddr.DOT :: d) = x :: NetAddr.DOT :: trim_end_matches is_dot d) as ->.
  { unfold trim_end_matches in *. rewrite !reverse_cons.
    assert (trim_start_matches is_dot (reverse d) ≠ []) as Hs by (intros H; by rewrite H in Ht).
    clear Ht Hd; revert Hs. induction (reverse d) as [|c l IH]; [done|]. simpl. destruct (is_dot c); [by apply IH|].
    intros _. change (c :: (l ++ [NetAddr.DOT]) ++ [x]) with (((c :: l) ++ [NetAddr.DOT]) ++ [x]).
    by rewrite !reverse_snoc. }
  unfold to_ascii_lowercase. csimpl. by rewrite Hl.
Qed.

Definition x_of (d : str) : str := 120%N :: NetAddr.DOT :: d.
Definition y_of (d : str) : str := 121%N :: NetAddr.DOT :: d.

Lemma below_x_of d e : below (x_of d) e ↔ d = e ∨ below d e.
Proof.
  unfold below, x_of. split.
  - intros [Hc|[Hc|Hc]%suffix_cons_inv]%suffix_cons_inv; [done|injection Hc as ->; auto|auto].
  - intros [->|[k ->]]; [by exists [120%N]|]. exists (120%N :: NetAddr.DOT :: k). done.
Qed.

Lemma allows_complete m c :
  normalize_domain (domain_of c) ≠ [] → (∀ host, covers c host → covers m host) → allows m c = true.
Proof.
  intros Hd Hc. set (d := normalize_domain (domain_of c)) in *.
  assert (Hx : normalize_domain (x_of (domain_of c)) = x_of d) by (by apply normalize_prefixed).
  assert (Hy : normalize_domain (y_of (domain_of c)) = y_of d) by (by apply normalize_prefixed).
  assert (Hsame : ∀ e, x_of d = e → y_of d = e → False) by (by intros ? <-).
  assert (Hbelow : below (x_of d) d ∧ below (y_of d) d) by (split; [by exists [120%N]|by exists [121%N]]).
  pose proof (Hc (domain_of c)) as H0. pose proof (Hc (x_of (domain_of c))) as H1. pose proof (Hc (y_of (domain_of c))) as H2.
  assert (Hlen : ∀ e, x_of d = e → ¬ below (y_of d) e).
  { intros e <- [k Hk]. apply (f_equal length) in Hk. rewrite length_app in Hk. simpl in Hk. lia. }
  unfold covers in H0, H1, H2. fold d in H0, H1, H2. destruct m as [m|m|m], c as [c|c|c]; simpl in *;
    rewrite ?is_subdomain_or_equal_spec, ?is_strict_subdomain_spec, ?domain_eq_spec in *;
    fold d in H0, H1, H2; fold d; rewrite Hx in H1; rewrite Hy in H2; destruct Hbelow as [Hbx Hby].
  all: try (apply H0; by auto).
  all: try (by apply below_x_of, H1).
  all: try (exfalso; eapply Hsame; [by apply H1; auto|by apply H2; auto]).
  destruct (H1 Hbx) as [E1|E1]; [exfalso|by apply below_x_of].
  destruct (H2 Hby) as [E2|E2]; [by eapply Hsame|by eapply Hlen].
Qed.

(** One domain pattern allows another exactly when every host that the
    second matches is matched by the first, for a pattern with a domain. *)
Theorem allows_iff_covers m c (Hd : normalize_domain (domain_of c) ≠ []) :
  allows m c = true ↔ ∀ host, covers c host → covers m host.
Proof. split; [apply allows_sound|by apply allows_complete]. Qed.
Lemma allows_iff_covers_witness :
  allows (SubdomainsOnly (lit "Example.com")) (ApexAndSubdomains (lit "api.example.com.")) = true
  ∧ ∀ host, covers (ApexAndSubdomains (lit "api.example.com.")) host → covers (SubdomainsOnly (lit "Example.com")) host.
Proof.
  split; [reflexivity|].
  apply (allows_iff_covers (SubdomainsOnly (lit "Example.com")) (ApexAndSubdomains (lit "api.example.com."))); done.
Defined.

(** ** Case does not matter to a pattern *)

(** Characters that are no letter. *)
Definition no_letter (d : char) : Prop := (d < 65 ∨ 122 < d ∨ 90 < d < 97)%N.

Lemma lower_cons c s : to_ascii_lowercase (c :: s) = char_to_ascii_lowercase c :: to_ascii_lowercase s.
Proof. done. Qed.

Lemma lower_prefix p s : Forall no_letter p →
  strip_prefix p (to_ascii_lowercase s) = to_ascii_lowercase <$> strip_prefix p s.
Proof.
  intros Hp. revert s. induction Hp as [|d p Hd Hp IH]; intros [|c s]; try done. unfold to_ascii_lowercase. csimpl.
  fold (to_ascii_lowercase s). rewrite N.eqb_sym, lower_eqb, N.eqb_sym by done. destruct (d =? c)%N; [apply IH|done].
Qed.
Lemma lower_starts p s : Forall no_letter p → starts_with (to_ascii_lowercase s) p = starts_with s p.
Proof. intros Hp. unfold starts_with. rewrite lower_prefix by done. by destruct (strip_prefix p s). Qed.
Lemma lower_find p s : Forall no_letter p → find (to_ascii_lowercase s) p = find s p.
Proof.
  intros Hp. induction s as [|c s IH].
  - done.
  - rewrite lower_cons. cbn [find]. rewrite <-lower_cons, lower_starts by done. by rewrite IH.
Qed.
Lemma lower_split d s : no_letter d → split_on d (to_ascii_lowercase s) = to_ascii_lowercase <$> split_on d s.
Proof.
  intros Hd. induction s as [|c s IH]; [done|]. rewrite lower_cons. cbn [split_on].
  rewrite lower_eqb, IH by done. destruct (c =? d)%N; [done|]. by destruct (split_on d s).
Qed.
Lemma lower_count d s : no_letter d → count_char d (to_ascii_lowercase s) = count_char d s.
Proof.
  intros Hd. unfold count_char. induction s as [|c s IH]; [done|].
  rewrite lower_cons, !filter_cons.
  assert (char_to_ascii_lowercase c = d ↔ c = d) as He by (by rewrite <-!N.eqb_eq, lower_eqb).
  destruct (decide (char_to_ascii_lowercase c = d)) as [H|H]; rewrite He in H.
  - rewrite decide_True by done. simpl. by rewrite IH.
  - by rewrite decide_False, IH by done.
Qed.
Lemma lower_whitespace c : is_whitespace (char_to_ascii_lowercase c) = is_whitespace c.
Proof.
  destruct (lower_cases c) as [->|[Hc ->]]; [done|]. apply eq_true_iff_eq. unfold is_whitespace.
  rewrite !orb_true_iff, !andb_true_iff, !N.leb_le, !N.eqb_eq. lia.
Qed.
Lemma lower_trim s : trim (to_ascii_lowercase s) = to_ascii_lowercase (trim s).
Proof.
  unfold trim, trim_end, trim_start, to_ascii_lowercase. rewrite map_trim_start, map_trim_end; [done|apply lower_whitespace..].
Qed.
Lemma normalize_dns_host_lower s : normalize_dns_host (to_ascii_lowercase s) = normalize_dns_host s.
Proof. unfold normalize_dns_host. by rewrite lower_idemp. Qed.

Lemma normalize_host_lower s : normalize_host (to_ascii_lowercase s) = normalize_host s.
Proof.
  assert (Hsep : no_letter LBRACKET ∧ no_letter RBRACKET ∧ no_letter COLON)
    by (unfold no_letter, LBRACKET, RBRACKET, COLON; lia). destruct Hsep as (H1&H2&H3).
  unfold normalize_host. rewrite lower_trim. rewrite lower_starts, lower_find by (by constructor).
  destruct (if starts_with _ _ then _ else _) as [i|].
  - rewrite <-(normalize_dns_host_lower (take (i - 1) (drop 1 (trim s)))). f_equal.
    unfold to_ascii_lowercase. by rewrite fmap_take, fmap_drop.
  - rewrite lower_count by done. destruct (_ =? 1); [|apply normalize_dns_host_lower].
    rewrite lower_split by done. destruct (split_on _ _) as [|x l]; [done|]. apply normalize_dns_host_lower.
Qed.

Lemma lower_is_star s : bool_decide (to_ascii_lowercase s = lit "*") = bool_decide (s = lit "*").
Proof.
  apply bool_decide_ext. destruct s as [|c [|d s]]; try done. rewrite lower_cons. change (lit "*") with [42%N].
  assert (char_to_ascii_lowercase c = 42%N ↔ c = 42%N) as He by (rewrite <-!N.eqb_eq, lower_eqb; [done|lia]).
  split; intros [= H%He]; [by subst|]. by rewrite H.
Qed.

Lemma normalize_pattern_lower s : normalize_pattern (to_ascii_lowercase s) = normalize_pattern s.
Proof.
  unfold normalize_pattern. rewrite lower_trim, lower_is_star. case_bool_decide; [done|].
  rewrite !lower_prefix by (repeat constructor; unfold no_letter; vm_compute; tauto).
  destruct (strip_prefix (lit "**.") _); cbn [fmap option_fmap option_map]; [by rewrite normalize_host_lower|].
  destruct (strip_prefix (lit "*.") _); cbn [fmap option_fmap option_map]; by rewrite normalize_host_lower.
Qed.

(** ** Managed limits *)

Section Limits.
Context (glob_ok : str → bool) (globset_ok : list str → bool) (glob_match : str → str → bool).
Context (url_host_parse : str → option str).
Context {MitmState : Type} (mitm_new : bool → option MitmState).
Abbreviation pattern_of := (parse_for_constraints url_host_parse).
Abbreviation validate := (validate_policy_against_constraints url_host_parse).

Definition allowed_of (s : NetworkProxySettings) : list str := default [] (allowed_domains s).
Definition denied_of (s : NetworkProxySettings) : list str := default [] (denied_domains s).
Definition no_global (l : list str) : Prop := ∀ p, p ∈ l → is_global_wildcard_domain_pattern p = false.

(** A switch that is on only when it may be. *)
Definition only_if (on allowed : bool) : Prop := on = true → allowed = true.

Definition allowed_within (s : NetworkProxySettings) (expansion : option bool) (managed : list str) : Prop :=
  no_global managed ∧
  match expansion with
  | Some true => lower_set managed ⊆ lower_set (allowed_of s) ∪ lower_set (denied_of s)
  | Some false => lower_set (allowed_of s) = lower_set managed ∖ lower_set (denied_of s)
  | None => ∀ e, e ∈ allowed_of s → ∃ m, m ∈ managed ∧ allows (pattern_of m) (pattern_of e) = true
  end.
Definition denied_within (s : NetworkProxySettings) (expansion : option bool) (managed : list str) : Prop :=
  no_global managed ∧
  match expansion with
  | Some false => lower_set (denied_of s) = lower_set managed
  | _ => lower_set managed ⊆ lower_set (denied_of s)
  end.

(** The settings are within the managed limits. *)
Record within_limits (s : NetworkProxySettings) (c : NetworkProxyConstraints) : Prop := {
  denied_scoped : no_global (denied_of s);
  enabled_within : ∀ b, max_enabled c = Some b → only_if (enabled s) b;
  mode_within : ∀ m, max_mode c = Some m → network_mode_rank (mode s) ≤ network_mode_rank m;
  upstream_within : only_if (allow_upstream_proxy s) (default true (max_upstream_proxy c));
  non_loopback_within : only_if (dangerously_allow_non_loopback_proxy s) (default true (max_non_loopback_proxy c));
  all_sockets_within : only_if (dangerously_allow_all_unix_sockets s)
    (default (bool_decide (managed_unix_sockets c = None)) (max_all_unix_sockets c));
  local_binding_within : ∀ b, max_local_binding c = Some b → only_if (allow_local_binding s) b;
  allowed_domains_within : ∀ l, managed_allowed_domains c = Some l → allowed_within s (allowlist_expansion_enabled c) l;
  denied_domains_within : ∀ l, managed_denied_domains c = Some l → denied_within s (denylist_expansion_enabled c) l;
  sockets_within : ∀ l, managed_unix_sockets c = Some l →
    ∀ p, p ∈ allow_unix_sockets s → to_ascii_lowercase p ∈ lower_set l;
}.

Lemma ensure_Ok ok field a b : ensure ok field a b = Ok () ↔ ok = true.
Proof. by destruct ok. Qed.
Lemma when_Ok {A} (o : option A) f : when o f = Ok () ↔ ∀ a, o = Some a → f a = Ok ().
Proof. destruct o; simpl; [|by split]. split; [by intros ? ? [= <-]|by intros H; apply H]. Qed.
Lemma check_switch_Ok field on allowed : check_switch field on allowed = Ok () ↔ only_if on allowed.
Proof. unfold check_switch, only_if. rewrite ensure_Ok. by destruct on, allowed; simpl; intuition. Qed.
Lemma bind_Ok (m n : check) : (m ≫= λ _, n) = Ok () ↔ m = Ok () ∧ n = Ok ().
Proof. destruct m as [[]|e|]; simpl; [|by split; [|intros []]..]. tauto. Qed.

Lemma no_global_Ok field l : validate_non_global_wildcard_domain_patterns field l = Ok () ↔ no_global l.
Proof.
  unfold validate_non_global_wildcard_domain_patterns, no_global.
  destruct (filter _ l) as [|p f] eqn:Hf; simpl.
  - split; [|done]. intros _ p Hp. destruct (is_global_wildcard_domain_pattern p) eqn:Hg; [|done].
    assert (p ∈ filter (λ p, is_global_wildcard_domain_pattern p = true) l) as H by (by apply list_elem_of_filter).
    rewrite Hf in H. by apply elem_of_nil in H.
  - split; [done|]. intros Hl. assert (p ∈ filter (λ p, is_global_wildcard_domain_pattern p = true) l) as H.
    { rewrite Hf. by left. }
    apply list_elem_of_filter in H as [Hg Hp]. by rewrite Hl in Hg.
Qed.

Lemma filter_nil_iff {A} (P : A → Prop) `{!∀ x, Decision (P x)} l : filter P l = [] ↔ ∀ x, x ∈ l → ¬ P x.
Proof.
  split.
  - intros Hf x Hx HP. assert (x ∈ filter P l) as Hin by (by apply list_elem_of_filter). rewrite Hf in Hin.
    by apply elem_of_nil in Hin.
  - intros Hnone. destruct (filter P l) as [|x f] eqn:Hf; [done|]. exfalso.
    assert (x ∈ filter P l) as [HP Hx]%list_elem_of_filter by (rewrite Hf; by left). by apply (Hnone x).
Qed.

Lemma difference_empty_iff (X Y : gset str) : X ∖ Y = ∅ ↔ X ⊆ Y.
Proof. split; [apply empty_difference_subseteq_L|apply subseteq_empty_difference_L]. Qed.

Lemma check_allowed_Ok s c l :
  check_allowed_domains url_host_parse (allowed_of s) (lower_set (denied_of s)) c l = Ok ()
  ↔ allowed_within s (allowlist_expansion_enabled c) l.
Proof.
  unfold check_allowed_domains, allowed_within. rewrite bind_Ok, no_global_Ok. f_equiv.
  destruct (allowlist_expansion_enabled c) as [[]|]; rewrite ensure_Ok, bool_decide_eq_true;
    [by rewrite difference_difference_l_L, difference_empty_iff|done|].
  rewrite filter_nil_iff. split; intros H e He; specialize (H e He).
  - apply not_false_iff_true, existsb_exists in H as (m&Hm&Ha). apply list_elem_of_In, list_elem_of_fmap in Hm as (m'&->&Hm).
    eauto.
  - destruct H as (m&Hm&Ha). apply not_false_iff_true, existsb_exists. exists (pattern_of m). split; [|done].
    apply list_elem_of_In, list_elem_of_fmap. eauto.
Qed.
Lemma check_denied_Ok s c l :
  check_denied_domains (denied_of s) c l = Ok () ↔ denied_within s (denylist_expansion_enabled c) l.
Proof.
  unfold check_denied_domains, denied_within. rewrite bind_Ok, no_global_Ok. f_equiv.
  destruct (denylist_expansion_enabled c) as [[]|]; rewrite ensure_Ok, bool_decide_eq_true; by rewrite ?difference_empty_iff.
Qed.
Lemma check_sockets_Ok s l :
  check_unix_sockets (allow_unix_sockets s) l = Ok ()
  ↔ ∀ p, p ∈ allow_unix_sockets s → to_ascii_lowercase p ∈ lower_set l.
Proof.
  unfold check_unix_sockets. rewrite ensure_Ok, bool_decide_eq_true, filter_nil_iff.
  split; intros Hin p Hp; [apply dec_stable, (Hin p Hp)|]. intros Hn. apply Hn, (Hin p Hp).
Qed.

(** Settings are accepted exactly when they are within the limits. *)
Lemma validate_Ok s c : validate s c = Ok () ↔ within_limits s c.
Proof.
  unfold validate_policy_against_constraints. cbn zeta. fold (allowed_of s) (denied_of s).
  rewrite !bind_Ok, no_global_Ok, !when_Ok, !check_switch_Ok. split.
  - intros (H0&H1&H2&H3&H4&H5&H6&H7&H8&H9). constructor; try done.
    + intros b Hb. eapply check_switch_Ok, (H1 b Hb).
    + intros m Hm. specialize (H2 m Hm). by apply ensure_Ok, Nat.leb_le in H2.
    + intros b Hb. eapply check_switch_Ok, (H6 b Hb).
    + intros l Hl. by apply check_allowed_Ok, H7.
    + intros l Hl. by apply check_denied_Ok, H8.
    + intros l Hl. by apply check_sockets_Ok, H9.
  - intros [H0 H1 H2 H3 H4 H5 H6 H7 H8 H9]. split_and!; try done.
    + intros b Hb. by apply check_switch_Ok, H1.
    + intros m Hm. by apply ensure_Ok, Nat.leb_le, H2.
    + intros b Hb. by apply check_switch_Ok, H6.
    + intros l Hl. by apply check_allowed_Ok, H7.
    + intros l Hl. by apply check_denied_Ok, H8.
    + intros l Hl. by apply check_sockets_Ok, H9.
Qed.
Lemma validate_no_crash s c : validate s c ≠ Crash.
Proof.
  assert (Hbind : ∀ (m n : check), m ≠ Crash → n ≠ Crash → (m ≫= λ _, n) ≠ Crash) by (by intros [] ???).
  assert (Hens : ∀ ok f a b, ensure ok f a b ≠ Crash) by (by intros []).
  assert (Hng : ∀ f l, validate_non_global_wildcard_domain_patterns f l ≠ Crash)
    by (intros f l; unfold validate_non_global_wildcard_domain_patterns; by case_match).
  unfold validate_policy_against_constraints, check_switch.
  repeat (apply Hbind || apply Hens || apply Hng); unfold when; repeat case_match; try done;
    unfold check_allowed_domains, check_denied_domains; repeat case_match;
    repeat (apply Hbind || apply Hens || apply Hng).
Qed.
End Limits.

(** ** Compiled patterns *)

(** The globs a pattern stands for. *)
Definition candidates (p : str) : list str := expand_domain_pattern (normalize_pattern p).

Section Compiled.
Context (glob_ok : str → bool) (globset_ok : list str → bool).

Lemma add_candidates_Ok l b set :
  add_candidates glob_ok l b = Ok set → ∀ g, g ∈ set ↔ g ∈ b ∨ g ∈ l.
Proof.
  revert b. induction l as [|c l IH]; intros b; simpl.
  - intros [= <-] g. rewrite elem_of_nil. tauto.
  - case_bool_decide as Hc.
    + intros H g. rewrite (IH _ H), elem_of_cons. naive_solver.
    + destruct (glob_ok c); [|done]. intros H g. rewrite (IH _ H), elem_of_app, !elem_of_cons, elem_of_nil. tauto.
Qed.

Lemma compile_patterns_Ok reject l b set :
  compile_patterns glob_ok reject l b = Ok set → ∀ g, g ∈ set ↔ g ∈ b ∨ ∃ p, p ∈ l ∧ g ∈ candidates p.
Proof.
  revert b. induction l as [|p l IH]; intros b; simpl.
  - intros [= <-] g. split; [tauto|]. intros [|(p&Hp&_)]; [done|]. by apply elem_of_nil in Hp.
  - destruct (reject && _); [done|]. intros (b'&Hb'&H)%result_bind_Ok g. rewrite (IH _ H), (add_candidates_Ok _ _ _ Hb').
    fold (candidates p). setoid_rewrite elem_of_cons. naive_solver.
Qed.

Lemma compile_globset_Ok reject l set :
  compile_globset_with_policy glob_ok globset_ok l reject = Ok set → ∀ g, g ∈ set ↔ ∃ p, p ∈ l ∧ g ∈ candidates p.
Proof.
  unfold compile_globset_with_policy. intros (s&Hs&H)%result_bind_Ok g. destruct (globset_ok s); [|done].
  injection H as <-. rewrite (compile_patterns_Ok _ _ _ _ Hs), elem_of_nil. tauto.
Qed.
End Compiled.

Lemma candidates_lower p q : to_ascii_lowercase p = to_ascii_lowercase q → candidates p = candidates q.
Proof.
  intros H. unfold candidates. by rewrite <-(normalize_pattern_lower p), H, normalize_pattern_lower.
Qed.

(** A managed denial is among the denied patterns, up to case. *)
Lemma denied_within_elem s expansion l p :
  denied_within s expansion l → p ∈ l → ∃ q, q ∈ denied_of s ∧ candidates q = candidates p.
Proof.
  intros [_ Hd] Hp. assert (to_ascii_lowercase p ∈ lower_set (denied_of s)) as H.
  { assert (lower_set l ⊆ lower_set (denied_of s)) as Hsub by (destruct expansion as [[]|]; [done|by rewrite Hd|done]).
    apply Hsub. unfold lower_set. apply elem_of_list_to_set, list_elem_of_fmap. eauto. }
  unfold lower_set in H. apply elem_of_list_to_set, list_elem_of_fmap in H as (q&Hq&Hin).
  exists q. split; [done|]. by apply candidates_lower.
Qed.

(** ** Effective permissions *)

(** The permission of a pattern mentioned in a list of entries: the strongest. *)
Definition strongest (l : list NetworkDomainPermissionEntry) (pat : str) : option NetworkDomainPermission :=
  foldl (λ o e, if decide (pattern e = pat) then
                  Some match o with None => permission e | Some p => permission_max p (permission e) end
                else o) None l.

Lemma effective_fold l :
  let st := foldl effective_step ([], ∅) l in
  NoDup st.1 ∧ (∀ pat, st.2 !! pat = strongest l pat) ∧ ∀ pat, pat ∈ st.1 ↔ is_Some (strongest l pat).
Proof.
  induction l as [|e l IH] using rev_ind.
  - cbn. split_and!; [apply NoDup_nil_2|by intros; rewrite lookup_empty|]. intros pat. rewrite elem_of_nil. split; [done|by intros [? [=]]].
  - cbn zeta in *. unfold strongest in *. setoid_rewrite foldl_app.
    destruct (foldl effective_step ([], ∅) l) as [order m]. cbn [fst snd] in IH. destruct IH as (Hnd&Hm&Ho). cbn [foldl].
    unfold effective_step. destruct (m !! pattern e) as [p|] eqn:He; cbn [fst snd].
    + split_and!; [done| |].
      * intros pat. destruct (decide (pattern e = pat)) as [<-|Hne]; [|by rewrite lookup_insert_ne, Hm].
        rewrite lookup_insert. rewrite <-Hm, He. by rewrite decide_True.
      * intros pat. rewrite Ho. destruct (decide (pattern e = pat)) as [<-|]; [|done].
        rewrite <-Hm, He. split; eauto.
    + rewrite Hm in He. split_and!.
      * apply NoDup_app. split_and!; [done| |apply NoDup_singleton]. intros x Hx ->%list_elem_of_singleton.
        apply Ho in Hx as [? Hx]. congruence.
      * intros pat. destruct (decide (pattern e = pat)) as [<-|Hne]; [|by rewrite lookup_insert_ne, Hm].
        rewrite lookup_insert, He. by rewrite decide_True.
      * intros pat. rewrite elem_of_app, list_elem_of_singleton, Ho.
        destruct (decide (pattern e = pat)) as [<-|Hne]; [|naive_solver]. rewrite He. split; eauto.
Qed.

(** Each pattern has one effective entry, with the strongest of its
    permissions. *)
Lemma effective_entries_spec l e :
  e ∈ effective_entries l ↔ strongest l (pattern e) = Some (permission e).
Proof.
  pose proof (effective_fold l) as H. unfold effective_entries. destruct (foldl effective_step _ l) as [order m].
  cbn [fst snd] in H. destruct H as (_&Hm&Ho). rewrite list_elem_of_omap. split.
  - intros (pat&Hp&He). apply fmap_Some in He as (p&Hp'&->). cbn. by rewrite <-Hm.
  - intros Hs. exists (pattern e). split; [apply Ho; eauto|]. rewrite Hm, Hs. by destruct e.
Qed.

Lemma domain_entries_spec p s e :
  e ∈ default [] (domain_entries p s) ↔ strongest (default [] (domains s)) e = Some p.
Proof.
  unfold domain_entries. destruct (domains s) as [l|]; cbn [mbind option_bind default from_option id].
  - assert (∀ (k : list str), default [] (nonempty k) = k) as Hk by (by intros []). rewrite Hk. rewrite list_elem_of_fmap. split.
    + intros (x&->&Hx). apply list_elem_of_filter in Hx as [<- Hx]. by apply effective_entries_spec.
    + intros Hs. exists {| pattern := e; permission := p |}. split; [done|]. apply list_elem_of_filter. split; [done|].
      by apply effective_entries_spec.
  - rewrite elem_of_nil. by split.
Qed.

Lemma strongest_elem l pat p : strongest l pat = Some p → ∃ e, e ∈ l ∧ pattern e = pat.
Proof.
  induction l as [|e l IH] using rev_ind; [done|]. unfold strongest in *. rewrite foldl_app. cbn [foldl].
  destruct (decide (pattern e = pat)) as [Hp|]; [intros _; exists e; split; [set_solver|done]|].
  intros H. destruct (IH H) as (x&Hx&?). exists x. split; [apply elem_of_app; by left|done].
Qed.

Lemma strongest_last l pat p : (∀ e, e ∈ l → pattern e ≠ pat) →
  strongest (l ++ [{| pattern := pat; permission := p |}]) pat = Some p.
Proof.
  intros Hl. unfold strongest. rewrite foldl_app. cbn [foldl pattern permission]. rewrite decide_True by done.
  fold (strongest l pat). destruct (strongest l pat) as [q|] eqn:Hs; [|done].
  apply strongest_elem in Hs as (e&He&Hp). by apply Hl in He.
Qed.

(** Adding a host to a list puts it there, and takes every spelling of it out of
    the other list. *)
Lemma upsert_permission_spec host p normalize s :
  p ≠ PermNone → normalize host = host →
  let s' := upsert_domain_permission host p normalize s in
  host ∈ default [] (domain_entries p s')
  ∧ ∀ q e, e ∈ default [] (domain_entries q s') → normalize e = host → q = p ∧ e = host.
Proof.
  intros Hp Hn s'. set (kept := filter (λ e, normalize (pattern e) ≠ normalize host) (default [] (domains s))).
  assert (Hd : default [] (domains s') = kept ++ [{| pattern := host; permission := p |}]).
  { unfold s', upsert_domain_permission. cbn [domains with_domains]. fold kept. by destruct kept. }
  assert (Hkept : ∀ e, e ∈ kept → normalize (pattern e) ≠ host).
  { intros e [He _]%list_elem_of_filter. by rewrite Hn in He. }
  assert (Hhost : strongest (default [] (domains s')) host = Some p).
  { rewrite Hd. apply strongest_last. intros e He Heq. apply (Hkept e He). by rewrite Heq. }
  split; [by apply domain_entries_spec|]. intros q e He Hne. apply domain_entries_spec in He.
  assert (e = host) as ->.
  { pose proof (strongest_elem _ _ _ He) as (x&Hx&<-). rewrite Hd in Hx. apply elem_of_app in Hx as [Hx|Hx].
    - by apply Hkept in Hx.
    - by apply list_elem_of_singleton in Hx as ->. }
  rewrite Hhost in He. by injection He as ->.
Qed.

(** ** Where the proxy listens *)

(** The proxy is reachable from other machines only when that is explicitly
    allowed and no unix socket is; ports are kept. *)
Lemma proxy_listens_locally http socks cfg :
  let '(h, s) := clamp_bind_addrs http socks cfg in
  addr_port h = addr_port http ∧ addr_port s = addr_port socks
  ∧ (is_loopback (addr_ip h) = true ∧ is_loopback (addr_ip s) = true
     ∨ dangerously_allow_non_loopback_proxy cfg = true ∧ allow_unix_sockets cfg = []
       ∧ dangerously_allow_all_unix_sockets cfg = false).
Proof.
  unfold clamp_bind_addrs, clamp_non_loopback.
  destruct (bool_decide_reflect (allow_unix_sockets cfg = [])), (dangerously_allow_all_unix_sockets cfg),
    (dangerously_allow_non_loopback_proxy cfg), (is_loopback (addr_ip http)) eqn:?,
    (is_loopback (addr_ip socks)) eqn:?; simpl; split_and!; try done;
    solve [left; split; (done || assumption) | right; split_and!; done].
Qed.
