(* ===== verification/NetRuntimeFacts.v ===== *)
(** * The network proxy's live policy: theorems

    Which hosts are let through, that the limits of the managed configuration
    hold whatever the tasks do to the policy, and what is recorded of refused
    requests. *)
From S2P Require Import Prelude Str Io Paths Permissions NetAddr NetPolicy NetRuntime NetPolicyFacts.
Import NetAddr NetPolicy NetRuntime NetSources.

Section Runtime.
Context (glob_ok : str → bool) (globset_ok : list str → bool) (glob_match : str → str → bool).
Context (url_host_parse : str → option str).
Context {MitmState : Type} (mitm_new : bool → option MitmState).
Context (lookup_host : str → N → option (list IpAddr)).

Abbreviation state := (ConfigState MitmState BlockedRequest).
Abbreviation world := (@world MitmState).
Abbreviation proc := (@proc MitmState).
Abbreviation decide_host := (decide_host glob_match lookup_host).
Abbreviation host_blocked := (host_blocked glob_match lookup_host).

(** ** Hosts that are let through *)

(** The host is not on this network: a name that resolves, and only to public
    addresses, or an address or local name that is listed as it is. *)
Definition reaches_public (s : state) (host : str) (port : N) : Prop :=
  if local_literal host then is_explicit_local_allowlisted (allowed_of (config s)) host = true
  else match parse_ip host with
       | Some ip => is_non_public_ip ip = false
       | None => ∃ addrs, lookup_host host port = Some addrs ∧ Forall (λ ip, is_non_public_ip ip = false) addrs
       end.

Lemma resolves_public host port :
  host_resolves_to_non_public_ip lookup_host host port = false ↔
  match parse_ip host with
  | Some ip => is_non_public_ip ip = false
  | None => ∃ addrs, lookup_host host port = Some addrs ∧ Forall (λ ip, is_non_public_ip ip = false) addrs
  end.
Proof.
  unfold host_resolves_to_non_public_ip. destruct (parse_ip host); [done|].
  destruct (lookup_host host port) as [addrs|]; [|split; [done|by intros (?&?&_)]].
  rewrite <-not_true_iff_false, existsb_exists. split.
  - intros H. exists addrs. split; [done|]. apply Forall_forall. intros ip Hip. apply not_true_iff_false. intros Ht.
    apply H. exists ip. split; [by apply list_elem_of_In|done].
  - intros (?&[= <-]&Hall) (ip&Hip%list_elem_of_In&Ht). rewrite Forall_forall in Hall. by rewrite Hall in Ht.
Qed.

(** The host is not denied, and not local unless local hosts are allowed. *)
Definition passes (s : state) (host : str) (port : N) : Prop :=
  set_is_match glob_match (deny_set s) host = false
  ∧ (allow_local_binding (config s) = true ∨ reaches_public s host port).
Definition listed (s : state) (host : str) : Prop :=
  allowed_domains (config s) ≠ None ∧ set_is_match glob_match (allow_set s) host = true.

Lemma decide_host_cases s host port :
  passes s host port ∧ listed s host ∧ decide_host s host port = Allowed
  ∨ passes s host port ∧ ¬ listed s host ∧ decide_host s host port = Blocked NotAllowed
  ∨ ¬ passes s host port ∧ ∃ r, decide_host s host port = Blocked r
      ∧ r = if set_is_match glob_match (deny_set s) host then Denied else NotAllowedLocal.
Proof.
  unfold NetRuntime.decide_host, passes, listed, reaches_public. pose proof (resolves_public host port) as Hr. cbn zeta.
  fold (allowed_of (config s)).
  destruct (set_is_match glob_match (deny_set s) host); [right; right; split; [by intros []|eauto]|].
  set (b := bool_decide (allowed_domains (config s) = None) || negb (set_is_match glob_match (allow_set s) host)).
  assert (Hlist : allowed_domains (config s) ≠ None ∧ set_is_match glob_match (allow_set s) host = true ↔ b = false).
  { unfold b. rewrite orb_false_iff, bool_decide_eq_false, negb_false_iff. done. }
  rewrite Hlist. clearbody b. clear Hlist.
  destruct (allow_local_binding (config s)); cbn [negb].
  { destruct b; naive_solver. }
  destruct (local_literal host).
  - destruct (is_explicit_local_allowlisted (allowed_of (config s)) host); cbn [negb]; [destruct b; naive_solver|].
    right. right. split; [by intros (_&[|])|eauto].
  - destruct (host_resolves_to_non_public_ip lookup_host host port).
    + right. right. split; [|eauto]. intros (_&[|Hb]); [done|]. by apply Hr in Hb.
    + assert (Hb := proj1 Hr eq_refl). destruct b; naive_solver.
Qed.

(** ** Limits hold throughout *)

(** The policy is within its limits, and what was compiled is what it says. *)
Definition good (s : state) : Prop :=
  within_limits url_host_parse (config s) (constraints s)
  ∧ compile_denylist_globset glob_ok globset_ok (denied_of (config s)) = Ok (deny_set s)
  ∧ compile_allowlist_globset glob_ok globset_ok (allowed_of (config s)) = Ok (allow_set s).

Definition keeps (f : state → state) : Prop := ∀ s, good s → good (f s).
(** The other tasks keep the policy good, and so does the reloader. *)
Definition good_world (w : world) : Prop :=
  good (st w) ∧ Forall keeps (others w) ∧ Forall (λ r, ∀ s, r = Ok (Some s) → good s) (reloads w).

(** Code that keeps the world good, with what it returns. *)
Definition safe {A} (m : proc A) (Q : A → Prop) : Prop :=
  ∀ w w' r, good_world w → m w = (w', r) → good_world w' ∧ ∀ a, r = Ok a → Q a.

Lemma safe_ret {A} (a : A) (Q : A → Prop) : Q a → safe (mret a) Q.
Proof. intros HQ w w' r Hw [= <- <-]. split; [done|]. by intros ? [= <-]. Qed.
Lemma safe_bind {A B} (m : proc A) (f : A → proc B) Q R :
  safe m Q → (∀ a, Q a → safe (f a) R) → safe (m ≫= f) R.
Proof.
  intros Hm Hf w w' r Hw. unfold mbind, io_bind. destruct (m w) as [w1 [a|e|]] eqn:Hrun.
  - destruct (Hm _ _ _ Hw Hrun) as [Hw1 Ha]. intros Hrun'. exact (Hf a (Ha a eq_refl) _ _ _ Hw1 Hrun').
  - destruct (Hm _ _ _ Hw Hrun) as [Hw1 _]. by intros [= <- <-].
  - destruct (Hm _ _ _ Hw Hrun) as [Hw1 _]. by intros [= <- <-].
Qed.
Lemma safe_weaken {A} (m : proc A) (Q R : A → Prop) : safe m Q → (∀ a, Q a → R a) → safe m R.
Proof. intros Hm HQ w w' r Hw Hrun. destruct (Hm _ _ _ Hw Hrun). split; [done|]. eauto. Qed.
Lemma safe_pure {A} (r : result net_error A) : safe (pure_result r) (λ a, r = Ok a).
Proof. intros w w' r' Hw [= <- <-]. by split. Qed.
Lemma safe_fail {A} (r : result net_error A) Q : (∀ a, r ≠ Ok a) → safe (λ w, (w, r)) Q.
Proof. intros Hr w w' r' Hw [= <- <-]. split; [done|]. intros a Ha. by apply Hr in Ha. Qed.

Lemma safe_lock {A} (f : state → state * A) (Q : A → Prop) :
  (∀ s, good s → good (f s).1 ∧ Q (f s).2) → safe (with_lock f) Q.
Proof.
  intros Hf w w' r (Hst&Ho&Hr). unfold with_lock.
  set (s := match others w with [] => st w | e :: _ => e (st w) end).
  assert (Hs : good s) by (unfold s; destruct Ho as [|e l He]; [done|by apply He]).
  destruct (Hf s Hs) as [Hgood HQ]. destruct (f s) as [s' a]. intros [= <- <-]. split; [|by intros ? [= <-]].
  split_and!; [done| |done]. simpl. by destruct Ho.
Qed.
Lemma safe_read {A} (f : state → A) (Q : A → Prop) : (∀ s, good s → Q (f s)) → safe (read_lock f) Q.
Proof. intros Hf. apply safe_lock. by split; [|apply Hf]. Qed.

Lemma good_blocked b n s : good s → good (with_blocked b n s).
Proof. done. Qed.

Lemma safe_reload : safe reload_if_needed (λ _, True).
Proof.
  unfold reload_if_needed. apply (safe_bind _ _ (λ o, ∀ s, o = Some s → good s)).
  - intros w w' r (Hst&Ho&Hr) [= <- <-]. split.
    + split_and!; [done|done|]. simpl. by destruct Hr.
    + intros a Ha s ->. destruct Hr as [|r l Hr _]; [done|]. by apply Hr.
  - intros [new|] Hnew; [|by apply safe_ret]. apply (safe_bind _ _ (λ _, True)); [by apply safe_read|].
    intros [b n] _. apply safe_lock. intros s _. split; [by apply good_blocked, Hnew|done].
Qed.

(** Storing a mode that is within the limits. *)
Lemma with_mode_good m candidate (s : state) :
  within_limits url_host_parse (with_mode m candidate) (constraints s) → good s → good (with_config (with_mode m (config s)) s).
Proof.
  intros Hok (Hlim&Hcomp). split; [|exact Hcomp]. destruct Hlim as [H0 H1 H2 H3 H4 H5 H6 H7 H8 H9].
  change (within_limits url_host_parse (with_mode m (config s)) (constraints s)).
  refine (Build_within_limits _ (with_mode m (config s)) _ H0 H1 _ H3 H4 H5 H6 H7 H8 H9). intros m' Hm'. simpl.
  exact (mode_within _ _ _ Hok m' Hm').
Qed.

Lemma safe_set_network_mode fuel m : safe (set_network_mode url_host_parse fuel m) (λ _, True).
Proof.
  induction fuel as [|fuel IH]; [by apply safe_fail|]. cbn [set_network_mode].
  apply (safe_bind _ _ _ _ safe_reload). intros _ _.
  apply (safe_bind _ _ (λ p, ∃ c, p.1 = with_mode m c)); [apply safe_read; eauto|]. intros [candidate limits] Hmode. cbn in Hmode.
  apply (safe_bind _ _ _ _ (safe_pure _)). intros [] Hval.
  assert (Hok : within_limits url_host_parse candidate limits).
  { apply validate_Ok. destruct (validate_policy_against_constraints _ _ _) as [[]| |]; done. }
  apply (safe_bind _ _ (λ _, True)); [|by intros [] _; [apply safe_ret|]].
  apply safe_lock. intros s Hs. destruct (decide _) as [<-|]; [|done]. split; [|done].
  destruct Hmode as [c ->]. by apply (with_mode_good m c).
Qed.

Lemma build_good candidate limits (new : state) :
  within_limits url_host_parse candidate limits →
  build_config_state glob_ok globset_ok mitm_new candidate limits = Ok new → good new.
Proof.
  intros Hlim. unfold build_config_state. cbn zeta. fold (allowed_of candidate) (denied_of candidate).
  intros (?&_&(?&_&(deny&Hdeny&(allow&Hallow&(m&_&[= <-])%result_bind_Ok)%result_bind_Ok)%result_bind_Ok)%result_bind_Ok)%result_bind_Ok.
  by split_and!.
Qed.

Lemma safe_update_loop fuel host target :
  safe (update_loop glob_ok globset_ok url_host_parse mitm_new fuel host target) (λ _, True).
Proof.
  induction fuel as [|fuel IH]; [by apply safe_fail|]. cbn [update_loop].
  apply (safe_bind _ _ _ _ safe_reload). intros _ _.
  apply (safe_bind _ _ (λ _, True)); [by apply safe_read|]. intros prev _.
  destruct (already_listed _ _ _); [by apply safe_ret|]. set (candidate := upsert_domain_permission _ _ _ _).
  apply (safe_bind _ _ _ _ (safe_pure _)). intros [] Hval.
  assert (Hok : within_limits url_host_parse candidate (constraints prev)).
  { apply validate_Ok. destruct (validate_policy_against_constraints _ _ _) as [[]| |]; done. }
  apply (safe_bind _ _ _ _ (safe_pure _)). intros new Hnew.
  apply (safe_bind _ _ (λ _, True)); [|by intros [] _; [apply safe_ret|]].
  apply safe_lock. intros s Hs. destruct (decide _); [|done]. split; [|done]. apply good_blocked.
  by apply (build_good candidate (constraints prev)).
Qed.

(** ** Policies from specifications and from layers *)

Abbreviation validate := (validate_policy_against_constraints url_host_parse).
Abbreviation make_spec := (make_spec url_host_parse).
Abbreviation build_spec := (build_config_state_for_spec glob_ok globset_ok mitm_new).
Abbreviation load := (build_config_state_with_mtimes glob_ok globset_ok url_host_parse mitm_new).
Abbreviation maybe_reload := (maybe_reload glob_ok globset_ok url_host_parse mitm_new).
Abbreviation reload_now := (reload_now glob_ok globset_ok url_host_parse mitm_new).
Abbreviation reloader := (@ConfigReloader MitmState).

Lemma validated c limits : map_err Constraint (validate c limits) = Ok () → within_limits url_host_parse c limits.
Proof. intros H. apply validate_Ok. by destruct (validate c limits) as [[]| |]. Qed.

(** Every specification was checked against its limits. *)
Lemma make_spec_valid source spec :
  make_spec source = Ok spec → within_limits url_host_parse (spec_config spec) (spec_constraints spec).
Proof.
  assert (Hfrom : ∀ c r p spec, from_config_and_constraints url_host_parse c r p = Ok spec →
    within_limits url_host_parse (spec_config spec) (spec_constraints spec)).
  { intros c r p spec'. unfold from_config_and_constraints. cbn zeta. destruct (match r with Some _ => _ | None => _ end) as [effective limits].
    intros ([]&Hv&[= <-])%result_bind_Ok. by apply validated. }
  revert spec. induction source as [c r p|source IH p|source IH rules]; intros spec; cbn [NetSources.make_spec].
  - apply Hfrom.
  - intros (base&_&H)%result_bind_Ok. by eapply Hfrom.
  - intros (base&_&H)%result_bind_Ok. unfold with_exec_policy_network_rules in H. cbn zeta in H.
    apply result_bind_Ok in H as ([]&Hv&[= <-]). by apply validated.
Qed.
Lemma build_spec_good source spec (new : state) : make_spec source = Ok spec → build_spec spec = Ok new → good new.
Proof. intros Hspec. apply build_good. by eapply make_spec_valid. Qed.
Lemma load_good disk (new : state) layer_mtimes : load disk = Ok (new, layer_mtimes) → good new.
Proof.
  unfold build_config_state_with_mtimes.
  intros (layers&_&(rules&_&(c&_&(limits&Hlimits&(new'&Hnew&[= <- _])%result_bind_Ok)%result_bind_Ok)%result_bind_Ok)%result_bind_Ok)%result_bind_Ok.
  unfold enforce_trusted_constraints in Hlimits. apply result_bind_Ok in Hlimits as (limits'&_&([]&Hv&[= <-])%result_bind_Ok).
  apply (build_good c limits'); [by apply validated|done].
Qed.

(** A policy and its reloader, as a proxy starts with them. *)
Inductive started : state → reloader → Prop :=
| started_from_spec source s r : start_from_spec glob_ok globset_ok url_host_parse mitm_new source = Ok (s, r) → started s r
| started_from_layers disk s r : start_from_layers glob_ok globset_ok url_host_parse mitm_new disk = Ok (s, r) → started s r.
(** The reloader after it was asked any number of times. *)
Inductive reloads_to (r : reloader) : reloader → Prop :=
| reloads_none : reloads_to r r
| reloads_again r' disk : reloads_to r r' → reloads_to r (maybe_reload r' disk).1
| reloads_now r' disk : reloads_to r r' → reloads_to r (reload_now r' disk).1.

(** What a reloader answers is good. *)
Definition good_reloader (r : reloader) : Prop := match r with StaticNetworkProxyReloader s => good s | MtimeConfigReloader _ => True end.
Lemma started_good s r : started s r → good s ∧ good_reloader r.
Proof.
  destruct 1 as [source s r H|disk s r H].
  - unfold start_from_spec in H. apply result_bind_Ok in H as (spec&Hspec&(s'&Hs&[= <- <-])%result_bind_Ok).
    assert (good s') by by eapply build_spec_good. done.
  - unfold start_from_layers in H. apply result_bind_Ok in H as ([s' m]&Hload&[= <- <-]). split; [by eapply load_good|done].
Qed.
Lemma maybe_reload_good r disk :
  good_reloader r → good_reloader (maybe_reload r disk).1 ∧ ∀ new, (maybe_reload r disk).2 = Ok (Some new) → good new.
Proof.
  intros Hr. destruct r as [s|m]; cbn [NetSources.maybe_reload]; [done|]. destruct (negb _); [done|].
  destruct (load disk) as [[new m']|e|] eqn:Hload; [|done..]. split; [done|]. intros ? [= <-]. by eapply load_good.
Qed.
Lemma reload_now_good r disk :
  good_reloader r → good_reloader (reload_now r disk).1 ∧ ∀ new, (reload_now r disk).2 = Ok new → good new.
Proof.
  intros Hr. destruct r as [s|m]; cbn [NetSources.reload_now]; [split; [done|]; by intros ? [= <-]|].
  destruct (load disk) as [[new m']|e|] eqn:Hload; [|done..]. split; [done|]. intros ? [= <-]. by eapply load_good.
Qed.
Lemma reloads_to_good r r' : good_reloader r → reloads_to r r' → good_reloader r'.
Proof. intros Hr. induction 1; [done| |]; [by apply maybe_reload_good|by apply reload_now_good]. Qed.

(** ** What other tasks do

    A turn of another task at the lock: one of the sections that the operations hold
    it for, with what the task had read and computed before. *)
Inductive lock_turn (r : reloader) : (state → state) → Prop :=
| turn_read : lock_turn r id
| turn_then f g : lock_turn r f → lock_turn r g → lock_turn r (g ∘ f)
| turn_record entry : lock_turn r (push_blocked entry)
| turn_drain : lock_turn r (λ s, with_blocked [] (blocked_total s) s)
| turn_reload r' disk new b total :
    reloads_to r r' → (maybe_reload r' disk).2 = Ok (Some new) → lock_turn r (λ _, with_blocked b total new)
| turn_force_reload r' disk new :
    reloads_to r r' → (reload_now r' disk).2 = Ok new → lock_turn r (λ s, with_blocked (blocked s) (blocked_total new) new)
| turn_replace source spec new :
    make_spec source = Ok spec → build_spec spec = Ok new → lock_turn r (λ s, with_blocked (blocked s) (blocked_total s) new)
| turn_set_mode m (read : state) limits :
    validate (with_mode m (config read)) limits = Ok () →
    lock_turn r (λ s, if decide (constraints s = limits) then with_config (with_mode m (config s)) s else s)
| turn_update (prev : state) candidate (new : state) :
    validate candidate (constraints prev) = Ok () →
    build_config_state glob_ok globset_ok mitm_new candidate (constraints prev) = Ok new →
    lock_turn r (λ s, if decide (constraints s = constraints prev ∧ config s = config prev)
                      then with_blocked (blocked prev) (blocked_total prev) new else s).

Lemma lock_turn_keeps r f : good_reloader r → lock_turn r f → keeps f.
Proof.
  intros Hr. induction 1 as [|f g _ IHf _ IHg|entry| |r' disk new b total Hto Hnew|r' disk new Hto Hnew|source spec new Hspec Hnew
    |m read limits Hv|prev candidate new Hv Hnew]; intros s Hs.
  - done.
  - by apply IHg, IHf.
  - done.
  - done.
  - apply good_blocked. by eapply (maybe_reload_good r' disk), Hnew; eapply reloads_to_good.
  - apply good_blocked. by eapply (reload_now_good r' disk), Hnew; eapply reloads_to_good.
  - apply good_blocked. by eapply build_spec_good.
  - destruct (decide _) as [<-|]; [|done]. apply (with_mode_good m (config read)); [by apply validate_Ok|done].
  - destruct (decide _); [|done]. apply good_blocked, (build_good candidate (constraints prev)); [by apply validate_Ok|done].
Qed.

(** The world of a proxy: its policy as it was started, other tasks that use the
    same operations, and the answers of its reloader. *)
Definition proxy_world (r : reloader) (w : world) : Prop :=
  started (st w) r ∧ Forall (lock_turn r) (others w)
  ∧ Forall (λ answer, ∃ r' disk, reloads_to r r' ∧ answer = (maybe_reload r' disk).2) (reloads w).
Lemma proxy_world_good r w : proxy_world r w → good_reloader r ∧ good_world w.
Proof.
  intros ([Hst Hr]%started_good&Ho&Ha). split; [done|]. split_and!; [done| |].
  - eapply Forall_impl; [exact Ho|]. intros f. by apply lock_turn_keeps.
  - eapply Forall_impl; [exact Ha|]. intros answer (r'&disk&Hto&->) s. by apply maybe_reload_good, (reloads_to_good r).
Qed.

(** ** Operations one after the other *)

Inductive operation : Type :=
| SetMode (fuel : nat) (m : NetworkMode)
| AddAllowed (fuel : nat) (host : str)
| AddDenied (fuel : nat) (host : str)
| ForceReload (disk : Disk)
| ApplySpec (source : SpecSource)
| Record (entry : BlockedRequest)
| Drain
| Check (host : str) (port : N).

Definition ignore {A} (m : proc A) : proc unit := _ ← m; mret ().
Definition run_op (r : reloader) (o : operation) : proc unit :=
  match o with
  | SetMode fuel m => set_network_mode url_host_parse fuel m
  | AddAllowed fuel host => add_allowed_domain glob_ok globset_ok url_host_parse mitm_new fuel host
  | AddDenied fuel host => add_denied_domain glob_ok globset_ok url_host_parse mitm_new fuel host
  | ForceReload disk => force_reload (reload_now r disk).2
  | ApplySpec source =>
      spec ← pure_result (make_spec source); ignore (apply_to_started_proxy glob_ok globset_ok mitm_new spec)
  | Record entry => record_blocked entry
  | Drain => ignore drain_blocked
  | Check host port => ignore (host_blocked host port)
  end.
Definition run_all (r : reloader) (ops : list operation) (w : world) : world := foldl (λ w o, (run_op r o w).1) w ops.

Lemma safe_ignore {A} (m : proc A) Q : safe m Q → safe (ignore m) (λ _, True).
Proof. intros Hm. apply (safe_bind _ _ _ _ Hm). intros _ _. by apply safe_ret. Qed.
Lemma safe_replace new : good new → safe (replace_config_state new) (λ _, True).
Proof. intros Hnew. apply (safe_bind _ _ _ _ safe_reload). intros _ _. apply safe_lock. intros s _. by split. Qed.
Lemma safe_apply source spec :
  make_spec source = Ok spec → safe (apply_to_started_proxy glob_ok globset_ok mitm_new spec) (λ _, True).
Proof.
  intros Hspec. apply (safe_bind _ _ _ _ (safe_pure _)). intros new Hnew.
  apply (safe_bind _ _ (λ _, True)).
  { apply (safe_bind _ _ _ _ safe_reload). intros _ _. by apply safe_read. }
  intros current _. destruct (fixed_setting _ _); [by apply safe_fail|].
  apply (safe_bind _ _ (λ _, True)); [apply safe_replace; by eapply build_spec_good|]. intros _ _. by apply safe_ret.
Qed.

Lemma safe_op r o : good_reloader r → safe (run_op r o) (λ _, True).
Proof.
  intros Hgood. destruct o as [fuel m|fuel host|fuel host|disk|source|entry| |host port]; cbn [run_op].
  - apply safe_set_network_mode.
  - unfold add_allowed_domain, update_domain_list. destruct (host_parse host); [apply safe_update_loop|by apply safe_fail].
  - unfold add_denied_domain, update_domain_list. destruct (host_parse host); [apply safe_update_loop|by apply safe_fail].
  - pose proof (proj2 (reload_now_good r disk Hgood)) as Hnew. unfold force_reload.
    apply (safe_bind _ _ (λ _, True)); [by apply safe_read|]. intros _ _.
    destruct (reload_now r disk).2 as [new|e|]; [|by apply safe_fail..]. apply safe_lock. intros s _.
    split; [by apply good_blocked, Hnew|done].
  - apply (safe_bind _ _ _ _ (safe_pure _)). intros spec Hspec. apply (safe_ignore _ (λ _, True)). by eapply safe_apply.
  - apply (safe_bind _ _ _ _ safe_reload). intros _ _. apply safe_lock. intros s Hs. by split.
  - apply (safe_ignore _ (λ _, True)), (safe_bind _ _ _ _ safe_reload). intros _ _. apply safe_lock. intros s Hs.
    split; [exact (good_blocked [] (blocked_total s) s Hs)|exact I].
  - apply (safe_ignore _ (λ _, True)), (safe_bind _ _ _ _ safe_reload). intros _ _. destruct (host_parse host); [|by apply safe_ret].
    apply (safe_bind _ _ (λ _, True)); [by apply safe_read|]. intros s _. by apply (safe_ret _ (λ _, True)).
Qed.

Lemma run_all_good r ops w : good_reloader r → good_world w → good_world (run_all r ops w).
Proof.
  intros Hr. revert w. induction ops as [|o ops IH]; intros w Hw; [done|]. apply IH.
  destruct (run_op r o w) as [w' res] eqn:Hrun. by destruct (safe_op r o Hr w w' res Hw Hrun).
Qed.

(** ** Requests *)

(** The state a request is checked against is the one it leaves. *)
Lemma host_blocked_reads host port (w w' : world) d :
  host_blocked host port w = (w', Ok d) →
  d = match host_parse host with Some h => decide_host (st w') h port | None => Blocked NotAllowed end.
Proof.
  unfold NetRuntime.host_blocked. intros (w1&[]&_&H)%io_bind_Ok. destruct (host_parse host) as [h|]; [|by injection H].
  apply io_bind_Ok in H as (w2&s&Hread&H). injection H as <- <-. unfold read_lock, with_lock in Hread. simpl in Hread.
  by injection Hread as <- <-.
Qed.

Lemma safe_host_blocked host port : safe (host_blocked host port) (λ _, True).
Proof.
  apply (safe_bind _ _ _ _ safe_reload). intros _ _. destruct (host_parse host); [|by apply safe_ret].
  apply (safe_bind _ _ (λ _, True)); [by apply safe_read|]. intros s _. by apply (safe_ret _ (λ _, True)).
Qed.

Abbreviation evaluate := (evaluate_host_policy glob_match lookup_host).

Lemma evaluate_inv decider req (w w' : world) d ev :
  evaluate decider req w = (w', Ok (d, ev)) →
  ∃ h, host_blocked (req_host req) (req_port req) w = (w', Ok h) ∧
    d = match h with
        | Allowed => Allow
        | Blocked NotAllowed =>
            match decider with
            | Some f => map_decider_decision (f req)
            | None => deny_with_source (reason_str NotAllowed) BaselinePolicy
            end
        | Blocked r => deny_with_source (reason_str r) BaselinePolicy
        end ∧
    policy_override ev = match h, d with Blocked _, Allow => true | _, _ => false end.
Proof.
  unfold evaluate_host_policy. intros (w1&h&Hh&H)%io_bind_Ok. exists h.
  destruct h as [|[]]; [| |destruct decider as [f|]; [destruct (f req)|]|]; injection H as <- <- <-; by split_and!.
Qed.

Lemma denial_enforced decider req (w w' : world) d ev h l p g :
  good_world w → evaluate decider req w = (w', Ok (d, ev)) →
  host_parse (req_host req) = Some h → managed_denied_domains (constraints (st w')) = Some l →
  p ∈ l → g ∈ candidates p → glob_match g h = true →
  d = DenyRequest (lit "denied") BaselinePolicy Deny.
Proof.
  intros Hw Heval Hh Hl Hp Hg Hmatch. apply evaluate_inv in Heval as (hd&Hblocked&->&_).
  pose proof (host_blocked_reads _ _ _ _ _ Hblocked) as ->. rewrite Hh.
  destruct (safe_host_blocked _ _ _ _ _ Hw Hblocked) as [(Hgood&_&_) _]. destruct Hgood as (Hlim&Hdeny&_).
  destruct (denied_within_elem _ _ _ _ (denied_domains_within _ _ _ Hlim l Hl) Hp) as (q&Hq&Hcand).
  assert (Hin : g ∈ deny_set (st w')).
  { apply (compile_globset_Ok _ _ _ _ _ Hdeny). exists q. by rewrite Hcand. }
  assert (Hset : set_is_match glob_match (deny_set (st w')) h = true).
  { apply existsb_exists. exists g. split; [by apply list_elem_of_In|done]. }
  destruct (decide_host_cases (st w') h (req_port req)) as [([Hno _]&_)|[([Hno _]&_)|(_&r&->&->)]];
    [congruence..|]. by rewrite Hset.
Qed.

Lemma allowed_request decider req (w w' : world) ev :
  evaluate decider req w = (w', Ok (Allow, ev)) →
  let overridden := policy_override ev = true ∧ ∃ f, decider = Some f ∧ f req = Allow in
  match host_parse (req_host req) with
  | Some h => passes (st w') h (req_port req) ∧ (listed (st w') h ∧ policy_override ev = false
                                                  ∨ ¬ listed (st w') h ∧ overridden)
  | None => overridden
  end.
Proof.
  intros (hd&Hblocked&Hd&Hev)%evaluate_inv. pose proof (host_blocked_reads _ _ _ _ _ Hblocked) as Hread. cbn zeta.
  assert (Hover : hd = Blocked NotAllowed → policy_override ev = true ∧ ∃ f, decider = Some f ∧ f req = Allow).
  { intros ->. split; [done|]. destruct decider as [f|]; [|done]. exists f. split; [done|]. by destruct (f req). }
  destruct (host_parse (req_host req)) as [h|]; [|by apply Hover].
  destruct (decide_host_cases (st w') h (req_port req)) as [(Hp&Hl&He)|[(Hp&Hl&He)|(_&r&He&Hr)]]; rewrite He in Hread; subst hd.
  - split; [done|]. left. by split.
  - split; [done|]. right. split; [done|]. by apply Hover.
  - destruct r; try done. by destruct (set_is_match glob_match (deny_set (st w')) h).
Qed.

(** ** Changing a list *)

Abbreviation update := (update_loop glob_ok globset_ok url_host_parse mitm_new).
Abbreviation build := (build_config_state glob_ok globset_ok mitm_new).

Lemma read_lock_st {A} (f : state → A) (w w' : world) r : read_lock f w = (w', r) → r = Ok (f (st w')).
Proof. unfold read_lock, with_lock. simpl. by intros [= <- <-]. Qed.

Lemma build_config candidate limits (new : state) : build candidate limits = Ok new → config new = candidate.
Proof.
  unfold build_config_state. cbn zeta.
  by intros (?&_&(?&_&(?&_&(?&_&(m&_&[= <-])%result_bind_Ok)%result_bind_Ok)%result_bind_Ok)%result_bind_Ok)%result_bind_Ok.
Qed.

Lemma upserted host target s :
  normalize_host host = host →
  already_listed target host (upsert_domain_permission host (list_permission target) normalize_host s) = true.
Proof.
  intros Hn. assert (list_permission target ≠ PermNone) as Hp by by destruct target.
  destruct (upsert_permission_spec host _ normalize_host s Hp Hn) as [Hin Hout]. set (s' := upsert_domain_permission _ _ _ _) in *.
  unfold already_listed. apply andb_true_iff. split.
  - apply existsb_exists. exists host. rewrite bool_decide_eq_true. split; [|done]. apply list_elem_of_In. by destruct target.
  - apply negb_true_iff, not_true_iff_false. intros (e&He%list_elem_of_In&Heq%bool_decide_eq_true)%existsb_exists.
    destruct target; [destruct (Hout PermDeny e He Heq)|destruct (Hout PermAllow e He Heq)]; done.
Qed.

(** An update that succeeds leaves the host in its list and out of the other. *)
Lemma update_listed fuel host target (w w' : world) :
  normalize_host host = host → update fuel host target w = (w', Ok ()) → already_listed target host (config (st w')) = true.
Proof.
  intros Hn. revert w. induction fuel as [|fuel IH]; intros w; [done|]. cbn [update_loop].
  intros (w1&[]&_&(w2&prev&Hread&H)%io_bind_Ok)%io_bind_Ok. apply read_lock_st in Hread. injection Hread as ->.
  destruct (already_listed target host (config (st w2))) eqn:Hl; [by injection H as <-|].
  apply io_bind_Ok in H as (w3&[]&[= <- _]&(w4&new&[= <- Hnew]&(w5&b&Hstore&H)%io_bind_Ok)%io_bind_Ok).
  destruct b; [|by apply (IH w5)]. injection H as <-. unfold with_lock in Hstore.
  destruct (match others w2 with [] => _ | _ => _ end) as [c1 c2 c3 c4 c5 c6 c7]. destruct (decide _); [|by injection Hstore].
  injection Hstore as <-. cbn [st config with_blocked]. rewrite (build_config _ _ _ Hnew). by apply upserted.
Qed.

Lemma star_kept e : head (trim e) = Some STAR → STAR ∈ normalize_host e.
Proof.
  intros Hh. unfold normalize_host. destruct (trim e) as [|c t]; [done|]. injection Hh as ->.
  assert (Hdns : ∀ l, STAR ∈ normalize_dns_host (STAR :: l)).
  { intros l. unfold normalize_dns_host. rewrite lower_cons.
    assert (∀ k, ∃ k', trim_end_matches is_dot (STAR :: k) = STAR :: k') as Ht.
    { intros k. unfold trim_end_matches. rewrite reverse_cons.
      induction (reverse k) as [|d r IH]; [by exists []|]. simpl. destruct (is_dot d); [done|].
      exists (reverse (d :: r)). change (d :: r ++ [STAR]) with ((d :: r) ++ [STAR]). by rewrite reverse_snoc. }
    change (char_to_ascii_lowercase STAR) with STAR. destruct (Ht (to_ascii_lowercase l)) as [k' ->]. by left. }
  change (starts_with (STAR :: t) [LBRACKET]) with false. cbn iota. destruct (_ =? 1); [|apply Hdns].
  cbn [split_on]. change (STAR =? COLON)%N with false. cbn iota.
  destruct (split_on_cons COLON t) as (p&ps&->). apply Hdns.
Qed.

(** A host without wildcards stands for itself, however it is spelled. *)
Lemma candidates_plain e h :
  normalize_host e = h → trim h = h → STAR ∉ h → h ≠ [] → candidates e = [h].
Proof.
  intros He Ht Hs Hne. unfold candidates.
  assert (Hstrip : ∀ s p, head s ≠ Some STAR → strip_prefix (STAR :: p) s = None).
  { intros [|c s] p Hh; [done|]. cbn [strip_prefix]. destruct (N.eqb_spec STAR c) as [<-|]; done. }
  assert (Hhead : head (trim e) ≠ Some STAR) by (intros Hh%star_kept; by rewrite He in Hh).
  assert (Hpat : normalize_pattern e = h).
  { unfold normalize_pattern. rewrite bool_decide_false by (intros Heq; by rewrite Heq in Hhead).
    change (lit "**.") with (STAR :: lit "*."). rewrite (Hstrip (trim e)) by done.
    change (lit "*.") with (STAR :: lit "."). rewrite (Hstrip (trim e)) by done. cbn iota.
    rewrite bool_decide_true by done. unfold normalize_host in He |- *.
    assert (trim (trim e) = trim e) as ->; [|exact He].
    unfold trim at 2. rewrite trim_trim_end. unfold trim, trim_start. by rewrite trim_start_matches_idemp. }
  rewrite Hpat. unfold expand_domain_pattern, pattern_parse. rewrite Ht. rewrite bool_decide_false by done.
  assert (head h ≠ Some STAR) as Hh by (intros Hh; apply Hs; destruct h; [done|]; injection Hh as ->; by left).
  change (lit "**.") with (STAR :: lit "*."). rewrite (Hstrip h) by done.
  change (lit "*.") with (STAR :: lit "."). by rewrite (Hstrip h) by done.
Qed.

Lemma listed_candidate s h e :
  good s → normalize_host e = h → trim h = h → STAR ∉ h → h ≠ [] → glob_match h h = true →
  (e ∈ denied_of (config s) → set_is_match glob_match (deny_set s) h = true)
  ∧ (e ∈ allowed_of (config s) → listed s h).
Proof.
  intros (_&Hdeny&Hallow) He Ht Hs Hne Hm.
  assert (Hc : h ∈ candidates e) by (rewrite (candidates_plain e h) by done; by left).
  assert (∀ set, h ∈ set → set_is_match glob_match set h = true) as Hset.
  { intros set Hin. apply existsb_exists. exists h. split; [by apply list_elem_of_In|done]. }
  split; intros Hin.
  - apply Hset, (compile_globset_Ok _ _ _ _ _ Hdeny). eauto.
  - split.
    + intros Hnone. unfold allowed_of in Hin. rewrite Hnone in Hin. by apply elem_of_nil in Hin.
    + apply Hset, (compile_globset_Ok _ _ _ _ _ Hallow). eauto.
Qed.

Lemma update_takes_effect fuel target input h (w w' : world) :
  good_world w → update_domain_list glob_ok globset_ok url_host_parse mitm_new fuel input target w = (w', Ok ()) →
  host_parse input = Some h → normalize_host h = h → trim h = h → STAR ∉ h → glob_match h h = true →
  match target with
  | ListDeny => ∀ port, decide_host (st w') h port = Blocked Denied
  | ListAllow => listed (st w') h
  end.
Proof.
  intros Hw Hrun Hh Hn Ht Hs Hm. unfold update_domain_list in Hrun. rewrite Hh in Hrun.
  destruct (safe_update_loop fuel h target _ _ _ Hw Hrun) as [(Hgood&_&_) _].
  pose proof (update_listed _ _ _ _ _ Hn Hrun) as Hl. unfold already_listed in Hl.
  apply andb_true_iff in Hl as [(e&He%list_elem_of_In&Hne%bool_decide_eq_true)%existsb_exists _].
  assert (h ≠ []) as Hne' by (intros ->; unfold host_parse in Hh; by case_bool_decide; simplify_eq).
  destruct (listed_candidate (st w') h e Hgood Hne Ht Hs Hne' Hm) as [Hd Ha].
  destruct target; [by apply Ha|]. intros port. specialize (Hd He).
  destruct (decide_host_cases (st w') h port) as [([Hno _]&_)|[([Hno _]&_)|(_&r&->&->)]]; [congruence..|]. by rewrite Hd.
Qed.

(** *** Updates end *)

Lemma add_candidates_no_crash l b : add_candidates glob_ok l b ≠ Crash.
Proof. revert b. induction l as [|c l IH]; intros b; simpl; [done|]. repeat case_match; done || apply IH. Qed.
Lemma compile_no_crash reject l : compile_globset_with_policy glob_ok globset_ok l reject ≠ Crash.
Proof.
  unfold compile_globset_with_policy. assert (∀ l b, compile_patterns glob_ok reject l b ≠ Crash) as Hp.
  { clear l. intros l. induction l as [|p l IH]; intros b; simpl; [done|]. case_match; [done|].
    rewrite result_bind_Crash. intros [Hx|(b'&_&Hx)]; [by apply add_candidates_no_crash in Hx|by apply IH in Hx]. }
  rewrite result_bind_Crash. intros [H|(set&_&H)]; [by apply Hp in H|by case_match].
Qed.
Lemma validate_paths_no_crash i l : validate_socket_paths i l ≠ Crash.
Proof. revert i. induction l as [|p l IH]; intros i; simpl; [done|]. by case_match. Qed.
Lemma build_no_crash candidate limits : build candidate limits ≠ Crash (A:=state).
Proof.
  unfold build_config_state. cbn zeta. rewrite !result_bind_Crash. intros [H|(?&_&[H|(?&_&H)]%result_bind_Crash)].
  - by apply validate_paths_no_crash in H.
  - unfold validate_non_global_wildcard_domain_patterns in H. by case_match.
  - apply result_bind_Crash in H as [H|(?&_&H)]; [by apply compile_no_crash in H|].
    apply result_bind_Crash in H as [H|(?&_&H)]; [by apply compile_no_crash in H|].
    apply result_bind_Crash in H as [H|(?&_&H)]; [|done]. destruct (mitm candidate); [|done].
    by destruct (mitm_new (allow_upstream_proxy candidate)).
Qed.

(** The reloader answers. *)
Definition answers (w : world) : Prop := Forall (λ r, r ≠ Crash) (reloads w).
(** Code that returns, having taken [n] turns at least from the other tasks. *)
Lemma reload_returns (w w' : world) r :
  answers w → reload_if_needed w = (w', r) → r ≠ Crash ∧ answers w' ∧ length (others w') ≤ length (others w).
Proof.
  unfold answers, reload_if_needed. intros Hw. unfold mbind at 1, io_bind at 1, NetRuntime.maybe_reload at 1. cbn beta iota.
  set (w1 := Build_world (st w) (others w) (tail (reloads w))).
  assert (Hw1 : answers w1) by (unfold answers; simpl; by destruct Hw).
  assert (match reloads w with [] => Ok None | r :: _ => r end ≠ Crash) as Hr by (by destruct Hw).
  destruct (match reloads w with [] => Ok None | r :: _ => r end) as [[new|]|e|]; [| | |done].
  - intros [= <- <-]. split_and!; [done|done|]. simpl. destruct (others w) as [|? [|??]]; simpl; lia.
  - by intros [= <- <-].
  - by intros [= <- <-].
Qed.

Lemma update_returns fuel host target (w : world) :
  answers w → length (others w) < fuel → (update fuel host target w).2 ≠ Crash.
Proof.
  revert w. induction fuel as [|fuel IH]; intros w Hw Hlen; [lia|]. cbn [update_loop].
  unfold mbind at 1, io_bind at 1. destruct (reload_if_needed w) as [w1 r1] eqn:H1.
  destruct (reload_returns _ _ _ Hw H1) as (Hr1&Hw1&Hl1). destruct r1 as [[]|e|]; [|done..].
  unfold mbind at 1, io_bind at 1. destruct (read_lock id w1) as [w2 r2] eqn:H2.
  pose proof (read_lock_st _ _ _ _ H2) as ->. cbn beta iota.
  assert (Hw2 : reloads w2 = reloads w1 ∧ others w2 = tail (others w1)) by (by injection H2 as <-).
  destruct Hw2 as [Hre Hot]. destruct (already_listed _ _ _); [done|].
  unfold mbind at 1, io_bind at 1, pure_result at 1. cbn [id].
  pose proof (validate_no_crash url_host_parse
    (upsert_domain_permission host (list_permission target) normalize_host (config (st w2))) (constraints (st w2))) as Hv.
  destruct (validate_policy_against_constraints _ _ _) as [[]|e|]; [|done..]. cbn [map_err].
  unfold mbind at 1, io_bind at 1, pure_result at 1.
  match goal with |- context [build ?c ?l] => pose proof (build_no_crash c l) as Hb; destruct (build c l) as [new|e|] end;
    [|done..].
  unfold mbind at 1, io_bind at 1, with_lock at 1. destruct (others w2) as [|e l] eqn:Ho.
  - rewrite decide_True by done. done.
  - destruct (decide _); [done|]. cbn beta iota. apply IH.
    + unfold answers. simpl. by rewrite Hre.
    + simpl. assert (length (e :: l) ≤ length (others w1)) as Hle by (rewrite Hot; destruct (others w1); simpl; lia).
      simpl in Hle. lia.
Qed.

(** ** Blocked requests *)

Lemma pop_front_spec fuel l : length l ≤ fuel → pop_front_while fuel l = drop (length l - MAX_BLOCKED_EVENTS) l.
Proof.
  revert l. induction fuel as [|fuel IH]; intros l Hl; [by destruct l; simpl in Hl; [|lia]|]. simpl.
  destruct (Nat.ltb_spec MAX_BLOCKED_EVENTS (length l)) as [Hlt|Hge].
  - destruct l as [|e l]; [simpl in Hlt; unfold MAX_BLOCKED_EVENTS in Hlt; lia|]. cbn [tail length] in *. rewrite IH by lia.
    by rewrite Nat.sub_succ_l by lia.
  - by replace (length l - MAX_BLOCKED_EVENTS) with 0 by lia.
Qed.

(** The buffer keeps the last entries, and every entry is counted. *)
Lemma push_all_blocked entries (s : state) :
  length (blocked s) ≤ MAX_BLOCKED_EVENTS → (blocked_total s <= u64_max)%N →
  let s' := foldl (λ s e, push_blocked e s) s entries in
  let l := blocked s ++ entries in
  blocked s' = drop (length l - MAX_BLOCKED_EVENTS) l
  ∧ blocked_total s' = N.min (blocked_total s + N.of_nat (length entries)) u64_max
  ∧ config s' = config s ∧ constraints s' = constraints s.
Proof.
  intros Hb Ht. cbn zeta. induction entries as [|e entries IH] using rev_ind.
  - simpl. rewrite app_nil_r. replace (length (blocked s) - MAX_BLOCKED_EVENTS) with 0 by lia. split_and!; [done| |done..]. lia.
  - rewrite foldl_app. set (s1 := foldl _ s entries) in *. cbn [foldl]. destruct IH as (IHb&IHt&IHc&IHk). unfold push_blocked. cbn [blocked blocked_total config constraints with_blocked].
    rewrite IHb, IHt. split_and!; [|rewrite length_app; simpl; lia|done..].
    rewrite pop_front_spec by done. set (l := blocked s ++ entries).
    rewrite (assoc_L (++)). fold l. rewrite !length_app, length_drop. simpl.
    destruct (decide (length l ≤ MAX_BLOCKED_EVENTS)) as [Hl|Hl].
    + replace (length l - MAX_BLOCKED_EVENTS) with 0 by lia. rewrite drop_0, Nat.sub_0_r. done.
    + rewrite <-(drop_app_le l [e]) by lia. rewrite drop_drop. f_equal. lia.
Qed.

(** An update of the policy, and a reload, put back the buffer they read before
    they took the lock to write: a request recorded in between is forgotten. *)
Lemma reload_forgets_blocked (s new : state) entry :
  let w := {| st := s; others := [id; push_blocked entry]; reloads := [Ok (Some new)] |} in
  ∃ w', reload_if_needed w = (w', Ok ()) ∧ blocked (st w') = blocked s ∧ blocked_total (st w') = blocked_total s.
Proof. eexists. split; [reflexivity|]. done. Qed.

(** A forced reload keeps the buffer but starts the count again. *)
Lemma force_reload_restarts_count (w : world) (new : state) :
  others w = [] →
  ∃ w', force_reload (Ok new) w = (w', Ok ()) ∧ blocked (st w') = blocked (st w) ∧ blocked_total (st w') = blocked_total new.
Proof. intros Ho. eexists. split; [unfold force_reload, read_lock, with_lock; run_io; rewrite Ho; reflexivity|]. done. Qed.
End Runtime.

(** ** The claims *)

Section Claims.
Context (glob_ok : str → bool) (globset_ok : list str → bool) (glob_match : str → str → bool).
Context (url_host_parse : str → option str).
Context {MitmState : Type} (mitm_new : bool → option MitmState).
Context (lookup_host : str → N → option (list IpAddr)).
Abbreviation run_all := (run_all glob_ok globset_ok glob_match url_host_parse mitm_new lookup_host).
Abbreviation good_world := (good_world glob_ok globset_ok url_host_parse).
Abbreviation good := (good glob_ok globset_ok url_host_parse).
Abbreviation proxy_world := (proxy_world glob_ok globset_ok url_host_parse mitm_new).
Abbreviation evaluate := (evaluate_host_policy glob_match lookup_host).

(** C28. From a policy started from a specification or loaded from
    configuration layers, and whatever is then done to it (mode changes,
    domains added, specifications applied, reloads by its reloader),
    interleaved in any way with other tasks that do the same, the
    configuration stays within the managed limits it holds, and the compiled
    sets are those of its domain lists. *)
Theorem limits_always_hold reloader ops (w : @world MitmState) (Hw : proxy_world reloader w) :
  good (st (run_all reloader ops w)).
Proof. destruct (proxy_world_good _ _ _ _ _ _ Hw) as [Hr Hgood]. by apply run_all_good. Qed.

(** C29. A host that a managed denial of the policy in force matches is
    refused, whatever the decider says, in a policy that was started from a
    specification or loaded from configuration layers, whatever was done to it
    before by these operations, by its reloader and by other tasks. *)
Theorem managed_denials_enforced reloader ops (w w' : @world MitmState) decider req d ev h l p g
    (Hw : proxy_world reloader w)
    (Heval : evaluate decider req (run_all reloader ops w) = (w', Ok (d, ev)))
    (Hh : host_parse (req_host req) = Some h) (Hl : managed_denied_domains (constraints (st w')) = Some l)
    (Hp : p ∈ l) (Hg : g ∈ candidates p) (Hm : glob_match g h = true) :
  d = DenyRequest (lit "denied") BaselinePolicy Deny.
Proof.
  destruct (proxy_world_good _ _ _ _ _ _ Hw) as [Hr Hgood].
  refine (denial_enforced glob_ok globset_ok glob_match url_host_parse mitm_new lookup_host decider req _ w' d ev h l p g _ Heval Hh Hl Hp Hg Hm).
  by apply run_all_good.
Qed.

(** C30. A request that is let through is to a host that no denial matches
    and, unless local hosts are allowed, to one that is public or a listed
    local literal; it is on the allowed list, or the decider allowed it and
    the audit event says so. Only an empty host is left to the decider alone. *)
Theorem allowed_requests_are_public decider req (w w' : @world MitmState) ev
    (Heval : evaluate decider req w = (w', Ok (Allow, ev))) :
  let overridden := policy_override ev = true ∧ ∃ f, decider = Some f ∧ f req = Allow in
  match host_parse (req_host req) with
  | Some h => passes glob_match lookup_host (st w') h (req_port req)
              ∧ (listed glob_match (st w') h ∧ policy_override ev = false ∨ ¬ listed glob_match (st w') h ∧ overridden)
  | None => overridden
  end.
Proof. exact (allowed_request glob_ok glob_match url_host_parse mitm_new lookup_host decider req w w' ev Heval). Qed.

(** Adding a plain host to the allowed or the denied domains ends after
    at most one more attempt than there are changes by other tasks, and when
    it succeeds every later decision denies the host, or finds it on the
    allowed list. *)
Theorem domain_update_takes_effect target input h fuel (w : @world MitmState)
    (Hw : good_world w) (Ha : answers w) (Hfuel : length (others w) < fuel)
    (Hh : host_parse input = Some h) (Hn : normalize_host h = h) (Ht : trim h = h) (Hs : STAR ∉ h)
    (Hm : glob_match h h = true) :
  let '(w', r) := update_domain_list glob_ok globset_ok url_host_parse mitm_new fuel input target w in
  r ≠ Crash ∧
  (r = Ok () →
   match target with
   | ListDeny => ∀ port, decide_host glob_match lookup_host (st w') h port = Blocked Denied
   | ListAllow => listed glob_match (st w') h
   end).
Proof.
  destruct (update_domain_list _ _ _ _ _ _ _ _) as [w' r] eqn:Hrun. split.
  - intros ->. unfold update_domain_list in Hrun. rewrite Hh in Hrun.
    apply (update_returns glob_ok globset_ok url_host_parse mitm_new fuel h target w Ha Hfuel). by rewrite Hrun.
  - intros ->. by apply (update_takes_effect glob_ok globset_ok glob_match url_host_parse mitm_new lookup_host fuel target input h w w').
Qed.
End Claims.

(** ** The network proxy on a concrete policy

    Stand-ins for the crates the proxy relies on, and the theorems about it
    applied to a policy with a managed denial. *)
Import NetAddr NetPolicy NetRuntime NetSources.

Module NetWitness.

(** Globs as the patterns of domains need them: a domain, and [?*.] and a
    domain. *)
Definition simple_glob (g h : str) : bool :=
  let h := to_ascii_lowercase h in
  match strip_prefix (lit "?*.") (to_ascii_lowercase g) with
  | Some d => ends_with h (NetAddr.DOT :: d) && (S (length d) <? length h)
  | None => bool_decide (to_ascii_lowercase g = h)
  end.
Definition any_glob (_ : str) : bool := true.
Definition any_set (_ : list str) : bool := true.
(** Hosts with a port are refused, as [url::Host::parse] does. *)
Definition plain_host_parse (h : str) : option str :=
  if contains_char h COLON then None else Some (to_ascii_lowercase h).
Definition no_mitm (_ : bool) : option unit := None.
Definition public_dns (_ : str) (_ : N) : option (list IpAddr) := Some [V4 (ipv4 93 184 216 34)].

Definition settings (entries : list (string * NetworkDomainPermission)) : NetworkProxySettings :=
  with_domains (Some ((λ e, {| pattern := lit e.1; permission := e.2 |}) <$> entries)) settings_default.
Definition no_limits : NetworkProxyConstraints := {|
  max_enabled := None; max_mode := None; max_upstream_proxy := None; max_non_loopback_proxy := None;
  max_all_unix_sockets := None; managed_allowed_domains := None; allowlist_expansion_enabled := None;
  managed_denied_domains := None; denylist_expansion_enabled := None; managed_unix_sockets := None;
  max_local_binding := None |}.
Definition deny_limits (l : list str) : NetworkProxyConstraints := {|
  max_enabled := None; max_mode := Some Full; max_upstream_proxy := None; max_non_loopback_proxy := None;
  max_all_unix_sockets := None; managed_allowed_domains := None; allowlist_expansion_enabled := None;
  managed_denied_domains := Some l; denylist_expansion_enabled := Some true; managed_unix_sockets := None;
  max_local_binding := Some false |}.
Definition allow_limits (l : list str) : NetworkProxyConstraints := {|
  max_enabled := None; max_mode := None; max_upstream_proxy := None; max_non_loopback_proxy := None;
  max_all_unix_sockets := None; managed_allowed_domains := Some l; allowlist_expansion_enabled := None;
  managed_denied_domains := None; denylist_expansion_enabled := None; managed_unix_sockets := None;
  max_local_binding := None |}.

Definition state : Type := ConfigState unit BlockedRequest.
Definition initial (s : NetworkProxySettings) (c : NetworkProxyConstraints) : state :=
  match build_config_state any_glob any_set no_mitm s c with
  | Ok st => st
  | _ => Build_ConfigState s [] [] None c [] 0
  end.
Definition sample : state :=
  initial (settings [("*.example.com", PermAllow); ("EVIL.com", PermDeny)]) (deny_limits [lit "evil.com"]).
Definition world_of (s : state) : world := {| st := s; others := []; reloads := [] |}.
Definition request (host : string) : NetworkPolicyRequest := {|
  req_protocol := HttpsConnect; req_host := lit host; req_port := 443; client_addr := None; req_method := None;
  command := None; exec_policy_hint := None |}.

Abbreviation good := (good any_glob any_set plain_host_parse).
Abbreviation evaluate := (evaluate_host_policy simple_glob public_dns).
Abbreviation run := (run_all any_glob any_set simple_glob plain_host_parse no_mitm public_dns).

Lemma sample_good : good_world any_glob any_set plain_host_parse (world_of sample).
Proof.
  split; [|by split; constructor]. split; [apply validate_Ok; vm_compute; reflexivity|].
  split; vm_compute; reflexivity.
Qed.

(** A proxy started from a specification whose requirements deny [evil.com], while
    another task limits the mode and records a request. *)
Definition deny_evil : NetworkConstraints := {|
  required_enabled := None; required_http_port := Some 4000; required_socks_port := None; required_upstream_proxy := None;
  required_non_loopback_proxy := None; required_all_unix_sockets := None;
  required_domains := Some [(lit "evil.com", TomlDeny)]; required_allowed_domains_only := None;
  required_unix_sockets := None; required_local_binding := Some false |}.
Definition workspace_write : Permissions.SandboxPolicy := Permissions.WorkspaceWrite [] Permissions.FullAccess true false false.
Definition managed_source : SpecSource :=
  FromConfig (settings [("*.example.com", PermAllow); ("evil.com", PermAllow)]) (Some deny_evil) workspace_write.
Definition managed_state : state :=
  match start_from_spec any_glob any_set plain_host_parse no_mitm managed_source with Ok (s, _) => s | _ => sample end.
Definition managed_reloader : ConfigReloader := StaticNetworkProxyReloader managed_state.
Definition blocked_entry : BlockedRequest := {| request_host := []; reason := []; client := None; method := None;
  request_mode := None; protocol := []; decision := None; source := None; port := None; timestamp := 0 |}.
Definition limit_mode (s : state) : state :=
  if decide (constraints s = constraints managed_state) then with_config (with_mode Limited (config s)) s else s.
Definition managed_world : world := {| st := managed_state; others := [id; push_blocked blocked_entry ∘ limit_mode]; reloads := [Ok None] |}.
Definition attempts : list operation :=
  [AddAllowed 3 (lit "evil.com"); SetMode 3 Full; AddAllowed 3 (lit "Other.org:443"); ApplySpec (Recomputed managed_source workspace_write);
   ForceReload {| disk_layers := Err ReloadError; disk_exec_policy := Err ReloadError; disk_mtime := λ _, None |};
   AddAllowed 3 (lit "Other.org:443"); SetMode 3 Limited; Check (lit "other.org") 443].

Lemma managed_world_ok : proxy_world any_glob any_set plain_host_parse no_mitm managed_reloader managed_world.
Proof.
  split; [|split].
  - apply (started_from_spec _ _ _ _ managed_source). vm_compute. reflexivity.
  - constructor; [constructor|]. constructor; [|constructor].
    apply (turn_then _ _ _ _ _ limit_mode (push_blocked blocked_entry)); [|constructor].
    apply (turn_set_mode _ _ _ _ _ Limited managed_state). vm_compute. reflexivity.
  - constructor; [|constructor]. exists managed_reloader, {| disk_layers := Ok []; disk_exec_policy := Err ReloadError; disk_mtime := λ _, None |}.
    split; [constructor|reflexivity].
Qed.

Lemma limits_always_hold_witness :
  let s := st (run managed_reloader attempts managed_world) in
  good s ∧ mode (config s) = Limited ∧ allowed_domains (config s) = Some [lit "*.example.com"; lit "other.org"].
Proof.
  split; [|vm_compute; split; reflexivity].
  exact (limits_always_hold any_glob any_set simple_glob plain_host_parse no_mitm public_dns managed_reloader attempts managed_world
    managed_world_ok).
Defined.

Lemma managed_denials_enforced_witness :
  ∃ w' ev, evaluate (Some (λ _, Allow)) (request "Evil.com.") (run managed_reloader attempts managed_world)
    = (w', Ok (DenyRequest (lit "denied") BaselinePolicy Deny, ev)).
Proof.
  destruct (evaluate (Some (λ _, Allow)) (request "Evil.com.") (run managed_reloader attempts managed_world)) as [w' r] eqn:Hrun.
  assert (∃ d ev, r = Ok (d, ev) ∧ managed_denied_domains (constraints (st w')) = Some [lit "evil.com"]) as (d&ev&->&Hl).
  { vm_compute in Hrun. injection Hrun as <- <-. eexists _, _. split; reflexivity. }
  exists w', ev. rewrite (managed_denials_enforced any_glob any_set simple_glob plain_host_parse no_mitm public_dns managed_reloader attempts
    managed_world w' (Some (λ _, Allow)) (request "Evil.com.") d ev (lit "evil.com") [lit "evil.com"] (lit "evil.com")
    (lit "evil.com") managed_world_ok Hrun eq_refl Hl); [reflexivity|by left|by left|vm_compute; reflexivity].
Defined.

Lemma allowed_requests_are_public_witness :
  ∃ w' ev, evaluate None (request "api.example.com") (world_of sample) = (w', Ok (Allow, ev))
    ∧ passes simple_glob public_dns (st w') (lit "api.example.com") 443
    ∧ listed simple_glob (st w') (lit "api.example.com").
Proof.
  destruct (evaluate None (request "api.example.com") (world_of sample)) as [w' r] eqn:Hrun.
  assert (∃ ev, r = Ok (Allow, ev)) as (ev&->) by (vm_compute in Hrun; injection Hrun as _ <-; eexists; reflexivity).
  exists w', ev. split; [done|].
  destruct (allowed_requests_are_public any_glob simple_glob plain_host_parse no_mitm public_dns None (request "api.example.com") (world_of sample) w' ev Hrun)
    as [Hp [[Hl _]|[_ [_ (f&[=]&_)]]]].
  by split.
Defined.

Lemma domain_update_takes_effect_witness :
  let w := {| st := sample; others := [id; push_blocked blocked_entry]; reloads := [] |} in
  let '(w', r) := update_domain_list any_glob any_set plain_host_parse no_mitm 3 (lit "Other.org:443") ListDeny w in
  r = Ok () ∧ ∀ port, decide_host simple_glob public_dns (st w') (lit "other.org") port = Blocked Denied.
Proof.
  intros w.
  assert (Hw : good_world any_glob any_set plain_host_parse w).
  { destruct sample_good as [Hs _]. split; [exact Hs|]. split; [|by constructor].
    constructor; [by intros s Hg|]. constructor; [|constructor]. intros s [Hv Hc]. by split. }
  pose proof (domain_update_takes_effect any_glob any_set simple_glob plain_host_parse no_mitm public_dns ListDeny
    (lit "Other.org:443") (lit "other.org") 3 w Hw (Forall_nil_2 _) (le_n 3) eq_refl eq_refl eq_refl) as H.
  destruct (update_domain_list _ _ _ _ _ _ _ _) as [w' r] eqn:Hrun.
  assert (r = Ok ()) as -> by (apply (f_equal snd) in Hrun; vm_compute in Hrun; by symmetry).
  split; [done|]. apply H; [|vm_compute; reflexivity|done].
  apply (bool_decide_unpack (STAR ∉ lit "other.org")). vm_compute. exact I.
Defined.

End NetWitness.
