(* ===== verification/Rollout.v ===== *)
(** * Replaying a rollout

    Models [core/src/session/rollout_reconstruction.rs] (the history of a resumed
    or rolled back thread from its recorded items),
    [core/src/thread_rollout_truncation.rs] (cutting a rollout at a turn), and
    the compacted histories of [core/src/compact.rs] with the user messages they
    are made of ([core/src/event_mapping.rs]). *)
From S2P Require Import Prelude Str Truncate History.
Import Truncate History.

Module Rollout.

(** The fields of a turn context that resuming reads, and the rest. *)
Record TurnContextItem (Rest : Type) : Type := {
  ctx_turn_id : option str;
  ctx_model : str;
  ctx_realtime_active : option bool;
  ctx_rest : Rest;
}.
Arguments ctx_turn_id {Rest}.
Arguments ctx_model {Rest}.
Arguments ctx_realtime_active {Rest}.
Arguments ctx_rest {Rest}.

Record PreviousTurnSettings : Type := { model : str; realtime_active : option bool }.

(** The events that replaying tells apart. *)
Inductive EventMsg : Type :=
| ThreadRolledBack (num_turns : nat)
| TurnStarted (turn_id : str)
| TurnComplete (turn_id : str)
| TurnAborted (turn_id : option str)
| UserMessage
| OtherEvent.

Section Rollout.
Context {P Value Rest : Type}.
Abbreviation item := (@ResponseItem P Value).
Abbreviation TurnContextItem := (TurnContextItem Rest).
Abbreviation history := (@ContextManager P Value TurnContextItem).

Record CompactedItem : Type := { message : str; replacement_history : option (list item) }.

Inductive RolloutItem : Type :=
| SessionMeta
| Response (i : item)
| Compacted (c : CompactedItem)
| TurnContext (ctx : TurnContextItem)
| Event (e : EventMsg).

(** Debug builds; quick_xml on a hook prompt; serde_json on an inter-agent
    communication, with its [trigger_turn]; the fields of a message that has only
    a role and a content; the text of the compaction's prompt file. *)
Variable debug_assertions : bool.
Variable from_xml_str : str → option (str * str).
Variable inter_agent_json : str → option bool.
Variable no_fields : P.
Variable SUMMARY_PREFIX : str.

Definition is_inter_agent_json (text : str) : bool := bool_decide (is_Some (inter_agent_json text)).
Abbreviation is_user_turn_boundary := (is_user_turn_boundary from_xml_str is_inter_agent_json).
Abbreviation drop_last_n_user_turns := (drop_last_n_user_turns from_xml_str is_inter_agent_json).

(** ** User messages *)

(** [parse_visible_hook_prompt_message]: the hook prompts of a message that has
    nothing else. *)
Fixpoint hook_prompt_fragments (content : list ContentItem) : option (list (str * str)) :=
  match content with
  | [] => Some []
  | InputText text :: content =>
      match parse_hook_prompt_fragment from_xml_str text with
      | Some fragment => fragments ← hook_prompt_fragments content; Some (fragment :: fragments)
      | None => if is_standard_contextual_user_text text then hook_prompt_fragments content else None
      end
  | _ :: _ => None
  end.
Definition parse_visible_hook_prompt_message (content : list ContentItem) : option (list (str * str)) :=
  match hook_prompt_fragments content with Some [] | None => None | Some fragments => Some fragments end.

Inductive UserInput : Type := TextInput (text : str) | ImageInput (image_url : str).

Definition is_image_open_tag_text (text : str) : bool := bool_decide (text = lit "<image>").
Definition is_image_close_tag_text (text : str) : bool := bool_decide (text = lit "</image>").
Definition is_local_image_open_tag_text (text : str) : bool :=
  match strip_prefix (lit "<image name=") text with Some rest => ends_with rest (lit ">") | None => false end.
Definition is_input_image (c : option ContentItem) : bool := match c with Some (InputImage _ _) => true | _ => false end.

(** The loop of [parse_user_message]; [prev] is the item before. *)
Fixpoint user_inputs (prev : option ContentItem) (content : list ContentItem) : list UserInput :=
  match content with
  | [] => []
  | c :: content' =>
      let rest := user_inputs (Some c) content' in
      match c with
      | InputText text =>
          if ((is_local_image_open_tag_text text || is_image_open_tag_text text) && is_input_image (head content'))
             || (is_image_close_tag_text text && is_input_image prev)
          then rest else TextInput text :: rest
      | InputImage image_url _ => ImageInput image_url :: rest
      | OutputText _ => rest
      end
  end.
Definition parse_user_message (content : list ContentItem) : option (list UserInput) :=
  if is_contextual_user_message_content from_xml_str content then None else Some (user_inputs None content).

(** [parse_turn_item], as far as it says what the user wrote. *)
Definition parse_user_item (i : item) : option (list UserInput) :=
  match i with
  | Message role content _ =>
      if bool_decide (role = lit "user") then
        match parse_visible_hook_prompt_message content with Some _ => None | None => parse_user_message content end
      else None
  | _ => None
  end.

(** [UserMessageItem::message]. *)
Definition user_message (content : list UserInput) : str :=
  concat ((λ c, match c with TextInput text => text | ImageInput _ => [] end) <$> content).

(** ** Compacted histories *)

Definition COMPACT_USER_MESSAGE_MAX_TOKENS : Z := 20000.

Definition is_summary_message (m : str) : bool := starts_with m (SUMMARY_PREFIX ++ [NL]).
Definition collect_user_messages (l : list item) : list str :=
  omap (λ i, content ← parse_user_item i;
             if is_summary_message (user_message content) then None else Some (user_message content)) l.

(** The messages kept, from the last to the first. *)
Fixpoint select_messages (remaining : Z) (messages : list str) : result Empty_set (list str) :=
  match messages with
  | [] => Ok []
  | m :: messages =>
      if (remaining =? 0)%Z then Ok []
      else
        let tokens := approx_token_count m in
        if (tokens <=? remaining)%Z then
          selected ← select_messages (saturating_sub remaining tokens) messages; Ok (m :: selected)
        else
          truncated ← truncate_text m (Tokens remaining); Ok [truncated]
  end.

Definition user_text_message (text : str) : item := Message (lit "user") [InputText text] no_fields.

Definition build_compacted_history_with_limit (initial : list item) (user_messages : list str) (summary_text : str)
    (max_tokens : Z) : result Empty_set (list item) :=
  selected ← (if (0 <? max_tokens)%Z then select_messages max_tokens (reverse user_messages) else Ok []);
  let summary := if bool_decide (summary_text = []) then lit "(no summary available)" else summary_text in
  Ok (initial ++ (user_text_message <$> reverse selected) ++ [user_text_message summary]).
Definition build_compacted_history (initial : list item) (user_messages : list str) (summary_text : str)
    : result Empty_set (list item) :=
  build_compacted_history_with_limit initial user_messages summary_text COMPACT_USER_MESSAGE_MAX_TOKENS.

(** The positions of the last real user message and of the last user message or
    summary, going down from the end; [l] is the reversed history. *)
Fixpoint last_user_positions (l : list item) (last_user_or_summary : option nat) : option nat * option nat :=
  match l with
  | [] => (None, last_user_or_summary)
  | i :: l =>
      match parse_user_item i with
      | None => last_user_positions l last_user_or_summary
      | Some content =>
          let last_user_or_summary := Some (default (length l) last_user_or_summary) in
          if is_summary_message (user_message content) then last_user_positions l last_user_or_summary
          else (Some (length l), last_user_or_summary)
      end
  end.
Definition is_compaction (i : item) : bool := match i with Compaction _ => true | _ => false end.

Definition insert_initial_context_before_last_real_user_or_summary (compacted initial : list item) : list item :=
  let '(last_real_user, last_user_or_summary) := last_user_positions (reverse compacted) None in
  let last_compaction := rposition is_compaction compacted in
  match match last_real_user with
        | Some n => Some n
        | None => match last_user_or_summary with Some n => Some n | None => last_compaction end
        end with
  | Some n => take n compacted ++ initial ++ drop n compacted
  | None => compacted ++ initial
  end.

(** ** Reading the rollout from its end *)

Inductive TurnReferenceContextItem : Type := NeverSet | Cleared | Latest (ctx : TurnContextItem).
Definition never_set (r : TurnReferenceContextItem) : bool := match r with NeverSet => true | _ => false end.

Record ActiveReplaySegment : Type := {
  turn_id : option str;
  counts_as_user_turn : bool;
  segment_settings : option PreviousTurnSettings;
  segment_reference : TurnReferenceContextItem;
  segment_base : option (list item);
}.
Definition segment_default : ActiveReplaySegment := {|
  turn_id := None; counts_as_user_turn := false; segment_settings := None; segment_reference := NeverSet;
  segment_base := None |}.

Definition with_turn_id (id : option str) (g : ActiveReplaySegment) : ActiveReplaySegment := {|
  turn_id := id; counts_as_user_turn := counts_as_user_turn g; segment_settings := segment_settings g;
  segment_reference := segment_reference g; segment_base := segment_base g |}.
Definition as_user_turn (b : bool) (g : ActiveReplaySegment) : ActiveReplaySegment := {|
  turn_id := turn_id g; counts_as_user_turn := counts_as_user_turn g || b; segment_settings := segment_settings g;
  segment_reference := segment_reference g; segment_base := segment_base g |}.
Definition with_settings (s : PreviousTurnSettings) (g : ActiveReplaySegment) : ActiveReplaySegment := {|
  turn_id := turn_id g; counts_as_user_turn := counts_as_user_turn g; segment_settings := Some s;
  segment_reference := segment_reference g; segment_base := segment_base g |}.
(** The reference, when none is set yet. *)
Definition with_reference (r : TurnReferenceContextItem) (g : ActiveReplaySegment) : ActiveReplaySegment := {|
  turn_id := turn_id g; counts_as_user_turn := counts_as_user_turn g; segment_settings := segment_settings g;
  segment_reference := if never_set (segment_reference g) then r else segment_reference g;
  segment_base := segment_base g |}.
Definition with_base (b : list item) (g : ActiveReplaySegment) : ActiveReplaySegment := {|
  turn_id := turn_id g; counts_as_user_turn := counts_as_user_turn g; segment_settings := segment_settings g;
  segment_reference := segment_reference g; segment_base := Some b |}.

Definition turn_ids_are_compatible (active_turn_id item_turn_id : option str) : bool :=
  match active_turn_id, item_turn_id with Some a, Some i => bool_decide (i = a) | _, _ => true end.

Record scan : Type := {
  base_replacement_history : option (list item);
  previous_turn_settings : option PreviousTurnSettings;
  reference : TurnReferenceContextItem;
  pending_rollback_turns : Z;
  suffix_start : nat;
  active_segment : option ActiveReplaySegment;
}.
Definition scan_start : scan := {|
  base_replacement_history := None; previous_turn_settings := None; reference := NeverSet;
  pending_rollback_turns := 0; suffix_start := 0; active_segment := None |}.

Definition with_active (a : option ActiveReplaySegment) (s : scan) : scan := {|
  base_replacement_history := base_replacement_history s; previous_turn_settings := previous_turn_settings s;
  reference := reference s; pending_rollback_turns := pending_rollback_turns s; suffix_start := suffix_start s;
  active_segment := a |}.
Definition with_pending (n : Z) (s : scan) : scan := {|
  base_replacement_history := base_replacement_history s; previous_turn_settings := previous_turn_settings s;
  reference := reference s; pending_rollback_turns := n; suffix_start := suffix_start s;
  active_segment := active_segment s |}.
Definition with_suffix (n : nat) (s : scan) : scan := {|
  base_replacement_history := base_replacement_history s; previous_turn_settings := previous_turn_settings s;
  reference := reference s; pending_rollback_turns := pending_rollback_turns s; suffix_start := n;
  active_segment := active_segment s |}.

Definition finalize_active_segment (g : ActiveReplaySegment) (s : scan) : scan :=
  if (0 <? pending_rollback_turns s)%Z then
    if counts_as_user_turn g then with_pending (pending_rollback_turns s - 1) s else s
  else {|
    base_replacement_history :=
      match base_replacement_history s with Some b => Some b | None => segment_base g end;
    previous_turn_settings :=
      match previous_turn_settings s with
      | Some p => Some p
      | None => if counts_as_user_turn g then segment_settings g else None
      end;
    reference :=
      if never_set (reference s)
         && (counts_as_user_turn g || match segment_reference g with Cleared => true | _ => false end)
      then segment_reference g else reference s;
    pending_rollback_turns := pending_rollback_turns s;
    suffix_start := suffix_start s;
    active_segment := active_segment s |}.

(** [get_or_insert_with]. *)
Definition segment (s : scan) : ActiveReplaySegment := default segment_default (active_segment s).

Definition scan_item (index : nat) (i : RolloutItem) (s : scan) : scan :=
  match i with
  | Compacted c =>
      let g := with_reference Cleared (segment s) in
      match segment_base g, replacement_history c with
      | None, Some b => with_suffix (index + 1) (with_active (Some (with_base b g)) s)
      | _, _ => with_active (Some g) s
      end
  | Event (ThreadRolledBack num_turns) =>
      with_pending (saturating_add (pending_rollback_turns s) (Z.of_nat num_turns)) s
  | Event (TurnComplete id) =>
      let g := segment s in
      with_active (Some (match turn_id g with None => with_turn_id (Some id) g | Some _ => g end)) s
  | Event (TurnAborted id) =>
      match active_segment s with
      | Some g => with_active (Some (match turn_id g, id with None, Some _ => with_turn_id id g | _, _ => g end)) s
      | None => match id with Some _ => with_active (Some (with_turn_id id segment_default)) s | None => s end
      end
  | Event UserMessage => with_active (Some (as_user_turn true (segment s))) s
  | TurnContext ctx =>
      let g := segment s in
      let g := match turn_id g with None => with_turn_id (ctx_turn_id ctx) g | Some _ => g end in
      let g := if turn_ids_are_compatible (turn_id g) (ctx_turn_id ctx) then
                 with_reference (Latest ctx)
                   (with_settings {| model := ctx_model ctx; realtime_active := ctx_realtime_active ctx |} g)
               else g in
      with_active (Some g) s
  | Event (TurnStarted id) =>
      match active_segment s with
      | Some g =>
          if turn_ids_are_compatible (turn_id g) (Some id) then finalize_active_segment g (with_active None s) else s
      | None => s
      end
  | Response r => with_active (Some (as_user_turn (is_user_turn_boundary r) (segment s))) s
  | Event OtherEvent | SessionMeta => s
  end.

Definition complete (s : scan) : bool :=
  bool_decide (is_Some (base_replacement_history s)) && bool_decide (is_Some (previous_turn_settings s))
  && negb (never_set (reference s)).

(** The items from the last to the first, until nothing older matters. *)
Fixpoint scan_loop (rev_items : list RolloutItem) (s : scan) : scan :=
  match rev_items with
  | [] => s
  | i :: rest =>
      let s := scan_item (length rest) i s in
      if complete s then s else scan_loop rest s
  end.
Definition finalize (s : scan) : scan :=
  match active_segment s with Some g => finalize_active_segment g (with_active None s) | None => s end.

(** ** Rebuilding the history *)

(** The history so far, and whether a compaction without a history was seen. *)
Definition replay_item (policy : TruncationPolicy) (i : RolloutItem) (st : history * bool)
    : result Empty_set (history * bool) :=
  let '(h, saw_legacy) := st in
  match i with
  | Response r => h ← record_items [r] policy h; Ok (h, saw_legacy)
  | Compacted c =>
      match replacement_history c with
      | Some b => Ok (replace b h, saw_legacy)
      | None =>
          rebuilt ← build_compacted_history [] (collect_user_messages (items h)) (message c);
          Ok (replace rebuilt h, true)
      end
  | Event (ThreadRolledBack num_turns) => h ← drop_last_n_user_turns num_turns h; Ok (h, saw_legacy)
  | _ => Ok (h, saw_legacy)
  end.
Fixpoint replay (policy : TruncationPolicy) (l : list RolloutItem) (st : history * bool)
    : result Empty_set (history * bool) :=
  match l with
  | [] => Ok st
  | i :: l => st ← replay_item policy i st; replay policy l st
  end.

Record RolloutReconstruction : Type := {
  rebuilt : list item;
  rebuilt_settings : option PreviousTurnSettings;
  rebuilt_reference : option TurnContextItem;
}.

Definition reconstruct_history_from_rollout (policy : TruncationPolicy) (rollout_items : list RolloutItem)
    : result Empty_set RolloutReconstruction :=
  let s := finalize (scan_loop (reverse rollout_items) scan_start) in
  let start := match base_replacement_history s with Some b => replace b new | None => new end in
  '(h, saw_legacy) ← replay policy (drop (suffix_start s) rollout_items) (start, false);
  let reference := match reference s with Latest ctx => Some ctx | NeverSet | Cleared => None end in
  Ok {| rebuilt := items h; rebuilt_settings := previous_turn_settings s;
        rebuilt_reference := if (saw_legacy : bool) then None else reference |}.

(** ** Cutting a rollout at a turn *)

Definition is_real_user_message_boundary (i : item) : bool := bool_decide (is_Some (parse_user_item i)).
Definition is_trigger_turn_boundary (i : item) : bool :=
  match i with
  | Message role content _ =>
      bool_decide (role = lit "assistant")
      && match content with
         | [InputText text] | [OutputText text] => bool_decide (inter_agent_json text = Some true)
         | _ => false
         end
  | _ => false
  end.

Definition rollout_item_is_user_turn_boundary (i : RolloutItem) : bool :=
  match i with Response r => is_user_turn_boundary r | _ => false end.

Definition is_message (i : item) : bool := match i with Message _ _ _ => true | _ => false end.
Definition user_position_step (idx : nat) (i : RolloutItem) (user_positions : list nat) : list nat :=
  match i with
  | Response r =>
      if is_message r && is_real_user_message_boundary r then user_positions ++ [idx] else user_positions
  | Event (ThreadRolledBack num_turns) => take (length user_positions - num_turns) user_positions
  | _ => user_positions
  end.
Fixpoint user_positions_from (idx : nat) (l : list RolloutItem) (user_positions : list nat) : list nat :=
  match l with
  | [] => user_positions
  | i :: l => user_positions_from (S idx) l (user_position_step idx i user_positions)
  end.
Definition user_message_positions_in_rollout (l : list RolloutItem) : list nat := user_positions_from 0 l [].

Definition fork_position_step (idx : nat) (i : RolloutItem) (st : list nat * list nat) : list nat * list nat :=
  let '(rollback_turn_positions, fork_turn_positions) := st in
  match i with
  | Response r =>
      (if is_user_turn_boundary r then rollback_turn_positions ++ [idx] else rollback_turn_positions,
       if is_real_user_message_boundary r || is_trigger_turn_boundary r then fork_turn_positions ++ [idx]
       else fork_turn_positions)
  | Event (ThreadRolledBack num_turns) =>
      if num_turns =? 0 then st
      else
        match (if num_turns <=? length rollback_turn_positions
               then rollback_turn_positions !! (length rollback_turn_positions - num_turns)
               else head rollback_turn_positions) with
        | None => st
        | Some rollback_start_idx =>
            (take (length rollback_turn_positions - num_turns) rollback_turn_positions,
             filter (λ position, position < rollback_start_idx) fork_turn_positions)
        end
  | _ => st
  end.
Fixpoint fork_positions_from (idx : nat) (l : list RolloutItem) (st : list nat * list nat) : list nat * list nat :=
  match l with
  | [] => st
  | i :: l => fork_positions_from (S idx) l (fork_position_step idx i st)
  end.
Definition fork_turn_positions_in_rollout (l : list RolloutItem) : list nat := (fork_positions_from 0 l ([], [])).2.

Definition truncate_rollout_before_nth_user_message_from_start (l : list RolloutItem) (n_from_start : Z)
    : result Empty_set (list RolloutItem) :=
  if (n_from_start =? usize_max)%Z then Ok l
  else
    let user_positions := user_message_positions_in_rollout l in
    if (Z.of_nat (length user_positions) <=? n_from_start)%Z then Ok l
    else cut_idx ← expect (user_positions !! Z.to_nat n_from_start); Ok (take cut_idx l).

Definition truncate_rollout_to_last_n_fork_turns (l : list RolloutItem) (n_from_end : nat)
    : result Empty_set (list RolloutItem) :=
  if n_from_end =? 0 then Ok []
  else
    let fork_turn_positions := fork_turn_positions_in_rollout l in
    if length fork_turn_positions <=? n_from_end then Ok l
    else keep_idx ← expect (fork_turn_positions !! (length fork_turn_positions - n_from_end)); Ok (drop keep_idx l).
End Rollout.
End Rollout.
