(* ===== verification/RolloutFacts.v ===== *)
(** * Facts about replaying a rollout

    Replaying never panics; reading the rollout from its end gives the history
    that replaying all of it gives, up to one case; compacted histories; and the
    turns that cutting a rollout leaves. *)
From S2P Require Import Prelude Str Truncate TruncateFacts History HistoryFacts Rollout.
Import Truncate History Rollout.

Section Facts.
Context {P Value Rest : Type}.
Abbreviation item := (@ResponseItem P Value).
Abbreviation history := (@ContextManager P Value (TurnContextItem Rest)).
Abbreviation rollout_item := (@RolloutItem P Value Rest).
Variable from_xml_str : str → option (str * str).
Variable inter_agent_json : str → option bool.
Variable no_fields : P.
Variable SUMMARY_PREFIX : str.
Abbreviation parse := (@parse_user_item P Value from_xml_str).
Abbreviation boundary := (@is_user_turn_boundary P Value from_xml_str (is_inter_agent_json inter_agent_json)).
Abbreviation rollback :=
  (@drop_last_n_user_turns P Value (TurnContextItem Rest) from_xml_str (is_inter_agent_json inter_agent_json)).
Abbreviation compacted := (@build_compacted_history P Value no_fields).
Abbreviation collect := (@collect_user_messages P Value from_xml_str SUMMARY_PREFIX).
Abbreviation step := (@replay_item P Value Rest from_xml_str inter_agent_json no_fields SUMMARY_PREFIX).
Abbreviation replay := (@replay P Value Rest from_xml_str inter_agent_json no_fields SUMMARY_PREFIX).
Abbreviation scan_item := (@scan_item P Value Rest from_xml_str inter_agent_json).
Abbreviation scan_loop := (@scan_loop P Value Rest from_xml_str inter_agent_json).
Abbreviation reconstruct :=
  (@reconstruct_history_from_rollout P Value Rest from_xml_str inter_agent_json no_fields SUMMARY_PREFIX).

(** ** Replaying does not panic *)

(** Strings and vectors are no larger than Rust allows. *)
Definition valid_payload (o : FunctionCallOutputPayload) : Prop :=
  match body o with Text t => (blen t ≤ i64_max)%Z | ContentItems l => valid_items l end.
Definition text_fits (i : item) : Prop := ∀ c, parse i = Some c → (blen (user_message c) ≤ i64_max)%Z.
Definition valid_response (i : item) : Prop :=
  text_fits i ∧ match i with FunctionCallOutput _ o | CustomToolCallOutput _ _ o => valid_payload o | _ => True end.
Definition valid_rollout_item (i : rollout_item) : Prop :=
  match i with
  | Response r => valid_response r
  | Compacted c =>
      (blen (message c) ≤ i64_max)%Z ∧ match replacement_history c with Some b => Forall text_fits b | None => True end
  | _ => True
  end.

Lemma valid_policy_mul p f : valid_policy (policy_mul p f).
Proof.
  assert (∀ n, 0 ≤ scale n f ≤ usize_max)%Z as Hs.
  { intros n. unfold scale, ceil_to_usize, usize_max. case_match; subst; try (repeat case_match; lia). case_match; [lia|].
    destruct (0 <=? e)%Z eqn:He; [apply Z.leb_le in He; pose proof (Z.pow_nonneg 2 e ltac:(lia)); nia|].
    apply Z.leb_gt in He. pose proof (Z.pow_pos_nonneg 2 (- e) ltac:(lia) ltac:(lia)) as Hp.
    assert (- Z.pos m / 2 ^ (- e) ≤ 0)%Z; [|lia]. apply Z.div_le_upper_bound; lia. }
  destruct p; apply Hs.
Qed.

Lemma truncate_payload_total o p :
  valid_policy p → valid_payload o → ∃ o', truncate_function_output_payload o p = Ok o'.
Proof.
  intros Hp Ho. unfold truncate_function_output_payload, valid_payload in *. destruct (body o) as [t|l].
  - destruct (truncate_text_spec t p Hp) as (out&->&_); [unfold i64_max, usize_max in *; lia|]. by eexists.
  - destruct (output_items_bounded l p Hp Ho) as (out&->&_). by eexists.
Qed.

Lemma process_item_total (i : item) p :
  valid_response i → ∃ i', process_item i p = Ok i' ∧ text_fits i' ∧ (parse i' = parse i).
Proof.
  intros [Hf Hv]. destruct i as [| | | | |id o| |id name o| | | | | |]; try (eexists; split; [done|by split]).
  - destruct (truncate_payload_total o (policy_mul p f64_1_2) (valid_policy_mul _ _) Hv) as (o'&Ho).
    simpl. rewrite Ho. eexists. split; [done|]. by split.
  - destruct (truncate_payload_total o (policy_mul p f64_1_2) (valid_policy_mul _ _) Hv) as (o'&Ho).
    simpl. rewrite Ho. eexists. split; [done|]. by split.
Qed.

Lemma parse_user_text t : parse (user_text_message no_fields t) = None ∨ parse (user_text_message no_fields t) = Some [TextInput t].
Proof.
  unfold parse_user_item, user_text_message. rewrite bool_decide_eq_true_2 by done.
  destruct (parse_visible_hook_prompt_message from_xml_str [InputText t]); [by left|].
  unfold parse_user_message. destruct (is_contextual_user_message_content _ _); [by left|]. right.
  simpl. by rewrite !andb_false_r.
Qed.

Lemma user_text_fits t : (blen t ≤ i64_max)%Z → text_fits (user_text_message no_fields t).
Proof.
  intros Ht c Hc. destruct (parse_user_text t) as [Hn|Hs]; rewrite Hc in *; [done|]. injection Hs as ->.
  unfold user_message. simpl. by rewrite app_nil_r.
Qed.

Lemma token_count_nonneg m : (0 ≤ approx_token_count m)%Z.
Proof.
  unfold approx_token_count, saturating_add, saturating_sub, APPROX_BYTES_PER_TOKEN. apply Z.div_pos; [|lia].
  pose proof (blen_nonneg m). unfold usize_max. lia.
Qed.

Lemma select_total remaining l :
  (0 ≤ remaining ≤ COMPACT_USER_MESSAGE_MAX_TOKENS)%Z → Forall (λ m, blen m ≤ i64_max)%Z l →
  ∃ sel, select_messages remaining l = Ok sel ∧ Forall (λ m, blen m ≤ i64_max)%Z sel.
Proof.
  intros Hr Hl. revert remaining Hr. induction Hl as [|m l Hm Hl IH]; intros r Hr; cbn [select_messages]; [eauto|].
  destruct (r =? 0)%Z; [eauto|]. destruct (approx_token_count m <=? r)%Z eqn:Hfit.
  - pose proof (token_count_nonneg m). destruct (IH (saturating_sub r (approx_token_count m))) as (sel&->&Hsel).
    { unfold saturating_sub. lia. }
    exists (m :: sel). split; [done|]. by constructor.
  - unfold COMPACT_USER_MESSAGE_MAX_TOKENS in Hr.
    destruct (truncate_text_spec m (Tokens r)) as (out&->&Hout&_); [simpl; unfold usize_max; lia|unfold i64_max, usize_max in *; lia|].
    exists [out]. split; [done|]. constructor; [|done]. simpl in Hout.
    unfold approx_bytes_for_tokens, saturating_mul, APPROX_BYTES_PER_TOKEN, marker_bound, i64_max in *. lia.
Qed.

Lemma collect_fits (l : list item) : Forall text_fits l → Forall (λ m, blen m ≤ i64_max)%Z (collect l).
Proof.
  induction 1 as [|i l Hi _ IH]; [done|]. unfold collect_user_messages in *. simpl.
  destruct (parse i) as [c|] eqn:Hc; simpl; [|exact IH]. destruct (is_summary_message _ _); [exact IH|].
  constructor; [by apply Hi|exact IH].
Qed.

Lemma compacted_total l summary :
  Forall (λ m, blen m ≤ i64_max)%Z l → (blen summary ≤ i64_max)%Z →
  ∃ h, compacted [] l summary = Ok h ∧ Forall text_fits h.
Proof.
  intros Hl Hs. unfold build_compacted_history, build_compacted_history_with_limit. simpl.
  destruct (select_total COMPACT_USER_MESSAGE_MAX_TOKENS (reverse l)) as (sel&->&Hsel); [done|by apply Forall_reverse|].
  eexists. split; [done|]. apply Forall_app. split.
  - apply Forall_fmap, Forall_reverse. eapply Forall_impl; [exact Hsel|]. intros m Hm. by apply user_text_fits.
  - constructor; [|done]. apply user_text_fits. case_bool_decide; [by vm_compute|done].
Qed.

Lemma step_total p i (h : history) legacy :
  valid_rollout_item i → Forall text_fits (items h) →
  ∃ h' legacy', step p i (h, legacy) = Ok (h', legacy') ∧ Forall text_fits (items h').
Proof.
  intros Hv Hh. destruct i as [|r|c|ctx|e]; cbn [replay_item]; [eauto| | |eauto|].
  - cbn [record_items]. destruct (_ && _); [eauto|]. destruct (process_item_total r p Hv) as (r'&->&Hr'&_).
    eexists _, legacy. split; [done|]. simpl. apply Forall_app. by split; [|constructor].
  - destruct Hv as [Hm Hb]. destruct (replacement_history c) as [b|]; [eauto|].
    destruct (compacted_total (collect (items h)) (message c)) as (l&->&Hl); [by apply collect_fits|done|].
    eexists _, true. by split.
  - destruct e; eauto.
    destruct (rollback_drops_turns from_xml_str (is_inter_agent_json inter_agent_json) num_turns h)
      as (h'&ctx&dropped&->&Hi&_).
    exists h', legacy. split; [done|]. rewrite Hi in Hh. by apply Forall_app in Hh as [? _].
Qed.

Lemma replay_total p l (h : history) legacy :
  Forall valid_rollout_item l → Forall text_fits (items h) →
  ∃ h' legacy', replay p l (h, legacy) = Ok (h', legacy') ∧ Forall text_fits (items h').
Proof.
  intros Hl. revert h legacy. induction Hl as [|i l Hi Hl IH]; intros h legacy Hh; [eauto|]. cbn [Rollout.replay].
  destruct (step_total p i h legacy Hi Hh) as (h'&legacy'&->&Hh'). by apply IH.
Qed.

(** ** Replaying depends on the items only *)

Lemma replay_app p l l' st : replay p (l ++ l') st = replay p l st ≫= replay p l'.
Proof. revert st. induction l as [|i l IH]; intros st; [done|]. simpl. by destruct (step p i st); simpl; [apply IH|..]. Qed.

Lemma rollback_same n (h h' a b : history) :
  items h = items h' → rollback n h = Ok a → rollback n h' = Ok b → items a = items b.
Proof.
  intros Heq. unfold drop_last_n_user_turns. rewrite <-Heq. destruct (n =? 0); [by intros [= <-] [= <-]|].
  destruct (user_message_positions _ _ (items h)) as [|first ps]; [by intros [= <-] [= <-]|].
  destruct (if _ <=? n then _ else _) as [cut| |]; try done. cbn [mbind result_bind].
  unfold trim_pre_turn_context_updates. destruct (trim_context _ _ _ _ _) as [[cut' clear]| |]; try done.
  cbn [mbind result_bind]. destruct (cut' <=? _); [|done]. by intros [= <-] [= <-].
Qed.

Lemma step_same p i (h h' a b : history) l l' m m' :
  items h = items h' → step p i (h, l) = Ok (a, m) → step p i (h', l') = Ok (b, m') → items a = items b.
Proof.
  intros Heq. destruct i as [|r|c|ctx|e]; cbn [replay_item]; [by intros [= <- _] [= <- _]| | |by intros [= <- _] [= <- _]|].
  - cbn [record_items]. destruct (_ && _); [by intros [= <- _] [= <- _]|]. destruct (process_item r p); try done.
    intros [= <- _] [= <- _]. simpl. by rewrite Heq.
  - destruct (replacement_history c); [by intros [= <- _] [= <- _]|]. rewrite <-Heq.
    destruct (compacted _ _ _); try done. by intros [= <- _] [= <- _].
  - destruct e as [n| | | | |]; try by intros [= <- _] [= <- _].
    intros (a'&Ha&[= -> _])%result_bind_Ok (b'&Hb&[= -> _])%result_bind_Ok. by apply (rollback_same n h h').
Qed.

Lemma replay_same p l (h h' a b : history) g g' m m' :
  items h = items h' → replay p l (h, g) = Ok (a, m) → replay p l (h', g') = Ok (b, m') → items a = items b.
Proof.
  revert h h' g g'. induction l as [|i l IH]; intros h h' g g' Heq; [by intros [= <- _] [= <- _]|].
  cbn [Rollout.replay]. intros ([h1 g1]&H1&Ha)%result_bind_Ok ([h2 g2]&H2&Hb)%result_bind_Ok.
  exact (IH h1 h2 g1 g2 (step_same p i _ _ _ _ _ _ _ _ Heq H1 H2) Ha Hb).
Qed.

(** ** Checkpoints *)

Definition checkpoint (i : rollout_item) : option (list item) :=
  match i with Compacted c => replacement_history c | _ => None end.

(** Past a checkpoint it does not matter where a replay began. *)
Lemma replay_through p pre c post b (h h' a a' : history) g g' m m' :
  checkpoint c = Some b →
  replay p (pre ++ c :: post) (h, g) = Ok (a, m) → replay p post (h', g') = Ok (a', m') → items h' = b →
  items a = items a'.
Proof.
  intros Hc H Hp Hb. rewrite replay_app in H. apply result_bind_Ok in H as ([h1 g1]&_&H). cbn [Rollout.replay] in H.
  apply result_bind_Ok in H as ([h2 g2]&Hs&H). destruct c as [| |c| |]; try done. cbn [replay_item checkpoint] in *.
  rewrite Hc in Hs. injection Hs as <- <-. by apply (replay_same p post (replace b h1) h' _ _ _ _ _ _ (eq_sym Hb) H Hp).
Qed.

(** ** What the scan knows *)

Definition pending_base (s : @scan P Value Rest) : option (list item) := active_segment s ≫= segment_base.
Definition at_checkpoint (l : list rollout_item) (i : nat) : option (list item) := l !! i ≫= checkpoint.

(** Down to index [k]: either there was no checkpoint, or the suffix starts after
    one, which is the base unless there is a newer one or it was rolled back. *)
Definition scanned (l : list rollout_item) (k : nat) (s : scan) : Prop :=
  (base_replacement_history s = None ∧ pending_base s = None ∧ suffix_start s = 0 ∧ ∀ i, k ≤ i → at_checkpoint l i = None)
  ∨ ∃ j b, k ≤ j ∧ at_checkpoint l j = Some b ∧ suffix_start s = S j
      ∧ ((∀ i, j < i → at_checkpoint l i = None) →
         (base_replacement_history s = None ∨ base_replacement_history s = Some b)
         ∧ (pending_base s = None ∨ pending_base s = Some b)).

Lemma scan_item_bases k i (s : scan) :
  checkpoint i = None →
  let s' := scan_item k i s in
  suffix_start s' = suffix_start s
  ∧ (base_replacement_history s' = base_replacement_history s
     ∨ base_replacement_history s = None ∧ base_replacement_history s' = pending_base s)
  ∧ (pending_base s' = pending_base s ∨ pending_base s' = None).
Proof.
  intros Hc. unfold pending_base. destruct i as [|r|c|ctx|[n|id|id|id| |]]; cbn [checkpoint] in Hc; cbn [Rollout.scan_item];
    unfold segment; try (split_and!; by auto).
  - split_and!; [done|by left|]. simpl. destruct (active_segment s); by auto.
  - rewrite Hc. destruct (segment_base _) eqn:Hb; (split_and!; [done|by left|]); simpl; destruct (active_segment s); by auto.
  - split_and!; [done|by left|]. simpl. destruct (active_segment s) as [g|]; simpl; [destruct (turn_id g)|];
      case_match; by auto.
  - destruct (active_segment s) as [g|] eqn:Hg; [|rewrite Hg; by auto].
    destruct (turn_ids_are_compatible _ _); [|rewrite Hg; by auto].
    unfold finalize_active_segment. destruct (0 <? _)%Z; [destruct (counts_as_user_turn g); simpl; by auto|].
    simpl. destruct (base_replacement_history s); by auto.
  - split_and!; [done|by left|]. simpl. destruct (active_segment s) as [g|]; simpl; [destruct (turn_id g)|]; by auto.
  - destruct (active_segment s) as [g|] eqn:Hg; [|destruct id; simpl; rewrite ?Hg; by auto]. simpl.
    destruct (turn_id g), id; by auto.
  - split_and!; [done|by left|]. simpl. destruct (active_segment s); by auto.
Qed.

Lemma scanned_step l k i (s : scan) :
  l !! k = Some i → scanned l (S k) s → scanned l k (scan_item k i s).
Proof.
  intros Hi Hs. destruct (checkpoint i) as [b|] eqn:Hc.
  - assert (Hk : at_checkpoint l k = Some b) by (unfold at_checkpoint; by rewrite Hi).
    destruct i as [| |c| |]; try done. cbn [Rollout.scan_item checkpoint] in *. rewrite Hc. unfold segment.
    destruct (segment_base _) as [b'|] eqn:Hb.
    + assert (pending_base s = Some b') as Hpb by (unfold pending_base; destruct (active_segment s) as [g|]; done).
      destruct Hs as [(_&Hn&_)|(j&bj&Hj&Hcj&Hsuf&Hbase)]; [congruence|]. right. exists j, bj.
      split_and!; [lia|done|done|]. intros Hnew. destruct (Hbase Hnew) as [Hb1 Hb2]. split; [exact Hb1|].
      unfold pending_base. simpl. destruct (active_segment s); simpl in *; rewrite Hb; destruct Hb2; congruence || (right; congruence).
    + right. exists k, b. split_and!; [lia|done|simpl; lia|]. intros Hnew. simpl. split; [|by right].
      destruct Hs as [(Hn&_)|(j&bj&Hj&Hcj&_)]; [by left|]. rewrite (Hnew j) in Hcj by lia. done.
  - destruct (scan_item_bases k i s Hc) as (Hsuf&Hbase&Hpend).
    destruct Hs as [(Hb&Hp&H0&Hn)|(j&bj&Hj&Hcj&H0&Hnew)].
    + left. rewrite Hsuf. split_and!; [|destruct Hpend; congruence|done|].
      { destruct Hbase as [|[_ ?]]; congruence. }
      intros i' Hi'. destruct (decide (i' = k)) as [->|]; [unfold at_checkpoint; by rewrite Hi|apply Hn; lia].
    + right. exists j, bj. rewrite Hsuf. split_and!; [lia|done|done|]. intros Hn. destruct (Hnew Hn) as [Hb Hp].
      split; [destruct Hbase as [->|[_ ->]]; done|destruct Hpend as [->| ->]; auto].
Qed.

Lemma scanned_loop l k (s : scan) :
  k ≤ length l → scanned l k s →
  ∃ k', scanned l k' (scan_loop (reverse (take k l)) s) ∧ (k' = 0 ∨ complete (scan_loop (reverse (take k l)) s) = true).
Proof.
  revert s. induction k as [|k IH]; intros s Hk Hs; [exists 0; by auto|].
  destruct (lookup_lt_is_Some_2 l k) as [i Hi]; [lia|]. rewrite (take_S_r _ _ _ Hi), reverse_app.
  assert (Hlen : length (reverse (take k l)) = k) by (rewrite length_reverse, length_take; lia).
  cbn [reverse rev_append app Rollout.scan_loop]. rewrite Hlen. destruct (complete _) eqn:Hc.
  - exists k. split; [by apply scanned_step|]. by right.
  - apply IH; [lia|by apply scanned_step].
Qed.

Lemma scanned_finalize l k (s : scan) : scanned l k s → scanned l k (finalize s).
Proof.
  unfold finalize, scanned, pending_base. destruct (active_segment s) as [g|] eqn:Hg; [|by rewrite Hg].
  unfold finalize_active_segment. simpl. destruct (0 <? _)%Z.
  { intros [(Hb&Hp&Hs&Hi)|(j&b&Hj&Hc&Hs&Hn)]; [left|right; exists j, b];
      (destruct (counts_as_user_turn g); simpl; split_and!; try done;
       intros Hnew; destruct (Hn Hnew); split; by auto). }
  simpl. intros [(Hb&Hp&?&?)|(j&b&?&?&?&Hn)].
  - left. rewrite Hb. by split_and!.
  - right. exists j, b. split_and!; try done. intros Hnew. destruct (Hn Hnew) as [[-> | ->] Hp]; split; auto.
Qed.

Definition final_scan (l : list rollout_item) : scan := finalize (scan_loop (reverse l) scan_start).

(** The scan saw checkpoints, but only in turns that were rolled back, and went
    back to the oldest of them. *)
Definition forgotten (l : list rollout_item) : bool :=
  bool_decide (¬ is_Some (base_replacement_history (final_scan l))) && (0 <? suffix_start (final_scan l))
  && forallb (λ i, bool_decide (¬ is_Some (checkpoint i))) (drop (suffix_start (final_scan l)) l).

Lemma final_scanned l : ∃ k, scanned l k (final_scan l) ∧ (suffix_start (final_scan l) = 0 → k = 0).
Proof.
  assert (scanned l (length l) (@scan_start P Value Rest)) as Hstart.
  { left. split_and!; try done. intros i Hi. unfold at_checkpoint. by rewrite lookup_ge_None_2. }
  destruct (scanned_loop l (length l) _ (le_n _) Hstart) as (k&Hk&Hend).
  rewrite firstn_all in *. exists k. split; [by apply scanned_finalize|]. intros H0.
  destruct Hend as [->|Hc]; [done|]. unfold complete in Hc. apply andb_true_iff in Hc as [[Hb _]%andb_true_iff _].
  apply bool_decide_eq_true in Hb as [b Hb].
  apply scanned_finalize in Hk as Hk'. destruct Hk as [(?&_)|(j&bj&_&_&Hs&_)]; [congruence|].
  destruct Hk' as [(_&_&Hf&_)|(j'&b'&_&_&Hf&_)]; [|unfold final_scan in H0; congruence].
  exfalso. revert H0 Hs. unfold final_scan, finalize. destruct (active_segment _); [|congruence].
  unfold finalize_active_segment. simpl. destruct (0 <? _)%Z; [destruct (counts_as_user_turn _)|]; simpl; congruence.
Qed.

Lemma checkpoints_in l n :
  Forall (λ i, checkpoint i = None) (drop n l) ↔ ∀ i, n ≤ i → at_checkpoint l i = None.
Proof.
  rewrite Forall_lookup. split.
  - intros H i Hi. unfold at_checkpoint. destruct (l !! i) as [x|] eqn:Hx; [|done]. simpl.
    apply (H (i - n) x). rewrite lookup_drop. by replace (n + (i - n)) with i by lia.
  - intros H i x. rewrite lookup_drop. intros Hx. specialize (H (n + i) ltac:(lia)). unfold at_checkpoint in H. by rewrite Hx in H.
Qed.

(** Where the rebuilt history starts. *)
Lemma final_cases l :
  let s := final_scan l in
  (base_replacement_history s = None ∧ suffix_start s = 0 ∧ Forall (λ i, checkpoint i = None) l)
  ∨ ∃ pre c post b, l = pre ++ c :: post ∧ checkpoint c = Some b ∧ suffix_start s = S (length pre)
      ∧ (Forall (λ i, checkpoint i = None) post →
         base_replacement_history s = None ∨ base_replacement_history s = Some b).
Proof.
  intros s. subst s. destruct (final_scanned l) as (k&[(Hb&_&Hs&Hn)|(j&b&Hj&Hc&Hs&Hn)]&Hk).
  - left. specialize (Hk Hs) as ->. split_and!; [done..|]. apply (checkpoints_in l 0). done.
  - right. unfold at_checkpoint in Hc. destruct (l !! j) as [c|] eqn:Hl; [|done]. simpl in Hc.
    exists (take j l), c, (drop (S j) l), b. rewrite take_drop_middle by done.
    assert (length (take j l) = j) as -> by (apply length_take_le; apply lookup_lt_Some in Hl; lia).
    split_and!; try done. intros Hp. apply (Hn (proj1 (checkpoints_in l (S j)) Hp)).
Qed.

Lemma forgotten_spec l :
  forgotten l = true ↔ base_replacement_history (final_scan l) = None ∧ 0 < suffix_start (final_scan l)
    ∧ Forall (λ i, checkpoint i = None) (drop (suffix_start (final_scan l)) l).
Proof.
  unfold forgotten. rewrite !andb_true_iff, bool_decide_eq_true, Nat.ltb_lt, <-eq_None_not_Some, forallb_forall, Forall_forall.
  split; [intros [[Hb Hs] H]|intros (Hb&Hs&H)]; split_and!; try done; intros i Hi.
  - exact (proj2 (eq_None_not_Some _) (bool_decide_eq_true_1 _ (H i (proj1 (list_elem_of_In _ _) Hi)))).
  - apply bool_decide_eq_true_2, eq_None_not_Some, H, list_elem_of_In, Hi.
Qed.

(** Without rollbacks the newest checkpoint is the base. *)
Definition kept (s : @scan P Value Rest) : Prop :=
  pending_rollback_turns s = 0%Z
  ∧ (0 < suffix_start s → is_Some (base_replacement_history s) ∨ is_Some (pending_base s)).

Lemma kept_step k i (s : scan) : (∀ n, i ≠ Event (ThreadRolledBack n)) → kept s → kept (scan_item k i s).
Proof.
  intros Hi [Hp Hs]. unfold kept, pending_base in *.
  destruct i as [|r|c|ctx|[n|id|id|id| |]]; cbn [Rollout.scan_item]; unfold segment; try done.
  - split; [done|]. simpl. destruct (active_segment s); by auto.
  - destruct (active_segment s) as [g|]; simpl in *; [destruct (segment_base g) as [b|] eqn:Hb|];
      destruct (replacement_history c); simpl; rewrite ?Hb; eauto.
  - split; [done|]. simpl. destruct (active_segment s) as [g|]; simpl; [destruct (turn_id g)|]; case_match; by auto.
  - by destruct (Hi n).
  - destruct (active_segment s) as [g|] eqn:Hg; [|by rewrite ?Hg].
    destruct (turn_ids_are_compatible _ _); [|by rewrite ?Hg].
    unfold finalize_active_segment. simpl. rewrite Hp. simpl. split; [done|]. intros H. left.
    destruct (base_replacement_history s); [by eexists|]. destruct (Hs H) as [[]|]; done.
  - split; [done|]. simpl. destruct (active_segment s) as [g|]; simpl; [destruct (turn_id g)|]; by auto.
  - destruct (active_segment s) as [g|] eqn:Hg; [|destruct id; simpl; rewrite ?Hg; by auto]. split; [done|]. simpl.
    destruct (turn_id g), id; by auto.
  - split; [done|]. simpl. destruct (active_segment s); by auto.
Qed.

Lemma kept_loop l (s : scan) : (∀ n, Event (ThreadRolledBack n) ∉ l) → kept s → kept (scan_loop l s).
Proof.
  revert s. induction l as [|i l IH]; intros s Hl Hs; [done|]. cbn [Rollout.scan_loop].
  assert (kept (scan_item (length l) i s)) as Hi.
  { apply kept_step; [|done]. intros n ->. apply (Hl n). by left. }
  destruct (complete _); [done|]. apply IH; [|done]. intros n Hn. apply (Hl n). by right.
Qed.

Lemma no_rollback_remembers l : (∀ n, Event (ThreadRolledBack n) ∉ l) → forgotten l = false.
Proof.
  intros Hl. apply not_true_is_false. intros (Hb&Hs&_)%forgotten_spec.
  destruct (kept_loop (reverse l) scan_start) as [Hp Hk]; [by setoid_rewrite elem_of_reverse|by split; [|simpl; lia]|].
  unfold final_scan, finalize in *. unfold pending_base in Hk.
  destruct (active_segment (scan_loop _ _)) as [g|]; [|destruct (Hk Hs) as [[]|[? [=]]]; congruence].
  unfold finalize_active_segment in *. simpl in *. rewrite Hp in *. simpl in *.
  destruct (base_replacement_history _); [done|]. rewrite Hb in *. destruct (Hk Hs) as [[]|[]]; done.
Qed.

Lemma new_fits : Forall text_fits (items (@new P Value (TurnContextItem Rest))).
Proof. constructor. Qed.

(** The base is a checkpoint of the rollout. *)
Definition from_checkpoints (s : @scan P Value Rest) : Prop :=
  ∀ b, base_replacement_history s = Some b ∨ pending_base s = Some b → Forall text_fits b.

Lemma from_checkpoints_step k i (s : scan) :
  valid_rollout_item i → from_checkpoints s → from_checkpoints (scan_item k i s).
Proof.
  intros Hv Hs. destruct (checkpoint i) as [b|] eqn:Hc.
  - destruct i as [| |c| |]; try done. cbn [Rollout.scan_item checkpoint valid_rollout_item] in *. rewrite Hc in *.
    destruct Hv as [_ Hb]. unfold segment, from_checkpoints, pending_base in *.
    destruct (active_segment s) as [g|]; simpl in *; [destruct (segment_base g) eqn:H0|];
      simpl; rewrite ?H0; intros b' [Hb'|Hb']; simplify_eq/=; eauto.
  - destruct (scan_item_bases k i s Hc) as (_&Hb&Hp). intros b [H|H]; apply Hs.
    + destruct Hb as [<-|[_ Hb]]; [by left|right; congruence].
    + right. destruct Hp; congruence.
Qed.

Lemma from_checkpoints_loop l (s : scan) :
  Forall valid_rollout_item l → from_checkpoints s → from_checkpoints (scan_loop l s).
Proof.
  intros Hl. revert s. induction Hl as [|i l Hi Hl IH]; intros s Hs; [done|]. cbn [Rollout.scan_loop].
  pose proof (from_checkpoints_step (length l) i s Hi Hs). by destruct (complete _); [|apply IH].
Qed.

Lemma final_base_fits l b :
  Forall valid_rollout_item l → base_replacement_history (final_scan l) = Some b → Forall text_fits b.
Proof.
  intros Hl. assert (Hc : from_checkpoints (scan_loop (reverse l) scan_start)).
  { apply from_checkpoints_loop; [by apply Forall_reverse|]. by intros ? [|]. }
  unfold final_scan, finalize, from_checkpoints, pending_base in *. destruct (active_segment _) as [g|]; [|by eauto].
  unfold finalize_active_segment. simpl. destruct (0 <? _)%Z; [destruct (counts_as_user_turn g); simpl; by eauto|]. simpl.
  destruct (base_replacement_history _); simpl in *; eauto.
Qed.

Lemma checkpoint_dec l :
  Forall (λ i, checkpoint i = None) l ∨ ∃ pre c post b, l = pre ++ c :: post ∧ checkpoint c = Some b.
Proof.
  induction l as [|i l [IH|(pre&c&post&b&->&Hc)]]; [by left| |].
  - destruct (checkpoint i) as [b|] eqn:Hi; [right|left; by constructor]. by exists [], i, l, b.
  - right. by exists (i :: pre), c, post, b.
Qed.

(** ** Stopping early *)

(** The scan of the whole rollout. *)
Fixpoint scan_all (rev_items : list rollout_item) (s : @scan P Value Rest) : scan :=
  match rev_items with [] => s | i :: rest => scan_all rest (scan_item (length rest) i s) end.
Definition full_scan (l : list rollout_item) : scan := finalize (scan_all (reverse l) scan_start).

(** What is set stays. *)
Definition extends (s s' : @scan P Value Rest) : Prop :=
  (is_Some (base_replacement_history s) → base_replacement_history s' = base_replacement_history s)
  ∧ (is_Some (previous_turn_settings s) → previous_turn_settings s' = previous_turn_settings s)
  ∧ (never_set (reference s) = false → reference s' = reference s).

Lemma extends_refl s : extends s s.
Proof. done. Qed.
Lemma extends_trans s s' s'' : extends s s' → extends s' s'' → extends s s''.
Proof.
  intros (Hb&Hp&Hr) (Hb'&Hp'&Hr'). split_and!.
  - intros H. specialize (Hb H). rewrite <-Hb in H. by rewrite (Hb' H).
  - intros H. specialize (Hp H). rewrite <-Hp in H. by rewrite (Hp' H).
  - intros H. specialize (Hr H). rewrite <-Hr in H. by rewrite (Hr' H).
Qed.

Lemma finalize_extends g (s : @scan P Value Rest) : extends s (finalize_active_segment g (with_active None s)).
Proof.
  unfold finalize_active_segment, extends. simpl. destruct (0 <? _)%Z; [by destruct (counts_as_user_turn g)|]. simpl.
  split_and!; [by intros [b ->]|by intros [x ->]|by intros ->].
Qed.

Lemma scan_item_extends k i (s : scan) : extends s (scan_item k i s).
Proof.
  destruct i as [|r|c|ctx|[n|id|id|id| |]]; cbn [Rollout.scan_item]; try done.
  - destruct (segment_base _); [done|]. by destruct (replacement_history c).
  - destruct (active_segment s); [|done]. destruct (turn_ids_are_compatible _ _); [apply finalize_extends|done].
  - destruct (active_segment s); [done|]. by destruct id.
Qed.

Lemma scan_all_extends l (s : scan) : extends s (scan_all l s).
Proof.
  revert s. induction l as [|i l IH]; intros s; [apply extends_refl|].
  exact (extends_trans _ _ _ (scan_item_extends (length l) i s) (IH _)).
Qed.

Lemma finalized_extends (s : @scan P Value Rest) : extends s (finalize s).
Proof. unfold finalize. destruct (active_segment s); [apply finalize_extends|apply extends_refl]. Qed.

Lemma early_stop l (s : scan) :
  let early := finalize (scan_loop l s) in let full := finalize (scan_all l s) in
  base_replacement_history early = base_replacement_history full
  ∧ previous_turn_settings early = previous_turn_settings full ∧ reference early = reference full.
Proof.
  intros early full. subst early full. revert s. induction l as [|i l IH]; intros s; [done|]. cbn [Rollout.scan_loop scan_all].
  destruct (complete _) eqn:Hc; [|apply IH].
  destruct (scan_all_extends l (scan_item (length l) i s)) as (Hb&Hp&Hr).
  destruct (finalized_extends (scan_item (length l) i s)) as (Hb1&Hp1&Hr1).
  destruct (finalized_extends (scan_all l (scan_item (length l) i s))) as (Hb2&Hp2&Hr2).
  unfold complete in Hc. rewrite !andb_true_iff, !bool_decide_eq_true, negb_true_iff in Hc. destruct Hc as [[Cb Cp] Cr].
  rewrite Hb1, Hp1, Hr1, Hb2, Hp2, Hr2, Hb, Hp, Hr; try done; rewrite ?Hb, ?Hp, ?Hr; done.
Qed.

(** *** The rebuilt history *)

Lemma reconstruct_history p l :
  Forall valid_rollout_item l →
  ∃ h g r, replay p l (new, false) = Ok (h, g) ∧ reconstruct p l = Ok r
    ∧ rebuilt_settings r = previous_turn_settings (full_scan l)
    ∧ (∀ ctx, rebuilt_reference r = Some ctx → reference (full_scan l) = Latest ctx)
    ∧ (forgotten l = false → rebuilt r = items h)
    ∧ (forgotten l = true → ∃ pre c post h' g', l = pre ++ c :: post ∧ is_Some (checkpoint c)
        ∧ Forall (λ i, checkpoint i = None) post ∧ replay p post (new, false) = Ok (h', g') ∧ rebuilt r = items h').
Proof.
  intros Hl. destruct (replay_total p l new false Hl new_fits) as (h&g&Hh&_).
  unfold reconstruct_history_from_rollout. fold (final_scan l). pose proof (final_cases l) as Hcases. cbn zeta in Hcases.
  pose proof (forgotten_spec l) as Hf.
  destruct (early_stop (reverse l) scan_start) as (_&Hsettings&Href). fold (final_scan l) (full_scan l) in Hsettings, Href.
  rewrite Hsettings, Href.
  assert (Hctx : ∀ (legacy : bool) ctx,
    (if legacy then None else match reference (full_scan l) with Latest ctx => Some ctx | _ => None end) = Some ctx →
    reference (full_scan l) = Latest ctx) by (intros [] ctx; by destruct (reference (full_scan l)); intros [=->]).
  destruct Hcases as [(Hb&Hs&Hn)|(pre&c&post&b&Heq&Hc&Hs&Hbase)].
  - rewrite Hb, Hs, drop_0 in *. rewrite Hh. simpl. exists h, g. eexists. split_and!; try done; [exact (Hctx g)|].
    intros Hft. apply Hf in Hft as (_&?&_). lia.
  - rewrite Hs in *. assert (Hdrop : drop (S (length pre)) l = post).
    { rewrite Heq. change (c :: post) with ([c] ++ post). rewrite app_assoc. apply drop_app_length'. rewrite length_app. simpl. lia. }
    rewrite Hdrop in *.
    assert (Forall valid_rollout_item post ∧ valid_rollout_item c) as [Hpost Hvc].
    { rewrite Heq in Hl. apply Forall_app in Hl as [_ Hl]. inversion Hl. auto. }
    set (start := match base_replacement_history (final_scan l) with Some b => replace b new | None => new end).
    assert (Hstart : Forall text_fits (items start)).
    { unfold start. destruct (base_replacement_history (final_scan l)) eqn:Hb; [|constructor].
      exact (final_base_fits l _ Hl Hb). }
    destruct (replay_total p post start false Hpost Hstart) as (h1&g1&H1&_).
    rewrite H1. simpl. exists h, g. eexists. split_and!; try done; simpl; [exact (Hctx g1)| |].
    + intros Hft. symmetry. destruct (checkpoint_dec post) as [Hn|(p1&c'&p2&b'&->&Hc')].
      * destruct (Hbase Hn) as [Hb|Hb].
        { destruct Hf as [_ Hf]. rewrite Hf in Hft; [done|]. split_and!; [done|lia|done]. }
        rewrite Heq in Hh. apply (replay_through p pre c post b new start h h1 _ _ _ _ Hc Hh H1). unfold start. by rewrite Hb.
      * destruct (replay_total p p2 (replace b' new) false) as (h2&g2&H2&_).
        { apply Forall_app in Hpost as [_ Hpost]. by inversion Hpost. }
        { apply Forall_app in Hpost as [_ Hpost]. inversion Hpost as [|? ? Hvc' _]. destruct c' as [| |c'| |]; try done.
          cbn [checkpoint valid_rollout_item] in *. rewrite Hc' in Hvc'. apply Hvc'. }
        rewrite Heq in Hh. change (pre ++ c :: p1 ++ c' :: p2) with (pre ++ (c :: p1) ++ c' :: p2) in Hh.
        rewrite app_assoc in Hh.
        etrans; [exact (replay_through p _ c' p2 b' new (replace b' new) h h2 _ _ _ _ Hc' Hh H2 eq_refl)|].
        symmetry. exact (replay_through p p1 c' p2 b' start (replace b' new) h1 h2 _ _ _ _ Hc' H1 H2 eq_refl).
    + intros Hft. apply Hf in Hft as (Hb&_&Hn). exists pre, c, post. unfold start in H1. rewrite Hb in H1.
      exists h1, g1. split_and!; try done.
Qed.
End Facts.

(** ** The claims *)

Section Claims.
Context {P Value Rest : Type}.
Variable from_xml_str : str → option (str * str).
Variable inter_agent_json : str → option bool.
Variable no_fields : P.
Variable SUMMARY_PREFIX : str.
Abbreviation replay := (@replay P Value Rest from_xml_str inter_agent_json no_fields SUMMARY_PREFIX).
Abbreviation reconstruct :=
  (@reconstruct_history_from_rollout P Value Rest from_xml_str inter_agent_json no_fields SUMMARY_PREFIX).
Abbreviation forgotten := (forgotten from_xml_str inter_agent_json).

(** C25. Rebuilding a history from a rollout never panics and gives the
    history of replaying the whole rollout from its beginning, with the
    settings and at most the reference context of reading all of it, however
    early the reading stops. The one exception: when every checkpoint it read
    was in a rolled back turn and nothing older has one, only what came after
    that checkpoint is replayed; without rollbacks that does not happen. *)
Theorem reconstruction_replays p (l : list (@RolloutItem P Value Rest))
    (Hvalid : Forall (valid_rollout_item from_xml_str) l) :
  ∃ h legacy r, replay p l (new, false) = Ok (h, legacy) ∧ reconstruct p l = Ok r
    ∧ rebuilt_settings r = previous_turn_settings (full_scan from_xml_str inter_agent_json l)
    ∧ (∀ ctx, rebuilt_reference r = Some ctx → reference (full_scan from_xml_str inter_agent_json l) = Latest ctx)
    ∧ (forgotten l = false → rebuilt r = items h)
    ∧ (forgotten l = true → ∃ pre c post h' legacy', l = pre ++ c :: post ∧ is_Some (checkpoint c)
        ∧ Forall (λ i, checkpoint i = None) post ∧ replay p post (new, false) = Ok (h', legacy') ∧ rebuilt r = items h')
    ∧ ((∀ n, Event (ThreadRolledBack n) ∉ l) → forgotten l = false).
Proof.
  destruct (reconstruct_history from_xml_str inter_agent_json no_fields SUMMARY_PREFIX p l Hvalid)
    as (h&g&r&?&?&?&?&?&?).
  exists h, g, r. split_and!; try done. apply no_rollback_remembers.
Qed.
End Claims.

(** ** A turn that is compacted and rolled back *)

Definition user (text : string) : @ResponseItem unit unit := user_text_message tt (lit text).
Definition first_turn : list (@RolloutItem unit unit unit) :=
  [Event (TurnStarted (lit "1")); Event UserMessage; Response (user "first"); Event (TurnComplete (lit "1"))].
Definition compacted_turn : list (@RolloutItem unit unit unit) :=
  [Event (TurnStarted (lit "2")); Event UserMessage; Response (user "second");
   Compacted {| message := lit "summary"; replacement_history := Some [user "first"; user "second"; user "summary"] |};
   Event (TurnComplete (lit "2"))].
Definition no_xml (_ : str) : option (str * str) := None.
Definition no_json (_ : str) : option bool := None.
Abbreviation rebuild l := (reconstruct_history_from_rollout no_xml no_json tt (lit "Summary:") (Bytes 1000) l).

(** Before the rollback the history is the compacted one; after it the first turn
    is gone too. *)
Example compacted_turn_resumes :
  rebuilt <$> rebuild (first_turn ++ compacted_turn) = Ok [user "first"; user "second"; user "summary"].
Proof. vm_compute. reflexivity. Qed.
Example uncompacted_turn_rolls_back :
  rebuilt <$> rebuild (first_turn ++ take 3 compacted_turn ++ [Event (ThreadRolledBack 1)]) = Ok [user "first"].
Proof. vm_compute. reflexivity. Qed.
Example compacted_turn_rolls_back :
  rebuilt <$> rebuild (first_turn ++ compacted_turn ++ [Event (ThreadRolledBack 1)]) = Ok [].
Proof. vm_compute. reflexivity. Qed.

Lemma valid_user text : (blen (lit text) ≤ i64_max)%Z → text_fits no_xml (user text).
Proof. apply user_text_fits. Qed.

Lemma reconstruction_replays_witness :
  ∃ r, rebuild (first_turn ++ compacted_turn) = Ok r ∧ rebuilt r = [user "first"; user "second"; user "summary"].
Proof.
  destruct (reconstruction_replays no_xml no_json tt (lit "Summary:") (Bytes 1000) (first_turn ++ compacted_turn))
    as (h&g&r&Hh&Hr&_&_&Hf&_&Hn).
  - repeat constructor; try done; apply valid_user; done.
  - exists r. split; [exact Hr|]. rewrite Hf; [|apply Hn; intros n Hin; repeat (apply elem_of_cons in Hin as [[=]|Hin]); set_solver].
    vm_compute in Hh. by injection Hh as <- _.
Defined.
