(* ===== verification/RolloutTurns.v ===== *)
(** * Compacted histories and cut rollouts

    What compaction keeps and where it puts the initial context, and the turns a
    cut rollout has. *)
From S2P Require Import Prelude Str Truncate TruncateFacts History HistoryFacts Rollout RolloutFacts.
Import Truncate History Rollout.

Section Turns.
Context {P Value Rest : Type}.
Abbreviation item := (@ResponseItem P Value).
Abbreviation rollout_item := (@RolloutItem P Value Rest).
Variable from_xml_str : str → option (str * str).
Variable inter_agent_json : str → option bool.
Variable no_fields : P.
Variable SUMMARY_PREFIX : str.
Abbreviation parse := (@parse_user_item P Value from_xml_str).
Abbreviation boundary := (@is_user_turn_boundary P Value from_xml_str (is_inter_agent_json inter_agent_json)).
Abbreviation user_positions_from := (@user_positions_from P Value Rest from_xml_str).
Abbreviation user_position_step := (@user_position_step P Value Rest from_xml_str).
Abbreviation fork_positions_from := (@fork_positions_from P Value Rest from_xml_str inter_agent_json).
Abbreviation fork_position_step := (@fork_position_step P Value Rest from_xml_str inter_agent_json).

(** ** What compaction keeps *)

Definition tokens (l : list str) : Z := foldr (λ m n, approx_token_count m + n)%Z 0%Z l.

(** The messages kept, latest first: those that fit, and the beginning and the
    end of the first that does not. *)
Lemma select_spec r l :
  (0 ≤ r ≤ COMPACT_USER_MESSAGE_MAX_TOKENS)%Z → Forall (λ m, blen m ≤ i64_max)%Z l →
  ∃ recent cut older, l = recent ++ older ∧ select_messages r l = Ok (recent ++ cut)
    ∧ (tokens recent ≤ r)%Z
    ∧ (cut = [] ∧ (older = [] ∨ tokens recent = r)
       ∨ ∃ m older' t, older = m :: older' ∧ cut = [t] ∧ (0 < r - tokens recent < approx_token_count m)%Z
           ∧ truncate_text m (Tokens (r - tokens recent)) = Ok t).
Proof.
  intros Hr Hl. revert r Hr. induction Hl as [|m l Hm Hl IH]; intros r Hr; cbn [select_messages].
  { exists [], [], []. split_and!; [done..|simpl; lia|by left; auto]. }
  destruct (r =? 0)%Z eqn:Hz.
  { apply Z.eqb_eq in Hz as ->. exists [], [], (m :: l). split_and!; [done..|]. left. by auto. }
  apply Z.eqb_neq in Hz. destruct (approx_token_count m <=? r)%Z eqn:Hfit.
  - apply Z.leb_le in Hfit. pose proof (token_count_nonneg m). unfold saturating_sub. rewrite Z.max_l by lia.
    destruct (IH (r - approx_token_count m)%Z) as (recent&cut&older&->&->&Ht&Hc); [lia|].
    exists (m :: recent), cut, older. split_and!; [done|done|simpl; lia|].
    destruct Hc as [[-> [->|Hc]]|(m'&older'&t&->&->&Hc&Hcut)]; [left; by auto|left; split; [done|right; simpl; lia]|right].
    exists m', older', t. replace (r - tokens (m :: recent))%Z with (r - approx_token_count m - tokens recent)%Z by (simpl; lia).
    destruct Hc. by split_and!.
  - apply Z.leb_gt in Hfit. unfold COMPACT_USER_MESSAGE_MAX_TOKENS in Hr.
    destruct (truncate_text_spec m (Tokens r)) as (out&Hout&_); [simpl; unfold usize_max; lia|unfold i64_max, usize_max in *; lia|].
    rewrite Hout. exists [], [out], (m :: l). split_and!; [done|done|simpl; lia|]. right. exists m, l, out.
    rewrite Z.sub_0_r. split_and!; [done|done|lia|lia|done].
Qed.

Lemma compacted_history_spec (initial : list item) user_messages summary :
  Forall (λ m, blen m ≤ i64_max)%Z user_messages →
  ∃ older cut recent, user_messages = older ++ recent
    ∧ build_compacted_history no_fields initial user_messages summary
      = Ok (initial ++ (user_text_message no_fields <$> cut ++ recent)
            ++ [user_text_message no_fields (if bool_decide (summary = []) then lit "(no summary available)" else summary)])
    ∧ (tokens recent ≤ COMPACT_USER_MESSAGE_MAX_TOKENS)%Z
    ∧ (cut = [] ∧ (older = [] ∨ tokens recent = COMPACT_USER_MESSAGE_MAX_TOKENS)
       ∨ ∃ older' m t, older = older' ++ [m] ∧ cut = [t]
           ∧ (0 < COMPACT_USER_MESSAGE_MAX_TOKENS - tokens recent < approx_token_count m)%Z
           ∧ truncate_text m (Tokens (COMPACT_USER_MESSAGE_MAX_TOKENS - tokens recent)) = Ok t).
Proof.
  intros Hl. unfold build_compacted_history, build_compacted_history_with_limit. simpl.
  destruct (select_spec COMPACT_USER_MESSAGE_MAX_TOKENS (reverse user_messages)) as (recent&cut&older&Hr&->&Ht&Hc);
    [done|by apply Forall_reverse|].
  assert (Htok : tokens (reverse recent) = tokens recent).
  { clear. unfold tokens. induction recent as [|m l IH]; [done|]. rewrite reverse_cons, foldr_app. simpl. rewrite <-IH.
    generalize (approx_token_count m). clear. intros n. induction (reverse l); simpl; lia. }
  exists (reverse older), (reverse cut), (reverse recent). rewrite Htok. split_and!; [| |done|].
  - by rewrite <-reverse_app, <-Hr, reverse_involutive.
  - simpl. by rewrite <-reverse_app.
  - destruct Hc as [[-> [->|Hc]]|(m&older'&t&->&->&Hc&Hcut)]; [left; by auto..|right].
    exists (reverse older'), m, t. rewrite reverse_cons. destruct Hc. by split_and!.
Qed.

(** ** Where the initial context goes *)

Definition real_user (i : item) : bool :=
  match parse i with Some c => negb (is_summary_message SUMMARY_PREFIX (user_message c)) | None => false end.
Definition user_or_summary (i : item) : bool := bool_decide (is_Some (parse i)).

(** The last item of a kind, at the head of [post]. *)
Definition last_at (p : item → bool) (post : list item) : Prop :=
  ∃ i rest, post = i :: rest ∧ p i = true ∧ Forall (λ j, p j = false) rest.

Lemma rposition_spec (p : item → bool) l :
  match rposition p l with
  | Some n => last_at p (drop n l)
  | None => Forall (λ i, p i = false) l
  end.
Proof.
  induction l as [|i l IH]; simpl; [done|]. destruct (rposition p l) as [n|]; [exact IH|].
  destruct (p i) eqn:Hi; [|by constructor]. by exists i, l.
Qed.

Lemma last_user_positions_spec l r o :
  last_user_positions from_xml_str SUMMARY_PREFIX (reverse l) o = r →
  (∀ n, o = Some n → length l ≤ n) →
  match r.1 with Some n => last_at real_user (drop n l) | None => Forall (λ i, real_user i = false) l end
  ∧ (o = None → r.1 = None →
     match r.2 with Some n => last_at user_or_summary (drop n l) | None => Forall (λ i, user_or_summary i = false) l end).
Proof.
  revert r o. induction l as [|i l IH] using rev_ind; intros r o Hr Ho; [by subst r; simpl; split; [|intros ->]|].
  rewrite reverse_snoc in Hr. cbn [last_user_positions] in Hr. rewrite length_reverse in Hr.
  assert (Hdrop : ∀ n, n ≤ length l → drop n (l ++ [i]) = drop n l ++ [i]) by (intros n Hn; by rewrite drop_app_le).
  assert (Hlast : ∀ (q : item → bool) n, q i = false → last_at q (drop n l) → last_at q (drop n (l ++ [i]))).
  { intros q n Hq (j&rest&Hd&Hj&Hrest). exists j, (rest ++ [i]). rewrite Hdrop, Hd; [split_and!; [done|done|]|].
    - apply Forall_app. by repeat constructor.
    - destruct (decide (n ≤ length l)); [done|]. by rewrite drop_ge in Hd by lia. }
  assert (Hhead : ∀ (q : item → bool), q i = true → last_at q (drop (length l) (l ++ [i]))).
  { intros q Hq. rewrite drop_app_length. exists i, []. by split_and!. }
  assert (Hnone : ∀ (q : item → bool), q i = false → Forall (λ j, q j = false) l → Forall (λ j, q j = false) (l ++ [i])).
  { intros q Hq Hl. apply Forall_app. by repeat constructor. }
  unfold real_user, user_or_summary in *. destruct (parse i) as [c|] eqn:Hi.
  - destruct (is_summary_message _ _) eqn:Hs.
    + destruct (IH r (Some (default (length l) o)) Hr) as [H1 _].
      { intros n [= <-]. destruct o as [m|]; simpl; [|done]. specialize (Ho m eq_refl). rewrite length_app in Ho. lia. }
      split; [destruct r.1; [apply Hlast|apply Hnone]; rewrite ?Hi, ?Hs; done|]. intros -> Hr1. simpl in Hr.
      assert (Hkeep : ∀ (k : list item) m x, last_user_positions from_xml_str SUMMARY_PREFIX k (Some m) = x → x.2 = Some m).
      { clear. induction k as [|j k IHk]; intros m x <-; [done|]. simpl. destruct (parse j); [|by apply IHk].
        simpl. destruct (is_summary_message _ _); [by apply IHk|done]. }
      rewrite (Hkeep _ _ _ Hr). apply Hhead. rewrite Hi. by apply bool_decide_eq_true.
    + subst r. simpl. split; [|done]. apply Hhead. by rewrite Hi, Hs.
  - destruct (IH r o Hr) as [H1 H2].
    { intros n Hn. specialize (Ho n Hn). rewrite length_app in Ho. lia. }
    split.
    + destruct r.1; [apply Hlast|apply Hnone]; rewrite ?Hi; done.
    + intros Hn Hr1. specialize (H2 Hn Hr1). destruct r.2; [apply Hlast|apply Hnone]; rewrite ?Hi; done.
Qed.

Lemma inserted_context (compacted initial : list item) :
  ∃ pre post, compacted = pre ++ post
    ∧ insert_initial_context_before_last_real_user_or_summary from_xml_str SUMMARY_PREFIX compacted initial
      = pre ++ initial ++ post
    ∧ (last_at real_user post
       ∨ Forall (λ i, real_user i = false) compacted
         ∧ (last_at user_or_summary post
            ∨ Forall (λ i, user_or_summary i = false) compacted
              ∧ (last_at is_compaction post ∨ Forall (λ i, is_compaction i = false) compacted ∧ post = []))).
Proof.
  unfold insert_initial_context_before_last_real_user_or_summary.
  destruct (last_user_positions _ _ _ None) as [u s] eqn:Hp.
  destruct (last_user_positions_spec compacted (u, s) None Hp) as [Hu Hs]; [done|]. simpl in *.
  destruct u as [n|].
  { exists (take n compacted), (drop n compacted). rewrite take_drop. split_and!; [done..|]. by left. }
  specialize (Hs eq_refl eq_refl). destruct s as [n|].
  { exists (take n compacted), (drop n compacted). rewrite take_drop. split_and!; [done..|]. right. by auto. }
  pose proof (rposition_spec is_compaction compacted) as Hc. destruct (rposition _ _) as [n|].
  { exists (take n compacted), (drop n compacted). rewrite take_drop. split_and!; [done..|]. right. split; [done|]. right. by auto. }
  exists compacted, []. rewrite !app_nil_r. split_and!; [done..|]. right. split; [done|]. right. by auto.
Qed.

(** ** Cutting before a user message *)

Lemma user_step_bound idx (i : rollout_item) ps :
  Forall (λ p, p < idx) ps → Forall (λ p, p < S idx) (user_position_step idx i ps).
Proof.
  intros Hps. assert (Forall (λ p, p < S idx) ps) as H by (eapply Forall_impl; [exact Hps|]; intros p Hp; cbn beta in *; lia).
  unfold Rollout.user_position_step. destruct i as [|r| | |[]]; try done.
  - destruct (_ && _); [|done]. apply Forall_app. split; [done|]. by constructor; [lia|].
  - by apply Forall_take.
Qed.

(** A position that is never rolled back keeps those before it. *)
Lemma user_positions_below idx (l : list rollout_item) ps n x :
  Forall (λ p, p < idx) ps → user_positions_from idx l ps !! n = Some x → x < idx →
  take (S n) (user_positions_from idx l ps) = take (S n) ps.
Proof.
  revert idx ps. induction l as [|i l IH]; intros idx ps Hps Hx Hlt; [done|]. cbn [Rollout.user_positions_from] in *.
  pose proof (IH (S idx) _ (user_step_bound idx i ps Hps) Hx ltac:(lia)) as Htake. rewrite Htake.
  assert (Hn : user_position_step idx i ps !! n = Some x).
  { rewrite <-Hx, <-(lookup_take_lt _ (S n) n), <-Htake, lookup_take_lt by lia. done. }
  unfold Rollout.user_position_step in *. destruct i as [|r| | |[]]; try done.
  - destruct (_ && _); [|done]. apply take_app_le. apply lookup_app_Some in Hn as [Hn|[_ Hn]].
    + apply lookup_lt_Some in Hn. lia.
    + apply list_lookup_singleton_Some in Hn as [_ <-]. lia.
  - apply lookup_take_Some in Hn as [Hn ?]. rewrite take_take. f_equal. lia.
Qed.

Lemma user_positions_cut idx (l : list rollout_item) ps n x :
  Forall (λ p, p < idx) ps → user_positions_from idx l ps !! n = Some x → idx ≤ x →
  user_positions_from idx (take (x - idx) l) ps = take n (user_positions_from idx l ps).
Proof.
  revert idx ps. induction l as [|i l IH]; intros idx ps Hps Hx Hle; cbn [Rollout.user_positions_from] in *.
  { rewrite Forall_lookup in Hps. specialize (Hps _ _ Hx). lia. }
  pose proof (user_step_bound idx i ps Hps) as Hstep.
  destruct (decide (x = idx)) as [->|].
  - rewrite Nat.sub_diag. cbn [take Rollout.user_positions_from].
    pose proof (user_positions_below (S idx) l _ n idx Hstep Hx ltac:(lia)) as Htake.
    assert (Hn : user_position_step idx i ps !! n = Some idx).
    { rewrite <-Hx, <-(lookup_take_lt _ (S n) n), <-Htake, lookup_take_lt by lia. done. }
    assert (user_position_step idx i ps = ps ++ [idx] ∧ n = length ps) as [Hps' ->].
    { assert (∀ m, ps !! m ≠ Some idx) as Hno by (intros m Hm; rewrite Forall_lookup in Hps; specialize (Hps _ _ Hm); lia).
      unfold Rollout.user_position_step in *. destruct i as [|r| | |[]]; try by destruct (Hno n).
      - destruct (_ && _); [|by destruct (Hno n)]. split; [done|]. apply lookup_app_Some in Hn as [Hn|[Hl Hn]]; [by destruct (Hno n)|].
        apply list_lookup_singleton_Some in Hn as [? _]. lia.
      - apply lookup_take_Some in Hn as [Hn _]. by destruct (Hno n). }
    rewrite Hps' in Htake. rewrite Hps'.
    replace (take (length ps) (user_positions_from (S idx) l (ps ++ [idx])))
      with (take (length ps) (take (S (length ps)) (user_positions_from (S idx) l (ps ++ [idx])))) by (rewrite take_take; f_equal; lia).
    rewrite Htake, take_take. rewrite Nat.min_l by lia. by rewrite take_app_length.
  - replace (x - idx) with (S (x - S idx)) by lia. cbn [take Rollout.user_positions_from]. apply IH; [done|done|lia].
Qed.

Lemma user_truncation (l : list rollout_item) (n : nat) :
  ∃ l', truncate_rollout_before_nth_user_message_from_start from_xml_str l (Z.of_nat n) = Ok l'
    ∧ l' `prefix_of` l
    ∧ (Z.of_nat n = usize_max ∨
       user_message_positions_in_rollout from_xml_str l' = take n (user_message_positions_in_rollout from_xml_str l)).
Proof.
  unfold truncate_rollout_before_nth_user_message_from_start. destruct (Z.eqb_spec (Z.of_nat n) usize_max) as [|Hmax].
  { exists l. split_and!; by auto. }
  unfold user_message_positions_in_rollout. set (ps := user_positions_from 0 l []).
  destruct (Z.leb_spec (Z.of_nat (length ps)) (Z.of_nat n)) as [Hle|Hlt].
  { exists l. split_and!; [done|done|]. right. symmetry. apply take_ge. unfold ps in *. lia. }
  rewrite Nat2Z.id. destruct (lookup_lt_is_Some_2 ps n) as [x Hx]; [lia|]. rewrite Hx. simpl. exists (take x l).
  split_and!; [done|apply prefix_take|right].
  pose proof (user_positions_cut 0 l [] n x (Forall_nil_2 _) Hx ltac:(lia)) as H. by rewrite Nat.sub_0_r in H.
Qed.
End Turns.

(** ** The claims *)

Section Claims.
Context {P Value Rest : Type}.
Variable from_xml_str : str → option (str * str).
Variable no_fields : P.
Variable SUMMARY_PREFIX : str.
Abbreviation item := (@ResponseItem P Value).

(** A compacted history is the initial context, the user messages from the
    latest back that fit the token budget in their order, preceded by the
    beginning and end of the first that does not fit, and the summary. *)
Theorem compaction_keeps_recent_messages (initial : list item) user_messages summary
    (Hsizes : Forall (λ m, blen m ≤ i64_max)%Z user_messages) :
  ∃ older cut recent, user_messages = older ++ recent
    ∧ build_compacted_history no_fields initial user_messages summary
      = Ok (initial ++ (user_text_message no_fields <$> cut ++ recent)
            ++ [user_text_message no_fields (if bool_decide (summary = []) then lit "(no summary available)" else summary)])
    ∧ (tokens recent ≤ COMPACT_USER_MESSAGE_MAX_TOKENS)%Z
    ∧ (cut = [] ∧ (older = [] ∨ tokens recent = COMPACT_USER_MESSAGE_MAX_TOKENS)
       ∨ ∃ older' m t, older = older' ++ [m] ∧ cut = [t]
           ∧ (0 < COMPACT_USER_MESSAGE_MAX_TOKENS - tokens recent < approx_token_count m)%Z
           ∧ truncate_text m (Tokens (COMPACT_USER_MESSAGE_MAX_TOKENS - tokens recent)) = Ok t).
Proof. exact (compacted_history_spec no_fields initial user_messages summary Hsizes). Qed.

(** The initial context is put right before the last real user message of
    a compacted history, if there is none before the last summary, then before
    the last compaction item, else at the end; nothing else changes. *)
Theorem initial_context_placed (compacted initial : list item) :
  ∃ pre post, compacted = pre ++ post
    ∧ insert_initial_context_before_last_real_user_or_summary from_xml_str SUMMARY_PREFIX compacted initial
      = pre ++ initial ++ post
    ∧ (last_at (real_user from_xml_str SUMMARY_PREFIX) post
       ∨ Forall (λ i, real_user from_xml_str SUMMARY_PREFIX i = false) compacted
         ∧ (last_at (user_or_summary from_xml_str) post
            ∨ Forall (λ i, user_or_summary from_xml_str i = false) compacted
              ∧ (last_at is_compaction post ∨ Forall (λ i, is_compaction i = false) compacted ∧ post = []))).
Proof. apply inserted_context. Qed.

(** Cutting a rollout before its nth user message never panics and leaves
    a prefix whose user messages, rollbacks counted, are exactly the first n
    (all of the rollout for the largest n). *)
Theorem user_truncation_keeps_turns (l : list (@RolloutItem P Value Rest)) (n : nat) :
  ∃ l', truncate_rollout_before_nth_user_message_from_start from_xml_str l (Z.of_nat n) = Ok l'
    ∧ l' `prefix_of` l
    ∧ (Z.of_nat n = usize_max ∨
       user_message_positions_in_rollout from_xml_str l' = take n (user_message_positions_in_rollout from_xml_str l)).
Proof. apply user_truncation. Qed.
End Claims.

Lemma compaction_keeps_recent_messages_witness :
  ∃ (older cut recent : list str), [lit "one"; lit "two"] = older ++ recent ∧ (tokens recent ≤ COMPACT_USER_MESSAGE_MAX_TOKENS)%Z
    ∧ (cut = [] → older = [] ∨ tokens recent = COMPACT_USER_MESSAGE_MAX_TOKENS).
Proof.
  destruct (compaction_keeps_recent_messages (P:=unit) (Value:=unit) tt [] [lit "one"; lit "two"] (lit "done"))
    as (older&cut&recent&H&_&Ht&Hc).
  - repeat constructor; by vm_compute.
  - exists older, cut, recent. split_and!; [done|done|]. intros ->. destruct Hc as [[_ ?]|(?&?&?&_&?&_)]; [done|discriminate].
Defined.
