(* ===== verification/LegacyPolicy.v ===== *)
(** * The legacy execution policy

    Models the crate [execpolicy-legacy]: matching the arguments of a command
    against the specification of its program, the policy that holds the
    specifications, and the check of the files a command names.  Regular
    expressions, canonical paths and the file system are parameters. *)
From S2P Require Import Prelude Str Paths NetAddr.
Import Paths.

Module LegacyPolicy.

(** ** Arguments *)

Inductive ArgType : Type :=
| TypeLiteral (value : str)
| TypeOpaqueNonFile
| TypeReadableFile
| TypeWriteableFile
| TypePositiveInteger
| TypeSedCommand
| TypeUnknown.

Inductive ArgMatcher : Type :=
| Literal (value : str)
| OpaqueNonFile
| ReadableFile
| WriteableFile
| ReadableFiles
| ReadableFilesOrCwd
| PositiveInteger
| SedCommand
| UnverifiedVarargs.

Inductive ArgMatcherCardinality : Type := One | AtLeastOne | ZeroOrMore.
Definition cardinality (m : ArgMatcher) : ArgMatcherCardinality :=
  match m with
  | ReadableFiles => AtLeastOne
  | ReadableFilesOrCwd | UnverifiedVarargs => ZeroOrMore
  | _ => One
  end.
Definition is_exact (c : ArgMatcherCardinality) : option nat := match c with One => Some 1 | _ => None end.
Definition arg_type (m : ArgMatcher) : ArgType :=
  match m with
  | Literal value => TypeLiteral value
  | OpaqueNonFile => TypeOpaqueNonFile
  | ReadableFile | ReadableFiles | ReadableFilesOrCwd => TypeReadableFile
  | WriteableFile => TypeWriteableFile
  | PositiveInteger => TypePositiveInteger
  | SedCommand => TypeSedCommand
  | UnverifiedVarargs => TypeUnknown
  end.

Record PositionalArg : Type := { pos_index : nat; pos_value : str }.

(** ** Errors *)

Inductive error : Type :=
| NoSpecForProgram (program : str)
| OptionMissingValue (program option : str)
| OptionFollowedByOptionInsteadOfValue (program option value : str)
| UnknownOption (program option : str)
| UnexpectedArguments (program : str) (args : list PositionalArg)
| DoubleDashNotSupportedYet (program : str)
| MultipleVarargPatterns (program : str) (first second : ArgMatcher)
| RangeStartExceedsEnd (start end_ : nat)
| RangeEndOutOfBounds (end_ len : nat)
| PrefixOverlapsSuffix
| NotEnoughArgs (program : str) (args : list PositionalArg) (arg_patterns : list ArgMatcher)
| InternalInvariantViolation (message : str)
| VarargMatcherDidNotMatchAnything (program : str) (matcher : ArgMatcher)
| EmptyFileName
| LiteralValueDidNotMatch (expected actual : str)
| InvalidPositiveInteger (value : str)
| MissingRequiredOptions (program : str) (options : list str)
| SedCommandNotProvablySafe (command : str)
| ReadablePathNotInReadableFolders (file : str) (folders : list str)
| WriteablePathNotInWriteableFolders (file : str) (folders : list str)
| CannotCheckRelativePath (file : str)
| CannotCanonicalizePath (file : str) (kind : str).
Abbreviation R := (result error).

(** ** Validating a value *)

(** [str::parse::<u64>]: an optional sign, digits, no overflow. *)
Definition u64_max : N := 2 ^ 64 - 1.
Definition parse_u64 (s : str) : option N :=
  let s := match s with 43%N :: (_ :: _) as t => tail s | _ => s end in
  '(value, count, rest) ← NetAddr.read_digits 10 (length s) s 0%N 0;
  if (count =? 0) || negb (bool_decide (rest = [])) || (u64_max <? value)%N then None else Some value.
Definition is_u64 (s : str) : bool := bool_decide (is_Some (parse_u64 s)).

Definition COMMA : char := 44%N.
Definition parse_sed_command (sed_command : str) : R () :=
  let ok :=
    match strip_suffix (lit "p") sed_command with
    | Some stripped =>
        match split_once COMMA stripped with Some (first, rest) => is_u64 first && is_u64 rest | None => false end
    | None => false
    end in
  if ok then Ok () else Err (SedCommandNotProvablySafe sed_command).

Definition validate (t : ArgType) (value : str) : R () :=
  match t with
  | TypeLiteral literal_value =>
      if bool_decide (value = literal_value) then Ok () else Err (LiteralValueDidNotMatch literal_value value)
  | TypeReadableFile | TypeWriteableFile => if bool_decide (value = []) then Err EmptyFileName else Ok ()
  | TypeOpaqueNonFile | TypeUnknown => Ok ()
  | TypePositiveInteger =>
      match parse_u64 value with Some 0%N | None => Err (InvalidPositiveInteger value) | Some _ => Ok () end
  | TypeSedCommand => parse_sed_command value
  end.

Definition might_write_file (t : ArgType) : bool :=
  match t with TypeWriteableFile | TypeUnknown => true | _ => false end.

(** ** Positional arguments *)

Record MatchedArg : Type := { arg_index : nat; arg_ty : ArgType; arg_value : str }.
Definition matched_arg_new (index : nat) (t : ArgType) (value : str) : R MatchedArg :=
  _ ← validate t value; Ok {| arg_index := index; arg_ty := t; arg_value := value |}.

Record PartitionedArgs : Type := {
  num_prefix_args : nat;
  num_suffix_args : nat;
  prefix_patterns : list ArgMatcher;
  suffix_patterns : list ArgMatcher;
  vararg_pattern : option ArgMatcher;
}.
Definition partition_default : PartitionedArgs := Build_PartitionedArgs 0 0 [] [] None.

Fixpoint partition_loop (program : str) (arg_patterns : list ArgMatcher) (in_prefix : bool) (p : PartitionedArgs)
    : R PartitionedArgs :=
  match arg_patterns with
  | [] => Ok p
  | pattern :: arg_patterns =>
      match is_exact (cardinality pattern) with
      | Some n =>
          partition_loop program arg_patterns in_prefix
            (if in_prefix then
               {| num_prefix_args := num_prefix_args p + n; num_suffix_args := num_suffix_args p;
                  prefix_patterns := prefix_patterns p ++ [pattern]; suffix_patterns := suffix_patterns p;
                  vararg_pattern := vararg_pattern p |}
             else
               {| num_prefix_args := num_prefix_args p; num_suffix_args := num_suffix_args p + n;
                  prefix_patterns := prefix_patterns p; suffix_patterns := suffix_patterns p ++ [pattern];
                  vararg_pattern := vararg_pattern p |})
      | None =>
          match vararg_pattern p with
          | None =>
              partition_loop program arg_patterns false
                {| num_prefix_args := num_prefix_args p; num_suffix_args := num_suffix_args p;
                   prefix_patterns := prefix_patterns p; suffix_patterns := suffix_patterns p;
                   vararg_pattern := Some pattern |}
          | Some existing_pattern => Err (MultipleVarargPatterns program existing_pattern pattern)
          end
      end
  end.
Definition partition_args (program : str) (arg_patterns : list ArgMatcher) : R PartitionedArgs :=
  partition_loop program arg_patterns true partition_default.

Definition get_range_checked {A} (vec : list A) (start end_ : nat) : R (list A) :=
  if end_ <? start then Err (RangeStartExceedsEnd start end_)
  else if length vec <? end_ then Err (RangeEndOutOfBounds end_ (length vec))
  else Ok (take (end_ - start) (drop start vec)).

(** [&l[from..to]], which panics. *)
Definition slice {A} (l : list A) (from to : nat) : R (list A) :=
  if (from <=? to) && (to <=? length l) then Ok (take (to - from) (drop from l)) else Crash.

Fixpoint match_all (t : ArgType) (args : list PositionalArg) : R (list MatchedArg) :=
  match args with
  | [] => Ok []
  | positional_arg :: args =>
      m ← matched_arg_new (pos_index positional_arg) t (pos_value positional_arg); l ← match_all t args; Ok (m :: l)
  end.

(** The loops over the patterns that match one argument each: what is matched
    and the arguments used. *)
Fixpoint match_exact (patterns : list ArgMatcher) (args : list PositionalArg) (index : nat)
    (matched : list MatchedArg) : R (list MatchedArg * nat) :=
  match patterns with
  | [] => Ok (matched, index)
  | pattern :: patterns =>
      n ← ok_or (InternalInvariantViolation (lit "expected exact cardinality")) (is_exact (cardinality pattern));
      l ← slice args index (index + n);
      m ← match_all (arg_type pattern) l;
      match_exact patterns args (index + n) (matched ++ m)
  end.

Definition resolve_observed_args_with_patterns (program : str) (args : list PositionalArg)
    (arg_patterns : list ArgMatcher) : R (list MatchedArg) :=
  p ← partition_args program arg_patterns;
  prefix ← get_range_checked args 0 (num_prefix_args p);
  '(matched_args, prefix_arg_index) ← match_exact (prefix_patterns p) prefix 0 [];
  if length args <? num_suffix_args p then Err (NotEnoughArgs program args arg_patterns)
  else
    let initial_suffix_args_index := length args - num_suffix_args p in
    if initial_suffix_args_index <? prefix_arg_index then Err PrefixOverlapsSuffix
    else
      matched_args ← match vararg_pattern p with
                     | None => Ok matched_args
                     | Some pattern =>
                         vararg ← get_range_checked args prefix_arg_index initial_suffix_args_index;
                         match cardinality pattern with
                         | One => Err (InternalInvariantViolation (lit "vararg pattern should not have cardinality of one"))
                         | AtLeastOne =>
                             if bool_decide (length vararg = 0) then Err (VarargMatcherDidNotMatchAnything program pattern)
                             else m ← match_all (arg_type pattern) vararg; Ok (matched_args ++ m)
                         | ZeroOrMore => m ← match_all (arg_type pattern) vararg; Ok (matched_args ++ m)
                         end
                     end;
      suffix ← get_range_checked args initial_suffix_args_index (length args);
      '(matched_args, _) ← match_exact (suffix_patterns p) suffix 0 matched_args;
      if length matched_args <? length args then
        extra_args ← get_range_checked args (length matched_args) (length args);
        Err (UnexpectedArguments program extra_args)
      else Ok matched_args.

(** ** Programs *)

Inductive OptMeta : Type := Flag | Value (t : ArgType).
Record Opt : Type := { opt_name : str; opt_meta : OptMeta; required : bool }.

Record ExecCall : Type := { call_program : str; call_args : list str }.

Record MatchedOpt : Type := { matched_name : str; matched_value : str; matched_ty : ArgType }.
Definition matched_opt_new (name value : str) (t : ArgType) : R MatchedOpt :=
  _ ← validate t value; Ok {| matched_name := name; matched_value := value; matched_ty := t |}.

Record ValidExec : Type := {
  program : str;
  flags : list str;
  opts : list MatchedOpt;
  args : list MatchedArg;
  system_path : list str;
}.
Definition might_write_files (e : ValidExec) : bool :=
  existsb (λ o, might_write_file (matched_ty o)) (opts e) || existsb (λ a, might_write_file (arg_ty a)) (args e).

Inductive Forbidden : Type :=
| ForbiddenProgram (program : str) (exec_call : ExecCall)
| ForbiddenArg (arg : str) (exec_call : ExecCall)
| ForbiddenExec (exec : ValidExec).
Inductive MatchedExec : Type :=
| Match (exec : ValidExec)
| IsForbidden (cause : Forbidden) (reason : str).

(** The flags [option_bundling] and [combined_format] are kept but not used. *)
Record ProgramSpec : Type := {
  spec_program : str;
  spec_system_path : list str;
  option_bundling : bool;
  combined_format : bool;
  allowed_options : gmap str Opt;
  arg_patterns : list ArgMatcher;
  forbidden : option str;
  required_options : gset str;
  should_match : list (list str);
  should_not_match : list (list str);
}.
Definition spec_new (program : str) (system_path : list str) (option_bundling combined_format : bool)
    (allowed_options : gmap str Opt) (arg_patterns : list ArgMatcher) (forbidden : option str)
    (should_match should_not_match : list (list str)) : ProgramSpec := {|
  spec_program := program; spec_system_path := system_path; option_bundling := option_bundling;
  combined_format := combined_format; allowed_options := allowed_options; arg_patterns := arg_patterns;
  forbidden := forbidden;
  required_options := dom (filter (λ e, required e.2 = true) allowed_options);
  should_match := should_match; should_not_match := should_not_match |}.

Definition is_option (arg : str) : bool := starts_with arg (lit "-").

(** The state of the loop of [check] over the arguments. *)
Record check_state : Type := {
  expecting_option_value : option (str * ArgType);
  positional : list PositionalArg;
  matched_flags : list str;
  matched_opts : list MatchedOpt;
}.
Definition check_start : check_state := Build_check_state None [] [] [].

Definition check_arg (spec : ProgramSpec) (index : nat) (arg : str) (st : check_state) : R check_state :=
  match expecting_option_value st with
  | Some (name, t) =>
      if is_option arg then Err (OptionFollowedByOptionInsteadOfValue (spec_program spec) name arg)
      else
        o ← matched_opt_new name arg t;
        Ok {| expecting_option_value := None; positional := positional st; matched_flags := matched_flags st;
              matched_opts := matched_opts st ++ [o] |}
  | None =>
      if bool_decide (arg = lit "--") then Err (DoubleDashNotSupportedYet (spec_program spec))
      else if is_option arg then
        match allowed_options spec !! arg with
        | Some opt =>
            Ok match opt_meta opt with
               | Flag => {| expecting_option_value := None; positional := positional st;
                            matched_flags := matched_flags st ++ [arg]; matched_opts := matched_opts st |}
               | Value t => {| expecting_option_value := Some (arg, t); positional := positional st;
                               matched_flags := matched_flags st; matched_opts := matched_opts st |}
               end
        | None => Err (UnknownOption (spec_program spec) arg)
        end
      else Ok {| expecting_option_value := None;
                 positional := positional st ++ [{| pos_index := index; pos_value := arg |}];
                 matched_flags := matched_flags st; matched_opts := matched_opts st |}
  end.
Fixpoint check_args (spec : ProgramSpec) (index : nat) (args : list str) (st : check_state) : R check_state :=
  match args with
  | [] => Ok st
  | arg :: args => st ← check_arg spec index arg st; check_args spec (S index) args st
  end.

Definition spec_check (spec : ProgramSpec) (exec_call : ExecCall) : R MatchedExec :=
  st ← check_args spec 0 (call_args exec_call) check_start;
  match expecting_option_value st with
  | Some (name, _) => Err (OptionMissingValue (spec_program spec) name)
  | None =>
      matched_args ← resolve_observed_args_with_patterns (spec_program spec) (positional st) (arg_patterns spec);
      let matched_opt_names : gset str := list_to_set (matched_name <$> matched_opts st) in
      if negb (bool_decide (required_options spec ⊆ matched_opt_names)) then
        Err (MissingRequiredOptions (spec_program spec)
          (sort_strs (elements (required_options spec ∖ matched_opt_names))))
      else
        let exec := {| program := spec_program spec; flags := matched_flags st; opts := matched_opts st;
                       args := matched_args; system_path := spec_system_path spec |} in
        Ok match forbidden spec with
           | Some reason => IsForbidden (ForbiddenExec exec) reason
           | None => Match exec
           end
  end.

Record PositiveExampleFailedCheck : Type := { good_program : str; good_args : list str; good_error : error }.
Record NegativeExamplePassedCheck : Type := { bad_program : str; bad_args : list str }.

Definition call_of (spec : ProgramSpec) (args : list str) : ExecCall :=
  {| call_program := spec_program spec; call_args := args |}.
Definition verify_should_match_list (spec : ProgramSpec) : list PositiveExampleFailedCheck :=
  omap (λ good, match spec_check spec (call_of spec good) with
                | Err e => Some {| good_program := spec_program spec; good_args := good; good_error := e |}
                | _ => None
                end) (should_match spec).
Definition verify_should_not_match_list (spec : ProgramSpec) : list NegativeExamplePassedCheck :=
  omap (λ bad, if is_ok (spec_check spec (call_of spec bad))
               then Some {| bad_program := spec_program spec; bad_args := bad |} else None) (should_not_match spec).

(** ** Policies *)

Section Policy.
(** regex_lite: compiling, matching and escaping. *)
Context {Regex : Type} (regex_new : str → option Regex) (regex_is_match : Regex → str → bool) (regex_escape : str → str).

(** The programs by name, the specifications of one in their order. *)
Record Policy : Type := {
  programs : list (str * list ProgramSpec);
  forbidden_program_regexes : list (Regex * str);
  forbidden_substrings_pattern : option Regex;
}.

(** [Policy::new], [None] when the pattern cannot be compiled. *)
Definition substrings_pattern (forbidden_substrings : list str) : str :=
  lit "(" ++ join (lit "|") (regex_escape <$> forbidden_substrings) ++ lit ")".
Definition policy_new (programs : list (str * list ProgramSpec)) (forbidden_program_regexes : list (Regex * str))
    (forbidden_substrings : list str) : option Policy :=
  pattern ← (if bool_decide (forbidden_substrings = []) then Some None
             else r ← regex_new (substrings_pattern forbidden_substrings); Some (Some r));
  Some {| programs := programs; forbidden_program_regexes := forbidden_program_regexes;
          forbidden_substrings_pattern := pattern |}.

Definition forbidden_substring_in (p : Policy) (arg : str) : bool :=
  match forbidden_substrings_pattern p with Some regex => regex_is_match regex arg | None => false end.

Definition get_vec (name : str) (l : list (str * list ProgramSpec)) : list ProgramSpec :=
  match List.find (λ e, bool_decide (e.1 = name)) l with Some (_, specs) => specs | None => [] end.

Fixpoint check_specs (specs : list ProgramSpec) (exec_call : ExecCall) (last_err : error) : R MatchedExec :=
  match specs with
  | [] => Err last_err
  | spec :: specs =>
      match spec_check spec exec_call with
      | Ok matched_exec => Ok matched_exec
      | Err e => check_specs specs exec_call e
      | Crash => Crash
      end
  end.

Definition policy_check (p : Policy) (exec_call : ExecCall) : R MatchedExec :=
  match List.find (λ r, regex_is_match r.1 (call_program exec_call)) (forbidden_program_regexes p) with
  | Some (_, reason) => Ok (IsForbidden (ForbiddenProgram (call_program exec_call) exec_call) reason)
  | None =>
      match List.find (forbidden_substring_in p) (call_args exec_call) with
      | Some arg =>
          Ok (IsForbidden (ForbiddenArg arg exec_call) (lit "arg `" ++ arg ++ lit "` contains forbidden substring"))
      | None =>
          check_specs (get_vec (call_program exec_call) (programs p)) exec_call (NoSpecForProgram (call_program exec_call))
      end
  end.

Definition check_each_good_list_individually (p : Policy) : list PositiveExampleFailedCheck :=
  (programs p ≫= snd) ≫= verify_should_match_list.
Definition check_each_bad_list_individually (p : Policy) : list NegativeExamplePassedCheck :=
  (programs p ≫= snd) ≫= verify_should_not_match_list.

(** *** Building a policy *)

Record PolicyBuilder : Type := {
  built_programs : list (str * list ProgramSpec);
  built_regexes : list (Regex * str);
  built_substrings : list str;
}.
Definition builder_new : PolicyBuilder := Build_PolicyBuilder [] [] [].
Definition build (b : PolicyBuilder) : option Policy :=
  policy_new (built_programs b) (built_regexes b) (built_substrings b).
(** [MultiMap::insert]; the order of the programs is the order they were first
    added in (a hash map has none), nothing depends on it. *)
Fixpoint insert_spec (name : str) (spec : ProgramSpec) (l : list (str * list ProgramSpec))
    : list (str * list ProgramSpec) :=
  match l with
  | [] => [(name, [spec])]
  | (name', specs) :: l' =>
      if bool_decide (name' = name) then (name', specs ++ [spec]) :: l' else (name', specs) :: insert_spec name spec l'
  end.
Definition add_program_spec (spec : ProgramSpec) (b : PolicyBuilder) : PolicyBuilder := {|
  built_programs := insert_spec (spec_program spec) spec (built_programs b); built_regexes := built_regexes b;
  built_substrings := built_substrings b |}.
Definition add_forbidden_substrings (l : list str) (b : PolicyBuilder) : PolicyBuilder := {|
  built_programs := built_programs b; built_regexes := built_regexes b; built_substrings := built_substrings b ++ l |}.
Definition add_forbidden_program_regex (regex : Regex) (reason : str) (b : PolicyBuilder) : PolicyBuilder := {|
  built_programs := built_programs b; built_regexes := built_regexes b ++ [(regex, reason)];
  built_substrings := built_substrings b |}.

Inductive builtin_error : Type := DuplicateFlag (name : str) | BadRegex (regex : str).

Fixpoint collect_options (options : list Opt) (allowed : gmap str Opt) : result builtin_error (gmap str Opt) :=
  match options with
  | [] => Ok allowed
  | opt :: options =>
      match allowed !! opt_name opt with
      | Some _ => Err (DuplicateFlag (opt_name opt))
      | None => collect_options options (<[opt_name opt := opt]> allowed)
      end
  end.
Definition define_program (program : str) (system_path : option (list str)) (option_bundling combined_format : option bool)
    (options : option (list Opt)) (args : option (list ArgMatcher)) (forbidden : option str)
    (should_match should_not_match : option (list (list str))) (b : PolicyBuilder) : result builtin_error PolicyBuilder :=
  allowed_options ← collect_options (default [] options) ∅;
  Ok (add_program_spec
        (spec_new program (default [] system_path) (default false option_bundling) (default false combined_format)
           allowed_options (default [] args) forbidden (default [] should_match) (default [] should_not_match)) b).
Definition forbid_substrings (strings : list str) (b : PolicyBuilder) : result builtin_error PolicyBuilder :=
  Ok (add_forbidden_substrings strings b).
Definition forbid_program_regex (regex reason : str) (b : PolicyBuilder) : result builtin_error PolicyBuilder :=
  match regex_new regex with Some r => Ok (add_forbidden_program_regex r reason b) | None => Err (BadRegex regex) end.
Definition opt (name : str) (t : ArgMatcher) (req : option bool) : Opt :=
  {| opt_name := name; opt_meta := Value (arg_type t); required := default false req |}.
Definition flag (name : str) : Opt := {| opt_name := name; opt_meta := Flag; required := false |}.

(** ** The command line *)

Inductive Output : Type :=
| Safe (m : ValidExec)
| Matched (m : ValidExec)
| OutForbidden (reason : str) (cause : Forbidden)
| Unverified (e : error).

Definition check_command (p : Policy) (exec_call : ExecCall) (check : bool) : result error (Output * Z) :=
  match policy_check p exec_call with
  | Ok (Match exec) =>
      Ok (if might_write_files exec then (Matched exec, if check then 12%Z else 0%Z) else (Safe exec, 0%Z))
  | Ok (IsForbidden cause reason) => Ok (OutForbidden reason cause, if check then 14%Z else 0%Z)
  | Err e => Ok (Unverified e, if check then 13%Z else 0%Z)
  | Crash => Crash
  end.

(** ** Checking files *)

(** [path_absolutize] with and without a directory, or the kind of its error;
    what the (Unix) file system says of a path: whether it is a file, its mode. *)
Context (absolutize_from : str → str → result str str) (absolutize : str → result str str).
Context (metadata : str → option (bool * Z)).

Definition is_executable_file (path : str) : bool :=
  match metadata path with Some (is_file, mode) => is_file && negb (Z.land mode 73 =? 0)%Z | None => false end.

Definition ensure_absolute_path (path : str) (cwd : option str) : R str :=
  if is_absolute path then map_err (CannotCanonicalizePath path) (absolutize path)
  else match cwd with
       | Some cwd => map_err (CannotCanonicalizePath path) (absolutize_from cwd path)
       | None => Err (CannotCheckRelativePath path)
       end.

Definition check_file (t : ArgType) (value : str) (cwd : option str) (readable_folders writeable_folders : list str)
    : R () :=
  match t with
  | TypeReadableFile =>
      file ← ensure_absolute_path value cwd;
      if existsb (path_starts_with file) readable_folders then Ok ()
      else Err (ReadablePathNotInReadableFolders file readable_folders)
  | TypeWriteableFile =>
      file ← ensure_absolute_path value cwd;
      if existsb (path_starts_with file) writeable_folders then Ok ()
      else Err (WriteablePathNotInWriteableFolders file writeable_folders)
  | _ => Ok ()
  end.
Fixpoint check_files (l : list (ArgType * str)) (cwd : option str) (readable_folders writeable_folders : list str) : R () :=
  match l with
  | [] => Ok ()
  | (t, value) :: l =>
      _ ← check_file t value cwd readable_folders writeable_folders;
      check_files l cwd readable_folders writeable_folders
  end.

(** [ExecvChecker::check]. *)
Definition checker_check (e : ValidExec) (cwd : option str) (readable_folders writeable_folders : list str) : R str :=
  _ ← check_files (((λ a, (arg_ty a, arg_value a)) <$> args e) ++ ((λ o, (matched_ty o, matched_value o)) <$> opts e))
        cwd readable_folders writeable_folders;
  Ok (default (program e) (List.find is_executable_file (system_path e))).
End Policy.
End LegacyPolicy.
