(* ===== verification/LegacyPolicyFacts.v ===== *)
(** * Facts about the legacy execution policy

    Resolving positional arguments is a grammar of patterns, checking a command
    is a grammar of flags, options and arguments, and a command that is cleared
    respects the forbidden parts and the folders. *)
From S2P Require Import Prelude Str Paths NetAddr LegacyPolicy.
Import Paths LegacyPolicy.

(** ** What resolving means *)

Definition valid (t : ArgType) (a : PositionalArg) : Prop := validate t (pos_value a) = Ok ().
Definition typed (t : ArgType) (a : PositionalArg) : MatchedArg :=
  {| arg_index := pos_index a; arg_ty := t; arg_value := pos_value a |}.
Definition exact (m : ArgMatcher) : bool := bool_decide (is_exact (cardinality m) = Some 1).
Definition many_ok {A} (m : ArgMatcher) (vs : list A) : Prop := cardinality m = AtLeastOne → vs ≠ [].

(** Every pattern takes its arguments in order, one each or a run of them. *)
Inductive assigned : list ArgMatcher → list PositionalArg → list MatchedArg → Prop :=
| assigned_nil : assigned [] [] []
| assigned_one m ms a rest l :
    exact m = true → valid (arg_type m) a → assigned ms rest l →
    assigned (m :: ms) (a :: rest) (typed (arg_type m) a :: l)
| assigned_many m ms vs rest l :
    exact m = false → many_ok m vs → Forall (valid (arg_type m)) vs → assigned ms rest l →
    assigned (m :: ms) (vs ++ rest) ((typed (arg_type m) <$> vs) ++ l).

Definition varargs (ms : list ArgMatcher) : nat := length (filter (λ m, exact m = false) ms).

Lemma exact_spec m : exact m = true → is_exact (cardinality m) = Some 1.
Proof. apply bool_decide_eq_true_1. Qed.
Lemma not_exact_spec m : exact m = false → is_exact (cardinality m) = None.
Proof. by destruct m. Qed.

Lemma match_all_Ok t vs l : match_all t vs = Ok l ↔ Forall (valid t) vs ∧ l = typed t <$> vs.
Proof.
  revert l. induction vs as [|a vs IH]; intros l; simpl; [split; [by intros [= <-]|by intros [_ ->]]|].
  unfold matched_arg_new, valid in *. rewrite Forall_cons. destruct (validate t (pos_value a)) as [[]|e|]; simpl; [|naive_solver..].
  rewrite result_bind_Ok. setoid_rewrite IH. split.
  - by intros (x&[Hv ->]&[= <-]).
  - intros [[_ Hv] ->]. by eexists.
Qed.

Lemma value_no_crash t v : validate t v ≠ Crash.
Proof. destruct t; simpl; try done; try case_bool_decide; try done; [by repeat case_match|]. unfold parse_sed_command. by repeat case_match. Qed.

Lemma match_all_no_crash t vs : match_all t vs ≠ Crash.
Proof.
  induction vs as [|a vs IH]; [done|]. simpl. unfold matched_arg_new.
  destruct (validate t (pos_value a)) eqn:Hv; simpl; [|done|by destruct (value_no_crash t (pos_value a))].
  by destruct (match_all t vs).
Qed.

(** *** Partitioning *)

Definition partition_of (ms : list ArgMatcher) (p : PartitionedArgs) : Prop :=
  num_prefix_args p = length (prefix_patterns p) ∧ num_suffix_args p = length (suffix_patterns p)
  ∧ Forall (λ m, exact m = true) (prefix_patterns p) ∧ Forall (λ m, exact m = true) (suffix_patterns p)
  ∧ match vararg_pattern p with
    | None => ms = prefix_patterns p ∧ suffix_patterns p = []
    | Some v => exact v = false ∧ ms = prefix_patterns p ++ v :: suffix_patterns p
    end.

Lemma varargs_app l l' : varargs (l ++ l') = varargs l + varargs l'.
Proof. unfold varargs. by rewrite filter_app, length_app. Qed.
Lemma varargs_exact l : Forall (λ m, exact m = true) l → varargs l = 0.
Proof.
  unfold varargs. induction 1 as [|m l Hm _ IH]; [done|]. rewrite filter_cons_False by by rewrite Hm. done.
Qed.
Lemma varargs_cons_exact m l : exact m = true → varargs (m :: l) = varargs l.
Proof. intros Hm. unfold varargs. by rewrite filter_cons_False by by rewrite Hm. Qed.
Lemma varargs_cons_many m l : exact m = false → varargs (m :: l) = S (varargs l).
Proof. intros Hm. unfold varargs. by rewrite filter_cons_True. Qed.

Lemma partition_loop_spec prog ms done in_prefix p :
  partition_of done p → (in_prefix = true ↔ vararg_pattern p = None) →
  match partition_loop prog ms in_prefix p with
  | Ok p' => partition_of (done ++ ms) p' ∧ varargs (done ++ ms) ≤ 1
  | Err e => (∃ a b, e = MultipleVarargPatterns prog a b) ∧ 1 < varargs (done ++ ms)
  | Crash => False
  end.
Proof.
  revert done in_prefix p. induction ms as [|m ms IH]; intros done in_prefix p Hp Hin; simpl.
  - rewrite app_nil_r. split; [done|]. destruct Hp as (_&_&Hpre&Hsuf&Hv). destruct (vararg_pattern p) as [v|].
    + destruct Hv as [Hv ->]. rewrite varargs_app, varargs_cons_many, !varargs_exact by done. lia.
    + destruct Hv as [-> _]. rewrite varargs_exact by done. lia.
  - change (m :: ms) with ([m] ++ ms). rewrite app_assoc. destruct (exact m) eqn:Hm.
    + rewrite (exact_spec m Hm). destruct in_prefix.
      * apply IH; [|exact Hin]. destruct Hp as (Hnp&Hns&Hpre&Hsuf&Hv).
        rewrite (proj1 Hin eq_refl) in *. destruct Hv as [-> Hs0].
        split_and!; simpl; try done; [rewrite length_app; simpl; lia|by apply Forall_app; auto].
      * apply IH; [|exact Hin]. destruct Hp as (Hnp&Hns&Hpre&Hsuf&Hv).
        destruct (vararg_pattern p) as [v|] eqn:Hvp; [|discriminate (proj2 Hin eq_refl)].
        destruct Hv as [Hv ->]. split_and!; simpl; try done; [rewrite length_app; simpl; lia|by apply Forall_app; auto|].
        by rewrite <-app_assoc.
    + rewrite (not_exact_spec m Hm). destruct (vararg_pattern p) as [v|] eqn:Hvp.
      * destruct Hp as (_&_&Hpre&Hsuf&Hv). rewrite Hvp in Hv. destruct Hv as [Hv ->]. split; [by eauto|].
        rewrite !varargs_app, !varargs_cons_many by done. lia.
      * apply IH; [|done]. destruct Hp as (Hnp&Hns&Hpre&Hsuf&Hv). rewrite Hvp in Hv. destruct Hv as [-> Hs0].
        split_and!; simpl; try done. by rewrite Hs0.
Qed.

Lemma partition_args_spec prog ms :
  match partition_args prog ms with
  | Ok p => partition_of ms p ∧ varargs ms ≤ 1
  | Err e => (∃ a b, e = MultipleVarargPatterns prog a b) ∧ 1 < varargs ms
  | Crash => False
  end.
Proof. by apply (partition_loop_spec prog ms [] true partition_default). Qed.

(** *** Assignments *)

Lemma assigned_app ms1 ms2 args l :
  assigned (ms1 ++ ms2) args l ↔
  ∃ a1 a2 l1 l2, args = a1 ++ a2 ∧ l = l1 ++ l2 ∧ assigned ms1 a1 l1 ∧ assigned ms2 a2 l2.
Proof.
  split.
  - revert args l. induction ms1 as [|m ms1 IH]; intros args l H.
    { exists [], args, [], l. split_and!; try done. constructor. }
    inversion H as [|? ? a rest l' Hm Hv Hr|? ? vs rest l' Hm Hok Hv Hr]; subst;
      destruct (IH _ _ Hr) as (a1&a2&l1&l2&->&->&H1&H2).
    + exists (a :: a1), a2, (typed (arg_type m) a :: l1), l2. split_and!; try done. by constructor.
    + exists (vs ++ a1), a2, ((typed (arg_type m) <$> vs) ++ l1), l2. rewrite <-!app_assoc. split_and!; try done. by constructor.
  - intros (a1&a2&l1&l2&->&->&H1&H2). induction H1 as [|m ms a rest l' Hm Hv Hr IH|m ms vs rest l' Hm Hok Hv Hr IH].
    + done.
    + by constructor.
    + rewrite <-!app_assoc. by constructor.
Qed.

Lemma assigned_run v vs l :
  exact v = false → assigned [v] vs l ↔ many_ok v vs ∧ Forall (valid (arg_type v)) vs ∧ l = typed (arg_type v) <$> vs.
Proof.
  intros Hv. split.
  - intros H. inversion H as [|? ? a rest l' Hm|? ? vs' rest l' Hm Hok Hf Hr]; subst; [congruence|].
    inversion Hr; subst. by rewrite !app_nil_r.
  - intros (Hok&Hf&->). rewrite <-(app_nil_r vs) at 1. rewrite <-(app_nil_r (_ <$> vs)). constructor; try done. constructor.
Qed.

Lemma assigned_exact ms args l :
  Forall (λ m, exact m = true) ms →
  assigned ms args l ↔
  Forall2 (λ m a, valid (arg_type m) a) ms args ∧ l = zip_with (λ m a, typed (arg_type m) a) ms args.
Proof.
  intros Hms. revert args l. induction Hms as [|m ms Hm Hms IH]; intros args l.
  - split; [intros H; inversion H; subst; by split; [constructor|]|]. intros [Hf ->]. inversion Hf. constructor.
  - split.
    + intros H. inversion H as [|? ? a rest l' _ Hv Hr|]; subst; [|congruence]. apply IH in Hr as [Hf ->]. split; [by constructor|done].
    + intros [Hf ->]. destruct args as [|a rest]; [inversion Hf|]. apply Forall2_cons in Hf as [Hv Hf]. simpl.
      constructor; [done|done|]. by apply IH.
Qed.

Definition internal (e : error) : bool :=
  match e with InternalInvariantViolation _ | RangeStartExceedsEnd _ _ => true | _ => false end.

Lemma value_external t v e : validate t v = Err e → internal e = false.
Proof.
  destruct t; simpl; try done; try (case_bool_decide; [done|by intros [= <-]]); try (case_bool_decide; [by intros [= <-]|done]).
  - repeat case_match; try done; by intros [= <-].
  - unfold parse_sed_command. repeat case_match; try done; by intros [= <-].
Qed.

Lemma match_all_Err t vs e : match_all t vs = Err e → internal e = false ∧ ¬ Forall (valid t) vs.
Proof.
  revert e. induction vs as [|a vs IH]; intros e; [done|]. simpl. unfold matched_arg_new. rewrite Forall_cons.
  destruct (validate t (pos_value a)) as [[]|e'|] eqn:Hv; simpl; [|intros [= <-]|done].
  - intros [He|(x&_&He)]%result_bind_Err; [|done]. destruct (IH e He). split; [done|]. by intros [].
  - split; [by apply (value_external t (pos_value a))|]. unfold valid. rewrite Hv. by intros [].
Qed.

Lemma match_exact_spec ms args idx done :
  Forall (λ m, exact m = true) ms → idx + length ms ≤ length args →
  match match_exact ms args idx done with
  | Ok (out, idx') => idx' = idx + length ms ∧ ∃ l, out = done ++ l ∧ assigned ms (take (length ms) (drop idx args)) l
  | Err e => internal e = false ∧ ∀ l, ¬ assigned ms (take (length ms) (drop idx args)) l
  | Crash => False
  end.
Proof.
  intros Hms. revert idx done. induction Hms as [|m ms Hm Hms IH]; intros idx done Hlen; simpl in *.
  { split; [lia|]. exists []. rewrite app_nil_r. split; [reflexivity|constructor]. }
  rewrite (exact_spec m Hm). cbn [ok_or mbind result_bind]. unfold slice.
  rewrite (proj2 (Nat.leb_le _ _)), (proj2 (Nat.leb_le _ _)) by lia. simpl.
  destruct (lookup_lt_is_Some_2 args idx) as [a Ha]; [lia|]. rewrite (drop_S _ _ _ Ha).
  replace (idx + 1 - idx) with 1 by lia. simpl. unfold matched_arg_new.
  assert (Htail : drop (S idx) args = drop (idx + 1) args) by (f_equal; lia).
  destruct (validate (arg_type m) (pos_value a)) as [[]|e|] eqn:Hv; simpl.
  - specialize (IH (idx + 1) (done ++ [typed (arg_type m) a]) ltac:(lia)). unfold typed in IH.
    destruct (match_exact _ _ _ _) as [[out idx']|e|]; [|split; [apply IH|]|done].
    + destruct IH as [-> (l&->&Hl)]. split; [lia|]. exists (typed (arg_type m) a :: l). rewrite <-app_assoc. split; [done|].
      rewrite Htail. by constructor.
    + intros l Hl. inversion Hl as [|? ? ? ? l' _ _ Hr|]; subst; [|congruence]. rewrite Htail in Hr. by apply (proj2 IH l').
  - split; [by apply (value_external _ _ _ Hv)|]. intros l Hl.
    inversion Hl as [|? ? ? ? l' _ Hva _|]; subst; [|congruence]. unfold valid in Hva. congruence.
  - by apply (value_no_crash _ _ Hv).
Qed.

Lemma range_Ok {A} (l : list A) a b : a ≤ b → b ≤ length l → get_range_checked l a b = Ok (take (b - a) (drop a l)).
Proof. intros Ha Hb. unfold get_range_checked. by rewrite (proj2 (Nat.ltb_ge _ _)), (proj2 (Nat.ltb_ge _ _)) by lia. Qed.


Lemma assigned_length ms args l : assigned ms args l → length l = length args.
Proof. induction 1; simpl; rewrite ?length_app, ?length_fmap; lia. Qed.

Lemma assigned_exact_length ms args l :
  Forall (λ m, exact m = true) ms → assigned ms args l → length args = length ms.
Proof. intros Hms [Hf _]%(assigned_exact _ _ _ Hms). by rewrite (Forall2_length _ _ _ Hf). Qed.

(** With one pattern that takes several arguments, how they are split is determined. *)
Lemma assigned_split pre v suf args l :
  Forall (λ m, exact m = true) pre → Forall (λ m, exact m = true) suf →
  assigned (pre ++ v :: suf) args l ↔
  length pre + length suf ≤ length args ∧
  ∃ l1 l2 l3, l = l1 ++ l2 ++ l3 ∧ assigned pre (take (length pre) args) l1
    ∧ assigned [v] (take (length args - length suf - length pre) (drop (length pre) args)) l2
    ∧ assigned suf (drop (length args - length suf) args) l3.
Proof.
  intros Hpre Hsuf. rewrite assigned_app. change (v :: suf) with ([v] ++ suf). setoid_rewrite assigned_app. split.
  - intros (a1&b&l1&m&->&->&H1&a2&a3&l2&l3&->&->&H2&H3).
    pose proof (assigned_exact_length _ _ _ Hpre H1) as N1. pose proof (assigned_exact_length _ _ _ Hsuf H3) as N3.
    rewrite !length_app. split; [lia|]. exists l1, l2, l3. split; [done|].
    rewrite take_app_length', drop_app_length' by done. split; [done|]. split.
    + rewrite take_app_length' by lia. done.
    + rewrite app_assoc, drop_app_length' by (rewrite length_app; lia). done.
  - intros (Hlen&l1&l2&l3&->&H1&H2&H3).
    exists (take (length pre) args), (drop (length pre) args), l1, (l2 ++ l3). split_and!; [by rewrite take_drop|done|done|].
    exists (take (length args - length suf - length pre) (drop (length pre) args)), (drop (length args - length suf) args), l2, l3.
    split_and!; try done.
    rewrite <-(take_drop (length args - length suf - length pre) (drop (length pre) args)) at 1. f_equal.
    rewrite drop_drop. f_equal. lia.
Qed.

(** Matching every argument against the pattern of a run. *)
Lemma match_run_spec prog v vs done :
  exact v = false →
  match match cardinality v with
        | One => Err (InternalInvariantViolation (lit "vararg pattern should not have cardinality of one"))
        | AtLeastOne =>
            if bool_decide (length vs = 0) then Err (VarargMatcherDidNotMatchAnything prog v)
            else m ← match_all (arg_type v) vs; Ok (done ++ m)
        | ZeroOrMore => m ← match_all (arg_type v) vs; Ok (done ++ m)
        end with
  | Ok out => ∃ l, out = done ++ l ∧ assigned [v] vs l
  | Err e => internal e = false ∧ ∀ l, ¬ assigned [v] vs l
  | Crash => False
  end.
Proof.
  intros Hv.
  assert (Hall : many_ok v vs →
    match (m ← match_all (arg_type v) vs; Ok (done ++ m)) with
    | Ok out => ∃ l, out = done ++ l ∧ assigned [v] vs l
    | Err e => internal e = false ∧ ∀ l, ¬ assigned [v] vs l
    | Crash => False
    end).
  { intros Hok. destruct (match_all (arg_type v) vs) as [l|e|] eqn:Hm; simpl.
    - apply match_all_Ok in Hm as [Hf ->]. eexists. split; [done|]. by apply assigned_run.
    - apply match_all_Err in Hm as [He Hf]. split; [done|]. by intros l (_&?&_)%(assigned_run _ _ _ Hv).
    - by apply match_all_no_crash in Hm. }
  destruct (cardinality v) eqn:Hc; [by destruct v| |].
  - destruct vs as [|a vs]; simpl; [split; [done|]; intros l [Hok _]%(assigned_run _ _ _ Hv); by apply Hok|]. by apply Hall.
  - apply Hall. unfold many_ok. congruence.
Qed.

Lemma result_bind_cases {E A B} (m : result E A) (f : A → result E B) (P : result E B → Prop) :
  match m with Ok a => P (f a) | Err e => P (Err e) | Crash => P Crash end → P (m ≫= f).
Proof. by destruct m. Qed.

Definition resolves (ms : list ArgMatcher) (args : list PositionalArg) (r : result error (list MatchedArg)) : Prop :=
  match r with
  | Ok l => varargs ms ≤ 1 ∧ assigned ms args l
  | Err e => internal e = false ∧ (varargs ms ≤ 1 → ∀ l, ¬ assigned ms args l)
  | Crash => False
  end.

Lemma resolve_spec prog args ms : resolves ms args (resolve_observed_args_with_patterns prog args ms).
Proof.
  unfold resolve_observed_args_with_patterns. apply result_bind_cases.
  pose proof (partition_args_spec prog ms) as Hp. destruct (partition_args prog ms) as [p|e|]; [|destruct Hp as [(a&b&->) Hgt]; split; [done|lia]|done].
  destruct Hp as [(Hnp&Hns&Hpre&Hsuf&Hv) Hle].
  pose (nP := length (prefix_patterns p)). pose (nS := length (suffix_patterns p)).
  assert (Hneed : ∀ l, assigned ms args l → nP + nS ≤ length args ∧ ∃ l1, assigned (prefix_patterns p) (take nP args) l1).
  { intros l Hl. destruct (vararg_pattern p) as [v|].
    - destruct Hv as [Hv ->]. apply assigned_split in Hl as [Hl (l1&?&?&_&H1&_)]; eauto.
    - destruct Hv as [-> Hs]. pose proof (assigned_exact_length _ _ _ Hpre Hl). subst nP nS. rewrite Hs. simpl.
      split; [lia|]. rewrite firstn_all2 by lia. eauto. }
  rewrite Hnp, Hns. fold nP nS. destruct (decide (nP ≤ length args)) as [Hlen|Hlen].
  2: { unfold get_range_checked. simpl. rewrite (proj2 (Nat.ltb_lt (length args) nP)) by lia. split; [done|].
       intros _ l [? _]%Hneed. lia. }
  rewrite (range_Ok args 0 nP) by lia. cbn [mbind result_bind]. rewrite drop_0, Nat.sub_0_r.
  apply result_bind_cases.
  pose proof (match_exact_spec (prefix_patterns p) (take nP args) 0 [] Hpre) as Hm. fold nP in Hm.
  rewrite length_take, Nat.min_l, drop_0, take_take, Nat.min_id in Hm by lia. specialize (Hm ltac:(lia)).
  destruct (match_exact _ _ _ _) as [[out i]|e|]; [|split; [apply Hm|intros _ l (_&l1&H1)%Hneed; by apply (proj2 Hm l1)]|done].
  destruct Hm as (->&l1&->&H1). cbn [app Nat.add].
  destruct (Nat.ltb_spec (length args) nS); [split; [done|]; intros _ l [? _]%Hneed; lia|].
  destruct (Nat.ltb_spec (length args - nS) nP); [split; [done|]; intros _ l [? _]%Hneed; lia|].
  apply result_bind_cases. destruct (vararg_pattern p) as [v|].
  - destruct Hv as [Hv Hms]. rewrite (range_Ok args nP) by lia. cbn [mbind result_bind].
    pose proof (match_run_spec prog v (take (length args - nS - nP) (drop nP args)) l1 Hv) as Hm.
    assert (Hno : (∀ l, ¬ assigned [v] (take (length args - nS - nP) (drop nP args)) l) → ∀ l, ¬ assigned ms args l).
    { intros Hnot l Hl. rewrite Hms in Hl. apply assigned_split in Hl as [_ (?&l2&?&_&_&H2&_)]; [|done..]. by apply (Hnot l2). }
    destruct (match cardinality v with One => _ | AtLeastOne => _ | ZeroOrMore => _ end) as [out|e|]; [|split; [apply Hm|intros _; by apply Hno, Hm]|done].
    destruct Hm as (l2&->&H2). rewrite range_Ok by lia. cbn [mbind result_bind]. apply result_bind_cases.
    rewrite firstn_all2 by (rewrite length_drop; lia).
    pose proof (match_exact_spec (suffix_patterns p) (drop (length args - nS) args) 0 (l1 ++ l2) Hsuf) as Hm. fold nS in Hm.
    rewrite length_drop, drop_0, firstn_all2 in Hm by (rewrite ?length_drop; lia). specialize (Hm ltac:(lia)).
    destruct (match_exact _ _ _ _) as [[out i]|e|]; [|split; [apply Hm|]|done].
    + destruct Hm as (->&l3&->&H3). assert (Hall : assigned ms args ((l1 ++ l2) ++ l3)).
      { rewrite Hms. apply assigned_split; [done..|]. split; [lia|]. exists l1, l2, l3. by rewrite <-app_assoc. }
      rewrite (proj2 (Nat.ltb_ge _ _)) by (by rewrite (assigned_length _ _ _ Hall)). done.
    + intros _ l Hl. rewrite Hms in Hl. apply assigned_split in Hl as [_ (?&?&l3&_&_&_&H3)]; [|done..]. by apply (proj2 Hm l3).
  - destruct Hv as [Hms Hs]. assert (nS = 0) as HnS by (subst nS; by rewrite Hs). rewrite Hs, HnS, Nat.sub_0_r in *.
    rewrite range_Ok by lia. cbn [mbind result_bind match_exact].
    rewrite (assigned_length _ _ _ H1), length_take. destruct (Nat.ltb_spec (nP `min` length args) (length args)) as [Hlt|Hge].
    + rewrite range_Ok by lia. cbn [mbind result_bind]. split; [done|]. intros _ l Hl. rewrite Hms in Hl.
      apply assigned_exact_length in Hl; [subst nP; lia|done].
    + split; [done|]. rewrite firstn_all2 in H1 by lia. by rewrite Hms.
Qed.

Lemma assigned_functional ms args l l' :
  varargs ms ≤ 1 → assigned ms args l → assigned ms args l' → l = l'.
Proof.
  intros Hle. pose proof (partition_args_spec [] ms) as Hp.
  destruct (partition_args [] ms) as [p|e|]; [|destruct Hp; lia|done]. destruct Hp as [(_&_&Hpre&Hsuf&Hv) _].
  destruct (vararg_pattern p) as [v|].
  - destruct Hv as [Hv ->].
    intros (_&l1&l2&l3&->&[_ ->]%assigned_exact&(_&_&->)%assigned_run&[_ ->]%assigned_exact)%assigned_split; [|done..].
    intros (_&l1&l2&l3&->&[_ ->]%assigned_exact&(_&_&->)%assigned_run&[_ ->]%assigned_exact)%assigned_split; done.
  - destruct Hv as [-> _]. by intros [_ ->]%assigned_exact [_ ->]%assigned_exact.
Qed.

(** ** What checking a program means *)

(** The arguments of a command: flags, options with a value that is not an
    option, and positional arguments with their place. *)
Inductive parses (spec : ProgramSpec) : nat → list str → list PositionalArg → list str → list MatchedOpt → Prop :=
| parses_nil i : parses spec i [] [] [] []
| parses_flag i a o rest P F O :
    is_option a = true → a ≠ lit "--" → allowed_options spec !! a = Some o → opt_meta o = Flag →
    parses spec (S i) rest P F O → parses spec i (a :: rest) P (a :: F) O
| parses_value i a o t v rest P F O :
    is_option a = true → a ≠ lit "--" → allowed_options spec !! a = Some o → opt_meta o = Value t →
    is_option v = false → validate t v = Ok () →
    parses spec (S (S i)) rest P F O →
    parses spec i (a :: v :: rest) P F ({| matched_name := a; matched_value := v; matched_ty := t |} :: O)
| parses_positional i a rest P F O :
    is_option a = false → parses spec (S i) rest P F O →
    parses spec i (a :: rest) ({| pos_index := i; pos_value := a |} :: P) F O.

Lemma not_option_not_dashes a : is_option a = false → a ≠ lit "--".
Proof. by intros H ->. Qed.

Definition extend (st : check_state) (P : list PositionalArg) (F : list str) (O : list MatchedOpt) : check_state := {|
  expecting_option_value := None; positional := positional st ++ P; matched_flags := matched_flags st ++ F;
  matched_opts := matched_opts st ++ O |}.

Lemma check_args_complete spec i args P F O st :
  parses spec i args P F O → expecting_option_value st = None → check_args spec i args st = Ok (extend st P F O).
Proof.
  intros H. revert st.
  induction H as [i|i a o rest P F O Ha Hd Ho Hm _ IH|i a o t v rest P F O Ha Hd Ho Hm Hv Hval _ IH|i a rest P F O Ha _ IH];
    intros [ex P0 F0 O0] Hst; simpl in *; subst ex; unfold check_arg; simpl.
  - by unfold extend; simpl; rewrite !app_nil_r.
  - rewrite bool_decide_eq_false_2, Ha, Ho, Hm by done. simpl. rewrite IH by done. unfold extend. simpl. by rewrite <-app_assoc.
  - rewrite (bool_decide_eq_false_2 (a = lit "--")), Ha, Ho, Hm by done. simpl. rewrite Hv. unfold matched_opt_new. rewrite Hval. simpl.
    rewrite IH by done. unfold extend. simpl. by rewrite <-app_assoc.
  - rewrite bool_decide_eq_false_2 by auto using not_option_not_dashes. rewrite Ha. simpl. rewrite IH by done.
    unfold extend. simpl. by rewrite <-app_assoc.
Qed.

Lemma check_args_sound spec args : ∀ i st st',
  check_args spec i args st = Ok st' → expecting_option_value st' = None →
  match expecting_option_value st with
  | None => ∃ P F O, parses spec i args P F O ∧ st' = extend st P F O
  | Some (name, t) =>
      ∃ v rest P F O, args = v :: rest ∧ is_option v = false ∧ validate t v = Ok () ∧ parses spec (S i) rest P F O
        ∧ st' = extend st P F ({| matched_name := name; matched_value := v; matched_ty := t |} :: O)
  end.
Proof.
  induction args as [|a args IH]; intros i [ex P0 F0 O0] st'; simpl.
  { intros [= <-] Hex. simpl in *. subst ex. exists [], [], []. split; [constructor|]. unfold extend. simpl. by rewrite !app_nil_r. }
  intros (st1&H1&H2)%result_bind_Ok Hex. specialize (IH _ _ _ H2 Hex). unfold check_arg in H1. simpl in H1.
  destruct ex as [[name t]|].
  - destruct (is_option a) eqn:Ha; [done|]. apply result_bind_Ok in H1 as (o&Ho&[= <-]). unfold matched_opt_new in Ho.
    apply result_bind_Ok in Ho as ([]&Hv&[= <-]). simpl in IH. destruct IH as (P&F&O&Hp&->).
    exists a, args, P, F, O. split_and!; try done. unfold extend. simpl. by rewrite <-app_assoc.
  - case_bool_decide as Hd; [done|]. destruct (is_option a) eqn:Ha.
    + destruct (allowed_options spec !! a) as [o|] eqn:Ho; [|done]. injection H1 as <-. destruct (opt_meta o) as [|t] eqn:Hm; simpl in IH.
      * destruct IH as (P&F&O&Hp&->). exists P, (a :: F), O. split; [by eapply parses_flag|]. unfold extend. simpl. by rewrite <-app_assoc.
      * destruct IH as (v&rest&P&F&O&->&Hv&Hval&Hp&->). do 3 eexists. split; [by eapply parses_value|]. done.
    + injection H1 as <-. simpl in IH. destruct IH as (P&F&O&Hp&->). do 3 eexists. split; [by apply parses_positional|].
      unfold extend. simpl. by rewrite <-app_assoc.
Qed.

Definition outcome (spec : ProgramSpec) (F : list str) (O : list MatchedOpt) (l : list MatchedArg) : MatchedExec :=
  let exec := {| program := spec_program spec; flags := F; opts := O; args := l; system_path := spec_system_path spec |} in
  match forbidden spec with Some reason => IsForbidden (ForbiddenExec exec) reason | None => Match exec end.

Definition accepts (spec : ProgramSpec) (args : list str) (m : MatchedExec) : Prop :=
  ∃ P F O l, parses spec 0 args P F O ∧ varargs (arg_patterns spec) ≤ 1 ∧ assigned (arg_patterns spec) P l
    ∧ (∀ name, name ∈ required_options spec → name ∈ matched_name <$> O) ∧ m = outcome spec F O l.

Lemma spec_check_accepts spec c m : spec_check spec c = Ok m ↔ accepts spec (call_args c) m.
Proof.
  unfold spec_check. rewrite result_bind_Ok. split.
  - intros (st&Hst&H). destruct (expecting_option_value st) as [[name t]|] eqn:Hex; [done|].
    destruct (check_args_sound _ _ _ _ _ Hst Hex) as (P&F&O&Hp&->). simpl in H.
    apply result_bind_Ok in H as (l&Hl&H). pose proof (resolve_spec (spec_program spec) P (arg_patterns spec)) as Hr.
    rewrite Hl in Hr. destruct Hr as [Hv Ha]. case_bool_decide as Hreq; [|done]. simpl in H. injection H as <-.
    exists P, F, O, l. split_and!; try done. intros name Hn%Hreq. by apply elem_of_list_to_set in Hn.
  - intros (P&F&O&l&Hp&Hv&Ha&Hreq&->). exists (extend check_start P F O). split; [by apply check_args_complete|]. simpl.
    pose proof (resolve_spec (spec_program spec) P (arg_patterns spec)) as Hr.
    destruct (resolve_observed_args_with_patterns _ _ _) as [l'|e|]; [|by destruct Hr as [_ Hno]; destruct (Hno Hv l)|done].
    destruct Hr as [_ Ha']. simpl. rewrite bool_decide_eq_true_2; [|intros name Hn; by apply elem_of_list_to_set, Hreq].
    simpl. unfold outcome. by rewrite (assigned_functional _ _ _ _ Hv Ha Ha').
Qed.

(** *** Values have their types *)

(** A cleared command is well typed: every argument and option value passed the
    check of its type. *)
Definition typed_exec (e : ValidExec) : Prop :=
  Forall (λ a, validate (arg_ty a) (arg_value a) = Ok ()) (args e)
  ∧ Forall (λ o, is_option (matched_name o) = true ∧ validate (matched_ty o) (matched_value o) = Ok ()) (opts e).

Lemma assigned_typed ms P l : assigned ms P l → Forall (λ a, validate (arg_ty a) (arg_value a) = Ok ()) l.
Proof.
  induction 1 as [|m ms a rest l _ Hv _ IH|m ms vs rest l _ _ Hf _ IH]; [constructor|by constructor|].
  apply Forall_app. split; [|done]. apply Forall_fmap. done.
Qed.

Lemma parses_typed spec i args P F O :
  parses spec i args P F O →
  Forall (λ o, is_option (matched_name o) = true ∧ validate (matched_ty o) (matched_value o) = Ok ()) O.
Proof. by induction 1; try constructor. Qed.

Lemma outcome_match spec F O l e : outcome spec F O l = Match e → forbidden spec = None ∧ opts e = O ∧ args e = l ∧ flags e = F.
Proof. unfold outcome. destruct (forbidden spec); [done|]. by intros [= <-]. Qed.

Lemma accepts_typed spec cmd e : accepts spec cmd (Match e) → typed_exec e.
Proof.
  intros (P&F&O&l&Hp&_&Ha&_&He). symmetry in He. apply outcome_match in He as (_&Ho&Hl&_). split.
  - rewrite Hl. by eapply assigned_typed.
  - rewrite Ho. by eapply parses_typed.
Qed.

(** Nothing is lost: the words of a command are its flags, its options with
    their values and its positional arguments. *)
Lemma parses_words spec i words P F O :
  parses spec i words P F O →
  words ≡ₚ F ++ (O ≫= λ o, [matched_name o; matched_value o]) ++ (pos_value <$> P).
Proof.
  induction 1 as [|i a o rest P F O _ _ _ _ _ IH|i a o t v rest P F O _ _ _ _ _ _ _ IH|i a rest P F O _ _ IH]; simpl; try rewrite IH; [done|done| |].
  - by rewrite <-!Permutation_middle.
  - rewrite (assoc_L app). etrans; [apply Permutation_middle|]. by rewrite (assoc_L app).
Qed.

Lemma assigned_values ms P l : assigned ms P l → arg_value <$> l = pos_value <$> P.
Proof.
  induction 1 as [|m ms a rest l _ _ _ IH|m ms vs rest l _ _ _ _ IH]; csimpl; [done|by rewrite IH|].
  rewrite !fmap_app, IH, <-list_fmap_compose. done.
Qed.

Definition exec_words (e : ValidExec) : list str :=
  flags e ++ (opts e ≫= λ o, [matched_name o; matched_value o]) ++ (arg_value <$> args e).

Lemma accepts_words spec words e : accepts spec words (Match e) → words ≡ₚ exec_words e.
Proof.
  intros (P&F&O&l&Hp&_&Ha&_&He). symmetry in He. apply outcome_match in He as (_&Ho&Hl&Hf). unfold exec_words.
  rewrite Ho, Hl, Hf, (assigned_values _ _ _ Ha). by eapply parses_words.
Qed.

(** ** What checking against a policy means *)

Lemma check_arg_external spec i a st e : check_arg spec i a st = Err e → internal e = false.
Proof.
  unfold check_arg, matched_opt_new. destruct (expecting_option_value st) as [[name t]|].
  - destruct (is_option a); [by intros [= <-]|]. intros [H|(?&_&H)]%result_bind_Err; [|done].
    apply result_bind_Err in H as [H|(?&_&H)]; [|done]. by apply value_external in H.
  - case_bool_decide; [by intros [= <-]|]. destruct (is_option a); [|done]. destruct (allowed_options spec !! a); [done|by intros [= <-]].
Qed.
Lemma check_args_external spec args : ∀ i st e, check_args spec i args st = Err e → internal e = false.
Proof.
  induction args as [|a args IH]; intros i st e; [done|]. simpl. intros [H|(st'&_&H)]%result_bind_Err; [by apply check_arg_external in H|by eapply IH].
Qed.

Lemma check_arg_no_crash spec i a st : check_arg spec i a st ≠ Crash.
Proof.
  unfold check_arg, matched_opt_new. destruct (expecting_option_value st) as [[name t]|].
  - destruct (is_option a); [done|]. destruct (validate t a) eqn:Hv; simpl; try done. by apply value_no_crash in Hv.
  - case_bool_decide; [done|]. destruct (is_option a); [|done]. by destruct (allowed_options spec !! a).
Qed.
Lemma check_args_no_crash spec args : ∀ i st, check_args spec i args st ≠ Crash.
Proof.
  induction args as [|a args IH]; intros i st; [done|]. simpl. destruct (check_arg spec i a st) eqn:Ha; simpl; [by apply IH|done|].
  by apply check_arg_no_crash in Ha.
Qed.

Lemma spec_check_cases spec c :
  match spec_check spec c with
  | Ok m => accepts spec (call_args c) m
  | Err e => internal e = false ∧ ∀ m, ¬ accepts spec (call_args c) m
  | Crash => False
  end.
Proof.
  destruct (spec_check spec c) as [m|e|] eqn:H; [by apply spec_check_accepts| |].
  - split; [|intros m Hm%spec_check_accepts; congruence]. unfold spec_check in H.
    apply result_bind_Err in H as [H|(st&_&H)]; [by apply check_args_external in H|].
    destruct (expecting_option_value st) as [[name t]|]; [by injection H as <-|].
    apply result_bind_Err in H as [H|(l&_&H)].
    + pose proof (resolve_spec (spec_program spec) (positional st) (arg_patterns spec)) as Hr. rewrite H in Hr. by destruct Hr.
    + case_bool_decide; [done|]. by injection H as <-.
  - unfold spec_check in H. destruct (check_args spec 0 (call_args c) check_start) as [st|e|] eqn:Hc; [simpl in H|done|by apply check_args_no_crash in Hc].
    destruct (expecting_option_value st) as [[name t]|]; [done|].
    pose proof (resolve_spec (spec_program spec) (positional st) (arg_patterns spec)) as Hr.
    destruct (resolve_observed_args_with_patterns _ _ _); simpl in H; [|done|done]. by case_bool_decide.
Qed.
