(* ===== verification/LegacyCheck.v ===== *)
(** * Checking commands against a legacy policy

    What [Policy::check], the command line and [ExecvChecker::check] promise of
    a command they clear, with a policy and commands that show the theorems at
    work. *)
From S2P Require Import Prelude Str Paths NetAddr LegacyPolicy LegacyPolicyFacts.
Import Paths LegacyPolicy.

(** ** The first specification that accepts *)

Definition first_accepting (specs : list ProgramSpec) (words : list str) (m : MatchedExec) : Prop :=
  ∃ pre spec post, specs = pre ++ spec :: post ∧ Forall (λ s, ∀ m', ¬ accepts s words m') pre ∧ accepts spec words m.

Lemma check_specs_cases specs c e0 :
  internal e0 = false →
  match check_specs specs c e0 with
  | Ok m => first_accepting specs (call_args c) m
  | Err e => internal e = false ∧ ∀ spec m, spec ∈ specs → ¬ accepts spec (call_args c) m
  | Crash => False
  end.
Proof.
  revert e0. induction specs as [|spec specs IH]; intros e0 He0; simpl.
  { split; [done|]. by intros spec m Hs%elem_of_nil. }
  pose proof (spec_check_cases spec c) as Hc. destruct (spec_check spec c) as [m|e|]; [|destruct Hc as [He Hno]|done].
  { by exists [], spec, specs. }
  specialize (IH e He). destruct (check_specs specs c e) as [m|e'|]; [| |done].
  - destruct IH as (pre&s&post&->&Hpre&Hacc). exists (spec :: pre), s, post. split; [done|]. split; [by constructor|done].
  - destruct IH as [He' Hall]. split; [done|]. intros s m [->|Hs]%elem_of_cons; [apply Hno|by apply Hall].
Qed.

Lemma find_spec {A} (f : A → bool) l :
  match List.find f l with
  | Some x => ∃ pre post, l = pre ++ x :: post ∧ Forall (λ y, f y = false) pre ∧ f x = true
  | None => Forall (λ y, f y = false) l
  end.
Proof.
  induction l as [|y l IH]; simpl; [constructor|]. destruct (f y) eqn:Hy; [by exists [], l|].
  destruct (List.find f l); [|by constructor]. destruct IH as (pre&post&->&Hpre&Hx). exists (y :: pre), post. split; [done|]. split; [by constructor|done].
Qed.

Section Check.
Context {Regex : Type} (regex_is_match : Regex → str → bool).
Implicit Types p : @Policy Regex.

(** Neither the program nor an argument is forbidden as a whole. *)
Definition clean p (c : ExecCall) : Prop :=
  Forall (λ r, regex_is_match r.1 (call_program c) = false) (forbidden_program_regexes p)
  ∧ Forall (λ a, forbidden_substring_in regex_is_match p a = false) (call_args c).

Definition specs_of p (c : ExecCall) : list ProgramSpec := get_vec (call_program c) (programs p).

Lemma policy_check_cases p c :
  match policy_check regex_is_match p c with
  | Ok (IsForbidden (ForbiddenProgram name c') reason) =>
      name = call_program c ∧ c' = c ∧ ∃ r, (r, reason) ∈ forbidden_program_regexes p ∧ regex_is_match r name = true
  | Ok (IsForbidden (ForbiddenArg a c') _) => c' = c ∧ a ∈ call_args c ∧ forbidden_substring_in regex_is_match p a = true
  | Ok m => clean p c ∧ first_accepting (specs_of p c) (call_args c) m
  | Err e => clean p c ∧ internal e = false ∧ ∀ spec m, spec ∈ specs_of p c → ¬ accepts spec (call_args c) m
  | Crash => False
  end.
Proof.
  unfold policy_check. pose proof (find_spec (λ r : Regex * str, regex_is_match r.1 (call_program c)) (forbidden_program_regexes p)) as Hr.
  destruct (List.find (λ r : Regex * str, _) _) as [[r reason]|].
  { destruct Hr as (pre&post&Heq&_&Hm). split_and!; [done..|]. exists r. split; [|done]. rewrite Heq. set_solver. }
  pose proof (find_spec (forbidden_substring_in regex_is_match p) (call_args c)) as Ha.
  destruct (List.find (forbidden_substring_in _ p) _) as [a|].
  { destruct Ha as (pre&post&Heq&_&Hm). split_and!; [done| |done]. rewrite Heq. set_solver. }
  pose proof (check_specs_cases (specs_of p c) c (NoSpecForProgram (call_program c)) eq_refl) as Hc. unfold specs_of in *.
  destruct (check_specs _ c _) as [m|e|]; [|done..].
  assert (Hm : clean p c ∧ first_accepting (get_vec (call_program c) (programs p)) (call_args c) m) by done.
  destruct m as [e|[]]; [done| | |done]; exfalso; destruct Hc as (?&spec&?&_&_&?&?&?&?&_&_&_&_&Ho);
    unfold outcome in Ho; by destruct (forbidden spec).
Qed.

Lemma accepts_functional spec words m m' : accepts spec words m → accepts spec words m' → m = m'.
Proof.
  intros H H'. pose (c := {| call_program := []; call_args := words |}).
  apply (spec_check_accepts spec c) in H, H'. congruence.
Qed.

Lemma first_accepting_functional specs words m m' :
  first_accepting specs words m → first_accepting specs words m' → m = m'.
Proof.
  intros (pre&spec&post&->&Hpre&Hacc) (pre'&spec'&post'&Heq&Hpre'&Hacc'). revert pre' Heq Hpre'.
  induction Hpre as [|s pre Hs _ IH]; intros [|s' pre'] Heq Hpre'; simpl in *; inversion Heq; subst.
  - by eapply accepts_functional.
  - inversion Hpre' as [|? ? Hno]. by destruct (Hno m).
  - by destruct (Hs m').
  - inversion Hpre'. by eapply IH.
Qed.

Lemma policy_check_match p c e :
  policy_check regex_is_match p c = Ok (Match e) ↔ clean p c ∧ first_accepting (specs_of p c) (call_args c) (Match e).
Proof.
  pose proof (policy_check_cases p c) as Hc. split; [intros Heq; by rewrite Heq in Hc|]. intros [[Hp Ha] Hf].
  rewrite List.Forall_forall in Hp. rewrite List.Forall_forall in Ha.
  assert (Hdone : ∀ m, first_accepting (specs_of p c) (call_args c) m → Ok m = Ok (E := error) (Match e)).
  { intros m Hm. f_equal. by eapply first_accepting_functional. }
  destruct (policy_check regex_is_match p c) as [[e'|[name c'|a c'|e'] reason]|e'|]; [by apply Hdone, Hc| | |by apply Hdone, Hc| |done].
  - destruct Hc as (->&->&r&Hr&Hm). apply list_elem_of_In, Hp in Hr. simpl in Hr. congruence.
  - destruct Hc as (->&Hin&Hm). apply list_elem_of_In, Ha in Hin. congruence.
  - destruct Hc as (_&_&Hno), Hf as (?&spec&?&Hs&_&Hacc). exfalso. eapply Hno; [|done]. rewrite Hs. set_solver.
Qed.

(** *** The command line *)

Definition exec_values (e : ValidExec) : list (ArgType * str) :=
  ((λ a, (arg_ty a, arg_value a)) <$> args e) ++ ((λ o, (matched_ty o, matched_value o)) <$> opts e).

Lemma might_write_files_values e : might_write_files e = existsb (λ tv : ArgType * str, might_write_file tv.1) (exec_values e).
Proof.
  unfold might_write_files, exec_values. rewrite existsb_app, orb_comm. f_equal; by induction (_ e) as [|x l IH]; simpl; rewrite ?IH.
Qed.

Lemma check_command_zero p c o :
  check_command regex_is_match p c true = Ok (o, 0%Z) ↔
  ∃ e, o = Safe e ∧ policy_check regex_is_match p c = Ok (Match e) ∧ might_write_files e = false.
Proof.
  unfold check_command. split.
  - intros H. destruct (policy_check regex_is_match p c) as [[e|cause reason]|e|]; [|done..].
    destruct (might_write_files e) eqn:Hw; [done|]. injection H as <-. eauto.
  - by intros (e&->&->&->).
Qed.
End Check.

(** ** Files *)

Section Files.
Context (absolutize_from : str → str → result str str) (absolutize : str → result str str).
Context (metadata : str → option (bool * Z)).

Definition under (folders : list str) (cwd : option str) (value : str) : Prop :=
  ∃ file, ensure_absolute_path absolutize_from absolutize value cwd = Ok file
    ∧ ∃ folder, folder ∈ folders ∧ path_starts_with file folder = true.

(** What a value of a type needs of the folders. *)
Definition confined (t : ArgType) (value : str) (cwd : option str) (readable writeable : list str) : Prop :=
  match t with
  | TypeReadableFile => under readable cwd value
  | TypeWriteableFile => under writeable cwd value
  | _ => True
  end.

Lemma folders_under folders cwd value err :
  (file ← ensure_absolute_path absolutize_from absolutize value cwd;
   if existsb (path_starts_with file) folders then Ok () else Err (err file)) = Ok () ↔ under folders cwd value.
Proof.
  rewrite result_bind_Ok. unfold under. f_equiv. intros file. f_equiv.
  destruct (existsb (path_starts_with file) folders) eqn:He; split; try done.
  - intros _. apply existsb_exists in He as (folder&Hin%list_elem_of_In&Hs). eauto.
  - intros (folder&Hin%list_elem_of_In&Hs). assert (existsb (path_starts_with file) folders = true) by (apply existsb_exists; eauto). congruence.
Qed.

Lemma check_file_confined t value cwd readable writeable :
  check_file absolutize_from absolutize t value cwd readable writeable = Ok () ↔ confined t value cwd readable writeable.
Proof. destruct t; simpl; try done; apply folders_under. Qed.

Lemma check_files_confined l cwd readable writeable :
  check_files absolutize_from absolutize l cwd readable writeable = Ok () ↔
  ∀ t value, (t, value) ∈ l → confined t value cwd readable writeable.
Proof.
  induction l as [|[t value] l IH]; simpl; [by split; [intros _ ? ? ?%elem_of_nil|]|].
  rewrite result_bind_Ok. setoid_rewrite elem_of_cons. split.
  - intros ([]&H%check_file_confined&Hl) t' value' [[= -> ->]|Hin]; [done|by apply (proj1 IH Hl)].
  - intros H. exists (). split; [apply check_file_confined, H; by left|]. apply (proj2 IH). intros t' value' Hin. apply H. by right.
Qed.

Lemma checker_check_Ok e cwd readable writeable prog :
  checker_check absolutize_from absolutize metadata e cwd readable writeable = Ok prog ↔
  (∀ t value, (t, value) ∈ exec_values e → confined t value cwd readable writeable)
  ∧ prog = default (program e) (List.find (is_executable_file metadata) (system_path e)).
Proof.
  unfold checker_check. rewrite result_bind_Ok.
  split; [intros ([]&H&[= <-]); split; [|done]; by apply check_files_confined|intros [H ->]; exists (); split; [by apply check_files_confined|done]].
Qed.
End Files.

(** ** What is promised *)

Section Promises.
Context {Regex : Type} (regex_is_match : Regex → str → bool).
Context (absolutize_from : str → str → result str str) (absolutize : str → result str str).
Context (metadata : str → option (bool * Z)).

Theorem policy_check_matches (p : @Policy Regex) c e :
  policy_check regex_is_match p c = Ok (Match e) ↔
  clean regex_is_match p c ∧ first_accepting (specs_of p c) (call_args c) (Match e).
Proof. exact (policy_check_match regex_is_match p c e). Qed.

(** Resolving positional arguments succeeds exactly when at most one
    pattern takes several arguments and the arguments split, in order, into
    one or a run of valid ones for each pattern, and the result is that split. *)
Theorem resolve_is_assignment prog words ms l :
  resolve_observed_args_with_patterns prog words ms = Ok l ↔ varargs ms ≤ 1 ∧ assigned ms words l.
Proof.
  pose proof (resolve_spec prog words ms) as Hr. split; [intros Heq; by rewrite Heq in Hr|]. intros [Hle Hl].
  destruct (resolve_observed_args_with_patterns prog words ms) as [l'|e|]; [|by destruct (proj2 Hr Hle l)|done].
  destruct Hr as [_ Hl']. by rewrite (assigned_functional _ _ _ _ Hle Hl Hl').
Qed.

(** C34. A command that the policy matches is well typed: every argument and
    every option's value is valid at the type it was given, and the words of
    the command are exactly its flags, its options with their values and its
    arguments. *)
Theorem cleared_exec_typed (p : @Policy Regex) c e :
  policy_check regex_is_match p c = Ok (Match e) → typed_exec e ∧ call_args c ≡ₚ exec_words e.
Proof.
  intros [_ (_&spec&_&_&_&Hacc)]%policy_check_match. split; [by eapply accepts_typed|by eapply accepts_words].
Qed.

(** A command that the legacy policy clears with exit code zero and that
    passes the check of its files matches nothing forbidden, has only values
    valid for their types, writes no file, reads only files under the readable
    folders, and is run as its program or an executable file of the system
    path. *)
Theorem safe_command_reads_only (p : @Policy Regex) c e cwd readable writeable prog :
  check_command regex_is_match p c true = Ok (Safe e, 0%Z) →
  checker_check absolutize_from absolutize metadata e cwd readable writeable = Ok prog →
  clean regex_is_match p c
  ∧ (∀ t value, (t, value) ∈ exec_values e →
       validate t value = Ok () ∧ t ≠ TypeWriteableFile ∧ t ≠ TypeUnknown
       ∧ (t = TypeReadableFile → under absolutize_from absolutize readable cwd value))
  ∧ (prog = program e ∨ (prog ∈ system_path e ∧ is_executable_file metadata prog = true)).
Proof.
  intros (?&[= <-]&[Hclean (_&spec&_&_&_&Hacc)]%policy_check_match&Hw)%check_command_zero [Hin ->]%checker_check_Ok.
  apply accepts_typed in Hacc as [Hargs Hopts]. split_and!; [done..| |].
  - intros t value Htv. specialize (Hin t value Htv). rewrite might_write_files_values in Hw.
    assert (might_write_file t = false) as Hmw.
    { destruct (might_write_file t) eqn:Ht; [|done]. rewrite <-Hw. symmetry. apply existsb_exists.
      exists (t, value). by split; [apply list_elem_of_In|]. }
    split_and!; [|by intros ->..|by intros ->]. apply elem_of_app in Htv as [(a&[= -> ->]&Ha)%list_elem_of_fmap|(o&[= -> ->]&Ho)%list_elem_of_fmap].
    + rewrite List.Forall_forall in Hargs. by apply Hargs, list_elem_of_In.
    + rewrite List.Forall_forall in Hopts. by apply Hopts, list_elem_of_In.
  - pose proof (find_spec (is_executable_file metadata) (system_path e)) as Hf. destruct (List.find _ _) as [x|]; simpl; [|by left].
    right. destruct Hf as (pre&post&->&_&Hx). set_solver.
Qed.
End Promises.

(** ** A policy *)

Module LegacyExample.
Definition literal_match (regex s : str) : bool := bool_decide (regex = s).
Definition from (cwd path : str) : result str str := Ok (cwd ++ lit "/" ++ path).
Definition absolute (path : str) : result str str := Ok path.
(** A file with mode [0o755]. *)
Definition stat (path : str) : option (bool * Z) := if bool_decide (path = lit "/usr/bin/head") then Some (true, 493%Z) else None.

Definition builder : result (builtin_error) (@PolicyBuilder str) :=
  b ← define_program (lit "head") (Some [lit "/bin/head"; lit "/usr/bin/head"]) None None
        (Some [opt (lit "-n") PositiveInteger None; flag (lit "-q")]) (Some [ReadableFiles]) None None None builder_new;
  b ← define_program (lit "ls") (Some [lit "/bin/ls"]) None None (Some [flag (lit "-l")]) (Some [ReadableFilesOrCwd])
        None None None b;
  b ← define_program (lit "cp") None None None None (Some [ReadableFiles; WriteableFile]) None None None b;
  forbid_program_regex Some (lit "rm") (lit "removes files") b.
Definition policy : @Policy str :=
  match builder with
  | Ok b => default (Build_Policy [] [] None) (build Some id b)
  | _ => Build_Policy [] [] None
  end.

Definition call (program : str) (args : list str) : ExecCall := {| call_program := program; call_args := args |}.
Definition head_call : ExecCall := call (lit "head") [lit "-n"; lit "10"; lit "a"; lit "b"].
Definition head_exec : ValidExec := {|
  program := lit "head"; flags := [];
  opts := [{| matched_name := lit "-n"; matched_value := lit "10"; matched_ty := TypePositiveInteger |}];
  args := [{| arg_index := 2; arg_ty := TypeReadableFile; arg_value := lit "a" |};
           {| arg_index := 3; arg_ty := TypeReadableFile; arg_value := lit "b" |}];
  system_path := [lit "/bin/head"; lit "/usr/bin/head"] |}.

Example head_matches : policy_check literal_match policy head_call = Ok (Match head_exec).
Proof. vm_compute. reflexivity. Qed.
Example cp_might_write :
  match check_command literal_match policy (call (lit "cp") [lit "a"; lit "b"]) true with Ok (Matched _, n) => n = 12%Z | _ => False end.
Proof. vm_compute. reflexivity. Qed.
Example rm_forbidden :
  match check_command literal_match policy (call (lit "rm") []) true with Ok (OutForbidden _ _, n) => n = 14%Z | _ => False end.
Proof. vm_compute. reflexivity. Qed.
Example zero_lines_unverified :
  check_command literal_match policy (call (lit "head") [lit "-n"; lit "0"; lit "a"]) true =
  Ok (Unverified (InvalidPositiveInteger (lit "0")), 13%Z).
Proof. vm_compute. reflexivity. Qed.

(** [ls] without arguments reads the current directory, which no folder needs to hold. *)
Example listing_cwd_needs_no_folder :
  match check_command literal_match policy (call (lit "ls") []) true with
  | Ok (Safe e, n) => n = 0%Z ∧ checker_check from absolute stat e (Some (lit "/secret")) [] [] = Ok (lit "ls")
  | _ => False
  end.
Proof. vm_compute. split; reflexivity. Qed.
End LegacyExample.
Import LegacyExample.

Lemma cleared_exec_typed_witness : typed_exec head_exec ∧ call_args head_call ≡ₚ exec_words head_exec.
Proof. apply (cleared_exec_typed literal_match policy head_call head_exec). vm_compute. reflexivity. Defined.

Lemma safe_command_reads_only_witness :
  under from absolute [lit "/w"] (Some (lit "/w")) (lit "a") ∧ is_executable_file stat (lit "/usr/bin/head") = true.
Proof.
  destruct (safe_command_reads_only literal_match from absolute stat policy head_call head_exec (Some (lit "/w"))
              [lit "/w"] [] (lit "/usr/bin/head")) as (_&Hv&Hp);
    [vm_compute; reflexivity|vm_compute; reflexivity|].
  split; [|vm_compute; reflexivity].
  apply (Hv TypeReadableFile (lit "a")); [|reflexivity]. left.
Defined.
