(* ===== verification/AgentPath.v ===== *)
(** * Paths of agents

    Models [protocol/src/agent_path.rs]: the tree of names that the agents of a
    session have, its validation and the resolution of references, and how the
    control plane compares a path with a prefix. *)
From S2P Require Import Prelude Str.

Module AgentPath.

(** A path is its text; [AgentPath::from_string] is the only way in. *)
Definition AgentPath : Type := str.

Definition SLASH : char := 47%N.
Definition ROOT : str := lit "/root".
Definition MORPHEUS : str := lit "/morpheus".
Definition ROOT_SEGMENT : str := lit "root".

Inductive path_error : Type :=
| NameEmpty
| NameRootReserved
| NameReserved (name : str)
| NameContainsSlash
| NameCharacters
| PathMustStartWithRoot
| PathEndsWithSlash
| RelativeEndsWithSlash
| ReferenceEmpty.
Abbreviation R := (result path_error).

Definition is_ascii_lowercase (c : char) : bool := ((97 <=? c) && (c <=? 122))%N.
Definition name_char (c : char) : bool := is_ascii_lowercase c || is_ascii_digit c || (c =? 95)%N.

Definition validate_agent_name (agent_name : str) : R () :=
  if bool_decide (agent_name = []) then Err NameEmpty
  else if bool_decide (agent_name = ROOT_SEGMENT) then Err NameRootReserved
  else if bool_decide (agent_name = lit ".") || bool_decide (agent_name = lit "..") then Err (NameReserved agent_name)
  else if contains_char agent_name SLASH then Err NameContainsSlash
  else if negb (forallb name_char agent_name) then Err NameCharacters
  else Ok ().

Fixpoint validate_segments (segments : list str) : R () :=
  match segments with
  | [] => Ok ()
  | segment :: segments => _ ← validate_agent_name segment; validate_segments segments
  end.

Definition validate_absolute_path (path : str) : R () :=
  if bool_decide (path = MORPHEUS) then Ok ()
  else
    match strip_prefix [SLASH] path with
    | None => Err PathMustStartWithRoot
    | Some stripped =>
        match split_on SLASH stripped with
        | [] => Crash
        | root :: segments =>
            if negb (bool_decide (root = ROOT_SEGMENT)) then Err PathMustStartWithRoot
            else if ends_with stripped [SLASH] then Err PathEndsWithSlash
            else validate_segments segments
        end
    end.

Definition validate_relative_reference (reference : str) : R () :=
  if ends_with reference [SLASH] then Err RelativeEndsWithSlash
  else validate_segments (split_on SLASH reference).

Definition from_string (path : str) : R AgentPath := _ ← validate_absolute_path path; Ok path.
Definition is_root (p : AgentPath) : bool := bool_decide (p = ROOT).

Definition name (p : AgentPath) : str :=
  if is_root p then ROOT_SEGMENT
  else match last (split_on SLASH p) with
       | Some segment => if bool_decide (segment = []) then ROOT_SEGMENT else segment
       | None => ROOT_SEGMENT
       end.

Definition path_join (p : AgentPath) (agent_name : str) : R AgentPath :=
  _ ← validate_agent_name agent_name; from_string (p ++ [SLASH] ++ agent_name).

Definition resolve (p : AgentPath) (reference : str) : R AgentPath :=
  if bool_decide (reference = []) then Err ReferenceEmpty
  else if bool_decide (reference = ROOT) then Ok ROOT
  else if starts_with reference [SLASH] then from_string reference
  else _ ← validate_relative_reference reference; from_string (p ++ [SLASH] ++ reference).

(** The parent that is told of the end of an agent. *)
Definition parent_agent_path (p : AgentPath) : option AgentPath :=
  match rsplit_once SLASH p with
  | Some (parent, _) => match from_string parent with Ok parent => Some parent | _ => None end
  | None => None
  end.

Definition agent_matches_prefix (agent_path : option AgentPath) (prefix : AgentPath) : bool :=
  if is_root prefix then true
  else match agent_path with
       | Some agent_path =>
           bool_decide (agent_path = prefix)
           || match strip_prefix prefix agent_path with
              | Some suffix => starts_with suffix [SLASH]
              | None => false
              end
       | None => false
       end.

(** ** What a valid path is *)

Definition valid_name (n : str) : Prop := n ≠ [] ∧ n ≠ ROOT_SEGMENT ∧ Forall (λ c, name_char c = true) n.

(** The path of the agent that these names lead to from the root. *)
Definition path_of (names : list str) : AgentPath := SLASH :: join [SLASH] (ROOT_SEGMENT :: names).

Definition valid_path (p : AgentPath) : Prop := p = MORPHEUS ∨ ∃ names, p = path_of names ∧ Forall valid_name names.

Lemma slash_not_name_char : name_char SLASH = false.
Proof. reflexivity. Qed.

Lemma valid_name_no_slash n : valid_name n → SLASH ∉ n.
Proof. intros (_&_&Hc) Hin. rewrite List.Forall_forall in Hc. apply list_elem_of_In, Hc in Hin. by rewrite slash_not_name_char in Hin. Qed.

Lemma contains_char_spec s c : contains_char s c = true ↔ c ∈ s.
Proof.
  unfold contains_char. rewrite existsb_exists. split.
  - intros (x&Hx&Heq). apply N.eqb_eq in Heq as ->. by apply list_elem_of_In.
  - intros Hc. exists c. split; [by apply list_elem_of_In|apply N.eqb_refl].
Qed.

Lemma validate_agent_name_Ok n u : validate_agent_name n = Ok u ↔ valid_name n.
Proof.
  destruct u. unfold validate_agent_name, valid_name. split.
  - intros H. repeat case_bool_decide; simpl in H; try done. destruct (contains_char n SLASH); [done|].
    destruct (forallb name_char n) eqn:Hf; [|done]. split_and!; [done..|]. by apply forallb_Forall.
  - intros (Hn&Hr&Hc). rewrite (bool_decide_eq_false_2 (n = [])), (bool_decide_eq_false_2 (n = ROOT_SEGMENT)) by done.
    rewrite (bool_decide_eq_false_2 (n = lit ".")), (bool_decide_eq_false_2 (n = lit ".."));
      [|by intros ->; apply forallb_Forall in Hc..]. simpl. destruct (contains_char n SLASH) eqn:Hs.
    + apply contains_char_spec in Hs. by destruct (valid_name_no_slash n).
    + by rewrite (proj2 (forallb_Forall _ _) Hc).
Qed.

Lemma validate_segments_Ok l u : validate_segments l = Ok u ↔ Forall valid_name l.
Proof.
  induction l as [|n l IH]; simpl; [destruct u; by split|]. rewrite Forall_cons, result_bind_Ok, <-IH. split.
  - by intros ([]&?%validate_agent_name_Ok&?).
  - intros [Hn Hl]. exists (). by split; [apply validate_agent_name_Ok|].
Qed.

Lemma valid_names_no_slash names : Forall valid_name names → Forall (λ n, SLASH ∉ n) names.
Proof. intros Hn. eapply Forall_impl; [exact Hn|]. exact valid_name_no_slash. Qed.

Lemma split_path_of names : Forall valid_name names → split_on SLASH (join [SLASH] (ROOT_SEGMENT :: names)) = ROOT_SEGMENT :: names.
Proof. intros Hn. apply split_on_join; [done|]. constructor; [|by apply valid_names_no_slash]. intros Hin. by apply contains_char_spec in Hin. Qed.

Lemma path_of_app names names' : names' ≠ [] → path_of (names ++ names') = path_of names ++ [SLASH] ++ join [SLASH] names'.
Proof. intros Hne. unfold path_of. by rewrite app_comm_cons, join_app_sep. Qed.

Lemma path_of_not_slash_end names : Forall valid_name names → last (join [SLASH] (ROOT_SEGMENT :: names)) ≠ Some SLASH.
Proof.
  intros Hn. destruct (exists_last (l := ROOT_SEGMENT :: names) ltac:(done)) as (l&n&Heq).
  assert (Hvn : n ≠ [] ∧ SLASH ∉ n).
  { assert (Hin : n ∈ ROOT_SEGMENT :: names) by (rewrite Heq; set_solver).
    apply elem_of_cons in Hin as [->|Hin]; [split; [done|]; intros Hin; by apply contains_char_spec in Hin|].
    rewrite List.Forall_forall in Hn. apply list_elem_of_In, Hn in Hin. split; [by destruct Hin|by apply valid_name_no_slash]. }
  rewrite Heq. destruct Hvn as [Hne Hs]. destruct (exists_last Hne) as (n'&c&->).
  assert (Hc : c ≠ SLASH) by (intros ->; apply Hs; set_solver).
  destruct l as [|x l]; [simpl; rewrite last_snoc; congruence|].
  rewrite join_snoc by done. rewrite !(assoc_L app), last_snoc. congruence.
Qed.

Lemma ends_with_last s c : ends_with s [c] = true ↔ last s = Some c.
Proof.
  rewrite ends_with_spec. split; [intros [r ->]; by rewrite last_snoc|].
  intros H. destruct s as [|x s] using rev_ind; [done|]. rewrite last_snoc in H. injection H as ->. by exists s.
Qed.

Lemma validate_absolute_path_Ok p u : validate_absolute_path p = Ok u ↔ valid_path p.
Proof.
  unfold validate_absolute_path, valid_path. destruct u. case_bool_decide as Hm; [by split; [left|]|].
  split.
  - intros H. right. destruct (strip_prefix [SLASH] p) as [stripped|] eqn:Hs; [|done]. apply strip_prefix_Some in Hs as ->.
    destruct (split_on SLASH stripped) as [|root names] eqn:Hsp; [done|]. case_bool_decide as Hr; simpl in H; [subst root|done].
    destruct (ends_with stripped [SLASH]); [done|]. apply validate_segments_Ok in H. exists names. split; [|done].
    unfold path_of. rewrite <-Hsp. by rewrite join_split_on.
  - intros [->|(names&->&Hn)]; [done|]. 
    assert (strip_prefix [SLASH] (path_of names) = Some (join [SLASH] (ROOT_SEGMENT :: names))) as -> by reflexivity.
    rewrite split_path_of by done.
    rewrite bool_decide_eq_true_2 by done. cbn [negb].
    destruct (ends_with _ _) eqn:He; [apply ends_with_last in He; by apply path_of_not_slash_end in He|]. by apply validate_segments_Ok.
Qed.

Lemma from_string_Ok p q : from_string p = Ok q ↔ q = p ∧ valid_path p.
Proof.
  unfold from_string. rewrite result_bind_Ok. split; [intros (u&H&[= <-])|intros [-> H]; exists ()]; split; try done;
    by eapply validate_absolute_path_Ok.
Qed.

(** ** Operations on the names of a path *)

Lemma path_of_inj names names' :
  Forall valid_name names → Forall valid_name names' → path_of names = path_of names' → names = names'.
Proof.
  intros Hn Hn' Heq. apply (f_equal (λ p, split_on SLASH (tail p))) in Heq. unfold path_of in Heq. cbn [tail] in Heq.
  rewrite !split_path_of in Heq by done. by injection Heq.
Qed.

Lemma morpheus_not_path_of names : MORPHEUS ≠ path_of names.
Proof. unfold MORPHEUS, path_of, ROOT_SEGMENT. by destruct names. Qed.

Lemma path_of_nil : path_of [] = ROOT.
Proof. reflexivity. Qed.

Lemma valid_path_of names : Forall valid_name names → valid_path (path_of names).
Proof. intros Hn. right. by exists names. Qed.

Lemma path_join_Ok p n q :
  valid_path p →
  path_join p n = Ok q ↔ valid_name n ∧ ∃ names, Forall valid_name names ∧ p = path_of names ∧ q = path_of (names ++ [n]).
Proof.
  intros Hp. unfold path_join. rewrite result_bind_Ok. split.
  - intros (u&Hn%validate_agent_name_Ok&[-> Hq]%from_string_Ok). split; [done|]. destruct Hp as [->|(names&->&Hns)].
    + destruct Hq as [Hq|(names&Hq&_)]; [|by unfold MORPHEUS, path_of, ROOT_SEGMENT in Hq; destruct names].
      apply (f_equal length) in Hq. rewrite length_app in Hq. simpl in Hq. lia.
    + exists names. split_and!; [done..|]. by rewrite path_of_app.
  - intros (Hn&names&Hns&->&->). exists (). split; [by apply validate_agent_name_Ok|].
    apply from_string_Ok. rewrite path_of_app by done. split; [done|]. right. exists (names ++ [n]).
    rewrite path_of_app by done. split; [done|]. apply Forall_app. split; [done|by constructor].
Qed.

Lemma name_of_child names n : Forall valid_name names → valid_name n → name (path_of (names ++ [n])) = n.
Proof.
  intros Hns Hn. assert (Hall : Forall valid_name (names ++ [n])) by (apply Forall_app; split; [done|by constructor]).
  unfold name, is_root. rewrite bool_decide_eq_false_2.
  - change (path_of (names ++ [n])) with ([] ++ SLASH :: join [SLASH] (ROOT_SEGMENT :: (names ++ [n]))).
    rewrite split_on_app_sep by apply not_elem_of_nil. rewrite split_path_of by done.
    rewrite !app_comm_cons, last_snoc. rewrite bool_decide_eq_false_2; [done|by destruct Hn].
  - rewrite <-path_of_nil. intros Heq. apply path_of_inj in Heq; [by destruct names|done|constructor].
Qed.

Lemma last_piece names n : Forall valid_name names → valid_name n → rsplit_once SLASH (path_of (names ++ [n])) = Some (path_of names, n).
Proof.
  intros Hns Hn. rewrite path_of_app by done. unfold rsplit_once. simpl join. rewrite !reverse_app, reverse_singleton.
  assert (Hno : SLASH ∉ reverse n) by (rewrite elem_of_reverse; by apply valid_name_no_slash).
  assert (Hsplit : ∀ l s, SLASH ∉ l → split_once SLASH (l ++ SLASH :: s) = Some (l, s)).
  { induction l as [|c l IH]; intros s Hl; simpl; [done|]. apply not_elem_of_cons in Hl as [Hc Hl].
    destruct (N.eqb_spec c SLASH); [congruence|]. by rewrite IH. }
  rewrite <-(assoc_L app). simpl. rewrite Hsplit by done. by rewrite !reverse_involutive.
Qed.

Lemma parent_of_child names n : Forall valid_name names → valid_name n → parent_agent_path (path_of (names ++ [n])) = Some (path_of names).
Proof.
  intros Hns Hn. unfold parent_agent_path. rewrite last_piece by done.
  assert (Hf : from_string (path_of names) = Ok (path_of names)) by (apply from_string_Ok; split; [done|by apply valid_path_of]).
  by rewrite Hf.
Qed.

Lemma join_names_head names : names ≠ [] → Forall valid_name names → ∃ c s, join [SLASH] names = c :: s ∧ c ≠ SLASH.
Proof.
  intros Hne Hn. destruct Hn as [|n names Hv Hn]; [done|]. pose proof (valid_name_no_slash n Hv) as Hs. destruct Hv as [Hv _].
  destruct n as [|c n]; [done|]. apply not_elem_of_cons in Hs as [Hc _]. destruct names; simpl; eauto.
Qed.

Lemma join_names_not_slash_end names : Forall valid_name names → last (join [SLASH] names) ≠ Some SLASH.
Proof.
  intros Hn Hl. apply (path_of_not_slash_end names Hn). destruct names as [|n names]; [done|].
  rewrite join_cons by done. rewrite !(assoc_L app), last_app, Hl. done.
Qed.

Lemma validate_relative_reference_Ok r u :
  validate_relative_reference r = Ok u ↔ ∃ names, names ≠ [] ∧ Forall valid_name names ∧ r = join [SLASH] names.
Proof.
  unfold validate_relative_reference. split.
  - destruct (ends_with r [SLASH]); [done|]. intros H%validate_segments_Ok. exists (split_on SLASH r).
    destruct (split_on_cons SLASH r) as (x&l&Hsp). split_and!; [by rewrite Hsp|done|by rewrite join_split_on].
  - intros (names&Hne&Hn&->). destruct (ends_with _ _) eqn:He; [apply ends_with_last in He; by apply join_names_not_slash_end in He|].
    rewrite split_on_join by (try done; by apply valid_names_no_slash). by apply validate_segments_Ok.
Qed.

(** A reference that starts with a slash names a path of its own; another one
    leads down from where it is used, which is never [/morpheus]. *)
Lemma resolve_Ok p r q :
  valid_path p →
  resolve p r = Ok q ↔
  (valid_path q ∧ q = r)
  ∨ ∃ above below, Forall valid_name above ∧ Forall valid_name below ∧ below ≠ []
      ∧ p = path_of above ∧ r = join [SLASH] below ∧ q = path_of (above ++ below).
Proof.
  intros Hp. unfold resolve. case_bool_decide as Hr0; [subst r|case_bool_decide as Hr1; [subst r|]].
  - split; [done|]. intros [[[->|(names&->&_)] Hq]|(above&below&_&Hb&Hne&_&Hr&_)]; try done.
    destruct (join_names_head below Hne Hb) as (c&s&Hj&_). congruence.
  - split; [intros [= <-]; left; split; [right; by exists []|done]|].
    intros [[_ ->]|(above&below&_&Hb&Hne&_&Hr&_)]; [done|]. destruct (join_names_head below Hne Hb) as (c&s&Hj&Hc).
    rewrite Hj in Hr. unfold ROOT in Hr. injection Hr as <- _. done.
  - destruct (starts_with r [SLASH]) eqn:Hs.
    + rewrite from_string_Ok. split; [intros [-> Hq]; by left|]. intros [[Hq ->]|(above&below&_&Hb&Hne&_&->&_)]; [done|].
      destruct (join_names_head below Hne Hb) as (c&s&Hj&Hc). rewrite Hj in Hs. apply starts_with_spec in Hs as [k [= -> _]]. done.
    + rewrite result_bind_Ok. split.
      * intros (u&(below&Hne&Hb&->)%validate_relative_reference_Ok&[-> Hq]%from_string_Ok). right. destruct Hp as [->|(above&->&Ha)].
        { exfalso. destruct Hq as [Hq|(names&Hq&_)]; [|by unfold MORPHEUS, path_of, ROOT_SEGMENT in Hq; destruct names].
          apply (f_equal length) in Hq. rewrite length_app in Hq. simpl in Hq. lia. }
        exists above, below. split_and!; try done. by rewrite path_of_app.
      * intros [[[->|(names&->&_)] <-]|(above&below&Ha&Hb&Hne&->&->&->)]; [done| |].
        { by unfold path_of in Hs. }
        exists (). split; [by apply validate_relative_reference_Ok; exists below|]. rewrite path_of_app by done.
        apply from_string_Ok. split; [done|]. rewrite <-path_of_app by done. apply valid_path_of. by apply Forall_app.
Qed.

(** A prefix matches the paths at and below it, and nothing that only looks
    like it: [/root/ab] is not below [/root/a]. *)
Lemma matches_prefix names pre :
  Forall valid_name names → Forall valid_name pre →
  agent_matches_prefix (Some (path_of names)) (path_of pre) = true ↔ pre `prefix_of` names.
Proof.
  intros Hn Hp. unfold agent_matches_prefix, is_root. case_bool_decide as Hr.
  { rewrite <-path_of_nil in Hr. apply path_of_inj in Hr as ->; [|done|constructor]. split; [|done]. intros _. apply prefix_nil. }
  rewrite orb_true_iff, bool_decide_eq_true. split.
  - intros [Heq|Hs]; [by apply path_of_inj in Heq as ->|].
    destruct (strip_prefix (path_of pre) (path_of names)) as [suffix|] eqn:Hst; [|done]. apply strip_prefix_Some in Hst.
    apply starts_with_spec in Hs as [rest ->].
    apply (f_equal (λ p, split_on SLASH (tail p))) in Hst. unfold path_of in Hst. cbn [tail app] in Hst.
    change (([SLASH] ++ rest)) with (SLASH :: rest) in Hst. rewrite split_on_app_any, !split_path_of in Hst by done.
    injection Hst as ->. by eexists.
  - intros [more ->]. destruct more as [|n more]; [left; by rewrite app_nil_r|right].
    rewrite path_of_app by done. rewrite strip_prefix_app. by apply starts_with_spec; eexists.
Qed.
End AgentPath.
