(* ===== verification/AgentRegistry.v ===== *)
(** * The registry of sub-agents

    Models [core/src/agent/registry.rs] and the part of
    [core/src/agent/control.rs] that uses it: spawn slots counted by an atomic,
    the tree of live agents and their nicknames behind a mutex, reservations
    that give everything back when they are dropped, and the task that spawns an
    agent, one access to shared memory at a time.  A thread id is its text; the
    iteration order of a hash map, the random choice of a nickname and the
    creation of threads are parameters. *)
From S2P Require Import Prelude Str Io AgentPath.
Import AgentPath.

Module AgentRegistry.

Abbreviation ThreadId := str.

Record AgentMetadata : Type := {
  agent_id : option ThreadId;
  agent_path : option AgentPath;
  agent_nickname : option str;
  agent_role : option str;
  last_task_message : option str;
}.
Definition metadata_default : AgentMetadata := Build_AgentMetadata None None None None None.

Record ActiveAgents : Type := {
  agent_tree : gmap str AgentMetadata;
  used_agent_nicknames : gset str;
  nickname_reset_count : nat;
}.
Record AgentRegistry : Type := { active_agents : ActiveAgents; total_count : N }.
Definition registry_default : AgentRegistry := Build_AgentRegistry (Build_ActiveAgents ∅ ∅ 0) 0.

Inductive error : Type :=
| AgentLimitReached (max_threads : N)
| NoAvailableNicknames
| AgentPathExists (path : AgentPath)
| ThreadError (message : str).
Abbreviation R := (result error).

Definition with_tree (tree : gmap str AgentMetadata) (a : ActiveAgents) : ActiveAgents := {|
  agent_tree := tree; used_agent_nicknames := used_agent_nicknames a; nickname_reset_count := nickname_reset_count a |}.
Definition with_active (a : ActiveAgents) (g : AgentRegistry) : AgentRegistry := {|
  active_agents := a; total_count := total_count g |}.
Definition on_active (f : ActiveAgents → ActiveAgents) (g : AgentRegistry) : AgentRegistry := with_active (f (active_agents g)) g.

(** [AtomicUsize::fetch_add] and [fetch_sub] of one, which wrap around. *)
Definition USIZE : N := 2 ^ 64.
Definition fetch_add (g : AgentRegistry) : AgentRegistry := {|
  active_agents := active_agents g; total_count := (total_count g + 1) mod USIZE |}.
Definition fetch_sub (g : AgentRegistry) : AgentRegistry := {|
  active_agents := active_agents g; total_count := (total_count g + USIZE - 1) mod USIZE |}.

(** ** Nicknames and depth *)

Definition ordinal_suffix (value : nat) : str :=
  if (11 <=? value mod 100) && (value mod 100 <=? 13) then lit "th"
  else match value mod 10 with 1 => lit "st" | 2 => lit "nd" | 3 => lit "rd" | _ => lit "th" end.
Definition format_agent_nickname (name : str) (nickname_reset_count : nat) : str :=
  match nickname_reset_count with
  | 0 => name
  | reset_count => let value := reset_count + 1 in name ++ lit " the " ++ show_nat value ++ ordinal_suffix value
  end.

Inductive SubAgentSource : Type :=
| Review
| Compact
| ThreadSpawn (parent_thread_id : ThreadId) (depth : Z) (agent_path : option AgentPath) (agent_nickname agent_role : option str)
| MemoryConsolidation
| OtherSource (name : str).
Inductive SessionSource : Type := Cli | VSCode | Exec | Mcp | Custom (name : str) | SubAgent (s : SubAgentSource) | Unknown.

Definition get_agent_path (s : SessionSource) : option AgentPath :=
  match s with
  | SubAgent (ThreadSpawn _ _ p _ _) => p
  | SubAgent MemoryConsolidation => Some MORPHEUS
  | _ => None
  end.
Definition session_depth (s : SessionSource) : Z := match s with SubAgent (ThreadSpawn _ depth _ _ _) => depth | _ => 0 end.
Definition I32_MAX : Z := 2 ^ 31 - 1.
Definition next_thread_spawn_depth (s : SessionSource) : Z := Z.min (session_depth s + 1) I32_MAX.
Definition exceeds_thread_spawn_depth_limit (depth max_depth : Z) : bool := (max_depth <? depth)%Z.
Definition thread_spawn_parent_thread_id (s : SessionSource) : option ThreadId :=
  match s with SubAgent (ThreadSpawn parent _ _ _ _) => Some parent | _ => None end.

(** The source that the spawn tools give a child, named by its task if it has one. *)
Definition thread_spawn_source (parent_thread_id : ThreadId) (parent_session_source : SessionSource) (depth : Z)
    (agent_role task_name : option str) : result path_error SessionSource :=
  agent_path ← match task_name with
               | Some task_name => Some <$> path_join (default ROOT (get_agent_path parent_session_source)) task_name
               | None => Ok None
               end;
  Ok (SubAgent (ThreadSpawn parent_thread_id depth agent_path None agent_role)).

(** ** The sections under the lock *)

Definition metadata_is_root (md : AgentMetadata) : bool := match agent_path md with Some p => is_root p | None => false end.
Definition has_id (thread_id : ThreadId) (md : AgentMetadata) : bool := bool_decide (agent_id md = Some thread_id).

Definition root_metadata (thread_id : ThreadId) : AgentMetadata := {|
  agent_id := Some thread_id; agent_path := Some ROOT; agent_nickname := None; agent_role := None; last_task_message := None |}.
Definition register_root_thread (thread_id : ThreadId) (a : ActiveAgents) : ActiveAgents :=
  match agent_tree a !! ROOT with
  | Some _ => a
  | None => with_tree (<[ROOT := root_metadata thread_id]> (agent_tree a)) a
  end.

Definition agent_id_for_path (p : AgentPath) (a : ActiveAgents) : option ThreadId := agent_tree a !! (p : str) ≫= agent_id.

Definition agent_key (md : AgentMetadata) (thread_id : ThreadId) : str := default (lit "thread:" ++ thread_id) (agent_path md).
Definition register_spawned_thread (md : AgentMetadata) (a : ActiveAgents) : ActiveAgents :=
  match agent_id md with
  | None => a
  | Some thread_id => {|
      agent_tree := <[agent_key md thread_id := md]> (agent_tree a);
      used_agent_nicknames := match agent_nickname md with
                              | Some nickname => {[nickname]} ∪ used_agent_nicknames a
                              | None => used_agent_nicknames a
                              end;
      nickname_reset_count := nickname_reset_count a |}
  end.

(** [IndexedRandom::choose] with a random number. *)
Definition choose {A} (l : list A) (random : nat) : option A := l !! (random mod length l).

Definition reserve_agent_nickname (names : list str) (preferred : option str) (random : nat) (a : ActiveAgents)
    : ActiveAgents * option str :=
  let use a nickname := ({| agent_tree := agent_tree a; used_agent_nicknames := {[nickname]} ∪ used_agent_nicknames a;
                            nickname_reset_count := nickname_reset_count a |}, Some nickname) in
  match preferred with
  | Some preferred => use a preferred
  | None =>
      if bool_decide (names = []) then (a, None)
      else
        let available_names := filter (λ n, n ∉ used_agent_nicknames a)
                                 ((λ n, format_agent_nickname n (nickname_reset_count a)) <$> names) in
        match choose available_names random with
        | Some nickname => use a nickname
        | None =>
            let a := {| agent_tree := agent_tree a; used_agent_nicknames := ∅;
                        nickname_reset_count := nickname_reset_count a + 1 |} in
            match choose names random with
            | Some n => use a (format_agent_nickname n (nickname_reset_count a))
            | None => (a, None)
            end
        end
  end.

Definition placeholder (p : AgentPath) : AgentMetadata := {|
  agent_id := None; agent_path := Some p; agent_nickname := None; agent_role := None; last_task_message := None |}.
Definition reserve_agent_path (p : AgentPath) (a : ActiveAgents) : R ActiveAgents :=
  match agent_tree a !! (p : str) with
  | Some _ => Err (AgentPathExists p)
  | None => Ok (with_tree (<[(p : str) := placeholder p]> (agent_tree a)) a)
  end.
Definition release_reserved_agent_path (p : AgentPath) (a : ActiveAgents) : ActiveAgents :=
  match agent_tree a !! (p : str) with
  | Some md => if bool_decide (agent_id md = None) then with_tree (delete (p : str) (agent_tree a)) a else a
  | None => a
  end.

Section Iteration.
(** The order in which a [HashMap] is iterated. *)
Context (iter : gmap str AgentMetadata → list (str * AgentMetadata)).

(** The locked part of [release_spawned_thread]: whether a counted agent was removed. *)
Definition release_remove (thread_id : ThreadId) (a : ActiveAgents) : ActiveAgents * bool :=
  match List.find (λ e, has_id thread_id e.2) (iter (agent_tree a)) with
  | None => (a, false)
  | Some (key, _) =>
      match agent_tree a !! key with
      | Some md => (with_tree (delete key (agent_tree a)) a, negb (metadata_is_root md))
      | None => (a, false)
      end
  end.

Definition release_spawned_thread (thread_id : ThreadId) (g : AgentRegistry) : AgentRegistry :=
  let '(a, removed_counted_agent) := release_remove thread_id (active_agents g) in
  if removed_counted_agent then fetch_sub (with_active a g) else with_active a g.

Definition agent_metadata_for_thread (thread_id : ThreadId) (a : ActiveAgents) : option AgentMetadata :=
  List.find (has_id thread_id) (snd <$> iter (agent_tree a)).

Definition is_live_agent (md : AgentMetadata) : bool := bool_decide (is_Some (agent_id md)) && negb (metadata_is_root md).
Definition live_agents (a : ActiveAgents) : list AgentMetadata := List.filter is_live_agent (snd <$> iter (agent_tree a)).

Definition with_task_message (message : str) (md : AgentMetadata) : AgentMetadata := {|
  agent_id := agent_id md; agent_path := agent_path md; agent_nickname := agent_nickname md; agent_role := agent_role md;
  last_task_message := Some message |}.
Definition update_last_task_message (thread_id : ThreadId) (message : str) (a : ActiveAgents) : ActiveAgents :=
  match List.find (λ e, has_id thread_id e.2) (iter (agent_tree a)) with
  | Some (key, md) => with_tree (<[key := with_task_message message md]> (agent_tree a)) a
  | None => a
  end.
End Iteration.
End AgentRegistry.
