(* ===== verification/AgentSpawn.v ===== *)
(** * Spawning agents

    The tasks that spawn, resume and release agents, as [AgentControl] runs them
    concurrently over one registry: each access to the atomic or section under
    the lock is one step, in the order of [spawn_agent_internal],
    [prepare_thread_spawn], [SpawnReservation] and [release_spawned_thread]. *)
From S2P Require Import Prelude Str AgentPath AgentRegistry.
Import AgentPath AgentRegistry.

Module AgentSpawn.

(** What a spawn or a resume is asked for: the limit of its configuration, the
    source of its session, the candidate nicknames of its role, and of a resumed
    agent the nickname it had and the id of its thread, which it keeps. *)
Record SpawnRequest : Type := {
  agent_max_threads : option N;
  session_source : option SessionSource;
  candidate_names : list str;
  preferred_agent_nickname : option str;
  resumed_thread_id : option ThreadId;
}.

Record SpawnReservation : Type := {
  active : bool;
  reserved_agent_nickname : option str;
  reserved_agent_path : option AgentPath;
}.
Definition new_reservation : SpawnReservation := Build_SpawnReservation true None None.
Definition with_reserved_path (p : AgentPath) (r : SpawnReservation) : SpawnReservation := {|
  active := active r; reserved_agent_nickname := reserved_agent_nickname r; reserved_agent_path := Some p |}.
Definition with_reserved_nickname (nickname : str) (r : SpawnReservation) : SpawnReservation := {|
  active := active r; reserved_agent_nickname := Some nickname; reserved_agent_path := reserved_agent_path r |}.
(** What [commit] leaves for the destructor: nothing. *)
Definition committed (r : SpawnReservation) : SpawnReservation := Build_SpawnReservation false None None.

Definition with_id (thread_id : ThreadId) (md : AgentMetadata) : AgentMetadata := {|
  agent_id := Some thread_id; agent_path := agent_path md; agent_nickname := agent_nickname md; agent_role := agent_role md;
  last_task_message := last_task_message md |}.
Definition prepared_metadata (agent_path : option AgentPath) (nickname : str) (agent_role : option str) : AgentMetadata := {|
  agent_id := None; agent_path := agent_path; agent_nickname := Some nickname; agent_role := agent_role;
  last_task_message := None |}.

(** Where a task is. *)
Inductive task : Type :=
| Starting (q : SpawnRequest)
| Counting (q : SpawnRequest) (max_threads current : N)
| Reserved (q : SpawnRequest) (r : SpawnReservation)
| RootKnown (q : SpawnRequest) (r : SpawnReservation)
| PathReserved (q : SpawnRequest) (r : SpawnReservation)
| Prepared (q : SpawnRequest) (r : SpawnReservation) (md : AgentMetadata)
| Created (r : SpawnReservation) (md : AgentMetadata)
| Dropping (r : SpawnReservation) (outcome : R AgentMetadata)
| Releasing (thread_id : ThreadId)
| Subtracting (outcome : R AgentMetadata)
| Finished (outcome : R AgentMetadata).

Definition store_count (n : N) (g : AgentRegistry) : AgentRegistry := {| active_agents := active_agents g; total_count := n |}.

Section Tasks.
Context (iter : gmap str AgentMetadata → list (str * AgentMetadata)).

(** One step of a task on the registry, [fresh] telling which thread ids the
    thread manager can give to a new thread, [resumable] which threads it can
    resume. *)
Inductive task_step (fresh resumable : ThreadId → Prop) : AgentRegistry → task → AgentRegistry → task → Prop :=
(* [reserve_spawn_slot] and [try_increment_spawned] *)
| step_unlimited g q :
    agent_max_threads q = None → task_step fresh resumable g (Starting q) (fetch_add g) (Reserved q new_reservation)
| step_load g q m : agent_max_threads q = Some m → task_step fresh resumable g (Starting q) g (Counting q m (total_count g))
| step_limit g q m current :
    (m <= current)%N → task_step fresh resumable g (Counting q m current) g (Finished (Err (AgentLimitReached m)))
| step_exchange g q m current :
    (current < m)%N → total_count g = current →
    task_step fresh resumable g (Counting q m current) (store_count (current + 1) g) (Reserved q new_reservation)
| step_exchange_fails g q m current :
    (current < m)%N → task_step fresh resumable g (Counting q m current) g (Counting q m (total_count g))
| step_cancelled g q r message : task_step fresh resumable g (Reserved q r) g (Dropping r (Err (ThreadError message)))
(* [prepare_thread_spawn] *)
| step_root g q r parent path nickname role :
    session_source q = Some (SubAgent (ThreadSpawn parent 1 path nickname role)) →
    task_step fresh resumable g (Reserved q r) (on_active (register_root_thread parent) g) (RootKnown q r)
| step_no_root g q r parent depth path nickname role :
    session_source q = Some (SubAgent (ThreadSpawn parent depth path nickname role)) → depth ≠ 1%Z →
    task_step fresh resumable g (Reserved q r) g (RootKnown q r)
| step_other_source g q r :
    (session_source q ≫= thread_spawn_parent_thread_id) = None →
    task_step fresh resumable g (Reserved q r) g (Prepared q r metadata_default)
| step_no_path g q r parent depth nickname role :
    session_source q = Some (SubAgent (ThreadSpawn parent depth None nickname role)) →
    task_step fresh resumable g (RootKnown q r) g (PathReserved q r)
| step_path g q r parent depth p nickname role a :
    session_source q = Some (SubAgent (ThreadSpawn parent depth (Some p) nickname role)) →
    reserve_agent_path p (active_agents g) = Ok a →
    task_step fresh resumable g (RootKnown q r) (with_active a g) (PathReserved q (with_reserved_path p r))
| step_path_taken g q r parent depth p nickname role e :
    session_source q = Some (SubAgent (ThreadSpawn parent depth (Some p) nickname role)) →
    reserve_agent_path p (active_agents g) = Err e →
    task_step fresh resumable g (RootKnown q r) g (Dropping r (Err e))
| step_nickname g q r parent depth path n role random a nickname :
    session_source q = Some (SubAgent (ThreadSpawn parent depth path n role)) →
    reserve_agent_nickname (candidate_names q) (preferred_agent_nickname q) random (active_agents g) = (a, Some nickname) →
    task_step fresh resumable g (PathReserved q r) (with_active a g)
      (Prepared q (with_reserved_nickname nickname r) (prepared_metadata path nickname role))
| step_no_nickname g q r random a :
    reserve_agent_nickname (candidate_names q) (preferred_agent_nickname q) random (active_agents g) = (a, None) →
    task_step fresh resumable g (PathReserved q r) (with_active a g) (Dropping r (Err NoAvailableNicknames))
(* the thread manager creates the thread, or the task fails or is cancelled *)
| step_created g q r md thread_id :
    resumed_thread_id q = None → fresh thread_id →
    task_step fresh resumable g (Prepared q r md) g (Created r (with_id thread_id md))
| step_resumed g q r md thread_id :
    resumed_thread_id q = Some thread_id → resumable thread_id →
    task_step fresh resumable g (Prepared q r md) g (Created r (with_id thread_id md))
| step_not_created g q r md message :
    task_step fresh resumable g (Prepared q r md) g (Dropping r (Err (ThreadError message)))
(* [SpawnReservation::commit] and [drop] *)
| step_commit g r md :
    task_step fresh resumable g (Created r md) (on_active (register_spawned_thread md) g) (Dropping (committed r) (Ok md))
| step_drop_inactive g r o :
    active r = false → task_step fresh resumable g (Dropping r o) g (Finished o)
| step_drop_path g r o p :
    active r = true → reserved_agent_path r = Some p →
    task_step fresh resumable g (Dropping r o) (on_active (release_reserved_agent_path p) g) (Subtracting o)
| step_drop_no_path g r o :
    active r = true → reserved_agent_path r = None → task_step fresh resumable g (Dropping r o) g (Subtracting o)
(* [release_spawned_thread] *)
| step_release g thread_id a counted :
    release_remove iter thread_id (active_agents g) = (a, counted) →
    task_step fresh resumable g (Releasing thread_id) (with_active a g)
      (if counted then Subtracting (Ok metadata_default) else Finished (Ok metadata_default))
| step_subtract g o : task_step fresh resumable g (Subtracting o) (fetch_sub g) (Finished o).

(** ** The session *)

(** [replaced] is not of the program: how many commits put their agent in the
    place of a live one. *)
Record world : Type := { registry : AgentRegistry; tasks : list task; replaced : nat }.
Definition replaces (g : AgentRegistry) (t : task) : bool :=
  match t with
  | Created _ md =>
      match agent_id md with
      | Some thread_id =>
          match agent_tree (active_agents g) !! agent_key md thread_id with Some old => is_live_agent old | None => false end
      | None => false
      end
  | _ => false
  end.
Definition with_tasks (l : list task) (w : world) : world := {| registry := registry w; tasks := l; replaced := replaced w |}.
Definition with_registry (g : AgentRegistry) (w : world) : world := {| registry := g; tasks := tasks w; replaced := replaced w |}.
Definition after_step (i : nat) (t : task) (g : AgentRegistry) (t' : task) (w : world) : world := {|
  registry := g; tasks := <[i := t']> (tasks w); replaced := replaced w + if replaces (registry w) t then 1 else 0 |}.

(** A thread id that no agent and no thread about to be committed has. *)
Definition unused (w : world) (thread_id : ThreadId) : Prop :=
  (∀ k md, agent_tree (active_agents (registry w)) !! k = Some md → agent_id md ≠ Some thread_id)
  ∧ (∀ r md, Created r md ∈ tasks w → agent_id md ≠ Some thread_id).

Definition child_path (p : AgentPath) : Prop := ∃ names n, p = path_of (names ++ [n]) ∧ Forall valid_name (names ++ [n]).

(** The requests there are: every limit within the session's, every path that
    of a child of some agent. *)
Definition request_ok (limit : N) (q : SpawnRequest) : Prop :=
  (∃ m, agent_max_threads q = Some m ∧ (m <= limit)%N)
  ∧ match session_source q with
    | Some (SubAgent (ThreadSpawn _ _ (Some p) _ _)) => child_path p
    | _ => True
    end.

(** A step of a session in which the threads that are resumed are [resumable] when
    they are. *)
Inductive session_step (resumable : world → ThreadId → Prop) (limit : N) : world → world → Prop :=
| session_task w i t g t' :
    tasks w !! i = Some t → task_step (unused w) (resumable w) (registry w) t g t' →
    session_step resumable limit w (after_step i t g t' w)
| session_spawn w q : request_ok limit q → session_step resumable limit w (with_tasks (tasks w ++ [Starting q]) w)
| session_release w thread_id : session_step resumable limit w (with_tasks (tasks w ++ [Releasing thread_id]) w)
| session_root w thread_id :
    session_step resumable limit w (with_registry (on_active (register_root_thread thread_id) (registry w)) w)
| session_message w thread_id message :
    session_step resumable limit w
      (with_registry (on_active (update_last_task_message iter thread_id message) (registry w)) w).

Definition session_start : world := {| registry := registry_default; tasks := []; replaced := 0 |}.
Definition reachable (resumable : world → ThreadId → Prop) (limit : N) : world → Prop :=
  rtc (session_step resumable limit) session_start.
End Tasks.
End AgentSpawn.
