(* ===== verification/AgentSpawnFacts.v ===== *)
(** * Facts about spawning agents

    The count of the registry is that of the live agents, of the spawns in progress
    and of the agents that were replaced while live, whatever the interleaving, so
    that it keeps the limit; none is replaced in a session that is careful, where
    only threads are resumed that no agent has. *)
From S2P Require Import Prelude Str AgentPath AgentRegistry AgentSpawn.
Import AgentPath AgentRegistry AgentSpawn.

(** ** Counting *)

Definition b2n (b : bool) : nat := if b then 1 else 0.
Definition live_count (tree : gmap str AgentMetadata) : nat := size (filter (λ e, is_live_agent e.2 = true) tree).
Definition live_at (tree : gmap str AgentMetadata) (k : str) : nat :=
  match tree !! k with Some md => b2n (is_live_agent md) | None => 0 end.

Lemma live_count_delete tree k : live_count (delete k tree) + live_at tree k = live_count tree.
Proof.
  unfold live_count, live_at. destruct (tree !! k) as [md|] eqn:Hk; [|by rewrite delete_id by done; lia].
  rewrite map_filter_delete. destruct (is_live_agent md) eqn:Hl; simpl.
  - rewrite map_size_delete_Some; [|by exists md; apply map_lookup_filter_Some].
    assert (size (filter (λ e : str * AgentMetadata, is_live_agent e.2 = true) tree) ≠ 0); [|lia].
    intros H0. apply map_size_empty_inv in H0. apply (map_filter_empty_not_lookup (M := gmap str) _ tree k md H0); done.
  - rewrite delete_id; [lia|]. apply map_lookup_filter_None. right. intros md' Hk'. rewrite Hk in Hk'. injection Hk' as <-. simpl. congruence.
Qed.

Lemma live_count_insert tree k md : live_count (<[k:=md]> tree) + live_at tree k = live_count tree + b2n (is_live_agent md).
Proof.
  rewrite <-(live_count_delete tree k), <-insert_delete_eq. unfold live_count at 1.
  destruct (is_live_agent md) eqn:Hl; simpl.
  - rewrite map_filter_insert_True by done. rewrite map_size_insert_None; [unfold live_count; lia|].
    apply map_lookup_filter_None. left. apply lookup_delete_eq.
  - rewrite map_filter_insert_False by (simpl; congruence). rewrite delete_delete_eq. unfold live_count. lia.
Qed.

Definition weight (t : task) : nat :=
  match t with
  | Reserved _ _ | RootKnown _ _ | PathReserved _ _ | Prepared _ _ _ | Created _ _ | Subtracting _ => 1
  | Dropping r _ => b2n (active r)
  | Starting _ | Counting _ _ _ | Releasing _ | Finished _ => 0
  end.
Definition total_weight (l : list task) : nat := sum_list (weight <$> l).

Lemma total_weight_insert l i t t' : l !! i = Some t → total_weight (<[i:=t']> l) + weight t = total_weight l + weight t'.
Proof.
  revert i. induction l as [|x l IH]; intros [|i] Hi; simplify_eq/=; unfold total_weight in *; csimpl; [lia|].
  specialize (IH i Hi). lia.
Qed.

Lemma total_weight_app l l' : total_weight (l ++ l') = total_weight l + total_weight l'.
Proof. unfold total_weight. rewrite fmap_app. induction (weight <$> l); simpl; lia. Qed.

(** ** Keys *)

Definition thread_key (thread_id : ThreadId) : str := lit "thread:" ++ thread_id.

Lemma child_path_not_root p : child_path p → p ≠ ROOT ∧ is_root p = false.
Proof.
  intros (names&n&->&Hn). assert (Hne : path_of (names ++ [n]) ≠ ROOT).
  { rewrite <-path_of_nil. intros H%path_of_inj; [by destruct names|done|constructor]. }
  split; [done|]. by apply bool_decide_eq_false_2.
Qed.

Lemma child_path_not_thread p thread_id : child_path p → p ≠ thread_key thread_id.
Proof. by intros (names&n&->&_). Qed.
Lemma root_not_thread thread_id : ROOT ≠ thread_key thread_id.
Proof. done. Qed.
Lemma thread_key_inj id id' : thread_key id = thread_key id' → id = id'.
Proof. apply (inj (lit "thread:" ++.)). Qed.

Lemma spawn_source_child_path parent_id source depth role task s :
  (∀ p, get_agent_path source = Some p → valid_path p) →
  thread_spawn_source parent_id source depth role (Some task) = Ok s → ∃ p, get_agent_path s = Some p ∧ child_path p.
Proof.
  intros Hp H. unfold thread_spawn_source in H. inv_result. unfold fmap, result_fmap in H.
  destruct (path_join _ _) as [q|e|] eqn:Hq; [|done..]. injection H as <-.
  apply path_join_Ok in Hq as (Hn&names&Hns&_&->).
  - eexists. split; [done|]. exists names, task. split; [done|]. apply Forall_app. split; [done|by constructor].
  - destruct (get_agent_path source) as [p|]; [by apply Hp|]. simpl. rewrite <-path_of_nil. apply valid_path_of. constructor.
Qed.

(** The registry's entries are under the keys of their metadata. *)
Definition keyed (k : str) (md : AgentMetadata) : Prop :=
  match agent_path md with
  | Some p => k = p ∧ (p = ROOT ∨ child_path p)
  | None => ∃ thread_id, agent_id md = Some thread_id ∧ k = thread_key thread_id
  end.
Definition tree_ok (tree : gmap str AgentMetadata) : Prop := map_Forall keyed tree.

Section Careful.
Context (careful : bool).

(** A key that a task has: its entry in the tree is its placeholder, or, in a
    careful session, it is the key of a thread that is not in the tree yet. *)
Definition protected (tree : gmap str AgentMetadata) (k : str) : Prop :=
  (child_path k ∧ ∃ md, tree !! k = Some md ∧ agent_id md = None)
  ∨ (careful = true ∧ tree !! k = None ∧ ∃ thread_id, k = thread_key thread_id).

Definition reservation_of (t : task) : option SpawnReservation :=
  match t with
  | Reserved _ r | RootKnown _ r | PathReserved _ r | Prepared _ r _ | Created r _ => Some r
  | Dropping r _ => if active r then Some r else None
  | _ => None
  end.
Definition claim (t : task) : option str :=
  match reservation_of t ≫= reserved_agent_path with
  | Some p => Some p
  | None => match t with Created _ md => if careful then thread_key <$> agent_id md else None | _ => None end
  end.

Definition path_shape (p : option AgentPath) : Prop := ∀ q, p = Some q → child_path q.

(** What is known of a task by itself. *)
Definition shape (limit : N) (t : task) : Prop :=
  match t with
  | Starting q => request_ok limit q
  | Counting q m _ => request_ok limit q ∧ (m <= limit)%N
  | Reserved q r | RootKnown q r => request_ok limit q ∧ r = new_reservation
  | PathReserved q r => active r = true ∧ reserved_agent_path r = session_source q ≫= get_agent_path ∧ path_shape (reserved_agent_path r)
  | Prepared _ r md => active r = true ∧ agent_id md = None ∧ agent_path md = reserved_agent_path r ∧ path_shape (agent_path md)
  | Created r md => active r = true ∧ is_Some (agent_id md) ∧ agent_path md = reserved_agent_path r ∧ path_shape (agent_path md)
  | Dropping r _ => active r = true → path_shape (reserved_agent_path r)
  | _ => True
  end.

Lemma protected_insert tree k k' md : k ≠ k' → protected tree k → protected (<[k':=md]> tree) k.
Proof. intros Hne. unfold protected. by rewrite lookup_insert_ne. Qed.
Lemma protected_delete tree k k' : k ≠ k' → protected tree k → protected (delete k' tree) k.
Proof. intros Hne. unfold protected. by rewrite lookup_delete_ne. Qed.
Lemma protected_not_root tree k : protected tree k → k ≠ ROOT.
Proof. intros [[Hp _]|(_&_&id&->)]; [by apply child_path_not_root in Hp as []|done]. Qed.
Lemma protected_no_id tree k md id : protected tree k → tree !! k = Some md → agent_id md ≠ Some id.
Proof. intros [[_ (md'&Hk&Hid)]|(_&Hk&_)] Hk'; congruence. Qed.
Lemma protected_not_live tree k : protected tree k → live_at tree k = 0.
Proof.
  unfold live_at. intros [[_ (md&->&Hid)]|(_&->&_)]; [|done]. unfold is_live_agent. by rewrite bool_decide_eq_false_2; [|rewrite Hid; intros []].
Qed.

Section Iteration.
Context (iter : gmap str AgentMetadata → list (str * AgentMetadata)) (iter_spec : ∀ m, iter m ≡ₚ map_to_list m).

Lemma find_entry tree thread_id :
  match List.find (λ e : str * AgentMetadata, has_id thread_id e.2) (iter tree) with
  | Some (k, md) => tree !! k = Some md ∧ agent_id md = Some thread_id
  | None => ∀ k md, tree !! k = Some md → agent_id md ≠ Some thread_id
  end.
Proof.
  destruct (List.find _ _) as [[k md]|] eqn:Hf.
  - apply find_some in Hf as [Hin Hid]. apply bool_decide_eq_true in Hid. split; [|done].
    apply elem_of_map_to_list. rewrite <-iter_spec. by apply list_elem_of_In.
  - intros k md Hk Hid. assert (Hin : (k, md) ∈ iter tree) by (rewrite iter_spec; by apply elem_of_map_to_list).
    apply list_elem_of_In in Hin. apply (find_none _ _ Hf) in Hin. by apply bool_decide_eq_false in Hin.
Qed.

(** What one locked section does to the tree: nothing, or one key that is
    [k'] gets or loses an entry. *)
Inductive touched (tree : gmap str AgentMetadata) : gmap str AgentMetadata → option str → Prop :=
| touched_same : touched tree tree None
| touched_insert k md : keyed k md → touched tree (<[k:=md]> tree) (Some k)
| touched_delete k : touched tree (delete k tree) (Some k).

Lemma touched_ok tree tree' k : touched tree tree' k → tree_ok tree → tree_ok tree'.
Proof. intros [|k' md Hk|k'] Hok; [done|by apply map_Forall_insert_2|by apply map_Forall_delete]. Qed.

Lemma touched_frame tree tree' k' k : touched tree tree' k' → k' ≠ Some k → protected tree k → protected tree' k.
Proof. intros [] Hne Hp; [done|apply protected_insert; congruence|apply protected_delete; congruence]. Qed.

Lemma register_root_touched id a :
  ∃ k, touched (agent_tree a) (agent_tree (register_root_thread id a)) k ∧ (k = None ∨ k = Some ROOT)
  ∧ live_count (agent_tree (register_root_thread id a)) = live_count (agent_tree a).
Proof.
  unfold register_root_thread. destruct (agent_tree a !! ROOT) eqn:Hr; [exists None; split_and!; [constructor|by left|done]|].
  exists (Some ROOT). simpl. split_and!; [constructor; by split; [|left]|by right|].
  pose proof (live_count_insert (agent_tree a) ROOT (root_metadata id)) as Hc. unfold live_at in Hc. rewrite Hr in Hc.
  assert (is_live_agent (root_metadata id) = false) as Hl by done. rewrite Hl in Hc. simpl in Hc. lia.
Qed.

Lemma update_message_touched id message a :
  tree_ok (agent_tree a) →
  ∃ k, touched (agent_tree a) (agent_tree (update_last_task_message iter id message a)) k
  ∧ (∀ key, k = Some key → ∃ md, agent_tree a !! key = Some md ∧ agent_id md = Some id)
  ∧ live_count (agent_tree (update_last_task_message iter id message a)) = live_count (agent_tree a).
Proof.
  intros Hok. unfold update_last_task_message. pose proof (find_entry (agent_tree a) id) as Hf.
  destruct (List.find _ _) as [[key md]|]; [|exists None; split_and!; [constructor|done|done]]. destruct Hf as [Hk Hid].
  exists (Some key). simpl. split_and!; [constructor; exact (Hok key md Hk)|intros ? [= <-]; by exists md|].
  pose proof (live_count_insert (agent_tree a) key (with_task_message message md)) as Hc. unfold live_at in Hc. rewrite Hk in Hc.
  change (is_live_agent (with_task_message message md)) with (is_live_agent md) in Hc. lia.
Qed.

Lemma release_remove_touched id a a' counted :
  release_remove iter id a = (a', counted) →
  ∃ k, touched (agent_tree a) (agent_tree a') k
  ∧ (∀ key, k = Some key → ∃ md, agent_tree a !! key = Some md ∧ agent_id md = Some id)
  ∧ live_count (agent_tree a') + b2n counted = live_count (agent_tree a).
Proof.
  unfold release_remove. pose proof (find_entry (agent_tree a) id) as Hf.
  destruct (List.find _ _) as [[key md]|]; [|intros [= <- <-]; exists None; split_and!; [constructor|done|simpl; lia]].
  destruct Hf as [Hk Hid]. rewrite Hk. intros [= <- <-]. exists (Some key). simpl.
  split_and!; [constructor|intros ? [= <-]; by exists md|].
  pose proof (live_count_delete (agent_tree a) key) as Hc. unfold live_at in Hc. rewrite Hk in Hc. unfold is_live_agent in Hc.
  rewrite Hid, bool_decide_eq_true_2 in Hc by done. done.
Qed.

Lemma release_path_touched (p : str) a :
  ∃ k, touched (agent_tree a) (agent_tree (release_reserved_agent_path p a)) k ∧ (k = None ∨ k = Some p)
  ∧ live_count (agent_tree (release_reserved_agent_path p a)) = live_count (agent_tree a).
Proof.
  unfold release_reserved_agent_path. destruct (agent_tree a !! p) as [md|] eqn:Hp; [|exists None; split_and!; [constructor|by left|done]].
  case_bool_decide as Hid; [|exists None; split_and!; [constructor|by left|done]].
  exists (Some p). simpl. split_and!; [constructor|by right|]. pose proof (live_count_delete (agent_tree a) p) as Hc.
  unfold live_at in Hc. rewrite Hp in Hc. unfold is_live_agent in Hc. rewrite Hid, bool_decide_eq_false_2 in Hc by (intros []; done). simpl in Hc. lia.
Qed.

Lemma reserve_path_touched (p : str) a a' :
  reserve_agent_path p a = Ok a' → child_path p →
  agent_tree a !! p = None ∧ touched (agent_tree a) (agent_tree a') (Some p) ∧ protected (agent_tree a') p
  ∧ live_count (agent_tree a') = live_count (agent_tree a).
Proof.
  unfold reserve_agent_path. destruct (agent_tree a !! p) eqn:Hp; [done|]. intros [= <-] Hc. simpl. split_and!; [done| | |].
  - constructor. split; [done|by right].
  - left. split; [done|]. exists (placeholder p). by rewrite lookup_insert_eq.
  - pose proof (live_count_insert (agent_tree a) p (placeholder p)) as Hl. unfold live_at in Hl. rewrite Hp in Hl.
    assert (is_live_agent (placeholder p) = false) as Hf by done. rewrite Hf in Hl. simpl in Hl. lia.
Qed.

Lemma reserve_nickname_tree names preferred random a :
  agent_tree (reserve_agent_nickname names preferred random a).1 = agent_tree a.
Proof. unfold reserve_agent_nickname. destruct preferred; [done|]. case_bool_decide; [done|]. by repeat case_match. Qed.

Lemma register_spawned_touched md a :
  is_Some (agent_id md) → path_shape (agent_path md) →
  ∃ id, agent_id md = Some id ∧ touched (agent_tree a) (agent_tree (register_spawned_thread md a)) (Some (agent_key md id))
    ∧ live_count (agent_tree (register_spawned_thread md a)) + live_at (agent_tree a) (agent_key md id)
      = S (live_count (agent_tree a)).
Proof.
  intros [id Hid] Hs. exists id. unfold register_spawned_thread. rewrite Hid. split; [done|]. simpl.
  assert (Hlive : is_live_agent md = true).
  { unfold is_live_agent, metadata_is_root. rewrite Hid, bool_decide_eq_true_2 by done.
    destruct (agent_path md) as [p|]; [|done]. by destruct (child_path_not_root p (Hs p eq_refl)) as [_ ->]. }
  split.
  - constructor. unfold keyed, agent_key. destruct (agent_path md) as [p|]; simpl; [split; [done|right; by apply Hs]|eauto].
  - pose proof (live_count_insert (agent_tree a) (agent_key md id) md) as Hc. rewrite Hlive in Hc. simpl in Hc. lia.
Qed.
Lemma replaces_live r md id g : agent_id md = Some id → live_at (agent_tree (active_agents g)) (agent_key md id) = b2n (replaces g (Created r md)).
Proof. intros Hid. unfold replaces, live_at. rewrite Hid. by destruct (_ !! _). Qed.
(** What a thread about to be committed has: its path, or the key of its id if the
    session is careful. *)
Lemma created_claim r md id :
  agent_id md = Some id → agent_path md = reserved_agent_path r →
  claim (Created r md) = if bool_decide (agent_path md = None) && negb careful then None else Some (agent_key md id).
Proof. intros Hid Hp. unfold claim, agent_key. simpl. rewrite <-Hp, Hid. destruct (agent_path md); [done|]. by destruct careful. Qed.

Lemma fresh_key_absent tree id :
  tree_ok tree → (∀ k md, tree !! k = Some md → agent_id md ≠ Some id) → tree !! thread_key id = None.
Proof.
  intros Hok Hfresh. destruct (tree !! thread_key id) as [md|] eqn:Hk; [|done]. exfalso.
  pose proof (Hok _ _ Hk) as Hkey. unfold keyed in Hkey. destruct (agent_path md) as [p|].
  - destruct Hkey as [<- [Hr|Hc]]; [by symmetry in Hr; apply root_not_thread in Hr|by apply (child_path_not_thread _ id Hc)].
  - destruct Hkey as (id'&Hid&Heq%thread_key_inj). subst. by apply (Hfresh _ _ Hk).
Qed.

(** *** The effect of a step *)

Abbreviation tree_of g := (agent_tree (active_agents g)).

Record effect (limit : N) (fresh : ThreadId → Prop) (g : AgentRegistry) (t : task) (g' : AgentRegistry) (t' : task) : Prop := {
  effect_shape : shape limit t';
  effect_tree : ∃ k, touched (tree_of g) (tree_of g') k ∧ ∀ key, k = Some key → ¬ protected (tree_of g) key ∨ claim t = Some key;
  effect_claim : ∀ k, claim t' = Some k → protected (tree_of g') k ∧
    (claim t = Some k ∨ ¬ protected (tree_of g) k ∨ ∃ r md id, t' = Created r md ∧ fresh id ∧ agent_id md = Some id ∧ k = thread_key id);
  effect_count : (total_count g' + N.of_nat (live_count (tree_of g) + weight t)
                  = total_count g + N.of_nat (live_count (tree_of g') + weight t' + b2n (replaces g t)))%N;
  effect_careful : careful = true → replaces g t = false;
  effect_limit : (total_count g' <= limit)%N;
}.

(** A step that leaves the registry and the claim as they are. *)
Lemma effect_quiet limit fresh g t t' :
  shape limit t' → claim t' = None ∨ (claim t' = claim t ∧ ∀ k, claim t = Some k → protected (tree_of g) k) →
  weight t' = weight t → replaces g t = false → (total_count g <= limit)%N → effect limit fresh g t g t'.
Proof.
  intros Hs Hc Hw Hr Hl. split; [done|exists None; by split; [constructor|]| |rewrite Hw, Hr; simpl; lia|done|done].
  intros k Hk. destruct Hc as [Hc|[Hc Hp]]; [congruence|]. rewrite Hc in Hk. split; [by apply Hp|by left].
Qed.

(** A step that changes the registry at a key nobody else has. *)
Lemma effect_section limit fresh g t g' t' k :
  shape limit t' → touched (tree_of g) (tree_of g') k →
  (∀ key, k = Some key → ¬ protected (tree_of g) key ∨ claim t = Some key) →
  claim t' = None ∨ claim t' = claim t ∧ (∀ key, claim t = Some key → protected (tree_of g') key) →
  (total_count g' + N.of_nat (live_count (tree_of g) + weight t)
   = total_count g + N.of_nat (live_count (tree_of g') + weight t' + b2n (replaces g t)))%N →
  (careful = true → replaces g t = false) → (total_count g' <= limit)%N → effect limit fresh g t g' t'.
Proof.
  intros Hs Ht Hk Hc Hn Hr Hl. split; [done|by exists k| |done|done|done].
  intros key Hkey. destruct Hc as [Hc|[Hc Hp]]; [congruence|]. rewrite Hc in Hkey. split; [by apply Hp|by left].
Qed.

(** The thread manager gives a thread its id. *)
Lemma created_effect limit (fresh : ThreadId → Prop) g q r md id :
  shape limit (Prepared q r md) → tree_ok (tree_of g) → (∀ k, claim (Prepared q r md) = Some k → protected (tree_of g) k) →
  (careful = true → fresh id ∧ ∀ k md, tree_of g !! k = Some md → agent_id md ≠ Some id) →
  (total_count g <= limit)%N → effect limit fresh g (Prepared q r md) g (Created r (with_id id md)).
Proof.
  intros (Ha&Hid&Hp&Hsh) Hok Hc Hfresh Hhigh. destruct (reserved_agent_path r) as [p|] eqn:Hr.
  - apply effect_quiet; try done; [split_and!; try done; by rewrite Hr|]. right. split; [unfold claim; simpl; by rewrite Hr|done].
  - destruct careful eqn:Hcare; [|apply effect_quiet; try done; [by split_and!; try done; rewrite Hr|left; unfold claim; simpl; by rewrite Hr, Hcare]].
    destruct (Hfresh eq_refl) as [Hf Hnew]. split; [by split_and!; try done; rewrite Hr|exists None; by split; [constructor|]| |simpl; lia|done|done].
    unfold claim. simpl. rewrite Hr, Hcare. intros k [= <-]. split; [|right; right; by do 3 eexists].
    right. split_and!; [done|by apply fresh_key_absent|by eexists].
Qed.

Lemma task_step_effect limit fresh resumable g t g' t' :
  (limit < USIZE)%N → task_step iter fresh resumable g t g' t' → shape limit t → tree_ok (tree_of g) →
  (∀ k, claim t = Some k → protected (tree_of g) k) →
  (∀ id, fresh id → ∀ k md, tree_of g !! k = Some md → agent_id md ≠ Some id) →
  (careful = true → ∀ id, resumable id → fresh id) →
  (N.of_nat (weight t) <= total_count g)%N → (total_count g <= limit)%N → effect limit fresh g t g' t'.
Proof.
  intros Hlimit Hstep Hs Hok Hc Hfresh Hresume Hlow Hhigh. destruct Hstep.
  - by destruct Hs as [(m&Hm&_) _]; congruence.
  - apply effect_quiet; try done; [|by left]. destruct Hs as [(m'&Hm&Hle) Hp]. simplify_eq. split; [by split; [exists m|]|done].
  - apply effect_quiet; try done; by left.
  - apply effect_section with (k := None); try done; [by destruct Hs|constructor|by left| |]; destruct Hs as [_ Hm]; simpl; lia.
  - apply effect_quiet; try done. by left.
  - destruct Hs as [_ ->]. apply effect_quiet; try done. by left.
  - destruct (register_root_touched parent (active_agents g)) as (k&Ht&Hk&Hn). destruct Hs as [Hq ->].
    apply effect_section with (k := k); try done; [|by left|simpl in *; lia].
    intros key ->. left. intros Hp%protected_not_root. by destruct Hk as [|[= ->]].
  - destruct Hs as [Hq ->]. apply effect_quiet; try done. by left.
  - destruct Hs as [Hq ->]. apply effect_quiet; try done; by left.
  - destruct Hs as [Hq ->]. apply effect_quiet; try done; [|by left]. split_and!; [done| |done]. by rewrite H.
  - destruct Hs as [Hq ->]. assert (Hp : child_path p) by (destruct Hq as [_ Hq]; by rewrite H in Hq).
    destruct (reserve_path_touched _ _ _ H0 Hp) as (Habs&Ht&Hprot&Hn). split.
    + split_and!; [done|by rewrite H|]. by intros q' [= <-].
    + exists (Some p). split; [done|]. intros key [= <-]. left.
      intros [[_ (md&Hk&_)]|(_&_&id&Heq)]; [congruence|by apply (child_path_not_thread p id)].
    + intros k [= <-]. split; [done|]. right. left.
      intros [[_ (md&Hk&_)]|(_&_&id&Heq)]; [congruence|by apply (child_path_not_thread p id)].
    + simpl in *. lia.
    + done.
    + done.
  - destruct Hs as [Hq ->]. apply effect_quiet; try done. by left.
  - pose proof (reserve_nickname_tree (candidate_names q) (preferred_agent_nickname q) random (active_agents g)) as Ht.
    rewrite H0 in Ht. simpl in Ht. destruct Hs as (Ha&Hr&Hp).
    apply effect_section with (k := None); simpl; rewrite ?Ht; try done; [|constructor|by right|lia].
    rewrite H in Hr. simpl in Hr. split_and!; [done..|by rewrite Hr|by rewrite <-Hr].
  - pose proof (reserve_nickname_tree (candidate_names q) (preferred_agent_nickname q) random (active_agents g)) as Ht.
    rewrite H in Ht. simpl in Ht. destruct Hs as (Ha&Hr&Hp).
    apply effect_section with (k := None); simpl; rewrite ?Ht; try done; [constructor| |rewrite Ha; simpl; lia].
    right. split; [unfold claim; simpl; by rewrite Ha|done].
  - apply created_effect; try done. intros _. split; [done|by apply Hfresh].
  - apply created_effect; try done. intros Hcare. assert (fresh thread_id) by by apply Hresume. split; [done|by apply Hfresh].
  - destruct Hs as (Ha&Hid&Hp&Hsh). apply effect_quiet; try done; [intros _; by rewrite <-Hp| |by simpl; rewrite Ha].
    right. split; [|done]. unfold claim. simpl. rewrite Ha. simpl. by destruct (reserved_agent_path r).
  - destruct Hs as (Ha&Hid&Hp&Hsh). destruct (register_spawned_touched md (active_agents g) Hid Hsh) as (id&Hid'&Ht&Hn).
    rewrite (replaces_live r md id g Hid') in Hn. pose proof (created_claim r md id Hid' Hp) as Hclaim.
    apply effect_section with (k := Some (agent_key md id)); try done; [|by left|simpl in *; lia|].
    + intros key [= <-]. rewrite Hclaim. destruct (_ && _) eqn:Hb; [|by right]. left. apply andb_true_iff in Hb as [Hnone Hcare].
      apply bool_decide_eq_true in Hnone. apply negb_true_iff in Hcare. unfold agent_key. rewrite Hnone.
      intros [[Hcp _]|[? _]]; [by apply (child_path_not_thread _ id Hcp)|congruence].
    + intros Hcare. rewrite Hcare, andb_false_r in Hclaim. pose proof (protected_not_live _ _ (Hc _ Hclaim)) as H0.
      rewrite (replaces_live r md id g Hid') in H0. by destruct (replaces _ _).
  - apply effect_quiet; try done; [left; unfold claim; simpl; done|by simpl; rewrite H].
  - destruct (release_path_touched p (active_agents g)) as (k&Ht&Hk&Hn).
    apply effect_section with (k := k); try done; [|by left|simpl; rewrite Hn, H; simpl; lia].
    intros key ->. right. destruct Hk as [|[= ->]]; [done|]. unfold claim. simpl. rewrite H. simpl. by rewrite H0.
  - apply effect_quiet; try done; [by left|by simpl; rewrite H].
  - destruct (release_remove_touched _ _ _ _ H) as (k&Ht&Hk&Hn).
    apply effect_section with (k := k); try done; [by destruct counted| |left; by destruct counted|simpl; destruct counted; simpl in *; lia].
    intros key ->. left. intros Hp. destruct (Hk key eq_refl) as (md&Hkey&Hid). by apply (protected_no_id _ _ _ thread_id Hp Hkey).
  - simpl in Hlow. apply effect_section with (k := None); try done; [constructor|by left| |]; simpl.
    + replace (total_count g + USIZE - 1)%N with (total_count g - 1 + 1 * USIZE)%N by lia. rewrite N.Div0.mod_add, N.mod_small; lia.
    + replace (total_count g + USIZE - 1)%N with (total_count g - 1 + 1 * USIZE)%N by lia. rewrite N.Div0.mod_add, N.mod_small; lia.
Qed.

(** ** The invariant of a session *)

Lemma claim_cases limit t k :
  shape limit t → claim t = Some k →
  child_path k ∨ ∃ r md id, t = Created r md ∧ agent_id md = Some id ∧ k = thread_key id.
Proof.
  unfold claim. destruct t as [q|q m c|q r|q r|q r|q r md|r md|r o|id|o|o]; simpl; try done.
  - by intros [_ ->].
  - by intros [_ ->].
  - intros (_&_&Hp). destruct (reserved_agent_path r) as [p|]; simpl; [|done]. intros [= <-]. left. by apply Hp.
  - intros (_&_&Hr&Hp). rewrite Hr in Hp. destruct (reserved_agent_path r) as [p|]; simpl; [|done]. intros [= <-]. left. by apply Hp.
  - intros (_&[id Hid]&Hr&Hp). rewrite Hr in Hp. destruct (reserved_agent_path r) as [p|]; simpl; [intros [= <-]; left; by apply Hp|].
    destruct careful; [|done]. rewrite Hid. intros [= <-]. right. eauto 7.
  - destruct (active r); simpl; [|done]. intros Hp. destruct (reserved_agent_path r) as [p|]; simpl; [|done]. intros [= <-]. left. by apply Hp.
Qed.

Record session_inv (limit : N) (w : world) : Prop := {
  inv_tree : tree_ok (tree_of (registry w));
  inv_shape : ∀ i t, tasks w !! i = Some t → shape limit t;
  inv_claim : ∀ i t k, tasks w !! i = Some t → claim t = Some k → protected (tree_of (registry w)) k;
  inv_distinct : ∀ i j t t' k, tasks w !! i = Some t → tasks w !! j = Some t' → claim t = Some k → claim t' = Some k → i = j;
  inv_count : total_count (registry w) = N.of_nat (live_count (tree_of (registry w)) + total_weight (tasks w) + replaced w);
  inv_careful : careful = true → replaced w = 0;
  inv_limit : (total_count (registry w) <= limit)%N;
}.

Lemma weight_le l i t : l !! i = Some t → weight t ≤ total_weight l.
Proof. intros Hi. pose proof (total_weight_insert l i t (Finished (Err NoAvailableNicknames)) Hi). simpl in *. lia. Qed.

Lemma inv_start limit : session_inv limit session_start.
Proof. split; simpl; try done; try (intros i; by destruct i); lia. Qed.

Lemma inv_new_task limit w t :
  session_inv limit w → shape limit t → claim t = None → weight t = 0 →
  session_inv limit (with_tasks (tasks w ++ [t]) w).
Proof.
  intros [Ht Hs Hc Hd Hn Hr Hl] Hst Hct Hwt. split; simpl; try done.
  - intros i t' [H|[_ H]]%lookup_app_Some; [by eapply Hs|]. by apply list_lookup_singleton_Some in H as [_ <-].
  - intros i t' k [H|[_ H]]%lookup_app_Some Hk; [by eapply Hc|]. apply list_lookup_singleton_Some in H as [_ <-]. congruence.
  - intros i j t1 t2 k [H1|[_ H1]]%lookup_app_Some [H2|[_ H2]]%lookup_app_Some K1 K2;
      try (apply list_lookup_singleton_Some in H1 as [_ <-]; congruence); try (apply list_lookup_singleton_Some in H2 as [_ <-]; congruence).
    by eapply Hd.
  - rewrite total_weight_app. unfold total_weight at 2. simpl. rewrite Hwt, Hn. lia.
Qed.

(** A section of another part of the program, at a key that no task has. *)
Lemma inv_section limit w a k :
  session_inv limit w → touched (tree_of (registry w)) (agent_tree a) k →
  (∀ key, k = Some key → ¬ protected (tree_of (registry w)) key) →
  live_count (agent_tree a) = live_count (tree_of (registry w)) →
  session_inv limit (with_registry (with_active a (registry w)) w).
Proof.
  intros [Ht Hs Hc Hd Hn Hr Hl] Htouch Hk Hlive. split; simpl; try done; [by eapply touched_ok| |by rewrite Hlive].
  intros i t key Hi Hkey. pose proof (Hc i t key Hi Hkey) as Hp. eapply touched_frame; [done| |done].
  intros ->. by apply (Hk key).
Qed.

Context (resumable : world → ThreadId → Prop) (resumable_unused : careful = true → ∀ w id, resumable w id → unused w id).

Lemma inv_task limit w i t g t' :
  (limit < USIZE)%N → session_inv limit w → tasks w !! i = Some t →
  task_step iter (unused w) (resumable w) (registry w) t g t' → session_inv limit (after_step i t g t' w).
Proof.
  intros Hlim [Ht Hs Hc Hd Hn Hr Hl] Hi Hstep. pose proof (weight_le _ _ _ Hi) as Hw.
  assert (Heff : effect limit (unused w) (registry w) t g t').
  { eapply task_step_effect; try done; [by eapply Hs|intros k Hk; by eapply Hc|by intros id [H _]|by intros Hcare; apply resumable_unused|rewrite Hn; lia]. }
  destruct Heff as [Hs' (k&Htouch&Hk) Hclaim Hcount Hcare Hl'].
  assert (Hlt : i < length (tasks w)) by by eapply lookup_lt_Some.
  assert (Hother : ∀ j tj key, i ≠ j → tasks w !! j = Some tj → claim tj = Some key → claim t' ≠ Some key ∧ protected (tree_of g) key).
  { intros j tj key Hij Hj Hkey. pose proof (Hc j tj key Hj Hkey) as Hp. split.
    - intros Hkey'. destruct (Hclaim key Hkey') as [_ [H|[H|(r&md&id&->&[_ Hfresh]&Hid&->)]]]; [|done|].
      + by apply Hij, (Hd i j t tj key).
      + destruct (claim_cases limit tj _ (Hs j tj Hj) Hkey) as [Hcp|(r'&md'&id'&->&Hid'&Heq%thread_key_inj)].
        * by apply (child_path_not_thread _ id Hcp).
        * subst id'. apply (Hfresh r' md'); [by eapply list_elem_of_lookup_2|done].
    - eapply touched_frame; [done| |done]. intros ->. destruct (Hk key eq_refl) as [H|H]; [done|]. by apply Hij, (Hd i j t tj key). }
  split; simpl; try done.
  - by eapply touched_ok.
  - intros j tj Hj. destruct (decide (i = j)) as [<-|Hij]; [|rewrite list_lookup_insert_ne in Hj by done; by eapply Hs].
    rewrite list_lookup_insert_eq in Hj by done. by injection Hj as <-.
  - intros j tj key Hj Hkey. destruct (decide (i = j)) as [<-|Hij]; [|rewrite list_lookup_insert_ne in Hj by done; by apply (Hother j tj)].
    rewrite list_lookup_insert_eq in Hj by done. injection Hj as <-. by apply Hclaim.
  - intros j1 j2 t1 t2 key Hj1 Hj2 K1 K2. destruct (decide (i = j1)) as [<-|H1], (decide (i = j2)) as [<-|H2]; [done| | |].
    + rewrite list_lookup_insert_eq in Hj1 by done. injection Hj1 as <-. rewrite list_lookup_insert_ne in Hj2 by done.
      by destruct (Hother j2 t2 key H2 Hj2 K2).
    + rewrite list_lookup_insert_eq in Hj2 by done. injection Hj2 as <-. rewrite list_lookup_insert_ne in Hj1 by done.
      by destruct (Hother j1 t1 key H1 Hj1 K1).
    + rewrite list_lookup_insert_ne in Hj1, Hj2 by done. by eapply Hd.
  - pose proof (total_weight_insert (tasks w) i t t' Hi). unfold b2n in Hcount. lia.
  - intros Hcareful. by rewrite Hcare, Hr.
Qed.

Lemma inv_step limit w w' : (limit < USIZE)%N → session_step iter resumable limit w w' → session_inv limit w → session_inv limit w'.
Proof.
  intros Hlim Hstep Hinv. destruct Hstep as [w i t g t' Hi Ht|w q Hq|w id|w id|w id message].
  - by eapply inv_task.
  - by apply inv_new_task.
  - by apply inv_new_task.
  - destruct (register_root_touched id (active_agents (registry w))) as (k&Htouch&Hk&Hn). eapply inv_section; [done|exact Htouch| |done].
    intros key ->. destruct Hk as [|[= ->]]; [done|]. by intros Hp%protected_not_root.
  - destruct (update_message_touched id message (active_agents (registry w)) (inv_tree _ _ Hinv)) as (k&Htouch&Hk&Hn).
    eapply inv_section; [done|exact Htouch| |done]. intros key -> Hp. destruct (Hk key eq_refl) as (md&Hkey&Hid). by apply (protected_no_id _ _ _ id Hp Hkey).
Qed.

Lemma inv_reachable limit w : (limit < USIZE)%N → reachable iter resumable limit w → session_inv limit w.
Proof.
  intros Hlim Hr. unfold reachable in Hr. revert Hr. apply (rtc_ind_r (λ w, session_inv limit w)); [apply inv_start|].
  intros w1 w2 _ Hstep Hinv. by eapply inv_step.
Qed.
End Iteration.
End Careful.
