(* ===== verification/AgentControl.v ===== *)
(** * Finding and listing agents

    Models the queries of [core/src/agent/control.rs]: resolving a reference to
    an agent, listing the agents under a path, and the descendants that are shut
    down with an agent.  The thread manager is a parameter. *)
From S2P Require Import Prelude Str AgentPath AgentRegistry.
Import AgentPath AgentRegistry.

Module AgentControl.

Inductive control_error : Type := BadReference (e : path_error) | LiveAgentNotFound (p : AgentPath).

Definition resolve_agent_reference (source : SessionSource) (agent_reference : str) (a : ActiveAgents)
    : result control_error ThreadId :=
  agent_path ← map_err BadReference (resolve (default ROOT (get_agent_path source)) agent_reference);
  match agent_id_for_path agent_path a with
  | Some thread_id => Ok thread_id
  | None => Err (LiveAgentNotFound agent_path)
  end.

Section Queries.
Context (iter : gmap str AgentMetadata → list (str * AgentMetadata)).
(** The thread manager: the status of the threads it has. *)
Context {AgentStatus : Type} (get_thread : ThreadId → option AgentStatus).

Record ListedAgent : Type := { listed_name : str; listed_status : AgentStatus; listed_message : option str }.

Definition ROOT_LAST_TASK_MESSAGE : str := lit "Main thread".

(** The order agents are listed in: by path, then by thread id, an absent one first. *)
Definition agent_order (l r : AgentMetadata) : bool :=
  let lp := default [] (agent_path l) in let rp := default [] (agent_path r) in
  if bool_decide (lp = rp) then str_le (default [] (agent_id l)) (default [] (agent_id r)) else str_le lp rp.
Fixpoint insert_agent (x : AgentMetadata) (l : list AgentMetadata) : list AgentMetadata :=
  match l with [] => [x] | y :: l' => if agent_order x y then x :: l else y :: insert_agent x l' end.
Definition sort_agents : list AgentMetadata → list AgentMetadata := foldr insert_agent [].

Definition list_agent (resolved_prefix : option AgentPath) (md : AgentMetadata) : option ListedAgent :=
  thread_id ← agent_id md;
  if match resolved_prefix with Some prefix => negb (agent_matches_prefix (agent_path md) prefix) | None => false end then None
  else
    status ← get_thread thread_id;
    Some {| listed_name := default thread_id (agent_path md); listed_status := status; listed_message := last_task_message md |}.

Definition list_agents (source : SessionSource) (path_prefix : option str) (a : ActiveAgents)
    : result control_error (list ListedAgent) :=
  resolved_prefix ← match path_prefix with
                    | Some prefix => Some <$> map_err BadReference (resolve (default ROOT (get_agent_path source)) prefix)
                    | None => Ok None
                    end;
  let root :=
    if match resolved_prefix with Some prefix => agent_matches_prefix (Some ROOT) prefix | None => true end then
      root_thread_id ← agent_id_for_path ROOT a;
      status ← get_thread root_thread_id;
      Some {| listed_name := ROOT; listed_status := status; listed_message := Some ROOT_LAST_TASK_MESSAGE |}
    else None in
  Ok (option_list root ++ omap (list_agent resolved_prefix) (sort_agents (live_agents iter a))).
End Queries.

(** ** Descendants *)

(** The loop of [live_thread_spawn_descendants]: each thread takes its children
    out of the map, so that every turn uses up a thread of the stack or an entry. *)
Fixpoint descendants_loop (fuel : nat) (children_by_parent : gmap ThreadId (list ThreadId)) (stack : list ThreadId)
    (descendants : list ThreadId) : result () (list ThreadId) :=
  match fuel with
  | 0 => Crash
  | S fuel =>
      match stack with
      | [] => Ok descendants
      | thread_id :: stack =>
          match children_by_parent !! thread_id with
          | Some children =>
              descendants_loop fuel (delete thread_id children_by_parent) (children ++ stack) (descendants ++ [thread_id])
          | None => descendants_loop fuel children_by_parent stack (descendants ++ [thread_id])
          end
      end
  end.
Definition all_children (m : gmap ThreadId (list ThreadId)) : list ThreadId := concat (snd <$> map_to_list m).
Definition descendants_of (children_by_parent : gmap ThreadId (list ThreadId)) (root : ThreadId) : result () (list ThreadId) :=
  descendants_loop (S (length (all_children children_by_parent))) (delete root children_by_parent)
    (default [] (children_by_parent !! root)) [].

(** The children of each thread, from the sources of the live threads, sorted. *)
Definition child_order (l r : ThreadId * AgentMetadata) : bool :=
  let lp := default [] (agent_path l.2) in let rp := default [] (agent_path r.2) in
  if bool_decide (lp = rp) then str_le l.1 r.1 else str_le lp rp.
Fixpoint insert_child (x : ThreadId * AgentMetadata) (l : list (ThreadId * AgentMetadata)) : list (ThreadId * AgentMetadata) :=
  match l with [] => [x] | y :: l' => if child_order x y then x :: l else y :: insert_child x l' end.
Definition sort_children : list (ThreadId * AgentMetadata) → list (ThreadId * AgentMetadata) := foldr insert_child [].

Section Children.
Context (iter : gmap str AgentMetadata → list (str * AgentMetadata)).
Definition id_metadata (thread_id : ThreadId) : AgentMetadata := {|
  agent_id := Some thread_id; agent_path := None; agent_nickname := None; agent_role := None; last_task_message := None |}.
Definition add_child (a : ActiveAgents) (m : gmap ThreadId (list (ThreadId * AgentMetadata))) (thread : ThreadId * SessionSource)
    : gmap ThreadId (list (ThreadId * AgentMetadata)) :=
  match thread_spawn_parent_thread_id thread.2 with
  | None => m
  | Some parent =>
      <[parent := default [] (m !! parent)
                  ++ [(thread.1, default (id_metadata thread.1) (agent_metadata_for_thread iter thread.1 a))]]> m
  end.
Definition live_thread_spawn_children (threads : list (ThreadId * SessionSource)) (a : ActiveAgents)
    : gmap ThreadId (list (ThreadId * AgentMetadata)) := sort_children <$> foldl (add_child a) ∅ threads.
Definition open_thread_spawn_children (threads : list (ThreadId * SessionSource)) (a : ActiveAgents) (parent : ThreadId)
    : list (ThreadId * AgentMetadata) := default [] (live_thread_spawn_children threads a !! parent).
Definition live_thread_spawn_descendants (threads : list (ThreadId * SessionSource)) (a : ActiveAgents) (root : ThreadId)
    : result () (list ThreadId) := 
  descendants_of ((λ children : list (ThreadId * AgentMetadata), fst <$> children) <$> live_thread_spawn_children threads a) root.
End Children.

(** [shutdown_agent_tree]: the agent, then its descendants, stopping at an
    error that is not that of a thread that is gone. *)
Inductive shutdown_error : Type := ThreadNotFound | InternalAgentDied | OtherError (message : str).
Section Shutdown.
Context {W : Type} (shutdown_live_agent : ThreadId → W → W * result shutdown_error str).
Fixpoint shutdown_all (ids : list ThreadId) (result_ : result shutdown_error str) (w : W) : W * result shutdown_error str :=
  match ids with
  | [] => (w, result_)
  | id :: ids =>
      match shutdown_live_agent id w with
      | (w, Ok _) | (w, Err ThreadNotFound) | (w, Err InternalAgentDied) => shutdown_all ids result_ w
      | (w, Err e) => (w, Err e)
      | (w, Crash) => (w, Crash)
      end
  end.
Definition shutdown_agent_tree (agent_id : ThreadId) (descendant_ids : list ThreadId) (w : W) : W * result shutdown_error str :=
  let '(w, result_) := shutdown_live_agent agent_id w in shutdown_all descendant_ids result_ w.
End Shutdown.
End AgentControl.

(** ** Facts about finding and listing agents

    The descendants of a thread are found exactly, parents first. *)
Import AgentPath AgentRegistry AgentControl.

(** ** Descendants *)

Definition edge (m : gmap ThreadId (list ThreadId)) (p c : ThreadId) : Prop := ∃ cs, m !! p = Some cs ∧ c ∈ cs.

Lemma all_children_delete m k cs : m !! k = Some cs → all_children m ≡ₚ cs ++ all_children (delete k m).
Proof. intros Hk. unfold all_children. by rewrite <-(map_to_list_delete m k cs Hk). Qed.

Lemma all_children_elem m c : c ∈ all_children m ↔ ∃ p, edge m p c.
Proof.
  unfold all_children. rewrite list_elem_of_In, in_concat. split.
  - intros (cs&Hin%list_elem_of_In&Hc%list_elem_of_In). apply list_elem_of_fmap in Hin as ([p cs']&->&Hin%elem_of_map_to_list). by exists p, cs'.
  - intros (p&cs&Hp&Hc). exists cs. split; apply list_elem_of_In; [|done]. apply list_elem_of_fmap. exists (p, cs). by split; [|apply elem_of_map_to_list].
Qed.

Section Descendants.
Context (m0 : gmap ThreadId (list ThreadId)) (root : ThreadId).
Hypothesis once : NoDup (all_children m0).

Definition parent_in (l : list ThreadId) (c : ThreadId) : Prop := ∃ p, edge m0 p c ∧ (p = root ∨ p ∈ l).

Record loop_inv (m : gmap ThreadId (list ThreadId)) (stack found : list ThreadId) : Prop := {
  loop_nodup : NoDup (found ++ stack ++ all_children m);
  loop_stack : ∀ c, c ∈ stack → parent_in found c;
  loop_found : ∀ l1 c l2, found = l1 ++ c :: l2 → parent_in l1 c;
  loop_closed : ∀ p c, edge m0 p c → p = root ∨ p ∈ found → c ∈ found ++ stack;
  loop_rest : ∀ p, m !! p = None ∨ (m !! p = m0 !! p ∧ p ≠ root ∧ p ∉ found);
  loop_gone : ∀ p cs, m0 !! p = Some cs → m !! p = None → p = root ∨ p ∈ found;
}.

Lemma parent_in_weaken l l' c : parent_in l c → parent_in (l ++ l') c.
Proof. intros (p&He&Hp). exists p. split; [done|]. destruct Hp; [by left|right; set_solver]. Qed.

Lemma snoc_split {A} (l l1 l2 : list A) x c : l ++ [x] = l1 ++ c :: l2 → (l2 = [] ∧ c = x ∧ l1 = l) ∨ ∃ l2', l2 = l2' ++ [x] ∧ l = l1 ++ c :: l2'.
Proof.
  destruct l2 as [|y l2 _] using rev_ind; intros H.
  - apply app_inj_tail in H as [-> ->]. by left.
  - right. rewrite app_comm_cons, (assoc_L app) in H. apply app_inj_tail in H as [-> ->]. by exists l2.
Qed.

(** Taking a thread off the stack, with its children [cs] or none. *)
Lemma loop_step m x stack found :
  loop_inv m (x :: stack) found →
  loop_inv (delete x m) (default [] (m !! x) ++ stack) (found ++ [x]).
Proof.
  intros [Hnd Hst Hf Hc Hr Hg].
  assert (Hperm : all_children m ≡ₚ default [] (m !! x) ++ all_children (delete x m)).
  { destruct (m !! x) as [cs|] eqn:Hx; [by apply all_children_delete|]. by rewrite delete_id. }
  assert (Hedge : ∀ c, c ∈ default [] (m !! x) → edge m0 x c).
  { intros c Hin. destruct (m !! x) as [cs|] eqn:Hx; [|by apply elem_of_nil in Hin].
    destruct (Hr x) as [H|[H _]]; [congruence|]. exists cs. by rewrite <-H. }
  split.
  - assert (P : (found ++ [x]) ++ (default [] (m !! x) ++ stack) ++ all_children (delete x m)
                ≡ₚ found ++ (x :: stack) ++ default [] (m !! x) ++ all_children (delete x m)).
    { rewrite <-!(assoc_L app). simpl. apply Permutation_app_head. constructor. rewrite !(assoc_L app).
      apply Permutation_app_tail, Permutation_app_comm. }
    by rewrite P, <-Hperm.
  - intros c [Hin|Hin]%elem_of_app; [exists x; split; [by apply Hedge|right; set_solver]|].
    apply parent_in_weaken, Hst. by right.
  - intros l1 c l2 [(->&->&->)|(l2'&->&->)]%snoc_split; [apply Hst; by left|by eapply Hf].
  - intros p c He Hp. destruct (decide (p = x)) as [->|Hne].
    + destruct He as (cs&Hcs&Hin). destruct (Hr x) as [Hn|[Hm _]].
      * destruct (Hg x cs Hcs Hn) as [Hx|Hx]; assert (c ∈ found ++ x :: stack) by (apply (Hc x); [by exists cs|tauto]); set_solver.
      * rewrite Hm, Hcs. simpl. set_solver.
    + assert (c ∈ found ++ x :: stack) by (apply (Hc p); [done|set_solver]). set_solver.
  - intros p. destruct (decide (p = x)) as [->|Hne]; [left; apply lookup_delete_eq|]. rewrite lookup_delete_ne by done.
    destruct (Hr p) as [H|(H&Hroot&Hpf)]; [by left|right; split_and!; [done..|set_solver]].
  - intros p cs Hcs Hp. destruct (decide (p = x)) as [->|Hne]; [right; set_solver|]. rewrite lookup_delete_ne in Hp by done.
    destruct (Hg p cs Hcs Hp); [by left|right; set_solver].
Qed.

Lemma loop_spec fuel m stack found :
  length stack + length (all_children m) < fuel → loop_inv m stack found →
  ∃ m' l, descendants_loop fuel m stack found = Ok l ∧ loop_inv m' [] l.
Proof.
  revert m stack found. induction fuel as [|fuel IH]; intros m [|x stack] found Hlt Hinv; simpl in *; [lia|lia|by exists m, found|].
  pose proof (loop_step _ _ _ _ Hinv) as Hstep. destruct (m !! x) as [cs|] eqn:Hx; simpl in Hstep.
  - apply IH; [|done]. rewrite (all_children_delete m x cs Hx), length_app in Hlt. rewrite length_app. lia.
  - rewrite delete_id in Hstep by done. apply IH; [lia|done].
Qed.

Lemma descendants_of_spec :
  ∃ l, descendants_of m0 root = Ok l ∧ NoDup l ∧ (∀ x, x ∈ l ↔ tc (edge m0) root x)
    ∧ (∀ l1 c l2, l = l1 ++ c :: l2 → parent_in l1 c).
Proof.
  unfold descendants_of.
  assert (Hperm : all_children m0 ≡ₚ default [] (m0 !! root) ++ all_children (delete root m0)).
  { destruct (m0 !! root) as [cs|] eqn:Hx; [by apply all_children_delete|]. by rewrite delete_id. }
  destruct (loop_spec (S (length (all_children m0))) (delete root m0) (default [] (m0 !! root)) []) as (m'&l&Hl&[Hnd _ Hf Hc _ _]).
  - rewrite Hperm, length_app. lia.
  - split; simpl.
    + by rewrite <-Hperm.
    + intros c Hin. exists root. split; [|by left]. destruct (m0 !! root) as [cs|] eqn:Hr; [by exists cs|by apply elem_of_nil in Hin].
    + intros l1 c l2 H. by destruct l1.
    + intros p c (cs&Hcs&Hin) [->|Hp]; [by rewrite Hcs|by apply elem_of_nil in Hp].
    + intros p. destruct (decide (p = root)) as [->|Hne]; [left; apply lookup_delete_eq|right]. rewrite lookup_delete_ne by done.
      split_and!; [done..|apply not_elem_of_nil].
    + intros p cs Hcs Hp. destruct (decide (p = root)) as [->|Hne]; [by left|]. rewrite lookup_delete_ne in Hp by done. congruence.
  - exists l. split; [done|]. rewrite app_nil_l in Hnd. apply NoDup_app in Hnd as (Hnd&_&_). split; [done|]. split; [|done].
    intros x. split.
    + intros Hx. apply list_elem_of_lookup in Hx as [i Hi]. revert x Hi. induction i as [i IH] using lt_wf_ind. intros x Hi.
      destruct (Hf (take i l) x (drop (S i) l)) as (p&He&Hp); [by rewrite take_drop_middle|].
      destruct Hp as [->|Hp]; [by apply tc_once|]. apply list_elem_of_lookup in Hp as [j Hj]. apply lookup_take_Some in Hj as [Hj Hlt].
      eapply tc_r; [by apply (IH j)|done].
    + assert (Hclosed : ∀ p c, edge m0 p c → p = root ∨ p ∈ l → c ∈ l) by (intros p c He Hp; rewrite <-(app_nil_r l); by eapply Hc).
      assert (Htc : ∀ p c, tc (edge m0) p c → p = root ∨ p ∈ l → c ∈ l); [|intros Hx; apply (Htc root x); [done|by left]].
      intros p c Htc. induction Htc as [p c He|p q c He _ IH]; intros Hp; [by eapply Hclosed|]. apply IH. right. by eapply Hclosed.
Qed.
End Descendants.

(** ** The children of the live threads *)

Lemma all_children_insert m k cs : m !! k = None → all_children (<[k:=cs]> m) ≡ₚ cs ++ all_children m.
Proof. intros Hk. unfold all_children. by rewrite map_to_list_insert. Qed.

Lemma all_children_nodup m :
  (∀ p cs, m !! p = Some cs → NoDup cs) → (∀ p q c, edge m p c → edge m q c → p = q) → NoDup (all_children m).
Proof.
  induction m as [|k cs m Hk IH] using map_ind; intros Hnd Hone; [constructor|]. rewrite all_children_insert by done.
  assert (Hsub : ∀ p cs', m !! p = Some cs' → <[k:=cs]> m !! p = Some cs').
  { intros p cs' Hp. rewrite lookup_insert_ne; [done|]. intros ->. congruence. }
  apply NoDup_app. split_and!.
  - apply (Hnd k). apply lookup_insert_eq.
  - intros c Hc (p&cs'&Hp&Hin)%all_children_elem. assert (k = p) as ->; [|congruence].
    apply (Hone k p c); [exists cs; by rewrite lookup_insert_eq|exists cs'; by auto].
  - apply IH; [by intros p cs' Hp; apply (Hnd p), Hsub|].
    intros p q c (c1&H1&I1) (c2&H2&I2). apply (Hone p q c); [exists c1|exists c2]; auto.
Qed.

Lemma insert_child_perm x l : insert_child x l ≡ₚ x :: l.
Proof. induction l as [|y l IH]; simpl; [done|]. destruct (child_order x y); [done|]. rewrite IH. constructor. Qed.
Lemma sort_children_perm l : sort_children l ≡ₚ l.
Proof. induction l as [|x l IH]; simpl; [done|]. by rewrite insert_child_perm, IH. Qed.

Section Threads.
Context (iter : gmap str AgentMetadata → list (str * AgentMetadata)) (a : ActiveAgents).
Implicit Types threads : list (ThreadId * SessionSource).

Definition has_parent (p : ThreadId) (t : ThreadId * SessionSource) : bool :=
  bool_decide (thread_spawn_parent_thread_id t.2 = Some p).

Lemma children_in_order threads p :
  fst <$> default [] (foldl (add_child iter a) ∅ threads !! p) = fst <$> List.filter (has_parent p) threads.
Proof.
  induction threads as [|t threads IH] using rev_ind; [done|]. rewrite foldl_app, List.filter_app, fmap_app, <-IH. simpl.
  unfold add_child at 1. unfold has_parent. destruct (thread_spawn_parent_thread_id t.2) as [q|]; simpl.
  - destruct (decide (q = p)) as [->|Hne].
    + rewrite lookup_insert_eq, bool_decide_eq_true_2 by done. simpl. by rewrite fmap_app.
    + rewrite lookup_insert_ne, bool_decide_eq_false_2 by congruence. simpl. by rewrite app_nil_r.
  - by rewrite app_nil_r.
Qed.

Definition children_ids threads : gmap ThreadId (list ThreadId) :=
  (λ children : list (ThreadId * AgentMetadata), fst <$> children) <$> live_thread_spawn_children iter threads a.

Lemma children_ids_perm threads p : default [] (children_ids threads !! p) ≡ₚ fst <$> List.filter (has_parent p) threads.
Proof.
  rewrite <-children_in_order. unfold children_ids, live_thread_spawn_children. rewrite !lookup_fmap.
  destruct (foldl (add_child iter a) ∅ threads !! p) as [l|]; simpl; [by rewrite sort_children_perm|done].
Qed.

Lemma child_edge threads p c : edge (children_ids threads) p c ↔ ∃ s, (c, s) ∈ threads ∧ thread_spawn_parent_thread_id s = Some p.
Proof.
  trans (c ∈ fst <$> List.filter (has_parent p) threads).
  - rewrite <-children_ids_perm. unfold edge. destruct (children_ids threads !! p) as [cs|]; simpl; [naive_solver|].
    split; [by intros (?&?&?)|by intros ?%elem_of_nil].
  - rewrite list_elem_of_fmap. split.
    + intros ([c' s]&->&Hin%list_elem_of_In). apply List.filter_In in Hin as [Hin Hp%bool_decide_eq_true]. exists s. split; [by apply list_elem_of_In|done].
    + intros (s&Hin&Hp). exists (c, s). split; [done|]. apply list_elem_of_In, List.filter_In. split; [by apply list_elem_of_In|by apply bool_decide_eq_true].
Qed.

Lemma children_once threads : NoDup (fst <$> threads) → NoDup (all_children (children_ids threads)).
Proof.
  intros Hnd. apply all_children_nodup.
  - intros p cs Hp. pose proof (children_ids_perm threads p) as H. rewrite Hp in H. simpl in H. rewrite H.
    clear -Hnd. induction threads as [|t l IH]; [constructor|]. apply NoDup_cons in Hnd as [Hn Hnd]. simpl. destruct (has_parent p t); [|by apply IH].
    csimpl. constructor; [|by apply IH]. intros (t'&Heq&Hin%list_elem_of_In)%list_elem_of_fmap. apply List.filter_In in Hin as [Hin _].
    apply Hn, list_elem_of_fmap. exists t'. split; [done|by apply list_elem_of_In].
  - intros p q c (s1&H1&P1)%child_edge (s2&H2&P2)%child_edge. assert (s1 = s2) as ->; [|congruence].
    apply list_elem_of_lookup in H1 as [i H1], H2 as [j H2].
    assert (i = j) as ->; [|congruence]. apply (NoDup_lookup _ i j c Hnd); rewrite list_lookup_fmap; [by rewrite H1|by rewrite H2].
Qed.
End Threads.
