(* ===== verification/AgentPromises.v ===== *)
(** * What the registry of sub-agents promises

    The limit on sub-agents under any interleaving, the uniqueness of nicknames,
    what a spawn does when nothing interferes, and how agents are found. *)
From S2P Require Import Prelude Str Io AgentPath AgentRegistry AgentSpawn AgentSpawnFacts AgentControl.
Import AgentPath AgentRegistry AgentSpawn AgentControl.

(** ** The limit *)

Section Limit.
Context (iter : gmap str AgentMetadata → list (str * AgentMetadata)) (iter_spec : ∀ m, iter m ≡ₚ map_to_list m).

Lemma filter_length_perm {A} (f : A → bool) l l' : l ≡ₚ l' → length (List.filter f l) = length (List.filter f l').
Proof. induction 1; simpl; repeat case_match; simpl; congruence. Qed.

Lemma live_agents_count a : length (live_agents iter a) = live_count (agent_tree a).
Proof.
  unfold live_agents, live_count. rewrite (filter_length_perm _ _ (snd <$> map_to_list (agent_tree a))) by by rewrite iter_spec.
  generalize (agent_tree a). intros m. induction m as [|k md m Hk IH] using map_ind; [done|].
  rewrite (filter_length_perm _ _ (md :: (snd <$> map_to_list m))) by by rewrite map_to_list_insert.
  simpl. destruct (is_live_agent md) eqn:Hl; simpl.
  - rewrite map_filter_insert_True by done. rewrite map_size_insert_None; [by f_equal|]. apply map_lookup_filter_None. by left.
  - rewrite map_filter_insert_False by (simpl; congruence). by rewrite delete_id.
Qed.

(** C20. However spawns, resumes, releases and everything else that uses the
    registry interleave, the count never exceeds the limit and is the number
    of live sub-agents, of spawns in progress, and of commits that put an
    agent in the place of a live one, each of which leaks a slot. There are
    none of those when no thread is resumed under an id that a live agent, or
    a thread about to be committed, has at that moment, which the code does
    not ensure (see the finding): then no slot leaks and none is freed twice. *)
Theorem agent_limit_holds resumable limit w :
  (limit < USIZE)%N → reachable iter resumable limit w →
  (total_count (registry w) <= limit)%N
  ∧ total_count (registry w)
    = N.of_nat (length (live_agents iter (active_agents (registry w))) + total_weight (tasks w) + replaced w)
  ∧ ((∀ w id, resumable w id → unused w id) → replaced w = 0).
Proof.
  intros Hlim Hr. rewrite live_agents_count. split_and!.
  - by eapply (inv_limit false), (inv_reachable false iter iter_spec resumable).
  - by eapply (inv_count false), (inv_reachable false iter iter_spec resumable).
  - intros Hcareful. by eapply (inv_careful true _ _ (inv_reachable true iter iter_spec resumable (λ _, Hcareful) limit w Hlim Hr)).
Qed.
End Limit.

(** ** Nicknames *)

(** What happens to the names: a reservation, a registration. *)
Inductive name_event : Type :=
| ReserveNickname (names : list str) (preferred : option str) (random : nat)
| Register (md : AgentMetadata)
| Elsewhere (tree : gmap str AgentMetadata).

(** The names that were handed out without being asked for. *)
Fixpoint run_names (l : list name_event) (a : ActiveAgents) : list str :=
  match l with
  | [] => []
  | ReserveNickname names preferred random :: l =>
      let '(a', nickname) := reserve_agent_nickname names preferred random a in
      match preferred, nickname with None, Some n => n :: run_names l a' | _, _ => run_names l a' end
  | Register md :: l => run_names l (register_spawned_thread md a)
  | Elsewhere tree :: l => run_names l (with_tree tree a)
  end.

Definition pools (P : str → Prop) (l : list name_event) : Prop :=
  ∀ names preferred random, ReserveNickname names preferred random ∈ l → Forall P names.
(** No two names of the pools are the same once numbered. *)
Definition distinct_names (P : str → Prop) : Prop :=
  ∀ n n' r r', P n → P n' → format_agent_nickname n r = format_agent_nickname n' r' → n = n' ∧ r = r'.

Lemma choose_Some {A} (l : list A) random x : choose l random = Some x → x ∈ l.
Proof. apply list_elem_of_lookup_2. Qed.
Lemma choose_None {A} (l : list A) random : choose l random = None → l = [].
Proof. unfold choose. destruct l as [|x l]; [done|]. intros Hn. apply lookup_ge_None in Hn. pose proof (Nat.mod_upper_bound random (length (x :: l)) ltac:(done)). lia. Qed.

Lemma used_names_kept md a n : n ∈ used_agent_nicknames a → n ∈ used_agent_nicknames (register_spawned_thread md a).
Proof. unfold register_spawned_thread. destruct (agent_id md); [|done]. simpl. destruct (agent_nickname md); set_solver. Qed.

(** What was handed out before: numbered at most as now, and in use if
    numbered as now. *)
Definition handed_ok (P : str → Prop) (a : ActiveAgents) (handed : list str) : Prop :=
  ∀ x, x ∈ handed → ∃ n r, P n ∧ x = format_agent_nickname n r ∧ r ≤ nickname_reset_count a
    ∧ (r = nickname_reset_count a → x ∈ used_agent_nicknames a).

Lemma reserve_fresh P names random a a' x handed :
  distinct_names P → Forall P names → handed_ok P a handed →
  reserve_agent_nickname names None random a = (a', Some x) → x ∉ handed ∧ handed_ok P a' (x :: handed).
Proof.
  intros Hd Hn Hok. unfold reserve_agent_nickname. case_bool_decide; [done|].
  destruct (choose _ random) as [y|] eqn:Hc; [|destruct (choose names random) as [n|] eqn:Hc'; [|done]]; intros [= <- <-].
  - apply choose_Some, list_elem_of_filter in Hc as [Hfree (n&->&Hin)%list_elem_of_fmap].
    rewrite List.Forall_forall in Hn. apply list_elem_of_In, Hn in Hin. split.
    + intros Hx. destruct (Hok _ Hx) as (n'&r&Hp&Heq&Hle&Hu). apply Hd in Heq as [_ Hr]; [|done..]. by apply Hfree, Hu.
    + intros z [->|Hz]%elem_of_cons; simpl.
      * exists n, (nickname_reset_count a). split_and!; [done..|]. set_solver.
      * destruct (Hok z Hz) as (n'&r&Hp&Heq&Hle&Hu). exists n', r. split_and!; [done..|]. set_solver.
  - apply choose_Some in Hc'. rewrite List.Forall_forall in Hn. apply list_elem_of_In, Hn in Hc'. simpl. split.
    + intros Hx. destruct (Hok _ Hx) as (n'&r&Hp&Heq&Hle&_). apply Hd in Heq as [_ Hr]; [lia|done..].
    + intros z [->|Hz]%elem_of_cons; simpl.
      * exists n, (nickname_reset_count a + 1). split_and!; [done..|]. set_solver.
      * destruct (Hok z Hz) as (n'&r&Hp&Heq&Hle&_). exists n', r. split_and!; [done|done|lia|lia].
Qed.

Lemma handed_ok_weaken P a a' handed :
  nickname_reset_count a' = nickname_reset_count a → used_agent_nicknames a ⊆ used_agent_nicknames a' →
  handed_ok P a handed → handed_ok P a' handed.
Proof. intros Hr Hu Hok x Hx. destruct (Hok x Hx) as (n&r&Hp&Heq&Hle&Hin). exists n, r. rewrite Hr. split_and!; [done..|]. set_solver. Qed.

Lemma run_names_distinct P l a handed :
  distinct_names P → pools P l → handed_ok P a handed → (∀ x, x ∈ run_names l a → x ∉ handed) ∧ NoDup (run_names l a).
Proof.
  intros Hd. revert a handed. induction l as [|e l IH]; intros a handed Hp Hok; simpl.
  { split; [by intros x ?%elem_of_nil|constructor]. }
  assert (Hp' : pools P l) by (intros names preferred random Hin; eapply Hp; right; exact Hin).
  destruct e as [names preferred random|md|tree].
  - destruct (reserve_agent_nickname names preferred random a) as [a' nickname] eqn:Hr. destruct preferred as [preferred|].
    + apply (IH a'); [done|]. unfold reserve_agent_nickname in Hr. injection Hr as <- <-.
      apply (handed_ok_weaken P a); [done| |done]. simpl. set_solver.
    + destruct nickname as [x|].
      * destruct (reserve_fresh P names random a a' x handed) as [Hx Hok']; [done|eapply Hp; by left|done|done|].
        destruct (IH a' (x :: handed) Hp' Hok') as [Hnew Hnd]. split.
        -- intros y [->|Hy]%elem_of_cons; [done|]. intros Hin. apply (Hnew y Hy). by right.
        -- constructor; [|done]. intros Hin. apply (Hnew x Hin). by left.
      * apply (IH a'); [done|]. unfold reserve_agent_nickname in Hr. case_bool_decide; [by injection Hr as <-|].
        destruct (choose _ random); [done|]. destruct (choose names random) eqn:Hc; [done|]. by apply choose_None in Hc.
  - apply (IH (register_spawned_thread md a)); [done|]. apply (handed_ok_weaken P a); [| |done].
    + unfold register_spawned_thread. by destruct (agent_id md).
    + intros n. apply used_names_kept.
  - apply (IH (with_tree tree a)); [done|]. by apply (handed_ok_weaken P a).
Qed.

Theorem nicknames_never_repeat P l :
  distinct_names P → pools P l → NoDup (run_names l (active_agents registry_default)).
Proof. intros Hd Hp. apply (run_names_distinct P l _ []); [done|done|]. by intros x ?%elem_of_nil. Qed.

(** Names without a space are not confused with numbered ones. *)
Lemma ordinal_suffix_letter v : ∃ c s, ordinal_suffix v = c :: s ∧ is_ascii_digit c = false.
Proof. unfold ordinal_suffix. repeat case_match; eexists _, _; by split. Qed.

(** Digits up to something else are determined. *)
Lemma digits_prefix_inj l l' c c' s s' :
  Forall (λ c, is_ascii_digit c = true) l → Forall (λ c, is_ascii_digit c = true) l' →
  is_ascii_digit c = false → is_ascii_digit c' = false → l ++ c :: s = l' ++ c' :: s' → l = l'.
Proof.
  intros Hl. revert l'. induction Hl as [|d l Hd Hl IH]; intros [|d' l'] Hl' Hc Hc' Heq; simplify_eq/=; [done|..].
  - inversion Hl'. congruence.
  - congruence.
  - f_equal. inversion Hl'. by eapply IH.
Qed.

Definition no_space (n : str) : Prop := SPACE ∉ n.

Lemma no_space_prefix_inj n n' s s' : no_space n → no_space n' → n ++ SPACE :: s = n' ++ SPACE :: s' → n = n' ∧ s = s'.
Proof.
  revert n'. induction n as [|c n IH]; intros [|c' n'] Hn Hn' Heq; simplify_eq/=; [done|..].
  - unfold no_space in *. set_solver.
  - unfold no_space in *. set_solver.
  - destruct (IH n') as [-> ->]; [unfold no_space in *; set_solver..|done|done].
Qed.

Lemma no_space_distinct : distinct_names no_space.
Proof.
  intros n n' r r' Hn Hn' Heq. unfold format_agent_nickname in Heq.
  assert (Hsp : ∀ x y s, no_space x → x = y ++ lit " the " ++ s → False).
  { intros x y s Hx ->. apply Hx. apply elem_of_app. right. by left. }
  destruct r as [|r], r' as [|r']; [done|exfalso; eapply (Hsp n n'); [done|exact Heq]|exfalso; eapply (Hsp n' n); [done|symmetry; exact Heq]|].
  change (lit " the ") with (SPACE :: lit "the ") in Heq. apply no_space_prefix_inj in Heq as [-> Heq]; [|done..]. split; [done|].
  apply (inj (lit "the " ++.)) in Heq.
  destruct (ordinal_suffix_letter (S r + 1)) as (c&s&Hs&Hc), (ordinal_suffix_letter (S r' + 1)) as (c'&s'&Hs'&Hc').
  rewrite Hs, Hs' in Heq. destruct (show_nat_spec (S r + 1)) as [Hd Hv], (show_nat_spec (S r' + 1)) as [Hd' Hv'].
  apply digits_prefix_inj in Heq; [|done..]. rewrite Heq in Hv. lia.
Qed.

(** ** A spawn by itself *)

Abbreviation tree_of g := (agent_tree (active_agents g)).

Section Alone.
Context (iter : gmap str AgentMetadata → list (str * AgentMetadata)).

(** A task whose steps nothing comes between; thread ids are any. *)
Inductive alone : AgentRegistry → task → AgentRegistry → task → Prop :=
| alone_refl g t : alone g t g t
| alone_step g1 t1 g2 t2 g3 t3 :
    alone g1 t1 g2 t2 → task_step iter (λ _, True) (λ _, True) g2 t2 g3 t3 → alone g1 t1 g3 t3.

(** The tree a spawn works on: it may have registered the root thread. *)
Definition base (g : AgentRegistry) (q : SpawnRequest) (tree : gmap str AgentMetadata) : Prop :=
  tree = tree_of g ∨ ∃ parent path n role, session_source q = Some (SubAgent (ThreadSpawn parent 1 path n role))
    ∧ tree = agent_tree (register_root_thread parent (active_agents g)).

Definition with_placeholder (tree : gmap str AgentMetadata) (r : SpawnReservation) (g : AgentRegistry) : Prop :=
  match reserved_agent_path r with
  | Some p => tree !! p = None ∧ tree_of g = <[p := placeholder p]> tree
  | None => tree_of g = tree
  end.

Definition held (g0 g : AgentRegistry) : Prop := total_count g = (total_count g0 + 1)%N.

(** The registry after a spawn that succeeded. *)
Definition spawned (q : SpawnRequest) (g0 g : AgentRegistry) (md : AgentMetadata) : Prop :=
  total_count g = (total_count g0 + 1)%N
  ∧ (agent_path md = session_source q ≫= get_agent_path ∨ (session_source q ≫= thread_spawn_parent_thread_id) = None)
  ∧ ∃ tree thread_id, base g0 q tree ∧ agent_id md = Some thread_id ∧ tree_of g = <[agent_key md thread_id := md]> tree.
(** The registry while a reservation is held. *)
Definition reserved (q : SpawnRequest) (g0 g : AgentRegistry) (r : SpawnReservation) : Prop :=
  active r = true ∧ held g0 g ∧ ∃ tree, base g0 q tree ∧ with_placeholder tree r g.

(** What is true after each step. *)
Definition alone_inv (q : SpawnRequest) (g0 g : AgentRegistry) (t : task) : Prop :=
  match t with
  | Starting q' | Counting q' _ _ => q' = q ∧ g = g0
  | Reserved q' r => q' = q ∧ r = new_reservation ∧ active_agents g = active_agents g0 ∧ held g0 g
  | RootKnown q' r => q' = q ∧ r = new_reservation ∧ base g0 q (tree_of g) ∧ held g0 g
  | PathReserved q' r => q' = q ∧ reserved_agent_path r = session_source q ≫= get_agent_path ∧ reserved q g0 g r
  | Prepared _ r md =>
      agent_path md = reserved_agent_path r ∧ reserved q g0 g r
      ∧ (agent_path md = session_source q ≫= get_agent_path ∨ (session_source q ≫= thread_spawn_parent_thread_id) = None)
  | Created r md =>
      agent_path md = reserved_agent_path r ∧ reserved q g0 g r ∧ is_Some (agent_id md)
      ∧ (agent_path md = session_source q ≫= get_agent_path ∨ (session_source q ≫= thread_spawn_parent_thread_id) = None)
  | Dropping r (Ok md) => active r = false ∧ spawned q g0 g md
  | Dropping r (Err _) => reserved q g0 g r
  | Subtracting (Err _) => held g0 g ∧ base g0 q (tree_of g)
  | Finished (Ok md) => spawned q g0 g md
  | Finished (Err _) => total_count g = total_count g0 ∧ base g0 q (tree_of g)
  | _ => False
  end.

Lemma alone_inv_step q g0 g t g' t' :
  (total_count g0 + 1 < USIZE)%N → task_step iter (λ _, True) (λ _, True) g t g' t' → alone_inv q g0 g t → alone_inv q g0 g' t'.
Proof.
  intros Hbound Hstep. destruct Hstep; simpl; unfold reserved.
  - intros [-> ->]. split_and!; try done. unfold held. simpl. apply N.mod_small. lia.
  - done.
  - intros [-> ->]. split; [done|by left].
  - intros [-> ->]. split_and!; try done. unfold held. simpl. congruence.
  - done.
  - intros (->&->&Ha&Hh). split_and!; try done. exists (tree_of g). split; [left; by rewrite Ha|done].
  - intros (->&->&Ha&Hh). split_and!; try done. right. rewrite Ha. by do 4 eexists.
  - intros (->&->&Ha&Hh). split_and!; try done. left. by rewrite Ha.
  - intros (->&->&Ha&Hh). split_and!; try done; [|by right]. exists (tree_of g). split; [left; by rewrite Ha|done].
  - intros (->&->&Hb&Hh). split_and!; try done; [by rewrite H|]. by exists (tree_of g).
  - intros (->&->&Hb&Hh). unfold reserve_agent_path in H0. destruct (tree_of g !! (p : str)) eqn:Hp; [done|]. injection H0 as <-.
    split_and!; try done; [by rewrite H|]. exists (tree_of g). split; [done|]. by split.
  - intros (->&->&Hb&Hh). unfold reserve_agent_path in H0. destruct (tree_of g !! (p : str)) eqn:Hp; [|done]. injection H0 as <-.
    split_and!; try done. by exists (tree_of g).
  - pose proof (reserve_nickname_tree (candidate_names q0) (preferred_agent_nickname q0) random (active_agents g)) as Ht.
    rewrite H0 in Ht. simpl in Ht. intros (->&Hr&Ha&Hh&tree&Hb&Hp). rewrite H in Hr. simpl in Hr.
    split_and!; try done; [|left; by rewrite H]. exists tree. split; [done|]. unfold with_placeholder in *. simpl. by rewrite Ht.
  - pose proof (reserve_nickname_tree (candidate_names q0) (preferred_agent_nickname q0) random (active_agents g)) as Ht.
    rewrite H in Ht. simpl in Ht. intros (->&Hr&Ha&Hh&tree&Hb&Hp).
    split_and!; try done. exists tree. split; [done|]. unfold with_placeholder in *. simpl. by rewrite Ht.
  - intros (Hp&Hr&Hs). split; [done|]. by split.
  - intros (Hp&Hr&Hs). split; [done|]. by split.
  - by intros (Hp&Hr&Hs).
  - intros (Hp&(Ha&Hh&tree&Hb&Hpl)&[id Hid]&Hs). split; [done|]. split_and!; try done. exists tree, id. split_and!; [done..|].
    unfold register_spawned_thread. rewrite Hid. simpl. unfold with_placeholder in Hpl. rewrite <-Hp in Hpl. unfold agent_key.
    destruct (agent_path md) as [p|]; simpl; [|by rewrite Hpl]. destruct Hpl as [_ ->]. apply insert_insert_eq.
  - destruct o as [md|e|]; [by intros []|intros (Ha&_); congruence|done].
  - destruct o as [md|e|]; [intros []; congruence| |done]. intros (Ha&Hh&tree&Hb&Hp). unfold with_placeholder in Hp. rewrite H0 in Hp.
    destruct Hp as [Hnone Htree]. split; [done|]. unfold on_active, release_reserved_agent_path. simpl.
    rewrite Htree, lookup_insert_eq, bool_decide_eq_true_2 by done. simpl. by rewrite delete_insert_id.
  - destruct o as [md|e|]; [intros []; congruence| |done]. intros (Ha&Hh&tree&Hb&Hp). unfold with_placeholder in Hp. rewrite H0 in Hp.
    split; [done|by rewrite Hp].
  - done.
  - destruct o as [md|e|]; [done| |done]. intros [Hh Hb]. split; [|done]. unfold held in Hh. simpl. rewrite Hh.
    replace (total_count g0 + 1 + USIZE - 1)%N with (total_count g0 + 1 * USIZE)%N by lia. rewrite N.Div0.mod_add, N.mod_small; lia.
Qed.

Lemma alone_inv_holds q g0 g t : (total_count g0 + 1 < USIZE)%N → alone g0 (Starting q) g t → alone_inv q g0 g t.
Proof.
  intros Hbound H. remember (Starting q) as t0 eqn:Ht0. induction H as [g1 t1|g1 t1 g2 t2 g3 t3 _ IH Hstep]; [by subst|].
  eapply alone_inv_step; [done|exact Hstep|by apply IH].
Qed.

(** C21. A spawn that nothing interferes with either registers its agent and
    takes one slot, or gives back its slot and its path, leaving the tree as
    it was but for the root thread. *)
Theorem spawn_all_or_nothing q g0 g o :
  (total_count g0 + 1 < USIZE)%N → alone g0 (Starting q) g (Finished o) →
  match o with
  | Ok md => spawned q g0 g md
  | Err _ => total_count g = total_count g0 ∧ base g0 q (tree_of g)
  | Crash => False
  end.
Proof. intros Hbound H%alone_inv_holds; [|done]. simpl in H. by destruct o. Qed.

(** After a tool spawned an agent for a task, the name of the task,
    resolved by the parent, is that agent. *)
Theorem spawned_agent_resolves q g0 g md parent source depth role task_name s :
  (∀ p, get_agent_path source = Some p → valid_path p) →
  thread_spawn_source parent source depth role (Some task_name) = Ok s → session_source q = Some s →
  (total_count g0 + 1 < USIZE)%N → alone g0 (Starting q) g (Finished (Ok md)) →
  ∃ thread_id, agent_id md = Some thread_id
    ∧ resolve_agent_reference source task_name (active_agents g) = Ok thread_id.
Proof.
  intros Hsource Hs Hq Hbound H%alone_inv_holds; [|done]. destruct H as (_&Hp&tree&id&_&Hid&Htree).
  exists id. split; [done|]. unfold thread_spawn_source in Hs. inv_result. unfold fmap, result_fmap in H.
  destruct (path_join _ task_name) as [p|e|] eqn:Hj; [|done..]. injection H as <-. rewrite Hq in Hp. simpl in Hp.
  destruct Hp as [Hp|]; [|done]. assert (Hvalid : valid_path (default ROOT (get_agent_path source))).
  { destruct (get_agent_path source) as [sp|]; [by apply Hsource|]. rewrite <-path_of_nil. apply valid_path_of. constructor. }
  unfold resolve_agent_reference. assert (resolve (default ROOT (get_agent_path source)) task_name = Ok p) as ->.
  { apply resolve_Ok; [done|]. apply path_join_Ok in Hj as (Hn&names&Hns&->&->); [|done]. right.
    exists names, [task_name]. split_and!; try done. by constructor. }
  simpl. unfold agent_id_for_path. rewrite Htree. unfold agent_key. rewrite Hp. simpl. by rewrite lookup_insert_eq; simpl; rewrite Hid.
Qed.
End Alone.

(** ** Descendants *)

(** One thread is a child of another when its source says so. *)
Definition child_of (threads : list (ThreadId * SessionSource)) (p c : ThreadId) : Prop :=
  ∃ s, (c, s) ∈ threads ∧ thread_spawn_parent_thread_id s = Some p.

Lemma tc_same {A} (R S : A → A → Prop) x y : (∀ p c, R p c ↔ S p c) → tc R x y ↔ tc S x y.
Proof.
  intros Hrs. split; induction 1 as [p c He|p c d He _ IH];
    [apply tc_once|eapply tc_l; [|exact IH]|apply tc_once|eapply tc_l; [|exact IH]]; by apply Hrs.
Qed.

(** C22. Collecting the descendants of a thread ends, and gives every thread
    spawned below it exactly once, each after its parent. *)
Theorem descendants_exact iter threads a root :
  NoDup (fst <$> threads) →
  ∃ l, live_thread_spawn_descendants iter threads a root = Ok l ∧ NoDup l
    ∧ (∀ x, x ∈ l ↔ tc (child_of threads) root x)
    ∧ (∀ l1 c l2, l = l1 ++ c :: l2 → ∃ p, child_of threads p c ∧ (p = root ∨ p ∈ l1)).
Proof.
  intros Hnd. destruct (descendants_of_spec (children_ids iter a threads) root (children_once iter a threads Hnd)) as (l&Hl&Hn&Htc&Hp).
  exists l. split; [done|]. split; [done|]. split.
  - intros x. rewrite Htc. apply tc_same. intros p c. apply (child_edge iter a).
  - intros l1 c l2 Heq. destruct (Hp l1 c l2 Heq) as (p&He&Hor). exists p. split; [by apply (child_edge iter a)|done].
Qed.

(** ** A session *)

Module SessionExample.
Definition order (m : gmap str AgentMetadata) : list (str * AgentMetadata) := map_to_list m.

Definition job_source : SessionSource := SubAgent (ThreadSpawn (lit "main") 1 (Some (lit "/root/job")) None None).
Definition request : SpawnRequest := {|
  agent_max_threads := Some 1%N; session_source := Some job_source; candidate_names := [lit "Euclid"; lit "Zeno"];
  preferred_agent_nickname := None; resumed_thread_id := None |}.
Definition job_path : SpawnReservation := with_reserved_path (lit "/root/job") new_reservation.
Definition job_held : SpawnReservation := with_reserved_nickname (lit "Euclid") job_path.
Definition job_metadata : AgentMetadata := prepared_metadata (Some (lit "/root/job")) (lit "Euclid") None.
Definition job : AgentMetadata := with_id (lit "t1") job_metadata.

(** The registry at the moments of a spawn. *)
Definition g1 : AgentRegistry := store_count 1 registry_default.
Definition g2 : AgentRegistry := on_active (register_root_thread (lit "main")) g1.
Definition g3 : AgentRegistry :=
  match reserve_agent_path (lit "/root/job") (active_agents g2) with Ok a => with_active a g2 | _ => g2 end.
Definition g4 : AgentRegistry :=
  with_active (reserve_agent_nickname [lit "Euclid"; lit "Zeno"] None 0 (active_agents g3)).1 g3.
Definition g5 : AgentRegistry := on_active (register_spawned_thread job) g4.

Lemma job_child : child_path (lit "/root/job").
Proof. exists [], (lit "job"). split; [done|]. constructor; [|constructor]. split_and!; [done..|]. by apply forallb_Forall. Qed.

Lemma job_alone : alone order registry_default (Starting request) g5 (Finished (Ok job)).
Proof.
  eapply alone_step; [|by apply step_drop_inactive with (r := committed job_held)].
  eapply alone_step; [|by apply step_commit]. eapply alone_step; [|by apply (step_created order _ _ g4 request job_held job_metadata (lit "t1"))].
  eapply alone_step; [|by eapply (step_nickname order _ _ g3 request job_path _ _ _ _ _ 0)].
  eapply alone_step; [|by eapply (step_path order _ _ g2 request new_reservation)].
  eapply alone_step; [|by eapply (step_root order _ _ g1 request new_reservation)].
  eapply alone_step; [|by apply (step_exchange order _ _ registry_default request 1 0)].
  eapply alone_step; [apply alone_refl|by apply step_load].
Qed.

(** Two spawns at once, with room for one. *)
Definition crowded : world := {| registry := g5; tasks := [Finished (Ok job); Finished (Err (AgentLimitReached 1))]; replaced := 0 |}.

Lemma request_fine : request_ok 1 request.
Proof. split; [by exists 1%N|]. exact job_child. Qed.

Ltac run i := eapply rtc_l; [eapply (session_task order _ _ _ i); [reflexivity|]|].
Lemma crowded_reachable : reachable order unused 1 crowded.
Proof.
  unfold reachable. eapply rtc_l; [apply (session_spawn order unused 1 _ request), request_fine|].
  eapply rtc_l; [apply (session_spawn order unused 1 _ request), request_fine|].
  run 0; [by apply step_load|]. run 1; [by apply step_load|].
  run 0; [by apply (step_exchange order _ _ registry_default request 1 0)|].
  run 1; [by apply (step_exchange_fails order _ _ g1 request 1 0)|].
  run 1; [by apply (step_limit order _ _ g1 request 1 1)|].
  run 0; [by eapply (step_root order _ _ g1 request new_reservation)|].
  run 0; [by eapply (step_path order _ _ g2 request new_reservation)|].
  run 0; [by eapply (step_nickname order _ _ g3 request job_path _ _ _ _ _ 0)|].
  run 0; [apply (step_created order _ _ g4 request job_held job_metadata (lit "t1")); [reflexivity|]|].
  { split.
    - apply (bool_decide_unpack (map_Forall (λ _ md, agent_id md ≠ Some (lit "t1")) (tree_of g4))). vm_compute. exact I.
    - intros r md Hin. simpl in Hin. set_solver. }
  run 0; [by apply step_commit|]. run 0; [by apply step_drop_inactive|]. apply rtc_refl.
Qed.

(** Two resumes of one closed thread at once: both find it closed, both commit, and
    when the agent is released again one slot stays taken for good. *)
Definition resume : SpawnRequest := {|
  agent_max_threads := Some 2%N; session_source := Some (SubAgent (ThreadSpawn (lit "main") 2 None None None)); candidate_names := [];
  preferred_agent_nickname := Some (lit "Zeno"); resumed_thread_id := Some (lit "t1") |}.
Definition resumed : SpawnReservation := with_reserved_nickname (lit "Zeno") new_reservation.
Definition resumed_metadata : AgentMetadata := prepared_metadata None (lit "Zeno") None.
Definition outcome : task := Finished (Ok (with_id (lit "t1") resumed_metadata)).

Ltac evaluate := match goal with |- rtc _ ?w _ => let w' := eval vm_compute in w in change w with w' end.
Ltac step i tac := run i; [by tac|]; evaluate.
Ltac resume_steps i :=
  step i ltac:(apply step_load); step i ltac:(apply step_exchange); step i ltac:(eapply step_no_root); step i ltac:(eapply step_no_path);
  step i ltac:(eapply (step_nickname order _ _ _ _ new_reservation _ _ _ _ _ 0)).
Lemma concurrent_resumes_leak_slot :
  ∃ w, reachable order (λ _ _, True) 2 w ∧ tasks w = [outcome; outcome; Finished (Ok metadata_default)]
    ∧ live_agents order (active_agents (registry w)) = [] ∧ total_count (registry w) = 1%N ∧ replaced w = 1.
Proof.
  eexists. split.
  - unfold reachable. assert (Hok : request_ok 2 resume) by (split; [by exists 2%N|done]).
    do 2 (eapply rtc_l; [apply (session_spawn order _ 2 _ resume), Hok|]). resume_steps 0. resume_steps 1.
    step 0 ltac:(apply (step_resumed order _ _ _ resume resumed resumed_metadata (lit "t1"))).
    step 1 ltac:(apply (step_resumed order _ _ _ resume resumed resumed_metadata (lit "t1"))).
    step 0 ltac:(apply step_commit). step 0 ltac:(apply step_drop_inactive).
    step 1 ltac:(apply step_commit). step 1 ltac:(apply step_drop_inactive).
    eapply rtc_l; [apply (session_release order _ 2 _ (lit "t1"))|].
    step 2 ltac:(eapply step_release). step 2 ltac:(apply step_subtract). apply rtc_refl.
  - split_and!; vm_compute; reflexivity.
Qed.
End SessionExample.
Import SessionExample.

Lemma order_spec m : order m ≡ₚ map_to_list m.
Proof. done. Qed.

Lemma agent_limit_holds_witness :
  total_count (registry crowded) = N.of_nat (length (live_agents order (active_agents (registry crowded))) + total_weight (tasks crowded))
  ∧ length (live_agents order (active_agents (registry crowded))) = 1.
Proof.
  split; [|vm_compute; reflexivity].
  destruct (agent_limit_holds order order_spec unused 1 crowded) as (_&Hcount&Hcareful); [reflexivity|exact crowded_reachable|].
  rewrite (Hcareful (λ w id H, H)), Nat.add_0_r in Hcount. exact Hcount.
Defined.

Lemma nicknames_never_repeat_witness :
  NoDup (run_names [ReserveNickname [lit "Zeno"] None 0; ReserveNickname [lit "Zeno"] None 0] (active_agents registry_default)).
Proof.
  apply (nicknames_never_repeat no_space); [exact no_space_distinct|].
  intros names preferred random Hin. apply elem_of_cons in Hin as [[= -> -> ->]|Hin].
  - constructor; [|constructor]. intros H. apply contains_char_spec in H. discriminate H.
  - apply elem_of_cons in Hin as [[= -> -> ->]|Hin]; [|by apply elem_of_nil in Hin].
    constructor; [|constructor]. intros H. apply contains_char_spec in H. discriminate H.
Defined.

Lemma spawn_all_or_nothing_witness : spawned request registry_default g5 job.
Proof. exact (spawn_all_or_nothing order request registry_default g5 (Ok job) eq_refl job_alone). Defined.

Lemma spawned_agent_resolves_witness :
  ∃ thread_id, agent_id job = Some thread_id ∧ resolve_agent_reference Cli (lit "job") (active_agents g5) = Ok thread_id.
Proof.
  apply (spawned_agent_resolves order request registry_default g5 job (lit "main") Cli 1 None (lit "job") job_source);
    [discriminate|vm_compute; reflexivity|reflexivity|reflexivity|exact job_alone].
Defined.

Lemma descendants_exact_witness :
  ∃ l, live_thread_spawn_descendants order [(lit "t1", job_source)] (active_agents g5) (lit "main") = Ok l ∧ lit "t1" ∈ l.
Proof.
  destruct (descendants_exact order [(lit "t1", job_source)] (active_agents g5) (lit "main")) as (l&Hl&_&Hx&_).
  { apply NoDup_singleton. }
  exists l. split; [exact Hl|]. apply Hx. apply tc_once. exists job_source. split; [left|reflexivity].
Defined.

(** The numbered names of the second round. *)
Example second_round :
  run_names [ReserveNickname [lit "Zeno"] None 0; ReserveNickname [lit "Zeno"] None 0; ReserveNickname [lit "Zeno"] None 0]
    (active_agents registry_default) = [lit "Zeno"; lit "Zeno the 2nd"; lit "Zeno the 3rd"].
Proof. vm_compute. reflexivity. Qed.
