(* ===== verification/Compaction.v ===== *)
(** * Compaction

    Models [core/src/compact.rs] and [core/src/compact_remote.rs], the functions
    of [core/src/session/mod.rs] they call, the last assistant message of a turn
    ([core/src/session/turn.rs], [core/src/stream_events_utils.rs]) and the
    compaction before a turn ([run_pre_sampling_compact]).  The answers of the
    model are a parameter: the [n]-th request of a session gets the [n]-th answer.
    So are the initial context and the tools of a turn, the turn context of
    another model, and the texts of errors and prompt files. *)
From S2P Require Import Prelude Str Io Truncate History StreamParser Rollout SamplingLoop.
Import Truncate History StreamParser Rollout.

Module Compaction.
Abbreviation CodexErr := SamplingLoop.CodexErr.
Abbreviation Interrupted := SamplingLoop.Interrupted.
Abbreviation ContextWindowExceeded := SamplingLoop.ContextWindowExceeded.
#[export] Existing Instance SamplingLoop.CodexErr_eq_dec.

(** ** What a session keeps *)

Inductive InitialContextInjection : Type := BeforeLastUserMessage | DoNotInject.
Inductive CompactionTrigger : Type := Manual | Auto.
Inductive CompactionReason : Type := UserRequested | ContextLimit | ModelDownshift.
Inductive CompactionImplementation : Type := Responses | ResponsesCompact.
Inductive CompactionPhase : Type := StandaloneTurn | PreTurn | MidTurn.
Inductive CompactionStatus : Type := Completed | Failed | StatusInterrupted.

Record CreditsSnapshot : Type := { has_credits : bool; unlimited : bool; balance : option str }.

(** [RateLimitSnapshot]; the plan and the windows are only carried along. *)
Record RateLimitSnapshot (Plan Rest : Type) : Type := {
  limit_id : option str;
  credits : option CreditsSnapshot;
  plan_type : option Plan;
  limits_rest : Rest;
}.
Arguments Build_RateLimitSnapshot {Plan Rest}.
Arguments limit_id {Plan Rest}.
Arguments credits {Plan Rest}.
Arguments plan_type {Plan Rest}.
Arguments limits_rest {Plan Rest}.

Record ModelInfo : Type := {
  slug : str;
  context_window : option Z;
  max_context_window : option Z;
  auto_compact_token_limit_config : option Z;
  effective_context_window_percent : Z;
  takes_images : bool;
}.

Record TotalTokenUsageBreakdown : Type := {
  last_api_response_total_tokens : Z;
  all_history_items_model_visible_bytes : Z;
  estimated_tokens_of_items_added_since_last_successful_api_response : Z;
  estimated_bytes_of_items_added_since_last_successful_api_response : Z;
}.

Section Compaction.
Context {P Value Rest Plan Limits : Type}.
Abbreviation item := (@ResponseItem P Value).
Abbreviation TurnContextItem := (TurnContextItem Rest).
Abbreviation ContextManager := (@ContextManager P Value TurnContextItem).
Abbreviation RateLimitSnapshot := (RateLimitSnapshot Plan Limits).

(** What of a turn's context these functions use. *)
Record TurnContext : Type := {
  model_info : ModelInfo;
  truncation_policy : TruncationPolicy;
  stream_max_retries : nat;
  supports_remote_compaction : bool;
  compact_prompt_config : option str;
  to_turn_context_item : TurnContextItem;
}.

Inductive EventMsg : Type :=
| TurnStarted (model_context_window : option Z)
| ItemStarted
| ItemCompleted
| TokenCount (info : option TokenUsageInfo) (rate_limits : option RateLimitSnapshot)
| BackgroundEvent (m : str)
| StreamError (m : str) (e : CodexErr)
| WarningEvent (m : str)
| ErrorEvent (message_prefix : option str) (e : CodexErr).

(** What a compaction does to the world, in its order: requests to the model,
    events to the client, items of the rollout file, and the rest. *)
Inductive effect : Type :=
| Request (input : list item) (base_instructions : str)
| CompactRequest (input : list item) (base_instructions : str)
| SendEvent (e : EventMsg)
| Persist (i : @RolloutItem P Value Rest)
| Sleep (attempt : nat)
| ResetWebsocket
| LogRemoteFailure (request_bytes : Z) (b : TotalTokenUsageBreakdown) (e : CodexErr)
| TrackCompaction (trigger : CompactionTrigger) (reason : CompactionReason)
    (implementation : CompactionImplementation) (phase : CompactionPhase)
    (status : CompactionStatus) (error : option str) (before after : Z).

Record Session : Type := {
  sess_history : ContextManager;
  server_reasoning_included : bool;
  latest_rate_limits : option RateLimitSnapshot;
  sess_previous_settings : option PreviousTurnSettings;
  sess_instructions : str;
  general_analytics : bool;
  window_generation : Z;
  requests_made : nat;
  log : list effect;
}.

Definition with_history (h : ContextManager) (s : Session) : Session := {|
  sess_history := h; server_reasoning_included := server_reasoning_included s;
  latest_rate_limits := latest_rate_limits s; sess_previous_settings := sess_previous_settings s;
  sess_instructions := sess_instructions s; general_analytics := general_analytics s;
  window_generation := window_generation s; requests_made := requests_made s; log := log s |}.
Definition with_reasoning (b : bool) (s : Session) : Session := {|
  sess_history := sess_history s; server_reasoning_included := b;
  latest_rate_limits := latest_rate_limits s; sess_previous_settings := sess_previous_settings s;
  sess_instructions := sess_instructions s; general_analytics := general_analytics s;
  window_generation := window_generation s; requests_made := requests_made s; log := log s |}.
Definition with_rate_limits (r : RateLimitSnapshot) (s : Session) : Session := {|
  sess_history := sess_history s; server_reasoning_included := server_reasoning_included s;
  latest_rate_limits := Some r; sess_previous_settings := sess_previous_settings s;
  sess_instructions := sess_instructions s; general_analytics := general_analytics s;
  window_generation := window_generation s; requests_made := requests_made s; log := log s |}.
Definition next_window (s : Session) : Session := {|
  sess_history := sess_history s; server_reasoning_included := server_reasoning_included s;
  latest_rate_limits := latest_rate_limits s; sess_previous_settings := sess_previous_settings s;
  sess_instructions := sess_instructions s; general_analytics := general_analytics s;
  window_generation := (window_generation s + 1) mod 2 ^ 64; requests_made := requests_made s; log := log s |}.
Definition request_made (s : Session) : Session := {|
  sess_history := sess_history s; server_reasoning_included := server_reasoning_included s;
  latest_rate_limits := latest_rate_limits s; sess_previous_settings := sess_previous_settings s;
  sess_instructions := sess_instructions s; general_analytics := general_analytics s;
  window_generation := window_generation s; requests_made := S (requests_made s); log := log s |}.
Definition logged (es : list effect) (s : Session) : Session := {|
  sess_history := sess_history s; server_reasoning_included := server_reasoning_included s;
  latest_rate_limits := latest_rate_limits s; sess_previous_settings := sess_previous_settings s;
  sess_instructions := sess_instructions s; general_analytics := general_analytics s;
  window_generation := window_generation s; requests_made := requests_made s; log := log s ++ es |}.

(** ** Code that changes the session *)

(** State passing, with the panics of debug builds.  A fallible function
    returns a [CodexErr + A], as the session keeps what happened before an
    error. *)
Definition M (A : Type) : Type := Session → result Empty_set (Session * A).
#[export] Instance M_ret : MRet M := λ A a s, Ok (s, a).
#[export] Instance M_bind : MBind M := λ A B f m s, match m s with Ok (s, a) => f a s | Err e => Err e | Crash => Crash end.
Definition get : M Session := λ s, Ok (s, s).
Definition modify (f : Session → Session) : M unit := λ s, Ok (f s, ()).
Definition lift {A} (r : result Empty_set A) : M A := λ s, a ← r; Ok (s, a).
Definition emit (e : effect) : M unit := modify (logged [e]).
(** The [?] operator. *)
Definition try_ {A B} (m : M (CodexErr + A)) (f : A → M (CodexErr + B)) : M (CodexErr + B) :=
  r ← m; match r with inl e => mret (inl e) | inr a => f a end.

(** Debug builds; what [Rollout] and [History] leave to other crates; the prompt
    files; the texts of errors; the names that [codex_protocol] gives to the
    turn contexts of other models. *)
Variable debug_assertions : bool.
Variable from_xml_str : str → option (str * str).
Variable inter_agent_json : str → option bool.
Variable to_json : item → option str.
Variable image_dimensions : str → option (Z * Z).
Variable no_fields : P.
Variables (SUMMARIZATION_PROMPT SUMMARY_PREFIX : str).
Variable err_to_string : CodexErr → str.

(** The answers of the model: a request fails, or streams events that may end in
    an error; the compact endpoint answers with a history. *)
Inductive ResponseEvent : Type :=
| OutputItemDone (i : item)
| ServerReasoningIncluded (included : bool)
| RateLimits (snapshot : RateLimitSnapshot)
| ResponseCompleted (token_usage : option TokenUsage)
| OtherResponseEvent.
Variable stream : nat → list item → CodexErr + list (CodexErr + ResponseEvent).
Variable compact_conversation_history : nat → list item → CodexErr + list item.
(** [build_initial_context], [built_tools] (which fails when the turn is
    cancelled) and [with_model]. *)
Variable build_initial_context : Session → TurnContext → list item.
Variable built_tools : Session → TurnContext → list item → CodexErr + unit.
Variable with_model : str → TurnContext → TurnContext.

Abbreviation estimate_response_item_model_visible_bytes :=
  (@estimate_response_item_model_visible_bytes P Value to_json image_dimensions).
Abbreviation estimate_item_token_count := (@estimate_item_token_count P Value to_json image_dimensions).
Abbreviation estimate_token_count := (@estimate_token_count_with_base_instructions P Value TurnContextItem to_json image_dimensions).
Abbreviation for_prompt := (@for_prompt P Value TurnContextItem debug_assertions).
Abbreviation parse_user_item := (@parse_user_item P Value from_xml_str).
Abbreviation collect_user_messages := (@collect_user_messages P Value from_xml_str SUMMARY_PREFIX).
Abbreviation build_compacted_history := (@build_compacted_history P Value no_fields).
Abbreviation insert_initial_context :=
  (@insert_initial_context_before_last_real_user_or_summary P Value from_xml_str SUMMARY_PREFIX).
Abbreviation history_total := (@History.get_total_token_usage P Value TurnContextItem to_json image_dimensions
  from_xml_str (is_inter_agent_json inter_agent_json)).

(** ** The context window of a model *)

Definition resolved_context_window (m : ModelInfo) : option Z :=
  match context_window m with Some w => Some w | None => max_context_window m end.
Definition i64_saturating_mul (a b : Z) : Z := Z.max i64_min (Z.min (a * b) i64_max).
Definition model_context_window (ctx : TurnContext) : option Z :=
  w ← resolved_context_window (model_info ctx);
  Some (i64_saturating_mul w (effective_context_window_percent (model_info ctx)) ÷ 100)%Z.
Definition auto_compact_token_limit (m : ModelInfo) : result Empty_set (option Z) :=
  match resolved_context_window m with
  | Some w =>
      w9 ← i64_checked debug_assertions (w * 9);
      let context_limit := (w9 ÷ 10)%Z in
      Ok (Some match auto_compact_token_limit_config m with
               | Some limit => Z.min limit context_limit
               | None => context_limit
               end)
  | None => Ok (auto_compact_token_limit_config m)
  end.
Definition compact_prompt (ctx : TurnContext) : str := default SUMMARIZATION_PROMPT (compact_prompt_config ctx).

(** ** The session *)

Definition send_event (e : EventMsg) : M unit := emit (SendEvent e).
Definition clone_history : M ContextManager := s ← get; mret (sess_history s).
Definition get_base_instructions : M str := s ← get; mret (sess_instructions s).
Definition get_total_token_usage : M Z :=
  s ← get; mret (history_total (server_reasoning_included s) (sess_history s)).
Definition persist_rollout_items (l : list (@RolloutItem P Value Rest)) : M unit := modify (logged (Persist <$> l)).

Definition send_token_count_event : M unit :=
  s ← get; send_event (TokenCount (token_info (sess_history s)) (latest_rate_limits s)).

Definition record_into_history (l : list item) (ctx : TurnContext) : M unit :=
  h ← clone_history; h ← lift (record_items l (truncation_policy ctx) h); modify (with_history h).

Definition update_token_usage_info (ctx : TurnContext) (token_usage : option TokenUsage) : M unit :=
  match token_usage with
  | Some usage =>
      h ← clone_history;
      h ← lift (update_token_info debug_assertions usage (model_context_window ctx) h);
      modify (with_history h)
  | None => mret ()
  end;;
  send_token_count_event.

Definition recompute_token_usage (ctx : TurnContext) : M unit :=
  h ← clone_history;
  instructions ← get_base_instructions;
  let estimated_total_tokens := estimate_token_count instructions h in
  let info := default {| total_token_usage := TokenUsage_default; last_token_usage := TokenUsage_default;
                         History.model_context_window := None |} (token_info h) in
  let info := {| total_token_usage := total_token_usage info;
                 last_token_usage := Build_TokenUsage 0 0 0 0 (Z.max estimated_total_tokens 0);
                 History.model_context_window :=
                   match model_context_window ctx with Some w => Some w | None => History.model_context_window info end |} in
  modify (with_history (set_token_info (Some info) h));;
  send_token_count_event.

Definition merge_rate_limit_fields (previous : option RateLimitSnapshot) (snapshot : RateLimitSnapshot) : RateLimitSnapshot := {|
  limit_id := Some (default (lit "codex") (limit_id snapshot));
  credits := match credits snapshot with Some c => Some c | None => previous ≫= credits end;
  plan_type := match plan_type snapshot with Some t => Some t | None => previous ≫= plan_type end;
  limits_rest := limits_rest snapshot |}.
Definition update_rate_limits (snapshot : RateLimitSnapshot) : M unit :=
  s ← get;
  modify (with_rate_limits (merge_rate_limit_fields (latest_rate_limits s) snapshot));;
  send_token_count_event.

Definition set_total_tokens_full (ctx : TurnContext) : M unit :=
  match model_context_window ctx with
  | Some w =>
      h ← clone_history; h ← lift (set_token_usage_full debug_assertions w h); modify (with_history h)
  | None => mret ()
  end;;
  send_token_count_event.

Definition notify_background_event (m : str) : M unit := send_event (BackgroundEvent m).
Definition notify_stream_error (m : str) (e : CodexErr) : M unit := send_event (StreamError m e).

Definition replace_history (l : list item) (reference_context_item : option TurnContextItem) : M unit :=
  h ← clone_history; modify (with_history (set_reference_context_item reference_context_item (replace l h))).
Definition replace_compacted_history (l : list item) (reference_context_item : option TurnContextItem)
    (compacted_item : @CompactedItem P Value) : M unit :=
  replace_history l reference_context_item;;
  persist_rollout_items [Compacted compacted_item];;
  match reference_context_item with
  | Some turn_context_item => persist_rollout_items [Rollout.TurnContext turn_context_item]
  | None => mret ()
  end;;
  modify next_window.

Definition content_items_to_text (content : list ContentItem) : option str :=
  let pieces := omap (λ c, match c with
                           | InputText text | OutputText text => if bool_decide (text = []) then None else Some text
                           | InputImage _ _ => None
                           end) content in
  if bool_decide (pieces = []) then None else Some (join [NL] pieces).

(** ** The last assistant message *)

Definition raw_assistant_output_text_from_item (i : item) : option str :=
  match i with
  | Message role content _ =>
      if bool_decide (role = lit "assistant")
      then Some (concat (omap (λ c, match c with OutputText text => Some text | _ => None end) content))
      else None
  | _ => None
  end.

(** [strip_hidden_assistant_markup] outside plan mode. *)
Definition strip_hidden_assistant_markup (text : str) : result Empty_set str :=
  '(without_citations, _) ← strip_citations text; Ok without_citations.

Definition last_assistant_message_from_item (i : item) : result Empty_set (option str) :=
  match raw_assistant_output_text_from_item i with
  | Some combined =>
      if bool_decide (combined = []) then Ok None
      else
        stripped ← strip_hidden_assistant_markup combined;
        Ok (if bool_decide (trim stripped = []) then None else Some stripped)
  | None => Ok None
  end.

(** The loop of [get_last_assistant_message_from_turn]; [l] is the reversed list. *)
Fixpoint last_assistant_message (l : list item) : result Empty_set (option str) :=
  match l with
  | [] => Ok None
  | i :: l =>
      m ← last_assistant_message_from_item i;
      match m with Some message => Ok (Some message) | None => last_assistant_message l end
  end.
Definition get_last_assistant_message_from_turn (responses : list item) : result Empty_set (option str) :=
  last_assistant_message (reverse responses).

(** ** One request for a summary *)

Definition stream_closed : CodexErr := SamplingLoop.Stream (lit "stream closed before response.completed") None.

(** The loop over the events of a stream, which ends after [events]. *)
Fixpoint drain (ctx : TurnContext) (events : list (CodexErr + ResponseEvent)) : M (CodexErr + unit) :=
  match events with
  | [] => mret (inl stream_closed)
  | inl e :: _ => mret (inl e)
  | inr event :: events =>
      match event with
      | OutputItemDone i => record_into_history [i] ctx;; drain ctx events
      | ServerReasoningIncluded included => modify (with_reasoning included);; drain ctx events
      | RateLimits snapshot => update_rate_limits snapshot;; drain ctx events
      | ResponseCompleted token_usage => update_token_usage_info ctx token_usage;; mret (inr ())
      | OtherResponseEvent => drain ctx events
      end
  end.
Definition drain_to_completed (ctx : TurnContext) (input : list item) (base_instructions : str) : M (CodexErr + unit) :=
  emit (Request input base_instructions);;
  s ← get;
  modify request_made;;
  match stream (requests_made s) input with
  | inl e => mret (inl e)
  | inr events => drain ctx events
  end.

(** ** Compaction by a summary *)

Definition trimmed_message (truncated_count : nat) : str :=
  lit "Trimmed " ++ show_nat truncated_count
  ++ lit " older thread item(s) before compacting so the prompt fits the model context window.".
Definition reconnecting_message (retries max_retries : nat) : str :=
  lit "Reconnecting... " ++ show_nat retries ++ lit "/" ++ show_nat max_retries.
Definition long_threads_warning : str :=
  lit "Heads up: Long threads and multiple compactions can cause the model to be less accurate. Start a new thread when possible to keep threads small and targeted.".

(** The loop of [run_compact_task_inner_impl] over the requests. *)
Fixpoint compact_loop (fuel : nat) (ctx : TurnContext) (h : ContextManager) (truncated_count retries : nat)
    : M (CodexErr + unit) :=
  match fuel with
  | 0 => lift Crash
  | S fuel =>
      turn_input ← lift (for_prompt (takes_images (model_info ctx)) h);
      instructions ← get_base_instructions;
      attempt_result ← drain_to_completed ctx turn_input instructions;
      match attempt_result with
      | inr () =>
          (if 0 <? truncated_count then notify_background_event (trimmed_message truncated_count) else mret ());;
          mret (inr ())
      | inl e =>
          if bool_decide (e = Interrupted) then mret (inl Interrupted)
          else if bool_decide (e = ContextWindowExceeded) then
            if 1 <? length turn_input then compact_loop fuel ctx (remove_first_item h) (S truncated_count) 0
            else
              set_total_tokens_full ctx;;
              send_event (ErrorEvent None e);;
              mret (inl e)
          else if retries <? stream_max_retries ctx then
            notify_stream_error (reconnecting_message (S retries) (stream_max_retries ctx)) e;;
            emit (Sleep (S retries));;
            compact_loop fuel ctx h truncated_count (S retries)
          else
            send_event (ErrorEvent None e);;
            mret (inl e)
      end
  end.
(** Each round removes an item or is one of at most [stream_max_retries]
    retries in a row. *)
Definition compact_fuel (ctx : TurnContext) (h : ContextManager) : nat :=
  S (length (items h)) * S (stream_max_retries ctx).

(** The history that replaces [history_items], and its summary. *)
Definition compacted_history (injection : InitialContextInjection) (initial_context history_items : list item)
    : result Empty_set (str * list item) :=
  summary_suffix ← get_last_assistant_message_from_turn history_items;
  let summary_text := SUMMARY_PREFIX ++ [NL] ++ default [] summary_suffix in
  new_history ← build_compacted_history [] (collect_user_messages history_items) summary_text;
  let new_history :=
    match injection with
    | BeforeLastUserMessage => insert_initial_context new_history initial_context
    | DoNotInject => new_history
    end in
  Ok (summary_text, new_history ++ filter (λ i, is_ghost i) history_items).

Definition reference_context (injection : InitialContextInjection) (ctx : TurnContext) : option TurnContextItem :=
  match injection with DoNotInject => None | BeforeLastUserMessage => Some (to_turn_context_item ctx) end.

Definition run_compact_task_inner_impl (ctx : TurnContext) (input : item) (injection : InitialContextInjection)
    : M (CodexErr + unit) :=
  send_event ItemStarted;;
  h ← clone_history;
  h ← lift (record_items [input] (truncation_policy ctx) h);
  try_ (compact_loop (compact_fuel ctx h) ctx h 0 0) (λ _,
  s ← get;
  '(summary_text, new_history) ← lift (compacted_history injection (build_initial_context s ctx) (items (sess_history s)));
  replace_compacted_history new_history (reference_context injection ctx)
    {| message := summary_text; replacement_history := Some new_history |};;
  emit ResetWebsocket;;
  recompute_token_usage ctx;;
  send_event ItemCompleted;;
  send_event (WarningEvent long_threads_warning);;
  mret (inr ())).

Definition compaction_status_from_result {A} (r : CodexErr + A) : CompactionStatus :=
  match r with
  | inr _ => Completed
  | inl SamplingLoop.Interrupted | inl SamplingLoop.TurnAborted => StatusInterrupted
  | inl _ => Failed
  end.
Definition error_text {A} (r : CodexErr + A) : option str := match r with inl e => Some (err_to_string e) | inr _ => None end.

(** [CompactionAnalyticsAttempt::begin] and [track] around a compaction. *)
Definition tracked (trigger : CompactionTrigger) (reason : CompactionReason) (implementation : CompactionImplementation)
    (phase : CompactionPhase) (m : M (CodexErr + unit)) : M (CodexErr + unit) :=
  s ← get;
  active_context_tokens_before ← get_total_token_usage;
  result ← m;
  (if general_analytics s then
     active_context_tokens_after ← get_total_token_usage;
     emit (TrackCompaction trigger reason implementation phase (compaction_status_from_result result) (error_text result)
       active_context_tokens_before active_context_tokens_after)
   else mret ());;
  mret result.

Definition run_compact_task_inner (ctx : TurnContext) (input : item) (injection : InitialContextInjection)
    (trigger : CompactionTrigger) (reason : CompactionReason) (phase : CompactionPhase) : M (CodexErr + unit) :=
  tracked trigger reason Responses phase (run_compact_task_inner_impl ctx input injection).

Definition run_inline_auto_compact_task (ctx : TurnContext) (injection : InitialContextInjection)
    (reason : CompactionReason) (phase : CompactionPhase) : M (CodexErr + unit) :=
  run_compact_task_inner ctx (user_text_message no_fields (compact_prompt ctx)) injection Auto reason phase.
(** [input] is the message made of the user's input. *)
Definition run_compact_task (ctx : TurnContext) (input : item) : M (CodexErr + unit) :=
  send_event (TurnStarted (model_context_window ctx));;
  run_compact_task_inner ctx input DoNotInject Manual UserRequested StandaloneTurn.

(** ** Compaction by the compact endpoint *)

(** [trim_function_call_history_to_fit_context_window]: its loop, with the
    number of items of the history as fuel. *)
Fixpoint trim_loop (fuel : nat) (window : Z) (base_instructions : str) (h : ContextManager) (deleted_items : nat)
    : result Empty_set (ContextManager * nat) :=
  if (window <? estimate_token_count base_instructions h)%Z then
    match last (items h) with
    | None => Ok (h, deleted_items)
    | Some last_item =>
        if negb (is_codex_generated_item last_item) then Ok (h, deleted_items)
        else
          match fuel, remove_last_item h with
          | S fuel, (h, true) => trim_loop fuel window base_instructions h (S deleted_items)
          | _, (h, false) => Ok (h, deleted_items)
          | 0, _ => Crash
          end
    end
  else Ok (h, deleted_items).
Definition trim_function_call_history_to_fit_context_window (h : ContextManager) (ctx : TurnContext)
    (base_instructions : str) : result Empty_set (ContextManager * nat) :=
  match model_context_window ctx with
  | None => Ok (h, 0)
  | Some window => trim_loop (length (items h)) window base_instructions h 0
  end.

(** [parse_turn_item] gives a user message or a hook prompt. *)
Definition is_hook_prompt (i : item) : bool :=
  match i with
  | Message role content _ =>
      bool_decide (role = lit "user") && bool_decide (is_Some (parse_visible_hook_prompt_message from_xml_str content))
  | _ => false
  end.
Definition should_keep_compacted_history_item (i : item) : bool :=
  match i with
  | Message role _ _ =>
      if bool_decide (role = lit "developer") then false
      else if bool_decide (role = lit "user") then bool_decide (is_Some (parse_user_item i)) || is_hook_prompt i
      else bool_decide (role = lit "assistant")
  | History.Compaction _ => true
  | _ => false
  end.
Definition process_compacted_history (injection : InitialContextInjection) (initial_context l : list item) : list item :=
  let initial_context := match injection with BeforeLastUserMessage => initial_context | DoNotInject => [] end in
  insert_initial_context (filter should_keep_compacted_history_item l) initial_context.

Definition get_total_token_usage_breakdown (h : ContextManager) : TotalTokenUsageBreakdown :=
  let after := items_after_last_model_generated_item h in {|
  last_api_response_total_tokens :=
    match token_info h with Some info => total_tokens (last_token_usage info) | None => 0%Z end;
  all_history_items_model_visible_bytes := saturating_sum estimate_response_item_model_visible_bytes (items h);
  estimated_tokens_of_items_added_since_last_successful_api_response := saturating_sum estimate_item_token_count after;
  estimated_bytes_of_items_added_since_last_successful_api_response :=
    saturating_sum estimate_response_item_model_visible_bytes after |}.
Definition failing_compaction_request_model_visible_bytes (input : list item) (instructions : str) : Z :=
  foldl (λ acc i, i64_saturating_add acc (estimate_response_item_model_visible_bytes i)) (to_i64 (blen instructions)) input.

Definition run_remote_compact_task_inner_impl (ctx : TurnContext) (injection : InitialContextInjection)
    : M (CodexErr + unit) :=
  send_event ItemStarted;;
  h ← clone_history;
  base_instructions ← get_base_instructions;
  '(h, _) ← lift (trim_function_call_history_to_fit_context_window h ctx base_instructions);
  let ghost_snapshots := filter (λ i, is_ghost i) (items h) in
  prompt_input ← lift (for_prompt (takes_images (model_info ctx)) h);
  s ← get;
  try_ (mret (built_tools s ctx prompt_input)) (λ _,
  (* [compact_conversation_history] sends no request for an empty prompt. *)
  new_history ←
    (if bool_decide (prompt_input = []) then mret (inr [])
     else
       emit (CompactRequest prompt_input base_instructions);;
       modify request_made;;
       match compact_conversation_history (requests_made s) prompt_input with
       | inl e =>
           s ← get;
           emit (LogRemoteFailure (failing_compaction_request_model_visible_bytes prompt_input base_instructions)
             (get_total_token_usage_breakdown (sess_history s)) e);;
           mret (inl e)
       | inr l => mret (inr l)
       end);
  try_ (mret new_history) (λ new_history,
  s ← get;
  let new_history := process_compacted_history injection (build_initial_context s ctx) new_history ++ ghost_snapshots in
  replace_compacted_history new_history (reference_context injection ctx)
    {| message := []; replacement_history := Some new_history |};;
  recompute_token_usage ctx;;
  send_event ItemCompleted;;
  mret (inr ()))).

Definition run_remote_compact_task_inner (ctx : TurnContext) (injection : InitialContextInjection)
    (trigger : CompactionTrigger) (reason : CompactionReason) (phase : CompactionPhase) : M (CodexErr + unit) :=
  result ← tracked trigger reason ResponsesCompact phase (run_remote_compact_task_inner_impl ctx injection);
  match result with
  | inl err => send_event (ErrorEvent (Some (lit "Error running remote compact task")) err);; mret (inl err)
  | inr () => mret (inr ())
  end.
Definition run_inline_remote_auto_compact_task (ctx : TurnContext) (injection : InitialContextInjection)
    (reason : CompactionReason) (phase : CompactionPhase) : M (CodexErr + unit) :=
  run_remote_compact_task_inner ctx injection Auto reason phase.
Definition run_remote_compact_task (ctx : TurnContext) : M (CodexErr + unit) :=
  send_event (TurnStarted (model_context_window ctx));;
  run_remote_compact_task_inner ctx DoNotInject Manual UserRequested StandaloneTurn.

(** [CompactTask::run], whose result is dropped. *)
Definition compact_task (ctx : TurnContext) (input : item) : M unit :=
  (if supports_remote_compaction ctx then run_remote_compact_task ctx else run_compact_task ctx input);; mret ().

(** ** Compaction before a turn *)

Definition run_auto_compact (ctx : TurnContext) (injection : InitialContextInjection) (reason : CompactionReason)
    (phase : CompactionPhase) : M (CodexErr + unit) :=
  if supports_remote_compaction ctx then run_inline_remote_auto_compact_task ctx injection reason phase
  else run_inline_auto_compact_task ctx injection reason phase.

Definition auto_compact_limit (ctx : TurnContext) : M Z :=
  limit ← lift (auto_compact_token_limit (model_info ctx)); mret (default i64_max limit).

Definition maybe_run_previous_model_inline_compact (ctx : TurnContext) (total_usage_tokens : Z) : M (CodexErr + bool) :=
  s ← get;
  match sess_previous_settings s with
  | None => mret (inr false)
  | Some settings =>
      let previous_model_turn_context := with_model (Rollout.model settings) ctx in
      match model_context_window previous_model_turn_context, model_context_window ctx with
      | Some old_context_window, Some new_context_window =>
          new_auto_compact_limit ← auto_compact_limit ctx;
          if ((new_auto_compact_limit <? total_usage_tokens)%Z
              && bool_decide (slug (model_info previous_model_turn_context) ≠ slug (model_info ctx))
              && (new_context_window <? old_context_window)%Z)
          then
            try_ (run_auto_compact previous_model_turn_context DoNotInject ModelDownshift PreTurn) (λ _, mret (inr true))
          else mret (inr false)
      | _, _ => mret (inr false)
      end
  end.

Definition run_pre_sampling_compact (ctx : TurnContext) : M (CodexErr + bool) :=
  total_usage_tokens_before_compaction ← get_total_token_usage;
  try_ (maybe_run_previous_model_inline_compact ctx total_usage_tokens_before_compaction) (λ pre_sampling_compacted,
  total_usage_tokens ← get_total_token_usage;
  limit ← auto_compact_limit ctx;
  if (limit <=? total_usage_tokens)%Z then
    try_ (run_auto_compact ctx DoNotInject ContextLimit PreTurn) (λ _, mret (inr true))
  else mret (inr pre_sampling_compacted)).

(** After a sampling request: compaction in the middle of the turn, when it goes
    on. *)
Definition run_mid_turn_compact (ctx : TurnContext) (needs_follow_up : bool) : M (CodexErr + bool) :=
  total_usage_tokens ← get_total_token_usage;
  limit ← auto_compact_limit ctx;
  if ((limit <=? total_usage_tokens)%Z && needs_follow_up) then
    try_ (run_auto_compact ctx BeforeLastUserMessage ContextLimit MidTurn) (λ _, emit ResetWebsocket;; mret (inr true))
  else mret (inr false).

End Compaction.
End Compaction.
