(* ===== verification/CompactionFacts.v ===== *)
(** * Facts on compaction

    What the loop of requests for a summary does to the session, against an
    abstract description of its rounds, in a release build. *)
From S2P Require Import Prelude Str Io Truncate TruncateFacts History HistoryFacts StreamParser StreamParserFacts StreamChunking Rollout RolloutFacts Compaction.
Import Truncate History StreamParser Rollout Compaction.

Section Facts.
Context {P Value Rest Plan Limits : Type}.
Abbreviation item := (@ResponseItem P Value).
Abbreviation history := (@ContextManager P Value (TurnContextItem Rest)).
Abbreviation session := (@Session P Value Rest Plan Limits).
Abbreviation effect := (@effect P Value Rest Plan Limits).
Abbreviation response_event := (@ResponseEvent P Value Plan Limits).
Abbreviation context := (@TurnContext Rest).

(** ** Reasoning about code on a session *)

(** The code does not panic and leads to a state and a value with [Q]. *)
Definition yields {A} (m : @M P Value Rest Plan Limits A) (s : session) (Q : session → A → Prop) : Prop :=
  ∃ s' a, m s = Ok (s', a) ∧ Q s' a.

Lemma yields_bind {A B} (m : @M P Value Rest Plan Limits A) (f : A → @M P Value Rest Plan Limits B) s Q :
  yields m s (λ s' a, yields (f a) s' Q) → yields (m ≫= f) s Q.
Proof. intros (s'&a&Hm&s''&b&Hf&HQ). exists s'', b. unfold mbind, M_bind. by rewrite Hm. Qed.
Lemma yields_ret {A} (a : A) (s : session) (Q : session → A → Prop) : Q s a → yields (mret a) s Q.
Proof. by exists s, a. Qed.
Lemma yields_get (s : session) Q : Q s s → yields get s Q.
Proof. by exists s, s. Qed.
Lemma yields_modify f (s : session) (Q : session → unit → Prop) : Q (f s) () → yields (modify f) s Q.
Proof. by exists (f s), (). Qed.
Lemma yields_lift {A} (r : result Empty_set A) (a : A) (s : session) (Q : session → A → Prop) :
  r = Ok a → Q s a → yields (lift r) s Q.
Proof. intros -> HQ. by exists s, a. Qed.
Lemma yields_weaken {A} (m : @M P Value Rest Plan Limits A) s (Q Q' : session → A → Prop) :
  yields m s Q → (∀ s' a, Q s' a → Q' s' a) → yields m s Q'.
Proof. intros (s'&a&Hm&Hq) Himp. exists s', a. auto. Qed.
Lemma yields_try {A B} (m : @M P Value Rest Plan Limits (CodexErr + A)) (f : A → @M P Value Rest Plan Limits (CodexErr + B)) s Q :
  yields m s (λ s' r, match r with inl e => Q s' (inl e) | inr a => yields (f a) s' Q end) → yields (try_ m f) s Q.
Proof.
  intros H. apply yields_bind. eapply yields_weaken; [exact H|]. intros s' [e|a] Hq; [by apply yields_ret|done].
Qed.

(** ** What changes *)

Definition requests (es : list effect) : list (list item) :=
  omap (λ e, match e with Request input _ => Some input | _ => None end) es.
Definition compact_requests (es : list effect) : list (list item) :=
  omap (λ e, match e with CompactRequest input _ => Some input | _ => None end) es.
Definition persisted (es : list effect) : list (@RolloutItem P Value Rest) :=
  omap (λ e, match e with Persist i => Some i | _ => None end) es.
Definition quiet (e : effect) : bool := match e with Request _ _ | CompactRequest _ _ | Persist _ => false | _ => true end.

Lemma quiet_none (es : list effect) :
  Forall (λ e, quiet e = true) es → requests es = [] ∧ compact_requests es = [] ∧ persisted es = [].
Proof. induction 1 as [|[] es ? _ (?&?&?)]; done. Qed.

(** The session went on: its history got the items [l], its log the effects
    [es], and no history was replaced. *)
Record grows (s s' : session) (l : list item) (es : list effect) : Prop := {
  grows_items : items (sess_history s') = items (sess_history s) ++ l;
  grows_log : log s' = log s ++ es;
  grows_version : history_version (sess_history s') = history_version (sess_history s);
  grows_reference : reference_context_item (sess_history s') = reference_context_item (sess_history s);
  grows_window : window_generation s' = window_generation s;
  grows_requests : requests_made s' = requests_made s + length (requests es) + length (compact_requests es);
  grows_instructions : sess_instructions s' = sess_instructions s;
  grows_settings : sess_previous_settings s' = sess_previous_settings s;
  grows_analytics : general_analytics s' = general_analytics s;
}.

Lemma grows_trans s s1 s2 l l' es es' : grows s s1 l es → grows s1 s2 l' es' → grows s s2 (l ++ l') (es ++ es').
Proof.
  intros [] []. split; try congruence.
  - rewrite app_assoc. congruence.
  - rewrite app_assoc. congruence.
  - unfold requests, compact_requests in *. rewrite !omap_app, !length_app. lia.
Qed.
Lemma grows_quietly s s' s2 l es es' : Forall (λ e, quiet e = true) es' → grows s s' l es → grows s' s2 [] es' → grows s s2 l (es ++ es').
Proof. intros _ H H'. rewrite <-(app_nil_r l). by eapply grows_trans. Qed.
Lemma grows_refl s : grows s s [] [].
Proof. split; try done; simpl; rewrite ?app_nil_r; [done..|lia]. Qed.
Lemma grows_logged (s : session) e : quiet e = true → grows s (logged [e] s) [] [e].
Proof. intros He. split; try done; simpl; rewrite ?app_nil_r; try done. destruct e; simpl in *; try done; lia. Qed.

(** ** Recording *)

Variable from_xml_str : str → option (str * str).

(** The items a history gets when [l] is recorded. *)
Definition recorded (p : TruncationPolicy) (l : list item) : list item :=
  omap (λ i, if negb (is_api_message i) && negb (is_ghost i) then None
             else match process_item i p with Ok i => Some i | _ => None end) l.

Abbreviation fits := (text_fits from_xml_str).
Abbreviation valid_item := (valid_response from_xml_str).

Lemma record_items_spec (l : list item) p (h : history) :
  Forall valid_item l →
  record_items l p h = Ok (with_items (items h ++ recorded p l) h) ∧ Forall fits (recorded p l).
Proof.
  intros Hl. revert h. induction Hl as [|i l Hi _ IH]; intros h.
  { split; [|done]. simpl. rewrite app_nil_r. by destruct h. }
  cbn [record_items recorded omap list_omap]. unfold recorded in IH.
  destruct (negb (is_api_message i) && negb (is_ghost i)); [apply IH|].
  destruct (process_item_total from_xml_str i p Hi) as (i'&Hi'&Hf'&_). rewrite Hi'. cbn [mbind result_bind].
  destruct (IH (with_items (items h ++ [i']) h)) as [-> Hf]. split.
  - simpl. by rewrite <-app_assoc.
  - by constructor.
Qed.

Lemma last_assistant_total (l : list item) : ∃ m, last_assistant_message l = Ok m
  ∧ ∀ t, m = Some t → ∃ i, i ∈ l ∧ last_assistant_message_from_item i = Ok (Some t).
Proof.
  induction l as [|i l (m&IH&Hm)]; [by exists None|]. cbn [last_assistant_message].
  assert (∃ o, last_assistant_message_from_item i = Ok o) as [o Ho].
  { unfold last_assistant_message_from_item. destruct (raw_assistant_output_text_from_item i) as [t|]; [|eauto].
    case_bool_decide; [eauto|]. unfold strip_hidden_assistant_markup.
    destruct (strip_citations_total t) as [[v c] ->]. simpl. eauto. }
  rewrite Ho. cbn [mbind result_bind]. destruct o as [t|].
  - exists (Some t). split; [done|]. intros ? [= <-]. exists i. split; [by left|done].
  - exists m. split; [exact IH|]. intros t Ht. destruct (Hm t Ht) as (j&?&?). exists j. split; [by right|done].
Qed.

(** ** One request *)

(** What a stream delivers before it ends, and how it ends. *)
Fixpoint delivered (events : list (CodexErr + response_event)) : list item :=
  match events with
  | inr (OutputItemDone i) :: events => i :: delivered events
  | inr (ResponseCompleted _) :: _ | inl _ :: _ | [] => []
  | inr _ :: events => delivered events
  end.
Fixpoint verdict (events : list (CodexErr + response_event)) : CodexErr + unit :=
  match events with
  | [] => inl stream_closed
  | inl e :: _ => inl e
  | inr (ResponseCompleted _) :: _ => inr ()
  | inr _ :: events => verdict events
  end.
Definition answered (answer : CodexErr + list (CodexErr + response_event)) : list item :=
  match answer with inl _ => [] | inr events => delivered events end.
Definition outcome (answer : CodexErr + list (CodexErr + response_event)) : CodexErr + unit :=
  match answer with inl e => inl e | inr events => verdict events end.

Definition grown (s s' : session) (l : list item) : Prop := ∃ es, grows s s' l es ∧ Forall (λ e, quiet e = true) es.

(** Nothing but the token info, the rate limits and what is known of the server
    changed, apart from the items [l]. *)
Lemma kept_grown (s s' : session) l :
  items (sess_history s') = items (sess_history s) ++ l → log s' = log s →
  history_version (sess_history s') = history_version (sess_history s) →
  reference_context_item (sess_history s') = reference_context_item (sess_history s) →
  window_generation s' = window_generation s → requests_made s' = requests_made s →
  sess_instructions s' = sess_instructions s → sess_previous_settings s' = sess_previous_settings s →
  general_analytics s' = general_analytics s → grown s s' l.
Proof. intros. exists []. split; [|done]. split; try done; [by rewrite app_nil_r|simpl; lia]. Qed.
Ltac kept := apply kept_grown; simpl; rewrite ?app_nil_r; done.

Lemma grown_refl s : grown s s [].
Proof. kept. Qed.
Lemma grown_trans s s1 s2 l l' : grown s s1 l → grown s1 s2 l' → grown s s2 (l ++ l').
Proof. intros (es&?&?) (es'&?&?). exists (es ++ es'). split; [by eapply grows_trans|by apply Forall_app]. Qed.
Lemma grown_then s s1 s2 l : grown s s1 l → grown s1 s2 [] → grown s s2 l.
Proof. intros H H'. rewrite <-(app_nil_r l). by eapply grown_trans. Qed.

Lemma send_event_grown e (s : session) Q : (∀ s', grown s s' [] → Q s' ()) → yields (send_event e) s Q.
Proof. intros H. apply yields_modify, H. exists [SendEvent e]. split; [by apply grows_logged|by constructor]. Qed.
Lemma token_count_grown (s : session) Q : (∀ s', grown s s' [] → Q s' ()) → yields send_token_count_event s Q.
Proof. intros H. apply yields_bind, yields_get, send_event_grown, H. Qed.

(** A change of the token info only. *)
Lemma token_info_grown info (s : session) : grown s (with_history (set_token_info info (sess_history s)) s) [].
Proof. kept. Qed.

Lemma checked_release z : ∃ z', i64_checked false z = Ok z'.
Proof. unfold i64_checked. case_match; eauto. Qed.
Ltac release := repeat match goal with
  | |- context [i64_checked false ?z] => let z' := fresh "z" in destruct (checked_release z) as [z' ->]; cbn [mbind result_bind]
  end.

Lemma update_token_usage_grown (ctx : context) usage (s : session) Q :
  (∀ s', grown s s' [] → Q s' ()) → yields (update_token_usage_info false ctx usage) s Q.
Proof.
  intros H. apply yields_bind. destruct usage as [usage|]; [|by apply yields_ret, token_count_grown].
  assert (∃ info, new_or_append false (token_info (sess_history s)) (Some usage) (model_context_window ctx) = Ok info)
    as [info Hinfo].
  { unfold new_or_append, append_last_usage, add_assign. case_match; simpl; release; eauto. }
  apply yields_bind, yields_bind, yields_get, yields_ret, yields_bind.
  eapply yields_lift; [unfold update_token_info; by rewrite Hinfo|].
  apply yields_modify, token_count_grown. intros s' Hs'. apply H.
  eapply grown_then; [apply token_info_grown|exact Hs'].
Qed.

Lemma set_total_tokens_full_grown (ctx : context) (s : session) Q :
  (∀ s', grown s s' [] → Q s' ()) → yields (set_total_tokens_full false ctx) s Q.
Proof.
  intros H. apply yields_bind. destruct (model_context_window ctx) as [w|]; [|by apply yields_ret, token_count_grown].
  assert (∃ info, set_token_usage_full false w (sess_history s) = Ok (set_token_info (Some info) (sess_history s)))
    as [info Hinfo].
  { unfold set_token_usage_full, fill_to_context_window, full_context_window, fill_to_context_window. case_match; release; eauto. }
  apply yields_bind, yields_bind, yields_get, yields_ret, yields_bind.
  eapply yields_lift; [exact Hinfo|].
  apply yields_modify, token_count_grown. intros s' Hs'. apply H.
  eapply grown_then; [apply token_info_grown|exact Hs'].
Qed.

Lemma record_into_history_grown (ctx : context) l (s : session) Q :
  Forall valid_item l → (∀ s', grown s s' (recorded (truncation_policy ctx) l) → Q s' ()) →
  yields (record_into_history l ctx) s Q.
Proof.
  intros Hl H. apply yields_bind, yields_bind, yields_get, yields_ret, yields_bind.
  eapply yields_lift; [apply (record_items_spec l), Hl|]. apply yields_modify, H. kept.
Qed.

Lemma drain_grown (ctx : context) events (s : session) :
  Forall valid_item (delivered events) →
  yields (drain false ctx events) s (λ s' r, r = verdict events ∧ grown s s' (recorded (truncation_policy ctx) (delivered events))).
Proof.
  revert s. induction events as [|[e|event] events IH]; intros s Hv.
  - apply yields_ret. split; [done|apply grown_refl].
  - apply yields_ret. split; [done|apply grown_refl].
  - assert (Hgo : ∀ s', Forall valid_item (delivered events) → grown s s' [] → yields (drain false ctx events) s' (λ s'' r,
      r = verdict events ∧ grown s s'' (recorded (truncation_policy ctx) (delivered events)))).
    { intros s' Hv' Hs'. eapply yields_weaken; [by apply IH|]. intros s'' r [-> Hs'']. split; [done|].
      exact (grown_trans _ _ _ [] _ Hs' Hs''). }
    destruct event as [i|included|snapshot|usage|].
    + cbn [delivered] in *. apply Forall_cons in Hv as [Hi Hv].
      apply yields_bind, record_into_history_grown; [by constructor|]. intros s' Hs'.
      eapply yields_weaken; [by apply IH|]. intros s'' r [-> Hs'']. split; [done|].
      pose proof (grown_trans _ _ _ _ _ Hs' Hs'') as Hg. unfold recorded in *. by rewrite <-omap_app in Hg.
    + apply yields_bind, yields_modify, Hgo; [done|]. kept.
    + apply yields_bind, yields_bind, yields_get, yields_bind, yields_modify, token_count_grown. intros s' Hs'.
      apply Hgo; [done|]. eapply grown_then; [|exact Hs']. kept.
    + apply yields_bind, update_token_usage_grown. intros s' Hs'. apply yields_ret. by split.
    + by apply Hgo, grown_refl.
Qed.

(** ** The rounds of a compaction *)

Section Rounds.
Variable stream : nat → list item → CodexErr + list (CodexErr + response_event).
Variable ctx : context.

Definition prompt_of (h : history) : list item :=
  filter (λ i, negb (is_ghost i)) (normalized (takes_images (model_info ctx)) (items h)).
Lemma for_prompt_release (h : history) : for_prompt false (takes_images (model_info ctx)) h = Ok (prompt_of h).
Proof.
  unfold for_prompt. destruct (normalize_outcome false (takes_images (model_info ctx)) (items h)) as [[-> _]|(_&?&_)]; done.
Qed.

Definition delivered_by (n : nat) (h : history) : list item :=
  recorded (truncation_policy ctx) (answered (stream n (prompt_of h))).
Definition outcome_of (n : nat) (h : history) : CodexErr + unit := outcome (stream n (prompt_of h)).

(** The rounds from the [n]-th request with the history [h] after [retries]
    retries: the prompts sent, the items they add to the session, and how it
    ends.  A prompt that is too long makes the next round begin without the
    oldest item; other errors are retried until there were too many in a row. *)
Inductive rounds : nat → history → nat → list (list item) → list item → CodexErr + unit → Prop :=
| round_done n h r :
    outcome_of n h = inr () → rounds n h r [prompt_of h] (delivered_by n h) (inr ())
| round_interrupted n h r :
    outcome_of n h = inl Interrupted → rounds n h r [prompt_of h] (delivered_by n h) (inl Interrupted)
| round_trim n h r ps l v :
    outcome_of n h = inl ContextWindowExceeded → 1 < length (prompt_of h) →
    rounds (S n) (remove_first_item h) 0 ps l v →
    rounds n h r (prompt_of h :: ps) (delivered_by n h ++ l) v
| round_too_long n h r :
    outcome_of n h = inl ContextWindowExceeded → length (prompt_of h) ≤ 1 →
    rounds n h r [prompt_of h] (delivered_by n h) (inl ContextWindowExceeded)
| round_retry n h r e ps l v :
    outcome_of n h = inl e → e ≠ Interrupted → e ≠ ContextWindowExceeded → r < stream_max_retries ctx →
    rounds (S n) h (S r) ps l v →
    rounds n h r (prompt_of h :: ps) (delivered_by n h ++ l) v
| round_failed n h r e :
    outcome_of n h = inl e → e ≠ Interrupted → e ≠ ContextWindowExceeded → stream_max_retries ctx ≤ r →
    rounds n h r [prompt_of h] (delivered_by n h) (inl e).

(** Items left to remove, and retries left. *)
Definition rounds_left (h : history) (r : nat) : nat := length (items h) * S (stream_max_retries ctx) + (stream_max_retries ctx - r).

Lemma prompt_nonempty (h : history) : 1 < length (prompt_of h) → items h ≠ [].
Proof. intros Hl Hn. unfold prompt_of, normalized in Hl. rewrite Hn in Hl. destruct (takes_images _); simpl in Hl; lia. Qed.

Lemma remove_corresponding_length (i : item) l : length (remove_corresponding_for i l) ≤ length l.
Proof.
  assert (H : ∀ f, length (remove_first_matching f l) ≤ length l).
  { intros f. induction l as [|j l IH]; simpl; [done|]. destruct (f j); simpl; lia. }
  unfold remove_corresponding_for. repeat case_match; done.
Qed.
Lemma trim_decreases (h : history) r : items h ≠ [] → rounds_left (remove_first_item h) 0 < rounds_left h r.
Proof.
  unfold rounds_left, remove_first_item. destruct (items h) as [|i l]; [done|]. intros _. cbn [items with_items length].
  pose proof (remove_corresponding_length i l). nia.
Qed.

Lemma rounds_bounded n h r ps l v : rounds n h r ps l v → length ps ≤ S (rounds_left h r).
Proof.
  induction 1 as [| |n h r ps l v _ Hlen _ IH| |n h r e ps l v _ _ _ Hr _ IH|]; simpl; try lia.
  - pose proof (trim_decreases h r (prompt_nonempty h Hlen)). lia.
  - unfold rounds_left in *. lia.
Qed.

Hypothesis answers_valid : ∀ n input, Forall valid_item (answered (stream n input)).

Lemma request_grows (h : history) instructions (s : session) :
  yields (drain_to_completed false stream ctx (prompt_of h) instructions) s (λ s' r,
    r = outcome_of (requests_made s) h ∧ requests_made s' = S (requests_made s)
    ∧ ∃ es, grows s s' (delivered_by (requests_made s) h) es ∧ requests es = [prompt_of h] ∧ compact_requests es = [] ∧ persisted es = []).
Proof.
  set (e := Request (prompt_of h) instructions : effect).
  assert (Hgo : grows s (request_made (logged [e] s)) [] [e]).
  { split; try done; simpl; rewrite ?app_nil_r; [done|lia]. }
  apply yields_bind, yields_modify, yields_bind, yields_get, yields_bind, yields_modify. cbn [requests_made logged].
  assert (Hout : ∀ s' l, grown (request_made (logged [e] s)) s' l →
    requests_made s' = S (requests_made s) ∧ ∃ es, grows s s' l es ∧ requests es = [prompt_of h] ∧ compact_requests es = [] ∧ persisted es = []).
  { intros s' l (es&Hes&Hq). pose proof (grows_trans _ _ _ _ _ _ _ Hgo Hes) as Hg. destruct (quiet_none es Hq) as (Hr&Hc&Hp).
    split; [|exists (e :: es); split_and!; [exact Hg|by simpl; f_equal|done|done]].
    rewrite (grows_requests _ _ _ _ Hes), Hr, Hc. simpl. lia. }
  unfold outcome_of, delivered_by. pose proof (answers_valid (requests_made s) (prompt_of h)) as Hv.
  destruct (stream (requests_made s) (prompt_of h)) as [err|events].
  - apply yields_ret. split; [done|]. apply Hout, grown_refl.
  - eapply yields_weaken; [by apply drain_grown|]. intros s' r [-> Hs']. split; [done|]. by apply Hout.
Qed.

Lemma then_quietly (s s1 s2 : session) l es :
  grows s s1 l es → grown s1 s2 [] → ∃ es', grows s s2 l es' ∧ requests es' = requests es
    ∧ compact_requests es' = compact_requests es ∧ persisted es' = persisted es.
Proof.
  intros H (es'&H'&Hq). destruct (quiet_none es' Hq) as (Hr&Hc&Hp). exists (es ++ es'). split_and!.
  - rewrite <-(app_nil_r l). by eapply grows_trans.
  - unfold requests in *. by rewrite omap_app, Hr, app_nil_r.
  - unfold compact_requests in *. by rewrite omap_app, Hc, app_nil_r.
  - unfold persisted in *. by rewrite omap_app, Hp, app_nil_r.
Qed.

(** The session went from [s] to [s'] by requests for [ps], which added [l]. *)
Definition requested (s s' : session) (ps : list (list item)) (l : list item) : Prop :=
  ∃ es, grows s s' l es ∧ requests es = ps ∧ compact_requests es = [] ∧ persisted es = [].

Lemma requested_quietly s s1 s2 ps l : requested s s1 ps l → grown s1 s2 [] → requested s s2 ps l.
Proof.
  intros (es&Hg&Hr&Hc&Hp) H. destruct (then_quietly _ _ _ _ _ Hg H) as (es'&?&?&?&?). exists es'. split_and!; congruence.
Qed.
Lemma requested_trans s s1 s2 ps ps' l l' : requested s s1 ps l → requested s1 s2 ps' l' → requested s s2 (ps ++ ps') (l ++ l').
Proof.
  intros (es&Hg&Hr&Hc&Hp) (es'&Hg'&Hr'&Hc'&Hp'). exists (es ++ es'). split_and!; [by eapply grows_trans|..];
    unfold requests, compact_requests, persisted in *; rewrite omap_app.
  - by rewrite Hr, Hr'.
  - by rewrite Hc, Hc'.
  - by rewrite Hp, Hp'.
Qed.

Lemma compact_loop_rounds fuel (h : history) t r (s : session) :
  rounds_left h r < fuel →
  yields (compact_loop false stream fuel ctx h t r) s (λ s' v,
    ∃ ps l, rounds (requests_made s) h r ps l v ∧ requested s s' ps l).
Proof.
  revert h t r s. induction fuel as [|fuel IH]; intros h t r s Hfuel; [lia|]. cbn [compact_loop].
  apply yields_bind. eapply yields_lift; [apply for_prompt_release|].
  apply yields_bind, yields_bind, yields_get, yields_ret, yields_bind.
  eapply yields_weaken; [apply request_grows|]. intros s1 v (Hv&Hn&Hreq).
  assert (Hs1 : requested s s1 [prompt_of h] (delivered_by (requests_made s) h)).
  { destruct Hreq as (es&?&?&?&?). by exists es. }
  assert (Hnext : ∀ s2 s' h' r' ps l w, grown s1 s2 [] →
    rounds (requests_made s2) h' r' ps l w → requested s2 s' ps l →
    requests_made s2 = S (requests_made s) ∧ requested s s' (prompt_of h :: ps) (delivered_by (requests_made s) h ++ l)).
  { intros s2 s' h' r' ps l w Hs2 _ Hs'. split; [|exact (requested_trans _ _ _ _ _ _ _ (requested_quietly _ _ _ _ _ Hs1 Hs2) Hs')].
    destruct Hs2 as (es&Hg&Hq). destruct (quiet_none es Hq) as (Hr&Hc&_). rewrite (grows_requests _ _ _ _ Hg), Hr, Hc. simpl. lia. }
  destruct v as [e|[]].
  2: { apply yields_bind. assert (Hend : ∀ s2, grown s1 s2 [] → yields (mret (inr ()) : @M P Value Rest Plan Limits (CodexErr + unit)) s2
         (λ s' v, ∃ ps l, rounds (requests_made s) h r ps l v ∧ requested s s' ps l)).
       { intros s2 Hs2. apply yields_ret. exists [prompt_of h], (delivered_by (requests_made s) h).
         split; [by apply round_done|by eapply requested_quietly]. }
       destruct (0 <? t); [by apply send_event_grown|apply yields_ret, Hend, grown_refl]. }
  case_bool_decide as Hint; [subst e|].
  { apply yields_ret. eexists _, _. split; [by apply round_interrupted|done]. }
  case_bool_decide as Hcw; [subst e|].
  - destruct (1 <? length (prompt_of h)) eqn:Hlen.
    + apply Nat.ltb_lt in Hlen. pose proof (trim_decreases h r (prompt_nonempty h Hlen)).
      eapply yields_weaken; [apply IH; lia|]. intros s' w (ps&l&Hw&Hs').
      destruct (Hnext s1 s' _ _ _ _ _ (grown_refl s1) Hw Hs') as [Hn' Hr']. rewrite Hn' in Hw.
      eexists _, _. split; [by apply round_trim|done].
    + apply Nat.ltb_ge in Hlen. apply yields_bind, set_total_tokens_full_grown. intros s2 Hs2.
      apply yields_bind, send_event_grown. intros s3 Hs3. apply yields_ret. eexists _, _. split; [by apply round_too_long|].
      eapply requested_quietly; [|exact Hs3]. by eapply requested_quietly.
  - destruct (r <? stream_max_retries ctx) eqn:Hr.
    + apply Nat.ltb_lt in Hr. apply yields_bind, send_event_grown. intros s2 Hs2. apply yields_bind, yields_modify.
      eapply yields_weaken; [apply IH; unfold rounds_left in *; lia|]. intros s' w (ps&l&Hw&Hs').
      assert (Hs3 : grown s1 (logged [Sleep (S r)] s2) []).
      { eapply grown_then; [exact Hs2|]. exists [Sleep (S r)]. split; [by apply grows_logged|by constructor]. }
      destruct (Hnext _ s' _ _ _ _ _ Hs3 Hw Hs') as [Hn' Hr']. rewrite Hn' in Hw.
      eexists _, _. split; [by eapply round_retry|done].
    + apply Nat.ltb_ge in Hr. apply yields_bind, send_event_grown. intros s2 Hs2. apply yields_ret.
      eexists _, _. split; [by apply round_failed|by eapply requested_quietly].
Qed.

End Rounds.
(** ** What the prompts are *)

Section Prompts.
Variable ctx : context.
Abbreviation prompt := (prompt_of ctx).

(** A message as the model gets it. *)
Definition shown (i : item) : item := if takes_images (model_info ctx) then i else strip_item i.
Definition is_message (i : item) : bool := match i with Message _ _ _ => true | _ => false end.

Lemma message_keys (i : item) : is_message i = true → call_key i = None ∧ bound_key i = None ∧ is_ghost i = false.
Proof. by destruct i. Qed.

Lemma prompt_last (h : history) l i :
  items h = l ++ [i] → is_message i = true → ∃ l', prompt h = l' ++ [shown i] ∧ (l = [] → l' = []).
Proof.
  intros Hh Hi. destruct (message_keys i Hi) as (Hc&Hb&Hg).
  unfold prompt_of, normalized, completed. rewrite Hh, bind_app, filter_app. cbn [mbind list_bind].
  assert (Hf : fill (l ++ [i]) i = [i]) by (unfold fill; by rewrite Hc). rewrite Hf.
  assert (Ho : orphan (l ++ [i]) i = false) by (unfold orphan; by rewrite Hb).
  cbn [app]. rewrite filter_cons_True by (by rewrite Ho).
  rewrite filter_nil. set (l1 := filter _ (l ≫= _)).
  assert (Hl1 : l = [] → l1 = []) by (intros Hl; unfold l1; by rewrite Hl). clearbody l1.
  unfold shown. destruct (takes_images (model_info ctx)); cbn [strip_images_when_unsupported].
  - rewrite filter_app, filter_cons_True by (by rewrite Hg). rewrite filter_nil. eexists. split; [done|].
    intros Hl. by rewrite (Hl1 Hl).
  - rewrite fmap_app, filter_app. cbn [fmap list_fmap]. rewrite filter_cons_True by (by destruct i).
    rewrite filter_nil. eexists. split; [done|]. intros Hl. by rewrite (Hl1 Hl).
Qed.

Lemma ghost_free_paired (l : list item) : paired l → paired (filter (λ i, negb (is_ghost i)) l).
Proof.
  assert (H : ∀ g : item → option (call_kind * str), (∀ i, is_ghost i = true → g i = None) →
    omap g (filter (λ i, negb (is_ghost i)) l) = omap g l).
  { intros g Hg. induction l as [|i l IH]; [done|]. rewrite filter_cons. case_decide as Hd; csimpl; rewrite IH; [done|].
    destruct (is_ghost i) eqn:Hi; [by rewrite (Hg i Hi)|by destruct Hd]. }
  unfold paired. rewrite !H; [done|by intros []..].
Qed.
Lemma prompt_paired (h : history) : paired (prompt h).
Proof.
  apply ghost_free_paired. destruct (normalize_pairs (takes_images (model_info ctx)) (items h)) as (l&_&->&?&_). done.
Qed.

Lemma remove_first_keeps_last f (l : list item) i : f i = false → ∃ l', remove_first_matching f (l ++ [i]) = l' ++ [i].
Proof.
  intros Hi. induction l as [|j l [l' IH]]; simpl; [rewrite Hi; by exists []|].
  destruct (f j); [by exists l|]. rewrite IH. by exists (j :: l').
Qed.
Lemma trim_keeps_last (h : history) l i :
  items h = l ++ [i] → is_message i = true → 1 < length (prompt h) →
  ∃ l', items (remove_first_item h) = l' ++ [i].
Proof.
  intros Hh Hi Hlen. unfold remove_first_item. rewrite Hh. destruct l as [|j l].
  { destruct (prompt_last h [] i Hh Hi) as (l'&Hp&Hl). rewrite Hp, (Hl eq_refl) in Hlen. simpl in Hlen. lia. }
  cbn [app items with_items]. unfold remove_corresponding_for.
  repeat case_match; first [by exists l | apply remove_first_keeps_last; by destruct i].
Qed.

(** Every prompt is the normalized history without some of its oldest items, and
    ends with the last item of the history. *)
Lemma rounds_prompts stream n (h : history) r ps l v i l0 :
  rounds stream ctx n h r ps l v → is_message i = true → items h = l0 ++ [i] →
  ∀ j p, ps !! j = Some p → last p = Some (shown i) ∧ paired p ∧ ∃ k, k ≤ j ∧ p = prompt (Nat.iter k remove_first_item h).
Proof.
  intros Hr Hi. revert l0.
  assert (Hone : ∀ h l0, items h = l0 ++ [i] → ∀ j, last (prompt h) = Some (shown i) ∧ paired (prompt h)
    ∧ ∃ k, k ≤ j ∧ prompt h = prompt (Nat.iter k remove_first_item h)).
  { intros h' l0 Hh j. destruct (prompt_last h' l0 i Hh Hi) as (l'&Hp&_). split; [by rewrite Hp, last_snoc|].
    split; [apply prompt_paired|]. exists 0. split; [lia|done]. }
  induction Hr as [| |n h r ps l v _ Hlen _ IH| |n h r e ps l v _ _ _ _ _ IH|]; intros l0 Hh [|j] p Hp; simplify_eq/=; try by eapply Hone.
  - destruct (trim_keeps_last h l0 i Hh Hi Hlen) as [l' Hl']. destruct (IH l' Hl' j p Hp) as (?&?&k&?&->).
    split_and!; [done..|]. exists (S k). split; [lia|]. by rewrite Nat.iter_succ_r.
  - destruct (IH l0 Hh j p Hp) as (?&?&k&?&->). split_and!; [done..|]. exists k. split; [lia|done].
Qed.
End Prompts.

End Facts.
