(* ===== verification/CompactionPromises.v ===== *)
(** * What compaction promises

    A compaction ends; the model gets well-formed prompts that end with the
    compaction prompt; the history is replaced when, and only when, there is an
    answer, and the rollout says so; the one that replaces it has what it should. *)
From S2P Require Import Prelude Str Io Truncate TruncateFacts History HistoryFacts StreamParser StreamChunking Rollout RolloutFacts RolloutTurns Compaction CompactionFacts.
Import Truncate History StreamParser Rollout Compaction.

Section Installing.
Context {P Value Rest Plan Limits : Type}.
Abbreviation item := (@ResponseItem P Value).
Abbreviation history := (@ContextManager P Value (TurnContextItem Rest)).
Abbreviation session := (@Session P Value Rest Plan Limits).
Abbreviation effect := (@effect P Value Rest Plan Limits).
Abbreviation context := (@TurnContext Rest).
Variable from_xml_str : str → option (str * str).
Variable to_json : item → option str.
Variable image_dimensions : str → option (Z * Z).
Variable no_fields : P.
Variable SUMMARY_PREFIX : str.
Abbreviation fits := (text_fits from_xml_str).
Abbreviation collect := (@collect_user_messages P Value from_xml_str SUMMARY_PREFIX).
Abbreviation estimate := (@estimate_token_count_with_base_instructions P Value (TurnContextItem Rest) to_json image_dimensions).

(** The history [new] took the place of the one of [s]; the rollout got it with
    its summary, and the turn's context when the initial context is in it. *)
Record replaced (s s' : session) (ctx : context) (injection : InitialContextInjection) (summary : str) (new : list item) : Prop := {
  replaced_items : items (sess_history s') = new;
  replaced_reference : reference_context_item (sess_history s') = reference_context injection ctx;
  replaced_version : history_version (sess_history s') = saturating_add (history_version (sess_history s)) 1;
  replaced_window : window_generation s' = ((window_generation s + 1) mod 2 ^ 64)%Z;
  replaced_instructions : sess_instructions s' = sess_instructions s;
  replaced_requests : requests_made s' = requests_made s;
  replaced_log : ∃ es, log s' = log s ++ es ∧ requests es = [] ∧ compact_requests es = []
    ∧ persisted es = Compacted {| message := summary; replacement_history := Some new |}
                     :: match injection with BeforeLastUserMessage => [Rollout.TurnContext (to_turn_context_item ctx)] | DoNotInject => [] end;
}.
(** And the token usage was estimated anew. *)
Definition installed (s s' : session) (ctx : context) (injection : InitialContextInjection) (summary : str) (new : list item) : Prop :=
  replaced s s' ctx injection summary new
  ∧ ∃ info, token_info (sess_history s') = Some info
    ∧ last_token_usage info = Build_TokenUsage 0 0 0 0 (Z.max (estimate (sess_instructions s') (sess_history s')) 0).

Lemma replaced_logged (ctx : context) injection summary new e (s s' : session) :
  quiet e = true → replaced s s' ctx injection summary new → replaced s (logged [e] s') ctx injection summary new.
Proof.
  intros He [? ? ? ? ? ? (es&Hl&Hr&Hc&Hp)]. split; try done. exists (es ++ [e]).
  unfold requests, compact_requests, persisted in *. simpl. by destruct e; rewrite !omap_app, Hr, Hc, Hp, Hl, app_assoc, ?app_nil_r.
Qed.
Lemma installed_event (ctx : context) injection summary new e (s s' : session) :
  installed s s' ctx injection summary new → installed s (logged [SendEvent e] s') ctx injection summary new.
Proof. intros [Hr (info&Hi&Hl)]. split; [by apply replaced_logged|]. by exists info. Qed.

Lemma replace_installs (ctx : context) injection summary new (s : session) Q :
  (∀ s', replaced s s' ctx injection summary new → Q s' ()) →
  yields (replace_compacted_history new (reference_context injection ctx)
            {| message := summary; replacement_history := Some new |}) s Q.
Proof.
  intros H. apply yields_bind, yields_bind, yields_bind, yields_get, yields_ret, yields_modify, yields_bind, yields_modify, yields_bind.
  destruct injection; [apply yields_modify|apply yields_ret]; apply yields_modify, H; (split; try done); eexists; simpl;
    rewrite <-?app_assoc; by split.
Qed.
Lemma recompute_installs (ctx : context) injection summary new (s s' : session) Q :
  replaced s s' ctx injection summary new →
  (∀ s'', installed s s'' ctx injection summary new → Q s'' ()) →
  yields (recompute_token_usage to_json image_dimensions ctx) s' Q.
Proof.
  intros Hs' H. apply yields_bind, yields_bind, yields_get, yields_ret, yields_bind, yields_bind, yields_get, yields_ret, yields_bind,
    yields_modify, yields_bind, yields_get, yields_modify, H, installed_event.
  destruct Hs'. split; [by split|]. by eexists.
Qed.

(** ** The history that replaces another *)

Lemma reversed_assistant (l l' : list item) :
  last_assistant_message (l ++ l') =
    (m ← last_assistant_message l; match m with Some t => Ok (Some t) | None => last_assistant_message l' end).
Proof.
  induction l as [|i l IH]; [done|]. cbn [app last_assistant_message].
  destruct (last_assistant_message_from_item i) as [[t|]| |]; [done|exact IH|done..].
Qed.

(** The base of a compacted history: the latest user messages, and the summary. *)
Definition compacted_base (seen : list item) (summary : str) (base : list item) : Prop :=
  ∃ older cut recent, collect seen = older ++ recent
    ∧ base = (user_text_message no_fields <$> cut ++ recent) ++ [user_text_message no_fields summary]
    ∧ (tokens recent ≤ COMPACT_USER_MESSAGE_MAX_TOKENS)%Z
    ∧ (cut = [] ∧ (older = [] ∨ tokens recent = COMPACT_USER_MESSAGE_MAX_TOKENS)
       ∨ ∃ older' m t, older = older' ++ [m] ∧ cut = [t]
           ∧ (0 < COMPACT_USER_MESSAGE_MAX_TOKENS - tokens recent < approx_token_count m)%Z
           ∧ truncate_text m (Tokens (COMPACT_USER_MESSAGE_MAX_TOKENS - tokens recent)) = Ok t).
Definition with_context (injection : InitialContextInjection) (initial_context base : list item) : list item :=
  match injection with
  | BeforeLastUserMessage => insert_initial_context_before_last_real_user_or_summary from_xml_str SUMMARY_PREFIX base initial_context
  | DoNotInject => base
  end.

Lemma compacted_history_total injection (initial_context old added : list item) :
  Forall fits (old ++ added) →
  ∃ told tnew base, get_last_assistant_message_from_turn old = Ok told ∧ get_last_assistant_message_from_turn added = Ok tnew
    ∧ let summary := SUMMARY_PREFIX ++ [NL] ++ default (default [] told) tnew in
      compacted_base (old ++ added) summary base
      ∧ compacted_history from_xml_str no_fields SUMMARY_PREFIX injection initial_context (old ++ added)
        = Ok (summary, with_context injection initial_context base ++ filter (λ i, is_ghost i) (old ++ added)).
Proof.
  intros Hfits. destruct (last_assistant_total (reverse old)) as (told&Hold&_).
  destruct (last_assistant_total (reverse added)) as (tnew&Hnew&_).
  assert (Hall : get_last_assistant_message_from_turn (old ++ added) = Ok (match tnew with Some t => Some t | None => told end)).
  { unfold get_last_assistant_message_from_turn. rewrite reverse_app, reversed_assistant, Hnew. by destruct tnew. }
  set (summary := SUMMARY_PREFIX ++ [NL] ++ default (default [] told) tnew).
  destruct (compacted_history_spec (Value:=Value) no_fields [] (collect (old ++ added)) summary) as (older&cut&recent&Hc&Hb&Ht&Hcut).
  { apply (collect_fits from_xml_str SUMMARY_PREFIX). eapply Forall_impl; [exact Hfits|]. done. }
  exists told, tnew, ((user_text_message no_fields <$> cut ++ recent) ++ [user_text_message no_fields summary]).
  split; [done|]. split; [done|]. cbv zeta. fold summary. split; [by exists older, cut, recent|].
  unfold compacted_history. rewrite Hall. cbn [mbind result_bind].
  replace (SUMMARY_PREFIX ++ [NL] ++ default [] (match tnew with Some t => Some t | None => told end)) with summary
    by (unfold summary; by destruct tnew).
  rewrite Hb. cbn [mbind result_bind]. rewrite bool_decide_eq_false_2 by (unfold summary; by destruct SUMMARY_PREFIX).
  by destruct injection.
Qed.

End Installing.

(** ** Compaction by a summary *)

Section Local.
Context {P Value Rest Plan Limits : Type}.
Abbreviation item := (@ResponseItem P Value).
Abbreviation history := (@ContextManager P Value (TurnContextItem Rest)).
Abbreviation session := (@Session P Value Rest Plan Limits).
Abbreviation context := (@TurnContext Rest).
Variable from_xml_str : str → option (str * str).
Variable to_json : item → option str.
Variable image_dimensions : str → option (Z * Z).
Variable no_fields : P.
Variable SUMMARY_PREFIX : str.
Variable stream : nat → list item → CodexErr + list (CodexErr + @ResponseEvent P Value Plan Limits).
Variable build_initial_context : session → context → list item.
Abbreviation run_compact := (run_compact_task_inner_impl false from_xml_str to_json image_dimensions no_fields SUMMARY_PREFIX
  stream build_initial_context).
Abbreviation installed := (installed to_json image_dimensions).
Abbreviation with_context := (with_context from_xml_str SUMMARY_PREFIX).
Abbreviation compacted_base := (compacted_base from_xml_str no_fields SUMMARY_PREFIX).

(** The answers have valid items, as has the history. *)
Hypothesis answers_valid : ∀ n input, Forall (valid_response from_xml_str) (answered (stream n input)).

(** The history with which the first request is made. *)
Definition with_prompt (prompt : item) (h : history) : history := with_items (items h ++ [prompt]) h.

(** What a compaction of [s] with the answer [v] after adding [l] leads to. *)
Definition compaction_outcome (ctx : context) (injection : InitialContextInjection) (s s' : session)
    (ps : list (list item)) (l : list item) (v r : CodexErr + unit) : Prop :=
  r = v ∧ match v with
  | inl _ => requested s s' ps l
  | inr () => ∃ s1 told tnew base, requested s s1 ps l
      ∧ get_last_assistant_message_from_turn (items (sess_history s)) = Ok told
      ∧ get_last_assistant_message_from_turn l = Ok tnew
      ∧ let summary := SUMMARY_PREFIX ++ [NL] ++ default (default [] told) tnew in
        compacted_base (items (sess_history s1)) summary base
        ∧ installed s1 s' ctx injection summary (with_context injection (build_initial_context s1 ctx) base
                                       ++ filter (λ i, is_ghost i) (items (sess_history s1)))
  end.

Lemma rounds_fit ctx n (h : history) r ps l v : rounds stream ctx n h r ps l v → Forall (text_fits from_xml_str) l.
Proof.
  assert (Hone : ∀ n h, Forall (text_fits from_xml_str) (delivered_by stream ctx n h)).
  { intros m h'. apply (record_items_spec from_xml_str _ _ h'), answers_valid. }
  induction 1; try apply Hone; apply Forall_app; split; auto.
Qed.

Lemma requested_after (s s1 s2 : session) ps l : grown s s1 [] → requested s1 s2 ps l → requested s s2 ps l.
Proof.
  intros (es&Hg&Hq) (es'&Hg'&Hr&Hc&Hp). destruct (quiet_none es Hq) as (Hr0&Hc0&Hp0). exists (es ++ es').
  split; [exact (grows_trans _ _ _ [] _ _ _ Hg Hg')|].
  unfold requests, compact_requests, persisted in *. by rewrite !omap_app, Hr0, Hc0, Hp0, Hr, Hc, Hp.
Qed.

Lemma run_compact_outcome (ctx : context) content rest injection (s : session) :
  let prompt := Message (lit "user") content rest in
  Forall (text_fits from_xml_str) (items (sess_history s)) → text_fits from_xml_str prompt →
  yields (run_compact ctx prompt injection) s (λ s' r, ∃ ps l v,
    rounds stream ctx (requests_made s) (with_prompt prompt (sess_history s)) 0 ps l v
    ∧ compaction_outcome ctx injection s s' ps l v r).
Proof.
  intros prompt Hfits Hprompt. set (h0 := with_prompt prompt (sess_history s)).
  apply yields_bind, yields_modify, yields_bind, yields_bind, yields_get, yields_ret, yields_bind.
  eapply yields_lift; [apply (record_items_spec from_xml_str [prompt]); by repeat constructor|].
  change (with_items _ _) with h0. set (s0 := logged _ s).
  assert (Hs0 : grown s s0 []). { exists [SendEvent ItemStarted]. split; [by apply grows_logged|by constructor]. }
  apply yields_try. eapply yields_weaken.
  { apply (compact_loop_rounds from_xml_str stream ctx answers_valid). unfold rounds_left, compact_fuel. lia. }
  intros s1 v (ps&l&Hr&Hreq%(requested_after _ _ _ _ _ Hs0)). change (requests_made s0) with (requests_made s) in Hr.
  destruct v as [e|[]]; [by exists ps, l, (inl e)|].
  apply yields_bind, yields_get, yields_bind. destruct Hreq as (es&Hg&Hreq).
  assert (Hseen : items (sess_history s1) = items (sess_history s) ++ l) by apply Hg.
  destruct (compacted_history_total from_xml_str no_fields SUMMARY_PREFIX injection (build_initial_context s1 ctx)
    (items (sess_history s)) l) as (told&tnew&base&Ht&Hn&Hb&Hc).
  { apply Forall_app. split; [done|by eapply rounds_fit]. }
  rewrite <-Hseen in Hb, Hc. eapply yields_lift; [exact Hc|]. cbn beta match.
  apply yields_bind, replace_installs. intros s2 Hs2. apply yields_bind, yields_modify, yields_bind.
  eapply (recompute_installs to_json image_dimensions); [by apply replaced_logged|].
  intros s3 Hs3. apply yields_bind, yields_modify, yields_bind, yields_modify, yields_ret.
  exists ps, l, (inr ()). split; [done|]. split; [done|].
  exists s1, told, tnew, base. split; [by exists es|]. split; [done|]. split; [done|]. split; [done|].
  by do 2 apply installed_event.
Qed.

End Local.

(** ** Compaction by the compact endpoint *)

Section Remote.
Context {P Value Rest Plan Limits : Type}.
Abbreviation item := (@ResponseItem P Value).
Abbreviation history := (@ContextManager P Value (TurnContextItem Rest)).
Abbreviation session := (@Session P Value Rest Plan Limits).
Abbreviation context := (@TurnContext Rest).
Variable from_xml_str : str → option (str * str).
Variable to_json : item → option str.
Variable image_dimensions : str → option (Z * Z).
Variable SUMMARY_PREFIX : str.
Variable compact_conversation_history : nat → list item → CodexErr + list item.
Variable build_initial_context : session → context → list item.
Variable built_tools : session → context → list item → CodexErr + unit.
Abbreviation estimate := (@estimate_token_count_with_base_instructions P Value (TurnContextItem Rest) to_json image_dimensions).
Abbreviation run_remote := (run_remote_compact_task_inner_impl false from_xml_str to_json image_dimensions SUMMARY_PREFIX
  compact_conversation_history build_initial_context built_tools).
Abbreviation installed := (installed to_json image_dimensions).
Abbreviation keep := (@should_keep_compacted_history_item P Value from_xml_str).

(** From [h] to [h'] by removing [k] outputs or developer messages, one after
    another from the end, each with its call. *)
Inductive trimmed : history → history → nat → Prop :=
| trimmed_none h : trimmed h h 0
| trimmed_last h i h' k :
    last (items h) = Some i → is_codex_generated_item i = true → trimmed (remove_last_item h).1 h' k → trimmed h h' (S k).

Lemma remove_last_shorter (h : history) i : last (items h) = Some i →
  (remove_last_item h).2 = true ∧ length (items (remove_last_item h).1) < length (items h).
Proof.
  intros Hl. unfold remove_last_item. rewrite Hl. split; [done|]. simpl.
  pose proof (remove_corresponding_length i (but_last (items h))) as Hc. rewrite but_last_length in Hc.
  destruct (items h); [done|]. simpl in *. lia.
Qed.

(** Trimming ends when the rest fits, or when its last item is not one to trim. *)
Definition fits_or_stuck (window : Z) (instructions : str) (h : history) : Prop :=
  (estimate instructions h ≤ window)%Z ∨ items h = [] ∨ ∃ i, last (items h) = Some i ∧ is_codex_generated_item i = false.

Lemma trim_history_spec fuel window instructions (h : history) d :
  length (items h) ≤ fuel →
  ∃ h' k, trim_loop to_json image_dimensions fuel window instructions h d = Ok (h', d + k)
    ∧ trimmed h h' k ∧ fits_or_stuck window instructions h'.
Proof.
  revert h d. induction fuel as [|fuel IH]; intros h d Hf; cbn [trim_loop]; destruct (window <? estimate instructions h)%Z eqn:Hw.
  1, 3: destruct (last (items h)) as [i|] eqn:Hl; [destruct (is_codex_generated_item i) eqn:Hi; cbn [negb]|].
  - destruct (items h); [done|simpl in Hf; lia].
  - exists h, 0. rewrite Nat.add_0_r. split_and!; [done|constructor|]. right; right. eauto.
  - exists h, 0. rewrite Nat.add_0_r. split_and!; [done|constructor|]. right; left. by apply last_None.
  - destruct (remove_last_shorter h i Hl) as [Hr Hlen]. destruct (remove_last_item h) as [h1 b] eqn:Hh1. simpl in Hr, Hlen. subst b.
    destruct (IH h1 (S d)) as (h'&k&Hk&Ht&Hs); [lia|]. exists h', (S k). rewrite Nat.add_succ_r. split_and!; [exact Hk| |done].
    eapply trimmed_last; [done..|]. by rewrite Hh1.
  - exists h, 0. rewrite Nat.add_0_r. split_and!; [done|constructor|]. right; right. eauto.
  - exists h, 0. rewrite Nat.add_0_r. split_and!; [done|constructor|]. right; left. by apply last_None.
  - exists h, 0. rewrite Nat.add_0_r. split_and!; [done|constructor|]. left. by apply Z.ltb_ge.
  - exists h, 0. rewrite Nat.add_0_r. split_and!; [done|constructor|]. left. by apply Z.ltb_ge.
Qed.

(** Ghost snapshots are never trimmed. *)
Definition ghosts (l : list item) : list item := filter (λ i, is_ghost i) l.
Lemma remove_first_keeps_ghosts f (l : list item) : (∀ i, f i = true → is_ghost i = false) → ghosts (remove_first_matching f l) = ghosts l.
Proof.
  intros Hf. unfold ghosts. induction l as [|i l IH]; [done|]. simpl. destruct (f i) eqn:Hi.
  - rewrite filter_cons_False; [done|]. rewrite (Hf i Hi). intros [].
  - by rewrite !filter_cons, IH.
Qed.
Lemma trimmed_ghosts (h h' : history) k : trimmed h h' k → ghosts (items h') = ghosts (items h).
Proof.
  induction 1 as [|h i h' k Hl Hi _ ->]; [done|]. unfold remove_last_item. rewrite Hl. cbn [fst items bump_version with_items].
  rewrite (last_snoc_inv _ _ Hl) at 2. unfold ghosts at 2. rewrite filter_app. fold (ghosts (but_last (items h))).
  rewrite (filter_cons_False _ i) by (destruct i; try done; intros []). rewrite filter_nil, app_nil_r.
  unfold remove_corresponding_for. repeat case_match; try done; apply remove_first_keeps_ghosts; by intros [].
Qed.

Definition trimmed_for (ctx : context) (s : session) (h : history) : Prop :=
  ∃ k, trimmed (sess_history s) h k
    ∧ match model_context_window ctx with
      | Some window => fits_or_stuck window (sess_instructions s) h
      | None => h = sess_history s
      end.
Lemma trim_spec (ctx : context) (s : session) :
  ∃ h d, trim_function_call_history_to_fit_context_window to_json image_dimensions (sess_history s) ctx (sess_instructions s)
    = Ok (h, d) ∧ trimmed_for ctx s h.
Proof.
  unfold trim_function_call_history_to_fit_context_window, trimmed_for. destruct (model_context_window ctx) as [w|].
  - destruct (trim_history_spec (length (items (sess_history s))) w (sess_instructions s) (sess_history s) 0) as (h&k&?&?&?); [done|].
    exists h, k. split; [done|]. by exists k.
  - exists (sess_history s), 0. split; [done|]. exists 0. split; [constructor|done].
Qed.

(** The answer of the compact endpoint to a prompt, which an empty prompt does
    not need. *)
Definition compact_answer (s : session) (prompt : list item) : CodexErr + list item :=
  if bool_decide (prompt = []) then inr [] else compact_conversation_history (requests_made s) prompt.
Definition asked (prompt : list item) : list (list item) := if bool_decide (prompt = []) then [] else [prompt].

Definition remote_outcome (ctx : context) (injection : InitialContextInjection) (s s' : session) (r : CodexErr + unit) : Prop :=
  ∃ h s1 es, trimmed_for ctx s h ∧ grows s s1 [] es ∧ persisted es = [] ∧ requests es = []
    ∧ match built_tools (logged [SendEvent ItemStarted] s) ctx (prompt_of ctx h) with
      | inl e => r = inl e ∧ s' = s1 ∧ compact_requests es = []
      | inr () =>
          compact_requests es = asked (prompt_of ctx h)
          ∧ match compact_answer s (prompt_of ctx h) with
            | inl e => r = inl e ∧ s' = s1
            | inr answer => r = inr ()
                ∧ installed s1 s' ctx injection []
                    (process_compacted_history from_xml_str SUMMARY_PREFIX injection (build_initial_context s1 ctx) answer
                     ++ ghosts (items (sess_history s)))
            end
      end.

Lemma run_remote_outcome (ctx : context) injection (s : session) :
  yields (run_remote ctx injection) s (remote_outcome ctx injection s).
Proof.
  set (s0 := logged [SendEvent ItemStarted] s).
  assert (Hs0 : grows s s0 [] [SendEvent ItemStarted]) by by apply grows_logged.
  apply yields_bind, yields_modify, yields_bind, yields_bind, yields_get, yields_ret, yields_bind, yields_bind, yields_get, yields_ret.
  destruct (trim_spec ctx s) as (h&d&Ht&Htrim). apply yields_bind. eapply yields_lift; [exact Ht|].
  apply yields_bind. eapply yields_lift; [apply for_prompt_release|].
  assert (Hg : ghosts (items h) = ghosts (items (sess_history s))).
  { destruct Htrim as (k&Hk&_). by eapply trimmed_ghosts. }
  change (filter _ (items h)) with (ghosts (items h)). rewrite Hg.
  apply yields_bind, yields_get, yields_try, yields_ret. change (logged [SendEvent ItemStarted] s) with s0.
  destruct (built_tools s0 ctx (prompt_of ctx h)) as [e|[]] eqn:Htools.
  { exists h, s0, [SendEvent ItemStarted]. split_and!; [done..|]. change (logged _ s) with s0. by rewrite Htools. }
  assert (Hinstall : ∀ s1 es answer, grows s s1 [] es → persisted es = [] → requests es = [] →
    compact_requests es = asked (prompt_of ctx h) → compact_answer s (prompt_of ctx h) = inr answer →
    yields (s ← get;
      replace_compacted_history (process_compacted_history from_xml_str SUMMARY_PREFIX injection (build_initial_context s ctx) answer
        ++ ghosts (items (sess_history s0))) (reference_context injection ctx)
        {| message := []; replacement_history := Some (process_compacted_history from_xml_str SUMMARY_PREFIX injection
             (build_initial_context s ctx) answer ++ ghosts (items (sess_history s0))) |};;
      recompute_token_usage to_json image_dimensions ctx;;
      send_event ItemCompleted;;
      mret (inr ())) s1 (remote_outcome ctx injection s)).
  { intros s1 es answer Hs1 Hp Hr Hc Ha. apply yields_bind, yields_get, yields_bind, replace_installs. intros s2 Hs2.
    apply yields_bind. eapply (recompute_installs to_json image_dimensions); [exact Hs2|]. intros s3 Hs3.
    apply yields_bind, yields_modify, yields_ret. exists h, s1, es. split_and!; [done..|].
    change (logged [SendEvent ItemStarted] s) with s0. rewrite Htools. split; [done|]. rewrite Ha. split; [done|]. by apply installed_event. }
  apply yields_bind. unfold compact_answer, asked in *. case_bool_decide as Hprompt.
  { apply yields_ret, yields_try, yields_ret. by eapply Hinstall. }
  set (e := CompactRequest (prompt_of ctx h) (sess_instructions s) : @effect P Value Rest Plan Limits).
  set (s1 := request_made (logged [e] s0)).
  assert (Hs1 : grows s s1 [] [SendEvent ItemStarted; e]).
  { eapply (grows_trans _ s0 _ [] [] [_] [_]); [exact Hs0|]. split; try done; simpl; rewrite ?app_nil_r; [done|lia]. }
  apply yields_bind, yields_modify, yields_bind, yields_modify.
  change (requests_made s0) with (requests_made s). change (request_made _) with s1.
  destruct (compact_conversation_history (requests_made s) (prompt_of ctx h)) as [err|answer] eqn:Hanswer.
  - apply yields_bind, yields_get, yields_bind, yields_modify, yields_ret, yields_try, yields_ret.
    set (e' := LogRemoteFailure _ _ err). exists h, (logged [e'] s1), [SendEvent ItemStarted; e; e'].
    split_and!; [done| |done|done|].
    + eapply (grows_trans _ s1 _ [] [] [_; _] [_]); [exact Hs1|by apply grows_logged].
    + change (logged [SendEvent ItemStarted] s) with s0. rewrite Htools. unfold compact_answer, asked.
      rewrite bool_decide_eq_false_2 by done. rewrite Hanswer. by split_and!.
  - apply yields_ret, yields_try, yields_ret. by eapply Hinstall.
Qed.

End Remote.

(** ** The claims *)

Section Claims.
Context {P Value Rest Plan Limits : Type}.
Abbreviation item := (@ResponseItem P Value).
Abbreviation session := (@Session P Value Rest Plan Limits).
Abbreviation context := (@TurnContext Rest).
Variable from_xml_str : str → option (str * str).
Variable to_json : item → option str.
Variable image_dimensions : str → option (Z * Z).
Variable no_fields : P.
Variable SUMMARY_PREFIX : str.
Variable stream : nat → list item → CodexErr + list (CodexErr + @ResponseEvent P Value Plan Limits).
Variable compact_conversation_history : nat → list item → CodexErr + list item.
Variable build_initial_context : session → context → list item.
Variable built_tools : session → context → list item → CodexErr + unit.
Abbreviation run_compact := (run_compact_task_inner_impl false from_xml_str to_json image_dimensions no_fields SUMMARY_PREFIX
  stream build_initial_context).
Abbreviation run_remote := (run_remote_compact_task_inner_impl false from_xml_str to_json image_dimensions SUMMARY_PREFIX
  compact_conversation_history build_initial_context built_tools).

(** C18. A compaction always ends, whatever the model answers: it makes at
    most (history length + 2) * (stream_max_retries + 1) requests, each of
    which is the normalized history without some of its oldest items, has
    every call paired with its output, and ends with the compaction prompt. *)
Theorem local_compaction_ends (ctx : context) content rest injection (s : session)
    (Hanswers : ∀ n input, Forall (valid_response from_xml_str) (answered (stream n input)))
    (Hfits : Forall (text_fits from_xml_str) (items (sess_history s)))
    (Hprompt : text_fits (Value:=Value) from_xml_str (Message (lit "user") content rest)) :
  let prompt := Message (lit "user") content rest in
  ∃ s' r es, run_compact ctx prompt injection s = Ok (s', r)
    ∧ log s' = log s ++ es
    ∧ length (requests es) ≤ (length (items (sess_history s)) + 2) * S (stream_max_retries ctx)
    ∧ ∀ j p, requests es !! j = Some p →
        last p = Some (shown ctx prompt) ∧ paired p
        ∧ ∃ k, k ≤ j ∧ p = prompt_of ctx (Nat.iter k remove_first_item (with_prompt prompt (sess_history s))).
Proof.
  intros prompt. destruct (run_compact_outcome from_xml_str to_json image_dimensions no_fields SUMMARY_PREFIX stream build_initial_context
    Hanswers ctx content rest injection s Hfits Hprompt) as (s'&r&Hrun&ps&l&v&Hr&_&Hout). fold prompt in Hrun, Hr.
  assert (Hlog : ∃ es, log s' = log s ++ es ∧ requests es = ps).
  { destruct v as [e|[]].
    - destruct Hout as (es&Hg&He&_). exists es. split; [apply Hg|done].
    - destruct Hout as (s1&?&?&?&(es&Hg&He&_)&_&_&_&Hi&_). destruct (replaced_log _ _ _ _ _ _ Hi) as (es'&Hl&He'&_).
      exists (es ++ es'). rewrite Hl, (grows_log _ _ _ _ Hg), app_assoc. split; [done|].
      unfold requests in *. by rewrite omap_app, He, He', app_nil_r. }
  destruct Hlog as (es&Hl&He). exists s', r, es. split; [done|]. split; [done|]. rewrite He. split.
  - pose proof (rounds_bounded _ _ _ _ _ _ _ _ Hr) as Hb. unfold rounds_left, with_prompt in Hb. simpl in Hb.
    rewrite length_app in Hb. simpl in Hb. lia.
  - by eapply (rounds_prompts ctx stream).
Qed.

(** C17. A compaction by a summary goes through its rounds of requests; when
    they fail the session keeps its history and what the model answered, and
    nothing is persisted; when they end with an answer the history becomes the
    latest user messages and the summary (the last assistant message of the
    answer, or of the history when the answer has none), the initial context
    before the last user message in the middle of a turn, and the ghost
    snapshots; the rollout gets that history, and the token usage is estimated
    anew. *)
Theorem compaction_replaces_history (ctx : context) content rest injection (s : session)
    (Hanswers : ∀ n input, Forall (valid_response from_xml_str) (answered (stream n input)))
    (Hfits : Forall (text_fits from_xml_str) (items (sess_history s)))
    (Hprompt : text_fits (Value:=Value) from_xml_str (Message (lit "user") content rest)) :
  ∃ s' r ps l v, run_compact ctx (Message (lit "user") content rest) injection s = Ok (s', r)
    ∧ rounds stream ctx (requests_made s) (with_prompt (Message (lit "user") content rest) (sess_history s)) 0 ps l v
    ∧ compaction_outcome from_xml_str to_json image_dimensions no_fields SUMMARY_PREFIX build_initial_context ctx injection s s' ps l v r.
Proof.
  destruct (run_compact_outcome from_xml_str to_json image_dimensions no_fields SUMMARY_PREFIX stream build_initial_context
    Hanswers ctx content rest injection s Hfits Hprompt) as (s'&r&Hrun&ps&l&v&Hr&Hout).
  by exists s', r, ps, l, v.
Qed.

(** A compaction by the endpoint trims outputs and developer messages
    from the end of the history until it fits the context window or ends in
    another item, makes at most one request, changes nothing when it fails,
    and otherwise installs the answer's visible user messages, assistant
    messages and compaction items, the initial context in their midst, and all
    ghost snapshots there were. *)
Theorem remote_compaction_installs (ctx : context) injection (s : session) :
  ∃ s' r, run_remote ctx injection s = Ok (s', r)
    ∧ remote_outcome from_xml_str to_json image_dimensions SUMMARY_PREFIX compact_conversation_history build_initial_context
        built_tools ctx injection s s' r
    ∧ ∀ initial answer : list item, ∃ pre post,
        pre ++ post = filter (should_keep_compacted_history_item from_xml_str) answer
        ∧ process_compacted_history from_xml_str SUMMARY_PREFIX injection initial answer
          = pre ++ match injection with BeforeLastUserMessage => initial | DoNotInject => [] end ++ post.
Proof.
  destruct (run_remote_outcome from_xml_str to_json image_dimensions SUMMARY_PREFIX compact_conversation_history build_initial_context
    built_tools ctx injection s) as (s'&r&Hrun&Hout).
  exists s', r. split; [exact Hrun|]. split; [exact Hout|]. intros initial answer. unfold process_compacted_history.
  destruct (inserted_context from_xml_str SUMMARY_PREFIX (filter (should_keep_compacted_history_item from_xml_str) answer : list item)
    (match injection with BeforeLastUserMessage => initial | DoNotInject => [] end)) as (pre&post&Hk&Hi&_).
  exists pre, post. by rewrite Hi.
Qed.
(** Below the limit of a model that stays the same, no compaction happens before
    a turn. *)
Lemma pre_sampling_skips (ctx : context) inter_agent_json SUMMARIZATION_PROMPT err_to_string with_model limit (s : session) :
  sess_previous_settings s = None → auto_compact_token_limit false (model_info ctx) = Ok limit →
  (History.get_total_token_usage to_json image_dimensions from_xml_str (is_inter_agent_json inter_agent_json)
    (server_reasoning_included s) (sess_history s) < default i64_max limit)%Z →
  run_pre_sampling_compact false from_xml_str inter_agent_json to_json image_dimensions no_fields SUMMARIZATION_PROMPT SUMMARY_PREFIX
    err_to_string stream compact_conversation_history build_initial_context built_tools with_model ctx s = Ok (s, inr false).
Proof.
  intros Hs Hl Ht. unfold run_pre_sampling_compact, maybe_run_previous_model_inline_compact, auto_compact_limit, get_total_token_usage.
  unfold mbind, M_bind, get, try_, mbind, M_bind, mret, M_ret, lift. rewrite Hs, Hl. simpl.
  by rewrite (proj2 (Z.leb_gt _ _) Ht).
Qed.
End Claims.

(** ** A conversation that is compacted *)

Definition no_xml (_ : str) : option (str * str) := None.
Definition no_json (_ : @ResponseItem unit unit) : option str := None.
Definition no_image (_ : str) : option (Z * Z) := None.
Definition said (role text : string) : @ResponseItem unit unit :=
  Message (lit role) [if bool_decide (role = "assistant"%string) then OutputText (lit text) else InputText (lit text)] ().
Definition a_model : ModelInfo := {|
  slug := lit "m"; context_window := Some 1000%Z; max_context_window := None; auto_compact_token_limit_config := None;
  effective_context_window_percent := 95; takes_images := true |}.
Definition a_turn : @TurnContext unit := {|
  model_info := a_model; truncation_policy := Bytes 1000; stream_max_retries := 1; supports_remote_compaction := false;
  compact_prompt_config := None; to_turn_context_item := {| ctx_turn_id := Some (lit "turn"); ctx_model := lit "m";
    ctx_realtime_active := None; ctx_rest := () |} |}.
Definition a_session : @Session unit unit unit unit unit := {|
  sess_history := {| items := [said "user" "one"; FunctionCall (lit "c") (); FunctionCallOutput (lit "c") (from_text (lit "out"));
                               said "assistant" "old answer"; GhostSnapshot ()];
                     history_version := 0; token_info := None; reference_context_item := None |};
  server_reasoning_included := false; latest_rate_limits := None; sess_previous_settings := None;
  sess_instructions := lit "be brief"; general_analytics := false; window_generation := 0; requests_made := 0; log := [] |}.
(** The first prompt is too long, the second stream breaks off, the third answers
    with what is given. *)
Definition answers (last : list (@ResponseEvent unit unit unit unit)) (n : nat) (_ : list (@ResponseItem unit unit))
    : CodexErr + list (CodexErr + @ResponseEvent unit unit unit unit) :=
  match n with
  | 0 => inl ContextWindowExceeded
  | 1 => inr [inr OtherResponseEvent]
  | _ => inr (inr <$> last)
  end.
Abbreviation compact_with last := (run_compact_task_inner_impl false no_xml no_json no_image () (lit "Summary:") (answers last)
  (λ _ _, [said "developer" "context"]) a_turn (said "user" "summarize") BeforeLastUserMessage a_session).

Definition summarized (text : string) : @ResponseItem unit unit := user_text_message () (lit "Summary:" ++ [NL] ++ lit text).

Example compacted_with_summary :
  (λ r, (items (sess_history r.1), length <$> requests (log r.1), r.2)) <$>
    compact_with [OutputItemDone (said "assistant" "the summary"); ResponseCompleted None]
  = Ok ([said "developer" "context"; said "user" "one"; summarized "the summary"; GhostSnapshot ()],
        [5; 4; 4], inr ()).
Proof. vm_compute. reflexivity. Qed.

(** An answer without text makes an old answer the summary. *)
Example compacted_without_summary :
  (λ r, items (sess_history r.1)) <$> compact_with [ResponseCompleted None]
  = Ok [said "developer" "context"; said "user" "one"; summarized "old answer"; GhostSnapshot ()].
Proof. vm_compute. reflexivity. Qed.

Lemma answers_are_valid last :
  Forall (valid_response no_xml) (delivered (inr <$> last)) → ∀ n input, Forall (valid_response no_xml) (answered (answers last n input)).
Proof. intros Hl [|[|n]] input; [done..|exact Hl]. Qed.
Ltac fits := intros ? Hc; vm_compute in Hc; simplify_eq; by vm_compute.

Lemma local_compaction_ends_witness :
  ∃ s' r es, compact_with [OutputItemDone (said "assistant" "the summary"); ResponseCompleted None] = Ok (s', r)
    ∧ log s' = [] ++ es ∧ length (requests es) ≤ 14.
Proof.
  destruct (local_compaction_ends no_xml no_json no_image () (lit "Summary:")
    (answers [OutputItemDone (said "assistant" "the summary"); ResponseCompleted None]) (λ _ _, [said "developer" "context"])
    a_turn [InputText (lit "summarize")] () BeforeLastUserMessage a_session) as (s'&r&es&Hr&Hl&Hb&_).
  - apply answers_are_valid. constructor; [split; [fits|done]|done].
  - repeat constructor; fits.
  - fits.
  - exists s', r, es. split_and!; [exact Hr|exact Hl|exact Hb].
Defined.

Lemma compaction_replaces_history_witness :
  ∃ s' ps l, compact_with [ResponseCompleted None] = Ok (s', inr ()) ∧ length ps = 3
    ∧ rounds (answers [ResponseCompleted None]) a_turn 0 (with_prompt (said "user" "summarize") (sess_history a_session)) 0 ps l (inr ()).
Proof.
  destruct (compaction_replaces_history no_xml no_json no_image () (lit "Summary:") (answers [ResponseCompleted None])
    (λ _ _, [said "developer" "context"]) a_turn [InputText (lit "summarize")] () BeforeLastUserMessage a_session)
    as (s'&r&ps&l&v&Hr&Hrounds&Hout).
  - by apply answers_are_valid.
  - repeat constructor; fits.
  - fits.
  - assert (Hv : r = inr ()) by (vm_compute in Hr; by injection Hr as _ <-).
    destruct Hout as [Hrv Hout]. rewrite Hv in Hrv. subst v r. exists s', ps, l. split_and!; [exact Hr| |exact Hrounds].
    destruct Hout as (s1&?&?&?&(es&Hg&He&_)&_&_&_&[Hi _]). destruct (replaced_log _ _ _ _ _ _ Hi) as (es'&Hl&He'&_).
    rewrite (grows_log _ _ _ _ Hg) in Hl. vm_compute in Hr. injection Hr as <-. simpl in Hl. subst ps.
    assert (H : requests (es ++ es') = requests es) by (unfold requests in *; by rewrite omap_app, He', app_nil_r).
    rewrite <-H, <-Hl. done.
Defined.
