(* ===== verification/HookOutput.v ===== *)
(** * What hooks print

    Models [hooks/src/engine/output_parser.rs] and the output types of
    [hooks/src/schema.rs]: what the standard output of a hook asks for, and which
    requests are not supported.  serde_json is a parameter: for each type the
    value of a text that is a JSON object of that type. *)
From S2P Require Import Prelude Str.

Module HookOutput.

(** ** The types of the output *)

Record HookUniversalOutputWire : Type := {
  wire_continue : bool;
  wire_stop_reason : option str;
  wire_suppress_output : bool;
  wire_system_message : option str;
}.
Inductive PreToolUsePermissionDecisionWire : Type := PermissionAllow | PermissionDeny | PermissionAsk.
Inductive PreToolUseDecisionWire : Type := Approve | LegacyBlock.
Inductive BlockDecisionWire : Type := Block.
Inductive PermissionRequestBehaviorWire : Type := BehaviorAllow | BehaviorDeny.

Section Output.
(** JSON values that are only looked for. *)
Context {Value : Type}.

Record PreToolUseHookSpecificOutputWire : Type := {
  permission_decision : option PreToolUsePermissionDecisionWire;
  permission_decision_reason : option str;
  pre_updated_input : option Value;
  pre_additional_context : option str;
}.
Record PreToolUseCommandOutputWire : Type := {
  pre_universal : HookUniversalOutputWire;
  pre_decision : option PreToolUseDecisionWire;
  pre_reason : option str;
  pre_specific : option PreToolUseHookSpecificOutputWire;
}.
Record PermissionRequestDecisionWire : Type := {
  behavior : PermissionRequestBehaviorWire;
  updated_input : option Value;
  updated_permissions : option Value;
  wire_message : option str;
  interrupt : bool;
}.
(** The specific output of a permission request has only a decision. *)
Record PermissionRequestCommandOutputWire : Type := {
  permission_universal : HookUniversalOutputWire;
  permission_specific : option (option PermissionRequestDecisionWire);
}.
Record PostToolUseHookSpecificOutputWire : Type := {
  post_additional_context : option str;
  updated_mcp_tool_output : option Value;
}.
Record PostToolUseCommandOutputWire : Type := {
  post_universal : HookUniversalOutputWire;
  post_decision : option BlockDecisionWire;
  post_reason : option str;
  post_specific : option PostToolUseHookSpecificOutputWire;
}.
Record SessionStartCommandOutputWire : Type := {
  start_universal : HookUniversalOutputWire;
  start_specific : option (option str);
}.
Record UserPromptSubmitCommandOutputWire : Type := {
  submit_universal : HookUniversalOutputWire;
  submit_decision : option BlockDecisionWire;
  submit_reason : option str;
  submit_specific : option (option str);
}.
Record StopCommandOutputWire : Type := {
  stop_universal : HookUniversalOutputWire;
  stop_decision : option BlockDecisionWire;
  stop_wire_reason : option str;
}.

(** serde_json on a text: its value as each type, when it is a JSON object of
    that type. *)
Class HookSerde : Type := {
  de_pre_tool_use : str → option PreToolUseCommandOutputWire;
  de_permission_request : str → option PermissionRequestCommandOutputWire;
  de_post_tool_use : str → option PostToolUseCommandOutputWire;
  de_session_start : str → option SessionStartCommandOutputWire;
  de_user_prompt_submit : str → option UserPromptSubmitCommandOutputWire;
  de_stop : str → option StopCommandOutputWire;
}.
Context `{HookSerde}.

(** ** What they mean *)

Record UniversalOutput : Type := {
  continue_processing : bool;
  universal_stop_reason : option str;
  suppress_output : bool;
  system_message : option str;
}.
Definition universal_from (w : HookUniversalOutputWire) : UniversalOutput := {|
  continue_processing := wire_continue w; universal_stop_reason := wire_stop_reason w;
  suppress_output := wire_suppress_output w; system_message := wire_system_message w |}.

Record SessionStartOutput : Type := { start_output : UniversalOutput; start_context : option str }.
Record PreToolUseOutput : Type := {
  pre_output : UniversalOutput; pre_block_reason : option str; pre_invalid_reason : option str }.
Inductive PermissionRequestDecision : Type := Allow | Deny (message : str).
Record PermissionRequestOutput : Type := {
  permission_output : UniversalOutput; decision : option PermissionRequestDecision; permission_invalid_reason : option str }.
Record PostToolUseOutput : Type := {
  post_output : UniversalOutput; post_should_block : bool; post_output_reason : option str;
  post_invalid_block_reason : option str; post_context : option str; post_invalid_reason : option str }.
Record UserPromptSubmitOutput : Type := {
  submit_output : UniversalOutput; submit_should_block : bool; submit_output_reason : option str;
  submit_invalid_block_reason : option str; submit_context : option str }.
Record StopOutput : Type := {
  stop_output : UniversalOutput; stop_should_block : bool; stop_output_reason : option str;
  stop_invalid_block_reason : option str }.

Definition parse_json {T} (de : str → option T) (stdout : str) : option T :=
  let trimmed := trim stdout in
  if bool_decide (trimmed = []) then None else de trimmed.

Definition trimmed_reason (reason : str) : option str :=
  let trimmed := trim reason in
  if bool_decide (trimmed = []) then None else Some trimmed.

Definition invalid_block_message (event_name : string) : str :=
  lit event_name ++ lit " hook returned decision:block without a non-empty reason".
Definition invalid_pre_tool_use_reason_message : str :=
  lit "PreToolUse hook returned permissionDecision:deny without a non-empty permissionDecisionReason".

(** [Option::or_else]. *)
Definition or_else {A} (o o' : option A) : option A := match o with Some a => Some a | None => o' end.

(** [unsupported_pre_tool_use_universal] and [unsupported_permission_request_universal]. *)
Definition unsupported_universal (event_name : string) (universal : UniversalOutput) : option str :=
  if negb (continue_processing universal) then Some (lit event_name ++ lit " hook returned unsupported continue:false")
  else if bool_decide (is_Some (universal_stop_reason universal)) then
    Some (lit event_name ++ lit " hook returned unsupported stopReason")
  else if suppress_output universal then Some (lit event_name ++ lit " hook returned unsupported suppressOutput")
  else None.
Definition unsupported_post_tool_use_universal (universal : UniversalOutput) : option str :=
  if suppress_output universal then Some (lit "PostToolUse hook returned unsupported suppressOutput") else None.

Definition unsupported_permission_request_hook_specific_output (decision : option PermissionRequestDecisionWire)
    : option str :=
  decision ← decision;
  if bool_decide (is_Some (updated_input decision)) then Some (lit "PermissionRequest hook returned unsupported updatedInput")
  else if bool_decide (is_Some (updated_permissions decision)) then
    Some (lit "PermissionRequest hook returned unsupported updatedPermissions")
  else if interrupt decision then Some (lit "PermissionRequest hook returned unsupported interrupt:true")
  else None.
Definition permission_request_decision (decision : PermissionRequestDecisionWire) : PermissionRequestDecision :=
  match behavior decision with
  | BehaviorAllow => Allow
  | BehaviorDeny => Deny (default (lit "PermissionRequest hook denied approval") (wire_message decision ≫= trimmed_reason))
  end.
Definition unsupported_post_tool_use_hook_specific_output (output : PostToolUseHookSpecificOutputWire) : option str :=
  if bool_decide (is_Some (updated_mcp_tool_output output)) then
    Some (lit "PostToolUse hook returned unsupported updatedMCPToolOutput")
  else None.

Definition unsupported_pre_tool_use_hook_specific_output (output : PreToolUseHookSpecificOutputWire) : option str :=
  if bool_decide (is_Some (pre_updated_input output)) then Some (lit "PreToolUse hook returned unsupported updatedInput")
  else if bool_decide (is_Some (pre_additional_context output ≫= trimmed_reason)) then
    Some (lit "PreToolUse hook returned unsupported additionalContext")
  else
    match permission_decision output with
    | Some PermissionAllow => Some (lit "PreToolUse hook returned unsupported permissionDecision:allow")
    | Some PermissionAsk => Some (lit "PreToolUse hook returned unsupported permissionDecision:ask")
    | Some PermissionDeny =>
        match permission_decision_reason output ≫= trimmed_reason with
        | None => Some invalid_pre_tool_use_reason_message
        | Some _ => None
        end
    | None =>
        if bool_decide (is_Some (permission_decision_reason output)) then
          Some (lit "PreToolUse hook returned permissionDecisionReason without permissionDecision")
        else None
    end.
Definition unsupported_pre_tool_use_legacy_decision (decision : option PreToolUseDecisionWire) (reason : option str)
    : option str :=
  match decision with
  | Some Approve => Some (lit "PreToolUse hook returned unsupported decision:approve")
  | Some LegacyBlock =>
      match reason ≫= trimmed_reason with None => Some (invalid_block_message "PreToolUse") | Some _ => None end
  | None =>
      if bool_decide (is_Some reason) then Some (lit "PreToolUse hook returned reason without decision") else None
  end.

Definition parse_session_start (stdout : str) : option SessionStartOutput :=
  wire ← parse_json de_session_start stdout;
  Some {| start_output := universal_from (start_universal wire); start_context := start_specific wire ≫= id |}.

Definition use_hook_specific_decision (output : PreToolUseHookSpecificOutputWire) : bool :=
  bool_decide (is_Some (permission_decision output)) || bool_decide (is_Some (permission_decision_reason output))
  || bool_decide (is_Some (pre_updated_input output)) || bool_decide (is_Some (pre_additional_context output)).
Definition parse_pre_tool_use (stdout : str) : option PreToolUseOutput :=
  wire ← parse_json de_pre_tool_use stdout;
  let universal := universal_from (pre_universal wire) in
  let specific := from_option use_hook_specific_decision false (pre_specific wire) in
  let invalid_reason := or_else (unsupported_universal "PreToolUse" universal)
    (if specific then pre_specific wire ≫= unsupported_pre_tool_use_hook_specific_output
     else unsupported_pre_tool_use_legacy_decision (pre_decision wire) (pre_reason wire)) in
  let block_reason :=
    match invalid_reason with
    | Some _ => None
    | None =>
        if specific then
          output ← pre_specific wire;
          match permission_decision output with
          | Some PermissionDeny => permission_decision_reason output ≫= trimmed_reason
          | _ => None
          end
        else match pre_decision wire with Some LegacyBlock => pre_reason wire ≫= trimmed_reason | _ => None end
    end in
  Some {| pre_output := universal; pre_block_reason := block_reason; pre_invalid_reason := invalid_reason |}.

Definition parse_permission_request (stdout : str) : option PermissionRequestOutput :=
  wire ← parse_json de_permission_request stdout;
  let universal := universal_from (permission_universal wire) in
  let decision := permission_specific wire ≫= id in
  let invalid_reason := or_else (unsupported_universal "PermissionRequest" universal)
    (permission_specific wire ≫= unsupported_permission_request_hook_specific_output) in
  Some {| permission_output := universal;
          decision := match invalid_reason with None => permission_request_decision <$> decision | Some _ => None end;
          permission_invalid_reason := invalid_reason |}.

(** A block without a reason. *)
Definition blank (reason : option str) : bool :=
  match reason with Some reason => bool_decide (trim reason = []) | None => true end.

Definition parse_post_tool_use (stdout : str) : option PostToolUseOutput :=
  wire ← parse_json de_post_tool_use stdout;
  let universal := universal_from (post_universal wire) in
  let invalid_reason := or_else (unsupported_post_tool_use_universal universal)
    (post_specific wire ≫= unsupported_post_tool_use_hook_specific_output) in
  let should_block := bool_decide (is_Some (post_decision wire)) in
  let invalid_block_reason :=
    if should_block && blank (post_reason wire) then Some (invalid_block_message "PostToolUse")
    else if negb should_block && continue_processing universal && bool_decide (is_Some (post_reason wire)) then
      Some (lit "PostToolUse hook returned reason without decision")
    else None in
  Some {| post_output := universal;
          post_should_block := should_block && bool_decide (invalid_reason = None) && bool_decide (invalid_block_reason = None);
          post_output_reason := post_reason wire; post_invalid_block_reason := invalid_block_reason;
          post_context := post_specific wire ≫= post_additional_context; post_invalid_reason := invalid_reason |}.

Definition parse_user_prompt_submit (stdout : str) : option UserPromptSubmitOutput :=
  wire ← parse_json de_user_prompt_submit stdout;
  let should_block := bool_decide (is_Some (submit_decision wire)) in
  let invalid_block_reason :=
    if should_block && blank (submit_reason wire) then Some (invalid_block_message "UserPromptSubmit") else None in
  Some {| submit_output := universal_from (submit_universal wire);
          submit_should_block := should_block && bool_decide (invalid_block_reason = None);
          submit_output_reason := submit_reason wire; submit_invalid_block_reason := invalid_block_reason;
          submit_context := submit_specific wire ≫= id |}.

Definition parse_stop (stdout : str) : option StopOutput :=
  wire ← parse_json de_stop stdout;
  let should_block := bool_decide (is_Some (stop_decision wire)) in
  let invalid_block_reason :=
    if should_block && blank (stop_wire_reason wire) then Some (invalid_block_message "Stop") else None in
  Some {| stop_output := universal_from (stop_universal wire);
          stop_should_block := should_block && bool_decide (invalid_block_reason = None);
          stop_output_reason := stop_wire_reason wire; stop_invalid_block_reason := invalid_block_reason |}.

End Output.
Arguments HookSerde : clear implicits.
End HookOutput.
