(* ===== verification/Hooks.v ===== *)
(** * Running hooks

    Models the engine of [hooks/src]: the handlers that the configuration has
    ([engine/mod.rs]), which of them an event selects and how they run at the
    same time ([engine/dispatcher.rs], [engine/command_runner.rs]), matchers and
    what the events share ([events/common.rs]).  Regular expressions and what a
    process does are parameters; times are left out. *)
From S2P Require Import Prelude Str Io HookOutput.
Import HookOutput.

Module Hooks.

Inductive HookEventName : Type := PreToolUse | PermissionRequest | PostToolUse | SessionStart | UserPromptSubmit | Stop.
#[export] Instance HookEventName_eq_dec : EqDecision HookEventName.
Proof. solve_decision. Defined.

Inductive HookSource : Type :=
| System | User | Project | Mdm | SessionFlags | LegacyManagedConfigFile | LegacyManagedConfigMdm | Unknown.
Inductive HookScope : Type := Thread | Turn.
Inductive HookRunStatus : Type := Running | Completed | Failed | Blocked | Stopped.
Inductive HookOutputEntryKind : Type := WarningEntry | StopEntry | FeedbackEntry | ContextEntry | ErrorEntry.
Record HookOutputEntry : Type := { entry_kind : HookOutputEntryKind; entry_text : str }.

(** Times are left out. *)
Record HookRunSummary : Type := {
  run_summary_id : str;
  run_event_name : HookEventName;
  run_scope : HookScope;
  run_source_path : str;
  run_source : HookSource;
  run_display_order : Z;
  run_status : HookRunStatus;
  run_status_message : option str;
  run_entries : list HookOutputEntry;
}.
Record HookCompletedEvent : Type := { completed_turn_id : option str; completed_run : HookRunSummary }.

Record ConfiguredHandler : Type := {
  event_name : HookEventName;
  is_managed : bool;
  matcher : option str;
  command : str;
  timeout_sec : Z;
  status_message : option str;
  source_path : str;
  source : HookSource;
  display_order : Z;
}.

(** An [i64] as [format!] prints it. *)
Definition show_int (z : Z) : str := if (z <? 0)%Z then lit "-" ++ show_nat (Z.to_nat (- z)) else show_nat (Z.to_nat z).

Definition event_name_label (e : HookEventName) : str :=
  lit match e with
      | PreToolUse => "pre-tool-use" | PermissionRequest => "permission-request" | PostToolUse => "post-tool-use"
      | SessionStart => "session-start" | UserPromptSubmit => "user-prompt-submit" | Stop => "stop"
      end.
Definition run_id (handler : ConfiguredHandler) : str :=
  event_name_label (event_name handler) ++ lit ":" ++ show_int (display_order handler) ++ lit ":" ++ source_path handler.

(** ** Matchers *)

Definition UNDERSCORE : char := 95%N.
Definition PIPE : char := 124%N.
Definition is_ascii_alphanumeric (c : char) : bool :=
  (is_ascii_digit c || (65 <=? c) && (c <=? 90) || (97 <=? c) && (c <=? 122))%N.

Definition is_match_all_matcher (matcher : str) : bool := bool_decide (matcher = []) || bool_decide (matcher = lit "*").
Definition is_exact_matcher (matcher : str) : bool :=
  forallb (λ ch, is_ascii_alphanumeric ch || bool_decide (ch = UNDERSCORE) || bool_decide (ch = PIPE)) matcher.
Definition matcher_pattern_for_event (e : HookEventName) (matcher : option str) : option str :=
  match e with PreToolUse | PermissionRequest | PostToolUse | SessionStart => matcher | UserPromptSubmit | Stop => None end.
(** The name of the tool comes first. *)
Definition matcher_inputs (tool_name : str) (matcher_aliases : list str) : list str := tool_name :: matcher_aliases.

(** [regex::Regex]: the error of a pattern that does not compile; for one that
    does, whether it matches somewhere in a text. *)
Class Regex : Type := regex_new : str → str + (str → bool).

Section Matching.
Context `{Regex}.

Definition validate_matcher_pattern (matcher : str) : str + unit :=
  if is_match_all_matcher matcher || is_exact_matcher matcher then inr ()
  else match regex_new matcher with inl err => inl err | inr _ => inr () end.
Definition matches_matcher (matcher input : option str) : bool :=
  match matcher with
  | None => true
  | Some matcher =>
      if is_match_all_matcher matcher then true
      else if is_exact_matcher matcher then
        match input with Some input => bool_decide (input ∈ split_on PIPE matcher) | None => false end
      else
        match input, regex_new matcher with Some input, inr is_match => is_match input | _, _ => false end
  end.

(** ** Selecting the handlers of an event *)

Definition handler_matches (e : HookEventName) (matcher_inputs : list str) (handler : ConfiguredHandler) : bool :=
  match e with
  | PreToolUse | PermissionRequest | PostToolUse | SessionStart =>
      if bool_decide (matcher_inputs = []) then matches_matcher (matcher handler) None
      else existsb (λ input, matches_matcher (matcher handler) (Some input)) matcher_inputs
  | UserPromptSubmit | Stop => true
  end.
Definition selected (e : HookEventName) (matcher_inputs : list str) (handler : ConfiguredHandler) : bool :=
  bool_decide (event_name handler = e) && handler_matches e matcher_inputs handler.
Definition select_handlers_for_matcher_inputs (handlers : list ConfiguredHandler) (e : HookEventName)
    (matcher_inputs : list str) : list ConfiguredHandler :=
  List.filter (selected e matcher_inputs) handlers.
Definition select_handlers (handlers : list ConfiguredHandler) (e : HookEventName) (matcher_input : option str)
    : list ConfiguredHandler :=
  select_handlers_for_matcher_inputs handlers e (match matcher_input with Some input => [input] | None => [] end).

End Matching.

(** ** Running the command of a handler *)

(** What the process of a handler does: it cannot be started; writing its input
    fails, whatever it does then; waiting for it fails; it is still running when
    the time of the handler is over; it ends, by a signal when it has no code. *)
Inductive ProcessOutcome : Type :=
| SpawnFailed (err : str)
| StdinFailed (err : str)
| WaitFailed (err : str)
| TimedOut
| Exited (code : option Z) (out err : str).

Record CommandRunResult : Type := { exit_code : option Z; stdout : str; stderr : str; error : option str }.
Definition not_run (error : str) : CommandRunResult := {| exit_code := None; stdout := []; stderr := []; error := Some error |}.
Definition run_command (handler : ConfiguredHandler) (outcome : ProcessOutcome) : CommandRunResult :=
  match outcome with
  | SpawnFailed err => not_run err
  | StdinFailed err => not_run (lit "failed to write hook stdin: " ++ err)
  | WaitFailed err => not_run err
  | TimedOut => not_run (lit "hook timed out after " ++ show_int (timeout_sec handler) ++ lit "s")
  | Exited code out err => {| exit_code := code; stdout := out; stderr := err; error := None |}
  end.

(** The processes of an event run at the same time: a schedule lists, in the
    order in which they happen, which process comes to which end.  [join_all]
    waits for all of them. *)
Definition schedule : Type := list (nat * ProcessOutcome).
Definition finish {A} (slots : list (option A)) (ended : nat * A) : list (option A) :=
  match slots !! ended.1 with Some None => <[ended.1 := Some ended.2]> slots | _ => slots end.
Definition join_all {A} (n : nat) (ends : list (nat * A)) : option (list A) := mapM id (foldl finish (replicate n None) ends).

Definition scope_for_event (e : HookEventName) : HookScope :=
  match e with SessionStart => Thread | PreToolUse | PermissionRequest | PostToolUse | UserPromptSubmit | Stop => Turn end.
Definition running_summary (handler : ConfiguredHandler) : HookRunSummary := {|
  run_summary_id := run_id handler; run_event_name := event_name handler; run_scope := scope_for_event (event_name handler);
  run_source_path := source_path handler; run_source := source handler; run_display_order := display_order handler;
  run_status := Running; run_status_message := status_message handler; run_entries := [] |}.
Definition completed_summary (handler : ConfiguredHandler) (status : HookRunStatus) (entries : list HookOutputEntry)
    : HookRunSummary := {|
  run_summary_id := run_id handler; run_event_name := event_name handler; run_scope := scope_for_event (event_name handler);
  run_source_path := source_path handler; run_source := source handler; run_display_order := display_order handler;
  run_status := status; run_status_message := status_message handler; run_entries := entries |}.

(** What the result of a handler means for an event. *)
Definition Parsed (D : Type) : Type := HookRunStatus * list HookOutputEntry * D.
Record ParsedHandler (D : Type) : Type := { completed : HookCompletedEvent; data : D }.
Arguments completed {D}. Arguments data {D}.
Definition parsed_handler {D} (parse : CommandRunResult → Parsed D) (turn_id : option str) (handler : ConfiguredHandler)
    (result : CommandRunResult) : ParsedHandler D :=
  let '(status, entries, d) := parse result in
  {| completed := {| completed_turn_id := turn_id; completed_run := completed_summary handler status entries |}; data := d |}.
Definition execute_handlers {D} (handlers : list ConfiguredHandler) (ends : schedule) (turn_id : option str)
    (parse : ConfiguredHandler → CommandRunResult → option str → ParsedHandler D) : option (list (ParsedHandler D)) :=
  outcomes ← join_all (length handlers) ends;
  let results := zip_with run_command handlers outcomes in
  Some (zip_with (λ handler result, parse handler result turn_id) handlers results).

(** ** What the events share *)

Definition join_text_chunks (chunks : list str) : option str :=
  if bool_decide (chunks = []) then None else Some (join [NL; NL] chunks).
Definition trimmed_non_empty (text : str) : option str :=
  let trimmed := trim text in
  if bool_decide (trimmed = []) then None else Some trimmed.
Definition flatten_additional_contexts (additional_contexts : list (list str)) : list str := concat additional_contexts.
Definition hook_run_for_tool_use (run : HookRunSummary) (tool_use_id : str) : HookRunSummary := {|
  run_summary_id := run_summary_id run ++ lit ":" ++ tool_use_id; run_event_name := run_event_name run;
  run_scope := run_scope run; run_source_path := run_source_path run; run_source := run_source run;
  run_display_order := run_display_order run; run_status := run_status run;
  run_status_message := run_status_message run; run_entries := run_entries run |}.
Definition hook_completed_for_tool_use (event : HookCompletedEvent) (tool_use_id : str) : HookCompletedEvent := {|
  completed_turn_id := completed_turn_id event; completed_run := hook_run_for_tool_use (completed_run event) tool_use_id |}.
Definition serialization_failure_hook_events (handlers : list ConfiguredHandler) (turn_id : option str) (error_message : str)
    : list HookCompletedEvent :=
  (λ handler, {| completed_turn_id := turn_id;
                 completed_run := completed_summary handler Failed [{| entry_kind := ErrorEntry; entry_text := error_message |}] |})
    <$> handlers.
Definition serialization_failure_hook_events_for_tool_use (handlers : list ConfiguredHandler) (turn_id : option str)
    (error_message tool_use_id : str) : list HookCompletedEvent :=
  (λ event, hook_completed_for_tool_use event tool_use_id)
    <$> serialization_failure_hook_events handlers turn_id error_message.

(** [Iterator::find_map]. *)
Fixpoint find_map {A B} (f : A → option B) (l : list A) : option B :=
  match l with [] => None | a :: l => match f a with Some b => Some b | None => find_map f l end end.

End Hooks.
