(* ===== verification/HookEvents.v ===== *)
(** * The events of hooks

    Models [hooks/src/events]: for each event, the request, the handlers that are
    previewed and run for it, what the result of one handler means and what all of
    them together mean.  The JSON that the processes read is a parameter. *)
From S2P Require Import Prelude Str Io HookOutput Hooks.
Import HookOutput Hooks.

Module HookEvents.

Inductive SessionStartSource : Type := Startup | Resume | Clear.
Definition session_start_source (s : SessionStartSource) : str :=
  lit match s with Startup => "startup" | Resume => "resume" | Clear => "clear" end.

Section Types.
(** JSON values. *)
Variable Value : Type.

(** What every request has. *)
Record HookContext : Type := {
  session_id : str;
  cwd : str;
  transcript_path : option str;
  model : str;
  permission_mode : str;
}.
Record PreToolUseRequest : Type := {
  pre_context_of : HookContext; pre_turn_id : str; pre_tool_name : str; pre_matcher_aliases : list str;
  pre_tool_use_id : str; pre_tool_input : Value }.
Record PermissionRequestRequest : Type := {
  permission_context_of : HookContext; permission_turn_id : str; permission_tool_name : str;
  permission_matcher_aliases : list str; run_id_suffix : str; permission_tool_input : Value }.
Record PostToolUseRequest : Type := {
  post_context_of : HookContext; post_turn_id : str; post_tool_name : str; post_matcher_aliases : list str;
  post_tool_use_id : str; post_tool_input : Value; post_tool_response : Value }.
Record SessionStartRequest : Type := { start_context_of : HookContext; start_source : SessionStartSource }.
Record UserPromptSubmitRequest : Type := { submit_context_of : HookContext; submit_turn_id : str; prompt : str }.
Record StopRequest : Type := {
  stop_context_of : HookContext; stop_turn_id : str; stop_hook_active : bool; last_assistant_message : option str }.

(** What a process reads, with the name of its event. *)
Inductive CommandInput : Type :=
| PreToolUseCommandInput (context : HookContext) (turn_id tool_name : str) (tool_input : Value) (tool_use_id : str)
| PermissionRequestCommandInput (context : HookContext) (turn_id tool_name : str) (tool_input : Value)
| PostToolUseCommandInput (context : HookContext) (turn_id tool_name : str) (tool_input tool_response : Value) (tool_use_id : str)
| SessionStartCommandInput (context : HookContext) (source : str)
| UserPromptSubmitCommandInput (context : HookContext) (turn_id prompt : str)
| StopCommandInput (context : HookContext) (turn_id : str) (stop_hook_active : bool) (last_assistant_message : option str).

(** [serde_json::to_string]: an error, or a text. *)
Class ToJson : Type := to_json : CommandInput → str + str.
End Types.
Arguments pre_context_of {Value}. Arguments pre_turn_id {Value}. Arguments pre_tool_name {Value}.
Arguments pre_matcher_aliases {Value}. Arguments pre_tool_use_id {Value}. Arguments pre_tool_input {Value}.
Arguments permission_context_of {Value}. Arguments permission_turn_id {Value}. Arguments permission_tool_name {Value}.
Arguments permission_matcher_aliases {Value}. Arguments run_id_suffix {Value}. Arguments permission_tool_input {Value}.
Arguments post_context_of {Value}. Arguments post_turn_id {Value}. Arguments post_tool_name {Value}.
Arguments post_matcher_aliases {Value}. Arguments post_tool_use_id {Value}. Arguments post_tool_input {Value}.
Arguments post_tool_response {Value}. Arguments PreToolUseCommandInput {Value}. Arguments PermissionRequestCommandInput {Value}.
Arguments PostToolUseCommandInput {Value}. Arguments SessionStartCommandInput {Value}.
Arguments UserPromptSubmitCommandInput {Value}. Arguments StopCommandInput {Value}. Arguments to_json {Value ToJson}.

(** Outcomes. *)
Record PreToolUseOutcome : Type := {
  pre_events : list HookCompletedEvent; pre_outcome_should_block : bool; pre_outcome_block_reason : option str }.
Record PermissionRequestOutcome : Type := {
  permission_events : list HookCompletedEvent; permission_decision_of : option PermissionRequestDecision }.
Record PostToolUseOutcome : Type := {
  post_events : list HookCompletedEvent; post_should_stop : bool; post_stop_reason : option str;
  post_additional_contexts : list str; feedback_message : option str }.
(** [SessionStartOutcome] and [UserPromptSubmitOutcome]. *)
Record ContextOutcome : Type := {
  context_events : list HookCompletedEvent; context_should_stop : bool; context_stop_reason : option str;
  context_additional_contexts : list str }.
Record HookPromptFragment : Type := { fragment_text : str; hook_run_id : str }.
Record StopOutcome : Type := {
  stop_events : list HookCompletedEvent; stop_outcome_should_stop : bool; stop_outcome_stop_reason : option str;
  stop_outcome_should_block : bool; stop_outcome_block_reason : option str;
  stop_outcome_continuation_fragments : list HookPromptFragment }.

(** ** The result of one handler *)

Definition warning_entry (system_message : option str) : list HookOutputEntry :=
  match system_message with Some text => [{| entry_kind := WarningEntry; entry_text := text |}] | None => [] end.
Definition error_entry (text : str) : HookOutputEntry := {| entry_kind := ErrorEntry; entry_text := text |}.
Definition feedback_entry (text : str) : HookOutputEntry := {| entry_kind := FeedbackEntry; entry_text := text |}.
Definition context_entry (text : str) : HookOutputEntry := {| entry_kind := ContextEntry; entry_text := text |}.
Definition stop_entry (text : str) : HookOutputEntry := {| entry_kind := StopEntry; entry_text := text |}.

Definition looks_like_json (trimmed_stdout : str) : bool :=
  starts_with trimmed_stdout (lit "{") || starts_with trimmed_stdout (lit "[").

(** The same for every event: a command that did not run or ended in another way
    than the event knows has failed and asks for nothing, one that ends well
    without output is completed. *)
Definition by_exit {D} (nothing : D) (on_success : str → Parsed D) (on_two : option (Parsed D)) (run_result : CommandRunResult)
    : Parsed D :=
  let failed text := (Failed, [error_entry text], nothing) in
  match error run_result with
  | Some error => failed error
  | None =>
      match exit_code run_result with
      | Some code =>
          if bool_decide (code = 0%Z) then
            if bool_decide (trim (stdout run_result) = []) then (Completed, [], nothing) else on_success (stdout run_result)
          else
            match on_two with
            | Some parsed => if bool_decide (code = 2%Z) then parsed else failed (lit "hook exited with code " ++ show_int code)
            | None => failed (lit "hook exited with code " ++ show_int code)
            end
      | None => failed (lit "hook exited without a status code")
      end
  end.

Section Events.
Context {Value : Type} `{HookSerde Value} `{Regex} `{ToJson Value}.

(** ** [pre_tool_use] *)

Record PreToolUseHandlerData : Type := { pre_handler_blocks : bool; pre_handler_reason : option str }.
Definition pre_nothing : PreToolUseHandlerData := {| pre_handler_blocks := false; pre_handler_reason := None |}.
Definition pre_blocked (reason : str) : PreToolUseHandlerData := {| pre_handler_blocks := true; pre_handler_reason := Some reason |}.
Definition pre_tool_use_result (run_result : CommandRunResult) : Parsed PreToolUseHandlerData :=
  by_exit pre_nothing
    (λ out,
      match parse_pre_tool_use out with
      | Some parsed =>
          let entries := warning_entry (system_message (pre_output parsed)) in
          match pre_invalid_reason parsed with
          | Some invalid_reason => (Failed, entries ++ [error_entry invalid_reason], pre_nothing)
          | None =>
              match pre_block_reason parsed with
              | Some reason => (Blocked, entries ++ [feedback_entry reason], pre_blocked reason)
              | None => (Completed, entries, pre_nothing)
              end
          end
      | None =>
          if looks_like_json (trim out) then
            (Failed, [error_entry (lit "hook returned invalid pre-tool-use JSON output")], pre_nothing)
          else (Completed, [], pre_nothing)
      end)
    (Some match trimmed_non_empty (stderr run_result) with
          | Some reason => (Blocked, [feedback_entry reason], pre_blocked reason)
          | None => (Failed, [error_entry (lit "PreToolUse hook exited with code 2 but did not write a blocking reason to stderr")],
                     pre_nothing)
          end)
    run_result.
Definition parse_pre_tool_use_completed (handler : ConfiguredHandler) (run_result : CommandRunResult) (turn_id : option str)
    : ParsedHandler PreToolUseHandlerData := parsed_handler pre_tool_use_result turn_id handler run_result.

Definition preview_pre_tool_use (handlers : list ConfiguredHandler) (request : PreToolUseRequest Value) : list HookRunSummary :=
  (λ handler, hook_run_for_tool_use (running_summary handler) (pre_tool_use_id request))
    <$> select_handlers_for_matcher_inputs handlers PreToolUse (matcher_inputs (pre_tool_name request) (pre_matcher_aliases request)).
Definition pre_tool_use_input (request : PreToolUseRequest Value) : CommandInput Value :=
  PreToolUseCommandInput (pre_context_of request) (pre_turn_id request) (pre_tool_name request) (pre_tool_input request)
    (pre_tool_use_id request).
(** [None]: some process has not ended. *)
Definition run_pre_tool_use (handlers : list ConfiguredHandler) (ends : schedule) (request : PreToolUseRequest Value)
    : option PreToolUseOutcome :=
  let matched := select_handlers_for_matcher_inputs handlers PreToolUse
                   (matcher_inputs (pre_tool_name request) (pre_matcher_aliases request)) in
  if bool_decide (matched = []) then
    Some {| pre_events := []; pre_outcome_should_block := false; pre_outcome_block_reason := None |}
  else
    match to_json (pre_tool_use_input request) with
    | inl error =>
        Some {| pre_events := serialization_failure_hook_events_for_tool_use matched (Some (pre_turn_id request))
                                (lit "failed to serialize pre tool use hook input: " ++ error) (pre_tool_use_id request);
                pre_outcome_should_block := false; pre_outcome_block_reason := None |}
    | inr _ =>
        results ← execute_handlers matched ends (Some (pre_turn_id request)) parse_pre_tool_use_completed;
        Some {| pre_events := (λ result, hook_completed_for_tool_use (completed result) (pre_tool_use_id request)) <$> results;
                pre_outcome_should_block := existsb (λ result, pre_handler_blocks (data result)) results;
                pre_outcome_block_reason := find_map (λ result, pre_handler_reason (data result)) results |}
    end.

(** ** [permission_request] *)

Definition permission_result (run_result : CommandRunResult) : Parsed (option PermissionRequestDecision) :=
  by_exit None
    (λ out,
      match parse_permission_request out with
      | Some parsed =>
          let entries := warning_entry (system_message (permission_output parsed)) in
          match permission_invalid_reason parsed with
          | Some invalid_reason => (Failed, entries ++ [error_entry invalid_reason], None)
          | None =>
              match decision parsed with
              | Some Allow => (Completed, entries, Some Allow)
              | Some (Deny message) => (Blocked, entries ++ [feedback_entry message], Some (Deny message))
              | None => (Completed, entries, None)
              end
          end
      | None =>
          if looks_like_json (trim out) then
            (Failed, [error_entry (lit "hook returned invalid permission-request JSON output")], None)
          else (Completed, [], None)
      end)
    (Some match trimmed_non_empty (stderr run_result) with
          | Some message => (Blocked, [feedback_entry message], Some (Deny message))
          | None => (Failed, [error_entry (lit "PermissionRequest hook exited with code 2 but did not write a denial reason to stderr")],
                     None)
          end)
    run_result.
Definition parse_permission_completed (handler : ConfiguredHandler) (run_result : CommandRunResult) (turn_id : option str)
    : ParsedHandler (option PermissionRequestDecision) := parsed_handler permission_result turn_id handler run_result.

Fixpoint resolve_loop (resolved_allow : option PermissionRequestDecision) (decisions : list PermissionRequestDecision)
    : option PermissionRequestDecision :=
  match decisions with
  | [] => resolved_allow
  | Allow :: decisions => resolve_loop (Some Allow) decisions
  | Deny message :: _ => Some (Deny message)
  end.
Definition resolve_permission_request_decision : list PermissionRequestDecision → option PermissionRequestDecision :=
  resolve_loop None.

Definition preview_permission_request (handlers : list ConfiguredHandler) (request : PermissionRequestRequest Value)
    : list HookRunSummary :=
  (λ handler, hook_run_for_tool_use (running_summary handler) (run_id_suffix request))
    <$> select_handlers_for_matcher_inputs handlers PermissionRequest
          (matcher_inputs (permission_tool_name request) (permission_matcher_aliases request)).
Definition permission_request_input (request : PermissionRequestRequest Value) : CommandInput Value :=
  PermissionRequestCommandInput (permission_context_of request) (permission_turn_id request) (permission_tool_name request)
    (permission_tool_input request).
Definition run_permission_request (handlers : list ConfiguredHandler) (ends : schedule) (request : PermissionRequestRequest Value)
    : option PermissionRequestOutcome :=
  let matched := select_handlers_for_matcher_inputs handlers PermissionRequest
                   (matcher_inputs (permission_tool_name request) (permission_matcher_aliases request)) in
  if bool_decide (matched = []) then Some {| permission_events := []; permission_decision_of := None |}
  else
    match to_json (permission_request_input request) with
    | inl error =>
        Some {| permission_events := serialization_failure_hook_events_for_tool_use matched (Some (permission_turn_id request))
                                       (lit "failed to serialize permission request hook input: " ++ error) (run_id_suffix request);
                permission_decision_of := None |}
    | inr _ =>
        results ← execute_handlers matched ends (Some (permission_turn_id request)) parse_permission_completed;
        Some {| permission_events := (λ result, hook_completed_for_tool_use (completed result) (run_id_suffix request)) <$> results;
                permission_decision_of := resolve_permission_request_decision (omap data results) |}
    end.
(** ** [post_tool_use] *)

Record PostToolUseHandlerData : Type := {
  post_handler_stops : bool; post_handler_stop_reason : option str; post_handler_contexts : list str;
  post_handler_feedback : list str }.
Definition post_nothing : PostToolUseHandlerData := {|
  post_handler_stops := false; post_handler_stop_reason := None; post_handler_contexts := []; post_handler_feedback := [] |}.
Definition post_feedback (contexts feedback : list str) : PostToolUseHandlerData := {|
  post_handler_stops := false; post_handler_stop_reason := None; post_handler_contexts := contexts;
  post_handler_feedback := feedback |}.
Definition post_tool_use_result (run_result : CommandRunResult) : Parsed PostToolUseHandlerData :=
  by_exit post_nothing
    (λ out,
      match parse_post_tool_use out with
      | Some parsed =>
          let universal := post_output parsed in
          let contexts :=
            if bool_decide (post_invalid_reason parsed = None) && bool_decide (post_invalid_block_reason parsed = None) then
              option_list (post_context parsed) else [] in
          let entries := warning_entry (system_message universal) ++ (context_entry <$> contexts) in
          if negb (continue_processing universal) then
            let stop_text := default (lit "PostToolUse hook stopped execution") (universal_stop_reason universal) in
            (Stopped, entries ++ [stop_entry stop_text],
             {| post_handler_stops := true; post_handler_stop_reason := universal_stop_reason universal;
                post_handler_contexts := contexts;
                post_handler_feedback := [default stop_text (post_output_reason parsed ≫= trimmed_non_empty)] |})
          else
            match post_invalid_reason parsed, post_invalid_block_reason parsed with
            | Some invalid_reason, _ => (Failed, entries ++ [error_entry invalid_reason], post_feedback contexts [])
            | None, Some invalid_block_reason => (Failed, entries ++ [error_entry invalid_block_reason], post_feedback contexts [])
            | None, None =>
                if post_should_block parsed then
                  let reasons := option_list (post_output_reason parsed) in
                  (Blocked, entries ++ (feedback_entry <$> reasons), post_feedback contexts reasons)
                else (Completed, entries, post_feedback contexts [])
            end
      | None =>
          if looks_like_json (trim out) then
            (Failed, [error_entry (lit "hook returned invalid post-tool-use JSON output")], post_nothing)
          else (Completed, [], post_nothing)
      end)
    (Some match trimmed_non_empty (stderr run_result) with
          | Some reason => (Completed, [feedback_entry reason], post_feedback [] [reason])
          | None => (Failed, [error_entry (lit "PostToolUse hook exited with code 2 but did not write feedback to stderr")],
                     post_nothing)
          end)
    run_result.
Definition parse_post_tool_use_completed (handler : ConfiguredHandler) (run_result : CommandRunResult) (turn_id : option str)
    : ParsedHandler PostToolUseHandlerData := parsed_handler post_tool_use_result turn_id handler run_result.

Definition preview_post_tool_use (handlers : list ConfiguredHandler) (request : PostToolUseRequest Value) : list HookRunSummary :=
  (λ handler, hook_run_for_tool_use (running_summary handler) (post_tool_use_id request))
    <$> select_handlers_for_matcher_inputs handlers PostToolUse (matcher_inputs (post_tool_name request) (post_matcher_aliases request)).
Definition post_tool_use_input (request : PostToolUseRequest Value) : CommandInput Value :=
  PostToolUseCommandInput (post_context_of request) (post_turn_id request) (post_tool_name request) (post_tool_input request)
    (post_tool_response request) (post_tool_use_id request).
Definition run_post_tool_use (handlers : list ConfiguredHandler) (ends : schedule) (request : PostToolUseRequest Value)
    : option PostToolUseOutcome :=
  let nothing events := {| post_events := events; post_should_stop := false; post_stop_reason := None;
                           post_additional_contexts := []; feedback_message := None |} in
  let matched := select_handlers_for_matcher_inputs handlers PostToolUse
                   (matcher_inputs (post_tool_name request) (post_matcher_aliases request)) in
  if bool_decide (matched = []) then Some (nothing [])
  else
    match to_json (post_tool_use_input request) with
    | inl error =>
        Some (nothing (serialization_failure_hook_events_for_tool_use matched (Some (post_turn_id request))
                         (lit "failed to serialize post tool use hook input: " ++ error) (post_tool_use_id request)))
    | inr _ =>
        results ← execute_handlers matched ends (Some (post_turn_id request)) parse_post_tool_use_completed;
        Some {| post_events := (λ result, hook_completed_for_tool_use (completed result) (post_tool_use_id request)) <$> results;
                post_should_stop := existsb (λ result, post_handler_stops (data result)) results;
                post_stop_reason := find_map (λ result, post_handler_stop_reason (data result)) results;
                post_additional_contexts :=
                  flatten_additional_contexts ((λ result, post_handler_contexts (data result)) <$> results);
                feedback_message := join_text_chunks (concat ((λ result, post_handler_feedback (data result)) <$> results)) |}
    end.

(** ** [session_start] and [user_prompt_submit] *)

(** [SessionStartHandlerData] and [UserPromptSubmitHandlerData]. *)
Record ContextHandlerData : Type := {
  context_handler_stops : bool; context_handler_stop_reason : option str; context_handler_contexts : list str }.
Definition context_only (contexts : list str) : ContextHandlerData := {|
  context_handler_stops := false; context_handler_stop_reason := None; context_handler_contexts := contexts |}.
Definition context_stop (stop_reason : option str) (contexts : list str) : ContextHandlerData := {|
  context_handler_stops := true; context_handler_stop_reason := stop_reason; context_handler_contexts := contexts |}.
(** Output that is no JSON is context for the model. *)
Definition plain_context (what : string) (out : str) : Parsed ContextHandlerData :=
  if looks_like_json (trim out) then
    (Failed, [error_entry (lit "hook returned invalid " ++ lit what ++ lit " JSON output")], context_only [])
  else (Completed, [context_entry (trim out)], context_only [trim out]).

Definition session_start_result (run_result : CommandRunResult) : Parsed ContextHandlerData :=
  by_exit (context_only [])
    (λ out,
      match parse_session_start out with
      | Some parsed =>
          let universal := start_output parsed in
          let contexts := option_list (start_context parsed) in
          let entries := warning_entry (system_message universal) ++ (context_entry <$> contexts) in
          if negb (continue_processing universal) then
            (Stopped, entries ++ (stop_entry <$> option_list (universal_stop_reason universal)),
             context_stop (universal_stop_reason universal) contexts)
          else (Completed, entries, context_only contexts)
      | None => plain_context "session start" out
      end)
    None run_result.
Definition parse_session_start_completed (handler : ConfiguredHandler) (run_result : CommandRunResult) (turn_id : option str)
    : ParsedHandler ContextHandlerData := parsed_handler session_start_result turn_id handler run_result.

Definition user_prompt_submit_result (run_result : CommandRunResult) : Parsed ContextHandlerData :=
  by_exit (context_only [])
    (λ out,
      match parse_user_prompt_submit out with
      | Some parsed =>
          let universal := submit_output parsed in
          let contexts :=
            if bool_decide (submit_invalid_block_reason parsed = None) then option_list (submit_context parsed) else [] in
          let entries := warning_entry (system_message universal) ++ (context_entry <$> contexts) in
          if negb (continue_processing universal) then
            (Stopped, entries ++ (stop_entry <$> option_list (universal_stop_reason universal)),
             context_stop (universal_stop_reason universal) contexts)
          else
            match submit_invalid_block_reason parsed with
            | Some invalid_block_reason => (Failed, entries ++ [error_entry invalid_block_reason], context_only contexts)
            | None =>
                if submit_should_block parsed then
                  (Blocked, entries ++ (feedback_entry <$> option_list (submit_output_reason parsed)),
                   context_stop (submit_output_reason parsed) contexts)
                else (Completed, entries, context_only contexts)
            end
      | None => plain_context "user prompt submit" out
      end)
    (Some match trimmed_non_empty (stderr run_result) with
          | Some reason => (Blocked, [feedback_entry reason], context_stop (Some reason) [])
          | None => (Failed, [error_entry (lit "UserPromptSubmit hook exited with code 2 but did not write a blocking reason to stderr")],
                     context_only [])
          end)
    run_result.
Definition parse_user_prompt_submit_completed (handler : ConfiguredHandler) (run_result : CommandRunResult) (turn_id : option str)
    : ParsedHandler ContextHandlerData := parsed_handler user_prompt_submit_result turn_id handler run_result.

Definition no_context (events : list HookCompletedEvent) : ContextOutcome := {|
  context_events := events; context_should_stop := false; context_stop_reason := None; context_additional_contexts := [] |}.
Definition context_outcome (results : list (ParsedHandler ContextHandlerData)) : ContextOutcome := {|
  context_events := completed <$> results;
  context_should_stop := existsb (λ result, context_handler_stops (data result)) results;
  context_stop_reason := find_map (λ result, context_handler_stop_reason (data result)) results;
  context_additional_contexts := flatten_additional_contexts ((λ result, context_handler_contexts (data result)) <$> results) |}.

Definition preview_session_start (handlers : list ConfiguredHandler) (request : SessionStartRequest) : list HookRunSummary :=
  running_summary <$> select_handlers handlers SessionStart (Some (session_start_source (start_source request))).
Definition session_start_input (request : SessionStartRequest) : CommandInput Value :=
  SessionStartCommandInput (start_context_of request) (session_start_source (start_source request)).
Definition run_session_start (handlers : list ConfiguredHandler) (ends : schedule) (request : SessionStartRequest)
    (turn_id : option str) : option ContextOutcome :=
  let matched := select_handlers handlers SessionStart (Some (session_start_source (start_source request))) in
  if bool_decide (matched = []) then Some (no_context [])
  else
    match to_json (session_start_input request) with
    | inl error =>
        Some (no_context (serialization_failure_hook_events matched turn_id
                            (lit "failed to serialize session start hook input: " ++ error)))
    | inr _ => context_outcome <$> execute_handlers matched ends turn_id parse_session_start_completed
    end.

Definition preview_user_prompt_submit (handlers : list ConfiguredHandler) (request : UserPromptSubmitRequest) : list HookRunSummary :=
  running_summary <$> select_handlers handlers UserPromptSubmit None.
Definition user_prompt_submit_input (request : UserPromptSubmitRequest) : CommandInput Value :=
  UserPromptSubmitCommandInput (submit_context_of request) (submit_turn_id request) (prompt request).
Definition run_user_prompt_submit (handlers : list ConfiguredHandler) (ends : schedule) (request : UserPromptSubmitRequest)
    : option ContextOutcome :=
  let matched := select_handlers handlers UserPromptSubmit None in
  if bool_decide (matched = []) then Some (no_context [])
  else
    match to_json (user_prompt_submit_input request) with
    | inl error =>
        Some (no_context (serialization_failure_hook_events matched (Some (submit_turn_id request))
                            (lit "failed to serialize user prompt submit hook input: " ++ error)))
    | inr _ => context_outcome <$> execute_handlers matched ends (Some (submit_turn_id request)) parse_user_prompt_submit_completed
    end.

(** ** [stop] *)

Record StopHandlerData : Type := {
  stops : bool; stop_reason : option str; blocks : bool; block_reason : option str;
  continuation_fragments : list HookPromptFragment }.
(** The fragments are added with the id of the run. *)
Definition stop_data (stops : bool) (stop_reason block_reason : option str) : StopHandlerData := {|
  stops := stops; stop_reason := stop_reason; blocks := bool_decide (is_Some block_reason); block_reason := block_reason;
  continuation_fragments := [] |}.
Definition stop_nothing : StopHandlerData := stop_data false None None.
Definition stop_result (run_result : CommandRunResult) : Parsed StopHandlerData :=
  by_exit stop_nothing
    (λ out,
      match parse_stop out with
      | Some parsed =>
          let universal := stop_output parsed in
          let entries := warning_entry (system_message universal) in
          if negb (continue_processing universal) then
            (Stopped, entries ++ (stop_entry <$> option_list (universal_stop_reason universal)),
             stop_data true (universal_stop_reason universal) None)
          else
            match stop_invalid_block_reason parsed with
            | Some invalid_block_reason => (Failed, entries ++ [error_entry invalid_block_reason], stop_nothing)
            | None =>
                if stop_should_block parsed then
                  match stop_output_reason parsed ≫= trimmed_non_empty with
                  | Some reason => (Blocked, entries ++ [feedback_entry reason], stop_data false None (Some reason))
                  | None => (Failed, entries ++ [error_entry (lit "Stop hook returned decision:block without a non-empty reason")],
                             stop_nothing)
                  end
                else (Completed, entries, stop_nothing)
            end
      | None => (Failed, [error_entry (lit "hook returned invalid stop hook JSON output")], stop_nothing)
      end)
    (Some match trimmed_non_empty (stderr run_result) with
          | Some reason => (Blocked, [feedback_entry reason], stop_data false None (Some reason))
          | None => (Failed, [error_entry (lit "Stop hook exited with code 2 but did not write a continuation prompt to stderr")],
                     stop_nothing)
          end)
    run_result.
Definition parse_stop_completed (handler : ConfiguredHandler) (run_result : CommandRunResult) (turn_id : option str)
    : ParsedHandler StopHandlerData :=
  let parsed := parsed_handler stop_result turn_id handler run_result in
  let d := data parsed in
  {| completed := completed parsed;
     data := {| stops := stops d; stop_reason := stop_reason d; blocks := blocks d; block_reason := block_reason d;
                continuation_fragments :=
                  (λ prompt, {| fragment_text := prompt; hook_run_id := run_summary_id (completed_run (completed parsed)) |})
                    <$> option_list (block_reason d) |} |}.

Definition aggregate_results (results : list StopHandlerData) : StopHandlerData :=
  let should_stop := existsb stops results in
  let should_block := negb should_stop && existsb blocks results in
  {| stops := should_stop; stop_reason := find_map stop_reason results; blocks := should_block;
     block_reason := if should_block then join_text_chunks (omap block_reason results) else None;
     continuation_fragments := if should_block then concat (continuation_fragments <$> List.filter blocks results) else [] |}.

Definition preview_stop (handlers : list ConfiguredHandler) (request : StopRequest) : list HookRunSummary :=
  running_summary <$> select_handlers handlers Stop None.
Definition stop_input (request : StopRequest) : CommandInput Value :=
  StopCommandInput (stop_context_of request) (stop_turn_id request) (stop_hook_active request) (last_assistant_message request).
Definition run_stop (handlers : list ConfiguredHandler) (ends : schedule) (request : StopRequest) : option StopOutcome :=
  let nothing events := {| stop_events := events; stop_outcome_should_stop := false; stop_outcome_stop_reason := None;
                           stop_outcome_should_block := false; stop_outcome_block_reason := None;
                           stop_outcome_continuation_fragments := [] |} in
  let matched := select_handlers handlers Stop None in
  if bool_decide (matched = []) then Some (nothing [])
  else
    match to_json (stop_input request) with
    | inl error =>
        Some (nothing (serialization_failure_hook_events matched (Some (stop_turn_id request))
                         (lit "failed to serialize stop hook input: " ++ error)))
    | inr _ =>
        results ← execute_handlers matched ends (Some (stop_turn_id request)) parse_stop_completed;
        let aggregate := aggregate_results (data <$> results) in
        Some {| stop_events := completed <$> results; stop_outcome_should_stop := stops aggregate;
                stop_outcome_stop_reason := stop_reason aggregate; stop_outcome_should_block := blocks aggregate;
                stop_outcome_block_reason := block_reason aggregate;
                stop_outcome_continuation_fragments := continuation_fragments aggregate |}
    end.

End Events.
End HookEvents.
