(* ===== verification/HookDiscovery.v ===== *)
(** * Finding hooks

    Models [hooks/src/engine/discovery.rs] and what it uses of
    [config/src/hook_config.rs] and [config/src/state.rs]: the handlers of the
    managed requirements and of the layers of the configuration, from
    [hooks.json] and from the TOML of the layer, and the warnings about those that
    are skipped.  The file system and serde are parameters; a warning is a
    constructor, its text is left out. *)
From S2P Require Import Prelude Str Io Paths HookOutput Hooks.
Import Paths HookOutput Hooks.

Module HookDiscovery.

Inductive HookHandlerConfig : Type :=
| Command (command : str) (timeout_sec : option Z) (async : bool) (status_message : option str)
| Prompt
| Agent.
Record MatcherGroup : Type := { group_matcher : option str; group_hooks : list HookHandlerConfig }.
Record HookEventsToml : Type := {
  pre_tool_use : list MatcherGroup; permission_request : list MatcherGroup; post_tool_use : list MatcherGroup;
  session_start : list MatcherGroup; user_prompt_submit : list MatcherGroup; stop : list MatcherGroup }.
Definition into_matcher_groups (events : HookEventsToml) : list (HookEventName * list MatcherGroup) :=
  [(PreToolUse, pre_tool_use events); (PermissionRequest, permission_request events);
   (PostToolUse, post_tool_use events); (SessionStart, session_start events);
   (UserPromptSubmit, user_prompt_submit events); (Stop, stop events)].
Definition hook_events_is_empty (events : HookEventsToml) : bool :=
  bool_decide (length (pre_tool_use events) = 0) && bool_decide (length (permission_request events) = 0)
  && bool_decide (length (post_tool_use events) = 0) && bool_decide (length (session_start events) = 0)
  && bool_decide (length (user_prompt_submit events) = 0) && bool_decide (length (stop events) = 0).

Inductive ConfigLayerSource : Type :=
| LayerMdm (domain key : str)
| LayerSystem (file : str)
| LayerUser (file : str)
| LayerProject (dot_codex_folder : str)
| LayerSessionFlags
| LegacyManagedConfigTomlFromFile (file : str)
| LegacyManagedConfigTomlFromMdm.
Inductive RequirementSource : Type :=
| RequirementUnknown
| MdmManagedPreferences (domain key : str)
| CloudRequirements
| SystemRequirementsToml (file : str)
| RequirementLegacyFile (file : str)
| RequirementLegacyMdm.

(** Of a layer: its source, whether it is disabled, and the value of [hooks] in
    its configuration, when there is one, as serde reads it. *)
Record ConfigLayerEntry : Type := {
  name : ConfigLayerSource; is_disabled : bool; config_hooks : option (str + HookEventsToml) }.
Record ManagedHooks : Type := {
  managed_dir : option str; managed_events : HookEventsToml; requirement_source : option RequirementSource }.
(** Layers from the lowest precedence to the highest. *)
Record ConfigLayerStack : Type := { layers : list ConfigLayerEntry; managed_hooks : option ManagedHooks }.
Definition get_layers (stack : ConfigLayerStack) : list ConfigLayerEntry :=
  List.filter (λ layer, negb (is_disabled layer)) (layers stack).

Inductive Warning : Type :=
| NoManagedDir (source : option RequirementSource)
| ManagedDirNotAbsolute (source : option RequirementSource) (path : str)
| ManagedDirMissing (source : option RequirementSource) (path : str)
| ManagedDirNotDirectory (source : option RequirementSource) (path : str)
| FailedToRead (path err : str)
| FailedToParse (path err : str)
| FailedToParseToml (path err : str)
| BothRepresentations (json_path toml_path : str)
| InvalidMatcher (matcher path err : str)
| SkippedAsync (path : str)
| SkippedEmpty (path : str)
| SkippedPrompt (path : str)
| SkippedAgent (path : str).

(** What is built: handlers, warnings, and the next display order. *)
Record Discovery : Type := { handlers : list ConfiguredHandler; warnings : list Warning; next_order : Z }.
Definition nothing_found : Discovery := {| handlers := []; warnings := []; next_order := 0 |}.
Definition warn (w : Warning) (d : Discovery) : Discovery := {|
  handlers := handlers d; warnings := warnings d ++ [w]; next_order := next_order d |}.
Definition push (handler : ConfiguredHandler) (d : Discovery) : Discovery := {|
  handlers := handlers d ++ [handler]; warnings := warnings d; next_order := next_order d + 1 |}.

Record HookHandlerSource : Type := { source_file : str; source_is_managed : bool; source_kind : HookSource }.

Definition hook_source_for_config_layer_source (source : ConfigLayerSource) : HookSource :=
  match source with
  | LayerSystem _ => System | LayerUser _ => User | LayerProject _ => Project | LayerMdm _ _ => Mdm
  | LayerSessionFlags => SessionFlags | LegacyManagedConfigTomlFromFile _ => LegacyManagedConfigFile
  | LegacyManagedConfigTomlFromMdm => LegacyManagedConfigMdm
  end.
Definition hook_source_for_requirement_source (source : option RequirementSource) : HookSource :=
  match source with
  | Some (MdmManagedPreferences _ _) => Mdm
  | Some (SystemRequirementsToml _) => System
  | Some (RequirementLegacyFile _) => LegacyManagedConfigFile
  | Some RequirementLegacyMdm => LegacyManagedConfigMdm
  | Some CloudRequirements | Some RequirementUnknown | None => Unknown
  end.

Section Discover.
Context `{Regex}.
(** The home directory of the user, and the file system: whether something is
    at a path, whether it is a directory or a file, and its text. *)
Variable home_dir : option str.
Variable exists_ is_dir is_file : str → bool.
Variable read_to_string : str → str + str.
(** serde_json on the text of [hooks.json]. *)
Variable hooks_file_from_str : str → str + HookEventsToml.

(** ** The handlers of a group *)

Definition handler_of (src : HookHandlerSource) (e : HookEventName) (matcher : option str) (command : str)
    (timeout_sec : option Z) (status_message : option str) (order : Z) : ConfiguredHandler := {|
  event_name := e; is_managed := source_is_managed src; matcher := matcher; command := command;
  timeout_sec := (default 600 timeout_sec `max` 1)%Z; status_message := status_message; source_path := source_file src;
  source := source_kind src; display_order := order |}.
Definition append_handler (src : HookHandlerSource) (e : HookEventName) (matcher : option str) (d : Discovery)
    (handler : HookHandlerConfig) : Discovery :=
  match handler with
  | Command command timeout_sec async status_message =>
      if async then warn (SkippedAsync (source_file src)) d
      else if bool_decide (trim command = []) then warn (SkippedEmpty (source_file src)) d
      else push (handler_of src e matcher command timeout_sec status_message (next_order d)) d
  | Prompt => warn (SkippedPrompt (source_file src)) d
  | Agent => warn (SkippedAgent (source_file src)) d
  end.
Definition append_group_handlers (src : HookHandlerSource) (e : HookEventName) (matcher : option str)
    (group_handlers : list HookHandlerConfig) (d : Discovery) : Discovery :=
  match matcher ≫= (λ matcher, match validate_matcher_pattern matcher with inl err => Some (matcher, err) | inr _ => None end) with
  | Some (matcher, err) => warn (InvalidMatcher matcher (source_file src) err) d
  | None => foldl (append_handler src e matcher) d group_handlers
  end.
Definition append_matcher_groups (src : HookHandlerSource) (e : HookEventName) (groups : list MatcherGroup) (d : Discovery)
    : Discovery :=
  foldl (λ d group, append_group_handlers src e (matcher_pattern_for_event e (group_matcher group)) (group_hooks group) d)
    d groups.
Definition append_hook_events (src : HookHandlerSource) (events : HookEventsToml) (d : Discovery) : Discovery :=
  foldl (λ d entry, append_matcher_groups src entry.1 entry.2 d) d (into_matcher_groups events).

(** ** The requirements and the layers *)

(** [AbsolutePathBuf::from_absolute_path] of a path that is absolute. *)
Definition from_absolute_path (path : str) : str := resolve_path_against_base home_dir path [SLASH].
Definition managed_hooks_source_path (managed : ManagedHooks) (d : Discovery) : Discovery * option str :=
  let source := requirement_source managed in
  match managed_dir managed with
  | None => (warn (NoManagedDir source) d, None)
  | Some source_path =>
      if negb (is_absolute source_path) then (warn (ManagedDirNotAbsolute source source_path) d, None)
      else if negb (exists_ source_path) then (warn (ManagedDirMissing source source_path) d, None)
      else if negb (is_dir source_path) then (warn (ManagedDirNotDirectory source source_path) d, None)
      else (d, Some (from_absolute_path source_path))
  end.
Definition append_managed_requirement_handlers (stack : ConfigLayerStack) (d : Discovery) : Discovery :=
  match managed_hooks stack with
  | None => d
  | Some managed =>
      match managed_hooks_source_path managed d with
      | (d, None) => d
      | (d, Some source_path) =>
          append_hook_events {| source_file := source_path; source_is_managed := true;
                                source_kind := hook_source_for_requirement_source (requirement_source managed) |}
            (managed_events managed) d
      end
  end.

Definition config_folder (layer : ConfigLayerEntry) : option str :=
  match name layer with
  | LayerMdm _ _ => None
  | LayerSystem file => parent file
  | LayerUser file => parent file
  | LayerProject dot_codex_folder => Some dot_codex_folder
  | LayerSessionFlags | LegacyManagedConfigTomlFromFile _ | LegacyManagedConfigTomlFromMdm => None
  end.
Definition load_hooks_json (config_folder : option str) (d : Discovery) : Discovery * option (str * HookEventsToml) :=
  match config_folder with
  | None => (d, None)
  | Some folder =>
      let source_path := path_join folder (lit "hooks.json") in
      if negb (is_file source_path) then (d, None)
      else
        match read_to_string source_path with
        | inl err => (warn (FailedToRead source_path err) d, None)
        | inr contents =>
            match hooks_file_from_str contents with
            | inl err => (warn (FailedToParse source_path err) d, None)
            | inr hooks =>
                (d, if hook_events_is_empty hooks then None else Some (from_absolute_path source_path, hooks))
            end
        end
  end.

Definition CONFIG_TOML_FILE : str := lit "config.toml".
Definition synthetic_layer_path (path : str) : str := resolve_path_against_base home_dir path [SLASH].
Definition config_toml_source_path (layer : ConfigLayerEntry) : str :=
  match name layer with
  | LayerSystem file | LayerUser file | LegacyManagedConfigTomlFromFile file => file
  | LayerProject dot_codex_folder => abs_join home_dir dot_codex_folder CONFIG_TOML_FILE
  | LayerMdm domain key =>
      synthetic_layer_path (lit "<mdm:" ++ domain ++ lit ":" ++ key ++ lit ">/" ++ CONFIG_TOML_FILE)
  | LegacyManagedConfigTomlFromMdm => synthetic_layer_path (lit "<legacy-managed-config.toml-mdm>/managed_config.toml")
  | LayerSessionFlags => synthetic_layer_path (lit "<session-flags>/config.toml")
  end.
Definition load_toml_hooks_from_layer (layer : ConfigLayerEntry) (d : Discovery) : Discovery * option (str * HookEventsToml) :=
  let source_path := config_toml_source_path layer in
  match config_hooks layer with
  | None => (d, None)
  | Some (inl err) => (warn (FailedToParseToml source_path err) d, None)
  | Some (inr hooks) => (d, if hook_events_is_empty hooks then None else Some (source_path, hooks))
  end.

Definition append_source (kind : HookSource) (found : option (str * HookEventsToml)) (d : Discovery) : Discovery :=
  match found with
  | Some (source_path, hook_events) =>
      append_hook_events {| source_file := source_path; source_is_managed := false; source_kind := kind |} hook_events d
  | None => d
  end.
Definition discover_layer (d : Discovery) (layer : ConfigLayerEntry) : Discovery :=
  let hook_source := hook_source_for_config_layer_source (name layer) in
  let '(d, json_hooks) := load_hooks_json (config_folder layer) d in
  let '(d, toml_hooks) := load_toml_hooks_from_layer layer d in
  let d :=
    match json_hooks, toml_hooks with
    | Some (json_source_path, json_events), Some (toml_source_path, toml_events) =>
        if negb (hook_events_is_empty json_events) && negb (hook_events_is_empty toml_events) then
          warn (BothRepresentations json_source_path toml_source_path) d
        else d
    | _, _ => d
    end in
  append_source hook_source toml_hooks (append_source hook_source json_hooks d).

Definition discover_handlers (stack : option ConfigLayerStack) : Discovery :=
  match stack with
  | None => nothing_found
  | Some stack => foldl discover_layer (append_managed_requirement_handlers stack nothing_found) (get_layers stack)
  end.

(** [ClaudeHooksEngine::new]: nothing when the feature is off. *)
Definition engine_handlers (enabled : bool) (stack : option ConfigLayerStack) : Discovery :=
  if enabled then discover_handlers stack else nothing_found.

End Discover.
End HookDiscovery.
