(* ===== verification/HookRuntime.v ===== *)
(** * Hooks around tools and input

    Models [core/src/hook_runtime.rs], what calls it when a tool is used
    ([ToolRegistry::dispatch_any] of [core/src/tools/registry.rs]) and when the
    turn takes the input that waits for it ([core/src/session/turn.rs]),
    [core/src/tools/hook_names.rs] and the after-tool-use hooks of
    [hooks/src/registry.rs].  A computation lists what it emits and records; it
    has no value while a process it waits for has not ended.  Metrics and
    analytics are left out. *)
From S2P Require Import Prelude Str Io ExecApproval HookOutput Hooks HookEvents HookDiscovery.
Import ExecApproval HookOutput Hooks HookEvents HookDiscovery.

Module HookRuntime.

Record HookToolName : Type := { hook_name : str; matcher_aliases : list str }.
Definition new_hook_name (name : str) : HookToolName := {| hook_name := name; matcher_aliases := [] |}.
Definition hook_apply_patch : HookToolName := {| hook_name := lit "apply_patch"; matcher_aliases := [lit "Write"; lit "Edit"] |}.
Definition hook_bash : HookToolName := new_hook_name (lit "Bash").

Definition hook_permission_mode (approval_policy : AskForApproval) : str :=
  match approval_policy with
  | Never => lit "bypassPermissions"
  | UnlessTrusted | OnFailure | OnRequest | Granular _ => lit "default"
  end.

(** ** What is emitted and recorded *)

Section Runtime.
(** Items of the conversation. *)
Context {Item : Type}.

Inductive PendingInputRecord : Type :=
| UserMessage (response_item : Item) (additional_contexts : list str)
| ConversationItem (response_item : Item).
Inductive Effect : Type :=
| HookStarted (turn_id : option str) (run : HookRunSummary)
| HookCompleted (event : HookCompletedEvent)
| ContextsRecorded (messages : list str)
| UserPromptRecorded (response_item : Item)
| ItemRecorded (response_item : Item)
| WarningSent (message : str).

Definition traced (A : Type) : Type := option (list Effect * A).
#[export] Instance traced_ret : MRet traced := λ A a, Some ([], a).
#[export] Instance traced_bind : MBind traced := λ A B f m,
  match m with
  | Some (effects, a) => match f a with Some (effects', b) => Some (effects ++ effects', b) | None => None end
  | None => None
  end.
Definition emit (effects : list Effect) : traced unit := Some (effects, ()).
(** Waiting for processes. *)
Definition wait {A} (outcome : option A) : traced A := match outcome with Some a => Some ([], a) | None => None end.

(** Of the turn: what a request takes of it. *)
Record TurnContext : Type := {
  sub_id : str; turn_session_id : str; turn_cwd : str; hook_transcript_path : option str; model_slug : str;
  approval_policy : AskForApproval }.
Definition hook_context (turn : TurnContext) : HookContext := {|
  session_id := turn_session_id turn; cwd := turn_cwd turn; transcript_path := hook_transcript_path turn;
  model := model_slug turn; permission_mode := hook_permission_mode (approval_policy turn) |}.

Definition emit_hook_started_events (turn : TurnContext) (preview_runs : list HookRunSummary) : traced unit :=
  emit (HookStarted (Some (sub_id turn)) <$> preview_runs).
Definition emit_hook_completed_events (completed_events : list HookCompletedEvent) : traced unit :=
  emit (HookCompleted <$> completed_events).
(** [additional_context_messages] makes one developer message of each. *)
Definition record_additional_contexts (additional_contexts : list str) : traced unit :=
  emit (if bool_decide (additional_contexts = []) then [] else [ContextsRecorded additional_contexts]).

(** JSON values; the text of the field [command] of one, when it has one. *)
Context {Value : Type} `{HookSerde Value} `{Regex} `{ToJson Value}.
Variable command_of : Value → option str.
(** The handlers of the session. *)
Variable hooks : list ConfiguredHandler.

(** ** Before and after a tool *)

Definition blocked_message (tool_name : HookToolName) (tool_input : Value) (reason : str) : str :=
  let other := lit "Tool call blocked by PreToolUse hook: " ++ reason ++ lit ". Tool: " ++ hook_name tool_name in
  if bool_decide (hook_name tool_name = lit "Bash") || bool_decide (hook_name tool_name = lit "apply_patch") then
    match command_of tool_input with
    | Some command => lit "Command blocked by PreToolUse hook: " ++ reason ++ lit ". Command: " ++ command
    | None => other
    end
  else other.
Definition pre_tool_use_request (turn : TurnContext) (tool_use_id : str) (tool_name : HookToolName) (tool_input : Value)
    : PreToolUseRequest Value := {|
  pre_context_of := hook_context turn; pre_turn_id := sub_id turn; pre_tool_name := hook_name tool_name;
  pre_matcher_aliases := matcher_aliases tool_name; pre_tool_use_id := tool_use_id; pre_tool_input := tool_input |}.
Definition run_pre_tool_use_hooks (turn : TurnContext) (tool_use_id : str) (tool_name : HookToolName) (tool_input : Value)
    (ends : schedule) : traced (option str) :=
  let request := pre_tool_use_request turn tool_use_id tool_name tool_input in
  _ ← emit_hook_started_events turn (preview_pre_tool_use hooks request);
  outcome ← wait (run_pre_tool_use hooks ends request);
  _ ← emit_hook_completed_events (pre_events outcome);
  mret (if pre_outcome_should_block outcome then blocked_message tool_name tool_input <$> pre_outcome_block_reason outcome
        else None).

Definition run_permission_request_hooks (turn : TurnContext) (suffix : str) (tool_name : HookToolName) (tool_input : Value)
    (ends : schedule) : traced (option PermissionRequestDecision) :=
  let request := {|
    permission_context_of := hook_context turn; permission_turn_id := sub_id turn;
    permission_tool_name := hook_name tool_name; permission_matcher_aliases := matcher_aliases tool_name;
    run_id_suffix := suffix; permission_tool_input := tool_input |} in
  _ ← emit_hook_started_events turn (preview_permission_request hooks request);
  outcome ← wait (run_permission_request hooks ends request);
  _ ← emit_hook_completed_events (permission_events outcome);
  mret (permission_decision_of outcome).

Definition run_post_tool_use_hooks (turn : TurnContext) (tool_use_id : str) (tool_name : HookToolName)
    (tool_input tool_response : Value) (ends : schedule) : traced PostToolUseOutcome :=
  let request := {|
    post_context_of := hook_context turn; post_turn_id := sub_id turn; post_tool_name := hook_name tool_name;
    post_matcher_aliases := matcher_aliases tool_name; post_tool_use_id := tool_use_id; post_tool_input := tool_input;
    post_tool_response := tool_response |} in
  _ ← emit_hook_started_events turn (preview_post_tool_use hooks request);
  outcome ← wait (run_post_tool_use hooks ends request);
  _ ← emit_hook_completed_events (post_events outcome);
  mret outcome.

(** *** The hooks after an agent or a tool *)

Inductive HookResult : Type := Success | FailedContinue (err : str) | FailedAbort (err : str).
Definition should_abort_operation (r : HookResult) : bool := match r with FailedAbort _ => true | _ => false end.
(** [Hooks::dispatch]: a hook is its name and what running it gives. *)
Fixpoint dispatch (after : list (str * HookResult)) : list (str * HookResult) :=
  match after with
  | [] => []
  | outcome :: after => outcome :: (if should_abort_operation outcome.2 then [] else dispatch after)
  end.
Definition after_tool_use_error (outcomes : list (str * HookResult)) : option str :=
  find_map (λ outcome,
    match outcome.2 with
    | FailedAbort error =>
        Some (lit "after_tool_use hook '" ++ outcome.1 ++ lit "' failed and aborted operation: " ++ error)
    | _ => None
    end) outcomes.

(** *** Calling a tool *)

Inductive FunctionCallError : Type := RespondToModel (message : str) | Fatal (message : str).
Record PostToolUsePayload : Type := {
  payload_tool_use_id : str; payload_tool_name : HookToolName; payload_tool_input : Value; payload_tool_response : Value }.

(** A tool, over the state that it changes: whether the payload of the call is
    of its kind, the payload for the hooks before it, what it does, whether what
    it gives counts as a success, and the payload for the hooks after it. *)
Record ToolHandler (W Output : Type) : Type := {
  matches_kind : bool;
  pre_tool_use_payload : option (HookToolName * Value);
  handle : W → W * (FunctionCallError + Output);
  success_for_logging : Output → bool;
  post_tool_use_payload : Output → option PostToolUsePayload;
}.
Arguments matches_kind {W Output}. Arguments pre_tool_use_payload {W Output}. Arguments handle {W Output}.
Arguments success_for_logging {W Output}. Arguments post_tool_use_payload {W Output}.

(** What a call gives: the output of the tool, or a text that a hook put in its place. *)
Inductive CallResult (Output : Type) : Type := Own (output : Output) | FromText (text : str).
Arguments Own {Output}. Arguments FromText {Output}.

Definition replacement_text (outcome : PostToolUseOutcome) : option str :=
  if post_should_stop outcome then
    Some (match feedback_message outcome with
          | Some message => message
          | None => default (lit "PostToolUse hook stopped execution") (post_stop_reason outcome)
          end)
  else feedback_message outcome.

Section Tool.
Context {W Output : Type}.
Variable after_tool_use : list (str * HookResult).

(** After the tool has run: its hooks, when it succeeded, then the older ones. *)
Definition after_call (turn : TurnContext) (tool : ToolHandler W Output) (result : FunctionCallError + Output)
    (post_ends : schedule) : traced (FunctionCallError + CallResult Output) :=
  let payload :=
    match result with
    | inr output => if success_for_logging tool output then post_tool_use_payload tool output else None
    | inl _ => None
    end in
  outcome ← match payload with
            | Some payload =>
                outcome ← run_post_tool_use_hooks turn (payload_tool_use_id payload) (payload_tool_name payload)
                            (payload_tool_input payload) (payload_tool_response payload) post_ends;
                mret (Some outcome)
            | None => mret None
            end;
  match after_tool_use_error (dispatch after_tool_use) with
  | Some error => mret (inl (Fatal error))
  | None =>
      _ ← match outcome with
          | Some outcome => record_additional_contexts (post_additional_contexts outcome)
          | None => mret ()
          end;
      mret match result with
           | inl err => inl err
           | inr output =>
               match outcome ≫= replacement_text with
               | Some text => inr (FromText text)
               | None => inr (Own output)
               end
           end
  end.

(** [dispatch_any], from the handler of the tool on. *)
Definition dispatch_any (turn : TurnContext) (call_id display_name : str) (tool : ToolHandler W Output)
    (pre_ends post_ends : schedule) (w : W) : traced (W * (FunctionCallError + CallResult Output)) :=
  if negb (matches_kind tool) then
    mret (w, inl (Fatal (lit "tool " ++ display_name ++ lit " invoked with incompatible payload")))
  else
    message ← match pre_tool_use_payload tool with
              | Some (tool_name, tool_input) => run_pre_tool_use_hooks turn call_id tool_name tool_input pre_ends
              | None => mret None
              end;
    match message with
    | Some message => mret (w, inl (RespondToModel message))
    | None =>
        let '(w, result) := handle tool w in
        result ← after_call turn tool result post_ends;
        mret (w, result)
    end.
End Tool.

(** ** Starting a session, and input *)

Definition run_pending_session_start_hooks (turn : TurnContext) (pending_source : option SessionStartSource) (ends : schedule)
    : traced bool :=
  match pending_source with
  | None => mret false
  | Some source =>
      let request := {| start_context_of := hook_context turn; start_source := source |} in
      _ ← emit_hook_started_events turn (preview_session_start hooks request);
      outcome ← wait (run_session_start hooks ends request (Some (sub_id turn)));
      _ ← emit_hook_completed_events (context_events outcome);
      _ ← record_additional_contexts (context_additional_contexts outcome);
      mret (context_should_stop outcome)
  end.
Definition run_user_prompt_submit_hooks (turn : TurnContext) (prompt : str) (ends : schedule) : traced (bool * list str) :=
  let request := {| submit_context_of := hook_context turn; submit_turn_id := sub_id turn; prompt := prompt |} in
  _ ← emit_hook_started_events turn (preview_user_prompt_submit hooks request);
  outcome ← wait (run_user_prompt_submit hooks ends request);
  _ ← emit_hook_completed_events (context_events outcome);
  mret (context_should_stop outcome, context_additional_contexts outcome).

(** The message of an item that is a message of the user. *)
Variable user_message : Item → option str.

Inductive PendingInputHookDisposition : Type :=
| Accepted (record : PendingInputRecord)
| BlockedInput (additional_contexts : list str).
Definition inspect_pending_input (turn : TurnContext) (item : Item) (ends : schedule) : traced PendingInputHookDisposition :=
  match user_message item with
  | Some message =>
      '(should_stop, additional_contexts) ← run_user_prompt_submit_hooks turn message ends;
      mret (if should_stop : bool then BlockedInput additional_contexts
            else Accepted (UserMessage item additional_contexts))
  | None => mret (Accepted (ConversationItem item))
  end.
Definition record_pending_input (pending_input : PendingInputRecord) : traced unit :=
  match pending_input with
  | UserMessage response_item additional_contexts =>
      _ ← emit [UserPromptRecorded response_item];
      record_additional_contexts additional_contexts
  | ConversationItem response_item => emit [ItemRecorded response_item]
  end.

(** The loop over the input that waits, each with the schedule of its hooks:
    what was accepted and, when one was blocked, its contexts and the input after it. *)
Fixpoint inspect_all (turn : TurnContext) (pending : list (Item * schedule)) (accepted : list PendingInputRecord)
    : traced (list PendingInputRecord * option (list str * list Item)) :=
  match pending with
  | [] => mret (accepted, None)
  | (item, ends) :: pending =>
      disposition ← inspect_pending_input turn item ends;
      match disposition with
      | Accepted record => inspect_all turn pending (accepted ++ [record])
      | BlockedInput contexts => mret (accepted, Some (contexts, pending.*1))
      end
  end.
Fixpoint record_all (accepted : list PendingInputRecord) : traced unit :=
  match accepted with [] => mret () | record :: accepted => _ ← record_pending_input record; record_all accepted end.

(** What the turn does next: it asks the model, it takes its input again, it ends. *)
Inductive AfterInput : Type := Sample | TakeInputAgain | EndTurn.
(** The input that is put back before what came meanwhile, and what is next.  The
    session refuses it, without an effect and unnoticed by the turn, when the turn is
    not active any more; the input is returned here in either case. *)
Definition take_pending_input (turn : TurnContext) (pending : list (Item * schedule)) : traced (list Item * AfterInput) :=
  '(accepted, blocked) ← inspect_all turn pending [];
  _ ← record_all accepted;
  _ ← record_additional_contexts (from_option fst [] blocked);
  let requeued := from_option snd [] blocked in
  mret (requeued,
        if bool_decide (is_Some blocked) && bool_decide (length accepted = 0) then
          if bool_decide (length requeued = 0) then EndTurn else TakeInputAgain
        else Sample).

(** ** The end of a turn *)

(** quick_xml on a fragment, and the message of the user that has these texts. *)
Variable to_xml : HookPromptFragment → option str.
Variable hook_prompt_message : list str → Item.
Definition serialize_hook_prompt_fragment (fragment : HookPromptFragment) : option str :=
  if bool_decide (trim (hook_run_id fragment) = []) then None else to_xml fragment.
Definition build_hook_prompt_message (fragments : list HookPromptFragment) : option Item :=
  let content := omap serialize_hook_prompt_fragment
                   (List.filter (λ fragment, negb (bool_decide (trim (hook_run_id fragment) = []))) fragments) in
  if bool_decide (content = []) then None else Some (hook_prompt_message content).

(** What the turn does after the hooks for its end: it goes on with the prompt
    of the hooks in the history, it ends at once, or it ends with the hooks after
    the agent. *)
Inductive AfterStop : Type := GoesOn | Ends | RunsAfterAgent.
Definition run_stop_hooks (turn : TurnContext) (stop_hook_active : bool) (last_agent_message : option str) (ends : schedule)
    : traced AfterStop :=
  let request := {|
    stop_context_of := hook_context turn; stop_turn_id := sub_id turn; stop_hook_active := stop_hook_active;
    last_assistant_message := last_agent_message |} in
  _ ← emit_hook_started_events turn (preview_stop hooks request);
  stop_outcome ← wait (run_stop hooks ends request);
  _ ← emit_hook_completed_events (stop_events stop_outcome);
  let end_turn := if stop_outcome_should_stop stop_outcome then Ends else RunsAfterAgent in
  if stop_outcome_should_block stop_outcome then
    match build_hook_prompt_message (stop_outcome_continuation_fragments stop_outcome) with
    | Some message => _ ← emit [ItemRecorded message]; mret GoesOn
    | None =>
        _ ← emit [WarningSent (lit "Stop hook requested continuation without a prompt; ignoring the block.")];
        mret end_turn
    end
  else mret end_turn.

End Runtime.
Arguments matches_kind {Value W Output}. Arguments pre_tool_use_payload {Value W Output}.
Arguments handle {Value W Output}. Arguments success_for_logging {Value W Output}.
Arguments post_tool_use_payload {Value W Output}. Arguments Own {Output}. Arguments FromText {Output}.
Arguments PendingInputRecord : clear implicits.
Arguments Effect : clear implicits.
End HookRuntime.
