(* ===== verification/HookFacts.v ===== *)
(** * Facts about hooks

    Every handler that an event selects runs once and its result stands at its
    own place, in whatever order the processes end; what one result asks for, as
    a relation on what the process did. *)
From S2P Require Import Prelude Str Io Paths HookOutput Hooks HookEvents HookDiscovery.
Import HookOutput Hooks HookEvents.

Module HookFacts.

(** ** Processes that run at the same time *)

(** How process [i] first ends. *)
Definition first_end {A} (ends : list (nat * A)) (i : nat) : option A := snd <$> List.find (λ e, e.1 =? i) ends.

Definition slot_after {A} (ends : list (nat * A)) (i : nat) (slot : option A) : option A :=
  match slot with Some a => Some a | None => first_end ends i end.

Lemma slots_after {A} (ends : list (nat * A)) slots : foldl finish slots ends = imap (slot_after ends) slots.
Proof.
  revert slots. induction ends as [|[j a] ends IH]; intros slots; simpl.
  - apply list_eq. intros i. rewrite list_lookup_imap. by destruct (slots !! i) as [[b|]|].
  - rewrite IH. apply list_eq. intros i. rewrite !list_lookup_imap. unfold finish. simpl.
    destruct (slots !! j) as [[b|]|] eqn:Hj.
    1, 3: destruct (slots !! i) as [[c|]|] eqn:Hi; [done| |done];
      cbn -[Nat.eqb]; unfold first_end; cbn -[Nat.eqb];
      destruct (Nat.eqb_spec j i) as [->|]; [congruence|done].
    destruct (decide (i = j)) as [->|Hne].
    + rewrite list_lookup_insert_eq by (by eapply lookup_lt_Some). rewrite Hj.
      cbn -[Nat.eqb]. unfold first_end. cbn -[Nat.eqb]. by rewrite Nat.eqb_refl.
    + rewrite list_lookup_insert_ne by done. destruct (slots !! i) as [[c|]|]; [done| |done].
      cbn -[Nat.eqb]. unfold first_end. cbn -[Nat.eqb]. by destruct (Nat.eqb_spec j i).
Qed.

(** All the processes are waited for, and each result is at the place of its process. *)
Lemma join_all_Some {A} n (ends : list (nat * A)) l :
  join_all n ends = Some l ↔ length l = n ∧ ∀ i, i < n → first_end ends i = l !! i.
Proof.
  unfold join_all. rewrite slots_after, mapM_Some. split.
  - intros Hl. pose proof (Forall2_length _ _ _ Hl) as Hlen. rewrite length_imap, length_replicate in Hlen.
    split; [done|]. intros i Hi.
    destruct (lookup_lt_is_Some_2 l i) as [a Ha]; [lia|].
    destruct (Forall2_lookup_r _ _ _ _ _ Hl Ha) as (slot & Hslot & Heq).
    rewrite list_lookup_imap, lookup_replicate_2 in Hslot by done. simplify_eq/=. by rewrite Ha.
  - intros [Hlen Hends]. apply Forall2_same_length_lookup_2.
    { by rewrite length_imap, length_replicate. }
    intros i slot a Hslot Ha. rewrite list_lookup_imap in Hslot.
    rewrite lookup_replicate_2 in Hslot by (apply lookup_lt_Some in Ha; lia).
    simplify_eq/=. rewrite Hends; [done|]. apply lookup_lt_Some in Ha. lia.
Qed.

(** They are all done as soon as each has ended. *)
Lemma join_all_complete {A} n (ends : list (nat * A)) :
  (∀ i, i < n → is_Some (first_end ends i)) → ∃ l, join_all n ends = Some l.
Proof.
  intros Hends. unfold join_all. rewrite slots_after.
  destruct (mapM id (imap (slot_after ends) (replicate n None))) as [l|] eqn:Hm; [by exists l|].
  apply mapM_None in Hm. apply Exists_exists in Hm as (slot & Hin & Hnone).
  apply list_elem_of_lookup in Hin as (i & Hi). rewrite list_lookup_imap in Hi.
  apply fmap_Some in Hi as (slot' & Hslot & ->).
  apply lookup_replicate in Hslot as [-> Hlt]. destruct (Hends i Hlt) as [a Ha].
  simpl in Hnone. unfold id in Hnone. simpl in Hnone. congruence.
Qed.

(** The results of the handlers are in the order of the handlers. *)
Lemma execute_handlers_Some {D} hs ends turn_id (parse : ConfiguredHandler → CommandRunResult → option str → ParsedHandler D) results :
  execute_handlers hs ends turn_id parse = Some results →
  Forall2 (λ h_i result, ∃ o, first_end ends h_i.2 = Some o ∧ result = parse h_i.1 (run_command h_i.1 o) turn_id)
    (zip hs (seq 0 (length hs))) results.
Proof.
  unfold execute_handlers. intros Hr. apply bind_Some in Hr as (outcomes & Hjoin & Heq). simplify_eq/=.
  apply join_all_Some in Hjoin as [Hlen Hends].
  apply Forall2_same_length_lookup_2.
  { rewrite length_zip_with, length_seq, !length_zip_with. lia. }
  intros i [h j] result Hh Hres. apply lookup_zip_Some in Hh as [Hh Hj].
  apply lookup_seq in Hj as [-> Hlt]. simpl in *.
  rewrite !lookup_zip_with, Hh in Hres. simpl in Hres.
  destruct (outcomes !! i) as [o|] eqn:Ho; simplify_eq/=.
  exists o. rewrite Hends by done. done.
Qed.

Lemma execute_handlers_ends {D} hs ends turn_id (parse : ConfiguredHandler → CommandRunResult → option str → ParsedHandler D) :
  (∀ i, i < length hs → is_Some (first_end ends i)) → ∃ results, execute_handlers hs ends turn_id parse = Some results.
Proof.
  intros Hends. apply join_all_complete in Hends as [l Hl]. unfold execute_handlers. rewrite Hl. simpl. by eexists.
Qed.

(** The results, given how each process ended. *)
Lemma execute_handlers_eq {D} hs ends turn_id (parse : ConfiguredHandler → CommandRunResult → option str → ParsedHandler D) outcomes :
  join_all (length hs) ends = Some outcomes →
  execute_handlers hs ends turn_id parse = Some (zip_with (λ h o, parse h (run_command h o) turn_id) hs outcomes).
Proof.
  intros Hjoin. unfold execute_handlers. rewrite Hjoin. simpl. f_equal.
  clear Hjoin. revert outcomes. induction hs as [|h hs IH]; intros [|o outcomes]; simpl; [done..|]. by rewrite IH.
Qed.

(** ** Iterators *)

Lemma find_map_Some {A B} (f : A → option B) l b :
  find_map f l = Some b ↔ ∃ i a, l !! i = Some a ∧ f a = Some b ∧ ∀ j a', j < i → l !! j = Some a' → f a' = None.
Proof.
  induction l as [|x l IH]; simpl; [naive_solver|]. destruct (f x) as [c|] eqn:Hx.
  - split.
    + intros [= ->]. exists 0, x. split_and!; [done..|]. intros j a' Hj. lia.
    + intros ([|i] & a & Ha & Hb & Hbefore); [naive_solver|].
      specialize (Hbefore 0 x ltac:(lia) eq_refl). congruence.
  - rewrite IH. split.
    + intros (i & a & Ha & Hb & Hbefore). exists (S i), a. split_and!; [done..|].
      intros [|j] a' Hj Ha'; [naive_solver|]. simpl in Ha'. eapply Hbefore; [|done]. lia.
    + intros ([|i] & a & Ha & Hb & Hbefore); [naive_solver|]. exists i, a. split_and!; [done..|].
      intros j a' Hj Ha'. apply (Hbefore (S j)); [lia|done].
Qed.

Lemma Forall_zip_with_all {A B C} (f : A → B → C) (P : C → Prop) l k : (∀ a b, P (f a b)) → Forall P (zip_with f l k).
Proof. intros HP. revert k. induction l as [|a l IH]; intros [|b k]; simpl; by constructor. Qed.

Lemma omap_id_fmap {A B} (f : A → option B) (l : list A) : omap id (f <$> l) = omap f l.
Proof. induction l as [|x l IH]; [done|]. csimpl. rewrite IH. by destruct (f x). Qed.

Lemma find_map_None {A B} (f : A → option B) l : find_map f l = None ↔ Forall (λ a, f a = None) l.
Proof.
  induction l as [|x l IH]; simpl; [by split|]. rewrite Forall_cons, <-IH. destruct (f x); naive_solver.
Qed.

Lemma existsb_find_map {A B} (f : A → option B) (g : A → bool) l :
  Forall (λ a, g a = bool_decide (is_Some (f a))) l → existsb g l = bool_decide (is_Some (find_map f l)).
Proof.
  induction 1 as [|x l Hx _ IH]; simpl; [done|]. rewrite Hx, IH. by destruct (f x).
Qed.

(** ** What a hook before a tool asks for *)

Section Denials.
Context {Value : Type} `{HookSerde Value}.

(** Nothing that such a hook must not ask for. *)
Definition plain (universal : HookUniversalOutputWire) : Prop :=
  wire_continue universal = true ∧ wire_stop_reason universal = None ∧ wire_suppress_output universal = false.
Definition unused (specific : option (PreToolUseHookSpecificOutputWire (Value:=Value))) : Prop :=
  match specific with
  | Some specific =>
      permission_decision specific = None ∧ permission_decision_reason specific = None
      ∧ pre_updated_input specific = None ∧ pre_additional_context specific = None
  | None => True
  end.
Definition blank_context (context : option str) : Prop := ∀ text, context = Some text → trim text = [].

(** A process denies the call, with a reason, when it ends with code 2 and
    something on its standard error, or with code 0 and JSON that denies it in
    one of two ways, and nothing else that is not supported. *)
Inductive denies : ProcessOutcome → str → Prop :=
| denies_by_code out err :
    trim err ≠ [] → denies (Exited (Some 2%Z) out err) (trim err)
| denies_by_permission out err wire specific reason :
    trim out ≠ [] → de_pre_tool_use (trim out) = Some wire → plain (pre_universal wire) →
    pre_specific wire = Some specific → permission_decision specific = Some PermissionDeny →
    permission_decision_reason specific = Some reason → trim reason ≠ [] →
    pre_updated_input specific = None → blank_context (pre_additional_context specific) →
    denies (Exited (Some 0%Z) out err) (trim reason)
| denies_by_decision out err wire reason :
    trim out ≠ [] → de_pre_tool_use (trim out) = Some wire → plain (pre_universal wire) →
    unused (pre_specific wire) → pre_decision wire = Some LegacyBlock → pre_reason wire = Some reason → trim reason ≠ [] →
    denies (Exited (Some 0%Z) out err) (trim reason).

Lemma trimmed_Some f text r :
  f = trimmed_non_empty ∨ f = trimmed_reason → f text = Some r ↔ r = trim text ∧ trim text ≠ [].
Proof. intros [-> | ->]; unfold trimmed_non_empty, trimmed_reason; case_bool_decide; naive_solver. Qed.
Lemma trimmed_reason_Some text r : trimmed_reason text = Some r ↔ r = trim text ∧ trim text ≠ [].
Proof. apply trimmed_Some. by right. Qed.
Lemma trimmed_reason_None text : trimmed_reason text = None ↔ trim text = [].
Proof. unfold trimmed_reason. case_bool_decide; naive_solver. Qed.
Lemma bind_trimmed_reason_Some o r : o ≫= trimmed_reason = Some r ↔ ∃ text, o = Some text ∧ r = trim text ∧ trim text ≠ [].
Proof. destruct o as [text|]; simpl; [rewrite trimmed_reason_Some|]; naive_solver. Qed.
Lemma bind_trimmed_reason_None o : o ≫= trimmed_reason = None ↔ blank_context o.
Proof. unfold blank_context. destruct o as [text|]; simpl; [rewrite trimmed_reason_None|]; naive_solver. Qed.

Lemma unsupported_universal_None e w : unsupported_universal e (universal_from w) = None ↔ plain w.
Proof.
  unfold unsupported_universal, plain. destruct w as [c s b m]; simpl.
  destruct c, s, b; simpl; try case_bool_decide; naive_solver.
Qed.

Lemma unused_spec (specific : option (PreToolUseHookSpecificOutputWire (Value:=Value))) : from_option use_hook_specific_decision false specific = false ↔ unused specific.
Proof.
  destruct specific as [[[d|] [r|] [u|] [c|]]|]; unfold use_hook_specific_decision, unused; simpl;
    rewrite ?(bool_decide_eq_true_2 (is_Some (Some _))) by done;
    rewrite ?(bool_decide_eq_false_2 (is_Some None)) by (by intros []); naive_solver.
Qed.
Lemma parse_json_Some {T} (de : str → option T) out wire :
  parse_json de out = Some wire ↔ trim out ≠ [] ∧ de (trim out) = Some wire.
Proof. unfold parse_json. case_bool_decide; naive_solver. Qed.

Lemma or_else_None {A} (o o' : option A) : or_else o o' = None ↔ o = None ∧ o' = None.
Proof. destruct o; naive_solver. Qed.

(** A specific output that nothing in it forbids denies with its reason. *)
Lemma specific_supported (specific : PreToolUseHookSpecificOutputWire (Value:=Value)) :
  use_hook_specific_decision specific = true → unsupported_pre_tool_use_hook_specific_output specific = None →
  ∃ reason, permission_decision specific = Some PermissionDeny ∧ permission_decision_reason specific = Some reason
    ∧ trim reason ≠ [] ∧ pre_updated_input specific = None ∧ blank_context (pre_additional_context specific)
  ∨ permission_decision specific = None ∧ permission_decision_reason specific = None ∧ pre_updated_input specific = None.
Proof.
  destruct specific as [d r u c]. unfold use_hook_specific_decision, unsupported_pre_tool_use_hook_specific_output. simpl.
  intros Huse Hnone. destruct u as [u|]; [done|]. simpl in Hnone.
  destruct (c ≫= trimmed_reason) eqn:Hc; [done|]. apply bind_trimmed_reason_None in Hc. simpl in Hnone.
  destruct d as [[| |]|]; [done| |done|].
  - destruct (r ≫= trimmed_reason) as [r'|] eqn:Hr; [|done].
    apply bind_trimmed_reason_Some in Hr as (reason & -> & -> & Hreason). exists reason. naive_solver.
  - destruct r; [done|]. exists []. naive_solver.
Qed.

Lemma specific_denies (specific : PreToolUseHookSpecificOutputWire (Value:=Value)) reason :
  permission_decision specific = Some PermissionDeny → permission_decision_reason specific = Some reason →
  trim reason ≠ [] → pre_updated_input specific = None → blank_context (pre_additional_context specific) →
  use_hook_specific_decision specific = true ∧ unsupported_pre_tool_use_hook_specific_output specific = None.
Proof.
  destruct specific as [d r u c]. unfold use_hook_specific_decision, unsupported_pre_tool_use_hook_specific_output. simpl.
  intros -> -> Hreason -> Hc. apply bind_trimmed_reason_None in Hc. rewrite Hc. simpl. unfold trimmed_reason.
  by rewrite (bool_decide_eq_false_2 _ Hreason).
Qed.

Lemma parse_denies out err r :
  (∃ parsed, parse_pre_tool_use out = Some parsed ∧ pre_invalid_reason parsed = None ∧ pre_block_reason parsed = Some r)
  ↔ denies (Exited (Some 0%Z) out err) r.
Proof.
  unfold parse_pre_tool_use. split.
  - intros (parsed & Hparse & Hinvalid & Hreason). apply bind_Some in Hparse as (wire & Hwire & Heq).
    apply parse_json_Some in Hwire as [Hout Hwire]. simplify_eq/=. rewrite Hinvalid in Hreason.
    apply or_else_None in Hinvalid as [Hplain Hsupported]. apply unsupported_universal_None in Hplain.
    destruct (from_option use_hook_specific_decision false (pre_specific wire)) eqn:Huse.
    + destruct (pre_specific wire) as [specific|] eqn:Hspec; [|done]. simpl in *.
      destruct (specific_supported _ Huse Hsupported) as (reason & [(Hd & Hr & Htrim & Hu & Hc)|(Hd & Hr & Hu)]).
      * rewrite Hd, Hr in Hreason. simpl in Hreason. apply trimmed_reason_Some in Hreason as [-> _]. by eapply denies_by_permission.
      * by rewrite Hd in Hreason.
    + apply unused_spec in Huse. destruct (pre_decision wire) as [[|]|] eqn:Hd; try done.
      apply bind_trimmed_reason_Some in Hreason as (reason & Hr & -> & Htrim). by eapply denies_by_decision.
  - inversion 1 as [|out' err' wire specific reason Hout Hwire Hplain Hspec Hd Hr Htrim Hu Hc|
      out' err' wire reason Hout Hwire Hplain Hunused Hd Hr Htrim]; subst;
      rewrite (proj2 (parse_json_Some _ _ _) (conj Hout Hwire)); simpl;
      eexists; (split; [done|]); simpl;
      rewrite (proj2 (unsupported_universal_None _ _) Hplain); simpl.
    + rewrite Hspec. simpl. destruct (specific_denies _ _ Hd Hr Htrim Hu Hc) as [-> ->].
      rewrite Hd, Hr. simpl. split; [done|]. by apply trimmed_reason_Some.
    + rewrite (proj2 (unused_spec _) Hunused), Hd, Hr. simpl.
      rewrite (proj2 (trimmed_reason_Some reason _) (conj eq_refl Htrim)). done.
Qed.

(** ** The result of a handler *)

Lemma by_exit_not_run {D} nothing on_success two e :
  by_exit (D:=D) nothing on_success two (not_run e) = (Failed, [error_entry e], nothing).
Proof. done. Qed.

Lemma pre_reason_denies handler o r :
  pre_handler_reason (pre_tool_use_result (run_command handler o)).2 = Some r ↔ denies o r.
Proof.
  destruct o as [err|err|err| |code out err].
  1-4: split; [done|by inversion 1].
  unfold pre_tool_use_result, by_exit. simpl. destruct code as [code|]; [|split; [done|by inversion 1]].
  case_bool_decide as H0; [subst code|case_bool_decide as H2; [subst code|]].
  - rewrite <-(parse_denies _ err). case_bool_decide as Hout.
    + split; [done|]. intros (parsed & Hparse & _). unfold parse_pre_tool_use, parse_json in Hparse.
      by rewrite bool_decide_eq_true_2 in Hparse.
    + destruct (parse_pre_tool_use out) as [[u b [i|]]|] eqn:Hparse; simpl.
      * naive_solver.
      * destruct b; naive_solver.
      * destruct (looks_like_json _); naive_solver.
  - destruct (trimmed_non_empty err) as [reason|] eqn:Hr; simpl.
    + apply (trimmed_Some _ _ _ (or_introl eq_refl)) in Hr as [-> Hr]. split.
      * intros [= <-]. by constructor.
      * by inversion 1.
    + split; [done|]. inversion 1; subst. unfold trimmed_non_empty in Hr. by rewrite bool_decide_eq_false_2 in Hr.
  - split; [done|]. inversion 1; congruence.
Qed.

Lemma pre_blocks_reason handler o :
  let d := (pre_tool_use_result (run_command handler o)).2 in
  pre_handler_blocks d = bool_decide (is_Some (pre_handler_reason d)).
Proof.
  destruct o as [err|err|err| |code out err]; [done..|].
  unfold pre_tool_use_result, by_exit. simpl. destruct code as [code|]; [|done].
  case_bool_decide; [case_bool_decide; [done|]|case_bool_decide; [|done]].
  - destruct (parse_pre_tool_use out) as [[u [b|] [i|]]|]; [done..|]. by destruct (looks_like_json _).
  - by destruct (trimmed_non_empty err).
Qed.
End Denials.

(** ** What a hook for permission answers *)

Section Answers.
Context {Value : Type} `{HookSerde Value}.

(** A process denies with code 2 and something on its standard error, or answers
    with JSON that holds a decision and nothing that is not supported. *)
Inductive answers : ProcessOutcome → PermissionRequestDecision → Prop :=
| answers_by_code out err :
    trim err ≠ [] → answers (Exited (Some 2%Z) out err) (Deny (trim err))
| answers_by_output out err wire d :
    trim out ≠ [] → de_permission_request (trim out) = Some wire → plain (permission_universal wire) →
    permission_specific wire = Some (Some d) → updated_input d = None → updated_permissions d = None → interrupt d = false →
    answers (Exited (Some 0%Z) out err) (permission_request_decision d).

Lemma permission_supported_None (d : PermissionRequestDecisionWire (Value:=Value)) :
  unsupported_permission_request_hook_specific_output (Some d) = None
  ↔ updated_input d = None ∧ updated_permissions d = None ∧ interrupt d = false.
Proof. unfold unsupported_permission_request_hook_specific_output. destruct d as [b [u|] [p|] m [|]]; simpl; naive_solver. Qed.

Lemma parse_answers out err d :
  (∃ parsed, parse_permission_request out = Some parsed ∧ permission_invalid_reason parsed = None ∧ decision parsed = Some d)
  ↔ answers (Exited (Some 0%Z) out err) d.
Proof.
  unfold parse_permission_request. split.
  - intros (parsed & Hparse & Hinvalid & Hd). apply bind_Some in Hparse as (wire & Hwire & Heq).
    apply parse_json_Some in Hwire as [Hout Hwire]. simplify_eq/=. rewrite Hinvalid in Hd.
    apply or_else_None in Hinvalid as [Hplain Hsupported]. apply unsupported_universal_None in Hplain.
    apply fmap_Some in Hd as (dw & Hdw & ->). destruct (permission_specific wire) as [dw'|] eqn:Hspec; [|done].
    simpl in Hdw. unfold id in Hdw. subst dw'. apply permission_supported_None in Hsupported as (? & ? & ?).
    by eapply answers_by_output.
  - inversion 1 as [|out' err' wire dw Hout Hwire Hplain Hspec Hi Hp Hint]; subst.
    rewrite (proj2 (parse_json_Some _ _ _) (conj Hout Hwire)). simpl. eexists. split; [done|]. simpl.
    rewrite (proj2 (unsupported_universal_None _ _) Hplain), Hspec. simpl. unfold id.
    pose proof (proj2 (permission_supported_None dw) (conj Hi (conj Hp Hint))) as Hsupported.
    simpl in *. by rewrite Hsupported.
Qed.

Lemma permission_result_answers handler o d : (permission_result (run_command handler o)).2 = Some d ↔ answers o d.
Proof.
  destruct o as [err|err|err| |code out err].
  1-4: split; [done|by inversion 1].
  unfold permission_result, by_exit. simpl. destruct code as [code|]; [|split; [done|by inversion 1]].
  case_bool_decide as H0; [subst code|case_bool_decide as H2; [subst code|]].
  - rewrite <-(parse_answers _ err). case_bool_decide as Hout.
    + split; [done|]. intros (parsed & Hparse & _). unfold parse_permission_request, parse_json in Hparse.
      by rewrite bool_decide_eq_true_2 in Hparse.
    + destruct (parse_permission_request out) as [[u [[|m]|] [i|]]|] eqn:Hparse; simpl; [naive_solver..|].
      destruct (looks_like_json _); naive_solver.
  - destruct (trimmed_non_empty err) as [reason|] eqn:Hr; simpl.
    + apply (trimmed_Some _ _ _ (or_introl eq_refl)) in Hr as [-> Hr]. split.
      * intros [= <-]. by constructor.
      * by inversion 1.
    + split; [done|]. inversion 1; subst. unfold trimmed_non_empty in Hr. by rewrite bool_decide_eq_false_2 in Hr.
  - split; [done|]. inversion 1; congruence.
Qed.
End Answers.

(** Any denial wins, the first one; without one, any permission. *)
Definition verdict_of (resolved : option PermissionRequestDecision) (rs : list (option PermissionRequestDecision))
    (verdict : option PermissionRequestDecision) : Prop :=
  match verdict with
  | Some (Deny m) => ∃ i, rs !! i = Some (Some (Deny m)) ∧ ∀ j m', j < i → rs !! j ≠ Some (Some (Deny m'))
  | Some Allow => (resolved = Some Allow ∨ ∃ i, rs !! i = Some (Some Allow)) ∧ ∀ j m', rs !! j ≠ Some (Some (Deny m'))
  | None => resolved = None ∧ ∀ j d, rs !! j ≠ Some (Some d)
  end.
Lemma resolve_loop_spec resolved rs :
  resolved = None ∨ resolved = Some Allow → verdict_of resolved rs (resolve_loop resolved (omap id rs)).
Proof.
  unfold verdict_of. revert resolved. induction rs as [|[[|m]|] rs IH]; intros resolved Hresolved; simpl.
  - destruct Hresolved as [-> | ->]; naive_solver.
  - specialize (IH (Some Allow) (or_intror eq_refl)). destruct (resolve_loop _ _) as [[|m]|].
    + destruct IH as [_ IH]. split; [right; by exists 0|]. intros [|j] m'; [done|apply IH].
    + destruct IH as (i & Hi & Hbefore). exists (S i). split; [done|]. intros [|j] m' Hj; [done|]. apply Hbefore. lia.
    + by destruct IH.
  - exists 0. split; [done|]. lia.
  - specialize (IH resolved Hresolved). destruct (resolve_loop _ _) as [[|m]|].
    + destruct IH as [[Hr|[i Hi]] IH]; (split; [|intros [|j] m'; [done|apply IH]]); [by left|right; by exists (S i)].
    + destruct IH as (i & Hi & Hbefore). exists (S i). split; [done|]. intros [|j] m' Hj; [done|]. apply Hbefore. lia.
    + destruct IH as [Hr IH]. split; [done|]. intros [|j] d; [done|apply IH].
Qed.

End HookFacts.

(** ** The handlers that are found

    Discovery only ever appends handlers and warnings; what it appends is well
    formed and numbered in order. *)
Import Paths HookOutput Hooks HookDiscovery.

Module HookDiscoveryFacts.

Section Discovery.
Context `{Regex}.
Variable home_dir : option str.
Variable exists_ is_dir is_file : str → bool.
Variable read_to_string : str → str + str.
Variable hooks_file_from_str : str → str + HookEventsToml.

(** A handler that can be run: its command is not blank, it has at least a second,
    and its matcher is one that can match, where its event has matchers. *)
Definition runnable (h : ConfiguredHandler) : Prop :=
  trim (command h) ≠ [] ∧ (1 ≤ timeout_sec h)%Z
  ∧ ∀ m, matcher h = Some m → validate_matcher_pattern m = inr () ∧ event_name h ≠ UserPromptSubmit ∧ event_name h ≠ Stop.

(** [d'] is [d] with more handlers, numbered on, all of them managed or none. *)
Definition finds (managed : bool) (d d' : Discovery) : Prop :=
  ∃ new, handlers d' = handlers d ++ new ∧ next_order d' = (next_order d + Z.of_nat (length new))%Z
    ∧ ∀ i h, new !! i = Some h → display_order h = (next_order d + Z.of_nat i)%Z ∧ runnable h ∧ is_managed h = managed.

Lemma finds_refl managed d : finds managed d d.
Proof. exists []. rewrite app_nil_r. split_and!; [done|simpl; lia|]. intros i h Hh. by rewrite lookup_nil in Hh. Qed.
Lemma finds_warn managed w d : finds managed d (warn w d).
Proof. destruct (finds_refl managed d) as (new & ? & ? & ?). by exists new. Qed.
Lemma finds_trans managed d1 d2 d3 : finds managed d1 d2 → finds managed d2 d3 → finds managed d1 d3.
Proof.
  intros (n1 & Hh1 & Ho1 & H1) (n2 & Hh2 & Ho2 & H2). exists (n1 ++ n2). rewrite Hh2, Hh1, length_app.
  split_and!; [by rewrite app_assoc|lia|]. intros i h Hi. apply lookup_app_Some in Hi as [Hi|[Hle Hi]]; [by apply H1|].
  destruct (H2 _ _ Hi) as (-> & ? & ?). split_and!; [lia|done..].
Qed.
Lemma finds_foldl {A} managed (f : Discovery → A → Discovery) :
  (∀ d a, finds managed d (f d a)) → ∀ l d, finds managed d (foldl f d l).
Proof.
  intros Hf l. induction l as [|a l IH]; intros d; simpl; [apply finds_refl|]. eapply finds_trans; [apply Hf|apply IH].
Qed.

Lemma finds_append_handler src e m d handler :
  (∀ m', m = Some m' → validate_matcher_pattern m' = inr () ∧ e ≠ UserPromptSubmit ∧ e ≠ Stop) →
  finds (source_is_managed src) d (append_handler src e m d handler).
Proof.
  intros Hm. destruct handler as [command timeout async status| |]; simpl; [|apply finds_warn..].
  destruct async; [apply finds_warn|]. case_bool_decide as Hcommand; [apply finds_warn|].
  eexists [_]. split_and!; [done|simpl; lia|]. intros [|i] h Hh; simplify_eq/=.
  split_and!; [lia| |done]. split_and!; [done|simpl; lia|]. simpl. intros m' Hm'. by apply Hm.
Qed.

Lemma finds_append_group src e m hs d :
  (m = None ∨ e ≠ UserPromptSubmit ∧ e ≠ Stop) → finds (source_is_managed src) d (append_group_handlers src e m hs d).
Proof.
  intros He. unfold append_group_handlers.
  destruct (m ≫= _) as [[m' err]|] eqn:Hvalid; [apply finds_warn|].
  apply finds_foldl. intros d' handler. apply finds_append_handler. intros m' ->. simpl in Hvalid.
  destruct (validate_matcher_pattern m') as [err|[]] eqn:Hm; [done|]. split; [done|]. by destruct He.
Qed.

Lemma finds_append_hook_events src events d : finds (source_is_managed src) d (append_hook_events src events d).
Proof.
  apply finds_foldl. clear d. intros d [e groups]. apply finds_foldl. clear d. intros d group. apply finds_append_group.
  destruct e; simpl; auto; right; done.
Qed.

Lemma finds_append_source kind found d : finds false d (append_source kind found d).
Proof. destruct found as [[path events]|]; [|apply finds_refl]. apply (finds_append_hook_events {| source_is_managed := false |}). Qed.

Lemma finds_discover_layer layer d :
  finds false d (discover_layer home_dir is_file read_to_string hooks_file_from_str d layer).
Proof.
  unfold discover_layer. cbv zeta.
  assert (Hjson : finds false d (load_hooks_json home_dir is_file read_to_string hooks_file_from_str (config_folder layer) d).1).
  { unfold load_hooks_json. repeat case_match; simplify_eq/=; try apply finds_refl; apply finds_warn. }
  destruct (load_hooks_json _ _ _ _ _ d) as [d1 json]. simpl in Hjson.
  assert (Htoml : finds false d1 (load_toml_hooks_from_layer home_dir layer d1).1).
  { unfold load_toml_hooks_from_layer. repeat case_match; simplify_eq/=; try apply finds_refl; apply finds_warn. }
  destruct (load_toml_hooks_from_layer _ layer d1) as [d2 toml]. simpl in Htoml.
  eapply finds_trans; [exact Hjson|]. eapply finds_trans; [exact Htoml|].
  eapply finds_trans; [|apply finds_append_source]. eapply finds_trans; [|apply finds_append_source].
  repeat case_match; try apply finds_refl; apply finds_warn.
Qed.

Lemma finds_managed stack d : finds true d (append_managed_requirement_handlers home_dir exists_ is_dir stack d).
Proof.
  unfold append_managed_requirement_handlers. destruct (managed_hooks stack) as [managed|]; [|apply finds_refl].
  assert (Hpath : finds true d (managed_hooks_source_path home_dir exists_ is_dir managed d).1).
  { unfold managed_hooks_source_path. repeat case_match; simplify_eq/=; try apply finds_refl; apply finds_warn. }
  destruct (managed_hooks_source_path _ _ _ managed d) as [d1 [path|]]; simpl in Hpath; [|done].
  eapply finds_trans; [exact Hpath|]. apply (finds_append_hook_events {| source_is_managed := true |}).
Qed.

(** ** Ids *)

Definition COLON : char := 58%N.
Lemma run_id_parts h :
  split_on COLON (run_id h) = event_name_label (event_name h) :: show_int (display_order h) :: split_on COLON (source_path h).
Proof.
  unfold run_id. change (lit ":" ++ ?x) with (COLON :: x).
  rewrite split_on_app_sep by (destruct (event_name h); compute_done). simpl. rewrite split_on_app_sep; [done|].
  unfold show_int. assert (Hshow : ∀ n, COLON ∉ show_nat n).
  { intros n Hin. destruct (show_nat_spec n) as [Hdigits _]. rewrite Forall_forall in Hdigits.
    by specialize (Hdigits _ Hin). }
  case_match; [|apply Hshow]. rewrite not_elem_of_app. split; [compute_done|apply Hshow].
Qed.

Lemma show_int_inj z z' : (0 ≤ z)%Z → (0 ≤ z')%Z → show_int z = show_int z' → z = z'.
Proof.
  intros Hz Hz'. unfold show_int. rewrite !(proj2 (Z.ltb_ge _ _)) by done. intros Heq.
  apply (f_equal dec_value) in Heq. rewrite !(proj2 (show_nat_spec _)) in Heq. lia.
Qed.

Lemma run_id_order h h' : (0 ≤ display_order h)%Z → (0 ≤ display_order h')%Z → run_id h = run_id h' → display_order h = display_order h'.
Proof.
  intros Hh Hh' Heq. apply (f_equal (split_on COLON)) in Heq. rewrite !run_id_parts in Heq. simplify_eq. by apply show_int_inj.
Qed.

End Discovery.
End HookDiscoveryFacts.
