(* ===== verification/HookPromises.v ===== *)
(** * What hooks promise

    A hook before a tool that denies the call keeps the tool from running, and
    nothing else does; a call returns once the processes of its hooks have ended;
    a hook can allow what asks for permission only when none denies it; every run
    that is shown as started is shown as completed; the handlers that are found are
    well formed; no input that waits is lost. *)
From S2P Require Import Prelude Str Io Paths ExecApproval HookOutput Hooks HookEvents HookDiscovery HookRuntime HookFacts.
Import Paths ExecApproval HookOutput Hooks HookEvents HookDiscovery HookRuntime HookDiscoveryFacts HookFacts.

Module HookPromises.

(** ** Computations *)

Section Traced.
Context {Item : Type}.

Lemma traced_bind_Some {A B} (m : traced (Item:=Item) A) (f : A → traced B) effects b :
  (m ≫= f) = Some (effects, b) ↔
  ∃ effects1 a effects2, m = Some (effects1, a) ∧ f a = Some (effects2, b) ∧ effects = effects1 ++ effects2.
Proof.
  unfold mbind, traced_bind. destruct m as [[e1 a]|]; [|naive_solver]. split.
  - destruct (f a) as [[e2 b']|] eqn:Hf; [|done]. intros [= <- <-]. by exists e1, a, e2.
  - intros (e1' & a' & e2 & [= <- <-] & -> & ->). done.
Qed.
Lemma wait_Some {A} (o : option A) effects a : wait (Item:=Item) o = Some (effects, a) ↔ o = Some a ∧ effects = [].
Proof. unfold wait. destruct o; naive_solver. Qed.

Lemma traced_ret_Some {A} (a b : A) effects : mret (M:=traced (Item:=Item)) a = Some (effects, b) ↔ effects = [] ∧ b = a.
Proof. unfold mret, traced_ret. naive_solver. Qed.

(** A computation that returns. *)
Definition returns {A} (m : traced (Item:=Item) A) : Prop := ∃ effects a, m = Some (effects, a).
Lemma returns_bind {A B} (m : traced (Item:=Item) A) (f : A → traced B) :
  returns m → (∀ a, returns (f a)) → returns (m ≫= f).
Proof.
  intros (e1 & a & ->) Hf. destruct (Hf a) as (e2 & b & Hb). unfold mbind, traced_bind. simpl. rewrite Hb. by do 2 eexists.
Qed.
Lemma returns_ret {A} (a : A) : returns (mret a).
Proof. by do 2 eexists. Qed.
Lemma returns_emit effects : returns (emit effects).
Proof. by do 2 eexists. Qed.
Lemma returns_wait {A} (o : option A) : is_Some o → returns (wait o).
Proof. intros [a ->]. by do 2 eexists. Qed.
End Traced.
Create HintDb hooks.
#[export] Hint Resolve returns_bind returns_ret returns_emit returns_wait : hooks.

Ltac run_inv :=
  repeat match goal with
         | Hm : (_ ≫= _) = Some (_, _) |- _ => apply traced_bind_Some in Hm as (? & ? & ? & ? & Hm & ->)
         | Hm : wait _ = Some _ |- _ => apply wait_Some in Hm as [Hm ->]
         | Hm : mret _ = Some _ |- _ => apply traced_ret_Some in Hm as [-> Hm]; simplify_eq
         | Hm : emit _ = Some _ |- _ => injection Hm as <- <-
         end.

Section Promises.
Context {Item Value : Type} `{HookSerde Value} `{Regex} `{ToJson Value}.
Variable command_of : Value → option str.
Variable hooks : list ConfiguredHandler.

(** ** Hooks before a tool *)

Abbreviation pre_matched turn tool_name :=
  (select_handlers_for_matcher_inputs hooks PreToolUse (Hooks.matcher_inputs (hook_name tool_name) (HookRuntime.matcher_aliases tool_name)))
  (only parsing).

(** The first of the handlers, in their order, whose process denies the call. *)
Definition first_denial (matched : list ConfiguredHandler) (ends : schedule) (reason : str) : Prop :=
  ∃ i h o, matched !! i = Some h ∧ first_end ends i = Some o ∧ denies o reason
    ∧ ∀ j o' r, j < i → first_end ends j = Some o' → ¬ denies o' r.
Definition no_denial (matched : list ConfiguredHandler) (ends : schedule) : Prop :=
  ∀ i h o r, matched !! i = Some h → first_end ends i = Some o → ¬ denies o r.

Lemma find_denial matched ends outcomes turn_id :
  join_all (length matched) ends = Some outcomes →
  let results := zip_with (λ h o, parse_pre_tool_use_completed h (run_command h o) turn_id) matched outcomes in
  match find_map (λ result, pre_handler_reason (data result)) results with
  | Some reason => first_denial matched ends reason
  | None => no_denial matched ends
  end.
Proof.
  intros Hjoin results. apply join_all_Some in Hjoin as [Hlen Hends].
  assert (Hreason : ∀ i h o, matched !! i = Some h → first_end ends i = Some o →
    ∃ result, results !! i = Some result ∧ ∀ r, pre_handler_reason (data result) = Some r ↔ denies o r).
  { intros i h o Hh Ho. rewrite Hends in Ho by (by eapply lookup_lt_Some).
    exists (parse_pre_tool_use_completed h (run_command h o) turn_id). split.
    - unfold results. by rewrite lookup_zip_with, Hh, Ho.
    - intros r. unfold parse_pre_tool_use_completed, parsed_handler. rewrite <-(pre_reason_denies h).
      by destruct (pre_tool_use_result _) as [[??]?]. }
  destruct (find_map _ results) as [reason|] eqn:Hfind.
  - apply find_map_Some in Hfind as (i & result & Hi & Hr & Hbefore).
    pose proof (lookup_lt_Some _ _ _ Hi) as Hlt. unfold results in Hlt. rewrite length_zip_with in Hlt.
    destruct (lookup_lt_is_Some_2 matched i) as [h Hh]; [lia|].
    destruct (lookup_lt_is_Some_2 outcomes i) as [o Ho]; [lia|].
    rewrite <-Hends in Ho by lia. exists i, h, o. split_and!; [done..| |].
    + destruct (Hreason _ _ _ Hh Ho) as (result' & Hi' & Hiff). simplify_eq. by apply Hiff.
    + intros j o' r Hj Ho' Hdenies. destruct (lookup_lt_is_Some_2 matched j) as [h' Hh']; [lia|].
      destruct (Hreason _ _ _ Hh' Ho') as (result' & Hi' & Hiff). apply Hiff in Hdenies.
      rewrite (Hbefore j result') in Hdenies; done.
  - intros i h o r Hh Ho Hdenies. destruct (Hreason _ _ _ Hh Ho) as (result & Hi & Hiff). apply Hiff in Hdenies.
    apply find_map_None in Hfind. rewrite Forall_lookup in Hfind. rewrite (Hfind i result) in Hdenies; done.
Qed.

Lemma run_pre_reason ends request json outcome :
  to_json (pre_tool_use_input request) = inr json → run_pre_tool_use hooks ends request = Some outcome →
  let matched := select_handlers_for_matcher_inputs hooks PreToolUse
                   (Hooks.matcher_inputs (pre_tool_name request) (pre_matcher_aliases request)) in
  pre_outcome_should_block outcome = bool_decide (is_Some (pre_outcome_block_reason outcome))
  ∧ match pre_outcome_block_reason outcome with
    | Some reason => first_denial matched ends reason
    | None => no_denial matched ends
    end.
Proof.
  intros Hjson Hrun. cbv zeta. unfold run_pre_tool_use in Hrun. cbv zeta in Hrun.
  set (matched := select_handlers_for_matcher_inputs _ _ _) in *.
  case_bool_decide as Hnone.
  { simplify_eq/=. split; [done|]. intros i h o r Hh. by rewrite Hnone in Hh. }
  rewrite Hjson in Hrun. apply bind_Some in Hrun as (results & Hexec & Heq). simplify_eq/=.
  destruct (join_all (length matched) ends) as [outcomes|] eqn:Hjoin.
  2: { unfold execute_handlers in Hexec. by rewrite Hjoin in Hexec. }
  rewrite (execute_handlers_eq _ _ _ _ _ Hjoin) in Hexec. injection Hexec as <-. split.
  - apply existsb_find_map. apply Forall_zip_with_all. intros h o. unfold parse_pre_tool_use_completed, parsed_handler.
    pose proof (pre_blocks_reason h o) as Hblocks. cbv zeta in Hblocks. by destruct (pre_tool_use_result _) as [[??]?].
  - by apply find_denial.
Qed.

(** What the model is told, if anything. *)
Lemma run_pre_message (turn : TurnContext) id tool_name input ends json (effects : list (Effect Item)) message :
  to_json (pre_tool_use_input (pre_tool_use_request turn id tool_name input)) = inr json →
  run_pre_tool_use_hooks command_of hooks turn id tool_name input ends = Some (effects, message) →
  match message with
  | Some message => ∃ reason, first_denial (pre_matched turn tool_name) ends reason
                      ∧ message = blocked_message command_of tool_name input reason
  | None => no_denial (pre_matched turn tool_name) ends
  end.
Proof.
  intros Hjson Hpre. unfold run_pre_tool_use_hooks in Hpre. cbv zeta in Hpre. run_inv.
  match goal with Hrun : run_pre_tool_use _ _ _ = Some ?o |- _ =>
    destruct (run_pre_reason _ _ _ _ Hjson Hrun) as [Hblock Hreason]; rewrite Hblock end.
  destruct (pre_outcome_block_reason _) as [reason|]; simpl; [by exists reason|done].
Qed.

(** ** A call returns *)

(** A schedule in which every process that a handler can have ends. *)
Definition all_end (ends : schedule) : Prop := ∀ i, i < length hooks → is_Some (first_end ends i).

Lemma selected_end ends e inputs :
  all_end ends → ∀ i, i < length (select_handlers_for_matcher_inputs hooks e inputs) → is_Some (first_end ends i).
Proof.
  intros Hends i Hi. apply Hends. eapply Nat.lt_le_trans; [exact Hi|]. apply List.filter_length_le.
Qed.

Ltac executes :=
  match goal with
  | Hends : all_end ?ends |- context [execute_handlers (select_handlers_for_matcher_inputs _ ?e ?inputs) _ ?t ?parse] =>
      destruct (execute_handlers_ends _ ends t parse (selected_end ends e inputs Hends)) as [? ->]
  end.

Lemma run_post_returns (turn : TurnContext) id tool_name input response ends :
  all_end ends → returns (Item:=Item) (run_post_tool_use_hooks hooks turn id tool_name input response ends).
Proof.
  intros Hends. unfold run_post_tool_use_hooks. cbv zeta. apply returns_bind; [apply returns_emit|]. intros _.
  apply returns_bind; [apply returns_wait|intros outcome; apply returns_bind; [apply returns_emit|]; intros _; apply returns_ret].
  unfold run_post_tool_use. case_bool_decide; [done|]. destruct (to_json _); [done|].
  by executes.
Qed.

Lemma run_pre_returns (turn : TurnContext) id tool_name input ends :
  all_end ends → returns (Item:=Item) (run_pre_tool_use_hooks command_of hooks turn id tool_name input ends).
Proof.
  intros Hends. unfold run_pre_tool_use_hooks. cbv zeta. apply returns_bind; [apply returns_emit|]. intros _.
  apply returns_bind; [apply returns_wait|intros outcome; apply returns_bind; [apply returns_emit|]; intros _; apply returns_ret].
  unfold run_pre_tool_use. case_bool_decide; [done|]. destruct (to_json _); [done|].
  by executes.
Qed.

(** A call of a tool returns, with a result, as soon as the processes of its
    hooks have ended, whatever they did. *)
Lemma dispatch_returns {W Output} (after_tool_use : list (str * HookResult)) (turn : TurnContext)
    (call_id display_name : str) (tool : ToolHandler (Value:=Value) W Output) (pre_ends post_ends : schedule) (w : W) :
  all_end pre_ends → all_end post_ends →
  returns (Item:=Item) (dispatch_any command_of hooks after_tool_use turn call_id display_name tool pre_ends post_ends w).
Proof.
  intros Hpre Hpost.
  unfold dispatch_any. destruct (matches_kind tool); simpl negb; cbv iota; [|apply returns_ret].
  apply returns_bind.
  { destruct (pre_tool_use_payload tool) as [[name input]|]; [by apply run_pre_returns|apply returns_ret]. }
  intros [message|]; [apply returns_ret|]. destruct (handle tool w) as [w' result].
  apply returns_bind; [|intros; apply returns_ret]. unfold after_call. cbv zeta. apply returns_bind.
  { destruct (match result with inl _ => None | inr _ => _ end) as [payload|]; [|apply returns_ret].
    apply returns_bind; [by apply run_post_returns|intros; apply returns_ret]. }
  intros outcome. destruct (after_tool_use_error _); [apply returns_ret|]. apply returns_bind; [|intros; apply returns_ret].
  destruct outcome; [apply returns_emit|apply returns_ret].
Qed.

(** C15. A call of a tool that hooks before it look at returns once the
    processes of its hooks have ended, in any order. When the process of some
    selected handler denies it (code 2 with a reason, or supported JSON that
    denies it), the first in the order of the handlers gives the reason, the
    model gets it and the tool does not run; when none does, the tool runs: a
    handler that fails in any other way does not keep it from running. *)
Theorem denied_tool_never_runs {W Output} (after_tool_use : list (str * HookResult)) (turn : TurnContext)
    (call_id display_name : str) (tool : ToolHandler (Value:=Value) W Output) (pre_ends post_ends : schedule) (w : W)
    (tool_name : HookToolName) (tool_input : Value) (json : str) :
  matches_kind tool = true →
  pre_tool_use_payload tool = Some (tool_name, tool_input) →
  to_json (pre_tool_use_input (pre_tool_use_request turn call_id tool_name tool_input)) = inr json →
  all_end pre_ends → all_end post_ends →
  let matched := pre_matched turn tool_name in
  ∃ (effects : list (Effect Item)) w' result,
    dispatch_any command_of hooks after_tool_use turn call_id display_name tool pre_ends post_ends w = Some (effects, (w', result))
    ∧ ((∃ reason, first_denial matched pre_ends reason ∧ w' = w
          ∧ result = inl (RespondToModel (blocked_message command_of tool_name tool_input reason)))
       ∨ no_denial matched pre_ends ∧ w' = (handle tool w).1).
Proof.
  intros Hkind Hpayload Hjson Hpre_ends Hpost_ends. cbv zeta.
  destruct (dispatch_returns after_tool_use turn call_id display_name tool pre_ends post_ends w Hpre_ends Hpost_ends)
    as (effects & [w' result] & Hrun).
  exists effects, w', result. split; [done|].
  unfold dispatch_any in Hrun. rewrite Hkind, Hpayload in Hrun. simpl negb in Hrun.
  apply traced_bind_Some in Hrun as (effects1 & message & effects2 & Hpre & Hrun & ->).
  apply run_pre_message with (json := json) in Hpre; [|done].
  destruct message as [message|].
  - left. destruct Hpre as (reason & Hfirst & ->). injection Hrun as <- <- <-. by exists reason.
  - right. split; [done|]. destruct (handle tool w) as [w2 r] eqn:Hhandle. simpl. run_inv. done.
Qed.

(** ** Hooks for permission *)

Definition permission_request_of (turn : TurnContext) (suffix : str) (tool_name : HookToolName) (tool_input : Value)
    : PermissionRequestRequest Value := {|
  permission_context_of := hook_context turn; permission_turn_id := sub_id turn;
  permission_tool_name := hook_name tool_name; permission_matcher_aliases := HookRuntime.matcher_aliases tool_name;
  run_id_suffix := suffix; permission_tool_input := tool_input |}.

(** The verdict of the answers of handlers. *)
Definition verdict_is (matched : list ConfiguredHandler) (ends : schedule) (verdict : option PermissionRequestDecision) : Prop :=
  let answer i d := ∃ h o, matched !! i = Some h ∧ first_end ends i = Some o ∧ answers o d in
  match verdict with
  | Some (Deny m) => ∃ i, answer i (Deny m) ∧ ∀ j m', j < i → ¬ answer j (Deny m')
  | Some Allow => (∃ i, answer i Allow) ∧ ∀ j m', ¬ answer j (Deny m')
  | None => ∀ j d, ¬ answer j d
  end.

Lemma answer_lookup matched ends outcomes turn_id i d :
  join_all (length matched) ends = Some outcomes →
  (data <$> zip_with (λ h o, parse_permission_completed h (run_command h o) turn_id) matched outcomes) !! i = Some (Some d)
  ↔ ∃ h o, matched !! i = Some h ∧ first_end ends i = Some o ∧ answers o d.
Proof.
  intros Hjoin. apply join_all_Some in Hjoin as [Hlen Hends]. rewrite list_lookup_fmap, lookup_zip_with.
  destruct (matched !! i) as [h|] eqn:Hh; simpl; [|naive_solver].
  assert (Hlt : i < length matched) by (by eapply lookup_lt_Some).
  destruct (lookup_lt_is_Some_2 outcomes i) as [o Ho]; [lia|]. rewrite Ho. simpl.
  unfold parse_permission_completed, parsed_handler.
  pose proof (permission_result_answers h o d) as Hanswer. destruct (permission_result _) as [[status entries] d']. simpl in *.
  rewrite (Hends i Hlt), Ho. naive_solver.
Qed.

Lemma run_permission_returns (turn : TurnContext) suffix tool_name input ends :
  all_end ends → returns (Item:=Item) (run_permission_request_hooks hooks turn suffix tool_name input ends).
Proof.
  intros Hends. unfold run_permission_request_hooks. cbv zeta. apply returns_bind; [apply returns_emit|]. intros _.
  apply returns_bind; [apply returns_wait|intros outcome; apply returns_bind; [apply returns_emit|]; intros _; apply returns_ret].
  unfold run_permission_request. case_bool_decide; [done|]. destruct (to_json _); [done|]. by executes.
Qed.

(** What the hooks for permission say together, once their processes have
    ended: a denial, with the message of the first handler that denies, when
    one denies; a permission when none denies and one allows; nothing when
    none answers. *)
Theorem permission_hooks_verdict (turn : TurnContext) (suffix : str) (tool_name : HookToolName) (tool_input : Value)
    (ends : schedule) (json : str) :
  to_json (permission_request_input (permission_request_of turn suffix tool_name tool_input)) = inr json →
  all_end ends →
  ∃ (effects : list (Effect Item)) verdict,
    run_permission_request_hooks hooks turn suffix tool_name tool_input ends = Some (effects, verdict)
    ∧ verdict_is (select_handlers_for_matcher_inputs hooks PermissionRequest
                    (Hooks.matcher_inputs (hook_name tool_name) (HookRuntime.matcher_aliases tool_name))) ends verdict.
Proof.
  clear command_of. intros Hjson Hends. destruct (run_permission_returns turn suffix tool_name tool_input ends Hends) as (effects & verdict & Hrun).
  exists effects, verdict. split; [done|]. unfold run_permission_request_hooks in Hrun. cbv zeta in Hrun. run_inv.
  fold (permission_request_of turn suffix tool_name tool_input) in *.
  match goal with Hr : run_permission_request _ _ _ = Some _ |- _ => rename Hr into Hpermission end.
  unfold run_permission_request in Hpermission. cbv zeta in Hpermission. simpl in Hpermission.
  set (matched := select_handlers_for_matcher_inputs _ _ _) in *.
  case_bool_decide as Hnone; [simplify_eq/=; intros j d (h & o & Hh & _); by rewrite Hnone in Hh|].
  rewrite Hjson in Hpermission. apply bind_Some in Hpermission as (results & Hexec & Heq). simplify_eq/=.
  destruct (join_all (length matched) ends) as [outcomes|] eqn:Hjoin.
  2: { unfold execute_handlers in Hexec. by rewrite Hjoin in Hexec. }
  rewrite (execute_handlers_eq _ _ _ _ _ Hjoin) in Hexec. injection Hexec as <-.
  pose proof (λ i d, answer_lookup matched ends outcomes (Some (sub_id turn)) i d Hjoin) as Hanswer.
  set (results := zip_with _ matched outcomes) in *.
  pose proof (resolve_loop_spec None (data <$> results) (or_introl eq_refl)) as Hverdict.
  rewrite omap_id_fmap in Hverdict.
  unfold verdict_of in Hverdict. unfold verdict_is, resolve_permission_request_decision.
  destruct (resolve_loop None _) as [[|m]|]; setoid_rewrite <-Hanswer; naive_solver.
Qed.

(** ** What is shown of the runs *)

Inductive HookRequest : Type :=
| BeforeTool (request : PreToolUseRequest Value)
| ForPermission (request : PermissionRequestRequest Value)
| AfterTool (request : PostToolUseRequest Value)
| AtStart (request : SessionStartRequest) (turn_id : option str)
| AtPrompt (request : UserPromptSubmitRequest)
| AtStop (request : StopRequest).
Definition previewed (request : HookRequest) : list HookRunSummary :=
  match request with
  | BeforeTool r => preview_pre_tool_use hooks r
  | ForPermission r => preview_permission_request hooks r
  | AfterTool r => preview_post_tool_use hooks r
  | AtStart r _ => preview_session_start hooks r
  | AtPrompt r => preview_user_prompt_submit hooks r
  | AtStop r => preview_stop hooks r
  end.
Definition turn_of (request : HookRequest) : option str :=
  match request with
  | BeforeTool r => Some (pre_turn_id r) | ForPermission r => Some (permission_turn_id r)
  | AfterTool r => Some (post_turn_id r) | AtStart _ turn_id => turn_id
  | AtPrompt r => Some (submit_turn_id r) | AtStop r => Some (stop_turn_id r)
  end.
(** The events of the outcome, when all the processes have ended. *)
Definition events_after (ends : schedule) (request : HookRequest) : option (list HookCompletedEvent) :=
  match request with
  | BeforeTool r => pre_events <$> run_pre_tool_use hooks ends r
  | ForPermission r => permission_events <$> run_permission_request hooks ends r
  | AfterTool r => post_events <$> run_post_tool_use hooks ends r
  | AtStart r turn_id => context_events <$> run_session_start hooks ends r turn_id
  | AtPrompt r => context_events <$> run_user_prompt_submit hooks ends r
  | AtStop r => stop_events <$> run_stop hooks ends r
  end.

(** The event completes the run: the same run, and no longer running. *)
Definition completes (turn_id : option str) (run : HookRunSummary) (event : HookCompletedEvent) : Prop :=
  let run' := completed_run event in
  completed_turn_id event = turn_id ∧ run_status run = Running ∧ run_status run' ≠ Running
  ∧ run_summary_id run' = run_summary_id run ∧ run_event_name run' = run_event_name run ∧ run_scope run' = run_scope run
  ∧ run_source_path run' = run_source_path run ∧ run_source run' = run_source run
  ∧ run_display_order run' = run_display_order run ∧ run_status_message run' = run_status_message run.

Lemma completes_summary turn_id handler status entries :
  status ≠ Running →
  completes turn_id (running_summary handler)
    {| completed_turn_id := turn_id; completed_run := completed_summary handler status entries |}.
Proof. by intros. Qed.
Lemma completes_for_tool_use turn_id run event id :
  completes turn_id run event → completes turn_id (hook_run_for_tool_use run id) (hook_completed_for_tool_use event id).
Proof. unfold completes. simpl. intros (? & ? & ? & Hid & ?). by rewrite Hid. Qed.

(** A result that leaves no run running. *)
Definition settles {D} (parse : ConfiguredHandler → CommandRunResult → option str → ParsedHandler D) : Prop :=
  ∀ handler r turn_id, completes turn_id (running_summary handler) (completed (parse handler r turn_id)).
Lemma by_exit_settles {D} nothing on_success two r :
  (∀ out, (on_success out).1.1 ≠ Running) → (∀ p, two = Some p → p.1.1 ≠ Running) →
  (by_exit (D:=D) nothing on_success two r).1.1 ≠ Running.
Proof.
  intros Hsuccess Htwo. unfold by_exit. destruct (error r); [done|]. destruct (exit_code r) as [code|]; [|done].
  repeat case_bool_decide; [done|apply Hsuccess| |]; destruct two as [p|]; try done. by apply Htwo.
Qed.
Lemma parsed_handler_settles {D} (result : CommandRunResult → Parsed D) :
  (∀ r, (result r).1.1 ≠ Running) → settles (λ handler r turn_id, parsed_handler result turn_id handler r).
Proof.
  intros Hresult handler r turn_id. unfold parsed_handler. specialize (Hresult r).
  destruct (result r) as [[status entries] d]. by apply completes_summary.
Qed.

Ltac settle :=
  apply parsed_handler_settles; intros r; apply by_exit_settles;
  [intros out; unfold plain_context; repeat case_match; done|intros p Hp; simplify_eq/=; repeat case_match; done].
Lemma pre_settles : settles parse_pre_tool_use_completed.
Proof. settle. Qed.
Lemma permission_settles : settles parse_permission_completed.
Proof. settle. Qed.
Lemma post_settles : settles parse_post_tool_use_completed.
Proof. settle. Qed.
Lemma start_settles : settles parse_session_start_completed.
Proof. settle. Qed.
Lemma submit_settles : settles parse_user_prompt_submit_completed.
Proof. settle. Qed.
Lemma stop_settles : settles parse_stop_completed.
Proof.
  cut (settles (λ handler r turn_id, parsed_handler stop_result turn_id handler r)); [done|]. settle.
Qed.

Lemma executed_complete {D} matched ends turn_id (parse : ConfiguredHandler → CommandRunResult → option str → ParsedHandler D) results :
  settles parse → execute_handlers matched ends turn_id parse = Some results →
  Forall2 (λ handler result, completes turn_id (running_summary handler) (completed result)) matched results.
Proof.
  intros Hsettles Hexec. destruct (join_all (length matched) ends) as [outcomes|] eqn:Hjoin.
  2: { unfold execute_handlers in Hexec. by rewrite Hjoin in Hexec. }
  rewrite (execute_handlers_eq _ _ _ _ _ Hjoin) in Hexec. injection Hexec as <-.
  apply join_all_Some in Hjoin as [Hlen _]. revert outcomes Hlen.
  induction matched as [|h matched IH]; intros [|o outcomes] Hlen; try done; constructor; [apply Hsettles|].
  apply IH. by injection Hlen.
Qed.
Lemma failed_complete matched turn_id message :
  Forall2 (λ handler event, completes turn_id (running_summary handler) event) matched
    (serialization_failure_hook_events matched turn_id message).
Proof.
  unfold serialization_failure_hook_events. apply Forall2_fmap_r.
  induction matched; constructor; [by apply completes_summary|done].
Qed.
Lemma complete_for_tool_use {A} matched turn_id id (event_of : A → HookCompletedEvent) results :
  Forall2 (λ handler result, completes turn_id (running_summary handler) (event_of result)) matched results →
  Forall2 (completes turn_id) ((λ handler, hook_run_for_tool_use (running_summary handler) id) <$> matched)
    ((λ result, hook_completed_for_tool_use (event_of result) id) <$> results).
Proof. intros Hruns. rewrite Forall2_fmap. eapply Forall2_impl; [done|]. intros. by apply completes_for_tool_use. Qed.

Lemma events_complete (ends : schedule) (request : HookRequest) events :
  events_after ends request = Some events → Forall2 (completes (turn_of request)) (previewed request) events.
Proof.
  destruct request as [r|r|r|r turn_id|r|r]; simpl; intros Hevents; apply fmap_Some in Hevents as (outcome & Hrun & ->).
  all: unfold run_pre_tool_use, run_permission_request, run_post_tool_use, run_session_start, run_user_prompt_submit,
         run_stop in Hrun; cbv zeta in Hrun.
  all: unfold preview_pre_tool_use, preview_permission_request, preview_post_tool_use, preview_session_start,
         preview_user_prompt_submit, preview_stop.
  all: try unfold serialization_failure_hook_events_for_tool_use in Hrun.
  all: case_bool_decide as Hnone; [simplify_eq/=; unfold select_handlers in *; rewrite Hnone; apply Forall2_nil_2|].
  all: destruct (to_json _) as [err|json].
  1, 3, 5: simplify_eq/=; apply (complete_for_tool_use _ _ _ id); apply failed_complete.
  4, 6, 8: simplify_eq/=; apply Forall2_fmap_l, failed_complete.
  4, 5: apply fmap_Some in Hrun as (results & Hexec & ->); simpl.
  all: try (apply bind_Some in Hrun as (results & Hexec & Heq); simplify_eq/=).
  1-3: apply complete_for_tool_use; eapply executed_complete; [|exact Hexec];
    auto using pre_settles, permission_settles, post_settles.
  all: apply Forall2_fmap; eapply executed_complete; [|exact Hexec]; auto using start_settles, submit_settles, stop_settles.
Qed.

Lemma events_after_ends (ends : schedule) (request : HookRequest) : all_end ends → is_Some (events_after ends request).
Proof.
  intros Hends. destruct request as [r|r|r|r turn_id|r|r]; simpl; apply fmap_is_Some;
    unfold run_pre_tool_use, run_permission_request, run_post_tool_use, run_session_start, run_user_prompt_submit, run_stop;
    cbv zeta; case_bool_decide; try done; (destruct (to_json _); [done|]); unfold select_handlers in *; by executes.
Qed.

(** For each of the six events: once the processes have ended, every run
    of a hook that was shown as started is shown as completed, once, in the
    same order and no longer running; also when they were never started, since
    the input could not be written. *)
Theorem every_hook_run_completes (ends : schedule) (request : HookRequest) :
  all_end ends →
  ∃ events, events_after ends request = Some events ∧ Forall2 (completes (turn_of request)) (previewed request) events.
Proof.
  intros Hends. destruct (events_after_ends ends request Hends) as [events Hevents]. exists events. split; [done|].
  by apply (events_complete ends).
Qed.

(** ** Input that waits *)

Variable user_message : Item → option str.

(** The items that a computation puts into the conversation for the user. *)
Definition recorded (effects : list (Effect Item)) : list Item :=
  omap (λ effect, match effect with UserPromptRecorded item | ItemRecorded item => Some item | _ => None end) effects.
Definition record_item (record : PendingInputRecord Item) : Item :=
  match record with UserMessage item _ | ConversationItem item => item end.

Lemma recorded_app effects effects' : recorded (effects ++ effects') = recorded effects ++ recorded effects'.
Proof. apply omap_app. Qed.
Lemma recorded_runs (turn : TurnContext) runs : recorded (HookStarted (Some (sub_id turn)) <$> runs) = [].
Proof. by induction runs. Qed.
Lemma recorded_events events : recorded (HookCompleted <$> events) = [].
Proof. by induction events. Qed.
Lemma record_contexts_inv contexts effects u :
  record_additional_contexts contexts = Some (effects, u) → recorded effects = [].
Proof. unfold record_additional_contexts. intros Hr. run_inv. by case_bool_decide. Qed.

Lemma inspect_inv turn item ends effects disposition :
  inspect_pending_input hooks user_message turn item ends = Some (effects, disposition) →
  recorded effects = [] ∧
  match disposition with
  | Accepted record => record_item record = item
  | BlockedInput _ => is_Some (user_message item)
  end.
Proof.
  unfold inspect_pending_input. destruct (user_message item) as [message|]; intros Hi; [|by run_inv].
  unfold run_user_prompt_submit_hooks in Hi. cbv zeta in Hi. run_inv.
  unfold emit_hook_started_events, emit_hook_completed_events in *. run_inv.
  rewrite !recorded_app, recorded_runs, recorded_events. split; [done|].
  repeat case_match; simplify_eq; done.
Qed.

Lemma inspect_all_inv turn pending accepted effects accepted' stopped :
  inspect_all hooks user_message turn pending accepted = Some (effects, (accepted', stopped)) →
  recorded effects = [] ∧ ∃ new, accepted' = accepted ++ new ∧
  match stopped with
  | None => pending.*1 = record_item <$> new
  | Some (_, rest) => ∃ item, pending.*1 = (record_item <$> new) ++ item :: rest ∧ is_Some (user_message item)
  end.
Proof.
  revert accepted effects. induction pending as [|[item ends] pending IH]; intros accepted effects Hi; simpl in Hi.
  { run_inv. split; [done|]. exists []. by rewrite app_nil_r. }
  apply traced_bind_Some in Hi as (e1 & disposition & e2 & Hinspect & Hi & ->).
  apply inspect_inv in Hinspect as [He1 Hitem]. rewrite recorded_app, He1. destruct disposition as [record|contexts].
  - apply IH in Hi as (He2 & new & -> & Hnew). split; [done|]. exists (record :: new). rewrite <-app_assoc. split; [done|].
    destruct stopped as [[contexts rest]|]; csimpl.
    + destruct Hnew as (blocked & -> & Hblocked). exists blocked. by rewrite Hitem.
    + by rewrite Hnew, Hitem.
  - run_inv. split; [done|]. exists []. rewrite app_nil_r. split; [done|]. by exists item.
Qed.

Lemma record_all_inv accepted effects u :
  record_all accepted = Some (effects, u) → recorded effects = record_item <$> accepted.
Proof.
  revert effects. induction accepted as [|record accepted IH]; intros effects Hr; simpl in Hr; [by run_inv|].
  apply traced_bind_Some in Hr as (e1 & v & e2 & Hrecord & Hr & ->). rewrite recorded_app, (IH _ Hr). csimpl.
  destruct record as [item contexts|item]; unfold record_pending_input in Hrecord; [|by run_inv].
  apply traced_bind_Some in Hrecord as (e3 & v3 & e4 & He3 & He4 & ->). run_inv.
  apply record_contexts_inv in He4. by rewrite recorded_app, He4.
Qed.

Lemma submit_returns (turn : TurnContext) prompt ends :
  all_end ends → returns (Item:=Item) (run_user_prompt_submit_hooks hooks turn prompt ends).
Proof.
  intros Hends. unfold run_user_prompt_submit_hooks. cbv zeta. apply returns_bind; [apply returns_emit|]. intros _.
  apply returns_bind; [apply returns_wait|intros outcome; apply returns_bind; [apply returns_emit|]; intros _; apply returns_ret].
  unfold run_user_prompt_submit. case_bool_decide; [done|]. destruct (to_json _); [done|].
  unfold select_handlers in *. by executes.
Qed.
Lemma take_returns (turn : TurnContext) pending :
  Forall (λ waiting, all_end waiting.2) pending → returns (Item:=Item) (take_pending_input hooks user_message turn pending).
Proof.
  intros Hends. unfold take_pending_input. apply returns_bind.
  - generalize (@nil (PendingInputRecord Item)).
    induction Hends as [|[item ends] pending Hend _ IH]; intros accepted; simpl; [apply returns_ret|].
    apply returns_bind; [|intros [record|contexts]; [apply IH|apply returns_ret]].
    unfold inspect_pending_input. destruct (user_message item); [|apply returns_ret].
    apply returns_bind; [by apply submit_returns|]. intros [should_stop contexts]. apply returns_ret.
  - intros [accepted stopped]. apply returns_bind; [|intros _; apply returns_bind; [apply returns_emit|intros; apply returns_ret]].
    induction accepted as [|record accepted IH]; simpl; [apply returns_ret|]. apply returns_bind; [|done].
    destruct record; simpl; apply returns_emit.
Qed.

(** C16. Once the processes of the hooks for the input have ended, no input
    that waits is lost or reordered: what is accepted is put into the
    conversation in order; a blocked item, which is a message of the user, is
    the only one that is dropped; what follows it is handed to the session to
    wait again, which takes it while the turn is active. The turn takes its
    input again only when it is shorter; it ends only when it dropped the last
    of it and accepted nothing. *)
Theorem no_pending_input_lost (turn : TurnContext) (pending : list (Item * schedule)) :
  Forall (λ waiting, all_end waiting.2) pending →
  ∃ effects requeued next blocked,
    take_pending_input hooks user_message turn pending = Some (effects, (requeued, next))
    ∧ pending.*1 = recorded effects ++ blocked ++ requeued
    ∧ (blocked = [] ∧ requeued = [] ∨ ∃ item, blocked = [item] ∧ is_Some (user_message item))
    ∧ (next = TakeInputAgain → length requeued < length pending)
    ∧ (next = EndTurn ↔ recorded effects = [] ∧ requeued = [] ∧ blocked ≠ []).
Proof.
  intros Hends. destruct (take_returns turn pending Hends) as (effects & [requeued next] & Htake).
  exists effects, requeued, next. cut (∃ blocked, pending.*1 = recorded effects ++ blocked ++ requeued
    ∧ (blocked = [] ∧ requeued = [] ∨ ∃ item, blocked = [item] ∧ is_Some (user_message item))
    ∧ (next = TakeInputAgain → length requeued < length pending)
    ∧ (next = EndTurn ↔ recorded effects = [] ∧ requeued = [] ∧ blocked ≠ [])).
  { intros (blocked & Hblocked). by exists blocked. }
  unfold take_pending_input in Htake.
  apply traced_bind_Some in Htake as (e1 & [accepted stopped] & e2 & Hinspect & Htake & ->).
  apply traced_bind_Some in Htake as (e3 & u3 & e4 & Hrecord & Htake & ->).
  apply traced_bind_Some in Htake as (e5 & u5 & e6 & Hcontexts & Htake & ->). run_inv.
  apply inspect_all_inv in Hinspect as (He1 & new & -> & Hnew). apply record_all_inv in Hrecord.
  apply record_contexts_inv in Hcontexts. rewrite !recorded_app, He1, Hrecord, Hcontexts. simpl. rewrite app_nil_r.
  destruct stopped as [[contexts rest]|]; simpl.
  - destruct Hnew as (item & Hpending & Hitem). exists [item]. split; [done|]. split; [right; by exists item|].
    apply (f_equal length) in Hpending. rewrite length_app, length_fmap in Hpending. simpl in Hpending.
    split; [intros _; lia|]. destruct new, rest; simpl; naive_solver.
  - exists []. split; [by rewrite app_nil_r|]. naive_solver.
Qed.

End Promises.

(** ** Discovery *)

(** The handlers that the configuration has, in order: they are numbered
    from 0, so no two of their runs have the same id; each can be run (a
    command that is not blank, a second at least, a valid matcher, and none
    where the event has none); those of the managed requirements come before
    all others. *)
Theorem discovered_handlers `{Regex} home_dir exists_ is_dir is_file read_to_string hooks_file_from_str enabled stack :
  let found := handlers (engine_handlers home_dir exists_ is_dir is_file read_to_string hooks_file_from_str enabled stack) in
  (∀ i h, found !! i = Some h → display_order h = Z.of_nat i ∧ runnable h)
  ∧ NoDup (run_id <$> found)
  ∧ ∃ managed others, found = managed ++ others
      ∧ Forall (λ h, is_managed h = true) managed ∧ Forall (λ h, is_managed h = false) others.
Proof.
  intros found.
  cut (∃ d, finds true nothing_found d ∧
         finds false d (engine_handlers home_dir exists_ is_dir is_file read_to_string hooks_file_from_str enabled stack)).
  2: { unfold engine_handlers, discover_handlers. destruct enabled, stack as [stack|].
       - eexists. split; [apply finds_managed|]. apply finds_foldl. intros. apply finds_discover_layer.
       - exists nothing_found. split; apply finds_refl.
       - exists nothing_found. split; apply finds_refl.
       - exists nothing_found. split; apply finds_refl. }
  intros (d & (managed & Hm & Hmo & Hmanaged) & others & Ho & _ & Hothers). fold found in Ho. rewrite Hm in Ho. simpl in *.
  rewrite Hmo in Hothers.
  assert (Hfound : ∀ i h, found !! i = Some h → display_order h = Z.of_nat i ∧ runnable h).
  { intros i h Hi. rewrite Ho in Hi. apply lookup_app_Some in Hi as [Hi|[Hle Hi]].
    - destruct (Hmanaged _ _ Hi) as (-> & ? & _). split; [lia|done].
    - destruct (Hothers _ _ Hi) as (-> & ? & _). split; [lia|done]. }
  split; [done|]. split.
  - apply NoDup_alt. intros i j x Hi Hj. rewrite list_lookup_fmap in Hi, Hj.
    apply fmap_Some in Hi as (h & Hi & ->). apply fmap_Some in Hj as (h' & Hj & Heq).
    destruct (Hfound _ _ Hi) as [Hoi _], (Hfound _ _ Hj) as [Hoj _]. apply run_id_order in Heq; lia.
  - exists managed, others. split; [done|]. rewrite !Forall_lookup. naive_solver.
Qed.
End HookPromises.

(** ** Hooks: concrete runs

    A small configuration whose hooks are found, run and obeyed, and the witnesses
    of what [HookPromises.v] promises.  serde_json is a table of a few texts. *)
Import Paths ExecApproval HookOutput Hooks HookEvents HookDiscovery HookRuntime HookDiscoveryFacts HookFacts HookPromises.

Module HookWitness.

(** A JSON value is the command that it holds. *)
Definition no_regex : Regex := λ _, inl (lit "unsupported").
Definition always_json : ToJson str := λ _, inr (lit "{}").
Definition universal : HookUniversalOutputWire := {|
  wire_continue := true; wire_stop_reason := None; wire_suppress_output := false; wire_system_message := None |}.
Definition serde : HookSerde str := {|
  de_pre_tool_use text :=
    if bool_decide (text = lit "{deny}") then
      Some {| pre_universal := universal; pre_decision := Some LegacyBlock; pre_reason := Some (lit " no rm "); pre_specific := None |}
    else None;
  de_permission_request text :=
    if bool_decide (text = lit "{allow}") then
      Some {| permission_universal := universal;
              permission_specific := Some (Some {| behavior := BehaviorAllow; updated_input := None; updated_permissions := None;
                                                   wire_message := None; interrupt := false |}) |}
    else if bool_decide (text = lit "{deny and interrupt}") then
      Some {| permission_universal := universal;
              permission_specific := Some (Some {| behavior := BehaviorDeny; updated_input := None; updated_permissions := None;
                                                   wire_message := None; interrupt := true |}) |}
    else None;
  de_post_tool_use _ := None; de_session_start _ := None; de_user_prompt_submit _ := None; de_stop _ := None |}.
#[local] Existing Instances no_regex always_json serde.

(** ** Discovery *)

Definition no_events : HookEventsToml := {|
  pre_tool_use := []; permission_request := []; post_tool_use := []; session_start := []; user_prompt_submit := []; stop := [] |}.
Definition group (m : string) (commands : list string) : MatcherGroup := {|
  group_matcher := Some (lit m); group_hooks := (λ c, Command (lit c) None false None) <$> commands |}.
Definition user_layer : ConfigLayerEntry := {|
  name := LayerUser (lit "/home/me/.codex/config.toml"); is_disabled := false;
  config_hooks := Some (inr {|
    pre_tool_use := [group "Bash" ["check-a"; " "; "check-b"]; group "[" ["never"]]; permission_request := [group "*" ["ask-a"; "ask-b"]];
    post_tool_use := []; session_start := []; user_prompt_submit := [group "[" ["prompt"]]; stop := [] |}) |}.
Definition managed : ManagedHooks := {|
  managed_dir := Some (lit "/etc/codex/hooks");
  managed_events := {| pre_tool_use := [group "Bash|apply_patch" ["audit"]]; permission_request := []; post_tool_use := [];
                       session_start := []; user_prompt_submit := []; stop := [] |};
  requirement_source := Some CloudRequirements |}.
Definition stack : ConfigLayerStack := {| layers := [user_layer]; managed_hooks := Some managed |}.
Definition found : Discovery :=
  engine_handlers None (λ _, true) (λ _, true) (λ _, false) (λ _, inl []) (λ _, inl []) true (Some stack).

(** The audit of the managed requirements is first; a blank command and a matcher
    that is no regular expression are skipped; a prompt has no matcher. *)
Example handlers_found :
  ((λ h, (command h, matcher h, display_order h, is_managed h)) <$> handlers found)
  = [(lit "audit", Some (lit "Bash|apply_patch"), 0%Z, true); (lit "check-a", Some (lit "Bash"), 1%Z, false);
     (lit "check-b", Some (lit "Bash"), 2%Z, false); (lit "ask-a", Some (lit "*"), 3%Z, false);
     (lit "ask-b", Some (lit "*"), 4%Z, false); (lit "prompt", None, 5%Z, false)]
  ∧ warnings found = [SkippedEmpty (lit "/home/me/.codex/config.toml");
                      InvalidMatcher (lit "[") (lit "/home/me/.codex/config.toml") (lit "unsupported")].
Proof. by vm_compute. Qed.

(** ** A call of the shell *)

Definition me : TurnContext := {|
  sub_id := lit "1"; turn_session_id := lit "s"; turn_cwd := lit "/w"; hook_transcript_path := None; model_slug := lit "m";
  approval_policy := OnRequest |}.
(** A tool that counts how often it ran. *)
Definition shell : ToolHandler (Value:=str) nat str := {|
  matches_kind := true; pre_tool_use_payload := Some (hook_bash, lit "rm x"); handle n := (S n, inr (lit "done"));
  success_for_logging _ := true;
  post_tool_use_payload _ := Some {| payload_tool_use_id := lit "c"; payload_tool_name := hook_bash;
                                     payload_tool_input := lit "rm x"; payload_tool_response := lit "done" |} |}.
(** Process [i] ends with [ends !! i], the later ones first; six are enough. *)
Definition in_reverse (ends : list ProcessOutcome) : schedule :=
  reverse (imap pair (ends ++ replicate 6 (Exited (Some 0%Z) [] []))).
Definition call (ends : list ProcessOutcome) : option (list (Effect str) * (nat * (FunctionCallError + CallResult str))) :=
  dispatch_any (Value:=str) Some (handlers found) [] me (lit "c") (lit "shell") shell (in_reverse ends) (in_reverse []) 0.

(** The second and the third handler deny: the reason is that of the second, in
    the order of the handlers, though the third ended first. *)
Definition denied : list ProcessOutcome := [TimedOut; Exited (Some 0%Z) (lit "{deny}") []; Exited (Some 2%Z) [] (lit "later")].
Example denied_call :
  snd <$> call denied
  = Some (0, inl (RespondToModel (lit "Command blocked by PreToolUse hook: no rm. Command: rm x"))).
Proof. by vm_compute. Qed.

(** A handler whose process denies with code 2, but does not read its input, has
    failed: the tool runs. *)
Example unread_input_allows : snd <$> call [StdinFailed (lit "Broken pipe"); TimedOut; SpawnFailed []] = Some (1, inr (Own (lit "done"))).
Proof. by vm_compute. Qed.

Lemma all_end_reverse ends hooks : length hooks = 6 → length ends ≤ 3 → all_end hooks (in_reverse ends).
Proof.
  intros Hhooks Hends i Hi. unfold first_end, in_reverse. apply fmap_is_Some.
  destruct (List.find _ _) as [e|] eqn:Hfind; [done|]. exfalso.
  destruct (lookup_lt_is_Some_2 (ends ++ replicate 6 (Exited (Some 0%Z) [] [])) i) as [o Ho].
  { rewrite length_app, length_replicate. lia. }
  assert (Hin : (i, o) ∈ reverse (imap pair (ends ++ replicate 6 (Exited (Some 0%Z) [] [])))).
  { apply elem_of_reverse, list_elem_of_lookup. exists i. by rewrite list_lookup_imap, Ho. }
  apply list_elem_of_In in Hin. apply (List.find_none _ _ Hfind) in Hin. simpl in Hin. by rewrite Nat.eqb_refl in Hin.
Qed.

Lemma denied_tool_never_runs_witness :
  ∃ (effects : list (Effect str)) w' result,
    dispatch_any (Value:=str) Some (handlers found) [] me (lit "c") (lit "shell") shell (in_reverse denied) (in_reverse []) 0
    = Some (effects, (w', result))
    ∧ ((∃ reason, first_denial (select_handlers_for_matcher_inputs (handlers found) PreToolUse [lit "Bash"]) (in_reverse denied) reason
          ∧ w' = 0 ∧ result = inl (RespondToModel (blocked_message Some hook_bash (lit "rm x") reason)))
       ∨ no_denial (select_handlers_for_matcher_inputs (handlers found) PreToolUse [lit "Bash"]) (in_reverse denied) ∧ w' = 1).
Proof.
  apply (denied_tool_never_runs (Item:=str) (Value:=str) Some (handlers found) [] me (lit "c") (lit "shell") shell
           (in_reverse denied) (in_reverse []) 0 hook_bash (lit "rm x") (lit "{}")).
  - reflexivity.
  - reflexivity.
  - reflexivity.
  - apply all_end_reverse; [reflexivity|]. unfold denied. simpl. lia.
  - apply all_end_reverse; [reflexivity|]. simpl. lia.
Defined.

(** ** Permission *)

(** A denial that also interrupts is not supported, and not a denial. *)
Definition allowed : list ProcessOutcome := [Exited (Some 0%Z) (lit "{deny and interrupt}") []; Exited (Some 0%Z) (lit "{allow}") []].
Example unsupported_denial_allows :
  from_option snd None (run_permission_request_hooks (Item:=str) (handlers found) me (lit "c") hook_bash (lit "rm x") (in_reverse allowed))
  = Some Allow.
Proof. by vm_compute. Qed.

Lemma permission_hooks_verdict_witness :
  ∃ (effects : list (Effect str)) verdict,
    run_permission_request_hooks (handlers found) me (lit "c") hook_bash (lit "rm x") (in_reverse allowed) = Some (effects, verdict)
    ∧ verdict_is (select_handlers_for_matcher_inputs (handlers found) PermissionRequest [lit "Bash"]) (in_reverse allowed) verdict.
Proof.
  apply (permission_hooks_verdict (Item:=str) (Value:=str) (handlers found) me (lit "c") hook_bash (lit "rm x") (in_reverse allowed) (lit "{}")).
  - reflexivity.
  - apply all_end_reverse; [reflexivity|]. unfold allowed. simpl. lia.
Defined.

(** ** Runs and input *)

Definition prompt_request : HookRequest (Value:=str) :=
  AtPrompt {| submit_context_of := hook_context me; submit_turn_id := lit "1"; prompt := lit "hi" |}.
Lemma every_hook_run_completes_witness :
  ∃ events, events_after (handlers found) (in_reverse [TimedOut]) prompt_request = Some events
    ∧ Forall2 (completes (Some (lit "1"))) (previewed (handlers found) prompt_request) events.
Proof.
  apply (every_hook_run_completes (handlers found) (in_reverse [TimedOut]) prompt_request).
  apply all_end_reverse; [reflexivity|]. simpl. lia.
Defined.

(** Of three messages the second is blocked. *)
Definition waiting : list (str * schedule) :=
  [(lit "a", in_reverse []); (lit "b", in_reverse [Exited (Some 2%Z) [] (lit "stop")]); (lit "c", in_reverse [])].
Example second_blocked :
  from_option snd ([], EndTurn) (take_pending_input (Value:=str) (handlers found) Some me waiting) = ([lit "c"], Sample).
Proof. by vm_compute. Qed.

Lemma no_pending_input_lost_witness :
  ∃ effects requeued next blocked,
    take_pending_input (Value:=str) (handlers found) Some me waiting = Some (effects, (requeued, next))
    ∧ waiting.*1 = recorded effects ++ blocked ++ requeued
    ∧ (blocked = [] ∧ requeued = [] ∨ ∃ item, blocked = [item] ∧ is_Some (Some item))
    ∧ (next = TakeInputAgain → length requeued < length waiting)
    ∧ (next = EndTurn ↔ recorded effects = [] ∧ requeued = [] ∧ blocked ≠ []).
Proof.
  apply (no_pending_input_lost (Item:=str) (Value:=str) (handlers found) Some me waiting).
  repeat apply Forall_cons_2; [..|apply Forall_nil_2]; simpl; (apply all_end_reverse; [reflexivity|simpl; lia]).
Defined.

End HookWitness.
