(* ===== verification/NetworkApproval.v ===== *)
(** * Approving network access

    Models [core/src/tools/network_approval.rs], with what it uses of
    [network_policy_decision.rs]: the service that the network proxy asks about
    hosts that no list allows.  Its five fields are behind locks; the requests of
    the proxy are tasks that run at the same time, each step of a task being one
    use of a lock, of a pending approval, or the end of a review (a report of a blocked
    request, which uses two locks, is one step).  What the hooks,
    the reviewer or the user answer is given to the step that receives it. *)
From S2P Require Import Prelude Str Io Permissions ExecApproval NetPolicy NetRuntime.
Import Permissions ExecApproval.

Module NetworkApproval.

Inductive NetworkApprovalMode : Type := Immediate | Deferred.
Inductive NetworkApprovalProtocol : Type := ProtocolHttp | ProtocolHttps | ProtocolSocks5Tcp | ProtocolSocks5Udp.
Definition protocol_of (p : NetRuntime.NetworkProtocol) : NetworkApprovalProtocol :=
  match p with
  | NetRuntime.Http => ProtocolHttp | NetRuntime.HttpsConnect => ProtocolHttps
  | NetRuntime.Socks5Tcp => ProtocolSocks5Tcp | NetRuntime.Socks5Udp => ProtocolSocks5Udp
  end.
Definition protocol_key_label (p : NetworkApprovalProtocol) : str :=
  lit match p with
      | ProtocolHttp => "http" | ProtocolHttps => "https" | ProtocolSocks5Tcp => "socks5-tcp" | ProtocolSocks5Udp => "socks5-udp"
      end.

(** Host, protocol and port. *)
Definition HostApprovalKey : Type := str * str * N.
#[export] Instance HostApprovalKey_eq_dec : EqDecision HostApprovalKey := _.
#[export] Instance HostApprovalKey_countable : Countable HostApprovalKey := _.
Definition from_request (request : NetRuntime.NetworkPolicyRequest) : HostApprovalKey :=
  (to_ascii_lowercase (NetRuntime.req_host request), protocol_key_label (protocol_of (NetRuntime.req_protocol request)),
   NetRuntime.req_port request).
Definition format_network_target (protocol host : str) (port : N) : str :=
  protocol ++ lit "://" ++ host ++ lit ":" ++ show_nat (N.to_nat port).

Inductive PendingApprovalDecision : Type := AllowOnce | AllowForSession | DenyPending.
#[export] Instance PendingApprovalDecision_eq_dec : EqDecision PendingApprovalDecision.
Proof. solve_decision. Defined.
(** [NetworkDecision]: allowed, or denied as not allowed. *)
Inductive NetworkDecision : Type := Allow | NotAllowed.
#[export] Instance NetworkDecision_eq_dec : EqDecision NetworkDecision.
Proof. solve_decision. Defined.
Definition to_network_decision (d : PendingApprovalDecision) : NetworkDecision :=
  match d with AllowOnce | AllowForSession => Allow | DenyPending => NotAllowed end.

Inductive NetworkApprovalOutcome : Type := DeniedByUser | DeniedByPolicy (message : str).

Definition allows_network_approval_flow (policy : AskForApproval) : bool :=
  match policy with Never => false | _ => true end.
Definition sandbox_policy_allows_network_approval_flow (policy : SandboxPolicy) : bool :=
  match policy with ReadOnly _ _ | WorkspaceWrite _ _ _ _ _ => true | DangerFullAccess | ExternalSandboxPolicy _ => false end.

(** What a review of a request, or of a command, ends with. *)
Inductive NetworkPolicyRuleAction : Type := AllowHost | DenyHost.
Inductive ReviewDecision : Type :=
| Approved
| ApprovedExecpolicyAmendment (proposed : ExecPolicyAmendment)
| ApprovedForSession
| NetworkPolicyAmendment (host : str) (action : NetworkPolicyRuleAction)
| Denied
| TimedOut
| Abort.

(** ** The service *)

Record ActiveNetworkApprovalCall : Type := { call_turn_id : str; call_command : str }.
(** Calls in the order in which they were registered, with their registration ids. *)
Record NetworkApprovalService : Type := {
  active_calls : list (str * ActiveNetworkApprovalCall);
  call_outcomes : gmap str NetworkApprovalOutcome;
  pending_host_approvals : gmap HostApprovalKey nat;
  session_approved_hosts : gset HostApprovalKey;
  session_denied_hosts : gset HostApprovalKey;
}.
Definition default_service : NetworkApprovalService := {|
  active_calls := []; call_outcomes := ∅; pending_host_approvals := ∅; session_approved_hosts := ∅; session_denied_hosts := ∅ |}.

Definition with_calls l (s : NetworkApprovalService) : NetworkApprovalService := {|
  active_calls := l; call_outcomes := call_outcomes s; pending_host_approvals := pending_host_approvals s;
  session_approved_hosts := session_approved_hosts s; session_denied_hosts := session_denied_hosts s |}.
Definition with_outcomes m (s : NetworkApprovalService) : NetworkApprovalService := {|
  active_calls := active_calls s; call_outcomes := m; pending_host_approvals := pending_host_approvals s;
  session_approved_hosts := session_approved_hosts s; session_denied_hosts := session_denied_hosts s |}.
Definition with_pending m (s : NetworkApprovalService) : NetworkApprovalService := {|
  active_calls := active_calls s; call_outcomes := call_outcomes s; pending_host_approvals := m;
  session_approved_hosts := session_approved_hosts s; session_denied_hosts := session_denied_hosts s |}.
Definition with_approved h (s : NetworkApprovalService) : NetworkApprovalService := {|
  active_calls := active_calls s; call_outcomes := call_outcomes s; pending_host_approvals := pending_host_approvals s;
  session_approved_hosts := h; session_denied_hosts := session_denied_hosts s |}.
Definition with_denied h (s : NetworkApprovalService) : NetworkApprovalService := {|
  active_calls := active_calls s; call_outcomes := call_outcomes s; pending_host_approvals := pending_host_approvals s;
  session_approved_hosts := session_approved_hosts s; session_denied_hosts := h |}.

(** [IndexMap::insert]. *)
Fixpoint index_insert {A} (key : str) (a : A) (l : list (str * A)) : list (str * A) :=
  match l with
  | [] => [(key, a)]
  | (k, b) :: l => if bool_decide (k = key) then (k, a) :: l else (k, b) :: index_insert key a l
  end.
Definition register_call (registration_id : str) (call : ActiveNetworkApprovalCall) (s : NetworkApprovalService)
    : NetworkApprovalService := with_calls (index_insert registration_id call (active_calls s)) s.
Definition unregister_call (registration_id : str) (s : NetworkApprovalService) : NetworkApprovalService :=
  with_outcomes (delete registration_id (call_outcomes s))
    (with_calls (List.filter (λ call, negb (bool_decide (call.1 = registration_id))) (active_calls s)) s).
Definition resolve_single_active_call (s : NetworkApprovalService) : option str :=
  match active_calls s with [(id, _)] => Some id | _ => None end.
Definition take_call_outcome (registration_id : str) (s : NetworkApprovalService)
    : NetworkApprovalService * option NetworkApprovalOutcome :=
  (with_outcomes (delete registration_id (call_outcomes s)) s, call_outcomes s !! registration_id).
Definition record_call_outcome (registration_id : str) (outcome : NetworkApprovalOutcome) (s : NetworkApprovalService)
    : NetworkApprovalService :=
  match call_outcomes s !! registration_id with
  | Some DeniedByUser => s
  | _ => with_outcomes (<[registration_id := outcome]> (call_outcomes s)) s
  end.
Definition sync_session_approved_hosts_to (self other : NetworkApprovalService) : NetworkApprovalService :=
  with_approved (session_approved_hosts self) other.

(** [denied_network_policy_message], of a blocked request's host, reason and decision. *)
Definition denied_network_policy_message (host reason : str) (decision : option str) : option str :=
  if bool_decide (decision = Some (lit "deny")) then
    let host := trim host in
    if bool_decide (host = []) then Some (lit "Network access was blocked by policy.")
    else
      let detail :=
        lit (if bool_decide (reason = lit "denied") then
               "domain is explicitly denied by policy and cannot be approved from this prompt"
             else if bool_decide (reason = lit "not_allowed") then "domain is not on the allowlist for the current sandbox mode"
             else if bool_decide (reason = lit "not_allowed_local") then
               "local/private network addresses are blocked by the sandbox policy"
             else if bool_decide (reason = lit "method_not_allowed") then
               "request method is blocked by the current network mode"
             else if bool_decide (reason = lit "proxy_disabled") then "network proxy is disabled"
             else "request is blocked by network policy") in
      Some (lit "Network access to " ++ [DQUOTE] ++ host ++ [DQUOTE] ++ lit " was blocked: " ++ detail ++ lit ".")
  else None.
Definition record_outcome_for_single_active_call (outcome : NetworkApprovalOutcome) (s : NetworkApprovalService)
    : NetworkApprovalService :=
  match resolve_single_active_call s with Some id => record_call_outcome id outcome s | None => s end.
Definition record_blocked_request (host reason : str) (decision : option str) (s : NetworkApprovalService) : NetworkApprovalService :=
  match denied_network_policy_message host reason decision with
  | Some message => record_outcome_for_single_active_call (DeniedByPolicy message) s
  | None => s
  end.

(** ** What the owner of a pending approval does *)

(** A use of a lock by the owner. *)
Inductive Act : Type :=
| RecordSingle (outcome : NetworkApprovalOutcome)
| RecordFor (registration_id : str) (outcome : NetworkApprovalOutcome)
| ForgetDenied
| RememberApproved
| ForgetApproved
| RememberDenied
| SetDecision (decision : PendingApprovalDecision)
| RemovePending.

(** The answer to the owner: of the hooks, or of the review, which is the
    guardian's with the message of its rejection, or the user's. *)
Inductive Answer : Type :=
| HookAllows
| HookDenies (message : str)
| Reviewed (guardian_rejection : option str) (decision : ReviewDecision).

Definition GUARDIAN_TIMEOUT_MESSAGE : str :=
  lit "The automatic permission approval review did not finish before its deadline. Do not assume the action is unsafe based on the timeout alone. You may retry once, or ask the user for guidance or explicit approval.".

Definition record_for (owner_call : option str) (outcome : NetworkApprovalOutcome) : list Act :=
  match owner_call with Some id => [RecordFor id outcome] | None => [] end.
(** What is resolved, whether a denial is kept for the session, and what is recorded before. *)
Definition resolve_answer (owner_call : option str) (answer : Answer) : list Act * PendingApprovalDecision * bool :=
  match answer with
  | HookAllows => ([], AllowOnce, false)
  | HookDenies message => (record_for owner_call (DeniedByPolicy message), DenyPending, false)
  | Reviewed guardian_rejection decision =>
      match decision with
      | Approved | ApprovedExecpolicyAmendment _ => ([], AllowOnce, false)
      | ApprovedForSession => ([], AllowForSession, false)
      | NetworkPolicyAmendment _ AllowHost => ([], AllowForSession, false)
      | NetworkPolicyAmendment _ DenyHost => (record_for owner_call DeniedByUser, DenyPending, true)
      | Denied | Abort =>
          (record_for owner_call match guardian_rejection with Some message => DeniedByPolicy message | None => DeniedByUser end,
           DenyPending, false)
      | TimedOut => (record_for owner_call (DeniedByPolicy GUARDIAN_TIMEOUT_MESSAGE), DenyPending, false)
      end
  end.
Definition acts_after (owner_call : option str) (answer : Answer) : list Act * PendingApprovalDecision :=
  let '(records, resolved, cache_session_deny) := resolve_answer owner_call answer in
  (records
   ++ (if bool_decide (resolved = AllowForSession) then [ForgetDenied; RememberApproved] else [])
   ++ (if cache_session_deny then [ForgetApproved; RememberDenied] else [])
   ++ [SetDecision resolved; RemovePending], resolved).
(** Nobody can be asked. *)
Definition policy_denial_message (request : NetRuntime.NetworkPolicyRequest) : str :=
  lit "Network access to " ++ [DQUOTE]
  ++ format_network_target (protocol_key_label (protocol_of (NetRuntime.req_protocol request))) (NetRuntime.req_host request)
       (NetRuntime.req_port request)
  ++ [DQUOTE] ++ lit " was blocked by policy.".
Definition acts_unasked (request : NetRuntime.NetworkPolicyRequest) : list Act :=
  [SetDecision DenyPending; RemovePending; RecordSingle (DeniedByPolicy (policy_denial_message request))].
(** The sandbox policy and the approval policy of the active turn, when there is one. *)
Definition may_ask (turn : option (SandboxPolicy * AskForApproval)) : bool :=
  match turn with
  | Some (sandbox_policy, approval_policy) =>
      sandbox_policy_allows_network_approval_flow sandbox_policy && allows_network_approval_flow approval_policy
  | None => false
  end.

(** ** Requests as tasks *)

(** Where a request is, in [handle_inline_policy_request]. *)
Inductive task : Type :=
| CheckDenied (request : NetRuntime.NetworkPolicyRequest)
| CheckApproved (request : NetRuntime.NetworkPolicyRequest)
| GetOrCreate (request : NetRuntime.NetworkPolicyRequest)
| Waiting (key : HostApprovalKey) (pending : nat)
| Owning (request : NetRuntime.NetworkPolicyRequest) (pending : nat)
| Reviewing (request : NetRuntime.NetworkPolicyRequest) (pending : nat) (owner_call : option str)
| Acting (key : HostApprovalKey) (pending : nat) (acts : list Act) (decision : NetworkDecision)
| Done (key : HostApprovalKey) (decision : NetworkDecision)
| Dropped (key : HostApprovalKey).

(** The service, the pending approvals with their keys and decisions, by their
    identity, the answers that were given so far, and the hosts that other
    sessions, whose approvals this one was given, had approved. *)
Record world : Type := {
  service : NetworkApprovalService;
  approvals : list (HostApprovalKey * option PendingApprovalDecision);
  answers : list (HostApprovalKey * Answer);
  inherited : gset HostApprovalKey;
}.
Definition on_service (f : NetworkApprovalService → NetworkApprovalService) (w : world) : world := {|
  service := f (service w); approvals := approvals w; answers := answers w; inherited := inherited w |}.
Definition set_decision (pending : nat) (d : PendingApprovalDecision) (w : world) : world := {|
  service := service w; approvals := alter (λ a, (a.1, Some d)) pending (approvals w);
  answers := answers w; inherited := inherited w |}.
Definition create_pending (key : HostApprovalKey) (w : world) : world := {|
  service := with_pending (<[key := length (approvals w)]> (pending_host_approvals (service w))) (service w);
  approvals := approvals w ++ [(key, None)]; answers := answers w; inherited := inherited w |}.
Definition answered (key : HostApprovalKey) (answer : Answer) (w : world) : world := {|
  service := service w; approvals := approvals w; answers := answers w ++ [(key, answer)];
  inherited := inherited w |}.
Definition synced_from (source : NetworkApprovalService) (w : world) : world := {|
  service := sync_session_approved_hosts_to source (service w); approvals := approvals w; answers := answers w;
  inherited := session_approved_hosts source ∪ inherited w |}.

(** What an act does, and what it leaves to do. *)
Definition do_act (key : HostApprovalKey) (pending : nat) (act : Act) (w : world) : world * list Act :=
  match act with
  | RecordSingle outcome => (w, record_for (resolve_single_active_call (service w)) outcome)
  | RecordFor id outcome => (on_service (record_call_outcome id outcome) w, [])
  | ForgetDenied => (on_service (λ s, with_denied (session_denied_hosts s ∖ {[key]}) s) w, [])
  | RememberApproved => (on_service (λ s, with_approved ({[key]} ∪ session_approved_hosts s) s) w, [])
  | ForgetApproved => (on_service (λ s, with_approved (session_approved_hosts s ∖ {[key]}) s) w, [])
  | RememberDenied => (on_service (λ s, with_denied ({[key]} ∪ session_denied_hosts s) s) w, [])
  | SetDecision d => (set_decision pending d w, [])
  | RemovePending => (on_service (λ s, with_pending (delete key (pending_host_approvals s)) s) w, [])
  end.

Inductive task_step : world → task → world → task → Prop :=
| step_denied w r :
    from_request r ∈ session_denied_hosts (service w) → task_step w (CheckDenied r) w (Done (from_request r) NotAllowed)
| step_not_denied w r :
    from_request r ∉ session_denied_hosts (service w) → task_step w (CheckDenied r) w (CheckApproved r)
| step_approved w r :
    from_request r ∈ session_approved_hosts (service w) → task_step w (CheckApproved r) w (Done (from_request r) Allow)
| step_not_approved w r :
    from_request r ∉ session_approved_hosts (service w) → task_step w (CheckApproved r) w (GetOrCreate r)
(* [get_or_create_pending_approval] *)
| step_existing w r p :
    pending_host_approvals (service w) !! from_request r = Some p → task_step w (GetOrCreate r) w (Waiting (from_request r) p)
| step_create w r :
    pending_host_approvals (service w) !! from_request r = None →
    task_step w (GetOrCreate r) (create_pending (from_request r) w) (Owning r (length (approvals w)))
(* [wait_for_decision] *)
| step_wait w key p k d :
    approvals w !! p = Some (k, Some d) → task_step w (Waiting key p) w (Done key (to_network_decision d))
| step_unasked w r p turn :
    may_ask turn = false → task_step w (Owning r p) w (Acting (from_request r) p (acts_unasked r) NotAllowed)
| step_ask w r p turn :
    may_ask turn = true → task_step w (Owning r p) w (Reviewing r p (resolve_single_active_call (service w)))
| step_answer w r p owner_call answer :
    task_step w (Reviewing r p owner_call) (answered (from_request r) answer w)
      (Acting (from_request r) p (acts_after owner_call answer).1 (to_network_decision (acts_after owner_call answer).2))
| step_act w key p act acts d :
    task_step w (Acting key p (act :: acts) d) (do_act key p act w).1 (Acting key p ((do_act key p act w).2 ++ acts) d)
| step_return w key p d : task_step w (Acting key p [] d) w (Done key d).

Definition finished (t : task) : bool := match t with Done _ _ | Dropped _ => true | _ => false end.
Definition key_of (t : task) : HostApprovalKey :=
  match t with
  | CheckDenied r | CheckApproved r | GetOrCreate r | Owning r _ | Reviewing r _ _ => from_request r
  | Waiting key _ | Acting key _ _ _ | Done key _ | Dropped key => key
  end.

(** Tasks take steps, requests come in, calls are registered and unregistered, the
    proxy reports what it blocked, and another session hands over its approvals; [drops] says whether the future of a
    request can be dropped before it is finished. *)
Inductive session_step (drops : bool) : world * list task → world * list task → Prop :=
| session_task w ts i t w' t' :
    ts !! i = Some t → task_step w t w' t' → session_step drops (w, ts) (w', <[i := t']> ts)
| session_request w ts r : session_step drops (w, ts) (w, ts ++ [CheckDenied r])
| session_register w ts id call : session_step drops (w, ts) (on_service (register_call id call) w, ts)
| session_unregister w ts id : session_step drops (w, ts) (on_service (unregister_call id) w, ts)
| session_take w ts id : session_step drops (w, ts) (on_service (λ s, (take_call_outcome id s).1) w, ts)
| session_blocked w ts host reason decision :
    session_step drops (w, ts) (on_service (record_blocked_request host reason decision) w, ts)
| session_sync w ts source : session_step drops (w, ts) (synced_from source w, ts)
| session_drop w ts i t :
    drops = true → ts !! i = Some t → finished t = false → session_step drops (w, ts) (w, <[i := Dropped (key_of t)]> ts).

Definition fresh_world : world := {| service := default_service; approvals := []; answers := []; inherited := ∅ |}.
Definition reachable (drops : bool) (c : world * list task) : Prop := rtc (session_step drops) (fresh_world, []) c.

(** ** Around a call *)

Inductive ToolError (E : Type) : Type := Rejected (message : str) | Codex (err : E).
Arguments Rejected {E}. Arguments Codex {E}.

(** [network] says whether the call runs with the managed proxy. *)
Record NetworkApprovalSpec : Type := { network : bool; mode : NetworkApprovalMode; spec_command : str }.
Record ActiveNetworkApproval : Type := { active_registration : option str; active_mode : NetworkApprovalMode }.
Definition into_deferred (active : ActiveNetworkApproval) : option str :=
  match active_mode active, active_registration active with Deferred, Some id => Some id | _, _ => None end.

(** The registration id is a fresh UUID. *)
Definition begin_network_approval (registration_id turn_id : str) (managed_network_active : bool)
    (spec : option NetworkApprovalSpec) (s : NetworkApprovalService) : NetworkApprovalService * option ActiveNetworkApproval :=
  match spec with
  | Some spec =>
      if negb managed_network_active || negb (network spec) then (s, None)
      else (register_call registration_id {| call_turn_id := turn_id; call_command := spec_command spec |} s,
            Some {| active_registration := Some registration_id; active_mode := mode spec |})
  | None => (s, None)
  end.
Definition finish_immediate_network_approval {E} (active : ActiveNetworkApproval) (s : NetworkApprovalService)
    : NetworkApprovalService * (ToolError E + unit) :=
  match active_registration active with
  | None => (s, inr ())
  | Some registration_id =>
      let '(s, approval_outcome) := take_call_outcome registration_id s in
      (unregister_call registration_id s,
       match approval_outcome with
       | Some DeniedByUser => inl (Rejected (lit "rejected by user"))
       | Some (DeniedByPolicy message) => inl (Rejected message)
       | None => inr ()
       end)
  end.
Definition finish_deferred_network_approval (deferred : option str) (s : NetworkApprovalService) : NetworkApprovalService :=
  match deferred with Some registration_id => unregister_call registration_id s | None => s end.

End NetworkApproval.
