(* ===== verification/NetworkApprovalFacts.v ===== *)
(** * Network approvals: what always holds

    Invariants of the tasks by induction over the steps: who is allowed was
    answered for, a pending approval has one owner, and, unless a request is
    dropped, that owner decides it. *)
From S2P Require Import Prelude Str Io Permissions ExecApproval NetPolicy NetRuntime NetworkApproval.
Import Permissions ExecApproval NetworkApproval.

Module NetworkApprovalFacts.

Section Facts.
Variable drops : bool.

(** ** Lists with one task replaced *)

Lemma insert_inv {A} (l : list A) i j x y : <[i := x]> l !! j = Some y → j = i ∧ x = y ∨ j ≠ i ∧ l !! j = Some y.
Proof. intros Hj. apply list_lookup_insert_Some in Hj as [(-> & -> & _)|[Hne Hj]]; [by left|by right]. Qed.

(** ** Nobody is allowed without an answer *)

(** An answer that allows, once or for the session. *)
Definition allows (answer : Answer) : Prop :=
  match answer with
  | HookAllows
  | Reviewed _ (Approved | ApprovedExecpolicyAmendment _ | ApprovedForSession | NetworkPolicyAmendment _ AllowHost) => True
  | _ => False
  end.
Definition allows_session (answer : Answer) : Prop :=
  match answer with Reviewed _ (ApprovedForSession | NetworkPolicyAmendment _ AllowHost) => True | _ => False end.
Definition allowed_once (w : world) (key : HostApprovalKey) : Prop :=
  key ∈ inherited w ∨ ∃ answer, (key, answer) ∈ answers w ∧ allows answer.
Definition allowed_session (w : world) (key : HostApprovalKey) : Prop :=
  key ∈ inherited w ∨ ∃ answer, (key, answer) ∈ answers w ∧ allows_session answer.

Lemma session_once w key : allowed_session w key → allowed_once w key.
Proof. intros [Hin|(answer & Hin & Hs)]; [by left|right]. exists answer. split; [done|]. by destruct answer as [| |? [| | |? []| | |]]. Qed.

Definition act_granted (w : world) (key : HostApprovalKey) (act : Act) : Prop :=
  match act with
  | RememberApproved => allowed_session w key
  | SetDecision d => to_network_decision d = Allow → allowed_once w key
  | _ => True
  end.
(** What a task has got, or will hand out, is granted; what it knows of its
    pending approval is true. *)
Definition task_granted (w : world) (t : task) : Prop :=
  match t with
  | Waiting key p => ∃ d, approvals w !! p = Some (key, d)
  | Owning r p | Reviewing r p _ => ∃ d, approvals w !! p = Some (from_request r, d)
  | Acting key p acts d =>
      (∃ d', approvals w !! p = Some (key, d')) ∧ Forall (act_granted w key) acts ∧ (d = Allow → allowed_once w key)
  | Done key d => d = Allow → allowed_once w key
  | _ => True
  end.
Record granted (w : world) : Prop := {
  granted_approved key : key ∈ session_approved_hosts (service w) → allowed_session w key;
  granted_decided p key d : approvals w !! p = Some (key, Some d) → to_network_decision d = Allow → allowed_once w key;
  granted_pending key p : pending_host_approvals (service w) !! key = Some p → ∃ d, approvals w !! p = Some (key, d);
}.

(** A later world: more answers, and the same pending approvals, decided further. *)
Record later (w w' : world) : Prop := {
  later_answers a : a ∈ answers w → a ∈ answers w';
  later_inherited key : key ∈ inherited w → key ∈ inherited w';
  later_approvals p key d : approvals w !! p = Some (key, d) → ∃ d', approvals w' !! p = Some (key, d');
}.
Lemma later_refl w : later w w.
Proof. split; eauto. Qed.
Lemma later_service f w : later w (on_service f w).
Proof. split; simpl; eauto. Qed.
Lemma later_create key w : later w (create_pending key w).
Proof. split; simpl; [done..|]. intros p k d Hp. exists d. by apply lookup_app_l_Some. Qed.
Lemma later_answered key answer w : later w (answered key answer w).
Proof. split; simpl; [|done|eauto]. intros a Ha. apply elem_of_app. by left. Qed.
Lemma later_synced source w : later w (synced_from source w).
Proof. split; simpl; [done|set_solver|eauto]. Qed.
Lemma set_decision_lookup p d w q :
  approvals (set_decision p d w) !! q = if decide (q = p) then (λ a, (a.1, Some d)) <$> approvals w !! q else approvals w !! q.
Proof. simpl. destruct (decide (q = p)) as [->|]; [apply list_lookup_alter_eq|by apply list_lookup_alter_ne]. Qed.
Lemma later_set_decision p d w : later w (set_decision p d w).
Proof.
  split; [done..|]. intros q key d' Hq. rewrite set_decision_lookup. destruct (decide (q = p)); rewrite Hq; simpl; eauto.
Qed.
#[local] Hint Resolve later_refl later_service later_create later_answered later_synced later_set_decision : core.

Lemma later_do_act key p act w : later w (do_act key p act w).1.
Proof. destruct act; simpl; auto. Qed.
#[local] Hint Resolve later_do_act : core.

Lemma later_once w w' key : later w w' → allowed_once w key → allowed_once w' key.
Proof. intros Hw [Hin|(a & Ha & Hallow)]; [left; by eapply later_inherited|right; exists a]. split; [by eapply later_answers|done]. Qed.
Lemma later_session w w' key : later w w' → allowed_session w key → allowed_session w' key.
Proof. intros Hw [Hin|(a & Ha & Hallow)]; [left; by eapply later_inherited|right; exists a]. split; [by eapply later_answers|done]. Qed.
Lemma later_task w w' t : later w w' → task_granted w t → task_granted w' t.
Proof.
  intros Hw. destruct t as [r|r|r|key p|r p|r p c|key p acts d|key d|key]; simpl; try done.
  1-3: intros [d Hd]; by eapply later_approvals.
  - intros ([d' Hd] & Hacts & Hallow). split_and!; [by eapply later_approvals| |intros Hd'; eapply later_once; eauto].
    eapply Forall_impl; [exact Hacts|]. intros [] Hact; simpl in *; try done; [by eapply later_session|].
    intros Ha. eapply later_once; eauto.
  - intros Hallow Hd. eapply later_once; eauto.
Qed.

Lemma later_step w t w' t' : task_step w t w' t' → later w w'.
Proof. destruct 1; auto. Qed.

(** The acts that follow an answer hand out only what it allows. *)
Lemma acts_after_granted w key owner_call answer :
  (key, answer) ∈ answers w →
  Forall (act_granted w key) (acts_after owner_call answer).1
  ∧ (to_network_decision (acts_after owner_call answer).2 = Allow → allowed_once w key).
Proof.
  intros Hin. assert (Hrecord : ∀ o, Forall (act_granted w key) (record_for owner_call o)).
  { intros o. destruct owner_call; repeat constructor. }
  assert (Honce : allows answer → allowed_once w key) by (intros; right; by exists answer).
  assert (Hsession : allows_session answer → allowed_session w key) by (intros; right; by exists answer).
  destruct answer as [|m|g []]; try match goal with a : NetworkPolicyRuleAction |- _ => destruct a end;
    unfold acts_after; simpl; rewrite ?Forall_app; split_and!; repeat first [apply Forall_nil_2|apply Forall_cons_2]; simpl; try done;
    intros; first [apply Honce; exact I|apply Hsession; exact I].
Qed.

Lemma granted_service f w :
  session_approved_hosts (f (service w)) = session_approved_hosts (service w) →
  pending_host_approvals (f (service w)) = pending_host_approvals (service w) →
  granted w → granted (on_service f w).
Proof. intros Ha Hp [H1 H2 H3]. split; simpl; rewrite ?Ha, ?Hp; [exact H1|exact H2|exact H3]. Qed.

Lemma record_call_outcome_hosts id o s :
  session_approved_hosts (record_call_outcome id o s) = session_approved_hosts s
  ∧ pending_host_approvals (record_call_outcome id o s) = pending_host_approvals s.
Proof. unfold record_call_outcome. by destruct (call_outcomes s !! id) as [[]|]. Qed.

Lemma do_act_granted w key p act acts d :
  granted w → task_granted w (Acting key p (act :: acts) d) → granted (do_act key p act w).1.
Proof.
  intros Hw (Hp & Hacts & _). apply Forall_cons in Hacts as [Hact _]. pose proof Hw as [H1 H2 H3].
  destruct act as [o|id o| | | | |d'|]; simpl in *; try done.
  - apply granted_service; [apply record_call_outcome_hosts..|done].
  - split; simpl; [|exact H2|exact H3]. intros key' [->%elem_of_singleton|Hin]%elem_of_union; [exact Hact|by apply H1].
  - split; simpl; [|exact H2|exact H3]. intros key' [Hin _]%elem_of_difference. by apply H1.
  - split; [exact H1| |].
    + intros q k' d2 Hq Hd2. rewrite set_decision_lookup in Hq. destruct (decide (q = p)) as [->|]; [|by eapply H2].
      destruct Hp as [d3 Hp]. rewrite Hp in Hq. simplify_eq/=. by apply Hact.
    + intros k q Hq. destruct (H3 k q Hq) as [d2 Hd2]. by eapply later_approvals; [apply later_set_decision|].
  - split; simpl; [exact H1|exact H2|]. intros k q [_ Hq]%lookup_delete_Some. by apply H3.
Qed.

Lemma task_step_granted w t w' t' :
  task_step w t w' t' → granted w → task_granted w t → granted w' ∧ task_granted w' t'.
Proof.
  intros Hstep Hw Ht. pose proof Hw as [H1 H2 H3].
  destruct Hstep as [w r|w r|w r Hin|w r|w r p Hp|w r Hp|w key p k d Hd|w r p turn|w r p turn|w r p c answer|w key p act acts d|w key p d];
    simpl in *; try (split; [done|]; simpl; done).
  - split; [done|]. intros _. apply session_once, H1, Hin.
  - split; [done|]. by apply H3.
  - split; [|exists None; by apply list_lookup_middle].
    split; simpl; [exact H1| |].
    + intros q k d Hq. apply lookup_app_Some in Hq as [Hq|[_ Hq]]; [by eapply H2|]. by apply list_lookup_singleton_Some in Hq as [_ [=]].
    + intros k q Hq. apply lookup_insert_Some in Hq as [[<- <-]|[_ Hq]]; [exists None; by apply list_lookup_middle|].
      destruct (H3 k q Hq) as [d Hd]. exists d. by apply lookup_app_l_Some.
  - destruct Ht as [d' Ht]. rewrite Hd in Ht. simplify_eq/=. split; [done|]. by eapply H2.
  - split; [done|]. split_and!; [done| |done]. repeat constructor; done.
  - assert (Hin : (from_request r, answer) ∈ answers (answered (from_request r) answer w)).
    { simpl. apply elem_of_app. right. by apply list_elem_of_singleton. }
    destruct (acts_after_granted _ _ c _ Hin) as [Hacts Hallow].
    split; [|split_and!; [exact Ht|done|done]]. split; simpl; [|intros q k d Hq Hd|exact H3].
    + intros k Hk. eapply later_session; [apply later_answered|by apply H1].
    + eapply later_once; [apply later_answered|by eapply H2].
  - split; [by eapply do_act_granted|]. destruct Ht as (Hp & Hacts & Hallow). apply Forall_cons in Hacts as [Hact Hacts].
    pose proof (later_do_act key p act w) as Hlater.
    destruct (later_task _ _ (Acting key p acts d) Hlater) as (Hp' & Hacts' & Hallow'); [done|].
    split_and!; [done| |done]. apply Forall_app. split; [|done].
    destruct act; simpl; try constructor. destruct (resolve_single_active_call _); repeat constructor.
  - by destruct Ht as (_ & _ & Ht).
Qed.

Lemma session_step_granted c c' :
  session_step drops c c' → granted c.1 ∧ Forall (task_granted c.1) c.2 → granted c'.1 ∧ Forall (task_granted c'.1) c'.2.
Proof.
  intros Hstep [Hw Hts].
  destruct Hstep as [w ts i t w' t' Hi Hstep|w ts r|w ts id call|w ts id|w ts id|w ts host reason decision|w ts source|w ts i t Hdrops Hi Hfin];
    simpl in *.
  2: { split; [done|]. apply Forall_app. by repeat constructor. }
  2-6: split; [|eapply Forall_impl; [exact Hts|]; intros t'; apply later_task; auto].
  2-4: by apply granted_service.
  2: { apply granted_service; [..|done]; unfold record_blocked_request, record_outcome_for_single_active_call;
       (destruct (denied_network_policy_message _ _ _); [|done]); (destruct (resolve_single_active_call _); [|done]);
       apply record_call_outcome_hosts. }
  2: { destruct Hw as [H1 H2 H3]. split; simpl; [intros k Hk; left; set_solver| |done].
       intros p k d Hp Hd. eapply later_once; [apply later_synced|by eapply H2]. }
  - pose proof (later_step _ _ _ _ Hstep) as Hlater. rewrite Forall_lookup in Hts.
    destruct (task_step_granted _ _ _ _ Hstep Hw (Hts _ _ Hi)) as [Hw' Ht']. split; [done|].
    apply Forall_lookup. intros j u Hj. apply insert_inv in Hj as [[-> ->]|[_ Hj]]; [done|].
    by eapply later_task; [|apply (Hts j)].
  - split; [done|]. by apply Forall_insert.
Qed.

Lemma reachable_granted w ts : reachable drops (w, ts) → granted w ∧ Forall (task_granted w) ts.
Proof.
  intros Hreach. apply (rtc_ind_r (λ c, granted c.1 ∧ Forall (task_granted c.1) c.2) (fresh_world, [])) in Hreach; [done| |].
  - split; [|constructor]. split; simpl; [set_solver|by intros ???; rewrite lookup_nil|by intros ??; rewrite lookup_empty].
  - intros c c' _ Hstep. by apply session_step_granted.
Qed.

(** ** One owner for each pending approval *)

(** How far the acts are: [2] before the decision, [1] before the removal, [0] after. *)
Fixpoint stage (acts : list Act) : nat :=
  match acts with [] => 0 | SetDecision _ :: _ => 2 | RemovePending :: _ => 1 | _ :: acts => stage acts end.
Fixpoint orderly (acts : list Act) : Prop :=
  match acts with
  | [] => True
  | SetDecision _ :: acts => stage acts = 1 ∧ orderly acts
  | RemovePending :: acts => stage acts = 0 ∧ orderly acts
  | _ :: acts => orderly acts
  end.
(** The pending approval that a task has to decide, or to remove. *)
Definition owner (t : task) : option (HostApprovalKey * nat * nat) :=
  match t with
  | Owning r p | Reviewing r p _ => Some (from_request r, p, 2)
  | Acting key p acts _ => match stage acts with 0 => None | n => Some (key, p, n) end
  | _ => None
  end.
Definition task_orderly (t : task) : Prop := match t with Acting _ _ acts _ => orderly acts | _ => True end.

Lemma orderly_after owner_call answer :
  orderly (acts_after owner_call answer).1 ∧ stage (acts_after owner_call answer).1 = 2.
Proof.
  unfold acts_after. destruct (resolve_answer owner_call answer) as [[records d] cache] eqn:Heq. simpl.
  assert (Hrecords : records = [] ∨ ∃ id o, records = [RecordFor id o]).
  { destruct answer as [|m|g []]; try match goal with a : NetworkPolicyRuleAction |- _ => destruct a end;
      simpl in Heq; destruct owner_call; simplify_eq/=; eauto. }
  destruct Hrecords as [->|(id & o & ->)], cache; case_bool_decide; done.
Qed.

(** What a step of a task does to the pending approvals. *)
Inductive effect (w : world) (t : task) (w' : world) (t' : task) : Prop :=
| effect_none :
    owner t' = owner t → pending_host_approvals (service w') = pending_host_approvals (service w) →
    approvals w' = approvals w → effect w t w' t'
| effect_create key :
    owner t = None → owner t' = Some (key, length (approvals w), 2) → pending_host_approvals (service w) !! key = None →
    w' = create_pending key w → effect w t w' t'
| effect_decide key p d :
    owner t = Some (key, p, 2) → owner t' = Some (key, p, 1) → w' = set_decision p d w → effect w t w' t'
| effect_remove key p :
    owner t = Some (key, p, 1) → owner t' = None →
    pending_host_approvals (service w') = delete key (pending_host_approvals (service w)) →
    approvals w' = approvals w → effect w t w' t'.

Lemma act_effect w key p act acts d :
  orderly (act :: acts) →
  effect w (Acting key p (act :: acts) d) (do_act key p act w).1 (Acting key p ((do_act key p act w).2 ++ acts) d).
Proof.
  intros Hacts. destruct act as [o|id o| | | | |d'|]; simpl in Hacts; simpl.
  1: { apply effect_none; try done. by destruct (resolve_single_active_call _). }
  1: { apply effect_none; try done. simpl. apply record_call_outcome_hosts. }
  1-4: by apply effect_none.
  - destruct Hacts as [Hstage _]. eapply effect_decide; [done| |done]. simpl. by rewrite Hstage.
  - destruct Hacts as [Hstage _]. eapply effect_remove; [done| |done..]. simpl. by rewrite Hstage.
Qed.

Lemma pending_step_effect w t w' t' :
  task_step w t w' t' → task_orderly t → effect w t w' t' ∧ task_orderly t'.
Proof.
  intros Hstep Ht.
  destruct Hstep as [w r|w r|w r Hin|w r|w r p Hp|w r Hp|w key p k d Hd|w r p turn|w r p turn|w r p c answer|w key p act acts d|w key p d];
    try (by split; [apply effect_none|]).
  - split; [|done]. by eapply effect_create.
  - destruct (orderly_after c answer) as [Horder Hstage]. split; [|done]. apply effect_none; [|done..]. simpl. by rewrite Hstage.
  - split; [by apply act_effect|].
    assert (Hacts : orderly acts) by (destruct act; simpl in Ht; tauto).
    destruct act; simpl; try done. by destruct (resolve_single_active_call _).
Qed.

(** What the task at [i] owns. *)
Definition own (ts : list task) (i : nat) : option (HostApprovalKey * nat * nat) := ts !! i ≫= owner.
Record owned (w : world) (ts : list task) : Prop := {
  owned_orderly : Forall task_orderly ts;
  owned_pending i key p n : own ts i = Some (key, p, n) → pending_host_approvals (service w) !! key = Some p;
  owned_unique i j key p n m : own ts i = Some (key, p, n) → own ts j = Some (key, p, m) → i = j;
  owned_removed key p :
    drops = false → pending_host_approvals (service w) !! key = Some p → ∃ i n, own ts i = Some (key, p, n);
  owned_decided key p : drops = false → approvals w !! p = Some (key, None) → ∃ i, own ts i = Some (key, p, 2);
}.

Lemma owner_approval w t key p n :
  task_granted w t → owner t = Some (key, p, n) → ∃ d, approvals w !! p = Some (key, d).
Proof.
  intros Ht Howner. destruct t as [r|r|r|k q|r q|r q c|k q acts d|k d|k]; simpl in *; simplify_eq; try done.
  destruct Ht as (Hp & _). destruct (stage acts); by simplify_eq.
Qed.
Lemma own_approval w ts i key p n :
  Forall (task_granted w) ts → own ts i = Some (key, p, n) → ∃ d, approvals w !! p = Some (key, d).
Proof.
  intros Hts Hown. apply bind_Some in Hown as (t & Ht & Hown). eapply owner_approval; [|exact Hown].
  rewrite Forall_lookup in Hts. by eapply Hts.
Qed.

(** The task at [i] is replaced. *)
Lemma own_insert ts i t t' j :
  ts !! i = Some t → own (<[i := t']> ts) j = if decide (j = i) then owner t' else own ts j.
Proof.
  intros Hi. unfold own. destruct (decide (j = i)) as [->|Hne]; [|by rewrite list_lookup_insert_ne].
  by rewrite list_lookup_insert_eq by (by eapply lookup_lt_Some).
Qed.

Section Insert.
Context (w : world) (ts : list task) (i : nat) (t t' : task).
Hypotheses (Hi : ts !! i = Some t) (Horder : task_orderly t') (Howned : owned w ts).

Lemma own_at : own ts i = owner t.
Proof using Hi. unfold own. by rewrite Hi. Qed.
Lemma orderly_insert : Forall task_orderly (<[i := t']> ts).
Proof using Horder Howned. apply Forall_insert; [apply Howned|done]. Qed.

Lemma owned_same w' :
  owner t' = owner t → pending_host_approvals (service w') = pending_host_approvals (service w) →
  approvals w' = approvals w → owned w' (<[i := t']> ts).
Proof using All.
  intros Ht' Hp Ha. pose proof orderly_insert. destruct Howned as [H1 H2 H3 H4 H5].
  assert (Hsame : ∀ j, own (<[i := t']> ts) j = own ts j).
  { intros j. rewrite (own_insert _ _ t) by done. destruct (decide (j = i)) as [->|]; [by rewrite own_at|done]. }
  split; [done|..]; setoid_rewrite Hsame; rewrite ?Hp, ?Ha; eauto.
Qed.

Lemma owned_create key :
  owner t = None → owner t' = Some (key, length (approvals w), 2) → pending_host_approvals (service w) !! key = None →
  owned (create_pending key w) (<[i := t']> ts).
Proof using All.
  intros Ht Ht' Hnone. pose proof orderly_insert. pose proof own_at as Hat. destruct Howned as [H1 H2 H3 H4 H5].
  assert (Hfree : ∀ j p n, own ts j ≠ Some (key, p, n)) by (intros j p n Hj; apply H2 in Hj; by rewrite Hnone in Hj).
  split; [done|..]; simpl; setoid_rewrite (own_insert _ _ t _ _ Hi).
  - intros j k q n Hj. destruct (decide (j = i)) as [->|Hne].
    + rewrite Ht' in Hj. simplify_eq. by rewrite lookup_insert_eq.
    + pose proof (H2 _ _ _ _ Hj) as Hq. rewrite lookup_insert_ne; [done|]. by intros ->; rewrite Hnone in Hq.
  - intros j j' k q n m Hj Hj'. destruct (decide (j = i)) as [->|], (decide (j' = i)) as [->|]; try done.
    + rewrite Ht' in Hj. simplify_eq. by apply Hfree in Hj'.
    + rewrite Ht' in Hj'. simplify_eq. by apply Hfree in Hj.
    + by eapply H3.
  - intros k q Hd Hq. apply lookup_insert_Some in Hq as [[<- <-]|[Hne Hq]]; [exists i, 2; by rewrite decide_True|].
    destruct (H4 k q Hd Hq) as (j & n & Hj). exists j, n. rewrite decide_False; [done|]. intros ->. by rewrite Hat, Ht in Hj.
  - intros k q Hd Hq. apply lookup_app_Some in Hq as [Hq|[Hlen Hq]].
    + destruct (H5 k q Hd Hq) as (j & Hj). exists j. rewrite decide_False; [done|]. intros ->. by rewrite Hat, Ht in Hj.
    + apply list_lookup_singleton_Some in Hq as [Hq [= <-]]. exists i. rewrite decide_True, Ht' by done. do 3 f_equal. lia.
Qed.

Lemma owned_decide key p d :
  owner t = Some (key, p, 2) → owner t' = Some (key, p, 1) → owned (set_decision p d w) (<[i := t']> ts).
Proof using All.
  intros Ht Ht'. pose proof orderly_insert. pose proof own_at as Hat. rewrite Ht in Hat. destruct Howned as [H1 H2 H3 H4 H5].
  split; [done|..]; setoid_rewrite (own_insert _ _ t _ _ Hi).
  - intros j k q n Hj. apply (H2 j k q (if decide (j = i) then 2 else n)). destruct (decide (j = i)) as [->|]; [|done].
    by rewrite Ht' in Hj; simplify_eq.
  - intros j j' k q n m Hj Hj'. destruct (decide (j = i)) as [->|], (decide (j' = i)) as [->|]; try done;
      rewrite ?Ht' in *; simplify_eq; by eapply H3.
  - intros k q Hd Hq. destruct (H4 k q Hd Hq) as (j & n & Hj). exists j. destruct (decide (j = i)) as [->|]; [|by exists n].
    exists 1. rewrite Ht'. by rewrite Hat in Hj; simplify_eq.
  - intros k q Hd Hq. rewrite set_decision_lookup in Hq. destruct (decide (q = p)) as [->|Hne].
    { apply fmap_Some in Hq as (a & _ & Ha). by destruct a. }
    destruct (H5 k q Hd Hq) as (j & Hj). exists j. rewrite decide_False; [done|]. intros ->. rewrite Hat in Hj. by simplify_eq.
Qed.

Lemma owned_remove w' key p :
  owner t = Some (key, p, 1) → owner t' = None →
  pending_host_approvals (service w') = delete key (pending_host_approvals (service w)) → approvals w' = approvals w →
  owned w' (<[i := t']> ts).
Proof using All.
  intros Ht Ht' Hp Ha. pose proof orderly_insert. pose proof own_at as Hat. rewrite Ht in Hat. destruct Howned as [H1 H2 H3 H4 H5].
  split; [done|..]; rewrite ?Hp, ?Ha; setoid_rewrite (own_insert _ _ t _ _ Hi).
  - intros j k q n Hj. destruct (decide (j = i)) as [->|Hne]; [by rewrite Ht' in Hj|]. pose proof (H2 _ _ _ _ Hj) as Hq.
    rewrite lookup_delete_ne; [done|]. intros <-. apply Hne. rewrite (H2 _ _ _ _ Hat) in Hq. simplify_eq. by eapply H3.
  - intros j j' k q n m Hj Hj'. destruct (decide (j = i)) as [->|], (decide (j' = i)) as [->|]; rewrite ?Ht' in *; try done.
    by eapply H3.
  - intros k q Hd Hq. apply lookup_delete_Some in Hq as [Hne Hq]. destruct (H4 k q Hd Hq) as (j & n & Hj). exists j, n.
    rewrite decide_False; [done|]. intros ->. rewrite Hat in Hj. by simplify_eq.
  - intros k q Hd Hq. destruct (H5 k q Hd Hq) as (j & Hj). exists j. rewrite decide_False; [done|]. intros ->.
    rewrite Hat in Hj. by simplify_eq.
Qed.

Lemma owned_effect w' : effect w t w' t' → owned w' (<[i := t']> ts).
Proof using All.
  intros [Ht' Hp Ha|key Ht Ht' Hnone ->|key p d Ht Ht' ->|key p Ht Ht' Hp Ha].
  - by apply owned_same.
  - by apply owned_create.
  - by eapply owned_decide.
  - by eapply owned_remove.
Qed.
End Insert.

Lemma owned_world w w' ts :
  pending_host_approvals (service w') = pending_host_approvals (service w) → approvals w' = approvals w →
  owned w ts → owned w' ts.
Proof. intros Hp Ha [H1 H2 H3 H4 H5]. by split; rewrite ?Hp, ?Ha. Qed.
Lemma own_request ts r j : own (ts ++ [CheckDenied r]) j = own ts j.
Proof.
  unfold own. destruct (decide (j < length ts)) as [Hlt|Hge]; [by rewrite lookup_app_l|].
  rewrite (lookup_ge_None_2 ts) by lia. rewrite lookup_app_r by lia. destruct (j - length ts) as [|n]; [done|]. by destruct n.
Qed.
Lemma record_blocked_pending host reason decision s :
  pending_host_approvals (record_blocked_request host reason decision s) = pending_host_approvals s.
Proof.
  unfold record_blocked_request, record_outcome_for_single_active_call.
  destruct (denied_network_policy_message _ _ _); [|done]. destruct (resolve_single_active_call _); [|done].
  apply record_call_outcome_hosts.
Qed.
Lemma owned_request w ts r : owned w ts → owned w (ts ++ [CheckDenied r]).
Proof.
  intros [H1 H2 H3 H4 H5].
  split; [apply Forall_app; by repeat constructor|..]; setoid_rewrite own_request; done.
Qed.
Lemma owned_drop w ts i t :
  drops = true → ts !! i = Some t → owned w ts → owned w (<[i := Dropped (key_of t)]> ts).
Proof.
  intros Hdrops Hi [H1 H2 H3 H4 H5]. split; [by apply Forall_insert|..]; setoid_rewrite (own_insert _ _ t _ _ Hi).
  - intros j k p n Hj. destruct (decide (j = i)); [done|]. by eapply H2.
  - intros j j' k p n m Hj Hj'. destruct (decide (j = i)), (decide (j' = i)); try done. by eapply H3.
  - congruence.
  - congruence.
Qed.

Lemma session_step_owned c c' : session_step drops c c' → owned c.1 c.2 → owned c'.1 c'.2.
Proof.
  intros Hstep Howned.
  destruct Hstep as [w ts i t w' t' Hi Hstep|w ts r|w ts id call|w ts id|w ts id|w ts host reason decision|w ts source|w ts i t Hdrops Hi Hfin];
    simpl in *.
  3-5, 7: by apply (owned_world w).
  - assert (Ht : task_orderly t) by (pose proof (owned_orderly _ _ Howned) as Ho; rewrite Forall_lookup in Ho; by eapply Ho).
    destruct (pending_step_effect _ _ _ _ Hstep Ht). by eapply owned_effect.
  - by apply owned_request.
  - apply (owned_world w); [|done..]. apply record_blocked_pending.
  - by apply owned_drop.
Qed.

Lemma reachable_owned w ts : reachable drops (w, ts) → owned w ts.
Proof.
  intros Hreach. apply (rtc_ind_r (λ c, owned c.1 c.2) (fresh_world, [])) in Hreach; [done| |].
  - split; [constructor|..]; simpl; try done; intros *; by rewrite ?lookup_nil, ?lookup_empty.
  - intros c c' _ Hstep. by apply session_step_owned.
Qed.

(** ** Every request comes to an end *)

(** The steps a task takes at most, on its own. *)
Definition act_rank (act : Act) : nat := match act with RecordSingle _ => 2 | _ => 1 end.
Definition rank (t : task) : nat :=
  match t with
  | CheckDenied _ => 14 | CheckApproved _ => 13 | GetOrCreate _ => 12 | Owning _ _ => 10 | Reviewing _ _ _ => 9
  | Waiting _ _ => 1 | Acting _ _ acts _ => S (sum_list_with act_rank acts) | Done _ _ | Dropped _ => 0
  end.

Lemma acts_after_rank owner_call answer : sum_list_with act_rank (acts_after owner_call answer).1 ≤ 5.
Proof.
  destruct owner_call, answer as [|m|g []]; try match goal with a : NetworkPolicyRuleAction |- _ => destruct a end;
    vm_compute; lia.
Qed.
Lemma do_act_rank key p act w : sum_list_with act_rank (do_act key p act w).2 < act_rank act.
Proof. destruct act; simpl; try lia. destruct (resolve_single_active_call _); simpl; lia. Qed.
Lemma task_step_rank w t w' t' : task_step w t w' t' → rank t' < rank t.
Proof.
  destruct 1 as [w r|w r|w r|w r|w r p Hp|w r|w key p k d|w r p turn|w r p turn|w r p c answer|w key p act acts d|w key p d]; simpl; try lia.
  - pose proof (acts_after_rank c answer). lia.
  - rewrite sum_list_with_app. pose proof (do_act_rank key p act w). lia.
Qed.

(** One step of one of the requests that have come in. *)
Inductive tasks_step : world * list task → world * list task → Prop :=
| tasks_step_task w ts i t w' t' : ts !! i = Some t → task_step w t w' t' → tasks_step (w, ts) (w', <[i := t']> ts).

Definition ranks (c : world * list task) : nat := sum_list_with rank c.2.

Lemma ranks_insert (ts : list task) i t t' :
  ts !! i = Some t → rank t' < rank t → sum_list_with rank (<[i := t']> ts) < sum_list_with rank ts.
Proof.
  intros Hi Hlt. rewrite <- (take_drop_middle ts i t Hi) at 2.
  rewrite insert_take_drop by (by eapply lookup_lt_Some). rewrite !sum_list_with_app. simpl. lia.
Qed.
Lemma insert_owner_at (ts : list task) i t t' : ts !! i = Some t → <[i := t']> ts !! i = Some t'.
Proof. intros Hi. apply list_lookup_insert_eq. by eapply lookup_lt_Some. Qed.
Lemma tasks_step_ranks c c' : tasks_step c c' → ranks c' < ranks c.
Proof. intros [w ts i t w' t' Hi Hstep]. eapply ranks_insert; [done|]. by eapply task_step_rank. Qed.
Lemma tasks_nsteps_ranks n c c' : nsteps tasks_step n c c' → n + ranks c' ≤ ranks c.
Proof. induction 1 as [|n c1 c2 c3 Hstep _ IH]; [lia|]. apply tasks_step_ranks in Hstep. lia. Qed.
Lemma tasks_step_session c c' : tasks_step c c' → session_step drops c c'.
Proof. intros [w ts i t w' t' Hi Hstep]. by eapply session_task. Qed.

(** Who owns a pending approval is never blocked. *)
Lemma owner_steps w t key p n : owner t = Some (key, p, n) → ∃ w' t', task_step w t w' t'.
Proof.
  intros Howner. destruct t as [r|r|r|k q|r q|r q c|k q acts d|k d|k]; simpl in Howner; try done.
  - do 2 eexists. by apply (step_unasked w r q None).
  - do 2 eexists. by apply (step_answer w r q c HookAllows).
  - destruct acts; [done|]. do 2 eexists. apply step_act.
Qed.
Lemma task_steps w t :
  finished t = false →
  (∃ w' t', task_step w t w' t') ∨ ∃ key p, t = Waiting key p ∧ ∀ k d, approvals w !! p ≠ Some (k, Some d).
Proof.
  intros Hfin. destruct t as [r|r|r|key p|r p|r p c|key p acts d|key d|key]; try done.
  - left. destruct (decide (from_request r ∈ session_denied_hosts (service w))); do 2 eexists; by constructor.
  - left. destruct (decide (from_request r ∈ session_approved_hosts (service w))); do 2 eexists; by constructor.
  - left. destruct (pending_host_approvals (service w) !! from_request r) as [q|] eqn:Hq; do 2 eexists; by constructor.
  - destruct (approvals w !! p) as [[k [d|]]|] eqn:Hp.
    + left. do 2 eexists. by eapply step_wait.
    + right. exists key, p. split; [done|]. naive_solver.
    + right. exists key, p. split; [done|]. naive_solver.
  - left. by eapply owner_steps.
  - left. by eapply owner_steps.
  - left. destruct acts as [|act acts]; do 2 eexists; by constructor.
Qed.

Lemma progress w ts :
  drops = false → reachable drops (w, ts) → Forall finished ts ∨ ∃ c', tasks_step (w, ts) c'.
Proof.
  intros Hdrops Hreach. destruct (decide (Forall finished ts)) as [|Hfin]; [by left|right].
  apply not_Forall_Exists in Hfin; [|apply _]. apply Exists_exists in Hfin as (t & [i Hi]%list_elem_of_lookup & Hfin).
  destruct (finished t) eqn:Hf; [simpl in Hfin; rewrite Hf in Hfin; by destruct Hfin|].
  destruct (task_steps w t Hf) as [(w' & t' & Hstep)|(key & p & -> & Hwait)]; [eexists; by eapply tasks_step_task|].
  destruct (reachable_granted _ _ Hreach) as [_ Hts]. rewrite Forall_lookup in Hts.
  destruct (Hts _ _ Hi) as [[d|] Hp]; [by apply Hwait in Hp|].
  destruct (owned_decided _ _ (reachable_owned _ _ Hreach) _ _ Hdrops Hp) as (j & Hj).
  apply bind_Some in Hj as (u & Hu & Howner). destruct (owner_steps w u _ _ _ Howner) as (w' & u' & Hstep).
  eexists. by eapply tasks_step_task.
Qed.

Lemma tasks_end n w ts :
  drops = false → reachable drops (w, ts) → ranks (w, ts) ≤ n → ∃ w' ts', rtc tasks_step (w, ts) (w', ts') ∧ Forall finished ts'.
Proof.
  intros Hdrops. revert w ts. induction n as [|n IH]; intros w ts Hreach Hrank;
    (destruct (progress w ts Hdrops Hreach) as [Hfin|([w1 ts1] & Hstep)]; [exists w, ts; by split|]);
    pose proof (tasks_step_ranks _ _ Hstep); [lia|].
  destruct (IH w1 ts1) as (w2 & ts2 & Hsteps & Hfin); [|lia|].
  - eapply rtc_r; [exact Hreach|]. by apply tasks_step_session.
  - exists w2, ts2. split; [|done]. by eapply rtc_l.
Qed.

(** What a task that waits for a pending approval becomes. *)
Lemma tasks_rtc_session c c' : rtc tasks_step c c' → rtc (session_step drops) c c'.
Proof. intros Hsteps. eapply rtc_subrel; [|exact Hsteps]. intros ???. by apply tasks_step_session. Qed.

(** ** An abandoned pending approval *)

(** Nobody owns the pending approval of the host, which is not decided. *)
Definition abandoned (key : HostApprovalKey) (p : nat) (c : world * list task) : Prop :=
  pending_host_approvals (service c.1) !! key = Some p ∧ approvals c.1 !! p = Some (key, None)
  ∧ ∀ i n, own c.2 i ≠ Some (key, p, n).


Lemma abandoned_effect key p w ts i t w' t' :
  ts !! i = Some t → effect w t w' t' → owned w ts → Forall (task_granted w) ts → abandoned key p (w, ts) → abandoned key p (w', <[i := t']> ts).
Proof.
  intros Hi Heffect Howned Hts (Hpend & Happ & Hno). unfold abandoned in *. simpl in *.
  pose proof (own_at ts i t Hi) as Hat. setoid_rewrite (own_insert _ _ t _ _ Hi).
  assert (Hown : ∀ k q n, owner t = Some (k, q, n) → k ≠ key).
  { intros k q n Ht ->. rewrite Ht in Hat. pose proof (owned_pending _ _ Howned _ _ _ _ Hat) as Hq. rewrite Hpend in Hq. simplify_eq.
    by apply Hno in Hat. }
  assert (Hkey : ∀ n, owner t ≠ Some (key, p, n)) by (intros n Ht; by apply Hown in Ht).
  destruct Heffect as [Ht' Hp Ha|k Ht Ht' Hnone ->|k q d Ht Ht' ->|k q Ht Ht' Hp Ha].
  - rewrite Hp, Ha. split_and!; [done..|]. intros j n. case_decide; [rewrite Ht'|]; eauto.
  - assert (k ≠ key) by congruence. simpl. rewrite lookup_insert_ne by done. split_and!; [done|by apply lookup_app_l_Some|].
    intros j n. case_decide; [rewrite Ht'; congruence|]; eauto.
  - assert (k ≠ key) by eauto. assert (p ≠ q).
    { intros <-. rewrite Ht in Hat. destruct (own_approval _ _ _ _ _ _ Hts Hat) as [d' Hd]. rewrite Happ in Hd. by simplify_eq. }
    rewrite set_decision_lookup, decide_False by done. split_and!; [done..|].
    intros j n. case_decide; [rewrite Ht'; congruence|]; eauto.
  - assert (k ≠ key) by eauto. rewrite Hp, Ha. rewrite lookup_delete_ne by done. split_and!; [done..|].
    intros j n. case_decide; [rewrite Ht'; congruence|]; eauto.
Qed.

Lemma abandoned_world key p w w' ts :
  pending_host_approvals (service w') = pending_host_approvals (service w) → approvals w' = approvals w →
  abandoned key p (w, ts) → abandoned key p (w', ts).
Proof. intros Hp Ha. unfold abandoned. simpl. by rewrite Hp, Ha. Qed.

Lemma abandoned_step key p c c' :
  session_step drops c c' → owned c.1 c.2 → Forall (task_granted c.1) c.2 → abandoned key p c → abandoned key p c'.
Proof.
  intros Hstep Howned Hts Habandoned.
  destruct Hstep as [w ts i t w' t' Hi Hstep|w ts r|w ts id call|w ts id|w ts id|w ts host reason decision|w ts source|w ts i t Hdrops Hi Hfin];
    simpl in *.
  3-5, 7: by apply (abandoned_world _ _ w).
  - assert (Ht : task_orderly t) by (pose proof (owned_orderly _ _ Howned) as Ho; rewrite Forall_lookup in Ho; by eapply Ho).
    destruct (pending_step_effect _ _ _ _ Hstep Ht). by eapply abandoned_effect.
  - destruct Habandoned as (Hp & Ha & Hno). split_and!; [done..|]. intros i n. simpl. by rewrite own_request.
  - apply (abandoned_world _ _ w); [|done..]. apply record_blocked_pending.
  - destruct Habandoned as (Hp & Ha & Hno). split_and!; [done..|]. intros j n. simpl. rewrite (own_insert _ _ t) by done.
    case_decide; [done|]. by apply Hno.
Qed.

(** Who waits for it goes on waiting. *)
Lemma waiting_step key p c c' i :
  session_step drops c c' → abandoned key p c → c.2 !! i = Some (Waiting key p) →
  c'.2 !! i = Some (Waiting key p) ∨ c'.2 !! i = Some (Dropped key).
Proof.
  intros Hstep (_ & Ha & _) Hwait.
  destruct Hstep as [w ts j t w' t' Hj Hstep| | | | | | |w ts j t Hdrops Hj Hfin]; simpl in *; try (by left).
  - left. destruct (decide (i = j)) as [<-|Hne]; [|by rewrite list_lookup_insert_ne]. simplify_eq. inversion Hstep. by simplify_eq.
  - left. by apply lookup_app_l_Some.
  - destruct (decide (i = j)) as [<-|Hne]; [|left; by rewrite list_lookup_insert_ne].
    right. simplify_eq. by eapply insert_owner_at.
Qed.

Lemma dropped_step key c c' i :
  session_step drops c c' → c.2 !! i = Some (Dropped key) → c'.2 !! i = Some (Dropped key).
Proof.
  intros Hstep Hi.
  destruct Hstep as [w ts j t w' t' Hj Hstep| | | | | | |w ts j t Hdrops Hj Hfin]; simpl in *; try done.
  - destruct (decide (i = j)) as [<-|Hne]; [|by rewrite list_lookup_insert_ne]. simplify_eq. inversion Hstep.
  - by apply lookup_app_l_Some.
  - destruct (decide (i = j)) as [<-|Hne]; [|by rewrite list_lookup_insert_ne]. by simplify_eq.
Qed.
Lemma abandoned_forever key p w ts w' ts' :
  reachable drops (w, ts) → abandoned key p (w, ts) → rtc (session_step drops) (w, ts) (w', ts') →
  abandoned key p (w', ts')
  ∧ ∀ i, ts !! i = Some (Waiting key p) → ts' !! i = Some (Waiting key p) ∨ ts' !! i = Some (Dropped key).
Proof.
  intros Hreach Habandoned Hsteps.
  apply (rtc_ind_r (λ c, reachable drops c ∧ abandoned key p c
    ∧ ∀ i, ts !! i = Some (Waiting key p) → c.2 !! i = Some (Waiting key p) ∨ c.2 !! i = Some (Dropped key)) (w, ts)) in Hsteps.
  - by destruct Hsteps as (_ & ? & ?).
  - split_and!; [done..|]. by left.
  - intros c c' _ Hstep (Hc & Hab & Hwait). pose proof Hc as Hc0. destruct c as [w1 ts1].
    destruct (reachable_granted _ _ Hc0) as [_ Hts].
    split_and!; [by eapply rtc_r|eapply abandoned_step; [done|by apply reachable_owned|done..]|].
    intros i Hi. destruct (Hwait i Hi) as [Hw|Hw]; [by eapply waiting_step|]. right. by eapply dropped_step.
Qed.

(** ** No task takes more than fourteen steps *)

Lemma reachable_short w ts : reachable drops (w, ts) → Forall (λ t, rank t ≤ 14) ts.
Proof.
  intros Hreach. apply (rtc_ind_r (λ c, Forall (λ t, rank t ≤ 14) c.2) (fresh_world, [])) in Hreach; [done|constructor|].
  intros c c' _ Hstep Hts.
  destruct Hstep as [w1 ts1 i t w' t' Hi Hstep|w1 ts1 r| | | | | |w1 ts1 i t Hdrops Hi Hfin]; simpl in *; try done.
  - apply task_step_rank in Hstep. apply Forall_insert; [done|]. rewrite Forall_lookup in Hts. specialize (Hts _ _ Hi). simpl in Hts. lia.
  - apply Forall_app. by repeat constructor.
  - apply Forall_insert; [done|]. simpl. lia.
Qed.
Lemma ranks_bound ts : Forall (λ t, rank t ≤ 14) ts → sum_list_with rank ts ≤ 14 * length ts.
Proof. induction 1; simpl; lia. Qed.

End Facts.
End NetworkApprovalFacts.

(** ** What the approval of network access promises *)
Import NetworkApproval NetworkApprovalFacts.

Module NetworkApprovalPromises.

(** C6. A request that the service lets through was answered: somebody allowed
    the host, with its protocol and port, for this request or another, or the
    host was handed over by another session; and what is approved for the
    session was answered for the session. In any order of the steps of the
    requests. *)
Theorem allowed_hosts_were_answered drops w ts :
  reachable drops (w, ts) →
  (∀ key, Done key Allow ∈ ts → key ∈ inherited w ∨ ∃ answer, (key, answer) ∈ answers w ∧ allows answer)
  ∧ ∀ key, key ∈ session_approved_hosts (service w) →
      key ∈ inherited w ∨ ∃ answer, (key, answer) ∈ answers w ∧ allows_session answer.
Proof.
  intros [Hw Hts]%reachable_granted. split; [|by apply granted_approved]. intros key Hin.
  rewrite Forall_forall in Hts. by apply (Hts _ Hin).
Qed.

(** Only one request asks about a host at a time, and the requests that
    come in meanwhile find the pending approval that it has to decide. *)
Theorem one_review_per_host drops w ts i j r r' p p' call call' :
  reachable drops (w, ts) →
  ts !! i = Some (Reviewing r p call) → ts !! j = Some (Reviewing r' p' call') → from_request r = from_request r' →
  i = j ∧ pending_host_approvals (service w) !! from_request r = Some p.
Proof.
  intros Hreach%reachable_owned Hi Hj Hr.
  assert (Howni : own ts i = Some (from_request r, p, 2)) by (unfold own; by rewrite Hi).
  assert (Hownj : own ts j = Some (from_request r, p', 2)) by (unfold own; rewrite Hj; simpl; by rewrite Hr).
  pose proof (owned_pending _ _ _ Hreach _ _ _ _ Howni) as Hp. pose proof (owned_pending _ _ _ Hreach _ _ _ _ Hownj) as Hp'.
  split; [|done]. rewrite Hp in Hp'. simplify_eq. by eapply owned_unique.
Qed.

(** C7. When no request is dropped and each review ends with an answer, the
    requests that have come in all end, those that wait for another's review
    too, in any order of their steps: one of them can take a step until all
    are finished, and together they take at most fourteen steps each. *)
Theorem every_request_ends w ts :
  reachable false (w, ts) →
  (∃ w' ts', rtc tasks_step (w, ts) (w', ts') ∧ Forall finished ts')
  ∧ ∀ n w' ts', nsteps tasks_step n (w, ts) (w', ts') →
      n ≤ 14 * length ts ∧ (Forall finished ts' ∨ ∃ c, tasks_step (w', ts') c).
Proof.
  intros Hreach. split; [by eapply tasks_end|]. intros n w' ts' Hsteps.
  pose proof (tasks_nsteps_ranks _ _ _ Hsteps) as Hrank.
  split; [|apply (progress false); [done|]].
  - assert (Hbound : sum_list_with rank ts ≤ 14 * length ts).
    { apply ranks_bound. by eapply (reachable_short false). }
    unfold ranks in Hrank. simpl in Hrank. lia.
  - unfold reachable. etrans; [exact Hreach|]. apply tasks_rtc_session. by eapply rtc_nsteps_2.
Qed.

(** When the request that has to decide a pending approval is dropped before it
    does (nothing removes the pending approval then), the requests that wait for
    it never get an answer, and those that come in for the same host and are not
    settled by the session's lists wait for it too. *)
Theorem abandoned_approval_blocks_host w ts key p w' ts' :
  reachable true (w, ts) → abandoned key p (w, ts) → rtc (session_step true) (w, ts) (w', ts') →
  abandoned key p (w', ts')
  ∧ (∀ i, ts !! i = Some (Waiting key p) → ts' !! i = Some (Waiting key p) ∨ ts' !! i = Some (Dropped key))
  ∧ ∀ r w'' t, from_request r = key → task_step w' (GetOrCreate r) w'' t → t = Waiting key p.
Proof.
  intros Hreach Habandoned Hsteps.
  enough (abandoned key p (w', ts')
    ∧ ∀ i, ts !! i = Some (Waiting key p) → ts' !! i = Some (Waiting key p) ∨ ts' !! i = Some (Dropped key)) as [Hab Hwait].
  { split_and!; [done..|]. intros r w'' t Hr Hstep. destruct Hab as (Hp & _). inversion Hstep; naive_solver congruence. }
  by eapply abandoned_forever.
Qed.

End NetworkApprovalPromises.

(** ** Network approvals: a session that runs

    An executable scheduler of the tasks, sound for their steps, and two requests
    for one host: the first is asked about, the second waits for it. *)
Import Permissions ExecApproval NetworkApproval NetworkApprovalFacts NetworkApprovalPromises.

Module NetworkApprovalWitness.

(** ** A scheduler *)

(** One step of a task, given the turn and the answer that it meets. *)
Definition play_task (turn : option (SandboxPolicy * AskForApproval)) (answer : Answer) (w : world) (t : task)
    : option (world * task) :=
  match t with
  | CheckDenied r =>
      Some (w, if bool_decide (from_request r ∈ session_denied_hosts (service w)) then Done (from_request r) NotAllowed
               else CheckApproved r)
  | CheckApproved r =>
      Some (w, if bool_decide (from_request r ∈ session_approved_hosts (service w)) then Done (from_request r) Allow
               else GetOrCreate r)
  | GetOrCreate r =>
      Some match pending_host_approvals (service w) !! from_request r with
           | Some p => (w, Waiting (from_request r) p)
           | None => (create_pending (from_request r) w, Owning r (length (approvals w)))
           end
  | Waiting key p =>
      match approvals w !! p with Some (_, Some d) => Some (w, Done key (to_network_decision d)) | _ => None end
  | Owning r p =>
      Some (w, if may_ask turn then Reviewing r p (resolve_single_active_call (service w))
               else Acting (from_request r) p (acts_unasked r) NotAllowed)
  | Reviewing r p c =>
      Some (answered (from_request r) answer w,
            Acting (from_request r) p (acts_after c answer).1 (to_network_decision (acts_after c answer).2))
  | Acting key p (act :: acts) d => Some ((do_act key p act w).1, Acting key p ((do_act key p act w).2 ++ acts) d)
  | Acting key p [] d => Some (w, Done key d)
  | Done _ _ | Dropped _ => None
  end.
Lemma play_task_sound turn answer w t w' t' : play_task turn answer w t = Some (w', t') → task_step w t w' t'.
Proof.
  intros Hplay. destruct t as [r|r|r|key p|r p|r p c|key p [|act acts] d|key d|key]; simpl in Hplay; simplify_eq; try by constructor.
  - case_bool_decide; by constructor.
  - case_bool_decide; by constructor.
  - case_match; simplify_eq; by constructor.
  - repeat case_match; simplify_eq. by econstructor.
  - destruct (may_ask turn) eqn:?; by econstructor.
Qed.

(** The tasks take steps in the order of the list. *)
Fixpoint play (turn : option (SandboxPolicy * AskForApproval)) (answer : Answer) (order : list nat) (c : world * list task)
    : option (world * list task) :=
  match order with
  | [] => Some c
  | i :: order =>
      t ← c.2 !! i; '(w', t') ← play_task turn answer c.1 t; play turn answer order (w', <[i := t']> c.2)
  end.
Lemma play_sound drops turn answer order c c' : play turn answer order c = Some c' → rtc (session_step drops) c c'.
Proof.
  revert c. induction order as [|i order IH]; intros [w ts] Hplay; simpl in Hplay; [by simplify_eq|].
  destruct (ts !! i) as [t|] eqn:Hi; [|done]. simpl in Hplay.
  destruct (play_task turn answer w t) as [[w' t']|] eqn:Ht; [|done]. simpl in Hplay.
  eapply rtc_l; [|by apply IH]. eapply session_task; [done|]. by eapply play_task_sound.
Qed.
Lemma requests_come_in drops rs : reachable drops (fresh_world, map CheckDenied rs).
Proof.
  induction rs as [|r rs IH] using rev_ind; [apply rtc_refl|]. rewrite map_app. eapply rtc_r; [exact IH|]. apply session_request.
Qed.
Lemma play_reachable drops turn answer order rs c :
  play turn answer order (fresh_world, map CheckDenied rs) = Some c → reachable drops c.
Proof. intros Hplay. unfold reachable. etrans; [apply (requests_come_in drops rs)|]. by eapply play_sound. Qed.

(** ** Two requests for one host *)

Definition example_request (host : str) : NetRuntime.NetworkPolicyRequest := {|
  NetRuntime.req_protocol := NetRuntime.HttpsConnect; NetRuntime.req_host := host; NetRuntime.req_port := 443;
  NetRuntime.client_addr := None; NetRuntime.req_method := None; NetRuntime.command := None;
  NetRuntime.exec_policy_hint := None |}.
Definition two_requests : list NetRuntime.NetworkPolicyRequest :=
  [example_request (lit "example.com"); example_request (lit "Example.COM")].
Definition example_turn : option (SandboxPolicy * AskForApproval) := Some (WorkspaceWrite [] FullAccess false false false, OnRequest).
(** The first request is asked about, the second waits for it. *)
Definition asking : option (world * list task) :=
  play example_turn HookAllows [0; 0; 0; 0; 1; 1; 1] (fresh_world, map CheckDenied two_requests).
(** The user approves the host for the session. *)
Definition approved : option (world * list task) :=
  play example_turn (Reviewed None ApprovedForSession) [0; 0; 0; 1; 1; 0; 0; 0; 1; 0; 0; 0; 1; 0]
    (fresh_world, map CheckDenied two_requests).

Lemma asking_reachable drops w ts : asking = Some (w, ts) → reachable drops (w, ts).
Proof. apply play_reachable. Qed.
Lemma approved_reachable drops w ts : approved = Some (w, ts) → reachable drops (w, ts).
Proof. apply play_reachable. Qed.

Lemma asking_state : ∃ w ts p call p',
  asking = Some (w, ts) ∧ ts !! 0 = Some (Reviewing (example_request (lit "example.com")) p call)
  ∧ ts !! 1 = Some (Waiting (from_request (example_request (lit "example.com"))) p').
Proof. do 5 eexists. split_and!; vm_compute; reflexivity. Qed.
Lemma approved_state : ∃ w ts,
  approved = Some (w, ts) ∧ Done (from_request (example_request (lit "example.com"))) Allow ∈ ts ∧ length ts = 2
  ∧ Forall finished ts ∧ from_request (example_request (lit "example.com")) ∈ session_approved_hosts (service w).
Proof.
  destruct approved as [[w ts]|] eqn:Heq; vm_compute in Heq; [|discriminate Heq]. injection Heq as <- <-. do 2 eexists.
  split_and!; [reflexivity|by left|reflexivity|
    apply (bool_decide_unpack _); vm_compute; exact I|apply (bool_decide_unpack _); vm_compute; exact I].
Qed.

Lemma allowed_hosts_were_answered_witness : ∃ w ts,
  approved = Some (w, ts) ∧ Done (from_request (example_request (lit "example.com"))) Allow ∈ ts
  ∧ (from_request (example_request (lit "example.com")) ∈ inherited w
     ∨ ∃ answer, (from_request (example_request (lit "example.com")), answer) ∈ answers w ∧ allows answer).
Proof.
  destruct approved_state as (w & ts & Hplay & Hin & _). exists w, ts. split_and!; [exact Hplay|exact Hin|].
  exact (proj1 (allowed_hosts_were_answered true w ts (approved_reachable true w ts Hplay)) _ Hin).
Defined.

Lemma one_review_per_host_witness : ∃ w ts p,
  asking = Some (w, ts) ∧ pending_host_approvals (service w) !! from_request (example_request (lit "example.com")) = Some p.
Proof.
  destruct asking_state as (w & ts & p & call & p' & Hplay & H0 & _). exists w, ts, p. split; [exact Hplay|].
  exact (proj2 (one_review_per_host true w ts 0 0 _ _ p p call call (asking_reachable true w ts Hplay) H0 H0 eq_refl)).
Defined.

Lemma every_request_ends_witness : ∃ w ts w' ts',
  asking = Some (w, ts) ∧ Forall (λ t, finished t = false) ts ∧ rtc tasks_step (w, ts) (w', ts') ∧ Forall finished ts'.
Proof.
  destruct asking as [[w ts]|] eqn:Heq; [|vm_compute in Heq; discriminate Heq].
  destruct (every_request_ends w ts (asking_reachable false w ts Heq)) as [(w' & ts' & Hsteps & Hfin) _].
  exists w, ts, w', ts'. split_and!; [reflexivity| |exact Hsteps|exact Hfin].
  vm_compute in Heq. injection Heq as <- <-. repeat constructor.
Defined.

(** The first request is dropped while it is asked about. *)
Lemma abandoned_approval_blocks_host_witness : ∃ w ts key p,
  reachable true (w, ts) ∧ abandoned key p (w, ts) ∧ ts !! 1 = Some (Waiting key p)
  ∧ ∀ w' ts', rtc (session_step true) (w, ts) (w', ts') → ts' !! 1 = Some (Waiting key p) ∨ ts' !! 1 = Some (Dropped key).
Proof.
  destruct asking as [[w ts]|] eqn:Heq; [|vm_compute in Heq; discriminate Heq].
  pose proof (asking_reachable true w ts Heq) as Hreach. vm_compute in Heq. injection Heq as Hw Hts.
  set (t := Reviewing (example_request (lit "example.com")) 0 None).
  set (key := from_request (example_request (lit "example.com"))).
  assert (Hdrop : reachable true (w, <[0 := Dropped key]> ts)).
  { eapply rtc_r; [exact Hreach|]. apply (session_drop true w ts 0 t); [reflexivity| |reflexivity]. rewrite <- Hts. reflexivity. }
  assert (Habandoned : abandoned key 0 (w, <[0 := Dropped key]> ts)).
  { rewrite <- Hw, <- Hts. split_and!; [reflexivity|reflexivity|]. intros [|[|i]] n; discriminate. }
  assert (Hwait : <[0 := Dropped key]> ts !! 1 = Some (Waiting key 0)) by (rewrite <- Hts; reflexivity).
  exists w, (<[0 := Dropped key]> ts), key, 0. split_and!; [exact Hdrop|exact Habandoned|exact Hwait|].
  intros w' ts' Hsteps. exact (proj1 (proj2 (abandoned_approval_blocks_host _ _ _ _ w' ts' Hdrop Habandoned Hsteps)) 1 Hwait).
Defined.

End NetworkApprovalWitness.
