(* ===== verification/PermissionProfiles.v ===== *)
(** * Permissions that a command asks for

    Models [sandboxing/src/policy_transforms.rs] and the permission profiles of
    [protocol/src/models.rs]: the permissions that a command asks for beyond its
    sandbox are normalized, cut down to what was granted, merged, and added to
    the policies under which the command runs. *)
From S2P Require Import Prelude Str Io Paths Permissions.
Import Paths Permissions.

Module PermissionProfiles.

(** ** Data *)

(** [glob_scan_max_depth] is a [NonZeroUsize]. *)
Record FileSystemPermissions : Type := { permission_entries : list FileSystemSandboxEntry; permission_depth : option positive }.
Record NetworkPermissions : Type := { enabled : option bool }.
Record PermissionProfile : Type := { network : option NetworkPermissions; file_system : option FileSystemPermissions }.

#[export] Instance FileSystemPermissions_eq_dec : EqDecision FileSystemPermissions.
Proof. solve_decision. Defined.
#[export] Instance NetworkPermissions_eq_dec : EqDecision NetworkPermissions.
Proof. solve_decision. Defined.
#[export] Instance PermissionProfile_eq_dec : EqDecision PermissionProfile.
Proof. solve_decision. Defined.

Definition default_file_system_permissions : FileSystemPermissions := {| permission_entries := []; permission_depth := None |}.
Definition file_system_is_empty (p : FileSystemPermissions) : bool := bool_decide (permission_entries p = []).
Definition network_is_empty (n : NetworkPermissions) : bool := bool_decide (enabled n = None).
Definition profile_is_empty (p : PermissionProfile) : bool := bool_decide (network p = None) && bool_decide (file_system p = None).
Definition from_read_write_roots (read write : option (list str)) : FileSystemPermissions := {|
  permission_entries :=
    ((λ path, entry (PathEntry path) Read) <$> default [] read) ++ ((λ path, entry (PathEntry path) Write) <$> default [] write);
  permission_depth := None |}.
Definition explicit_path_entries (p : FileSystemPermissions) : list (str * FileSystemAccessMode) :=
  omap (λ e, match entry_path e with PathEntry path => Some (path, entry_access e) | _ => None end) (permission_entries p).

(** [as_legacy_permissions]: the paths that are read and those that are written. *)
Fixpoint legacy_roots (entries : list FileSystemSandboxEntry) (read write : list str) : option (list str * list str) :=
  match entries with
  | [] => Some (read, write)
  | e :: entries =>
      match entry_path e, entry_access e with
      | PathEntry path, Read => legacy_roots entries (read ++ [path]) write
      | PathEntry path, Write => legacy_roots entries read (write ++ [path])
      | _, _ => None
      end
  end.
Definition non_empty {A} (l : list A) : option (list A) := match l with [] => None | _ => Some l end.
Definition as_legacy_permissions (p : FileSystemPermissions) : option (option (list str) * option (list str)) :=
  match permission_depth p with
  | Some _ => None
  | None => '(read, write) ← legacy_roots (permission_entries p) [] []; Some (non_empty read, non_empty write)
  end.
(** The two forms in which permissions are written down, and what is read back. *)
Inductive FileSystemPermissionsDe : Type :=
| Canonical (entries : list FileSystemSandboxEntry) (depth : option positive)
| Legacy (read write : option (list str)).
Definition serialize (p : FileSystemPermissions) : FileSystemPermissionsDe :=
  match as_legacy_permissions p with
  | Some (read, write) => Legacy read write
  | None => Canonical (permission_entries p) (permission_depth p)
  end.
Definition deserialize (d : FileSystemPermissionsDe) : FileSystemPermissions :=
  match d with
  | Canonical entries depth => {| permission_entries := entries; permission_depth := depth |}
  | Legacy read write => from_read_write_roots read write
  end.

(** ** Profiles and policies *)

(** [NonZeroUsize::new] and back. *)
Definition nonzero (n : nat) : option positive := match n with 0 => None | S _ => Some (Pos.of_nat n) end.
Definition permissions_of_policy (p : FileSystemSandboxPolicy) : FileSystemPermissions := {|
  permission_entries :=
    match kind p with Restricted => entries p | Unrestricted | ExternalSandbox => [entry (Special Root) Write] end;
  permission_depth := glob_scan_max_depth p ≫= nonzero |}.
Definition policy_of_permissions (p : FileSystemPermissions) : FileSystemSandboxPolicy := {|
  kind := Restricted; glob_scan_max_depth := Pos.to_nat <$> permission_depth p; entries := permission_entries p |}.
Definition from_runtime_permissions (fs : FileSystemSandboxPolicy) (n : NetworkSandboxPolicy) : PermissionProfile := {|
  network := Some {| enabled := Some (is_enabled n) |}; file_system := Some (permissions_of_policy fs) |}.
Definition profile_file_system_sandbox_policy (p : PermissionProfile) : FileSystemSandboxPolicy :=
  match file_system p with Some fs => policy_of_permissions fs | None => restricted [] end.
Definition asks_network (p : PermissionProfile) : bool := default false (network p ≫= enabled).
Definition profile_network_sandbox_policy (p : PermissionProfile) : NetworkSandboxPolicy :=
  if asks_network p then NetworkEnabled else NetworkRestricted.
Definition to_runtime_permissions (p : PermissionProfile) : FileSystemSandboxPolicy * NetworkSandboxPolicy :=
  (profile_file_system_sandbox_policy p, profile_network_sandbox_policy p).

(** ** Depth of the search for denied globs *)

Inductive GlobScanDepth : Type := Bounded (depth : nat) | Unbounded.
Definition is_glob_deny (e : FileSystemSandboxEntry) : bool :=
  bool_decide (entry_access e = NoAccess) && match entry_path e with GlobPattern _ => true | _ => false end.
Definition effective_glob_scan_depth (entries : list FileSystemSandboxEntry) (depth : option nat) : option GlobScanDepth :=
  if existsb is_glob_deny entries then Some match depth with Some depth => Bounded depth | None => Unbounded end else None.
Definition merge_glob_scan_max_depth (left_entries : list FileSystemSandboxEntry) (left_depth : option nat)
    (right_entries : list FileSystemSandboxEntry) (right_depth : option nat) : option nat :=
  match effective_glob_scan_depth left_entries left_depth, effective_glob_scan_depth right_entries right_depth with
  | Some Unbounded, _ | _, Some Unbounded => None
  | Some (Bounded l), Some (Bounded r) => Some (l `max` r)
  | Some (Bounded depth), None | None, Some (Bounded depth) => Some depth
  | None, None => None
  end.

(** ** Merging *)

(** Entries are added when they are not there yet. *)
Definition add_new {A} `{EqDecision A} (l : list A) (a : A) : list A := if bool_decide (a ∈ l) then l else l ++ [a].
Definition merge_permission_entries (base permissions : list FileSystemSandboxEntry) : list FileSystemSandboxEntry :=
  foldl add_new [] (base ++ permissions).
Definition filter_profile (p : PermissionProfile) : option PermissionProfile := if profile_is_empty p then None else Some p.
Definition enables (n : option NetworkPermissions) : bool := bool_decide (n = Some {| enabled := Some true |}).
Definition merge_file_system (base permissions : option FileSystemPermissions) : option FileSystemPermissions :=
  match base, permissions with
  | Some base, Some permissions =>
      let merged := {|
        permission_entries := merge_permission_entries (permission_entries base) (permission_entries permissions);
        permission_depth :=
          merge_glob_scan_max_depth (permission_entries base) (Pos.to_nat <$> permission_depth base)
            (permission_entries permissions) (Pos.to_nat <$> permission_depth permissions) ≫= nonzero |} in
      if file_system_is_empty merged then None else Some merged
  | Some base, None => Some base
  | None, Some permissions => Some permissions
  | None, None => None
  end.
Definition merge_permission_profiles (base permissions : option PermissionProfile) : option PermissionProfile :=
  match permissions with
  | None => base
  | Some permissions =>
      match base with
      | Some base =>
          filter_profile {|
            network := if enables (network base) || enables (network permissions) then Some {| enabled := Some true |} else None;
            file_system := merge_file_system (file_system base) (file_system permissions) |}
      | None => filter_profile permissions
      end
  end.

(** ** Effective policies *)

Definition merge_file_system_policy_with_additional_permissions (p : FileSystemSandboxPolicy) (additional : FileSystemPermissions)
    : FileSystemSandboxPolicy :=
  match kind p with
  | Restricted => {|
      kind := Restricted;
      glob_scan_max_depth :=
        merge_glob_scan_max_depth (entries p) (glob_scan_max_depth p) (permission_entries additional)
          (Pos.to_nat <$> permission_depth additional);
      entries := foldl add_new (entries p) (permission_entries additional) |}
  | Unrestricted | ExternalSandbox => p
  end.
Definition effective_file_system_sandbox_policy (p : FileSystemSandboxPolicy) (additional : option PermissionProfile)
    : FileSystemSandboxPolicy :=
  match additional ≫= file_system with
  | Some permissions =>
      if file_system_is_empty permissions then p else merge_file_system_policy_with_additional_permissions p permissions
  | None => p
  end.
Definition merge_network_access (base_network_access : bool) (additional : PermissionProfile) : bool :=
  base_network_access || asks_network additional.
Definition effective_network_sandbox_policy (n : NetworkSandboxPolicy) (additional : option PermissionProfile) : NetworkSandboxPolicy :=
  match additional with
  | Some permissions => if merge_network_access (is_enabled n) permissions then NetworkEnabled else NetworkRestricted
  | None => n
  end.

Definition dedup_paths (paths : list str) : list str := foldl add_new [] paths.
Definition additional_permission_roots (additional : PermissionProfile) : list str * list str :=
  let explicit := match file_system additional with Some fs => explicit_path_entries fs | None => [] end in
  (dedup_paths (fst <$> filter (λ pa, can_read pa.2) explicit), dedup_paths (fst <$> filter (λ pa, can_write pa.2) explicit)).
Definition merge_read_only_access_with_additional_reads (access : ReadOnlyAccess) (extra_reads : list str) : ReadOnlyAccess :=
  match access with
  | FullAccess => FullAccess
  | RestrictedReads include_platform_defaults readable_roots =>
      RestrictedReads include_platform_defaults (dedup_paths (readable_roots ++ extra_reads))
  end.
Definition sandbox_policy_with_additional_permissions (policy : SandboxPolicy) (additional : PermissionProfile) : SandboxPolicy :=
  if profile_is_empty additional then policy
  else
    let '(extra_reads, extra_writes) := additional_permission_roots additional in
    match policy with
    | DangerFullAccess => DangerFullAccess
    | ExternalSandboxPolicy network_access =>
        ExternalSandboxPolicy
          (if merge_network_access (bool_decide (network_access = AccessEnabled)) additional then AccessEnabled else AccessRestricted)
    | WorkspaceWrite writable_roots read_only_access network_access exclude_tmpdir_env_var exclude_slash_tmp =>
        WorkspaceWrite (dedup_paths (writable_roots ++ extra_writes))
          (merge_read_only_access_with_additional_reads read_only_access extra_reads)
          (merge_network_access network_access additional) exclude_tmpdir_env_var exclude_slash_tmp
    | ReadOnly access network_access =>
        if bool_decide (extra_writes = []) then
          ReadOnly (merge_read_only_access_with_additional_reads access extra_reads) (merge_network_access network_access additional)
        else
          WorkspaceWrite (dedup_paths extra_writes) (merge_read_only_access_with_additional_reads access extra_reads)
            (merge_network_access network_access additional) false false
    end.
Definition effective_sandbox_policy (policy : SandboxPolicy) (additional : option PermissionProfile) : SandboxPolicy :=
  match additional with Some permissions => sandbox_policy_with_additional_permissions policy permissions | None => policy end.

(** ** Normalizing and cutting down *)

Section Machine.
Variable m : Machine.
(** globset, as in [Permissions.v]. *)
Variable build_glob_matcher : str → option (str → bool).

Definition normalize_path (path : FileSystemPath) : FileSystemPath :=
  match path with
  | PathEntry path => PathEntry (default path (canonicalize_preserving_symlinks m path ≫= from_absolute_path m))
  | _ => path
  end.
Fixpoint normalize_entries (entries normalized : list FileSystemSandboxEntry) : str + list FileSystemSandboxEntry :=
  match entries with
  | [] => inr normalized
  | e :: entries =>
      match entry_path e, entry_access e with
      | GlobPattern _, (Read | Write) => inl (lit "glob file system permissions only support deny-read entries")
      | path, access => normalize_entries entries (add_new normalized (entry (normalize_path path) access))
      end
  end.
Definition normalize_additional_permissions (additional : PermissionProfile) : str + PermissionProfile :=
  let network := match network additional with Some n => if network_is_empty n then None else Some n | None => None end in
  match file_system additional with
  | None => inr {| network := network; file_system := None |}
  | Some fs =>
      match normalize_entries (permission_entries fs) [] with
      | inl message => inl message
      | inr entries => inr {|
          network := network;
          file_system := if bool_decide (entries = []) then None
                         else Some {| permission_entries := entries; permission_depth := permission_depth fs |} |}
      end
  end.

Definition resolve_permission_path (path : FileSystemPath) (cwd : str) : option str :=
  match path with
  | PathEntry path => Some path
  | GlobPattern _ => None
  | Special value =>
      match value with
      | Root => root ← last (ancestors cwd); from_absolute_path m root
      | CurrentWorkingDirectory => from_absolute_path m cwd
      | ProjectRoots subpath =>
          cwd ← from_absolute_path m cwd;
          Some match subpath with Some subpath => resolve_against m subpath cwd | None => cwd end
      | Tmpdir =>
          tmpdir ← tmpdir_var m;
          if bool_decide (tmpdir = []) then None else from_absolute_path m tmpdir
      | SlashTmp =>
          path ← from_absolute_path m (lit "/tmp");
          if is_dir m path then Some path else None
      | Minimal | Unknown _ _ => None
      end
  end.
Definition materialize_cwd_dependent_entry (e : FileSystemSandboxEntry) (cwd : str) : FileSystemSandboxEntry :=
  match entry_path e with
  | Special (CurrentWorkingDirectory | ProjectRoots _) =>
      match resolve_permission_path (entry_path e) cwd with
      | Some path => entry (PathEntry path) (entry_access e)
      | None => e
      end
  | GlobPattern pattern => entry (GlobPattern (resolve_against m pattern cwd)) (entry_access e)
  | PathEntry _ | Special _ => e
  end.
Definition access_covers (requested granted : FileSystemAccessMode) : bool :=
  match granted with Read => can_read requested | Write => can_write requested | NoAccess => false end.
Definition paths_overlap (l r : str) : bool := path_starts_with l r || path_starts_with r l.

(** The part of a glob before its first wildcard, as a directory. *)
Definition is_glob_char (c : char) : bool := bool_decide (c ∈ lit "*?[]").
Fixpoint find_char (p : char → bool) (s : str) : option nat :=
  match s with [] => None | c :: s => if p c then Some 0 else S <$> find_char p s end.
Definition glob_static_prefix_path (pattern cwd : str) : option str :=
  let resolved_pattern := resolve_against m pattern cwd in
  match find_char is_glob_char resolved_pattern with
  | Some 0 => None
  | Some (S _ as index) =>
      let prefix := take index resolved_pattern in
      if ends_with prefix [SLASH] || ends_with prefix [92%N] then from_absolute_path m prefix
      else parent prefix ≫= from_absolute_path m
  | None => from_absolute_path m resolved_pattern
  end.

Definition granted_file_system_entry_within_request (requested : FileSystemPermissions) (requested_policy : FileSystemSandboxPolicy)
    (requested_read_deny_matcher : option ReadDenyMatcher) (granted_entry : FileSystemSandboxEntry) (cwd : str) : bool :=
  if negb (can_read (entry_access granted_entry)) then false
  else
    match resolve_permission_path (entry_path granted_entry) cwd with
    | Some path =>
        match requested_read_deny_matcher with
        | Some matcher => negb (is_read_denied m matcher path)
        | None => true
        end
        && access_covers (resolve_access_with_cwd m requested_policy path cwd) (entry_access granted_entry)
    | None =>
        existsb (λ requested_entry,
          access_covers (entry_access requested_entry) (entry_access granted_entry)
          && bool_decide (entry_path requested_entry = entry_path granted_entry)) (permission_entries requested)
    end.
Definition deny_entry_constrains_accepted_grant (deny_entry : FileSystemSandboxEntry)
    (accepted_entries : list FileSystemSandboxEntry) (cwd : str) : bool :=
  existsb (λ e,
    can_read (entry_access e)
    && match resolve_permission_path (entry_path e) cwd with
       | None => false
       | Some grant_path =>
           match entry_path deny_entry with
           | GlobPattern pattern =>
               match glob_static_prefix_path pattern cwd with Some prefix => paths_overlap prefix grant_path | None => false end
           | path =>
               match resolve_permission_path path cwd with Some deny_path => paths_overlap deny_path grant_path | None => false end
           end
       end) accepted_entries.
(** The deny entries that constrain what was accepted. *)
Definition retained_deny_entries (source_entries accepted_entries : list FileSystemSandboxEntry) (cwd : str)
    : list FileSystemSandboxEntry :=
  (λ e, materialize_cwd_dependent_entry e cwd)
  <$> filter (λ e, bool_decide (entry_access e = NoAccess) && deny_entry_constrains_accepted_grant e accepted_entries cwd) source_entries.
(** [retain_constraining_deny_entries]: the output with them, and themselves. *)
Definition retain_constraining_deny_entries (source_entries accepted_entries : list FileSystemSandboxEntry) (cwd : str)
    (output_entries : list FileSystemSandboxEntry) : list FileSystemSandboxEntry * list FileSystemSandboxEntry :=
  let retained := retained_deny_entries source_entries accepted_entries cwd in
  (foldl add_new output_entries retained, retained).

Definition accepted_entries (requested granted : FileSystemPermissions) (cwd : str) : list FileSystemSandboxEntry :=
  let requested_policy := restricted (permission_entries requested) in
  let matcher := ReadDenyMatcher_new m build_glob_matcher requested_policy cwd in
  foldl add_new []
    ((λ e, materialize_cwd_dependent_entry e cwd)
     <$> filter (λ e, granted_file_system_entry_within_request requested requested_policy matcher e cwd) (permission_entries granted)).
Definition intersect_file_system (requested : FileSystemPermissions) (granted : option FileSystemPermissions) (cwd : str)
    : option FileSystemPermissions :=
  let granted := default default_file_system_permissions granted in
  let accepted := accepted_entries requested granted cwd in
  let '(entries, requested_retained) := retain_constraining_deny_entries (permission_entries requested) accepted cwd accepted in
  let '(entries, granted_retained) := retain_constraining_deny_entries (permission_entries granted) accepted cwd entries in
  if bool_decide (entries = []) then None
  else Some {|
    permission_entries := entries;
    permission_depth :=
      merge_glob_scan_max_depth requested_retained (Pos.to_nat <$> permission_depth requested)
        granted_retained (Pos.to_nat <$> permission_depth granted) ≫= nonzero |}.
Definition intersect_permission_profiles (requested granted : PermissionProfile) (cwd : str) : PermissionProfile := {|
  network := if enables (network requested) && enables (network granted) then Some {| enabled := Some true |} else None;
  file_system := requested_fs ← file_system requested; intersect_file_system requested_fs (file_system granted) cwd |}.

End Machine.
End PermissionProfiles.
