(* ===== verification/PermissionProfilesFacts.v ===== *)
(** * Permissions that a command asks for: what they grant

    When a path can be read is stated on the entries of a policy ([reads]); what
    is granted never reads more than was requested, nor more than was granted;
    additional permissions add to what can be read; granting twice is granting
    the merged permissions. *)
From S2P Require Import Prelude Str Io Paths Permissions PermissionsFacts PermissionProfiles.
Import Paths Permissions PermissionProfiles.

Module PermissionProfilesFacts.

(** ** Entries added when they are new *)

Section AddNew.
Context {A : Type} `{EqDecision A}.
Implicit Types (l base acc : list A) (a : A).

Lemma elem_of_add_new l a b : b ∈ add_new l a ↔ b ∈ l ∨ b = a.
Proof. unfold add_new. case_bool_decide; set_solver. Qed.
Lemma elem_of_foldl_add_new base l b : b ∈ foldl add_new base l ↔ b ∈ base ∨ b ∈ l.
Proof. revert base. induction l as [|a l IH]; intros base; simpl; [set_solver|]. rewrite IH, elem_of_add_new. set_solver. Qed.
Lemma add_new_present l a : a ∈ l → add_new l a = l.
Proof. intros Ha. unfold add_new. by rewrite bool_decide_eq_true_2. Qed.

Lemma foldl_add_new_assoc base acc l :
  foldl add_new base (foldl add_new acc l) = foldl add_new (foldl add_new base acc) l.
Proof.
  revert acc. induction l as [|a l IH]; intros acc; simpl; [done|]. rewrite IH. f_equal.
  destruct (decide (a ∈ acc)) as [Ha|Ha].
  - rewrite !add_new_present; [done| |done]. apply elem_of_foldl_add_new. by right.
  - unfold add_new at 2. rewrite bool_decide_eq_false_2 by done. by rewrite foldl_snoc.
Qed.
End AddNew.

Section Machine.
Variable m : Machine.
Variable cwd : str.
Hypothesis Hcwd : normal_abs cwd.
Hypothesis Hmachine : well_formed_machine m.

(** The paths of the entries are absolute and normalized, as their type says. *)
Definition well_formed (es : list FileSystemSandboxEntry) : Prop := ∀ e q, e ∈ es → entry_path e = PathEntry q → normal_abs q.

(** ** The path of an entry *)

Lemma last_ancestor p : last (ancestors p) = Some [SLASH].
Proof.
  unfold ancestors. rewrite fmap_last. replace (last (reverse (seq 0 (S (length (components p)))))) with (Some 0); [done|].
  simpl. rewrite reverse_cons. by rewrite last_snoc.
Qed.
Lemma resolve_permission_entry fp : resolve_permission_path m fp cwd = resolve_entry_path m fp (Some cwd).
Proof using Hcwd Hmachine.
  destruct fp as [q|g|v]; [done..|]. destruct v as [| | |sub| | |u sub]; simpl; try done.
  - rewrite last_ancestor. simpl. apply from_absolute_path_id, normal_root.
  - by apply from_absolute_path_id.
  - by rewrite from_absolute_path_id.
  - destruct (from_absolute_path m (lit "/tmp")) as [t|]; [|done]. simpl. by destruct (is_dir m t).
Qed.

Definition path_of_entry (e : FileSystemSandboxEntry) : option str := resolve_permission_path m (entry_path e) cwd.
Definition depth (q : str) : nat := length (std_components q).

Lemma entry_path_normal es x q : well_formed es → x ∈ es → path_of_entry x = Some q → normal_abs q.
Proof using Hcwd Hmachine.
  intros Hes Hx Hq. unfold path_of_entry in Hq. rewrite resolve_permission_entry in Hq. eapply (resolve_entry_path_normal m Hmachine); [exact Hcwd| |exact Hq].
  intros q' Hq'. by eapply Hes.
Qed.

(** A path under the working directory resolves to a path; globs are resolved too. *)
Lemma materialize_access e : entry_access (materialize_cwd_dependent_entry m e cwd) = entry_access e.
Proof. unfold materialize_cwd_dependent_entry. destruct e as [[q|g|[]] a]; simpl; try done; by case_match. Qed.
Lemma materialize_path e : path_of_entry (materialize_cwd_dependent_entry m e cwd) = path_of_entry e.
Proof.
  unfold path_of_entry, materialize_cwd_dependent_entry. destruct e as [[q|g|v] a]; [done..|].
  destruct v as [| | |sub| | |u sub]; try done; cbn [entry_path entry_access].
  all: match goal with |- context [match ?o with Some path => entry _ _ | None => _ end] => destruct o eqn:Ho end; [|done]; simpl; done.
Qed.

(** ** What can be read *)

Definition reads (es : list FileSystemSandboxEntry) (t : str) : Prop :=
  ∃ x q, x ∈ es ∧ path_of_entry x = Some q ∧ path_starts_with t q = true ∧ entry_access x ≠ NoAccess
  ∧ ∀ y q', y ∈ es → path_of_entry y = Some q' → path_starts_with t q' = true → entry_access y = NoAccess → depth q' < depth q.

Lemma can_read_spec a : can_read a = true ↔ a ≠ NoAccess.
Proof. apply bool_decide_eq_true. Qed.

Lemma covering_entries p t e :
  e ∈ covering m p cwd t ↔
  ∃ x, x ∈ entries p ∧ path_of_entry x = Some (resolved_path e) ∧ entry_access x = resolved_access e
     ∧ path_starts_with t (resolved_path e) = true.
Proof using Hcwd Hmachine.
  rewrite elem_of_covering, (elem_of_resolved m p cwd cwd) by (by apply from_absolute_path_id).
  unfold path_of_entry. setoid_rewrite resolve_permission_entry. naive_solver.
Qed.

Lemma reads_spec p t :
  kind p = Restricted → normal_abs t →
  can_read (resolve_access_with_cwd m p t cwd) = true ↔ reads (entries p) t.
Proof using Hcwd Hmachine.
  intros Hk Ht. pose proof (resolve_candidate_normal m t cwd Ht) as Hcand. rewrite can_read_spec. split.
  - intros Hread. destruct (decide (covering m p cwd t = [])) as [Hnil|Hne].
    { by rewrite (resolve_access_uncovered m p t cwd t Hk Hcand Hnil) in Hread. }
    destruct (covering_decided m p cwd t Hne) as [e He].
    rewrite (resolve_access_decides m p t cwd t e Hk Hcand He) in Hread. destruct He as [Hin Hmax].
    apply covering_entries in Hin as (x & Hx & Hq & Ha & Ht').
    exists x, (resolved_path e). split_and!; [done..|congruence|]. intros y q' Hy Hq' Hty Hya.
    assert (Hcov : {| resolved_path := q'; resolved_access := NoAccess |} ∈ covering m p cwd t).
    { apply covering_entries. by exists y. }
    apply Hmax, precedence_le_spec in Hcov. unfold resolved_entry_precedence, depth in *. simpl in *.
    destruct (resolved_access e); simpl in *; [lia|lia|done].
  - intros (x & q & Hx & Hq & Htq & Ha & Hdeny).
    assert (Hcov : {| resolved_path := q; resolved_access := entry_access x |} ∈ covering m p cwd t).
    { apply covering_entries. by exists x. }
    destruct (decides_ex m p cwd t _ Hcov) as [d Hd]. rewrite (resolve_access_decides m p t cwd t d Hk Hcand Hd).
    destruct Hd as [Hin Hmax]. apply Hmax, precedence_le_spec in Hcov. apply covering_entries in Hin as (y & Hy & Hq' & Hya & Hty).
    intros Hno. rewrite Hno in Hya. specialize (Hdeny y _ Hy Hq' Hty Hya). unfold resolved_entry_precedence, depth in *. simpl in *. lia.
Qed.

(** ** What is granted *)

Section Intersect.
Variable build_glob_matcher : str → option (str → bool).
Variables (requested granted : FileSystemPermissions).
Hypothesis Hrequested : well_formed (permission_entries requested).
Hypothesis Hgranted : well_formed (permission_entries granted).

Abbreviation accepted := (accepted_entries m build_glob_matcher requested granted cwd).

Lemma elem_of_accepted x :
  x ∈ accepted →
  ∃ g, g ∈ permission_entries granted ∧ x = materialize_cwd_dependent_entry m g cwd ∧ entry_access g ≠ NoAccess
     ∧ ∀ q, path_of_entry g = Some q →
         access_covers (resolve_access_with_cwd m (restricted (permission_entries requested)) q cwd) (entry_access g) = true.
Proof.
  unfold accepted_entries. rewrite elem_of_foldl_add_new. intros [[]%elem_of_nil|(g & -> & Hg)%list_elem_of_fmap].
  apply list_elem_of_filter in Hg as [Hwithin Hg]. exists g. split_and!; [done..| |].
  - intros Hno. unfold granted_file_system_entry_within_request in Hwithin. by rewrite Hno in Hwithin.
  - intros q Hq. unfold granted_file_system_entry_within_request in Hwithin. unfold path_of_entry in Hq. rewrite Hq in Hwithin.
    apply Is_true_true in Hwithin. destruct (can_read (entry_access g)); [|done]. by apply andb_true_iff in Hwithin as [_ ?].
Qed.

(** A deny entry that overlaps with something accepted is kept. *)
Lemma elem_of_retained es x :
  x ∈ retained_deny_entries m es accepted cwd ↔
  ∃ y, y ∈ es ∧ x = materialize_cwd_dependent_entry m y cwd ∧ entry_access y = NoAccess
     ∧ deny_entry_constrains_accepted_grant m y accepted cwd = true.
Proof.
  unfold retained_deny_entries. rewrite list_elem_of_fmap. setoid_rewrite list_elem_of_filter. setoid_rewrite Is_true_true.
  setoid_rewrite andb_true_iff. setoid_rewrite bool_decide_eq_true. naive_solver.
Qed.
Lemma deny_constrains y x q :
  x ∈ accepted → entry_access x ≠ NoAccess → path_of_entry x = Some q →
  (∃ q', path_of_entry y = Some q' ∧ paths_overlap q' q = true)
  ∨ (∃ pattern q', entry_path y = GlobPattern pattern ∧ glob_static_prefix_path m pattern cwd = Some q' ∧ paths_overlap q' q = true) →
  deny_entry_constrains_accepted_grant m y accepted cwd = true.
Proof.
  intros Hx Ha Hq Hy. apply existsb_exists. exists x. split; [by apply list_elem_of_In|].
  apply andb_true_iff. split; [by apply can_read_spec|]. unfold path_of_entry in Hq. rewrite Hq.
  destruct Hy as [(q' & Hq' & Hover)|(pattern & q' & Hp & Hq' & Hover)].
  - unfold path_of_entry in Hq'. by destruct (entry_path y); rewrite ?Hq'.
  - by rewrite Hp, Hq'.
Qed.

(** The entries of the intersection: what is accepted and the deny entries kept. *)
Lemma elem_of_intersection r x :
  intersect_file_system m build_glob_matcher requested (Some granted) cwd = Some r →
  x ∈ permission_entries r ↔
  x ∈ accepted ∨ x ∈ retained_deny_entries m (permission_entries requested) accepted cwd
  ∨ x ∈ retained_deny_entries m (permission_entries granted) accepted cwd.
Proof.
  unfold intersect_file_system, retain_constraining_deny_entries. cbv zeta. simpl. case_bool_decide; [done|]. intros [= <-]. simpl.
  rewrite !elem_of_foldl_add_new. tauto.
Qed.

(** Two paths above the same path overlap. *)
Lemma above_overlap t a b : path_starts_with t a = true → path_starts_with t b = true → paths_overlap a b = true.
Proof.
  intros Ha Hb. unfold paths_overlap. apply orb_true_iff.
  destruct (decide (depth a ≤ depth b)) as [Hle|Hgt]; [right|left]; eapply path_starts_with_order; try done. unfold depth in *. lia.
Qed.

(** A deny entry of either side that concerns a path below something accepted
    is less specific than what is accepted. *)
Lemma kept_deny r es t x q y q' :
  intersect_file_system m build_glob_matcher requested (Some granted) cwd = Some r →
  es = permission_entries requested ∨ es = permission_entries granted →
  x ∈ accepted → entry_access x ≠ NoAccess → path_of_entry x = Some q → path_starts_with t q = true →
  y ∈ es → entry_access y = NoAccess → path_of_entry y = Some q' → path_starts_with t q' = true →
  ∃ y', y' ∈ permission_entries r ∧ entry_access y' = NoAccess ∧ path_of_entry y' = Some q'.
Proof.
  intros Hr Hes Hx Ha Hq Htq Hy Hya Hq' Htq'. exists (materialize_cwd_dependent_entry m y cwd).
  rewrite materialize_access, materialize_path. split_and!; [|done..]. apply (elem_of_intersection r _ Hr).
  assert (Hcon : deny_entry_constrains_accepted_grant m y accepted cwd = true).
  { eapply (deny_constrains y x q); [done..|]. left. exists q'. split; [done|]. by eapply above_overlap. }
  right. destruct Hes as [-> | ->]; [left|right]; apply elem_of_retained; by exists y.
Qed.

Lemma intersection_reads r t :
  intersect_file_system m build_glob_matcher requested (Some granted) cwd = Some r → reads (permission_entries r) t →
  reads (permission_entries requested) t ∧ reads (permission_entries granted) t.
Proof using All.
  intros Hr (x & q & Hx & Hq & Htq & Ha & Hdeny). apply (elem_of_intersection r _ Hr) in Hx.
  assert (Hacc : x ∈ accepted).
  { destruct Hx as [Hx|[(y & _ & -> & Hno & _)%elem_of_retained|(y & _ & -> & Hno & _)%elem_of_retained]]; [done|..];
      by rewrite materialize_access in Ha. }
  assert (Hkept : ∀ es y q', es = permission_entries requested ∨ es = permission_entries granted → y ∈ es →
    entry_access y = NoAccess → path_of_entry y = Some q' → path_starts_with t q' = true → depth q' < depth q).
  { intros es y q' Hes Hy Hya Hq' Htq'.
    destruct (kept_deny r es t x q y q') as (y' & Hy' & Hya' & Hyq'); [done..|]. by eapply Hdeny. }
  destruct (elem_of_accepted x Hacc) as (g & Hg & -> & Hga & Hcover). rewrite materialize_path in Hq.
  split.
  - specialize (Hcover q Hq). assert (Hnq : normal_abs q) by (by eapply entry_path_normal).
    assert (Hread : can_read (resolve_access_with_cwd m (restricted (permission_entries requested)) q cwd) = true).
    { destruct (entry_access g); simpl in Hcover; [done| |done]. apply can_write_spec in Hcover. by rewrite Hcover. }
    apply reads_spec in Hread as (r' & qr & Hr' & Hqr & Hunder & Hra & Hrdeny); [|done..]. simpl in *.
    exists r', qr. split_and!; [done..|by eapply path_starts_with_trans|done|]. intros y q' Hy Hq' Htq' Hya.
    pose proof (Hkept _ y q' (or_introl eq_refl) Hy Hya Hq' Htq') as Hlt. eapply Hrdeny; [done..| |done].
    eapply path_starts_with_order; [exact Htq'|exact Htq|]. unfold depth in *. lia.
  - exists g, q. split_and!; [done..|]. intros y q' Hy Hq' Htq' Hya. eapply Hkept; [by right|done..].
Qed.

(** A deny glob of either side whose directory is above a path that the
    intersection reads is kept. *)
Lemma kept_glob r es t e pattern prefix :
  intersect_file_system m build_glob_matcher requested (Some granted) cwd = Some r → reads (permission_entries r) t →
  es = permission_entries requested ∨ es = permission_entries granted →
  e ∈ es → entry_access e = NoAccess → entry_path e = GlobPattern pattern →
  glob_static_prefix_path m pattern cwd = Some prefix → path_starts_with t prefix = true →
  entry (GlobPattern (resolve_against m pattern cwd)) NoAccess ∈ permission_entries r.
Proof.
  intros Hr (x & q & Hx & Hq & Htq & Ha & _) Hes He Hno Hglob Hprefix Ht. apply (elem_of_intersection r _ Hr) in Hx.
  assert (Hacc : x ∈ accepted).
  { destruct Hx as [Hx|[(y & _ & -> & Hy & _)%elem_of_retained|(y & _ & -> & Hy & _)%elem_of_retained]]; [done|..];
      by rewrite materialize_access in Ha. }
  assert (Hmat : materialize_cwd_dependent_entry m e cwd = entry (GlobPattern (resolve_against m pattern cwd)) NoAccess).
  { unfold materialize_cwd_dependent_entry. by rewrite Hglob, Hno. }
  apply (elem_of_intersection r _ Hr). right. rewrite <- Hmat.
  assert (Hcon : deny_entry_constrains_accepted_grant m e accepted cwd = true).
  { eapply (deny_constrains e x q); [done..|]. right. exists pattern, prefix. split_and!; [done..|]. by eapply above_overlap. }
  destruct Hes as [-> | ->]; [left|right]; apply elem_of_retained; by exists e.
Qed.

End Intersect.

(** ** Additional permissions *)

Lemma additional_entries_read base extra t :
  (∀ e, e ∈ extra → entry_access e ≠ NoAccess) → reads base t → reads (foldl add_new base extra) t.
Proof.
  intros Hextra (x & q & Hx & Hq & Htq & Ha & Hdeny). exists x, q.
  split_and!; [apply elem_of_foldl_add_new; by left|done..|]. intros y q' [Hy|Hy]%elem_of_foldl_add_new Hq' Htq' Hya; [by eapply Hdeny|].
  by apply Hextra in Hy.
Qed.

(** The path of an entry that is added, when nothing denies that very path. *)
Lemma additional_entry_granted p extra e q :
  kind p = Restricted → e ∈ extra → entry_path e = PathEntry q → normal_abs q → entry_access e ≠ NoAccess →
  well_formed (entries p) → well_formed extra →
  (∀ y, y ∈ entries p ∨ y ∈ extra → path_of_entry y = Some q → entry_access y ≠ NoAccess) →
  ∀ p', kind p' = Restricted → entries p' = foldl add_new (entries p) extra →
  access_covers (resolve_access_with_cwd m p' q cwd) (entry_access e) = true.
Proof using Hcwd Hmachine.
  intros Hk He Hpath Hq Ha Hp Hextra Hnone p' Hk' Hentries.
  assert (Hcov : {| resolved_path := q; resolved_access := entry_access e |} ∈ covering m p' cwd q).
  { apply covering_entries. exists e. rewrite Hentries, elem_of_foldl_add_new. unfold path_of_entry. rewrite Hpath.
    split_and!; [by right|done..|apply path_starts_with_refl]. }
  destruct (decides_ex m p' cwd q _ Hcov) as [d Hd].
  rewrite (resolve_access_decides m p' q cwd q d Hk' (resolve_candidate_normal m q cwd Hq) Hd).
  destruct Hd as [Hin Hmax]. apply Hmax, precedence_le_spec in Hcov. unfold resolved_entry_precedence in Hcov. simpl in Hcov.
  apply covering_entries in Hin as (y & Hy & Hyq & Hya & Hqd). rewrite Hentries, elem_of_foldl_add_new in Hy.
  assert (Hlen : length (std_components (resolved_path d)) ≤ length (std_components q)).
  { apply bool_decide_eq_true in Hqd. by apply prefix_length. }
  assert (Heq : length (std_components (resolved_path d)) = length (std_components q)) by lia.
  assert (Hnd : normal_abs (resolved_path d)) by (destruct Hy; [eapply (entry_path_normal (entries p))|eapply (entry_path_normal extra)]; done).
  assert (Hsame : resolved_path d = q).
  { apply normal_components_inj; [done..|]. apply bool_decide_eq_true in Hqd. apply prefix_length_eq in Hqd; [done|lia]. }
  rewrite Hsame in Hyq. pose proof (Hnone y Hy Hyq) as Hyno. rewrite Hya in Hyno.
  destruct (entry_access e), (resolved_access d); simpl in *; done || lia.
Qed.

End Machine.

(** ** Granting twice *)

Lemma existsb_foldl_add_new base extra f :
  existsb f (foldl (add_new (A:=FileSystemSandboxEntry)) base extra) = existsb f base || existsb f extra.
Proof.
  apply eq_true_iff_eq. rewrite orb_true_iff, !existsb_exists. setoid_rewrite <- list_elem_of_In.
  setoid_rewrite elem_of_foldl_add_new. naive_solver.
Qed.

(** Depths form a monoid: none, a bound, or no bound. *)
Definition join_depth (a b : option GlobScanDepth) : option GlobScanDepth :=
  match a, b with
  | None, d | d, None => d
  | Some Unbounded, _ | _, Some Unbounded => Some Unbounded
  | Some (Bounded l), Some (Bounded r) => Some (Bounded (l `max` r))
  end.
Definition depth_of (d : option GlobScanDepth) : option nat := match d with Some (Bounded n) => Some n | _ => None end.
Lemma join_depth_assoc a b c : join_depth a (join_depth b c) = join_depth (join_depth a b) c.
Proof. destruct a as [[]|], b as [[]|], c as [[]|]; simpl; try done. by rewrite Nat.max_assoc. Qed.
Lemma merge_depth_join l dl r dr :
  merge_glob_scan_max_depth l dl r dr = depth_of (join_depth (effective_glob_scan_depth l dl) (effective_glob_scan_depth r dr)).
Proof. unfold merge_glob_scan_max_depth. by destruct (effective_glob_scan_depth l dl) as [[]|], (effective_glob_scan_depth r dr) as [[]|]. Qed.
Lemma effective_depth_merged l dl r dr :
  effective_glob_scan_depth (foldl add_new l r) (merge_glob_scan_max_depth l dl r dr)
  = join_depth (effective_glob_scan_depth l dl) (effective_glob_scan_depth r dr).
Proof.
  rewrite merge_depth_join. unfold effective_glob_scan_depth. rewrite existsb_foldl_add_new.
  by destruct (existsb is_glob_deny l), (existsb is_glob_deny r), dl, dr.
Qed.

Lemma merge_policy_twice p a b :
  kind p = Restricted →
  merge_file_system_policy_with_additional_permissions (merge_file_system_policy_with_additional_permissions p a) b =
  {| kind := Restricted;
     glob_scan_max_depth := depth_of (join_depth (effective_glob_scan_depth (entries p) (glob_scan_max_depth p))
       (join_depth (effective_glob_scan_depth (permission_entries a) (Pos.to_nat <$> permission_depth a))
                   (effective_glob_scan_depth (permission_entries b) (Pos.to_nat <$> permission_depth b))));
     entries := foldl add_new (foldl add_new (entries p) (permission_entries a)) (permission_entries b) |}.
Proof.
  intros Hk. unfold merge_file_system_policy_with_additional_permissions. rewrite Hk. simpl.
  rewrite (merge_depth_join (foldl _ _ _)), effective_depth_merged. by rewrite join_depth_assoc.
Qed.

End PermissionProfilesFacts.

(** ** What permission profiles promise *)
Import Paths Permissions PermissionProfiles PermissionProfilesFacts.

Module PermissionProfilesPromises.

(** ** Depths as positive numbers *)

Definition positive_depth (d : option GlobScanDepth) : Prop := match d with Some (Bounded n) => n ≠ 0 | _ => True end.
Lemma positive_effective es (d : option positive) : positive_depth (effective_glob_scan_depth es (Pos.to_nat <$> d)).
Proof. unfold effective_glob_scan_depth. destruct (existsb is_glob_deny es), d; simpl; try done. lia. Qed.
Lemma positive_join a b : positive_depth a → positive_depth b → positive_depth (join_depth a b).
Proof. destruct a as [[]|], b as [[]|]; simpl; try done. lia. Qed.
Lemma nonzero_depth d : positive_depth d → Pos.to_nat <$> (depth_of d ≫= nonzero) = depth_of d.
Proof. destruct d as [[[|n]|]|]; simpl; try done. intros _. f_equal. lia. Qed.

(** Merging two profiles' permissions for files and adding them is adding both. *)
Lemma merge_profile_entries a b : merge_permission_entries a b = foldl add_new (foldl add_new [] a) b.
Proof. unfold merge_permission_entries. by rewrite foldl_app. Qed.
Lemma effective_depth_dedup a d : effective_glob_scan_depth (foldl add_new [] a) d = effective_glob_scan_depth a d.
Proof. unfold effective_glob_scan_depth. by rewrite existsb_foldl_add_new. Qed.

Lemma foldl_add_new_nil a : foldl (add_new (A:=FileSystemSandboxEntry)) [] a = [] → a = [].
Proof.
  intros Ha. destruct a as [|x a]; [done|]. assert (Hx : x ∈ foldl add_new [] (x :: a)) by (apply elem_of_foldl_add_new; right; by left).
  rewrite Ha in Hx. by apply elem_of_nil in Hx.
Qed.

Definition effective_permissions (p : FileSystemSandboxPolicy) (additional : option FileSystemPermissions) : FileSystemSandboxPolicy :=
  match additional with
  | Some permissions =>
      if file_system_is_empty permissions then p else merge_file_system_policy_with_additional_permissions p permissions
  | None => p
  end.
Lemma effective_permissions_spec p additional :
  effective_file_system_sandbox_policy p additional = effective_permissions p (additional ≫= file_system).
Proof. done. Qed.

Lemma effective_kind p a : kind (effective_permissions p a) = kind p.
Proof.
  destruct a as [a|]; [|done]. simpl. destruct (file_system_is_empty a); [done|].
  unfold merge_file_system_policy_with_additional_permissions. by destruct (kind p) eqn:Hk.
Qed.

Lemma merge_policy_once p c :
  kind p = Restricted →
  merge_file_system_policy_with_additional_permissions p c =
  {| kind := Restricted;
     glob_scan_max_depth := depth_of (join_depth (effective_glob_scan_depth (entries p) (glob_scan_max_depth p))
       (effective_glob_scan_depth (permission_entries c) (Pos.to_nat <$> permission_depth c)));
     entries := foldl add_new (entries p) (permission_entries c) |}.
Proof. intros Hk. unfold merge_file_system_policy_with_additional_permissions. by rewrite Hk, merge_depth_join. Qed.

(** Adding what two permissions are merged to. *)
Lemma merge_policy_merged p a b c :
  kind p = Restricted → merge_file_system (Some a) (Some b) = Some c →
  permission_entries c ≠ []
  ∧ merge_file_system_policy_with_additional_permissions p c =
    {| kind := Restricted;
       glob_scan_max_depth := depth_of (join_depth (effective_glob_scan_depth (entries p) (glob_scan_max_depth p))
         (join_depth (effective_glob_scan_depth (permission_entries a) (Pos.to_nat <$> permission_depth a))
                     (effective_glob_scan_depth (permission_entries b) (Pos.to_nat <$> permission_depth b))));
       entries := foldl add_new (foldl add_new (entries p) (permission_entries a)) (permission_entries b) |}.
Proof.
  intros Hk Hc. unfold merge_file_system in Hc. cbv zeta in Hc. destruct (file_system_is_empty _) eqn:Hempty; [done|]. simplify_eq.
  apply bool_decide_eq_false in Hempty. split; [exact Hempty|]. rewrite merge_policy_once by done. cbn [permission_entries permission_depth].
  rewrite merge_profile_entries. f_equal; [|by rewrite !foldl_add_new_assoc].
  f_equal. f_equal. rewrite merge_depth_join, nonzero_depth by (apply positive_join; apply positive_effective).
  rewrite <- merge_depth_join, <- effective_depth_merged. unfold effective_glob_scan_depth. by rewrite !existsb_foldl_add_new.
Qed.
Lemma merge_file_system_none a b :
  merge_file_system (Some a) (Some b) = None → permission_entries a = [] ∧ permission_entries b = [].
Proof.
  unfold merge_file_system. cbv zeta. destruct (file_system_is_empty _) eqn:Hempty; [|done]. intros _.
  apply bool_decide_eq_true in Hempty. cbn [permission_entries] in Hempty. unfold merge_permission_entries in Hempty.
  by apply foldl_add_new_nil, app_nil in Hempty.
Qed.

Lemma effective_permissions_other p a : kind p ≠ Restricted → effective_permissions p a = p.
Proof.
  intros Hk. destruct a as [a|]; [|done]. simpl. destruct (file_system_is_empty a); [done|].
  unfold merge_file_system_policy_with_additional_permissions. by destruct (kind p).
Qed.
Lemma empty_permissions p a : permission_entries a = [] → effective_permissions p (Some a) = p.
Proof. intros Ha. simpl. unfold file_system_is_empty. by rewrite Ha. Qed.
Lemma nonempty_permissions p a :
  permission_entries a ≠ [] → effective_permissions p (Some a) = merge_file_system_policy_with_additional_permissions p a.
Proof. intros Ha. simpl. unfold file_system_is_empty. by rewrite bool_decide_eq_false_2. Qed.

Lemma effective_permissions_merged p a b :
  effective_permissions (effective_permissions p a) b = effective_permissions p (merge_file_system a b).
Proof.
  destruct (decide (kind p = Restricted)) as [Hk|Hk]; [|by rewrite !effective_permissions_other by (by rewrite ?effective_kind)].
  destruct a as [a|], b as [b|]; [|done..]. destruct (merge_file_system (Some a) (Some b)) as [c|] eqn:Hc.
  - destruct (merge_policy_merged p a b c Hk Hc) as [Hne Hmerged]. rewrite (nonempty_permissions _ c Hne), Hmerged.
    destruct (decide (permission_entries a = [])) as [Ha|Ha], (decide (permission_entries b = [])) as [Hb|Hb].
    + destruct Hne. unfold merge_file_system in Hc. cbv zeta in Hc. case_match; [done|]. simplify_eq. simpl. by rewrite Ha, Hb.
    + rewrite (empty_permissions _ a Ha), (nonempty_permissions _ b Hb), merge_policy_once by done. by rewrite Ha.
    + rewrite (nonempty_permissions _ a Ha), (empty_permissions _ b Hb), merge_policy_once by done. rewrite Hb. simpl.
      f_equal. f_equal. f_equal. by destruct (effective_glob_scan_depth (permission_entries a) _) as [[]|].
    + by rewrite (nonempty_permissions _ a Ha), (nonempty_permissions _ b Hb), merge_policy_twice.
  - apply merge_file_system_none in Hc as [Ha Hb]. by rewrite !empty_permissions.
Qed.

(** ** The network *)

Lemma enables_asks n : enables n = default false (n ≫= enabled).
Proof. unfold enables. by destruct n as [[[[]|]]|]. Qed.

Lemma effective_network_merged n a b :
  effective_network_sandbox_policy (effective_network_sandbox_policy n a) b
  = effective_network_sandbox_policy n (merge_permission_profiles a b).
Proof.
  destruct b as [b|]; [|done]. unfold merge_permission_profiles, filter_profile, profile_is_empty.
  destruct a as [a|]; cbn [network file_system]; rewrite ?enables_asks.
  - fold (asks_network a) (asks_network b).
    unfold effective_network_sandbox_policy, merge_network_access, asks_network, is_enabled.
    destruct n, (default false (network a ≫= enabled)), (default false (network b ≫= enabled));
      simpl; try done; by destruct (bool_decide (merge_file_system _ _ = None)).
  - destruct (bool_decide (network b = None)) eqn:Hn; simpl; [|done]. destruct (bool_decide (file_system b = None)); [|done].
    apply bool_decide_eq_true in Hn. unfold merge_network_access, asks_network. rewrite Hn. simpl. by destruct n.
Qed.

(** Adding permissions on top of permissions that were added before is
    adding the merged ones: for the policy of the file system, with the depth
    of the search for denied globs, and for the network. *)
Theorem granting_twice_is_granting_merged p n a b :
  effective_file_system_sandbox_policy (effective_file_system_sandbox_policy p a) b
  = effective_file_system_sandbox_policy p (merge_permission_profiles a b)
  ∧ effective_network_sandbox_policy (effective_network_sandbox_policy n a) b
    = effective_network_sandbox_policy n (merge_permission_profiles a b).
Proof.
  split; [|apply effective_network_merged]. rewrite !effective_permissions_spec, effective_permissions_merged. f_equal.
  destruct a as [a|], b as [b|]; simpl; unfold filter_profile, profile_is_empty; simpl; try done.
  - destruct (bool_decide (_ = None)) eqn:?, (bool_decide (merge_file_system _ _ = None)) eqn:Hfs; simpl; try done.
    by apply bool_decide_eq_true in Hfs.
  - by destruct (file_system a).
  - destruct (bool_decide (network b = None)), (file_system b) eqn:Hfs; simpl; by rewrite ?Hfs.
Qed.

(** ** What is granted *)

Definition profile_entries (p : PermissionProfile) : list FileSystemSandboxEntry :=
  match file_system p with Some fs => permission_entries fs | None => [] end.
Lemma profile_reads_spec m cwd p t :
  well_formed_machine m → normal_abs cwd → normal_abs t →
  can_read (resolve_access_with_cwd m (profile_file_system_sandbox_policy p) t cwd) = true ↔ reads m cwd (profile_entries p) t.
Proof.
  intros Hm Hcwd Ht. rewrite (reads_spec m cwd Hcwd Hm) by (try done; by destruct p as [? [?|]]).
  unfold profile_entries, profile_file_system_sandbox_policy. by destruct (file_system p).
Qed.
Lemma intersection_entries m build requested granted cwd r :
  file_system (intersect_permission_profiles m build requested granted cwd) = Some r →
  ∃ fs, file_system requested = Some fs
    ∧ intersect_file_system m build fs (Some (default default_file_system_permissions (file_system granted))) cwd = Some r.
Proof. simpl. destruct (file_system requested) as [fs|]; [|done]. simpl. intros Hr. exists fs. split; [done|]. by destruct (file_system granted). Qed.
Lemma default_profile_entries p : permission_entries (default default_file_system_permissions (file_system p)) = profile_entries p.
Proof. unfold profile_entries. by destruct (file_system p). Qed.

(** C5. What a client grants of the requested permissions is cut down so that
    it reads no path that was not requested, or not granted; the denied globs
    of both sides whose directory is above such a path are kept; and the
    network is on only when both sides say so. *)
Theorem granted_reads_were_requested m build requested granted cwd t :
  well_formed_machine m → normal_abs cwd → normal_abs t →
  well_formed (profile_entries requested) → well_formed (profile_entries granted) →
  let result := intersect_permission_profiles m build requested granted cwd in
  (asks_network result = true → asks_network requested = true ∧ asks_network granted = true)
  ∧ (can_read (resolve_access_with_cwd m (profile_file_system_sandbox_policy result) t cwd) = true →
     can_read (resolve_access_with_cwd m (profile_file_system_sandbox_policy requested) t cwd) = true
     ∧ can_read (resolve_access_with_cwd m (profile_file_system_sandbox_policy granted) t cwd) = true
     ∧ ∀ pattern prefix,
         entry (GlobPattern pattern) NoAccess ∈ profile_entries requested ++ profile_entries granted →
         glob_static_prefix_path m pattern cwd = Some prefix → path_starts_with t prefix = true →
         entry (GlobPattern (resolve_against m pattern cwd)) NoAccess ∈ profile_entries result).
Proof.
  intros Hm Hcwd Ht Hreq Hgr result. split.
  { unfold asks_network, result. simpl. rewrite !enables_asks. destruct (default false (network requested ≫= enabled)); [|done].
    by destruct (default false (network granted ≫= enabled)). }
  rewrite !(profile_reads_spec m cwd) by done. intros Hreads.
  destruct (file_system result) as [r|] eqn:Hresult.
  2: { unfold profile_entries in Hreads. rewrite Hresult in Hreads. destruct Hreads as (x & q & Hx & _). by apply elem_of_nil in Hx. }
  assert (Hentries : profile_entries result = permission_entries r) by (unfold profile_entries; by rewrite Hresult).
  destruct (intersection_entries _ _ _ _ _ _ Hresult) as (fs & Hfs & Hr). rewrite Hentries in *.
  assert (Hfs' : profile_entries requested = permission_entries fs) by (unfold profile_entries; by rewrite Hfs).
  rewrite Hfs' in *. rewrite <- default_profile_entries in *.
  destruct (intersection_reads m cwd Hcwd Hm build fs _ Hreq Hgr r t Hr Hreads) as [Hread1 Hread2].
  split_and!; [done..|]. intros pattern prefix [Hin|Hin]%elem_of_app Hprefix Hunder;
    (eapply kept_glob; [exact Hr|exact Hreads| |exact Hin|done..]); [by left|by right].
Qed.

(** ** Additional permissions *)

(** Additional permissions that deny nothing take no read away, and a path
    that they name can be accessed as they say, unless the policy denies that
    very path. *)
Theorem additional_permissions_hold m p additional fs cwd :
  well_formed_machine m → normal_abs cwd → kind p = Restricted → well_formed (entries p) →
  file_system additional = Some fs → well_formed (permission_entries fs) →
  (∀ e, e ∈ permission_entries fs → entry_access e ≠ NoAccess) →
  let effective := effective_file_system_sandbox_policy p (Some additional) in
  (∀ t, normal_abs t → can_read (resolve_access_with_cwd m p t cwd) = true → can_read (resolve_access_with_cwd m effective t cwd) = true)
  ∧ ∀ q access, entry (PathEntry q) access ∈ permission_entries fs → normal_abs q →
      (∀ y, y ∈ entries p → resolve_permission_path m (entry_path y) cwd = Some q → entry_access y ≠ NoAccess) →
      access_covers (resolve_access_with_cwd m effective q cwd) access = true.
Proof.
  intros Hm Hcwd Hk Hp Hfs Hwf Hgrants effective.
  destruct (decide (permission_entries fs = [])) as [Hnil|Hne].
  { assert (effective = p) as ->.
    { unfold effective. rewrite effective_permissions_spec. simpl. rewrite Hfs. by apply empty_permissions. }
    split; [done|]. intros q access Hin. rewrite Hnil in Hin. by apply elem_of_nil in Hin. }
  assert (Heff : kind effective = Restricted ∧ entries effective = foldl add_new (entries p) (permission_entries fs)).
  { unfold effective. rewrite effective_permissions_spec. simpl. rewrite Hfs, nonempty_permissions by done.
    rewrite merge_policy_once by done. by split. }
  destruct Heff as [Hke Hentries]. split.
  - intros t Ht. rewrite !(reads_spec m cwd Hcwd Hm) by done. rewrite Hentries. by apply additional_entries_read.
  - intros q access Hin Hq Hnone.
    assert (Haccess : access ≠ NoAccess) by (by apply (Hgrants _ Hin)).
    apply (additional_entry_granted m cwd Hcwd Hm p (permission_entries fs) (entry (PathEntry q) access) q); try done.
    intros y [Hy|Hy] Hyq; [by apply Hnone|by apply Hgrants].
Qed.

(** ** Permissions as they are written down *)

Lemma legacy_roots_spec es read write rs ws :
  legacy_roots es read write = Some (rs, ws) →
  ∃ rs' ws', rs = read ++ rs' ∧ ws = write ++ ws'
    ∧ es ≡ₚ ((λ path, entry (PathEntry path) Read) <$> rs') ++ ((λ path, entry (PathEntry path) Write) <$> ws').
Proof.
  revert read write. induction es as [|[path access] es IH]; intros read write Hroots; simpl in Hroots.
  - simplify_eq. exists [], []. by rewrite !app_nil_r.
  - destruct path as [path| |]; [|done..]. destruct access; [| |done]; apply IH in Hroots as (rs' & ws' & -> & -> & Hes).
    + exists (path :: rs'), ws'. rewrite <- app_assoc. split_and!; [done..|]. simpl. by rewrite Hes.
    + exists rs', (path :: ws'). rewrite <- app_assoc. split_and!; [done..|]. simpl. rewrite Hes. by rewrite Permutation_middle.
Qed.

(** Permissions that are written down, in the legacy form or the canonical
    one, and read back are the same entries up to their order, to the same
    depth, and give the same access to every path. *)
Theorem written_permissions_read_back m p path cwd :
  permission_entries (deserialize (serialize p)) ≡ₚ permission_entries p
  ∧ permission_depth (deserialize (serialize p)) = permission_depth p
  ∧ resolve_access_with_cwd m (policy_of_permissions (deserialize (serialize p))) path cwd
    = resolve_access_with_cwd m (policy_of_permissions p) path cwd.
Proof.
  enough (permission_entries (deserialize (serialize p)) ≡ₚ permission_entries p
    ∧ permission_depth (deserialize (serialize p)) = permission_depth p) as [Hes Hd].
  { split_and!; [done..|]. by apply resolve_access_proper. }
  unfold serialize, as_legacy_permissions. destruct (permission_depth p) as [d|] eqn:Hd; [done|].
  destruct (legacy_roots (permission_entries p) [] []) as [[rs ws]|] eqn:Hroots; [|done]. simpl. split; [|done].
  apply legacy_roots_spec in Hroots as (rs' & ws' & -> & -> & ->). simpl. by destruct rs', ws'.
Qed.

End PermissionProfilesPromises.

(** ** Permission profiles: examples *)
Import Paths Permissions PermissionsFacts PermissionProfiles PermissionProfilesFacts PermissionProfilesPromises.

Module PermissionProfilesWitness.

Definition files (es : list FileSystemSandboxEntry) : PermissionProfile := {|
  network := Some {| enabled := Some true |}; file_system := Some {| permission_entries := es; permission_depth := None |} |}.
Definition no_globs (pattern : str) : option (str → bool) := Some (λ _, false).
Definition path_w : str := lit "/w".
Definition path_git : str := lit "/w/.git".

Lemma normal_path_w : normal_abs path_w.
Proof. by apply (normal_abs_of _ [lit "w"]). Qed.
Lemma normal_path_git : normal_abs path_git.
Proof. by apply (normal_abs_of _ [lit "w"; lit ".git"]). Qed.

(** ** What is granted *)

Definition requested_profile : PermissionProfile :=
  files [entry (PathEntry path_w) Write; entry (PathEntry path_git) NoAccess; entry (GlobPattern (lit "**/*.env")) NoAccess].
Definition granted_profile : PermissionProfile := files [entry (Special CurrentWorkingDirectory) Read].

Lemma granted_reads_were_requested_witness :
  let result := intersect_permission_profiles sample_machine no_globs requested_profile granted_profile path_w in
  can_read (resolve_access_with_cwd sample_machine (profile_file_system_sandbox_policy requested_profile) path_w path_w) = true
  ∧ entry (GlobPattern (lit "/w/**/*.env")) NoAccess ∈ profile_entries result.
Proof.
  intros result.
  assert (Hwf1 : well_formed (profile_entries requested_profile)).
  { intros e q [->|[->|[->|[]%elem_of_nil]%elem_of_cons]%elem_of_cons]%elem_of_cons [= <-]; [apply normal_path_w|apply normal_path_git]. }
  assert (Hwf2 : well_formed (profile_entries granted_profile)) by (by intros e q [->|[]%elem_of_nil]%elem_of_cons).
  destruct (granted_reads_were_requested sample_machine no_globs requested_profile granted_profile path_w path_w
    sample_well_formed normal_path_w normal_path_w Hwf1 Hwf2) as [_ Hreads].
  destruct Hreads as (Hread & _ & Hglob); [vm_compute; reflexivity|]. split; [exact Hread|].
  apply (Hglob (lit "**/*.env") path_w); [|vm_compute; reflexivity|vm_compute; reflexivity].
  apply (bool_decide_unpack _). vm_compute. exact I.
Defined.

(** Writes are not cut down in this way: a path that is requested for reading
    below one that is requested for writing can be written when only the latter is
    granted. *)
Definition read_below_write : PermissionProfile := files [entry (PathEntry path_w) Write; entry (PathEntry path_git) Read].
Definition write_granted : PermissionProfile := files [entry (PathEntry path_w) Write].
Example unrequested_write :
  let result := intersect_permission_profiles sample_machine no_globs read_below_write write_granted path_w in
  resolve_access_with_cwd sample_machine (profile_file_system_sandbox_policy read_below_write) path_git path_w = Read
  ∧ resolve_access_with_cwd sample_machine (profile_file_system_sandbox_policy result) path_git path_w = Write.
Proof. vm_compute. done. Qed.

(** ** Additional permissions *)

Definition workspace : FileSystemSandboxPolicy := restricted [entry (Special Root) Read; entry (PathEntry path_git) Read].
Definition additional_write : FileSystemPermissions := {| permission_entries := [entry (PathEntry path_git) Write]; permission_depth := None |}.

Lemma additional_permissions_hold_witness :
  access_covers (resolve_access_with_cwd sample_machine
    (effective_file_system_sandbox_policy workspace (Some {| network := None; file_system := Some additional_write |}))
    path_git path_w) Write = true.
Proof.
  refine (proj2 (additional_permissions_hold sample_machine workspace {| network := None; file_system := Some additional_write |}
    additional_write path_w sample_well_formed normal_path_w eq_refl _ eq_refl _ _) path_git Write _ normal_path_git _).
  - intros e q [->|[->|[]%elem_of_nil]%elem_of_cons]%elem_of_cons [= <-]. apply normal_path_git.
  - intros e q [->|[]%elem_of_nil]%elem_of_cons [= <-]. apply normal_path_git.
  - intros e [->|[]%elem_of_nil]%elem_of_cons. discriminate.
  - by left.
  - intros y [->|[->|[]%elem_of_nil]%elem_of_cons]%elem_of_cons; discriminate.
Defined.

(** Additional permissions can take a write away: the right to read a path below
    one that can be written. *)
Example additional_read_takes_write :
  let policy := restricted [entry (PathEntry path_w) Write] in
  let additional := {| network := None; file_system := Some {| permission_entries := [entry (PathEntry path_git) Read]; permission_depth := None |} |} in
  resolve_access_with_cwd sample_machine policy path_git path_w = Write
  ∧ resolve_access_with_cwd sample_machine (effective_file_system_sandbox_policy policy (Some additional)) path_git path_w = Read.
Proof. vm_compute. done. Qed.

End PermissionProfilesWitness.
