(* ===== verification/Orchestrator.v ===== *)
(** * Running a tool: approval, sandbox, retry

    Models [core/src/tools/orchestrator.rs] and the traits of
    [core/src/tools/sandboxing.rs], with the choice of a sandbox
    ([sandboxing/src/manager.rs], [policy_transforms.rs]).  A tool runtime is a
    type class with the methods of the traits; the defaults of the traits are
    definitions.  A computation passes on the service that approves network
    access, the store of approvals, what is outside (the user, the reviewer,
    hooks, processes), and a log of what was answered and attempted. *)
From S2P Require Import Prelude Str Io Permissions ExecApproval HookOutput HookRuntime NetPolicy NetRuntime NetworkApproval.
Import Permissions ExecApproval NetworkApproval.

Module Orchestrator.

(** ** Sandboxes *)

Inductive SandboxType : Type := NoSandbox | MacosSeatbelt | LinuxSeccomp | WindowsRestrictedToken.
#[export] Instance SandboxType_eq_dec : EqDecision SandboxType.
Proof. solve_decision. Defined.
Inductive SandboxablePreference : Type := Auto | Require | Forbid.
(** [target_os] of the build. *)
Inductive TargetOs : Type := Macos | Linux | Windows | OtherOs.

Definition get_platform_sandbox (target_os : TargetOs) (windows_sandbox_enabled : bool) : option SandboxType :=
  match target_os with
  | Macos => Some MacosSeatbelt
  | Linux => Some LinuxSeccomp
  | Windows => if windows_sandbox_enabled then Some WindowsRestrictedToken else None
  | OtherOs => None
  end.
Definition should_require_platform_sandbox (file_system_policy : FileSystemSandboxPolicy) (network_policy : NetworkSandboxPolicy)
    (has_managed_network_requirements : bool) : bool :=
  if has_managed_network_requirements then true
  else if negb (is_enabled network_policy) then negb (bool_decide (Permissions.kind file_system_policy = ExternalSandbox))
  else match Permissions.kind file_system_policy with
       | Restricted => negb (has_full_disk_write_access file_system_policy)
       | Unrestricted | ExternalSandbox => false
       end.
Definition select_initial (target_os : TargetOs) (file_system_policy : FileSystemSandboxPolicy)
    (network_policy : NetworkSandboxPolicy) (pref : SandboxablePreference) (windows_sandbox_enabled : bool)
    (has_managed_network_requirements : bool) : SandboxType :=
  let platform := default NoSandbox (get_platform_sandbox target_os windows_sandbox_enabled) in
  match pref with
  | Forbid => NoSandbox
  | Require => platform
  | Auto =>
      if should_require_platform_sandbox file_system_policy network_policy has_managed_network_requirements
      then platform else NoSandbox
  end.

(** ** Outputs and errors *)

Record ExecToolCallOutput : Type := { exit_code : Z; stdout : str; stderr : str; aggregated_output : str; timed_out : bool }.
Record NetworkPolicyDecisionPayload : Type := {
  payload_decision : NetRuntime.NetworkPolicyDecision;
  payload_source : NetRuntime.NetworkDecisionSource;
  payload_protocol : option NetworkApprovalProtocol;
  payload_host : option str;
}.
Inductive SandboxErr : Type :=
| SandboxDenied (output : ExecToolCallOutput) (network_policy_decision : option NetworkPolicyDecisionPayload)
| Timeout (output : ExecToolCallOutput)
| Signal (n : Z).
(** Of the other errors, those of setting up a sandbox among them, the message. *)
Inductive CodexErr : Type := Sandbox (e : SandboxErr) | OtherCodexErr (message : str).

Record NetworkApprovalContext : Type := { context_host : str; context_protocol : NetworkApprovalProtocol }.
Definition is_ask_from_decider (payload : NetworkPolicyDecisionPayload) : bool :=
  match payload_decision payload, payload_source payload with NetRuntime.Ask, NetRuntime.Decider => true | _, _ => false end.
Definition network_approval_context_from_payload (payload : NetworkPolicyDecisionPayload) : option NetworkApprovalContext :=
  if negb (is_ask_from_decider payload) then None
  else
    protocol ← payload_protocol payload;
    host ← trim <$> payload_host payload;
    if bool_decide (host = []) then None else Some {| context_host := host; context_protocol := protocol |}.

(** ** What is outside *)

(** The JSON object that hooks get, as its fields. *)
Record PermissionRequestPayload : Type := { payload_tool : HookRuntime.HookToolName; payload_input : list (str * str) }.
Definition payload_bash (command : str) (description : option str) : PermissionRequestPayload := {|
  payload_tool := HookRuntime.hook_bash;
  payload_input := (lit "command", command) :: match description with Some d => [(lit "description", d)] | None => [] end |}.

(** What the user or the reviewer is asked. *)
Record Question : Type := {
  question_call_id : str;
  question_subject : list str;
  question_reason : option str;
  question_network : option NetworkApprovalContext;
  question_amendment : option ExecPolicyAmendment;
}.
(** The user, the automatic reviewer with the reason of its last rejection under a
    review id, the hooks for permission, and fresh UUIDs. *)
Class Outside (W : Type) : Type := {
  ask_user : Question → W → W * ReviewDecision;
  review_approval_request : str → Question → W → W * ReviewDecision;
  guardian_rejection_message : W → str → str;
  permission_request_hooks : str → PermissionRequestPayload → W → W * option HookOutput.PermissionRequestDecision;
  new_uuid : W → W * str;
}.

(** ** Computations *)

(** Where a decision came from. *)
Inductive Source : Type := ByHook | ByGuardian | ByUser | ByCache | Preapproved.
#[export] Instance Source_eq_dec : EqDecision Source.
Proof. solve_decision. Defined.
Inductive Event : Type :=
| Verdict (source : Source) (decision : ReviewDecision)
| Registered (registration_id : str)
| Attempted (sandbox : SandboxType).

Record State (W : Type) : Type := {
  network_approval : NetworkApprovalService;
  tool_approvals : gmap str ReviewDecision;
  outside : W;
  log : list Event;
}.
Arguments network_approval {W}. Arguments tool_approvals {W}. Arguments outside {W}. Arguments log {W}.

Definition M (W A : Type) : Type := State W → State W * A.
#[export] Instance M_ret W : MRet (M W) := λ A a σ, (σ, a).
#[export] Instance M_bind W : MBind (M W) := λ A B f m σ, let '(σ, a) := m σ in f a σ.
(** Computations that can end with a [ToolError]. *)
Definition T (W A : Type) : Type := M W (ToolError CodexErr + A).
#[export] Instance T_ret W : MRet (T W) := λ A a σ, (σ, inr a).
#[export] Instance T_bind W : MBind (T W) := λ A B f m σ,
  match m σ with (σ, inl e) => (σ, inl e) | (σ, inr a) => f a σ end.

Section World.
Context {W : Type}.

Definition lift {A} (m : M W A) : T W A := λ σ, let '(σ, a) := m σ in (σ, inr a).
Definition throw {A} (e : ToolError CodexErr) : T W A := λ σ, (σ, inl e).
Definition on_outside {A} (f : W → W * A) : M W A := λ σ,
  let '(w, a) := f (outside σ) in
  ({| network_approval := network_approval σ; tool_approvals := tool_approvals σ; outside := w; log := log σ |}, a).
Definition on_network {A} (f : NetworkApprovalService → NetworkApprovalService * A) : M W A := λ σ,
  let '(s, a) := f (network_approval σ) in
  ({| network_approval := s; tool_approvals := tool_approvals σ; outside := outside σ; log := log σ |}, a).
Definition emit (e : Event) : M W unit := λ σ,
  ({| network_approval := network_approval σ; tool_approvals := tool_approvals σ; outside := outside σ; log := log σ ++ [e] |}, ()).

(** ** The store of approvals *)

(** [serialize] is [serde_json::to_string] of a key. *)
Definition store_get {Key} (serialize : Key → option str) (key : Key) (store : gmap str ReviewDecision) : option ReviewDecision :=
  s ← serialize key; store !! s.
Definition store_put {Key} (serialize : Key → option str) (key : Key) (value : ReviewDecision) (store : gmap str ReviewDecision)
    : gmap str ReviewDecision :=
  match serialize key with Some s => <[s := value]> store | None => store end.
Definition is_approved_for_session (d : option ReviewDecision) : bool :=
  match d with Some ApprovedForSession => true | _ => false end.
Definition with_cached_approval {Key} (serialize : Key → option str) (keys : list Key) (fetch : M W ReviewDecision)
    : M W ReviewDecision := λ σ,
  match keys with
  | [] => fetch σ
  | _ =>
      if forallb (λ key, is_approved_for_session (store_get serialize key (tool_approvals σ))) keys
      then (_ ← emit (Verdict ByCache ApprovedForSession); mret ApprovedForSession) σ
      else
        let '(σ, decision) := fetch σ in
        match decision with
        | ApprovedForSession =>
            ({| network_approval := network_approval σ;
                tool_approvals := foldl (λ store key, store_put serialize key ApprovedForSession store) (tool_approvals σ) keys;
                outside := outside σ; log := log σ |}, decision)
        | _ => (σ, decision)
        end
  end.

(** ** Tool runtimes *)

Record ApprovalCtx : Type := {
  ctx_call_id : str;
  guardian_review_id : option str;
  retry_reason : option str;
  network_approval_context : option NetworkApprovalContext;
}.
Record SandboxAttempt : Type := {
  sandbox : SandboxType;
  attempt_policy : SandboxPolicy;
  attempt_file_system_policy : FileSystemSandboxPolicy;
  attempt_network_policy : NetworkSandboxPolicy;
  enforce_managed_network : bool;
  sandbox_cwd : str;
  codex_linux_sandbox_exe : option str;
}.

(** [Approvable], [Sandboxable] and [ToolRuntime]. *)
Class ToolRuntime (Req Out : Type) : Type := {
  sandbox_mode_for_first_attempt : Req → SandboxOverride;
  should_bypass_approval : AskForApproval → bool → bool;
  exec_approval_requirement : Req → option ExecApprovalRequirement;
  permission_request_payload : Req → option PermissionRequestPayload;
  wants_no_sandbox_approval : AskForApproval → bool;
  start_approval : Req → ApprovalCtx → M W ReviewDecision;
  sandbox_preference : SandboxablePreference;
  escalate_on_failure : bool;
  network_approval_spec : Req → option NetworkApprovalSpec;
  run_tool : Req → SandboxAttempt → T W Out;
}.

(** The defaults of the traits. *)
Definition default_should_bypass_approval (policy : AskForApproval) (already_approved : bool) : bool :=
  if already_approved then true else match policy with Never => true | _ => false end.
Definition default_wants_no_sandbox_approval (policy : AskForApproval) : bool :=
  match policy with
  | OnFailure | UnlessTrusted => true
  | Never | OnRequest => false
  | Granular granular_config => ExecApproval.sandbox_approval granular_config
  end.

(** What the orchestrator uses of a turn. *)
Record TurnContext : Type := {
  approval_policy : AskForApproval;
  sandbox_policy : SandboxPolicy;
  file_system_sandbox_policy : FileSystemSandboxPolicy;
  network_sandbox_policy : NetworkSandboxPolicy;
  managed_network : bool;
  windows_sandbox_enabled : bool;
  auto_reviewer : bool;
  strict_auto_review : bool;
  turn_cwd : str;
  linux_sandbox_exe : option str;
  turn_sub_id : str;
}.
Definition routes_approval_to_guardian (turn : TurnContext) : bool :=
  match approval_policy turn with OnRequest | Granular _ => auto_reviewer turn | _ => false end.

(** ** The orchestrator *)

Section Orchestrator.
Context `{Outside W} {Req Out : Type} (tool : ToolRuntime Req Out).
Variable target_os : TargetOs.
Variable turn : TurnContext.
Variable call_id : str.

Definition new_guardian_review_id : M W str := on_outside new_uuid.

Definition reject_if_not_approved (review_id : option str) (decision : ReviewDecision) : T W unit := λ σ,
  match decision with
  | Denied | Abort =>
      throw (Rejected match review_id with
                      | Some review_id => guardian_rejection_message (outside σ) review_id
                      | None => lit "rejected by user"
                      end) σ
  | TimedOut => throw (Rejected GUARDIAN_TIMEOUT_MESSAGE) σ
  | Approved | ApprovedExecpolicyAmendment _ | ApprovedForSession | NetworkPolicyAmendment _ AllowHost => (σ, inr ())
  | NetworkPolicyAmendment _ DenyHost => throw (Rejected (lit "rejected by user")) σ
  end.

Definition request_approval (req : Req) (permission_request_run_id : str) (ctx : ApprovalCtx)
    (evaluate_permission_request_hooks : bool) : T W ReviewDecision :=
  match (if evaluate_permission_request_hooks then permission_request_payload req else None) with
  | Some permission_request =>
      hook_decision ← lift (on_outside (permission_request_hooks permission_request_run_id permission_request));
      match hook_decision with
      | Some HookOutput.Allow => _ ← lift (emit (Verdict ByHook Approved)); mret Approved
      | Some (HookOutput.Deny message) => _ ← lift (emit (Verdict ByHook Denied)); throw (Rejected message)
      | None => lift (start_approval req ctx)
      end
  | None => lift (start_approval req ctx)
  end.

(** An approval that has to be given: the decision is asked for and must allow. *)
Definition approval (req : Req) (run_id : str) (by_guardian : bool) (reason : option str)
    (network_context : option NetworkApprovalContext) (evaluate_hooks : bool) : T W unit :=
  review_id ← lift (if by_guardian then id ← new_guardian_review_id; mret (Some id) else mret None : M W (option str));
  decision ← request_approval req run_id
    {| ctx_call_id := call_id; guardian_review_id := review_id; retry_reason := reason;
       network_approval_context := network_context |} evaluate_hooks;
  reject_if_not_approved review_id decision.

Definition run_attempt (req : Req) (attempt : SandboxAttempt) (managed_network_active : bool)
    : M W ((ToolError CodexErr + Out) * option str) :=
  registration_id ← on_outside new_uuid;
  network_approval ← on_network (begin_network_approval registration_id (turn_sub_id turn) managed_network_active
    (network_approval_spec req));
  _ ← (match network_approval with Some _ => emit (Registered registration_id) | None => mret () end);
  _ ← emit (Attempted (sandbox attempt));
  run_result ← run_tool req attempt;
  match network_approval with
  | None => mret (run_result, None)
  | Some network_approval =>
      match active_mode network_approval with
      | Immediate =>
          finalize_result ← on_network (finish_immediate_network_approval network_approval);
          mret match finalize_result with inl err => (inl err, None) | inr () => (run_result, None) end
      | Deferred =>
          let deferred := into_deferred network_approval in
          match run_result with
          | inl err =>
              _ ← on_network (λ s, (finish_deferred_network_approval deferred s, ()));
              mret (inl err, None)
          | inr out => mret (inr out, deferred)
          end
      end
  end.

Definition attempt_in (sandbox : SandboxType) (exe : option str) : SandboxAttempt := {|
  sandbox := sandbox; attempt_policy := sandbox_policy turn;
  attempt_file_system_policy := file_system_sandbox_policy turn; attempt_network_policy := network_sandbox_policy turn;
  enforce_managed_network := managed_network turn; sandbox_cwd := turn_cwd turn; codex_linux_sandbox_exe := exe |}.

Definition use_guardian : bool := routes_approval_to_guardian turn || strict_auto_review turn.
Definition requirement_of (req : Req) : ExecApprovalRequirement :=
  default (default_exec_approval_requirement (approval_policy turn) (file_system_sandbox_policy turn)) (exec_approval_requirement req).

(** 1) Approval: whether one was given. *)
Definition first_approval (req : Req) : T W bool :=
  match requirement_of req with
  | Skip _ _ =>
      if strict_auto_review turn then _ ← approval req call_id true None None false; mret true else mret false
  | ForbiddenRequirement reason => throw (Rejected reason)
  | NeedsApproval reason _ =>
      _ ← approval req call_id use_guardian reason None (negb (strict_auto_review turn)); mret true
  end.
Definition initial_sandbox (req : Req) : SandboxType :=
  match sandbox_mode_for_first_attempt req with
  | BypassSandboxFirstAttempt => NoSandbox
  | NoOverride =>
      select_initial target_os (file_system_sandbox_policy turn) (network_sandbox_policy turn) sandbox_preference
        (windows_sandbox_enabled turn) (managed_network turn)
  end.

(** The context in which network access is asked for after a denial. *)
Definition retry_network_context (network_policy_decision : option NetworkPolicyDecisionPayload) : option NetworkApprovalContext :=
  if managed_network turn then network_policy_decision ≫= network_approval_context_from_payload else None.
Definition may_retry (network_policy_decision : option NetworkPolicyDecisionPayload) : bool :=
  let context := retry_network_context network_policy_decision in
  negb (bool_decide (is_Some network_policy_decision) && bool_decide (context = None))
  && escalate_on_failure
  && (wants_no_sandbox_approval (approval_policy turn)
      || match approval_policy turn, context, default_exec_approval_requirement (approval_policy turn) (file_system_sandbox_policy turn) with
         | OnRequest, Some _, NeedsApproval _ _ => true
         | _, _, _ => false
         end).
Definition build_denial_reason_from_output (output : ExecToolCallOutput) : str := lit "command failed; retry without sandbox?".
Definition retry_reason_of (output : ExecToolCallOutput) (context : option NetworkApprovalContext) : str :=
  match context with
  | Some context => lit "Network access to " ++ [DQUOTE] ++ context_host context ++ [DQUOTE] ++ lit " is blocked by policy."
  | None => build_denial_reason_from_output output
  end.
Definition bypass_retry_approval (already_approved : bool) (context : option NetworkApprovalContext) : bool :=
  negb (strict_auto_review turn) && should_bypass_approval (approval_policy turn) already_approved
  && match context with None => true | Some _ => false end.

Definition with_deferred (result : (ToolError CodexErr + Out) * option str) : T W (Out * option str) :=
  match result with (inl e, _) => throw e | (inr out, deferred) => mret (out, deferred) end.

(** After a denial by the sandbox. *)
Definition retry (req : Req) (already_approved : bool) (output : ExecToolCallOutput)
    (network_policy_decision : option NetworkPolicyDecisionPayload) : T W (Out * option str) :=
  let context := retry_network_context network_policy_decision in
  if negb (may_retry network_policy_decision) then throw (Codex (Sandbox (SandboxDenied output network_policy_decision)))
  else
    _ ← (if bypass_retry_approval already_approved context then mret ()
         else approval req (call_id ++ lit ":retry") use_guardian (Some (retry_reason_of output context)) context
                (negb (strict_auto_review turn)));
    result ← lift (run_attempt req (attempt_in NoSandbox None) (managed_network turn));
    with_deferred result.

Definition run (req : Req) : T W (Out * option str) :=
  already_approved ← first_approval req;
  first ← lift (run_attempt req (attempt_in (initial_sandbox req) (linux_sandbox_exe turn)) (managed_network turn));
  match first with
  | (inl (Codex (Sandbox (SandboxDenied output network_policy_decision))), _) =>
      retry req already_approved output network_policy_decision
  | result => with_deferred result
  end.

End Orchestrator.
End World.
Arguments ToolRuntime : clear implicits.
End Orchestrator.
