(* ===== verification/ExecOutput.v ===== *)
(** * The output of a command

    Models the parts of [core/src/exec.rs] that decide what a finished process
    means: how its output is put together within a cap, and when it counts as
    denied by the sandbox. *)
From S2P Require Import Prelude Str Io Permissions ExecApproval NetworkApproval Orchestrator.
Import Orchestrator.

Module ExecOutput.

(** Bytes are numbers below 256. *)
Abbreviation bytes := (list N).

Definition EXEC_OUTPUT_MAX_BYTES : N := 1048576.
Inductive ExecCapturePolicy : Type := ShellTool | FullBuffer.
Definition retained_bytes_cap (policy : ExecCapturePolicy) : option nat :=
  match policy with ShellTool => Some (N.to_nat EXEC_OUTPUT_MAX_BYTES) | FullBuffer => None end.

Definition aggregate_output (stdout stderr : bytes) (max_bytes : option nat) : bytes :=
  match max_bytes with
  | None => stdout ++ stderr
  | Some max_bytes =>
      if length stdout + length stderr <=? max_bytes then stdout ++ stderr
      else
        let want_stdout := length stdout `min` (max_bytes / 3) in
        let want_stderr := length stderr in
        let stderr_take := want_stderr `min` (max_bytes - want_stdout) in
        let remaining := max_bytes - (want_stdout + stderr_take) in
        let stdout_take := want_stdout + remaining `min` (length stdout - want_stdout) in
        take stdout_take stdout ++ take stderr_take stderr
  end.

(** The text of the three outputs, and how a process ended: with a code, or by a signal. *)
Inductive ExitStatus : Type := Exited (code : Z) | Signaled (signal : Z).
Record RawExecToolCallOutput : Type := {
  exit_status : ExitStatus;
  raw_stdout : bytes;
  raw_stderr : bytes;
  raw_aggregated_output : bytes;
  raw_timed_out : bool;
}.

Definition TIMEOUT_CODE : Z := 64.
Definition EXIT_CODE_SIGNAL_BASE : Z := 128.
Definition EXEC_TIMEOUT_EXIT_CODE : Z := 124.
(** [libc::SIGSYS] on Linux. *)
Definition SIGSYS_CODE : Z := 31.

Definition SANDBOX_DENIED_KEYWORDS : list string :=
  ["operation not permitted"; "permission denied"; "read-only file system"; "seccomp"; "sandbox"; "landlock";
   "failed to write file"]%string.
Definition QUICK_REJECT_EXIT_CODES : list Z := [2; 126; 127]%Z.

Section Text.
(** [str::to_lowercase], which follows the Unicode tables, and [String::from_utf8_lossy]. *)
Variable to_lowercase : str → str.
Variable from_utf8_lossy : bytes → str.

Definition has_sandbox_keyword (output : ExecToolCallOutput) : bool :=
  existsb (λ section, existsb (λ needle, contains (to_lowercase section) (lit needle)) SANDBOX_DENIED_KEYWORDS)
    [stderr output; stdout output; aggregated_output output].
Definition is_likely_sandbox_denied (sandbox_type : SandboxType) (output : ExecToolCallOutput) : bool :=
  if bool_decide (sandbox_type = NoSandbox) || bool_decide (exit_code output = 0%Z) then false
  else if has_sandbox_keyword output then true
  else if bool_decide (exit_code output ∈ QUICK_REJECT_EXIT_CODES) then false
  else bool_decide (sandbox_type = LinuxSeccomp) && bool_decide (exit_code output = (EXIT_CODE_SIGNAL_BASE + SIGSYS_CODE)%Z).

Definition finalize_exec_result (raw_output_result : CodexErr + RawExecToolCallOutput) (sandbox_type : SandboxType)
    : CodexErr + ExecToolCallOutput :=
  match raw_output_result with
  | inl err => inl err
  | inr raw_output =>
      let finish (timed_out : bool) (code : Z) :=
        let exec_output := {|
          exit_code := if timed_out then EXEC_TIMEOUT_EXIT_CODE else code;
          stdout := from_utf8_lossy (raw_stdout raw_output); stderr := from_utf8_lossy (raw_stderr raw_output);
          aggregated_output := from_utf8_lossy (raw_aggregated_output raw_output); timed_out := timed_out |} in
        if timed_out then inl (Sandbox (Timeout exec_output))
        else if is_likely_sandbox_denied sandbox_type exec_output then inl (Sandbox (SandboxDenied exec_output None))
        else inr exec_output in
      match exit_status raw_output with
      | Signaled signal =>
          if bool_decide (signal = TIMEOUT_CODE) then finish true (-1)%Z else inl (Sandbox (Signal signal))
      | Exited code => finish (raw_timed_out raw_output) code
      end
  end.

(** ** What holds *)

(** Within a cap, the output is a prefix of the standard output and then one of
    the error output; nothing is cut when both fit; otherwise the cap is used up,
    the standard output keeps at least a third of it, or all it has, and the error
    output two thirds, or all it has. *)
Theorem aggregate_output_bounded out err max_bytes :
  ∃ out_take err_take,
    aggregate_output out err (Some max_bytes) = take out_take out ++ take err_take err
    ∧ out_take ≤ length out ∧ err_take ≤ length err
    ∧ (length out + length err ≤ max_bytes → out_take = length out ∧ err_take = length err)
    ∧ (max_bytes < length out + length err →
       length (aggregate_output out err (Some max_bytes)) = max_bytes
       ∧ length out `min` (max_bytes / 3) ≤ out_take ∧ length err `min` (max_bytes - max_bytes / 3) ≤ err_take).
Proof.
  unfold aggregate_output. pose proof (Nat.Div0.div_le_mono max_bytes (3 * max_bytes) 3).
  assert (Hthird : max_bytes / 3 ≤ max_bytes) by (apply Nat.Div0.div_le_upper_bound; lia).
  generalize dependent (max_bytes / 3). intros third _ Hthird.
  destruct (Nat.leb_spec (length out + length err) max_bytes) as [Hfit|Hcut].
  - exists (length out), (length err). rewrite !take_ge by lia. split_and!; [done|lia..].
  - eexists _, _. split_and!; [reflexivity|lia..|lia|]. intros _. rewrite length_app, !length_take. split_and!; lia.
Qed.

(** What comes of a finished command: an output only when the process
    ended by itself in time and does not look denied; a denial only of a
    sandboxed process that ended by itself with an error; a timeout, with its
    own exit code, only when the time ran out; the signal otherwise. *)
Theorem finalized_result_sound raw sandbox_type :
  match finalize_exec_result (inr raw) sandbox_type with
  | inr output =>
      exit_status raw = Exited (exit_code output) ∧ raw_timed_out raw = false ∧ timed_out output = false
      ∧ is_likely_sandbox_denied sandbox_type output = false
  | inl (Sandbox (SandboxDenied output _)) =>
      sandbox_type ≠ NoSandbox ∧ exit_code output ≠ 0%Z ∧ exit_status raw = Exited (exit_code output) ∧ raw_timed_out raw = false
  | inl (Sandbox (Timeout output)) =>
      exit_code output = EXEC_TIMEOUT_EXIT_CODE ∧ (raw_timed_out raw = true ∨ exit_status raw = Signaled TIMEOUT_CODE)
  | inl (Sandbox (Signal signal)) => exit_status raw = Signaled signal ∧ signal ≠ TIMEOUT_CODE
  | inl (OtherCodexErr _) => False
  end.
Proof.
  unfold finalize_exec_result. cbv zeta. destruct raw as [[code|signal] o e a []]; simpl; [naive_solver| | |].
  - destruct (is_likely_sandbox_denied _ _) eqn:Hdenied; [|done]. simpl.
    unfold is_likely_sandbox_denied in Hdenied. destruct (bool_decide (sandbox_type = NoSandbox)) eqn:Hs; [done|].
    destruct (bool_decide (_ = 0%Z)) eqn:Hz; [done|]. bool_to_prop. done.
  - case_bool_decide; simpl; [|done]. subst. naive_solver.
  - case_bool_decide; simpl; [|done]. subst. naive_solver.
Qed.
End Text.
End ExecOutput.
