(* ===== verification/Runtimes.v ===== *)
(** * The tools that are run

    Models [core/src/command_canonicalization.rs] and the runtimes of
    [core/src/tools/runtimes]: shell commands, unified execution, and patches, each
    an instance of the class of tool runtimes.  What starts and ends processes is a
    parameter; a patch is applied by the model of [apply-patch]. *)
From S2P Require Import Prelude Str Io PatchApply Shell Permissions ExecApproval HookOutput HookRuntime NetworkApproval PermissionProfiles Orchestrator ExecOutput.
Import Permissions ExecApproval NetworkApproval PermissionProfiles Orchestrator ExecOutput.

Module Runtimes.

(** ** Commands as keys of approvals *)

Definition POWERSHELL_FLAGS : list string := ["-nologo"; "-noprofile"; "-command"; "-c"]%string.
(** The loop over the flags, from the arguments left. *)
Fixpoint powershell_command_script (args : list str) : option str :=
  match args with
  | flag :: (script :: _) as args' =>
      let flag := to_ascii_lowercase flag in
      if negb (existsb (λ f, bool_decide (flag = lit f)) POWERSHELL_FLAGS) then None
      else if bool_decide (flag = lit "-command") || bool_decide (flag = lit "-c") then Some script
      else powershell_command_script args'
  | _ => None
  end.
Definition extract_powershell_command (command : list str) : option (str * str) :=
  match command with
  | shell :: (_ :: _ :: _) as args =>
      match Shell.detect_shell_type shell with
      | Some Shell.PowerShell => script ← powershell_command_script args; Some (shell, script)
      | _ => None
      end
  | _ => None
  end.
Definition UTF8_OUTPUT_PREFIX : str := lit "[Console]::OutputEncoding=[System.Text.Encoding]::UTF8;" ++ [NL].
Definition prefix_powershell_script_with_utf8 (command : list str) : list str :=
  match extract_powershell_command command with
  | None => command
  | Some (_, script) =>
      let script := if starts_with (trim_start script) UTF8_OUTPUT_PREFIX then script else UTF8_OUTPUT_PREFIX ++ script in
      take (length command - 1) command ++ [script]
  end.

Definition CANONICAL_BASH_SCRIPT_PREFIX : str := lit "__codex_shell_script__".
Definition CANONICAL_POWERSHELL_SCRIPT_PREFIX : str := lit "__codex_powershell_script__".
Section Canonical.
Variable try_parse_shell : str → option Shell.Tree.
Definition canonicalize_command_for_approval (command : list str) : list str :=
  match Shell.parse_shell_lc_plain_commands try_parse_shell command with
  | Some [single_command] => single_command
  | _ =>
      match Shell.extract_bash_command command with
      | Some (_, script) => [CANONICAL_BASH_SCRIPT_PREFIX; default [] (command !! 1); script]
      | None =>
          match extract_powershell_command command with
          | Some (_, script) => [CANONICAL_POWERSHELL_SCRIPT_PREFIX; script]
          | None => command
          end
      end
  end.
End Canonical.

(** ** Requests *)

Record ShellRequest : Type := {
  shell_command : list str;
  shell_hook_command : str;
  shell_cwd : str;
  shell_network : bool;
  shell_sandbox_permissions : SandboxPermissions;
  shell_additional_permissions : option PermissionProfile;
  shell_justification : option str;
  shell_requirement : ExecApprovalRequirement;
}.
Record UnifiedExecRequest : Type := {
  unified_request : ShellRequest;
  process_id : Z;
  tty : bool;
}.
Record ApplyPatchRequest : Type := {
  patch : str;
  patch_cwd : str;
  file_paths : list str;
  patch_requirement : ExecApprovalRequirement;
  patch_additional_permissions : option PermissionProfile;
  permissions_preapproved : bool;
}.

Record ApprovalKey : Type := {
  key_command : list str;
  key_cwd : str;
  key_sandbox_permissions : SandboxPermissions;
  key_additional_permissions : option PermissionProfile;
}.
Definition proposed_execpolicy_amendment (requirement : ExecApprovalRequirement) : option ExecPolicyAmendment :=
  match requirement with NeedsApproval _ amendment | Skip _ amendment => amendment | ForbiddenRequirement _ => None end.

(** What is asked about a command, and about a patch. *)
Definition command_question (req : ShellRequest) (ctx : ApprovalCtx) (reason : option str) : Question := {|
  question_call_id := ctx_call_id ctx; question_subject := shell_command req; question_reason := reason;
  question_network := network_approval_context ctx;
  question_amendment := proposed_execpolicy_amendment (shell_requirement req) |}.
Definition patch_question (req : ApplyPatchRequest) (ctx : ApprovalCtx) : Question := {|
  question_call_id := ctx_call_id ctx; question_subject := patch req :: file_paths req; question_reason := retry_reason ctx;
  question_network := None; question_amendment := None |}.
Definition or_else {A} (a b : option A) : option A := match a with Some _ => a | None => b end.

Record FileSystemSandboxContext : Type := { context_permissions : PermissionProfile; context_cwd : str }.
Definition file_system_sandbox_context_for_attempt (req : ApplyPatchRequest) (attempt : SandboxAttempt)
    : option FileSystemSandboxContext :=
  if bool_decide (sandbox attempt = NoSandbox) then None
  else
    let base_permissions := from_runtime_permissions (attempt_file_system_policy attempt) (attempt_network_policy attempt) in
    Some {|
      context_permissions :=
        default base_permissions (merge_permission_profiles (Some base_permissions) (patch_additional_permissions req));
      context_cwd := sandbox_cwd attempt |}.

(** ** Runtimes *)

Section Runtimes.
Context `{Outside W}.
Variable try_parse_shell : str → option Shell.Tree.
(** [serde_json::to_string] of the keys. *)
Variable serialize_shell_key : ApprovalKey → option str.
Variable serialize_unified_key : ApprovalKey * bool → option str.
Variable serialize_path : str → option str.
Variable to_lowercase : str → str.
Variable from_utf8_lossy : bytes → str.

Definition decided_by (source : Source) (m : M W ReviewDecision) : M W ReviewDecision :=
  d ← m; _ ← emit (Verdict source d); mret d.
Definition by_user (question : Question) : M W ReviewDecision := decided_by ByUser (on_outside (ask_user question)).
Definition by_guardian (review_id : str) (question : Question) : M W ReviewDecision :=
  decided_by ByGuardian (on_outside (review_approval_request review_id question)).

(** [start_approval_async] of the runtimes for commands. *)
Definition start_command_approval {Key} (serialize : Key → option str) (keys : list Key) (req : ShellRequest) (ctx : ApprovalCtx)
    : M W ReviewDecision :=
  match guardian_review_id ctx with
  | Some review_id => by_guardian review_id (command_question req ctx (retry_reason ctx))
  | None =>
      with_cached_approval serialize keys
        (by_user (command_question req ctx (or_else (retry_reason ctx) (shell_justification req))))
  end.
Definition shell_approval_key (req : ShellRequest) : ApprovalKey := {|
  key_command := canonicalize_command_for_approval try_parse_shell (shell_command req); key_cwd := shell_cwd req;
  key_sandbox_permissions := shell_sandbox_permissions req; key_additional_permissions := shell_additional_permissions req |}.
Definition command_network_approval_spec (mode : NetworkApprovalMode) (req : ShellRequest) : option NetworkApprovalSpec :=
  if shell_network req
  then Some {| NetworkApproval.network := true; NetworkApproval.mode := mode; NetworkApproval.spec_command := shell_hook_command req |} else None.

(** Processes: what the sandboxed command of a request does, to the network
    approvals and outside, and how it ends. *)
Definition process (Req A : Type) : Type := Req → SandboxAttempt → NetworkApprovalService * W → (NetworkApprovalService * W) * A.
Definition run_process {Req A} (p : process Req A) (req : Req) (attempt : SandboxAttempt) : M W A := λ σ,
  let '((s, w), a) := p req attempt (network_approval σ, outside σ) in
  ({| network_approval := s; tool_approvals := tool_approvals σ; outside := w; log := log σ |}, a).
Definition codex_error {A} (r : CodexErr + A) : ToolError CodexErr + A := match r with inl e => inl (Codex e) | inr a => inr a end.

Definition of_result {A} (r : ToolError CodexErr + A) : T W A := λ σ, (σ, r).

(** [SandboxAttempt::env_for] needs the sandbox's executable on Linux. *)
Definition missing_sandbox_executable (attempt : SandboxAttempt) : bool :=
  bool_decide (sandbox attempt = LinuxSeccomp) && bool_decide (codex_linux_sandbox_exe attempt = None).
Definition missing_executable_error : ToolError CodexErr :=
  Codex (OtherCodexErr (lit "codex-linux-sandbox was required but not provided")).

(** *** Shell commands *)
Definition run_shell (execute : process ShellRequest (CodexErr + RawExecToolCallOutput)) (req : ShellRequest) (attempt : SandboxAttempt)
    : T W ExecToolCallOutput :=
  if bool_decide (shell_command req = []) then throw (Rejected (lit "command args are empty"))
  else if missing_sandbox_executable attempt then throw missing_executable_error
  else
    raw ← lift (run_process execute req attempt);
    of_result (codex_error (finalize_exec_result to_lowercase from_utf8_lossy raw (sandbox attempt))).
Definition shell_runtime (execute : process ShellRequest (CodexErr + RawExecToolCallOutput))
    : ToolRuntime W ShellRequest ExecToolCallOutput := {|
  sandbox_mode_for_first_attempt req := sandbox_override_for_first_attempt (shell_sandbox_permissions req) (shell_requirement req);
  should_bypass_approval := default_should_bypass_approval;
  exec_approval_requirement req := Some (shell_requirement req);
  permission_request_payload req := Some (payload_bash (shell_hook_command req) (shell_justification req));
  wants_no_sandbox_approval := default_wants_no_sandbox_approval;
  start_approval req ctx := start_command_approval serialize_shell_key [shell_approval_key req] req ctx;
  sandbox_preference := Auto;
  escalate_on_failure := true;
  network_approval_spec := command_network_approval_spec Immediate;
  run_tool := run_shell execute |}.

(** *** Unified execution *)
Inductive UnifiedExecError : Type := UnifiedSandboxDenied (output : ExecToolCallOutput) | OtherUnifiedError (message : str).
Definition run_unified {Process} (open_session : process UnifiedExecRequest (UnifiedExecError + Process)) (environment : bool)
    (req : UnifiedExecRequest) (attempt : SandboxAttempt) : T W Process :=
  if bool_decide (shell_command (unified_request req) = []) then throw (Rejected (lit "missing command line for PTY"))
  else if missing_sandbox_executable attempt then throw missing_executable_error
  else if negb environment then throw (Rejected (lit "exec_command is unavailable in this session"))
  else
    opened ← lift (run_process open_session req attempt);
    match opened with
    | inl (UnifiedSandboxDenied output) => throw (Codex (Sandbox (SandboxDenied output None)))
    | inl (OtherUnifiedError message) => throw (Rejected message)
    | inr process => mret process
    end.
Definition unified_exec_runtime {Process} (open_session : process UnifiedExecRequest (UnifiedExecError + Process)) (environment : bool)
    : ToolRuntime W UnifiedExecRequest Process := {|
  sandbox_mode_for_first_attempt req :=
    sandbox_override_for_first_attempt (shell_sandbox_permissions (unified_request req)) (shell_requirement (unified_request req));
  should_bypass_approval := default_should_bypass_approval;
  exec_approval_requirement req := Some (shell_requirement (unified_request req));
  permission_request_payload req :=
    Some (payload_bash (shell_hook_command (unified_request req)) (shell_justification (unified_request req)));
  wants_no_sandbox_approval := default_wants_no_sandbox_approval;
  start_approval req ctx :=
    start_command_approval serialize_unified_key [(shell_approval_key (unified_request req), tty req)] (unified_request req) ctx;
  sandbox_preference := Auto;
  escalate_on_failure := true;
  network_approval_spec req := command_network_approval_spec Deferred (unified_request req);
  run_tool := run_unified open_session environment |}.

(** *** Patches *)
Section Patches.
Context {FS : Type}.
(** The file system of the turn's environment, as a sandbox lets it be used, and
    its state outside. *)
Variable get_filesystem : option FileSystemSandboxContext → PatchApply.ExecutorFileSystem FS.
Variable environment : bool.
Variables (fs_of : W → FS) (with_fs : FS → W → W).
Variable home_dir : option str.

Definition start_patch_approval (req : ApplyPatchRequest) (ctx : ApprovalCtx) : M W ReviewDecision :=
  match guardian_review_id ctx with
  | Some review_id => by_guardian review_id (patch_question req ctx)
  | None =>
      if permissions_preapproved req && bool_decide (retry_reason ctx = None) then decided_by Preapproved (mret Approved)
      else match retry_reason ctx with
           | Some _ => by_user (patch_question req ctx)
           | None => with_cached_approval serialize_path (file_paths req) (by_user (patch_question req ctx))
           end
  end.
Definition patch_wants_no_sandbox_approval (policy : AskForApproval) : bool :=
  match policy with
  | Never => false
  | Granular granular_config => ExecApproval.sandbox_approval granular_config
  | OnFailure | OnRequest | UnlessTrusted => true
  end.
Definition run_patch (req : ApplyPatchRequest) (attempt : SandboxAttempt) : T W ExecToolCallOutput :=
  if negb environment then throw (Rejected (lit "apply_patch is unavailable in this session"))
  else
    result ← lift (on_outside (λ w,
      let outcome :=
        PatchApply.apply_patch (H:=get_filesystem (file_system_sandbox_context_for_attempt req attempt))
          home_dir (patch req) (patch_cwd req) (fs_of w) in
      (with_fs (PatchApply.final_fs outcome) w, outcome)));
    let out := PatchApply.stdout result in
    let err := PatchApply.stderr result in
    let failed := negb (is_ok (PatchApply.status result)) in
    let output := {|
      exit_code := if failed then 1%Z else 0%Z; stdout := out; stderr := err; aggregated_output := out ++ err;
      timed_out := false |} in
    if failed && is_likely_sandbox_denied to_lowercase (sandbox attempt) output
    then throw (Codex (Sandbox (SandboxDenied output None)))
    else mret output.
Definition apply_patch_runtime : ToolRuntime W ApplyPatchRequest ExecToolCallOutput := {|
  sandbox_mode_for_first_attempt _ := NoOverride;
  should_bypass_approval := default_should_bypass_approval;
  exec_approval_requirement req := Some (patch_requirement req);
  permission_request_payload req :=
    Some {| payload_tool := HookRuntime.hook_apply_patch; payload_input := [(lit "command", patch req)] |};
  wants_no_sandbox_approval := patch_wants_no_sandbox_approval;
  start_approval := start_patch_approval;
  sandbox_preference := Auto;
  escalate_on_failure := true;
  network_approval_spec _ := None;
  run_tool := run_patch |}.
End Patches.
End Runtimes.
End Runtimes.
