(* ===== verification/OrchestratorFacts.v ===== *)
(** * Running a tool: what the log shows

    Against the interface of a runtime that keeps the log honest
    ([LawfulRuntime], whose instances are the runtimes for commands and for
    patches), the log of a run is that of a protocol: a clearance, an attempt, and,
    after a denial, another clearance and an attempt without a sandbox. *)
From S2P Require Import Prelude Str Io PatchApply ExecPolicy Shell CommandSafety Permissions ExecApproval ExecApprovalFacts HookOutput NetworkApproval PermissionProfiles Orchestrator ExecOutput Runtimes.
Import Permissions ExecApproval NetworkApproval Orchestrator ExecOutput Runtimes.

Module OrchestratorFacts.

(** ** Computations *)

Section Inversion.
Context {W A B : Type}.
Lemma M_bind_inv (m : M W A) (f : A → M W B) σ σ' b :
  (m ≫= f) σ = (σ', b) → ∃ σ1 a, m σ = (σ1, a) ∧ f a σ1 = (σ', b).
Proof. unfold mbind, M_bind. destruct (m σ) as [σ1 a]. eauto. Qed.
Lemma T_bind_inv (m : T W A) (f : A → T W B) σ σ' r :
  (m ≫= f) σ = (σ', r) →
  (∃ e, m σ = (σ', inl e) ∧ r = inl e) ∨ ∃ σ1 a, m σ = (σ1, inr a) ∧ f a σ1 = (σ', r).
Proof. unfold mbind, T_bind. destruct (m σ) as [σ1 [e|a]]; [intros [= <- <-]|]; eauto. Qed.
Lemma lift_inv (m : M W A) σ σ' r : lift m σ = (σ', r) → ∃ a, m σ = (σ', a) ∧ r = inr a.
Proof. unfold lift. destruct (m σ) as [σ1 a]. intros [= <- <-]. eauto. Qed.
Lemma on_outside_inv (f : W → W * A) σ σ' a :
  on_outside f σ = (σ', a) → log σ' = log σ ∧ network_approval σ' = network_approval σ ∧ tool_approvals σ' = tool_approvals σ.
Proof. unfold on_outside. destruct (f (outside σ)). by intros [= <- _]. Qed.
Lemma on_network_inv (f : NetworkApprovalService → NetworkApprovalService * A) (σ σ' : State W) a :
  on_network f σ = (σ', a) →
  log σ' = log σ ∧ outside σ' = outside σ ∧ (network_approval σ', a) = f (network_approval σ).
Proof. unfold on_network. destruct (f (network_approval σ)). by intros [= <- <-]. Qed.
Lemma emit_inv e (σ σ' : State W) u :
  emit e σ = (σ', u) → log σ' = log σ ++ [e] ∧ network_approval σ' = network_approval σ.
Proof. by intros [= <- _]. Qed.
End Inversion.

(** Takes a run apart, the early returns as cases of their own. *)
Ltac run_step :=
  match goal with
  | Hm : lift _ _ = _ |- _ => apply lift_inv in Hm as (? & Hm & ?)
  | Hm : throw _ _ = _ |- _ => injection Hm as ??
  | Hm : on_outside _ _ = _ |- _ => apply on_outside_inv in Hm as (? & ? & ?)
  | Hm : emit _ _ = _ |- _ => apply emit_inv in Hm as (? & ?)
  | Hm : mret _ _ = _ |- _ => injection Hm as ??
  end; simplify_eq.

(** ** Decisions *)

Definition approves (d : ReviewDecision) : bool :=
  match d with
  | Approved | ApprovedExecpolicyAmendment _ | ApprovedForSession | NetworkPolicyAmendment _ AllowHost => true
  | Denied | Abort | TimedOut | NetworkPolicyAmendment _ DenyHost => false
  end.

(** The events but the registrations. *)
Definition is_decision (e : Event) : bool := match e with Registered _ => false | _ => true end.
Definition decisions (l : list Event) : list Event := List.filter is_decision l.
Lemma decisions_app l l' : decisions (l ++ l') = decisions l ++ decisions l'.
Proof. apply List.filter_app. Qed.

(** What the orchestrator needs of a runtime: each start of an approval logs one
    verdict, of the reviewer when it is asked; running logs nothing; and who is not
    asked before an attempt without a sandbox does not get one. *)
Class LawfulRuntime {W Req Out} (tool : ToolRuntime W Req Out) : Prop := {
  start_approval_logs req ctx σ : ∃ source σ' d,
    start_approval req ctx σ = (σ', d) ∧ log σ' = log σ ++ [Verdict source d] ∧ source ≠ ByHook
    ∧ (is_Some (guardian_review_id ctx) → source = ByGuardian) ∧ network_approval σ' = network_approval σ;
  run_tool_logs req attempt σ : log (run_tool req attempt σ).1 = log σ;
  bypass_wants_no_retry policy : should_bypass_approval policy false = true → wants_no_sandbox_approval policy = false ∧ policy ≠ OnRequest;
}.

Section Orchestrator.
Context `{Outside W} {Req Out : Type} (tool : ToolRuntime W Req Out) `{!LawfulRuntime tool}.
Variable target_os : TargetOs.
Variable turn : TurnContext.
Variable call_id : str.

Lemma reject_spec review_id d σ σ' r :
  reject_if_not_approved review_id d σ = (σ', r) →
  σ' = σ ∧ (if approves d then r = inr () else ∃ message, r = inl (Rejected message)).
Proof. destruct d as [| | |? []| | |]; simpl; intros [= <- <-]; eauto. Qed.

(** A request for an approval logs one verdict: the one it ends with, or a denial
    by a hook. *)
Lemma request_approval_spec req run_id ctx hooks σ σ' r :
  request_approval tool req run_id ctx hooks σ = (σ', r) →
  ∃ source d, log σ' = log σ ++ [Verdict source d] ∧ network_approval σ' = network_approval σ
    ∧ (hooks = false → is_Some (guardian_review_id ctx) → source = ByGuardian)
    ∧ match r with inr d' => d' = d | inl e => approves d = false ∧ ∃ message, e = Rejected message end.
Proof.
  intros Hrun.
  assert (Hstart : ∀ σ1, log σ1 = log σ → network_approval σ1 = network_approval σ → lift (start_approval req ctx) σ1 = (σ', r) →
    ∃ source d, log σ' = log σ ++ [Verdict source d] ∧ network_approval σ' = network_approval σ
      ∧ (hooks = false → is_Some (guardian_review_id ctx) → source = ByGuardian)
      ∧ match r with inr d' => d' = d | inl e => approves d = false ∧ ∃ message, e = Rejected message end).
  { intros σ1 Hl Hn Hd. apply lift_inv in Hd as (d & Hd & ->).
    destruct (start_approval_logs req ctx σ1) as (source & σ2 & d' & Hd' & Hl' & _ & Hg & Hn').
    rewrite Hd in Hd'. simplify_eq. exists source, d'. rewrite Hl', Hn', Hl, Hn. by split_and!. }
  unfold request_approval in Hrun. destruct hooks; [|by eapply Hstart].
  destruct (permission_request_payload req) as [payload|]; [|by eapply Hstart].
  apply T_bind_inv in Hrun as [(e' & Hh & ?)|(σ1 & h & Hh & Hrun)]; [by run_step|].
  apply lift_inv in Hh as (h' & Hh & [= <-]). apply on_outside_inv in Hh as (Hl & Hn & _).
  destruct h as [[|message]|]; [| |by eapply Hstart]; injection Hrun as <- <-.
  - exists ByHook, Approved. simpl. rewrite Hl, Hn. by split_and!.
  - exists ByHook, Denied. simpl. rewrite Hl, Hn. split_and!; eauto; done.
Qed.

(** An approval logs one verdict, and goes on just when it allows. *)
Lemma approval_spec req run_id by_guardian reason context hooks σ σ' r :
  approval tool call_id req run_id by_guardian reason context hooks σ = (σ', r) →
  ∃ source d, log σ' = log σ ++ [Verdict source d] ∧ network_approval σ' = network_approval σ
    ∧ (if approves d then r = inr () else ∃ message, r = inl (Rejected message))
    ∧ (hooks = false → by_guardian = true → source = ByGuardian).
Proof.
  intros Hrun. unfold approval in Hrun. apply T_bind_inv in Hrun as [(e & Hid & ->)|(σ1 & review_id & Hid & Hrun)].
  { by run_step. }
  apply lift_inv in Hid as (a & Hid & [= <-]).
  assert (Hsame : log σ1 = log σ ∧ network_approval σ1 = network_approval σ ∧ (by_guardian = true → is_Some review_id)).
  { destruct by_guardian; [|by injection Hid as <- <-]. apply M_bind_inv in Hid as (σ2 & id & Hid & [= <- <-]).
    apply on_outside_inv in Hid as (? & ? & _). by split_and!. }
  destruct Hsame as (<- & <- & Hreview).
  apply T_bind_inv in Hrun as [(e & Hreq & ->)|(σ2 & d & Hreq & Hreject)];
    destruct (request_approval_spec _ _ _ _ _ _ _ Hreq) as (source & d' & Hl & Hn & Hsource & Hr).
  - destruct Hr as [Hd (message & ->)]. exists source, d'. rewrite Hd. split_and!; eauto.
  - subst. apply reject_spec in Hreject as [-> Hr]. exists source, d'. split_and!; eauto.
Qed.

(** ** Attempts *)

(** An attempt registers its call when the network is managed, runs once, and takes
    the registration back unless it hands it over. *)
Lemma run_attempt_spec req attempt managed σ σ' r deferred :
  run_attempt tool turn req attempt managed σ = (σ', (r, deferred)) →
  ∃ registrations, log σ' = log σ ++ registrations ++ [Attempted (sandbox attempt)]
    ∧ (registrations = [] ∨ ∃ id, registrations = [Registered id]).
Proof.
  intros Hrun. unfold run_attempt in Hrun.
  apply M_bind_inv in Hrun as (σ1 & id & Hid & Hrun). apply on_outside_inv in Hid as (Hl1 & _).
  apply M_bind_inv in Hrun as (σ2 & active & Hactive & Hrun). apply on_network_inv in Hactive as (Hl2 & _).
  apply M_bind_inv in Hrun as (σ3 & u & Hregister & Hrun). apply M_bind_inv in Hrun as (σ4 & u' & Hattempted & Hrun).
  apply emit_inv in Hattempted as [Hl4 _]. apply M_bind_inv in Hrun as (σ5 & result & Hresult & Hrun).
  assert (Hl5 : log σ5 = log σ4) by (pose proof (run_tool_logs req attempt σ4) as Hl; by rewrite Hresult in Hl).
  assert (Hl3 : ∃ registrations, log σ3 = log σ2 ++ registrations ∧ (registrations = [] ∨ ∃ id, registrations = [Registered id])).
  { destruct active; [|injection Hregister as <- _; exists []; rewrite app_nil_r; by auto].
    apply emit_inv in Hregister as [Hl3 _]. eauto 6. }
  destruct Hl3 as (registrations & Hl3 & Hreg). exists registrations. split; [|done].
  rewrite app_assoc, <- Hl1, <- Hl2, <- Hl3, <- Hl4, <- Hl5.
  destruct active as [active|]; [|by injection Hrun as <- _ _]. destruct (active_mode active).
  - apply M_bind_inv in Hrun as (σ6 & finished & Hfinish & Hrun). apply on_network_inv in Hfinish as (<- & _).
    destruct finished; by injection Hrun as <- _.
  - destruct result; [|by injection Hrun as <- _].
    apply M_bind_inv in Hrun as (σ6 & finished & Hfinish & Hrun). apply on_network_inv in Hfinish as (<- & _). by injection Hrun as <- _.
Qed.
Lemma run_attempt_decisions req attempt managed σ σ' r :
  run_attempt tool turn req attempt managed σ = (σ', r) → decisions (log σ') = decisions (log σ) ++ [Attempted (sandbox attempt)].
Proof.
  destruct r as [r deferred]. intros (registrations & -> & Hreg)%run_attempt_spec. rewrite !decisions_app.
  by destruct Hreg as [->|(id & ->)].
Qed.

(** ** The protocol *)

(** What is decided before the first attempt: nothing is asked when the requirement
    is to skip, unless the turn is reviewed strictly. *)
Definition cleared (req : Req) (l : list Event) : Prop :=
  match requirement_of tool turn req with
  | Skip _ _ => if strict_auto_review turn then ∃ d, l = [Verdict ByGuardian d] ∧ approves d = true else l = []
  | ForbiddenRequirement _ => False
  | NeedsApproval _ _ =>
      ∃ source d, l = [Verdict source d] ∧ approves d = true ∧ (strict_auto_review turn = true → source = ByGuardian)
  end.
(** Whether anything is asked at all. *)
Definition asks_first (req : Req) : Prop :=
  match requirement_of tool turn req with
  | Skip _ _ => strict_auto_review turn = true | NeedsApproval _ _ => True | ForbiddenRequirement _ => False
  end.
Definition refused (l : list Event) : Prop :=
  ∃ source d, l = [Verdict source d] ∧ approves d = false ∧ (strict_auto_review turn = true → source = ByGuardian).
(** Before an attempt without a sandbox, after a denial. *)
Definition cleared_again (l1 l2 : list Event) : Prop :=
  (l2 = [] ∧ l1 ≠ [] ∧ strict_auto_review turn = false)
  ∨ ∃ source d, l2 = [Verdict source d] ∧ approves d = true ∧ (strict_auto_review turn = true → source = ByGuardian).

Lemma strict_uses_guardian : strict_auto_review turn = true → use_guardian turn = true.
Proof. intros Hs. unfold use_guardian. by rewrite Hs, orb_true_r. Qed.

Lemma first_approval_spec req σ σ' r :
  first_approval tool turn call_id req σ = (σ', r) →
  ∃ l, log σ' = log σ ++ l
    ∧ match r with
      | inr already_approved => cleared req l ∧ (already_approved = true ↔ l ≠ [])
      | inl e => (∃ message, e = Rejected message) ∧ (asks_first req ∧ refused l ∨ l = [] ∧ ∃ reason, requirement_of tool turn req = ForbiddenRequirement reason)
      end.
Proof.
  unfold first_approval, cleared, asks_first. destruct (requirement_of tool turn req) as [bypass amendment|reason amendment|reason].
  - destruct (strict_auto_review turn) eqn:Hstrict; [|intros [= <- <-]; exists []; rewrite app_nil_r; naive_solver].
    intros Hrun. apply T_bind_inv in Hrun as [(e & Happ & ->)|(σ1 & u & Happ & [= <- <-])];
      destruct (approval_spec _ _ _ _ _ _ _ _ _ Happ) as (source & d & Hl & _ & Hr & Hsource); exists [Verdict source d]; split; try done;
      destruct (approves d) eqn:Hd; try done; try (by destruct Hr).
    + destruct Hr as (message & [= ->]). split; [by exists message|left; split; [done|exists source, d; by rewrite Hsource]].
    + split; [|naive_solver]. exists d. by rewrite Hsource.
  - intros Hrun. apply T_bind_inv in Hrun as [(e & Happ & ->)|(σ1 & u & Happ & [= <- <-])];
      destruct (approval_spec _ _ _ _ _ _ _ _ _ Happ) as (source & d & Hl & _ & Hr & Hsource); exists [Verdict source d]; split; try done;
      destruct (approves d) eqn:Hd; try done; try (by destruct Hr).
    + destruct Hr as (message & [= ->]). split; [by exists message|left; split; [done|exists source, d; split_and!; [done..|]]].
      intros Hs. apply Hsource; [by rewrite Hs|by apply strict_uses_guardian].
    + split; [|naive_solver]. exists source, d. split_and!; [done..|]. intros Hs. apply Hsource; [by rewrite Hs|by apply strict_uses_guardian].
  - intros [= <- <-]. exists []. rewrite app_nil_r. split; [done|]. split; [eauto|]. right. eauto.
Qed.

(** Whether an attempt without a sandbox may follow a denial. *)
Definition retries_allowed : Prop :=
  wants_no_sandbox_approval (approval_policy turn) = true ∨ approval_policy turn = OnRequest ∧ managed_network turn = true.
Lemma may_retry_policy npd :
  may_retry tool turn npd = true → retries_allowed.
Proof.
  unfold may_retry, retries_allowed. cbv zeta. intros [_ [Hwants|Hasks]%orb_true_iff]%andb_true_iff; [by left|right].
  destruct (approval_policy turn); try done. split; [done|]. unfold retry_network_context in Hasks. by destruct (managed_network turn).
Qed.

Lemma retry_spec req already_approved output npd σ σ' r l1 :
  (already_approved = true ↔ l1 ≠ []) →
  retry tool turn call_id req already_approved output npd σ = (σ', r) →
  ∃ l2, decisions (log σ') = decisions (log σ) ++ l2
    ∧ (l2 = [] ∨ retries_allowed ∧ (refused l2 ∨ ∃ l3, l2 = l3 ++ [Attempted NoSandbox] ∧ cleared_again l1 l3)).
Proof.
  intros Halready Hrun. unfold retry in Hrun. cbv zeta in Hrun. destruct (may_retry tool turn npd) eqn:Hmay.
  2: { injection Hrun as <- <-. exists []. rewrite app_nil_r. by split; [|left]. }
  pose proof (may_retry_policy npd Hmay) as Hpolicy. simpl in Hrun.
  assert (Hattempt : ∀ σ1 l3, decisions (log σ1) = decisions (log σ) ++ l3 → cleared_again l1 l3 →
    (lift (run_attempt tool turn req (attempt_in turn NoSandbox None) (managed_network turn)) ≫= with_deferred) σ1 = (σ', r) →
    ∃ l2, decisions (log σ') = decisions (log σ) ++ l2 ∧ (l2 = [] ∨ retries_allowed ∧ (refused l2 ∨ ∃ l3, l2 = l3 ++ [Attempted NoSandbox] ∧ cleared_again l1 l3))).
  { intros σ1 l3 Hl3 Hcleared Hlast. apply T_bind_inv in Hlast as [(e & Hatt & _)|(σ2 & res & Hatt & Hres)]; [by run_step|].
    apply lift_inv in Hatt as (res' & Hatt & [= <-]). apply run_attempt_decisions in Hatt.
    assert (σ' = σ2) as -> by (destruct res as [[] ?]; by injection Hres as <- _).
    exists (l3 ++ [Attempted NoSandbox]). rewrite Hatt, Hl3, app_assoc. split; [done|]. right. split; [done|]. right. eauto. }
  apply T_bind_inv in Hrun as [(e & Happ & ->)|(σ1 & u & Happ & Hrun)]; destruct (bypass_retry_approval _ _ _ _) eqn:Hbypass.
  - done.
  - destruct (approval_spec _ _ _ _ _ _ _ _ _ Happ) as (source & d & Hl & _ & Hr & Hsource). exists [Verdict source d].
    rewrite Hl, decisions_app. split; [done|]. right. split; [done|]. left. exists source, d. split_and!; [done|by destruct (approves d)|].
    intros Hs. apply Hsource; [by rewrite Hs|by apply strict_uses_guardian].
  - injection Happ as <- <-. apply (Hattempt σ []); [by rewrite app_nil_r| |done]. left.
    unfold bypass_retry_approval in Hbypass. apply andb_true_iff in Hbypass as [[Hs Hb]%andb_true_iff _].
    apply negb_true_iff in Hs. split_and!; [done| |done]. apply Halready. destruct already_approved; [done|].
    apply bypass_wants_no_retry in Hb as [Hw Hne]. destruct Hpolicy as [Hp|[Hp _]]; congruence.
  - destruct (approval_spec _ _ _ _ _ _ _ _ _ Happ) as (source & d & Hl & _ & Hr & Hsource).
    apply (Hattempt σ1 [Verdict source d]); [by rewrite Hl, decisions_app| |done]. right. exists source, d.
    destruct (approves d); [|by destruct Hr]. split_and!; [done..|]. intros Hs. apply Hsource; [by rewrite Hs|by apply strict_uses_guardian].
Qed.

(** What a run may decide and attempt. *)
Inductive permitted (req : Req) : list Event → Prop :=
| permitted_stop l :
    asks_first req ∧ refused l ∨ l = [] ∧ (∃ reason, requirement_of tool turn req = ForbiddenRequirement reason) → permitted req l
| permitted_once l1 : cleared req l1 → permitted req (l1 ++ [Attempted (initial_sandbox tool target_os turn req)])
| permitted_refused l1 l2 :
    cleared req l1 → refused l2 → retries_allowed → permitted req (l1 ++ Attempted (initial_sandbox tool target_os turn req) :: l2)
| permitted_twice l1 l2 :
    cleared req l1 → cleared_again l1 l2 → retries_allowed →
    permitted req (l1 ++ Attempted (initial_sandbox tool target_os turn req) :: l2 ++ [Attempted NoSandbox]).

Lemma run_spec req σ σ' r :
  run tool target_os turn call_id req σ = (σ', r) →
  ∃ l, decisions (log σ') = decisions (log σ) ++ l ∧ permitted req l
    ∧ ((∃ s, Attempted s ∈ l) ∨ ∃ message, r = inl (Rejected message)).
Proof.
  intros Hrun. unfold run in Hrun. apply T_bind_inv in Hrun as [(e & Hfirst & ->)|(σ1 & already & Hfirst & Hrun)];
    destruct (first_approval_spec _ _ _ _ Hfirst) as (l1 & Hl1 & Hcleared).
  - destruct Hcleared as [(message & ->) Hstop]. exists l1. assert (Hd : decisions l1 = l1).
    { destruct Hstop as [(_ & source & d & -> & _)|[-> _]]; done. }
    rewrite Hl1, decisions_app, Hd. split_and!; [done|by apply permitted_stop|]. right. eauto.
  - destruct Hcleared as [Hcleared Halready].
    assert (Hd : decisions l1 = l1).
    { unfold cleared in Hcleared. destruct (requirement_of tool turn req); [|by destruct Hcleared as (? & ? & -> & _)|done].
      destruct (strict_auto_review turn); [by destruct Hcleared as (? & -> & _)|by rewrite Hcleared]. }
    apply T_bind_inv in Hrun as [(e & Hatt & _)|(σ2 & res & Hatt & Hrun)]; [by run_step|].
    apply lift_inv in Hatt as (res' & Hatt & [= <-]). apply run_attempt_decisions in Hatt.
    assert (Hl2 : decisions (log σ2) = decisions (log σ) ++ l1 ++ [Attempted (initial_sandbox tool target_os turn req)]).
    { rewrite Hatt, Hl1, decisions_app, Hd. by rewrite app_assoc. }
    assert (Hdone : with_deferred res σ2 = (σ', r) → σ' = σ2) by (destruct res as [[] ?]; by intros [= <- _]).
    assert (Hretry : (∃ already output npd, (already = true ↔ l1 ≠ []) ∧ retry tool turn call_id req already output npd σ2 = (σ', r)) ∨ σ' = σ2).
    { destruct res as [[[msg|[[output npd|output|n]|msg]]|out] deferred]; try (right; by apply Hdone). left. by exists already, output, npd. }
    destruct Hretry as [(already' & output & npd & Hiff & Hretry)| ->].
    2: { eexists. split_and!; [exact Hl2|by apply permitted_once|]. left. eexists. apply elem_of_app. right. by left. }
    destruct (retry_spec _ _ _ _ _ _ _ _ Hiff Hretry) as (l2 & Hl3 & Hcase). rewrite Hl2 in Hl3.
    exists (l1 ++ Attempted (initial_sandbox tool target_os turn req) :: l2). split_and!.
    + rewrite Hl3. by rewrite <- !app_assoc.
    + destruct Hcase as [->|[Hpolicy [Hrefused|(l3 & -> & Hagain)]]]; [by apply permitted_once|by apply permitted_refused|by apply permitted_twice].
    + left. eexists. apply elem_of_app. right. by left.
Qed.

End Orchestrator.
End OrchestratorFacts.

(** ** What running a tool promises *)
Import Permissions ExecApproval NetworkApproval Orchestrator ExecOutput Runtimes OrchestratorFacts.

Module OrchestratorPromises.

(** ** The runtimes keep the log honest *)

Section Runtimes.
Context `{Outside W}.

(** One verdict, not a hook's, and the network approvals left alone. *)
Definition logs_verdict (m : M W ReviewDecision) (guardian : Prop) : Prop :=
  ∀ σ, ∃ source σ' d,
    m σ = (σ', d) ∧ log σ' = log σ ++ [Verdict source d] ∧ source ≠ ByHook ∧ (guardian → source = ByGuardian)
    ∧ network_approval σ' = network_approval σ.

Lemma decided_logs source (m : M W ReviewDecision) (guardian : Prop) :
  (∀ σ σ' d, m σ = (σ', d) → log σ' = log σ ∧ network_approval σ' = network_approval σ) → source ≠ ByHook →
  (guardian → source = ByGuardian) → logs_verdict (decided_by source m) guardian.
Proof.
  intros Hm Hsource Hguardian σ. unfold decided_by, mbind, M_bind. destruct (m σ) as [σ1 d] eqn:Hd. apply Hm in Hd as [Hl Hn].
  exists source. do 2 eexists. split; [reflexivity|]. simpl. rewrite Hl, Hn. by split_and!.
Qed.
Lemma by_user_logs question : logs_verdict (by_user question) False.
Proof. apply decided_logs; [|done..]. intros σ σ' d Hd. by apply on_outside_inv in Hd as (? & ? & _). Qed.
Lemma by_guardian_logs id question (guardian : Prop) : logs_verdict (by_guardian id question) guardian.
Proof. apply decided_logs; [|done..]. intros σ σ' d Hd. by apply on_outside_inv in Hd as (? & ? & _). Qed.
Lemma cached_logs {Key} (serialize : Key → option str) keys m :
  logs_verdict m False → logs_verdict (with_cached_approval serialize keys m) False.
Proof.
  intros Hm σ. unfold with_cached_approval. destruct keys as [|key keys]; [apply Hm|].
  destruct (forallb _ _); [exists ByCache; do 2 eexists; split; [reflexivity|]; by split_and!|].
  destruct (Hm σ) as (source & σ' & d & -> & Hl & Hs & _ & Hn). exists source.
  destruct d; do 2 eexists; (split; [reflexivity|]); by split_and!.
Qed.
Lemma logs_weaken m (P Q : Prop) : (Q → P) → logs_verdict m P → logs_verdict m Q.
Proof. intros HQP Hm σ. destruct (Hm σ) as (source & σ' & d & ? & ? & ? & ? & ?). exists source, σ', d. split_and!; auto. Qed.

Lemma command_approval_logs {Key} (serialize : Key → option str) keys req ctx :
  logs_verdict (start_command_approval serialize keys req ctx) (is_Some (guardian_review_id ctx)).
Proof.
  unfold start_command_approval. destruct (guardian_review_id ctx); [apply by_guardian_logs|].
  eapply logs_weaken; [|apply cached_logs, by_user_logs]. by intros [? [=]].
Qed.
Lemma run_process_logs {Req A} (p : process (W:=W) Req A) req attempt σ : log (run_process p req attempt σ).1 = log σ.
Proof. unfold run_process. by destruct (p req attempt _) as [[? ?] ?]. Qed.
Lemma lifted_process_logs {Req A B} (p : process (W:=W) Req A) (f : A → T W B) req attempt σ :
  (∀ a σ, log (f a σ).1 = log σ) → log ((lift (run_process p req attempt) ≫= f) σ).1 = log σ.
Proof.
  intros Hf. unfold mbind, T_bind, lift. pose proof (run_process_logs p req attempt σ) as Hl.
  destruct (run_process p req attempt σ) as [σ' a]. by rewrite Hf.
Qed.
Lemma default_bypass_lawful policy :
  default_should_bypass_approval policy false = true → default_wants_no_sandbox_approval policy = false ∧ policy ≠ OnRequest.
Proof. by destruct policy. Qed.

Section Instances.
Variable try_parse_shell : str → option Shell.Tree.
Variable serialize_shell_key : ApprovalKey → option str.
Variable serialize_unified_key : ApprovalKey * bool → option str.
Variable serialize_path : str → option str.
Variable to_lowercase : str → str.
Variable from_utf8_lossy : bytes → str.

#[export] Instance shell_lawful execute :
  LawfulRuntime (shell_runtime try_parse_shell serialize_shell_key to_lowercase from_utf8_lossy execute).
Proof.
  split; simpl.
  - intros req ctx σ. apply command_approval_logs.
  - intros req attempt σ. unfold run_shell. case_bool_decide; [done|]. destruct (missing_sandbox_executable attempt); [done|].
    by apply lifted_process_logs.
  - apply default_bypass_lawful.
Qed.
#[export] Instance unified_exec_lawful {Process} open_session environment :
  LawfulRuntime (unified_exec_runtime (Process:=Process) try_parse_shell serialize_unified_key open_session environment).
Proof.
  split; simpl.
  - intros req ctx σ. apply command_approval_logs.
  - intros req attempt σ. unfold run_unified. case_bool_decide; [done|]. destruct (missing_sandbox_executable attempt); [done|].
    destruct environment; [|done]. apply lifted_process_logs. by intros [[]|].
  - apply default_bypass_lawful.
Qed.
#[export] Instance apply_patch_lawful {FS} get_filesystem environment fs_of with_fs home_dir :
  LawfulRuntime (apply_patch_runtime (FS:=FS) serialize_path to_lowercase get_filesystem environment fs_of with_fs home_dir).
Proof.
  split; simpl.
  - intros req ctx. unfold start_patch_approval. destruct (guardian_review_id ctx); [apply by_guardian_logs|].
    apply (logs_weaken _ False); [by intros [? [=]]|].
    destruct (permissions_preapproved req && _); [by apply decided_logs; [intros ??? [= <- _]|..]|].
    destruct (retry_reason ctx); [apply by_user_logs|apply cached_logs, by_user_logs].
  - intros req attempt σ. unfold run_patch. destruct environment; [|done]. unfold mbind, T_bind, lift, on_outside. simpl.
    by repeat case_match.
  - by intros [].
Qed.
End Instances.
End Runtimes.

(** ** The protocol *)

(** C1. A run of a tool refines the protocol of approvals, for any user,
    reviewer, hooks and tool: what is forbidden or not approved is not
    attempted; otherwise there is one attempt in the selected sandbox and at
    most one more without it, which needs that the policy lets it be asked and
    an approval, a new one in a strictly reviewed turn, where the reviewer
    gives all of them. *)
Theorem runs_follow_protocol `{Outside W} {Req Out} (tool : ToolRuntime W Req Out) `{!LawfulRuntime tool}
    target_os turn call_id req σ :
  ∃ σ' r l, run tool target_os turn call_id req σ = (σ', r)
    ∧ decisions (log σ') = decisions (log σ) ++ l ∧ permitted tool target_os turn req l
    ∧ ((∃ s, Attempted s ∈ l) ∨ ∃ message, r = inl (Rejected message)).
Proof.
  destruct (run tool target_os turn call_id req σ) as [σ' r] eqn:Hrun.
  destruct (run_spec tool target_os turn call_id req σ σ' r Hrun) as (l & Hl & Hp & Hr). by exists σ', r, l.
Qed.

(** ** Registrations *)

Definition active_ids (s : NetworkApprovalService) : list str := (active_calls s).*1.
Lemma elem_of_index_insert {A} key (a : A) l id : id ∈ (index_insert key a l).*1 ↔ id ∈ l.*1 ∨ id = key.
Proof.
  induction l as [|[k b] l IH]; simpl; [set_solver|]. case_bool_decide as Hk; simpl; rewrite !elem_of_cons; [subst; naive_solver|].
  rewrite IH. naive_solver.
Qed.
Lemma elem_of_unregister id id' s : id ∈ active_ids (unregister_call id' s) ↔ id ∈ active_ids s ∧ id ≠ id'.
Proof.
  unfold active_ids, unregister_call. simpl. rewrite !list_elem_of_fmap. setoid_rewrite list_elem_of_In. setoid_rewrite filter_In.
  setoid_rewrite negb_true_iff. setoid_rewrite bool_decide_eq_false. naive_solver.
Qed.

Section Registrations.
Context `{Outside W} {Req Out : Type} (tool : ToolRuntime W Req Out) `{!LawfulRuntime tool}.
Variable target_os : TargetOs.
Variable turn : TurnContext.
Variable call_id : str.
Hypothesis run_registers_nothing : ∀ req attempt σ id,
  id ∈ active_ids (network_approval (run_tool req attempt σ).1) → id ∈ active_ids (network_approval σ).

(** No call is registered but the one that is handed over. *)
Definition hands_over (σ σ' : State W) (deferred : option str) : Prop :=
  ∀ id, id ∈ active_ids (network_approval σ') → id ∈ active_ids (network_approval σ) ∨ deferred = Some id.

Lemma begin_active id turn_id managed spec s s' active :
  begin_network_approval id turn_id managed spec s = (s', active) →
  match active with
  | Some active => active_registration active = Some id ∧ ∀ id', id' ∈ active_ids s' → id' ∈ active_ids s ∨ id' = id
  | None => s' = s
  end.
Proof.
  unfold begin_network_approval. destruct spec as [spec|]; [|by intros [= <- <-]].
  destruct (_ || _); intros [= <- <-]; [done|]. split; [done|]. intros id'. unfold active_ids. simpl. by rewrite elem_of_index_insert.
Qed.
Lemma finish_active {E} active (s s' : NetworkApprovalService) (r : ToolError E + unit) id :
  active_registration active = Some id → finish_immediate_network_approval active s = (s', r) →
  active_ids s' = active_ids (unregister_call id s).
Proof. intros Hid. unfold finish_immediate_network_approval. rewrite Hid. by intros [= <- _]. Qed.

Lemma run_attempt_hands_over req attempt managed σ σ' r deferred :
  run_attempt tool turn req attempt managed σ = (σ', (r, deferred)) → hands_over σ σ' deferred ∧ (is_Some deferred → ∃ out, r = inr out).
Proof.
  intros Hrun. unfold run_attempt in Hrun.
  apply M_bind_inv in Hrun as (σ1 & id & Hid & Hrun). apply on_outside_inv in Hid as (_ & Hn1 & _).
  apply M_bind_inv in Hrun as (σ2 & active & Hactive & Hrun). apply on_network_inv in Hactive as (_ & _ & Hactive).
  symmetry in Hactive. apply begin_active in Hactive. rewrite Hn1 in Hactive.
  apply M_bind_inv in Hrun as (σ3 & u & Hregister & Hrun). apply M_bind_inv in Hrun as (σ4 & u' & Hattempted & Hrun).
  apply emit_inv in Hattempted as [_ Hn4]. apply M_bind_inv in Hrun as (σ5 & result & Hresult & Hrun).
  assert (Hn5 : ∀ id', id' ∈ active_ids (network_approval σ5) → id' ∈ active_ids (network_approval σ2)).
  { intros id' Hin. pose proof (run_registers_nothing req attempt σ4 id') as Hno. rewrite Hresult in Hno. apply Hno in Hin.
    rewrite Hn4 in Hin. destruct active; [by apply emit_inv in Hregister as [_ <-]|by injection Hregister as <- _]. }
  destruct active as [active|]; [|injection Hrun as <- <- <-; split; [|by intros [? [=]]]; intros id' Hin; left; rewrite <- Hactive; by apply Hn5].
  destruct Hactive as [Hreg Hids]. unfold into_deferred in Hrun. rewrite Hreg in Hrun. destruct (active_mode active).
  - apply M_bind_inv in Hrun as (σ6 & finished & Hfinish & Hrun). apply on_network_inv in Hfinish as (_ & _ & Hfinish).
    symmetry in Hfinish. apply (finish_active _ _ _ _ _ Hreg) in Hfinish.
    assert (σ' = σ6 ∧ deferred = None) as [-> ->] by (destruct finished as [|[]]; by injection Hrun as <- _ <-).
    split; [|by intros [? [=]]]. intros id' Hin. rewrite Hfinish in Hin. apply elem_of_unregister in Hin as [Hin Hne].
    left. apply Hn5, Hids in Hin as [Hin|Hin]; [done|by destruct Hne].
  - destruct result as [err|out].
    + apply M_bind_inv in Hrun as (σ6 & finished & Hfinish & Hrun). apply on_network_inv in Hfinish as (_ & _ & Hfinish).
      injection Hrun as <- <- <-. injection Hfinish as Hfinish. split; [|by intros [? [=]]]. intros id' Hin. rewrite Hfinish in Hin.
      apply elem_of_unregister in Hin as [Hin Hne]. left. apply Hn5, Hids in Hin as [Hin|Hin]; [done|by destruct Hne].
    + injection Hrun as <- <- <-. split; [|eauto]. intros id' Hin. apply Hn5, Hids in Hin as [Hin|Hin]; [by left|right; by subst].
Qed.

Lemma first_approval_network req σ σ' r :
  first_approval tool turn call_id req σ = (σ', r) → network_approval σ' = network_approval σ.
Proof using LawfulRuntime0.
  unfold first_approval. destruct (requirement_of tool turn req); [destruct (strict_auto_review turn); [|by intros [= <- _]]| |by intros [= <- _]];
    (intros Hrun; apply T_bind_inv in Hrun as [(e & Happ & _)|(σ1 & u & Happ & [= <- _])];
     by destruct (approval_spec _ _ _ _ _ _ _ _ _ _ _ Happ) as (? & ? & _ & ? & _)).
Qed.

(** What comes after an attempt. *)
Lemma with_deferred_hands_over σ σ1 σ' (result : (ToolError CodexErr + Out) * option str) r :
  hands_over σ σ1 result.2 → (is_Some result.2 → ∃ out, result.1 = inr out) → with_deferred result σ1 = (σ', r) →
  ∀ id, id ∈ active_ids (network_approval σ') → id ∈ active_ids (network_approval σ) ∨ ∃ out, r = inr (out, Some id).
Proof.
  intros Hover Hout Hr id Hin. destruct result as [[e|out] deferred]; injection Hr as <- <-; apply Hover in Hin as [Hin|Hin]; simpl in *; subst; eauto.
  by destruct Hout as [? [=]].
Qed.
End Registrations.

(** C4. A run leaves nothing registered with the network approvals but the
    registration that its result hands over, whatever comes of its attempts. *)
Theorem registrations_taken_back `{Outside W} {Req Out} (tool : ToolRuntime W Req Out) `{!LawfulRuntime tool}
    target_os turn call_id req σ :
  (∀ req attempt σ id, id ∈ active_ids (network_approval (run_tool req attempt σ).1) → id ∈ active_ids (network_approval σ)) →
  ∃ σ' r, run tool target_os turn call_id req σ = (σ', r)
    ∧ ∀ id, id ∈ active_ids (network_approval σ') →
        id ∈ active_ids (network_approval σ) ∨ ∃ out, r = inr (out, Some id).
Proof.
  intros Hnothing. destruct (run tool target_os turn call_id req σ) as [σ' r] eqn:Hrun. exists σ', r. split; [done|].
  unfold run in Hrun. apply T_bind_inv in Hrun as [(e & Hfirst & ->)|(σ1 & already & Hfirst & Hrun)];
    apply (first_approval_network tool) in Hfirst; [rewrite Hfirst; by left|]. rewrite <- Hfirst. clear Hfirst.
  apply T_bind_inv in Hrun as [(e & Hatt & _)|(σ2 & res & Hatt & Hrun)]; [by apply lift_inv in Hatt as (? & _ & [=])|].
  apply lift_inv in Hatt as (res' & Hatt & [= <-]).
  assert (Hover : hands_over σ1 σ2 res.2 ∧ (is_Some res.2 → ∃ out, res.1 = inr out)).
  { destruct res as [r1 d1]. by eapply (run_attempt_hands_over tool). }
  destruct Hover as [Hover Hout].
  destruct res as [[[msg|[[output npd|output|n]|msg]]|out] deferred]; try (by eapply (with_deferred_hands_over (Out:=Out))).
  assert (deferred = None) as -> by (destruct deferred; [by destruct Hout as [? [=]]|done]). simpl in Hover.
  unfold retry in Hrun. cbv zeta in Hrun.
  assert (Hback : ∀ id, id ∈ active_ids (network_approval σ2) → id ∈ active_ids (network_approval σ1)).
  { intros id Hin. by apply Hover in Hin as [?|[=]]. }
  destruct (negb _); [injection Hrun as <- <-; auto|].
  apply T_bind_inv in Hrun as [(e & Happ & ->)|(σ3 & u & Happ & Hrun)].
  - destruct (bypass_retry_approval _ _ _ _); [done|]. destruct (approval_spec _ _ _ _ _ _ _ _ _ _ _ Happ) as (? & ? & _ & -> & _). auto.
  - assert (Hn3 : network_approval σ3 = network_approval σ2).
    { destruct (bypass_retry_approval _ _ _ _); [by injection Happ as <-|].
      by destruct (approval_spec _ _ _ _ _ _ _ _ _ _ _ Happ) as (? & ? & _ & ? & _). }
    apply T_bind_inv in Hrun as [(e & Hatt2 & _)|(σ4 & res & Hatt2 & Hrun)]; [by apply lift_inv in Hatt2 as (? & _ & [=])|].
    apply lift_inv in Hatt2 as (res' & Hatt2 & [= <-]). destruct res as [r2 d2].
    destruct (run_attempt_hands_over tool _ Hnothing _ _ _ _ _ _ _ Hatt2) as [Hover2 Hout2].
    eapply (with_deferred_hands_over (Out:=Out) σ1 σ4 σ' (r2, d2)); [|exact Hout2|exact Hrun]. intros id Hin. apply Hover2 in Hin as [Hin|Hin]; [|by right].
    left. rewrite Hn3 in Hin. auto.
Qed.

(** ** Approvals for the session *)

Section Cache.
Context `{Outside W} {Key : Type} (serialize : Key → option str).

Lemma foldl_store_put keys store s :
  foldl (λ store key, store_put serialize key ApprovedForSession store) store keys !! s =
  if decide (Some s ∈ serialize <$> keys) then Some ApprovedForSession else store !! s.
Proof.
  revert store. induction keys as [|key keys IH]; intros store; [done|]. simpl. rewrite IH. unfold store_put.
  destruct (decide (Some s ∈ serialize <$> keys)) as [Hin|Hnot]; [by rewrite decide_True by (by right)|].
  destruct (serialize key) as [s'|] eqn:Hs.
  - destruct (decide (s' = s)) as [->|Hne]; [rewrite decide_True by (by left); by rewrite lookup_insert_eq|].
    rewrite lookup_insert_ne by done. rewrite decide_False; [done|]. rewrite elem_of_cons. naive_solver.
  - rewrite decide_False; [done|]. rewrite elem_of_cons. naive_solver.
Qed.
Lemma all_approved keys store :
  forallb (λ key, is_approved_for_session (store_get serialize key store)) keys = true
  ↔ ∀ key, key ∈ keys → store_get serialize key store = Some ApprovedForSession.
Proof.
  rewrite forallb_forall. setoid_rewrite list_elem_of_In. unfold is_approved_for_session.
  split; intros Hall key Hin; specialize (Hall key Hin); [destruct (store_get serialize key store) as [[]|]; done|by rewrite Hall].
Qed.

(** C3. After an approval for the session the same keys, and any subset of
    them, are approved from the store and nobody is asked, and any other
    decision leaves the store as it is. *)
Theorem session_approvals_remembered keys (fetch : M W ReviewDecision) σ :
  keys ≠ [] → (∀ σ, tool_approvals (fetch σ).1 = tool_approvals σ) →
  let approved := ∀ key, key ∈ keys → store_get serialize key (tool_approvals σ) = Some ApprovedForSession in
  ∃ σ' d, with_cached_approval serialize keys fetch σ = (σ', d)
    ∧ (approved → d = ApprovedForSession ∧ log σ' = log σ ++ [Verdict ByCache ApprovedForSession]
                  ∧ tool_approvals σ' = tool_approvals σ ∧ outside σ' = outside σ)
    ∧ (¬ approved → d = (fetch σ).2 ∧ log σ' = log (fetch σ).1 ∧ outside σ' = outside (fetch σ).1
       ∧ (d ≠ ApprovedForSession → tool_approvals σ' = tool_approvals σ)
       ∧ (d = ApprovedForSession → ∀ key,
            (key ∈ keys → is_Some (serialize key) → store_get serialize key (tool_approvals σ') = Some ApprovedForSession)
            ∧ (serialize key ∉ serialize <$> keys → store_get serialize key (tool_approvals σ') = store_get serialize key (tool_approvals σ)))).
Proof.
  intros Hne Hfetch. cbv zeta. unfold with_cached_approval. destruct keys as [|key0 keys0] eqn:Hkeys; [done|]. rewrite <- Hkeys in *. clear Hne.
  destruct (forallb _ keys) eqn:Hall.
  - pose proof (proj1 (all_approved keys (tool_approvals σ)) Hall) as Hin. do 2 eexists. split; [reflexivity|].
    split; [intros _; by split_and!|]. intros Hno. by destruct Hno.
  - assert (Hno : ¬ ∀ key, key ∈ keys → store_get serialize key (tool_approvals σ) = Some ApprovedForSession).
    { intros Happ. pose proof (proj2 (all_approved keys (tool_approvals σ)) Happ). congruence. }
    pose proof (Hfetch σ) as Hstore. destruct (fetch σ) as [σ1 d]. simpl in *.
    destruct d; do 2 eexists; (split; [reflexivity|]); (split; [done|]); intros _; (split_and!; [done..|]); intros Hd; try done.
    intros key. simpl. unfold store_get. split.
    + intros Hin [s Hs]. rewrite Hs. simpl. rewrite foldl_store_put, decide_True; [done|]. rewrite <- Hs. by apply list_elem_of_fmap_2.
    + intros Hnot. destruct (serialize key) as [s|]; [|done]. simpl. by rewrite foldl_store_put, decide_False, Hstore.
Qed.
End Cache.

(** ** With the execution policy *)

(** C2. Under the approval policy that never asks, a shell command whose
    requirement the execution policy made is attempted at most once, in the
    sandbox selected for it, and never retried without the sandbox; when it is
    forbidden nothing is asked and nothing runs; otherwise nobody is asked
    about it, except that in a strictly reviewed turn the reviewer (never the
    user, a hook or a stored approval) is asked once and decides whether it
    runs. *)
Theorem never_policy_never_asks `{Outside W} home_dir current_dir try_parse_shell parse_powershell shlex_try_join
    policy areq requirement serialize to_lowercase from_utf8_lossy execute target_os turn call_id req σ :
  create_exec_approval_requirement_for_command home_dir current_dir try_parse_shell parse_powershell shlex_try_join policy areq
    = Ok requirement →
  ExecApproval.approval_policy areq = Never → approval_policy turn = Never → shell_requirement req = requirement →
  let tool := shell_runtime (W:=W) try_parse_shell serialize to_lowercase from_utf8_lossy execute in
  let attempt := Attempted (initial_sandbox tool target_os turn req) in
  ∃ σ' r l, run tool target_os turn call_id req σ = (σ', r) ∧ decisions (log σ') = decisions (log σ) ++ l
    ∧ match requirement with
      | ForbiddenRequirement _ => l = [] ∧ ∃ message, r = inl (Rejected message)
      | NeedsApproval _ _ => False
      | Skip _ _ =>
          if strict_auto_review turn
          then ∃ d, if approves d then l = [Verdict ByGuardian d; attempt]
                    else l = [Verdict ByGuardian d] ∧ ∃ message, r = inl (Rejected message)
          else l = [attempt]
      end.
Proof.
  intros Hreq Hnever Hpolicy Hshell tool attempt.
  assert (Hnot : ∀ reason a, requirement ≠ NeedsApproval reason a) by (by eapply requirement_never).
  destruct (run tool target_os turn call_id req σ) as [σ' r] eqn:Hrun.
  destruct (run_spec tool target_os turn call_id req σ σ' r Hrun) as (l & Hl & Hp & Hr). exists σ', r, l. split_and!; [done..|].
  assert (Hrequirement : requirement_of tool turn req = requirement) by (by rewrite <- Hshell).
  assert (Hno_retry : ¬ retries_allowed tool turn) by (unfold retries_allowed; rewrite Hpolicy; simpl; naive_solver).
  destruct Hp as [l Hstop|l1 Hc|l1 l2 Hc _ Hretry|l1 l2 Hc _ Hretry]; [..|done|done].
  - destruct Hstop as [[Hasks (source & d & -> & Hd & Hsource)]|[-> [reason Hf]]].
    + unfold asks_first in Hasks. rewrite Hrequirement in Hasks. destruct requirement; [|exfalso; by eapply Hnot|done].
      rewrite Hasks. exists d. rewrite Hd, Hsource by done. split; [done|]. destruct Hr as [[s Hs]|Hr]; [set_solver|done].
    + rewrite <- Hrequirement, Hf. split; [done|]. destruct Hr as [[s Hs%elem_of_nil]|Hr]; done.
  - unfold cleared in Hc. rewrite Hrequirement in Hc. destruct requirement; [|exfalso; by eapply Hnot|done].
    destruct (strict_auto_review turn); [|by subst l1]. destruct Hc as (d & -> & Hd). exists d. by rewrite Hd.
Qed.

End OrchestratorPromises.

(** ** Running tools: examples

    A user with a list of answers, a shell whose commands fail in the sandbox. *)
Import Permissions ExecApproval NetworkApproval Orchestrator ExecOutput Runtimes OrchestratorFacts OrchestratorPromises.

Module OrchestratorWitness.

(** The answers that the user has yet to give, and how many ids were made. *)
Definition example_world : Type := list ReviewDecision * nat.
#[export] Instance example_outside : Outside example_world := {|
  ask_user _ w := match w with (d :: ds, n) => ((ds, n), d) | ([], n) => (([], n), Denied) end;
  review_approval_request _ _ w := (w, Denied);
  guardian_rejection_message _ _ := lit "rejected by the reviewer";
  permission_request_hooks _ _ w := (w, None);
  new_uuid w := ((w.1, S w.2), show_nat w.2) |}.

Definition refuses_in_sandbox : process (W:=example_world) ShellRequest (CodexErr + RawExecToolCallOutput) := λ _ attempt w,
  (w, inr {| exit_status := Exited (if bool_decide (sandbox attempt = NoSandbox) then 0 else 1)%Z; raw_stdout := [];
             raw_stderr := lit "Permission denied"; raw_aggregated_output := []; raw_timed_out := false |}).
Definition serialize_key (key : ApprovalKey) : option str := Some (join [0%N] (key_command key) ++ [0%N] ++ key_cwd key).
Definition example_shell : ToolRuntime example_world ShellRequest ExecToolCallOutput :=
  shell_runtime (λ _, None) serialize_key to_ascii_lowercase id refuses_in_sandbox.
Definition example_turn (policy : AskForApproval) : TurnContext := {|
  approval_policy := policy; sandbox_policy := ReadOnly FullAccess false;
  file_system_sandbox_policy := FileSystemSandboxPolicy_default; network_sandbox_policy := NetworkRestricted;
  managed_network := true; windows_sandbox_enabled := false; auto_reviewer := false; strict_auto_review := false;
  turn_cwd := lit "/w"; linux_sandbox_exe := Some (lit "/bin/sandbox"); turn_sub_id := lit "t" |}.
Definition example_request (command : list string) (requirement : ExecApprovalRequirement) : ShellRequest := {|
  shell_command := lit <$> command; shell_hook_command := join (lit " ") (lit <$> command); shell_cwd := lit "/w";
  shell_network := true; shell_sandbox_permissions := UseDefault; shell_additional_permissions := None;
  shell_justification := None; shell_requirement := requirement |}.
Definition start (answers : list ReviewDecision) : State example_world := {|
  network_approval := default_service; tool_approvals := ∅; outside := (answers, 0); log := [] |}.

(** Asked once, attempted in the sandbox, and once more without it. *)
Definition touch : ShellRequest := example_request ["touch"; "x"] (NeedsApproval None None).
Definition touch_run := run example_shell Linux (example_turn UnlessTrusted) (lit "c") touch (start [Approved]).
Example touch_log :
  decisions (log touch_run.1) = [Verdict ByUser Approved; Attempted LinuxSeccomp; Attempted NoSandbox].
Proof. vm_compute. reflexivity. Qed.

Lemma runs_follow_protocol_witness :
  ∃ l, decisions (log touch_run.1) = l ∧ permitted example_shell Linux (example_turn UnlessTrusted) touch l.
Proof.
  destruct (runs_follow_protocol example_shell Linux (example_turn UnlessTrusted) (lit "c") touch (start [Approved]))
    as (σ' & r & l & Hrun & Hl & Hp & _).
  exists l. split; [|exact Hp]. change (decisions (log (start [Approved]))) with (@nil Event) in Hl. rewrite app_nil_l in Hl.
  rewrite <- Hl. unfold touch_run. rewrite Hrun. reflexivity.
Defined.

Lemma registrations_taken_back_witness : active_ids (network_approval touch_run.1) = [].
Proof.
  apply elem_of_nil_inv. intros id Hin.
  destruct (registrations_taken_back example_shell Linux (example_turn UnlessTrusted) (lit "c") touch (start [Approved]))
    as (σ' & r & Hrun & Hids).
  - intros req attempt σ id'. unfold run_tool, example_shell, shell_runtime, run_shell.
    case_bool_decide; [exact (λ h, h)|]. destruct (missing_sandbox_executable attempt); exact (λ h, h).
  - assert (Hσ : touch_run.1 = σ') by (unfold touch_run; rewrite Hrun; reflexivity). rewrite Hσ in Hin. destruct (Hids id Hin) as [Hno|[out Hr]].
    + by apply elem_of_nil in Hno.
    + assert (Hr' : touch_run.2 = r) by (unfold touch_run; rewrite Hrun; reflexivity). rewrite Hr in Hr'. vm_compute in Hr'. discriminate Hr'.
Defined.

(** An approval for the session. *)
Lemma session_approvals_remembered_witness :
  let keys := [shell_approval_key (λ _, None) touch] in
  let ask := by_user (command_question touch {| ctx_call_id := lit "c"; guardian_review_id := None; retry_reason := None; network_approval_context := None |} None) in
  ∃ σ' d, with_cached_approval serialize_key keys ask (start [ApprovedForSession]) = (σ', d) ∧ d = ApprovedForSession
    ∧ store_get serialize_key (shell_approval_key (λ _, None) touch) (tool_approvals σ') = Some ApprovedForSession.
Proof.
  intros keys ask.
  destruct (session_approvals_remembered serialize_key keys ask (start [ApprovedForSession])) as (σ' & d & Hrun & _ & Hasked).
  - discriminate.
  - intros [s store [[|answer answers] n] events]; reflexivity.
  - exists σ', d. split; [exact Hrun|].
    assert (Hno : ¬ (∀ key, key ∈ keys → store_get serialize_key key (tool_approvals (start [ApprovedForSession])) = Some ApprovedForSession)).
    { intros Hall. discriminate (Hall (shell_approval_key (λ _, None) touch) ltac:(by left)). }
    destruct (Hasked Hno) as (Hd & _ & _ & _ & Hstore). assert (d = ApprovedForSession) as -> by (rewrite Hd; reflexivity).
    split; [reflexivity|]. apply (proj1 (Hstore eq_refl _)); [by left|by eexists].
Defined.

(** Under [Never]: a command that the heuristics allow, in a turn reviewed strictly by
    a reviewer who lets it run. *)
Definition list_request : ExecApprovalRequest := request (lit <$> ["ls"]%string) Never None.
Definition list_requirement : ExecApprovalRequirement :=
  match create_exec_approval_requirement_for_command None None no_shell no_powershell no_join ExecPolicy.empty list_request with
  | Ok r => r | _ => ForbiddenRequirement [] end.
Definition strict_turn : TurnContext := {|
  approval_policy := Never; sandbox_policy := ReadOnly FullAccess false;
  file_system_sandbox_policy := FileSystemSandboxPolicy_default; network_sandbox_policy := NetworkRestricted;
  managed_network := true; windows_sandbox_enabled := false; auto_reviewer := false; strict_auto_review := true;
  turn_cwd := lit "/w"; linux_sandbox_exe := Some (lit "/bin/sandbox"); turn_sub_id := lit "t" |}.
Lemma never_policy_never_asks_witness :
  (∃ σ' r, run example_shell Linux (example_turn Never) (lit "c") (example_request ["ls"] list_requirement) (start []) = (σ', r)
    ∧ decisions (log σ') = [Attempted LinuxSeccomp])
  ∧ ∃ σ' r, run example_shell Linux strict_turn (lit "c") (example_request ["ls"] list_requirement) (start []) = (σ', r)
    ∧ decisions (log σ') = [Verdict ByGuardian Denied].
Proof.
  assert (Hrequirement : create_exec_approval_requirement_for_command None None no_shell no_powershell no_join ExecPolicy.empty list_request
    = Ok list_requirement) by (vm_compute; reflexivity).
  split.
  - destruct (never_policy_never_asks None None no_shell no_powershell no_join ExecPolicy.empty list_request list_requirement
      serialize_key to_ascii_lowercase id refuses_in_sandbox Linux (example_turn Never) (lit "c")
      (example_request ["ls"] list_requirement) (start []) Hrequirement eq_refl eq_refl eq_refl) as (σ' & r & l & Hrun & Hl & Hcase).
    exists σ', r. split; [exact Hrun|]. rewrite Hl. vm_compute in Hcase. rewrite Hcase. vm_compute. reflexivity.
  - destruct (never_policy_never_asks None None no_shell no_powershell no_join ExecPolicy.empty list_request list_requirement
      serialize_key to_ascii_lowercase id refuses_in_sandbox Linux strict_turn (lit "c")
      (example_request ["ls"] list_requirement) (start []) Hrequirement eq_refl eq_refl eq_refl) as (σ' & r & l & Hrun & _).
    exists σ', r. split; [exact Hrun|]. assert (Hlog : decisions (log (run example_shell Linux strict_turn (lit "c")
      (example_request ["ls"] list_requirement) (start [])).1) = [Verdict ByGuardian Denied]) by (vm_compute; reflexivity).
    unfold example_shell in Hlog. unfold no_shell in Hrun. rewrite Hrun in Hlog. exact Hlog.
Defined.

(** ** Approvals that say more than was asked *)

(** PowerShell runs all arguments after [-Command]; the key has the first only, so
    that an approval of one command for the session is an approval of others. *)
Example powershell_keys_collide :
  let key command := shell_approval_key (λ _, None) (example_request command (NeedsApproval None None)) in
  key ["pwsh"; "-Command"; "Remove-Item"; "a.tmp"]%string = key ["pwsh"; "-Command"; "Remove-Item"; "-Recurse"; "/"]%string.
Proof. vm_compute. reflexivity. Qed.
(** The prefix for UTF-8 replaces the last argument. *)
Example powershell_prefix_loses_argument :
  prefix_powershell_script_with_utf8 (lit <$> ["pwsh"; "-Command"; "Remove-Item"; "a.tmp"]%string)
  = (lit <$> ["pwsh"; "-Command"; "Remove-Item"]%string) ++ [UTF8_OUTPUT_PREFIX ++ lit "Remove-Item"].
Proof. vm_compute. reflexivity. Qed.

(** A patch asks to run without a sandbox also under [OnRequest]. *)
Example patch_retries_on_request : patch_wants_no_sandbox_approval OnRequest = true ∧ default_wants_no_sandbox_approval OnRequest = false.
Proof. split; reflexivity. Qed.

End OrchestratorWitness.
