(* ===== verification/TextArea.v ===== *)
(** * The text area of the composer

    Models [tui/src/bottom_pane/textarea.rs]: the text that is being written, with
    its placeholders (elements, which are edited as one piece), cursor, wrapped
    lines and kill buffer, and [wrap_ranges] of [tui/src/wrapping.rs].  Positions
    are byte offsets, and what panics in Rust is [Crash].  The crates for graphemes,
    word bounds, widths and wrapping are a class.  The keys are those of the Unix
    build; drawing the text is left out. *)
From S2P Require Import Prelude Str.

Module TextArea.

(** ** Byte positions in a string *)

(** [s.split_at(n)], nothing where it panics. *)
Fixpoint split_bytes (s : str) (n : nat) {struct s} : option (str * str) :=
  if n =? 0 then Some ([], s)
  else match s with
       | [] => None
       | c :: s' => if len_utf8 c <=? n then '(a, b) ← split_bytes s' (n - len_utf8 c); Some (c :: a, b) else None
       end.
Definition is_char_boundary (s : str) (n : nat) : bool := match split_bytes s n with Some _ => true | None => false end.
(** [s.get(i..j)], and [s[i..]]. *)
Definition slice (s : str) (i j : nat) : option str :=
  if i <=? j then '(_, r) ← split_bytes s i; '(m, _) ← split_bytes r (j - i); Some m else None.
Definition suffix_at (s : str) (i : nat) : option str := '(_, r) ← split_bytes s i; Some r.
(** [s.replace_range(i..j, new)]. *)
Definition splice (s : str) (i j : nat) (new : str) : option str :=
  if i <=? j then '(a, r) ← split_bytes s i; '(_, c) ← split_bytes r (j - i); Some (a ++ new ++ c) else None.
(** [s.find(p)], and [s.char_indices().rev().find(p)]. *)
Fixpoint find_char (p : char → bool) (s : str) : option nat :=
  match s with [] => None | c :: s' => if p c then Some 0 else (λ i, len_utf8 c + i) <$> find_char p s' end.
Fixpoint rfind_char (p : char → bool) (s : str) : option (nat * char) :=
  match s with
  | [] => None
  | c :: s' =>
      match rfind_char p s' with
      | Some (i, d) => Some (len_utf8 c + i, d)
      | None => if p c then Some (0, c) else None
      end
  end.
Definition is_newline (c : char) : bool := (c =? NL)%N.
(** [(p as isize + diff) as usize]. *)
Definition shift_pos (diff : Z) (p : nat) : nat := Z.to_nat (Z.of_nat p + diff).
Definition u16 (n : N) : N := (n mod 65536)%N.

(** ** The crates *)

(** A line of [textwrap::wrap], borrowed from the text (by its offsets) or owned. *)
Inductive WrappedLine : Type := Borrowed (start stop : nat) | Owned (line : str).
(** A grapheme boundary is found, or there is none, or the cursor fails. *)
Class TextLibraries : Type := {
  grapheme_indices : str → list (nat * str);
  grapheme_prev_boundary : str → nat → option (option nat);
  grapheme_next_boundary : str → nat → option (option nat);
  split_word_bound_indices : str → list (nat * str);
  display_width : str → nat;
  textwrap_wrap : str → N → list WrappedLine;
}.

(** ** State *)

Record TextElement : Type := { elem_id : N; elem_start : nat; elem_end : nat; elem_name : option str }.
Record TextElementSnapshot : Type := { snapshot_id : N; snapshot_start : nat; snapshot_end : nat; snapshot_text : str }.
Record WrapCache : Type := { cache_width : N; cache_lines : list (nat * nat) }.
Record TextArea : Type := {
  text : str;
  cursor_pos : nat;
  wrap_cache : option WrapCache;
  preferred_col : option nat;
  element_list : list TextElement;
  next_element_id : N;
  kill_buffer : str;
}.
Definition new : TextArea := {|
  text := []; cursor_pos := 0; wrap_cache := None; preferred_col := None; element_list := []; next_element_id := 1; kill_buffer := [] |}.

Definition len (t : TextArea) : nat := byte_len (text t).
Definition with_cursor (p : nat) (t : TextArea) : TextArea := {|
  text := text t; cursor_pos := p; wrap_cache := wrap_cache t; preferred_col := preferred_col t;
  element_list := element_list t; next_element_id := next_element_id t; kill_buffer := kill_buffer t |}.
Definition with_preferred_col (c : option nat) (t : TextArea) : TextArea := {|
  text := text t; cursor_pos := cursor_pos t; wrap_cache := wrap_cache t; preferred_col := c;
  element_list := element_list t; next_element_id := next_element_id t; kill_buffer := kill_buffer t |}.
Definition with_elements (l : list TextElement) (t : TextArea) : TextArea := {|
  text := text t; cursor_pos := cursor_pos t; wrap_cache := wrap_cache t; preferred_col := preferred_col t;
  element_list := l; next_element_id := next_element_id t; kill_buffer := kill_buffer t |}.
Definition with_kill_buffer (s : str) (t : TextArea) : TextArea := {|
  text := text t; cursor_pos := cursor_pos t; wrap_cache := wrap_cache t; preferred_col := preferred_col t;
  element_list := element_list t; next_element_id := next_element_id t; kill_buffer := s |}.
(** The text is replaced: no wrapped lines, no preferred column. *)
Definition with_text (s : str) (t : TextArea) : TextArea := {|
  text := s; cursor_pos := cursor_pos t; wrap_cache := None; preferred_col := None;
  element_list := element_list t; next_element_id := next_element_id t; kill_buffer := kill_buffer t |}.
Definition with_cache (c : option WrapCache) (t : TextArea) : TextArea := {|
  text := text t; cursor_pos := cursor_pos t; wrap_cache := c; preferred_col := preferred_col t;
  element_list := element_list t; next_element_id := next_element_id t; kill_buffer := kill_buffer t |}.

(** ** Positions *)

Definition find_element_containing (pos : nat) (t : TextArea) : option TextElement :=
  List.find (λ e, (elem_start e <? pos) && (pos <? elem_end e)) (element_list t).

(** The two loops of [clamp_pos_to_char_boundary]. *)
Fixpoint prev_char_boundary (s : str) (pos : nat) : nat :=
  match pos with S p => if is_char_boundary s pos then pos else prev_char_boundary s p | O => 0 end.
Fixpoint next_char_boundary (fuel : nat) (s : str) (pos : nat) : nat :=
  match fuel with
  | S fuel => if (pos <? byte_len s) && negb (is_char_boundary s pos) then next_char_boundary fuel s (S pos) else pos
  | O => pos
  end.
Definition clamp_pos_to_char_boundary (pos : nat) (t : TextArea) : nat :=
  let pos := pos `min` len t in
  if is_char_boundary (text t) pos then pos
  else
    let prev := prev_char_boundary (text t) pos in
    let next := next_char_boundary (len t - pos) (text t) pos in
    if pos - prev <=? next - pos then prev else next.
Definition clamp_pos_to_nearest_boundary (pos : nat) (t : TextArea) : nat :=
  let pos := clamp_pos_to_char_boundary pos t in
  match find_element_containing pos t with
  | Some e =>
      if pos - elem_start e <=? elem_end e - pos then clamp_pos_to_char_boundary (elem_start e) t
      else clamp_pos_to_char_boundary (elem_end e) t
  | None => pos
  end.
(** Its body is the same. *)
Definition clamp_pos_for_insertion (pos : nat) (t : TextArea) : nat := clamp_pos_to_nearest_boundary pos t.

Definition expand_step (r : nat * nat) (e : TextElement) : nat * nat :=
  if (elem_start e <? r.2) && (r.1 <? elem_end e) then (r.1 `min` elem_start e, r.2 `max` elem_end e) else r.
(** The loop runs until a pass over the elements changes nothing. *)
Fixpoint expand_loop (fuel : nat) (elements : list TextElement) (r : nat * nat) : result Empty_set (nat * nat) :=
  match fuel with
  | O => Crash
  | S fuel => let r' := foldl expand_step r elements in if bool_decide (r' = r) then Ok r else expand_loop fuel elements r'
  end.
Definition expand_range_to_element_boundaries (r : nat * nat) (t : TextArea) : result Empty_set (nat * nat) :=
  expand_loop (S (length (element_list t))) (element_list t) r.

(** ** Edits *)

Definition shift_element (at_ stop inserted : nat) (diff : Z) (e : TextElement) : TextElement :=
  if elem_end e <=? at_ then e
  else if stop <=? elem_start e then
    {| elem_id := elem_id e; elem_start := shift_pos diff (elem_start e); elem_end := shift_pos diff (elem_end e); elem_name := elem_name e |}
  else
    {| elem_id := elem_id e; elem_start := at_ `min` elem_start e; elem_end := at_ + inserted `max` (elem_end e - stop); elem_name := elem_name e |}.
Definition shift_elements (at_ removed inserted : nat) (l : list TextElement) : list TextElement :=
  let stop := at_ + removed in
  let diff := (Z.of_nat inserted - Z.of_nat removed)%Z in
  shift_element at_ stop inserted diff <$> List.filter (λ e, negb ((at_ <=? elem_start e) && (elem_end e <=? stop))) l.
Definition update_elements_after_replace (start stop inserted_len : nat) (l : list TextElement) : list TextElement :=
  shift_elements start (stop - start) inserted_len l.

Definition insert_str_at (pos : nat) (s : str) (t : TextArea) : result Empty_set TextArea :=
  let pos := clamp_pos_for_insertion pos t in
  new_text ← expect (splice (text t) pos pos s);
  let cursor := if pos <=? cursor_pos t then cursor_pos t + byte_len s else cursor_pos t in
  Ok (with_elements (shift_elements pos 0 (byte_len s) (element_list t)) (with_cursor cursor (with_text new_text t))).
Definition insert_str (s : str) (t : TextArea) : result Empty_set TextArea := insert_str_at (cursor_pos t) s t.

(** Where the cursor goes when [start..stop] is replaced. *)
Definition cursor_after (start stop inserted_len : nat) (diff : Z) (cursor : nat) : nat :=
  if cursor <? start then cursor else if cursor <=? stop then start + inserted_len else shift_pos diff cursor.
Definition replace_range_raw (r : nat * nat) (s : str) (t : TextArea) : result Empty_set TextArea :=
  if negb (r.1 <=? r.2) then Crash
  else
    let start := r.1 `min` len t in
    let stop := r.2 `min` len t in
    let removed_len := stop - start in
    let inserted_len := byte_len s in
    if (removed_len =? 0) && (inserted_len =? 0) then Ok t
    else
      let diff := (Z.of_nat inserted_len - Z.of_nat removed_len)%Z in
      new_text ← expect (splice (text t) r.1 r.2 s);
      let t1 := with_elements (update_elements_after_replace start stop inserted_len (element_list t)) (with_text new_text t) in
      let cursor := cursor_after start stop inserted_len diff (cursor_pos t1) `min` len t1 in
      Ok (with_cursor (clamp_pos_to_nearest_boundary cursor t1) t1).
Definition replace_range (r : nat * nat) (s : str) (t : TextArea) : result Empty_set TextArea :=
  r ← expand_range_to_element_boundaries r t; replace_range_raw r s t.

Definition cursor (t : TextArea) : nat := cursor_pos t.
Definition set_cursor (pos : nat) (t : TextArea) : TextArea :=
  with_preferred_col None (with_cursor (clamp_pos_to_nearest_boundary (pos `min` len t) t) t).
Definition is_empty (t : TextArea) : bool := bool_decide (text t = []).

(** ** Elements *)

Definition take_element_id (t : TextArea) : N * TextArea :=
  (next_element_id t,
   {| text := text t; cursor_pos := cursor_pos t; wrap_cache := wrap_cache t; preferred_col := preferred_col t;
      element_list := element_list t; next_element_id := N.min (next_element_id t + 1) (2 ^ 64 - 1); kill_buffer := kill_buffer t |}).
(** [sort_by_key(|e| e.range.start)], a stable sort. *)
Fixpoint insert_by_start (e : TextElement) (l : list TextElement) : list TextElement :=
  match l with [] => [e] | d :: l' => if elem_start e <=? elem_start d then e :: l else d :: insert_by_start e l' end.
Definition sort_by_start (l : list TextElement) : list TextElement := foldr insert_by_start [] l.
Definition add_element_with_id (start stop : nat) (name : option str) (t : TextArea) : TextArea * N :=
  let '(id, t) := take_element_id t in
  let e := {| elem_id := id; elem_start := start; elem_end := stop; elem_name := name |} in
  (with_elements (sort_by_start (element_list t ++ [e])) t, id).
Definition add_element (start stop : nat) (t : TextArea) : TextArea * N := add_element_with_id start stop None t.

Definition element_payloads (t : TextArea) : list str :=
  omap (λ e, slice (text t) (elem_start e) (elem_end e)) (element_list t).
(** [UserTextElement]s: byte range and placeholder. *)
Definition text_elements (t : TextArea) : list ((nat * nat) * option str) :=
  (λ e, ((elem_start e, elem_end e), slice (text t) (elem_start e) (elem_end e))) <$> element_list t.
Definition text_element_snapshots (t : TextArea) : list TextElementSnapshot :=
  omap (λ e, s ← slice (text t) (elem_start e) (elem_end e);
             Some {| snapshot_id := elem_id e; snapshot_start := elem_start e; snapshot_end := elem_end e; snapshot_text := s |})
    (element_list t).
Definition has_range (start stop : nat) (e : TextElement) : bool := (elem_start e =? start) && (elem_end e =? stop).
Definition element_id_for_exact_range (r : nat * nat) (t : TextArea) : option N :=
  elem_id <$> List.find (has_range r.1 r.2) (element_list t).

Definition insert_element (s : str) (t : TextArea) : result Empty_set (TextArea * N) :=
  let start := clamp_pos_for_insertion (cursor_pos t) t in
  t ← insert_str_at start s t;
  let stop := start + byte_len s in
  let '(t, id) := add_element start stop t in
  Ok (set_cursor stop t, id).
Definition insert_named_element (s id : str) (t : TextArea) : result Empty_set TextArea :=
  let start := clamp_pos_for_insertion (cursor_pos t) t in
  t ← insert_str_at start s t;
  let stop := start + byte_len s in
  Ok (set_cursor stop (add_element_with_id start stop (Some id) t).1).
Definition has_name (id : str) (e : TextElement) : bool := bool_decide (elem_name e = Some id).
Definition replace_element_by_id (id s : str) (t : TextArea) : result Empty_set (TextArea * bool) :=
  match List.find (has_name id) (element_list t) with
  | Some e =>
      t ← replace_range_raw (elem_start e, elem_end e) s t;
      Ok (with_elements (List.filter (λ e, negb (has_name id e)) (element_list t)) t, true)
  | None => Ok (t, false)
  end.
Definition update_named_element_by_id (id s : str) (t : TextArea) : result Empty_set (TextArea * bool) :=
  match List.find (has_name id) (element_list t) with
  | Some e =>
      t ← replace_range_raw (elem_start e, elem_end e) s t;
      Ok ((add_element_with_id (elem_start e) (elem_start e + byte_len s) (Some id) t).1, true)
  | None => Ok (t, false)
  end.
Definition named_element_range (id : str) (t : TextArea) : option (nat * nat) :=
  (λ e, (elem_start e, elem_end e)) <$> List.find (has_name id) (element_list t).

Definition add_element_range (r : nat * nat) (t : TextArea) : TextArea * option N :=
  let start := clamp_pos_to_char_boundary (r.1 `min` len t) t in
  let stop := clamp_pos_to_char_boundary (r.2 `min` len t) t in
  if stop <=? start then (t, None)
  else if existsb (has_range start stop) (element_list t) then (t, None)
  else if existsb (λ e, (start <? elem_end e) && (elem_start e <? stop)) (element_list t) then (t, None)
  else let '(t, id) := add_element start stop t in (t, Some id).
Definition remove_element_range (r : nat * nat) (t : TextArea) : TextArea * bool :=
  let start := clamp_pos_to_char_boundary (r.1 `min` len t) t in
  let stop := clamp_pos_to_char_boundary (r.2 `min` len t) t in
  if stop <=? start then (t, false)
  else
    let l := List.filter (λ e, negb (has_range start stop e)) (element_list t) in
    (with_elements l t, negb (length (element_list t) =? length l)).

(** The ranges of the other elements when the one at [idx] is replaced. *)
Definition shift_other (idx start stop inserted_len : nat) (diff : Z) (j : nat) (e : TextElement) : TextElement :=
  if j =? idx then {| elem_id := elem_id e; elem_start := start; elem_end := start + inserted_len; elem_name := elem_name e |}
  else if (diff =? 0)%Z || (elem_end e <=? start) then e
  else if stop <=? elem_start e then
    {| elem_id := elem_id e; elem_start := shift_pos diff (elem_start e); elem_end := shift_pos diff (elem_end e); elem_name := elem_name e |}
  else
    {| elem_id := elem_id e; elem_start := start `min` elem_start e; elem_end := (start + inserted_len) `max` shift_pos diff (elem_end e);
       elem_name := elem_name e |}.
Definition replace_element_payload (old new : str) (t : TextArea) : result Empty_set (TextArea * bool) :=
  match list_find (λ e, slice (text t) (elem_start e) (elem_end e) = Some old) (element_list t) with
  | None => Ok (t, false)
  | Some (idx, e) =>
      let start := elem_start e in
      let stop := elem_end e in
      if (stop <? start) || (len t <? stop) then Ok (t, false)
      else
        let inserted_len := byte_len new in
        let diff := (Z.of_nat inserted_len - Z.of_nat (stop - start))%Z in
        new_text ← expect (splice (text t) start stop new);
        let shifted := imap (shift_other idx start stop inserted_len diff) (element_list t) in
        let t1 := with_elements shifted (with_text new_text t) in
        let cursor := cursor_after start stop inserted_len diff (cursor_pos t1) in
        Ok (with_elements (sort_by_start shifted) (with_cursor (clamp_pos_to_nearest_boundary cursor t1) t1), true)
  end.

(** [set_text_clearing_elements] and [set_text_with_elements]; the elements are
    byte ranges. *)
Definition add_given_element (t : TextArea) (r : nat * nat) : TextArea :=
  let start := clamp_pos_to_char_boundary (r.1 `min` len t) t in
  let stop := clamp_pos_to_char_boundary (r.2 `min` len t) t in
  if stop <=? start then t
  else
    let '(id, t) := take_element_id t in
    with_elements (element_list t ++ [{| elem_id := id; elem_start := start; elem_end := stop; elem_name := None |}]) t.
Definition set_text_inner (s : str) (elements : option (list (nat * nat))) (t : TextArea) : TextArea :=
  let t := {|
    text := s; cursor_pos := cursor_pos t `min` byte_len s; wrap_cache := wrap_cache t; preferred_col := preferred_col t;
    element_list := []; next_element_id := next_element_id t; kill_buffer := kill_buffer t |} in
  let t :=
    match elements with
    | Some elements => let t := foldl add_given_element t elements in with_elements (sort_by_start (element_list t)) t
    | None => t
    end in
  with_preferred_col None (with_cache None (with_cursor (clamp_pos_to_nearest_boundary (cursor_pos t) t) t)).
Definition set_text_clearing_elements (s : str) (t : TextArea) : TextArea := set_text_inner s None t.
Definition set_text_with_elements (s : str) (elements : list (nat * nat)) (t : TextArea) : TextArea := set_text_inner s (Some elements) t.

(** ** Lines and words *)

Definition beginning_of_line (pos : nat) (t : TextArea) : result Empty_set nat :=
  before ← expect (slice (text t) 0 pos);
  Ok match rfind_char is_newline before with Some (i, _) => i + 1 | None => 0 end.
Definition beginning_of_current_line (t : TextArea) : result Empty_set nat := beginning_of_line (cursor_pos t) t.
Definition end_of_line (pos : nat) (t : TextArea) : result Empty_set nat :=
  after ← expect (suffix_at (text t) pos);
  Ok match find_char is_newline after with Some i => i + pos | None => len t end.
Definition end_of_current_line (t : TextArea) : result Empty_set nat := end_of_line (cursor_pos t) t.

Definition WORD_SEPARATORS : str := lit "`~!@#$%^&*()-=+[{]}\|;:'" ++ [DQUOTE] ++ lit ",.<>/?".
Definition is_word_separator (c : char) : bool := contains_char WORD_SEPARATORS c.

Definition adjust_pos_out_of_elements (pos : nat) (prefer_start : bool) (t : TextArea) : nat :=
  match find_element_containing pos t with
  | Some e => if prefer_start then elem_start e else elem_end e
  | None => pos
  end.

(** The build: for Windows or not. *)
Class Target : Type := windows : bool.

Section Libraries.
Context `{Target} `{TextLibraries}.

(** A segment is cut where separators begin or end: [piece] is the text from
    [piece_start] to [idx]. *)
Fixpoint segment_pieces (segment_start piece_start : nat) (piece : str) (in_separator : bool) (idx : nat) (rest : str)
    : list (nat * str) :=
  match rest with
  | [] => [(segment_start + piece_start, piece)]
  | ch :: rest =>
      if Bool.eqb (is_word_separator ch) in_separator
      then segment_pieces segment_start piece_start (piece ++ [ch]) in_separator (idx + len_utf8 ch) rest
      else (segment_start + piece_start, piece)
           :: segment_pieces segment_start idx [ch] (is_word_separator ch) (idx + len_utf8 ch) rest
  end.
Definition split_word_pieces (run : str) : list (nat * str) :=
  split_word_bound_indices run ≫= λ '(segment_start, segment),
    match segment with
    | [] => []
    | first_char :: rest => segment_pieces segment_start 0 [first_char] (is_word_separator first_char) (len_utf8 first_char) rest
    end.

(** The pieces made of separators that [pieces] begins with, the last one seen
    being [last]. *)
Fixpoint skip_separators (last : nat * str) (pieces : list (nat * str)) : nat * str :=
  match pieces with
  | (idx, piece) :: pieces => if forallb is_word_separator piece then skip_separators (idx, piece) pieces else last
  | [] => last
  end.
Definition edge_piece (first : nat * str) (rest : list (nat * str)) : nat * str :=
  if forallb is_word_separator first.2 then skip_separators first rest else first.
Definition beginning_of_previous_word (t : TextArea) : result Empty_set nat :=
  prefix ← expect (slice (text t) 0 (cursor_pos t));
  match rfind_char (λ c, negb (is_whitespace c)) prefix with
  | None => Ok 0
  | Some (first_non_ws_idx, ch) =>
      before ← expect (slice prefix 0 first_non_ws_idx);
      let run_start := match rfind_char is_whitespace before with Some (idx, ch) => idx + len_utf8 ch | None => 0 end in
      let run_end := first_non_ws_idx + len_utf8 ch in
      run ← expect (slice prefix run_start run_end);
      match reverse (split_word_pieces run) with
      | [] => Ok run_start
      | first :: rest => Ok (adjust_pos_out_of_elements (run_start + (edge_piece first rest).1) true t)
      end
  end.
Definition end_of_next_word (t : TextArea) : result Empty_set nat :=
  suffix ← expect (suffix_at (text t) (cursor_pos t));
  match find_char (λ c, negb (is_whitespace c)) suffix with
  | None => Ok (len t)
  | Some first_non_ws =>
      run ← expect (suffix_at suffix first_non_ws);
      run ← expect (slice run 0 (default (byte_len run) (find_char is_whitespace run)));
      match split_word_pieces run with
      | [] => Ok (cursor_pos t + first_non_ws)
      | first :: rest =>
          let '(idx, piece) := edge_piece first rest in
          Ok (adjust_pos_out_of_elements (cursor_pos t + first_non_ws + idx + byte_len piece) false t)
      end
  end.

(** ** Graphemes *)

Definition prev_atomic_boundary (pos : nat) (t : TextArea) : nat :=
  if pos =? 0 then 0
  else
    match List.find (λ e, (elem_start e <? pos) && (pos <=? elem_end e)) (element_list t) with
    | Some e => elem_start e
    | None =>
        match grapheme_prev_boundary (text t) pos with
        | Some (Some b) => match find_element_containing b t with Some e => elem_start e | None => b end
        | Some None => 0
        | None => pos - 1
        end
    end.
Definition next_atomic_boundary (pos : nat) (t : TextArea) : nat :=
  if len t <=? pos then len t
  else
    match List.find (λ e, (elem_start e <=? pos) && (pos <? elem_end e)) (element_list t) with
    | Some e => elem_end e
    | None =>
        match grapheme_next_boundary (text t) pos with
        | Some (Some b) => match find_element_containing b t with Some e => elem_end e | None => b end
        | Some None => len t
        | None => pos + 1
        end
    end.

(** [for _ in 0..n], left when the edge of the text is reached. *)
Fixpoint back_times (n target : nat) (t : TextArea) : nat :=
  match n with
  | O => target
  | S n => let target := prev_atomic_boundary target t in if target =? 0 then target else back_times n target t
  end.
Fixpoint forward_times (n target : nat) (t : TextArea) : nat :=
  match n with
  | O => target
  | S n => let target := next_atomic_boundary target t in if len t <=? target then target else forward_times n target t
  end.
Definition delete_backward (n : nat) (t : TextArea) : result Empty_set TextArea :=
  if (n =? 0) || (cursor_pos t =? 0) then Ok t else replace_range (back_times n (cursor_pos t) t, cursor_pos t) [] t.
Definition delete_forward (n : nat) (t : TextArea) : result Empty_set TextArea :=
  if (n =? 0) || (len t <=? cursor_pos t) then Ok t else replace_range (cursor_pos t, forward_times n (cursor_pos t) t) [] t.

(** ** The kill buffer *)

Definition kill_range (r : nat * nat) (t : TextArea) : result Empty_set TextArea :=
  r ← expand_range_to_element_boundaries r t;
  if r.2 <=? r.1 then Ok t
  else
    removed ← expect (slice (text t) r.1 r.2);
    if bool_decide (removed = []) then Ok t else replace_range_raw r [] (with_kill_buffer removed t).
Definition delete_backward_word (t : TextArea) : result Empty_set TextArea :=
  start ← beginning_of_previous_word t; kill_range (start, cursor_pos t) t.
Definition delete_forward_word (t : TextArea) : result Empty_set TextArea :=
  stop ← end_of_next_word t; if cursor_pos t <? stop then kill_range (cursor_pos t, stop) t else Ok t.
Definition kill_to_end_of_line (t : TextArea) : result Empty_set TextArea :=
  eol ← end_of_current_line t;
  if cursor_pos t =? eol then if eol <? len t then kill_range (cursor_pos t, eol + 1) t else Ok t
  else kill_range (cursor_pos t, eol) t.
Definition kill_to_beginning_of_line (t : TextArea) : result Empty_set TextArea :=
  bol ← beginning_of_current_line t;
  if cursor_pos t =? bol then if 0 <? bol then kill_range (bol - 1, bol) t else Ok t
  else kill_range (bol, cursor_pos t) t.
Definition yank (t : TextArea) : result Empty_set TextArea :=
  if bool_decide (kill_buffer t = []) then Ok t else insert_str (kill_buffer t) t.

(** ** Wrapped lines *)

Fixpoint leading_spaces (s : str) : nat := match s with c :: s' => if (c =? SPACE)%N then S (leading_spaces s') else 0 | [] => 0 end.
Definition is_space (c : char) : bool := (c =? SPACE)%N.
(** The source bytes that the characters of an owned line stand for. *)
Fixpoint map_chars (text : str) (wrapped : str) (stop : nat) (saw_source_char : bool) : result Empty_set nat :=
  match wrapped with
  | [] => Ok stop
  | ch :: wrapped =>
      src ← (if stop <? byte_len text then rest ← expect (suffix_at text stop); Ok (head rest) else Ok None);
      match src with
      | Some src =>
          if (ch =? src)%N then map_chars text wrapped (stop + len_utf8 src) true
          else if bool_decide (ch = 45%N) && bool_decide (wrapped = []) then map_chars text wrapped stop saw_source_char
          else if negb saw_source_char then map_chars text wrapped stop saw_source_char else Ok stop
      | None =>
          if bool_decide (ch = 45%N) && bool_decide (wrapped = []) then map_chars text wrapped stop saw_source_char
          else if negb saw_source_char then map_chars text wrapped stop saw_source_char else Ok stop
      end
  end.
(** Without a prefix, since the lines are not indented. *)
Definition map_owned_wrapped_line_to_range (text : str) (cursor : nat) (wrapped : str) : result Empty_set (nat * nat) :=
  start ← (if (cursor <? byte_len text) && negb (starts_with wrapped [SPACE])
           then rest ← expect (suffix_at text cursor); Ok (cursor + leading_spaces rest) else Ok cursor);
  stop ← map_chars text wrapped start false;
  Ok (start, stop).
Fixpoint wrap_loop (text : str) (cursor : nat) (wrapped : list WrappedLine) : result Empty_set (list (nat * nat)) :=
  match wrapped with
  | [] => Ok []
  | line :: wrapped =>
      mapped ← match line with
               | Borrowed start stop => Ok (start, stop)
               | Owned slice => map_owned_wrapped_line_to_range text cursor slice
               end;
      rest ← expect (suffix_at text mapped.2);
      let stop := mapped.2 + leading_spaces rest in
      lines ← wrap_loop text stop wrapped;
      Ok ((mapped.1, stop + 1) :: lines)
  end.
Definition wrap_ranges (text : str) (width : N) : result Empty_set (list (nat * nat)) := wrap_loop text 0 (textwrap_wrap text width).
Definition wrapped_lines (width : N) (t : TextArea) : result Empty_set (TextArea * list (nat * nat)) :=
  match wrap_cache t with
  | Some c => if (cache_width c =? width)%N then Ok (t, cache_lines c)
              else lines ← wrap_ranges (text t) width;
                   Ok (with_cache (Some {| cache_width := width; cache_lines := lines |}) t, lines)
  | None => lines ← wrap_ranges (text t) width;
            Ok (with_cache (Some {| cache_width := width; cache_lines := lines |}) t, lines)
  end.

(** [partition_point(|r| r.start <= pos)] of lines in order. *)
Fixpoint lines_up_to (pos : nat) (lines : list (nat * nat)) : nat :=
  match lines with r :: lines => if r.1 <=? pos then S (lines_up_to pos lines) else 0 | [] => 0 end.
Definition wrapped_line_index_by_start (lines : list (nat * nat)) (pos : nat) : option nat :=
  match lines_up_to pos lines with O => None | S i => Some i end.

(** ** Moving the cursor *)

Definition current_display_col (t : TextArea) : result Empty_set nat :=
  bol ← beginning_of_current_line t; line ← expect (slice (text t) bol (cursor_pos t)); Ok (display_width line).
(** The offset of the first grapheme that reaches beyond [target_col]. *)
Fixpoint offset_of_col (width_so_far target_col : nat) (graphemes : list (nat * str)) : option nat :=
  match graphemes with
  | (i, g) :: graphemes =>
      let width_so_far := width_so_far + display_width g in
      if target_col <? width_so_far then Some i else offset_of_col width_so_far target_col graphemes
  | [] => None
  end.
Definition move_to_display_col_on_line (line_start line_end target_col : nat) (t : TextArea) : result Empty_set TextArea :=
  line ← expect (slice (text t) line_start line_end);
  let pos := match offset_of_col 0 target_col (grapheme_indices line) with Some i => line_start + i | None => line_end end in
  Ok (with_cursor (clamp_pos_to_nearest_boundary pos t) t).

Definition move_cursor_left (t : TextArea) : TextArea :=
  with_preferred_col None (with_cursor (prev_atomic_boundary (cursor_pos t) t) t).
Definition move_cursor_right (t : TextArea) : TextArea :=
  with_preferred_col None (with_cursor (next_atomic_boundary (cursor_pos t) t) t).

(** The wrapped lines that are known, with the index of the cursor's. *)
Definition current_wrapped_line (t : TextArea) : option (list (nat * nat) * nat) :=
  c ← wrap_cache t; idx ← wrapped_line_index_by_start (cache_lines c) (cursor_pos t); Some (cache_lines c, idx).
Definition target_col_on (cur_range : nat * nat) (t : TextArea) : result Empty_set nat :=
  match preferred_col t with
  | Some c => Ok c
  | None => line ← expect (slice (text t) cur_range.1 (cursor_pos t)); Ok (display_width line)
  end.
Definition target_col_of_line (t : TextArea) : result Empty_set nat :=
  match preferred_col t with Some c => Ok c | None => current_display_col t end.
Definition go_to (pos : nat) (t : TextArea) : TextArea := with_preferred_col None (with_cursor pos t).

Definition move_cursor_up (t : TextArea) : result Empty_set TextArea :=
  match current_wrapped_line t with
  | Some (lines, idx) =>
      cur_range ← expect (lines !! idx);
      target_col ← target_col_on cur_range t;
      match idx with
      | S i =>
          prev ← expect (lines !! i);
          move_to_display_col_on_line prev.1 (prev.2 - 1) target_col (with_preferred_col (Some target_col) t)
      | O => Ok (go_to 0 t)
      end
  | None =>
      before ← expect (slice (text t) 0 (cursor_pos t));
      match rfind_char is_newline before with
      | Some (prev_nl, _) =>
          target_col ← target_col_of_line t;
          prev_line_start ← beginning_of_line prev_nl t;
          move_to_display_col_on_line prev_line_start prev_nl target_col (with_preferred_col (Some target_col) t)
      | None => Ok (go_to 0 t)
      end
  end.
Definition move_cursor_down (t : TextArea) : result Empty_set TextArea :=
  match current_wrapped_line t with
  | Some (lines, idx) =>
      cur_range ← expect (lines !! idx);
      target_col ← target_col_on cur_range t;
      match lines !! (idx + 1) with
      | Some next => move_to_display_col_on_line next.1 (next.2 - 1) target_col (with_preferred_col (Some target_col) t)
      | None => Ok (go_to (len t) t)
      end
  | None =>
      target_col ← target_col_of_line t;
      after ← expect (suffix_at (text t) (cursor_pos t));
      match find_char is_newline after with
      | Some i =>
          let next_line_start := i + cursor_pos t + 1 in
          next_line_end ← end_of_line next_line_start t;
          move_to_display_col_on_line next_line_start next_line_end target_col (with_preferred_col (Some target_col) t)
      | None => Ok (go_to (len t) t)
      end
  end.
Definition move_cursor_to_beginning_of_line (move_up_at_bol : bool) (t : TextArea) : result Empty_set TextArea :=
  bol ← beginning_of_current_line t;
  if move_up_at_bol && (cursor_pos t =? bol)
  then pos ← beginning_of_line (cursor_pos t - 1) t; Ok (set_cursor pos t)
  else Ok (set_cursor bol t).
Definition move_cursor_to_end_of_line (move_down_at_eol : bool) (t : TextArea) : result Empty_set TextArea :=
  eol ← end_of_current_line t;
  if move_down_at_eol && (cursor_pos t =? eol)
  then pos ← end_of_line ((cursor_pos t + 1) `min` len t) t; Ok (set_cursor pos t)
  else Ok (set_cursor eol t).

(** ** Keys *)

(** The keys that the text area knows; [KeyModifiers] is a set of bits. *)
Inductive KeyCode : Type := Char (c : char) | Enter | Backspace | Delete | Left | Right | Up | Down | Home | End | OtherKey.
Inductive KeyEventKind : Type := Press | Repeat | Release.
Definition NONE : N := 0.
Definition SHIFT : N := 1.
Definition CONTROL : N := 2.
Definition ALT : N := 4.
Record KeyEvent : Type := { code : KeyCode; modifiers : N; kind : KeyEventKind }.
(** [AltGr] arrives as [Ctrl] and [Alt] on Windows. *)
Definition is_altgr (mods : N) : bool := windows && negb (N.land mods ALT =? 0)%N && negb (N.land mods CONTROL =? 0)%N.
Definition ascii (s : string) : char := default 0%N (head (lit s)).

Definition input_char (c : char) (modifiers : N) (t : TextArea) : result Empty_set TextArea :=
  let on (key : string) (m : N) : bool := (c =? ascii key)%N && (modifiers =? m)%N in
  if (modifiers =? NONE)%N && (c =? 2)%N then Ok (move_cursor_left t)
  else if (modifiers =? NONE)%N && (c =? 6)%N then Ok (move_cursor_right t)
  else if (modifiers =? NONE)%N && (c =? 16)%N then move_cursor_up t
  else if (modifiers =? NONE)%N && (c =? 14)%N then move_cursor_down t
  else if (modifiers =? NONE)%N || (modifiers =? SHIFT)%N then insert_str [c] t
  else if on "j" CONTROL || on "m" CONTROL then insert_str [NL] t
  else if on "h" (N.lor CONTROL ALT) then delete_backward_word t
  else if is_altgr modifiers then insert_str [c] t
  else if on "h" CONTROL then delete_backward 1 t
  else if on "d" ALT then delete_forward_word t
  else if on "d" CONTROL then delete_forward 1 t
  else if on "w" CONTROL then delete_backward_word t
  else if on "b" ALT then pos ← beginning_of_previous_word t; Ok (set_cursor pos t)
  else if on "f" ALT then pos ← end_of_next_word t; Ok (set_cursor pos t)
  else if on "u" CONTROL then kill_to_beginning_of_line t
  else if on "k" CONTROL then kill_to_end_of_line t
  else if on "y" CONTROL then yank t
  else if on "b" CONTROL then Ok (move_cursor_left t)
  else if on "f" CONTROL then Ok (move_cursor_right t)
  else if on "p" CONTROL then move_cursor_up t
  else if on "n" CONTROL then move_cursor_down t
  else if on "a" CONTROL then move_cursor_to_beginning_of_line true t
  else if on "e" CONTROL then move_cursor_to_end_of_line true t
  else Ok t.
Definition input (event : KeyEvent) (t : TextArea) : result Empty_set TextArea :=
  match kind event with
  | Release => Ok t
  | Press | Repeat =>
      let mods := modifiers event in
      match code event with
      | Char c => input_char c mods t
      | Enter => insert_str [NL] t
      | Backspace => if (mods =? ALT)%N then delete_backward_word t else delete_backward 1 t
      | Delete => if (mods =? ALT)%N then delete_forward_word t else delete_forward 1 t
      | Left =>
          if (mods =? NONE)%N then Ok (move_cursor_left t)
          else if (mods =? ALT)%N || (mods =? CONTROL)%N then pos ← beginning_of_previous_word t; Ok (set_cursor pos t) else Ok t
      | Right =>
          if (mods =? NONE)%N then Ok (move_cursor_right t)
          else if (mods =? ALT)%N || (mods =? CONTROL)%N then pos ← end_of_next_word t; Ok (set_cursor pos t) else Ok t
      | Up => move_cursor_up t
      | Down => move_cursor_down t
      | Home => move_cursor_to_beginning_of_line false t
      | End => move_cursor_to_end_of_line false t
      | OtherKey => Ok t
      end
  end.

(** ** What is shown *)

Definition num_lines (lines : list (nat * nat)) : N := u16 (N.of_nat (length lines)).
Definition desired_height (width : N) (t : TextArea) : result Empty_set (TextArea * N) :=
  '(t, lines) ← wrapped_lines width t; Ok (t, num_lines lines).
Definition effective_scroll (area_height : N) (lines : list (nat * nat)) (current_scroll : N) (t : TextArea) : N :=
  let total_lines := num_lines lines in
  if (total_lines <=? area_height)%N then 0%N
  else
    let cursor_line_idx := u16 (N.of_nat (default 0 (wrapped_line_index_by_start lines (cursor_pos t)))) in
    let max_scroll := (total_lines - area_height)%N in
    let scroll := N.min current_scroll max_scroll in
    if (cursor_line_idx <? scroll)%N then cursor_line_idx
    else if (u16 (scroll + area_height) <=? cursor_line_idx)%N then u16 (cursor_line_idx + 1 - area_height)
    else scroll.
Record Rect : Type := { rect_x : N; rect_y : N; rect_width : N; rect_height : N }.
Definition cursor_pos_with_state (area : Rect) (scroll : N) (t : TextArea) : result Empty_set (TextArea * option (N * N)) :=
  '(t, lines) ← wrapped_lines (rect_width area) t;
  let effective := effective_scroll (rect_height area) lines scroll t in
  match wrapped_line_index_by_start lines (cursor_pos t) with
  | None => Ok (t, None)
  | Some i =>
      ls ← expect (lines !! i);
      line ← expect (slice (text t) ls.1 (cursor_pos t));
      let col := u16 (N.of_nat (display_width line)) in
      let row := (N.of_nat i - effective)%N in
      let screen_row := if (row <? 65536)%N then row else 0%N in
      Ok (t, Some (u16 (rect_x area + col), u16 (rect_y area + screen_row)))
  end.
(** The new scroll offset, and the lines that are drawn. *)
Definition render_ref (area : Rect) (scroll : N) (t : TextArea) : result Empty_set (TextArea * N * (N * N)) :=
  '(t, lines) ← wrapped_lines (rect_width area) t;
  let scroll := effective_scroll (rect_height area) lines scroll t in
  Ok (t, scroll, (scroll, N.min (u16 (scroll + rect_height area)) (num_lines lines))).
End Libraries.
End TextArea.
