(* ===== verification/TextAreaFacts.v ===== *)
(** * Facts about the text area

    Byte positions as prefixes of a string, the invariant of the text area, and
    what edits do to its elements. *)
From S2P Require Import Prelude Str TextArea.
Import TextArea.

Module TextAreaFacts.

(** ** Byte positions *)

Lemma len_utf8_pos c : 1 ≤ len_utf8 c.
Proof. unfold len_utf8. repeat case_match; lia. Qed.
Lemma byte_len_app s s' : byte_len (s ++ s') = byte_len s + byte_len s'.
Proof. induction s as [|c s IH]; simpl; lia. Qed.
Lemma byte_len_0 s : byte_len s = 0 → s = [].
Proof. destruct s as [|c s]; [done|]. simpl. pose proof (len_utf8_pos c). lia. Qed.

Lemma split_bytes_Some s n a b : split_bytes s n = Some (a, b) ↔ s = a ++ b ∧ byte_len a = n.
Proof.
  split.
  - revert n a b. induction s as [|c s IH]; intros n a b Hs; simpl in Hs.
    + destruct (Nat.eqb_spec n 0); [|done]. by injection Hs as <- <-.
    + destruct (Nat.eqb_spec n 0); [by injection Hs as <- <-|]. destruct (Nat.leb_spec (len_utf8 c) n); [|done].
      destruct (split_bytes s (n - len_utf8 c)) as [[a' b']|] eqn:E; [|done]. injection Hs as <- <-.
      apply IH in E as [-> Hl]. simpl. split; [done|lia].
  - intros [-> <-]. induction a as [|c a IH].
    + by destruct b.
    + simpl. pose proof (len_utf8_pos c). destruct (Nat.eqb_spec (len_utf8 c + byte_len a) 0); [lia|].
      destruct (Nat.leb_spec (len_utf8 c) (len_utf8 c + byte_len a)); [|lia].
      replace (len_utf8 c + byte_len a - len_utf8 c) with (byte_len a) by lia. by rewrite IH.
Qed.

(** A position between two characters. *)
Definition boundary (s : str) (n : nat) : Prop := ∃ a b, s = a ++ b ∧ byte_len a = n.
Lemma is_char_boundary_spec s n : is_char_boundary s n = true ↔ boundary s n.
Proof.
  unfold is_char_boundary, boundary. split.
  - destruct (split_bytes s n) as [[a b]|] eqn:E; [|done]. apply split_bytes_Some in E. eauto.
  - intros (a & b & Hs). apply split_bytes_Some in Hs. by rewrite Hs.
Qed.
Lemma is_char_boundary_false s n : is_char_boundary s n = false ↔ ¬ boundary s n.
Proof. rewrite <- is_char_boundary_spec. by destruct (is_char_boundary s n). Qed.
Lemma boundary_0 s : boundary s 0.
Proof. by exists [], s. Qed.
Lemma boundary_len s : boundary s (byte_len s).
Proof. exists s, []. by rewrite app_nil_r. Qed.
Lemma boundary_le s n : boundary s n → n ≤ byte_len s.
Proof. intros (a & b & -> & <-). rewrite byte_len_app. lia. Qed.
Lemma boundary_app s s' n : boundary s n → boundary (s ++ s') n.
Proof. intros (a & b & -> & <-). exists a, (b ++ s'). by rewrite (assoc_L (++)). Qed.
Lemma boundary_app_r s s' n : boundary s' n → boundary (s ++ s') (byte_len s + n).
Proof. intros (a & b & -> & <-). exists (s ++ a), b. by rewrite (assoc_L (++)), byte_len_app. Qed.

(** Prefixes of one string are ordered by their lengths. *)
Lemma prefix_le (a b a' b' : str) : a ++ b = a' ++ b' → byte_len a ≤ byte_len a' → ∃ m, a' = a ++ m ∧ b = m ++ b'.
Proof.
  revert a'. induction a as [|c a IH]; intros a' Heq Hle; [by exists a'|].
  destruct a' as [|c' a']; simpl in *; [pose proof (len_utf8_pos c); lia|]. injection Heq as <- Heq.
  destruct (IH a' Heq) as (m & -> & ->); [lia|]. by exists m.
Qed.
Lemma prefix_eq (a b a' b' : str) : a ++ b = a' ++ b' → byte_len a = byte_len a' → a = a' ∧ b = b'.
Proof.
  intros Heq Hl. destruct (prefix_le _ _ _ _ Heq) as (m & -> & ->); [lia|]. rewrite byte_len_app in Hl.
  assert (m = []) as -> by (apply byte_len_0; lia). by rewrite app_nil_r.
Qed.
(** Two positions cut a string in three. *)
Lemma boundaries_split s i j : boundary s i → boundary s j → i ≤ j →
  ∃ a m c, s = a ++ m ++ c ∧ byte_len a = i ∧ byte_len m = j - i.
Proof.
  intros (a & b & -> & <-) (a' & b' & Heq & <-) Hle. destruct (prefix_le _ _ _ _ Heq Hle) as (m & -> & ->).
  exists a, m, b'. rewrite byte_len_app. split_and!; [done..|lia].
Qed.
Lemma boundary_app_inv a b n : boundary (a ++ b) n → byte_len a ≤ n → boundary b (n - byte_len a).
Proof.
  intros (a' & b' & Heq & <-) Hle. destruct (prefix_le _ _ _ _ Heq Hle) as (m & -> & ->).
  exists m, b'. rewrite byte_len_app. split; [done|lia].
Qed.
Lemma boundary_app_inv_l a b n : boundary (a ++ b) n → n ≤ byte_len a → boundary a n.
Proof.
  intros (a' & b' & Heq & <-) Hle. symmetry in Heq. destruct (prefix_le _ _ _ _ Heq Hle) as (m & -> & ->). by exists a', m.
Qed.

Lemma slice_Some s i j m : slice s i j = Some m ↔ ∃ a c, s = a ++ m ++ c ∧ byte_len a = i ∧ i + byte_len m = j.
Proof.
  unfold slice. split.
  - destruct (Nat.leb_spec i j); [|done]. destruct (split_bytes s i) as [[a r]|] eqn:Ha; [|done]. simpl.
    destruct (split_bytes r (j - i)) as [[m' c]|] eqn:Hm; [|done]. simpl. intros [= ->].
    apply split_bytes_Some in Ha as [-> Ha], Hm as [-> Hm]. exists a, c. split_and!; [done..|lia].
  - intros (a & c & -> & <- & <-). destruct (Nat.leb_spec (byte_len a) (byte_len a + byte_len m)); [|lia].
    rewrite (proj2 (split_bytes_Some _ _ a (m ++ c))) by done. simpl.
    replace (byte_len a + byte_len m - byte_len a) with (byte_len m) by lia.
    by rewrite (proj2 (split_bytes_Some _ _ m c)).
Qed.
Lemma slice_boundaries s i j : boundary s i → boundary s j → i ≤ j → ∃ m, slice s i j = Some m.
Proof.
  intros Hi Hj Hle. destruct (boundaries_split s i j Hi Hj Hle) as (a & m & c & -> & <- & Hm). exists m.
  apply slice_Some. exists a, c. split_and!; [done..|lia].
Qed.
Lemma suffix_at_Some s i r : suffix_at s i = Some r ↔ ∃ a, s = a ++ r ∧ byte_len a = i.
Proof.
  unfold suffix_at. split.
  - destruct (split_bytes s i) as [[a r']|] eqn:Ha; [|done]. intros [= ->]. apply split_bytes_Some in Ha. eauto.
  - intros (a & Ha). apply split_bytes_Some in Ha. by rewrite Ha.
Qed.
Lemma suffix_at_boundary s i : boundary s i → ∃ a r, suffix_at s i = Some r ∧ s = a ++ r ∧ byte_len a = i.
Proof. intros (a & b & Hs). exists a, b. split; [|done]. apply suffix_at_Some. eauto. Qed.
Lemma splice_app a m c s : splice (a ++ m ++ c) (byte_len a) (byte_len a + byte_len m) s = Some (a ++ s ++ c).
Proof.
  unfold splice. destruct (Nat.leb_spec (byte_len a) (byte_len a + byte_len m)); [|lia].
  rewrite (proj2 (split_bytes_Some _ _ a (m ++ c))) by done. simpl.
  replace (byte_len a + byte_len m - byte_len a) with (byte_len m) by lia. by rewrite (proj2 (split_bytes_Some _ _ m c)).
Qed.

Lemma find_char_Some p s i : find_char p s = Some i → ∃ a c b, s = a ++ c :: b ∧ byte_len a = i ∧ p c = true ∧ Forall (λ d, p d = false) a.
Proof.
  revert i. induction s as [|d s IH]; intros i Hs; simpl in Hs; [done|]. destruct (p d) eqn:Hd.
  - injection Hs as <-. exists [], d, s. by split_and!.
  - destruct (find_char p s) as [k|]; [|done]. injection Hs as <-. destruct (IH k eq_refl) as (a & c & b & -> & <- & Hc & Ha).
    exists (d :: a), c, b. split_and!; [done..|]. by constructor.
Qed.
Lemma find_char_boundary p s i : find_char p s = Some i → boundary s i ∧ i < byte_len s.
Proof.
  intros (a & c & b & -> & <- & _)%find_char_Some. split; [by exists a, (c :: b)|]. rewrite byte_len_app. simpl.
  pose proof (len_utf8_pos c). lia.
Qed.
Lemma rfind_char_Some p s i c : rfind_char p s = Some (i, c) → ∃ a b, s = a ++ c :: b ∧ byte_len a = i ∧ p c = true.
Proof.
  revert i. induction s as [|d s IH]; intros i Hs; simpl in Hs; [done|]. destruct (rfind_char p s) as [[k d']|].
  - injection Hs as <- <-. destruct (IH k eq_refl) as (a & b & -> & <- & Hc). by exists (d :: a), b.
  - destruct (p d) eqn:Hd; [|done]. injection Hs as <- <-. by exists [], s.
Qed.
Lemma rfind_char_boundary p s i c : rfind_char p s = Some (i, c) → boundary s i ∧ boundary s (i + len_utf8 c).
Proof.
  intros (a & b & -> & <- & _)%rfind_char_Some. split; [by exists a, (c :: b)|]. exists (a ++ [c]), b.
  rewrite byte_len_app. simpl. rewrite <- (assoc_L (++)). split; [done|lia].
Qed.
Lemma is_newline_len c : is_newline c = true → len_utf8 c = 1.
Proof. unfold is_newline. intros ->%N.eqb_eq. done. Qed.

(** ** Clamping *)

Definition before (e d : TextElement) : Prop := elem_end e ≤ elem_start d.
Definition in_text (s : str) (e : TextElement) : Prop :=
  elem_start e < elem_end e ∧ boundary s (elem_start e) ∧ boundary s (elem_end e).
(** Elements in order, apart from each other, none of them empty. *)
Definition elements_ok (s : str) (l : list TextElement) : Prop := Forall (in_text s) l ∧ StronglySorted before l.
(** Not inside an element. *)
Definition outside (l : list TextElement) (pos : nat) : Prop := Forall (λ e, pos ≤ elem_start e ∨ elem_end e ≤ pos) l.

Lemma prev_char_boundary_spec s pos :
  boundary s (prev_char_boundary s pos) ∧ prev_char_boundary s pos ≤ pos
  ∧ ∀ b, boundary s b → b ≤ pos → b ≤ prev_char_boundary s pos.
Proof.
  induction pos as [|pos (IH1 & IH2 & IH3)]; cbn [prev_char_boundary]; [split_and!; [apply boundary_0|lia..]|].
  destruct (is_char_boundary s (S pos)) eqn:Hb.
  - apply is_char_boundary_spec in Hb. by split_and!.
  - apply is_char_boundary_false in Hb. split_and!; [done|lia|]. intros b Hs Hle. apply IH3; [done|].
    destruct (decide (b = S pos)) as [->|]; [done|lia].
Qed.
Lemma next_char_boundary_spec s fuel pos :
  byte_len s = pos + fuel →
  boundary s (next_char_boundary fuel s pos) ∧ pos ≤ next_char_boundary fuel s pos
  ∧ ∀ b, boundary s b → pos ≤ b → next_char_boundary fuel s pos ≤ b.
Proof.
  revert pos. induction fuel as [|fuel IH]; intros pos Hlen; cbn [next_char_boundary].
  - replace pos with (byte_len s) by lia. split_and!; [apply boundary_len|lia..].
  - destruct (Nat.ltb_spec pos (byte_len s)); [|lia]. destruct (is_char_boundary s pos) eqn:Hb; simpl.
    + apply is_char_boundary_spec in Hb. by split_and!.
    + apply is_char_boundary_false in Hb. destruct (IH (S pos)) as (H1 & H2 & H3); [lia|]. split_and!; [done|lia|].
      intros b Hs Hle. apply H3; [done|]. destruct (decide (b = pos)) as [->|]; [done|lia].
Qed.
(** The clamped position is a boundary: the closest one below, or the closest one above. *)
Lemma clamp_char_cases pos t :
  let p := clamp_pos_to_char_boundary pos t in
  boundary (text t) p
  ∧ (pos `min` len t = p
     ∨ ∃ lo hi, lo < pos < hi ∧ hi ≤ len t ∧ (p = lo ∧ pos - lo ≤ hi - pos ∨ p = hi ∧ hi - pos < pos - lo)
       ∧ ∀ b, boundary (text t) b → b ≤ lo ∨ hi ≤ b).
Proof.
  unfold clamp_pos_to_char_boundary. set (q := pos `min` len t). destruct (is_char_boundary (text t) q) eqn:Hb.
  - apply is_char_boundary_spec in Hb. eauto.
  - apply is_char_boundary_false in Hb.
    assert (Hq : q = pos ∧ pos < len t).
    { unfold q in *. destruct (decide (pos < len t)); [lia|]. destruct Hb. replace (pos `min` len t) with (byte_len (text t)) by (unfold len in *; lia).
      apply boundary_len. }
    destruct Hq as [Hq Hlt]. rewrite Hq in *. clear q Hq.
    destruct (prev_char_boundary_spec (text t) pos) as (P1 & P2 & P3).
    destruct (next_char_boundary_spec (text t) (len t - pos) pos) as (N1 & N2 & N3); [unfold len in *; lia|].
    set (lo := prev_char_boundary _ _) in *. set (hi := next_char_boundary _ _ _) in *.
    assert (lo ≠ pos ∧ hi ≠ pos) as [? ?] by (split; intros ->; done).
    assert (hi ≤ len t) by (apply boundary_le in N1; done).
    split; [by destruct (Nat.leb_spec (pos - lo) (hi - pos))|]. right. exists lo, hi.
    split_and!; [lia..| |].
    + destruct (Nat.leb_spec (pos - lo) (hi - pos)); [left|right]; done.
    + intros b Hs. destruct (decide (b ≤ pos)); [left; auto|right; apply N3; [done|lia]].
Qed.
Lemma clamp_char_boundary pos t : boundary (text t) (clamp_pos_to_char_boundary pos t).
Proof. apply clamp_char_cases. Qed.
Lemma clamp_char_id pos t : boundary (text t) pos → clamp_pos_to_char_boundary pos t = pos.
Proof.
  intros Hb. unfold clamp_pos_to_char_boundary. pose proof (boundary_le _ _ Hb). unfold len. rewrite Nat.min_l by done.
  by rewrite (proj2 (is_char_boundary_spec _ _)).
Qed.
Lemma clamp_char_mono i j t : i ≤ j → clamp_pos_to_char_boundary i t ≤ clamp_pos_to_char_boundary j t.
Proof.
  intros Hle. destruct (clamp_char_cases i t) as [Bi Hi], (clamp_char_cases j t) as [Bj Hj]. simpl in *.
  pose proof (boundary_le _ _ Bi). unfold len in *.
  destruct Hi as [Hi|(lo & hi & Hr & Hl & Hi & Hno)], Hj as [Hj|(lo' & hi' & Hr' & Hl' & Hj & Hno')]; [lia|..].
  - destruct (Hno' _ Bi), (Hno' _ Bj); lia.
  - destruct (Hno _ Bj), (Hno _ Bi); lia.
  - destruct (Hno _ Bj), (Hno' _ Bi), (Hno _ Bi), (Hno' _ Bj); lia.
Qed.

Lemma first_found_Some {A} (f : A → bool) l x : List.find f l = Some x → x ∈ l ∧ f x = true.
Proof. intros Hf. apply find_some in Hf as [Hin Hx]. by rewrite <- list_elem_of_In in Hin. Qed.
Lemma first_found_None {A} (f : A → bool) l : List.find f l = None → Forall (λ x, f x = false) l.
Proof. intros Hf. apply Forall_forall. intros x Hx. eapply find_none; [done|]. by apply list_elem_of_In. Qed.
Lemma find_containing_None t pos : find_element_containing pos t = None ↔ outside (element_list t) pos.
Proof.
  unfold find_element_containing, outside. split.
  - intros Hf%first_found_None. eapply Forall_impl; [exact Hf|]. intros e. cbv beta. rewrite andb_false_iff, !Nat.ltb_ge. lia.
  - intros Hout. destruct (List.find _ _) as [e|] eqn:Hf; [|done]. apply first_found_Some in Hf as [Hin He].
    rewrite Forall_forall in Hout. specialize (Hout _ Hin). bool_to_prop. lia.
Qed.
Lemma find_containing_Some t pos e :
  find_element_containing pos t = Some e → e ∈ element_list t ∧ elem_start e < pos < elem_end e.
Proof. intros Hf%first_found_Some. destruct Hf as [Hin He]. bool_to_prop. split; [done|lia]. Qed.

(** The ends of an element are not inside another. *)
Lemma ends_outside s l e : elements_ok s l → e ∈ l → outside l (elem_start e) ∧ outside l (elem_end e).
Proof.
  intros [Hin Hs]. revert Hin. induction Hs as [|d l Hs IH Hd]; intros Hin He; [by apply elem_of_nil in He|].
  apply Forall_cons_1 in Hin as [Hd' Hin].
  rewrite Forall_forall in Hd. destruct Hd' as [Hne _]. unfold outside. rewrite !Forall_cons. apply elem_of_cons in He as [->|He].
  - split; (split; [lia|]); apply Forall_forall; intros x Hx; specialize (Hd x Hx); unfold before in Hd; lia.
  - destruct (IH Hin He) as [H1 H2]. specialize (Hd e He). unfold before in Hd.
    rewrite Forall_forall in Hin. destruct (Hin e He) as [? _]. split; (split; [lia|done]).
Qed.
Lemma clamp_nearest_spec pos t :
  elements_ok (text t) (element_list t) →
  let p := clamp_pos_to_nearest_boundary pos t in boundary (text t) p ∧ outside (element_list t) p.
Proof.
  intros Hok. unfold clamp_pos_to_nearest_boundary. pose proof (clamp_char_boundary pos t) as Hb.
  set (q := clamp_pos_to_char_boundary pos t) in *. destruct (find_element_containing q t) as [e|] eqn:He.
  - apply find_containing_Some in He as [Hin _]. destruct (ends_outside _ _ _ Hok Hin). destruct Hok as [Ht _].
    rewrite Forall_forall in Ht. destruct (Ht e Hin) as (_ & ? & ?). case_match; by rewrite clamp_char_id.
  - split; [done|]. by apply find_containing_None.
Qed.
Lemma clamp_nearest_id pos t :
  boundary (text t) pos → outside (element_list t) pos → clamp_pos_to_nearest_boundary pos t = pos.
Proof.
  intros Hb Hout. unfold clamp_pos_to_nearest_boundary. rewrite clamp_char_id by done. by apply find_containing_None in Hout as ->.
Qed.

(** ** Ranges that hold elements whole *)

Definition aligned (i j : nat) (e : TextElement) : Prop :=
  elem_end e ≤ i ∨ j ≤ elem_start e ∨ (i ≤ elem_start e ∧ elem_end e ≤ j).
Definition apart (i j : nat) (e : TextElement) : Prop := elem_end e ≤ i ∨ j ≤ elem_start e.
Definition settled (r : nat * nat) (e : TextElement) : Prop :=
  r.1 < elem_end e → elem_start e < r.2 → r.1 ≤ elem_start e ∧ elem_end e ≤ r.2.

Ltac expand_cases e r :=
  unfold expand_step; destruct (Nat.ltb_spec (elem_start e) r.2); destruct (Nat.ltb_spec r.1 (elem_end e)); simpl.

Lemma expand_pass_settled prev l r :
  StronglySorted before (prev ++ l) → Forall (λ e, elem_start e < elem_end e) (prev ++ l) → Forall (settled r) prev →
  Forall (settled (foldl expand_step r l)) (prev ++ l).
Proof.
  revert prev r. induction l as [|e l IH]; intros prev r Hs Hne Hprev; simpl; [by rewrite app_nil_r|].
  rewrite (cons_middle e) in *. rewrite (assoc_L (++)) in *. apply IH; [done..|]. apply Forall_app. split; [|apply Forall_singleton].
  - rewrite Forall_forall in *. intros d Hd. specialize (Hprev d Hd). pose proof (Hne e ltac:(set_solver)). specialize (Hne d ltac:(set_solver)).
    assert (before d e) as Hde.
    { rewrite <- (assoc_L (++)) in Hs. eapply StronglySorted_app_1_elem_of; [exact Hs|done|set_solver]. }
    unfold settled, before in *. expand_cases e r; lia.
  - unfold settled. expand_cases e r; lia.
Qed.
Lemma settled_step r e : settled r e → expand_step r e = r.
Proof. destruct r as [i j]. unfold settled. expand_cases e (i, j); try done. intros Hse. simpl in *. f_equal; lia. Qed.
Lemma settled_pass r l : Forall (settled r) l → foldl expand_step r l = r.
Proof. induction 1 as [|e l He Hl IH]; [done|]. simpl. by rewrite settled_step. Qed.

(** What a pass does to the ends of the range. *)
Lemma expand_pass_ends s l r :
  Forall (in_text s) l → let r' := foldl expand_step r l in
  r'.1 ≤ r.1 ∧ r.2 ≤ r'.2 ∧ (boundary s r.1 → boundary s r'.1) ∧ (boundary s r.2 → boundary s r'.2)
  ∧ (outside l r.1 → r'.1 = r.1) ∧ (outside l r.2 → r'.2 = r.2).
Proof.
  intros Hl. revert r. induction Hl as [|e l (Hne & Hs & He) Hl IH]; intros r; [by split_and!|].
  cbv zeta. simpl. specialize (IH (expand_step r e)). simpl in IH. destruct IH as (H1 & H2 & H3 & H4 & H5 & H6).
  assert (Hstep : (expand_step r e).1 ≤ r.1 ∧ r.2 ≤ (expand_step r e).2
    ∧ (boundary s r.1 → boundary s (expand_step r e).1) ∧ (boundary s r.2 → boundary s (expand_step r e).2)
    ∧ (r.1 ≤ elem_start e ∨ elem_end e ≤ r.1 → (expand_step r e).1 = r.1)
    ∧ (r.2 ≤ elem_start e ∨ elem_end e ≤ r.2 → (expand_step r e).2 = r.2)).
  { expand_cases e r; split_and!; try done; try lia.
    - intros ?. by destruct (Nat.min_spec r.1 (elem_start e)) as [[_ ->]|[_ ->]].
    - intros ?. by destruct (Nat.max_spec r.2 (elem_end e)) as [[_ ->]|[_ ->]]. }
  destruct Hstep as (S1 & S2 & S3 & S4 & S5 & S6). split_and!; [lia|lia|auto|auto|..]; unfold outside; intros [He' Hl']%Forall_cons_1.
  - specialize (S5 He'). rewrite <- S5. apply H5. by rewrite S5.
  - specialize (S6 He'). rewrite <- S6. apply H6. by rewrite S6.
Qed.

Lemma expand_spec t i j :
  elements_ok (text t) (element_list t) → boundary (text t) i → boundary (text t) j → i ≤ j →
  ∃ i' j', expand_range_to_element_boundaries (i, j) t = Ok (i', j')
    ∧ i' ≤ i ∧ j ≤ j' ∧ boundary (text t) i' ∧ boundary (text t) j' ∧ Forall (aligned i' j') (element_list t)
    ∧ (outside (element_list t) i → i' = i) ∧ (outside (element_list t) j → j' = j).
Proof.
  intros [Ht Hs] Hi Hj Hle. unfold expand_range_to_element_boundaries. set (l := element_list t) in *.
  destruct (expand_pass_ends _ l (i, j) Ht) as (E1 & E2 & E3 & E4 & E5 & E6).
  assert (Hset : Forall (settled (foldl expand_step (i, j) l)) l).
  { apply (expand_pass_settled [] l (i, j)); [done| |constructor]. eapply Forall_impl; [exact Ht|]. by intros ? [? _]. }
  destruct (foldl expand_step (i, j) l) as [i' j'] eqn:Hpass. simpl in *. exists i', j'. split_and!; try (by auto).
  - cbn [expand_loop]. rewrite Hpass. case_bool_decide as Heq; [by rewrite Heq|].
    destruct l as [|e l]; [simpl in Hpass; congruence|]. cbn [length expand_loop]. rewrite (settled_pass _ _ Hset).
    by rewrite bool_decide_true.
  - eapply Forall_impl; [exact Hset|]. intros e He. unfold settled, aligned in *. simpl in He. lia.
Qed.
Lemma aligned_outside i j l : i ≤ j → Forall (aligned i j) l → outside l i ∧ outside l j.
Proof. intros Hle Hl. split; (eapply Forall_impl; [exact Hl|]); intros e; unfold aligned; lia. Qed.
Lemma apart_outside i j l : i ≤ j → Forall (apart i j) l → outside l i ∧ outside l j.
Proof. intros Hle Hl. split; (eapply Forall_impl; [exact Hl|]); intros e; unfold apart; lia. Qed.
Lemma outside_aligned i l : outside l i → Forall (aligned i i) l.
Proof. intros Hl. eapply Forall_impl; [exact Hl|]. intros e. unfold aligned. lia. Qed.

(** ** Edits *)

Lemma slice_app_l u v i j : j ≤ byte_len u → slice (u ++ v) i j = slice u i j.
Proof.
  intros Hle. apply option_eq. intros m. rewrite !slice_Some. split.
  - intros (p & q & Heq & Hp & Hm). rewrite (assoc_L (++)) in Heq. symmetry in Heq.
    destruct (prefix_le _ _ _ _ Heq) as (w & -> & ->); [rewrite byte_len_app; lia|]. exists p, w. by rewrite <- (assoc_L (++)).
  - intros (p & q & -> & Hp & Hm). exists p, (q ++ v). by rewrite !(assoc_L (++)).
Qed.
Lemma slice_app_r u v i j : slice (u ++ v) (byte_len u + i) (byte_len u + j) = slice v i j.
Proof.
  apply option_eq. intros m. rewrite !slice_Some. split.
  - intros (p & q & Heq & Hp & Hm). destruct (prefix_le _ _ _ _ Heq) as (w & -> & ->); [lia|]. rewrite byte_len_app in Hp.
    exists w, q. split_and!; [done|lia..].
  - intros (p & q & -> & Hp & Hm). exists (u ++ p), q. rewrite byte_len_app, !(assoc_L (++)). split_and!; [done|lia..].
Qed.

Definition moved (diff : Z) (e : TextElement) : TextElement :=
  {| elem_id := elem_id e; elem_start := shift_pos diff (elem_start e); elem_end := shift_pos diff (elem_end e); elem_name := elem_name e |}.
Definition until (n : nat) (e : TextElement) : Prop := elem_end e ≤ n.
Definition within (i j : nat) (e : TextElement) : Prop := i ≤ elem_start e ∧ elem_end e ≤ j.
Definition from (n : nat) (e : TextElement) : Prop := n ≤ elem_start e.
Definition nonempty (e : TextElement) : Prop := elem_start e < elem_end e.

Lemma elements_nonempty s l : elements_ok s l → Forall nonempty l.
Proof. intros [Ht _]. eapply Forall_impl; [exact Ht|]. by intros e [? _]. Qed.

Lemma split_aligned i j l :
  i ≤ j → Forall nonempty l → StronglySorted before l → Forall (aligned i j) l →
  ∃ la lm lc, l = la ++ lm ++ lc ∧ Forall (until i) la ∧ Forall (within i j) lm ∧ Forall (from j) lc.
Proof.
  intros Hij Hne Hs. revert Hne. induction Hs as [|e l Hs IH He]; intros Hne Hal; [by exists [], [], []|].
  apply Forall_cons_1 in Hne as [Hnee Hne], Hal as [Hale Hal]. destruct (IH Hne Hal) as (la & lm & lc & -> & Ha & Hm & Hc).
  rewrite !Forall_app in He, Hne. destruct He as (He & Hem & _), Hne as (Hna & Hnm & _). unfold nonempty in Hnee.
  destruct (decide (elem_end e ≤ i)) as [Hi|Hi]; [exists (e :: la), lm, lc; by rewrite Forall_cons|].
  assert (la = []) as ->.
  { destruct la as [|d la]; [done|]. apply Forall_cons_1 in He as [He _], Ha as [Ha _], Hna as [Hna _].
    unfold before, until, nonempty in *. lia. }
  destruct (decide (j ≤ elem_start e)) as [Hj|Hj].
  - assert (lm = []) as ->.
    { destruct lm as [|d lm]; [done|]. apply Forall_cons_1 in Hem as [Hem _], Hm as [Hm _], Hnm as [Hnm _].
      unfold before, within, nonempty in *. lia. }
    exists [], [], (e :: lc). by rewrite Forall_cons.
  - exists [], (e :: lm), lc. rewrite Forall_cons. unfold aligned in Hale. split_and!; try done. unfold within. lia.
Qed.

Lemma Forall_both {A} (P Q R : A → Prop) l : Forall P l → Forall Q l → (∀ x, P x → Q x → R x) → Forall R l.
Proof. intros HP HQ Himp. induction HP as [|x l Hx HP IH]; [done|]. apply Forall_cons_1 in HQ as [HQx HQ]. constructor; auto. Qed.
Lemma filter_all_true {A} (f : A → bool) l : Forall (λ x, f x = true) l → List.filter f l = l.
Proof. induction 1 as [|x l Hx Hl IH]; [done|]. simpl. by rewrite Hx, IH. Qed.
Lemma filter_all_false {A} (f : A → bool) l : Forall (λ x, f x = false) l → List.filter f l = [].
Proof. induction 1 as [|x l Hx Hl IH]; [done|]. simpl. by rewrite Hx. Qed.

(** Of elements that a replaced range holds whole: those before it stay, those in
    it go, those behind it move. *)
Lemma shift_elements_split i j n la lm lc :
  i ≤ j → Forall nonempty (la ++ lm ++ lc) → Forall (until i) la → Forall (within i j) lm → Forall (from j) lc →
  shift_elements i (j - i) n (la ++ lm ++ lc) = la ++ (moved (Z.of_nat n - Z.of_nat (j - i)) <$> lc).
Proof.
  intros Hij Hne Ha Hm Hc. unfold shift_elements. replace (i + (j - i)) with j by lia. rewrite !List.filter_app.
  apply Forall_app in Hne as [Hna [Hnm Hnc]%Forall_app].
  rewrite (filter_all_true _ la), (filter_all_false _ lm), (filter_all_true _ lc), app_nil_l, fmap_app.
  - f_equal; [rewrite <- (list_fmap_id la) at 2|]; apply list_fmap_ext; intros k e Hk;
      apply list_elem_of_lookup_2 in Hk; rewrite Forall_forall in Ha, Hc, Hnc; unfold shift_element.
    + specialize (Ha e Hk). unfold until in Ha. by rewrite (proj2 (Nat.leb_le _ _)).
    + specialize (Hc e Hk). specialize (Hnc e Hk). unfold from, nonempty in *. rewrite (proj2 (Nat.leb_gt _ _)) by lia.
      by rewrite (proj2 (Nat.leb_le _ _)).
  - eapply Forall_both; [exact Hc|exact Hnc|]. intros e. unfold from, nonempty. rewrite negb_true_iff, andb_false_iff, !Nat.leb_gt. lia.
  - eapply Forall_impl; [exact Hm|]. intros e. unfold within. rewrite negb_false_iff, andb_true_iff, !Nat.leb_le. lia.
  - eapply Forall_both; [exact Ha|exact Hna|]. intros e. unfold until, nonempty. rewrite negb_true_iff, andb_false_iff, !Nat.leb_gt. lia.
Qed.

(** The elements of a list with their texts. *)
Definition contents (s : str) (l : list TextElement) : list (N * option str * option str) :=
  (λ e, (elem_id e, elem_name e, slice s (elem_start e) (elem_end e))) <$> l.
(** Part of the text is replaced, with the elements that it holds whole; the others
    are the same, before and behind it. *)
Definition edits (t t' : TextArea) : Prop := ∃ a m c s la lm lc,
  text t = a ++ m ++ c ∧ text t' = a ++ s ++ c ∧ element_list t = la ++ lm ++ lc
  ∧ Forall (until (byte_len a)) la ∧ Forall (within (byte_len a) (byte_len (a ++ m))) lm ∧ Forall (from (byte_len (a ++ m))) lc
  ∧ contents (text t') (element_list t') = contents (text t) (la ++ lc).

Lemma contents_app s l l' : contents s (l ++ l') = contents s l ++ contents s l'.
Proof. apply fmap_app. Qed.
Lemma same_edits t t' : text t' = text t → element_list t' = element_list t → edits t t'.
Proof.
  intros Ht He. exists [], [], (text t), [], [], [], (element_list t). rewrite Ht, He. split_and!; try done.
  apply Forall_forall. intros e _. unfold from. simpl. lia.
Qed.

Lemma shift_pos_app (a m s : str) p :
  byte_len (a ++ m) ≤ p →
  shift_pos (Z.of_nat (byte_len s) - Z.of_nat (byte_len m)) p = byte_len (a ++ s) + (p - byte_len (a ++ m)).
Proof. unfold shift_pos. rewrite !byte_len_app. lia. Qed.

Lemma until_kept a m c s e :
  in_text (a ++ m ++ c) e → until (byte_len a) e →
  in_text (a ++ s ++ c) e ∧ slice (a ++ s ++ c) (elem_start e) (elem_end e) = slice (a ++ m ++ c) (elem_start e) (elem_end e).
Proof.
  unfold until. intros (Hne & Hs & He) Hu. rewrite !slice_app_l by done. split; [|done].
  apply boundary_app_inv_l in Hs, He; [|lia..]. split_and!; [done|by apply boundary_app..].
Qed.
Lemma from_moved a m c s e :
  in_text (a ++ m ++ c) e → from (byte_len (a ++ m)) e →
  let d := moved (Z.of_nat (byte_len s) - Z.of_nat (byte_len m)) e in
  in_text (a ++ s ++ c) d ∧ slice (a ++ s ++ c) (elem_start d) (elem_end d) = slice (a ++ m ++ c) (elem_start e) (elem_end e).
Proof.
  unfold from, in_text, moved. rewrite !(assoc_L (++)). intros (Hne & Hs & He) Hf. cbv zeta. simpl.
  rewrite !(shift_pos_app a m s) by lia.
  replace (slice ((a ++ m) ++ c) (elem_start e) (elem_end e)) with
    (slice ((a ++ m) ++ c) (byte_len (a ++ m) + (elem_start e - byte_len (a ++ m))) (byte_len (a ++ m) + (elem_end e - byte_len (a ++ m))))
    by (f_equal; lia).
  rewrite !slice_app_r. apply boundary_app_inv in Hs, He; [|lia..]. split; [|done].
  split_and!; [lia|by apply boundary_app_r..].
Qed.

(** What a replacement in the middle of the text does to the elements and to the
    positions around it. *)
Section Replace.
Variables (a m c s : str) (l : list TextElement).
Hypothesis Hok : elements_ok (a ++ m ++ c) l.
Hypothesis Hal : Forall (aligned (byte_len a) (byte_len (a ++ m))) l.
Let l' := shift_elements (byte_len a) (byte_len m) (byte_len s) l.

Lemma replace_elements :
  elements_ok (a ++ s ++ c) l'
  ∧ (∃ la lm lc, l = la ++ lm ++ lc
       ∧ Forall (until (byte_len a)) la ∧ Forall (within (byte_len a) (byte_len (a ++ m))) lm ∧ Forall (from (byte_len (a ++ m))) lc
       ∧ contents (a ++ s ++ c) l' = contents (a ++ m ++ c) (la ++ lc))
  ∧ Forall (apart (byte_len a) (byte_len (a ++ s))) l'
  ∧ (∀ p, p ≤ byte_len a → outside l p → outside l' p)
  ∧ (∀ p, byte_len (a ++ m) ≤ p → outside l p → outside l' (byte_len (a ++ s) + (p - byte_len (a ++ m)))).
Proof.
  pose proof (elements_nonempty _ _ Hok) as Hne. destruct Hok as [Ht Hs].
  assert (Hle : byte_len a ≤ byte_len (a ++ m)) by (rewrite byte_len_app; lia).
  destruct (split_aligned _ _ _ Hle Hne Hs Hal) as (la & lm & lc & Hl & Ha & Hm & Hc).
  assert (Hl' : l' = la ++ (moved (Z.of_nat (byte_len s) - Z.of_nat (byte_len m)) <$> lc)).
  { unfold l'. rewrite Hl in *. replace (byte_len m) with (byte_len (a ++ m) - byte_len a) by (rewrite byte_len_app; lia).
    by rewrite (shift_elements_split (byte_len a) (byte_len (a ++ m))). }
  rewrite Hl in Ht, Hs. apply Forall_app in Ht as [Hta [_ Htc]%Forall_app].
  assert (Hkept : Forall (λ e, in_text (a ++ s ++ c) e
    ∧ slice (a ++ s ++ c) (elem_start e) (elem_end e) = slice (a ++ m ++ c) (elem_start e) (elem_end e)) la).
  { eapply Forall_both; [exact Hta|exact Ha|]. intros e. by apply until_kept. }
  assert (Hmoved : Forall (λ e, let d := moved (Z.of_nat (byte_len s) - Z.of_nat (byte_len m)) e in in_text (a ++ s ++ c) d
    ∧ slice (a ++ s ++ c) (elem_start d) (elem_end d) = slice (a ++ m ++ c) (elem_start e) (elem_end e)) lc).
  { eapply Forall_both; [exact Htc|exact Hc|]. intros e. by apply from_moved. }
  assert (Hpos : Forall (λ e, let d := moved (Z.of_nat (byte_len s) - Z.of_nat (byte_len m)) e in
    elem_start d = byte_len (a ++ s) + (elem_start e - byte_len (a ++ m)) ∧ elem_end d = byte_len (a ++ s) + (elem_end e - byte_len (a ++ m))
    ∧ byte_len (a ++ m) ≤ elem_start e < elem_end e) lc).
  { eapply Forall_both; [exact Htc|exact Hc|]. intros e (Hnee & _) Hf. unfold from in Hf. unfold moved. simpl.
    rewrite !(shift_pos_app a m s) by lia. done. }
  rewrite Hl'. split_and!.
  - split.
    + apply Forall_app. split; [eapply Forall_impl; [exact Hkept|]; by intros e [? _]|]. apply Forall_fmap.
      eapply Forall_impl; [exact Hmoved|]. by intros e [? _].
    + apply StronglySorted_app_2.
      * intros x y Hx Hy. apply list_elem_of_fmap in Hy as (e & -> & He). rewrite Forall_forall in Ha, Hpos.
        specialize (Ha x Hx). destruct (Hpos e He) as (Hst & _). unfold before, until in *. rewrite Hst. rewrite byte_len_app. lia.
      * by eapply StronglySorted_app_1_l.
      * apply StronglySorted_app_1_r, StronglySorted_app_1_r in Hs. clear -Hs Hpos. induction Hs as [|e l Hs IH He]; rewrite ?fmap_nil, ?fmap_cons; constructor.
        { apply IH. by apply Forall_cons_1 in Hpos as [_ ?]. }
        apply Forall_cons_1 in Hpos as [(_ & Hend & Hlt) Hpos]. apply Forall_fmap.
        eapply Forall_both; [exact He|exact Hpos|]. intros d Hed (Hst & _ & Hlt'). unfold before, compose in *.
        rewrite Hend, Hst. lia.
  - exists la, lm, lc. split_and!; try done. rewrite !contents_app. f_equal.
    + apply list_fmap_ext. intros k e Hk%list_elem_of_lookup_2. rewrite Forall_forall in Hkept. destruct (Hkept e Hk) as [_ Hsl]. by rewrite Hsl.
    + unfold contents. rewrite <- list_fmap_compose. apply list_fmap_ext. intros k e Hk%list_elem_of_lookup_2.
      rewrite Forall_forall in Hmoved. destruct (Hmoved e Hk) as [_ Hsl]. unfold compose. simpl in *. by rewrite Hsl.
  - apply Forall_app. split; [eapply Forall_impl; [exact Ha|]; intros e; unfold until, apart; lia|]. apply Forall_fmap.
    eapply Forall_impl; [exact Hpos|]. intros e (Hst & _). unfold compose, apart. rewrite Hst. lia.
  - intros p Hp Hout. rewrite Hl in Hout. apply Forall_app in Hout as [Houta _]. apply Forall_app. split; [done|]. apply Forall_fmap.
    eapply Forall_impl; [exact Hpos|]. intros e (Hst & _). unfold compose. rewrite Hst, byte_len_app. lia.
  - intros p Hp Hout. rewrite Hl in Hout. apply Forall_app in Hout as [_ [_ Houtc]%Forall_app]. apply Forall_app. split.
    + eapply Forall_impl; [exact Ha|]. intros e. unfold until. rewrite byte_len_app. lia.
    + apply Forall_fmap. eapply Forall_both; [exact Hpos|exact Houtc|]. intros e (Hst & Hend & Hlt) Ho. unfold compose. rewrite Hst, Hend. lia.
Qed.
Lemma replace_boundaries p :
  boundary (a ++ m ++ c) p →
  (p ≤ byte_len a → boundary (a ++ s ++ c) p)
  ∧ (byte_len (a ++ m) ≤ p → boundary (a ++ s ++ c) (byte_len (a ++ s) + (p - byte_len (a ++ m)))).
Proof.
  intros Hb. split; intros Hp.
  - apply boundary_app_inv_l in Hb; [|done]. by apply boundary_app.
  - rewrite (assoc_L (++)) in Hb |- *. apply boundary_app_inv in Hb; [|done]. by apply boundary_app_r.
Qed.
End Replace.

(** ** The invariant *)

Section Libraries.
Context `{TextLibraries}.

(** The cursor is between two characters, the elements are apart and in order, and
    the wrapped lines are those of the text. *)
Record wf (t : TextArea) : Prop := {
  wf_cursor : boundary (text t) (cursor_pos t);
  wf_elements : elements_ok (text t) (element_list t);
  wf_cache : ∀ c, wrap_cache t = Some c → wrap_ranges (text t) (cache_width c) = Ok (cache_lines c);
}.
Definition cursor_outside (t : TextArea) : Prop := outside (element_list t) (cursor_pos t).

Lemma new_wf : wf new.
Proof. split; [apply boundary_0|by split; constructor|done]. Qed.
Lemma with_cursor_wf t p : wf t → boundary (text t) p → wf (with_cursor p t).
Proof. intros [Hc He Hw] Hp. by split. Qed.
Lemma with_preferred_col_wf t c : wf t → wf (with_preferred_col c t).
Proof. intros [Hc He Hw]. by split. Qed.
Lemma with_kill_buffer_wf t s : wf t → wf (with_kill_buffer s t).
Proof. intros [Hc He Hw]. by split. Qed.
Lemma with_elements_wf t l : wf t → elements_ok (text t) l → wf (with_elements l t).
Proof. intros [Hc He Hw] Hl. by split. Qed.

Lemma set_cursor_spec pos t : wf t →
  wf (set_cursor pos t) ∧ cursor_outside (set_cursor pos t) ∧ edits t (set_cursor pos t).
Proof.
  intros Hwf. unfold set_cursor. destruct (clamp_nearest_spec (pos `min` len t) t (wf_elements _ Hwf)) as [Hb Ho].
  split_and!; [by apply with_preferred_col_wf, with_cursor_wf|done|by apply same_edits].
Qed.

(** Inserting text: at the clamped position, which no element contains. *)
Lemma insert_str_at_spec pos s t : wf t →
  ∃ t' a c, insert_str_at pos s t = Ok t' ∧ text t = a ++ c ∧ text t' = a ++ s ++ c
    ∧ byte_len a = clamp_pos_for_insertion pos t ∧ wf t' ∧ edits t t' ∧ kill_buffer t' = kill_buffer t
    ∧ cursor_pos t' = (if byte_len a <=? cursor_pos t then cursor_pos t + byte_len s else cursor_pos t)
    ∧ (cursor_outside t → cursor_outside t')
    ∧ Forall (apart (byte_len a) (byte_len (a ++ s))) (element_list t').
Proof.
  intros Hwf. destruct (clamp_nearest_spec pos t (wf_elements _ Hwf)) as [(a & c & Ht & Ha) Ho].
  unfold insert_str_at. fold (clamp_pos_for_insertion pos t) in *. rewrite <- Ha in *.
  assert (Hsplice : splice (text t) (byte_len a) (byte_len a) s = Some (a ++ s ++ c)).
  { rewrite Ht. pose proof (splice_app a [] c s) as Hs. simpl in Hs. by rewrite Nat.add_0_r in Hs. }
  rewrite Hsplice. simpl. do 3 eexists. split; [reflexivity|]. split; [exact Ht|]. split; [reflexivity|]. split; [done|]. simpl.
  pose proof (wf_elements _ Hwf) as Hok. pose proof (wf_cursor _ Hwf) as Hcur. rewrite Ht in Hok, Hcur.
  destruct (replace_elements a [] c s (element_list t)) as (R1 & (la & lm & lc & Hl & R2) & R3 & R4 & R5).
  { done. } { rewrite app_nil_r. by apply outside_aligned. }
  destruct (replace_boundaries a [] c s _ Hcur) as [B1 B2]. rewrite app_nil_r in *. simpl in *.
  assert (Hpos : (if byte_len a <=? cursor_pos t then cursor_pos t + byte_len s else cursor_pos t)
    = if byte_len a <=? cursor_pos t then byte_len (a ++ s) + (cursor_pos t - byte_len a) else cursor_pos t).
  { rewrite byte_len_app. destruct (Nat.leb_spec (byte_len a) (cursor_pos t)); lia. }
  split_and!; try done.
  - split; simpl; [|done..]. rewrite Hpos. destruct (Nat.leb_spec (byte_len a) (cursor_pos t)); [by apply B2|apply B1; lia].
  - exists a, [], c, s, la, lm, lc. simpl. rewrite app_nil_r, Ht. done.
  - unfold cursor_outside. simpl. intros Hout. rewrite Hpos.
    destruct (Nat.leb_spec (byte_len a) (cursor_pos t)); [by apply R5|apply R4; [lia|done]].
Qed.

(** Replacing a range that holds elements whole. *)
Lemma replace_range_raw_spec i j s t :
  wf t → boundary (text t) i → boundary (text t) j → i ≤ j → Forall (aligned i j) (element_list t) →
  ∃ t' a m c, replace_range_raw (i, j) s t = Ok t' ∧ text t = a ++ m ++ c ∧ text t' = a ++ s ++ c ∧ byte_len a = i ∧ byte_len (a ++ m) = j
    ∧ wf t' ∧ edits t t' ∧ kill_buffer t' = kill_buffer t
    ∧ (i ≤ cursor_pos t ≤ j → cursor_pos t' = i + byte_len s)
    ∧ (m ++ s ≠ [] ∨ cursor_outside t → cursor_outside t')
    ∧ (i < j → Forall (apart i (byte_len (a ++ s))) (element_list t')).
Proof.
  intros Hwf Hi Hj Hij Hal. destruct (boundaries_split _ _ _ Hi Hj Hij) as (a & m & c & Ht & Ha & Hm).
  assert (Hj' : byte_len (a ++ m) = j) by (rewrite byte_len_app; lia).
  pose proof (boundary_le _ _ Hj) as Hlen. unfold replace_range_raw, len. simpl. rewrite (proj2 (Nat.leb_le i j)) by done. simpl.
  rewrite (Nat.min_l i), (Nat.min_l j) by lia.
  destruct ((j - i =? 0) && (byte_len s =? 0)) eqn:Hnop.
  - apply andb_true_iff in Hnop as [Hm0%Nat.eqb_eq Hs0%Nat.eqb_eq]. apply byte_len_0 in Hs0 as ->.
    assert (m = []) as -> by (apply byte_len_0; lia). simpl in *. rewrite app_nil_r in *. exists t, a, [], c.
    split_and!; try done; [by rewrite app_nil_r|by apply same_edits|simpl; lia|by intros [?|?]|lia].
  - assert (Hsplice : splice (text t) i j s = Some (a ++ s ++ c)).
    { rewrite Ht, <- Hj', byte_len_app, <- Ha. apply splice_app. }
    rewrite Hsplice. simpl. unfold update_elements_after_replace. replace (j - i) with (byte_len m) by lia. rewrite <- Ha.
    pose proof (wf_elements _ Hwf) as Hok. pose proof (wf_cursor _ Hwf) as Hcur. rewrite Ht in Hok, Hcur.
    destruct (replace_elements a m c s (element_list t)) as (R1 & (la & lm & lc & Hl & R2) & R3 & R4 & R5).
    { done. } { by rewrite Hj', Ha. }
    set (l' := shift_elements _ _ _ _) in *. set (t1 := with_elements l' (with_text (a ++ s ++ c) t)).
    set (p := _ `min` _).
    destruct (clamp_nearest_spec p t1 R1) as [Hb Ho]. do 4 eexists. split; [reflexivity|]. simpl.
    split; [exact Ht|]. split; [reflexivity|]. split; [done|]. split; [done|]. split_and!; try done.
    + destruct R2 as (? & ? & ? & ?). exists a, m, c, s, la, lm, lc. simpl. rewrite Ht. by split_and!.
    + intros Hc. assert (Hp : p = byte_len (a ++ s)).
      { unfold p, cursor_after, len. simpl. rewrite !byte_len_app.
        destruct (Nat.ltb_spec (cursor_pos t) (byte_len a)); [lia|]. destruct (Nat.leb_spec (cursor_pos t) j); lia. }
      rewrite Hp. rewrite clamp_nearest_id; [by rewrite byte_len_app| |].
      * simpl. rewrite (assoc_L (++)). apply boundary_app, boundary_len.
      * apply apart_outside in R3; [apply R3|rewrite byte_len_app; lia].
Qed.
Lemma replace_range_spec i j s t :
  wf t → boundary (text t) i → boundary (text t) j → i ≤ j →
  ∃ t', replace_range (i, j) s t = Ok t' ∧ wf t' ∧ edits t t' ∧ (cursor_outside t → cursor_outside t').
Proof.
  intros Hwf Hi Hj Hij. destruct (expand_spec t i j (wf_elements _ Hwf) Hi Hj Hij) as (i' & j' & Hex & ? & ? & Hi' & Hj' & Hal & _).
  destruct (replace_range_raw_spec i' j' s t Hwf Hi' Hj' ltac:(lia) Hal) as (t' & a & m & c & Hr & _ & _ & _ & _ & Hwf' & He & _ & _ & Hout & _).
  exists t'. unfold replace_range. rewrite Hex. simpl. split_and!; auto.
Qed.

(** ** What the crates promise *)

(** A piece of a string at its offset. *)
Definition piece_of (s : str) (q : nat * str) : Prop := ∃ u v, s = u ++ q.2 ++ v ∧ byte_len u = q.1.
Class LawfulLibraries : Prop := {
  prev_boundary_law s p : boundary s p → 0 < p →
    ∃ b, grapheme_prev_boundary s p = Some (Some b) ∧ boundary s b ∧ b < p;
  next_boundary_law s p : boundary s p → p < byte_len s →
    ∃ b, grapheme_next_boundary s p = Some (Some b) ∧ boundary s b ∧ p < b;
  graphemes_law s : Forall (piece_of s) (grapheme_indices s);
  words_law s : Forall (piece_of s) (split_word_bound_indices s);
  wrap_law s width : Forall (λ l, match l with
    | Borrowed start stop => start ≤ stop ∧ boundary s start ∧ boundary s stop
    | Owned _ => True end) (textwrap_wrap s width);
}.
Context `{!LawfulLibraries}.

Lemma piece_boundaries s q : piece_of s q → boundary s q.1 ∧ boundary s (q.1 + byte_len q.2).
Proof.
  intros (u & v & -> & <-). split; [by exists u, (q.2 ++ v)|]. exists (u ++ q.2), v. by rewrite <- (assoc_L (++)), byte_len_app.
Qed.

(** ** Graphemes *)

Lemma atomic_boundary_of_element t e : wf t → e ∈ element_list t →
  boundary (text t) (elem_start e) ∧ boundary (text t) (elem_end e)
  ∧ outside (element_list t) (elem_start e) ∧ outside (element_list t) (elem_end e).
Proof.
  intros Hwf He. pose proof (wf_elements _ Hwf) as Hok. destruct (ends_outside _ _ _ Hok He) as [? ?]. destruct Hok as [Ht _].
  rewrite Forall_forall in Ht. destruct (Ht e He) as (_ & ? & ?). done.
Qed.
Lemma prev_atomic_spec t p : wf t → boundary (text t) p →
  let b := prev_atomic_boundary p t in
  boundary (text t) b ∧ b ≤ p ∧ (0 < p → b < p) ∧ outside (element_list t) b.
Proof.
  intros Hwf Hp. unfold prev_atomic_boundary. destruct (Nat.eqb_spec p 0) as [->|Hp0].
  { split_and!; [done|lia..|]. apply Forall_forall. intros e _. lia. }
  destruct (List.find _ _) as [e|] eqn:Hf.
  - apply first_found_Some in Hf as [He Hr]. bool_to_prop. destruct (atomic_boundary_of_element t e Hwf He) as (? & _ & ? & _).
    split_and!; [done|lia..|done].
  - destruct (prev_boundary_law _ _ Hp) as (b & -> & Hb & Hlt); [lia|]. destruct (find_element_containing b t) as [e|] eqn:Hc.
    + apply find_containing_Some in Hc as [He Hr]. destruct (atomic_boundary_of_element t e Hwf He) as (? & _ & ? & _).
      split_and!; [done|lia..|done].
    + apply find_containing_None in Hc. split_and!; [done|lia..|done].
Qed.
Lemma next_atomic_spec t p : wf t → boundary (text t) p →
  let b := next_atomic_boundary p t in
  boundary (text t) b ∧ p ≤ b ∧ (p < len t → p < b) ∧ outside (element_list t) b.
Proof.
  intros Hwf Hp. pose proof (boundary_le _ _ Hp) as Hle. unfold next_atomic_boundary, len.
  destruct (Nat.leb_spec (byte_len (text t)) p) as [Hp0|Hp0].
  { split_and!; [apply boundary_len|lia..|]. destruct (wf_elements _ Hwf) as [Ht _]. eapply Forall_impl; [exact Ht|].
    intros e (_ & _ & He%boundary_le). lia. }
  destruct (List.find _ _) as [e|] eqn:Hf.
  - apply first_found_Some in Hf as [He Hr]. bool_to_prop. destruct (atomic_boundary_of_element t e Hwf He) as (_ & ? & _ & ?).
    split_and!; [done|lia..|done].
  - destruct (next_boundary_law _ _ Hp Hp0) as (b & -> & Hb & Hlt). destruct (find_element_containing b t) as [e|] eqn:Hc.
    + apply find_containing_Some in Hc as [He Hr]. destruct (atomic_boundary_of_element t e Hwf He) as (_ & ? & _ & ?).
      split_and!; [done|lia..|done].
    + apply find_containing_None in Hc. split_and!; [done|lia..|done].
Qed.
Lemma back_times_spec t n p : wf t → boundary (text t) p → boundary (text t) (back_times n p t) ∧ back_times n p t ≤ p.
Proof.
  intros Hwf. revert p. induction n as [|n IH]; intros p Hp; simpl; [done|].
  destruct (prev_atomic_spec t p Hwf Hp) as (Hb & Hle & _). case_match; [done|]. destruct (IH _ Hb). split; [done|lia].
Qed.
Lemma forward_times_spec t n p : wf t → boundary (text t) p → boundary (text t) (forward_times n p t) ∧ p ≤ forward_times n p t.
Proof.
  intros Hwf. revert p. induction n as [|n IH]; intros p Hp; simpl; [done|].
  destruct (next_atomic_spec t p Hwf Hp) as (Hb & Hle & _). case_match; [done|]. destruct (IH _ Hb). split; [done|lia].
Qed.

(** ** Words *)

Lemma segment_pieces_of start k piece sep idx rest u :
  byte_len u = k → idx = k + byte_len piece →
  Forall (λ q, ∃ i, q.1 = start + i ∧ piece_of (u ++ piece ++ rest) (i, q.2)) (segment_pieces start k piece sep idx rest).
Proof.
  revert k piece sep idx u. induction rest as [|ch rest IH]; intros k piece sep idx u Hu Hidx; simpl.
  - apply Forall_singleton. exists k. split; [done|]. by exists u, [].
  - destruct (Bool.eqb _ _).
    + replace (u ++ piece ++ ch :: rest) with (u ++ (piece ++ [ch]) ++ rest) by by rewrite <- (assoc_L (++)).
      apply IH; [done|]. rewrite byte_len_app. simpl. lia.
    + constructor; [exists k; split; [done|]; by exists u, (ch :: rest)|].
      replace (u ++ piece ++ ch :: rest) with ((u ++ piece) ++ [ch] ++ rest) by by rewrite <- (assoc_L (++)).
      apply IH; [rewrite byte_len_app; lia|simpl; lia].
Qed.
Lemma split_word_pieces_of run : Forall (piece_of run) (split_word_pieces run).
Proof.
  unfold split_word_pieces. apply Forall_bind. eapply Forall_impl; [apply words_law|]. intros [start segment] (u & v & Hrun & Hu).
  simpl in *. destruct segment as [|c rest]; [constructor|].
  eapply Forall_impl; [apply (segment_pieces_of start 0 [c] _ (len_utf8 c) rest []); [done|simpl; lia]|].
  intros [i q] (k & Hk & x & y & Heq & Hx). simpl in *. subst. exists (u ++ x), (y ++ v). simpl.
  rewrite (app_comm_cons rest v c), Heq, byte_len_app. by rewrite <- !(assoc_L (++)).
Qed.
Lemma skip_separators_in (first : nat * str) rest : skip_separators first rest ∈ first :: rest.
Proof.
  revert first. induction rest as [|[i q] rest IH]; intros first; simpl; [by left|]. case_match; [right; apply IH|by left].
Qed.
Lemma edge_piece_in first rest : edge_piece first rest ∈ first :: rest.
Proof. unfold edge_piece. case_match; [apply skip_separators_in|by left]. Qed.
Lemma adjust_spec t p b : wf t → boundary (text t) p →
  let q := adjust_pos_out_of_elements p b t in boundary (text t) q ∧ if b then q ≤ p else p ≤ q.
Proof.
  intros Hwf Hp. unfold adjust_pos_out_of_elements. destruct (find_element_containing p t) as [e|] eqn:He; [|by destruct b].
  apply find_containing_Some in He as [Hin Hr]. destruct (atomic_boundary_of_element t e Hwf Hin) as (? & ? & _).
  destruct b; split; done || lia.
Qed.

Lemma slice_prefix s p : boundary s p → ∃ a b, slice s 0 p = Some a ∧ s = a ++ b ∧ byte_len a = p.
Proof. intros (a & b & -> & <-). exists a, b. split; [|done]. apply slice_Some. by exists [], b. Qed.

Lemma beginning_of_previous_word_spec t : wf t →
  ∃ p, beginning_of_previous_word t = Ok p ∧ boundary (text t) p ∧ p ≤ cursor_pos t.
Proof.
  intros Hwf. unfold beginning_of_previous_word. destruct (slice_prefix _ _ (wf_cursor _ Hwf)) as (prefix & post & -> & Ht & Hlen). simpl.
  destruct (rfind_char _ prefix) as [[idx ch]|] eqn:Hr; [|exists 0; split_and!; [done|apply boundary_0|lia]].
  apply rfind_char_Some in Hr as (x & y & Hprefix & <- & _).
  assert (Hx : slice prefix 0 (byte_len x) = Some x) by (apply slice_Some; by exists [], (ch :: y)). rewrite Hx. simpl.
  set (run_start := match rfind_char is_whitespace x with Some _ => _ | None => _ end).
  assert (Hrs : boundary x run_start).
  { unfold run_start. destruct (rfind_char is_whitespace x) as [[k c]|] eqn:Hk; [|apply boundary_0]. by apply rfind_char_boundary in Hk as [_ ?]. }
  destruct Hrs as (x1 & x2 & -> & Hrs). rewrite byte_len_app.
  assert (Hrun : slice prefix run_start (byte_len x1 + byte_len x2 + len_utf8 ch) = Some (x2 ++ [ch])).
  { apply slice_Some. exists x1, y. rewrite Hprefix, byte_len_app, <- !(assoc_L (++)). simpl. split_and!; [done..|lia]. }
  rewrite Hrun. simpl. pose proof (split_word_pieces_of (x2 ++ [ch])) as Hpieces. apply Forall_reverse in Hpieces.
  assert (Hin : ∀ n, boundary (x2 ++ [ch]) n → boundary (text t) (run_start + n) ∧ run_start + n ≤ cursor_pos t).
  { intros n Hn. pose proof (boundary_le _ _ Hn) as Hle. rewrite <- Hlen, Ht, Hprefix, <- Hrs.
    replace ((x1 ++ x2) ++ ch :: y) with (x1 ++ (x2 ++ [ch]) ++ y) by by rewrite <- !(assoc_L (++)).
    rewrite !byte_len_app in *. simpl in *. split; [|lia]. rewrite <- !(assoc_L (++)). rewrite (assoc_L (++) [ch] y post).
    apply boundary_app_r. rewrite (assoc_L (++)), (assoc_L (++)). apply boundary_app. by apply boundary_app. }
  destruct (reverse _) as [|first rest].
  - destruct (Hin 0 (boundary_0 _)) as [? ?]. rewrite Nat.add_0_r in *. eauto.
  - rewrite Forall_forall in Hpieces. destruct (piece_boundaries _ _ (Hpieces _ (edge_piece_in first rest))) as [Hb _].
    destruct (Hin _ Hb) as [Hb' Hle]. destruct (adjust_spec t _ true Hwf Hb') as [? ?]. eexists. split; [reflexivity|]. split; [done|lia].
Qed.
Lemma end_of_next_word_spec t : wf t →
  ∃ p, end_of_next_word t = Ok p ∧ boundary (text t) p ∧ cursor_pos t ≤ p.
Proof.
  intros Hwf. unfold end_of_next_word. pose proof (boundary_le _ _ (wf_cursor _ Hwf)) as Hcl.
  destruct (suffix_at_boundary _ _ (wf_cursor _ Hwf)) as (pre & suffix & -> & Ht & Hlen). simpl.
  destruct (find_char _ suffix) as [i|] eqn:Hf; [|exists (len t); split_and!; [done|apply boundary_len|done]].
  apply find_char_boundary in Hf as [Hi _]. destruct (suffix_at_boundary _ _ Hi) as (ws & run & -> & Hsuffix & Hws). simpl.
  set (stop := default _ _). assert (Hstop : boundary run stop).
  { unfold stop. destruct (find_char is_whitespace run) as [k|] eqn:Hk; [by apply find_char_boundary in Hk as [? _]|apply boundary_len]. }
  destruct (slice_prefix _ _ Hstop) as (w & post & -> & Hrun & _). simpl.
  assert (Hin : ∀ n, boundary w n → boundary (text t) (cursor_pos t + i + n)).
  { intros n Hn. rewrite Ht, Hsuffix, Hrun, <- Hlen, <- Hws. rewrite (assoc_L (++)). rewrite <- byte_len_app.
    apply boundary_app_r. by apply boundary_app. }
  pose proof (split_word_pieces_of w) as Hpieces. destruct (split_word_pieces w) as [|first rest].
  - exists (cursor_pos t + i). split_and!; [done| |lia]. rewrite <- (Nat.add_0_r (_ + _)). apply Hin, boundary_0.
  - rewrite Forall_forall in Hpieces. destruct (piece_boundaries _ _ (Hpieces _ (edge_piece_in first rest))) as [_ Hb].
    destruct (edge_piece first rest) as [k q]. simpl in Hb. apply Hin in Hb. rewrite Nat.add_assoc in Hb.
    destruct (adjust_spec t _ false Hwf Hb) as [? ?]. eexists. split; [reflexivity|]. split; [done|lia].
Qed.

(** ** Lines *)

Lemma newline_line_start a i c : rfind_char is_newline a = Some (i, c) → boundary a i ∧ boundary a (i + 1) ∧ i + 1 ≤ byte_len a.
Proof.
  intros Hr. pose proof (rfind_char_boundary _ _ _ _ Hr) as [H1 H2]. apply rfind_char_Some in Hr as (x & y & -> & Hi & Hc).
  apply is_newline_len in Hc. rewrite Hc in H2. split_and!; [done..|]. by apply boundary_le in H2.
Qed.
Lemma beginning_of_line_spec t p : boundary (text t) p →
  ∃ b, beginning_of_line p t = Ok b ∧ boundary (text t) b ∧ b ≤ p ∧ (0 < b → ∃ b', b = b' + 1 ∧ boundary (text t) b').
Proof.
  intros Hp. unfold beginning_of_line. destruct (slice_prefix _ _ Hp) as (a & c & -> & Ht & <-). simpl.
  destruct (rfind_char is_newline a) as [[i d]|] eqn:Hr; [|exists 0; split_and!; [done|apply boundary_0|lia|lia]].
  apply newline_line_start in Hr as (H1 & H2 & H3). exists (i + 1). rewrite Ht.
  split_and!; [done|by apply boundary_app|done|]. intros _. exists i. split; [done|by apply boundary_app].
Qed.
Lemma end_of_line_spec t p : boundary (text t) p →
  ∃ e, end_of_line p t = Ok e ∧ boundary (text t) e ∧ p ≤ e ∧ (e < len t → boundary (text t) (e + 1)).
Proof.
  intros Hp. unfold end_of_line. destruct (suffix_at_boundary _ _ Hp) as (a & r & -> & Ht & <-). simpl.
  destruct (find_char is_newline r) as [i|] eqn:Hr.
  - apply find_char_Some in Hr as (x & d & y & Hr & Hi & Hd & _). apply is_newline_len in Hd. exists (i + byte_len a).
    rewrite Ht, Hr. split_and!; [done| |lia|intros _].
    + rewrite Nat.add_comm, <- Hi. apply boundary_app_r. by exists x, (d :: y).
    + replace (i + byte_len a + 1) with (byte_len a + byte_len (x ++ [d])) by (rewrite byte_len_app; simpl; lia).
      apply boundary_app_r. exists (x ++ [d]), y. by rewrite <- (assoc_L (++)).
  - exists (len t). split_and!; [done|apply boundary_len| |lia]. unfold len. by apply boundary_le.
Qed.

Lemma offset_of_col_in w col gs i : offset_of_col w col gs = Some i → ∃ g, (i, g) ∈ gs.
Proof.
  revert w. induction gs as [|[k g] gs IH]; intros w; simpl; [done|]. case_match.
  - intros [= ->]. exists g. by left.
  - intros Hi. destruct (IH _ Hi) as [g' Hg]. exists g'. by right.
Qed.
(** Moving within a line that is there. *)
Definition goes (t : TextArea) (m : result Empty_set TextArea) : Prop :=
  ∃ t', m = Ok t' ∧ wf t' ∧ edits t t' ∧ cursor_outside t'.
Lemma move_to_display_col_spec t i j col c : wf t → boundary (text t) i → boundary (text t) j → i ≤ j →
  goes t (move_to_display_col_on_line i j col (with_preferred_col c t)).
Proof.
  intros Hwf Hi Hj Hij. unfold move_to_display_col_on_line. destruct (slice_boundaries _ _ _ Hi Hj Hij) as [line Hline].
  simpl. rewrite Hline. simpl. set (p := match offset_of_col _ _ _ with Some _ => _ | None => _ end).
  destruct (clamp_nearest_spec p (with_preferred_col c t) (wf_elements _ Hwf)) as [Hb Ho].
  eexists. split; [reflexivity|]. split_and!; [by apply with_cursor_wf; [apply with_preferred_col_wf|]|by apply same_edits|done].
Qed.
Lemma go_to_spec t p : wf t → boundary (text t) p → outside (element_list t) p → goes t (Ok (go_to p t)).
Proof.
  intros Hwf Hp Ho. eexists. split; [reflexivity|]. split_and!; [by apply with_preferred_col_wf, with_cursor_wf|by apply same_edits|done].
Qed.
Lemma outside_0 t : outside (element_list t) 0.
Proof. apply Forall_forall. intros e _. lia. Qed.
Lemma outside_len t : wf t → outside (element_list t) (len t).
Proof.
  intros Hwf. destruct (wf_elements _ Hwf) as [Ht _]. eapply Forall_impl; [exact Ht|]. intros e (_ & _ & He%boundary_le). unfold len. lia.
Qed.
Lemma set_cursor_goes t p : wf t → goes t (Ok (set_cursor p t)).
Proof. intros Hwf. eexists. split; [reflexivity|]. destruct (set_cursor_spec p t Hwf) as (? & ? & ?). done. Qed.

Lemma move_left_spec t : wf t → goes t (Ok (move_cursor_left t)).
Proof. intros Hwf. destruct (prev_atomic_spec t _ Hwf (wf_cursor _ Hwf)) as (Hb & _ & _ & Ho). by apply go_to_spec. Qed.
Lemma move_right_spec t : wf t → goes t (Ok (move_cursor_right t)).
Proof. intros Hwf. destruct (next_atomic_spec t _ Hwf (wf_cursor _ Hwf)) as (Hb & _ & _ & Ho). by apply go_to_spec. Qed.
Lemma move_to_beginning_spec t b : wf t → goes t (move_cursor_to_beginning_of_line b t).
Proof.
  intros Hwf. unfold move_cursor_to_beginning_of_line, beginning_of_current_line.
  destruct (beginning_of_line_spec t _ (wf_cursor _ Hwf)) as (bol & -> & Hbol & Hle & Hpred). simpl.
  destruct (b && _) eqn:Hup; [|by apply set_cursor_goes]. apply andb_true_iff in Hup as [_ Heq%Nat.eqb_eq].
  assert (Hb' : boundary (text t) (cursor_pos t - 1)).
  { destruct (decide (0 < bol)) as [Hpos|]; [|replace (cursor_pos t - 1) with 0 by lia; apply boundary_0].
    destruct (Hpred Hpos) as (b' & Hb' & ?). by replace (cursor_pos t - 1) with b' by lia. }
  destruct (beginning_of_line_spec t _ Hb') as (? & -> & _). by apply set_cursor_goes.
Qed.
Lemma move_to_end_spec t b : wf t → goes t (move_cursor_to_end_of_line b t).
Proof.
  intros Hwf. unfold move_cursor_to_end_of_line, end_of_current_line.
  destruct (end_of_line_spec t _ (wf_cursor _ Hwf)) as (eol & -> & Heol & Hle & Hnext). simpl.
  destruct (b && _) eqn:Hup; [|by apply set_cursor_goes]. apply andb_true_iff in Hup as [_ Heq%Nat.eqb_eq].
  pose proof (boundary_le _ _ Heol) as Hlen. fold (len t) in Hlen.
  assert (Hb' : boundary (text t) ((cursor_pos t + 1) `min` len t)).
  { destruct (decide (eol < len t)) as [Hlt|].
    - rewrite Heq, Nat.min_l by lia. by apply Hnext.
    - replace ((cursor_pos t + 1) `min` len t) with (byte_len (text t)) by (unfold len in *; lia). apply boundary_len. }
  destruct (end_of_line_spec t _ Hb') as (? & -> & _). by apply set_cursor_goes.
Qed.

(** ** Wrapped lines *)

Definition line_ok (s : str) (r : nat * nat) : Prop := r.1 ≤ r.2 - 1 ∧ boundary s r.1 ∧ boundary s (r.2 - 1).

Lemma leading_spaces_split s : ∃ a b, s = a ++ b ∧ byte_len a = leading_spaces s.
Proof.
  induction s as [|c s (a & b & Hs & Ha)]; simpl; [by exists [], []|]. destruct (N.eqb_spec c SPACE) as [->|]; [|by exists [], (c :: s)].
  exists (SPACE :: a), b. split; [simpl; by rewrite <- Hs|]. simpl. by rewrite Ha.
Qed.
Lemma leading_spaces_boundary a r : boundary (a ++ r) (byte_len a + leading_spaces r).
Proof. apply boundary_app_r. destruct (leading_spaces_split r) as (x & y & Hr & <-). rewrite Hr at 1. by exists x, y. Qed.
Lemma map_chars_spec s wrapped stop saw : boundary s stop →
  ∃ e, map_chars s wrapped stop saw = Ok e ∧ boundary s e ∧ stop ≤ e.
Proof.
  revert stop saw. induction wrapped as [|ch wrapped IH]; intros stop saw Hb; simpl; [by exists stop|].
  destruct (Nat.ltb_spec stop (byte_len s)) as [Hlt|Hge].
  - destruct (suffix_at_boundary _ _ Hb) as (a & r & -> & Hs & Ha). simpl. destruct r as [|c r].
    { rewrite app_nil_r in Hs. subst. lia. }
    simpl. destruct (N.eqb_spec ch c) as [->|].
    + assert (Hb' : boundary s (stop + len_utf8 c)).
      { rewrite Hs, <- Ha. exists (a ++ [c]), r. rewrite byte_len_app. simpl. rewrite <- (assoc_L (++)). split; [done|lia]. }
      destruct (IH _ true Hb') as (e & -> & He & ?). exists e. split_and!; [done..|lia].
    + case_match; [apply IH; done|]. case_match; [apply IH; done|by exists stop].
  - case_match; [apply IH; done|]. case_match; [apply IH; done|by exists stop].
Qed.
Lemma map_owned_spec s cursor wrapped : boundary s cursor →
  ∃ i j, map_owned_wrapped_line_to_range s cursor wrapped = Ok (i, j) ∧ boundary s i ∧ boundary s j ∧ i ≤ j.
Proof.
  intros Hb. unfold map_owned_wrapped_line_to_range.
  assert (Hstart : ∃ i, (if (cursor <? byte_len s) && negb (starts_with wrapped [SPACE])
      then rest ← expect (suffix_at s cursor); Ok (cursor + leading_spaces rest) else Ok cursor) = Ok (E:=Empty_set) i ∧ boundary s i).
  { case_match; [|by exists cursor]. destruct (suffix_at_boundary _ _ Hb) as (a & r & -> & Hs & <-). simpl. eexists. split; [done|].
    rewrite Hs. apply leading_spaces_boundary. }
  destruct Hstart as (i & -> & Hi). simpl. destruct (map_chars_spec s wrapped i false Hi) as (j & -> & Hj & Hij). simpl.
  exists i, j. by split_and!.
Qed.
Lemma wrap_loop_spec s cursor wrapped : boundary s cursor →
  Forall (λ l, match l with Borrowed start stop => start ≤ stop ∧ boundary s start ∧ boundary s stop | Owned _ => True end) wrapped →
  ∃ lines, wrap_loop s cursor wrapped = Ok lines ∧ Forall (line_ok s) lines ∧ length lines = length wrapped.
Proof.
  intros Hb Hw. revert cursor Hb. induction Hw as [|l wrapped Hl Hw IH]; intros cursor Hb; simpl; [by exists []|].
  assert (Hm : ∃ i j, match l with Borrowed start stop => Ok (start, stop) | Owned slice => map_owned_wrapped_line_to_range s cursor slice end
    = Ok (i, j) ∧ boundary s i ∧ boundary s j ∧ i ≤ j).
  { destruct l as [i j|line]; [|by apply map_owned_spec]. destruct Hl as (? & ? & ?). by exists i, j. }
  destruct Hm as (i & j & -> & Hi & Hj & Hij). simpl. destruct (suffix_at_boundary _ _ Hj) as (a & r & -> & Hs & Ha). simpl.
  assert (Hstop : boundary s (j + leading_spaces r)) by (rewrite Hs, <- Ha; apply leading_spaces_boundary).
  destruct (IH _ Hstop) as (lines & -> & Hlines & Hn). simpl. eexists. split; [reflexivity|]. simpl. rewrite Hn. split; [|done].
  constructor; [|done]. unfold line_ok. simpl. replace (j + leading_spaces r + 1 - 1) with (j + leading_spaces r) by lia.
  split_and!; [lia|done..].
Qed.
Lemma wrap_ranges_spec s width : ∃ lines, wrap_ranges s width = Ok lines ∧ Forall (line_ok s) lines.
Proof. destruct (wrap_loop_spec s 0 (textwrap_wrap s width) (boundary_0 s) (wrap_law s width)) as (lines & ? & ? & _). by exists lines. Qed.
Lemma wrapped_lines_spec t width : wf t →
  ∃ t' lines, wrapped_lines width t = Ok (t', lines) ∧ wf t' ∧ edits t t' ∧ (cursor_outside t → cursor_outside t')
    ∧ wrap_ranges (text t) width = Ok lines ∧ Forall (line_ok (text t)) lines ∧ text t' = text t ∧ cursor_pos t' = cursor_pos t.
Proof.
  intros Hwf. destruct (wrap_ranges_spec (text t) width) as (lines & Hl & Hok).
  assert (Hnew : ∃ t' lines', Ok (with_cache (Some {| cache_width := width; cache_lines := lines |}) t, lines) = Ok (E:=Empty_set) (t', lines')
    ∧ wf t' ∧ edits t t' ∧ (cursor_outside t → cursor_outside t')
    ∧ wrap_ranges (text t) width = Ok lines' ∧ Forall (line_ok (text t)) lines' ∧ text t' = text t ∧ cursor_pos t' = cursor_pos t).
  { do 2 eexists. split; [reflexivity|]. split_and!; try done; [|by apply same_edits]. destruct Hwf as [Hc He _].
    split; [done..|]. simpl. intros c [= <-]. done. }
  unfold wrapped_lines. destruct (wrap_cache t) as [c|] eqn:Hc; [|rewrite Hl in Hnew |- *; exact Hnew].
  destruct (N.eqb_spec (cache_width c) width) as [<-|]; [|rewrite Hl in Hnew |- *; exact Hnew].
  exists t, (cache_lines c). pose proof (wf_cache _ Hwf c Hc) as Hw. rewrite Hl in Hw. injection Hw as ->.
  split_and!; try done. by apply same_edits.
Qed.

Lemma lines_up_to_spec pos lines : ∀ i, i < lines_up_to pos lines → ∃ r, lines !! i = Some r ∧ r.1 ≤ pos.
Proof.
  induction lines as [|r lines IH]; intros i Hi; simpl in *; [lia|]. destruct (Nat.leb_spec r.1 pos); [|lia].
  destruct i as [|i]; [by exists r|]. apply IH. lia.
Qed.
Lemma line_index_spec lines pos i : wrapped_line_index_by_start lines pos = Some i →
  ∃ r, lines !! i = Some r ∧ r.1 ≤ pos ∧ (∀ k, i = S k → ∃ r', lines !! k = Some r').
Proof.
  unfold wrapped_line_index_by_start. destruct (lines_up_to pos lines) as [|n] eqn:Hn; [done|]. intros [= <-].
  destruct (lines_up_to_spec pos lines n) as (r & Hr & Hle); [lia|]. exists r. split_and!; [done..|].
  intros k ->. destruct (lines_up_to_spec pos lines k) as (r' & Hr' & _); [lia|]. by exists r'.
Qed.
Lemma current_wrapped_line_spec t lines i : wf t → current_wrapped_line t = Some (lines, i) →
  Forall (line_ok (text t)) lines ∧ ∃ r, lines !! i = Some r ∧ r.1 ≤ cursor_pos t ∧ ∀ k, i = S k → ∃ r', lines !! k = Some r'.
Proof.
  intros Hwf. unfold current_wrapped_line. destruct (wrap_cache t) as [c|] eqn:Hc; [|done]. simpl.
  destruct (wrapped_line_index_by_start _ _) as [k|] eqn:Hk; [|done]. intros [= <- <-].
  pose proof (wf_cache _ Hwf c Hc) as Hw. destruct (wrap_ranges_spec (text t) (cache_width c)) as (lines & Hl & Hok). rewrite Hw in Hl.
  injection Hl as <-. split; [done|]. by apply line_index_spec.
Qed.
Lemma target_col_on_spec t r lines i : wf t → Forall (line_ok (text t)) lines → lines !! i = Some r → r.1 ≤ cursor_pos t →
  ∃ col, target_col_on r t = Ok col.
Proof.
  intros Hwf Hok Hr Hle. unfold target_col_on. destruct (preferred_col t); [eauto|].
  rewrite Forall_lookup in Hok. destruct (Hok _ _ Hr) as (_ & Hb & _).
  destruct (slice_boundaries _ _ _ Hb (wf_cursor _ Hwf) Hle) as [line ->]. simpl. eauto.
Qed.
Lemma target_col_of_line_spec t : wf t → ∃ col, target_col_of_line t = Ok col.
Proof.
  intros Hwf. unfold target_col_of_line, current_display_col, beginning_of_current_line. destruct (preferred_col t); [eauto|].
  destruct (beginning_of_line_spec t _ (wf_cursor _ Hwf)) as (bol & -> & Hbol & Hle & _). simpl.
  destruct (slice_boundaries _ _ _ Hbol (wf_cursor _ Hwf) Hle) as [line ->]. simpl. eauto.
Qed.

Lemma move_up_spec t : wf t → goes t (move_cursor_up t).
Proof.
  intros Hwf. unfold move_cursor_up. destruct (current_wrapped_line t) as [[lines i]|] eqn:Hl.
  - apply current_wrapped_line_spec in Hl as (Hok & r & Hr & Hle & Hprev); [|done].
    destruct (target_col_on_spec t r lines i Hwf Hok Hr Hle) as [col Hcol]. rewrite Hr. simpl. rewrite Hcol. simpl.
    destruct i as [|k]; [apply go_to_spec; [done|apply boundary_0|apply outside_0]|]. destruct (Hprev k eq_refl) as [r' Hr'].
    rewrite Hr'. simpl. rewrite Forall_lookup in Hok. destruct (Hok _ _ Hr') as (? & ? & ?). by apply move_to_display_col_spec.
  - destruct (slice_prefix _ _ (wf_cursor _ Hwf)) as (a & c & -> & Ht & _). simpl.
    destruct (rfind_char is_newline a) as [[nl d]|] eqn:Hr; [|apply go_to_spec; [done|apply boundary_0|apply outside_0]].
    destruct (target_col_of_line_spec t Hwf) as [col ->]. simpl. apply newline_line_start in Hr as (Hnl & _ & _).
    apply (boundary_app _ c) in Hnl. rewrite <- Ht in Hnl.
    destruct (beginning_of_line_spec t _ Hnl) as (b & -> & Hb & Hle & _). simpl. by apply move_to_display_col_spec.
Qed.
Lemma move_down_spec t : wf t → goes t (move_cursor_down t).
Proof.
  intros Hwf. unfold move_cursor_down. destruct (current_wrapped_line t) as [[lines i]|] eqn:Hl.
  - apply current_wrapped_line_spec in Hl as (Hok & r & Hr & Hle & _); [|done].
    destruct (target_col_on_spec t r lines i Hwf Hok Hr Hle) as [col Hcol]. rewrite Hr. simpl. rewrite Hcol. simpl.
    destruct (lines !! (i + 1)) as [r'|] eqn:Hr'; [|apply go_to_spec; [done|apply boundary_len|by apply outside_len]].
    rewrite Forall_lookup in Hok. destruct (Hok _ _ Hr') as (? & ? & ?). by apply move_to_display_col_spec.
  - destruct (target_col_of_line_spec t Hwf) as [col ->]. simpl.
    destruct (suffix_at_boundary _ _ (wf_cursor _ Hwf)) as (a & r & -> & Ht & Ha). simpl.
    destruct (find_char is_newline r) as [k|] eqn:Hk; [|apply go_to_spec; [done|apply boundary_len|by apply outside_len]].
    apply find_char_Some in Hk as (x & d & y & Hr & Hx & Hd & _). apply is_newline_len in Hd.
    assert (Hstart : boundary (text t) (k + cursor_pos t + 1)).
    { rewrite Ht, Hr. exists (a ++ x ++ [d]), y. rewrite !byte_len_app. simpl. rewrite <- !(assoc_L (++)). split; [done|lia]. }
    destruct (end_of_line_spec t _ Hstart) as (e & -> & He & Hle & _). simpl. by apply move_to_display_col_spec.
Qed.
End Libraries.
End TextAreaFacts.
