(* ===== verification/TextAreaPromises.v ===== *)
(** * What the text area promises

    No key and no call makes it panic; a key never cuts an element in two; what was
    killed can be brought back; the line of the cursor is among those drawn. *)
From S2P Require Import Prelude Str TextArea TextAreaFacts.
Import TextArea TextAreaFacts.

Module TextAreaPromises.

Section Keys.
Context `{Target} `{TextLibraries} `{!LawfulLibraries}.

(** ** Keys *)

(** The computation ends, the invariant holds after it, and elements are edited whole. *)
Definition keeps (t : TextArea) (m : result Empty_set TextArea) : Prop :=
  ∃ t', m = Ok t' ∧ wf t' ∧ edits t t' ∧ (cursor_outside t → cursor_outside t').
Lemma keeps_same t : wf t → keeps t (Ok t).
Proof. intros Hwf. exists t. split_and!; try done. by apply same_edits. Qed.
Lemma goes_keeps t m : goes t m → keeps t m.
Proof. intros (t' & ? & ? & ? & ?). by exists t'. Qed.
Lemma insert_str_keeps s t : wf t → keeps t (insert_str s t).
Proof.
  intros Hwf. destruct (insert_str_at_spec (cursor_pos t) s t Hwf) as (t' & a & c & Hi & _ & _ & _ & Hwf' & He & _ & _ & Ho & _).
  by exists t'.
Qed.
Lemma replace_range_keeps i j s t : wf t → boundary (text t) i → boundary (text t) j → i ≤ j → keeps t (replace_range (i, j) s t).
Proof. intros. by apply replace_range_spec. Qed.

(** Killing a range: nothing happens to an empty one; otherwise its text, with the
    elements it cuts, goes to the kill buffer. *)
Lemma kill_range_spec i j t : wf t → boundary (text t) i → boundary (text t) j → i ≤ j →
  keeps t (kill_range (i, j) t)
  ∧ ∃ t', kill_range (i, j) t = Ok t'
    ∧ (t' = t ∨ i ≤ cursor_pos t ≤ j → t' = t ∨ ∃ a m c, text t = a ++ m ++ c ∧ text t' = a ++ c ∧ m ≠ [] ∧ kill_buffer t' = m
         ∧ cursor_pos t' = byte_len a ∧ outside (element_list t') (byte_len a)).
Proof.
  intros Hwf Hi Hj Hij. destruct (expand_spec t i j (wf_elements _ Hwf) Hi Hj Hij) as (i' & j' & Hex & Hi'le & Hj'le & Hi' & Hj' & Hal & _).
  unfold kill_range. rewrite Hex. simpl. destruct (Nat.leb_spec j' i') as [Hempty|Hlt].
  { split; [by apply keeps_same|]. exists t. split; [done|]. by left. }
  destruct (slice_boundaries _ _ _ Hi' Hj') as [m Hm]; [lia|]. rewrite Hm. simpl. pose proof Hm as (a & c & Ht & Ha & Hlen)%slice_Some.
  case_bool_decide as Hne; [subst m; simpl in Hlen; lia|].
  destruct (replace_range_raw_spec i' j' [] (with_kill_buffer m t)) as
    (t' & a' & m' & c' & Hr & Ht1 & Ht' & Ha' & Hj'' & Hwf' & He & Hk & Hcur & Hout & Hap); [by apply with_kill_buffer_wf|done|done|lia|done|].
  simpl in *. rewrite Ht in Ht1. destruct (prefix_eq a (m ++ c) a' (m' ++ c') Ht1) as [<- Hmc]; [lia|]. rewrite byte_len_app in Hj''.
  destruct (prefix_eq m c m' c' Hmc) as [<- <-]; [lia|]. rewrite Hr. split.
  - exists t'. split_and!; [done|done|exact He|]. intros _. apply Hout. left. by destruct m.
  - exists t'. split; [done|]. intros Hc. right. exists a, m, c. rewrite app_nil_r in *.
    assert (Hc' : i' ≤ cursor_pos t ≤ j').
    { destruct Hc as [->|?]; [|lia]. apply (f_equal byte_len) in Ht'. rewrite Ht, !byte_len_app in Ht'. lia. }
    split_and!; try done; [rewrite (Hcur Hc'); lia|]. specialize (Hap ltac:(lia)). rewrite <- Ha in Hap. by apply apart_outside in Hap as [? _].
Qed.
Lemma kill_range_keeps i j t : wf t → boundary (text t) i → boundary (text t) j → i ≤ j → keeps t (kill_range (i, j) t).
Proof. intros. by apply kill_range_spec. Qed.

Lemma delete_backward_keeps n t : wf t → keeps t (delete_backward n t).
Proof.
  intros Hwf. unfold delete_backward. destruct (_ || _); [by apply keeps_same|].
  destruct (back_times_spec t n _ Hwf (wf_cursor _ Hwf)) as [Hb Hle]. apply replace_range_keeps; [done..|apply (wf_cursor _ Hwf)|done].
Qed.
Lemma delete_forward_keeps n t : wf t → keeps t (delete_forward n t).
Proof.
  intros Hwf. unfold delete_forward. destruct (_ || _); [by apply keeps_same|].
  destruct (forward_times_spec t n _ Hwf (wf_cursor _ Hwf)) as [Hb Hle]. apply replace_range_keeps; [done|apply (wf_cursor _ Hwf)|done..].
Qed.

(** The commands that kill text, each as a range that begins or ends at the cursor. *)
Inductive kill_command : Type := KillWordBackward | KillWordForward | KillToEndOfLine | KillToBeginningOfLine.
Definition run_kill (k : kill_command) : TextArea → result Empty_set TextArea :=
  match k with
  | KillWordBackward => delete_backward_word
  | KillWordForward => delete_forward_word
  | KillToEndOfLine => kill_to_end_of_line
  | KillToBeginningOfLine => kill_to_beginning_of_line
  end.
Lemma run_kill_range k t : wf t →
  run_kill k t = Ok t ∨ ∃ i j, run_kill k t = kill_range (i, j) t ∧ boundary (text t) i ∧ boundary (text t) j ∧ i ≤ cursor_pos t ≤ j.
Proof.
  intros Hwf. pose proof (wf_cursor _ Hwf) as Hc. destruct k; simpl.
  - destruct (beginning_of_previous_word_spec t Hwf) as (p & Hp & Hb & Hle). unfold delete_backward_word. rewrite Hp. simpl.
    right. exists p, (cursor_pos t). split_and!; done || lia.
  - destruct (end_of_next_word_spec t Hwf) as (p & Hp & Hb & Hle). unfold delete_forward_word. rewrite Hp. simpl.
    destruct (cursor_pos t <? p); [|by left]. right. exists (cursor_pos t), p. split_and!; done || lia.
  - unfold kill_to_end_of_line, end_of_current_line. destruct (end_of_line_spec t _ Hc) as (e & -> & He & Hle & Hnext). simpl.
    destruct (Nat.eqb_spec (cursor_pos t) e) as [Heq|].
    + destruct (Nat.ltb_spec e (len t)); [|by left]. right. exists (cursor_pos t), (e + 1). split_and!; auto; lia.
    + right. exists (cursor_pos t), e. split_and!; done || lia.
  - unfold kill_to_beginning_of_line, beginning_of_current_line. destruct (beginning_of_line_spec t _ Hc) as (b & -> & Hb & Hle & Hprev). simpl.
    destruct (Nat.eqb_spec (cursor_pos t) b) as [Heq|].
    + destruct (Nat.ltb_spec 0 b) as [Hpos|]; [|by left]. destruct (Hprev Hpos) as (b' & -> & Hb'). right. exists b', (b' + 1).
      replace (b' + 1 - 1) with b' by lia. split_and!; done || lia.
    + right. exists b, (cursor_pos t). split_and!; done || lia.
Qed.
Lemma run_kill_keeps k t : wf t → keeps t (run_kill k t).
Proof.
  intros Hwf. destruct (run_kill_range k t Hwf) as [->|(i & j & -> & Hi & Hj & Hle)]; [by apply keeps_same|].
  apply kill_range_keeps; done || lia.
Qed.
Lemma yank_keeps t : wf t → keeps t (yank t).
Proof. intros Hwf. unfold yank. case_bool_decide; [by apply keeps_same|by apply insert_str_keeps]. Qed.

Lemma input_keeps event t : wf t → keeps t (input event t).
Proof.
  intros Hwf.
  assert (Hleft : keeps t (Ok (move_cursor_left t))) by by apply goes_keeps, move_left_spec.
  assert (Hright : keeps t (Ok (move_cursor_right t))) by by apply goes_keeps, move_right_spec.
  assert (Hup : keeps t (move_cursor_up t)) by by apply goes_keeps, move_up_spec.
  assert (Hdown : keeps t (move_cursor_down t)) by by apply goes_keeps, move_down_spec.
  assert (Hhome : ∀ b, keeps t (move_cursor_to_beginning_of_line b t)) by (intros; by apply goes_keeps, move_to_beginning_spec).
  assert (Hend : ∀ b, keeps t (move_cursor_to_end_of_line b t)) by (intros; by apply goes_keeps, move_to_end_spec).
  assert (Hprev : keeps t (pos ← beginning_of_previous_word t; Ok (set_cursor pos t))).
  { destruct (beginning_of_previous_word_spec t Hwf) as (p & -> & _). by apply goes_keeps, set_cursor_goes. }
  assert (Hnext : keeps t (pos ← end_of_next_word t; Ok (set_cursor pos t))).
  { destruct (end_of_next_word_spec t Hwf) as (p & -> & _). by apply goes_keeps, set_cursor_goes. }
  pose proof (λ s, insert_str_keeps s t Hwf) as Hins. pose proof (λ n, delete_backward_keeps n t Hwf) as Hdb.
  pose proof (λ n, delete_forward_keeps n t Hwf) as Hdf. pose proof (yank_keeps t Hwf) as Hyank. pose proof (keeps_same t Hwf) as Hsame.
  pose proof (run_kill_keeps KillWordBackward t Hwf) as Hwb. pose proof (run_kill_keeps KillWordForward t Hwf) as Hwfw.
  pose proof (run_kill_keeps KillToEndOfLine t Hwf) as Hke. pose proof (run_kill_keeps KillToBeginningOfLine t Hwf) as Hkb. simpl in *.
  destruct event as [code mods kind]. unfold input; simpl. destruct kind; [| |done]; destruct code; simpl; try done;
    unfold input_char; cbv zeta; repeat case_match; done.
Qed.

(** C14. A key edits one piece of the text: elements are deleted whole or not
    at all, those before and behind the piece keep order, ids, names and
    texts, and the cursor stays out of the elements when it was. *)
Theorem keys_keep_elements_whole event t :
  wf t →
  ∃ t', input event t = Ok t' ∧ wf t' ∧ (cursor_outside t → cursor_outside t')
    ∧ ∃ a m c s la lm lc,
        text t = a ++ m ++ c ∧ text t' = a ++ s ++ c ∧ element_list t = la ++ lm ++ lc
        ∧ Forall (until (byte_len a)) la ∧ Forall (within (byte_len a) (byte_len (a ++ m))) lm ∧ Forall (from (byte_len (a ++ m))) lc
        ∧ contents (text t') (element_list t') = contents (text t) (la ++ lc).
Proof. intros Hwf. destruct (input_keeps event t Hwf) as (t' & ? & ? & ? & ?). by exists t'. Qed.

(** ** The kill buffer *)

Lemma set_text_clearing_wf s t : wf (set_text_clearing_elements s t).
Proof.
  unfold set_text_clearing_elements, set_text_inner. split; simpl; [|by split; constructor|done].
  set (t0 := {| text := s |}). by apply (clamp_nearest_spec (cursor_pos t `min` byte_len s) t0); split; constructor.
Qed.
Lemma kill_survives_clearing s t : kill_buffer (set_text_clearing_elements s t) = kill_buffer t.
Proof. done. Qed.

(** A command that kills text takes one piece out of it; yanking right
    after restores the text with the cursor behind the piece, and yanking
    after the text was cleared gives the piece. *)
Theorem yank_restores_killed k t :
  wf t →
  ∃ t1, run_kill k t = Ok t1
    ∧ (t1 = t
       ∨ ∃ a m c, text t = a ++ m ++ c ∧ text t1 = a ++ c ∧ m ≠ []
           ∧ (∃ t2, yank t1 = Ok t2 ∧ text t2 = text t ∧ cursor_pos t2 = byte_len (a ++ m))
           ∧ ∃ t2, yank (set_text_clearing_elements [] t1) = Ok t2 ∧ text t2 = m).
Proof.
  intros Hwf. destruct (run_kill_range k t Hwf) as [->|(i & j & -> & Hi & Hj & Hle)]; [exists t; by auto|].
  destruct (kill_range_spec i j t Hwf Hi Hj ltac:(lia)) as [(t0 & Hk0 & Hwf1 & _) (t1 & Hk & Hcase)].
  rewrite Hk in Hk0. injection Hk0 as <-. exists t1. split; [done|].
  destruct Hcase as [->|(a & m & c & Ht & Ht1 & Hm & Hbuf & Hcur & Hout)]; [by right|by left|]. right. exists a, m, c.
  split_and!; [done..| |].
  - unfold yank, insert_str. rewrite Hbuf, bool_decide_false by done.
    destruct (insert_str_at_spec (cursor_pos t1) m t1 Hwf1) as (t2 & x & y & Hi2 & Hx & Ht2 & Hlen & _ & _ & _ & Hcur2 & _).
    exists t2. unfold clamp_pos_for_insertion in Hlen.
    rewrite clamp_nearest_id in Hlen; [|apply (wf_cursor _ Hwf1)|by rewrite Hcur].
    rewrite Ht1 in Hx. destruct (prefix_eq a c x y Hx) as [<- <-]; [lia|]. split_and!; [done|by rewrite Ht2|].
    rewrite Hcur2, Hcur, Nat.leb_refl, byte_len_app. done.
  - unfold yank, insert_str. rewrite kill_survives_clearing, Hbuf, bool_decide_false by done.
    destruct (insert_str_at_spec (cursor_pos (set_text_clearing_elements [] t1)) m _ (set_text_clearing_wf [] t1))
      as (t2 & x & y & Hi2 & Hx & Ht2 & _).
    exists t2. split; [done|]. simpl in Hx. symmetry in Hx. apply app_nil in Hx as [-> ->]. by rewrite Ht2, app_nil_r.
Qed.

(** ** Elements *)

Definition apart_elements (e d : TextElement) : Prop := elem_end e ≤ elem_start d ∨ elem_end d ≤ elem_start e.
Lemma insert_by_start_Forall (P : TextElement → Prop) e l : P e → Forall P l → Forall P (insert_by_start e l).
Proof. intros He Hl. induction Hl as [|d l Hd Hl IH]; simpl; [by constructor|]. case_match; repeat (constructor; try done). Qed.
Lemma sort_by_start_Forall (P : TextElement → Prop) l : Forall P l → Forall P (sort_by_start l).
Proof. induction 1 as [|e l He Hl IH]; simpl; [done|]. by apply insert_by_start_Forall. Qed.
Lemma insert_by_start_before e l : nonempty e → Forall nonempty l → Forall (apart_elements e) l →
  StronglySorted before l → StronglySorted before (insert_by_start e l).
Proof.
  intros He Hne Hap Hs. induction Hs as [|d l Hs IH Hd]; simpl; [by repeat constructor|].
  apply Forall_cons_1 in Hne as [Hned Hne], Hap as [Hapd Hap]. unfold nonempty, apart_elements in *. destruct (Nat.leb_spec (elem_start e) (elem_start d)).
  - constructor; [by constructor|]. assert (before e d) as Hed by (unfold before; lia). constructor; [done|].
    eapply Forall_both; [exact Hd|exact Hne|]. intros x. unfold before in *. lia.
  - constructor; [auto|]. apply insert_by_start_Forall; [unfold before; lia|done].
Qed.
Lemma sort_by_start_ok s l : Forall (in_text s) l → StronglySorted apart_elements l → elements_ok s (sort_by_start l).
Proof.
  intros Ht Hap. split; [by apply sort_by_start_Forall|]. induction Hap as [|e l Hap IH He]; simpl; [constructor|].
  apply Forall_cons_1 in Ht as [[Hne _] Ht]. apply insert_by_start_before; [done|..|by apply sort_by_start_Forall|auto].
  apply sort_by_start_Forall. eapply Forall_impl; [exact Ht|]. by intros d [? _].
Qed.
Lemma before_apart l : StronglySorted before l → StronglySorted apart_elements l.
Proof.
  induction 1 as [|e l Hs IH He]; constructor; [done|]. eapply Forall_impl; [exact He|]. intros d. unfold before, apart_elements. by left.
Qed.
Lemma filter_ok s l f : elements_ok s l → elements_ok s (List.filter f l).
Proof.
  intros [Ht Hs]. induction Hs as [|e l Hs IH He]; simpl; [by split; constructor|]. apply Forall_cons_1 in Ht as [Hte Ht].
  destruct (IH Ht) as [IHt IHs]. destruct (f e); [|done]. split; constructor; try done. apply Forall_forall. intros d Hd.
  rewrite Forall_forall in He. apply He. apply list_elem_of_In, filter_In in Hd as [Hd _]. by apply list_elem_of_In.
Qed.

Lemma add_element_wf i j name t : wf t → i < j → boundary (text t) i → boundary (text t) j → Forall (apart i j) (element_list t) →
  wf (add_element_with_id i j name t).1.
Proof.
  intros Hwf Hij Hi Hj Hap. destruct (wf_elements _ Hwf) as [Ht Hs]. pose proof (wf_cursor _ Hwf) as Hc. pose proof (wf_cache _ Hwf) as Hca.
  unfold add_element_with_id, take_element_id. simpl. split; [done| |done]. simpl. apply sort_by_start_ok.
  - apply Forall_app. split; [done|]. by apply Forall_singleton.
  - apply StronglySorted_app_2; [|by apply before_apart|by repeat constructor]. intros e d He ->%list_elem_of_singleton.
    rewrite Forall_forall in Hap. specialize (Hap e He). unfold apart, apart_elements in *. simpl. lia.
Qed.

(** The calls end with the invariant. *)
Definition ends_well (m : result Empty_set TextArea) : Prop := ∃ t', m = Ok t' ∧ wf t'.
Lemma keeps_ends_well t m : keeps t m → ends_well m.
Proof. intros (t' & ? & ? & _). by exists t'. Qed.
Lemma add_element_ends_well i j name pos t : wf t → i < j → boundary (text t) i → boundary (text t) j → Forall (apart i j) (element_list t) →
  wf (set_cursor pos (add_element_with_id i j name t).1).
Proof. intros. apply set_cursor_spec. by apply add_element_wf. Qed.

(** A new element is where its text was inserted. *)
Lemma inserted_element name s t : wf t → s ≠ [] →
  let start := clamp_pos_for_insertion (cursor_pos t) t in
  ∃ t', insert_str_at start s t = Ok t' ∧ wf (set_cursor (start + byte_len s) (add_element_with_id start (start + byte_len s) name t').1).
Proof.
  intros Hwf Hs start. destruct (clamp_nearest_spec (cursor_pos t) t (wf_elements _ Hwf)) as [Hb Ho].
  fold (clamp_pos_for_insertion (cursor_pos t) t) in Hb, Ho. fold start in Hb, Ho.
  destruct (insert_str_at_spec start s t Hwf) as (t' & a & c & Hi & Ht & Ht' & Hlen & Hwf' & _ & _ & _ & _ & Hap).
  exists t'. split; [done|]. unfold clamp_pos_for_insertion in Hlen. rewrite clamp_nearest_id in Hlen by done.
  rewrite <- Hlen, <- byte_len_app. assert (0 < byte_len s) by (pose proof (byte_len_0 s); destruct (byte_len s); [by destruct Hs; auto|lia]).
  apply add_element_ends_well; [done|rewrite byte_len_app; lia|..|done]; rewrite Ht'.
  - by exists a, (s ++ c).
  - exists (a ++ s), c. by rewrite <- (assoc_L (++)).
Qed.

Lemma clamp_nearest_boundary p t : boundary (text t) (clamp_pos_to_nearest_boundary p t).
Proof. unfold clamp_pos_to_nearest_boundary. repeat case_match; apply clamp_char_boundary. Qed.

(** An element holds itself whole, and no part of the others. *)
Lemma element_aligned t e : wf t → e ∈ element_list t → Forall (aligned (elem_start e) (elem_end e)) (element_list t).
Proof.
  intros Hwf. destruct (wf_elements _ Hwf) as [Ht Hs]. clear Ht. induction Hs as [|d l Hs IH Hd]; intros He; [by apply elem_of_nil in He|].
  rewrite Forall_forall in Hd. apply elem_of_cons in He as [->|He].
  - constructor; [unfold aligned; lia|]. apply Forall_forall. intros x Hx. specialize (Hd x Hx). unfold before, aligned in *. lia.
  - constructor; [|auto]. specialize (Hd e He). unfold before, aligned in *. lia.
Qed.
Lemma element_bounds t e : wf t → e ∈ element_list t → in_text (text t) e.
Proof. intros Hwf He. destruct (wf_elements _ Hwf) as [Ht _]. rewrite Forall_forall in Ht. auto. Qed.
Lemma replace_element_text e s t : wf t → e ∈ element_list t →
  ∃ t', replace_range_raw (elem_start e, elem_end e) s t = Ok t' ∧ wf t'
    ∧ boundary (text t') (elem_start e) ∧ boundary (text t') (elem_start e + byte_len s)
    ∧ Forall (apart (elem_start e) (elem_start e + byte_len s)) (element_list t').
Proof.
  intros Hwf He. destruct (element_bounds t e Hwf He) as (Hne & Hi & Hj).
  destruct (replace_range_raw_spec _ _ s t Hwf Hi Hj ltac:(lia) (element_aligned t e Hwf He))
    as (t' & a & m & c & Hr & Ht & Ht' & Ha & _ & Hwf' & _ & _ & _ & _ & Hap).
  exists t'. split_and!; [done..|by rewrite Ht', <- Ha; exists a, (s ++ c)| |].
  - rewrite Ht', <- Ha, <- byte_len_app. exists (a ++ s), c. by rewrite <- (assoc_L (++)).
  - rewrite <- Ha at 2. rewrite <- byte_len_app. auto.
Qed.

Lemma add_element_range_wf r t : wf t → wf (add_element_range r t).1.
Proof.
  intros Hwf. unfold add_element_range. set (i := clamp_pos_to_char_boundary (r.1 `min` len t) t). set (j := clamp_pos_to_char_boundary (r.2 `min` len t) t).
  destruct (Nat.leb_spec j i); [done|]. destruct (existsb _ _); [done|]. destruct (existsb (λ e, _ && _) _) eqn:Hover; [done|].
  assert (wf (add_element_with_id i j None t).1) as Hadd; [|unfold add_element; by destruct (add_element_with_id i j None t)].
  apply add_element_wf; [done|lia|apply clamp_char_boundary..|]. apply Forall_forall. intros e He.
  destruct (decide (apart i j e)) as [|Hno]; [done|]. assert (existsb (λ e, (i <? elem_end e) && (elem_start e <? j)) (element_list t) = true); [|congruence].
  apply existsb_exists. exists e. split; [by apply list_elem_of_In|]. unfold apart in Hno. apply andb_true_iff. rewrite !Nat.ltb_lt. lia.
Qed.
Lemma remove_element_range_wf r t : wf t → wf (remove_element_range r t).1.
Proof.
  intros Hwf. unfold remove_element_range. case_match; [done|]. simpl. apply with_elements_wf; [done|]. apply filter_ok, (wf_elements _ Hwf).
Qed.

(** The others move when the text of an element is replaced in place. *)
Lemma shift_others l1 e l2 n diff :
  Forall nonempty (l1 ++ e :: l2) → StronglySorted before (l1 ++ e :: l2) →
  imap (shift_other (length l1) (elem_start e) (elem_end e) n diff) (l1 ++ e :: l2)
  = l1 ++ {| elem_id := elem_id e; elem_start := elem_start e; elem_end := elem_start e + n; elem_name := elem_name e |} :: (moved diff <$> l2).
Proof.
  intros Hne Hs. rewrite imap_app. f_equal.
  - transitivity (imap (λ _, id) l1); [apply imap_ext|by rewrite (imap_const id), list_fmap_id]. intros k d Hk. unfold shift_other.
    pose proof (lookup_lt_Some _ _ _ Hk) as Hlt. rewrite (proj2 (Nat.eqb_neq _ _)) by lia.
    assert (before d e) as Hde by (eapply StronglySorted_app_1_elem_of; [exact Hs|by eapply list_elem_of_lookup_2|by left]).
    unfold before in Hde. by rewrite (proj2 (Nat.leb_le _ _) Hde), orb_true_r.
  - rewrite imap_cons. f_equal; [unfold shift_other; by rewrite Nat.add_0_r, Nat.eqb_refl|].
    transitivity (imap (λ _, moved diff) l2); [apply imap_ext|by rewrite (imap_const (moved diff))]. intros k d Hk. unfold compose, shift_other.
    rewrite (proj2 (Nat.eqb_neq _ _)) by lia.
    apply StronglySorted_app_1_r, StronglySorted_inv in Hs as [_ He]. rewrite Forall_forall in He. apply list_elem_of_lookup_2 in Hk.
    apply Forall_app in Hne as [_ [Hne Hnl]%Forall_cons_1]. rewrite Forall_forall in Hnl. specialize (He d Hk). specialize (Hnl d Hk).
    unfold before, nonempty in *. rewrite (proj2 (Nat.leb_gt _ _)) by lia. rewrite orb_false_r, (proj2 (Nat.leb_le _ _)) by lia.
    destruct (Z.eqb_spec diff 0) as [->|]; [|done]. unfold moved, shift_pos. rewrite !Z.add_0_r, !Nat2Z.id. by destruct d.
Qed.
Lemma replace_element_payload_wf old new t : wf t → new ≠ [] →
  ∃ t' b, replace_element_payload old new t = Ok (t', b) ∧ wf t'.
Proof.
  intros Hwf Hnew. unfold replace_element_payload. destruct (list_find _ _) as [[idx e]|] eqn:Hf; [|by exists t, false].
  apply list_find_Some in Hf as (He & Hold & _). pose proof (lookup_lt_Some _ _ _ He) as Hidx.
  pose proof (element_bounds t e Hwf (list_elem_of_lookup_2 _ _ _ He)) as (Hne & Hi & Hj). pose proof (boundary_le _ _ Hj) as Hlen.
  unfold len. rewrite (proj2 (Nat.ltb_ge _ _)), (proj2 (Nat.ltb_ge (byte_len (text t)) _)) by lia. simpl.
  destruct (boundaries_split _ _ _ Hi Hj ltac:(lia)) as (a & m & c & Ht & Ha & Hm).
  assert (Hsplice : splice (text t) (elem_start e) (elem_end e) new = Some (a ++ new ++ c)).
  { rewrite Ht, <- Ha. replace (elem_end e) with (byte_len a + byte_len m) by lia. apply splice_app. }
  rewrite Hsplice. simpl. rewrite <- Hm.
  destruct (list_elem_of_split_length _ _ _ He) as (l1 & l2 & Hl & ->).
  pose proof (wf_elements _ Hwf) as Hok. pose proof (elements_nonempty _ _ Hok) as Hnel. destruct Hok as [Htx Hs].
  pose proof (element_aligned t e Hwf (list_elem_of_lookup_2 _ _ _ He)) as Hal.
  destruct (replace_elements a m c new (element_list t)) as (R1 & _ & R3 & _ & _).
  { rewrite <- Ht. by split. } { by rewrite byte_len_app, Ha, Hm, Nat.add_comm, Nat.sub_add by lia. }
  rewrite Hl in *. rewrite shift_others by done.
  assert (Hshift : shift_elements (byte_len a) (byte_len m) (byte_len new) (l1 ++ e :: l2)
    = l1 ++ (moved (Z.of_nat (byte_len new) - Z.of_nat (byte_len m)) <$> l2)).
  { rewrite (cons_middle e l1 l2), Hm, Ha. apply shift_elements_split; [lia|by rewrite <- cons_middle|..].
    - apply Forall_forall. intros d Hd. eapply (StronglySorted_app_1_elem_of before); [exact Hs|done|by left].
    - apply Forall_singleton. by split.
    - apply StronglySorted_app_1_r, StronglySorted_inv in Hs as [_ Hs]. exact Hs. }
  rewrite Hshift in R1, R3. set (e' := {| elem_id := elem_id e |}). set (l' := moved _ <$> l2) in *.
  assert (Hpos : 0 < byte_len new) by (pose proof (byte_len_0 new); destruct (byte_len new); [by destruct Hnew; auto|lia]).
  assert (Hin : in_text (a ++ new ++ c) e').
  { unfold in_text, e'. simpl. rewrite <- Ha, <- byte_len_app. split_and!; [rewrite byte_len_app; lia|by exists a, (new ++ c)|].
    exists (a ++ new), c. by rewrite <- (assoc_L (++)). }
  destruct R1 as [R1t R1s]. apply Forall_app in R1t as [R1a R1c]. apply Forall_app in R3 as [R3a R3c].
  assert (Hall : Forall (in_text (a ++ new ++ c)) (l1 ++ e' :: l')) by (apply Forall_app; by split; [|constructor]).
  assert (Happart : StronglySorted apart_elements (l1 ++ e' :: l')).
  { apply before_apart in R1s. apply StronglySorted_app_2.
    - intros x y Hx [->|Hy]%elem_of_cons; [|by eapply StronglySorted_app_1_elem_of].
      rewrite Forall_forall in R3a. specialize (R3a x Hx). unfold apart, apart_elements, e' in *. simpl. rewrite byte_len_app in R3a. lia.
    - by eapply StronglySorted_app_1_l.
    - constructor; [by eapply StronglySorted_app_1_r|]. eapply Forall_impl; [exact R3c|]. intros y.
      unfold apart, apart_elements, e'. simpl. rewrite byte_len_app. lia. }
  do 2 eexists. split; [reflexivity|]. split; simpl; [|by apply sort_by_start_ok|by intros ? [=]].
  exact (clamp_nearest_boundary _ (with_elements (l1 ++ e' :: l') (with_text (a ++ new ++ c) t))).
Qed.

(** ** Whole texts *)

(** The elements of a text are given apart from each other. *)
Definition ranges_apart (r q : nat * nat) : Prop := r.2 ≤ q.1 ∨ q.2 ≤ r.1.
Section Given.
Variable s : str.
Let clamped (p : nat) (t : TextArea) : nat := clamp_pos_to_char_boundary (p `min` len t) t.
Lemma clamped_mono i j t : i ≤ j → clamped i t ≤ clamped j t.
Proof. intros Hle. apply clamp_char_mono. lia. Qed.
Lemma clamped_text p t t' : text t = text t' → clamped p t = clamped p t'.
Proof. intros Ht. unfold clamped, clamp_pos_to_char_boundary, len. by rewrite Ht. Qed.
(** What is known after the ranges [prev]. *)
Definition given (prev : list (nat * nat)) (t : TextArea) : Prop :=
  text t = s ∧ Forall (in_text s) (element_list t) ∧ StronglySorted apart_elements (element_list t)
  ∧ Forall (λ e, ∃ r, r ∈ prev ∧ elem_start e = clamped r.1 t ∧ elem_end e = clamped r.2 t) (element_list t).
Lemma add_given prev r t : given prev t → Forall (λ q, ranges_apart q r) prev → given (prev ++ [r]) (add_given_element t r).
Proof.
  intros (Ht & Hin & Hap & Hfrom) Hr. unfold add_given_element. fold (clamped r.1 t) (clamped r.2 t).
  destruct (Nat.leb_spec (clamped r.2 t) (clamped r.1 t)) as [|Hlt].
  { split_and!; try done. eapply Forall_impl; [exact Hfrom|]. intros e (q & Hq & ?). exists q. set_solver. }
  simpl. set (e := {| elem_id := _ |}). assert (Htext : ∀ p, clamped p (with_elements (element_list t ++ [e]) (take_element_id t).2) = clamped p t).
  { intros p. by apply clamped_text. }
  split_and!; [done| | |].
  - simpl. apply Forall_app. split; [done|]. apply Forall_singleton. unfold in_text, e. simpl. rewrite <- Ht. split_and!; [done|apply clamp_char_boundary..].
  - simpl. apply StronglySorted_app_2; [|done|by repeat constructor]. intros d x Hd ->%list_elem_of_singleton.
    rewrite Forall_forall in Hfrom. rewrite Forall_forall in Hr. destruct (Hfrom d Hd) as (q & Hq & Hs1 & Hs2). specialize (Hr q Hq).
    unfold apart_elements, e. simpl. rewrite Hs1, Hs2. destruct Hr; [left|right]; by apply clamped_mono.
  - simpl. apply Forall_app. split; [|apply Forall_singleton; exists r; rewrite !Htext; set_solver].
    eapply Forall_impl; [exact Hfrom|]. intros d (q & Hq & ?). exists q. rewrite !Htext. set_solver.
Qed.
Lemma add_all_given prev l t : given prev t → StronglySorted ranges_apart (prev ++ l) → given (prev ++ l) (foldl add_given_element t l).
Proof.
  revert prev t. induction l as [|r l IH]; intros prev t Ht Hs; simpl; [by rewrite app_nil_r|].
  rewrite cons_middle, (assoc_L (++)) in *. apply IH; [|done]. apply add_given; [done|]. apply Forall_forall. intros q Hq.
  rewrite <- (assoc_L (++)) in Hs. eapply StronglySorted_app_1_elem_of; [exact Hs|done|by left].
Qed.
End Given.
Lemma set_text_with_elements_wf s l t : StronglySorted ranges_apart l → wf (set_text_with_elements s l t).
Proof.
  intros Hl. unfold set_text_with_elements, set_text_inner. set (t0 := {| text := s |}).
  destruct (add_all_given s [] l t0) as (Ht & Hin & Hap & _); [by split_and!; constructor|done|].
  set (t1 := foldl add_given_element t0 l) in *. pose proof (sort_by_start_ok _ _ Hin Hap) as Hok. rewrite <- Ht in Hok.
  split; simpl; [|done|done]. apply clamp_nearest_boundary with (t := with_elements (sort_by_start (element_list t1)) t1).
Qed.

(** ** All calls *)

Inductive operation : Type :=
| Input (event : KeyEvent)
| SetText (s : str)
| SetTextWithElements (s : str) (ranges : list (nat * nat))
| InsertStrAt (pos : nat) (s : str)
| ReplaceRange (start stop : nat) (s : str)
| SetCursor (pos : nat)
| DeleteBackward (n : nat)
| DeleteForward (n : nat)
| Kill (k : kill_command)
| Yank
| InsertElement (s : str)
| InsertNamedElement (s id : str)
| ReplaceElementById (id s : str)
| UpdateNamedElementById (id s : str)
| ReplaceElementPayload (old replacement : str)
| AddElementRange (start stop : nat)
| RemoveElementRange (start stop : nat)
| Draw (area : Rect) (scroll : N)
| CursorOnScreen (area : Rect) (scroll : N).

Definition state_of {A} (m : result Empty_set (TextArea * A)) : result Empty_set TextArea := '(t, _) ← m; Ok t.
Definition apply (o : operation) (t : TextArea) : result Empty_set TextArea :=
  match o with
  | Input event => input event t
  | SetText s => Ok (set_text_clearing_elements s t)
  | SetTextWithElements s ranges => Ok (set_text_with_elements s ranges t)
  | InsertStrAt pos s => insert_str_at pos s t
  | ReplaceRange start stop s => replace_range (start, stop) s t
  | SetCursor pos => Ok (set_cursor pos t)
  | DeleteBackward n => delete_backward n t
  | DeleteForward n => delete_forward n t
  | Kill k => run_kill k t
  | Yank => yank t
  | InsertElement s => state_of (insert_element s t)
  | InsertNamedElement s id => insert_named_element s id t
  | ReplaceElementById id s => state_of (replace_element_by_id id s t)
  | UpdateNamedElementById id s => state_of (update_named_element_by_id id s t)
  | ReplaceElementPayload old replacement => state_of (replace_element_payload old replacement t)
  | AddElementRange start stop => Ok (add_element_range (start, stop) t).1
  | RemoveElementRange start stop => Ok (remove_element_range (start, stop) t).1
  | Draw area scroll => state_of ('(t, _, range) ← render_ref area scroll t; Ok (t, range))
  | CursorOnScreen area scroll => state_of (cursor_pos_with_state area scroll t)
  end.
(** What callers have to see to: a range of the text is between characters, an
    element has a text, and the elements of a new text are apart. *)
Definition allowed (o : operation) (t : TextArea) : Prop :=
  match o with
  | SetTextWithElements _ ranges => StronglySorted ranges_apart ranges
  | ReplaceRange start stop _ => start ≤ stop ∧ boundary (text t) start ∧ boundary (text t) stop
  | InsertElement s | InsertNamedElement s _ | UpdateNamedElementById _ s | ReplaceElementPayload _ s => s ≠ []
  | _ => True
  end.

Lemma apply_ends_well o t : wf t → allowed o t → ends_well (apply o t).
Proof.
  intros Hwf Hallowed. destruct o; simpl in *.
  - by eapply keeps_ends_well, input_keeps.
  - eexists. split; [done|]. apply set_text_clearing_wf.
  - eexists. split; [done|]. by apply set_text_with_elements_wf.
  - destruct (insert_str_at_spec pos s t Hwf) as (t' & a & c & Hi & _ & _ & _ & Hwf' & _). by exists t'.
  - destruct Hallowed as (? & ? & ?). by eapply keeps_ends_well, replace_range_keeps.
  - eexists. split; [done|]. by apply set_cursor_spec.
  - by eapply keeps_ends_well, delete_backward_keeps.
  - by eapply keeps_ends_well, delete_forward_keeps.
  - by eapply keeps_ends_well, run_kill_keeps.
  - by eapply keeps_ends_well, yank_keeps.
  - destruct (inserted_element None s t Hwf Hallowed) as (t' & Hi & Hwf'). unfold insert_element. rewrite Hi. simpl. eexists. split; [done|exact Hwf'].
  - destruct (inserted_element (Some id) s t Hwf Hallowed) as (t' & Hi & Hwf'). unfold insert_named_element. rewrite Hi. simpl. eexists. split; [done|exact Hwf'].
  - unfold replace_element_by_id. destruct (List.find _ _) as [e|] eqn:Hf; [|by exists t]. apply first_found_Some in Hf as [He _].
    destruct (replace_element_text e s t Hwf He) as (t' & -> & Hwf' & _). simpl. eexists. split; [done|].
    apply with_elements_wf; [done|]. apply filter_ok, (wf_elements _ Hwf').
  - unfold update_named_element_by_id. destruct (List.find _ _) as [e|] eqn:Hf; [|by exists t]. apply first_found_Some in Hf as [He _].
    destruct (replace_element_text e s t Hwf He) as (t' & -> & Hwf' & Hi & Hj & Hap). simpl. eexists. split; [done|].
    apply add_element_wf; try done. pose proof (byte_len_0 s). destruct (byte_len s); [by destruct Hallowed; auto|lia].
  - destruct (replace_element_payload_wf old replacement t Hwf Hallowed) as (t' & b & -> & Hwf'). by exists t'.
  - eexists. split; [done|]. by apply add_element_range_wf.
  - eexists. split; [done|]. by apply remove_element_range_wf.
  - unfold render_ref. destruct (wrapped_lines_spec t (rect_width area) Hwf) as (t' & lines & -> & Hwf' & _). by exists t'.
  - unfold cursor_pos_with_state. destruct (wrapped_lines_spec t (rect_width area) Hwf) as (t' & lines & -> & Hwf' & _ & _ & _ & Hok & Ht & Hc).
    simpl. destruct (wrapped_line_index_by_start lines (cursor_pos t')) as [i|] eqn:Hi; [|by exists t'].
    apply line_index_spec in Hi as (r & Hr & Hle & _). rewrite Hr. simpl. rewrite Forall_lookup in Hok. destruct (Hok _ _ Hr) as (_ & Hb & _).
    rewrite Ht. destruct (slice_boundaries (text t) r.1 (cursor_pos t') Hb) as [line ->]; [rewrite Hc; apply (wf_cursor _ Hwf)|done|].
    simpl. by exists t'.
Qed.

(** What calls lead to, from a new text area. *)
Inductive reachable : TextArea → Prop :=
| reachable_new : reachable new
| reachable_apply o t t' : reachable t → allowed o t → apply o t = Ok t' → reachable t'.
Lemma reachable_wf t : reachable t → wf t.
Proof.
  induction 1 as [|o t t' _ IH Hallowed Happly]; [apply new_wf|].
  destruct (apply_ends_well o t IH Hallowed) as (t'' & Heq & Hwf). rewrite Happly in Heq. by injection Heq as <-.
Qed.

(** C8. From a new text area, no sequence of keys and calls that respect what
    is asked of callers makes it panic, and after each the cursor is between
    two characters, the elements are in order, apart, between characters and
    not empty, and the kept wrapped lines are those of the text. *)
Theorem text_area_never_panics t o :
  reachable t → allowed o t →
  ∃ t', apply o t = Ok t' ∧ reachable t' ∧ boundary (text t') (cursor_pos t')
    ∧ Forall (in_text (text t')) (element_list t') ∧ StronglySorted before (element_list t')
    ∧ ∀ c, wrap_cache t' = Some c → wrap_ranges (text t') (cache_width c) = Ok (cache_lines c).
Proof.
  intros Hreach Hallowed. destruct (apply_ends_well o t (reachable_wf t Hreach) Hallowed) as (t' & Happly & [Hc [Hin Hs] Hca]).
  exists t'. split_and!; try done. by eapply reachable_apply.
Qed.

(** ** Drawing *)

(** Of a text with fewer lines than u16 counts, the lines that are drawn
    fit the area and the cursor's is one of them; when all fit, all are drawn. *)
Theorem cursor_line_drawn area scroll t lines :
  wf t → wrap_ranges (text t) (rect_width area) = Ok lines → (N.of_nat (length lines) < 65536)%N → (0 < rect_height area < 65536)%N →
  ∃ t' first past, render_ref area scroll t = Ok (t', first, (first, past)) ∧ text t' = text t ∧ cursor_pos t' = cursor_pos t
    ∧ (past ≤ N.of_nat (length lines))%N ∧ (past - first ≤ rect_height area)%N
    ∧ ((N.of_nat (length lines) ≤ rect_height area)%N → first = 0%N ∧ past = N.of_nat (length lines))
    ∧ ∀ i, wrapped_line_index_by_start lines (cursor_pos t) = Some i → (first ≤ N.of_nat i < past)%N.
Proof.
  intros Hwf Hlines Hmany Hheight. unfold render_ref.
  destruct (wrapped_lines_spec t (rect_width area) Hwf) as (t' & lines' & -> & _ & _ & _ & Hl & _ & Ht & Hc).
  rewrite Hlines in Hl. injection Hl as <-. simpl. do 3 eexists. split; [reflexivity|]. split; [done|]. split; [done|].
  assert (Hidx : ∀ i, wrapped_line_index_by_start lines (cursor_pos t) = Some i → (N.of_nat i < N.of_nat (length lines))%N).
  { intros i Hi. apply line_index_spec in Hi as (r & Hr & _). apply lookup_lt_Some in Hr. lia. }
  unfold effective_scroll, num_lines. rewrite Hc. set (total := N.of_nat (length lines)) in *. set (h := rect_height area) in *.
  assert (Hsmall : ∀ n, (n < 65536)%N → u16 n = n) by (intros; by apply N.mod_small).
  rewrite (Hsmall total) by done. destruct (N.leb_spec total h) as [Hfit|Hover].
  - rewrite N.add_0_l, (Hsmall h) by lia. split_and!; try lia. intros i Hi. specialize (Hidx i Hi). lia.
  - set (index := wrapped_line_index_by_start lines (cursor_pos t)) in *. set (d := N.of_nat (default 0 index)).
    assert (Hd : (d < total)%N) by (unfold d; destruct index; simpl; [by apply Hidx|lia]).
    assert (Hline : ∀ i, index = Some i → N.of_nat i = d) by (intros i Hi; unfold d; by rewrite Hi).
    rewrite (Hsmall d), (Hsmall (N.min scroll (total - h) + h)%N) by lia.
    destruct (N.ltb_spec d (N.min scroll (total - h))); [|destruct (N.leb_spec (N.min scroll (total - h) + h) d)].
    + rewrite Hsmall by lia. split_and!; try lia. intros i Hi. rewrite (Hline i Hi). lia.
    + rewrite (Hsmall (d + 1 - h)%N), Hsmall by lia. split_and!; try lia. intros i Hi. rewrite (Hline i Hi). lia.
    + rewrite Hsmall by lia. split_and!; try lia. intros i Hi. rewrite (Hline i Hi). lia.
Qed.
End Keys.

(** ** Examples *)

#[local] Instance not_windows : Target := false.
(** A grapheme is a character, a run is a word, and every line has one character. *)
Fixpoint chars_at (o : nat) (s : str) : list (nat * str) :=
  match s with [] => [] | c :: s' => (o, [c]) :: chars_at (o + len_utf8 c) s' end.
#[local] Instance characters : TextLibraries := {|
  grapheme_indices := chars_at 0;
  grapheme_prev_boundary s p := Some (Some (prev_char_boundary s (p - 1)));
  grapheme_next_boundary s p := Some (Some (next_char_boundary (byte_len s - (p + 1)) s (p + 1)));
  split_word_bound_indices s := [(0, s)];
  display_width := length;
  textwrap_wrap s _ := (λ q, Borrowed q.1 (q.1 + byte_len q.2)) <$> chars_at 0 s;
|}.
Lemma chars_at_pieces u s : Forall (piece_of (u ++ s)) (chars_at (byte_len u) s).
Proof.
  revert u. induction s as [|c s IH]; intros u; simpl; constructor; [by exists u, s|].
  replace (u ++ c :: s) with ((u ++ [c]) ++ s) by by rewrite <- (assoc_L (++)).
  replace (byte_len u + len_utf8 c) with (byte_len (u ++ [c])) by (rewrite byte_len_app; simpl; lia). apply IH.
Qed.
#[local] Instance characters_lawful : LawfulLibraries.
Proof.
  split; simpl.
  - intros s p Hp Hpos. destruct (prev_char_boundary_spec s (p - 1)) as (? & ? & _). eexists. split; [done|]. split; [done|lia].
  - intros s p Hp Hlt. destruct (next_char_boundary_spec s (byte_len s - (p + 1)) (p + 1)) as (? & ? & _); [lia|].
    eexists. split; [done|]. split; [done|lia].
  - intros s. apply (chars_at_pieces [] s).
  - intros s. apply Forall_singleton. exists [], []. by rewrite app_nil_r.
  - intros s width. apply Forall_fmap. eapply Forall_impl; [apply (chars_at_pieces [] s)|]. intros q Hq. unfold compose.
    destruct (piece_boundaries _ _ Hq). split_and!; [lia|done..].
Qed.

Definition key (c : KeyCode) : KeyEvent := {| code := c; modifiers := NONE; kind := Press |}.
Definition typed (s : string) : list operation := (λ c, Input (key (Char c))) <$> lit s.
Definition run_all (l : list operation) (t : TextArea) : result Empty_set TextArea := foldl (λ m o, t ← m; apply o t) (Ok t) l.
Lemma run_all_reachable l t t' :
  reachable t → Forall (λ o, ∀ t, allowed o t) l → run_all l t = Ok t' → reachable t'.
Proof.
  intros Ht Hl. revert t Ht. induction Hl as [|o l Ho Hl IH]; intros t Ht Hrun; [by injection Hrun as <-|].
  unfold run_all in *. simpl in Hrun. destruct (apply_ends_well o t (reachable_wf t Ht) (Ho t)) as (t1 & Happly & _).
  rewrite Happly in Hrun. eapply IH; [|exact Hrun]. by eapply reachable_apply.
Qed.

(** A text with an image in it. *)
Definition with_image : list operation := typed "see " ++ [InsertElement (lit "[Image #1]")] ++ typed " now".
Definition image_text : TextArea := match run_all with_image new with Ok t => t | _ => new end.
Lemma image_reachable : reachable image_text.
Proof.
  apply (run_all_reachable with_image new); [constructor| |by vm_compute].
  repeat (constructor; [done|]). constructor.
Qed.

Lemma text_area_never_panics_witness :
  ∃ t, apply (Kill KillToBeginningOfLine) image_text = Ok t ∧ text t = [] ∧ Forall (in_text (text t)) (element_list t).
Proof.
  destruct (text_area_never_panics image_text (Kill KillToBeginningOfLine) image_reachable I) as (t & Ht & _ & _ & Hin & _).
  exists t. split_and!; [exact Ht| |exact Hin]. vm_compute in Ht. injection Ht as <-. reflexivity.
Defined.

(** Backspace behind the image deletes all of it. *)
Definition behind_image : TextArea := set_cursor 14 image_text.
Lemma keys_keep_elements_whole_witness :
  ∃ t, input (key Backspace) behind_image = Ok t ∧ text t = lit "see  now" ∧ wf t ∧ element_list t = [].
Proof.
  destruct (keys_keep_elements_whole (key Backspace) behind_image) as (t & Ht & Hwf & _).
  { apply set_cursor_spec. exact (reachable_wf _ image_reachable). }
  exists t. pose proof Ht as Ht'. vm_compute in Ht'. injection Ht' as <-. split_and!; [exact Ht|reflexivity|exact Hwf|reflexivity].
Defined.

Lemma yank_restores_killed_witness :
  ∃ t1 t2, kill_to_beginning_of_line image_text = Ok t1 ∧ yank t1 = Ok t2 ∧ text t1 = [] ∧ text t2 = lit "see [Image #1] now".
Proof.
  destruct (yank_restores_killed KillToBeginningOfLine image_text (reachable_wf _ image_reachable)) as (t1 & Hk & Hcase).
  pose proof Hk as Hk'. vm_compute in Hk'. injection Hk' as Hk'.
  destruct Hcase as [Heq|(a & m & c & _ & _ & _ & (t2 & Hy & Ht2 & _) & _)].
  - exfalso. rewrite Heq in Hk'. apply (f_equal text) in Hk'. vm_compute in Hk'. discriminate Hk'.
  - exists t1, t2. split_and!; [exact Hk|exact Hy|rewrite <- Hk'; reflexivity|rewrite Ht2; reflexivity].
Defined.

Lemma cursor_line_drawn_witness :
  let area := {| rect_x := 0; rect_y := 0; rect_width := 1; rect_height := 3 |} in
  ∃ t first past, render_ref area 0 image_text = Ok (t, first, (first, past)) ∧ (past - first ≤ 3)%N ∧ (first ≤ 17 < past)%N.
Proof.
  intros area. set (lines := match wrap_ranges (text image_text) 1 with Ok l => l | _ => [] end).
  destruct (cursor_line_drawn area 0 image_text lines (reachable_wf _ image_reachable)) as (t & first & past & Hr & _ & _ & _ & Hh & _ & Hi).
  - vm_compute. reflexivity.
  - vm_compute. reflexivity.
  - split; vm_compute; reflexivity.
  - exists t, first, past. split_and!; [exact Hr|exact Hh|..]; apply (Hi 17); vm_compute; reflexivity.
Defined.

(** A token that is made an element around the cursor leaves the cursor inside, and
    what is typed then goes to the closest end of the element. *)
Definition slash_typed : TextArea :=
  match run_all (typed "/pan" ++ [SetCursor 2] ++ typed "l" ++ [AddElementRange 0 5]) new with Ok t => t | _ => new end.
Example element_around_cursor :
  text slash_typed = lit "/plan" ∧ cursor_pos slash_typed = 3 ∧ find_element_containing 3 slash_typed ≠ None
  ∧ (text <$> input (key (Char (ascii "x"))) slash_typed) = Ok (lit "/planx")
  ∧ (cursor_pos <$> input (key (Char (ascii "x"))) slash_typed) = Ok 3.
Proof. split_and!; vm_compute; done. Qed.
End TextAreaPromises.
