(* ===== verification/PasteBurst.v ===== *)
(** * Paste bursts in the composer

    Models [tui/src/bottom_pane/paste_burst.rs], which tells pasted text from typed
    keys by their timing on terminals that do not mark pastes, the part of
    [tui/src/bottom_pane/chat_composer.rs] that drives it over the text area (keys
    that edit, pastes, images that are pasted as paths, ticks, and [Enter] inside of
    a burst), and the reading of pasted paths in [tui/src/clipboard_paste.rs].
    Popups, the footer and what is submitted are left out.  Time is counted in
    nanoseconds, and both sets of thresholds are covered. *)
From stdpp Require Import gmap.
From S2P Require Import Prelude Str Io TextArea.
Import TextArea.

Module PasteBurst.
Section Burst.
Context `{Target}.

Definition millis (n : N) : N := n * 1000000.
Definition PASTE_BURST_MIN_CHARS : N := 3.
Definition PASTE_ENTER_SUPPRESS_WINDOW : N := millis 120.
Definition PASTE_BURST_CHAR_INTERVAL : N := if windows then millis 30 else millis 8.
Definition PASTE_BURST_ACTIVE_IDLE_TIMEOUT : N := if windows then millis 60 else millis 8.

Record PasteBurst : Type := {
  last_plain_char_time : option N;
  consecutive_plain_char_burst : N;
  burst_window_until : option N;
  buffer : str;
  active : bool;
  pending_first_char : option (char * N);
}.
Definition default_burst : PasteBurst := {|
  last_plain_char_time := None; consecutive_plain_char_burst := 0; burst_window_until := None; buffer := []; active := false;
  pending_first_char := None |}.
Inductive CharDecision : Type := BeginBuffer (retro_chars : N) | BufferAppend | RetainFirstChar | BeginBufferFromPending.
Record RetroGrab : Type := { start_byte : nat; grabbed : str }.
Inductive FlushResult : Type := Paste (s : str) | Typed (c : char) | NothingDue.

(** [now.duration_since(t)], zero when [t] is later. *)
Definition duration_since (now t : N) : N := now - t.
(** The burst window is open for a while from [now] on. *)
Definition extend_window (now : N) (b : PasteBurst) : PasteBurst := {|
  last_plain_char_time := last_plain_char_time b; consecutive_plain_char_burst := consecutive_plain_char_burst b;
  burst_window_until := Some (now + PASTE_ENTER_SUPPRESS_WINDOW)%N;
  buffer := buffer b; active := active b; pending_first_char := pending_first_char b |}.
Definition with_buffer (s : str) (a : bool) (p : option (char * N)) (b : PasteBurst) : PasteBurst := {|
  last_plain_char_time := last_plain_char_time b; consecutive_plain_char_burst := consecutive_plain_char_burst b;
  burst_window_until := burst_window_until b; buffer := s; active := a; pending_first_char := p |}.

Definition is_active_internal (b : PasteBurst) : bool := active b || negb (bool_decide (buffer b = [])).
Definition is_active (b : PasteBurst) : bool := is_active_internal b || bool_decide (is_Some (pending_first_char b)).

Definition note_plain_char (now : N) (b : PasteBurst) : PasteBurst :=
  let count :=
    match last_plain_char_time b with
    | Some prev =>
        if (duration_since now prev <=? PASTE_BURST_CHAR_INTERVAL)%N then (consecutive_plain_char_burst b + 1) `min` 65535 else 1
    | None => 1
    end%N in
  {| last_plain_char_time := Some now; consecutive_plain_char_burst := count; burst_window_until := burst_window_until b;
     buffer := buffer b; active := active b; pending_first_char := pending_first_char b |}.
(** The first character, when it is still held at [now]. *)
Definition held_recently (now : N) (b : PasteBurst) : option char :=
  '(held, held_at) ← pending_first_char b;
  if (duration_since now held_at <=? PASTE_BURST_CHAR_INTERVAL)%N then Some held else None.

Definition on_plain_char (ch : char) (now : N) (b : PasteBurst) : PasteBurst * CharDecision :=
  let b := note_plain_char now b in
  if active b then (extend_window now b, BufferAppend)
  else match held_recently now b with
  | Some held => (extend_window now (with_buffer (buffer b ++ [held]) true None b), BeginBufferFromPending)
  | None =>
      if (PASTE_BURST_MIN_CHARS <=? consecutive_plain_char_burst b)%N
      then (b, BeginBuffer (consecutive_plain_char_burst b - 1))
      else (with_buffer (buffer b) false (Some (ch, now)) b, RetainFirstChar)
  end.
Definition on_plain_char_no_hold (now : N) (b : PasteBurst) : PasteBurst * option CharDecision :=
  let b := note_plain_char now b in
  if active b then (extend_window now b, Some BufferAppend)
  else if (PASTE_BURST_MIN_CHARS <=? consecutive_plain_char_burst b)%N
  then (b, Some (BeginBuffer (consecutive_plain_char_burst b - 1)))
  else (b, None).

Definition flush_if_due (now : N) (b : PasteBurst) : PasteBurst * FlushResult :=
  let timeout := if is_active_internal b then PASTE_BURST_ACTIVE_IDLE_TIMEOUT else PASTE_BURST_CHAR_INTERVAL in
  let timed_out := match last_plain_char_time b with Some t => (timeout <? duration_since now t)%N | None => false end in
  if timed_out && is_active_internal b then (with_buffer [] false (pending_first_char b) b, Paste (buffer b))
  else if timed_out then
    match pending_first_char b with
    | Some (ch, _) => (with_buffer (buffer b) (active b) None b, Typed ch)
    | None => (b, NothingDue)
    end
  else (b, NothingDue).

Definition append_char_to_buffer (ch : char) (now : N) (b : PasteBurst) : PasteBurst :=
  extend_window now (with_buffer (buffer b ++ [ch]) (active b) (pending_first_char b) b).
Definition append_newline_if_active (now : N) (b : PasteBurst) : PasteBurst * bool :=
  if is_active b then (append_char_to_buffer NL now b, true) else (b, false).
Definition newline_should_insert_instead_of_submit (now : N) (b : PasteBurst) : bool :=
  let in_burst_window := match burst_window_until b with Some until => (now <=? until)%N | None => false end in
  is_active b || in_burst_window.
Definition begin_with_retro_grabbed (s : str) (now : N) (b : PasteBurst) : PasteBurst :=
  extend_window now (with_buffer (buffer b ++ s) true (pending_first_char b) b).
Definition try_append_char_if_active (ch : char) (now : N) (b : PasteBurst) : PasteBurst * bool :=
  if is_active_internal b then (append_char_to_buffer ch now b, true) else (b, false).

(** [s.char_indices()], the offsets alone. *)
Fixpoint char_indices (offset : nat) (s : str) : list nat :=
  match s with [] => [] | c :: s' => offset :: char_indices (offset + len_utf8 c) s' end.
Definition retro_start_index (before : str) (retro_chars : nat) : nat :=
  if retro_chars =? 0 then byte_len before else default 0 (reverse (char_indices 0 before) !! (retro_chars - 1)).
Definition decide_begin_buffer (now : N) (before : str) (retro_chars : nat) (b : PasteBurst)
    : result Empty_set (PasteBurst * option RetroGrab) :=
  let start_byte := retro_start_index before retro_chars in
  grabbed ← expect (suffix_at before start_byte);
  if existsb is_whitespace grabbed || (16 <=? length grabbed)
  then Ok (begin_with_retro_grabbed grabbed now b, Some {| start_byte := start_byte; grabbed := grabbed |})
  else Ok (b, None).

Definition flush_before_modified_input (b : PasteBurst) : PasteBurst * option str :=
  if is_active b
  then (with_buffer [] false None b, Some (buffer b ++ match pending_first_char b with Some (ch, _) => [ch] | None => [] end))
  else (b, None).
Definition clear_window_after_non_char (b : PasteBurst) : PasteBurst := {|
  last_plain_char_time := None; consecutive_plain_char_burst := 0; burst_window_until := None; buffer := buffer b; active := false;
  pending_first_char := None |}.
Definition clear_after_explicit_paste (b : PasteBurst) : PasteBurst := default_burst.
End Burst.
End PasteBurst.
Import PasteBurst.

#[export] Instance KeyCode_eq_dec : EqDecision KeyCode.
Proof. solve_decision. Defined.

(** ** Paths of images *)

Module PastedPath.

(** Where the program runs, the crates [url] and [shlex], and the files that are images. *)
Class ImageLibraries : Type := {
  target_linux : bool;
  (** [/proc/version] or the environment names WSL. *)
  is_probably_wsl : bool;
  (** [Url::parse] of a [file] URL, and its path if it has one. *)
  file_url : str → option (option str);
  shlex_words : str → list str;
  (** [image::image_dimensions] can read the file. *)
  image_dimensions : str → bool;
}.

Section Paths.
Context `{ImageLibraries}.

Definition COLON : char := 58%N.
Definition SLASH : char := 47%N.
Definition BACKSLASH : char := 92%N.
Definition is_ascii_lowercase (c : char) : bool := ((97 <=? c) && (c <=? 122))%N.

(** The components are split at both kinds of slashes and pushed to the path. *)
Definition convert_windows_path_to_wsl (input : str) : option str :=
  if starts_with input [BACKSLASH; BACKSLASH] then None
  else
    c ← head input;
    let drive_letter := char_to_ascii_lowercase c in
    if negb (is_ascii_lowercase drive_letter) then None
    else if negb (bool_decide (slice input 1 2 = Some [COLON])) then None
    else
      rest ← slice input 2 (byte_len input);
      let slashed := (λ c, if (c =? BACKSLASH)%N then SLASH else c) <$> rest in
      let components := filter (λ component, component ≠ []) (split_on SLASH (trim_start_matches (N.eqb SLASH) slashed)) in
      Some (foldl (λ result component, result ++ [SLASH] ++ component) (lit "/mnt/" ++ [drive_letter]) components).
Definition normalize_windows_path (input : str) : option str :=
  let drive :=
    match input with c :: _ => is_ascii_lowercase (char_to_ascii_lowercase c) | [] => false end
    && bool_decide (slice input 1 2 = Some [COLON])
    && match slice input 2 3 with Some s => bool_decide (s = [BACKSLASH] ∨ s = [SLASH]) | None => false end in
  let unc := starts_with input [BACKSLASH; BACKSLASH] in
  if negb drive && negb unc then None
  else Some (if target_linux && is_probably_wsl then default input (convert_windows_path_to_wsl input) else input).
Definition unquoted (q : char) (s : str) : option str := s' ← strip_prefix [q] s; strip_suffix [q] s'.
Definition normalize_pasted_path (pasted : str) : option str :=
  let pasted := trim pasted in
  let inner := default (default pasted (unquoted SQUOTE pasted)) (unquoted DQUOTE pasted) in
  match file_url inner with
  | Some path => path
  | None =>
      match normalize_windows_path inner with
      | Some path => Some path
      | None => match shlex_words pasted with [part] => Some (default part (normalize_windows_path part)) | _ => None end
      end
  end.
End Paths.
End PastedPath.
Import PastedPath.

Module Composer.
Section Keys.
Context `{Target} `{TextLibraries} `{ImageLibraries}.

Definition LARGE_PASTE_CHAR_THRESHOLD : nat := 1000.
(** An attached image is its placeholder and its path. *)
Record Composer : Type := {
  textarea : TextArea;
  paste_burst : PasteBurst;
  pending_pastes : list (str * str);
  large_paste_counters : gmap nat nat;
  attached_images : list (str * str);
  remote_image_urls : list str;
  image_paste_enabled : bool;
  disable_paste_burst : bool;
  is_bash_mode : bool;
}.
Definition with_textarea (t : TextArea) (c : Composer) : Composer := {|
  textarea := t; paste_burst := paste_burst c; pending_pastes := pending_pastes c; large_paste_counters := large_paste_counters c;
  attached_images := attached_images c; remote_image_urls := remote_image_urls c; image_paste_enabled := image_paste_enabled c;
  disable_paste_burst := disable_paste_burst c; is_bash_mode := is_bash_mode c |}.
Definition with_burst (b : PasteBurst) (c : Composer) : Composer := {|
  textarea := textarea c; paste_burst := b; pending_pastes := pending_pastes c; large_paste_counters := large_paste_counters c;
  attached_images := attached_images c; remote_image_urls := remote_image_urls c; image_paste_enabled := image_paste_enabled c;
  disable_paste_burst := disable_paste_burst c; is_bash_mode := is_bash_mode c |}.
Definition with_pastes (l : list (str * str)) (c : Composer) : Composer := {|
  textarea := textarea c; paste_burst := paste_burst c; pending_pastes := l; large_paste_counters := large_paste_counters c;
  attached_images := attached_images c; remote_image_urls := remote_image_urls c; image_paste_enabled := image_paste_enabled c;
  disable_paste_burst := disable_paste_burst c; is_bash_mode := is_bash_mode c |}.
Definition with_counters (m : gmap nat nat) (c : Composer) : Composer := {|
  textarea := textarea c; paste_burst := paste_burst c; pending_pastes := pending_pastes c; large_paste_counters := m;
  attached_images := attached_images c; remote_image_urls := remote_image_urls c; image_paste_enabled := image_paste_enabled c;
  disable_paste_burst := disable_paste_burst c; is_bash_mode := is_bash_mode c |}.
Definition with_images (l : list (str * str)) (c : Composer) : Composer := {|
  textarea := textarea c; paste_burst := paste_burst c; pending_pastes := pending_pastes c; large_paste_counters := large_paste_counters c;
  attached_images := l; remote_image_urls := remote_image_urls c; image_paste_enabled := image_paste_enabled c;
  disable_paste_burst := disable_paste_burst c; is_bash_mode := is_bash_mode c |}.
Definition with_remote (l : list str) (c : Composer) : Composer := {|
  textarea := textarea c; paste_burst := paste_burst c; pending_pastes := pending_pastes c; large_paste_counters := large_paste_counters c;
  attached_images := attached_images c; remote_image_urls := l; image_paste_enabled := image_paste_enabled c;
  disable_paste_burst := disable_paste_burst c; is_bash_mode := is_bash_mode c |}.
Definition with_image_paste (e : bool) (c : Composer) : Composer := {|
  textarea := textarea c; paste_burst := paste_burst c; pending_pastes := pending_pastes c; large_paste_counters := large_paste_counters c;
  attached_images := attached_images c; remote_image_urls := remote_image_urls c; image_paste_enabled := e;
  disable_paste_burst := disable_paste_burst c; is_bash_mode := is_bash_mode c |}.
Definition with_disabled (d : bool) (c : Composer) : Composer := {|
  textarea := textarea c; paste_burst := paste_burst c; pending_pastes := pending_pastes c; large_paste_counters := large_paste_counters c;
  attached_images := attached_images c; remote_image_urls := remote_image_urls c; image_paste_enabled := image_paste_enabled c;
  disable_paste_burst := d; is_bash_mode := is_bash_mode c |}.
Definition with_bash (m : bool) (c : Composer) : Composer := {|
  textarea := textarea c; paste_burst := paste_burst c; pending_pastes := pending_pastes c; large_paste_counters := large_paste_counters c;
  attached_images := attached_images c; remote_image_urls := remote_image_urls c; image_paste_enabled := image_paste_enabled c;
  disable_paste_burst := disable_paste_burst c; is_bash_mode := m |}.

Definition BANG : char := 33%N.
Definition current_text (c : Composer) : str := (if is_bash_mode c then [BANG] else []) ++ text (textarea c).
Definition sync_bash_mode_from_text (c : Composer) : result Empty_set Composer :=
  if negb (is_bash_mode c) && starts_with (text (textarea c)) [BANG]
  then t ← replace_range (0, 1) [] (textarea c); Ok (with_bash true (with_textarea t c))
  else Ok c.
Definition insert_str (s : str) (c : Composer) : result Empty_set Composer :=
  t ← TextArea.insert_str s (textarea c); sync_bash_mode_from_text (with_textarea t c).

Definition next_large_paste_placeholder (char_count : nat) (c : Composer) : Composer * str :=
  let base := lit "[Pasted Content " ++ show_nat char_count ++ lit " chars]" in
  let next_suffix := S (default 0 (large_paste_counters c !! char_count)) in
  (with_counters (<[char_count := next_suffix]> (large_paste_counters c)) c,
   if next_suffix =? 1 then base else base ++ lit " #" ++ show_nat next_suffix).
(** [pasted.replace("\r\n", "\n").replace('\r', "\n")]. *)
Fixpoint normalize_newlines (s : str) : str :=
  match s with
  | [] => []
  | c :: s' =>
      if (c =? CR)%N
      then NL :: match s' with d :: s'' => if (d =? NL)%N then normalize_newlines s'' else normalize_newlines s' | [] => [] end
      else c :: normalize_newlines s'
  end.
Definition local_image_label_text (label_number : nat) : str := lit "[Image #" ++ show_nat label_number ++ lit "]".
Definition attach_image (path : str) (c : Composer) : result Empty_set Composer :=
  let image_number := length (remote_image_urls c) + length (attached_images c) + 1 in
  let placeholder := local_image_label_text image_number in
  '(t, _) ← insert_element placeholder (textarea c);
  Ok (with_images (attached_images c ++ [(placeholder, path)]) (with_textarea t c)).
Definition handle_paste_image_path (pasted : str) (c : Composer) : result Empty_set (Composer * bool) :=
  match normalize_pasted_path pasted with
  | None => Ok (c, false)
  | Some path_buf => if image_dimensions path_buf then c ← attach_image path_buf c; Ok (c, true) else Ok (c, false)
  end.
Definition handle_paste (pasted : str) (c : Composer) : result Empty_set Composer :=
  let pasted := normalize_newlines pasted in
  let char_count := length pasted in
  c ← (if LARGE_PASTE_CHAR_THRESHOLD <? char_count then
         let '(c, placeholder) := next_large_paste_placeholder char_count c in
         '(t, _) ← insert_element placeholder (textarea c);
         Ok (with_pastes (pending_pastes c ++ [(placeholder, pasted)]) (with_textarea t c))
       else
         '(c, attached) ← (if (1 <? char_count) && image_paste_enabled c then handle_paste_image_path pasted c else Ok (c, false));
         if (attached : bool) then t ← TextArea.insert_str [SPACE] (textarea c); Ok (with_textarea t c)
         else insert_str pasted c);
  Ok (with_burst (clear_after_explicit_paste (paste_burst c)) c).
Definition set_disable_paste_burst (disabled : bool) (c : Composer) : result Empty_set Composer :=
  let was_disabled := disable_paste_burst c in
  let c := with_disabled disabled c in
  if disabled && negb was_disabled then
    let '(b, out) := flush_before_modified_input (paste_burst c) in
    c ← match out with Some pasted => handle_paste pasted (with_burst b c) | None => Ok (with_burst b c) end;
    Ok (with_burst (clear_after_explicit_paste (paste_burst c)) c)
  else Ok c.

Definition handle_paste_burst_flush (now : N) (c : Composer) : result Empty_set (Composer * bool) :=
  let '(b, due) := flush_if_due now (paste_burst c) in
  let c := with_burst b c in
  match due with
  | Paste pasted => c ← handle_paste pasted c; Ok (c, true)
  | Typed ch => c ← insert_str [ch] c; Ok (c, true)
  | NothingDue => Ok (c, false)
  end.

(** The last character that starts at [p] or before, [last] when there is none. *)
Fixpoint last_start (offset p last : nat) (s : str) : nat :=
  match s with [] => last | c :: s' => if offset <=? p then last_start (offset + len_utf8 c) p offset s' else last end.
Definition clamp_to_char_boundary (s : str) (pos : nat) : nat :=
  let p := pos `min` byte_len s in
  if (p <? byte_len s) && negb (is_char_boundary s p) then last_start 0 p 0 s else p.
(** A burst may have begun [retro_chars] characters before the cursor: they move
    to the buffer, with [ch], if they look pasted. *)
Definition try_begin_buffer (ch : char) (now : N) (retro_chars : N) (c : Composer) : result Empty_set (Composer * bool) :=
  let txt := text (textarea c) in
  let safe_cur := clamp_to_char_boundary txt (cursor (textarea c)) in
  before ← expect (slice txt 0 safe_cur);
  '(b, grab) ← decide_begin_buffer now before (N.to_nat retro_chars) (paste_burst c);
  match grab with
  | Some grab =>
      t ← (if bool_decide (grabbed grab = []) then Ok (textarea c) else replace_range (start_byte grab, safe_cur) [] (textarea c));
      Ok (with_burst (append_char_to_buffer ch now b) (with_textarea t c), true)
  | None => Ok (with_burst b c, false)
  end.
(** What is held goes to the text. *)
Definition flush_held (c : Composer) : result Empty_set Composer :=
  let '(b, out) := flush_before_modified_input (paste_burst c) in
  match out with Some pasted => handle_paste pasted (with_burst b c) | None => Ok (with_burst b c) end.
(** The key goes to the text area; pastes whose placeholder is gone are forgotten. *)
Definition plain_input (input : KeyEvent) (c : Composer) : result Empty_set Composer :=
  t ← TextArea.input input (textarea c);
  Ok (with_pastes (filter (λ p, contains (text t) p.1 = true) (pending_pastes c)) (with_textarea t c)).
Definition handle_non_ascii_char (input : KeyEvent) (ch : char) (now : N) (c : Composer) : result Empty_set Composer :=
  if disable_paste_burst c then plain_input input c
  else
    let '(b, appended) := try_append_char_if_active ch now (paste_burst c) in
    if appended then Ok (with_burst b c)
    else
      c ← flush_held (with_burst b c);
      let '(b, decision) := on_plain_char_no_hold now (paste_burst c) in
      let c := with_burst b c in
      '(c, taken) ← match decision with
        | Some BufferAppend => Ok (with_burst (append_char_to_buffer ch now (paste_burst c)) c, true)
        | Some (BeginBuffer retro_chars) => try_begin_buffer ch now retro_chars c
        | Some _ => Crash
        | None => Ok (c, false)
        end;
      if (taken : bool) then Ok c else c ← flush_held c; plain_input input c.

(** The images are numbered behind the remote ones, and so are their elements. *)
Definition relabel_image (idx : nat) (c : Composer) : result Empty_set Composer :=
  match attached_images c !! idx with
  | Some (current, path) =>
      let expected := local_image_label_text (length (remote_image_urls c) + idx + 1) in
      if bool_decide (current = expected) then Ok c
      else
        '(t, _) ← replace_element_payload current expected (textarea c);
        Ok (with_images (<[idx := (expected, path)]> (attached_images c)) (with_textarea t c))
  | None => Ok c
  end.
Definition relabel_attached_images_and_update_placeholders (c : Composer) : result Empty_set Composer :=
  foldl (λ m idx, c ← m; relabel_image idx c) (Ok c) (seq 0 (length (attached_images c))).
(** The first image with this placeholder is dropped. *)
Definition drop_image (placeholder : str) (images : list (str * str)) : list (str * str) :=
  match list_find (λ img, img.1 = placeholder) images with Some (idx, _) => delete idx images | None => images end.
Definition reconcile_deleted_elements (elements_before : list str) (c : Composer) : result Empty_set Composer :=
  let elements_after := element_payloads (textarea c) in
  let removed := filter (λ e, e ∉ elements_after) elements_before in
  let images := foldl (λ images e, drop_image e images) (attached_images c) removed in
  let removed_any_image := length images <? length (attached_images c) in
  let c := with_images images (with_pastes (filter (λ p, p.1 ∉ removed) (pending_pastes c)) c) in
  if removed_any_image then relabel_attached_images_and_update_placeholders c else Ok c.
Definition has_ctrl_or_alt (mods : N) : bool :=
  (negb (N.land mods CONTROL =? 0)%N || negb (N.land mods ALT =? 0)%N) && negb (is_altgr mods).
Definition edit_with_key (input : KeyEvent) (c : Composer) : result Empty_set Composer :=
  let elements_before :=
    if bool_decide (pending_pastes c = []) && bool_decide (attached_images c = []) && bool_decide (remote_image_urls c = [])
    then None else Some (element_payloads (textarea c)) in
  if is_bash_mode c && bool_decide (code input = Backspace) && (cursor (textarea c) =? 0) then Ok (with_bash false c)
  else
    t ← TextArea.input input (textarea c);
    c ← sync_bash_mode_from_text (with_textarea t c);
    c ← match elements_before with Some before => reconcile_deleted_elements before c | None => Ok c end;
    Ok match code input with
       | Char _ => if has_ctrl_or_alt (modifiers input) then with_burst (clear_window_after_non_char (paste_burst c)) c else c
       | Enter => c
       | _ => with_burst (clear_window_after_non_char (paste_burst c)) c
       end.
Definition is_char_or_enter (k : KeyCode) : bool := match k with Char _ | Enter => true | _ => false end.
(** A plain ASCII character, and whether the burst took it. *)
Definition handle_plain_ascii (ch : char) (now : N) (c : Composer) : result Empty_set (Composer * bool) :=
  let '(b, decision) := on_plain_char ch now (paste_burst c) in
  let c := with_burst b c in
  match decision with
  | BufferAppend | BeginBufferFromPending => Ok (with_burst (append_char_to_buffer ch now (paste_burst c)) c, true)
  | BeginBuffer retro_chars => try_begin_buffer ch now retro_chars c
  | RetainFirstChar => Ok (c, true)
  end.
(** The rest of the handler: what is held goes first unless the key is [Enter]. *)
Definition edit_after_flush (input : KeyEvent) (c : Composer) : result Empty_set Composer :=
  c ← (if is_char_or_enter (code input) then Ok c else flush_held c); edit_with_key input c.
Definition handle_input_basic_with_time (input : KeyEvent) (now : N) (c : Composer) : result Empty_set Composer :=
  '(c, _) ← handle_paste_burst_flush now c;
  match code input with
  | Enter =>
      if negb (disable_paste_burst c) && is_active (paste_burst c) then
        let '(b, appended) := append_newline_if_active now (paste_burst c) in
        if appended then Ok (with_burst b c) else edit_after_flush input (with_burst b c)
      else edit_after_flush input c
  | Char ch =>
      if negb (has_ctrl_or_alt (modifiers input)) && negb (disable_paste_burst c) then
        if negb (ch <? 128)%N then handle_non_ascii_char input ch now c
        else
          '(c, taken) ← handle_plain_ascii ch now c;
          if (taken : bool) then Ok c else c ← flush_held c; edit_after_flush input c
      else c ← flush_held c; edit_after_flush input c
  | _ => edit_after_flush input c
  end.
Definition handle_input_basic (input : KeyEvent) (now : N) (c : Composer) : result Empty_set (Composer * bool) :=
  match kind input with
  | Release => Ok (c, false)
  | Press | Repeat => c ← handle_input_basic_with_time input now c; Ok (c, true)
  end.

(** [Enter] while there is a burst, in [handle_submission_with_time]: nothing when it
    goes on to submit. *)
Definition newline_in_burst (in_slash_context : bool) (now : N) (c : Composer) : result Empty_set (option Composer) :=
  let guard := negb (disable_paste_burst c) && negb in_slash_context in
  let '(b, appended) :=
    if guard && is_active (paste_burst c) then append_newline_if_active now (paste_burst c) else (paste_burst c, false) in
  if (appended : bool) then Ok (Some (with_burst b c))
  else if guard && newline_should_insert_instead_of_submit now b
  then t ← TextArea.insert_str [NL] (textarea c); Ok (Some (with_burst (extend_window now b) (with_textarea t c)))
  else Ok None.
End Keys.
End Composer.
