(* ===== verification/PasteBurstPromises.v ===== *)
(** * What paste bursts promise

    Typed text stays whole and in order unless [Enter] overtakes a held character,
    which the examples show it can; nothing the composer does panics or leaves a
    burst without an end; and the window in which [Enter] should still be part of a
    paste closes with the burst. *)
From stdpp Require Import gmap.
From S2P Require Import Prelude Str TextArea TextAreaFacts TextAreaPromises PasteBurst.
Import TextArea TextAreaFacts PasteBurst PastedPath Composer.

(** ** The text around the cursor *)

Module PasteBurstFacts.

Section Facts.
Context `{Target} `{TextLibraries} `{ImageLibraries}.


(** ** What the composer shows *)




(** ** What the burst holds *)

(** A burst in which no [Enter] overtook the first character. *)
Record in_order (b : PasteBurst) : Prop := {
  order_active : active b = true ↔ buffer b ≠ [];
  order_pending : ∀ ch t, pending_first_char b = Some (ch, t) → active b = false ∧ last_plain_char_time b = Some t;
  order_last : active b = true → is_Some (last_plain_char_time b);
}.

Lemma default_in_order : in_order default_burst.
Proof. split; [by split|by intros ??|done]. Qed.



(** The characters before the cursor that a burst takes back. *)
Lemma char_indices_lookup o s i x : char_indices o s !! i = Some x → x = o + byte_len (take i s).
Proof.
  revert o i. induction s as [|c s IH]; intros o [|i]; simpl; [done..|intros [= <-]; lia|]. intros Hi. rewrite (IH _ _ Hi). lia.
Qed.
Lemma char_indices_length o s : length (char_indices o s) = length s.
Proof. revert o. induction s as [|c s IH]; intros o; [done|]. simpl. by rewrite IH. Qed.
Lemma retro_start_index_spec s k : ∃ a g, s = a ++ g ∧ byte_len a = retro_start_index s k ∧ length g ≤ k.
Proof.
  unfold retro_start_index. destruct (Nat.eqb_spec k 0) as [->|Hk].
  { exists s, []. by rewrite app_nil_r. }
  destruct (Nat.lt_ge_cases (k - 1) (length s)) as [Hlt|Hge].
  - exists (take (length s - k) s), (drop (length s - k) s). rewrite take_drop, length_drop. split_and!; [done| |lia].
    rewrite reverse_lookup by by rewrite char_indices_length. rewrite char_indices_length.
    replace (length s - S (k - 1)) with (length s - k) by lia.
    destruct (char_indices 0 s !! (length s - k)) as [x|] eqn:Hx; [by apply char_indices_lookup in Hx|].
    apply lookup_ge_None in Hx. rewrite char_indices_length in Hx. lia.
  - exists [], s. split_and!; [done| |lia]. rewrite lookup_ge_None_2; [done|]. rewrite length_reverse, char_indices_length. lia.
Qed.
Lemma clamp_at_boundary a b : clamp_to_char_boundary (a ++ b) (byte_len a) = byte_len a.
Proof.
  unfold clamp_to_char_boundary. rewrite Nat.min_l by (rewrite byte_len_app; lia).
  rewrite (proj2 (is_char_boundary_spec _ _)), andb_false_r; [done|]. apply boundary_app, boundary_len.
Qed.

(** ** Keys that type *)

Definition char_key (ch : char) (shifted : bool) : KeyEvent :=
  {| code := Char ch; modifiers := if shifted then SHIFT else NONE; kind := Press |}.

(** Keys that leave the window of the burst open. *)
Definition keeps_window (k : KeyEvent) : Prop :=
  match code k with Char _ => has_ctrl_or_alt (modifiers k) = false | Enter => True | _ => False end.

(** ** One event *)




(** ** Runs *)


Lemma bind_assoc {A B C} (m : result Empty_set A) (f : A → result Empty_set B) (g : B → result Empty_set C) :
  (m ≫= f) ≫= g = m ≫= λ a, f a ≫= g.
Proof. by destruct m. Qed.

(** ** Bursts end *)

Lemma handle_paste_burst s c c' : handle_paste s c = Ok c' → paste_burst c' = default_burst.
Proof. unfold handle_paste. intros (c1 & _ & [= <-])%result_bind_Ok. done. Qed.
Lemma sync_burst c c' : sync_bash_mode_from_text c = Ok c' → paste_burst c' = paste_burst c.
Proof. unfold sync_bash_mode_from_text. case_match; [intros (t & _ & [= <-])%result_bind_Ok|intros [= <-]]; done. Qed.
Lemma insert_str_burst s c c' : insert_str s c = Ok c' → paste_burst c' = paste_burst c.
Proof. unfold insert_str. intros (t & _ & Hs)%result_bind_Ok. by apply sync_burst in Hs. Qed.

(** Nothing came for longer than both of the timeouts. *)
Definition quiet (now : N) (b : PasteBurst) : Prop :=
  ∀ t, last_plain_char_time b = Some t → (PASTE_BURST_CHAR_INTERVAL < duration_since now t ∧ PASTE_BURST_ACTIVE_IDLE_TIMEOUT < duration_since now t)%N.
Lemma quiet_flush now c c' flushed : handle_paste_burst_flush now c = Ok (c', flushed) →
  (is_active (paste_burst c) = true → is_Some (last_plain_char_time (paste_burst c))) → quiet now (paste_burst c) →
  is_active (paste_burst c') = false.
Proof.
  intros Hf Hlast Hquiet. destruct (is_active (paste_burst c)) eqn:Hact.
  - destruct (Hlast eq_refl) as [t Ht]. destruct (Hquiet t Ht) as [Hq1 Hq2]. revert Hf. unfold handle_paste_burst_flush, flush_if_due. rewrite Ht.
    replace ((if is_active_internal (paste_burst c) then _ else _) <? _)%N with true by (symmetry; apply N.ltb_lt; by case_match).
    simpl. destruct (is_active_internal (paste_burst c)) eqn:Hint.
    + intros (c1 & Hp & [= <- _])%result_bind_Ok. by rewrite (handle_paste_burst _ _ _ Hp).
    + unfold is_active in Hact. rewrite Hint in Hact. destruct (pending_first_char (paste_burst c)) as [[ch u]|] eqn:Hpend; [|done].
      intros (c1 & Hp & [= <- _])%result_bind_Ok. rewrite (insert_str_burst _ _ _ Hp). simpl.
      unfold is_active. change (is_active_internal (with_buffer (buffer (paste_burst c)) (active (paste_burst c)) None (paste_burst c)))
        with (is_active_internal (paste_burst c)). by rewrite Hint.
  - pose proof Hact as [Hint Hpend]%orb_false_iff. apply bool_decide_eq_false in Hpend. apply eq_None_not_Some in Hpend.
    revert Hf. unfold handle_paste_burst_flush, flush_if_due. rewrite Hint, Hpend, andb_false_r.
    destruct (match last_plain_char_time _ with Some _ => _ | None => _ end); by intros [= <- _].
Qed.

(** ** What holds between events *)

(** Whatever is held has a time to wait from, and the window is open only during a burst. *)
Record live (b : PasteBurst) : Prop := {
  live_last : is_active b = true → is_Some (last_plain_char_time b);
  live_window : is_Some (burst_window_until b) → is_active_internal b = true;
}.
Definition fits (c : Composer) : Prop := wf (textarea c) ∧ live (paste_burst c).
Definition well (m : result Empty_set Composer) : Prop := ∃ c', m = Ok c' ∧ fits c'.

Lemma default_live : live default_burst.
Proof. by split; [|intros [? ?]]. Qed.
Lemma bursting_live b : is_active_internal b = true → is_Some (last_plain_char_time b) → live b.
Proof. by split. Qed.
Lemma note_live now b : live b → live (note_plain_char now b).
Proof. intros [_ Hw]. split; [by eexists|exact Hw]. Qed.
Lemma append_internal ch now b : is_active_internal (append_char_to_buffer ch now b) = true.
Proof. unfold is_active_internal. simpl. rewrite bool_decide_false by (by destruct (buffer b)). by rewrite orb_true_r. Qed.
Lemma append_live ch now b : is_Some (last_plain_char_time b) → live (append_char_to_buffer ch now b).
Proof. intros Hlast. apply bursting_live; [apply append_internal|done]. Qed.
Lemma clear_live b : is_active b = false → live (clear_window_after_non_char b).
Proof.
  intros [Hint _]%orb_false_iff. split; [|by intros [? ?]]. unfold is_active, is_active_internal in *. simpl.
  apply orb_false_iff in Hint as [_ ->]. done.
Qed.
Lemma on_plain_char_live ch now b : live b → live (on_plain_char ch now b).1 ∧ is_Some (last_plain_char_time (on_plain_char ch now b).1).
Proof.
  intros Hb. pose proof (note_live now b Hb) as Hn. unfold on_plain_char.
  destruct (active (note_plain_char now b)) eqn:Ha.
  { split; [|by eexists]. apply bursting_live; [|by eexists]. unfold is_active_internal. simpl in *. by rewrite Ha. }
  destruct (held_recently now (note_plain_char now b)); [split; [by apply bursting_live; [|by eexists]|by eexists]|].
  destruct (_ <=? _)%N; [by split; [|by eexists]|]. split; [|by eexists]. split; [by eexists|]. intros Hw. apply (live_window _ Hn) in Hw.
  unfold is_active_internal in *. rewrite Ha in Hw. exact Hw.
Qed.

Lemma sync_well c : wf (textarea c) → ∃ c', sync_bash_mode_from_text c = Ok c' ∧ wf (textarea c') ∧ paste_burst c' = paste_burst c.
Proof.
  intros Hwf. unfold sync_bash_mode_from_text. destruct (negb _ && starts_with _ _) eqn:Hb; [|by exists c].
  apply andb_true_iff in Hb as [_ Hb]. unfold starts_with, strip_prefix in Hb. destruct (text (textarea c)) as [|x s] eqn:Ht; [done|].
  assert (Hx : x = BANG) by (symmetry; apply N.eqb_eq; by destruct (BANG =? x)%N). subst x.
  destruct (replace_range_spec 0 1 [] (textarea c) Hwf) as (t' & -> & Hwf' & _); [apply boundary_0|rewrite Ht; by exists [BANG], s|lia|]. simpl.
  by eexists.
Qed.
Lemma insert_str_well s c : wf (textarea c) → ∃ c', insert_str s c = Ok c' ∧ wf (textarea c') ∧ paste_burst c' = paste_burst c.
Proof.
  intros Hwf. unfold insert_str. destruct (TextAreaPromises.insert_str_keeps s (textarea c) Hwf) as (t & -> & Hwf' & _). simpl.
  by apply (sync_well (with_textarea t c)).
Qed.
Lemma paste_image_well s c : wf (textarea c) →
  ∃ c' attached, (if (1 <? length s) && image_paste_enabled c then handle_paste_image_path s c else Ok (c, false)) = Ok (c', attached)
    ∧ wf (textarea c').
Proof.
  intros Hwf. destruct (_ && _); [|by exists c, false]. unfold handle_paste_image_path.
  destruct (normalize_pasted_path s) as [path|]; [|by exists c, false]. destruct (image_dimensions path); [|by exists c, false].
  unfold attach_image. set (label := local_image_label_text _).
  destruct (TextAreaPromises.inserted_element None label (textarea c) Hwf) as (t' & Hi & Hwf'); [done|].
  unfold insert_element. rewrite Hi. simpl. by do 2 eexists.
Qed.
Lemma handle_paste_well s c : wf (textarea c) → ∃ c', handle_paste s c = Ok c' ∧ wf (textarea c') ∧ paste_burst c' = default_burst.
Proof.
  intros Hwf. unfold handle_paste. case_match.
  - unfold next_large_paste_placeholder. set (ph := if _ =? 1 then _ else _). simpl.
    destruct (TextAreaPromises.inserted_element None ph (textarea c) Hwf) as (t' & Hi & Hwf'); [by unfold ph; case_match|].
    unfold insert_element. rewrite Hi. simpl. by eexists.
  - destruct (paste_image_well (normalize_newlines s) c Hwf) as (c1 & attached & -> & Hwf1). cbn [mbind result_bind]. destruct attached.
    + destruct (TextAreaPromises.insert_str_keeps [SPACE] (textarea c1) Hwf1) as (t & -> & Hwf' & _). simpl. by eexists.
    + destruct (insert_str_well (normalize_newlines s) c1 Hwf1) as (c' & -> & Hwf' & _). simpl. by eexists.
Qed.
Lemma flush_held_well c : fits c → ∃ c', flush_held c = Ok c' ∧ fits c' ∧ is_active (paste_burst c') = false.
Proof.
  intros [Hwf Hl]. unfold flush_held, flush_before_modified_input. destruct (is_active (paste_burst c)) eqn:Ha.
  - match goal with |- context [handle_paste ?s ?d] => destruct (handle_paste_well s d) as (c' & -> & Hwf' & Hb); [done|] end.
    exists c'. unfold fits. rewrite Hb. split_and!; [done..|apply default_live|done].
  - by eexists.
Qed.
Lemma flush_due_well now c : fits c → ∃ c' flushed, handle_paste_burst_flush now c = Ok (c', flushed) ∧ fits c'.
Proof.
  intros [Hwf Hl]. unfold handle_paste_burst_flush, flush_if_due. destruct (_ && is_active_internal _).
  - match goal with |- context [handle_paste ?s ?d] => destruct (handle_paste_well s d) as (c' & -> & Hwf' & Hb); [done|] end.
    simpl. do 2 eexists. split; [done|]. split; [done|]. rewrite Hb. apply default_live.
  - destruct (match last_plain_char_time _ with Some _ => _ | None => _ end); [|by exists c, false; destruct c].
    destruct (pending_first_char (paste_burst c)) as [[ch u]|] eqn:Hp; [|by exists c, false; destruct c].
    match goal with |- context [insert_str ?s ?d] => destruct (insert_str_well s d) as (c' & -> & Hwf' & Hb); [done|] end.
    simpl. do 2 eexists. split; [done|]. split; [done|]. rewrite Hb. split; [|apply (live_window _ Hl)].
    intros Hact. apply (live_last _ Hl). unfold is_active in *. simpl in Hact. rewrite orb_false_r in Hact. apply orb_true_iff. left. exact Hact.
Qed.
Lemma try_begin_well ch now k c : fits c → is_Some (last_plain_char_time (paste_burst c)) →
  ∃ c' taken, try_begin_buffer ch now k c = Ok (c', taken) ∧ fits c'.
Proof.
  intros [Hwf Hl] Hlast. unfold try_begin_buffer, cursor. destruct (wf_cursor _ Hwf) as (a & b & Ht & Ha). rewrite <- Ha, Ht.
  rewrite clamp_at_boundary. rewrite (proj2 (slice_Some (a ++ b) 0 (byte_len a) a)) by (by exists [], b). simpl.
  destruct (retro_start_index_spec a (N.to_nat k)) as (a1 & g & -> & Hstart & _). unfold decide_begin_buffer. rewrite <- Hstart.
  rewrite (proj2 (suffix_at_Some _ _ g)) by (by exists a1). cbn [expect mbind result_bind].
  destruct (existsb is_whitespace g || (16 <=? length g)); simpl; [|by exists c, false; destruct c].
  case_bool_decide; simpl.
  - do 2 eexists. split; [done|]. split; [done|]. by apply append_live.
  - destruct (replace_range_spec (byte_len a1) (byte_len (a1 ++ g)) [] (textarea c) Hwf) as (t' & -> & Hwf' & _);
      [rewrite Ht, <- (assoc_L (++)); apply boundary_app, boundary_len|rewrite Ht; apply boundary_app, boundary_len|rewrite byte_len_app; lia|].
    simpl. do 2 eexists. split; [done|]. split; [done|]. by apply append_live.
Qed.
Lemma fits_burst c b : wf (textarea c) → live b → fits (with_burst b c).
Proof. by split. Qed.
(** The images are relabelled without a panic. *)
Lemma relabel_image_well idx c : wf (textarea c) →
  ∃ c', relabel_image idx c = Ok c' ∧ wf (textarea c') ∧ paste_burst c' = paste_burst c.
Proof.
  intros Hwf. unfold relabel_image. destruct (attached_images c !! idx) as [[current path]|]; [|by exists c].
  case_bool_decide; [by exists c|].
  destruct (TextAreaPromises.replace_element_payload_wf current (local_image_label_text (length (remote_image_urls c) + idx + 1)) _ Hwf)
    as (t' & b & -> & Hwf'); [done|]. by eexists.
Qed.
Lemma relabel_well c : wf (textarea c) →
  ∃ c', relabel_attached_images_and_update_placeholders c = Ok c' ∧ wf (textarea c') ∧ paste_burst c' = paste_burst c.
Proof.
  unfold relabel_attached_images_and_update_placeholders. generalize (seq 0 (length (attached_images c))). intros l. revert c.
  induction l as [|idx l IH]; intros c Hwf; [by exists c|]. simpl.
  destruct (relabel_image_well idx c Hwf) as (c1 & -> & Hwf1 & Hb1). destruct (IH c1 Hwf1) as (c' & ? & ? & ?). exists c'. by rewrite <- Hb1.
Qed.
Lemma reconcile_well (some : bool) before c : wf (textarea c) →
  ∃ c', match (if some then None else Some before) with Some before => reconcile_deleted_elements before c | None => Ok c end = Ok c'
    ∧ wf (textarea c') ∧ paste_burst c' = paste_burst c.
Proof.
  intros Hwf. destruct some; [by exists c|]. unfold reconcile_deleted_elements. destruct (_ <? _); [|by eexists].
  match goal with |- context [relabel_attached_images_and_update_placeholders ?d] => exact (relabel_well d Hwf) end.
Qed.

Context `{!LawfulLibraries}.
Lemma plain_input_well k c : fits c → well (plain_input k c).
Proof.
  intros [Hwf Hl]. unfold plain_input. destruct (TextAreaPromises.input_keeps k _ Hwf) as (t & -> & Hwf' & _). simpl. by eexists.
Qed.
Lemma edit_with_key_well k c : fits c → (keeps_window k ∨ is_active (paste_burst c) = false) → well (edit_with_key k c).
Proof.
  intros [Hwf Hl] Hk. unfold edit_with_key. destruct (_ && _ && _); [by eexists|].
  destruct (TextAreaPromises.input_keeps k _ Hwf) as (t & -> & Hwf' & _). simpl.
  destruct (sync_well (with_textarea t c) Hwf') as (c1 & -> & Hwf1 & Hb1). cbn [mbind result_bind].
  destruct (reconcile_well (bool_decide (pending_pastes c = []) && bool_decide (attached_images c = []) && bool_decide (remote_image_urls c = []))
    (element_payloads (textarea c)) c1 Hwf1) as (c2 & -> & Hwf2 & Hb2). rewrite Hb1 in Hb2. simpl in *.
  eexists. split; [done|]. unfold keeps_window in Hk.
  destruct (code k) as [ch| | | | | | | | | |] eqn:Hcode; [destruct (has_ctrl_or_alt (modifiers k))|..];
    (destruct Hk as [Hk|Hk]; try done);
    first [by split; rewrite ?Hb2 | apply fits_burst; [done|]; rewrite Hb2; by apply clear_live].
Qed.
Lemma edit_after_flush_well k c : fits c → (keeps_window k ∨ is_active (paste_burst c) = false ∨ is_char_or_enter (code k) = false) →
  well (edit_after_flush k c).
Proof.
  intros Hc Hk. unfold edit_after_flush. destruct (is_char_or_enter (code k)) eqn:Hce; simpl.
  - apply edit_with_key_well; [done|]. by destruct Hk as [?|[?|?]]; auto.
  - destruct (flush_held_well c Hc) as (c1 & -> & Hc1 & Ha1). simpl. apply edit_with_key_well; auto.
Qed.
Lemma flush_then_well (f : Composer → result Empty_set Composer) c : fits c → (∀ c', fits c' → is_active (paste_burst c') = false → well (f c')) →
  well (c ← flush_held c; f c).
Proof. intros Hc Hf. destruct (flush_held_well c Hc) as (c1 & -> & Hc1 & Ha1). by apply Hf. Qed.
(** Unless the burst took the character, it is typed. *)
Lemma taken_well (f : Composer → result Empty_set Composer) m :
  (∃ c' taken, m = Ok (c', taken) ∧ fits c') → (∀ c', fits c' → is_active (paste_burst c') = false → well (f c')) →
  well ('(c, taken) ← m; if (taken : bool) then Ok c else c ← flush_held c; f c).
Proof. intros (c' & [|] & -> & Hc') Hf; simpl; [by exists c'|by apply flush_then_well]. Qed.
Lemma non_ascii_well k ch now c : fits c → well (handle_non_ascii_char k ch now c).
Proof.
  intros Hc. unfold handle_non_ascii_char. destruct (disable_paste_burst c); [by apply plain_input_well|].
  unfold try_append_char_if_active. destruct (is_active_internal (paste_burst c)) eqn:Hint.
  - eexists. split; [done|]. apply fits_burst; [apply Hc|]. apply append_live, (live_last _ (proj2 Hc)). unfold is_active. by rewrite Hint.
  - apply flush_then_well; [by destruct c|]. intros c1 [Hwf1 Hl1] _. unfold on_plain_char_no_hold.
    destruct (active (note_plain_char now (paste_burst c1))) eqn:Ha; simpl.
    + eexists. split; [done|]. apply fits_burst; [done|]. apply append_live. by eexists.
    + destruct (_ <=? _)%N; simpl.
      * apply taken_well; [apply try_begin_well; [apply fits_burst; [done|by apply note_live]|by eexists]|]. intros; by apply plain_input_well.
      * apply flush_then_well; [apply fits_burst; [done|by apply note_live]|]. intros; by apply plain_input_well.
Qed.
Lemma plain_ascii_well ch now c : fits c → ∃ c' taken, handle_plain_ascii ch now c = Ok (c', taken) ∧ fits c'.
Proof.
  intros [Hwf Hl]. unfold handle_plain_ascii. destruct (on_plain_char_live ch now _ Hl) as [Hl' Hlast].
  destruct (on_plain_char ch now (paste_burst c)) as [b d]. simpl in *.
  destruct d; [by apply try_begin_well|..]; (do 2 eexists; split; [done|]; apply fits_burst; [done|]); [by apply append_live|done|by apply append_live].
Qed.
Lemma handle_input_well k now c : fits c → well (handle_input_basic_with_time k now c).
Proof.
  intros Hc. unfold handle_input_basic_with_time. destruct (flush_due_well now c Hc) as (c1 & flushed & -> & Hc1). simpl.
  destruct (code k) as [ch| | | | | | | | | |] eqn:Hcode; try (apply edit_after_flush_well; [done|]; rewrite Hcode; by auto).
  - destruct (negb (has_ctrl_or_alt _) && _); [destruct (negb (ch <? 128)%N); [by apply non_ascii_well|]|].
    + apply taken_well; [by apply plain_ascii_well|]. intros; apply edit_after_flush_well; auto.
    + apply flush_then_well; [done|]. intros; apply edit_after_flush_well; auto.
  - assert (Hk : keeps_window k) by (unfold keeps_window; by rewrite Hcode).
    destruct (negb (disable_paste_burst c1) && is_active (paste_burst c1)) eqn:Hb; [|apply edit_after_flush_well; auto].
    apply andb_true_iff in Hb as [_ Hact]. unfold append_newline_if_active. rewrite Hact.
    eexists. split; [done|]. apply fits_burst; [apply Hc1|]. apply append_live, (live_last _ (proj2 Hc1)), Hact.
Qed.
Lemma newline_in_burst_spec slash now c : live (paste_burst c) →
  newline_should_insert_instead_of_submit now (paste_burst c) = is_active (paste_burst c)
  ∧ newline_in_burst slash now c =
      Ok (if negb (disable_paste_burst c) && negb slash && is_active (paste_burst c)
          then Some (with_burst (append_char_to_buffer NL now (paste_burst c)) c) else None).
Proof.
  intros Hl. assert (Hwindow : newline_should_insert_instead_of_submit now (paste_burst c) = is_active (paste_burst c)).
  { unfold newline_should_insert_instead_of_submit. destruct (is_active (paste_burst c)) eqn:Ha; [done|]. simpl.
    destruct (burst_window_until (paste_burst c)) as [u|] eqn:Hu; [|done]. apply orb_false_iff in Ha as [Hint _].
    by rewrite (live_window _ Hl) in Hint by (rewrite Hu; by eexists). }
  split; [done|]. unfold newline_in_burst, append_newline_if_active. destruct (_ && negb slash) eqn:Hg; simpl; [|done].
  destruct (is_active (paste_burst c)) eqn:Ha; simpl; [done|]. by rewrite Hwindow.
Qed.

(** What may happen to a composer; the last event is any change that leaves the burst alone. *)
Inductive event : Type :=
| Key (k : KeyEvent) (now : N)
| FlushDue (now : N)
| PasteEvent (s : str)
| SetDisable (disabled : bool)
| EnterPressed (in_slash_context : bool) (now : N)
| OtherEdit (t : TextArea) (pastes images : list (str * str)) (remote : list str) (counters : gmap nat nat) (attach bash : bool).
Definition do_event (e : event) (c : Composer) : result Empty_set Composer :=
  match e with
  | Key k now => fst <$> handle_input_basic k now c
  | FlushDue now => fst <$> handle_paste_burst_flush now c
  | PasteEvent s => handle_paste s c
  | SetDisable disabled => set_disable_paste_burst disabled c
  | EnterPressed slash now => default c <$> newline_in_burst slash now c
  | OtherEdit t pastes images remote counters attach bash =>
      Ok (with_bash bash (with_image_paste attach (with_counters counters (with_remote remote (with_images images (with_pastes pastes (with_textarea t c)))))))
  end.
Definition event_ok (e : event) : Prop := match e with OtherEdit t _ _ _ _ _ _ => wf t | _ => True end.
Definition new_composer (disabled : bool) : Composer := {|
  textarea := new; paste_burst := default_burst; pending_pastes := []; large_paste_counters := ∅; attached_images := []; remote_image_urls := [];
  image_paste_enabled := true; disable_paste_burst := disabled; is_bash_mode := false |}.
Inductive reachable : Composer → Prop :=
| reachable_new disabled : reachable (new_composer disabled)
| reachable_event c e c' : reachable c → event_ok e → do_event e c = Ok c' → reachable c'.

Lemma do_event_well e c : fits c → event_ok e → well (do_event e c).
Proof.
  intros Hc He. destruct e as [k now|now|s|d|slash now|t pastes images remote counters attach bash]; simpl in *.
  - unfold handle_input_basic. destruct (kind k); [..|by exists c];
      (destruct (handle_input_well k now c Hc) as (c' & -> & Hc'); by exists c').
  - destruct (flush_due_well now c Hc) as (c' & f & -> & Hc'). by exists c'.
  - destruct (handle_paste_well s c (proj1 Hc)) as (c' & -> & Hwf & Hb). exists c'. split; [done|]. split; [done|]. rewrite Hb. apply default_live.
  - unfold set_disable_paste_burst. destruct (_ && _); [|by exists (with_disabled d c)].
    destruct (flush_held_well (with_disabled d c) Hc) as (c' & Hf & [Hwf _] & _). unfold flush_held in Hf.
    destruct (flush_before_modified_input _) as [b out]. rewrite Hf. simpl. eexists. split; [done|]. apply fits_burst; [done|apply default_live].
  - destruct (newline_in_burst_spec slash now c (proj2 Hc)) as [_ ->]. simpl. eexists. split; [done|].
    destruct (_ && _) eqn:Hg; simpl; [|done]. apply andb_true_iff in Hg as [_ Ha]. apply fits_burst; [apply Hc|]. apply append_live, (live_last _ (proj2 Hc)), Ha.
  - eexists. split; [done|]. split; [done|apply Hc].
Qed.
Lemma reachable_fits c : reachable c → fits c.
Proof.
  induction 1 as [d|c e c' _ IH He Hdo]; [split; [apply new_wf|apply default_live]|].
  destruct (do_event_well e c IH He) as (c1 & Hdo' & Hc1). rewrite Hdo in Hdo'. by injection Hdo' as ->.
Qed.
End Facts.
End PasteBurstFacts.
Import PasteBurstFacts.

Module PasteBurstPromises.
Section Promises.
Context `{Target} `{TextLibraries} `{ImageLibraries}.


Context `{!LawfulLibraries}.

(** C10. Whatever keys, ticks, pastes, switches of the detection and other
    edits a composer has seen, none of them makes it panic next, and when
    nothing came for longer than the timeouts a tick ends the burst and gives
    up a held character. *)
Theorem bursts_come_to_an_end c :
  reachable c →
  (∀ e, event_ok e → ∃ c', do_event e c = Ok c')
  ∧ ∀ now, quiet now (paste_burst c) → ∃ c', do_event (FlushDue now) c = Ok c' ∧ is_active (paste_burst c') = false.
Proof.
  intros Hc%reachable_fits. split.
  - intros e He. destruct (do_event_well e c Hc He) as (c' & -> & _). by exists c'.
  - intros now Hquiet. destruct (flush_due_well now c Hc) as (c' & f & Hf & _). exists c'. simpl. rewrite Hf. split; [done|].
    eapply quiet_flush; [done|apply (live_last _ (proj2 Hc))|done].
Qed.

End Promises.

(** ** Examples *)

#[local] Instance unix : Target := false.
#[local] Existing Instance TextAreaPromises.characters.
#[local] Existing Instance TextAreaPromises.characters_lawful.
(** One image, words as they are, and no URLs. *)
#[local] Instance one_image : ImageLibraries := {|
  target_linux := true; is_probably_wsl := false; file_url _ := None; shlex_words s := [s]; image_dimensions path := bool_decide (path = lit "/a.png") |}.

(** The composer holds the first character of a paste. *)
Definition holding : Composer := default (new_composer false) (match do_event (Key (char_key (ascii "a") false) 0) (new_composer false) with Ok c => Some c | _ => None end).
Lemma holding_reachable : reachable holding.
Proof. eapply (reachable_event (new_composer false) (Key (char_key (ascii "a") false) 0)); [constructor|done|by vm_compute]. Qed.
Lemma bursts_come_to_an_end_witness :
  is_active (paste_burst holding) = true
  ∧ (∀ e, event_ok e → ∃ c', do_event e holding = Ok c')
  ∧ ∀ now, quiet now (paste_burst holding) → ∃ c', do_event (FlushDue now) holding = Ok c' ∧ is_active (paste_burst c') = false.
Proof. split; [by vm_compute|]. apply (bursts_come_to_an_end holding), holding_reachable. Defined.

Definition outcome (es : list event) : result Empty_set (str * bool) :=
  (λ c, (current_text c, is_active (paste_burst c))) <$> foldl (λ m e, c ← m; do_event e c) (Ok (new_composer false)) es.
Definition type (c : string) (at_ms : N) : event := Key (char_key (ascii c) false) (millis at_ms).
(** [Enter] right behind a first character: the character is gone. *)
Example enter_loses_first_char :
  outcome [type "y" 0; EnterPressed false (millis 1); FlushDue (millis 20)]%N = Ok ([NL], false).
Proof. by vm_compute. Qed.
(** When more is pasted, the two change places. *)
Example enter_overtakes_first_char :
  outcome [type "a" 0; EnterPressed false (millis 1); type "b" 2; type "c" 3; FlushDue (millis 20)]%N = Ok (NL :: lit "abc", false).
Proof. by vm_compute. Qed.
(** A path of an image that is pasted is attached, and so is one that is typed that fast. *)
Example image_is_attached : outcome [PasteEvent (lit "/a.png"); PasteEvent (lit "/b.png")]%N = Ok (lit "[Image #1] /b.png", false).
Proof. by vm_compute. Qed.
Example image_is_typed :
  outcome (imap (λ i c, Key (char_key c false) (millis (N.of_nat i))) (lit "/a.png") ++ [FlushDue (millis 100)]) = Ok (lit "[Image #1] ", false).
Proof. by vm_compute. Qed.
(** Of two images the first is deleted: the second takes its number. *)
Definition key (k : KeyCode) (at_ms : N) : event := Key {| code := k; modifiers := NONE; kind := Press |} (millis at_ms).
Example image_is_relabelled :
  outcome [PasteEvent (lit "/a.png"); PasteEvent (lit "/a.png"); key Home 1000; key Delete 2000]%N = Ok (lit " [Image #1] ", false).
Proof. by vm_compute. Qed.
(** Characters outside of ASCII do not keep a burst alive. *)
Example burst_ends_under_accents :
  outcome [type "a" 0; type "b" 1; Key (char_key 233 false) (millis 6); Key (char_key 233 false) (millis 9); FlushDue (millis 10)]%N
  = Ok (lit "ab" ++ [233; 233]%N, false).
Proof. by vm_compute. Qed.
End PasteBurstPromises.
