(* ===== verification/TranscriptStream.v ===== *)
(** * Streaming a message into the transcript

    Models [tui/src/streaming]: the collector that renders a message as its lines
    become complete ([tui/src/markdown_stream.rs]), the queues of rendered lines, the
    two controllers that make cells of them, the policy that decides how many lines a
    tick takes from the queues, the tick, and the handlers of [tui/src/chatwidget.rs]
    that drive them.  The Markdown renderer and the terminal's styles are classes.
    Time is counted in nanoseconds. *)
From S2P Require Import Prelude Str.

Module TranscriptStream.

(** ** Lines *)

Class Styles : Type := { Style : Type; default_style : Style; dim : Style; bold : Style; proposed_plan_style : Style }.
Inductive Alignment : Type := LeftAligned | Centered | RightAligned.

Section Lines.
Context `{Styles}.
Record Span : Type := { content : str; span_style : Style }.
Record Line : Type := { spans : list Span; line_style : Style; alignment : option Alignment }.
(** [Line::from], of spans and of a string. *)
Definition line_of (l : list Span) : Line := {| spans := l; line_style := default_style; alignment := None |}.
Definition raw_span (s : str) : Span := {| content := s; span_style := default_style |}.
Definition raw_line (s : str) : Line := line_of [raw_span s].
Definition with_style (st : Style) (l : Line) : Line := {| spans := spans l; line_style := st; alignment := alignment l |}.

Definition is_blank_line_spaces_only (l : Line) : bool :=
  match spans l with [] => true | _ => forallb (λ s, bool_decide (content s = []) || forallb (N.eqb SPACE) (content s)) (spans l) end.
Fixpoint prefix_lines_from (initial : bool) (initial_prefix subsequent_prefix : Span) (ls : list Line) : list Line :=
  match ls with
  | [] => []
  | l :: ls =>
      with_style (line_style l) (line_of ((if initial then initial_prefix else subsequent_prefix) :: spans l))
      :: prefix_lines_from false initial_prefix subsequent_prefix ls
  end.
Definition prefix_lines (ls : list Line) (initial_prefix subsequent_prefix : Span) : list Line :=
  prefix_lines_from true initial_prefix subsequent_prefix ls.
End Lines.

(** [markdown::append_markdown]: the lines of a source, in a width, for links below a directory. *)
Class Markdown `{Styles} : Type := render_markdown : str → option N → str → list Line.

(** ** Collecting lines *)

Module Collector.
Section Collector.
Context `{Markdown}.
Record MarkdownStreamCollector : Type := { buffer : str; committed_line_count : nat; width : option N; cwd : str }.
Definition new (w : option N) (d : str) : MarkdownStreamCollector := {| buffer := []; committed_line_count := 0; width := w; cwd := d |}.
Definition clear (c : MarkdownStreamCollector) : MarkdownStreamCollector := {|
  buffer := []; committed_line_count := 0; width := width c; cwd := cwd c |}.
Definition push_delta (delta : str) (c : MarkdownStreamCollector) : MarkdownStreamCollector := {|
  buffer := buffer c ++ delta; committed_line_count := committed_line_count c; width := width c; cwd := cwd c |}.
(** [source[..=i]] for the last line break [i]. *)
Fixpoint through_last_newline (s : str) : option str :=
  match s with
  | [] => None
  | c :: s' => match through_last_newline s' with Some r => Some (c :: r) | None => if (c =? NL)%N then Some [c] else None end
  end.
(** All lines but a blank last one. *)
Definition complete_line_count (rendered : list Line) : nat :=
  match last rendered with
  | Some l => if is_blank_line_spaces_only l then length rendered - 1 else length rendered
  | None => 0
  end.
Definition commit_complete_lines (c : MarkdownStreamCollector) : MarkdownStreamCollector * list Line :=
  match through_last_newline (buffer c) with
  | None => (c, [])
  | Some source =>
      let rendered := render_markdown source (width c) (cwd c) in
      let complete := complete_line_count rendered in
      if complete <=? committed_line_count c then (c, [])
      else ({| buffer := buffer c; committed_line_count := complete; width := width c; cwd := cwd c |},
            drop (committed_line_count c) (take complete rendered))
  end.
Definition finalize_and_drain (c : MarkdownStreamCollector) : MarkdownStreamCollector * list Line :=
  let source := if ends_with (buffer c) [NL] then buffer c else buffer c ++ [NL] in
  let rendered := render_markdown source (width c) (cwd c) in
  (clear c, if length rendered <=? committed_line_count c then [] else drop (committed_line_count c) rendered).
End Collector.
End Collector.
Import Collector.

(** ** Queues *)

Module StreamState.
Section State.
Context `{Markdown}.
Record QueuedLine : Type := { line : Line; enqueued_at : N }.
Record StreamState : Type := { collector : MarkdownStreamCollector; queued_lines : list QueuedLine; has_seen_delta : bool }.
Definition new (w : option N) (d : str) : StreamState := {| collector := Collector.new w d; queued_lines := []; has_seen_delta := false |}.
Definition clear (s : StreamState) : StreamState := {| collector := Collector.clear (collector s); queued_lines := []; has_seen_delta := false |}.
Definition with_queue (q : list QueuedLine) (s : StreamState) : StreamState := {|
  collector := collector s; queued_lines := q; has_seen_delta := has_seen_delta s |}.
Definition with_collector (c : MarkdownStreamCollector) (s : StreamState) : StreamState := {|
  collector := c; queued_lines := queued_lines s; has_seen_delta := has_seen_delta s |}.
Definition step (s : StreamState) : StreamState * list Line :=
  match queued_lines s with [] => (s, []) | q :: rest => (with_queue rest s, [line q]) end.
Definition drain_n (max_lines : nat) (s : StreamState) : StreamState * list Line :=
  let stop := max_lines `min` length (queued_lines s) in
  (with_queue (drop stop (queued_lines s)) s, line <$> take stop (queued_lines s)).
Definition drain_all (s : StreamState) : StreamState * list Line := (with_queue [] s, line <$> queued_lines s).
Definition is_idle (s : StreamState) : bool := bool_decide (queued_lines s = []).
Definition queued_len (s : StreamState) : nat := length (queued_lines s).
Definition oldest_queued_age (now : N) (s : StreamState) : option N := (λ q, now - enqueued_at q)%N <$> head (queued_lines s).
Definition enqueue (lines : list Line) (now : N) (s : StreamState) : StreamState :=
  with_queue (queued_lines s ++ ((λ l, {| line := l; enqueued_at := now |}) <$> lines)) s.

(** What [push] of both controllers does. *)
Definition push (delta : str) (now : N) (s : StreamState) : StreamState * bool :=
  let s := {| collector := push_delta delta (collector s); queued_lines := queued_lines s;
              has_seen_delta := negb (bool_decide (delta = [])) || has_seen_delta s |} in
  if contains_char delta NL then
    let '(c, newly_completed) := commit_complete_lines (collector s) in
    let s := with_collector c s in
    if bool_decide (newly_completed = []) then (s, false) else (enqueue newly_completed now s, true)
  else (s, false).
(** What [finalize] of both controllers collects. *)
Definition finish (now : N) (s : StreamState) : StreamState * list Line :=
  let '(c, remaining) := finalize_and_drain (collector s) in
  let s := with_collector c s in
  let s := if bool_decide (remaining = []) then s else enqueue remaining now s in
  let '(s, out_lines) := drain_all s in
  (clear s, out_lines).
End State.
End StreamState.
Import StreamState.

(** ** Cells *)

Inductive HistoryCell `{Styles} : Type :=
| AgentMessageCell (lines : list Line) (is_first_line : bool)
| ProposedPlanStreamCell (lines : list Line) (is_stream_continuation : bool).

Module Message.
Section Message.
Context `{Markdown}.
Record StreamController : Type := { state : StreamState; finishing_after_drain : bool; header_emitted : bool }.
Definition new (w : option N) (d : str) : StreamController := {|
  state := StreamState.new w d; finishing_after_drain := false; header_emitted := false |}.
Definition with_state (s : StreamState) (c : StreamController) : StreamController := {|
  state := s; finishing_after_drain := finishing_after_drain c; header_emitted := header_emitted c |}.
Definition push (delta : str) (now : N) (c : StreamController) : StreamController * bool :=
  let '(s, queued) := StreamState.push delta now (state c) in (with_state s c, queued).
Definition emit (lines : list Line) (c : StreamController) : StreamController * option HistoryCell :=
  match lines with
  | [] => (c, None)
  | _ => ({| state := state c; finishing_after_drain := finishing_after_drain c; header_emitted := true |},
          Some (AgentMessageCell lines (negb (header_emitted c))))
  end.
Definition finalize (now : N) (c : StreamController) : StreamController * option HistoryCell :=
  let '(s, out_lines) := finish now (state c) in
  emit out_lines {| state := s; finishing_after_drain := false; header_emitted := header_emitted c |}.
Definition on_commit_tick (c : StreamController) : StreamController * option HistoryCell * bool :=
  let '(s, lines) := step (state c) in let '(c, cell) := emit lines (with_state s c) in (c, cell, is_idle (state c)).
Definition on_commit_tick_batch (max_lines : nat) (c : StreamController) : StreamController * option HistoryCell * bool :=
  let '(s, lines) := drain_n (max_lines `max` 1) (state c) in
  let '(c, cell) := emit lines (with_state s c) in (c, cell, is_idle (state c)).
Definition queued_lines (c : StreamController) : nat := queued_len (state c).
Definition oldest_queued_age (now : N) (c : StreamController) : option N := StreamState.oldest_queued_age now (state c).
End Message.
End Message.

Module Plan.
Section Plan.
Context `{Markdown}.
Record PlanStreamController : Type := { state : StreamState; header_emitted : bool; top_padding_emitted : bool }.
Definition new (w : option N) (d : str) : PlanStreamController := {|
  state := StreamState.new w d; header_emitted := false; top_padding_emitted := false |}.
Definition with_state (s : StreamState) (c : PlanStreamController) : PlanStreamController := {|
  state := s; header_emitted := header_emitted c; top_padding_emitted := top_padding_emitted c |}.
Definition push (delta : str) (now : N) (c : PlanStreamController) : PlanStreamController * bool :=
  let '(s, queued) := StreamState.push delta now (state c) in (with_state s c, queued).
Definition BULLET : str := [8226%N; SPACE].
Definition emit (lines : list Line) (include_bottom_padding : bool) (c : PlanStreamController)
    : PlanStreamController * option HistoryCell :=
  if bool_decide (length lines = 0) && negb include_bottom_padding then (c, None)
  else
    let header :=
      if header_emitted c then []
      else [line_of [{| content := BULLET; span_style := dim |}; {| content := lit "Proposed Plan"; span_style := bold |}]; raw_line [SPACE]] in
    let plan_lines :=
      (if top_padding_emitted c then [] else [raw_line [SPACE]]) ++ lines ++ (if include_bottom_padding then [raw_line [SPACE]] else []) in
    let plan_lines := with_style proposed_plan_style <$> prefix_lines plan_lines (raw_span (lit "  ")) (raw_span (lit "  ")) in
    ({| state := state c; header_emitted := true; top_padding_emitted := true |},
     Some (ProposedPlanStreamCell (header ++ plan_lines) (header_emitted c))).
Definition finalize (now : N) (c : PlanStreamController) : PlanStreamController * option HistoryCell :=
  let '(s, out_lines) := finish now (state c) in emit out_lines true (with_state s c).
Definition on_commit_tick (c : PlanStreamController) : PlanStreamController * option HistoryCell * bool :=
  let '(s, lines) := step (state c) in let '(c, cell) := emit lines false (with_state s c) in (c, cell, is_idle (state c)).
Definition on_commit_tick_batch (max_lines : nat) (c : PlanStreamController) : PlanStreamController * option HistoryCell * bool :=
  let '(s, lines) := drain_n (max_lines `max` 1) (state c) in
  let '(c, cell) := emit lines false (with_state s c) in (c, cell, is_idle (state c)).
Definition queued_lines (c : PlanStreamController) : nat := queued_len (state c).
Definition oldest_queued_age (now : N) (c : PlanStreamController) : option N := StreamState.oldest_queued_age now (state c).
End Plan.
End Plan.

(** ** The policy of ticks *)

Module Chunking.
Definition millis (n : N) : N := n * 1000000.
Definition ENTER_QUEUE_DEPTH_LINES : nat := 8.
Definition ENTER_OLDEST_AGE : N := millis 120.
Definition EXIT_QUEUE_DEPTH_LINES : nat := 2.
Definition EXIT_OLDEST_AGE : N := millis 40.
Definition EXIT_HOLD : N := millis 250.
Definition REENTER_CATCH_UP_HOLD : N := millis 250.
Definition SEVERE_QUEUE_DEPTH_LINES : nat := 64.
Definition SEVERE_OLDEST_AGE : N := millis 300.

Inductive ChunkingMode : Type := Smooth | CatchUp.
#[export] Instance ChunkingMode_eq_dec : EqDecision ChunkingMode.
Proof. solve_decision. Defined.
Record QueueSnapshot : Type := { queued_lines : nat; oldest_age : option N }.
Inductive DrainPlan : Type := Single | Batch (max_lines : nat).
Record ChunkingDecision : Type := { decided_mode : ChunkingMode; entered_catch_up : bool; drain_plan : DrainPlan }.
Record AdaptiveChunkingPolicy : Type := {
  mode : ChunkingMode;
  below_exit_threshold_since : option N;
  last_catch_up_exit_at : option N;
}.
Definition reset : AdaptiveChunkingPolicy := {| mode := Smooth; below_exit_threshold_since := None; last_catch_up_exit_at := None |}.

(** [age.is_some_and(p)]. *)
Definition age_is (p : N → bool) (snapshot : QueueSnapshot) : bool := match oldest_age snapshot with Some a => p a | None => false end.
Definition should_enter_catch_up (snapshot : QueueSnapshot) : bool :=
  (ENTER_QUEUE_DEPTH_LINES <=? queued_lines snapshot) || age_is (N.leb ENTER_OLDEST_AGE) snapshot.
Definition should_exit_catch_up (snapshot : QueueSnapshot) : bool :=
  (queued_lines snapshot <=? EXIT_QUEUE_DEPTH_LINES) && age_is (λ a, (a <=? EXIT_OLDEST_AGE)%N) snapshot.
Definition is_severe_backlog (snapshot : QueueSnapshot) : bool :=
  (SEVERE_QUEUE_DEPTH_LINES <=? queued_lines snapshot) || age_is (N.leb SEVERE_OLDEST_AGE) snapshot.

Definition reentry_hold_active (now : N) (p : AdaptiveChunkingPolicy) : bool :=
  match last_catch_up_exit_at p with Some exit => (now - exit <? REENTER_CATCH_UP_HOLD)%N | None => false end.
Definition note_catch_up_exit (now : N) (p : AdaptiveChunkingPolicy) : AdaptiveChunkingPolicy :=
  match mode p with
  | CatchUp => {| mode := mode p; below_exit_threshold_since := below_exit_threshold_since p; last_catch_up_exit_at := Some now |}
  | Smooth => p
  end.
Definition maybe_enter_catch_up (snapshot : QueueSnapshot) (now : N) (p : AdaptiveChunkingPolicy) : AdaptiveChunkingPolicy * bool :=
  if negb (should_enter_catch_up snapshot) then (p, false)
  else if reentry_hold_active now p && negb (is_severe_backlog snapshot) then (p, false)
  else ({| mode := CatchUp; below_exit_threshold_since := None; last_catch_up_exit_at := None |}, true).
Definition with_below (since : option N) (p : AdaptiveChunkingPolicy) : AdaptiveChunkingPolicy := {|
  mode := mode p; below_exit_threshold_since := since; last_catch_up_exit_at := last_catch_up_exit_at p |}.
Definition maybe_exit_catch_up (snapshot : QueueSnapshot) (now : N) (p : AdaptiveChunkingPolicy) : AdaptiveChunkingPolicy :=
  if negb (should_exit_catch_up snapshot) then with_below None p
  else match below_exit_threshold_since p with
  | Some since =>
      if (EXIT_HOLD <=? now - since)%N
      then {| mode := Smooth; below_exit_threshold_since := None; last_catch_up_exit_at := Some now |} else p
  | None => with_below (Some now) p
  end.
Definition decide (snapshot : QueueSnapshot) (now : N) (p : AdaptiveChunkingPolicy) : AdaptiveChunkingPolicy * ChunkingDecision :=
  if queued_lines snapshot =? 0 then
    ({| mode := Smooth; below_exit_threshold_since := None; last_catch_up_exit_at := last_catch_up_exit_at (note_catch_up_exit now p) |},
     {| decided_mode := Smooth; entered_catch_up := false; drain_plan := Single |})
  else
    let '(p, entered) := match mode p with
      | Smooth => maybe_enter_catch_up snapshot now p
      | CatchUp => (maybe_exit_catch_up snapshot now p, false)
      end in
    (p, {| decided_mode := mode p; entered_catch_up := entered;
           drain_plan := match mode p with Smooth => Single | CatchUp => Batch (queued_lines snapshot `max` 1) end |}).
End Chunking.
Import Chunking.

(** ** A tick *)

Module CommitTick.
Section Tick.
Context `{Markdown}.
Inductive CommitTickScope : Type := AnyMode | CatchUpOnly.
Record CommitTickOutput : Type := { cells : list HistoryCell; has_controller : bool; all_idle : bool }.
Definition default_output : CommitTickOutput := {| cells := []; has_controller := false; all_idle := true |}.
Definition max_duration (lhs rhs : option N) : option N :=
  match lhs, rhs with
  | Some l, Some r => Some (l `max` r)%N
  | Some l, None => Some l
  | None, Some r => Some r
  | None, None => None
  end.
Definition stream_queue_snapshot (s : option Message.StreamController) (p : option Plan.PlanStreamController) (now : N) : QueueSnapshot :=
  let '(n, age) := match s with
    | Some c => (Message.queued_lines c, max_duration None (Message.oldest_queued_age now c)) | None => (0, None) end in
  match p with
  | Some c => {| queued_lines := n + Plan.queued_lines c; oldest_age := max_duration age (Plan.oldest_queued_age now c) |}
  | None => {| queued_lines := n; oldest_age := age |}
  end.
Definition drain_stream_controller (c : Message.StreamController) (plan : DrainPlan) : Message.StreamController * option HistoryCell * bool :=
  match plan with Single => Message.on_commit_tick c | Batch max_lines => Message.on_commit_tick_batch max_lines c end.
Definition drain_plan_stream_controller (c : Plan.PlanStreamController) (plan : DrainPlan)
    : Plan.PlanStreamController * option HistoryCell * bool :=
  match plan with Single => Plan.on_commit_tick c | Batch max_lines => Plan.on_commit_tick_batch max_lines c end.
Definition add_drained (cell : option HistoryCell) (is_idle : bool) (o : CommitTickOutput) : CommitTickOutput := {|
  cells := cells o ++ option_list cell; has_controller := true; all_idle := all_idle o && is_idle |}.
Definition apply_commit_tick_plan (plan : DrainPlan) (s : option Message.StreamController) (p : option Plan.PlanStreamController)
    : option Message.StreamController * option Plan.PlanStreamController * CommitTickOutput :=
  let output := default_output in
  let '(s, output) := match s with
    | Some c => let '(c, cell, idle) := drain_stream_controller c plan in (Some c, add_drained cell idle output) | None => (None, output) end in
  let '(p, output) := match p with
    | Some c => let '(c, cell, idle) := drain_plan_stream_controller c plan in (Some c, add_drained cell idle output) | None => (None, output) end in
  (s, p, output).
Definition run_commit_tick (policy : AdaptiveChunkingPolicy) (s : option Message.StreamController) (p : option Plan.PlanStreamController)
    (scope : CommitTickScope) (now : N)
    : AdaptiveChunkingPolicy * option Message.StreamController * option Plan.PlanStreamController * CommitTickOutput :=
  let '(policy, decision) := decide (stream_queue_snapshot s p now) now policy in
  match scope, decided_mode decision with
  | CatchUpOnly, Smooth => (policy, s, p, default_output)
  | _, _ => let '(s, p, output) := apply_commit_tick_plan (drain_plan decision) s p in (policy, s, p, output)
  end.
End Tick.
End CommitTick.
Import CommitTick.

(** ** The handlers *)

Module Widget.
Section Widget.
Context `{Markdown}.
(** The part of the widget that streams: [animating] is what [StartCommitAnimation]
    and [StopCommitAnimation] last asked for. *)
Record ChatWidget : Type := {
  stream_controller : option Message.StreamController;
  plan_stream_controller : option Plan.PlanStreamController;
  adaptive_chunking : AdaptiveChunkingPolicy;
  history : list HistoryCell;
  animating : bool;
  last_rendered_width : option N;
  cwd : str;
}.
Definition with_streams s p policy (w : ChatWidget) : ChatWidget := {|
  stream_controller := s; plan_stream_controller := p; adaptive_chunking := policy; history := history w; animating := animating w;
  last_rendered_width := last_rendered_width w; cwd := cwd w |}.
Definition add_boxed_history (cs : list HistoryCell) (w : ChatWidget) : ChatWidget := {|
  stream_controller := stream_controller w; plan_stream_controller := plan_stream_controller w; adaptive_chunking := adaptive_chunking w;
  history := history w ++ cs; animating := animating w; last_rendered_width := last_rendered_width w; cwd := cwd w |}.
Definition set_animation (on : bool) (w : ChatWidget) : ChatWidget := {|
  stream_controller := stream_controller w; plan_stream_controller := plan_stream_controller w; adaptive_chunking := adaptive_chunking w;
  history := history w; animating := on; last_rendered_width := last_rendered_width w; cwd := cwd w |}.

Definition run_commit_tick_with_scope (scope : CommitTickScope) (now : N) (w : ChatWidget) : ChatWidget :=
  let '(policy, s, p, outcome) := run_commit_tick (adaptive_chunking w) (stream_controller w) (plan_stream_controller w) scope now in
  let w := add_boxed_history (cells outcome) (with_streams s p policy w) in
  if has_controller outcome && all_idle outcome then set_animation false w else w.
Definition on_commit_tick (now : N) (w : ChatWidget) : ChatWidget := run_commit_tick_with_scope AnyMode now w.
(** New lines came at [now]: the animation starts, and a tick is made in catch-up mode. *)
Definition lines_came (queued : bool) (now : N) (w : ChatWidget) : ChatWidget :=
  if queued then run_commit_tick_with_scope CatchUpOnly now (set_animation true w) else w.
Definition handle_streaming_delta (delta : str) (pushed_at now : N) (w : ChatWidget) : ChatWidget :=
  let c := match stream_controller w with
    | Some c => c | None => Message.new ((λ n, n - 2)%N <$> last_rendered_width w) (cwd w) end in
  let '(c, queued) := Message.push delta pushed_at c in
  lines_came queued now (with_streams (Some c) (plan_stream_controller w) (adaptive_chunking w) w).
(** In the mode for plans. *)
Definition on_plan_delta (delta : str) (pushed_at now : N) (w : ChatWidget) : ChatWidget :=
  let c := match plan_stream_controller w with
    | Some c => c | None => Plan.new ((λ n, n - 4)%N <$> last_rendered_width w) (cwd w) end in
  let '(c, queued) := Plan.push delta pushed_at c in
  lines_came queued now (with_streams (stream_controller w) (Some c) (adaptive_chunking w) w).
Definition flush_answer_stream_with_separator (now : N) (w : ChatWidget) : ChatWidget :=
  let cell := match stream_controller w with Some c => (Message.finalize now c).2 | None => None end in
  with_streams None (plan_stream_controller w) reset (add_boxed_history (option_list cell) w).
End Widget.
End Widget.
Import Widget.

(** ** The thread of the animation *)

(** [CommitAnimation] of [tui/src/app/event_dispatch.rs]: the flag, and the threads
    that sleep in the loop. *)
Module Animation.
Record Animation : Type := { commit_anim_running : bool; sleeping_threads : nat }.
Definition start_commit_animation (a : Animation) : Animation :=
  if commit_anim_running a then a else {| commit_anim_running := true; sleeping_threads := S (sleeping_threads a) |}.
Definition stop_commit_animation (a : Animation) : Animation :=
  {| commit_anim_running := false; sleeping_threads := sleeping_threads a |}.
(** A thread wakes up: it sends a tick and goes on while the flag is set. *)
Definition wake_thread (a : Animation) : Animation :=
  if commit_anim_running a then a else {| commit_anim_running := false; sleeping_threads := sleeping_threads a - 1 |}.
End Animation.
End TranscriptStream.
