(* ===== verification/TranscriptPromises.v ===== *)
(** * What streaming promises

    A message arrives in order and under one header whatever the ticks and plans
    around it and whatever the renderer does: what is shown is what its deltas commit
    with what its end adds, and that is the rendered message where the renderer does
    not take back lines of it; lines that wait have an animation that shows them; and
    the policy changes gear with hysteresis.  The examples show a heading that comes
    too late, and an animation that nothing stops. *)
From S2P Require Import Prelude Str TranscriptStream.
Import TranscriptStream.

Module TranscriptFacts.

(** ** Complete lines *)

Lemma through_last_newline_Some s a : Collector.through_last_newline s = Some a → (∃ b, s = a ++ b) ∧ Collector.through_last_newline a = Some a.
Proof.
  revert a. induction s as [|c s IH]; intros a; simpl; [done|]. destruct (Collector.through_last_newline s) as [r|] eqn:Hr.
  - intros [= <-]. destruct (IH r eq_refl) as [[b ->] Hrr]. split; [by exists b|]. simpl. by rewrite Hrr.
  - destruct (N.eqb_spec c NL) as [->|]; [|done]. intros [= <-]. split; [by exists s|done].
Qed.
Section Message.
Context `{Markdown}.

Lemma complete_line_count_le (l : list Line) : Collector.complete_line_count l ≤ length l.
Proof. unfold Collector.complete_line_count. destruct (last l); [case_match|]; lia. Qed.

Lemma queue_extended q (newly : list Line) now :
  StreamState.line <$> (q ++ ((λ l, {| StreamState.line := l; StreamState.enqueued_at := now |}) <$> newly)) = (StreamState.line <$> q) ++ newly.
Proof. rewrite fmap_app, <- list_fmap_compose. f_equal. apply list_fmap_id. Qed.

(** ** One message *)

(** The cells of a message and whether each is the first. *)
Definition agent_cell (c : HistoryCell) : option (list Line * bool) :=
  match c with AgentMessageCell ls first => Some (ls, first) | ProposedPlanStreamCell _ _ => None end.
Definition agent_cells (h : list HistoryCell) : list (list Line * bool) := omap agent_cell h.
Definition lines_of (cs : list (list Line * bool)) : list Line := concat (fst <$> cs).
Definition headed (cs : list (list Line * bool)) : Prop :=
  match cs with [] => True | c :: cs => c.2 = true ∧ Forall (λ c, c.2 = false) cs end.
Definition queue (c : Message.StreamController) : list Line := StreamState.line <$> StreamState.queued_lines (Message.state c).
(** The lines of the message [msg] when [shown] were committed before: those that
    follow them in what the complete source renders to. *)
Definition commit (w : option N) (d : str) (shown : list Line) (msg : str) : list Line :=
  match Collector.through_last_newline msg with
  | Some source =>
      let r := render_markdown source w d in shown ++ drop (length shown) (take (Collector.complete_line_count r) r)
  | None => shown
  end.
(** The message and its committed lines, delta by delta. *)
Definition advance (w : option N) (d : str) (p : str * list Line) (delta : str) : str * list Line :=
  (p.1 ++ delta, if contains_char delta NL then commit w d p.2 (p.1 ++ delta) else p.2).
Definition progress (w : option N) (d : str) (deltas : list str) : str * list Line := foldl (advance w d) ([], []) deltas.
Definition final_source (msg : str) : str := if ends_with msg [NL] then msg else msg ++ [NL].
(** What is shown of a message in the end. *)
Definition shown_lines (w : option N) (d : str) (deltas : list str) : list Line :=
  let '(msg, shown) := progress w d deltas in shown ++ drop (length shown) (render_markdown (final_source msg) w d).

(** Complete lines of the message stay what they are until its end. *)
Definition lines_stay (w : option N) (d : str) (msg : str) : Prop :=
  ∀ a b, msg = a ++ b → Collector.through_last_newline a = Some a →
    take (Collector.complete_line_count (render_markdown a w d)) (render_markdown a w d) `prefix_of` render_markdown (final_source msg) w d.
Lemma progress_message w d deltas : (progress w d deltas).1 = concat deltas.
Proof.
  induction deltas as [|delta deltas IH] using rev_ind; [done|]. unfold progress in *. rewrite foldl_snoc, concat_app. simpl. by rewrite IH, app_nil_r.
Qed.
Lemma prefix_joined {A} (l t f : list A) : l `prefix_of` f → t `prefix_of` f → l ++ drop (length l) t `prefix_of` f.
Proof.
  intros Hl Ht. destruct (prefix_weak_total _ _ _ Hl Ht) as [[k ->]|Hk].
  - by rewrite drop_app_length.
  - apply prefix_length in Hk. by rewrite drop_ge, app_nil_r.
Qed.
Lemma progress_prefix w d deltas b : lines_stay w d (concat deltas ++ b) →
  (progress w d deltas).2 `prefix_of` render_markdown (final_source (concat deltas ++ b)) w d.
Proof.
  revert b. induction deltas as [|delta deltas IH] using rev_ind; intros b Hstay; [apply prefix_nil|].
  rewrite concat_app in *. simpl in *. rewrite app_nil_r, <- (assoc_L (++)) in *. specialize (IH _ Hstay).
  pose proof (progress_message w d deltas) as Hmsg. unfold progress in *. rewrite foldl_snoc. unfold advance at 1. simpl. rewrite Hmsg.
  destruct (contains_char delta NL); [|done]. unfold commit. destruct (Collector.through_last_newline _) as [a|] eqn:Ha; [|done].
  apply through_last_newline_Some in Ha as [[b' Hsplit] Ha]. apply prefix_joined; [done|]. apply (Hstay a (b' ++ b)); [|done].
  by rewrite !(assoc_L (++)), <- Hsplit.
Qed.
Lemma shown_lines_stay w d deltas : lines_stay w d (concat deltas) → shown_lines w d deltas = render_markdown (final_source (concat deltas)) w d.
Proof.
  intros Hstay. pose proof (progress_message w d deltas) as Hmsg. pose proof (progress_prefix w d deltas []) as Hpre. rewrite app_nil_r in Hpre.
  unfold shown_lines. destruct (progress w d deltas) as [msg shown]. simpl in *. subst msg. destruct (Hpre Hstay) as [k ->]. by rewrite drop_app_length.
Qed.

(** The controller of a message of which the cells [cs] are shown, at some progress. *)
Record streaming (w : option N) (d : str) (c : Message.StreamController) (cs : list (list Line * bool)) (p : str * list Line) : Prop := {
  streaming_width : Collector.width (StreamState.collector (Message.state c)) = w;
  streaming_cwd : Collector.cwd (StreamState.collector (Message.state c)) = d;
  streaming_buffer : Collector.buffer (StreamState.collector (Message.state c)) = p.1;
  streaming_count : Collector.committed_line_count (StreamState.collector (Message.state c)) = length p.2;
  streaming_lines : lines_of cs ++ queue c = p.2;
  streaming_headed : headed cs;
  streaming_header : Message.header_emitted c = negb (bool_decide (cs = []));
}.
Lemma new_streaming w d : streaming w d (Message.new w d) [] ([], []).
Proof. by split. Qed.

Lemma push_streaming w d c cs p delta now : streaming w d c cs p → streaming w d (Message.push delta now c).1 cs (advance w d p delta).
Proof.
  intros [Hw Hd Hb Hn Hl Hh He]. unfold Message.push, StreamState.push, advance.
  destruct (contains_char delta NL); [|by split; simpl; rewrite ?Hb]. unfold Collector.commit_complete_lines, commit. simpl. rewrite Hb, Hw, Hd, Hn.
  destruct (Collector.through_last_newline (p.1 ++ delta)) as [a|]; [|by split; simpl; rewrite ?Hb].
  set (r := render_markdown a w d). pose proof (complete_line_count_le r) as Hcr.
  destruct (Nat.leb_spec (Collector.complete_line_count r) (length p.2)) as [Hle|Hlt].
  { rewrite drop_ge, app_nil_r by (rewrite length_take; lia). by split; simpl; rewrite ?Hb. }
  set (newly := drop _ _). assert (Hlen : length newly = Collector.complete_line_count r - length p.2) by (unfold newly; rewrite length_drop, length_take; lia).
  rewrite bool_decide_false by (intros Hnil; rewrite Hnil in Hlen; simpl in Hlen; lia). simpl.
  pose proof (queue_extended (StreamState.queued_lines (Message.state c)) newly now) as Hq. fold (queue c) in Hq.
  split; simpl; try done; [rewrite length_app; lia|]. unfold queue at 1. simpl. by rewrite Hq, (assoc_L (++)), Hl.
Qed.

(** Lines that are shown come from the front of the queue. *)
Lemma emit_streaming w d c cs p lines rest : streaming w d c cs p → StreamState.line <$> StreamState.queued_lines (Message.state c) = lines ++ rest →
  ∀ s', StreamState.collector s' = StreamState.collector (Message.state c) → StreamState.line <$> StreamState.queued_lines s' = rest →
  let r := Message.emit lines (Message.with_state s' c) in streaming w d r.1 (cs ++ omap agent_cell (option_list r.2)) p.
Proof.
  intros [Hw Hd Hb Hn Hl Hh He] Hq s' Hc Hq'. fold (queue c) in Hq. unfold Message.emit. destruct lines as [|l lines]; simpl.
  - rewrite app_nil_r. assert (Hsame : queue (Message.with_state s' c) = queue c) by (unfold queue at 1; simpl; by rewrite Hq', Hq).
    split; simpl; rewrite ?Hsame, ?Hc; done.
  - set (c' := {| Message.state := s'; Message.finishing_after_drain := Message.finishing_after_drain c; Message.header_emitted := true |}). set (cs' := cs ++ [(l :: lines, negb (Message.header_emitted c))]).
    assert (Hshown : lines_of cs' ++ queue c' = lines_of cs ++ queue c).
    { unfold cs', lines_of. rewrite fmap_app, concat_app, <- (assoc_L (++)). f_equal. simpl. rewrite app_nil_r. unfold queue at 1. simpl. by rewrite Hq', Hq. }
    split; rewrite ?Hshown; simpl; rewrite ?Hc; try done; [|by destruct cs].
    unfold cs'. rewrite He. destruct cs as [|x cs]; simpl; [by split; [|constructor]|]. destruct Hh as [Hx Hcs]. split; [done|].
    apply Forall_app. split; [done|]. by apply Forall_singleton.
Qed.
Lemma drain_streaming w d c cs p plan : streaming w d c cs p →
  let r := CommitTick.drain_stream_controller c plan in streaming w d r.1.1 (cs ++ omap agent_cell (option_list r.1.2)) p.
Proof.
  intros Hs. destruct plan as [|n]; simpl.
  - unfold Message.on_commit_tick, StreamState.step. destruct (StreamState.queued_lines (Message.state c)) as [|q rest] eqn:Hq.
    + by apply (emit_streaming w d c cs p [] []); rewrite ?Hq.
    + by apply (emit_streaming w d c cs p [StreamState.line q] (StreamState.line <$> rest)); rewrite ?Hq.
  - unfold Message.on_commit_tick_batch, StreamState.drain_n. set (k := _ `min` _).
    pose proof (emit_streaming w d c cs p (StreamState.line <$> take k (StreamState.queued_lines (Message.state c)))
      (StreamState.line <$> drop k (StreamState.queued_lines (Message.state c))) Hs) as He.
    specialize (He ltac:(by rewrite <- fmap_app, take_drop) (StreamState.with_queue (drop k (StreamState.queued_lines (Message.state c))) (Message.state c)) eq_refl eq_refl).
    simpl in He. by destruct (Message.emit _ _).
Qed.
Lemma finalize_streaming w d c cs p now : streaming w d c cs p →
  let cs' := cs ++ omap agent_cell (option_list (Message.finalize now c).2) in
  lines_of cs' = p.2 ++ drop (length p.2) (render_markdown (final_source p.1) w d) ∧ headed cs'.
Proof.
  intros [Hw Hd Hb Hn Hl Hh He]. unfold Message.finalize, StreamState.finish, Collector.finalize_and_drain.
  rewrite Hb, Hw, Hd, Hn. fold (final_source p.1). set (r := render_markdown (final_source p.1) w d).
  set (remaining := if _ <=? _ then _ else _).
  assert (Hrest : (lines_of cs ++ queue c) ++ remaining = p.2 ++ drop (length p.2) r).
  { unfold remaining. rewrite Hl. destruct (Nat.leb_spec (length r) (length p.2)); [|done]. by rewrite drop_ge. }
  clearbody remaining. set (s1 := if bool_decide (remaining = []) then _ else _).
  assert (Hout : StreamState.line <$> StreamState.queued_lines s1 = queue c ++ remaining).
  { unfold s1. clear He. case_bool_decide as Hnil; [by rewrite Hnil, app_nil_r|]. apply queue_extended. }
  unfold StreamState.drain_all, Message.emit. rewrite Hout. rewrite <- (assoc_L (++)) in Hrest. rewrite <- Hrest.
  destruct (queue c ++ remaining) as [|l out]; simpl; [by rewrite !app_nil_r|]. unfold lines_of. rewrite fmap_app, concat_app. simpl.
  rewrite app_nil_r. split; [done|]. rewrite He. destruct cs as [|x cs]; simpl; [by split; [|constructor]|]. destruct Hh as [Hx Hcs]. split; [done|].
  apply Forall_app. split; [done|]. by apply Forall_singleton.
Qed.

(** ** The widget *)

Inductive stream_event : Type :=
| AgentDelta (delta : str) (pushed_at now : N)
| PlanDelta (delta : str) (pushed_at now : N)
| CommitTickAt (now : N).
Definition do_event (w : Widget.ChatWidget) (e : stream_event) : Widget.ChatWidget :=
  match e with
  | AgentDelta delta t now => Widget.handle_streaming_delta delta t now w
  | PlanDelta delta t now => Widget.on_plan_delta delta t now w
  | CommitTickAt now => Widget.on_commit_tick now w
  end.
Definition delta_of (e : stream_event) : option str := match e with AgentDelta delta _ _ => Some delta | _ => None end.
Definition agent_deltas (es : list stream_event) : list str := omap delta_of es.
Definition message_of (es : list stream_event) : str := concat (agent_deltas es).

Definition agent_width (w : Widget.ChatWidget) : option N := (λ n, n - 2)%N <$> Widget.last_rendered_width w.
Definition agent_controller (w : Widget.ChatWidget) : Message.StreamController :=
  match Widget.stream_controller w with Some c => c | None => Message.new (agent_width w) (Widget.cwd w) end.
(** Deltas of a message have come to the widget, after the cells [cs0] were shown. *)
Definition came (cs0 : list (list Line * bool)) (deltas : list str) (wd : option N) (d : str) (w : Widget.ChatWidget) : Prop :=
  agent_width w = wd ∧ Widget.cwd w = d ∧ (Widget.stream_controller w = None → deltas = [])
  ∧ ∃ cs, agent_cells (Widget.history w) = cs0 ++ cs ∧ streaming wd d (agent_controller w) cs (progress wd d deltas).

Lemma plan_cells_apart (c : Plan.PlanStreamController) plan :
  omap agent_cell (option_list (CommitTick.drain_plan_stream_controller c plan).1.2) = [].
Proof.
  destruct plan; simpl.
  - unfold Plan.on_commit_tick. destruct (StreamState.step _) as [s l]. unfold Plan.emit. by destruct (_ && _).
  - unfold Plan.on_commit_tick_batch. destruct (StreamState.drain_n _ _) as [s l]. unfold Plan.emit. by destruct (_ && _).
Qed.
Lemma run_commit_tick_cases policy s p scope now :
  ∃ policy' s' p' o, CommitTick.run_commit_tick policy s p scope now = (policy', s', p', o)
    ∧ ((scope = CommitTick.CatchUpOnly ∧ s' = s ∧ p' = p ∧ o = CommitTick.default_output) ∨ ∃ plan, CommitTick.apply_commit_tick_plan plan s p = (s', p', o)).
Proof.
  unfold CommitTick.run_commit_tick. destruct (Chunking.decide _ _ _) as [policy' dec].
  destruct (CommitTick.apply_commit_tick_plan (Chunking.drain_plan dec) s p) as [[s' p'] o] eqn:Ha.
  destruct scope, (Chunking.decided_mode dec); do 4 eexists; (split; [done|]); by eauto.
Qed.
(** What a plan takes from the controllers. *)
Lemma apply_plan_cases plan s p :
  let '(s', p', o) := CommitTick.apply_commit_tick_plan plan s p in
  s' = (λ c, (CommitTick.drain_stream_controller c plan).1.1) <$> s
  ∧ p' = (λ c, (CommitTick.drain_plan_stream_controller c plan).1.1) <$> p
  ∧ CommitTick.cells o = (match s with Some c => option_list (CommitTick.drain_stream_controller c plan).1.2 | None => [] end)
      ++ (match p with Some c => option_list (CommitTick.drain_plan_stream_controller c plan).1.2 | None => [] end)
  ∧ CommitTick.has_controller o = bool_decide (is_Some s ∨ is_Some p)
  ∧ CommitTick.all_idle o = (match s with Some c => (CommitTick.drain_stream_controller c plan).2 | None => true end)
      && (match p with Some c => (CommitTick.drain_plan_stream_controller c plan).2 | None => true end).
Proof.
  unfold CommitTick.apply_commit_tick_plan.
  destruct s as [c|]; [destruct (CommitTick.drain_stream_controller c plan) as [[c' cell] idle] eqn:E|];
    (destruct p as [q|]; [destruct (CommitTick.drain_plan_stream_controller q plan) as [[q' qcell] qidle] eqn:F|]); simpl; rewrite ?E, ?F; simpl;
    rewrite ?app_nil_r, ?andb_true_r; split_and!; try done.
Qed.
Lemma tick_came cs0 msg wd d w scope now : came cs0 msg wd d w → came cs0 msg wd d (Widget.run_commit_tick_with_scope scope now w).
Proof.
  intros (Hw & Hd & Hnone & cs & Hcs & Hs). unfold Widget.run_commit_tick_with_scope.
  destruct (run_commit_tick_cases (Widget.adaptive_chunking w) (Widget.stream_controller w) (Widget.plan_stream_controller w) scope now)
    as (policy & s' & p' & o & -> & [(_ & -> & -> & ->)|[plan Hplan]]).
  - simpl. split_and!; [done|done|done|]. exists cs. simpl. by rewrite app_nil_r.
  - pose proof (apply_plan_cases plan (Widget.stream_controller w) (Widget.plan_stream_controller w)) as Hcases. rewrite Hplan in Hcases.
    destruct Hcases as (-> & -> & Hcells & _). set (w1 := Widget.add_boxed_history _ _).
    assert (Hw1 : came cs0 msg wd d w1); [|by destruct (_ && _)].
    split_and!; [done|done|by destruct (Widget.stream_controller w)|].
    unfold agent_controller in *. unfold w1. simpl. rewrite Hcells. unfold agent_cells in *. rewrite !omap_app, Hcs.
    replace (omap agent_cell (match Widget.plan_stream_controller w with Some _ => _ | None => _ end)) with (@nil (list Line * bool))
      by (destruct (Widget.plan_stream_controller w) as [q|]; [by rewrite plan_cells_apart|done]).
    rewrite app_nil_r. destruct (Widget.stream_controller w) as [c|]; simpl.
    + eexists. rewrite <- (assoc_L (++)). split; [done|]. by apply drain_streaming.
    + exists cs. by rewrite app_nil_r.
Qed.
Lemma lines_came_came cs0 msg wd d w queued now : came cs0 msg wd d w → came cs0 msg wd d (Widget.lines_came queued now w).
Proof. intros Hw. unfold Widget.lines_came. destruct queued; [|done]. by apply tick_came. Qed.
Lemma do_event_came cs0 deltas wd d w e : came cs0 deltas wd d w → came cs0 (deltas ++ option_list (delta_of e)) wd d (do_event w e).
Proof.
  intros Hcame. destruct e as [delta t now|delta t now|now]; simpl; rewrite ?app_nil_r; [..|by apply tick_came].
  - unfold Widget.handle_streaming_delta. fold (agent_width w). fold (agent_controller w).
    destruct Hcame as (Hw & Hd & Hnone & cs & Hcs & Hs). pose proof (push_streaming _ _ _ _ _ delta t Hs) as Hp.
    destruct (Message.push delta t (agent_controller w)) as [c q]. apply lines_came_came. split_and!; [done..|]. exists cs. split; [done|].
    unfold progress. by rewrite foldl_snoc.
  - unfold Widget.on_plan_delta. destruct (Plan.push _ _ _) as [c q]. by apply lines_came_came.
Qed.
Lemma events_came cs0 es deltas wd d w : came cs0 deltas wd d w → came cs0 (deltas ++ agent_deltas es) wd d (foldl do_event w es).
Proof.
  revert deltas w. induction es as [|e es IH]; intros deltas w Hw; [by rewrite app_nil_r|].
  replace (deltas ++ agent_deltas (e :: es)) with ((deltas ++ option_list (delta_of e)) ++ agent_deltas es)
    by (rewrite <- (assoc_L (++)); f_equal; unfold agent_deltas; simpl; by destruct (delta_of e)).
  by apply IH, do_event_came.
Qed.

(** ** Waiting lines *)

Definition agent_queue (w : Widget.ChatWidget) : nat := match Widget.stream_controller w with Some c => Message.queued_lines c | None => 0 end.
Definition plan_queue (w : Widget.ChatWidget) : nat := match Widget.plan_stream_controller w with Some c => Plan.queued_lines c | None => 0 end.
Definition waiting (w : Widget.ChatWidget) : nat := agent_queue w `max` plan_queue w.

Lemma emit_state lines c : Message.state (Message.emit lines c).1 = Message.state c.
Proof. by destruct lines. Qed.
Lemma plan_emit_state lines pad c : Plan.state (Plan.emit lines pad c).1 = Plan.state c.
Proof. unfold Plan.emit. by destruct (_ && _). Qed.
Lemma idle_queued s : StreamState.is_idle s = (StreamState.queued_len s =? 0).
Proof. unfold StreamState.is_idle, StreamState.queued_len. by destruct (StreamState.queued_lines s). Qed.
(** A drain takes a line at least, and reports an empty queue. *)
Lemma drain_queue c plan :
  let r := CommitTick.drain_stream_controller c plan in
  Message.queued_lines r.1.1 ≤ Message.queued_lines c - 1 ∧ r.2 = (Message.queued_lines r.1.1 =? 0).
Proof.
  unfold Message.queued_lines. destruct plan as [|n]; simpl.
  - unfold Message.on_commit_tick, StreamState.step, StreamState.queued_len.
    destruct (StreamState.queued_lines (Message.state c)) as [|q rest] eqn:Hq.
    + simpl. rewrite idle_queued. unfold StreamState.queued_len. simpl. rewrite Hq. simpl. split; [lia|done].
    + destruct (Message.emit _ _) as [c' cell] eqn:E. pose proof (emit_state [StreamState.line q] (Message.with_state (StreamState.with_queue rest (Message.state c)) c)) as Hs.
      rewrite E in Hs. simpl in *. rewrite idle_queued, Hs. simpl. split; [lia|done].
  - unfold Message.on_commit_tick_batch, StreamState.drain_n. set (k := _ `min` _). set (rest := drop k _).
    destruct (Message.emit _ _) as [c' cell] eqn:E. match type of E with Message.emit ?l ?d = _ => pose proof (emit_state l d) as Hs end.
    rewrite E in Hs. simpl in *. rewrite idle_queued, Hs. unfold StreamState.queued_len. simpl. unfold rest, k. rewrite length_drop. split; [lia|done].
Qed.
Lemma plan_drain_queue c plan :
  let r := CommitTick.drain_plan_stream_controller c plan in
  Plan.queued_lines r.1.1 ≤ Plan.queued_lines c - 1 ∧ r.2 = (Plan.queued_lines r.1.1 =? 0).
Proof.
  unfold Plan.queued_lines. destruct plan as [|n]; simpl.
  - unfold Plan.on_commit_tick, StreamState.step, StreamState.queued_len.
    destruct (StreamState.queued_lines (Plan.state c)) as [|q rest] eqn:Hq;
      (destruct (Plan.emit _ _ _) as [c' cell] eqn:E; match type of E with Plan.emit ?l ?b ?d = _ => pose proof (plan_emit_state l b d) as Hs end;
       rewrite E in Hs; simpl in *; rewrite idle_queued, Hs; unfold StreamState.queued_len; simpl; rewrite ?Hq; simpl; split; [lia|done]).
  - unfold Plan.on_commit_tick_batch, StreamState.drain_n. set (k := _ `min` _). set (rest := drop k _).
    destruct (Plan.emit _ _ _) as [c' cell] eqn:E. match type of E with Plan.emit ?l ?b ?d = _ => pose proof (plan_emit_state l b d) as Hs end.
    rewrite E in Hs. simpl in *. rewrite idle_queued, Hs. unfold StreamState.queued_len. simpl. unfold rest, k. rewrite length_drop. split; [lia|done].
Qed.
Definition streams (w : Widget.ChatWidget) : Prop := is_Some (Widget.stream_controller w) ∨ is_Some (Widget.plan_stream_controller w).
(** A tick does nothing, or takes lines from both queues and stops the animation when nothing waits. *)
Lemma tick_queues scope now w :
  let w' := Widget.run_commit_tick_with_scope scope now w in
  (scope = CommitTick.CatchUpOnly ∧ waiting w' = waiting w ∧ (streams w' ↔ streams w) ∧ Widget.animating w' = Widget.animating w)
  ∨ (waiting w' ≤ waiting w - 1 ∧ (streams w' ↔ streams w)
     ∧ (Widget.animating w' = if bool_decide (streams w) && (waiting w' =? 0) then false else Widget.animating w)).
Proof.
  unfold Widget.run_commit_tick_with_scope.
  destruct (run_commit_tick_cases (Widget.adaptive_chunking w) (Widget.stream_controller w) (Widget.plan_stream_controller w) scope now)
    as (policy & s' & p' & o & -> & [(Hscope & -> & -> & ->)|[plan Hplan]]); [by left|right].
  pose proof (apply_plan_cases plan (Widget.stream_controller w) (Widget.plan_stream_controller w)) as Hcases. rewrite Hplan in Hcases.
  destruct Hcases as (-> & -> & _ & Hhas & Hidle). fold (streams w) in Hhas. rewrite Hhas, Hidle. set (w1 := Widget.add_boxed_history _ _).
  assert (Hq : waiting w1 ≤ waiting w - 1 ∧ (streams w1 ↔ streams w)
    ∧ (match Widget.stream_controller w with Some c => (CommitTick.drain_stream_controller c plan).2 | None => true end
       && match Widget.plan_stream_controller w with Some c => (CommitTick.drain_plan_stream_controller c plan).2 | None => true end) = (waiting w1 =? 0)).
  { clear Hplan Hhas Hidle. unfold waiting, agent_queue, plan_queue, streams, w1. simpl. clear w1.
    assert (Hand : ∀ A B C : Prop, B → A ∧ C → A ∧ B ∧ C) by tauto. apply Hand; [by rewrite !fmap_is_Some|]. clear Hand.
    destruct (Widget.stream_controller w) as [c|]; [destruct (drain_queue c plan) as [Hc ->]|];
      (destruct (Widget.plan_stream_controller w) as [q|]; [destruct (plan_drain_queue q plan) as [Hp ->]|]); simpl in *;
      (split; [lia|]); apply eq_true_iff_eq; rewrite ?andb_true_iff, ?Nat.eqb_eq; lia. }
  destruct Hq as (Hq & Hst & ->). destruct (bool_decide (streams w) && (waiting w1 =? 0)) eqn:E.
  - change (waiting (Widget.set_animation false w1)) with (waiting w1). by rewrite E.
  - by rewrite E.
Qed.

(** The widget of a session; a turn that starts or ends drops controllers. *)
Definition new_widget (width : option N) (d : str) : Widget.ChatWidget := {|
  Widget.stream_controller := None; Widget.plan_stream_controller := None; Widget.adaptive_chunking := Chunking.reset; Widget.history := [];
  Widget.animating := false; Widget.last_rendered_width := width; Widget.cwd := d |}.
Inductive reachable : Widget.ChatWidget → Prop :=
| reachable_new width d : reachable (new_widget width d)
| reachable_event w e : reachable w → reachable (do_event w e)
| reachable_flush w now : reachable w → reachable (Widget.flush_answer_stream_with_separator now w)
| reachable_turn w : reachable w → reachable (Widget.with_streams None None Chunking.reset w).
Definition animated (w : Widget.ChatWidget) : Prop := 0 < waiting w → Widget.animating w = true.
Lemma tick_animated scope now w : animated w → animated (Widget.run_commit_tick_with_scope scope now w).
Proof.
  unfold animated. intros Hw Hwait. destruct (tick_queues scope now w) as [(_ & Hq & _ & ->)|(Hq & _ & ->)]; [apply Hw; lia|].
  rewrite (proj2 (Nat.eqb_neq _ _)), andb_false_r by lia. apply Hw. lia.
Qed.
Lemma push_queue delta now s : (StreamState.push delta now s).2 = false →
  StreamState.queued_lines (StreamState.push delta now s).1 = StreamState.queued_lines s.
Proof.
  unfold StreamState.push. destruct (contains_char delta NL); [|done]. destruct (Collector.commit_complete_lines _) as [c l]. by case_bool_decide.
Qed.
Lemma reachable_animated w : reachable w → animated w.
Proof.
  induction 1 as [width d|w e _ IH|w now _ IH|w _ IH]; unfold animated in *; [cbv; lia| | |cbv; lia].
  - destruct e as [delta t now|delta t now|now]; simpl; [..|by apply tick_animated].
    + unfold Widget.handle_streaming_delta, Message.push. set (c := match Widget.stream_controller w with Some c => c | None => _ end).
      pose proof (push_queue delta t (Message.state c)) as Hp. destruct (StreamState.push delta t (Message.state c)) as [s q]. simpl in *.
      destruct q; simpl; [by apply tick_animated|]. specialize (Hp eq_refl). unfold waiting, agent_queue, plan_queue in *. simpl in *.
      unfold Message.queued_lines, StreamState.queued_len in *. simpl. rewrite Hp. unfold c. destruct (Widget.stream_controller w); [exact IH|].
      simpl in *. exact IH.
    + unfold Widget.on_plan_delta, Plan.push. set (c := match Widget.plan_stream_controller w with Some c => c | None => _ end).
      pose proof (push_queue delta t (Plan.state c)) as Hp. destruct (StreamState.push delta t (Plan.state c)) as [s q]. simpl in *.
      destruct q; simpl; [by apply tick_animated|]. specialize (Hp eq_refl). unfold waiting, agent_queue, plan_queue in *. simpl in *.
      unfold Plan.queued_lines, StreamState.queued_len in *. simpl. rewrite Hp. unfold c. destruct (Widget.plan_stream_controller w); [exact IH|].
      simpl in *. exact IH.
  - unfold waiting, agent_queue, plan_queue in *. simpl in *. intros Hp. apply IH. lia.
Qed.
End Message.

(** ** A history of the policy *)

(** A decision: when, on what, and the gears before and after. *)
Record decision_made : Type := { made_at : N; seen : Chunking.QueueSnapshot; gear_before : Chunking.ChunkingMode; gear_after : Chunking.ChunkingMode }.
(** The decisions of a policy since it was reset, the last one first. *)
Inductive decisions : list decision_made → Chunking.AdaptiveChunkingPolicy → Prop :=
| decisions_reset : decisions [] Chunking.reset
| decisions_decide log p snapshot now :
    decisions log p → Forall (λ m, made_at m <= now)%N log →
    decisions ({| made_at := now; seen := snapshot; gear_before := Chunking.mode p;
                  gear_after := Chunking.mode (Chunking.decide snapshot now p).1 |} :: log) (Chunking.decide snapshot now p).1.
Definition left_catch_up (m : decision_made) : Prop := gear_before m = Chunking.CatchUp ∧ gear_after m = Chunking.Smooth.
Definition entered (m : decision_made) : Prop := gear_before m = Chunking.Smooth ∧ gear_after m = Chunking.CatchUp.
(** A decision in catch-up mode that found little waiting. *)
Definition calm (m : decision_made) : Prop :=
  gear_after m = Chunking.CatchUp ∧ Chunking.queued_lines (seen m) ≠ 0 ∧ Chunking.should_exit_catch_up (seen m) = true.

(** What the fields of the policy say of its decisions. *)
Record remembers (log : list decision_made) (p : Chunking.AdaptiveChunkingPolicy) : Prop := {
  remembers_exit : Chunking.mode p = Chunking.Smooth → ∀ m, m ∈ log → left_catch_up m →
    ∃ e, Chunking.last_catch_up_exit_at p = Some e ∧ (made_at m <= e)%N;
  remembers_calm : ∀ since, Chunking.below_exit_threshold_since p = Some since →
    Chunking.mode p = Chunking.CatchUp ∧ ∃ recent first older, log = recent ++ first :: older ∧ made_at first = since ∧ Forall calm (recent ++ [first]);
}.
Lemma decide_remembers log p snapshot now m :
  remembers log p → Forall (λ m, made_at m <= now)%N log → made_at m = now → seen m = snapshot → gear_before m = Chunking.mode p →
  gear_after m = Chunking.mode (Chunking.decide snapshot now p).1 →
  remembers (m :: log) (Chunking.decide snapshot now p).1.
Proof.
  intros [Hexit Hcalm] Htimes Hat Hseen Hbefore Hafter. rewrite Forall_forall in Htimes.
  assert (Hnow : ∀ u, u ∈ m :: log → (made_at u <= now)%N) by (intros u [->|Hu]%elem_of_cons; [lia|by apply Htimes]).
  assert (Hold : Chunking.mode p = Chunking.Smooth → ∀ u, u ∈ m :: log → left_catch_up u →
    ∃ e, Chunking.last_catch_up_exit_at p = Some e ∧ (made_at u <= e)%N).
  { intros Hsmooth u [->|Hu]%elem_of_cons; [intros [Hc _]; congruence|by apply Hexit]. }
  unfold Chunking.decide in *. destruct (Chunking.queued_lines snapshot =? 0) eqn:Hempty; simpl in *.
  { split; simpl; [|done]. intros _. unfold Chunking.note_catch_up_exit. destruct (Chunking.mode p) eqn:Hmode; [by apply Hold|]. simpl.
    intros u Hu _. exists now. auto. }
  apply Nat.eqb_neq in Hempty. destruct (Chunking.mode p) eqn:Hmode; simpl in *.
  - unfold Chunking.maybe_enter_catch_up in *. destruct (negb _); [|destruct (_ && _)]; simpl in *.
    1,2: split; [by intros _; apply Hold|]; intros since Hs; by destruct (Hcalm since Hs) as [? _].
    split; simpl; [done|done].
  - unfold Chunking.maybe_exit_catch_up in *. destruct (Chunking.should_exit_catch_up snapshot) eqn:Hexits; simpl in *.
    2: { split; simpl; [by rewrite Hmode|done]. }
    destruct (Chunking.below_exit_threshold_since p) as [since|] eqn:Hbelow.
    + destruct (_ <=? _)%N; simpl in *.
      * split; simpl; [|done]. intros _ u Hu _. exists now. auto.
      * split; [by rewrite Hmode|]. rewrite Hbelow. intros ? [= <-]. split; [done|].
        destruct (Hcalm since eq_refl) as (_ & recent & first & older & -> & Hfirst & Hall). exists (m :: recent), first, older.
        split_and!; [done|done|]. simpl. constructor; [|done]. split_and!; [by rewrite Hafter|by rewrite Hseen|by rewrite Hseen].
    + split; simpl; [by rewrite Hmode|]. intros ? [= <-]. split; [done|]. exists [], m, log. split_and!; [done|done|]. simpl. apply Forall_singleton.
      split_and!; [by rewrite Hafter; simpl|by rewrite Hseen|by rewrite Hseen].
Qed.
Lemma decisions_remembers log p : decisions log p → remembers log p.
Proof.
  induction 1 as [|log p snapshot now _ IH Htimes]; [split; [by intros _ m Hm%not_elem_of_nil|done]|]. by apply decide_remembers.
Qed.
End TranscriptFacts.
Import TranscriptFacts.

Module TranscriptPromises.

(** C12. Whatever the Markdown renderer does and whatever ticks and plan
    deltas come between the deltas of a message, the cells that show it have
    together exactly these lines, in order, only the first cell with the
    header: what each delta with a line break commits, that is the complete
    lines beyond those committed before in what the source up to its last line
    break renders to, and then what is beyond them in the rendering of the
    whole message. They are the lines that the whole message renders to when
    its complete lines stay what they are until its end, however it is cut
    into deltas; a heading that is underlined later does not stay what it was. *)
Theorem streamed_message_arrives `{Markdown} es now w :
  Widget.stream_controller w = None → agent_deltas es ≠ [] →
  let w' := Widget.flush_answer_stream_with_separator now (foldl do_event w es) in
  ∃ cs, agent_cells (Widget.history w') = agent_cells (Widget.history w) ++ cs
    ∧ headed cs
    ∧ lines_of cs = shown_lines (agent_width w) (Widget.cwd w) (agent_deltas es)
    ∧ (lines_stay (agent_width w) (Widget.cwd w) (message_of es) →
         lines_of cs = render_markdown (final_source (message_of es)) (agent_width w) (Widget.cwd w)).
Proof.
  intros Hnone Hmsg. destruct (events_came (agent_cells (Widget.history w)) es [] (agent_width w) (Widget.cwd w) w) as (_ & _ & Hctl & cs & Hcs & Hs).
  { split_and!; [done..|]. exists []. rewrite app_nil_r. unfold agent_controller. rewrite Hnone. split; [done|]. apply new_streaming. }
  simpl in *. unfold agent_controller in Hs. destruct (Widget.stream_controller (foldl do_event w es)) as [c|]; [|by rewrite Hctl in Hmsg].
  destruct (finalize_streaming _ _ _ _ _ now Hs) as [Hlines Hheaded].
  exists (cs ++ omap agent_cell (option_list (Message.finalize now c).2)).
  assert (Hshown : lines_of (cs ++ omap agent_cell (option_list (Message.finalize now c).2)) = shown_lines (agent_width w) (Widget.cwd w) (agent_deltas es)).
  { rewrite Hlines. unfold shown_lines. by destruct (progress _ _ _). }
  split_and!; [|done|done|intros Hstay; rewrite Hshown; by apply shown_lines_stay].
  simpl. unfold agent_cells in *. by rewrite omap_app, Hcs, (assoc_L (++)).
Qed.

Theorem queued_lines_get_shown `{Markdown} w nows :
  reachable w →
  (0 < waiting w → Widget.animating w = true)
  ∧ (waiting w ≤ length nows → 0 < length nows →
     let w' := foldl (λ w now, Widget.on_commit_tick now w) w nows in
     waiting w' = 0 ∧ (streams w → Widget.animating w' = false)).
Proof.
  intros Hw. split; [by apply reachable_animated|]. clear Hw. destruct nows as [|now nows]; [simpl; lia|]. intros Hlen _. unfold Widget.on_commit_tick. revert w now Hlen.
  induction nows as [|now' nows IH]; intros w now Hlen; simpl in *;
    (destruct (tick_queues CommitTick.AnyMode now w) as [(? & _)|(Hq & Hs & Ha)]; [done|]).
  - split; [lia|]. intros Hst. rewrite Ha, bool_decide_true by done. by rewrite (proj2 (Nat.eqb_eq _ _)) by lia.
  - destruct (IH (Widget.run_commit_tick_with_scope CommitTick.AnyMode now w) now') as [Hz Hoff]; [lia|]. split; [exact Hz|].
    intros Hst. apply Hoff. by apply Hs.
Qed.

(** C13. In every history of decisions, catch-up mode is left while lines wait
    only when all decisions over the last 250 ms at least found little
    waiting, and it is entered only under pressure and, unless the backlog is
    severe, not within 250 ms of leaving it. *)
Theorem gears_change_with_hysteresis m log p :
  decisions (m :: log) p →
  (left_catch_up m → Chunking.queued_lines (seen m) ≠ 0 →
     Chunking.should_exit_catch_up (seen m) = true
     ∧ ∃ recent first older, log = recent ++ first :: older ∧ Forall calm (recent ++ [first])
         ∧ (Chunking.EXIT_HOLD <= made_at m - made_at first)%N)
  ∧ (entered m →
     Chunking.should_enter_catch_up (seen m) = true
     ∧ (Chunking.is_severe_backlog (seen m) = true
        ∨ ∀ u, u ∈ log → left_catch_up u → (Chunking.REENTER_CATCH_UP_HOLD <= made_at m - made_at u)%N)).
Proof.
  inversion 1 as [|log0 p0 snapshot now Hlog Htimes E1 E2]; subst. apply decisions_remembers in Hlog as [Hexit Hcalm]. unfold left_catch_up, entered. simpl.
  unfold Chunking.decide. split.
  - intros [Hbefore Hafter] Hne. rewrite (proj2 (Nat.eqb_neq _ _)) in Hafter by done. rewrite Hbefore in Hafter. simpl in Hafter.
    unfold Chunking.maybe_exit_catch_up in Hafter. destruct (Chunking.should_exit_catch_up snapshot); [|simpl in Hafter; congruence]. split; [done|]. simpl in Hafter.
    destruct (Chunking.below_exit_threshold_since p0) as [since|]; [|simpl in Hafter; congruence].
    destruct (N.leb_spec Chunking.EXIT_HOLD (now - since)); [|congruence].
    destruct (Hcalm since eq_refl) as (_ & recent & first & older & Hl & Hf & Hall). exists recent, first, older. by rewrite Hf.
  - intros [Hbefore Hafter]. destruct (Chunking.queued_lines snapshot =? 0); [done|]. rewrite Hbefore in Hafter. simpl in Hafter.
    unfold Chunking.maybe_enter_catch_up in Hafter. destruct (Chunking.should_enter_catch_up snapshot); [|simpl in Hafter; congruence]. split; [done|]. simpl in Hafter.
    destruct (Chunking.is_severe_backlog snapshot); [by left|right]. intros u Hu Hleft. rewrite andb_true_r in Hafter.
    destruct (Hexit Hbefore u Hu Hleft) as (e & He & Hle). unfold Chunking.reentry_hold_active in Hafter. rewrite He in Hafter.
    destruct (N.ltb_spec (now - e) Chunking.REENTER_CATCH_UP_HOLD); [simpl in Hafter; congruence|]. lia.
Qed.

(** ** Examples *)

(** A renderer that shows the lines of a source. *)
#[local] Instance plain_styles : Styles := {| Style := unit; default_style := (); dim := (); bold := (); proposed_plan_style := () |}.
Fixpoint terminated (acc : str) (s : str) : list str :=
  match s with [] => [] | c :: s' => if (c =? NL)%N then acc :: terminated [] s' else terminated (acc ++ [c]) s' end.
#[local] Instance plain_markdown : Markdown := λ s _ _, raw_line <$> terminated [] s.
Lemma terminated_app acc a b : Collector.through_last_newline a = Some a → terminated acc (a ++ b) = terminated acc a ++ terminated [] b.
Proof.
  revert acc. induction a as [|c a IH]; intros acc; simpl; [done|]. destruct (Collector.through_last_newline a) as [r|] eqn:Ha.
  - intros [= ->]. by destruct (c =? NL)%N; rewrite ?IH.
  - destruct (N.eqb_spec c NL) as [->|]; [|done]. by intros [= <-].
Qed.
Lemma plain_stays w d msg : lines_stay w d msg.
Proof.
  intros a b Hmsg Ha. unfold render_markdown, plain_markdown.
  assert (Hfinal : ∃ b', final_source msg = a ++ b').
  { unfold final_source. rewrite Hmsg. case_match; [by exists b|]. exists (b ++ [NL]). by rewrite <- (assoc_L (++)). }
  destruct Hfinal as [b' ->]. rewrite terminated_app, fmap_app by done.
  set (r := raw_line <$> terminated [] a). exists (drop (Collector.complete_line_count r) r ++ (raw_line <$> terminated [] b')).
  by rewrite (assoc_L (++)), take_drop.
Qed.
Definition at_ms (n : N) : N := Chunking.millis n.
Definition empty_widget : Widget.ChatWidget := new_widget (Some 80)%N (lit "/work").
Definition line_break : str := [NL].
(** A message in pieces, with ticks between them. *)
Definition pieces : list stream_event :=
  [AgentDelta (lit "one" ++ line_break ++ lit "tw") (at_ms 0) (at_ms 0); CommitTickAt (at_ms 10); AgentDelta (lit "o" ++ line_break) (at_ms 20) (at_ms 20);
   AgentDelta (lit "three" ++ line_break) (at_ms 21) (at_ms 21); AgentDelta (lit "end") (at_ms 22) (at_ms 22)]%N.
Lemma streamed_message_arrives_witness :
  agent_deltas pieces ≠ [] ∧ lines_stay (agent_width empty_widget) (Widget.cwd empty_widget) (message_of pieces) ∧
  let w' := Widget.flush_answer_stream_with_separator (at_ms 30) (foldl do_event empty_widget pieces) in
  ∃ cs, agent_cells (Widget.history w') = agent_cells (Widget.history empty_widget) ++ cs
    ∧ headed cs
    ∧ lines_of cs = shown_lines (agent_width empty_widget) (Widget.cwd empty_widget) (agent_deltas pieces)
    ∧ (lines_stay (agent_width empty_widget) (Widget.cwd empty_widget) (message_of pieces) →
         lines_of cs = render_markdown (final_source (message_of pieces)) (agent_width empty_widget) (Widget.cwd empty_widget)).
Proof. split; [done|]. split; [apply plain_stays|]. apply (streamed_message_arrives pieces (at_ms 30) empty_widget); done. Defined.
Example pieces_cells :
  (λ c, length c.1) <$> agent_cells (Widget.history (Widget.flush_answer_stream_with_separator 0 (foldl do_event empty_widget pieces))) = [1; 3].
Proof. by vm_compute. Qed.

(** A renderer that, as Markdown does, makes a heading of a line with [===] below it. *)
Fixpoint with_headings (ls : list str) : list str :=
  match ls with
  | t :: ((u :: ls') as rest) => if bool_decide (u = lit "===") then (lit "# " ++ t) :: with_headings ls' else t :: with_headings rest
  | _ => ls
  end.
Definition heading_markdown : Markdown := λ s _ _, raw_line <$> with_headings (terminated [] s).
(** The line is shown before what makes it a heading has come, and stays as it was. *)
Example heading_comes_too_late :
  let es := [AgentDelta (lit "Title" ++ line_break) 0 0; AgentDelta (lit "===" ++ line_break) 1 1; AgentDelta (lit "text") 2 2]%N in
  lines_of (agent_cells (Widget.history (@Widget.flush_answer_stream_with_separator _ heading_markdown 3 (foldl (@do_event _ heading_markdown) empty_widget es))))
    = raw_line <$> [lit "Title"; lit "text"]
  ∧ @render_markdown _ heading_markdown (final_source (message_of es)) None [] = raw_line <$> [lit "# Title"; lit "text"].
Proof. by vm_compute. Qed.

Definition three_lines : stream_event := AgentDelta (lit "a" ++ line_break ++ lit "b" ++ line_break ++ lit "c" ++ line_break) 0 0.
Lemma queued_lines_get_shown_witness :
  waiting (do_event empty_widget three_lines) = 3
  ∧ (0 < waiting (do_event empty_widget three_lines) → Widget.animating (do_event empty_widget three_lines) = true)
  ∧ (waiting (do_event empty_widget three_lines) ≤ length [1; 2; 3]%N → 0 < length [1; 2; 3]%N →
     let w' := foldl (λ w now, Widget.on_commit_tick now w) (do_event empty_widget three_lines) [1; 2; 3]%N in
     waiting w' = 0 ∧ (streams (do_event empty_widget three_lines) → Widget.animating w' = false)).
Proof. split; [by vm_compute|]. apply (queued_lines_get_shown (do_event empty_widget three_lines) [1; 2; 3]%N). repeat constructor. Defined.
(** When a message ends while lines wait, nothing stops the animation. *)
Example animation_outlives_message :
  let w := Widget.flush_answer_stream_with_separator 0 (do_event empty_widget three_lines) in
  Widget.animating w = true ∧ Widget.animating (foldl (λ w now, Widget.on_commit_tick now w) w (repeat 5%N 100)) = true.
Proof. by vm_compute. Qed.
(** A stop and a start while the thread sleeps leave two threads that tick. *)
Example two_threads_tick :
  let start := Animation.start_commit_animation in let stop := Animation.stop_commit_animation in
  Animation.sleeping_threads (Animation.wake_thread (start (stop (start {| Animation.commit_anim_running := false; Animation.sleeping_threads := 0 |})))) = 2.
Proof. done. Qed.

Definition decide_on (l : list decision_made * Chunking.AdaptiveChunkingPolicy) (q : N * nat * N) : list decision_made * Chunking.AdaptiveChunkingPolicy :=
  let '(now, n, age) := q in let s := {| Chunking.queued_lines := n; Chunking.oldest_age := Some (at_ms age) |} in
  let p' := (Chunking.decide s (at_ms now) l.2).1 in
  ({| made_at := at_ms now; seen := s; gear_before := Chunking.mode l.2; gear_after := Chunking.mode p' |} :: l.1, p').
Lemma decide_on_decisions l q : decisions l.1 l.2 → forallb (λ m, made_at m <=? at_ms q.1.1)%N l.1 = true → decisions (decide_on l q).1 (decide_on l q).2.
Proof.
  intros Hl Hq. destruct q as [[now n] age]. apply decisions_decide; [done|]. rewrite forallb_forall in Hq. apply Forall_forall.
  intros m Hm. apply N.leb_le, Hq. by apply list_elem_of_In.
Qed.
(** A burst, quiet for long enough, another burst too soon and once more. *)
Definition gears : list (N * nat * N) := [(0, 8%nat, 5); (10, 1%nat, 5); (300, 1%nat, 5); (400, 9%nat, 5); (600, 9%nat, 5)]%N.
Definition geared (k : nat) : list decision_made * Chunking.AdaptiveChunkingPolicy := foldl decide_on ([], Chunking.reset) (take k gears).
Lemma geared_decisions : decisions (geared 3).1 (geared 3).2 ∧ decisions (geared 5).1 (geared 5).2.
Proof. split; repeat (apply (decide_on_decisions _ (_, _, _)); [|by vm_compute]); apply decisions_reset. Qed.
Definition nobody : decision_made :=
  {| made_at := 0; seen := {| Chunking.queued_lines := 0; Chunking.oldest_age := None |}; gear_before := Chunking.Smooth; gear_after := Chunking.Smooth |}.
Lemma gears_change_with_hysteresis_witness :
  let m := default nobody (head (geared 3).1) in let log := tail (geared 3).1 in
  left_catch_up m
  ∧ (left_catch_up m → Chunking.queued_lines (seen m) ≠ 0 →
     Chunking.should_exit_catch_up (seen m) = true
     ∧ ∃ recent first older, log = recent ++ first :: older ∧ Forall calm (recent ++ [first])
         ∧ (Chunking.EXIT_HOLD <= made_at m - made_at first)%N)
  ∧ (entered m →
     Chunking.should_enter_catch_up (seen m) = true
     ∧ (Chunking.is_severe_backlog (seen m) = true
        ∨ ∀ u, u ∈ log → left_catch_up u → (Chunking.REENTER_CATCH_UP_HOLD <= made_at m - made_at u)%N)).
Proof. split; [by vm_compute|]. apply (gears_change_with_hysteresis (default nobody (head (geared 3).1)) (tail (geared 3).1) (geared 3).2), geared_decisions. Defined.
Example gears_of_bursts : gear_after <$> reverse (geared 5).1 = [Chunking.CatchUp; Chunking.CatchUp; Chunking.Smooth; Chunking.Smooth; Chunking.CatchUp].
Proof. by vm_compute. Qed.
End TranscriptPromises.
